(* ===== verification/_CoqProject ===== *)
-Q . S2P
Prelude.v
PyDict.v
Effect.v
PyHeap.v
States.v
PyStr.v
Functional.v
ChainMap.v
Settings.v
LimitedSet.v
Buffers.v
CronParser.v
Calendar.v
CronSchedule.v
Graph.v
Bootsteps.v
WorkerState.v
RegistryRaces.v
Request.v
Beat.v
Bisect.v
EventState.v
Routing.v
Autoscale.v
Trace.v
Exceptions.v
Backoff.v
TaskRetry.v
Payload.v
Backend.v
Chord.v
Mark.v
Polling.v
Canvas.v
ChainSteps.v
Groups.v
Results.v
StoredResults.v
Messages.v
RateLimit.v
Consumer.v
RedisChord.v
RedisConsumer.v
Signals.v
EventDispatch.v
RemoteControl.v
Gossip.v
AppRegistry.v
Calling.v
AsyncResults.v
RpcBackend.v
ControlClient.v
SafeRepr.v
DelayedDelivery.v
Stamping.v
PersistentSchedule.v
MultiParser.v
MultiCluster.v
Interleave.v
Pidfile.v
ElasticStore.v
Security.v
