(* ===== verification/Prelude.v ===== *)
(** * Celery: a verification of its task life cycle

    Celery runs tasks.  A client describes work as signatures and composes them
    into chains, groups and chords (celery/canvas.py); sending routes each message
    to a queue (celery/app/amqp.py, celery/app/routes.py); a worker boots its parts
    in dependency order (celery/bootsteps.py), turns messages into requests
    (celery/worker/strategy.py, celery/worker/request.py), keeps track of them
    (celery/worker/state.py) and executes the task through the tracer
    (celery/app/trace.py), which stores results in a backend
    (celery/backends/base.py), reports parts of chords and sends what comes next.
    Beat (celery/beat.py, celery/schedules.py) sends tasks on a schedule; events
    give a picture of the cluster (celery/events/state.py); data structures and
    configuration (celery/utils, celery/app/utils.py) carry all of it.

    ** How code is modelled

    A function that may raise returns an [outcome] (this file): [Ok], [Raise], or
    [Diverge] when a loop given fuel has not finished.  No theorem holds because of
    [Diverge]: those about results state [Ok] or [Raise].  Methods that
    change objects are programs of Effect.v: from a state to the state left behind
    and an outcome, so that an exception keeps what was done before it.  A call
    into other code (a broker, a signal receiver, the body of a task, a store) is a
    call logged in the state, and a parameter, usually called [run] or [fault],
    decides from the log so far how it ends: every such call may raise, each time
    differently.  Processes that interleave are a step relation (Chord.v, RedisChord.v,
    RedisConsumer.v, RegistryRaces.v, Interleave.v).  Other packages are parameters with stated laws, or type
    classes with laws ([Pool], [LRU], [Cache], [Server]), and examples
    instantiate them.  Dictionaries keep their order (PyDict.v), since the code
    iterates over them; heaps are sorted lists (PyHeap.v); text is ASCII (PyStr.v);
    times and clocks are integers, and each clock reading is an argument or comes
    from an oracle.  Logging is left out throughout.

    ** Files, sources and what is shown

    Foundations.
    - Prelude: outcomes, the monad on them, shared lemmas and tactics.
    - PyDict, PyHeap, PyStr, Bisect: Python's [dict], [heapq], text and
      [bisect.insort].
    - Effect: programs with state and exceptions; preservation ([keeps]) and a
      small logic of triples.
    - Interleave: programs made of atomic actions, run alone or together; invariants
      of the shared state with conditions on what is left of each program.

    Data structures.
    - States (celery/states.py): precedence of states is a strict weak order.
    - Functional (celery/utils/functional.py): list helpers; [regen] refines a list.
    - LimitedSet, Buffers, ChainMap (celery/utils/collections.py): the limits
      are enforced and loops end for any sequence of operations; counts agree with
      contents; lookup order of layered maps.
    - Settings (celery/utils/collections.py, celery/app/utils.py): names with
      prefixes and old names, detection of the naming scheme.
    - Graph (celery/utils/graph.py): Tarjan and Kahn together give a topological
      order on acyclic graphs.

    Worker.
    - Bootsteps (celery/bootsteps.py): boot order, start and stop.
    - WorkerState (celery/worker/state.py): the registries agree in every
      state reached by calls that do not overlap; revoked ids survive a restart.
    - RegistryRaces (celery/worker/state.py, celery/worker/strategy.py): what is left
      of that when a timer thread overtakes the registration of a request.
    - Request (celery/worker/request.py, celery/worker/strategy.py): a message is
      acknowledged or rejected at most once whatever raises.
    - Autoscale (celery/worker/autoscale.py): against the interface of pools.
    - RateLimit (celery/worker/consumer/consumer.py): requests held back in token
      buckets, while limits change and timers hold old buckets.
    - Consumer (celery/worker/consumer/consumer.py, celery/worker/consumer/tasks.py,
      celery/worker/loops.py): start and restart after lost connections, what a
      message becomes, both event loops, the prefetch count.
    - RemoteControl (celery/worker/control.py, celery/worker/consumer/mingle.py):
      commands; a revoked task never runs, by id or by stamp, and workers tell
      each other what is revoked when they start.
    - Gossip (celery/worker/consumer/gossip.py): elections over message exchanges
      in any order; lost workers are forgotten.
    - ControlClient (celery/app/control.py, celery/bin/control.py,
      celery/worker/control.py): what the methods of the client and the command
      line send is what the handlers in the workers take.
    - DelayedDelivery (celery/worker/consumer/delayed_delivery.py): every broker is
      tried, with bounded retries, and one failing queue does not hold up others.

    Schedules.
    - CronParser, Calendar, CronSchedule (celery/schedules.py, celery/utils/time.py):
      a crontab fires at the first matching minute.
    - Beat (celery/beat.py): one tick sends at most one entry, a due one; what is lost
      if the first connection fails.
    - PersistentSchedule (celery/beat.py): the database of the persistent scheduler
      and the loop of the service; runs survive a restart, and a database that
      cannot be taken over is as good as none.

    Application and calls.
    - AppRegistry (celery/app/base.py, celery/app/registry.py, celery/app/__init__.py,
      celery/_state.py, celery/local.py, celery/utils/imports.py): decorators,
      proxies and shared tasks over several applications; finalization registers
      what was declared, the first callable of a name wins.
    - Calling (celery/app/task.py, celery/app/base.py, celery/utils/quorum_queues.py):
      what a call says, in which order backend and broker hear of it, and execution
      where the call is made.

    Around the worker.
    - MultiParser, MultiCluster (celery/apps/multi.py, celery/bin/multi.py,
      celery/utils/nodenames.py, celery/utils/text.py): the options of celery multi
      reach the nodes they are for; a restart starts every node once, and only
      after its process has ended.
    - Pidfile (celery/platforms.py): the lock of a worker, run alone and together
      with another.
    - Security (celery/security): only what was signed is decoded.

    Messages, execution, results.
    - Canvas, ChainSteps, Groups (celery/canvas.py): signatures and their
      composition.  A canvas has a meaning, what its tasks compute; on canvases in
      normal form the operator [|] is composition, a chain is laid out into steps that
      compute the same, in workers and locally, and the size of a chord is the number
      of tasks that report to it if no step of its header is hollow.
    - Stamping (celery/canvas.py): stamping reaches every task of a canvas, with
      lists that are shared by reference.
    - Routing (celery/app/amqp.py, celery/app/routes.py): where a message goes.
    - Messages (celery/app/amqp.py, celery/worker/strategy.py,
      celery/worker/request.py, celery/worker/consumer/consumer.py): what a worker
      reads is what was sent; the two protocols agree on what both carry.
    - Trace (celery/app/trace.py): which calls follow each outcome of a body.
    - TaskRetry, Backoff (celery/app/task.py, celery/app/autoretry.py,
      celery/utils/time.py): retries are the same task, bounded in number.
    - Exceptions (celery/utils/serialization.py, celery/backends/base.py):
      exceptions are stored and rebuilt without calling anything else.
    - Payload, Backend, Chord, Mark, Polling (celery/backends/base.py): what
      is encoded can be decoded, success is final, a chord's callback is applied once or
      its error reported, errors reach everything that waits for them, waiting ends.
    - StoredResults (celery/backends/base.py): the backend with its conversions of
      values and exceptions; what a reader gets for a result that was stored.
    - Results (celery/result.py): tuples of results, the tree of results, joining in
      order and in order of arrival, reading with a cache and the errors of parents.
    - RedisChord, RedisConsumer (celery/backends/redis.py): counting the parts of
      a chord in a shared store under interleaving; subscriptions to results by
      several threads, none left behind by a cancel that found the lock busy, but for
      cancels between two statements of a reconnecting thread.
    - AsyncResults, RpcBackend (celery/backends/asynchronous.py,
      celery/backends/rpc.py): results that come as messages, early or late; none is
      missed and polling loses none.
    - ElasticStore (celery/backends/elasticsearch.py): writers with optimistic
      concurrency control never replace a success, nor a ready state by an unready
      one.
    - SafeRepr (celery/utils/saferepr.py): the streaming representation agrees with a
      recursive one, also on objects that contain themselves.
    - EventState (celery/events/state.py): events in any order; the list of events is
      in order as long as clocks are not zero.
    - EventDispatch (celery/events/dispatcher.py, celery/events/event.py,
      celery/events/receiver.py, celery/worker/heartbeat.py,
      celery/worker/consumer/events.py): no event is lost or sent twice by one
      thread, over connections that come and go; what two threads may do.
    - Signals (celery/utils/dispatch/signal.py): receivers, weak or strong, each
      called once, with a cache that never changes who is called; with it, senders
      must be weakly referenceable.

    ** Loops

    - LimitedSet, Buffers: purging and evicting loops take as fuel the size of what
      they shrink, and the theorems show they return.
    - Bisect: the length of the list, since the interval halves.
    - Graph: Kahn and Tarjan take the number of nodes and edges; enough is proved
      on the way to [topsort_acyclic].
    - Bootsteps: [boot_order] gives an amount of fuel that is enough for acyclic
      requirements; on a cycle no amount is ([firstpass_diverges_on_cycle]).
    - CronSchedule: the search for a date may run forever when no date matches;
      it is shown to end whenever there is one.
    - Backoff, Backend: [max_retries + 1] attempts are enough; without a limit
      fuel bounds the attempts considered, and statements hold for any fuel.
    - Mark: the size of the chain that is walked.
    - Polling: timeout divided by interval, plus two.
    - Chord: a part is finished after seven phases.
    - Canvas, ChainSteps, Groups: the size of the canvases at hand; each theorem
      says how much is enough.
    - Results: the size of the tree of results.
    - AppRegistry: the number of pending proxies, shown to be enough.
    - Calling: retries left plus one.
    - AsyncResults: a wait takes its timeout in rounds, when each round takes a second.
      The statements about buffers, here and in RpcBackend, are for fewer than a
      thousand messages, the limit at which the code's buffers drop some.
    - SafeRepr: some amount is enough for any heap, as objects that are being shown
      are not entered again; the recursive definition is as deep as the levels or
      the number of objects.
    - MultiCluster: the number of nodes plus the number of events after which
      processes that got their signal are gone.
    - Consumer: the start loop takes the number of connection attempts plus two;
      the event loops take a bound on rounds, and statements hold for any bound.

    ** Not modelled

    - Input and output, and what wraps other packages: the backends for particular
      stores but Redis, RPC and the writing of Elasticsearch; daemonisation, users and
      signals; the command line but celery multi, control and inspect; the curses
      monitor, contrib and testing; solar schedules, which wrap ephem.
    - Pools and the event loop with processes (celery/concurrency): sockets and
      processes of billiard; the autoscaler and the requests are proved against
      interfaces of pools.
    - The loading of configuration by the application object and the loaders: imports
      and attribute access of Python.
    - Of the canvas: running a chord as such ([chord.run] hands header and body to the
      backend, whose part is modelled) and [Task.replace].
    - Time zone transitions, weak references that die while in use, keys of Redis that
      expire while a chord runs, logging. *)

From stdpp Require Export base list gmap strings sorting.
From Stdlib Require Export ZArith Lia.

(** ** Outcomes of Python code

    A call returns a value, raises, or (for a fuelled loop whose fuel runs
    out) has not finished.  Theorems state [Ok] or [Raise] explicitly, so that
    [Diverge] never satisfies them by default. *)

Inductive exn :=
| KeyError
| IndexError
| ValueError
| TypeError
| AttributeError
| RuntimeError
| NotImplementedError
| StopIteration
| QueueEmpty
| ParseException
| ImproperlyConfigured
| CycleError
| QueueNotFound
| WorkerShutdown
| WorkerTerminate
| InvalidTaskError
| RuntimeTimeout
| SystemExit
| KeyboardInterrupt
| MemoryError
| TaskRevokedError
| IgnoreExc
| RejectExc
| RetryExc
| TimeLimitExceeded
| TimeoutError
| OverflowError
| ChordError
| NotRegistered
| MaxRetriesExceeded
| SchedulingError
| EncodeError
| BackendGetMetaError
| BackendStoreError
| SecurityError
| IncompleteStream
| BacklogLimitExceeded
| ExceptionGroup
| UnicodeDecodeError
| UnpicklingError
| DbmError
| EOFError
| OSError
| LockFailed
| NotFoundError
| ConflictError
| OtherExc.

#[global] Instance exn_eq_dec : EqDecision exn.
Proof. solve_decision. Defined.

(** The exceptions that [except Exception] catches: all but the ones derived
    from [BaseException] directly *)
Definition is_Exception (e : exn) : bool :=
  match e with
  | WorkerShutdown | WorkerTerminate | SystemExit | KeyboardInterrupt => false
  | _ => true
  end.

Inductive outcome (A : Type) :=
| Ok (a : A)
| Raise (e : exn)
| Diverge.
Arguments Ok {A} a.
Arguments Raise {A} e.
Arguments Diverge {A}.

#[global] Instance outcome_eq_dec {A} `{EqDecision A} : EqDecision (outcome A).
Proof. solve_decision. Defined.

Definition obind {A B} (c : outcome A) (k : A → outcome B) : outcome B :=
  match c with
  | Ok a => k a
  | Raise e => Raise e
  | Diverge => Diverge
  end.

Definition otry {A} (c : outcome A) (h : exn → outcome A) : outcome A :=
  match c with
  | Raise e => h e
  | _ => c
  end.

Definition of_option {A} (e : exn) (o : option A) : outcome A :=
  match o with
  | Some a => Ok a
  | None => Raise e
  end.

Declare Scope py_scope.
Delimit Scope py_scope with py.
Notation "'let!' x := c 'in' k" := (obind c (λ x, k))
  (at level 10, x pattern, c at level 100, k at level 200) : py_scope.
Open Scope py_scope.

Definition is_Ok {A} (c : outcome A) : Prop := ∃ a, c = Ok a.

Lemma obind_Ok {A B} (c : outcome A) (k : A → outcome B) b :
  obind c k = Ok b ↔ ∃ a, c = Ok a ∧ k a = Ok b.
Proof. destruct c; simpl; naive_solver. Qed.

Lemma obind_Raise {A B} (c : outcome A) (k : A → outcome B) e :
  obind c k = Raise e ↔ c = Raise e ∨ ∃ a, c = Ok a ∧ k a = Raise e.
Proof. destruct c; simpl; naive_solver. Qed.

(** ** Loops over lists that thread a state and may raise *)

Fixpoint foldM {A S} (f : S → A → outcome S) (s : S) (l : list A) : outcome S :=
  match l with
  | [] => Ok s
  | a :: l => let! s' := f s a in foldM f s' l
  end.

Lemma foldM_app {A S} (f : S → A → outcome S) s l1 l2 :
  foldM f s (l1 ++ l2) = let! s' := foldM f s l1 in foldM f s' l2.
Proof.
  revert s; induction l1 as [|a l1 IH]; intros s; simpl; [done|].
  destruct (f s a); simpl; auto.
Qed.

(** An invariant that every iteration preserves holds of the final state. *)
Lemma foldM_invariant {A S} (P : S → Prop) (f : S → A → outcome S) s l s' :
  P s →
  (∀ s a s', a ∈ l → P s → f s a = Ok s' → P s') →
  foldM f s l = Ok s' → P s'.
Proof.
  revert s; induction l as [|a l IH]; intros s Hs Hstep; simpl.
  { naive_solver. }
  intros (s1 & H1 & H2)%obind_Ok.
  eapply IH; [| |exact H2]; [eapply Hstep; eauto; set_solver|].
  intros ???; set_solver.
Qed.

(** An invariant that makes every iteration succeed makes the loop succeed. *)
Lemma foldM_total {A S} (P : S → Prop) (f : S → A → outcome S) s l :
  P s →
  (∀ s a, a ∈ l → P s → ∃ s', f s a = Ok s' ∧ P s') →
  ∃ s', foldM f s l = Ok s' ∧ P s'.
Proof.
  revert s; induction l as [|a l IH]; intros s Hs Hstep; simpl; [eauto|].
  destruct (Hstep s a) as (s1 & H1 & Hs1); [set_solver|done|].
  rewrite H1; simpl. apply IH; [done|]. intros; apply Hstep; set_solver.
Qed.

(** ** Lists without one of their elements *)

Lemma elem_of_delete {A} i (l : list A) x : x ∈ delete i l → x ∈ l.
Proof.
  rewrite delete_take_drop. intros [H|H]%elem_of_app.
  - rewrite <-(take_drop i l). apply elem_of_app. by left.
  - rewrite <-(take_drop (S i) l). apply elem_of_app. by right.
Qed.

Lemma elem_of_delete_ne {A} i (l : list A) x y : l !! i = Some y → x ≠ y → x ∈ l → x ∈ delete i l.
Proof.
  intros Hi Hne Hx. rewrite delete_take_drop. rewrite <-(take_drop_middle l i y Hi) in Hx. set_solver.
Qed.

(** ** Counting the elements that satisfy a boolean predicate *)

Definition cnt {A} (f : A → bool) (l : list A) : nat := length (filter (λ x, f x = true) l).

Lemma cnt_cons {A} (f : A → bool) x l : cnt f (x :: l) = (Nat.b2n (f x) + cnt f l).
Proof. unfold cnt. rewrite filter_cons. destruct (f x) eqn:E; case_decide; simpl; congruence. Qed.

Lemma cnt_app {A} (f : A → bool) l1 l2 : cnt f (l1 ++ l2) = (cnt f l1 + cnt f l2).
Proof. unfold cnt. by rewrite filter_app, length_app. Qed.

Lemma cnt_insert {A} (f : A → bool) l i x y :
  l !! i = Some x → (cnt f (<[i := y]> l) + Nat.b2n (f x) = cnt f l + Nat.b2n (f y)).
Proof.
  revert i; induction l as [|z l IH]; intros [|i] Hi; simplify_eq/=; rewrite !cnt_cons; [lia|]. specialize (IH i Hi). lia.
Qed.

Lemma cnt_zero {A} (f : A → bool) l x : cnt f l = 0 → x ∈ l → f x = false.
Proof.
  induction l as [|y l IH]; [set_solver|]. rewrite cnt_cons. intros Hc [->|Hx]%elem_of_cons; [destruct (f y); simpl in *; [lia|done]|].
  apply IH; [lia|done].
Qed.

Lemma cnt_le {A} (f g : A → bool) l : (∀ x, f x = true → g x = true) → (cnt f l <= cnt g l).
Proof.
  intros Hfg. induction l as [|x l IH]; [done|]. rewrite !cnt_cons. specialize (Hfg x).
  destruct (f x), (g x); simpl; try lia.
Qed.

Lemma cnt_replicate {A} (f : A → bool) n x : cnt f (replicate n x) = (n * Nat.b2n (f x)).
Proof. induction n as [|n IH]; simpl; [done|]. rewrite cnt_cons, IH. lia. Qed.

Lemma elem_of_insert_or {A} (l : list A) i x y : y ∈ <[i := x]> l → y = x ∨ y ∈ l.
Proof.
  intros [j Hj]%list_elem_of_lookup. destruct (decide (i = j)) as [->|Hne].
  - apply list_lookup_insert_Some in Hj as [(_ & -> & _)|[? _]]; [by left|done].
  - rewrite list_lookup_insert_ne in Hj by done. right. by eapply list_elem_of_lookup_2.
Qed.

Lemma sorted_of_lookup {A} (R : relation A) l :
  (∀ i j x y, (i < j) → l !! i = Some x → l !! j = Some y → R x y) → StronglySorted R l.
Proof.
  induction l as [|x l IH]; intros H; constructor.
  - apply IH. intros i j y z Hij Hi Hj. apply (H (S i) (S j)); [lia|done|done].
  - apply Forall_lookup. intros j y Hj. by apply (H 0 (S j)); [lia|..].
Qed.

Lemma filter_all {A} (P : A → Prop) `{!∀ x, Decision (P x)} (l : list A) : Forall P l → filter P l = l.
Proof. induction 1 as [|x l Hx _ IH]; [done|]. rewrite filter_cons_True by done. by rewrite IH. Qed.

Lemma filter_swap {A} (P Q : A → Prop) `{!∀ x, Decision (P x), !∀ x, Decision (Q x)} (l : list A) : filter P (filter Q l) = filter Q (filter P l).
Proof. rewrite !list_filter_filter. apply list_filter_iff. tauto. Qed.
Lemma filter_idemp {A} (P : A → Prop) `{!∀ x, Decision (P x)} (l : list A) : filter P (filter P l) = filter P l.
Proof. rewrite list_filter_filter. apply list_filter_iff. tauto. Qed.

(** ** Tactics *)

(** Case analysis on the scrutinee of every [if]/[match] of the goal, with
    the boolean comparisons turned into propositions. *)
Ltac case_ifs :=
  repeat match goal with
  | |- context [if ?b then _ else _] => destruct b eqn:?
  | H : context [if ?b then _ else _] |- _ => destruct b eqn:?
  end.

Ltac zbool :=
  repeat match goal with
  | H : (_ =? _)%Z = true |- _ => apply Z.eqb_eq in H
  | H : (_ =? _)%Z = false |- _ => apply Z.eqb_neq in H
  | H : (_ <? _)%Z = true |- _ => apply Z.ltb_lt in H
  | H : (_ <? _)%Z = false |- _ => apply Z.ltb_ge in H
  | H : (_ <=? _)%Z = true |- _ => apply Z.leb_le in H
  | H : (_ <=? _)%Z = false |- _ => apply Z.leb_gt in H
  | H : (_ >=? _)%Z = _ |- _ => rewrite Z.geb_leb in H
  | H : (_ >? _)%Z = _ |- _ => rewrite Z.gtb_ltb in H
  | H : (_ =? _)%nat = true |- _ => apply Nat.eqb_eq in H
  | H : (_ =? _)%nat = false |- _ => apply Nat.eqb_neq in H
  | H : (_ <? _)%nat = true |- _ => apply Nat.ltb_lt in H
  | H : (_ <? _)%nat = false |- _ => apply Nat.ltb_ge in H
  | H : (_ <=? _)%nat = true |- _ => apply Nat.leb_le in H
  | H : (_ <=? _)%nat = false |- _ => apply Nat.leb_gt in H
  | H : (_ && _)%bool = true |- _ => apply andb_true_iff in H as [??]
  | H : (_ || _)%bool = false |- _ => apply orb_false_iff in H as [??]
  | H : negb _ = true |- _ => apply negb_true_iff in H
  | H : negb _ = false |- _ => apply negb_false_iff in H
  | H : bool_decide _ = true |- _ => apply bool_decide_eq_true in H
  | H : bool_decide _ = false |- _ => apply bool_decide_eq_false in H
  end.

Create HintDb celery.

(** ** Python's [range] on integers *)

Fixpoint range_from (lo : Z) (n : nat) : list Z :=
  match n with
  | O => []
  | S n => lo :: range_from (lo + 1) n
  end.

(** [list(range(lo, hi))] *)
Definition range (lo hi : Z) : list Z := range_from lo (Z.to_nat (hi - lo)).

Lemma elem_of_range_from x lo n :
  x ∈ range_from lo n ↔ (lo <= x < lo + Z.of_nat n)%Z.
Proof.
  revert lo; induction n as [|n IH]; intros lo; simpl.
  { rewrite elem_of_nil; lia. }
  rewrite elem_of_cons, IH; lia.
Qed.

Lemma elem_of_range x lo hi : x ∈ range lo hi ↔ (lo <= x < hi)%Z.
Proof. unfold range; rewrite elem_of_range_from; lia. Qed.

Lemma length_range_from lo n : length (range_from lo n) = n.
Proof. revert lo; induction n as [|n IH]; intros lo; simpl; auto. Qed.

Lemma length_range lo hi : length (range lo hi) = Z.to_nat (hi - lo).
Proof. apply length_range_from. Qed.

Lemma range_from_lookup lo n i :
  i < n → range_from lo n !! i = Some (lo + Z.of_nat i)%Z.
Proof.
  revert lo i; induction n as [|n IH]; intros lo i Hi; [lia|].
  destruct i as [|i]; simpl; [f_equal; lia|].
  rewrite IH by lia. f_equal; lia.
Qed.

Lemma NoDup_range_from lo n : NoDup (range_from lo n).
Proof.
  revert lo; induction n as [|n IH]; intros lo; simpl; constructor; [|done].
  rewrite elem_of_range_from; lia.
Qed.

(** ** Extended slices [l[::n]] *)

Fixpoint every_from {A} (l : list A) (skip n : nat) : list A :=
  match l with
  | [] => []
  | x :: l =>
      match skip with
      | O => x :: every_from l n n
      | S k => every_from l k n
      end
  end.

(** [l[::n]] for a Python [int] step: a zero step raises [ValueError], a
    negative one walks the list backwards. *)
Definition slice_step {A} (l : list A) (n : Z) : outcome (list A) :=
  if (n =? 0)%Z then Raise ValueError
  else if (0 <? n)%Z then Ok (every_from l 0 (Z.to_nat n - 1))
  else Ok (every_from (reverse l) 0 (Z.to_nat (- n) - 1)).

Lemma every_from_lookup {A} (l : list A) skip n i :
  every_from l skip n !! i = l !! (skip + i * S n).
Proof.
  revert skip i; induction l as [|x l IH]; intros skip i; simpl; [done|].
  destruct skip as [|k]; simpl.
  - destruct i as [|i]; simpl; [done|]. rewrite IH. f_equal.
  - apply IH.
Qed.

Lemma every_from_subseteq {A} (l : list A) skip n x :
  x ∈ every_from l skip n → x ∈ l.
Proof.
  rewrite !list_elem_of_lookup. intros [i Hi].
  rewrite every_from_lookup in Hi; eauto.
Qed.
