(* ===== verification/PyDict.v ===== *)
(** Python dictionaries.

    A [dict] (and [OrderedDict]) keeps its items in insertion order; updating
    a present key keeps its position.  It is modelled as an association list
    with at most one item per key ([dict_wf]), so that code whose behaviour
    depends on iteration order ([BufferMap], [DependencyGraph], ...) is
    modelled as it runs. *)

From S2P Require Import Prelude.

Abbreviation pydict K V := (list (K * V)).

Section PyDict.
Context {K V : Type} `{EqDecision K}.
Implicit Types (d : pydict K V) (k : K) (v : V).

(** [d.get(k)]; [None] stands for a missing key *)
Fixpoint dict_get d k : option V :=
  match d with
  | [] => None
  | (k', v) :: d => if decide (k = k') then Some v else dict_get d k
  end.

(** [k in d] *)
Definition dict_in d k : bool :=
  match dict_get d k with Some _ => true | None => false end.

(** [d[k] = v] *)
Fixpoint dict_set d k v : pydict K V :=
  match d with
  | [] => [(k, v)]
  | (k', v') :: d =>
      if decide (k = k') then (k', v) :: d else (k', v') :: dict_set d k v
  end.

(** [d.pop(k, None)] without its result *)
Fixpoint dict_del d k : pydict K V :=
  match d with
  | [] => []
  | (k', v) :: d => if decide (k = k') then d else (k', v) :: dict_del d k
  end.

(** [d.setdefault(k, v)] *)
Definition dict_setdefault d k v : pydict K V :=
  match dict_get d k with Some _ => d | None => dict_set d k v end.

(** [d.update(d')] *)
Definition dict_update d (d' : pydict K V) : pydict K V :=
  foldl (λ d '(k, v), dict_set d k v) d d'.

(** [OrderedDict.move_to_end(k)] *)
Definition dict_move_to_end d k : outcome (pydict K V) :=
  match dict_get d k with
  | Some v => Ok (dict_del d k ++ [(k, v)])
  | None => Raise KeyError
  end.

Definition dict_keys d : list K := d.*1.
Definition dict_values d : list V := d.*2.

Definition dict_wf d : Prop := NoDup (dict_keys d).

Lemma dict_get_set_eq d k v : dict_get (dict_set d k v) k = Some v.
Proof.
  induction d as [|[k' v'] d IH]; simpl; [by rewrite decide_True|].
  destruct (decide (k = k')) eqn:E; simpl; rewrite E; done.
Qed.

Lemma dict_get_set_ne d k k' v : k ≠ k' → dict_get (dict_set d k v) k' = dict_get d k'.
Proof.
  intros Hne. induction d as [|[k1 v1] d IH]; simpl; [by rewrite decide_False|].
  destruct (decide (k = k1)) as [->|]; simpl; [by rewrite !decide_False by done|].
  by rewrite IH.
Qed.

Lemma dict_get_set d k k' v :
  dict_get (dict_set d k v) k' = if decide (k = k') then Some v else dict_get d k'.
Proof. case_decide; subst; auto using dict_get_set_eq, dict_get_set_ne. Qed.

Lemma dict_set_elem d k v k' v' : (k', v') ∈ dict_set d k v → (k' = k ∧ v' = v) ∨ (k', v') ∈ d.
Proof.
  induction d as [|[k1 v1] d IH]; simpl; [set_solver|]. case_decide; rewrite !elem_of_cons; [naive_solver|].
  intros [?|?%IH]; naive_solver.
Qed.

Lemma dict_get_Some_elem d k v : dict_get d k = Some v → (k, v) ∈ d.
Proof.
  induction d as [|[k' v'] d IH]; simpl; [done|].
  case_decide; [intros [= ->]; subst; left|intros; right; auto].
Qed.

Lemma dict_get_None d k : dict_get d k = None ↔ k ∉ dict_keys d.
Proof.
  induction d as [|[k' v'] d IH]; simpl; [set_solver|].
  case_decide; set_solver.
Qed.

Lemma dict_in_true d k : dict_in d k = true ↔ k ∈ dict_keys d.
Proof.
  unfold dict_in. destruct (dict_get d k) eqn:E.
  - split; [|done]. intros _. apply dict_get_Some_elem in E.
    apply list_elem_of_fmap; by eexists (_, _).
  - split; [done|]. apply dict_get_None in E; done.
Qed.

Lemma dict_elem_get d k v : dict_wf d → (k, v) ∈ d → dict_get d k = Some v.
Proof.
  unfold dict_wf. induction d as [|[k' v'] d IH]; simpl; [set_solver|].
  intros [Hk Hd]%NoDup_cons [[= -> ->]|Hin]%elem_of_cons; [by rewrite decide_True|].
  rewrite decide_False; [auto|]. intros ->. apply Hk.
  apply list_elem_of_fmap; by eexists (_, _).
Qed.

Lemma elem_of_dict_keys_set d k v k' : k' ∈ dict_keys (dict_set d k v) ↔ k' = k ∨ k' ∈ dict_keys d.
Proof.
  induction d as [|[k1 v1] d IH]; simpl; [set_solver|].
  case_decide; simpl; rewrite ?elem_of_cons; subst; set_solver.
Qed.

Lemma dict_set_wf d k v : dict_wf d → dict_wf (dict_set d k v).
Proof.
  unfold dict_wf. induction d as [|[k1 v1] d IH]; simpl.
  { intros _. apply NoDup_singleton. }
  intros [H1 H2]%NoDup_cons. case_decide; simpl; constructor; auto.
  rewrite elem_of_dict_keys_set. set_solver.
Qed.

Lemma dict_set_keys_in d k v :
  k ∈ dict_keys d → dict_keys (dict_set d k v) = dict_keys d.
Proof.
  induction d as [|[k1 v1] d IH]; simpl; [set_solver|].
  intros Hk. case_decide; simpl; [done|]. f_equal. apply IH. set_solver.
Qed.

Lemma dict_set_keys_notin d k v :
  k ∉ dict_keys d → dict_set d k v = d ++ [(k, v)].
Proof.
  induction d as [|[k1 v1] d IH]; simpl; [done|].
  intros Hk. rewrite decide_False by set_solver. f_equal. apply IH. set_solver.
Qed.

Lemma dict_get_del_eq d k : dict_wf d → dict_get (dict_del d k) k = None.
Proof.
  unfold dict_wf. induction d as [|[k1 v1] d IH]; simpl; [done|].
  intros [H1 H2]%NoDup_cons. case_decide as E; subst.
  - by apply dict_get_None.
  - simpl. rewrite decide_False by done. auto.
Qed.

Lemma dict_get_del_ne d k k' : k ≠ k' → dict_get (dict_del d k) k' = dict_get d k'.
Proof.
  intros Hne. induction d as [|[k1 v1] d IH]; simpl; [done|].
  case_decide; subst; simpl; [by rewrite decide_False|]. by rewrite IH.
Qed.

Lemma dict_del_sublist d k : dict_del d k `sublist_of` d.
Proof.
  induction d as [|[k1 v1] d IH]; simpl; [done|].
  case_decide; [by apply sublist_cons|by apply sublist_skip].
Qed.

Lemma dict_del_wf d k : dict_wf d → dict_wf (dict_del d k).
Proof.
  unfold dict_wf, dict_keys. intros Hwf.
  eapply sublist_NoDup; [exact Hwf|].
  pose proof (dict_del_sublist d k) as Hs. clear Hwf.
  induction Hs; simpl; by constructor.
Qed.

Lemma dict_del_notin d k : k ∉ dict_keys d → dict_del d k = d.
Proof.
  induction d as [|[k1 v1] d IH]; simpl; [done|].
  intros Hk. rewrite decide_False by set_solver. f_equal. apply IH. set_solver.
Qed.

Lemma elem_of_dict_keys_del d k k' :
  dict_wf d → k' ∈ dict_keys (dict_del d k) ↔ k' ≠ k ∧ k' ∈ dict_keys d.
Proof.
  intros Hwf. rewrite <-!dict_in_true. unfold dict_in.
  destruct (decide (k' = k)) as [->|].
  - rewrite dict_get_del_eq by done. naive_solver.
  - rewrite dict_get_del_ne by done. naive_solver.
Qed.

Lemma length_dict_del d k :
  k ∈ dict_keys d → S (length (dict_del d k)) = length d.
Proof.
  induction d as [|[k1 v1] d IH]; simpl; [set_solver|].
  intros Hk. case_decide; [done|]. simpl. rewrite IH; set_solver.
Qed.

Lemma length_dict_set d k v :
  length (dict_set d k v) = length d + if dict_in d k then 0 else 1.
Proof.
  unfold dict_in. induction d as [|[k1 v1] d IH]; simpl; [done|].
  case_decide; simpl; [lia|]. rewrite IH. lia.
Qed.

Lemma dict_set_same d k v : dict_get d k = Some v → dict_set d k v = d.
Proof.
  induction d as [|[k' v'] d IH]; simpl; [done|]. case_decide; [by intros [= ->]; subst|].
  intros Hd. by rewrite IH.
Qed.

Lemma dict_set_set d k v v' : dict_set (dict_set d k v) k v' = dict_set d k v'.
Proof.
  induction d as [|[k1 v1] d IH]; simpl; [by rewrite decide_True|].
  case_decide; simpl; [by rewrite decide_True|]. by rewrite decide_False, IH.
Qed.

Lemma dict_get_app_r d d' k : k ∉ dict_keys d → dict_get (d ++ d') k = dict_get d' k.
Proof.
  induction d as [|[k1 v1] d IH]; simpl; [done|]. intros Hk.
  rewrite decide_False by set_solver. apply IH. set_solver.
Qed.

Lemma dict_set_app_r d d' k v : k ∉ dict_keys d → dict_set (d ++ d') k v = d ++ dict_set d' k v.
Proof.
  induction d as [|[k1 v1] d IH]; simpl; [done|]. intros Hk.
  rewrite decide_False by set_solver. f_equal. apply IH. set_solver.
Qed.

Lemma length_dict_set_new d k v : k ∉ dict_keys d → length (dict_set d k v) = S (length d).
Proof.
  intros Hk. rewrite dict_set_keys_notin, length_app by done. simpl. lia.
Qed.

Lemma dict_move_to_end_wf d k d' :
  dict_wf d → dict_move_to_end d k = Ok d' → dict_wf d'.
Proof.
  unfold dict_move_to_end. destruct (dict_get d k) as [v|] eqn:E; [|done].
  intros Hwf [= <-]. unfold dict_wf, dict_keys in *. rewrite fmap_app. simpl.
  apply NoDup_app; split_and!; [by apply dict_del_wf| |apply NoDup_singleton].
  intros x Hx ->%list_elem_of_singleton.
  by apply elem_of_dict_keys_del in Hx as [? ?].
Qed.

Lemma dict_del_perm d k v : dict_get d k = Some v → d ≡ₚ (k, v) :: dict_del d k.
Proof.
  induction d as [|[k1 v1] d IH]; simpl in *; [done|].
  case_decide; subst; [by intros [= ->]|].
  intros Hd%IH. rewrite Hd at 1. apply Permutation_swap.
Qed.

Lemma dict_del_set d k v : dict_del (dict_set d k v) k = dict_del d k.
Proof.
  induction d as [|[k1 v1] d IH]; simpl; [by rewrite decide_True|].
  case_decide; simpl; [by rewrite decide_True|]. by rewrite decide_False, IH.
Qed.

Lemma dict_move_to_end_perm d k d' :
  dict_move_to_end d k = Ok d' → d' ≡ₚ d.
Proof.
  unfold dict_move_to_end. destruct (dict_get d k) as [v|] eqn:E; [|done].
  intros [= <-]. rewrite (comm app). simpl. symmetry. by apply dict_del_perm.
Qed.

(** Replacing a value replaces it among the values. *)
Lemma dict_values_set d k v v' :
  dict_get d k = Some v →
  ∃ l, dict_values d ≡ₚ v :: l ∧ dict_values (dict_set d k v') ≡ₚ v' :: l.
Proof.
  intros Hk. exists (dict_values (dict_del d k)). unfold dict_values. split.
  - by rewrite (dict_del_perm d k v Hk) at 1.
  - rewrite (dict_del_perm (dict_set d k v') k v') at 1 by apply dict_get_set_eq. by rewrite dict_del_set.
Qed.

Lemma dict_get_perm d d' k : dict_wf d → d ≡ₚ d' → dict_get d k = dict_get d' k.
Proof.
  intros Hwf Hp.
  assert (dict_wf d') as Hwf' by (unfold dict_wf, dict_keys in *; by rewrite <-Hp).
  destruct (dict_get d' k) as [v|] eqn:E.
  - apply dict_elem_get; [done|]. rewrite Hp. by apply dict_get_Some_elem.
  - apply dict_get_None in E. apply dict_get_None.
    unfold dict_keys in *. by rewrite Hp.
Qed.

Lemma dict_update_wf d d' : dict_wf d → dict_wf (dict_update d d').
Proof.
  unfold dict_update. revert d; induction d' as [|[k v] d' IH]; intros d; simpl; [done|].
  intros. apply IH. by apply dict_set_wf.
Qed.

Lemma dict_get_update d d' k :
  dict_wf d' →
  dict_get (dict_update d d') k =
    match dict_get d' k with Some v => Some v | None => dict_get d k end.
Proof.
  unfold dict_update, dict_wf.
  revert d; induction d' as [|[k1 v1] d' IH]; intros d; simpl; [done|].
  intros [H1 H2]%NoDup_cons. rewrite IH by done.
  case_decide; subst.
  - rewrite (proj2 (dict_get_None d' k1)) by done. by rewrite dict_get_set_eq.
  - by rewrite dict_get_set_ne by done.
Qed.

Lemma dict_get_update_notin d d' k : k ∉ dict_keys d' → dict_get (dict_update d d') k = dict_get d k.
Proof.
  unfold dict_update. revert d; induction d' as [|[k1 v1] d' IH]; intros d Hk; simpl; [done|].
  rewrite IH by set_solver. apply dict_get_set_ne. set_solver.
Qed.

Lemma dict_get_filter_key (P : K → Prop) `{!∀ k, Decision (P k)} d k :
  dict_get (filter (λ kv, P kv.1) d) k = if decide (P k) then dict_get d k else None.
Proof.
  induction d as [|[k' v] d IH]; [by case_decide|]. rewrite filter_cons; simpl.
  repeat case_decide; simpl; repeat case_decide; by simplify_eq.
Qed.

Lemma dict_filter_wf (P : K * V → Prop) `{!∀ x, Decision (P x)} d : dict_wf d → dict_wf (filter P d).
Proof.
  unfold dict_wf, dict_keys. intros Hd. apply (sublist_NoDup _ _ Hd). clear Hd.
  induction d as [|p d IH]; [done|]. rewrite filter_cons. case_decide; simpl; by constructor.
Qed.

End PyDict.

#[export] Hint Resolve dict_set_wf dict_del_wf dict_update_wf : celery.
