(* ===== verification/Effect.v ===== *)
(** Programs with a mutable state and exceptions.  A program maps a state to
    the state it leaves behind and an outcome: exceptions do not roll the state
    back.  Used by the components whose methods mutate objects and call out to
    other code. *)

From S2P Require Import Prelude.

Definition eff (S A : Type) : Type := S → S * outcome A.

Declare Scope eff_scope.
Delimit Scope eff_scope with eff.

Section Eff.
Context {S : Type}.

Definition eret {A} (a : A) : eff S A := λ s, (s, Ok a).
Definition eraise {A} (e : exn) : eff S A := λ s, (s, Raise e).
Definition ebind {A B} (c : eff S A) (k : A → eff S B) : eff S B := λ s,
  match c s with
  | (s, Ok a) => k a s
  | (s, Raise e) => (s, Raise e)
  | (s, Diverge) => (s, Diverge)
  end.

Definition eget {A} (f : S → A) : eff S A := λ s, (s, Ok (f s)).
Definition emodify (f : S → S) : eff S () := λ s, (f s, Ok ()).
Definition elift {A} (c : outcome A) : eff S A := λ s, (s, c).
Definition ewhen (b : bool) (c : eff S ()) : eff S () := if b then c else eret ().

(** [try: c  except: h] *)
Definition ecatch {A} (c : eff S A) (h : exn → eff S A) : eff S A := λ s,
  match c s with
  | (s, Raise e) => h e s
  | r => r
  end.

(** [try: c  except: h  else: k] *)
Definition etry {A B} (c : eff S A) (h : exn → eff S B) (k : A → eff S B) : eff S B := λ s,
  match c s with
  | (s, Ok a) => k a s
  | (s, Raise e) => h e s
  | (s, Diverge) => (s, Diverge)
  end.

(** [try: c  finally: f]; an exception of [f] replaces that of [c] *)
Definition efinally {A} (c : eff S A) (f : eff S ()) : eff S A := λ s,
  match c s with
  | (s, r) => match f s with
              | (s, Ok _) => (s, r)
              | (s, Raise e) => (s, Raise e)
              | (s, Diverge) => (s, Diverge)
              end
  end.

Fixpoint eiter {A} (f : A → eff S ()) (l : list A) : eff S () :=
  match l with
  | [] => eret ()
  | a :: l => ebind (f a) (λ _, eiter f l)
  end.
End Eff.

Notation "'do!' x := c 'in' k" := (ebind c (λ x, k))
  (at level 10, x pattern, c at level 100, k at level 200) : eff_scope.
Notation "'run!' c 'in' k" := (ebind c (λ _, k))
  (at level 10, c at level 100, k at level 200) : eff_scope.

(** ** Running a program one step *)

Lemma ebind_Ok {S A B} (c : eff S A) (k : A → eff S B) s s' a : c s = (s', Ok a) → ebind c k s = k a s'.
Proof. unfold ebind. by intros ->. Qed.

Lemma ebind_Raise {S A B} (c : eff S A) (k : A → eff S B) s s' e : c s = (s', Raise e) → ebind c k s = (s', Raise e).
Proof. unfold ebind. by intros ->. Qed.

Lemma ebind_get {S A B} (f : S → A) (k : A → eff S B) s : ebind (eget f) k s = k (f s) s.
Proof. done. Qed.

Lemma ebind_modify {S B} (f : S → S) (k : () → eff S B) s : ebind (emodify f) k s = k () (f s).
Proof. done. Qed.

Lemma ebind_returns {S A B} (c : eff S A) (k : A → eff S B) s s' b :
  ebind c k s = (s', Ok b) ↔ ∃ a s1, c s = (s1, Ok a) ∧ k a s1 = (s', Ok b).
Proof. unfold ebind. destruct (c s) as [s1 [a|e|]]; naive_solver. Qed.

(** ** Invariants of programs *)

(** Whatever the outcome, the program leads from states with [I] to states
    with [I]. *)
Definition keeps {S A} (I : S → Prop) (c : eff S A) : Prop := ∀ s, I s → I (c s).1.

(** The program relates the states before and after it. *)
Definition relates {S A} (R : S → S → Prop) (c : eff S A) : Prop := ∀ s, R s (c s).1.

Section Keeps.
Context {S : Type} (I : S → Prop).

Lemma keeps_ret {A} (a : A) : keeps I (eret a).
Proof. by intros s. Qed.
Lemma keeps_raise {A} e : keeps I (@eraise S A e).
Proof. by intros s. Qed.
Lemma keeps_lift {A} (c : outcome A) : keeps I (elift c).
Proof. by intros s. Qed.
Lemma keeps_get {A} (f : S → A) : keeps I (eget f).
Proof. by intros s. Qed.
Lemma keeps_modify (f : S → S) : (∀ s, I s → I (f s)) → keeps I (emodify f).
Proof. intros Hf s. apply Hf. Qed.

Lemma keeps_bind {A B} (c : eff S A) (k : A → eff S B) :
  keeps I c → (∀ a, keeps I (k a)) → keeps I (ebind c k).
Proof.
  intros Hc Hk s Hs. unfold ebind. specialize (Hc s Hs).
  destruct (c s) as [s' [a|e|]]; simpl in *; [by apply Hk|done..].
Qed.

Lemma keeps_when b (c : eff S ()) : keeps I c → keeps I (ewhen b c).
Proof. destruct b; [done|]. intros _. apply keeps_ret. Qed.

Lemma keeps_catch {A} (c : eff S A) h : keeps I c → (∀ e, keeps I (h e)) → keeps I (ecatch c h).
Proof.
  intros Hc Hh s Hs. unfold ecatch. specialize (Hc s Hs).
  destruct (c s) as [s' [a|e|]]; simpl in *; [done|by apply Hh|done].
Qed.

Lemma catch_from {A} (c : eff S A) h s : I (c s).1 → (∀ e, keeps I (h e)) → I (ecatch c h s).1.
Proof. intros Hc Hh. unfold ecatch. destruct (c s) as [s' [a|e|]]; simpl in *; [done|by apply Hh|done]. Qed.

Lemma keeps_try {A B} (c : eff S A) h (k : A → eff S B) :
  keeps I c → (∀ e, keeps I (h e)) → (∀ a, keeps I (k a)) → keeps I (etry c h k).
Proof.
  intros Hc Hh Hk s Hs. unfold etry. specialize (Hc s Hs).
  destruct (c s) as [s' [a|e|]]; simpl in *; [by apply Hk|by apply Hh|done].
Qed.

Lemma keeps_finally {A} (c : eff S A) f : keeps I c → keeps I f → keeps I (efinally c f).
Proof.
  intros Hc Hf s Hs. unfold efinally. specialize (Hc s Hs).
  destruct (c s) as [s' r]; simpl in *. specialize (Hf s' Hc). by destruct (f s') as [s'' []].
Qed.

Lemma keeps_iter {A} (f : A → eff S ()) l : (∀ a, keeps I (f a)) → keeps I (eiter f l).
Proof.
  intros Hf. induction l as [|a l IH]; simpl; [apply keeps_ret|]. by apply keeps_bind.
Qed.
End Keeps.

(** ** Triples: [Q] when the program returns, [E] when it raises *)

Definition triple {S A} (P : S → Prop) (c : eff S A) (Q : A → S → Prop) (E : S → Prop) : Prop :=
  ∀ s, P s → match c s with
             | (s', Ok a) => Q a s'
             | (s', _) => E s'
             end.

Section Triple.
Context {S : Type} (E : S → Prop).

Lemma triple_bind {A B} P (c : eff S A) Q (k : A → eff S B) R :
  triple P c Q E → (∀ a, triple (Q a) (k a) R E) → triple P (ebind c k) R E.
Proof.
  intros Hc Hk s Hs. unfold ebind. specialize (Hc s Hs).
  destruct (c s) as [s' [a|e|]]; simpl in *; [by apply Hk|done..].
Qed.

Lemma triple_get {A} P (f : S → A) : triple P (eget f) (λ a s, P s ∧ a = f s) E.
Proof. by intros s. Qed.
Lemma triple_ret {A} (Q : A → S → Prop) a : triple (Q a) (eret a) Q E.
Proof. by intros s. Qed.
Lemma triple_raise {A} (P : S → Prop) (Q : A → S → Prop) e : (∀ s, P s → E s) → triple P (eraise e) Q E.
Proof. intros H s. apply H. Qed.
Lemma triple_modify (P : S → Prop) f (Q : () → S → Prop) : (∀ s, P s → Q () (f s)) → triple P (emodify f) Q E.
Proof. intros H s. apply H. Qed.

Lemma triple_when b (c : eff S ()) P Q : triple P c (λ _, Q) E → (∀ s, P s → Q s) → triple P (ewhen b c) (λ _, Q) E.
Proof. intros Hc HP. destruct b; [done|]. intros s. apply HP. Qed.

Lemma triple_conseq {A} P P' (c : eff S A) Q Q' :
  triple P c Q E → (∀ s, P' s → P s) → (∀ a s, Q a s → Q' a s) → triple P' c Q' E.
Proof.
  intros Hc HP HQ s Hs. specialize (Hc s (HP s Hs)). destruct (c s) as [s' [a|e|]]; [by apply HQ|done..].
Qed.
End Triple.

Create HintDb keeps.
#[export] Hint Resolve keeps_ret keeps_raise keeps_lift keeps_get keeps_when : keeps.

(** Splits a program along its structure; what is left are the calls and state
    changes the invariant is about. *)
Ltac keeps_step :=
  match goal with
  | |- keeps _ (ebind _ _) => apply keeps_bind; [|intros]
  | |- keeps _ (ewhen _ _) => apply keeps_when
  | |- keeps _ (ecatch _ _) => apply keeps_catch; [|intros]
  | |- keeps _ (etry _ _ _) => apply keeps_try; [|intros|intros]
  | |- keeps _ (efinally _ _) => apply keeps_finally
  | |- keeps _ (eiter _ _) => apply keeps_iter; intros
  | |- keeps _ (if ?b then _ else _) => destruct b
  | |- keeps _ (match ?x with _ => _ end) => destruct x
  | |- keeps _ _ => solve [eauto 2 with keeps]
  end.
Ltac keeps := intros; repeat keeps_step.
