(* ===== verification/PyHeap.v ===== *)
(** Python's [heapq].

    The code under verification only reads a heap through its smallest
    element ([heap[0]], [heappop]) and its length, and its entries are
    compared by a total order.  A heap is therefore modelled by the sorted
    list of its entries: [heap[0]] is the head, [heappop] removes it,
    [heappush] inserts in order and [heapify] sorts. *)

From S2P Require Import Prelude.

Section PyHeap.
Context {A : Type} (R : relation A) `{!RelDecision R}.

Fixpoint heappush (h : list A) (x : A) : list A :=
  match h with
  | [] => [x]
  | y :: h' => if decide (R x y) then x :: y :: h' else y :: heappush h' x
  end.

Definition heappop (h : list A) : option (A * list A) :=
  match h with
  | [] => None
  | x :: h => Some (x, h)
  end.

Definition heapify (l : list A) : list A := merge_sort R l.

Lemma heappush_perm h x : heappush h x ≡ₚ x :: h.
Proof.
  induction h as [|y h IH]; simpl; [done|].
  case_decide; [done|]. rewrite IH. apply Permutation_swap.
Qed.

Lemma elem_of_heappush h x y : y ∈ heappush h x ↔ y = x ∨ y ∈ h.
Proof. by rewrite heappush_perm, elem_of_cons. Qed.

Lemma length_heappush h x : length (heappush h x) = S (length h).
Proof. by rewrite heappush_perm. Qed.

Lemma heapify_perm l : heapify l ≡ₚ l.
Proof. apply merge_sort_Permutation. Qed.

Context `{!Total R, !Transitive R}.

Lemma heapify_sorted l : StronglySorted R (heapify l).
Proof. apply StronglySorted_merge_sort; apply _. Qed.

Lemma heappush_sorted h x : StronglySorted R h → StronglySorted R (heappush h x).
Proof.
  induction 1 as [|y h Hs IH Hy]; simpl; [repeat constructor|].
  case_decide as Hxy.
  - constructor; [by constructor|]. constructor; [done|].
    eapply Forall_impl; [exact Hy|]. intros z ?. by trans y.
  - constructor; [done|]. apply Forall_forall. intros z.
    rewrite elem_of_heappush. intros [->|Hz].
    + by destruct (total R x y).
    + rewrite Forall_forall in Hy; auto.
Qed.

End PyHeap.

#[export] Hint Resolve heapify_sorted heappush_sorted : celery.
