(* ===== verification/States.v ===== *)
(** celery/states.py: the built-in task states, their precedence and the
    groups of states the rest of the program tests. *)

From S2P Require Import Prelude PyDict.

Module States.

Definition PENDING : string := "PENDING".
Definition RECEIVED : string := "RECEIVED".
Definition STARTED : string := "STARTED".
Definition SUCCESS : string := "SUCCESS".
Definition FAILURE : string := "FAILURE".
Definition REVOKED : string := "REVOKED".
Definition REJECTED : string := "REJECTED".
Definition RETRY : string := "RETRY".
Definition IGNORED : string := "IGNORED".

(** [None] stands for any state that is not built in. *)
Definition PRECEDENCE : list (option string) :=
  [Some SUCCESS; Some FAILURE; None; Some REVOKED; Some STARTED; Some RECEIVED;
   Some REJECTED; Some RETRY; Some PENDING].

Definition PRECEDENCE_LOOKUP : pydict (option string) nat :=
  zip PRECEDENCE (seq 0 (length PRECEDENCE)).

Definition NONE_PRECEDENCE : nat := default 0 (dict_get PRECEDENCE_LOOKUP None).

Definition precedence (state : string) : nat :=
  default NONE_PRECEDENCE (dict_get PRECEDENCE_LOOKUP (Some state)).

(** The comparison methods of [state]: a lower index is a higher state. *)
Definition state_gt (a b : string) : bool := precedence a <? precedence b.
Definition state_ge (a b : string) : bool := precedence a <=? precedence b.
Definition state_lt (a b : string) : bool := precedence b <? precedence a.
Definition state_le (a b : string) : bool := precedence b <=? precedence a.

Definition READY_STATES : gset string := {[SUCCESS; FAILURE; REVOKED]}.
Definition UNREADY_STATES : gset string := {[PENDING; RECEIVED; STARTED; REJECTED; RETRY]}.
Definition EXCEPTION_STATES : gset string := {[RETRY; FAILURE; REVOKED]}.
Definition PROPAGATE_STATES : gset string := {[FAILURE; REVOKED]}.
Definition ALL_STATES : gset string :=
  {[PENDING; RECEIVED; STARTED; SUCCESS; FAILURE; RETRY; REVOKED]}.

(** The states with a place of their own in the precedence list. *)
Definition builtin : list string := omap id PRECEDENCE.

Lemma precedence_custom s : s ∉ builtin → precedence s = NONE_PRECEDENCE.
Proof.
  intros Hs. unfold precedence. destruct (dict_get PRECEDENCE_LOOKUP (Some s)) as [n|] eqn:E; [|done].
  exfalso. apply Hs. apply dict_get_Some_elem in E. unfold PRECEDENCE_LOOKUP in E.
  apply elem_of_zip_l in E. unfold builtin. apply list_elem_of_omap. by exists (Some s).
Qed.

(** The comparison of states is the documented one: a total preorder given
    by the precedence list in which [SUCCESS] is highest and [PENDING] lowest;
    every custom state is lower than [SUCCESS] and [FAILURE], higher than every
    other built-in state and equivalent to every other custom state. *)
Theorem state_comparison :
  (∀ a b, state_ge a b = true ∨ state_ge b a = true) ∧
  (∀ a b c, state_ge a b = true → state_ge b c = true → state_ge a c = true) ∧
  (∀ a b, state_lt a b = state_gt b a ∧ state_le a b = state_ge b a ∧
          state_gt a b = negb (state_le a b)) ∧
  (∀ a, state_ge SUCCESS a = true ∧ state_ge a PENDING = true) ∧
  (∀ c, c ∉ builtin →
     state_gt SUCCESS c = true ∧ state_gt FAILURE c = true ∧
     (∀ b, b ∈ builtin → b ≠ SUCCESS → b ≠ FAILURE → state_gt c b = true) ∧
     (∀ c', c' ∉ builtin → state_ge c c' = true)).
Proof.
  assert (∀ a, precedence a <= 8) as Hmax.
  { intros a. destruct (decide (a ∈ builtin)) as [Hin|Hni]; [|by rewrite precedence_custom by done; vm_compute; lia].
    unfold builtin in Hin; simpl in Hin.
    repeat (apply elem_of_cons in Hin as [->|Hin]; [vm_compute; lia|]). by apply elem_of_nil in Hin. }
  unfold state_ge, state_gt, state_lt, state_le. split_and!.
  - intros a b. rewrite !Nat.leb_le. lia.
  - intros a b c. rewrite !Nat.leb_le. lia.
  - intros a b. split_and!; [done|done|]. by rewrite <-Nat.ltb_antisym.
  - intros a. rewrite !Nat.leb_le. specialize (Hmax a). split; [vm_compute; lia|].
    replace (precedence PENDING) with 8 by done. lia.
  - intros c Hc. rewrite (precedence_custom c) by done. split_and!; [done|done| |].
    + intros b Hb H1 H2. unfold builtin in Hb; simpl in Hb.
      repeat (apply elem_of_cons in Hb as [->|Hb]; [by vm_compute|]). by apply elem_of_nil in Hb.
    + intros c' Hc'. by rewrite (precedence_custom c').
Qed.

(** A task is ready, or not ready, never both; every propagating state is a
    ready exception state.  [REJECTED] is an unready state that the set of all
    states leaves out. *)
Lemma state_groups :
  READY_STATES ## UNREADY_STATES ∧ PROPAGATE_STATES = READY_STATES ∩ EXCEPTION_STATES ∧
  ALL_STATES ∪ {[REJECTED]} = READY_STATES ∪ UNREADY_STATES.
Proof. split_and!; [apply elem_of_disjoint; set_solver|by apply (bool_decide_unpack _)|by apply (bool_decide_unpack _)]. Qed.

End States.
