(* ===== verification/PyStr.v ===== *)
(** The string operations of Python the modelled code uses, on ASCII text.

    Text is a [string]; operations that walk over it go through the list of
    its characters. *)

From S2P Require Import Prelude.
From Stdlib Require Export Ascii.

Local Open Scope Z_scope.

Abbreviation chars := (list ascii).
Definition to_chars : string → chars := String.list_ascii_of_string.
Definition of_chars : chars → string := String.string_of_list_ascii.

Definition code (c : ascii) : Z := Z.of_N (N_of_ascii c).
Definition in_range (c : ascii) (lo hi : ascii) : bool := (code lo <=? code c) && (code c <=? code hi).

Definition is_digit (c : ascii) : bool := in_range c "0" "9".
Definition is_lower (c : ascii) : bool := in_range c "a" "z".
Definition is_upper (c : ascii) : bool := in_range c "A" "Z".
(** [\w] of the regular expressions *)
Definition is_word (c : ascii) : bool :=
  is_digit c || is_lower c || is_upper c || bool_decide (c = "_"%char).
(** The ASCII white space [str.strip] removes *)
Definition is_space (c : ascii) : bool :=
  (code c =? 32) || ((9 <=? code c) && (code c <=? 13)) || ((28 <=? code c) && (code c <=? 31)).

Definition lower_ascii (c : ascii) : ascii :=
  if is_upper c then ascii_of_N (N_of_ascii c + 32) else c.
Definition upper_ascii (c : ascii) : ascii :=
  if is_lower c then ascii_of_N (N_of_ascii c - 32) else c.

Definition str_lower (s : string) : string := of_chars (lower_ascii <$> to_chars s).
Definition str_upper (s : string) : string := of_chars (upper_ascii <$> to_chars s).
(** [s.isupper()]: some cased character and no lower-case one *)
Definition str_isupper (s : string) : bool :=
  existsb is_upper (to_chars s) && negb (existsb is_lower (to_chars s)).
(** [s.startswith(p)] *)
Definition str_startswith (s p : string) : bool := String.prefix p s.

Fixpoint drop_while (f : ascii → bool) (l : chars) : chars :=
  match l with
  | [] => []
  | c :: l' => if f c then drop_while f l' else l
  end.
(** [s.rstrip(c)] *)
Definition str_rstrip (s : string) (c : ascii) : string :=
  of_chars (reverse (drop_while (λ x, bool_decide (x = c)) (reverse (to_chars s)))).
(** [s.strip()] *)
Definition strip (l : chars) : chars :=
  reverse (drop_while is_space (reverse (drop_while is_space l))).

(** [s.split(sep)] with a one-character separator *)
Fixpoint split_on (sep : ascii) (l : chars) : list chars :=
  match l with
  | [] => [[]]
  | c :: l =>
      if bool_decide (c = sep) then [] :: split_on sep l
      else match split_on sep l with
           | [] => [[c]]
           | p :: ps => (c :: p) :: ps
           end
  end.

(** ** [int(s)] on text: digits with single underscores between them *)

Definition digit_value (c : ascii) : Z := code c - 48.

(** [after_digit]: the previous character was a digit *)
Fixpoint int_digits (acc : Z) (after_digit : bool) (l : chars) : option Z :=
  match l with
  | [] => if after_digit then Some acc else None
  | c :: l =>
      if is_digit c then int_digits (10 * acc + digit_value c) true l
      else if bool_decide (c = "_"%char) && after_digit then int_digits acc false l
      else None
  end.

Definition py_int (s : chars) : outcome Z :=
  of_option ValueError
    match strip s with
    | "-"%char :: l => Z.opp <$> int_digits 0 false l
    | "+"%char :: l => int_digits 0 false l
    | l => int_digits 0 false l
    end.

(** ** Printing numbers *)

Fixpoint digits_fuel (fuel : nat) (n : Z) (acc : chars) : chars :=
  match fuel with
  | O => acc
  | S fuel =>
      let acc := ascii_of_N (Z.to_N (48 + n mod 10)) :: acc in
      if n <? 10 then acc else digits_fuel fuel (n / 10) acc
  end.
(** [str(n)] for [0 <= n] *)
Definition py_str_nat (n : Z) : chars := digits_fuel (S (Z.to_nat n)) n [].

(** ** Lemmas *)

Lemma to_of_chars l : to_chars (of_chars l) = l.
Proof. apply String.list_ascii_of_string_of_list_ascii. Qed.

Lemma to_chars_app s t : to_chars (s ++ t)%string = to_chars s ++ to_chars t.
Proof. induction s as [|c s IH]; simpl; [done|]. by f_equal. Qed.

Lemma is_digit_digit d : 0 <= d < 10 → is_digit (ascii_of_N (Z.to_N (48 + d))) = true ∧
  digit_value (ascii_of_N (Z.to_N (48 + d))) = d.
Proof.
  intros Hd. unfold is_digit, in_range, digit_value, code.
  rewrite N_ascii_embedding by lia. rewrite Z2N.id by lia.
  assert (Z.of_N (N_of_ascii "0") = 48) as -> by done.
  assert (Z.of_N (N_of_ascii "9") = 57) as -> by done.
  split; [apply andb_true_iff; split; apply Z.leb_le; lia|lia].
Qed.

Lemma is_digit_word c : is_digit c = true → is_word c = true.
Proof. intros H. unfold is_word. by rewrite H. Qed.

Lemma is_digit_not_space c : is_digit c = true → is_space c = false.
Proof.
  unfold is_digit, is_space, in_range. change (code "0"%char) with 48. change (code "9"%char) with 57.
  intros H. zbool. rewrite !orb_false_iff, !andb_false_iff. repeat split; rewrite ?Z.eqb_neq, ?Z.leb_gt; lia.
Qed.

Lemma drop_while_digits l : Forall (λ c, is_digit c = true) l → drop_while is_space l = l.
Proof. intros [|c l' Hc _]; simpl; [done|]. by rewrite (is_digit_not_space c Hc). Qed.

Lemma strip_digits l : Forall (λ c, is_digit c = true) l → strip l = l.
Proof.
  intros H. unfold strip. rewrite (drop_while_digits l) by done.
  rewrite drop_while_digits by (by apply Forall_reverse). apply reverse_involutive.
Qed.

Lemma digits_fuel_spec fuel n acc :
  0 <= n → (Z.to_nat n < fuel)%nat →
  ∃ ds, digits_fuel fuel n acc = ds ++ acc ∧ ds ≠ [] ∧ Forall (λ c, is_digit c = true) ds ∧
        ∀ a b l, int_digits a b (ds ++ l) = int_digits (a * 10 ^ Z.of_nat (length ds) + n) true l.
Proof.
  revert n acc; induction fuel as [|fuel IH]; intros n acc Hn Hf; [lia|]. cbn [digits_fuel].
  pose proof (Z.mod_pos_bound n 10 ltac:(lia)) as Hmod.
  destruct (is_digit_digit (n mod 10) Hmod) as [Hdig Hval].
  set (c := ascii_of_N _) in *.
  destruct (n <? 10) eqn:E; zbool.
  - exists [c]. split_and!; [done|done|by repeat constructor|].
    intros a b l. simpl. rewrite Hdig, Hval. f_equal. rewrite Z.mod_small by lia. lia.
  - pose proof (Z.div_mod n 10 ltac:(lia)) as Hdm.
    destruct (IH (n / 10) (c :: acc)) as (ds & -> & Hne & Hds & Hint); [apply Z.div_pos; lia| |].
    { assert (n / 10 < n) by (apply Z.div_lt; lia).
      assert (0 <= n / 10) by (apply Z.div_pos; lia). lia. }
    exists (ds ++ [c]). split_and!.
    + by rewrite <-(assoc app).
    + by destruct ds.
    + apply Forall_app; split; [done|by repeat constructor].
    + intros a b l. rewrite <-(assoc app), Hint. simpl. rewrite Hdig, Hval. f_equal.
      rewrite length_app, Nat2Z.inj_add, Z.pow_add_r by (simpl; lia). simpl Z.of_nat.
      rewrite Z.pow_1_r. nia.
Qed.

Lemma py_str_nat_digits n : 0 <= n → py_str_nat n ≠ [] ∧ Forall (λ c, is_digit c = true) (py_str_nat n).
Proof.
  intros Hn. unfold py_str_nat.
  destruct (digits_fuel_spec (S (Z.to_nat n)) n []) as (ds & -> & ? & ? & _); [done|lia|].
  by rewrite app_nil_r.
Qed.

(** Printing a number and parsing it gives the number back. *)
Lemma py_int_str n : 0 <= n → py_int (py_str_nat n) = Ok n.
Proof.
  intros Hn. pose proof (py_str_nat_digits n Hn) as [Hne Hd]. unfold py_int. rewrite strip_digits by done.
  unfold py_str_nat in *.
  destruct (digits_fuel_spec (S (Z.to_nat n)) n []) as (ds & Heq & _ & Hds & Hint); [done|lia|].
  rewrite Heq in *. rewrite app_nil_r in *. specialize (Hint 0 false []). rewrite app_nil_r in Hint.
  destruct ds as [|c ds]; [done|]. inversion Hds as [|?? Hc _]; subst.
  assert (int_digits 0 false (c :: ds) = Some n) as Hres by (rewrite Hint; simpl; f_equal; lia).
  assert (match c :: ds with
          | "-"%char :: l => Z.opp <$> int_digits 0 false l
          | "+"%char :: l => int_digits 0 false l
          | l => int_digits 0 false l
          end = int_digits 0 false (c :: ds)) as ->.
  { destruct c as [[] [] [] [] [] [] [] []]; try done; by vm_compute in Hc. }
  by rewrite Hres.
Qed.
