(* ===== verification/Functional.v ===== *)
(** celery/utils/functional.py: the list helpers the other components use and
    [regen], the list that caches a one-shot iterator. *)

From S2P Require Import Prelude.
Local Open Scope Z_scope.

Module Functional.

(** [uniq(it)] *)
Fixpoint uniq_from {A} `{EqDecision A} (seen : list A) (l : list A) : list A :=
  match l with
  | [] => []
  | x :: l => if decide (x ∈ seen) then uniq_from seen l else x :: uniq_from (x :: seen) l
  end.
Definition uniq {A} `{EqDecision A} : list A → list A := uniq_from [].

(** [first(predicate, it)] without lazy promises; [None] as predicate accepts
    what is not [None] *)
Fixpoint first {A} (predicate : option (option A → bool)) (l : list (option A)) : option A :=
  match l with
  | [] => None
  | v :: l =>
      if match predicate with
         | Some p => p v
         | None => match v with Some _ => true | None => false end
         end
      then v else first predicate l
  end.

(** [firstmethod(method)]: [call] looks the method up on an instance and calls
    it; an [AttributeError] or a [None] reply moves on to the next instance. *)
Fixpoint firstmethod {A B} (call : A → outcome (option B)) (l : list A) : outcome (option B) :=
  match l with
  | [] => Ok None
  | x :: l =>
      match call x with
      | Ok (Some reply) => Ok (Some reply)
      | Ok None | Raise AttributeError => firstmethod call l
      | Raise e => Raise e
      | Diverge => Diverge
      end
  end.

(** [chunks(it, n)]: every round takes one item and then [n - 1] more;
    [islice] refuses a negative count. *)
Fixpoint chunks_fuel {A} (fuel : nat) (l : list A) (n : Z) : outcome (list (list A)) :=
  match l with
  | [] => Ok []
  | x :: l =>
      if n - 1 <? 0 then Raise ValueError
      else match fuel with
           | O => Diverge
           | S fuel =>
               let k := Z.to_nat (n - 1) in
               let! rest := chunks_fuel fuel (drop k l) n in
               Ok ((x :: take k l) :: rest)
           end
  end.
Definition chunks {A} (l : list A) (n : Z) : outcome (list (list A)) := chunks_fuel (length l) l n.

(** [l[:size]] *)
Definition slice_to {A} (l : list A) (size : Z) : list A :=
  if 0 <=? size then take (Z.to_nat size) l
  else take (Z.to_nat (Z.of_nat (length l) + size)) l.

(** [padlist(container, size, default)] *)
Definition padlist {A} (l : list A) (size : Z) (dflt : A) : list A :=
  slice_to l size ++ replicate (Z.to_nat (size - Z.of_nat (length l))) dflt.

(** [lookahead(it)] *)
Definition lookahead {A} (l : list A) : list (option A * option A) :=
  zip (Some <$> l) ((Some <$> tail l) ++ replicate (length l) None).

(** Python sequences with their concrete type *)
Inductive seq_kind := KTuple | KList.
Definition pyseq A : Type := seq_kind * list A.

(** [seq_concat_item(seq, item)] *)
Definition seq_concat_item {A} (s : pyseq A) (x : A) : pyseq A := (s.1, s.2 ++ [x]).

(** [seq_concat_seq(a, b)]: the type of the longer one (the first on a tie) *)
Definition seq_concat_seq {A} (a b : pyseq A) : pyseq A :=
  ((if Nat.ltb (length a.2) (length b.2) then b.1 else a.1), a.2 ++ b.2).

(** ** [regen] *)

(** [l[i]] on a Python list *)
Definition list_getitem {A} (l : list A) (i : Z) : outcome A :=
  let j := if i <? 0 then i + Z.of_nat (length l) else i in
  if j <? 0 then Raise IndexError else of_option IndexError (l !! Z.to_nat j).

Section Regen.
Context {A : Type}.

(** [__it] is what the wrapped iterator still has to give. *)
Record regen := RG { rg_it : list A; rg_consumed : list A; rg_done : bool }.
Implicit Types (s : regen).

Definition regen_init (l : list A) : regen := RG l [] false.

(** The loop of [__lookahead_consume], run to its end: the yielded items and
    the state it leaves.  [now] is about to be yielded. *)
Fixpoint lookahead_loop (now : A) (it consumed : list A) (limit : option Z) : list A * regen :=
  match it with
  | [] => ([now], RG [] consumed true)
  | next_ :: it =>
      let consumed := consumed ++ [next_] in
      match limit with
      | None => let '(ys, s) := lookahead_loop next_ it consumed None in (now :: ys, s)
      | Some n =>
          if n - 1 <=? 0 then ([now], RG it consumed false)
          else let '(ys, s) := lookahead_loop next_ it consumed (Some (n - 1)) in (now :: ys, s)
      end
  end.

Definition lookahead_consume s (limit : option Z) : list A * regen :=
  if negb (rg_done s) && match limit with None => true | Some n => 0 <? n end then
    match rg_it s with
    | [] => ([], s)
    | now :: it => lookahead_loop now it (rg_consumed s ++ [now]) limit
    end
  else ([], s).

(** [list(iter(self))] *)
Definition regen_iter s : list A * regen :=
  let '(ys, s') := lookahead_consume s None in (rg_consumed s ++ ys, s').

(** [self.data] *)
Definition regen_data s : list A * regen :=
  if rg_done s then (rg_consumed s, s)
  else let c := rg_consumed s ++ rg_it s in (c, RG [] c true).

(** [self[index]] *)
Definition regen_getitem s (i : Z) : outcome A * regen :=
  if i <? 0 then let '(c, s') := regen_data s in (list_getitem c i, s')
  else
    let consume_count := i - Z.of_nat (length (rg_consumed s)) + 1 in
    let '(_, s') := lookahead_consume s (Some consume_count) in
    (list_getitem (rg_consumed s') i, s').

(** [bool(self)]: at most one item is requested from the iterator, which the
    look-ahead turns into two reads. *)
Definition regen_bool s : bool * regen :=
  match rg_consumed s with
  | _ :: _ => (true, s)
  | [] =>
      if rg_done s then (false, s)
      else match rg_it s with
           | [] => (false, s)
           | [now] => (true, RG [] [now] true)
           | now :: next_ :: it => (true, RG it [now; next_] false)
           end
  end.

(** [self.map(func)] *)
Definition regen_map (f : A → A) s : regen := RG (f <$> rg_it s) (f <$> rg_consumed s) (rg_done s).

(** The list a [regen] stands for. *)
Definition rg_list s : list A := rg_consumed s ++ rg_it s.
Definition rg_inv s : Prop := rg_done s = true → rg_it s = [].

Lemma lookahead_loop_spec now it consumed limit :
  let '(ys, s') := lookahead_loop now it consumed limit in
  rg_list s' = consumed ++ it ∧ rg_inv s' ∧
  (∃ more, rg_consumed s' = consumed ++ more) ∧
  match limit with
  | None => ys = now :: it ∧ rg_it s' = []
  | Some n => (Nat.min (length (consumed ++ it)) (length consumed + Z.to_nat n)
               <= length (rg_consumed s'))%nat
  end.
Proof.
  revert now consumed limit; induction it as [|next_ it IH]; intros now consumed limit; cbn [lookahead_loop].
  { unfold rg_list, rg_inv; simpl. split_and!; [done|done|exists []; by rewrite app_nil_r|].
    destruct limit; simpl; [rewrite app_nil_r; lia|done]. }
  destruct limit as [n|].
  - destruct (n - 1 <=? 0) eqn:E; zbool.
    + unfold rg_list, rg_inv; simpl. split_and!; [by rewrite <-(assoc app)|done|by exists [next_]|].
      rewrite !length_app; simpl. lia.
    + specialize (IH next_ (consumed ++ [next_]) (Some (n - 1))).
      destruct (lookahead_loop _ _ _ _) as [ys s'].
      destruct IH as (Hl & Hi & (more & Hm) & Hn). split_and!; [|done| |].
      * by rewrite Hl, <-(assoc app).
      * exists (next_ :: more). by rewrite Hm, <-(assoc app).
      * rewrite !length_app in *. simpl in *. lia.
  - specialize (IH next_ (consumed ++ [next_]) None).
    destruct (lookahead_loop _ _ _ _) as [ys s'].
    destruct IH as (Hl & Hi & (more & Hm) & -> & Hit). split_and!; [|done| |done|done].
    + by rewrite Hl, <-(assoc app).
    + exists (next_ :: more). by rewrite Hm, <-(assoc app).
Qed.

Lemma lookahead_consume_spec s limit :
  rg_inv s →
  let '(ys, s') := lookahead_consume s limit in
  rg_list s' = rg_list s ∧ rg_inv s' ∧
  match limit with
  | None => rg_consumed s ++ ys = rg_list s
  | Some n => (Nat.min (length (rg_list s)) (length (rg_consumed s) + Z.to_nat n)
               <= length (rg_consumed s'))%nat
  end.
Proof.
  intros Hi. unfold lookahead_consume. destruct s as [it consumed done]; simpl in *.
  unfold rg_list in *; simpl in *. unfold rg_inv in Hi; simpl in Hi.
  destruct done; simpl.
  { rewrite Hi by done. rewrite !app_nil_r. destruct limit; split_and!; try done; lia. }
  destruct (match limit with None => true | Some n => 0 <? n end) eqn:E.
  2:{ destruct limit as [n|]; [|done]. zbool. split_and!; [done|done|]. simpl. lia. }
  destruct it as [|now it]; simpl.
  { destruct limit; split_and!; try done. rewrite length_app. simpl. lia. }
  pose proof (lookahead_loop_spec now it (consumed ++ [now]) limit) as H.
  destruct (lookahead_loop _ _ _ _) as [ys s']. destruct H as (Hl & Hi' & (more & Hm) & Hn).
  unfold rg_list in Hl. rewrite Hl, <-(assoc app). split_and!; [done|done|].
  destruct limit as [n|]; [|destruct Hn as [-> _]; done]. zbool.
  rewrite !length_app in *. simpl in *. lia.
Qed.

Lemma regen_data_spec s :
  rg_inv s →
  let '(l, s') := regen_data s in l = rg_list s ∧ rg_list s' = rg_list s ∧ rg_inv s'.
Proof.
  unfold regen_data, rg_inv, rg_list. destruct s as [it c dn]; simpl. destruct dn; simpl.
  - intros H. rewrite H by done. by rewrite !app_nil_r.
  - rewrite !app_nil_r. done.
Qed.

(** Indexing into what has been consumed is indexing into the whole list, if
    the index is covered or the whole list has been consumed. *)
Lemma list_getitem_prefix s i :
  0 <= i → (Nat.min (length (rg_list s)) (Z.to_nat (i + 1)) <= length (rg_consumed s))%nat →
  list_getitem (rg_consumed s) i = list_getitem (rg_list s) i.
Proof.
  intros Hi Hl. unfold list_getitem. destruct (i <? 0) eqn:E; zbool; [lia|].
  rewrite (proj2 (Z.ltb_ge i 0)) by lia. f_equal. unfold rg_list in *. rewrite length_app in Hl.
  destruct (decide (Z.to_nat i < length (rg_consumed s))%nat).
  - by rewrite lookup_app_l.
  - rewrite lookup_app_r by lia. rewrite !lookup_ge_None_2; [done|lia..].
Qed.

(** A [regen] behaves as the list of everything its iterator gives.  In any
    state, iterating, indexing (also with negative indexes and out of range),
    testing for emptiness and asking for the data give what the list gives, and
    leave a state that stands for the same list: items read ahead are neither
    lost nor duplicated.  [map] acts as the list's map. *)
Theorem regen_refines_list s :
  rg_inv s →
  (let '(l, s') := regen_iter s in l = rg_list s ∧ rg_list s' = rg_list s ∧ rg_inv s') ∧
  (let '(l, s') := regen_data s in l = rg_list s ∧ rg_list s' = rg_list s ∧ rg_inv s') ∧
  (∀ i, let '(r, s') := regen_getitem s i in
        r = list_getitem (rg_list s) i ∧ rg_list s' = rg_list s ∧ rg_inv s') ∧
  (let '(b, s') := regen_bool s in
   b = negb (bool_decide (rg_list s = [])) ∧ rg_list s' = rg_list s ∧ rg_inv s') ∧
  (∀ f, rg_list (regen_map f s) = f <$> rg_list s ∧ rg_inv (regen_map f s)).
Proof.
  intros Hi. pose proof (regen_data_spec s Hi) as Hd. split_and!; [|done| | |].
  - unfold regen_iter. pose proof (lookahead_consume_spec s None Hi) as H.
    destruct (lookahead_consume s None) as [ys s']. naive_solver.
  - intros i. unfold regen_getitem. destruct (i <? 0) eqn:E; zbool.
    { destruct (regen_data s) as [l s']. destruct Hd as (-> & ? & ?). done. }
    pose proof (lookahead_consume_spec s (Some (i - Z.of_nat (length (rg_consumed s)) + 1)) Hi) as H.
    destruct (lookahead_consume s _) as [ys s']. destruct H as (Hl & Hi' & Hn).
    split_and!; [|done|done]. rewrite <-Hl. apply list_getitem_prefix; [done|].
    rewrite Hl. lia.
  - unfold regen_bool, rg_list, rg_inv in *. destruct s as [it consumed dn]; simpl in *.
    destruct consumed as [|c consumed]; simpl; [|done].
    destruct dn; simpl; [by rewrite Hi|]. by destruct it as [|? [|? ?]].
  - intros f. unfold regen_map, rg_list, rg_inv in *. simpl. rewrite fmap_app.
    split; [done|]. intros ->%Hi. done.
Qed.
End Regen.

Lemma regen_refines_list_witness :
  rg_list (RG [3; 4; 5] [1; 2] false) = [1; 2; 3; 4; 5] ∧
  (∀ i, let '(r, s') := regen_getitem (RG [3; 4; 5] [1; 2] false) i in
        r = list_getitem [1; 2; 3; 4; 5] i ∧ rg_list s' = [1; 2; 3; 4; 5] ∧ rg_inv s').
Proof.
  split; [done|]. apply (regen_refines_list (RG [3; 4; 5] [1; 2] false)). done.
Defined.

(** ** Chunks, padding, uniqueness *)

Lemma chunks_fuel_spec {A} fuel (l : list A) n :
  1 <= n → (length l <= fuel)%nat →
  ∃ cs, chunks_fuel fuel l n = Ok cs ∧ concat cs = l ∧
        Forall (λ c, 1 <= Z.of_nat (length c) <= n) cs ∧
        (∀ cs' c, cs = cs' ++ [c] → Forall (λ c, Z.of_nat (length c) = n) cs').
Proof.
  intros Hn. revert l; induction fuel as [|fuel IH]; intros [|x l] Hl; simpl in *; try lia;
    [exists []; split_and!; [done|done|done|by intros [|??] ? ?]..|].
  destruct (n - 1 <? 0) eqn:E; zbool; [lia|].
  destruct (IH (drop (Z.to_nat (n - 1)) l)) as (cs & -> & Hc & Hf & Hlast).
  { rewrite length_drop. lia. }
  simpl. eexists. split; [done|]. split_and!.
  - simpl. by rewrite Hc, take_drop.
  - constructor; [|done]. simpl. rewrite length_take. lia.
  - intros [|c0 cs'] c Heq; [constructor|]. simpl in Heq. injection Heq as <- ->.
    constructor; [|by eapply Hlast]. simpl. rewrite length_take.
    assert (drop (Z.to_nat (n - 1)) l ≠ []) as Hne.
    { rewrite <-Hc, concat_app. simpl. rewrite app_nil_r. intros H0.
      apply Forall_app in Hf as [_ Hf]. inversion Hf; subst.
      apply app_nil in H0 as [_ ->]. simpl in *. lia. }
    destruct (decide (length l <= Z.to_nat (n - 1))%nat); [|lia].
    by rewrite drop_ge in Hne.
Qed.

(** [chunks] cuts an iterator into consecutive non-empty chunks of [n]
    items, only the last of which may be shorter; nothing is lost.  A chunk size
    below 1 raises [ValueError] on a non-empty iterator. *)
Theorem chunks_partition {A} (l : list A) n :
  (1 <= n →
   ∃ cs, chunks l n = Ok cs ∧ concat cs = l ∧
         Forall (λ c, 1 <= Z.of_nat (length c) <= n) cs ∧
         (∀ cs' c, cs = cs' ++ [c] → Forall (λ c, Z.of_nat (length c) = n) cs')) ∧
  (n < 1 → l ≠ [] → chunks l n = Raise ValueError).
Proof.
  split; [intros; by apply chunks_fuel_spec|]. intros Hn Hl. unfold chunks.
  destruct l as [|x l]; [done|]. simpl. by rewrite (proj2 (Z.ltb_lt (n - 1) 0)) by lia.
Qed.

Lemma chunks_partition_witness :
  (1 <= 3 → ∃ cs, chunks (seq 0 11) 3 = Ok cs ∧ concat cs = seq 0 11 ∧
     Forall (λ c, 1 <= Z.of_nat (length c) <= 3) cs ∧
     (∀ cs' c, cs = cs' ++ [c] → Forall (λ c, Z.of_nat (length c) = 3) cs')) ∧
  (0 < 1 → seq 0 11 ≠ [] → chunks (seq 0 11) 0 = Raise ValueError).
Proof.
  split; [apply (chunks_partition (seq 0 11) 3)|apply (chunks_partition (seq 0 11) 0)].
Defined.

Lemma padlist_length {A} (l : list A) size d :
  0 <= size → Z.of_nat (length (padlist l size d)) = size.
Proof.
  intros. unfold padlist, slice_to. rewrite (proj2 (Z.leb_le 0 size)) by lia.
  rewrite length_app, length_take, length_replicate. lia.
Qed.

Section Uniq.
Context {A : Type} `{!EqDecision A}.

Lemma elem_of_uniq_from (seen l : list A) x : x ∈ uniq_from seen l ↔ x ∈ l ∧ x ∉ seen.
Proof.
  revert seen; induction l as [|y l IH]; intros seen; simpl; [set_solver|].
  case_decide; rewrite ?elem_of_cons, IH; [|destruct (decide (x = y))]; set_solver.
Qed.

Lemma NoDup_uniq_from (seen l : list A) : NoDup (uniq_from seen l).
Proof.
  revert seen; induction l as [|y l IH]; intros seen; simpl; [constructor|].
  case_decide; [done|]. constructor; [|done]. rewrite elem_of_uniq_from. set_solver.
Qed.

Lemma elem_of_uniq (l : list A) x : x ∈ uniq l ↔ x ∈ l.
Proof. unfold uniq. rewrite elem_of_uniq_from. set_solver. Qed.

Lemma NoDup_uniq (l : list A) : NoDup (uniq l).
Proof. apply NoDup_uniq_from. Qed.
End Uniq.

End Functional.
