(* ===== verification/ChainMap.v ===== *)
(** [ChainMap] and [ConfigurationView] of celery/utils/collections.py, and the
    settings object of celery/app/utils.py built on them.

    In the code [changes] is the first of [maps] and [defaults] the others
    ([__init__], [add_defaults] and [swap_with] keep it so); the model stores
    [changes] and [defaults] and derives [maps]. *)

From S2P Require Import Prelude PyDict PyStr Functional.

Module ChainMap.
Section ChainMap.
Context {K V O : Type} `{!EqDecision K}.

(** [O] is the type of the observers registered with [bind_to]. *)
Record chainmap := CM {
  cm_key_t : option (K → K);
  cm_changes : pydict K V;
  cm_defaults : list (pydict K V);
  cm_observers : list O;
}.
Implicit Types (c : chainmap).

Definition cm_maps c : list (pydict K V) := cm_changes c :: cm_defaults c.
Definition set_changes c (d : pydict K V) : chainmap := CM (cm_key_t c) d (cm_defaults c) (cm_observers c).

(** [ChainMap( *maps, key_t=...)]; no maps at all means one empty dictionary *)
Definition cm_init (maps : list (pydict K V)) (key_t : option (K → K)) : chainmap :=
  match maps with
  | [] => CM key_t [] [] []
  | m :: ms => CM key_t m ms []
  end.

Definition cm_add_defaults c (d : pydict K V) : chainmap :=
  CM (cm_key_t c) (cm_changes c) (d :: cm_defaults c) (cm_observers c).

Definition cm_key c (k : K) : K :=
  match cm_key_t c with Some f => f k | None => k end.

(** First value for one of [ks] in the first map that has one *)
Fixpoint lookup_keys (m : pydict K V) (ks : list K) : option V :=
  match ks with
  | [] => None
  | k :: ks => match dict_get m k with Some v => Some v | None => lookup_keys m ks end
  end.
Fixpoint lookup_maps (ms : list (pydict K V)) (ks : list K) : option V :=
  match ms with
  | [] => None
  | m :: ms => match lookup_keys m ks with Some v => Some v | None => lookup_maps ms ks end
  end.

Definition cm_getitem c (k : K) : outcome V :=
  of_option KeyError (lookup_maps (cm_maps c) [cm_key c k]).

Definition cm_setitem c (k : K) (v : V) : chainmap :=
  set_changes c (dict_set (cm_changes c) (cm_key c k) v).

Definition cm_delitem c (k : K) : outcome chainmap :=
  if dict_in (cm_changes c) (cm_key c k) then Ok (set_changes c (dict_del (cm_changes c) (cm_key c k)))
  else Raise KeyError.

(** [pop(key, default)] *)
Definition cm_pop c (k : K) (dflt : option V) : outcome (V * chainmap) :=
  match dict_get (cm_changes c) (cm_key c k) with
  | Some v => Ok (v, set_changes c (dict_del (cm_changes c) (cm_key c k)))
  | None => match dflt with Some d => Ok (d, c) | None => Raise KeyError end
  end.

Definition cm_clear c : chainmap := set_changes c [].

Definition cm_get c (k : K) (dflt : V) : V :=
  match cm_getitem c k with Ok v => v | _ => dflt end.

Definition cm_contains c (k : K) : bool :=
  existsb (λ m, dict_in m (cm_key c k)) (cm_maps c).

Definition cm_bool c : bool := existsb (λ m : pydict K V, negb (bool_decide (length m = 0))) (cm_maps c).

Definition cm_setdefault c (k : K) (v : V) : chainmap :=
  if cm_contains c k then c else cm_setitem c k v.

(** [update(mapping, **kwargs)]: the observers are called with the normalized
    arguments after the changes are stored.  The keys are stored as given. *)
Definition cm_update c (arg : option (pydict K V)) (kwargs : pydict K V)
    : chainmap * list (O * option (pydict K V) * pydict K V) :=
  let arg := (λ d, dict_update [] d) <$> arg in
  let changes := dict_update (dict_update (cm_changes c) (default [] arg)) kwargs in
  (set_changes c changes, (λ o, (o, arg, kwargs)) <$> cm_observers c).

Definition cm_bind_to c (o : O) : chainmap :=
  CM (cm_key_t c) (cm_changes c) (cm_defaults c) (cm_observers c ++ [o]).

(** [_iter] and [keys()]: defaults first, each key once *)
Definition cm_keys c : list K := Functional.uniq (concat (dict_keys <$> reverse (cm_maps c))).

Definition cm_len c : nat := length (Functional.uniq (concat (dict_keys <$> cm_maps c))).

(** [items()] *)
Definition cm_items c : outcome (list (K * V)) :=
  foldM (λ acc k, let! v := cm_getitem c k in Ok (acc ++ [(k, v)])) [] (cm_keys c).

(** [copy()]: the observers and [key_t] are not copied *)
Definition cm_copy c : chainmap := cm_init (cm_maps c) None.

(** [fromkeys(iterable, value)] *)
Definition cm_fromkeys (l : list K) (v : V) : chainmap :=
  cm_init [foldl (λ d k, dict_set d k v) [] l] None.

(** ** Lookup *)

Lemma lookup_keys_None m ks :
  lookup_keys m ks = None ↔ ∀ k, k ∈ ks → dict_in m k = false.
Proof.
  induction ks as [|k ks IH]; simpl; [set_solver|].
  unfold dict_in in *. destruct (dict_get m k) eqn:E.
  - split; [done|]. intros H. specialize (H k). rewrite E in H. set_solver.
  - rewrite IH. split; [|set_solver]. intros H k' [->|?]%elem_of_cons; [by rewrite E|auto].
Qed.

Lemma lookup_maps_None ms ks :
  lookup_maps ms ks = None ↔ ∀ m k, m ∈ ms → k ∈ ks → dict_in m k = false.
Proof.
  induction ms as [|m ms IH]; simpl; [set_solver|].
  destruct (lookup_keys m ks) eqn:E.
  - split; [done|]. intros H. assert (lookup_keys m ks = None) as E'; [|congruence].
    apply lookup_keys_None. intros. apply H; [left|done].
  - rewrite IH. split; [|set_solver]. intros H m' k [->|?]%elem_of_cons Hk; [|by eapply H].
    by eapply lookup_keys_None.
Qed.

Lemma existsb_maps (ms : list (pydict K V)) (k : K) : existsb (λ m, dict_in m k) ms = true ↔ ∃ m, m ∈ ms ∧ dict_in m k = true.
Proof. rewrite existsb_exists. setoid_rewrite list_elem_of_In. done. Qed.

Lemma lookup_maps_is_Some ms ks :
  is_Some (lookup_maps ms ks) ↔ existsb (λ k, existsb (λ m, dict_in m k) ms) ks = true.
Proof.
  rewrite existsb_exists. setoid_rewrite existsb_maps. setoid_rewrite <-list_elem_of_In.
  destruct (lookup_maps ms ks) as [v|] eqn:E.
  - split; [|by eauto]. intros _. destruct (decide (Exists (λ k, Exists (λ m, dict_in m k = true) ms) ks)) as [H|H].
    + apply Exists_exists in H as (k & Hk & (m & Hm & ?)%Exists_exists). eauto.
    + exfalso. assert (lookup_maps ms ks = None) as E'; [|congruence].
      apply lookup_maps_None. intros m k Hm Hk. destruct (dict_in m k) eqn:Ed; [|done].
      exfalso. apply H. apply Exists_exists. exists k. split; [done|]. apply Exists_exists. eauto.
  - split; [by intros []|]. intros (k & Hk & m & Hm & Hd).
    rewrite (proj1 (lookup_maps_None _ _) E) in Hd; done.
Qed.

Lemma lookup_maps_cons_set m ms k v k' :
  lookup_maps (dict_set m k v :: ms) [k'] = if decide (k = k') then Some v else lookup_maps (m :: ms) [k'].
Proof.
  simpl. rewrite dict_get_set. case_decide; [done|]. by destruct (dict_get m k').
Qed.

Lemma cm_contains_getitem c k : cm_contains c k = true ↔ is_Ok (cm_getitem c k).
Proof.
  unfold cm_contains, cm_getitem.
  assert (existsb (λ m, dict_in m (cm_key c k)) (cm_maps c) = true ↔
          is_Some (lookup_maps (cm_maps c) [cm_key c k])) as ->.
  { rewrite lookup_maps_is_Some. simpl. by rewrite orb_false_r. }
  destruct (lookup_maps _ _) as [v|]; simpl; split; [by exists v|by exists v|by intros []|by intros []].
Qed.

Lemma elem_of_cm_keys c k : k ∈ cm_keys c ↔ ∃ m, m ∈ cm_maps c ∧ dict_in m k = true.
Proof.
  unfold cm_keys. rewrite Functional.elem_of_uniq, list_elem_of_In, in_concat.
  split.
  - intros (ks & (m & -> & Hm%elem_of_reverse)%list_elem_of_In%list_elem_of_fmap & Hk).
    rewrite reverse_involutive in Hm. exists m.
    split; [done|]. by apply dict_in_true, list_elem_of_In.
  - intros (m & Hm & Hk). exists (dict_keys m). split.
    + apply list_elem_of_In, list_elem_of_fmap. exists m. split; [done|]. by apply elem_of_reverse.
    + by apply list_elem_of_In, dict_in_true.
Qed.

(** A [ChainMap] is a map of its own.  A key is in it iff reading it does
    not raise; [keys()] lists every key exactly once and [len] counts them;
    writing a key is read back and leaves the other keys alone; deleting or
    popping a key succeeds iff the first map has it, and uncovers the value of
    the defaults. *)
Theorem chainmap_lookup c :
  (∀ k, cm_contains c k = true ↔ is_Ok (cm_getitem c k)) ∧
  (∀ k, cm_key_t c = None → (k ∈ cm_keys c ↔ cm_contains c k = true)) ∧
  NoDup (cm_keys c) ∧ cm_len c = length (cm_keys c) ∧
  (∀ k v k', cm_getitem (cm_setitem c k v) k' =
     if decide (cm_key c k = cm_key c k') then Ok v else cm_getitem c k') ∧
  (∀ k, dict_wf (cm_changes c) →
     match cm_delitem c k with
     | Ok c' => is_Some (dict_get (cm_changes c) (cm_key c k)) ∧
                cm_getitem c' k = of_option KeyError (lookup_maps (cm_defaults c) [cm_key c k])
     | Raise e => e = KeyError ∧ dict_get (cm_changes c) (cm_key c k) = None
     | Diverge => False
     end).
Proof.
  split_and!.
  - apply cm_contains_getitem.
  - intros k Hk. rewrite elem_of_cm_keys. unfold cm_contains. rewrite existsb_maps.
    unfold cm_key. by rewrite Hk.
  - apply Functional.NoDup_uniq.
  - unfold cm_len, cm_keys. apply Permutation_length, NoDup_Permutation;
      [apply Functional.NoDup_uniq..|]. intros x. rewrite !Functional.elem_of_uniq.
    rewrite !list_elem_of_In, !in_concat.
    by setoid_rewrite <-list_elem_of_In; setoid_rewrite list_elem_of_fmap; setoid_rewrite elem_of_reverse.
  - intros k v k'. unfold cm_getitem, cm_setitem, cm_maps. cbn [set_changes cm_changes cm_defaults cm_key_t].
    change (cm_key (set_changes _ _) k') with (cm_key c k').
    rewrite lookup_maps_cons_set. by case_decide.
  - intros k Hwf. unfold cm_delitem, dict_in.
    destruct (dict_get (cm_changes c) (cm_key c k)) as [v|] eqn:E; [|done]. split; [by eauto|].
    unfold cm_getitem, cm_maps, set_changes, cm_key. simpl.
    change (match cm_key_t c with Some f => f k | None => k end) with (cm_key c k).
    by rewrite dict_get_del_eq.
Qed.
End ChainMap.
Arguments chainmap : clear implicits.

Definition ex_chain : chainmap nat nat unit :=
  CM None [(1, 10); (2, 20)] [[(2, 99); (3, 30)]; [(1, 0)]] [].

Lemma chainmap_lookup_witness :
  (cm_key_t ex_chain = None → (3 ∈ cm_keys ex_chain ↔ cm_contains ex_chain 3 = true)) ∧
  match cm_delitem ex_chain 2 with
  | Ok c' => is_Some (dict_get (cm_changes ex_chain) 2) ∧
             cm_getitem c' 2 = of_option KeyError (lookup_maps (cm_defaults ex_chain) [2])
  | Raise e => e = KeyError ∧ dict_get (cm_changes ex_chain) 2 = None
  | Diverge => False
  end.
Proof.
  destruct (chainmap_lookup ex_chain) as (_ & Hk & _ & _ & _ & Hd).
  split; [apply Hk|]. apply (Hd 2). unfold dict_wf. simpl.
  repeat (constructor; [set_solver|]). constructor.
Defined.
End ChainMap.
