(* ===== verification/Settings.v ===== *)
(** [ConfigurationView] of celery/utils/collections.py and the settings object
    of celery/app/utils.py: lookup under prefixes and under old and new setting
    names, and the detection of the naming scheme of a configuration. *)

From S2P Require Import Prelude PyDict PyStr Functional ChainMap.
Import ChainMap.

(** celery/utils/text.py *)
Definition match_case (s other : string) : string :=
  if str_isupper other then str_upper s else str_lower s.

Module ConfigurationView.
Section ConfigurationView.
Context {V O : Type}.

Record confview := CV {
  cv_chain : chainmap string V O;
  cv_prefix : option string;
  cv_keys : list (string → string);
}.
Implicit Types (c : confview).

Definition prefix_truthy (p : option string) : bool :=
  match p with Some "" | None => false | Some _ => true end.

Definition norm_prefix (p : option string) : option string :=
  match p with
  | Some s => if prefix_truthy p then Some (str_rstrip s "_"%char ++ "_")%string else p
  | None => None
  end.

Definition cv_init (changes : pydict string V) (defaults : list (pydict string V))
    (keys : list (string → string)) (prefix : option string) : confview :=
  CV (cm_init (changes :: defaults) None) (norm_prefix prefix) keys.

Definition to_keys c (key : string) : list string :=
  match cv_prefix c with
  | Some prefix =>
      if prefix_truthy (Some prefix) then
        let pkey := if str_startswith key prefix then key else (prefix ++ key)%string in
        [match_case pkey prefix; key]
      else [key]
  | None => [key]
  end ++ ((λ f, f key) <$> cv_keys c).

Definition cv_getitem c (key : string) : outcome V :=
  of_option KeyError (lookup_maps (cm_maps (cv_chain c)) (cm_key (cv_chain c) <$> to_keys c key)).

Definition cv_setitem c (key : string) (v : V) : confview :=
  CV (cm_setitem (cv_chain c) key v) (cv_prefix c) (cv_keys c).

Definition cv_get c (key : string) (dflt : V) : V :=
  match cv_getitem c key with Ok v => v | _ => dflt end.

Definition cv_contains c (key : string) : bool :=
  existsb (cm_contains (cv_chain c)) (to_keys c key).

Definition cv_clear c : confview := CV (cm_clear (cv_chain c)) (cv_prefix c) (cv_keys c).

(** [first( *keys)]: the first value that is not [None] *)
Definition cv_first (is_none : V → bool) c (keys : list string) : option V :=
  Functional.first None
    ((λ k, match cv_getitem c k with
           | Ok v => if is_none v then None else Some v
           | _ => None
           end) <$> keys).

Definition cv_copy c : confview :=
  let c' := cv_init (cm_changes (cv_chain c)) (cm_defaults (cv_chain c)) (cv_keys c) (cv_prefix c) in
  CV (CM (cm_key_t (cv_chain c)) (cm_changes (cv_chain c')) (cm_defaults (cv_chain c')) [])
     (cv_prefix c') (cv_keys c').

(** [swap_with(other)]: everything but the observers is taken over *)
Definition cv_swap_with c other : confview :=
  CV (CM (cm_key_t (cv_chain other)) (cm_changes (cv_chain other)) (cm_defaults (cv_chain other))
         (cm_observers (cv_chain c)))
     (cv_prefix other) (cv_keys other).

(** The prefixes the constructor leaves. *)
Definition prefix_normal (p : option string) : Prop := norm_prefix p = p.

Lemma drop_while_idemp f l : drop_while f (drop_while f l) = drop_while f l.
Proof. induction l as [|c l IH]; simpl; [done|]. destruct (f c) eqn:E; [done|]. simpl. by rewrite E. Qed.

Lemma rstrip_app_idemp s : str_rstrip (str_rstrip s "_"%char ++ "_") "_" = str_rstrip s "_".
Proof.
  unfold str_rstrip. rewrite to_chars_app, to_of_chars, reverse_app. simpl.
  rewrite reverse_involutive. by rewrite drop_while_idemp.
Qed.

Lemma app_underscore_truthy s : prefix_truthy (Some (s ++ "_")%string) = true.
Proof. by destruct s. Qed.

Lemma norm_prefix_idemp p : norm_prefix (norm_prefix p) = norm_prefix p.
Proof.
  destruct p as [p|]; [|done]. unfold norm_prefix at 2 3. case_ifs.
  - unfold norm_prefix. by rewrite app_underscore_truthy, rstrip_app_idemp.
  - unfold norm_prefix. by rewrite Heqb.
Qed.

Lemma to_keys_plain c k :
  prefix_truthy (cv_prefix c) = false → to_keys c k = k :: ((λ f, f k) <$> cv_keys c).
Proof. intros Hp. unfold to_keys. destruct (cv_prefix c) as [p|]; [by rewrite Hp|done]. Qed.

Lemma cv_contains_getitem c k : cv_contains c k = true ↔ is_Ok (cv_getitem c k).
Proof.
  unfold cv_contains, cv_getitem.
  assert (existsb (cm_contains (cv_chain c)) (to_keys c k) =
          existsb (λ k, existsb (λ m, dict_in m k) (cm_maps (cv_chain c)))
                  (cm_key (cv_chain c) <$> to_keys c k)) as ->.
  { generalize (to_keys c k) as ks. induction ks as [|k' ks IH]; simpl; [done|]. by rewrite IH. }
  rewrite <-lookup_maps_is_Some.
  destruct (lookup_maps _ _) as [v|]; simpl; split; [by exists v|by exists v|by intros []|by intros []].
Qed.

(** Reading a configuration view.  A key is in the view iff reading it does
    not raise.  A value stored in [changes] under any of the names of the key
    (prefixed, plain, old or new) takes precedence over the defaults; without
    one, the defaults decide.  Writing a key is read back unless an earlier name
    of it (the prefixed one) is already among the changes.  A copy, and a view
    swapped with another, read like the original; clearing uncovers the
    defaults. *)
Theorem confview_lookup c k :
  (cv_contains c k = true ↔ is_Ok (cv_getitem c k)) ∧
  cv_getitem c k =
    of_option KeyError
      match lookup_keys (cm_changes (cv_chain c)) (cm_key (cv_chain c) <$> to_keys c k) with
      | Some v => Some v
      | None => lookup_maps (cm_defaults (cv_chain c)) (cm_key (cv_chain c) <$> to_keys c k)
      end ∧
  (∀ v, prefix_truthy (cv_prefix c) = false → cv_getitem (cv_setitem c k v) k = Ok v) ∧
  (prefix_normal (cv_prefix c) → cv_getitem (cv_copy c) k = cv_getitem c k) ∧
  (∀ c0, cv_getitem (cv_swap_with c0 c) k = cv_getitem c k) ∧
  cv_getitem (cv_clear c) k =
    of_option KeyError (lookup_maps (cm_defaults (cv_chain c)) (cm_key (cv_chain c) <$> to_keys c k)).
Proof.
  split_and!.
  - apply cv_contains_getitem.
  - done.
  - intros v Hp. unfold cv_getitem.
    rewrite to_keys_plain by done. unfold cv_setitem; simpl.
    change (cm_key (cm_setitem _ _ _)) with (cm_key (cv_chain c)).
    by rewrite dict_get_set_eq.
  - intros Hp. unfold cv_getitem, cv_copy, cv_init, to_keys. simpl. by rewrite Hp.
  - done.
  - unfold cv_getitem, cv_clear, cm_clear, cm_maps, set_changes, to_keys; simpl.
    change (cm_key (CM _ _ _ _)) with (cm_key (cv_chain c)).
    set (ks := _ <$> _). assert (lookup_keys ([] : pydict string V) ks = None) as ->; [|done].
    apply lookup_keys_None. done.
Qed.
End ConfigurationView.
Arguments confview : clear implicits.

Definition ex_view : confview nat unit :=
  cv_init [("broker_url", 1)] [[("CELERY_BROKER_URL", 2); ("timezone", 3)]] []
          (Some "CELERY").

Lemma confview_lookup_witness :
  cv_getitem (cv_copy ex_view) "broker_url" = Ok 1 ∧
  cv_getitem (cv_setitem (cv_init [] [] [] None : confview nat unit) "x" 7) "x" = Ok 7.
Proof.
  split.
  - rewrite (proj1 (proj2 (proj2 (proj2 (confview_lookup ex_view "broker_url"))))); done.
  - by apply (proj1 (proj2 (proj2 (confview_lookup (cv_init [] [] [] None : confview nat unit) "x")))).
Defined.
End ConfigurationView.

Module Settings.
Import ConfigurationView.

(** The values of settings, as far as the code looks at them *)
Inductive setting :=
| SNone
| SBool (b : bool)
| SInt (n : Z)
| SStr (s : string).

Definition truthy (v : setting) : bool :=
  match v with
  | SNone => false
  | SBool b => b
  | SInt n => negb (n =? 0)%Z
  | SStr s => negb (bool_decide (s = ""))
  end.

Definition is_none (v : setting) : bool := match v with SNone => true | _ => false end.

(** [a or b] *)
Definition py_or (a b : setting) : setting := if truthy a then a else b.

Section Settings.
Context {O : Type}.
Record settings := ST { st_view : confview setting O; st_deprecated : gset string }.
Implicit Types (c : settings).

(** [os.environ.get(name)] *)
Definition env (environ : string → option string) (name : string) : setting :=
  match environ name with Some s => SStr s | None => SNone end.
Definition get c (key : string) : setting := cv_get (st_view c) key SNone.
Definition st_first c (keys : list string) : setting := default SNone (cv_first is_none (st_view c) keys).

Definition broker_url (environ : string → option string) c : setting := py_or (env environ "CELERY_BROKER_URL") (st_first c ["broker_url"; "broker_host"]).
Definition broker_read_url (environ : string → option string) c : setting :=
  py_or (py_or (env environ "CELERY_BROKER_READ_URL") (get c "broker_read_url")) (broker_url environ c).
Definition broker_write_url (environ : string → option string) c : setting :=
  py_or (py_or (env environ "CELERY_BROKER_WRITE_URL") (get c "broker_write_url")) (broker_url environ c).
Definition result_backend (environ : string → option string) c : setting :=
  py_or (env environ "CELERY_RESULT_BACKEND") (st_first c ["result_backend"; "CELERY_RESULT_BACKEND"]).
Definition task_default_exchange c : setting := st_first c ["task_default_exchange"; "task_default_queue"].
Definition task_default_routing_key c : setting := st_first c ["task_default_routing_key"; "task_default_queue"].
Definition timezone c : setting := st_first c ["timezone"; "TIME_ZONE"].

(** [without_defaults()]: the last map is the table of default settings *)
Definition without_defaults c : settings :=
  ST (cv_init [] (removelast (cm_maps (cv_chain (st_view c)))) [] None) ∅.

Definition value_set_for c (key : string) : bool := cv_contains (st_view (without_defaults c)) key.

(** [get_by_parts( *parts)] *)
Definition get_by_parts c (parts : list string) : outcome setting :=
  cv_getitem (st_view c) (String.concat "_" (List.filter (λ p, negb (bool_decide (p = ""))) parts)).

(** ** [detect_settings] *)

(** [_settings_info_t] without the text of the error *)
Record settings_info := SI {
  si_defaults : pydict string setting;
  si_convert : pydict string string;
}.

Definition old_key_to_new (new_info : settings_info) (key : string) : string :=
  default key (dict_get (si_convert new_info) key).
Definition new_key_to_old (old_info : settings_info) (key : string) : string :=
  default key (dict_get (si_convert old_info) key).

(** [{key for key in left if info.convert[key] not in have}] *)
Definition really_left (info : settings_info) (left : list string) (have : gset string) : outcome (list string) :=
  foldM (λ acc key,
           let! conv := of_option KeyError (dict_get (si_convert info) key) in
           Ok (if decide (conv ∈ have) then acc else acc ++ [key])) [] left.

(** The choice of the scheme: the table to use and the keys of the other one *)
Definition choose_info (new_info old_info : settings_info) (is_in_new is_in_old : gset string)
    (prefix : option string) : settings_info * gset string :=
  let '(info, others) :=
    if negb (bool_decide (is_in_new = ∅)) then
      if negb (bool_decide (is_in_old = ∅)) && (size is_in_new <? size is_in_old)
      then (Some old_info, is_in_new) else (Some new_info, is_in_old)
    else (None, ∅) in
  let '(info, others) :=
    if negb (bool_decide (is_in_old = ∅)) then
      let '(info, others) := match info with Some i => (i, others) | None => (old_info, is_in_new) end in
      if negb (bool_decide (is_in_new = ∅)) && (size is_in_old <? size is_in_new)
      then (new_info, is_in_old) else (info, others)
    else (new_info, is_in_old) in
  if prefix_truthy prefix then (new_info, ∅) else (info, others).

(** [detect_settings(conf, preconf, ignore_keys, prefix, all_keys, old_keys)] *)
Definition detect_settings (new_info old_info : settings_info) (all_keys old_keys : gset string)
    (conf : option (pydict string setting)) (preconf : pydict string setting)
    (ignore_keys : gset string) (prefix : option string) : outcome settings :=
  let source := default preconf conf in
  let conf := default [] conf in
  let have : gset string := list_to_set (dict_keys source) ∖ ignore_keys in
  let is_in_new := have ∩ all_keys in
  let is_in_old := have ∩ old_keys in
  let '(info, others) := choose_info new_info old_info is_in_new is_in_old prefix in
  let! rl := really_left info (elements others) have in
  if negb (bool_decide (rl = [])) then Raise ImproperlyConfigured
  else
    let preconf := dict_update [] ((λ '(k, v), (default k (dict_get (si_convert info) k), v)) <$> preconf) in
    Ok (ST (cv_init preconf [conf; si_defaults info]
                    [old_key_to_new new_info; new_key_to_old old_info] prefix) is_in_old).

(** ** Properties *)

Lemma really_left_spec info left have :
  (∀ k, k ∈ left → is_Some (dict_get (si_convert info) k)) →
  ∃ rl, really_left info left have = Ok rl ∧
        ∀ k, k ∈ rl ↔ k ∈ left ∧ ∃ n, dict_get (si_convert info) k = Some n ∧ n ∉ have.
Proof.
  unfold really_left. intros Hc.
  assert (∀ acc, ∃ rl,
    foldM (λ acc key,
           let! conv := of_option KeyError (dict_get (si_convert info) key) in
           Ok (if decide (conv ∈ have) then acc else acc ++ [key])) acc left = Ok rl ∧
        ∀ k, k ∈ rl ↔ k ∈ acc ∨ k ∈ left ∧ ∃ n, dict_get (si_convert info) k = Some n ∧ n ∉ have) as H.
  { induction left as [|key left IH]; intros acc; simpl; [exists acc; set_solver|].
    destruct (Hc key) as [n Hn]; [left|]. rewrite Hn. simpl.
    destruct (IH ltac:(set_solver) (if decide (n ∈ have) then acc else acc ++ [key])) as (rl & -> & Hrl).
    exists rl. split; [done|]. intros k. rewrite Hrl, elem_of_cons.
    case_decide as Hh; [|rewrite elem_of_app, list_elem_of_singleton].
    - split; [naive_solver|]. intros [|[[->|] Hx]]; [by left| |by right].
      destruct Hx as (n' & Hn' & ?). by simplify_eq.
    - split; [|naive_solver]. intros [[| ->]|[? ?]]; [by left|right; eauto|right; eauto]. }
  destruct (H []) as (rl & ? & Hrl). exists rl. split; [done|]. intros k. rewrite Hrl. set_solver.
Qed.

Lemma choose_info_spec new_info old_info new old prefix :
  choose_info new_info old_info new old prefix =
    if prefix_truthy prefix then (new_info, ∅)
    else if decide (size new < size old) then (old_info, new) else (new_info, old).
Proof.
  unfold choose_info. destruct (prefix_truthy prefix).
  { by repeat case_match; simplify_eq. }
  assert (new = ∅ ↔ size new = 0) as Hn by (by rewrite size_empty_iff, leibniz_equiv_iff).
  assert (old = ∅ ↔ size old = 0) as Ho by (by rewrite size_empty_iff, leibniz_equiv_iff).
  destruct (bool_decide (new = ∅)) eqn:En, (bool_decide (old = ∅)) eqn:Eo; simpl; zbool;
    case_decide as Hd; rewrite ?Hn, ?Ho in *; try lia; try done.
  - destruct (size new <? size old) eqn:E1; zbool; [|lia]. simpl.
    by rewrite (proj2 (Nat.ltb_ge _ _)) by lia.
  - rewrite (proj2 (Nat.ltb_ge (size new) (size old))) by lia. simpl. by case_ifs.
Qed.

(** [detect_settings] decides by majority.  Without a prefix the old naming
    scheme is used iff the configuration has strictly more old names than new
    ones, with a prefix the new one always; the defaults are those of the scheme
    and the keys set before are renamed into it.  It raises
    [ImproperlyConfigured] iff some name of the other scheme is given without
    its counterpart in the chosen scheme; nothing else is ever raised if the
    tables translate every name they list. *)
Theorem detect_settings_majority new_info old_info all_keys old_keys conf preconf ignore prefix :
  (∀ k, k ∈ old_keys → is_Some (dict_get (si_convert new_info) k)) →
  (∀ k, k ∈ all_keys → is_Some (dict_get (si_convert old_info) k)) →
  let have : gset string := list_to_set (dict_keys (default preconf conf)) ∖ ignore in
  let old := prefix_truthy prefix = false ∧ size (have ∩ all_keys) < size (have ∩ old_keys) in
  let info := if decide old then old_info else new_info in
  let other := if prefix_truthy prefix then ∅ else if decide old then have ∩ all_keys else have ∩ old_keys in
  let mixed := ∃ k n, k ∈ other ∧ dict_get (si_convert info) k = Some n ∧ n ∉ have in
  match detect_settings new_info old_info all_keys old_keys conf preconf ignore prefix with
  | Ok c => ¬ mixed ∧ st_deprecated c = have ∩ old_keys ∧
            cm_defaults (cv_chain (st_view c)) = [default [] conf; si_defaults info] ∧
            cv_prefix (st_view c) = norm_prefix prefix ∧
            (∀ k, k ∈ dict_keys (cm_changes (cv_chain (st_view c))) →
                  ∃ k', k' ∈ dict_keys preconf ∧ k = default k' (dict_get (si_convert info) k'))
  | Raise e => mixed ∧ e = ImproperlyConfigured
  | Diverge => False
  end.
Proof.
  intros Hold Hnew have old info other mixed. unfold detect_settings. fold have.
  rewrite choose_info_spec.
  assert ((if prefix_truthy prefix then (new_info, ∅)
           else if decide (size (have ∩ all_keys) < size (have ∩ old_keys))
                then (old_info, have ∩ all_keys) else (new_info, have ∩ old_keys)) = (info, other)) as ->.
  { unfold info, other, old. destruct (prefix_truthy prefix); [by rewrite decide_False by naive_solver|].
    destruct (decide (size _ < size _)); [by rewrite !decide_True|by rewrite !decide_False by naive_solver]. }
  destruct (really_left_spec info (elements other) have) as (rl & -> & Hrl).
  { intros k Hk%elem_of_elements. unfold info, other, old in *.
    destruct (prefix_truthy prefix); [set_solver|]. case_decide; [|apply Hold; set_solver].
    apply Hnew; set_solver. }
  simpl. assert (mixed ↔ rl ≠ []) as Hm.
  { unfold mixed. split.
    - intros (k & n & Hk & Hn & Hh) ->. apply (not_elem_of_nil k), Hrl.
      rewrite elem_of_elements. eauto.
    - intros Hne. destruct rl as [|k rl]; [done|].
      destruct (proj1 (Hrl k)) as [Hk (n & ? & ?)]; [left|]. exists k, n.
      by rewrite <-elem_of_elements. }
  destruct (bool_decide (rl = [])) eqn:E; zbool; simpl; [|by rewrite Hm].
  split_and!; try done; [by rewrite Hm; naive_solver|].
  intros k Hk. revert Hk. unfold dict_update.
  assert (∀ d (l : pydict string setting), k ∈ dict_keys (foldl (λ d '(k, v), dict_set d k v) d l) →
            k ∈ dict_keys d ∨ k ∈ dict_keys l) as Hf.
  { intros d l. revert d. induction l as [|[k1 v1] l IH]; intros d; simpl; [by left|].
    intros [Hin|Hin]%IH; [apply elem_of_dict_keys_set in Hin; set_solver|set_solver]. }
  intros [Hin|Hin]%Hf; [set_solver|].
  unfold dict_keys in Hin. rewrite <-list_fmap_compose in Hin.
  apply list_elem_of_fmap in Hin as ([k' v'] & -> & Hin). exists k'. split; [|done].
  apply list_elem_of_fmap. by exists (k', v').
Qed.

(** A value counts as set by the user only under its literal name: prefixes and
    the old/new translation do not apply. *)
Lemma value_set_for_spec c key :
  value_set_for c key = existsb (λ m, dict_in m key) (removelast (cm_maps (cv_chain (st_view c)))).
Proof.
  unfold value_set_for, without_defaults, cv_contains, to_keys. simpl.
  rewrite orb_false_r. unfold cm_contains. simpl. done.
Qed.
End Settings.

Definition ex_new : settings_info := SI [("broker_url", SNone)] [("BROKER_URL", "broker_url")].
Definition ex_old : settings_info := SI [("BROKER_URL", SNone)] [("broker_url", "BROKER_URL")].

Lemma detect_settings_majority_witness :
  match detect_settings (O := unit) ex_new ex_old {["broker_url"]} {["BROKER_URL"]}
          (Some [("BROKER_URL", SStr "amqp://")]) [] ∅ None with
  | Ok c => cm_defaults (cv_chain (st_view c)) = [[("BROKER_URL", SStr "amqp://")]; si_defaults ex_old]
  | Raise e => e = ImproperlyConfigured
  | Diverge => False
  end.
Proof.
  pose proof (detect_settings_majority (O := unit) ex_new ex_old {["broker_url"]} {["BROKER_URL"]}
    (Some [("BROKER_URL", SStr "amqp://")]) [] ∅ None) as H.
  assert (∀ k : string, k ∈ ({["BROKER_URL"]} : gset string) → is_Some (dict_get (si_convert ex_new) k)) as H1.
  { intros k ->%elem_of_singleton. by eexists. }
  assert (∀ k : string, k ∈ ({["broker_url"]} : gset string) → is_Some (dict_get (si_convert ex_old) k)) as H2.
  { intros k ->%elem_of_singleton. by eexists. }
  specialize (H H1 H2). destruct (detect_settings _ _ _ _ _ _ _ _) as [c|e|] eqn:E.
  - destruct H as (_ & _ & H & _). rewrite H. done.
  - apply H.
  - apply H.
Defined.
End Settings.
