(* ===== verification/LimitedSet.v ===== *)
(** [LimitedSet] of celery/utils/collections.py: a set bounded by size and
    by age, used for the revoked and the successful task ids of a worker.

    Time stamps ([time.monotonic()] floats) are integers here: the code only
    compares them and adds [expires] to them.  Every clock reading the code
    makes is an argument of the operation.  The items are compared by the
    heap only when two entries agree on stamp and sequence number; [kle] is
    that comparison. *)

From S2P Require Import Prelude PyDict PyHeap.
Local Open Scope Z_scope.

Module LimitedSet.
Section LimitedSet.
Context {K : Type} `{!EqDecision K}.
Context (kle : relation K) `{!RelDecision kle, !Total kle, !Transitive kle}.

(** [(inserted, sequence number, item)] *)
Definition entry : Type := Z * nat * K.
Definition stamp (e : entry) : Z := e.1.1.
Definition item_of (e : entry) : K := e.2.

(** Comparison of the tuples by the heap: lexicographic *)
Definition entry_le (e1 e2 : entry) : Prop :=
  e1.1.1 < e2.1.1 ∨
  (e1.1.1 = e2.1.1 ∧
   ((e1.1.2 < e2.1.2)%nat ∨ (e1.1.2 = e2.1.2 ∧ kle e1.2 e2.2))).

#[global] Instance entry_le_dec : RelDecision entry_le.
Proof. intros [[t1 s1] k1] [[t2 s2] k2]; unfold entry_le; apply _. Defined.

#[global] Instance entry_le_total : Total entry_le.
Proof.
  intros [[t1 s1] k1] [[t2 s2] k2]; unfold entry_le; simpl.
  destruct (Z.lt_trichotomy t1 t2) as [|[->|]]; [by left; left| |by right; left].
  destruct (Nat.lt_trichotomy s1 s2) as [|[->|]]; [left; tauto| |right; tauto].
  destruct (total kle k1 k2); tauto.
Qed.

#[global] Instance entry_le_trans : Transitive entry_le.
Proof.
  intros [[t1 s1] k1] [[t2 s2] k2] [[t3 s3] k3]; unfold entry_le; simpl.
  intros [?|[-> [?|[-> Hk]]]] [?|[-> [?|[-> Hk']]]]; try (left; lia);
    right; (split; [done|]); try (left; lia).
  right; split; [done|]. by trans k2.
Qed.

Record limited_set := LS {
  ls_maxlen : Z;
  ls_minlen : Z;
  ls_expires : Z;
  ls_data : pydict K entry;
  ls_heap : list entry;
  ls_seq : nat;
}.

Implicit Types (s : limited_set).

Definition with_data s d h := LS (ls_maxlen s) (ls_minlen s) (ls_expires s) d h (ls_seq s).

Definition ls_len s : Z := Z.of_nat (length (ls_data s)).
Definition ls_contains s (k : K) : bool := dict_in (ls_data s) k.

(** [_heap_overload >= max_heap_percent_overload]: the quotient
    [len(heap) * 100 / max(len(data), 1) - 100] against 15, cross-multiplied. *)
Definition max_heap_percent_overload : Z := 15.
Definition heap_overloaded s : bool :=
  (100 + max_heap_percent_overload) * Z.max (ls_len s) 1 <=? Z.of_nat (length (ls_heap s)) * 100.

Definition refresh_heap s : limited_set :=
  with_data s (ls_data s) (heapify entry_le (dict_values (ls_data s))).

Definition maybe_refresh_heap s : limited_set :=
  if heap_overloaded s then refresh_heap s else s.

Definition clear s : limited_set := with_data s [] [].

Definition discard s (k : K) : limited_set :=
  maybe_refresh_heap (with_data s (dict_del (ls_data s) k) (ls_heap s)).

(** The loop of [pop]: entries whose item is gone are skipped. *)
Fixpoint pop_loop (d : pydict K entry) (h : list entry) : option K * pydict K entry * list entry :=
  match h with
  | [] => (None, d, [])
  | e :: h =>
      if dict_in d (item_of e) then (Some (item_of e), dict_del d (item_of e), h)
      else pop_loop d h
  end.

(** [pop()]: [None] when the set is empty (the default of [default]) *)
Definition pop s : option K * limited_set :=
  let '(r, d, h) := pop_loop (ls_data s) (ls_heap s) in (r, with_data s d h).

Fixpoint purge_maxlen (fuel : nat) s : outcome limited_set :=
  if ls_maxlen s <? ls_len s then
    match fuel with
    | O => Diverge
    | S fuel => purge_maxlen fuel (pop s).2
    end
  else Ok s.

Fixpoint purge_expired (fuel : nat) (now : Z) s : outcome limited_set :=
  if (ls_minlen s <? ls_len s) && (0 <=? ls_minlen s) then
    match ls_heap s with
    | [] => Raise IndexError
    | e :: _ =>
        if now <? stamp e + ls_expires s then Ok s
        else
          match fuel with
          | O => Diverge
          | S fuel => purge_expired fuel now (pop s).2
          end
    end
  else Ok s.

Definition purge (now : Z) s : outcome limited_set :=
  let! s1 := (if negb (ls_maxlen s =? 0) then purge_maxlen (S (length (ls_heap s))) s else Ok s) in
  if negb (ls_expires s1 =? 0) then purge_expired (S (length (ls_heap s1))) now s1 else Ok s1.

(** [add(item, now)]: [clk] is the clock read for the stamp when [now] is
    [None], [pclk] the one [purge] reads. *)
Definition add s (k : K) (now : option Z) (clk pclk : Z) : outcome limited_set :=
  let t := default clk now in
  let s := if ls_contains s k then discard s k else s in
  let e := (t, ls_seq s, k) in
  let s := LS (ls_maxlen s) (ls_minlen s) (ls_expires s)
              (dict_set (ls_data s) k e) (heappush entry_le (ls_heap s) e) (S (ls_seq s)) in
  if negb (ls_maxlen s =? 0) && (ls_maxlen s <=? ls_len s) then purge pclk s else Ok s.

(** The value of a time stamp in the dictionary given to [update]. *)
Inductive py_stamp :=
| StFloat (t : Z)
| StSeq (l : list py_stamp)
| StOther.

Definition stamp_value (v : py_stamp) : outcome Z :=
  let! v := match v with
            | StSeq [] => Raise IndexError
            | StSeq (v :: _) => Ok v
            | _ => Ok v
            end in
  match v with
  | StFloat t => Ok t
  | _ => Raise ValueError
  end.

(** What [update] accepts; the last argument of [update] gives the clock
    readings: [clk i] is read for the stamp and for the purge of item [i]. *)
Inductive update_arg :=
| UpdSet (other : limited_set)
| UpdDict (d : pydict K py_stamp)
| UpdIter (l : list K).

Fixpoint add_stamped s (d : pydict K py_stamp) (clk : nat → Z * Z) (i : nat) : outcome limited_set :=
  match d with
  | [] => Ok s
  | (k, v) :: d =>
      let! t := stamp_value v in
      let! s := add s k (Some t) (clk i).1 (clk i).2 in
      add_stamped s d clk (S i)
  end.

Fixpoint add_items s (l : list K) (clk : nat → Z * Z) (i : nat) : outcome limited_set :=
  match l with
  | [] => Ok s
  | k :: l =>
      let! s := add s k None (clk i).1 (clk i).2 in
      add_items s l clk (S i)
  end.

Definition update s (a : update_arg) (clk : nat → Z * Z) : outcome limited_set :=
  match a with
  | UpdSet other =>
      match ls_data other with
      | [] => Ok s
      | d => purge (clk O).2 (refresh_heap (with_data s (dict_update (ls_data s) d) (ls_heap s)))
      end
  | UpdDict d => add_stamped s d clk 0
  | UpdIter l => add_items s l clk 0
  end.

(** [LimitedSet(maxlen, expires, data, minlen)]; the data is imported before
    the limits are validated. *)
Definition init (maxlen expires : option Z) (data : option update_arg) (minlen : option Z)
    (clk : nat → Z * Z) : outcome limited_set :=
  let s := LS (default 0 maxlen) (default 0 minlen) (default 0 expires) [] [] 0 in
  let! s := match data with Some a => update s a clk | None => Ok s end in
  if negb ((ls_minlen s <=? ls_maxlen s) && (0 <=? ls_minlen s)) then Raise ValueError
  else if ls_expires s <? 0 then Raise ValueError
  else Ok s.

Definition as_dict s : pydict K Z :=
  (λ e : entry, (item_of e, stamp e)) <$> dict_values (ls_data s).

(** [__iter__]: the items, oldest first *)
Definition iter s : list K := item_of <$> merge_sort entry_le (dict_values (ls_data s)).

(** [__reduce__] followed by the constructor call it describes *)
Definition rebuild s (clk : nat → Z * Z) : outcome limited_set :=
  init (Some (ls_maxlen s)) (Some (ls_expires s))
       (Some (UpdDict ((λ '(k, t), (k, StFloat t)) <$> as_dict s))) (Some (ls_minlen s)) clk.

(** ** The representation invariant *)

(** Every stored item is filed under itself and has its entry in the heap,
    which may hold entries of removed items as well. *)
Record ls_inv s : Prop := {
  inv_wf : dict_wf (ls_data s);
  inv_item : ∀ k e, (k, e) ∈ ls_data s → item_of e = k;
  inv_heap : ∀ k e, (k, e) ∈ ls_data s → e ∈ ls_heap s;
  inv_sorted : StronglySorted entry_le (ls_heap s);
}.

(** The limits the constructor enforces. *)
Definition ls_limits s : Prop :=
  0 <= ls_minlen s <= ls_maxlen s ∧ 0 <= ls_expires s.

(** [s'] is [s] with some items and some heap entries removed. *)
Record ls_reduces s s' : Prop := {
  red_params : ls_maxlen s' = ls_maxlen s ∧ ls_minlen s' = ls_minlen s ∧
               ls_expires s' = ls_expires s ∧ ls_seq s' = ls_seq s;
  red_data : ls_data s' `sublist_of` ls_data s;
  red_heap : ∃ pre, ls_heap s = pre ++ ls_heap s';
}.

Lemma ls_reduces_refl s : ls_reduces s s.
Proof. split; [done|done|by exists []]. Qed.

Lemma ls_reduces_trans s1 s2 s3 :
  ls_reduces s1 s2 → ls_reduces s2 s3 → ls_reduces s1 s3.
Proof.
  intros [(?&?&?&?) Hd [p1 Hp1]] [(?&?&?&?) Hd' [p2 Hp2]]. split.
  - split_and!; congruence.
  - by etrans.
  - exists (p1 ++ p2). by rewrite Hp1, Hp2, (assoc app).
Qed.

Lemma ls_reduces_limits s s' : ls_reduces s s' → ls_limits s → ls_limits s'.
Proof. intros [(Hm&Hn&He&_) _ _]. unfold ls_limits. by rewrite Hm, Hn, He. Qed.

Lemma pop_loop_spec d h :
  let '(r, d', h') := pop_loop d h in
  ∃ pre, Forall (λ e, dict_in d (item_of e) = false) pre ∧
    match r with
    | Some k => ∃ e, h = pre ++ e :: h' ∧ item_of e = k ∧
                     dict_in d k = true ∧ d' = dict_del d k
    | None => h = pre ∧ h' = [] ∧ d' = d
    end.
Proof.
  induction h as [|e h IH]; simpl; [by exists []|].
  destruct (dict_in d (item_of e)) eqn:E.
  - exists []. split; [done|]. eauto.
  - destruct (pop_loop d h) as [[r d'] h'] eqn:Ep. simpl in *.
    destruct IH as (pre & Hpre & IH). exists (e :: pre).
    split; [by constructor|]. destruct r as [k|].
    + destruct IH as (e' & -> & ?). by exists e'.
    + destruct IH as (-> & ? & ?). done.
Qed.

Lemma elem_of_dict_in (d : pydict K entry) k e : (k, e) ∈ d → dict_in d k = true.
Proof. intros H. apply dict_in_true, list_elem_of_fmap. by exists (k, e). Qed.

(** [pop] keeps the invariant and only removes; on a non-empty set it
    removes exactly one item. *)
Lemma pop_spec s :
  ls_inv s →
  ls_inv (pop s).2 ∧ ls_reduces s (pop s).2 ∧
  (ls_data s ≠ [] →
     ∃ k e, (pop s).1 = Some k ∧ item_of e = k ∧
       ls_data (pop s).2 = dict_del (ls_data s) k ∧ dict_in (ls_data s) k = true ∧
       ls_len (pop s).2 = ls_len s - 1 ∧
       ∃ pre, Forall (λ e, dict_in (ls_data s) (item_of e) = false) pre ∧
              ls_heap s = pre ++ e :: ls_heap (pop s).2).
Proof.
  intros [Hwf Hit Hh Hs]. unfold pop.
  pose proof (pop_loop_spec (ls_data s) (ls_heap s)) as Hl.
  destruct (pop_loop (ls_data s) (ls_heap s)) as [[r d'] h'] eqn:Ep.
  destruct Hl as (pre & Hpre & Hr). destruct r as [k|]; simpl.
  - destruct Hr as (e & Hheap & <- & Hin & ->).
    assert (ls_len s - 1 = Z.of_nat (length (dict_del (ls_data s) (item_of e)))) as Hlen.
    { unfold ls_len. apply dict_in_true in Hin. apply length_dict_del in Hin. lia. }
    split_and!.
    + split; simpl; [by apply dict_del_wf| | |].
      * intros k' e' Hk'. apply Hit. eapply elem_of_sublist; [done|apply dict_del_sublist].
      * intros k' e' Hk'.
        assert (k' ≠ item_of e) as Hne.
        { apply elem_of_dict_in, dict_in_true, elem_of_dict_keys_del in Hk'; naive_solver. }
        assert ((k', e') ∈ ls_data s) as Hd
          by (eapply elem_of_sublist; [done|apply dict_del_sublist]).
        pose proof (Hh _ _ Hd) as Hin'. rewrite Hheap in Hin'.
        apply elem_of_app in Hin' as [Hin'|[->|Hin']%elem_of_cons]; [|by apply Hit in Hd|done].
        rewrite Forall_forall in Hpre. specialize (Hpre _ Hin').
        rewrite (Hit _ _ Hd) in Hpre. apply elem_of_dict_in in Hd. congruence.
      * rewrite Hheap in Hs. apply StronglySorted_app_1_r in Hs.
        by apply StronglySorted_cons in Hs as [_ ?].
    + split; simpl; [done|apply dict_del_sublist|]. exists (pre ++ [e]).
      by rewrite <-(assoc app).
    + intros _. exists (item_of e), e. unfold ls_len at 1; simpl. split_and!; eauto.
  - destruct Hr as (Hheap & -> & ->).
    assert (ls_data s = []) as Hnil.
    { destruct (ls_data s) as [|[k e] d] eqn:Ed; [done|]. exfalso.
      assert ((k, e) ∈ (k, e) :: d) as Hke by left.
      pose proof (Hh _ _ Hke) as Hin. rewrite Hheap, Forall_forall in *.
      apply Hpre in Hin. rewrite (Hit _ _ Hke) in Hin. apply elem_of_dict_in in Hke. congruence. }
    split_and!; [|split; simpl; [done|done|exists (ls_heap s); by rewrite app_nil_r]|done].
    split; simpl; rewrite ?Hnil; [by constructor|set_solver|set_solver|constructor].
Qed.

Lemma pop_len_heap s :
  ls_inv s → ls_data s ≠ [] →
  (length (ls_heap (pop s).2) < length (ls_heap s))%nat.
Proof.
  intros Hi Hne. destruct (pop_spec s Hi) as (_ & _ & H).
  destruct (H Hne) as (k & e & _ & _ & _ & _ & _ & pre & _ & ->).
  rewrite length_app; simpl; lia.
Qed.

Lemma ls_len_nonneg s : 0 <= ls_len s.
Proof. unfold ls_len; lia. Qed.

Lemma ls_len_pos s : 0 < ls_len s → ls_data s ≠ [].
Proof. unfold ls_len. destruct (ls_data s); simpl; [lia|done]. Qed.

Lemma ls_len_reduces s s' : ls_reduces s s' → ls_len s' <= ls_len s.
Proof. intros [_ Hd _]. unfold ls_len. apply sublist_length in Hd. lia. Qed.

(** The size loop ends, and leaves at most [maxlen] items. *)
Lemma purge_maxlen_spec fuel s :
  ls_inv s → 0 <= ls_maxlen s → (length (ls_heap s) < fuel)%nat →
  ∃ s', purge_maxlen fuel s = Ok s' ∧ ls_inv s' ∧ ls_reduces s s' ∧
        ls_len s' = Z.min (ls_len s) (ls_maxlen s).
Proof.
  revert s; induction fuel as [|fuel IH]; intros s Hi Hm Hf; [lia|].
  simpl. destruct (ls_maxlen s <? ls_len s) eqn:E; zbool.
  2:{ exists s. split_and!; auto using ls_reduces_refl. lia. }
  assert (ls_data s ≠ []) as Hne by (apply ls_len_pos; lia).
  pose proof (pop_len_heap s Hi Hne) as Hlh.
  destruct (pop_spec s Hi) as (Hi' & Hr & Hp).
  destruct (Hp Hne) as (k & e & _ & _ & _ & _ & Hl & _).
  pose proof Hr as [(Hm' & _) _ _].
  destruct (IH (pop s).2) as (s' & -> & Hi'' & Hr' & Hl'); [done|lia|lia|].
  exists s'. split_and!; eauto using ls_reduces_trans. lia.
Qed.

(** The age loop ends without reading an empty heap, and stops at [minlen]
    items or with nothing expired left. *)
Lemma purge_expired_spec fuel now s :
  ls_inv s → 0 <= ls_minlen s → (length (ls_heap s) < fuel)%nat →
  ∃ s', purge_expired fuel now s = Ok s' ∧ ls_inv s' ∧ ls_reduces s s' ∧
        Z.min (ls_len s) (ls_minlen s) <= ls_len s' ∧
        (ls_minlen s < ls_len s' →
           ∀ k e, (k, e) ∈ ls_data s' → now < stamp e + ls_expires s).
Proof.
  revert s; induction fuel as [|fuel IH]; intros s Hi Hm Hf; [lia|].
  simpl. destruct ((ls_minlen s <? ls_len s) && (0 <=? ls_minlen s)) eqn:E.
  2:{ apply andb_false_iff in E. exists s.
      split_and!; auto using ls_reduces_refl; [lia|].
      intros; destruct E; zbool; lia. }
  zbool. assert (ls_data s ≠ []) as Hne by (apply ls_len_pos; lia).
  destruct (ls_heap s) as [|e0 h] eqn:Eh.
  { exfalso. destruct (ls_data s) as [|[k e] d] eqn:Ed; [done|].
    pose proof (inv_heap s Hi k e) as He. rewrite Ed, Eh in He. set_solver. }
  destruct (now <? stamp e0 + ls_expires s) eqn:En; zbool.
  - exists s. split_and!; auto using ls_reduces_refl; [lia|].
    intros _ k e He. pose proof (inv_heap s Hi _ _ He) as Hin.
    pose proof (inv_sorted s Hi) as Hs. rewrite Eh in Hin, Hs.
    apply StronglySorted_cons in Hs as [Hall _]. rewrite Forall_forall in Hall.
    apply elem_of_cons in Hin as [->|Hin]; [done|].
    apply Hall in Hin. unfold entry_le, stamp in *. lia.
  - pose proof (pop_len_heap s Hi Hne) as Hlh. rewrite Eh in Hlh.
    destruct (pop_spec s Hi) as (Hi' & Hr & Hp).
    destruct (Hp Hne) as (k & e & _ & _ & _ & _ & Hl & _).
    pose proof Hr as [(_ & Hm' & He' & _) _ _].
    simpl in *.
    destruct (IH (pop s).2) as (s' & -> & Hi'' & Hr' & Hl' & Hx); [done|lia|lia|].
    exists s'. rewrite Hm', He' in *. split_and!; eauto using ls_reduces_trans. lia.
Qed.

(** Total correctness of [purge], shared by the theorems below. *)
Lemma purge_spec now s :
  ls_inv s → ls_limits s →
  ∃ s', purge now s = Ok s' ∧ ls_inv s' ∧ ls_reduces s s' ∧
        (ls_maxlen s ≠ 0 → ls_len s' <= ls_maxlen s) ∧
        (ls_expires s ≠ 0 → ls_minlen s < ls_len s' →
           ∀ k e, (k, e) ∈ ls_data s' → now < stamp e + ls_expires s) ∧
        (ls_expires s = 0 →
           ls_len s' = if ls_maxlen s =? 0 then ls_len s else Z.min (ls_len s) (ls_maxlen s)).
Proof.
  intros Hi [[Hmin Hmax] He]. unfold purge.
  assert (∃ s1, (if negb (ls_maxlen s =? 0)
                 then purge_maxlen (S (length (ls_heap s))) s else Ok s) = Ok s1 ∧
            ls_inv s1 ∧ ls_reduces s s1 ∧
            ls_len s1 = if ls_maxlen s =? 0 then ls_len s else Z.min (ls_len s) (ls_maxlen s))
    as (s1 & -> & Hi1 & Hr1 & Hl1).
  { destruct (ls_maxlen s =? 0) eqn:E; simpl negb; cbv iota.
    - exists s. auto using ls_reduces_refl.
    - destruct (purge_maxlen_spec (S (length (ls_heap s))) s) as (s1 & -> & ?);
        [done|lia|lia|]. exists s1. naive_solver. }
  pose proof Hr1 as [(Hm1 & Hn1 & He1 & _) _ _]. simpl.
  destruct (ls_expires s1 =? 0) eqn:E1; simpl; zbool.
  - exists s1. split_and!; auto; [|congruence].
    intros. destruct (ls_maxlen s =? 0) eqn:E; zbool; lia.
  - destruct (purge_expired_spec (S (length (ls_heap s1))) now s1)
      as (s' & Heq & Hi' & Hr' & _ & Hx); [done|lia|lia|].
    simpl in Heq. rewrite Heq. exists s'. pose proof (ls_len_reduces _ _ Hr').
    rewrite Hn1, He1 in *.
    split_and!; eauto using ls_reduces_trans; [|congruence].
    intros. destruct (ls_maxlen s =? 0) eqn:E; zbool; lia.
Qed.

Lemma refresh_heap_inv s :
  dict_wf (ls_data s) → (∀ k e, (k, e) ∈ ls_data s → item_of e = k) →
  ls_inv (refresh_heap s).
Proof.
  intros Hwf Hit. split; simpl; [done|done| |apply heapify_sorted; apply _].
  intros k e He. rewrite heapify_perm. apply list_elem_of_fmap. by exists (k, e).
Qed.

Lemma discard_inv s k : ls_inv s → ls_inv (discard s k).
Proof.
  intros [Hwf Hit Hh Hs]. unfold discard, maybe_refresh_heap.
  assert (∀ k' e, (k', e) ∈ dict_del (ls_data s) k → (k', e) ∈ ls_data s) as Hsub.
  { intros. eapply elem_of_sublist; [done|apply dict_del_sublist]. }
  case_ifs.
  - apply refresh_heap_inv; simpl; eauto using dict_del_wf.
  - split; simpl; eauto using dict_del_wf.
Qed.

Lemma discard_fields s k :
  ls_data (discard s k) = dict_del (ls_data s) k ∧
  ls_maxlen (discard s k) = ls_maxlen s ∧ ls_minlen (discard s k) = ls_minlen s ∧
  ls_expires (discard s k) = ls_expires s ∧ ls_seq (discard s k) = ls_seq s.
Proof. unfold discard, maybe_refresh_heap. by case_ifs. Qed.

(** The state [add] builds before purging. *)
Definition added s (k : K) (t : Z) : limited_set :=
  let s1 := if ls_contains s k then discard s k else s in
  LS (ls_maxlen s1) (ls_minlen s1) (ls_expires s1)
     (dict_set (ls_data s1) k (t, ls_seq s1, k))
     (heappush entry_le (ls_heap s1) (t, ls_seq s1, k)) (S (ls_seq s1)).

Lemma added_params s k t :
  ls_maxlen (added s k t) = ls_maxlen s ∧ ls_minlen (added s k t) = ls_minlen s ∧
  ls_expires (added s k t) = ls_expires s.
Proof.
  unfold added; simpl. destruct (ls_contains s k); [|done].
  by destruct (discard_fields s k) as (_ & ? & ? & ? & _).
Qed.

Lemma added_data s k t :
  ls_inv s → ls_data (added s k t) = dict_del (ls_data s) k ++ [(k, (t, ls_seq s, k))].
Proof.
  intros Hi. unfold added, ls_contains; simpl.
  destruct (dict_in (ls_data s) k) eqn:E.
  - destruct (discard_fields s k) as (-> & _ & _ & _ & ->).
    rewrite dict_set_keys_notin; [done|].
    rewrite elem_of_dict_keys_del by apply Hi. naive_solver.
  - assert (k ∉ dict_keys (ls_data s)) by (rewrite <-dict_in_true; congruence).
    rewrite dict_set_keys_notin, dict_del_notin; done.
Qed.

Lemma added_inv s k t : ls_inv s → ls_inv (added s k t).
Proof.
  intros Hi. assert (ls_inv (if ls_contains s k then discard s k else s)) as Hi1.
  { case_ifs; auto using discard_inv. }
  unfold added. set (s1 := if ls_contains s k then discard s k else s) in *.
  set (e := (t, ls_seq s1, k)).
  assert (∀ k' e', (k', e') ∈ dict_set (ls_data s1) k e →
            (k' = k ∧ e' = e) ∨ (k', e') ∈ ls_data s1) as Hset.
  { intros k' e' H'. apply dict_elem_get in H'; [|apply dict_set_wf, Hi1].
    rewrite dict_get_set in H'. case_decide; [naive_solver|].
    right. by apply dict_get_Some_elem. }
  split; simpl.
  - apply dict_set_wf, Hi1.
  - intros k' e' [[-> ->]|H']%Hset; [done|by eapply (inv_item _ Hi1)].
  - intros k' e' [[-> ->]|H']%Hset; apply elem_of_heappush; [by left|].
    right. by eapply (inv_heap _ Hi1).
  - apply heappush_sorted; [apply _..|apply Hi1].
Qed.

Lemma add_unfold s k now clk pclk :
  add s k now clk pclk =
    let s' := added s k (default clk now) in
    if negb (ls_maxlen s' =? 0) && (ls_maxlen s' <=? ls_len s') then purge pclk s' else Ok s'.
Proof. done. Qed.

Lemma added_limits s k t : ls_limits s → ls_limits (added s k t).
Proof. unfold ls_limits. destruct (added_params s k t) as (-> & -> & ->). done. Qed.

(** Adding terminates normally, keeps the invariant and the limits. *)
Lemma add_spec s k now clk pclk :
  ls_inv s → ls_limits s →
  ∃ s', add s k now clk pclk = Ok s' ∧ ls_inv s' ∧ ls_limits s' ∧
        (ls_maxlen s ≠ 0 → ls_len s' <= ls_maxlen s) ∧
        ls_maxlen s' = ls_maxlen s ∧
        ls_data s' `sublist_of` dict_del (ls_data s) k ++ [(k, (default clk now, ls_seq s, k))].
Proof.
  intros Hi Hl. rewrite add_unfold. cbv zeta.
  set (t := default clk now). pose proof (added_inv s k t Hi) as Hi'.
  pose proof (added_limits s k t Hl) as Hl'.
  destruct (added_params s k t) as (Hm & Hn & He).
  rewrite <-(added_data s k t Hi).
  destruct (negb _ && _) eqn:E.
  - destruct (purge_spec pclk _ Hi' Hl') as (s' & -> & Hi2 & Hr & Hlen & _).
    pose proof Hr as [(Hm2 & _) ? _].
    exists s'. rewrite Hm in *. split_and!; eauto using ls_reduces_limits.
  - exists (added s k t). rewrite Hm in *. split_and!; auto.
    intros. apply andb_false_iff in E as [E|E]; zbool; lia.
Qed.

(** ** Items that are never evicted early *)

(** The heap holds the current entries and nothing else. *)
Definition heap_exact s : Prop := ls_heap s ≡ₚ dict_values (ls_data s).

Lemma exact_live s e :
  ls_inv s → heap_exact s → e ∈ ls_heap s → dict_get (ls_data s) (item_of e) = Some e.
Proof.
  intros Hi Hx. unfold heap_exact in Hx. rewrite Hx. intros ([k e'] & Heq & Hin)%list_elem_of_fmap. simpl in *; subst.
  rewrite (inv_item _ Hi _ _ Hin). by apply dict_elem_get; [apply Hi|].
Qed.

(** On an exact heap, [pop] takes the head of the heap. *)
Lemma pop_exact s :
  ls_inv s → heap_exact s → ls_data s ≠ [] →
  ∃ e, ls_heap s = e :: ls_heap (pop s).2 ∧ (pop s).1 = Some (item_of e) ∧
       ls_data (pop s).2 = dict_del (ls_data s) (item_of e) ∧ heap_exact (pop s).2.
Proof.
  intros Hi Hx Hne. destruct (pop_spec s Hi) as (_ & _ & Hp).
  destruct (Hp Hne) as (k & e & Hk & <- & Hd & _ & _ & pre & Hpre & Hheap).
  assert (pre = []) as ->.
  { destruct pre as [|e0 pre]; [done|]. exfalso. inversion Hpre as [|?? H0 _]; subst.
    assert (e0 ∈ ls_heap s) as Hin by (rewrite Hheap; left).
    apply (exact_live s e0 Hi Hx) in Hin. unfold dict_in in H0. by rewrite Hin in H0. }
  simpl in Hheap. exists e. split_and!; auto. unfold heap_exact. rewrite Hd.
  assert (dict_get (ls_data s) (item_of e) = Some e) as Hg.
  { apply exact_live; [done..|]. rewrite Hheap; left. }
  apply dict_del_perm in Hg. unfold heap_exact in Hx. rewrite Hheap in Hx.
  unfold dict_values in *. rewrite Hg in Hx. simpl in Hx.
  by apply Permutation_cons_inv in Hx.
Qed.

(** [e] is the current entry of its item and comes after all others. *)
Definition newest s (e : entry) : Prop :=
  e ∈ ls_heap s ∧ ∀ e', e' ∈ ls_heap s → e' ≠ e → ¬ entry_le e e'.

Lemma pop_newest s e :
  ls_inv s → heap_exact s → newest s e → 1 < ls_len s →
  heap_exact (pop s).2 ∧ newest (pop s).2 e.
Proof.
  intros Hi Hx [He Hnew] Hlen.
  destruct (pop_exact s Hi Hx) as (e0 & Hh & _ & _ & Hx'); [apply ls_len_pos; lia|].
  split; [done|]. rewrite Hh in *. split; [|set_solver].
  apply elem_of_cons in He as [->|]; [|done]. exfalso.
  assert (∃ e1, e1 ∈ ls_heap (pop s).2 ∧ e1 ≠ e0) as (e1 & Hin1 & Hne1).
  { assert (Z.of_nat (length (ls_heap s)) = ls_len s) as Hl.
    { unfold ls_len. unfold heap_exact in Hx. rewrite Hx. unfold dict_values. by rewrite length_fmap. }
    assert (NoDup (ls_heap s)) as Hnd.
    { unfold heap_exact in Hx. rewrite Hx. apply NoDup_fmap_1 with (f := item_of). unfold dict_values.
      rewrite <-list_fmap_compose.
      erewrite list_fmap_ext; [exact (inv_wf _ Hi)|].
      intros i [k e] Hke. simpl. apply (inv_item _ Hi). by eapply list_elem_of_lookup_2. }
    rewrite Hh in *. destruct (ls_heap (pop s).2) as [|e1 h]; simpl in *; [lia|].
    exists e1. split; [left|]. intros ->. apply NoDup_cons in Hnd as [Hnd _]. set_solver. }
  pose proof (inv_sorted _ Hi) as Hs. rewrite Hh in Hs.
  apply StronglySorted_cons in Hs as [Hall _]. rewrite Forall_forall in Hall.
  eapply Hnew; [|exact Hne1|by apply Hall]. by right.
Qed.

Lemma newest_alone s e e0 h :
  ls_inv s → heap_exact s → newest s e → ls_heap s = e0 :: h → ls_len s = 1 → e0 = e.
Proof.
  intros Hi Hx [He _] Hh Hl. unfold heap_exact in Hx. rewrite Hh in He, Hx.
  apply elem_of_cons in He as [->|Hin]; [done|].
  apply Permutation_length in Hx. unfold dict_values in Hx. rewrite length_fmap in Hx.
  unfold ls_len in Hl. destruct h; simpl in *; [set_solver|lia].
Qed.

Lemma purge_maxlen_newest fuel s s' e :
  ls_inv s → heap_exact s → newest s e → 1 <= ls_maxlen s →
  purge_maxlen fuel s = Ok s' → heap_exact s' ∧ newest s' e.
Proof.
  revert s; induction fuel as [|fuel IH]; intros s Hi Hx Hn Hm; simpl.
  { case_ifs; naive_solver. }
  destruct (ls_maxlen s <? ls_len s) eqn:E; zbool; [|naive_solver].
  intros Hpu. destruct (pop_newest s e) as [Hx' Hn']; [done..|lia|].
  destruct (pop_spec s Hi) as (Hi' & [(Hm' & _) _ _] & _).
  eapply IH; [..|exact Hpu]; auto. lia.
Qed.

Lemma purge_expired_newest fuel now s s' e :
  ls_inv s → heap_exact s → newest s e → now < stamp e + ls_expires s →
  purge_expired fuel now s = Ok s' → heap_exact s' ∧ newest s' e.
Proof.
  revert s; induction fuel as [|fuel IH]; intros s Hi Hx Hn Hm; simpl.
  { case_ifs; destruct (ls_heap s); case_ifs; naive_solver. }
  destruct ((ls_minlen s <? ls_len s) && _) eqn:E; [|naive_solver]. zbool.
  destruct (ls_heap s) as [|e0 h] eqn:Eh; [done|].
  destruct (now <? stamp e0 + ls_expires s) eqn:En; zbool; [naive_solver|].
  intros Hpu. destruct (decide (1 < ls_len s)).
  - destruct (pop_newest s e) as [Hx' Hn']; [done..|].
    destruct (pop_spec s Hi) as (Hi' & [(_ & _ & He' & _) _ _] & _).
    eapply IH; [..|exact Hpu]; auto. lia.
  - exfalso. rewrite (newest_alone s e e0 h) in En by (done || lia). lia.
Qed.

Lemma heap_exact_contains s e :
  ls_inv s → heap_exact s → e ∈ ls_heap s → ls_contains s (item_of e) = true.
Proof.
  intros Hi Hx He. unfold ls_contains, dict_in. by rewrite (exact_live s e Hi Hx He).
Qed.

Lemma added_exact s k t :
  heap_exact s → ls_contains s k = false → heap_exact (added s k t).
Proof.
  intros Hx Hc. unfold added, heap_exact. rewrite Hc. simpl.
  rewrite heappush_perm. unfold heap_exact in Hx. rewrite Hx.
  rewrite dict_set_keys_notin by (rewrite <-dict_in_true; unfold ls_contains in Hc; congruence).
  unfold dict_values. rewrite fmap_app. simpl. by rewrite (comm app).
Qed.

Lemma added_newest s k t :
  ls_contains s k = false →
  (∀ e, e ∈ ls_heap s → stamp e < t ∨ (stamp e = t ∧ (e.1.2 < ls_seq s)%nat)) →
  newest (added s k t) (t, ls_seq s, k).
Proof.
  intros Hc Hold. unfold added, newest. rewrite Hc. simpl. split.
  - rewrite elem_of_heappush; by left.
  - intros e [->|He]%elem_of_heappush; [done|]. intros _ Hle.
    apply Hold in He. unfold entry_le, stamp in *. simpl in *.
    destruct Hle as [|[? [|[? ?]]]]; lia.
Qed.

(** ** Rebuilding a set from its dictionary *)

Lemma purge_noop now s :
  ls_expires s = 0 → ls_len s <= ls_maxlen s → purge now s = Ok s.
Proof.
  intros He Hl. unfold purge. simpl.
  assert ((ls_maxlen s <? ls_len s) = false) as -> by (apply Z.ltb_ge; lia).
  destruct (negb (ls_maxlen s =? 0)); simpl; by rewrite He.
Qed.

Lemma add_stamped_append s (d : pydict K Z) clk i :
  ls_inv s → ls_expires s = 0 →
  dict_wf d → (∀ k, k ∈ dict_keys d → k ∉ dict_keys (ls_data s)) →
  (ls_maxlen s = 0 ∨ ls_len s + Z.of_nat (length d) <= ls_maxlen s) →
  ∃ s', add_stamped s ((λ '(k, t), (k, StFloat t)) <$> d) clk i = Ok s' ∧
        as_dict s' = as_dict s ++ d ∧
        ls_maxlen s' = ls_maxlen s ∧ ls_minlen s' = ls_minlen s ∧ ls_expires s' = 0.
Proof.
  revert s i; induction d as [|[k t] d IH]; intros s i Hi He Hwf Hdis Hlen.
  { exists s. rewrite app_nil_r. done. }
  unfold dict_wf in Hwf. simpl in Hwf, Hdis, Hlen. apply NoDup_cons in Hwf as [Hk Hwf].
  rewrite fmap_cons. cbn [add_stamped stamp_value obind].
  assert (k ∉ dict_keys (ls_data s)) as Hks by (apply Hdis; set_solver).
  assert (ls_data (added s k t) = ls_data s ++ [(k, (t, ls_seq s, k))]) as Hd.
  { by rewrite added_data, dict_del_notin. }
  destruct (added_params s k t) as (Hm & Hn & Hx).
  assert (ls_len (added s k t) = ls_len s + 1) as Hl.
  { unfold ls_len. rewrite Hd, length_app. simpl. lia. }
  assert (add s k (Some t) (clk i).1 (clk i).2 = Ok (added s k t)) as ->.
  { rewrite add_unfold. cbv zeta. simpl default.
    destruct (negb _ && _) eqn:E; [|done]. zbool. apply purge_noop; lia. }
  cbn [obind]. destruct (IH (added s k t) (S i)) as (s' & -> & Hs' & Hm' & Hn' & Hx').
  - by apply added_inv.
  - lia.
  - done.
  - intros k' Hk'. rewrite Hd. unfold dict_keys. rewrite fmap_app, elem_of_app; simpl.
    rewrite list_elem_of_singleton. intros [Hin| ->].
    + by apply (Hdis k'); [right|].
    + by apply Hk.
  - lia.
  - exists s'. rewrite Hs', Hm', Hn'. split_and!; auto.
    unfold as_dict, dict_values. rewrite Hd, !fmap_app, <-(assoc app). done.
Qed.

(** ** Adding below the limit *)

Lemma add_append s k now clk pclk :
  ls_inv s → k ∉ dict_keys (ls_data s) → (ls_maxlen s = 0 ∨ ls_len s + 1 < ls_maxlen s) →
  add s k now clk pclk = Ok (added s k (default clk now)) ∧
  ls_data (added s k (default clk now)) = ls_data s ++ [(k, (default clk now, ls_seq s, k))].
Proof.
  intros Hi Hk Hlen. rewrite added_data, dict_del_notin by done. split; [|done].
  rewrite add_unfold. cbv zeta. destruct (added_params s k (default clk now)) as (Hm & _ & _).
  assert (ls_len (added s k (default clk now)) = ls_len s + 1) as Hl.
  { unfold ls_len. rewrite added_data, dict_del_notin, length_app by done. simpl. lia. }
  destruct (negb _ && _) eqn:E; [|done]. zbool. rewrite Hl, Hm in *. destruct Hlen; lia.
Qed.

Lemma added_heap_new s k t e :
  e ∈ ls_heap (added s k t) → k ∉ dict_keys (ls_data s) → e = (t, ls_seq s, k) ∨ e ∈ ls_heap s.
Proof.
  intros He Hk. unfold added, ls_contains in He.
  destruct (dict_in (ls_data s) k) eqn:E; [by apply dict_in_true in E|]. simpl in He.
  by apply elem_of_heappush in He.
Qed.

(** An iterable of new items that stays below the limit is added as a whole,
    with the clock readings as stamps. *)
Lemma add_items_append s l clk i :
  ls_inv s → NoDup l → (∀ k, k ∈ l → k ∉ dict_keys (ls_data s)) →
  (ls_maxlen s = 0 ∨ ls_len s + Z.of_nat (length l) < ls_maxlen s) →
  ∃ s', add_items s l clk i = Ok s' ∧ ls_inv s' ∧
    dict_keys (ls_data s') = dict_keys (ls_data s) ++ l ∧
    (∀ e, e ∈ ls_heap s' → e ∈ ls_heap s ∨ ∃ j, stamp e = (clk j).1) ∧
    ls_maxlen s' = ls_maxlen s ∧ ls_minlen s' = ls_minlen s ∧ ls_expires s' = ls_expires s.
Proof.
  revert s i; induction l as [|k l IH]; intros s i Hi Hnd Hdis Hlen.
  { exists s. rewrite app_nil_r. split_and!; auto. }
  apply NoDup_cons in Hnd as [Hk Hnd]. simpl length in Hlen. cbn [add_items].
  destruct (add_append s k None (clk i).1 (clk i).2) as [-> Hd]; [done|set_solver|lia|].
  cbn [obind default from_option id] in *. destruct (added_params s k (clk i).1) as (Hm & Hn & Hx).
  destruct (IH (added s k (clk i).1) (S i)) as (s' & -> & Hi' & Hk' & Hst & Hm' & Hn' & Hx').
  - by apply added_inv.
  - done.
  - intros k' Hk'. rewrite Hd. unfold dict_keys. rewrite fmap_app, elem_of_app; simpl.
    rewrite list_elem_of_singleton. intros [Hin| ->]; [|done]. by apply (Hdis k'); [right|].
  - rewrite Hm. unfold ls_len. rewrite Hd, length_app. simpl. unfold ls_len in Hlen. lia.
  - exists s'. rewrite Hm', Hn', Hx'. split_and!; auto.
    + rewrite Hk', Hd. unfold dict_keys. rewrite fmap_app, <-app_assoc. done.
    + intros e He. destruct (Hst e He) as [He'|?]; [|by right].
      apply added_heap_new in He' as [->|?]; [right; by exists i|by left|set_solver].
Qed.

(** The same when some of the items are already there *)
Lemma added_heap s k t e : ls_inv s → e ∈ ls_heap (added s k t) → e ∈ ls_heap s ∨ stamp e = t.
Proof.
  intros Hi. unfold added. simpl. intros [->|He]%elem_of_heappush; [by right|]. left. destruct (ls_contains s k); [|done].
  revert He. unfold discard, maybe_refresh_heap. case_ifs; [|done]. unfold refresh_heap. simpl. rewrite heapify_perm.
  intros ([k' e'] & -> & He)%list_elem_of_fmap. apply (inv_heap _ Hi k').
  eapply elem_of_sublist; [exact He|apply dict_del_sublist].
Qed.

Lemma add_items_below s l clk i :
  ls_inv s → (ls_maxlen s = 0 ∨ ls_len s + Z.of_nat (length l) < ls_maxlen s) →
  ∃ s', add_items s l clk i = Ok s' ∧ ls_inv s' ∧
    (∀ k, k ∈ dict_keys (ls_data s') ↔ k ∈ l ∨ k ∈ dict_keys (ls_data s)) ∧
    (∀ e, e ∈ ls_heap s' → e ∈ ls_heap s ∨ ∃ j, stamp e = (clk j).1) ∧
    ls_len s' <= ls_len s + Z.of_nat (length l) ∧
    ls_maxlen s' = ls_maxlen s ∧ ls_minlen s' = ls_minlen s ∧ ls_expires s' = ls_expires s.
Proof.
  revert s i; induction l as [|k l IH]; intros s i Hi Hlen; cbn [add_items].
  { exists s. split_and!; try done; [|by left|simpl; lia]. intros k. rewrite elem_of_nil. tauto. }
  pose proof (added_inv s k (clk i).1 Hi) as Hi1. destruct (added_params s k (clk i).1) as (Hm & Hn & Hx).
  assert (ls_len (added s k (clk i).1) <= ls_len s + 1) as Hl1.
  { unfold ls_len. rewrite added_data, length_app by done. simpl. pose proof (sublist_length _ _ (dict_del_sublist (ls_data s) k)). lia. }
  rewrite add_unfold. cbv zeta. cbn [default from_option id length] in *.
  assert (negb (ls_maxlen (added s k (clk i).1) =? 0) && (ls_maxlen (added s k (clk i).1) <=? ls_len (added s k (clk i).1)) = false) as ->.
  { rewrite Hm. destruct Hlen as [->|Hlen]; [done|]. apply andb_false_iff. right. apply Z.leb_gt. lia. }
  cbn [obind]. destruct (IH (added s k (clk i).1) (S i) Hi1) as (s' & -> & Hi' & Hk & Hh & Hl' & Hm' & Hn' & Hx').
  { rewrite Hm. destruct Hlen; [by left|right; lia]. }
  exists s'. rewrite Hm', Hn', Hx'. split_and!; try done; [| |lia].
  - intros x. rewrite Hk, added_data by done. unfold dict_keys. rewrite fmap_app, elem_of_app. fold (dict_keys (dict_del (ls_data s) k)).
    rewrite elem_of_dict_keys_del by apply Hi. simpl. rewrite list_elem_of_singleton, elem_of_cons. destruct (decide (x = k)); naive_solver.
  - intros e He. destruct (Hh e He) as [He1|?]; [|by right]. apply added_heap in He1 as [?|?]; [by left| |done]. right. by exists i.
Qed.

(** Stamped items below the limit *)
Lemma add_stamped_below s (d : pydict K Z) clk i :
  ls_inv s → dict_wf d → (∀ k, k ∈ dict_keys d → k ∉ dict_keys (ls_data s)) →
  (ls_maxlen s = 0 ∨ ls_len s + Z.of_nat (length d) < ls_maxlen s) →
  ∃ s', add_stamped s ((λ '(k, t), (k, StFloat t)) <$> d) clk i = Ok s' ∧ ls_inv s' ∧
        dict_keys (ls_data s') = dict_keys (ls_data s) ++ dict_keys d ∧
        ls_maxlen s' = ls_maxlen s ∧ ls_minlen s' = ls_minlen s ∧ ls_expires s' = ls_expires s.
Proof.
  revert s i; induction d as [|[k t] d IH]; intros s i Hi Hwf Hdis Hlen.
  { exists s. rewrite app_nil_r. done. }
  unfold dict_wf in Hwf. simpl in Hwf, Hdis, Hlen. apply NoDup_cons in Hwf as [Hk Hwf].
  rewrite fmap_cons. cbn [add_stamped stamp_value obind].
  destruct (add_append s k (Some t) (clk i).1 (clk i).2) as [-> Hd]; [done|apply Hdis; set_solver|lia|].
  cbn [obind default from_option id] in *. destruct (added_params s k t) as (Hm & Hn & Hx).
  destruct (IH (added s k t) (S i)) as (s' & -> & Hi' & Hs' & Hm' & Hn' & Hx').
  - by apply added_inv.
  - done.
  - intros k' Hk'. rewrite Hd. unfold dict_keys. rewrite fmap_app, elem_of_app; simpl.
    rewrite list_elem_of_singleton. intros [Hin| ->]; [|done]. by apply (Hdis k'); [right|].
  - rewrite Hm. unfold ls_len. rewrite Hd, length_app. simpl. unfold ls_len in Hlen. lia.
  - exists s'. rewrite Hs', Hm', Hn', Hx'. split_and!; auto.
    rewrite Hd. unfold dict_keys. rewrite fmap_app, <-app_assoc. done.
Qed.

Lemma as_dict_keys s : ls_inv s → dict_keys (as_dict s) = dict_keys (ls_data s).
Proof.
  intros Hi. unfold as_dict, dict_keys, dict_values. rewrite <-!list_fmap_compose. apply list_fmap_ext.
  intros i [k e] He%list_elem_of_lookup_2. simpl. by apply (inv_item _ Hi).
Qed.

(** A set below its limit is rebuilt with the same items. *)
Lemma rebuild_below s clk :
  ls_inv s → ls_limits s → (ls_maxlen s = 0 ∨ ls_len s < ls_maxlen s) →
  ∃ s', rebuild s clk = Ok s' ∧ ls_inv s' ∧ dict_keys (ls_data s') = dict_keys (ls_data s) ∧
    ls_maxlen s' = ls_maxlen s ∧ ls_expires s' = ls_expires s.
Proof.
  intros Hi [Hmin Hexp] Hlen. unfold rebuild, init. cbn [default from_option id update].
  destruct (add_stamped_below (LS (ls_maxlen s) (ls_minlen s) (ls_expires s) [] [] 0) (as_dict s) clk 0)
    as (s' & -> & Hi' & Hk & Hm & Hn & Hx).
  - split; simpl; [constructor|set_solver|set_solver|constructor].
  - unfold dict_wf. rewrite as_dict_keys by done. apply Hi.
  - set_solver.
  - simpl. assert (length (as_dict s) = length (ls_data s)) as ->.
    { rewrite <-(length_fmap fst (as_dict s)), <-(length_fmap fst (ls_data s)). f_equal. by apply as_dict_keys. }
    unfold ls_len in *. simpl. lia.
  - cbn [obind]. simpl in *. rewrite Hm, Hn, Hx.
    assert ((ls_minlen s <=? ls_maxlen s) && (0 <=? ls_minlen s) = true) as ->.
    { apply andb_true_iff. rewrite !Z.leb_le. lia. }
    assert ((ls_expires s <? 0) = false) as -> by (apply Z.ltb_ge; lia).
    exists s'. rewrite Hk, as_dict_keys by done. done.
Qed.

Lemma iter_perm s : ls_inv s → iter s ≡ₚ dict_keys (ls_data s).
Proof.
  intros Hi. unfold iter. rewrite merge_sort_Permutation, <-as_dict_keys by done.
  unfold as_dict, dict_keys. by rewrite <-list_fmap_compose.
Qed.

(** Nothing is purged from a set within its limits whose heap has no expired
    entry. *)
Lemma purge_fresh now s :
  ls_inv s → (ls_maxlen s ≠ 0 → ls_len s <= ls_maxlen s) →
  (ls_expires s ≠ 0 → ∀ e, e ∈ ls_heap s → now < stamp e + ls_expires s) → purge now s = Ok s.
Proof.
  intros Hi Hl He. unfold purge.
  assert ((if negb (ls_maxlen s =? 0) then purge_maxlen (S (length (ls_heap s))) s else Ok s) = Ok s) as ->.
  { destruct (ls_maxlen s =? 0) eqn:E; zbool; [done|]. simpl.
    assert ((ls_maxlen s <? ls_len s) = false) as -> by (apply Z.ltb_ge; auto). done. }
  cbn [obind]. destruct (ls_expires s =? 0) eqn:E; zbool; [done|]. simpl.
  destruct (_ && _) eqn:E2; [|done]. zbool.
  destruct (ls_heap s) as [|e h] eqn:Eh.
  - destruct (ls_data s) as [|[k e] d] eqn:Ed; [unfold ls_len in *; rewrite Ed in *; simpl in *; lia|].
    exfalso. apply (elem_of_nil e). rewrite <-Eh. apply (inv_heap _ Hi k). rewrite Ed. set_solver.
  - assert (now < stamp e + ls_expires s) by (apply He; [done|set_solver]).
    by assert ((now <? stamp e + ls_expires s) = true) as -> by (apply Z.ltb_lt; lia).
Qed.

(** ** Sequences of operations *)

Definition ls_good s : Prop :=
  ls_inv s ∧ ls_limits s ∧ (ls_maxlen s ≠ 0 → ls_len s <= ls_maxlen s).

Inductive ls_op :=
| OpAdd (k : K) (now : option Z) (clk pclk : Z)
| OpDiscard (k : K)
| OpPop
| OpPurge (now : Z)
| OpClear
| OpUpdate (a : update_arg) (clk : nat → Z * Z).

Definition ls_run s (o : ls_op) : outcome limited_set :=
  match o with
  | OpAdd k now clk pclk => add s k now clk pclk
  | OpDiscard k => Ok (discard s k)
  | OpPop => Ok (pop s).2
  | OpPurge now => purge now s
  | OpClear => Ok (clear s)
  | OpUpdate a clk => update s a clk
  end.

(** The argument of an [update] is itself a set or data the code accepts. *)
Definition ls_op_ok (o : ls_op) : Prop :=
  match o with
  | OpUpdate (UpdSet other) _ => ls_inv other
  | OpUpdate (UpdDict d) _ => ∀ k v, (k, v) ∈ d → is_Ok (stamp_value v)
  | _ => True
  end.

Lemma ls_good_reduces s s' : ls_good s → ls_inv s' → ls_reduces s s' → ls_good s'.
Proof.
  intros (Hi & Hl & Hb) Hi' Hr. pose proof (ls_len_reduces _ _ Hr).
  split_and!; [done|by eapply ls_reduces_limits|].
  destruct Hr as [(-> & _) _ _]. lia.
Qed.

Lemma add_good s k now clk pclk :
  ls_good s → ∃ s', add s k now clk pclk = Ok s' ∧ ls_good s'.
Proof.
  intros (Hi & Hl & Hb).
  destruct (add_spec s k now clk pclk Hi Hl) as (s' & -> & Hi' & Hl' & Hb' & Hm & _).
  exists s'. split; [done|]. unfold ls_good. rewrite Hm. auto.
Qed.

Lemma add_items_good s l clk i :
  ls_good s → ∃ s', add_items s l clk i = Ok s' ∧ ls_good s'.
Proof.
  revert s i; induction l as [|k l IH]; intros s i Hg; simpl; [eauto|].
  destruct (add_good s k None (clk i).1 (clk i).2 Hg) as (s1 & -> & Hg1). simpl. auto.
Qed.

Lemma add_stamped_good s d clk i :
  ls_good s → (∀ k v, (k, v) ∈ d → is_Ok (stamp_value v)) →
  ∃ s', add_stamped s d clk i = Ok s' ∧ ls_good s'.
Proof.
  revert s i; induction d as [|[k v] d IH]; intros s i Hg Hv; cbn [add_stamped]; [eauto|].
  destruct (Hv k v) as [t ->]; [left|]. cbn [obind].
  destruct (add_good s k (Some t) (clk i).1 (clk i).2 Hg) as (s1 & -> & Hg1). cbn [obind].
  apply IH; [done|]. intros; eapply Hv; by right.
Qed.

Lemma update_set_good s other clk :
  ls_good s → ls_inv other → ∃ s', update s (UpdSet other) clk = Ok s' ∧ ls_good s'.
Proof.
  intros (Hi & Hl & Hb) Ho. unfold update.
  destruct (ls_data other) as [|p d] eqn:Ed; [exists s; by split|]. rewrite <-Ed.
  set (s1 := refresh_heap _).
  assert (ls_inv s1) as Hi1.
  { apply refresh_heap_inv; simpl; [apply dict_update_wf, Hi|].
    intros k e He. apply dict_elem_get in He; [|apply dict_update_wf, Hi].
    rewrite dict_get_update in He by apply Ho.
    destruct (dict_get (ls_data other) k) as [e'|] eqn:E.
    - simplify_eq. apply dict_get_Some_elem in E. by apply (inv_item _ Ho).
    - apply dict_get_Some_elem in He. by apply (inv_item _ Hi). }
  destruct (purge_spec (clk 0%nat).2 s1 Hi1 Hl) as (s' & -> & Hi' & Hr & Hm & _).
  exists s'. split; [done|]. split_and!; [done|by eapply ls_reduces_limits|].
  destruct Hr as [(-> & _) _ _]. done.
Qed.

Lemma ls_run_good s o :
  ls_good s → ls_op_ok o → ∃ s', ls_run s o = Ok s' ∧ ls_good s'.
Proof.
  intros Hg Ho. pose proof Hg as (Hi & Hl & Hb).
  destruct o as [k now clk pclk|k| |now| |[other|d|l] clk]; cbn [ls_run ls_op_ok] in *.
  - by apply add_good.
  - exists (discard s k). split; [done|].
    destruct (discard_fields s k) as (Hd & Hm & Hn & He & _).
    split_and!; [by apply discard_inv|unfold ls_limits; by rewrite Hm, Hn, He|].
    rewrite Hm. unfold ls_len in *. rewrite Hd.
    pose proof (sublist_length _ _ (dict_del_sublist (ls_data s) k)). lia.
  - destruct (pop_spec s Hi) as (Hi' & Hr & _). eauto using ls_good_reduces.
  - destruct (purge_spec now s Hi Hl) as (s' & -> & Hi' & Hr & _). eauto using ls_good_reduces.
  - exists (clear s). split; [done|]. split_and!; [|done|unfold ls_limits, ls_len in *; simpl; lia].
    split; simpl; [constructor|set_solver|set_solver|constructor].
  - by apply update_set_good.
  - by apply add_stamped_good.
  - by apply add_items_good.
Qed.

(** ** Properties *)

(** C37: [maxlen] is enforced at all times.  Whatever operations a set within
    its limits goes through (each clock reading is arbitrary), every one of
    them returns: no purge loop runs forever, none reads an empty heap.  The
    resulting set keeps the representation invariant and its limits, and has
    at most [maxlen] items. *)
Theorem limited_set_bounded s ops :
  ls_good s → Forall ls_op_ok ops →
  ∃ s', foldM ls_run s ops = Ok s' ∧ ls_good s'.
Proof.
  intros Hg Hops. apply foldM_total; [done|].
  intros s1 o Ho Hg1. rewrite Forall_forall in Hops. auto using ls_run_good.
Qed.

(** [purge] returns on every set within its limits, only removes items,
    cuts the set to [maxlen], and with a TTL configured leaves no expired item
    beyond the residual [minlen] ones. *)
Theorem purge_enforces_limits now s :
  ls_inv s → ls_limits s →
  ∃ s', purge now s = Ok s' ∧ ls_inv s' ∧ ls_data s' `sublist_of` ls_data s ∧
        (ls_maxlen s ≠ 0 → ls_len s' <= ls_maxlen s) ∧
        (ls_expires s ≠ 0 → ls_minlen s < ls_len s' →
           ∀ k e, (k, e) ∈ ls_data s' → now < stamp e + ls_expires s).
Proof.
  intros Hi Hl. destruct (purge_spec now s Hi Hl) as (s' & ? & ? & [] & ? & ? & _). eauto 6.
Qed.

(** An item added with a stamp after all others is not the victim of the
    purge its addition triggers: if the heap holds no entry of a removed item,
    the set contains the item afterwards (unless it is already expired). *)
Theorem add_keeps_newest s k t pclk :
  ls_inv s → ls_limits s → heap_exact s → ls_contains s k = false →
  (∀ e, e ∈ ls_heap s → stamp e < t ∨ (stamp e = t ∧ (e.1.2 < ls_seq s)%nat)) →
  (ls_expires s = 0 ∨ pclk < t + ls_expires s) →
  ∃ s', add s k (Some t) t pclk = Ok s' ∧ ls_contains s' k = true ∧ heap_exact s'.
Proof.
  intros Hi Hl Hx Hc Hold Hexp. rewrite add_unfold. cbv zeta. simpl default.
  pose proof (added_inv s k t Hi) as Hi'. pose proof (added_limits s k t Hl) as Hl'.
  pose proof (added_exact s k t Hx Hc) as Hx'.
  pose proof (added_newest s k t Hc Hold) as Hn'.
  destruct (added_params s k t) as (Hm & _ & He). set (e := (t, ls_seq s, k)) in *.
  assert (∀ s', ls_inv s' → heap_exact s' → newest s' e → ls_contains s' k = true) as Hfin.
  { intros s' ? ? [Hin _]. exact (heap_exact_contains s' e ltac:(done) ltac:(done) Hin). }
  destruct (negb _ && _) eqn:E; [|exists (added s k t); auto]. zbool.
  destruct (purge_spec pclk _ Hi' Hl') as (s' & Hp & Hi2 & _). exists s'.
  split; [done|]. enough (heap_exact s' ∧ newest s' e) as [] by auto.
  revert Hp. unfold purge. destruct (ls_maxlen (added s k t) =? 0) eqn:E0; zbool; [lia|].
  cbn [negb]. intros (s1 & H1 & H2)%obind_Ok.
  assert (1 <= ls_maxlen (added s k t)) as Hge by (unfold ls_limits in Hl'; lia).
  destruct (purge_maxlen_newest _ _ _ _ Hi' Hx' Hn' Hge H1) as [Hx1 Hn1].
  destruct (purge_maxlen_spec (S (length (ls_heap (added s k t)))) (added s k t))
    as (s1' & H1' & Hi1 & [(_ & _ & He1 & _) _ _] & _); [done|lia|lia|].
  rewrite H1 in H1'. simplify_eq.
  destruct (ls_expires s1' =? 0) eqn:E1; cbn [negb] in H2; [naive_solver|]. zbool.
  eapply purge_expired_newest; [..|exact H2]; [done..|]. unfold stamp; simpl. lia.
Qed.

(** Pickling round trip.  Without a TTL, the set the constructor rebuilds
    from [__reduce__] has the same items with the same insertion times, in the
    same order. *)
Theorem rebuild_as_dict s clk :
  ls_inv s → ls_limits s → ls_expires s = 0 →
  (ls_maxlen s = 0 ∨ ls_len s <= ls_maxlen s) →
  ∃ s', rebuild s clk = Ok s' ∧ as_dict s' = as_dict s ∧
        ls_maxlen s' = ls_maxlen s ∧ ls_minlen s' = ls_minlen s.
Proof.
  intros Hi [Hm He] Hexp Hlen. unfold rebuild, init. cbn [default update obind].
  set (s0 := LS _ _ _ _ _ _).
  assert (length (as_dict s) = length (ls_data s)) as Hlen'.
  { unfold as_dict, dict_values. by rewrite !length_fmap. }
  assert (dict_keys (as_dict s) = dict_keys (ls_data s)) as Hkeys.
  { unfold as_dict, dict_keys, dict_values. rewrite <-!list_fmap_compose.
    apply list_fmap_ext. intros i [k e] Hke. simpl. apply (inv_item _ Hi).
    by eapply list_elem_of_lookup_2. }
  destruct (add_stamped_append s0 (as_dict s) clk 0) as (s' & -> & Hd & Hm' & Hn' & He').
  - split; simpl; [constructor|set_solver|set_solver|constructor].
  - done.
  - unfold dict_wf. rewrite Hkeys. apply Hi.
  - simpl. set_solver.
  - unfold ls_len in *; simpl. rewrite Hlen'. lia.
  - cbn [obind]. rewrite He', Hm', Hn'. simpl.
    assert ((ls_minlen s <=? ls_maxlen s) && (0 <=? ls_minlen s) = true) as ->.
    { apply andb_true_iff; split; apply Z.leb_le; lia. }
    exists s'. auto.
Qed.

End LimitedSet.

(** ** Concrete sets (items are natural numbers) *)

#[global] Instance nat_le_total : Total Nat.le.
Proof. intros x y. destruct (Nat.le_ge_cases x y); auto. Qed.

#[global] Instance nat_le_rel_dec : RelDecision Nat.le := λ x y, decide (x ≤ y)%nat.

Definition set_of (o : outcome (@limited_set nat)) : @limited_set nat :=
  match o with Ok s => s | _ => LS 0 0 0 [] [] 0 end.

(** A set with the given limits after adding [0 .. n-1] at times [0 .. n-1]. *)
Definition filled (maxlen expires : Z) (n : nat) : outcome (@limited_set nat) :=
  foldM (λ s i, add Nat.le s i (Some (Z.of_nat i)) 0 (Z.of_nat i))
        (LS maxlen 0 expires [] [] 0) (seq 0 n).

Definition empty_set (maxlen expires : Z) : @limited_set nat := LS maxlen 0 expires [] [] 0.

Lemma empty_set_good maxlen expires :
  0 <= maxlen → 0 <= expires → ls_good Nat.le (empty_set maxlen expires).
Proof.
  intros. split_and!; unfold ls_limits, ls_len; simpl; try lia.
  split; simpl; [constructor|set_solver|set_solver|constructor].
Qed.

Lemma limited_set_bounded_witness :
  ∃ s', foldM (ls_run Nat.le) (empty_set 2 10)
    [OpAdd 1%nat (Some 5) 0 6; OpAdd 2%nat None 7 8; OpAdd 3%nat None 9 9; OpPop;
     OpUpdate (UpdIter [4%nat; 5%nat]) (λ i, (20, 21)); OpDiscard 4%nat; OpPurge 99] = Ok s' ∧
    ls_good Nat.le s'.
Proof.
  apply (limited_set_bounded Nat.le); [apply empty_set_good; lia|].
  repeat constructor.
Defined.

Lemma filled_good maxlen expires n :
  0 <= maxlen → 0 <= expires → ls_good Nat.le (set_of (filled maxlen expires n)).
Proof.
  intros. destruct (foldM_total (ls_good Nat.le)
    (λ s i, add Nat.le s i (Some (Z.of_nat i)) 0 (Z.of_nat i))
    (empty_set maxlen expires) (seq 0 n)) as (s' & Hs & Hg).
  - by apply empty_set_good.
  - intros. apply add_good; [apply _..|done].
  - unfold filled, empty_set in *. by rewrite Hs.
Qed.

Lemma purge_enforces_limits_witness :
  ∃ s', purge 12 (set_of (filled 8 6 10)) = Ok s' ∧ ls_inv Nat.le s' ∧
        ls_data s' `sublist_of` ls_data (set_of (filled 8 6 10)) ∧
        (8 ≠ 0 → ls_len s' <= 8) ∧
        (6 ≠ 0 → 0 < ls_len s' → ∀ k e, (k, e) ∈ ls_data s' → 12 < stamp e + 6).
Proof.
  apply (purge_enforces_limits Nat.le 12 (set_of (filled 8 6 10))); apply filled_good; lia.
Defined.

Lemma add_keeps_newest_witness :
  ∃ s', add Nat.le (set_of (filled 8 6 8)) 42%nat (Some 8) 8 9 = Ok s' ∧
        ls_contains s' 42%nat = true ∧ heap_exact s'.
Proof.
  apply (add_keeps_newest Nat.le (set_of (filled 8 6 8))).
  - apply filled_good; lia.
  - apply filled_good; lia.
  - unfold heap_exact. by vm_compute.
  - by vm_compute.
  - intros e He. vm_compute in He |- *. left.
    repeat (apply elem_of_cons in He as [->|He]; [reflexivity|]). by apply elem_of_nil in He.
  - right. by vm_compute.
Defined.

Lemma rebuild_as_dict_witness :
  ∃ s', rebuild Nat.le (set_of (filled 8 0 10)) (λ _, (100, 100)) = Ok s' ∧
        as_dict s' = as_dict (set_of (filled 8 0 10)) ∧ ls_maxlen s' = 8 ∧ ls_minlen s' = 0.
Proof.
  apply (rebuild_as_dict Nat.le (set_of (filled 8 0 10))).
  - apply filled_good; lia.
  - apply filled_good; lia.
  - by vm_compute.
  - right. by vm_compute.
Defined.

(** Re-adding an item does not reset its expiry.  [add] promises to
    "reset the expiry time of an existing item", but the heap keeps the old
    entry, and [pop] removes the item when it meets that entry.  A set of
    eight items [0 .. 7] added at times [0 .. 7] has item [0] added again at
    time [8]; adding a ninth item evicts [0], the second newest, and keeps
    [1], which has become the oldest. *)
Theorem refreshed_item_is_evicted :
  ∃ s1 s2 : @limited_set nat,
    filled 8 0 8 = Ok s1 ∧
    (let! s := add Nat.le s1 0%nat (Some 8) 0 8 in
     add Nat.le s 8%nat (Some 9) 0 9) = Ok s2 ∧
    as_dict s1 = (λ i, (i, Z.of_nat i)) <$> seq 0 8 ∧
    ls_contains s2 0%nat = false ∧ ls_contains s2 1%nat = true.
Proof.
  eexists _, _. split; [vm_compute; reflexivity|].
  split; [vm_compute; reflexivity|]. by vm_compute.
Qed.

(** The same happens to expiry by age: item [0], added at time 0 and again
    at time 9 to a set with a TTL of 6, is gone at time 10 although it was
    (re-)added one tick ago. *)
Theorem refreshed_item_expires_early :
  ∃ s1 s2 : @limited_set nat,
    (let! s := foldM (λ s i, add Nat.le s i (Some (Z.of_nat i)) 0 (Z.of_nat i))
                     (LS 9 0 6 [] [] 0) (seq 0 8) in
     add Nat.le s 0%nat (Some 9) 0 9) = Ok s1 ∧
    dict_get (as_dict s1) 0%nat = Some 9 ∧
    purge 10 s1 = Ok s2 ∧ ls_contains s2 0%nat = false.
Proof.
  eexists _, _. split; [vm_compute; reflexivity|].
  split; [vm_compute; reflexivity|]. split; [vm_compute; reflexivity|]. by vm_compute.
Qed.

End LimitedSet.
