(* ===== verification/Buffers.v ===== *)
(** [Evictable], [Messagebuffer] and [BufferMap] of celery/utils/collections.py:
    the buffers that hold result messages not yet consumed by a poller.

    A [BufferMap] is an [OrderedDict] from keys to buffers; its first key is
    the least recently used one.  [maxsize] may be [None] or [0], both of which
    switch eviction off. *)

From S2P Require Import Prelude PyDict.
Local Open Scope Z_scope.

(** Truth value of an optional integer *)
Definition truthy (o : option Z) : bool :=
  match o with Some n => negb (n =? 0) | None => false end.

Module Evictable.

(** [_evict(limit)]: [_evict1] is tried [n] times, the first [IndexError] ends
    the loop.  ([_evict1] raises it before it has changed anything.) *)
Fixpoint evict_n {S} (evict1 : S → outcome S) (n : nat) (s : S) : outcome S :=
  match n with
  | O => Ok s
  | Datatypes.S n =>
      match evict1 s with
      | Ok s' => evict_n evict1 n s'
      | Raise IndexError => Ok s
      | Raise e => Raise e
      | Diverge => Diverge
      end
  end.

(** [evict()]: the same loop over [itertools.count]; it only ends by
    [IndexError] (or another exception). *)
Fixpoint evict_count {S} (evict1 : S → outcome S) (fuel : nat) (s : S) : outcome S :=
  match fuel with
  | O => Diverge
  | Datatypes.S fuel =>
      match evict1 s with
      | Ok s' => evict_count evict1 fuel s'
      | Raise IndexError => Ok s
      | Raise e => Raise e
      | Diverge => Diverge
      end
  end.

(** [_evict1()] from the class's [_evictcount], [maxsize] and [_pop_to_evict] *)
Definition evict1 {S} (evictcount : S → Z) (maxsize : S → option Z)
    (pop_to_evict : S → outcome S) (s : S) : outcome S :=
  match maxsize s with
  | None => Raise TypeError
  | Some m =>
      if evictcount s <=? m then Raise IndexError
      else otry (pop_to_evict s) (λ e, if decide (e = QueueEmpty) then Raise IndexError else Raise e)
  end.

End Evictable.
Import Evictable.

Module Messagebuffer.
Section Messagebuffer.
Context {A : Type}.

Record msgbuf := MB { mb_maxsize : option Z; mb_data : list A }.
Implicit Types (b : msgbuf).

Definition mb_init (maxsize : option Z) (iterable : list A) : msgbuf := MB maxsize iterable.
Definition mb_len b : Z := Z.of_nat (length (mb_data b)).

(** [take(default)] *)
Definition mb_take b (dflt : option A) : outcome (A * msgbuf) :=
  match mb_data b with
  | x :: l => Ok (x, MB (mb_maxsize b) l)
  | [] => match dflt with Some d => Ok (d, b) | None => Raise QueueEmpty end
  end.

Definition mb_pop_to_evict b : outcome msgbuf :=
  let! p := mb_take b None in Ok p.2.

Definition mb_evict1 : msgbuf → outcome msgbuf := evict1 mb_len mb_maxsize mb_pop_to_evict.

Definition mb_maybe_evict b : outcome msgbuf :=
  if truthy (mb_maxsize b) then evict_n mb_evict1 100 b else Ok b.

Definition mb_put b (x : A) : outcome msgbuf :=
  mb_maybe_evict (MB (mb_maxsize b) (mb_data b ++ [x])).

Definition mb_extend b (l : list A) : outcome msgbuf :=
  mb_maybe_evict (MB (mb_maxsize b) (mb_data b ++ l)).

(** [list(buf)]: iteration pops everything *)
Definition mb_iter b : list A * msgbuf := (mb_data b, MB (mb_maxsize b) []).

(** The items the eviction pass of one call drops. *)
Definition overflow (m : option Z) (n : nat) : nat :=
  match m with
  | Some m => if m =? 0 then 0%nat else Nat.min 100 (Z.to_nat (Z.of_nat n - m))
  | None => 0%nat
  end.

Lemma evict_n_drop n m b :
  mb_maxsize b = Some m →
  evict_n mb_evict1 n b =
    Ok (MB (Some m) (drop (Nat.min n (Z.to_nat (mb_len b - m))) (mb_data b))).
Proof.
  revert b; induction n as [|n IH]; intros [ms l] Hm; simpl in Hm; subst ms.
  { simpl. by rewrite drop_0. }
  cbn [evict_n]. unfold mb_evict1 at 1, evict1. cbn [mb_maxsize].
  destruct (mb_len (MB (Some m) l) <=? m) eqn:E; zbool.
  { replace (Z.to_nat (mb_len (MB (Some m) l) - m)) with 0%nat by lia.
    by rewrite Nat.min_0_r, drop_0. }
  unfold mb_len in *. destruct l as [|x l]; cbn [mb_pop_to_evict mb_take mb_data obind otry].
  { case_decide; [|done]. by rewrite drop_nil. }
  cbn [mb_data length] in *. rewrite IH by done. cbn [snd mb_maxsize mb_data].
  replace (Z.to_nat (Z.of_nat (S (length l)) - m)) with (S (Z.to_nat (Z.of_nat (length l) - m))) by lia.
  done.
Qed.

Lemma mb_extend_drop b l :
  mb_extend b l =
    Ok (MB (mb_maxsize b)
           (drop (overflow (mb_maxsize b) (length (mb_data b ++ l))) (mb_data b ++ l))).
Proof.
  unfold mb_extend, mb_maybe_evict.
  destruct b as [[m|] d]; cbn [mb_maxsize mb_data truthy overflow]; [|by rewrite drop_0].
  destruct (m =? 0); cbn [negb]; [by rewrite drop_0|].
  by rewrite (evict_n_drop 100 m).
Qed.

Lemma mb_put_extend b x : mb_put b x = mb_extend b [x].
Proof. done. Qed.

End Messagebuffer.
Arguments msgbuf : clear implicits.
End Messagebuffer.
Import Messagebuffer.

Module BufferMap.
Section BufferMap.
Context {K A : Type} `{!EqDecision K}.

Record bufmap := BM {
  bm_maxsize : option Z;
  bm_bufmaxsize : option Z;
  bm_total : Z;
  bm_map : pydict K (msgbuf A);
}.
Implicit Types (s : bufmap).

Definition set_map s (t : Z) (m : pydict K (msgbuf A)) : bufmap :=
  BM (bm_maxsize s) (bm_bufmaxsize s) t m.

Definition new_buffer s : msgbuf A := mb_init (bm_bufmaxsize s) [].

Definition get_or_create_buffer s (k : K) : msgbuf A * bufmap :=
  match dict_get (bm_map s) k with
  | Some b => (b, s)
  | None => let b := new_buffer s in (b, set_map s (bm_total s) (dict_set (bm_map s) k b))
  end.

Definition LRUkey s : outcome K :=
  match bm_map s with
  | [] => Raise StopIteration
  | (k, _) :: _ => Ok k
  end.

(** The body of [_pop_to_evict]: at most [n] buffers are tried; empty ones
    are dropped from the map. *)
Fixpoint pop_to_evict_n (n : nat) s : outcome bufmap :=
  match n with
  | O => Ok s
  | S n =>
      let! k := LRUkey s in
      let! b := of_option KeyError (dict_get (bm_map s) k) in
      match mb_take b None with
      | Ok (_, b') =>
          let s := set_map s (bm_total s - 1) (dict_set (bm_map s) k b') in
          if mb_len b' =? 0 then Ok (set_map s (bm_total s) (dict_del (bm_map s) k))
          else let! m := dict_move_to_end (bm_map s) k in Ok (set_map s (bm_total s) m)
      | _ => pop_to_evict_n n (set_map s (bm_total s) (dict_del (bm_map s) k))
      end
  end.

Definition bm_pop_to_evict : bufmap → outcome bufmap := pop_to_evict_n 100.
Definition bm_evict1 : bufmap → outcome bufmap := evict1 bm_total bm_maxsize bm_pop_to_evict.

Definition bm_maybe_evict s : outcome bufmap :=
  if truthy (bm_maxsize s) then evict_n bm_evict1 100 s else Ok s.

(** [put(key, item)] *)
Definition bm_put s (k : K) (x : A) : outcome bufmap :=
  let '(b, s) := get_or_create_buffer s k in
  let before := mb_len b in
  let! b' := mb_put b x in
  let s := set_map s (bm_total s + (mb_len b' - before)) (dict_set (bm_map s) k b') in
  let! m := dict_move_to_end (bm_map s) k in
  bm_maybe_evict (set_map s (bm_total s) m).

(** [extend(key, it)] *)
Definition bm_extend s (k : K) (l : list A) : outcome bufmap :=
  let '(b, s) := get_or_create_buffer s k in
  let before := mb_len b in
  let! b' := mb_extend b l in
  bm_maybe_evict (set_map s (bm_total s + (mb_len b' - before)) (dict_set (bm_map s) k b')).

(** [take(key, default)]: the value and the new map *)
Definition bm_take s (k : K) (dflt : option A) : outcome (A * bufmap) :=
  let throw := match dflt with Some d => Ok (d, s) | None => Raise QueueEmpty end in
  match dict_get (bm_map s) k with
  | None => throw
  | Some b =>
      match mb_take b None with
      | Ok (x, b') =>
          let s := set_map s (bm_total s - 1) (dict_set (bm_map s) k b') in
          let! m := dict_move_to_end (bm_map s) k in
          Ok (x, set_map s (bm_total s) m)
      | _ => throw
      end
  end.

(** The number of rounds [evict] needs at most (see [bm_evict_total]). *)
Definition bm_size s : nat := sum_list_with (λ p, S (length (mb_data p.2))) (bm_map s).

Definition bm_evict s : outcome bufmap := evict_count bm_evict1 (S (bm_size s)) s.

(** [BufferMap(maxsize, iterable, bufmaxsize)]; [iterable] as the dictionary it
    is converted to *)
Definition bm_init (maxsize : option Z) (iterable : pydict K (list A)) (bufmaxsize : option Z)
    : outcome bufmap :=
  let! s := foldM (λ s '(k, l),
                     let '(b, s) := get_or_create_buffer s k in
                     let! b' := mb_extend b l in
                     Ok (set_map s (bm_total s) (dict_set (bm_map s) k b')))
                  (BM maxsize bufmaxsize 0 []) iterable in
  let total := foldr Z.add 0 (mb_len <$> dict_values (bm_map s)) in
  let s := set_map s total (bm_map s) in
  if truthy (bm_maxsize s) then bm_evict s else Ok s.

(** ** The counter [total] is in sync with the buffers *)

Definition msgs (m : pydict K (msgbuf A)) : Z := foldr Z.add 0 (mb_len <$> dict_values m).

Record bm_inv s : Prop := {
  bm_wf : dict_wf (bm_map s);
  bm_sync : bm_total s = msgs (bm_map s);
  bm_caps : ∀ k b, (k, b) ∈ bm_map s → mb_maxsize b = bm_bufmaxsize s;
}.

(** The configuration is never changed. *)
Definition same_params s s' : Prop :=
  bm_maxsize s' = bm_maxsize s ∧ bm_bufmaxsize s' = bm_bufmaxsize s.

Lemma msgs_cons k b m : msgs ((k, b) :: m) = mb_len b + msgs m.
Proof. done. Qed.

Lemma msgs_perm m m' : m ≡ₚ m' → msgs m = msgs m'.
Proof. induction 1 as [|[? b] ????|[? b1] [? b2] ?|]; rewrite ?msgs_cons; lia. Qed.

Lemma msgs_del m k b : dict_get m k = Some b → msgs (dict_del m k) = msgs m - mb_len b.
Proof. intros H%dict_del_perm. apply msgs_perm in H. rewrite msgs_cons in H. lia. Qed.

Lemma msgs_set m k b :
  msgs (dict_set m k b) = msgs m + mb_len b - from_option mb_len 0 (dict_get m k).
Proof.
  induction m as [|[k' b'] m IH]; simpl; [unfold msgs; simpl; lia|].
  case_decide; simpl; rewrite ?msgs_cons; [lia|]. rewrite IH. lia.
Qed.

Lemma mb_len_nonneg (b : msgbuf A) : 0 <= mb_len b.
Proof. unfold mb_len; lia. Qed.

Lemma msgs_nonneg m : 0 <= msgs m.
Proof. induction m as [|[k b] m IH]; [done|]. rewrite msgs_cons. pose proof (mb_len_nonneg b). lia. Qed.

(** Replacing the buffer of [k] by one with the same cap keeps the invariant. *)
Lemma set_buffer_inv s k b b' t :
  bm_inv s → dict_get (bm_map s) k = Some b → mb_maxsize b' = mb_maxsize b →
  t = bm_total s + mb_len b' - mb_len b →
  bm_inv (set_map s t (dict_set (bm_map s) k b')).
Proof.
  intros [Hwf Hs Hc] Hk Hm ->. split; simpl.
  - by apply dict_set_wf.
  - rewrite msgs_set, Hk, Hs. simpl. lia.
  - intros k1 b1 H1. apply dict_elem_get in H1; [|by apply dict_set_wf].
    rewrite dict_get_set in H1. case_decide; simplify_eq.
    + rewrite Hm. by eapply Hc, dict_get_Some_elem.
    + by eapply Hc, dict_get_Some_elem.
Qed.

Lemma perm_inv s m : bm_inv s → m ≡ₚ bm_map s → bm_inv (set_map s (bm_total s) m).
Proof.
  intros [Hwf Hs Hc] Hp. split; simpl.
  - unfold dict_wf, dict_keys in *. by rewrite Hp.
  - by rewrite (msgs_perm _ _ Hp).
  - intros k b Hkb. eapply Hc. by rewrite <-Hp.
Qed.

Lemma del_empty_inv s k b :
  bm_inv s → dict_get (bm_map s) k = Some b → mb_len b = 0 →
  bm_inv (set_map s (bm_total s) (dict_del (bm_map s) k)).
Proof.
  intros [Hwf Hs Hc] Hk Hb. split; simpl; [by apply dict_del_wf| |].
  - rewrite (msgs_del _ _ _ Hk). lia.
  - intros k' b' H'. eapply Hc, elem_of_sublist; [done|apply dict_del_sublist].
Qed.

Lemma get_or_create_spec s k :
  bm_inv s →
  let '(b, s1) := get_or_create_buffer s k in
  bm_inv s1 ∧ same_params s s1 ∧ bm_total s1 = bm_total s ∧
  dict_get (bm_map s1) k = Some b ∧ mb_maxsize b = bm_bufmaxsize s ∧
  mb_data b = from_option mb_data [] (dict_get (bm_map s) k) ∧
  (∀ k', k' ≠ k → dict_get (bm_map s1) k' = dict_get (bm_map s) k').
Proof.
  intros Hi. unfold get_or_create_buffer.
  destruct (dict_get (bm_map s) k) as [b|] eqn:E.
  { split_and!; try done. by eapply (bm_caps _ Hi), dict_get_Some_elem. }
  destruct Hi as [Hwf Hs Hc]. split_and!; try done; simpl.
  - split; simpl.
    + by apply dict_set_wf.
    + rewrite msgs_set, E. simpl. unfold mb_len; simpl. lia.
    + intros k' b' H'. apply dict_elem_get in H'; [|by apply dict_set_wf].
      rewrite dict_get_set in H'. case_decide; [by simplify_eq|].
      by eapply Hc, dict_get_Some_elem.
  - apply dict_get_set_eq.
  - intros. by apply dict_get_set_ne.
Qed.

(** ** Eviction *)

Lemma bm_size_perm m m' :
  m ≡ₚ m' →
  sum_list_with (λ p : K * msgbuf A, S (length (mb_data p.2))) m =
  sum_list_with (λ p : K * msgbuf A, S (length (mb_data p.2))) m'.
Proof. induction 1; simpl; lia. Qed.

(** One call of [_pop_to_evict] when some message is buffered: it removes one
    message, or drops [n] empty buffers. *)
Lemma pop_to_evict_n_spec n s :
  bm_inv s → 0 < bm_total s →
  ∃ s', pop_to_evict_n n s = Ok s' ∧ bm_inv s' ∧ same_params s s' ∧
        (bm_size s' + Nat.min 1 n <= bm_size s)%nat ∧
        (bm_total s' = bm_total s - 1 ∨
         bm_total s' = bm_total s ∧ (length (bm_map s') + n = length (bm_map s))%nat).
Proof.
  revert s; induction n as [|n IH]; intros s Hi Ht.
  { exists s. simpl. split_and!; [done|done|done|lia|right; lia]. }
  cbn [pop_to_evict_n]. unfold LRUkey.
  destruct (bm_map s) as [|[k b] m] eqn:Em.
  { exfalso. rewrite (bm_sync _ Hi), Em in Ht. unfold msgs in Ht. simpl in Ht. lia. }
  cbn [obind]. assert (dict_get ((k, b) :: m) k = Some b) as Hk by (simpl; by rewrite decide_True).
  rewrite Hk. rewrite <-Em in Hk. cbn [of_option obind].
  destruct (mb_data b) as [|x l] eqn:Eb; unfold mb_take; rewrite Eb.
  - assert (mb_len b = 0) as Hb by (unfold mb_len; by rewrite Eb).
    rewrite <-Em. pose proof (del_empty_inv s k b Hi Hk Hb) as Hi1.
    destruct (IH _ Hi1 Ht) as (s' & -> & Hi' & Hp & Hsz & Hor). exists s'.
    assert (length (bm_map s) = S (length (dict_del (bm_map s) k))) as Hlen.
    { symmetry. apply length_dict_del. rewrite <-dict_in_true. unfold dict_in. by rewrite Hk. }
    assert (bm_size s = S (bm_size (set_map s (bm_total s) (dict_del (bm_map s) k)))) as Hsz1.
    { unfold bm_size. simpl. rewrite (bm_size_perm _ _ (dict_del_perm _ _ _ Hk)). simpl. by rewrite Eb. }
    split_and!; auto; [lia|].
    simpl in Hor. destruct Hor as [|[? ?]]; [by left|right; lia].
  - cbn [set_map]. rewrite <-Em. set (b' := MB (mb_maxsize b) l).
    assert (mb_len b = mb_len b' + 1) as Hb by (unfold mb_len; rewrite Eb; simpl; lia).
    pose proof (set_buffer_inv s k b b' (bm_total s - 1) Hi Hk eq_refl ltac:(lia)) as Hi1.
    set (s1 := set_map s (bm_total s - 1) (dict_set (bm_map s) k b')) in *.
    assert (dict_get (bm_map s1) k = Some b') as Hk1 by apply dict_get_set_eq.
    assert (bm_size s = S (bm_size s1)) as Hsz.
    { unfold bm_size. rewrite (bm_size_perm _ _ (dict_del_perm _ _ _ Hk)).
      rewrite (bm_size_perm _ _ (dict_del_perm _ _ _ Hk1)). simpl.
      rewrite dict_del_set, Eb. simpl. lia. }
    destruct (mb_len b' =? 0) eqn:E0; zbool.
    + eexists. split; [done|]. split_and!; [by eapply del_empty_inv|done| |by left].
      pose proof (bm_size_perm _ _ (dict_del_perm _ _ _ Hk1)). unfold bm_size in *; simpl in *. lia.
    + unfold dict_move_to_end. rewrite Hk1. cbn [obind]. eexists. split; [done|].
      assert (dict_del (bm_map s1) k ++ [(k, b')] ≡ₚ bm_map s1) as Hp.
      { apply dict_move_to_end_perm with (k := k). unfold dict_move_to_end. by rewrite Hk1. }
      split_and!; [by apply perm_inv|done| |by left].
      pose proof (bm_size_perm _ _ Hp). unfold bm_size in *; simpl in *. lia.
Qed.

Lemma evict1_spec s m :
  bm_inv s → bm_maxsize s = Some m → 0 <= m →
  (bm_total s <= m ∧ bm_evict1 s = Raise IndexError) ∨
  (m < bm_total s ∧
   ∃ s', bm_evict1 s = Ok s' ∧ bm_inv s' ∧ same_params s s' ∧
         (bm_size s' < bm_size s)%nat ∧
         (bm_total s' = bm_total s - 1 ∨
          bm_total s' = bm_total s ∧ (length (bm_map s') + 100 = length (bm_map s))%nat)).
Proof.
  intros Hi Hm Hm0. unfold bm_evict1, evict1. rewrite Hm.
  destruct (bm_total s <=? m) eqn:E; zbool; [by left|right; split; [done|]].
  destruct (pop_to_evict_n_spec 100 s Hi) as (s' & Hp & ? & ? & ? & ?); [lia|].
  exists s'. unfold bm_pop_to_evict. rewrite Hp. cbn [otry].
  split_and!; auto. lia.
Qed.

Lemma evict_n_inv n s m :
  bm_inv s → bm_maxsize s = Some m → 0 <= m →
  ∃ s', evict_n bm_evict1 n s = Ok s' ∧ bm_inv s' ∧ same_params s s' ∧
        bm_total s' <= bm_total s ∧
        (bm_total s <= m + 1 → (length (bm_map s) < 100 * n)%nat → bm_total s' <= m).
Proof.
  revert s; induction n as [|n IH]; intros s Hi Hm Hm0; cbn [evict_n].
  { exists s. split_and!; try done. lia. }
  destruct (evict1_spec s m Hi Hm Hm0) as [[Hle ->]|(Hlt & s1 & -> & Hi1 & [Hp1 Hp2] & _ & Hor)].
  { exists s. split_and!; try done. }
  destruct (IH s1) as (s' & -> & Hi' & [Hp1' Hp2'] & Hle & Hb); [done|congruence|done|].
  exists s'. split_and!; auto; [split; congruence|lia|].
  intros Hm1 Hlen. destruct Hor as [|[? ?]]; [lia|]. apply Hb; lia.
Qed.

Lemma bm_maybe_evict_spec s :
  bm_inv s → (∀ m, bm_maxsize s = Some m → 0 <= m) →
  ∃ s', bm_maybe_evict s = Ok s' ∧ bm_inv s' ∧ same_params s s' ∧
        bm_total s' <= bm_total s ∧
        (∀ m, bm_maxsize s = Some m → m ≠ 0 → bm_total s <= m + 1 →
              (length (bm_map s) < 100 * 100)%nat → bm_total s' <= m) ∧
        (∀ m, bm_maxsize s = Some m → bm_total s <= m → s' = s).
Proof.
  intros Hi Hm. unfold bm_maybe_evict.
  destruct (bm_maxsize s) as [m|] eqn:Em; cbn [truthy]; [|exists s; by split_and!].
  destruct (m =? 0) eqn:E0; zbool; cbn [negb].
  { subst. exists s. split_and!; try done. congruence. }
  destruct (evict_n_inv 100 s m) as (s' & He & ? & ? & ? & Hb); [done|done|auto|].
  exists s'. split_and!; auto.
  - intros m' [= <-] _ Ht Hlen. apply Hb; lia.
  - intros m' [= <-] Ht. revert He. cbn [evict_n].
    destruct (evict1_spec s m Hi Em (Hm _ eq_refl)) as [[_ ->]|[? _]]; [naive_solver|lia].
Qed.

Lemma evict_count_total fuel s m :
  bm_inv s → bm_maxsize s = Some m → 0 <= m → (bm_size s < fuel)%nat →
  ∃ s', evict_count bm_evict1 fuel s = Ok s' ∧ bm_inv s' ∧ same_params s s' ∧ bm_total s' <= m.
Proof.
  revert s; induction fuel as [|fuel IH]; intros s Hi Hm Hm0 Hf; [lia|]. cbn [evict_count].
  destruct (evict1_spec s m Hi Hm Hm0) as [[Hle ->]|(Hlt & s1 & -> & Hi1 & [Hp1 Hp2] & Hsz & _)].
  { exists s. split_and!; try done. }
  destruct (IH s1) as (s' & -> & Hi' & [Hp1' Hp2'] & Hle); [done|congruence|done|lia|].
  exists s'. split_and!; auto. split; congruence.
Qed.

(** ** The operations *)

(** The messages buffered for a key, oldest first: the abstract state. *)
Definition queue_of s (k : K) : list A := from_option mb_data [] (dict_get (bm_map s) k).

Lemma mb_extend_len (b b' : msgbuf A) l :
  mb_extend b l = Ok b' → mb_maxsize b' = mb_maxsize b ∧ mb_len b' <= mb_len b + Z.of_nat (length l).
Proof.
  rewrite mb_extend_drop. intros [= <-]. split; [done|]. unfold mb_len; simpl.
  rewrite length_drop, length_app. lia.
Qed.

(** The state of [put]/[extend] before the map-wide eviction. *)
Lemma bm_store_spec s k l :
  bm_inv s →
  let '(b, s1) := get_or_create_buffer s k in
  ∃ b', mb_extend b l = Ok b' ∧
    let s2 := set_map s1 (bm_total s1 + (mb_len b' - mb_len b)) (dict_set (bm_map s1) k b') in
    bm_inv s2 ∧ same_params s s2 ∧ bm_total s2 <= bm_total s + Z.of_nat (length l) ∧
    (length (bm_map s2) <= S (length (bm_map s)))%nat ∧
    dict_get (bm_map s2) k = Some b' ∧
    queue_of s2 k = drop (overflow (bm_bufmaxsize s) (length (queue_of s k ++ l))) (queue_of s k ++ l) ∧
    (∀ k', k' ≠ k → queue_of s2 k' = queue_of s k').
Proof.
  intros Hi. pose proof (get_or_create_spec s k Hi) as Hg.
  assert (length (bm_map (get_or_create_buffer s k).2) <= S (length (bm_map s)))%nat as Hlen.
  { unfold get_or_create_buffer. destruct (dict_get (bm_map s) k) eqn:E; simpl; [lia|].
    rewrite length_dict_set. case_ifs; lia. }
  destruct (get_or_create_buffer s k) as [b s1].
  destruct Hg as (Hi1 & [Hp1 Hp2] & Ht & Hk & Hcap & Hdata & Hoth).
  pose proof (mb_extend_drop b l) as Hb. set (b' := MB _ _) in Hb.
  exists b'. split; [done|]. destruct (mb_extend_len _ _ _ Hb) as [Hc Hl]. cbv zeta.
  split_and!; simpl; auto.
  - eapply set_buffer_inv; [done|done|done|lia].
  - split; done.
  - lia.
  - rewrite length_dict_set. unfold dict_in. rewrite Hk. simpl in Hlen. lia.
  - apply dict_get_set_eq.
  - unfold queue_of at 1. simpl. rewrite dict_get_set_eq. simpl. unfold queue_of.
    by rewrite Hcap, Hdata.
  - intros k' Hne. unfold queue_of. simpl. rewrite dict_get_set_ne by done. by rewrite Hoth.
Qed.

Lemma bm_put_spec s k x :
  bm_inv s → (∀ m, bm_maxsize s = Some m → 0 <= m) →
  ∃ s', bm_put s k x = Ok s' ∧ bm_inv s' ∧ same_params s s' ∧
        bm_total s' <= bm_total s + 1 ∧
        (∀ m, bm_maxsize s = Some m → m ≠ 0 → bm_total s <= m →
              (S (length (bm_map s)) < 100 * 100)%nat → bm_total s' <= m) ∧
        (match bm_maxsize s with Some m => m = 0 ∨ bm_total s < m | None => True end →
         queue_of s' k = drop (overflow (bm_bufmaxsize s) (S (length (queue_of s k)))) (queue_of s k ++ [x]) ∧
         ∀ k', k' ≠ k → queue_of s' k' = queue_of s k').
Proof.
  intros Hi Hm. unfold bm_put. pose proof (bm_store_spec s k [x] Hi) as Hst.
  destruct (get_or_create_buffer s k) as [b s1].
  destruct Hst as (b' & Hb & Hi2 & [Hp1 Hp2] & Ht & Hlen & Hk & Hq & Hoth).
  rewrite mb_put_extend, Hb. cbn [obind]. set (s2 := set_map _ _ _) in *. clearbody s2.
  destruct (dict_move_to_end (bm_map s2) k) as [mv| |] eqn:Emv;
    [|unfold dict_move_to_end in Emv; by rewrite Hk in Emv..].
  cbn [obind]. pose proof (dict_move_to_end_perm _ _ _ Emv) as Hperm.
  pose proof (perm_inv s2 mv Hi2 Hperm) as Hi3.
  destruct (bm_maybe_evict_spec _ Hi3) as (s' & Heq & Hi' & [Hp1' Hp2'] & Hle & Hbd & Hid).
  { intros m Hmm. apply Hm. simpl in Hmm. congruence. }
  exists s'. rewrite Heq. simpl in *. split_and!; auto; [split; congruence|lia| |].
  - intros m Hmm Hm0 Htm Hl. apply Hbd; [congruence|done|lia|].
    rewrite (Permutation_length Hperm). lia.
  - intros Hno.
    assert (s' = set_map s2 (bm_total s2) mv) as ->.
    { unfold bm_maybe_evict in Heq. simpl in Heq. rewrite Hp1 in Heq.
      destruct (bm_maxsize s) as [m|] eqn:Em; cbn [truthy] in Heq; [|naive_solver].
      destruct (m =? 0) eqn:E0; cbn [negb] in Heq; [naive_solver|]. zbool.
      apply (Hid m); [congruence|]. lia. }
    assert (∀ k', queue_of (set_map s2 (bm_total s2) mv) k' = queue_of s2 k') as Hq'.
    { intros k'. unfold queue_of; simpl. rewrite (dict_get_perm mv (bm_map s2)); [done|apply Hi3|done]. }
    split; [|intros; rewrite Hq'; auto]. rewrite Hq', Hq, length_app. simpl.
    by rewrite Nat.add_1_r.
Qed.

Lemma bm_extend_spec s k l :
  bm_inv s → (∀ m, bm_maxsize s = Some m → 0 <= m) →
  ∃ s', bm_extend s k l = Ok s' ∧ bm_inv s' ∧ same_params s s'.
Proof.
  intros Hi Hm. unfold bm_extend. pose proof (bm_store_spec s k l Hi) as Hst.
  destruct (get_or_create_buffer s k) as [b s1].
  destruct Hst as (b' & -> & Hi2 & [Hp1 Hp2] & _). cbn [obind].
  destruct (bm_maybe_evict_spec _ Hi2) as (s' & -> & Hi' & [Hp1' Hp2'] & _).
  { intros m Hmm. apply Hm. simpl in *. congruence. }
  exists s'. split_and!; auto. simpl in *. split; congruence.
Qed.

Lemma bm_take_spec s k dflt :
  bm_inv s →
  match queue_of s k with
  | [] => bm_take s k dflt = match dflt with Some d => Ok (d, s) | None => Raise QueueEmpty end
  | x :: q => ∃ s', bm_take s k dflt = Ok (x, s') ∧ bm_inv s' ∧ same_params s s' ∧
                    queue_of s' k = q ∧ ∀ k', k' ≠ k → queue_of s' k' = queue_of s k'
  end.
Proof.
  intros Hi. unfold queue_of at 1, bm_take.
  destruct (dict_get (bm_map s) k) as [[cap d]|] eqn:Hk; simpl; [|done].
  destruct d as [|x q]; simpl; [done|]. cbn [mb_take mb_data mb_maxsize].
  set (s1 := set_map _ _ _).
  assert (bm_inv s1) as Hi1.
  { eapply set_buffer_inv; [done|done|done|]. unfold mb_len; simpl. lia. }
  assert (dict_get (bm_map s1) k = Some (MB cap q)) as Hk1 by apply dict_get_set_eq.
  destruct (dict_move_to_end (bm_map s1) k) as [mv| |] eqn:Emv;
    [|unfold dict_move_to_end in Emv; by rewrite Hk1 in Emv..].
  pose proof (dict_move_to_end_perm _ _ _ Emv) as Hperm.
  pose proof (perm_inv s1 mv Hi1 Hperm) as Hi2. simpl in Emv. rewrite Emv. cbn [obind].
  assert (∀ k', queue_of (set_map s1 (bm_total s1) mv) k' = queue_of s1 k') as Hq'.
  { intros k'. unfold queue_of; simpl. by rewrite (dict_get_perm mv (bm_map s1)); [|apply Hi2|]. }
  eexists. split; [done|]. split_and!; [exact Hi2|done| |].
  - rewrite Hq'. unfold queue_of. by rewrite Hk1.
  - intros k' Hne. rewrite Hq'. unfold queue_of, s1; simpl. by rewrite dict_get_set_ne.
Qed.

Inductive bm_op :=
| OpPut (k : K) (x : A)
| OpExtend (k : K) (l : list A)
| OpTake (k : K)
| OpEvict.

(** A caller that ignores the [Empty] of [take]. *)
Definition bm_run s (o : bm_op) : outcome bufmap :=
  match o with
  | OpPut k x => bm_put s k x
  | OpExtend k l => bm_extend s k l
  | OpTake k => otry (let! p := bm_take s k None in Ok p.2)
                     (λ e, if decide (e = QueueEmpty) then Ok s else Raise e)
  | OpEvict => if truthy (bm_maxsize s) then bm_evict s else Ok s
  end.

Definition maxsize_nonneg s : Prop := ∀ m, bm_maxsize s = Some m → 0 <= m.

Lemma bm_run_inv s o :
  bm_inv s → maxsize_nonneg s → ∃ s', bm_run s o = Ok s' ∧ bm_inv s' ∧ same_params s s'.
Proof.
  intros Hi Hm. destruct o as [k x|k l|k|]; simpl.
  - destruct (bm_put_spec s k x Hi Hm) as (s' & ? & ? & ? & _). eauto.
  - destruct (bm_extend_spec s k l Hi Hm) as (s' & ? & ? & ?). eauto.
  - pose proof (bm_take_spec s k None Hi) as Ht. destruct (queue_of s k) as [|x q].
    + rewrite Ht. simpl. by exists s.
    + destruct Ht as (s' & -> & ? & ? & _). simpl. eauto.
  - destruct (bm_maxsize s) as [m|] eqn:Em; cbn [truthy]; [|by exists s].
    destruct (m =? 0); cbn [negb]; [by exists s|].
    destruct (evict_count_total (S (bm_size s)) s m) as (s' & He & ? & ? & _); eauto.
Qed.

(** The counter [total] of a [BufferMap] stays in sync with its buffers.
    Under any sequence of [put], [extend], [take] and [evict], with a
    non-negative (or no) [maxsize], every call returns (no exception other than
    [Empty] of [take], no endless eviction) and afterwards [total] is the number
    of buffered messages and every buffer has the configured cap. *)
Theorem bufmap_total_in_sync s ops :
  bm_inv s → maxsize_nonneg s →
  ∃ s', foldM bm_run s ops = Ok s' ∧ bm_total s' = msgs (bm_map s') ∧
        (∀ k b, (k, b) ∈ bm_map s' → mb_maxsize b = bm_bufmaxsize s).
Proof.
  intros Hi Hm.
  destruct (foldM_total (λ s', bm_inv s' ∧ same_params s s') bm_run s ops)
    as (s' & ? & Hi' & Hp); [done| |].
  - intros s1 o _ [Hi1 [Hp1 Hp2]].
    destruct (bm_run_inv s1 o Hi1) as (s2 & ? & ? & [Hq1 Hq2]).
    + intros m ?. apply Hm. congruence.
    + exists s2. split_and!; auto. split; congruence.
  - exists s'. split_and!; [done|apply Hi'|]. destruct Hp as [_ <-]. apply Hi'.
Qed.

(** [evict()] terminates and enforces [maxsize]: although it loops over
    [itertools.count()], at most one round per buffered message and key is
    made, and [total] ends at [maxsize] or below. *)
Theorem bufmap_evict_terminates s m :
  bm_inv s → bm_maxsize s = Some m → 0 <= m →
  ∃ s', bm_evict s = Ok s' ∧ bm_inv s' ∧ bm_total s' <= m.
Proof.
  intros Hi Hm H0.
  destruct (evict_count_total (S (bm_size s)) s m) as (s' & He & ? & ? & ?); eauto.
Qed.

(** [put] keeps a map that respects [maxsize] within it, as long as fewer
    than 9,999 keys are in the map (a [put] drops at most 100 times 100 empty
    buffers while it looks for a message to evict). *)
Theorem bufmap_put_bounded s k x m :
  bm_inv s → bm_maxsize s = Some m → 0 < m → bm_total s <= m →
  (S (length (bm_map s)) < 100 * 100)%nat →
  ∃ s', bm_put s k x = Ok s' ∧ bm_inv s' ∧ bm_total s' <= m.
Proof.
  intros Hi Hm H0 Ht Hl. destruct (bm_put_spec s k x Hi) as (s' & ? & ? & _ & _ & Hb & _).
  - intros m' Hm'. simplify_eq. lia.
  - exists s'. split_and!; auto. apply Hb; auto; lia.
Qed.

(** Refinement of queues.  Seen as one queue of messages per key, [put]
    below [maxsize] appends to the queue of its key (dropping the oldest
    messages beyond the cap, at most 100) and leaves the others alone; [take]
    removes the oldest message of its key, returns it and leaves the others
    alone; it raises [Empty] (or returns the default) iff the queue is empty. *)
Theorem bufmap_refines_queues s k x dflt :
  bm_inv s →
  match bm_maxsize s with Some m => m = 0 ∨ 0 <= bm_total s < m | None => True end →
  (∃ s', bm_put s k x = Ok s' ∧
     queue_of s' k = drop (overflow (bm_bufmaxsize s) (S (length (queue_of s k)))) (queue_of s k ++ [x]) ∧
     ∀ k', k' ≠ k → queue_of s' k' = queue_of s k') ∧
  match queue_of s k with
  | [] => bm_take s k dflt = match dflt with Some d => Ok (d, s) | None => Raise QueueEmpty end
  | y :: q => ∃ s', bm_take s k dflt = Ok (y, s') ∧ queue_of s' k = q ∧
                    ∀ k', k' ≠ k → queue_of s' k' = queue_of s k'
  end.
Proof.
  intros Hi Hm. split.
  - destruct (bm_put_spec s k x Hi) as (s' & Hp & _ & _ & _ & _ & Hq).
    + intros m Em. rewrite Em in Hm. lia.
    + exists s'. split; [done|]. apply Hq. destruct (bm_maxsize s); lia || done.
  - pose proof (bm_take_spec s k dflt Hi) as Ht. destruct (queue_of s k) as [|y q]; [done|].
    destruct Ht as (s' & ? & _ & _ & ? & ?). eauto.
Qed.

End BufferMap.
Arguments bufmap : clear implicits.

(** ** Concrete maps *)

(** Two messages for key 1, one for key 2; at most three in total. *)
Definition bm_example : bufmap nat nat :=
  BM (Some 3) (Some 2) 3 [(1%nat, MB (Some 2) [10; 11]%nat); (2%nat, MB (Some 2) [20]%nat)].

Lemma bm_example_inv : bm_inv bm_example.
Proof.
  split; [|by vm_compute|].
  - unfold dict_wf. simpl. repeat (constructor; [set_solver|]). constructor.
  - intros k b Hkb. simpl in Hkb.
    repeat (apply elem_of_cons in Hkb as [[= -> ->]|Hkb]; [done|]). by apply elem_of_nil in Hkb.
Qed.

Lemma bufmap_total_in_sync_witness :
  ∃ s', foldM bm_run bm_example
          [OpPut 1 12; OpTake 2; OpExtend 3 [1; 2; 3]; OpEvict; OpTake 7]%nat = Ok s' ∧
        bm_total s' = msgs (bm_map s') ∧
        (∀ k b, (k, b) ∈ bm_map s' → mb_maxsize b = Some 2).
Proof.
  apply (bufmap_total_in_sync bm_example); [apply bm_example_inv|].
  intros m [= <-]. lia.
Defined.

Lemma bufmap_evict_terminates_witness :
  ∃ s', bm_evict bm_example = Ok s' ∧ bm_inv s' ∧ bm_total s' <= 3.
Proof. apply (bufmap_evict_terminates bm_example 3); [apply bm_example_inv|done|lia]. Defined.

Lemma bufmap_put_bounded_witness :
  ∃ s', bm_put bm_example 5%nat 50%nat = Ok s' ∧ bm_inv s' ∧ bm_total s' <= 3.
Proof.
  apply (bufmap_put_bounded bm_example 5%nat 50%nat 3);
    [apply bm_example_inv|done|lia|by vm_compute|simpl; lia].
Defined.

(** The same buffers without a limit on the total *)
Definition bm_unlimited : bufmap nat nat := BM None (Some 2) 3 (bm_map bm_example).

Lemma bufmap_refines_queues_witness :
  queue_of bm_unlimited 1%nat = [10; 11]%nat ∧
  (∃ s', bm_put bm_unlimited 1%nat 12%nat = Ok s' ∧
     queue_of s' 1%nat = drop (overflow (Some 2) 3) [10; 11; 12]%nat ∧
     ∀ k', k' ≠ 1%nat → queue_of s' k' = queue_of bm_unlimited k').
Proof.
  split; [done|].
  refine (proj1 (bufmap_refines_queues bm_unlimited 1%nat 12%nat None _ _)); [|done].
  destruct bm_example_inv as [H1 H2 H3]. by split.
Defined.

(** [put] does not always enforce [bufmaxsize].  The class promises that
    "[put] always enforces it", but a call evicts at most 100 messages: after a
    large [extend] has left a buffer above its cap, the next [put] leaves it
    above the cap too. *)
Theorem put_leaves_buffer_above_cap :
  ∃ s1 s2 : bufmap nat nat,
    bm_extend (BM None (Some 1) 0 []) 7%nat (seq 0 300) = Ok s1 ∧
    bm_put s1 7%nat 300%nat = Ok s2 ∧
    length (queue_of s1 7%nat) = 200%nat ∧ length (queue_of s2 7%nat) = 101%nat.
Proof.
  eexists _, _. split; [vm_compute; reflexivity|].
  split; [vm_compute; reflexivity|]. by vm_compute.
Qed.

End BufferMap.
