(* ===== verification/CronParser.v ===== *)
(** [crontab_parser] and [crontab._expand_cronspec] of celery/schedules.py, with
    the name tables of celery/utils/time.py they use.

    Patterns are ASCII text.  The regular expressions of the parser are tried
    in order with [re.match], which anchors them at the start of the text only:
    what follows a match is ignored, as in the code. *)

From S2P Require Import Prelude PyDict PyStr.
Local Open Scope Z_scope.

Definition DAYNAMES : list string := ["sun"; "mon"; "tue"; "wed"; "thu"; "fri"; "sat"].
Definition WEEKDAYS : pydict string Z := zip DAYNAMES (range 0 7).
Definition MONTHNAMES : list string :=
  ["jan"; "feb"; "mar"; "apr"; "may"; "jun"; "jul"; "aug"; "sep"; "oct"; "nov"; "dec"].
Definition YEARMONTHS : pydict string Z := zip MONTHNAMES (range 1 13).

(** [name[0:3].lower()] *)
Definition abbreviation (name : chars) : string := of_chars (lower_ascii <$> take 3 name).
Definition weekday (name : chars) : outcome Z := of_option KeyError (dict_get WEEKDAYS (abbreviation name)).
Definition yearmonth (name : chars) : outcome Z := of_option KeyError (dict_get YEARMONTHS (abbreviation name)).

Module CronParser.

(** ** The regular expressions *)

(** The longest run of word characters at the start, and the rest *)
Fixpoint span_word (l : chars) : chars * chars :=
  match l with
  | [] => ([], [])
  | c :: l' => if is_word c then let '(w, r) := span_word l' in (c :: w, r) else ([], l)
  end.

(** [(\w+?)-(\w+)]: the two groups and the rest of the text *)
Definition match_range (l : chars) : option (chars * chars * chars) :=
  match span_word l with
  | ((_ :: _) as w1, "-"%char :: r) =>
      match span_word r with
      | ((_ :: _) as w2, r2) => Some (w1, w2, r2)
      | _ => None
      end
  | _ => None
  end.

(** [/(\w+)?]: the group, empty when it did not take part *)
Definition match_steps (l : chars) : option chars :=
  match l with
  | "/"%char :: r => Some (span_word r).1
  | _ => None
  end.

(** [^\*$]; the dollar also matches before a final line feed *)
Definition match_star (l : chars) : bool :=
  bool_decide (l = ["*"%char]) || bool_decide (l = ["*"%char; "010"%char]).

Section Parser.
Context (max_ min_ : Z).

Definition expand_number (s : chars) : outcome Z :=
  match s with
  | [] => Raise IndexError
  | c :: _ =>
      if bool_decide (c = "-"%char) then Raise ParseException
      else
        let! i := otry (py_int s) (λ e,
                    if decide (e = ValueError) then
                      otry (yearmonth s) (λ e,
                        if decide (e = KeyError) then
                          otry (weekday s) (λ e, if decide (e = KeyError) then Raise ValueError else Raise e)
                        else Raise e)
                    else Raise e) in
        let max_val := min_ + max_ - 1 in
        if max_val <? i then Raise ValueError
        else if i <? min_ then Raise ValueError
        else Ok i
  end.

(** [_expand_range(toks)] with one or two tokens *)
Definition expand_range (t0 : chars) (t1 : option chars) : outcome (list Z) :=
  let! fr := expand_number t0 in
  match t1 with
  | Some t1 =>
      let! to := expand_number t1 in
      if to <? fr then Ok (range fr (min_ + max_) ++ range min_ (to + 1))
      else Ok (range fr (to + 1))
  | None => Ok [fr]
  end.

Definition expand_star : list Z := range min_ (max_ + min_).

Definition range_steps (t0 t1 t2 : chars) : outcome (list Z) :=
  match t2 with
  | [] => Raise ParseException
  | _ =>
      let! l := expand_range t0 (Some t1) in
      let! n := py_int t2 in
      slice_step l n
  end.

Definition star_steps (t0 : chars) : outcome (list Z) :=
  match t0 with
  | [] => Raise ParseException
  | _ => let! n := py_int t0 in slice_step expand_star n
  end.

(** [_parse_part]: the four patterns in order, then a plain number or name *)
Definition parse_part (part : chars) : outcome (list Z) :=
  match match_range part with
  | Some (t0, t1, r) =>
      match match_steps r with
      | Some t2 => range_steps t0 t1 t2
      | None => expand_range t0 (Some t1)
      end
  | None =>
      match part with
      | "*"%char :: "/"%char :: r => star_steps (span_word r).1
      | _ => if match_star part then Ok expand_star else expand_range part None
      end
  end.

Definition parse (spec : chars) : outcome (gset Z) :=
  foldM (λ acc part,
           match part with
           | [] => Raise ParseException
           | _ => let! l := parse_part part in Ok (acc ∪ list_to_set l)
           end) ∅ (split_on "," spec).
End Parser.

(** ** [_expand_cronspec] *)

Inductive cronspec :=
| CInt (n : Z)
| CStr (s : chars)
| CSet (s : gset Z)
| CIter (l : list Z)
| COther.

Definition expand_cronspec (spec : cronspec) (max_ min_ : Z) : outcome (gset Z) :=
  let! result :=
    match spec with
    | CInt n => Ok {[n]}
    | CStr s => parse max_ min_ s
    | CSet s => Ok s
    | CIter l => Ok (list_to_set l)
    | COther => Raise TypeError
    end in
  if existsb (λ number, (max_ + min_ <=? number) || (number <? min_)) (elements result)
  then Raise ValueError else Ok result.

(** The fields of a [crontab] *)
Record crontab := Crontab {
  c_orig_minute : cronspec; c_orig_hour : cronspec; c_orig_day_of_week : cronspec;
  c_orig_day_of_month : cronspec; c_orig_month_of_year : cronspec;
  c_hour : gset Z; c_minute : gset Z; c_day_of_week : gset Z;
  c_day_of_month : gset Z; c_month_of_year : gset Z;
}.

Definition crontab_init (minute hour day_of_week day_of_month month_of_year : cronspec) : outcome crontab :=
  let! h := expand_cronspec hour 24 0 in
  let! m := expand_cronspec minute 60 0 in
  let! dow := expand_cronspec day_of_week 7 0 in
  let! dom := expand_cronspec day_of_month 31 1 in
  let! moy := expand_cronspec month_of_year 12 1 in
  Ok (Crontab minute hour day_of_week day_of_month month_of_year h m dow dom moy).

(** [crontab.from_string]: exactly five fields separated by single spaces *)
Definition from_string (s : chars) : outcome crontab :=
  match split_on " " s with
  | [minute; hour; day_of_month; month_of_year; day_of_week] =>
      crontab_init (CStr minute) (CStr hour) (CStr day_of_week) (CStr day_of_month) (CStr month_of_year)
  | _ => Raise ValueError
  end.

(** ** Expansion stays in range *)

Section ParserProps.
Context (max_ min_ : Z).
Abbreviation in_bounds x := (min_ <= x < min_ + max_).

Lemma expand_number_bounds s i : expand_number max_ min_ s = Ok i → in_bounds i.
Proof.
  unfold expand_number. destruct s as [|c s]; [done|]. destruct (bool_decide _); [done|].
  intros (j & _ & H)%obind_Ok. case_ifs; zbool; simplify_eq. lia.
Qed.

Lemma expand_range_bounds t0 t1 l : expand_range max_ min_ t0 t1 = Ok l → Forall (λ x, in_bounds x) l.
Proof.
  unfold expand_range. intros (fr & H0%expand_number_bounds & H)%obind_Ok.
  destruct t1 as [t1|]; [|simplify_eq; constructor; [done|constructor]].
  apply obind_Ok in H as (to & H1%expand_number_bounds & H). apply Forall_forall.
  intros x Hx. case_ifs; simplify_eq; [apply elem_of_app in Hx as [Hx|Hx]|]; apply elem_of_range in Hx; lia.
Qed.

Lemma slice_step_Forall {A} (P : A → Prop) l n l' : Forall P l → slice_step l n = Ok l' → Forall P l'.
Proof.
  rewrite !Forall_forall. intros Hl. unfold slice_step.
  case_ifs; intros Heq x Hx; simplify_eq; apply every_from_subseteq in Hx; [by apply Hl|].
  apply Hl. by apply elem_of_reverse.
Qed.

Lemma expand_star_bounds : Forall (λ x, in_bounds x) (expand_star max_ min_).
Proof. apply Forall_forall. intros x Hx%elem_of_range. lia. Qed.

Lemma parse_part_bounds p l : parse_part max_ min_ p = Ok l → Forall (λ x, in_bounds x) l.
Proof.
  unfold parse_part. destruct (match_range p) as [[[t0 t1] r]|].
  - destruct (match_steps r) as [t2|]; [|apply expand_range_bounds].
    unfold range_steps. destruct t2; [done|].
    intros (l0 & Hl0%expand_range_bounds & (n & _ & Hs)%obind_Ok)%obind_Ok.
    by eapply slice_step_Forall.
  - assert (∀ q, star_steps max_ min_ q = Ok l → Forall (λ x, in_bounds x) l) as Hstar.
    { intros q. unfold star_steps. destruct q; [done|]. intros (n & _ & Hs)%obind_Ok.
      eapply slice_step_Forall; [apply expand_star_bounds|done]. }
    assert ((if match_star p then Ok (expand_star max_ min_) else expand_range max_ min_ p None) = Ok l →
            Forall (λ x, in_bounds x) l) as Hrest.
    { case_ifs; [intros [= <-]; apply expand_star_bounds|apply expand_range_bounds]. }
    repeat case_match; first [apply Hrest|apply Hstar].
Qed.

(** The sets [_expand_cronspec] accepts are within the bounds of the field, for
    patterns without any help from its own check. *)
Lemma parse_bounds spec st : parse max_ min_ spec = Ok st → ∀ x, x ∈ st → in_bounds x.
Proof.
  unfold parse. apply (foldM_invariant (λ st : gset Z, ∀ x, x ∈ st → in_bounds x)); [set_solver|].
  intros s1 part s2 _ Hs1. destruct part as [|c part]; [done|].
  intros (l & Hl%parse_part_bounds & [= <-])%obind_Ok x.
  rewrite elem_of_union, elem_of_list_to_set. rewrite Forall_forall in Hl. naive_solver.
Qed.

(** ** What a pattern denotes *)

Context (Hmax : 0 < max_).

(** [d a x]: how far [x] is after [a], going round *)
Definition dist (a x : Z) : Z := (x - a) mod max_.

(** The expressions of the documented grammar *)
Inductive expr :=
| ENum (a : Z)
| ERange (a b : Z)
| ERangeStep (a b n : Z)
| EStar
| EStarStep (n : Z).

Definition expr_ok (e : expr) : Prop :=
  0 <= min_ ∧
  match e with
  | ENum a => in_bounds a
  | ERange a b => in_bounds a ∧ in_bounds b
  | ERangeStep a b n => in_bounds a ∧ in_bounds b ∧ 1 <= n
  | EStar => True
  | EStarStep n => 1 <= n
  end.

Definition print_expr (e : expr) : chars :=
  match e with
  | ENum a => py_str_nat a
  | ERange a b => py_str_nat a ++ "-"%char :: py_str_nat b
  | ERangeStep a b n => py_str_nat a ++ "-"%char :: py_str_nat b ++ "/"%char :: py_str_nat n
  | EStar => ["*"%char]
  | EStarStep n => "*"%char :: "/"%char :: py_str_nat n
  end.

(** The numbers from [a] round to [b] in steps of [n] *)
Definition arc (a b n x : Z) : Prop :=
  in_bounds x ∧ dist a x <= dist a b ∧ (n | dist a x).

Definition denotes (e : expr) (x : Z) : Prop :=
  match e with
  | ENum a => arc a a 1 x
  | ERange a b => arc a b 1 x
  | ERangeStep a b n => arc a b n x
  | EStar => arc min_ (min_ + max_ - 1) 1 x
  | EStarStep n => arc min_ (min_ + max_ - 1) n x
  end.

Fixpoint print (es : list expr) : chars :=
  match es with
  | [] => []
  | [e] => print_expr e
  | e :: es => print_expr e ++ ","%char :: print es
  end.

(** *** Reading printed expressions *)

Lemma span_word_digits ds r :
  Forall (λ c, is_digit c = true) ds → match r with c :: _ => is_word c = false | [] => True end →
  span_word (ds ++ r) = (ds, r).
Proof.
  induction 1 as [|c ds Hc _ IH]; simpl; intros Hr.
  - destruct r as [|c r]; simpl; [done|]. by rewrite Hr.
  - rewrite (is_digit_word c Hc), IH; done.
Qed.

Lemma expand_number_str a : 0 <= min_ → in_bounds a → expand_number max_ min_ (py_str_nat a) = Ok a.
Proof.
  intros H0 Ha. pose proof (py_str_nat_digits a ltac:(lia)) as [Hne Hd].
  pose proof (py_int_str a ltac:(lia)) as Hi. unfold expand_number.
  destruct (py_str_nat a) as [|c s] eqn:E; [done|].
  inversion Hd as [|?? Hc _]; subst.
  rewrite bool_decide_eq_false_2 by (intros ->; by vm_compute in Hc).
  rewrite Hi. simpl. rewrite (proj2 (Z.ltb_ge _ _)) by lia. by rewrite (proj2 (Z.ltb_ge _ _)) by lia.
Qed.

Lemma match_range_str a b r :
  0 <= a → 0 <= b → match r with c :: _ => is_word c = false | [] => True end →
  match_range (py_str_nat a ++ "-"%char :: py_str_nat b ++ r) = Some (py_str_nat a, py_str_nat b, r).
Proof.
  intros Ha Hb Hr. pose proof (py_str_nat_digits a Ha) as [Hna Hda].
  pose proof (py_str_nat_digits b Hb) as [Hnb Hdb]. unfold match_range.
  rewrite span_word_digits by done. destruct (py_str_nat a); [done|].
  rewrite span_word_digits by done. by destruct (py_str_nat b).
Qed.

Lemma match_range_digits a : 0 <= a → match_range (py_str_nat a) = None.
Proof.
  intros Ha. pose proof (py_str_nat_digits a Ha) as [Hn Hd]. unfold match_range.
  rewrite <-(app_nil_r (py_str_nat a)), span_word_digits by done.
  by destruct (py_str_nat a).
Qed.

(** *** Lists as arcs *)

(** [l] runs through the arc from [a] of length [k]. *)
Definition runs (a : Z) (k : nat) (l : list Z) : Prop :=
  length l = S k ∧ ∀ j, (j <= k)%nat → l !! j = Some (min_ + (a - min_ + Z.of_nat j) mod max_).

Lemma dist_bound a x : 0 <= dist a x < max_.
Proof. apply Z.mod_pos_bound. lia. Qed.

Lemma dist_shift a j : 0 <= j < max_ → dist a (min_ + (a - min_ + j) mod max_) = j.
Proof.
  intros Hj. unfold dist.
  replace (min_ + (a - min_ + j) mod max_ - a) with ((a - min_ + j) mod max_ - (a - min_)) by lia.
  rewrite Zminus_mod_idemp_l. replace (a - min_ + j - (a - min_)) with j by lia.
  by apply Z.mod_small.
Qed.

Lemma shift_dist a x : in_bounds x → min_ + (a - min_ + dist a x) mod max_ = x.
Proof.
  intros Hx. unfold dist. rewrite Zplus_mod_idemp_r.
  replace (a - min_ + (x - a)) with (x - min_) by lia. rewrite Z.mod_small; lia.
Qed.

Lemma shift_bounds y : in_bounds (min_ + y mod max_).
Proof. pose proof (Z.mod_pos_bound y max_ Hmax). lia. Qed.

(** A slice of an arc by step [n] is the arc with that step. *)
Lemma runs_slice a b l n :
  1 <= n → runs a (Z.to_nat (dist a b)) l →
  ∃ l', slice_step l n = Ok l' ∧ ∀ x, x ∈ l' ↔ arc a b n x.
Proof.
  intros Hn [Hlen Hl]. unfold slice_step. rewrite (proj2 (Z.eqb_neq n 0)) by lia.
  rewrite (proj2 (Z.ltb_lt 0 n)) by lia. eexists. split; [done|].
  pose proof (dist_bound a b) as Hab. intros x. rewrite list_elem_of_lookup. split.
  - intros [i Hi]. rewrite every_from_lookup in Hi. simpl in Hi.
    replace (S (Z.to_nat n - 1)) with (Z.to_nat n) in Hi by lia.
    pose proof (lookup_lt_Some _ _ _ Hi) as Hlt. rewrite Hlen in Hlt.
    rewrite Hl in Hi by lia. injection Hi as <-.
    set (j := Z.of_nat (i * Z.to_nat n)) in *. assert (0 <= j <= dist a b) by lia.
    unfold arc. rewrite dist_shift by lia. split_and!; [apply shift_bounds|apply shift_bounds|lia|].
    exists (Z.of_nat i). unfold j. rewrite Nat2Z.inj_mul. lia.
  - intros (Hx & Hle & q & Hq). pose proof (dist_bound a x) as Hd.
    assert (0 <= q) by nia. exists (Z.to_nat q). rewrite every_from_lookup. simpl.
    replace (S (Z.to_nat n - 1)) with (Z.to_nat n) by lia.
    replace (Z.to_nat q * Z.to_nat n)%nat with (Z.to_nat (dist a x)) by (rewrite Hq, Z2Nat.inj_mul; lia).
    rewrite Hl by lia. rewrite Z2Nat.id by lia. f_equal. by apply shift_dist.
Qed.

Lemma runs_arc a b l : runs a (Z.to_nat (dist a b)) l → ∀ x, x ∈ l ↔ arc a b 1 x.
Proof.
  intros H x. destruct (runs_slice a b l 1 ltac:(lia) H) as (l' & Hs & Hx).
  rewrite <-Hx. unfold slice_step in Hs. simpl in Hs. injection Hs as <-.
  rewrite !list_elem_of_lookup. apply exist_proper. intros i. rewrite every_from_lookup. simpl.
  by rewrite Nat.mul_1_r.
Qed.

Lemma runs_range a k : min_ <= a → a + Z.of_nat k < min_ + max_ → runs a k (range_from a (S k)).
Proof.
  intros Ha Hk. split; [apply length_range_from|]. intros j Hj. rewrite range_from_lookup by lia.
  f_equal. rewrite Z.mod_small; lia.
Qed.

Lemma dist_le a b : in_bounds a → in_bounds b → dist a b = if b <? a then b - a + max_ else b - a.
Proof.
  intros Ha Hb. unfold dist. destruct (b <? a) eqn:E; zbool.
  - rewrite <-(Z.mod_add (b - a) 1 max_) by lia. rewrite Z.mod_small; lia.
  - rewrite Z.mod_small; lia.
Qed.

Lemma expand_range_runs a b :
  0 <= min_ → in_bounds a → in_bounds b →
  ∃ l, expand_range max_ min_ (py_str_nat a) (Some (py_str_nat b)) = Ok l ∧ runs a (Z.to_nat (dist a b)) l.
Proof.
  intros H0 Ha Hb. unfold expand_range. rewrite !expand_number_str by done. simpl.
  exists (if b <? a then range a (min_ + max_) ++ range min_ (b + 1) else range a (b + 1)).
  split; [by case_ifs|]. rewrite dist_le by done. destruct (b <? a) eqn:E; zbool.
  - unfold range. split.
    + rewrite length_app, !length_range_from. lia.
    + intros j Hj. destruct (decide (Z.of_nat j < min_ + max_ - a)).
      * rewrite lookup_app_l by (rewrite length_range_from; lia).
        rewrite range_from_lookup by lia. f_equal. rewrite Z.mod_small; lia.
      * rewrite lookup_app_r by (rewrite length_range_from; lia).
        rewrite length_range_from, range_from_lookup by lia. f_equal.
        replace (a - min_ + Z.of_nat j) with (a - min_ + Z.of_nat j - max_ + 1 * max_) by lia.
        rewrite Z.mod_add, Z.mod_small; lia.
  - unfold range. replace (Z.to_nat (b + 1 - a)) with (S (Z.to_nat (b - a))) by lia.
    apply runs_range; lia.
Qed.

Lemma expand_star_runs : runs min_ (Z.to_nat (dist min_ (min_ + max_ - 1))) (expand_star max_ min_).
Proof.
  unfold expand_star, range. rewrite dist_le by lia. rewrite (proj2 (Z.ltb_ge _ _)) by lia.
  replace (Z.to_nat (max_ + min_ - min_)) with (S (Z.to_nat (min_ + max_ - 1 - min_))) by lia.
  apply runs_range; lia.
Qed.

(** Every printed expression is parsed into the numbers it denotes. *)
Lemma parse_part_print e :
  expr_ok e → ∃ l, parse_part max_ min_ (print_expr e) = Ok l ∧ ∀ x, x ∈ l ↔ denotes e x.
Proof.
  intros [H0 He]. destruct e as [a|a b|a b n| |n]; simpl in He; unfold parse_part; cbn [print_expr].
  - rewrite match_range_digits by lia.
    pose proof (py_str_nat_digits a ltac:(lia)) as [Hne Hd].
    assert (expand_range max_ min_ (py_str_nat a) None = Ok [a]) as Hr.
    { unfold expand_range. by rewrite expand_number_str. }
    assert (match_star (py_str_nat a) = false) as Hs.
    { destruct (py_str_nat a) as [|c s]; [done|]. inversion Hd as [|?? Hc _]; subst. unfold match_star.
      rewrite !bool_decide_eq_false_2; [done|intros [= -> _]; by vm_compute in Hc..]. }
    exists [a]. split.
    + rewrite Hs, Hr. destruct (py_str_nat a) as [|c s]; [done|]. inversion Hd as [|?? Hc _]; subst.
      destruct c as [[] [] [] [] [] [] [] []]; try done; by vm_compute in Hc.
    + intros x. rewrite list_elem_of_singleton. unfold denotes, arc, dist. rewrite Z.sub_diag, Z.mod_0_l by lia.
      split; [intros ->; rewrite Z.sub_diag, Z.mod_0_l by lia; split_and!; [lia..|apply Z.divide_0_r]|].
      intros (Hx & Hle & _). pose proof (dist_bound a x) as Hb. unfold dist in Hb.
      pose proof (shift_dist a x Hx) as Hs'. unfold dist in Hs'.
      replace ((x - a) mod max_) with 0 in Hs' by lia. rewrite Z.add_0_r, Z.mod_small in Hs' by lia. lia.
  - destruct He as [Ha Hb]. destruct (expand_range_runs a b H0 Ha Hb) as (l & Hl & Hr).
    rewrite <-(app_nil_r (py_str_nat b)), match_range_str by (done || lia). simpl.
    exists l. split; [done|]. by apply runs_arc.
  - destruct He as (Ha & Hb & Hn). destruct (expand_range_runs a b H0 Ha Hb) as (l & Hl & Hr).
    rewrite match_range_str by (done || lia). cbn [match_steps].
    pose proof (py_str_nat_digits n ltac:(lia)) as [Hne Hd].
    rewrite <-(app_nil_r (py_str_nat n)), span_word_digits by done. cbn [fst]. unfold range_steps.
    destruct (py_str_nat n) as [|c s] eqn:En; [done|]. rewrite <-En, Hl, py_int_str by lia. simpl.
    by apply runs_slice.
  - exists (expand_star max_ min_). split; [done|]. apply runs_arc, expand_star_runs.
  - simpl. pose proof (py_str_nat_digits n ltac:(lia)) as [Hne Hd].
    rewrite <-(app_nil_r (py_str_nat n)), span_word_digits by done. cbn [fst]. unfold star_steps.
    destruct (py_str_nat n) as [|c s] eqn:En; [done|]. rewrite <-En, py_int_str by lia. simpl.
    apply runs_slice; [done|]. apply expand_star_runs.
Qed.

Lemma split_on_nosep sep l : sep ∉ l → split_on sep l = [l].
Proof.
  induction l as [|c l IH]; simpl; [done|]. intros Hn. rewrite bool_decide_eq_false_2 by set_solver.
  rewrite IH; [done|set_solver].
Qed.

Lemma split_on_app sep l r : sep ∉ l → split_on sep (l ++ sep :: r) = l :: split_on sep r.
Proof.
  induction l as [|c l IH]; simpl; [by rewrite bool_decide_eq_true_2|]. intros Hn.
  rewrite bool_decide_eq_false_2 by set_solver. rewrite IH; [done|set_solver].
Qed.

Lemma digits_no_comma a : 0 <= a → ","%char ∉ py_str_nat a.
Proof.
  intros Ha Hin. pose proof (py_str_nat_digits a Ha) as [_ Hd]. rewrite Forall_forall in Hd.
  apply Hd in Hin. by vm_compute in Hin.
Qed.

Lemma print_expr_no_comma e : expr_ok e → ","%char ∉ print_expr e ∧ print_expr e ≠ [].
Proof.
  intros [H0 He]. destruct e as [a|a b|a b n| |n]; simpl in *; split;
    try (intros [? ?]%app_eq_nil; done); try done;
    rewrite ?elem_of_app, ?elem_of_cons, ?elem_of_app, ?elem_of_cons;
    try (pose proof (digits_no_comma a ltac:(lia)));
    try (pose proof (digits_no_comma b ltac:(lia)));
    try (pose proof (digits_no_comma n ltac:(lia))); try naive_solver.
  - apply py_str_nat_digits. lia.
  - rewrite elem_of_nil. naive_solver.
Qed.

(** Splitting a printed pattern at its commas gives the printed expressions. *)
Lemma split_print es :
  es ≠ [] → Forall expr_ok es → split_on "," (print es) = print_expr <$> es.
Proof.
  intros Hne Hes. induction Hes as [|e es He Hes IH]; [done|]. destruct es as [|e' es].
  - simpl. apply split_on_nosep. by apply print_expr_no_comma.
  - change (print (e :: e' :: es)) with (print_expr e ++ ","%char :: print (e' :: es)).
    rewrite split_on_app by (by apply print_expr_no_comma). rewrite IH by done. done.
Qed.

(** The crontab parser implements its grammar.  A pattern made of numbers,
    ranges, steps and stars, separated by commas, is parsed into exactly the
    numbers it denotes: a range [a-b] is the arc from [a] to [b], wrapping
    around the end of the field when [b] is before [a], and a step [/n] keeps
    every n-th number of the arc, counted from its start. *)
Theorem parse_denotes es :
  es ≠ [] → Forall expr_ok es →
  ∃ st, parse max_ min_ (print es) = Ok st ∧ ∀ x, x ∈ st ↔ ∃ e, e ∈ es ∧ denotes e x.
Proof.
  intros Hne Hes. unfold parse. rewrite split_print by done. clear Hne.
  assert (∀ acc : gset Z, ∃ st,
    foldM (λ acc part, match part with
           | [] => Raise ParseException
           | _ => let! l := parse_part max_ min_ part in Ok (acc ∪ list_to_set l)
           end) acc (print_expr <$> es) = Ok st ∧
    ∀ x, x ∈ st ↔ x ∈ acc ∨ ∃ e, e ∈ es ∧ denotes e x) as H.
  { induction Hes as [|e es He Hes IH]; intros acc; simpl; [exists acc; set_solver|].
    destruct (parse_part_print e He) as (l & Hl & Hx). destruct (print_expr_no_comma e He) as [_ Hn].
    destruct (print_expr e) as [|c p]; [done|]. rewrite Hl. simpl.
    change (list_fmap expr chars print_expr es) with (print_expr <$> es).
    destruct (IH (acc ∪ list_to_set l)) as (st & -> & Hst). exists st. split; [done|].
    intros x. rewrite Hst, elem_of_union, elem_of_list_to_set, Hx. set_solver. }
  destruct (H ∅) as (st & ? & Hst). exists st. split; [done|]. set_solver.
Qed.

End ParserProps.

Lemma expand_cronspec_range spec mx mn st :
  expand_cronspec spec mx mn = Ok st → ∀ x, x ∈ st → mn <= x < mn + mx.
Proof.
  intros (r & _ & H)%obind_Ok x Hx.
  destruct (existsb _ _) eqn:E; simplify_eq. rewrite <-not_true_iff_false, existsb_exists in E.
  destruct (decide (mn <= x < mn + mx)); [done|]. exfalso. apply E. exists x.
  split; [by apply list_elem_of_In, elem_of_elements|].
  apply orb_true_iff. rewrite Z.leb_le, Z.ltb_lt. lia.
Qed.

(** What the constructor stores *)
Lemma crontab_init_fields minute hour dow dom moy c :
  crontab_init minute hour dow dom moy = Ok c →
  expand_cronspec minute 60 0 = Ok (c_minute c) ∧ expand_cronspec hour 24 0 = Ok (c_hour c) ∧
  expand_cronspec dow 7 0 = Ok (c_day_of_week c) ∧ expand_cronspec dom 31 1 = Ok (c_day_of_month c) ∧
  expand_cronspec moy 12 1 = Ok (c_month_of_year c) ∧
  c_orig_day_of_month c = dom ∧ c_orig_month_of_year c = moy.
Proof.
  unfold crontab_init.
  intros (h & Hh & (m & Hm & (w & Hw & (d & Hd & (y & Hy & [= <-])%obind_Ok)%obind_Ok)%obind_Ok)%obind_Ok)%obind_Ok.
  done.
Qed.

(** The bounds of a crontab field.  Whatever is given for a field (a number,
    a pattern, a set or an iterable), the set of a constructed [crontab] lies
    within the field, and a pattern never yields a number outside of it. *)
Theorem crontab_fields_in_range minute hour dow dom moy c :
  crontab_init minute hour dow dom moy = Ok c →
  (∀ x, x ∈ c_minute c → 0 <= x < 60) ∧ (∀ x, x ∈ c_hour c → 0 <= x < 24) ∧
  (∀ x, x ∈ c_day_of_week c → 0 <= x < 7) ∧ (∀ x, x ∈ c_day_of_month c → 1 <= x < 32) ∧
  (∀ x, x ∈ c_month_of_year c → 1 <= x < 13).
Proof.
  intros (Hm & Hh & Hw & Hd & Hy & _)%crontab_init_fields.
  split_and!; intros x Hx; eapply expand_cronspec_range in Hx; eauto; lia.
Qed.

Lemma parse_denotes_witness :
  ∃ st, parse 60 0 (print [ERange 50 10; ERangeStep 20 40 7; EStarStep 15; ENum 33]) = Ok st ∧
    ∀ x, x ∈ st ↔ ∃ e, e ∈ [ERange 50 10; ERangeStep 20 40 7; EStarStep 15; ENum 33] ∧ denotes 60 0 e x.
Proof.
  apply (parse_denotes 60 0); [lia|done|].
  repeat (constructor; [unfold expr_ok; lia|]). constructor.
Defined.

Definition default_crontab : outcome crontab :=
  crontab_init (CStr (to_chars "*/15")) (CStr (to_chars "8-17")) (CStr (to_chars "mon-fri"))
               (CInt 1) (CStr (to_chars "*")).

Lemma crontab_fields_in_range_witness :
  match default_crontab with
  | Ok c => elements (c_day_of_month c) = [1] ∧ ∀ x, x ∈ c_day_of_week c → 0 <= x < 7
  | _ => False
  end.
Proof.
  destruct default_crontab as [c| |] eqn:E; [|by vm_compute in E..].
  split; [|exact (proj1 (proj2 (proj2 (crontab_fields_in_range _ _ _ _ _ _ E))))].
  vm_compute in E. injection E as <-. by vm_compute.
Defined.

(** A range of days that wraps around the week, by name *)
Example parse_names : parse 7 0 (to_chars "fri-mon") = parse 7 0 (to_chars "5,6,0,1").
Proof. by vm_compute. Qed.

(** The patterns are matched as prefixes, so trailing text is ignored: a
    third bound of a range or a second step goes unnoticed instead of raising
    [ParseException]. *)
Theorem trailing_text_ignored :
  parse 60 0 (to_chars "1-5-9") = parse 60 0 (to_chars "1-5") ∧
  parse 60 0 (to_chars "1-9/2/3") = parse 60 0 (to_chars "1-9/2") ∧
  parse 60 0 (to_chars "*/10-20") = parse 60 0 (to_chars "*/10") ∧
  is_Ok (parse 60 0 (to_chars "1-5-9")).
Proof. split_and!; [by vm_compute..|]. eexists. by vm_compute. Qed.

End CronParser.
