(* ===== verification/Calendar.v ===== *)
(** Dates and times of Python's [datetime], as far as celery/schedules.py and
    celery/utils/time.py use them: validity, ordinals, weekdays, comparison and
    the addition of time spans.  Datetimes are wall clock times of one time
    zone without transitions. *)

From S2P Require Import Prelude.
Local Open Scope Z_scope.

Definition is_leap (y : Z) : bool :=
  (y mod 4 =? 0) && (negb (y mod 100 =? 0) || (y mod 400 =? 0)).

(** [calendar.monthrange(year, month)[1]] *)
Definition days_in_month (y m : Z) : Z :=
  if m =? 2 then (if is_leap y then 29 else 28)
  else if (m =? 4) || (m =? 6) || (m =? 9) || (m =? 11) then 30 else 31.

Record date := Date { year : Z; month : Z; day : Z }.

#[global] Instance date_eq_dec : EqDecision date.
Proof. solve_decision. Defined.

(** The dates for which [datetime(y, m, d)] does not raise *)
Definition valid_date (d : date) : bool :=
  (1 <=? year d) && (year d <=? 9999) && (1 <=? month d) && (month d <=? 12) &&
  (1 <=? day d) && (day d <=? days_in_month (year d) (month d)).

(** [toordinal] *)
Definition days_before_year (y : Z) : Z :=
  let y := y - 1 in y * 365 + y / 4 - y / 100 + y / 400.
Definition days_before_month (y m : Z) : Z :=
  (if m <=? 1 then 0 else if m =? 2 then 31 else if m =? 3 then 59 else if m =? 4 then 90
   else if m =? 5 then 120 else if m =? 6 then 151 else if m =? 7 then 181 else if m =? 8 then 212
   else if m =? 9 then 243 else if m =? 10 then 273 else if m =? 11 then 304 else 334)
  + (if (2 <? m) && is_leap y then 1 else 0).
Definition ordinal (d : date) : Z := days_before_year (year d) + days_before_month (year d) (month d) + day d.

(** [isoweekday() % 7]: Sunday is 0 *)
Definition dow (d : date) : Z := ordinal d mod 7.
(** [weekday()]: Monday is 0 *)
Definition weekday (d : date) : Z := (ordinal d + 6) mod 7.

Definition next_day (d : date) : date :=
  if day d <? days_in_month (year d) (month d) then Date (year d) (month d) (day d + 1)
  else if month d <? 12 then Date (year d) (month d + 1) 1
  else Date (year d + 1) 1 1.
Definition prev_day (d : date) : date :=
  if 1 <? day d then Date (year d) (month d) (day d - 1)
  else if 1 <? month d then Date (year d) (month d - 1) (days_in_month (year d) (month d - 1))
  else Date (year d - 1) 12 31.

(** [d + timedelta(days=k)] before the check of the year *)
Definition shift_days (d : date) (k : Z) : date :=
  if 0 <=? k then Nat.iter (Z.to_nat k) next_day d else Nat.iter (Z.to_nat (- k)) prev_day d.

(** The order of dates: lexicographic, as a number *)
Definition date_key (d : date) : Z := year d * 372 + (month d - 1) * 31 + (day d - 1).

Record datetime := DT { dt_date : date; hour : Z; minute : Z; second : Z; micro : Z }.

(** Microseconds since midnight, and since the start of the calendar *)
Definition time_of_day (t : datetime) : Z :=
  ((hour t * 60 + minute t) * 60 + second t) * 1000000 + micro t.
Definition day_micros : Z := 86400000000.

Definition valid_time (t : datetime) : bool :=
  (0 <=? hour t) && (hour t <? 24) && (0 <=? minute t) && (minute t <? 60) &&
  (0 <=? second t) && (second t <? 60) && (0 <=? micro t) && (micro t <? 1000000).
Definition valid_dt (t : datetime) : bool := valid_date (dt_date t) && valid_time t.

(** The order of datetimes *)
Definition dt_key (t : datetime) : Z := date_key (dt_date t) * day_micros + time_of_day t.
Definition dt_lt (t u : datetime) : Prop := dt_key t < dt_key u.
Definition dt_le (t u : datetime) : Prop := dt_key t <= dt_key u.

(** [t - u] in microseconds *)
Definition dt_sub (t u : datetime) : Z :=
  (ordinal (dt_date t) - ordinal (dt_date u)) * day_micros + time_of_day t - time_of_day u.

(** [t + timedelta(days=k)] *)
Definition add_days (t : datetime) (k : Z) : outcome datetime :=
  let d := shift_days (dt_date t) k in
  if valid_date d then Ok (DT d (hour t) (minute t) (second t) (micro t)) else Raise OverflowError.

(** [t + timedelta(microseconds=us)] *)
Definition add_micros (t : datetime) (us : Z) : outcome datetime :=
  let total := time_of_day t + us in
  let r := total mod day_micros in
  add_days (DT (dt_date t) (r / 3600000000) (r / 60000000 mod 60) (r / 1000000 mod 60) (r mod 1000000))
           (total / day_micros).

(** ** Facts about the calendar *)

Lemma valid_date_spec d :
  valid_date d = true ↔ 1 <= year d <= 9999 ∧ 1 <= month d <= 12 ∧ 1 <= day d <= days_in_month (year d) (month d).
Proof. unfold valid_date. rewrite !andb_true_iff, !Z.leb_le. lia. Qed.

Lemma days_in_month_bounds y m : 28 <= days_in_month y m <= 31.
Proof. unfold days_in_month. case_ifs; lia. Qed.

(** The cases of a month number *)
Lemma month_cases m : 1 <= m <= 12 →
  m = 1 ∨ m = 2 ∨ m = 3 ∨ m = 4 ∨ m = 5 ∨ m = 6 ∨ m = 7 ∨ m = 8 ∨ m = 9 ∨ m = 10 ∨ m = 11 ∨ m = 12.
Proof. lia. Qed.

Lemma days_before_year_succ y : days_before_year (y + 1) = days_before_year y + 365 + if is_leap y then 1 else 0.
Proof.
  unfold days_before_year, is_leap. replace (y + 1 - 1) with y by lia.
  pose proof (Z.div_mod y 4 ltac:(lia)). pose proof (Z.div_mod (y - 1) 4 ltac:(lia)).
  pose proof (Z.div_mod y 100 ltac:(lia)). pose proof (Z.div_mod (y - 1) 100 ltac:(lia)).
  pose proof (Z.div_mod y 400 ltac:(lia)). pose proof (Z.div_mod (y - 1) 400 ltac:(lia)).
  pose proof (Z.mod_pos_bound y 4 ltac:(lia)). pose proof (Z.mod_pos_bound (y - 1) 4 ltac:(lia)).
  pose proof (Z.mod_pos_bound y 100 ltac:(lia)). pose proof (Z.mod_pos_bound (y - 1) 100 ltac:(lia)).
  pose proof (Z.mod_pos_bound y 400 ltac:(lia)). pose proof (Z.mod_pos_bound (y - 1) 400 ltac:(lia)).
  destruct (y mod 4 =? 0) eqn:E4, (y mod 100 =? 0) eqn:E100, (y mod 400 =? 0) eqn:E400; zbool; simpl; lia.
Qed.

Lemma days_before_month_succ y m :
  1 <= m < 12 → days_before_month y (m + 1) = days_before_month y m + days_in_month y m.
Proof.
  intros Hm. destruct (month_cases m) as [?|[?|[?|[?|[?|[?|[?|[?|[?|[?|[?|?]]]]]]]]]]]; [lia|subst..];
    unfold days_before_month, days_in_month; simpl; destruct (is_leap y); lia.
Qed.

Lemma days_before_month_12 y : days_before_month y 12 + 31 = 365 + if is_leap y then 1 else 0.
Proof. unfold days_before_month. simpl. destruct (is_leap y); lia. Qed.

Definition in_calendar (d : date) : Prop := 1 <= month d <= 12 ∧ 1 <= day d <= days_in_month (year d) (month d).

Lemma ordinal_next_day d : in_calendar d → in_calendar (next_day d) ∧ ordinal (next_day d) = ordinal d + 1.
Proof.
  intros [Hm Hd]. unfold next_day, ordinal, in_calendar. pose proof (days_in_month_bounds (year d) (month d + 1)).
  pose proof (days_in_month_bounds (year d + 1) 1).
  case_ifs; zbool; simpl; (split; [lia|]).
  - lia.
  - rewrite days_before_month_succ by lia. lia.
  - replace (month d) with 12 in * by lia. rewrite days_before_year_succ.
    pose proof (days_before_month_12 (year d)). unfold days_in_month in Hd. simpl in Hd.
    unfold days_before_month at 1. simpl. unfold days_in_month in *. simpl in *. lia.
Qed.

Lemma ordinal_shift d k : in_calendar d → 0 <= k → in_calendar (shift_days d k) ∧ ordinal (shift_days d k) = ordinal d + k.
Proof.
  intros Hd Hk. unfold shift_days. rewrite (proj2 (Z.leb_le 0 k) Hk).
  rewrite <-(Z2Nat.id k Hk) at 3. generalize (Z.to_nat k) as n. clear k Hk.
  induction n as [|n [IH1 IH2]]; [simpl; split; [done|lia]|].
  rewrite Nat.iter_succ. destruct (ordinal_next_day _ IH1) as [? ->]. split; [done|]. rewrite IH2. lia.
Qed.

Lemma days_before_year_mono y y' : y < y' → days_before_year (y + 1) <= days_before_year y'.
Proof.
  intros Hlt. replace y' with (y + 1 + (y' - (y + 1))) by lia.
  assert (0 <= y' - (y + 1)) as Hn by lia. generalize dependent (y' - (y + 1)). intros n Hn.
  pattern n. apply natlike_ind; [|intros k Hk IH|done].
  - rewrite Z.add_0_r. lia.
  - replace (y + 1 + Z.succ k) with (y + 1 + k + 1) by lia. rewrite (days_before_year_succ (y + 1 + k)).
    destruct (is_leap _); lia.
Qed.

Lemma days_before_month_mono y m m' :
  1 <= m → m < m' → m' <= 12 → days_before_month y m + days_in_month y m <= days_before_month y m'.
Proof.
  intros H1 Hlt H2. replace m' with (m + 1 + (m' - (m + 1))) by lia.
  assert (0 <= m' - (m + 1)) as Hn by lia. assert (m + 1 + (m' - (m + 1)) <= 12) as Hb by lia. revert Hb.
  generalize dependent (m' - (m + 1)). intros n Hn. pattern n. apply natlike_ind; [|intros k Hk IH Hb|done].
  - intros _. rewrite Z.add_0_r, days_before_month_succ by lia. lia.
  - replace (m + 1 + Z.succ k) with (m + 1 + k + 1) in * by lia. rewrite days_before_month_succ by lia.
    pose proof (days_in_month_bounds y (m + 1 + k)). specialize (IH ltac:(lia)). lia.
Qed.

(** A date lies within its year. *)
Lemma ordinal_year d : in_calendar d → days_before_year (year d) < ordinal d <= days_before_year (year d + 1).
Proof.
  intros [Hm Hd]. unfold ordinal. rewrite days_before_year_succ.
  assert (0 <= days_before_month (year d) (month d) ∧
    days_before_month (year d) (month d) + days_in_month (year d) (month d) <= 365 + if is_leap (year d) then 1 else 0).
  { destruct (decide (month d = 12)) as [->|].
    - pose proof (days_before_month_12 (year d)). unfold days_in_month. simpl. split; [|lia].
      unfold days_before_month. simpl. destruct (is_leap _); lia.
    - pose proof (days_before_month_mono (year d) (month d) 12). pose proof (days_before_month_12 (year d)).
      split; [|lia]. unfold days_before_month. case_ifs; lia. }
  lia.
Qed.

(** Dates are ordered like their ordinals. *)
Lemma ordinal_lt d e : in_calendar d → in_calendar e → date_key d < date_key e → ordinal d < ordinal e.
Proof.
  intros Hd He Hlt. pose proof Hd as [Hdm Hdd]. pose proof He as [Hem Hed].
  pose proof (days_in_month_bounds (year d) (month d)). pose proof (days_in_month_bounds (year e) (month e)).
  unfold date_key in Hlt. destruct (decide (year d = year e)) as [Hy|Hy].
  - unfold ordinal. rewrite Hy in *. destruct (decide (month d = month e)) as [Hm|Hm].
    + rewrite Hm in *. lia.
    + pose proof (days_before_month_mono (year e) (month d) (month e)). lia.
  - pose proof (ordinal_year d Hd). pose proof (ordinal_year e He).
    pose proof (days_before_year_mono (year d) (year e)). lia.
Qed.

Lemma date_key_inj d e : in_calendar d → in_calendar e → date_key d = date_key e → d = e.
Proof.
  intros [Hdm Hdd] [Hem Hed] Hk. unfold date_key in Hk.
  pose proof (days_in_month_bounds (year d) (month d)). pose proof (days_in_month_bounds (year e) (month e)).
  destruct d as [y m d], e as [y' m' d']. simpl in *. assert (y = y') as -> by lia.
  assert (m = m') as -> by lia. f_equal. lia.
Qed.

Lemma ordinal_le_key d e : in_calendar d → in_calendar e → ordinal d <= ordinal e → date_key d <= date_key e.
Proof.
  intros Hd He Hle. destruct (Z.le_gt_cases (date_key d) (date_key e)) as [|Hgt]; [done|].
  pose proof (ordinal_lt e d He Hd Hgt). lia.
Qed.

Lemma time_of_day_bounds t : valid_time t = true → 0 <= time_of_day t < day_micros.
Proof.
  unfold valid_time, time_of_day, day_micros. rewrite !andb_true_iff, !Z.leb_le, !Z.ltb_lt. lia.
Qed.

Lemma valid_in_calendar d : valid_date d = true → in_calendar d.
Proof. rewrite valid_date_spec. unfold in_calendar. lia. Qed.

Lemma add_days_0 t : valid_date (dt_date t) = true → add_days t 0 = Ok t.
Proof. intros Hv. unfold add_days. change (shift_days (dt_date t) 0) with (dt_date t). rewrite Hv. by destruct t. Qed.

(** Datetimes compare by date first. *)
Lemma dt_lt_date t u :
  valid_time t = true → valid_time u = true → date_key (dt_date t) < date_key (dt_date u) → dt_lt t u.
Proof.
  intros Ht%time_of_day_bounds Hu%time_of_day_bounds Hlt. unfold dt_lt, dt_key. unfold day_micros in *. nia.
Qed.

Lemma dt_lt_inv t u :
  valid_time t = true → valid_time u = true → dt_lt t u →
  date_key (dt_date t) < date_key (dt_date u) ∨
  date_key (dt_date t) = date_key (dt_date u) ∧ time_of_day t < time_of_day u.
Proof.
  intros Ht%time_of_day_bounds Hu%time_of_day_bounds Hlt. unfold dt_lt, dt_key in *. unfold day_micros in *.
  destruct (Z.lt_trichotomy (date_key (dt_date t)) (date_key (dt_date u))) as [|[|]]; [by left|right; lia|nia].
Qed.

(** A day that exists in some year exists in one of any nine years in a row. *)
Lemma day_recurs y0 y m d :
  1 <= d <= days_in_month y0 m → ∃ k, 0 <= k <= 8 ∧ d <= days_in_month (y + k) m.
Proof.
  intros Hd. destruct (decide (m = 2 ∧ d = 29)) as [[-> ->]|Hn].
  - assert (∃ k, 0 <= k <= 8 ∧ is_leap (y + k) = true) as (k & Hk & Hl).
    { assert (∃ k, 0 <= k <= 8 ∧ is_leap (y mod 400 + k) = true) as (k & Hk & Hl).
      { pose proof (Z.mod_pos_bound y 400 ltac:(lia)) as Hb. generalize dependent (y mod 400). clear.
        intros r Hr.
        assert (Forall (λ r, existsb (λ k, is_leap (r + k)) (range 0 9) = true) (range 0 400)) as H
          by (apply (bool_decide_unpack _); vm_compute; exact I).
        rewrite Forall_forall in H. specialize (H r ltac:(apply elem_of_range; lia)).
        apply existsb_exists in H as (k & Hk%list_elem_of_In%elem_of_range & Hl). exists k. split; [lia|done]. }
      exists k. split; [done|]. rewrite <-Hl. unfold is_leap.
      assert (y + k = y mod 400 + k + y / 400 * 400) as -> by (pose proof (Z.div_mod y 400 ltac:(lia)); lia).
      rewrite (Z.mod_add (y mod 400 + k) (y / 400) 400) by lia.
      replace (y / 400 * 400) with (y / 400 * 100 * 4) at 1 by lia. rewrite (Z.mod_add _ (y / 400 * 100) 4) by lia.
      replace (y / 400 * 400) with (y / 400 * 4 * 100) at 1 by lia. rewrite (Z.mod_add _ (y / 400 * 4) 100) by lia.
      done. }
    exists k. split; [done|]. unfold days_in_month. simpl. rewrite Hl. lia.
  - exists 0. split; [lia|]. rewrite Z.add_0_r. unfold days_in_month in *. case_ifs; zbool; lia.
Qed.

(** The difference of two datetimes has the sign of their comparison. *)
Lemma dt_sub_sign t u :
  valid_dt t = true → valid_dt u = true → (dt_sub t u <= 0 ↔ dt_le t u) ∧ (0 < dt_sub t u ↔ dt_lt u t).
Proof.
  unfold valid_dt. rewrite !andb_true_iff. intros [Htd Htt%time_of_day_bounds] [Hud Hut%time_of_day_bounds].
  apply valid_in_calendar in Htd, Hud. unfold dt_sub, dt_le, dt_lt, dt_key.
  destruct (Z.lt_trichotomy (date_key (dt_date t)) (date_key (dt_date u))) as [Hk|[Hk|Hk]].
  - pose proof (ordinal_lt _ _ Htd Hud Hk). unfold day_micros in *. split; split; intros; nia.
  - apply date_key_inj in Hk; [|done|done]. rewrite Hk. lia.
  - pose proof (ordinal_lt _ _ Hud Htd Hk). unfold day_micros in *. split; split; intros; nia.
Qed.
