(* ===== verification/CronSchedule.v ===== *)
(** The schedules of celery/schedules.py, with [ffwd], [remaining] and
    [delta_resolution] of celery/utils/time.py: when a periodic task has to run
    next.  All datetimes are in the schedule's time zone, which has no
    transitions, so that the conversions between zones are identities.

    [crontab.remaining_delta] is shown to find the first matching minute after
    the last run. *)

From S2P Require Import Prelude PyDict PyStr CronParser Calendar.
Import CronParser.
Local Open Scope Z_scope.

Module CronSchedule.

(** ** [ffwd] and [remaining] *)

Record ffwd := Ffwd {
  f_year : option Z; f_month : option Z; f_weeks : Z; f_weekday : option Z; f_day : option Z;
  f_hour : option Z; f_minute : option Z; f_second : option Z; f_micro : option Z;
}.

(** [o or z] for an optional integer *)
Definition int_or (o : option Z) (z : Z) : Z :=
  match o with Some v => if v =? 0 then z else v | None => z end.

(** [other + ffwd] *)
Definition radd (t : datetime) (f : ffwd) : outcome datetime :=
  let y := int_or (f_year f) (year (dt_date t)) in
  let m := int_or (f_month f) (month (dt_date t)) in
  let d := Z.min (days_in_month y m) (int_or (f_day f) (day (dt_date t))) in
  let ret := DT (Date y m d) (default (hour t) (f_hour f)) (default (minute t) (f_minute f))
                (default (second t) (f_second f)) (default (micro t) (f_micro f)) in
  if valid_dt ret then
    let! ret := match f_weekday f with
                | None => Ok ret
                | Some w => add_days ret ((7 - weekday (dt_date ret) + w) mod 7)
                end in
    add_days ret (f_weeks f * 7)
  else Raise ValueError.

(** [delta_resolution]: midnight, the hour or the minute, by the size of the
    interval (in microseconds) *)
Definition delta_resolution (t : datetime) (delta : Z) : datetime :=
  let delta := Z.max delta 0 in
  if 86400000000 <=? delta then DT (dt_date t) 0 0 0 0
  else if 3600000000 <=? delta then DT (dt_date t) (hour t) 0 0 0
  else if 60000000 <=? delta then DT (dt_date t) (hour t) (minute t) 0 0
  else t.

(** [remaining(start, timedelta, now, relative)] in microseconds *)
Definition remaining_td (start : datetime) (ends_in : Z) (now : datetime) (relative : bool) : outcome Z :=
  let! end_date := add_micros start ends_in in
  let end_date :=
    if relative
    then let e := delta_resolution end_date ends_in in DT (dt_date e) (hour e) (minute e) (second e) 0
    else end_date in
  Ok (dt_sub end_date now).

(** [remaining(start, ffwd, now)] *)
Definition remaining_ffwd (start : datetime) (ends_in : ffwd) (now : datetime) : outcome Z :=
  let! end_date := radd start ends_in in Ok (dt_sub end_date now).

(** ** [schedule] *)

Record schedule := Schedule { run_every : Z; relative : bool }.

Definition seconds (s : schedule) : Z := Z.max (run_every s) 0.

(** [(is_due, next)], the latter in microseconds *)
Definition schedule_is_due (s : schedule) (last_run_at now : datetime) : outcome (bool * Z) :=
  let! rem := remaining_td last_run_at (run_every s) now (relative s) in
  let remaining_s := Z.max rem 0 in
  Ok (if remaining_s =? 0 then (true, seconds s) else (false, remaining_s)).

(** ** [crontab] *)

Definition sorted (s : gset Z) : list Z := merge_sort Z.le (elements s).
(** [min(s)] and [max(s)], which raise on an empty set *)
Definition list_min (l : list Z) : outcome Z := of_option ValueError (head (merge_sort Z.le l)).
Definition set_min (s : gset Z) : outcome Z := of_option ValueError (head (sorted s)).
Definition set_max (s : gset Z) : outcome Z := of_option ValueError (last (sorted s)).

(** [bisect] and [bisect_left] on a sorted list *)
Definition bisect (l : list Z) (x : Z) : nat := length (filter (λ y, y <= x) l).
Definition bisect_left (l : list Z) (x : Z) : nat := length (filter (λ y, y < x) l).

Record datedata := DateData { dd_year : Z; dd_moy : nat; dd_dom : nat }.

Section DeltaToNext.
Context (days_of_month months_of_year : list Z) (day_of_week : gset Z).
Context (last_run_at : datetime) (next_hour next_minute : Z).

(** The date that [datedata] stands for *)
Definition dd_date (st : datedata) : outcome date :=
  let! m := of_option IndexError (months_of_year !! dd_moy st) in
  let! d := of_option IndexError (days_of_month !! dd_dom st) in
  Ok (Date (dd_year st) m d).

Definition is_before_last_run (d : date) : bool :=
  dt_key (DT d next_hour next_minute 0 0) <? dt_key last_run_at.

(** The condition [flag] of the loop *)
Definition roll_flag (st : datedata) : outcome bool :=
  if (dd_dom st =? length days_of_month)%nat then Ok true else
  let! d := dd_date st in
  Ok (negb (valid_date d) || is_before_last_run d).

Definition next_month (st : datedata) : datedata :=
  if (dd_moy st + 1 =? length months_of_year)%nat
  then DateData (dd_year st + 1) 0 0
  else DateData (dd_year st) (dd_moy st + 1) 0.

(** [roll_over]: [for _ in range(n): ... else: raise RuntimeError] *)
Fixpoint roll_over (n : nat) (st : datedata) : outcome datedata :=
  match n with
  | O => Raise RuntimeError
  | S n =>
      let! flag := roll_flag st in
      if flag then roll_over n (next_month st) else Ok st
  end.

(** [while 1] over the days, until the weekday matches *)
Fixpoint find_day (fuel : nat) (st : datedata) : outcome date :=
  match fuel with
  | O => Diverge
  | S fuel =>
      let! th := dd_date st in
      if negb (valid_date th) then Raise ValueError
      else if bool_decide (dow th ∈ day_of_week) then Ok th
      else
        let! st := roll_over 2000 (DateData (dd_year st) (dd_moy st) (dd_dom st + 1)) in
        find_day fuel st
  end.

Definition first_datedata (month_in : bool) : datedata :=
  if month_in
  then DateData (year (dt_date last_run_at)) (bisect_left months_of_year (month (dt_date last_run_at)))
                (bisect days_of_month (day (dt_date last_run_at)))
  else
    let moy := bisect months_of_year (month (dt_date last_run_at)) in
    DateData (year (dt_date last_run_at)) (if (moy =? length months_of_year)%nat then 0%nat else moy) 0.

Definition delta_to_next (fuel : nat) (month_in : bool) : outcome ffwd :=
  let! st := roll_over 2000 (first_datedata month_in) in
  let! d := find_day fuel st in
  Ok (Ffwd (Some (year d)) (Some (month d)) 0 None (Some (day d)) (Some next_hour) (Some next_minute) (Some 0) (Some 0)).
End DeltaToNext.

Definition is_star (s : cronspec) : bool :=
  match s with CStr l => bool_decide (l = to_chars "*") | _ => false end.

(** [remaining_delta]: the delta *)
Definition remaining_delta (fuel : nat) (c : crontab) (last_run_at : datetime) : outcome ffwd :=
  let d := dt_date last_run_at in
  let dow_num := dow d in
  let execute_this_date :=
    bool_decide (month d ∈ c_month_of_year c) && bool_decide (day d ∈ c_day_of_month c) &&
    bool_decide (dow_num ∈ c_day_of_week c) in
  let! execute_this_hour :=
    (if execute_this_date && bool_decide (hour last_run_at ∈ c_hour c)
     then let! mx := set_max (c_minute c) in Ok (minute last_run_at <? mx) else Ok false) in
  if execute_this_hour then
    let! next_minute := list_min (filter (λ m, minute last_run_at < m) (elements (c_minute c))) in
    Ok (Ffwd None None 0 None None None (Some next_minute) (Some 0) (Some 0))
  else
    let! next_minute := set_min (c_minute c) in
    let! execute_today := (if execute_this_date then let! mx := set_max (c_hour c) in Ok (hour last_run_at <? mx) else Ok false) in
    if execute_today then
      let! next_hour := list_min (filter (λ h, hour last_run_at < h) (elements (c_hour c))) in
      Ok (Ffwd None None 0 None None (Some next_hour) (Some next_minute) (Some 0) (Some 0))
    else
      let! next_hour := set_min (c_hour c) in
      if is_star (c_orig_day_of_month c) && is_star (c_orig_month_of_year c) then
        let later := filter (λ day, dow_num < day) (elements (c_day_of_week c)) in
        let! next_day := list_min (match later with [] => elements (c_day_of_week c) | _ => later end) in
        Ok (Ffwd None None (if next_day =? dow_num then 1 else 0) (Some ((next_day - 1) mod 7)) None
                 (Some next_hour) (Some next_minute) (Some 0) (Some 0))
      else
        delta_to_next (sorted (c_day_of_month c)) (sorted (c_month_of_year c)) (c_day_of_week c)
                      last_run_at next_hour next_minute fuel (bool_decide (month d ∈ c_month_of_year c)).

(** [remaining_estimate] *)
Definition remaining_estimate (fuel : nat) (c : crontab) (last_run_at now : datetime) : outcome Z :=
  let! delta := remaining_delta fuel c last_run_at in remaining_ffwd last_run_at delta now.

(** [is_due]; [nows i] is the i-th reading of the clock *)
Definition crontab_is_due (fuel : nat) (c : crontab) (deadline_secs : option Z) (last_run_at : datetime)
    (nows : nat → datetime) : outcome (bool * Z) :=
  let! rem_secs := remaining_estimate fuel c last_run_at (nows 0%nat) in
  let rem := Z.max rem_secs 0 in
  let due := rem =? 0 in
  let! (due, has_passed_deadline) :=
    match deadline_secs with
    | Some deadline =>
        if rem_secs <? 0 then
          let! deadline_since := add_micros (nows 1%nat) (- (deadline * 1000000 + 1)) in
          let! r := remaining_estimate fuel c deadline_since (nows 2%nat) in
          Ok (if 0 <? r then (false, true) else (due, false))
        else Ok (due, false)
    | None => Ok (due, false)
    end in
  if due || has_passed_deadline then
    let! rem := remaining_estimate fuel c (nows 3%nat) (nows 4%nat) in
    Ok (due, Z.max rem 0)
  else Ok (due, rem).

(** ** When a datetime matches *)

Definition matches (c : crontab) (t : datetime) : Prop :=
  minute t ∈ c_minute c ∧ hour t ∈ c_hour c ∧ day (dt_date t) ∈ c_day_of_month c ∧
  month (dt_date t) ∈ c_month_of_year c ∧ dow (dt_date t) ∈ c_day_of_week c ∧ second t = 0 ∧ micro t = 0.

(** ** Sorted lists *)

Abbreviation increasing l := (StronglySorted Z.lt l).

Lemma elem_of_sorted s x : x ∈ sorted s ↔ x ∈ s.
Proof. unfold sorted. rewrite merge_sort_Permutation. apply elem_of_elements. Qed.

Lemma sorted_increasing s : increasing (sorted s).
Proof.
  assert (NoDup (sorted s)) as Hnd by (unfold sorted; rewrite merge_sort_Permutation; apply NoDup_elements).
  assert (StronglySorted Z.le (sorted s)) as Hs by (apply StronglySorted_merge_sort; apply _).
  induction Hs as [|x l _ IH Hx]; [constructor|]. apply NoDup_cons in Hnd as [Hn Hnd].
  constructor; [auto|]. rewrite Forall_forall in *. intros y Hy. specialize (Hx y Hy).
  destruct (decide (x = y)) as [->|]; [done|lia].
Qed.

Lemma increasing_lookup l i j x y :
  increasing l → l !! i = Some x → l !! j = Some y → ((i < j)%nat ↔ x < y).
Proof.
  intros Hs. revert i j. induction Hs as [|z l _ IH Hz]; intros i j Hi Hj; [done|].
  rewrite Forall_forall in Hz.
  destruct i as [|i], j as [|j]; simpl in *; simplify_eq.
  - lia.
  - apply list_elem_of_lookup_2 in Hj. split; [intros _; auto|lia].
  - apply list_elem_of_lookup_2, Hz in Hi. lia.
  - rewrite <-Nat.succ_lt_mono. auto.
Qed.

Lemma increasing_le l i j x y :
  increasing l → l !! i = Some x → l !! j = Some y → ((i ≤ j)%nat ↔ x <= y).
Proof. intros Hs Hi Hj. pose proof (increasing_lookup l j i y x Hs Hj Hi). lia. Qed.

Lemma increasing_NoDup l : increasing l → NoDup l.
Proof.
  induction 1 as [|x l _ IH Hx]; constructor; [|done]. rewrite Forall_forall in Hx. intros ?%Hx. lia.
Qed.

(** The number of elements that satisfy a property that holds of a prefix *)
Lemma prefix_count (P : Z → Prop) `{!∀ x, Decision (P x)} l i v :
  increasing l → (∀ x y, x < y → P y → P x) → l !! i = Some v → (P v ↔ (i < length (filter P l))%nat).
Proof.
  intros Hs HP. revert i. induction Hs as [|z l _ IH Hz]; intros i Hi; [done|].
  rewrite Forall_forall in Hz. rewrite filter_cons. destruct i as [|i]; simpl in *.
  - injection Hi as ->. case_decide as Hv; simpl; [split; [lia|done]|]. split; [done|]. intros Hlen.
    destruct (filter P l) as [|y f] eqn:E; simpl in *; [lia|].
    assert (y ∈ filter P l) as [Hy Hyl]%list_elem_of_filter by (rewrite E; set_solver).
    exfalso. apply Hv. eapply HP; [|done]. auto.
  - case_decide as Hv; simpl; rewrite (IH i Hi); [lia|]. split; [|lia].
    intros Hlt. exfalso. apply Hv. eapply HP; [|by apply (IH i Hi)]. apply Hz. by eapply list_elem_of_lookup_2.
Qed.

Lemma bisect_spec l i v x : increasing l → l !! i = Some v → (v <= x ↔ (i < bisect l x)%nat).
Proof. intros Hs Hi. apply (prefix_count (λ y, y <= x)); [done| |done]. intros; lia. Qed.

Lemma bisect_left_spec l i v x : increasing l → l !! i = Some v → (v < x ↔ (i < bisect_left l x)%nat).
Proof. intros Hs Hi. apply (prefix_count (λ y, y < x)); [done| |done]. intros; lia. Qed.

Lemma bisect_length l x : (bisect l x ≤ length l)%nat.
Proof. apply length_filter. Qed.

(** [bisect_left] finds an element of the list. *)
Lemma bisect_left_in l x : increasing l → x ∈ l → l !! bisect_left l x = Some x.
Proof.
  intros Hs [i Hi]%list_elem_of_lookup. destruct (lookup_lt_is_Some_2 l (bisect_left l x)) as [v Hv].
  { apply Nat.le_lt_trans with i; [|by eapply lookup_lt_Some]. destruct (Nat.le_gt_cases (bisect_left l x) i) as [|Hgt]; [done|].
    apply (bisect_left_spec l i x x) in Hgt; [lia|done|done]. }
  pose proof (bisect_left_spec l _ v x Hs Hv). pose proof (bisect_left_spec l _ x x Hs Hi).
  pose proof (increasing_le l _ _ _ _ Hs Hv Hi). rewrite Hv. f_equal. lia.
Qed.

(** Minimum and maximum *)
Lemma head_sorted l v :
  head (merge_sort Z.le l) = Some v → v ∈ l ∧ ∀ x, x ∈ l → v <= x.
Proof.
  intros Hv. assert (StronglySorted Z.le (merge_sort Z.le l)) as Hs by (apply StronglySorted_merge_sort; apply _).
  assert (∀ x, x ∈ l ↔ x ∈ merge_sort Z.le l) as Hin by (intros x; by rewrite merge_sort_Permutation).
  destruct (merge_sort Z.le l) as [|y l'] eqn:E; simplify_eq/=. rewrite Hin. split; [set_solver|].
  intros x Hx. rewrite Hin in Hx. apply elem_of_cons in Hx as [->|Hx]; [lia|].
  inversion Hs as [|?? _ Hall]; subst. rewrite Forall_forall in Hall. auto.
Qed.

Lemma list_min_ok l x : x ∈ l → ∃ v, list_min l = Ok v ∧ v ∈ l ∧ ∀ y, y ∈ l → v <= y.
Proof.
  intros Hx. unfold list_min. destruct (head (merge_sort Z.le l)) as [v|] eqn:E.
  - exists v. split; [done|]. by apply head_sorted.
  - apply head_None in E. assert (x ∈ merge_sort Z.le l) as Hin by (by rewrite merge_sort_Permutation).
    rewrite E in Hin. set_solver.
Qed.

Lemma set_min_ok (s : gset Z) x : x ∈ s → ∃ v, set_min s = Ok v ∧ v ∈ s ∧ ∀ y, y ∈ s → v <= y.
Proof.
  intros Hx. destruct (list_min_ok (elements s) x) as (v & Hv & Hin & Hmin); [by apply elem_of_elements|].
  exists v. split; [done|]. rewrite elem_of_elements in Hin. split; [done|]. intros y Hy. apply Hmin. by apply elem_of_elements.
Qed.

Lemma set_max_ok (s : gset Z) x : x ∈ s → ∃ v, set_max s = Ok v ∧ v ∈ s ∧ ∀ y, y ∈ s → y <= v.
Proof.
  intros Hx. unfold set_max. destruct (last (sorted s)) as [v|] eqn:E.
  - exists v. split; [done|]. rewrite last_lookup in E. split; [apply elem_of_sorted; by eapply list_elem_of_lookup_2|].
    intros y [j Hj]%elem_of_sorted%list_elem_of_lookup.
    apply (increasing_le (sorted s) j _ y v (sorted_increasing s) Hj E). apply lookup_lt_Some in Hj. lia.
  - apply last_None in E. apply elem_of_sorted in Hx. rewrite E in Hx. set_solver.
Qed.

(** ** The search for the next day *)

Section DeltaProps.
Context (D M : list Z) (W : gset Z) (last_ : datetime) (nh nm : Z).
Context (HD : increasing D) (HM : increasing M).
Context (HDb : ∀ d, d ∈ D → 1 <= d <= 31) (HMb : ∀ m, m ∈ M → 1 <= m <= 12).
Context (Hlast : valid_dt last_ = true) (Hnh : 0 <= nh < 24) (Hnm : 0 <= nm < 60).

Abbreviation ld := (dt_date last_).
Abbreviation L := (length M).

(** Months counted from year 0, and positions in the list of months *)
Definition mk (y m : Z) : Z := y * 12 + m.
Definition slot (y : Z) (i : nat) : Z := y * Z.of_nat L + Z.of_nat i.
Abbreviation st_slot st := (slot (dd_year st) (dd_moy st)).

(** The days on which the task could run after the last run *)
Definition target (T : date) : Prop :=
  valid_date T = true ∧ month T ∈ M ∧ day T ∈ D ∧ dow T ∈ W ∧ date_key ld < date_key T.

Lemma last_valid : valid_date ld = true ∧ valid_time last_ = true.
Proof. by apply andb_true_iff. Qed.

Lemma key_mk d e : in_calendar d → in_calendar e → date_key d < date_key e →
  mk (year d) (month d) < mk (year e) (month e) ∨
  mk (year d) (month d) = mk (year e) (month e) ∧ day d < day e.
Proof.
  intros [Hm Hd] [Hm' Hd'] Hlt. unfold date_key, mk in *.
  pose proof (days_in_month_bounds (year d) (month d)). pose proof (days_in_month_bounds (year e) (month e)). lia.
Qed.

Lemma mk_inj y m y' m' : 1 <= m <= 12 → 1 <= m' <= 12 → mk y m = mk y' m' → y = y' ∧ m = m'.
Proof. unfold mk. lia. Qed.

(** Later in the list of months is later in time. *)
Lemma slot_mk y i m y' i' m' :
  M !! i = Some m → M !! i' = Some m' → (slot y i < slot y' i' ↔ mk y m < mk y' m').
Proof.
  intros Hi Hi'. pose proof (increasing_lookup M i i' m m' HM Hi Hi') as Hlt.
  pose proof (increasing_lookup M i' i m' m HM Hi' Hi) as Hgt.
  pose proof (HMb m (list_elem_of_lookup_2 _ _ _ Hi)). pose proof (HMb m' (list_elem_of_lookup_2 _ _ _ Hi')).
  apply lookup_lt_Some in Hi, Hi'. unfold slot, mk.
  destruct (Z.lt_trichotomy y y') as [Hy|[->|Hy]].
  - split; [lia|nia].
  - split; intros; lia.
  - split; [nia|lia].
Qed.

Lemma L_bound : (L ≤ 12)%nat.
Proof.
  transitivity (length (range 1 13)); [|by rewrite length_range].
  apply submseteq_length, NoDup_submseteq; [by apply increasing_NoDup|].
  intros m Hm%HMb. apply elem_of_range. lia.
Qed.

(** No target lies before the current position, and in the month of the last
    run the position is after the day of the last run. *)
Record dinv (st : datedata) (m : Z) : Prop := {
  di_month : M !! dd_moy st = Some m;
  di_dom : (dd_dom st ≤ length D)%nat;
  di_year : year ld <= dd_year st;
  di_bound : ∀ T, target T → mk (dd_year st) m <= mk (year T) (month T) ∧
    (mk (dd_year st) m = mk (year T) (month T) → ∃ j, (dd_dom st ≤ j)%nat ∧ D !! j = Some (day T));
  di_same : mk (dd_year st) m = mk (year ld) (month ld) → ∀ d, D !! dd_dom st = Some d → day ld < d;
  di_after : month ld ∈ M → mk (year ld) (month ld) <= mk (dd_year st) m;
}.

Lemma target_cal T : target T → in_calendar T.
Proof. intros (HT & _). by apply valid_in_calendar. Qed.

Lemma last_cal : in_calendar ld.
Proof. apply valid_in_calendar, last_valid. Qed.

Lemma target_after T : target T → mk (year ld) (month ld) <= mk (year T) (month T).
Proof.
  intros HT. destruct (key_mk ld T last_cal (target_cal T HT)) as [?|[??]]; [apply HT|lia|lia].
Qed.

Lemma first_dinv T0 :
  target T0 → ∃ m, dinv (first_datedata D M last_ (bool_decide (month ld ∈ M))) m.
Proof.
  intros HT0. unfold first_datedata. case_bool_decide as Hin.
  - exists (month ld). split; simpl; [by apply bisect_left_in|apply bisect_length|lia| |intros _ d Hd|lia].
    + intros T HT. split; [by apply target_after|]. intros Heq.
      destruct (key_mk ld T last_cal (target_cal T HT)) as [?|[_ Hday]]; [apply HT|lia|].
      destruct HT as (_ & _ & HdT & _). apply list_elem_of_lookup in HdT as [j Hj]. exists j. split; [|done].
      pose proof (bisect_spec D j _ (day ld) HD Hj). lia.
    + pose proof (bisect_spec D _ d (day ld) HD Hd). lia.
  - assert (M ≠ []) as HMne by (destruct HT0 as (_ & HmT & _); intros ->; set_solver).
    match goal with |- context [DateData _ ?i 0] => set (moy := i) end.
    assert (∃ m, M !! moy = Some m) as [m Hm].
    { apply lookup_lt_is_Some. unfold moy. pose proof (bisect_length M (month ld)).
      destruct (Nat.eqb_spec (bisect M (month ld)) L); destruct M; simpl in *; [done|lia|done|lia]. }
    exists m. pose proof (HMb m (list_elem_of_lookup_2 _ _ _ Hm)) as Hmb. split; simpl; [done|lia|lia| | |done].
    + intros T HT. split.
      2:{ intros _. destruct HT as (_ & _ & HdT & _). apply list_elem_of_lookup in HdT as [j Hj]. exists j. split; [lia|done]. }
      pose proof (target_after T HT) as Hafter. destruct (target_cal T HT) as [HmT _]. destruct last_cal as [Hml _].
      unfold moy in Hm. destruct (Nat.eqb_spec (bisect M (month ld)) L) as [E|E].
      * destruct HT as (_ & HmM & _). apply list_elem_of_lookup in HmM as [i Hi].
        destruct (decide (year T = year ld)) as [Hy|Hy]; unfold mk in *; [|lia].
        pose proof (bisect_spec M 0 m (month ld) HM Hm). apply lookup_lt_Some in Hm. lia.
      * destruct HT as (_ & HmM & _). destruct (decide (year T = year ld)) as [Hy|Hy]; unfold mk in *; [|lia].
        assert (month T ≠ month ld) as Hne by (intros E'; apply Hin; by rewrite <-E').
        apply list_elem_of_lookup in HmM as [i Hi]. pose proof (bisect_spec M i _ (month ld) HM Hi).
        pose proof (increasing_le M _ _ _ _ HM Hm Hi). lia.
    + intros Heq. apply mk_inj in Heq as [_ ->]; [|done|apply last_cal]. destruct Hin. by eapply list_elem_of_lookup_2.
Qed.

Lemma dd_date_ok st m d :
  M !! dd_moy st = Some m → D !! dd_dom st = Some d → dd_date D M st = Ok (Date (dd_year st) m d).
Proof. intros Hm Hd. unfold dd_date. rewrite Hm, Hd. done. Qed.

Lemma time_valid d : valid_time (DT d nh nm 0 0) = true.
Proof. unfold valid_time. simpl. rewrite !andb_true_iff, !Z.leb_le, !Z.ltb_lt. lia. Qed.

(** A day after the day of the last run is not before the last run. *)
Lemma not_before d : date_key ld < date_key d → is_before_last_run last_ nh nm d = false.
Proof.
  intros Hlt. apply Z.ltb_ge. apply Z.lt_le_incl. apply dt_lt_date; [apply last_valid|apply time_valid|done].
Qed.

Lemma flag_cases st m :
  dinv st m →
  (roll_flag D M last_ nh nm st = Ok true ∧ dd_dom st = length D) ∨
  ∃ d, D !! dd_dom st = Some d ∧
    roll_flag D M last_ nh nm st = Ok (negb (valid_date (Date (dd_year st) m d)) || is_before_last_run last_ nh nm (Date (dd_year st) m d)).
Proof.
  intros [Hm Hdom _ _ _ _]. unfold roll_flag. destruct (Nat.eqb_spec (dd_dom st) (length D)) as [|Hne]; [by left|].
  right. destruct (lookup_lt_is_Some_2 D (dd_dom st)) as [d Hd]; [lia|]. exists d. split; [done|].
  by rewrite (dd_date_ok st m d).
Qed.

(** A position in a month with a target is not skipped. *)
Lemma flag_target st m T d j :
  dinv st m → target T → mk (dd_year st) m = mk (year T) (month T) →
  D !! dd_dom st = Some d → D !! j = Some (day T) → (dd_dom st ≤ j)%nat →
  roll_flag D M last_ nh nm st = Ok false.
Proof.
  intros Hinv HT Hmk Hd Hj Hle. destruct (flag_cases st m Hinv) as [[_ Hlen]|(d' & Hd' & ->)].
  { apply lookup_lt_Some in Hd. lia. }
  simplify_eq. f_equal. pose proof (increasing_le D _ _ _ _ HD Hd Hj) as Hdle.
  destruct HT as (Hv & HmM & HdD & _ & Hkey). pose proof Hv as Hcal%valid_in_calendar. rewrite valid_date_spec in Hv.
  pose proof (HMb m (list_elem_of_lookup_2 _ _ _ (di_month _ _ Hinv))) as Hmb.
  apply mk_inj in Hmk as [Hy Hm]; [|done|lia]. pose proof (HDb d (list_elem_of_lookup_2 _ _ _ Hd)) as Hdb.
  assert (valid_date (Date (dd_year st) m d) = true) as Hvd.
  { apply valid_date_spec. simpl. rewrite Hy, Hm. lia. }
  rewrite Hvd. simpl. apply not_before.
  destruct (key_mk ld T last_cal Hcal Hkey) as [Hlt|[Heq _]].
  - unfold date_key, mk in *. simpl. pose proof last_cal as [? ?].
    pose proof (days_in_month_bounds (year ld) (month ld)). lia.
  - assert (day ld < d) as Hday by (eapply (di_same _ _ Hinv); [unfold mk in *; lia|done]).
    unfold date_key, mk in *. simpl. pose proof last_cal as [? ?].
    pose proof (days_in_month_bounds (year ld) (month ld)). lia.
Qed.

(** Skipping a month keeps the invariant: it had no target. *)
Lemma next_month_dinv st m :
  dinv st m → roll_flag D M last_ nh nm st = Ok true →
  st_slot (next_month M st) = st_slot st + 1 ∧ dd_dom (next_month M st) = 0%nat ∧ ∃ m', dinv (next_month M st) m'.
Proof.
  intros Hinv Hflag. pose proof Hinv as [Hm Hdom Hy Hb Hs Ha].
  assert (∀ T, target T → mk (dd_year st) m < mk (year T) (month T)) as Hlt.
  { intros T HT. destruct (Hb T HT) as [Hle Hin]. destruct (decide (mk (dd_year st) m = mk (year T) (month T))) as [Heq|]; [|lia].
    destruct (Hin Heq) as (j & Hj & HjT). destruct (lookup_lt_is_Some_2 D (dd_dom st)) as [d Hd].
    { apply lookup_lt_Some in HjT. lia. }
    rewrite (flag_target st m T d j) in Hflag by done. done. }
  pose proof (HMb m (list_elem_of_lookup_2 _ _ _ Hm)) as Hmb. pose proof (lookup_lt_Some _ _ _ Hm) as HL.
  unfold next_month. destruct (Nat.eqb_spec (dd_moy st + 1) L) as [E|E].
  - split; [unfold slot; simpl; nia|]. split; [done|].
    destruct (lookup_lt_is_Some_2 M 0) as [m0 Hm0]; [lia|]. exists m0.
    pose proof (HMb m0 (list_elem_of_lookup_2 _ _ _ Hm0)) as Hm0b.
    split; simpl; [done|lia|lia| | |intros HldM; specialize (Ha HldM); unfold mk in *; lia].
    + intros T HT. specialize (Hlt T HT). destruct HT as (_ & HmT & HdT & _).
      apply list_elem_of_lookup in HmT as [i Hi]. apply list_elem_of_lookup in HdT as [j Hj].
      split; [|intros _; exists j; split; [lia|done]].
      pose proof (increasing_le M 0 i _ _ HM Hm0 Hi). pose proof (increasing_le M i (dd_moy st) _ _ HM Hi Hm).
      apply lookup_lt_Some in Hi. unfold mk in *. lia.
    + intros Heq. apply mk_inj in Heq as [Hy0 Hm0']; [|done|apply last_cal]. exfalso.
      assert (month ld ∈ M) as HldM by (rewrite <-Hm0'; by eapply list_elem_of_lookup_2).
      specialize (Ha HldM). destruct last_cal as [? _]. unfold mk in *. lia.
  - destruct (lookup_lt_is_Some_2 M (dd_moy st + 1)) as [m1 Hm1]; [lia|].
    split; [unfold slot; simpl; lia|]. split; [done|]. exists m1.
    pose proof (HMb m1 (list_elem_of_lookup_2 _ _ _ Hm1)) as Hm1b.
    assert (m < m1) as Hmm1 by (apply (increasing_lookup M (dd_moy st) (dd_moy st + 1) m m1 HM Hm Hm1); lia).
    split; simpl; [done|lia|lia| | |intros HldM; specialize (Ha HldM); unfold mk in *; lia].
    + intros T HT. specialize (Hlt T HT). destruct HT as (_ & HmT & HdT & _).
      apply list_elem_of_lookup in HmT as [i Hi]. apply list_elem_of_lookup in HdT as [j Hj].
      split; [|intros _; exists j; split; [lia|done]].
      pose proof (increasing_le M (dd_moy st + 1) i _ _ HM Hm1 Hi). pose proof (increasing_le M i (dd_moy st) _ _ HM Hi Hm).
      pose proof (HMb _ (list_elem_of_lookup_2 _ _ _ Hi)). unfold mk in *. lia.
    + intros Heq. apply mk_inj in Heq as [Hy0 Hm0']; [|done|apply last_cal]. exfalso.
      assert (month ld ∈ M) as HldM by (rewrite <-Hm0'; by eapply list_elem_of_lookup_2).
      specialize (Ha HldM). unfold mk in *. lia.
Qed.

(** *** [roll_over] succeeds *)

Definition unflagged (st : datedata) : Prop := roll_flag D M last_ nh nm st = Ok false.

(** At the start of a month after the last run that has one of the days, the
    position is not skipped. *)
Lemma unflagged_good st m dG :
  dinv st m → dd_dom st = 0%nat → dG ∈ D → 1 <= dd_year st <= 9999 → dG <= days_in_month (dd_year st) m →
  mk (year ld) (month ld) < mk (dd_year st) m → unflagged st.
Proof.
  intros Hinv Hdom [j Hj]%list_elem_of_lookup Hy HdG HG. unfold unflagged.
  destruct (flag_cases st m Hinv) as [[_ Hlen]|(d & Hd & ->)]; [apply lookup_lt_Some in Hj; lia|].
  pose proof (HMb _ (list_elem_of_lookup_2 _ _ _ (di_month _ _ Hinv))). rewrite Hdom in Hd.
  pose proof (increasing_le D 0 j _ _ HD Hd Hj). pose proof (HDb _ (list_elem_of_lookup_2 _ _ _ Hd)).
  assert (valid_date (Date (dd_year st) m d) = true) as -> by (apply valid_date_spec; simpl; lia).
  rewrite not_before; [done|]. destruct last_cal as [? ?]. pose proof (days_in_month_bounds (year ld) (month ld)).
  unfold date_key, mk in *. simpl. lia.
Qed.

(** Rolling over reaches the first month where the position is not skipped. *)
Lemma roll_until n st m yG iG mG dG :
  dinv st m → M !! iG = Some mG → dG ∈ D → 1 <= yG <= 9999 → dG <= days_in_month yG mG →
  mk (year ld) (month ld) < mk yG mG →
  st_slot st <= slot yG iG → slot yG iG - st_slot st < Z.of_nat n →
  (st_slot st = slot yG iG → dd_dom st = 0%nat) →
  ∃ st' m', roll_over D M last_ nh nm n st = Ok st' ∧ dinv st' m' ∧ unflagged st' ∧
    (st' = st ∨ st_slot st < st_slot st').
Proof.
  intros Hinv HiG HdG HyG HdimG HG. revert st m Hinv. induction n as [|n IH]; intros st m Hinv Hle Hn Hdom; [lia|].
  assert (∃ b, roll_flag D M last_ nh nm st = Ok b) as [b Hf] by (destruct (flag_cases st m Hinv) as [[? _]|(? & _ & ?)]; eauto).
  simpl. rewrite Hf. simpl. destruct b; [|exists st, m; by split_and!; [| | |left]].
  destruct (next_month_dinv st m Hinv Hf) as (Hslot & Hdom' & m' & Hinv').
  destruct (decide (st_slot st = slot yG iG)) as [Heq|Hne].
  - exfalso. pose proof (di_month _ _ Hinv) as Hm.
    assert (mk (dd_year st) m = mk yG mG) as Hmk.
    { pose proof (slot_mk (dd_year st) (dd_moy st) m yG iG mG Hm HiG).
      pose proof (slot_mk yG iG mG (dd_year st) (dd_moy st) m HiG Hm). lia. }
    apply mk_inj in Hmk as [Hy Hmm]; [|by eapply HMb, list_elem_of_lookup_2..].
    assert (unflagged st) as Hu by (apply (unflagged_good st m dG); [done|auto|done|lia|by rewrite Hy, Hmm|by rewrite Hy, Hmm]).
    unfold unflagged in Hu. congruence.
  - destruct (IH _ m' Hinv') as (st' & m'' & -> & ? & ? & Hst'); [lia|lia|done|].
    exists st', m''. split_and!; [done|done|done|]. right. destruct Hst' as [->|]; lia.
Qed.

Lemma roll_over_stop n st : unflagged st → roll_over D M last_ nh nm (S n) st = Ok st.
Proof. intros Hu. simpl. by rewrite Hu. Qed.

#[local] Opaque roll_over.

(** While there is a target ahead, 2000 months are enough. *)
Lemma roll_over_ok st m T :
  dinv st m → target T →
  ∃ st' m', roll_over D M last_ nh nm 2000 st = Ok st' ∧ dinv st' m' ∧ unflagged st' ∧
    (st' = st ∨ st_slot st < st_slot st').
Proof.
  intros Hinv HT. pose proof (di_month _ _ Hinv) as Hm. destruct (di_bound _ _ Hinv T HT) as [Hle Hin].
  pose proof HT as (Hv & HmT & HdT & _ & Hkey). pose proof (target_after T HT) as Hafter.
  rewrite valid_date_spec in Hv. apply list_elem_of_lookup in HmT as [iT HiT].
  pose proof (HMb _ (list_elem_of_lookup_2 _ _ _ Hm)) as Hmb. pose proof last_cal as [Hlm _].
  pose proof (lookup_lt_Some _ _ _ Hm) as HmL. pose proof (lookup_lt_Some _ _ _ HiT) as HiL. pose proof L_bound as HL.
  pose proof (slot_mk (dd_year st) (dd_moy st) m (year T) iT (month T) Hm HiT) as Hsm.
  destruct (decide (mk (dd_year st) m = mk (year T) (month T))) as [Heq|Hne].
  { destruct (Hin Heq) as (j & Hj & HjT). destruct (lookup_lt_is_Some_2 D (dd_dom st)) as [d Hd].
    { apply lookup_lt_Some in HjT. lia. }
    exists st, m. assert (unflagged st) as Hu by (by apply (flag_target st m T d j)).
    split_and!; [by apply (roll_over_stop 1999)|done|done|by left]. }
  assert (st_slot st < slot (year T) iT) as HslotT by (apply Hsm; lia).
  (* the first year to consider *)
  set (y1 := if decide (st_slot st < slot (dd_year st) iT ∧ mk (year ld) (month ld) < mk (dd_year st) (month T))
             then dd_year st else dd_year st + 1).
  assert (st_slot st < slot y1 iT ∧ mk (year ld) (month ld) < mk y1 (month T) ∧ dd_year st <= y1 <= dd_year st + 1 ∧ y1 <= year T)
    as (Hs1 & Hmk1 & Hy1 & Hy1T).
  { pose proof (di_year _ _ Hinv) as Hyl. unfold y1. case_decide as Hc.
    - split_and!; [tauto|tauto|lia|lia|]. unfold slot in HslotT. nia.
    - split_and!; [unfold slot; nia|unfold mk; lia|lia|lia|].
      destruct (decide (year T = dd_year st)) as [HyT|]; [|unfold slot in HslotT; nia]. exfalso. apply Hc.
      split; [by rewrite HyT in HslotT|]. destruct (decide (mk (year ld) (month ld) = mk (year T) (month T))) as [Heq2|]; [|rewrite <-HyT; lia].
      exfalso. apply mk_inj in Heq2 as [Hyy Hmm]; [|done|lia].
      assert (month ld ∈ M) as HldM by (rewrite Hmm; by eapply list_elem_of_lookup_2).
      pose proof (di_after _ _ Hinv HldM). unfold mk in *. lia. }
  destruct (day_recurs (year T) y1 (month T) (day T)) as (k & Hk & Hdk); [lia|].
  set (yG := Z.min (y1 + k) (year T)).
  assert (day T <= days_in_month yG (month T)) as HdG.
  { unfold yG. destruct (Z.min_spec (y1 + k) (year T)) as [[_ ->]|[_ ->]]; lia. }
  assert (y1 <= yG <= y1 + 8 ∧ yG <= year T) as HyG by (unfold yG; lia).
  apply (roll_until 2000 st m yG iT (month T) (day T)); try done.
  - pose proof (di_year _ _ Hinv). pose proof (proj1 last_valid) as Hlv%valid_date_spec. lia.
  - unfold mk in *. lia.
  - unfold slot in *. nia.
  - unfold slot in *. assert (yG * Z.of_nat L - dd_year st * Z.of_nat L <= 9 * Z.of_nat L) by nia. lia.
  - unfold slot in *. nia.
Qed.

(** *** The weekday *)

Lemma unflagged_date st m :
  dinv st m → unflagged st →
  ∃ d, D !! dd_dom st = Some d ∧ valid_date (Date (dd_year st) m d) = true ∧
    date_key ld < date_key (Date (dd_year st) m d).
Proof.
  intros Hinv Hu. unfold unflagged in Hu. destruct (flag_cases st m Hinv) as [[Hf _]|(d & Hd & Hf)]; [congruence|].
  rewrite Hf in Hu. injection Hu as [Hv Hb]%orb_false_iff. apply negb_false_iff in Hv. exists d. split_and!; [done|done|].
  unfold is_before_last_run in Hb. apply Z.ltb_ge in Hb.
  destruct (Z.lt_trichotomy (date_key ld) (date_key (Date (dd_year st) m d))) as [|[Heq|Hgt]]; [done| |].
  - exfalso. pose proof Hv as Hcal%valid_in_calendar.
    apply date_key_inj in Heq; [|apply last_cal|done].
    assert (day ld < d) as Hday by (eapply (di_same _ _ Hinv); [by rewrite Heq|done]). rewrite Heq in Hday. simpl in Hday. lia.
  - exfalso. pose proof (dt_lt_date _ _ (time_valid (Date (dd_year st) m d)) (proj2 last_valid) Hgt) as Hlt.
    unfold dt_lt in Hlt. lia.
Qed.

(** A day with the wrong weekday is passed over. *)
Lemma skip_day_dinv st m d :
  dinv st m → D !! dd_dom st = Some d → dow (Date (dd_year st) m d) ∉ W →
  dinv (DateData (dd_year st) (dd_moy st) (dd_dom st + 1)) m.
Proof.
  intros [Hm Hdom Hy Hb Hs Ha] Hd Hw. pose proof (lookup_lt_Some _ _ _ Hd).
  pose proof (HMb _ (list_elem_of_lookup_2 _ _ _ Hm)) as Hmb. split; simpl; [done|lia|done| | |done].
  - intros T HT. destruct (Hb T HT) as [Hle Hin]. split; [done|]. intros Heq.
    destruct (Hin Heq) as (j & Hj & HjT). exists j. split; [|done].
    destruct (decide (j = dd_dom st)) as [->|]; [|lia]. exfalso. simplify_eq.
    destruct (target_cal T HT) as [HmT _]. apply mk_inj in Heq as [Hyy Hmm]; [|done|lia].
    apply Hw. destruct HT as (_ & _ & _ & HwT & _). rewrite Hyy, Hmm. by destruct T.
  - intros Heq d' Hd'. specialize (Hs Heq d Hd).
    pose proof (increasing_lookup D (dd_dom st) (dd_dom st + 1) _ _ HD Hd Hd'). lia.
Qed.

(** The number of positions up to the month of a target *)
Definition distance (T : date) (iT : nat) (st : datedata) : Z :=
  (slot (year T) iT - st_slot st) * (Z.of_nat (length D) + 1) + (Z.of_nat (length D) - Z.of_nat (dd_dom st)).

Lemma find_day_ok fuel st m T iT :
  dinv st m → unflagged st → target T → M !! iT = Some (month T) →
  distance T iT st < Z.of_nat fuel →
  ∃ d, find_day D M W last_ nh nm fuel st = Ok d ∧ target d ∧ ∀ T', target T' → date_key d <= date_key T'.
Proof.
  intros Hinv Hu HT HiT. revert st m Hinv Hu. induction fuel as [|fuel IH]; intros st m Hinv Hu Hfuel.
  all: pose proof (di_month _ _ Hinv) as Hm; destruct (di_bound _ _ Hinv T HT) as [Hle _].
  all: assert (0 <= slot (year T) iT - st_slot st) as Hpos by
    (pose proof (slot_mk (year T) iT (month T) (dd_year st) (dd_moy st) m HiT Hm); lia).
  all: pose proof (di_dom _ _ Hinv) as Hdom.
  { exfalso. unfold distance in Hfuel. nia. }
  destruct (unflagged_date st m Hinv Hu) as (d & Hd & Hv & Hkey).
  cbn [find_day]. rewrite (dd_date_ok st m d Hm Hd). cbn [obind]. rewrite Hv. cbn [negb].
  destruct (bool_decide (dow (Date (dd_year st) m d) ∈ W)) eqn:Ew; zbool.
  - exists (Date (dd_year st) m d). split; [done|]. split.
    + split_and!; [done|by eapply list_elem_of_lookup_2|by eapply list_elem_of_lookup_2|done|done].
    + intros T' HT'. destruct (di_bound _ _ Hinv T' HT') as [Hle' Hin']. destruct (target_cal T' HT') as [HmT' HdT'].
      pose proof (HMb _ (list_elem_of_lookup_2 _ _ _ Hm)). pose proof (HDb _ (list_elem_of_lookup_2 _ _ _ Hd)).
      pose proof (days_in_month_bounds (year T') (month T')).
      destruct (decide (mk (dd_year st) m = mk (year T') (month T'))) as [Heq|Hne].
      * destruct (Hin' Heq) as (j & Hj & HjT). pose proof (increasing_le D _ _ _ _ HD Hd HjT).
        unfold date_key, mk in *. simpl. lia.
      * unfold date_key, mk in *. simpl. lia.
  - pose proof (skip_day_dinv st m d Hinv Hd Ew) as Hinv1.
    destruct (roll_over_ok _ m T Hinv1 HT) as (st' & m' & Hroll & Hinv' & Hu' & Hst').
    rewrite Hroll. cbn [obind]. apply (IH st' m' Hinv' Hu'). pose proof (di_dom _ _ Hinv') as Hdom'.
    unfold distance in *. destruct Hst' as [->|Hslot]; simpl in *; [|nia]. pose proof (lookup_lt_Some _ _ _ Hd). lia.
Qed.

(** The delta leads to the first target, at the given time. *)
Lemma delta_to_next_ok T :
  target T → ∃ fuel0 d, target d ∧ (∀ T', target T' → date_key d <= date_key T') ∧
    ∀ fuel, (fuel0 ≤ fuel)%nat → delta_to_next D M W last_ nh nm fuel (bool_decide (month ld ∈ M)) =
      Ok (Ffwd (Some (year d)) (Some (month d)) 0 None (Some (day d)) (Some nh) (Some nm) (Some 0) (Some 0)).
Proof.
  intros HT. destruct (first_dinv T HT) as (m & Hinv). pose proof HT as (_ & HmT & _).
  apply list_elem_of_lookup in HmT as [iT HiT].
  destruct (roll_over_ok _ m T Hinv HT) as (st & m' & Hroll & Hinv' & Hu & _).
  set (fuel0 := S (Z.to_nat (distance T iT st))).
  destruct (find_day_ok fuel0 st m' T iT Hinv' Hu HT HiT) as (d & Hrun & Hd & Hmin); [unfold fuel0; lia|].
  exists fuel0, d. split_and!; [done|done|]. intros fuel Hfuel.
  destruct (find_day_ok fuel st m' T iT Hinv' Hu HT HiT) as (d' & Hrun' & Hd' & Hmin'); [unfold fuel0 in *; lia|].
  assert (d' = d) as ->.
  { apply date_key_inj; [by apply target_cal..|]. specialize (Hmin d' Hd'). specialize (Hmin' d Hd). lia. }
  unfold delta_to_next. rewrite Hroll. cbn [obind]. by rewrite Hrun'.
Qed.
End DeltaProps.

(** ** The next run of a crontab *)

Section NextRun.
Context (c : crontab) (last_ : datetime).
Context (Hmin : ∀ x, x ∈ c_minute c → 0 <= x < 60) (Hhour : ∀ x, x ∈ c_hour c → 0 <= x < 24).
Context (Hlast : valid_dt last_ = true).

Abbreviation ld := (dt_date last_).

(** [next] is the first match after the last run. *)
Definition first_match (next : datetime) : Prop :=
  valid_dt next = true ∧ matches c next ∧ dt_lt last_ next ∧
  ∀ t, valid_dt t = true → matches c t → dt_lt last_ t → dt_le next t.

Lemma valid_split t : valid_dt t = true → valid_date (dt_date t) = true ∧ valid_time t = true.
Proof. apply andb_true_iff. Qed.

Lemma valid_time_spec t :
  valid_time t = true ↔ (0 <= hour t < 24 ∧ 0 <= minute t < 60) ∧ 0 <= second t < 60 ∧ 0 <= micro t < 1000000.
Proof. unfold valid_time. rewrite !andb_true_iff, !Z.leb_le, !Z.ltb_lt. lia. Qed.

(** A match after the last run is on a later day, or later on the same day. *)
Lemma match_after t :
  valid_dt t = true → matches c t → dt_lt last_ t →
  date_key ld < date_key (dt_date t) ∨
  dt_date t = ld ∧ (hour last_ < hour t ∨ hour last_ = hour t ∧ minute last_ < minute t).
Proof.
  intros [Hd Ht]%valid_split (_ & _ & _ & _ & _ & Hs & Hu) Hlt. destruct (valid_split _ Hlast) as [Hld Hlt_].
  destruct (dt_lt_inv last_ t Hlt_ Ht Hlt) as [?|[Hk Htime]]; [by left|]. right.
  split; [symmetry; apply date_key_inj; [by apply valid_in_calendar..|done]|].
  rewrite valid_time_spec in Ht, Hlt_. unfold time_of_day in Htime. rewrite Hs, Hu in Htime. lia.
Qed.

(** *** Later on the same day *)

Lemma radd_same_day f h m :
  f = Ffwd None None 0 None None h (Some m) (Some 0) (Some 0) →
  0 <= m < 60 → 0 <= default (hour last_) h < 24 →
  radd last_ f = Ok (DT ld (default (hour last_) h) m 0 0) ∧ valid_dt (DT ld (default (hour last_) h) m 0 0) = true.
Proof.
  intros -> Hm Hh. destruct (valid_split _ Hlast) as [Hld _]. pose proof Hld as (Hy & Hmo & Hd)%valid_date_spec.
  assert (valid_dt (DT ld (default (hour last_) h) m 0 0) = true) as Hv.
  { apply andb_true_iff. split; [done|]. apply valid_time_spec. simpl. lia. }
  split; [|done]. unfold radd. cbn [f_year f_month f_weeks f_weekday f_day f_hour f_minute f_second f_micro int_or].
  rewrite Z.min_r by lia. cbn [default from_option id].
  replace (Date (year ld) (month ld) (day ld)) with ld by (by destruct ld). rewrite Hv. cbn [obind].
  by apply add_days_0.
Qed.

Lemma first_match_same_day h m :
  valid_dt (DT ld h m 0 0) = true → matches c (DT ld h m 0 0) →
  (hour last_ < h ∨ hour last_ = h ∧ minute last_ < m) →
  (∀ h' m', h' ∈ c_hour c → m' ∈ c_minute c →
     (hour last_ < h' ∨ hour last_ = h' ∧ minute last_ < m') → h * 60 + m <= h' * 60 + m') →
  first_match (DT ld h m 0 0).
Proof.
  intros Hv Hm Hafter Hleast. destruct (valid_split _ Hlast) as [_ Hlt%valid_time_spec].
  destruct (valid_split _ Hv) as [_ Hvt%valid_time_spec]. simpl in Hvt.
  split_and!; [done|done| |].
  - unfold dt_lt, dt_key, time_of_day. simpl. lia.
  - intros t Htv Htm Htl. destruct (match_after t Htv Htm Htl) as [Hk|[Hdt Ht]].
    + apply Z.lt_le_incl, dt_lt_date; [by apply valid_split in Hv as [_ ?]|by apply valid_split in Htv as [_ ?]|done].
    + destruct Htm as (Hmt & Hht & _ & _ & _ & Hs & Hu). specialize (Hleast _ _ Hht Hmt Ht).
      unfold dt_le, dt_key, time_of_day. simpl. rewrite Hdt, Hs, Hu. lia.
Qed.

(** *** On a later day *)

Definition match_day (d : date) : Prop :=
  valid_date d = true ∧ day d ∈ c_day_of_month c ∧ month d ∈ c_month_of_year c ∧ dow d ∈ c_day_of_week c ∧
  date_key ld < date_key d.

Lemma first_match_later d nh nm :
  nh ∈ c_hour c → (∀ h, h ∈ c_hour c → nh <= h) → nm ∈ c_minute c → (∀ m, m ∈ c_minute c → nm <= m) →
  match_day d → (∀ d', match_day d' → date_key d <= date_key d') →
  (∀ t, valid_dt t = true → matches c t → dt_lt last_ t → date_key ld < date_key (dt_date t)) →
  first_match (DT d nh nm 0 0).
Proof.
  intros Hnh Hnhm Hnm Hnmm Hd Hleast Hlater. pose proof Hd as (Hv & Hdd & Hmm & Hw & Hk).
  assert (valid_time (DT d nh nm 0 0) = true) as Hvt.
  { apply valid_time_spec. simpl. specialize (Hhour _ Hnh). specialize (Hmin _ Hnm). lia. }
  split_and!.
  - apply andb_true_iff. done.
  - done.
  - apply dt_lt_date; [by apply valid_split|done|done].
  - intros t Htv Htm Htl. specialize (Hlater t Htv Htm Htl). destruct (valid_split _ Htv) as [Htd Htt].
    destruct Htm as (Hmt & Hht & Hdt & Hmot & Hwt & Hs & Hu).
    assert (date_key d <= date_key (dt_date t)) as Hle by (apply Hleast; done).
    specialize (Hnhm _ Hht). specialize (Hnmm _ Hmt). apply time_of_day_bounds in Htt, Hvt.
    unfold dt_le, dt_key, day_micros in *. unfold time_of_day in *. simpl in *. nia.
Qed.

(** *** Any day of the month *)

Lemma ordinal_valid_between d e f :
  valid_date d = true → valid_date f = true → in_calendar e → ordinal d <= ordinal e <= ordinal f → valid_date e = true.
Proof.
  intros Hd Hf He Hle. pose proof Hd as Hdc%valid_in_calendar. pose proof Hf as Hfc%valid_in_calendar.
  pose proof (ordinal_le_key d e Hdc He ltac:(lia)) as H1. pose proof (ordinal_le_key e f He Hfc ltac:(lia)) as H2.
  rewrite valid_date_spec in *. destruct He as [? ?]. unfold date_key in *.
  pose proof (days_in_month_bounds (year e) (month e)). pose proof (days_in_month_bounds (year d) (month d)).
  pose proof (days_in_month_bounds (year f) (month f)). lia.
Qed.

Lemma star_next (Hdow : ∀ x, x ∈ c_day_of_week c → 0 <= x < 7)
    (Hdom : ∀ x, 1 <= x <= 31 → x ∈ c_day_of_month c) (Hmoy : ∀ x, 1 <= x <= 12 → x ∈ c_month_of_year c) T nh nm :
  match_day T → 0 <= nh < 24 → 0 <= nm < 60 →
  let later := filter (λ day, dow ld < day) (elements (c_day_of_week c)) in
  ∃ n d, list_min (match later with [] => elements (c_day_of_week c) | _ => later end) = Ok n ∧
    radd last_ (Ffwd None None (if n =? dow ld then 1 else 0) (Some ((n - 1) mod 7)) None
                     (Some nh) (Some nm) (Some 0) (Some 0)) = Ok (DT d nh nm 0 0) ∧
    match_day d ∧ ∀ d', match_day d' → date_key d <= date_key d'.
Proof.
  intros HT Hnh Hnm later. pose proof HT as (HTv & _ & _ & HTw & HTk).
  destruct (valid_split _ Hlast) as [Hld _]. pose proof Hld as Hlc%valid_in_calendar. pose proof HTv as HTc%valid_in_calendar.
  assert (0 <= dow ld < 7) as Hdl by (apply Z.mod_pos_bound; lia).
  (* the weekday chosen *)
  assert (∃ n, list_min (match later with [] => elements (c_day_of_week c) | _ => later end) = Ok n ∧
    n ∈ c_day_of_week c ∧
    (dow ld < n ∧ (∀ x, x ∈ c_day_of_week c → dow ld < x → n <= x) ∨
     n <= dow ld ∧ (∀ x, x ∈ c_day_of_week c → x <= dow ld) ∧ ∀ x, x ∈ c_day_of_week c → n <= x)) as (n & Hn & HnW & Hcase).
  { destruct later as [|y l] eqn:El.
    - destruct (list_min_ok (elements (c_day_of_week c)) (dow T)) as (n & -> & Hin & Hm); [by apply elem_of_elements|].
      rewrite elem_of_elements in Hin. exists n. split_and!; [done|done|]. right.
      assert (∀ x, x ∈ c_day_of_week c → x <= dow ld) as Hle.
      { intros x Hx. destruct (Z.le_gt_cases x (dow ld)) as [|Hgt]; [done|]. exfalso.
        assert (x ∈ later) as Hxl by (unfold later; rewrite list_elem_of_filter, elem_of_elements; split; [lia|done]).
        rewrite El in Hxl. set_solver. }
      split_and!; [auto|done|]. intros x Hx. apply Hm. by apply elem_of_elements.
    - destruct (list_min_ok (y :: l) y) as (n & Hn & Hin & Hm); [set_solver|]. exists n. rewrite <-El in Hin, Hm.
      unfold later in Hin. rewrite list_elem_of_filter, elem_of_elements in Hin. split_and!; [done|tauto|]. left.
      split; [tauto|]. intros x Hx Hlt. apply Hm. unfold later. by rewrite list_elem_of_filter, elem_of_elements. }
  set (k := if n <=? dow ld then n + 7 - dow ld else n - dow ld).
  assert (1 <= k <= 7) as Hk by (specialize (Hdow _ HnW); unfold k; case_ifs; zbool; lia).
  (* the number of days to any match *)
  assert (∀ d', match_day d' → ordinal ld + k <= ordinal d') as Hleast.
  { intros d' (Hv' & _ & _ & Hw' & Hk'). pose proof (ordinal_lt ld d' Hlc (valid_in_calendar _ Hv') Hk') as Hlt.
    destruct (Z.le_gt_cases (ordinal ld + 7) (ordinal d')) as [|Hlt7]; [lia|].
    assert (dow d' = (dow ld + (ordinal d' - ordinal ld)) mod 7) as Hdow'.
    { unfold dow. rewrite Z.add_mod_idemp_l by lia. f_equal. lia. }
    set (j := ordinal d' - ordinal ld) in *. assert (1 <= j <= 6) as Hj by (unfold j; lia).
    assert (dow d' = if dow ld + j <? 7 then dow ld + j else dow ld + j - 7) as Hd'.
    { rewrite Hdow'. destruct (Z.ltb_spec (dow ld + j) 7); [apply Z.mod_small; lia|].
      rewrite <-(Z.mod_small (dow ld + j - 7) 7) by lia. rewrite <-(Z_mod_plus_full (dow ld + j - 7) 1 7). f_equal. lia. }
    enough (k <= j) by (unfold j in *; lia). unfold k. specialize (Hdow _ HnW).
    destruct Hcase as [[Hgt Hm]|(Hle & Hall & Hm)].
    - rewrite (proj2 (Z.leb_gt n (dow ld))) by lia. destruct (Z.ltb_spec (dow ld + j) 7); [|lia].
      specialize (Hm _ Hw' ltac:(lia)). lia.
    - rewrite (proj2 (Z.leb_le n (dow ld))) by lia. specialize (Hm _ Hw'). specialize (Hall _ Hw').
      destruct (Z.ltb_spec (dow ld + j) 7); lia. }
  set (k1 := (n - dow ld) mod 7).
  assert (k = k1 + (if n =? dow ld then 1 else 0) * 7 ∧ 0 <= k1 < 7) as [Hkk Hk1].
  { specialize (Hdow _ HnW). unfold k, k1. destruct (Z.leb_spec n (dow ld)) as [Hle|Hgt].
    - destruct (Z.eqb_spec n (dow ld)) as [->|Hne]; [rewrite Z.sub_diag, Z.mod_0_l by lia; lia|].
      rewrite <-(Z_mod_plus_full (n - dow ld) 1 7). rewrite Z.mod_small; lia.
    - destruct (Z.eqb_spec n (dow ld)) as [->|Hne]; [lia|]. rewrite Z.mod_small; lia. }
  destruct (ordinal_shift ld k1 Hlc) as [Hc1 Ho1]; [lia|].
  destruct (ordinal_shift (shift_days ld k1) ((if n =? dow ld then 1 else 0) * 7) Hc1) as [Hc2 Ho2]; [case_ifs; lia|].
  set (d := shift_days (shift_days ld k1) ((if n =? dow ld then 1 else 0) * 7)) in *.
  assert (ordinal d = ordinal ld + k) as Hod by lia.
  pose proof (Hleast T HT) as HleT.
  assert (valid_date (shift_days ld k1) = true) as Hv1 by (apply (ordinal_valid_between ld _ T); [done..|case_ifs; lia]).
  assert (valid_date d = true) as Hv by (apply (ordinal_valid_between ld _ T); [done..|lia]).
  exists n, d. split; [done|]. split; [|split].
  - unfold radd. cbn [f_year f_month f_weeks f_weekday f_day f_hour f_minute f_second f_micro int_or default from_option id].
    pose proof Hld as (_ & _ & Hday)%valid_date_spec. rewrite Z.min_r by lia.
    replace (Date (year ld) (month ld) (day ld)) with ld by (by destruct ld).
    assert (valid_dt (DT ld nh nm 0 0) = true) as ->.
    { apply andb_true_iff. split; [done|]. apply valid_time_spec. simpl. lia. }
    cbn [dt_date].
    assert ((7 - weekday ld + (n - 1) mod 7) mod 7 = k1) as ->.
    { unfold k1, weekday, dow. rewrite (Zminus_mod_idemp_r n (ordinal ld) 7), Z.add_mod_idemp_r by lia.
      replace (7 - (ordinal ld + 6) mod 7 + (n - 1)) with (7 + (n - 1) - (ordinal ld + 6) mod 7) by lia.
      rewrite Zminus_mod_idemp_r. f_equal. lia. }
    unfold add_days at 1. cbn [dt_date hour minute second micro]. rewrite Hv1. cbn [obind].
    unfold add_days. cbn [dt_date hour minute second micro]. fold d. by rewrite Hv.
  - pose proof Hv as (Hy & Hm & Hday)%valid_date_spec. pose proof (days_in_month_bounds (year d) (month d)).
    split_and!; [done|apply Hdom; lia|apply Hmoy; lia| |].
    + unfold dow at 1. rewrite Hod. assert ((ordinal ld + k) mod 7 = n) as ->; [|done].
      specialize (Hdow _ HnW). rewrite <-Z.add_mod_idemp_l by lia. fold (dow ld). unfold k.
      destruct (Z.leb_spec n (dow ld)).
      * replace (dow ld + (n + 7 - dow ld)) with (n + 1 * 7) by lia. rewrite Z_mod_plus_full. apply Z.mod_small. lia.
      * replace (dow ld + (n - dow ld)) with n by lia. apply Z.mod_small. lia.
    + destruct (Z.lt_trichotomy (date_key ld) (date_key d)) as [|[Heq|Hgt]]; [done| |].
      * apply date_key_inj in Heq; [|done|done]. rewrite <-Heq in Hod. lia.
      * apply ordinal_lt in Hgt; [lia|done|done].
  - intros d' Hd'. pose proof (Hleast d' Hd'). destruct Hd' as (Hv' & _). apply ordinal_le_key; [done|by apply valid_in_calendar|lia].
Qed.

(** *** All branches *)

Section Branches.
Context (Hdow : ∀ x, x ∈ c_day_of_week c → 0 <= x < 7).
Context (Hdom : ∀ x, x ∈ c_day_of_month c → 1 <= x < 32) (Hmoy : ∀ x, x ∈ c_month_of_year c → 1 <= x < 13).
Context (Hstar_dom : is_star (c_orig_day_of_month c) = true → ∀ x, 1 <= x <= 31 → x ∈ c_day_of_month c).
Context (Hstar_moy : is_star (c_orig_month_of_year c) = true → ∀ x, 1 <= x <= 12 → x ∈ c_month_of_year c).

Definition this_date : bool :=
  bool_decide (month ld ∈ c_month_of_year c) && bool_decide (day ld ∈ c_day_of_month c) &&
  bool_decide (dow ld ∈ c_day_of_week c).

Lemma this_date_match t : matches c t → dt_date t = ld → this_date = true.
Proof.
  intros (_ & _ & Hd & Hm & Hw & _) Heq. rewrite Heq in *. unfold this_date.
  by rewrite !bool_decide_eq_true_2.
Qed.

Lemma this_date_spec h m :
  this_date = true → h ∈ c_hour c → m ∈ c_minute c → matches c (DT ld h m 0 0).
Proof. unfold this_date. rewrite !andb_true_iff, !bool_decide_eq_true. intros [[??]?] ??. done. Qed.

(** Nothing more to do on the day of the last run *)
Definition exhausted : Prop :=
  ∀ t, valid_dt t = true → matches c t → dt_lt last_ t → date_key ld < date_key (dt_date t).

Lemma next_later_day t nh nm :
  valid_dt t = true → matches c t → dt_lt last_ t → exhausted →
  nh ∈ c_hour c → (∀ h, h ∈ c_hour c → nh <= h) → nm ∈ c_minute c → (∀ m, m ∈ c_minute c → nm <= m) →
  ∃ fuel0 next, first_match next ∧ ∀ fuel, (fuel0 ≤ fuel)%nat → ∃ delta,
    (if is_star (c_orig_day_of_month c) && is_star (c_orig_month_of_year c) then
       let later := filter (λ day, dow ld < day) (elements (c_day_of_week c)) in
       let! next_day := list_min (match later with [] => elements (c_day_of_week c) | _ => later end) in
       Ok (Ffwd None None (if next_day =? dow ld then 1 else 0) (Some ((next_day - 1) mod 7)) None
                (Some nh) (Some nm) (Some 0) (Some 0))
     else
       delta_to_next (sorted (c_day_of_month c)) (sorted (c_month_of_year c)) (c_day_of_week c)
                     last_ nh nm fuel (bool_decide (month ld ∈ c_month_of_year c))) = Ok delta ∧
    radd last_ delta = Ok next.
Proof.
  intros Htv Htm Htl Hex Hnh Hnhm Hnm Hnmm. pose proof (Hhour _ Hnh) as Hhb. pose proof (Hmin _ Hnm) as Hmb.
  assert (match_day (dt_date t)) as HT.
  { pose proof Htm as (_ & _ & ? & ? & ? & _). split_and!; [by apply valid_split in Htv as [? _]|done|done|done|by apply Hex]. }
  destruct (is_star (c_orig_day_of_month c) && is_star (c_orig_month_of_year c)) eqn:Est.
  - apply andb_true_iff in Est as [Es1 Es2].
    destruct (star_next Hdow (Hstar_dom Es1) (Hstar_moy Es2) (dt_date t) nh nm HT Hhb Hmb) as (n & d & Hn & Hr & Hd & Hleast).
    exists 0%nat, (DT d nh nm 0 0). split; [by apply first_match_later|]. intros fuel _. cbv zeta. rewrite Hn. cbn [obind].
    by eexists.
  - assert (∀ d, target (sorted (c_day_of_month c)) (sorted (c_month_of_year c)) (c_day_of_week c) last_ d ↔ match_day d) as Htgt.
    { intros d. unfold target, match_day. rewrite !elem_of_sorted. tauto. }
    destruct (delta_to_next_ok (sorted (c_day_of_month c)) (sorted (c_month_of_year c)) (c_day_of_week c) last_ nh nm)
      with (T := dt_date t) as (fuel0 & d & Hd & Hleast & Hrun); [apply sorted_increasing..| | |done|done|done|by apply Htgt|].
    { intros x Hx%elem_of_sorted%Hdom. lia. }
    { intros x Hx%elem_of_sorted%Hmoy. lia. }
    apply Htgt in Hd. setoid_rewrite Htgt in Hleast.
    exists fuel0, (DT d nh nm 0 0). split; [by apply first_match_later|]. intros fuel Hf.
    assert (bool_decide (month ld ∈ c_month_of_year c) = bool_decide (month ld ∈ sorted (c_month_of_year c))) as ->.
    { apply bool_decide_ext. by rewrite elem_of_sorted. }
    eexists. split; [by apply Hrun|]. destruct Hd as (Hv & _). pose proof Hv as (Hy & Hm & Hday)%valid_date_spec.
    unfold radd. cbn [f_year f_month f_weeks f_weekday f_day f_hour f_minute f_second f_micro int_or default from_option id].
    rewrite (proj2 (Z.eqb_neq (year d) 0)), (proj2 (Z.eqb_neq (month d) 0)), (proj2 (Z.eqb_neq (day d) 0)) by lia.
    rewrite Z.min_r by lia. replace (Date (year d) (month d) (day d)) with d by (by destruct d).
    assert (valid_dt (DT d nh nm 0 0) = true) as ->.
    { apply andb_true_iff. split; [done|]. apply valid_time_spec. simpl. lia. }
    cbn [obind]. by apply add_days_0.
Qed.

Lemma remaining_delta_first t :
  valid_dt t = true → matches c t → dt_lt last_ t →
  ∃ fuel0 next, first_match next ∧ ∀ fuel, (fuel0 ≤ fuel)%nat → ∃ delta,
    remaining_delta fuel c last_ = Ok delta ∧ radd last_ delta = Ok next.
Proof.
  intros Htv Htm Htl. pose proof Htm as (HtM & HtH & _). unfold remaining_delta. fold this_date.
  destruct (set_max_ok _ _ HtM) as (mxm & Hmxm & HmxmIn & Hmxmm). destruct (set_max_ok _ _ HtH) as (mxh & Hmxh & HmxhIn & Hmxhm).
  destruct (set_min_ok _ _ HtM) as (nm & Hnm & HnmIn & Hnmm). destruct (set_min_ok _ _ HtH) as (nh & Hnh & HnhIn & Hnhm).
  destruct (valid_split _ Hlast) as [_ Hlt%valid_time_spec].
  rewrite Hmxm, Hnm, Hmxh, Hnh. cbn [obind].
  destruct (this_date && bool_decide (hour last_ ∈ c_hour c) && (minute last_ <? mxm)) eqn:E1.
  - apply andb_true_iff in E1 as [[E1 E2]%andb_true_iff E3]. rewrite E1, E2. simpl. zbool. rewrite (proj2 (Z.ltb_lt _ _)) by done.
    destruct (list_min_ok (filter (λ m, minute last_ < m) (elements (c_minute c))) mxm) as (m & Hm & Hin & Hleast).
    { rewrite list_elem_of_filter, elem_of_elements. done. }
    rewrite list_elem_of_filter, elem_of_elements in Hin. destruct Hin as [Hml HmIn]. rewrite Hm. cbn [obind].
    destruct (radd_same_day _ None m eq_refl) as [Hr Hv]; [auto|simpl; lia|]. simpl in Hr, Hv.
    exists 0%nat, (DT ld (hour last_) m 0 0). split; [|intros fuel _; by eexists].
    apply first_match_same_day; [done|by apply this_date_spec|by right|].
    intros h' m' Hh' Hm' [?|[-> ?]].
    + pose proof (Hmin _ Hm'). pose proof (Hmin _ HmIn). lia.
    + specialize (Hleast m'). rewrite list_elem_of_filter, elem_of_elements in Hleast. specialize (Hleast ltac:(done)). lia.
  - assert ((if this_date && bool_decide (hour last_ ∈ c_hour c) then Ok (minute last_ <? mxm) else Ok false) = Ok false) as ->.
    { destruct (this_date && bool_decide (hour last_ ∈ c_hour c)); [simpl in E1; by rewrite E1|done]. }
    cbn [obind]. destruct (this_date && (hour last_ <? mxh)) eqn:E2.
    + apply andb_true_iff in E2 as [E2 E3]. rewrite E2. cbn [obind]. rewrite E3. zbool.
      destruct (list_min_ok (filter (λ h, hour last_ < h) (elements (c_hour c))) mxh) as (h & Hh & Hin & Hleast).
      { rewrite list_elem_of_filter, elem_of_elements. done. }
      rewrite list_elem_of_filter, elem_of_elements in Hin. destruct Hin as [Hhl HhIn]. rewrite Hh. cbn [obind].
      destruct (radd_same_day _ (Some h) nm eq_refl) as [Hr Hv]; [auto|simpl; auto|]. simpl in Hr, Hv.
      exists 0%nat, (DT ld h nm 0 0). split; [|intros fuel _; by eexists].
      apply first_match_same_day; [done|by apply this_date_spec|by left|].
      intros h' m' Hh' Hm' [?|[<- ?]].
      * specialize (Hleast h'). rewrite list_elem_of_filter, elem_of_elements in Hleast. specialize (Hleast ltac:(done)).
        specialize (Hnmm _ Hm'). lia.
      * exfalso. rewrite E2 in E1. simpl in E1. apply andb_false_iff in E1 as [E1|E1]; zbool; [done|].
        specialize (Hmxmm _ Hm'). lia.
    + assert ((if this_date then Ok (hour last_ <? mxh) else Ok false) = Ok false) as ->.
      { destruct this_date; [simpl in E2; by rewrite E2|done]. }
      cbn [obind]. eapply next_later_day; [exact Htv|exact Htm|exact Htl| |done|done|done|done].
      intros t' Htv' Htm' Htl'. destruct (match_after t' Htv' Htm' Htl') as [?|[Hdt Ht]]; [done|]. exfalso.
      rewrite (this_date_match t' Htm' Hdt) in E1, E2. simpl in E1, E2. destruct Htm' as (Hmt & Hht & _).
      zbool. destruct Ht as [Ht|[Ht Hm]]; [specialize (Hmxhm _ Hht); lia|].
      apply andb_false_iff in E1 as [E1|E1]; zbool; [by rewrite Ht in E1|]. specialize (Hmxmm _ Hmt). lia.
Qed.
End Branches.
End NextRun.

Lemma star_full mx mn st :
  expand_cronspec (CStr (to_chars "*")) mx mn = Ok st → ∀ x, mn <= x < mn + mx → x ∈ st.
Proof.
  intros (r & Hr & H)%obind_Ok x Hx. destruct (existsb _ _); [done|]. injection H as <-.
  assert (parse mx mn (to_chars "*") = Ok (∅ ∪ list_to_set (range mn (mx + mn)))) as Hp by reflexivity.
  rewrite Hp in Hr. injection Hr as <-. rewrite elem_of_union, elem_of_list_to_set, elem_of_range. right. lia.
Qed.

Lemma is_star_eq s : is_star s = true → s = CStr (to_chars "*").
Proof. destruct s as [|l| | |]; simpl; try done. intros ->%bool_decide_eq_true. done. Qed.

(** The first match after any datetime, for a crontab built by its constructor *)
Lemma remaining_delta_spec minute hour dow dom moy c last_ t :
  crontab_init minute hour dow dom moy = Ok c → valid_dt last_ = true →
  valid_dt t = true → matches c t → dt_lt last_ t →
  ∃ fuel0 next, first_match c last_ next ∧ ∀ fuel, (fuel0 ≤ fuel)%nat →
    ∃ delta, remaining_delta fuel c last_ = Ok delta ∧ radd last_ delta = Ok next ∧
      ∀ now, remaining_estimate fuel c last_ now = Ok (dt_sub next now).
Proof.
  intros (Hm & Hh & Hw & Hd & Hy & Ed & Ey)%crontab_init_fields Hlast Htv Htm Htl.
  destruct (remaining_delta_first c last_) with (t := t) as (fuel0 & next & Hnext & Hrun); try done.
  - intros x Hx. eapply expand_cronspec_range in Hx; [|done]. lia.
  - intros x Hx. eapply expand_cronspec_range in Hx; [|done]. lia.
  - intros x Hx. eapply expand_cronspec_range in Hx; [|done]. lia.
  - intros x Hx. eapply expand_cronspec_range in Hx; [|done]. lia.
  - intros x Hx. eapply expand_cronspec_range in Hx; [|done]. lia.
  - rewrite Ed. intros ->%is_star_eq x Hx. eapply star_full; [done|]. lia.
  - rewrite Ey. intros ->%is_star_eq x Hx. eapply star_full; [done|]. lia.
  - exists fuel0, next. split; [done|]. intros fuel Hf. destruct (Hrun fuel Hf) as (delta & Hdelta & Hr).
    exists delta. split_and!; [done|done|]. intros now. unfold remaining_estimate, remaining_ffwd. rewrite Hdelta. simpl. by rewrite Hr.
Qed.

(** C38: A crontab runs at its first matching minute.  If any minute after the
    last run matches the crontab, then adding the delta of [remaining_delta] to
    the last run gives the first such minute: it matches all five fields, lies
    after the last run, and no minute in between matches.  In particular the
    search over months and days terminates and is never given up early. *)
Theorem crontab_next_run minute hour dow dom moy c last_ t :
  crontab_init minute hour dow dom moy = Ok c → valid_dt last_ = true →
  valid_dt t = true → matches c t → dt_lt last_ t →
  ∃ fuel0 next, (∀ fuel, (fuel0 ≤ fuel)%nat →
      ∃ delta, remaining_delta fuel c last_ = Ok delta ∧ radd last_ delta = Ok next) ∧
    matches c next ∧ dt_lt last_ next ∧
    ∀ u, valid_dt u = true → matches c u → dt_lt last_ u → dt_le next u.
Proof.
  intros Hc Hl Htv Htm Htl. destruct (remaining_delta_spec _ _ _ _ _ _ _ _ Hc Hl Htv Htm Htl)
    as (fuel0 & next & (_ & Hm & Hlt & Hleast) & Hrun).
  exists fuel0, next. split_and!; [|done|done|done]. intros fuel Hf. destruct (Hrun fuel Hf) as (delta & ? & ? & _). eauto.
Qed.

(** [crontab.is_due] without a starting deadline, the clock standing still.
    The task is due exactly when a matching minute has passed since the last
    run; when it is due the time to wait leads to the first match after now,
    otherwise to the first match after the last run. *)
Theorem crontab_due minute hour dow dom moy c last_ now t u :
  crontab_init minute hour dow dom moy = Ok c → valid_dt last_ = true → valid_dt now = true →
  valid_dt t = true → matches c t → dt_lt last_ t → valid_dt u = true → matches c u → dt_lt now u →
  ∃ fuel0 due wait, (∀ fuel, (fuel0 ≤ fuel)%nat → crontab_is_due fuel c None last_ (λ _, now) = Ok (due, wait)) ∧
    (due = true ↔ ∃ v, valid_dt v = true ∧ matches c v ∧ dt_lt last_ v ∧ dt_le v now) ∧
    0 < wait ∧ ∃ next, first_match c (if due then now else last_) next ∧ wait = dt_sub next now.
Proof.
  intros Hc Hl Hn Htv Htm Htl Huv Hum Hul.
  destruct (remaining_delta_spec _ _ _ _ _ _ _ _ Hc Hl Htv Htm Htl) as (f1 & n1 & Hn1 & Hrun1).
  destruct (remaining_delta_spec _ _ _ _ _ _ _ _ Hc Hn Huv Hum Hul) as (f2 & n2 & Hn2 & Hrun2).
  pose proof Hn1 as (Hv1 & Hm1 & Hlt1 & Hleast1). pose proof Hn2 as (Hv2 & Hm2 & Hlt2 & Hleast2).
  destruct (dt_sub_sign n1 now Hv1 Hn) as [Hs1 Hs1']. destruct (dt_sub_sign n2 now Hv2 Hn) as [_ Hs2].
  exists (f1 `max` f2)%nat. unfold crontab_is_due.
  destruct (Z.le_gt_cases (dt_sub n1 now) 0) as [Hle|Hgt].
  - exists true, (dt_sub n2 now). split_and!.
    + intros fuel Hf. destruct (Hrun1 fuel) as (d1 & _ & _ & Hr1); [lia|]. destruct (Hrun2 fuel) as (d2 & _ & _ & Hr2); [lia|].
      rewrite Hr1. cbn [obind]. rewrite Z.max_r by lia. simpl. rewrite Hr2. simpl. rewrite Z.max_l by (apply Z.lt_le_incl; by apply Hs2).
      done.
    + split; [|done]. intros _. exists n1. split_and!; [done|done|done|by apply Hs1].
    + by apply Hs2.
    + exists n2. done.
  - exists false, (dt_sub n1 now). split_and!.
    + intros fuel Hf. destruct (Hrun1 fuel) as (d1 & _ & _ & Hr1); [lia|]. rewrite Hr1. cbn [obind]. rewrite Z.max_l by lia.
      rewrite (proj2 (Z.eqb_neq _ 0)) by lia. done.
    + split; [done|]. intros (v & Hv & Hvm & Hvl & Hvn). specialize (Hleast1 v Hv Hvm Hvl).
      assert (dt_sub n1 now <= 0); [|lia]. apply Hs1. unfold dt_le in *. lia.
    + lia.
    + exists n1. done.
Qed.

(** Interval schedules.  A non-relative [schedule] with a positive interval
    is due exactly when the interval has passed since the last run, and
    otherwise reports the time that is left; for a relative one the end of the
    interval is first rounded down to its day, hour or minute. *)
Theorem schedule_due s last_ now end_ :
  add_micros last_ (run_every s) = Ok end_ → 0 < run_every s →
  let end' := if relative s
              then let e := delta_resolution end_ (run_every s) in DT (dt_date e) (hour e) (minute e) (second e) 0
              else end_ in
  schedule_is_due s last_ now =
    Ok (if dt_sub end' now <=? 0 then (true, run_every s) else (false, dt_sub end' now)) ∧
  (valid_time end_ = true → dt_le end' end_).
Proof.
  intros He Hpos end'. split.
  - unfold schedule_is_due, remaining_td, seconds. rewrite He. cbn [obind]. fold end'.
    destruct (Z.leb_spec (dt_sub end' now) 0) as [Hle|Hgt].
    + rewrite Z.max_r by lia. simpl. by rewrite Z.max_l by lia.
    + rewrite Z.max_l by lia. by rewrite (proj2 (Z.eqb_neq _ 0)) by lia.
  - intros Hv%valid_time_spec. unfold end', dt_le, dt_key, time_of_day. destruct (relative s); [|lia].
    unfold delta_resolution. case_ifs; simpl; lia.
Qed.

(** ** Witnesses *)

(** 8:30 on every 29 February that is a Monday *)
Definition leap_monday : outcome crontab :=
  crontab_init (CInt 30) (CInt 8) (CStr (to_chars "mon")) (CInt 29) (CInt 2).
Definition leap_monday_ct : crontab :=
  match leap_monday with Ok c => c | _ => Crontab COther COther COther COther COther ∅ ∅ ∅ ∅ ∅ end.
Definition some_run : datetime := DT (Date 2025 1 1) 12 0 0 0.
Definition next_leap_monday : datetime := DT (Date 2044 2 29) 8 30 0 0.

Example leap_monday_delta :
  (let! delta := remaining_delta 20 leap_monday_ct some_run in radd some_run delta) = Ok next_leap_monday.
Proof. vm_compute. reflexivity. Qed.

Lemma leap_monday_matches : matches leap_monday_ct next_leap_monday.
Proof. unfold matches. split_and!; by apply (bool_decide_unpack _); vm_compute. Qed.

Lemma crontab_next_run_witness :
  ∃ fuel0 next, (∀ fuel, (fuel0 ≤ fuel)%nat →
      ∃ delta, remaining_delta fuel leap_monday_ct some_run = Ok delta ∧ radd some_run delta = Ok next) ∧
    matches leap_monday_ct next ∧ dt_lt some_run next ∧
    ∀ u, valid_dt u = true → matches leap_monday_ct u → dt_lt some_run u → dt_le next u.
Proof.
  apply (crontab_next_run (CInt 30) (CInt 8) (CStr (to_chars "mon")) (CInt 29) (CInt 2) leap_monday_ct some_run next_leap_monday).
  - by vm_compute.
  - by vm_compute.
  - by vm_compute.
  - apply leap_monday_matches.
  - by vm_compute.
Defined.

Lemma crontab_due_witness :
  ∃ fuel0 due wait, (∀ fuel, (fuel0 ≤ fuel)%nat →
      crontab_is_due fuel leap_monday_ct None some_run (λ _, DT (Date 2025 6 1) 0 0 0 0) = Ok (due, wait)) ∧
    (due = true ↔ ∃ v, valid_dt v = true ∧ matches leap_monday_ct v ∧ dt_lt some_run v ∧ dt_le v (DT (Date 2025 6 1) 0 0 0 0)) ∧
    0 < wait ∧ ∃ next, first_match leap_monday_ct (if due then DT (Date 2025 6 1) 0 0 0 0 else some_run) next ∧
      wait = dt_sub next (DT (Date 2025 6 1) 0 0 0 0).
Proof.
  apply (crontab_due (CInt 30) (CInt 8) (CStr (to_chars "mon")) (CInt 29) (CInt 2) leap_monday_ct some_run
           (DT (Date 2025 6 1) 0 0 0 0) next_leap_monday next_leap_monday); try by vm_compute.
  all: apply leap_monday_matches.
Defined.

Lemma schedule_due_witness :
  schedule_is_due (Schedule 90000000 true) (DT (Date 2025 12 31) 23 59 10 500) (DT (Date 2026 1 1) 0 0 30 0) = Ok (true, 90000000) ∧
  dt_le (DT (Date 2026 1 1) 0 0 0 0) (DT (Date 2026 1 1) 0 0 40 500).
Proof.
  destruct (schedule_due (Schedule 90000000 true) (DT (Date 2025 12 31) 23 59 10 500) (DT (Date 2026 1 1) 0 0 30 0)
    (DT (Date 2026 1 1) 0 0 40 500)) as [H1 H2]; [by vm_compute|done|]. split; [exact H1|by apply H2].
Defined.

End CronSchedule.
