(* ===== verification/Graph.v ===== *)
(** [DependencyGraph] of celery/utils/graph.py: the adjacency dictionary, its
    update operations, Kahn's and Tarjan's algorithms and [topsort], which
    composes them.  On an acyclic graph [topsort] is shown to order all nodes
    with every dependency before its dependents.

    The adjacency lists of two graphs connected by [connect] are shared objects
    in Python; the model copies them, and no theorem is about a graph mutated
    after it was connected to another one. *)

From S2P Require Import Prelude PyDict.
Local Open Scope Z_scope.

Abbreviation graph A := (pydict A (list A)).

Module DependencyGraph.

Section Defs.
Context {A : Type} `{EqDecision A}.
Implicit Types (g : graph A) (x y node : A).

(** ** Operations on the adjacency dictionary *)

Definition g_getitem g node : outcome (list A) := of_option KeyError (dict_get g node).
Definition g_nodes g : list A := dict_keys g.
Definition g_len g : nat := length g.
Definition g_contains g x : bool := dict_in g x.

Definition add_arc g x : graph A := dict_setdefault g x [].

Definition add_edge g x y : outcome (graph A) :=
  let! l := g_getitem g x in Ok (dict_set g x (l ++ [y])).

Definition connect g (g' : graph A) : graph A := dict_update g g'.

Definition update g (tups : list (A * list A)) : outcome (graph A) :=
  foldM (λ g '(x, deps), foldM (λ g dep, add_edge g x dep) g deps)
        (foldl (λ g '(x, _), add_arc g x) g tups) tups.

(** [DependencyGraph(it)] *)
Definition g_init (tups : list (A * list A)) : outcome (graph A) := update [] tups.

(** The nodes with at least one dependency *)
Definition edges g : list A := (filter (λ p : A * list A, p.2 ≠ []) g).*1.

(** [valency_of], which recurses without a memo: the fuel bounds the depth *)
Fixpoint valency_of (fuel : nat) g x : outcome Z :=
  match fuel with
  | O => Diverge
  | S fuel =>
      match dict_get g x with
      | None => Ok 0
      | Some l =>
          foldM (λ acc node, let! v := valency_of fuel g node in Ok (acc + v)) (Z.of_nat (length l)) l
      end
  end.

(** ** Kahn's algorithm *)

(** [count[x]] of a [Counter] *)
Definition count_get (c : pydict A Z) x : Z := default 0 (dict_get c x).
Definition count_add (c : pydict A Z) x (n : Z) : pydict A Z := dict_set c x (count_get c x + n).

Record khan_state := KhanState {
  k_ready : list A;
  k_result : list A;
  k_count : pydict A Z;
}.

Definition khan_count g : pydict A Z :=
  foldl (λ c p, foldl (λ c s, count_add c s 1) c p.2) [] g.

(** The body of [for successor in self[node]] *)
Definition khan_successor (st : khan_state) (s : A) : khan_state :=
  let c := count_add (k_count st) s (-1) in
  KhanState (if count_get c s =? 0 then k_ready st ++ [s] else k_ready st) (k_result st) c.

(** [while ready], popping from the end *)
Fixpoint khan_loop (fuel : nat) g (st : khan_state) : outcome khan_state :=
  match last (k_ready st) with
  | None => Ok st
  | Some node =>
      match fuel with
      | O => Diverge
      | S fuel =>
          let st' := KhanState (removelast (k_ready st)) (k_result st ++ [node]) (k_count st) in
          let! succs := g_getitem g node in
          khan_loop fuel g (foldl khan_successor st' succs)
      end
  end.

Definition khan62 g : outcome (list A) :=
  let count := khan_count g in
  let ready := filter (λ x, count_get count x = 0) (g_nodes g) in
  let! st := khan_loop (g_len g) g (KhanState ready [] count) in
  Ok (reverse (k_result st)).

(** ** Tarjan's algorithm *)

Record tarjan_state := TarjanState {
  t_result : list (list A);
  t_stack : list A;
  t_low : pydict A nat;
}.

Definition low_get (low : pydict A nat) x : outcome nat := of_option KeyError (dict_get low x).

(** [visit]; the fuel bounds the depth of the recursion *)
Fixpoint visit (fuel : nat) g (st : tarjan_state) node : outcome tarjan_state :=
  match fuel with
  | O => Diverge
  | S fuel =>
      if dict_in (t_low st) node then Ok st else
      let num := length (t_low st) in
      let stack_pos := length (t_stack st) in
      let st := TarjanState (t_result st) (t_stack st ++ [node]) (dict_set (t_low st) node num) in
      let! succs := g_getitem g node in
      let! st := foldM (λ st s,
        let! st := visit fuel g st s in
        let! a := low_get (t_low st) node in
        let! b := low_get (t_low st) s in
        Ok (TarjanState (t_result st) (t_stack st) (dict_set (t_low st) node (a `min` b)%nat))) st succs in
      let! low_node := low_get (t_low st) node in
      if (num =? low_node)%nat then
        let component := drop stack_pos (t_stack st) in
        Ok (TarjanState (t_result st ++ [component]) (take stack_pos (t_stack st))
              (foldl (λ low item, dict_set low item (g_len g)) (t_low st) component))
      else Ok st
  end.

Definition tarjan72 g : outcome (list (list A)) :=
  let! st := foldM (visit (S (g_len g)) g) (TarjanState [] [] []) (g_nodes g) in
  Ok (t_result st).
End Defs.

(** ** [topsort] *)

Section Topsort.
Context {A : Type} `{EqDecision A}.
Implicit Types (g : graph A) (x y node : A).

(** [NC]: the component of each node *)
Definition component_of (components : list (list A)) : pydict A (list A) :=
  foldl (λ nc c, foldl (λ nc node, dict_set nc node c) nc c) [] components.

(** The loop over the nodes and their successors *)
Definition component_edges g (NC : pydict A (list A)) (cg : graph (list A)) : outcome (graph (list A)) :=
  foldM (λ cg node,
    let! node_c := of_option KeyError (dict_get NC node) in
    let! succs := g_getitem g node in
    foldM (λ cg successor,
      let! successor_c := of_option KeyError (dict_get NC successor) in
      if bool_decide (node_c = successor_c) then Ok cg else add_edge cg node_c successor_c) cg succs)
    cg (g_nodes g).

Definition topsort g : outcome (list A) :=
  let! components := tarjan72 g in
  let NC := component_of components in
  let! cg := component_edges g NC (foldl add_arc [] components) in
  let! order := khan62 cg in
  foldM (λ acc t, match t with [] => Raise IndexError | x :: _ => Ok (acc ++ [x]) end) [] order.
End Topsort.

(** ** Vocabulary of the properties *)

Section Spec.
Context {A : Type} `{EqDecision A}.
Implicit Types (g : graph A) (x y : A).

(** [x] depends on [y] *)
Definition edge g x y : Prop := ∃ l, dict_get g x = Some l ∧ y ∈ l.
Definition closed g : Prop := ∀ x y, edge g x y → y ∈ g_nodes g.
Definition acyclic g : Prop := ∀ x, ¬ tc (edge g) x x.

(** Every node of [l] comes after all its dependencies. *)
Definition dependencies_first g (l : list A) : Prop :=
  ∀ l1 x l2, l = l1 ++ x :: l2 → ∀ y, edge g x y → y ∈ l1.
End Spec.

(** ** Building a graph *)

Section Build.
Context {A : Type} `{EqDecision A}.
Implicit Types (g : graph A) (x y : A).

Lemma add_edges_ok g x l deps :
  dict_get g x = Some l →
  foldM (λ g dep, add_edge g x dep) g deps = Ok (dict_set g x (l ++ deps)).
Proof.
  revert g l. induction deps as [|y deps IH]; intros g l Hl; simpl.
  { by rewrite app_nil_r, dict_set_same. }
  unfold add_edge at 1, g_getitem. rewrite Hl. simpl.
  rewrite (IH _ (l ++ [y])) by apply dict_get_set_eq. by rewrite dict_set_set, <-app_assoc.
Qed.

(** A graph built from tuples with distinct objects holds exactly these. *)
Lemma g_init_distinct (tups : list (A * list A)) : NoDup tups.*1 → g_init tups = Ok tups.
Proof.
  intros Hnd. unfold g_init, update.
  assert (∀ l g, NoDup (dict_keys g ++ l.*1) →
    foldl (λ g '(x, _), add_arc g x) g l = g ++ ((λ p : A * list A, (p.1, [])) <$> l)) as Harcs.
  { induction l as [|[x deps] l IH]; intros g; simpl; [by rewrite !app_nil_r|]. intros Hg.
    assert (x ∉ dict_keys g) as Hx by (apply NoDup_app in Hg as (_ & Hd & _); set_solver).
    unfold add_arc at 2, dict_setdefault. rewrite (proj2 (dict_get_None _ _) Hx), dict_set_keys_notin by done.
    rewrite IH, <-app_assoc; [done|]. unfold dict_keys. rewrite fmap_app, <-app_assoc. done. }
  rewrite Harcs by done. rewrite app_nil_l. clear Harcs.
  assert (∀ l2 l1 : list (A * list A), NoDup (l1 ++ l2).*1 →
    foldM (λ g '(x, deps), foldM (λ g dep, add_edge g x dep) g deps)
      (l1 ++ ((λ p, (p.1, [])) <$> l2)) l2 = Ok (l1 ++ l2)) as H; [|by apply (H tups [])].
  induction l2 as [|[x deps] l2 IH]; intros l1; [done|]. intros Hl. cbn [foldM].
  rewrite fmap_app, NoDup_app in Hl. destruct Hl as (Hn1 & Hd & Hn2).
  assert (x ∉ dict_keys l1) as Hx by (intros Hin; apply (Hd x Hin); set_solver).
  rewrite (add_edges_ok _ _ []); [|rewrite dict_get_app_r by done; simpl; by rewrite decide_True].
  cbn [obind]. rewrite dict_set_app_r by done. simpl. rewrite decide_True by done.
  specialize (IH (l1 ++ [(x, deps)])). rewrite <-!app_assoc in IH. apply IH.
  rewrite fmap_app, NoDup_app. done.
Qed.
End Build.

(** ** Kahn's algorithm *)

Section Khan.
Context {A : Type} `{EqDecision A}.
Implicit Types (g : graph A) (x y s : A) (P todo : list A) (st : @khan_state A).

(** How often [x] occurs in [l] *)
Definition occ x (l : list A) : Z := Z.of_nat (length (filter (x =.) l)).

Lemma occ_nil x : occ x [] = 0.
Proof. done. Qed.

Lemma occ_cons x y l : occ x (y :: l) = (if decide (x = y) then 1 else 0) + occ x l.
Proof. unfold occ. rewrite filter_cons. case_decide; simpl; lia. Qed.

Lemma occ_app x l1 l2 : occ x (l1 ++ l2) = occ x l1 + occ x l2.
Proof. unfold occ. rewrite filter_app, length_app. lia. Qed.

Lemma occ_nonneg x l : 0 <= occ x l.
Proof. unfold occ. lia. Qed.

Lemma occ_zero x l : occ x l = 0 ↔ x ∉ l.
Proof.
  induction l as [|y l IH]; [set_solver|]. rewrite occ_cons, elem_of_cons.
  pose proof (occ_nonneg x l). case_decide; [split; [lia|tauto]|]. rewrite Z.add_0_l, IH. tauto.
Qed.

Lemma occ_perm x l l' : l ≡ₚ l' → occ x l = occ x l'.
Proof. intros Hp. unfold occ. by rewrite Hp. Qed.

(** The edges into [x] that leave the nodes of [P], with multiplicity *)
Definition succs g y : list A := default [] (dict_get g y).
Definition pending g P x : Z := occ x (P ≫= succs g).

Lemma edge_succs g x y : edge g x y ↔ y ∈ succs g x.
Proof.
  unfold edge, succs. destruct (dict_get g x) as [l|]; simpl; [naive_solver|].
  rewrite elem_of_nil. naive_solver.
Qed.

Lemma pending_cons g y P x : pending g (y :: P) x = occ x (succs g y) + pending g P x.
Proof. unfold pending. simpl. apply occ_app. Qed.

Lemma pending_perm g P P' x : P ≡ₚ P' → pending g P x = pending g P' x.
Proof. intros Hp. unfold pending. apply occ_perm. by rewrite Hp. Qed.

Lemma pending_zero g P x : pending g P x = 0 ↔ ∀ y, y ∈ P → ¬ edge g y x.
Proof.
  unfold pending. rewrite occ_zero, list_elem_of_bind. setoid_rewrite edge_succs. naive_solver.
Qed.

Lemma count_get_add c x y n :
  count_get (count_add c x n) y = count_get c y + (if decide (y = x) then n else 0).
Proof.
  unfold count_get at 1, count_add. rewrite dict_get_set.
  repeat case_decide; subst; simpl; try done; unfold count_get; lia.
Qed.

Lemma khan_count_spec g x : dict_wf g → count_get (khan_count g) x = pending g (g_nodes g) x.
Proof.
  unfold khan_count, pending, g_nodes. intros Hwf.
  assert (∀ l c, count_get (foldl (λ c s, count_add c s 1) c l) x = count_get c x + occ x l) as Hin.
  { induction l as [|s l IH]; intros c; simpl; [rewrite occ_nil; lia|].
    rewrite IH, count_get_add, occ_cons. repeat case_decide; congruence || lia. }
  assert (∀ (d : graph A) c, (∀ y l, (y, l) ∈ d → dict_get g y = Some l) →
    count_get (foldl (λ c p, foldl (λ c s, count_add c s 1) c p.2) c d) x
    = count_get c x + occ x (dict_keys d ≫= succs g)) as H.
  { induction d as [|[y l] d IH]; intros c Hd; simpl; [rewrite occ_nil; lia|].
    rewrite IH by set_solver. rewrite Hin, occ_app. unfold succs at 2. rewrite (Hd y l) by set_solver.
    unfold mbind. simpl. lia. }
  rewrite H; [done|]. intros y l. by apply dict_elem_get.
Qed.

(** The state of the algorithm when the edges out of [P] and the edges to
    [todo] have not been removed yet: [x] is ready or done exactly when no edge
    into it is left. *)
Record khan_inv g P todo st : Prop := {
  ki_nodup : NoDup (k_ready st ++ k_result st);
  ki_nodes : P ++ k_result st ≡ₚ g_nodes g;
  ki_ready : ∀ x, x ∈ k_ready st → x ∈ P;
  ki_count : ∀ x, count_get (k_count st) x = pending g P x + occ x todo;
  ki_zero : ∀ x, x ∈ g_nodes g → (count_get (k_count st) x = 0 ↔ x ∈ k_ready st ++ k_result st);
}.

Lemma khan_successor_inv g P s todo st :
  s ∈ g_nodes g → khan_inv g P (s :: todo) st → khan_inv g P todo (khan_successor st s).
Proof.
  intros Hs [Hnd Hnodes Hready Hcount Hzero].
  assert (s ∉ k_ready st ++ k_result st) as Hnew.
  { rewrite <-Hzero by done. rewrite Hcount, occ_cons, decide_True by done.
    pose proof (occ_nonneg s todo). pose proof (occ_nonneg s (P ≫= succs g)). unfold pending. lia. }
  assert (∀ x, count_get (count_add (k_count st) s (-1)) x = pending g P x + occ x todo) as Hc.
  { intros x. rewrite count_get_add, Hcount, occ_cons. repeat case_decide; congruence || lia. }
  unfold khan_successor. split; simpl; [| |..]; [|done| |done|].
  - case_ifs; [|done]. rewrite <-app_assoc. simpl.
    rewrite <-(Permutation_middle (k_ready st) (k_result st) s), NoDup_cons. done.
  - intros x. case_ifs; [|auto]. rewrite elem_of_app, list_elem_of_singleton. intros [?| ->]; [auto|].
    assert (s ∈ P ++ k_result st) as [?|?]%elem_of_app by (by rewrite Hnodes); set_solver.
  - intros x Hx. rewrite Hc. destruct (decide (x = s)) as [->|Hne].
    + rewrite Hc. destruct (Z.eqb_spec (pending g P s + occ s todo) 0) as [E|E]; [set_solver|].
      split; [done|]. set_solver.
    + specialize (Hzero x Hx). rewrite Hcount, occ_cons, decide_False in Hzero by done.
      rewrite Z.add_0_l in Hzero. rewrite Hzero. case_ifs; set_solver.
Qed.

Lemma khan_successors_inv g P todo st :
  (∀ s, s ∈ todo → s ∈ g_nodes g) → khan_inv g P todo st →
  khan_inv g P [] (foldl khan_successor st todo) ∧
  k_result (foldl khan_successor st todo) = k_result st.
Proof.
  revert st. induction todo as [|s todo IH]; intros st Hs Hinv; simpl; [done|].
  destruct (IH (khan_successor st s)) as [H1 H2]; [set_solver|apply khan_successor_inv; set_solver|].
  split; [done|]. by rewrite H2.
Qed.

(** In the order in which nodes are handled, dependents precede. *)
Definition dependents_first g (l : list A) : Prop :=
  ∀ l1 x l2, l = l1 ++ x :: l2 → ∀ y, edge g y x → y ∈ l1.

Lemma dependents_first_snoc g l x :
  dependents_first g l → (∀ y, edge g y x → y ∈ l) → dependents_first g (l ++ [x]).
Proof.
  intros Hl Hx l1 z l2 Heq y Hy. destruct l2 as [|z' l2 _] using rev_ind.
  - apply app_inj_tail in Heq as [-> ->]. auto.
  - rewrite app_comm_cons, app_assoc in Heq. apply app_inj_tail in Heq as [-> _]. eapply Hl; eauto.
Qed.

Lemma khan_loop_spec g fuel P st :
  dict_wf g → closed g → (length P ≤ fuel)%nat →
  khan_inv g P [] st → dependents_first g (k_result st) →
  ∃ P' st', khan_loop fuel g st = Ok st' ∧ k_ready st' = [] ∧
    khan_inv g P' [] st' ∧ dependents_first g (k_result st').
Proof.
  intros Hwf Hcl. revert P st. induction fuel as [|fuel IH]; intros P st HP Hinv Hord; simpl.
  { destruct P; simpl in HP; [|lia].
    destruct (k_ready st) as [|x r _] eqn:E using rev_ind; simpl; [eauto 10|].
    exfalso. apply (elem_of_nil x). apply (ki_ready _ _ _ _ Hinv). rewrite E. set_solver. }
  destruct (k_ready st) as [|node r _] eqn:E using rev_ind; simpl; [eauto 10|].
  rewrite last_snoc, removelast_last.
  destruct Hinv as [Hnd Hnodes Hready Hcount Hzero]. rewrite E in *.
  assert (node ∈ P) as HnP by (apply Hready; set_solver).
  apply elem_of_Permutation in HnP as [P' HP'].
  assert (node ∈ g_nodes g) as Hng by (rewrite <-Hnodes, HP'; set_solver).
  unfold g_getitem. destruct (dict_get g node) as [l|] eqn:El;
    [|by apply dict_get_None in El]. simpl.
  set (st' := KhanState r (k_result st ++ [node]) (k_count st)).
  assert (∀ y, edge g y node → y ∈ k_result st) as Hpred.
  { intros y Hy. assert (pending g P node = 0) as Hp0.
    { rewrite <-(Z.add_0_r (pending g P node)), <-(occ_nil node), <-Hcount. apply Hzero; set_solver. }
    rewrite pending_zero in Hp0. assert (y ∈ P ++ k_result st) as [?|?]%elem_of_app; [|naive_solver|done].
    rewrite Hnodes. destruct Hy as (l' & Hl' & _).
    destruct (decide (y ∈ g_nodes g)) as [|Hny%dict_get_None]; [done|congruence]. }
  destruct (khan_successors_inv g P' l st') as [Hinv' Hres'].
  { intros s Hs. apply (Hcl node). exists l. done. }
  { split; simpl.
    - by rewrite (Permutation_app_comm (k_result st) [node]), app_assoc.
    - rewrite app_assoc, (Permutation_app_comm _ [node]). simpl. rewrite <-Hnodes, HP'. done.
    - intros x Hx. assert (x ∈ P) as Hin by (apply Hready; set_solver).
      rewrite HP' in Hin. apply elem_of_cons in Hin as [->|?]; [|done].
      exfalso. rewrite <-app_assoc, NoDup_app in Hnd. destruct Hnd as (_ & Hd & _). apply (Hd node); set_solver.
    - intros x. rewrite Hcount, occ_nil, (pending_perm _ _ _ _ HP'), pending_cons.
      unfold succs. rewrite El. simpl. lia.
    - intros x Hx. rewrite Hzero by done. set_solver. }
  apply (IH P'); [apply Permutation_length in HP'; simpl in *; lia|done|].
  rewrite Hres'. simpl. by apply dependents_first_snoc.
Qed.

Lemma khan_start_inv g :
  dict_wf g →
  khan_inv g (g_nodes g) []
    (KhanState (filter (λ x, count_get (khan_count g) x = 0) (g_nodes g)) [] (khan_count g)).
Proof.
  intros Hwf. split; simpl.
  - rewrite app_nil_r. by apply NoDup_filter.
  - by rewrite app_nil_r.
  - intros x. rewrite list_elem_of_filter. tauto.
  - intros x. rewrite khan_count_spec, occ_nil by done. lia.
  - intros x Hx. rewrite app_nil_r, list_elem_of_filter. tauto.
Qed.

(** On every graph whose edges lead to nodes of the graph, Kahn's loop ends; a
    node is left out only when a cycle of dependents keeps it from becoming
    ready. *)
Lemma khan62_spec g :
  dict_wf g → closed g →
  ∃ l P, khan62 g = Ok l ∧ l ++ P ≡ₚ g_nodes g ∧ dependents_first g (reverse l) ∧
    ∀ x, x ∈ P → ∃ y, y ∈ P ∧ edge g y x.
Proof.
  intros Hwf Hcl. unfold khan62.
  edestruct (khan_loop_spec g (g_len g) (g_nodes g)) as (P & st & Hrun & Hr & Hinv & Hord);
    [done|done| |by apply khan_start_inv|..].
  { unfold g_nodes, dict_keys, g_len. by rewrite length_fmap. }
  { intros l1 x l2 Hnil. by destruct l1. }
  rewrite Hrun. simpl. exists (reverse (k_result st)), P. rewrite reverse_involutive.
  destruct Hinv as [Hnd Hnodes _ Hcount Hzero]. rewrite Hr in *. split_and!; [done| |done|].
  { by rewrite reverse_Permutation, Permutation_app_comm. }
  intros x Hx. assert (NoDup (P ++ k_result st)) as HndP by (by rewrite Hnodes).
  apply NoDup_app in HndP as (_ & Hdisj & _).
  assert (x ∈ g_nodes g) as Hxg by (rewrite <-Hnodes; set_solver).
  assert (pending g P x ≠ 0) as Hp.
  { intros Hp. eapply Hdisj; [done|]. rewrite <-(app_nil_l (k_result st)). rewrite <-Hzero by done.
    by rewrite Hcount, Hp, occ_nil. }
  unfold pending in Hp. rewrite occ_zero in Hp.
  destruct (decide (x ∈ P ≫= succs g)) as [Hin|]; [|done].
  apply list_elem_of_bind in Hin as (y & Hy & Hyp). exists y. by rewrite edge_succs.
Qed.

Lemma edge_source g x y : edge g x y → x ∈ g_nodes g.
Proof.
  intros (l & Hl & _). destruct (decide (x ∈ g_nodes g)) as [|Hn%dict_get_None]; [done|congruence].
Qed.

Lemma tc_edge_flip g x y : tc (flip (edge g)) x y → tc (edge g) y x.
Proof. induction 1 as [x y Hxy|x y z Hxy _ IH]; [by apply tc_once|]. eapply tc_r; eauto. Qed.

Lemma tc_edge_source g x y : tc (edge g) x y → x ∈ g_nodes g.
Proof. destruct 1; eauto using edge_source. Qed.

(** An acyclic graph has no infinite chain of dependents. *)
Lemma acyclic_sn_flip g x : acyclic g → sn (flip (edge g)) x.
Proof.
  intros Hac. apply tc_finite_sn.
  - intros y Hy%tc_edge_flip. by apply (Hac y).
  - exists (g_nodes g). intros y Hy%tc_edge_flip. eauto using tc_edge_source.
Qed.

Lemma khan62_acyclic g :
  dict_wf g → closed g → acyclic g →
  ∃ l, khan62 g = Ok l ∧ l ≡ₚ g_nodes g ∧ dependencies_first g l.
Proof.
  intros Hwf Hcl Hac. destruct (khan62_spec g Hwf Hcl) as (l & P & Hrun & Hperm & Hord & HP).
  assert (P = []) as ->.
  { destruct P as [|x P']; [done|]. exfalso.
    assert (∀ z, sn (flip (edge g)) z → z ∉ x :: P') as Hno.
    { induction 1 as [z _ IH]. intros (y & Hy & Hyz)%HP. by apply (IH y). }
    apply (Hno x); [by apply acyclic_sn_flip|set_solver]. }
  rewrite app_nil_r in Hperm. exists l. split_and!; [done|done|].
  intros l1 x l2 Heq y Hxy.
  assert (y ∈ l) as Hy by (rewrite Hperm; by eapply Hcl).
  assert (NoDup l) as Hnd by (by rewrite Hperm).
  subst l. apply elem_of_app in Hy as [?|Hy]; [done|]. exfalso.
  apply elem_of_cons in Hy as [->|Hy]; [by apply (Hac x), tc_once|].
  apply list_elem_of_split in Hy as (l3 & l4 & ->).
  assert (x ∈ reverse l4) as Hx.
  { eapply (Hord _ y (reverse l3 ++ x :: reverse l1)); [|done].
    rewrite !reverse_app, !reverse_cons, !reverse_app, !reverse_cons, <-!app_assoc. done. }
  rewrite elem_of_reverse in Hx. apply NoDup_app in Hnd as (_ & _ & [Hnx _]%NoDup_cons). set_solver.
Qed.
End Khan.

(** ** Tarjan's algorithm on acyclic graphs *)

Section Tarjan.
Context {A : Type} `{EqDecision A}.
Context (g : graph A) (Hwf : dict_wf g) (Hclosed : closed g) (Hacyclic : acyclic g).
Implicit Types (x y node : A) (l : list A) (st : @tarjan_state A).

(** Visited nodes are on the stack or have been assigned to a component. *)
Record low_ok st : Prop := {
  lo_wf : dict_wf (t_low st);
  lo_nodes : ∀ x, x ∈ dict_keys (t_low st) → x ∈ g_nodes g;
  lo_settled : ∀ x, x ∈ dict_keys (t_low st) → x ∈ t_stack st ∨ dict_get (t_low st) x = Some (g_len g);
}.

(** From [st] to [st'] exactly the nodes [l] were visited, each of them a
    component of its own. *)
Record visited st l st' : Prop := {
  v_result : t_result st' = t_result st ++ ((λ x, [x]) <$> l);
  v_stack : t_stack st' = t_stack st;
  v_keys : dict_keys (t_low st') ≡ₚ l ++ dict_keys (t_low st);
  v_low : ∀ x, dict_get (t_low st') x = if decide (x ∈ l) then Some (g_len g) else dict_get (t_low st) x;
  v_ok : low_ok st';
}.

Lemma visited_refl st : low_ok st → visited st [] st.
Proof. intros Hst. split; try done. by rewrite app_nil_r. Qed.

Lemma visited_trans st1 l1 st2 l2 st3 :
  visited st1 l1 st2 → visited st2 l2 st3 → visited st1 (l1 ++ l2) st3.
Proof.
  intros [Hr1 Hs1 Hk1 Hl1 _] [Hr2 Hs2 Hk2 Hl2 Hok]. split; [| | | |done].
  - by rewrite Hr2, Hr1, fmap_app, app_assoc.
  - by rewrite Hs2.
  - rewrite Hk2, Hk1, app_assoc, (Permutation_app_comm l2). done.
  - intros x. rewrite Hl2, Hl1. repeat case_decide; set_solver.
Qed.

Lemma visited_keys st l st' x : visited st l st' → x ∈ dict_keys (t_low st) → x ∈ dict_keys (t_low st').
Proof. intros [_ _ Hk _ _] Hx. rewrite Hk. set_solver. Qed.

Lemma visited_length st l st' :
  visited st l st' → length (t_low st') = (length l + length (t_low st))%nat.
Proof.
  intros [_ _ Hk%Permutation_length _ _]. unfold dict_keys in Hk. by rewrite length_app, !length_fmap in Hk.
Qed.

(** A node that was visited before keeps its value. *)
Lemma visited_get st l st' x :
  visited st l st' → x ∈ dict_keys (t_low st) → dict_get (t_low st') x = dict_get (t_low st) x.
Proof.
  intros [_ _ Hk Hl Hok] Hx. rewrite Hl, decide_False; [done|]. intros Hin.
  pose proof (lo_wf _ Hok) as Hnd. unfold dict_wf in Hnd. rewrite Hk in Hnd.
  apply NoDup_app in Hnd as (_ & Hd & _). by apply (Hd x).
Qed.

Lemma low_ok_length st : low_ok st → (length (t_low st) ≤ g_len g)%nat.
Proof.
  intros [Hlwf Hn _]. unfold g_len.
  rewrite <-(length_fmap fst (t_low st)), <-(length_fmap fst g).
  apply submseteq_length, NoDup_submseteq; [done|]. intros x Hx. by apply Hn.
Qed.

Lemma low_ok_length_lt st node :
  low_ok st → node ∈ g_nodes g → node ∉ dict_keys (t_low st) → (length (t_low st) < g_len g)%nat.
Proof.
  intros [Hlwf Hn _] Hnode Hnew. unfold g_len.
  rewrite <-(length_fmap fst (t_low st)), <-(length_fmap fst g). apply (submseteq_length (node :: _)).
  apply NoDup_submseteq; [by apply NoDup_cons|]. intros x [->|Hx]%elem_of_cons; [done|]. by apply Hn.
Qed.

(** The state in which the successors of a new [node] are visited *)
Definition entered st node : tarjan_state :=
  TarjanState (t_result st) (t_stack st ++ [node]) (dict_set (t_low st) node (length (t_low st))).

Lemma entered_ok st node :
  low_ok st → node ∈ g_nodes g → node ∉ dict_keys (t_low st) → low_ok (entered st node).
Proof.
  intros [Hlwf Hn Hset] Hnode Hnew. split; simpl.
  - by apply dict_set_wf.
  - intros x [->|?]%elem_of_dict_keys_set; auto.
  - intros x Hx. rewrite elem_of_app, list_elem_of_singleton. apply elem_of_dict_keys_set in Hx.
    destruct (decide (x = node)) as [->|Hne]; [tauto|]. rewrite dict_get_set_ne by done. naive_solver.
Qed.

(** The body of the loop over the successors of [node] *)
Definition visit_successor (fuel : nat) node st s : outcome tarjan_state :=
  let! st := visit fuel g st s in
  let! a := low_get (t_low st) node in
  let! b := low_get (t_low st) s in
  Ok (TarjanState (t_result st) (t_stack st) (dict_set (t_low st) node (a `min` b)%nat)).

Definition visit_spec (fuel : nat) : Prop := ∀ st node,
  low_ok st → node ∈ g_nodes g → (∀ s, s ∈ t_stack st → tc (edge g) s node) →
  (g_len g - length (t_low st) < fuel)%nat →
  ∃ st' l, visit fuel g st node = Ok st' ∧ visited st l st' ∧ dict_get (t_low st') node = Some (g_len g).

Lemma visit_successors_ok fuel node num todo st :
  visit_spec fuel → low_ok st → (g_len g - length (t_low st) < fuel)%nat → (num ≤ g_len g)%nat →
  dict_get (t_low st) node = Some num →
  (∀ s, s ∈ todo → edge g node s) → (∀ s, s ∈ t_stack st → s = node ∨ tc (edge g) s node) →
  ∃ st' l, foldM (visit_successor fuel node) st todo = Ok st' ∧ visited st l st'.
Proof.
  intros Hspec. revert st. induction todo as [|s todo IH]; intros st Hok Hfuel Hnum Hlow Htodo Hstack; simpl.
  { eauto using visited_refl. }
  assert (edge g node s) as Hs by set_solver.
  destruct (Hspec st s) as (st1 & l1 & Hrun & Hv & Hget); [done|by eapply Hclosed| |done|].
  { intros z [->|Hz]%Hstack; [by apply tc_once|by eapply tc_r]. }
  assert (node ∈ dict_keys (t_low st)) as Hin.
  { apply dict_in_true. unfold dict_in. by rewrite Hlow. }
  assert (dict_get (t_low st1) node = Some num) as Hlow1 by (by rewrite (visited_get _ _ _ _ Hv)).
  unfold visit_successor at 1. rewrite Hrun. simpl. unfold low_get. rewrite Hlow1, Hget. simpl.
  rewrite Nat.min_l, dict_set_same by done.
  destruct (IH st1) as (st2 & l2 & Hrun2 & Hv2); [apply Hv| |done|done|set_solver| |].
  { rewrite (visited_length _ _ _ Hv). lia. }
  { rewrite (v_stack _ _ _ Hv). done. }
  exists st2, (l1 ++ l2). split; [|by eapply visited_trans]. destruct st1. done.
Qed.

(** Leaving [node] pops it off the stack as a component of its own. *)
Lemma visited_leave st node l st1 :
  low_ok st → node ∈ g_nodes g → node ∉ dict_keys (t_low st) → visited (entered st node) l st1 →
  visited st (l ++ [node])
    (TarjanState (t_result st1 ++ [[node]]) (t_stack st) (dict_set (t_low st1) node (g_len g))).
Proof.
  intros Hok Hnode Hnew Hv. pose proof Hv as [Hr Hs Hk Hl [Hwf1 Hn1 Hset1]]. simpl in *.
  assert (node ∈ dict_keys (t_low st1)) as Hin.
  { eapply visited_keys; [done|]. apply elem_of_dict_keys_set. by left. }
  split; simpl.
  - by rewrite Hr, fmap_app, app_assoc.
  - done.
  - rewrite dict_set_keys_in, Hk, dict_set_keys_notin by done. unfold dict_keys at 1.
    rewrite fmap_app, <-app_assoc. f_equiv. apply (Permutation_app_comm _ [node]).
  - intros x. rewrite dict_get_set, Hl, dict_get_set. repeat case_decide; set_solver.
  - split; simpl; [by apply dict_set_wf|intros x [->|?]%elem_of_dict_keys_set; auto|].
    intros x Hx. rewrite dict_get_set. case_decide; [by right|].
    destruct (Hset1 x) as [Hin1|?]; [|rewrite Hs in Hin1; set_solver|by right].
    apply elem_of_dict_keys_set in Hx. naive_solver.
Qed.

Lemma visit_ok fuel : visit_spec fuel.
Proof.
  induction fuel as [|fuel IH]; intros st node Hok Hnode Hstack Hfuel; [lia|]. simpl.
  destruct (dict_in (t_low st) node) eqn:Ein.
  { apply dict_in_true in Ein. exists st, []. split_and!; [done|by apply visited_refl|].
    destruct (lo_settled _ Hok _ Ein) as [Hin|?]; [|done]. by apply Hstack, Hacyclic in Hin. }
  assert (node ∉ dict_keys (t_low st)) as Hnew by (rewrite <-dict_in_true, Ein; done).
  pose proof (low_ok_length_lt _ _ Hok Hnode Hnew) as Hlt.
  unfold g_getitem. destruct (dict_get g node) as [todo|] eqn:Eg; [|by apply dict_get_None in Eg].
  simpl. fold (entered st node) (visit_successor fuel node).
  destruct (visit_successors_ok fuel node (length (t_low st)) todo (entered st node))
    as (st1 & l & Hrun & Hv); [done|by apply entered_ok| |lia| | | |].
  { simpl. rewrite length_dict_set_new by done. lia. }
  { apply dict_get_set_eq. }
  { intros s Hs. by exists todo. }
  { simpl. intros s [?|?]%elem_of_app; [right; auto|left; set_solver]. }
  rewrite Hrun. simpl. unfold low_get.
  rewrite (visited_get _ _ _ _ Hv) by (apply elem_of_dict_keys_set; by left).
  simpl. rewrite dict_get_set_eq. simpl. rewrite Nat.eqb_refl, (v_stack _ _ _ Hv). simpl.
  rewrite drop_app_length, take_app_length. simpl.
  eexists _, (l ++ [node]). split_and!; [done|by apply visited_leave|]. simpl. apply dict_get_set_eq.
Qed.

(** Every component has a single node, and the components cover the graph. *)
Lemma tarjan72_acyclic :
  ∃ l, tarjan72 g = Ok ((λ x, [x]) <$> l) ∧ l ≡ₚ g_nodes g.
Proof.
  assert (∀ todo st, low_ok st → t_stack st = [] → (∀ x, x ∈ todo → x ∈ g_nodes g) →
    ∃ st' l, foldM (visit (S (g_len g)) g) st todo = Ok st' ∧ visited st l st' ∧
      ∀ x, x ∈ todo → x ∈ dict_keys (t_low st')) as H.
  { induction todo as [|node todo IH]; intros st Hok Hst Hin; cbn [foldM].
    { exists st, []. split_and!; [done|by apply visited_refl|set_solver]. }
    destruct (visit_ok (S (g_len g)) st node) as (st1 & l1 & -> & Hv & Hget);
      [done|set_solver|rewrite Hst; set_solver|lia|]. cbn [obind].
    destruct (IH st1) as (st2 & l2 & -> & Hv2 & Hc); [apply Hv|by rewrite (v_stack _ _ _ Hv)|set_solver|].
    exists st2, (l1 ++ l2). split_and!; [done|by eapply visited_trans|].
    intros x [->|?]%elem_of_cons; [|auto]. eapply visited_keys; [done|].
    apply dict_in_true. unfold dict_in. by rewrite Hget. }
  destruct (H (g_nodes g) (TarjanState [] [] [])) as (st & l & Hrun & [Hr _ Hk _ Hok] & Hc); [|done|done|].
  { split; simpl; [constructor|set_solver|set_solver]. }
  unfold tarjan72. rewrite Hrun. simpl. exists l. split; [by rewrite Hr|].
  simpl in Hk. rewrite app_nil_r in Hk. apply NoDup_Permutation; [rewrite <-Hk; apply Hok|done|].
  intros x. rewrite <-Hk. split; [apply Hok|apply Hc].
Qed.
End Tarjan.

(** ** The component graph of an acyclic graph *)

Section TopsortProps.
Context {A : Type} `{EqDecision A}.
Context (g : graph A) (Hwf : dict_wf g) (Hclosed : closed g) (Hacyclic : acyclic g).
Implicit Types (x y node : A) (l : list A) (cg : graph (list A)).

Abbreviation singletons l := ((λ x, [x]) <$> l).

Lemma elem_of_singletons x l : [x] ∈ singletons l ↔ x ∈ l.
Proof. rewrite list_elem_of_fmap. naive_solver. Qed.

Lemma component_of_singletons l x : x ∈ l → dict_get (component_of (singletons l)) x = Some [x].
Proof.
  unfold component_of. generalize (@nil (A * list A)) as nc.
  induction l as [|y l IH] using rev_ind; intros nc; [set_solver|].
  rewrite fmap_app, foldl_app. simpl. rewrite elem_of_app, list_elem_of_singleton, dict_get_set.
  case_decide; [by subst|]. naive_solver.
Qed.

Lemma add_arcs_keys l cg :
  NoDup (dict_keys cg ++ singletons l) →
  foldl add_arc cg (singletons l) = cg ++ ((λ x, ([x], [])) <$> l).
Proof.
  revert cg. induction l as [|x l IH]; intros cg; simpl; [by rewrite !app_nil_r|]. intros Hnd.
  assert ([x] ∉ dict_keys cg) as Hx.
  { apply NoDup_app in Hnd as (_ & Hd & _). intros Hin. eapply Hd; [done|]. set_solver. }
  unfold add_arc at 2. unfold dict_setdefault. rewrite (proj2 (dict_get_None _ _) Hx).
  rewrite dict_set_keys_notin by done. rewrite IH, <-app_assoc; [done|].
  unfold dict_keys. rewrite fmap_app, <-app_assoc. done.
Qed.

Definition component_edge (NC : pydict A (list A)) (node_c : list A) cg y : outcome (graph (list A)) :=
  let! successor_c := of_option KeyError (dict_get NC y) in
  if bool_decide (node_c = successor_c) then Ok cg else add_edge cg node_c successor_c.

Lemma component_edges_of_node NC x ys cg (cs : list (list A)) :
  dict_get cg [x] = Some cs →
  (∀ y, y ∈ ys → dict_get NC y = Some [y] ∧ x ≠ y) →
  foldM (component_edge NC [x]) cg ys = Ok (dict_set cg [x] (cs ++ singletons ys)).
Proof.
  revert cg cs. induction ys as [|y ys IH]; intros cg cs Hcg Hys; simpl.
  { by rewrite app_nil_r, dict_set_same. }
  destruct (Hys y) as [HNC Hne]; [set_solver|]. unfold component_edge at 1. rewrite HNC. simpl.
  rewrite bool_decide_eq_false_2 by congruence. unfold add_edge, g_getitem. rewrite Hcg. simpl.
  rewrite (IH _ (cs ++ [[y]])); [|apply dict_get_set_eq|set_solver].
  rewrite dict_set_set, <-app_assoc. done.
Qed.

Lemma component_edges_ok NC todo cg :
  (∀ x, x ∈ g_nodes g → dict_get NC x = Some [x]) →
  NoDup todo → (∀ x, x ∈ todo → x ∈ g_nodes g ∧ dict_get cg [x] = Some []) →
  ∃ cg', foldM (λ cg node,
      let! node_c := of_option KeyError (dict_get NC node) in
      let! ys := g_getitem g node in foldM (component_edge NC node_c) cg ys) cg todo = Ok cg' ∧
    dict_keys cg' = dict_keys cg ∧
    (∀ x, x ∈ todo → dict_get cg' [x] = Some (singletons (succs g x))) ∧
    (∀ c, c ∉ singletons todo → dict_get cg' c = dict_get cg c).
Proof.
  intros HNC Hnd. revert cg. induction Hnd as [|x todo Hx Hnd IH]; intros cg Htodo; simpl.
  { exists cg. set_solver. }
  destruct (Htodo x) as [Hxg Hxcg]; [set_solver|]. rewrite HNC by done. cbn [of_option obind].
  unfold g_getitem at 1. destruct (dict_get g x) as [ys|] eqn:Eg; [|by apply dict_get_None in Eg].
  cbn [of_option obind].
  assert (∀ y, y ∈ ys → edge g x y) as Hys by (intros y ?; by exists ys).
  rewrite (component_edges_of_node NC x ys cg []); [|done|].
  2:{ intros y Hy. split; [by eapply HNC, Hclosed, Hys|]. intros ->. eapply Hacyclic, tc_once. by apply Hys. }
  cbn [obind]. rewrite app_nil_l. destruct (IH (dict_set cg [x] (singletons ys))) as (cg' & -> & Hkeys & Hin & Hout).
  { intros y Hy. rewrite dict_get_set_ne by (intros [= ->]; done). apply Htodo. set_solver. }
  exists cg'. split; [done|]. split; [|split].
  - rewrite Hkeys. apply dict_set_keys_in. apply dict_in_true. unfold dict_in. by rewrite Hxcg.
  - intros y [->|?]%elem_of_cons; [|auto]. rewrite Hout by (by rewrite elem_of_singletons).
    rewrite dict_get_set_eq. unfold succs. by rewrite Eg.
  - intros c Hc. rewrite Hout by set_solver. apply dict_get_set_ne. set_solver.
Qed.

(** The component graph is the graph itself, up to the names of the nodes. *)
Lemma component_graph l :
  l ≡ₚ g_nodes g →
  ∃ cg, component_edges g (component_of (singletons l)) (foldl add_arc [] (singletons l)) = Ok cg ∧
    dict_keys cg = singletons l ∧
    ∀ c d, edge cg c d ↔ ∃ x y, c = [x] ∧ d = [y] ∧ edge g x y.
Proof.
  intros Hl. assert (NoDup (singletons l)) as Hnd.
  { apply NoDup_fmap; [|by rewrite Hl]. intros ?? [= ->]. done. }
  rewrite add_arcs_keys by done. simpl.
  set (cg0 := (λ x, ([x], [])) <$> l : graph (list A)).
  assert (dict_keys cg0 = singletons l) as Hk0 by (unfold dict_keys, cg0; by rewrite <-list_fmap_compose).
  assert (∀ c ys, dict_get cg0 c = Some ys → ys = []) as Hempty.
  { intros c ys Hc%dict_get_Some_elem. unfold cg0 in Hc. apply list_elem_of_fmap in Hc. naive_solver. }
  destruct (component_edges_ok (component_of (singletons l)) (g_nodes g) cg0)
    as (cg & Hrun & Hkeys & Hin & Hout); [|done| |].
  { intros x Hx. apply component_of_singletons. by rewrite Hl. }
  { intros x Hx. split; [done|]. destruct (dict_get cg0 [x]) as [ys|] eqn:E; [by rewrite (Hempty _ _ E)|].
    apply dict_get_None in E. destruct E. rewrite Hk0, elem_of_singletons, Hl. done. }
  exists cg. split_and!; [done|by rewrite Hkeys|]. intros c d. split.
  - intros (ys & Hc & Hd). destruct (decide (c ∈ singletons (g_nodes g))) as [Hcs|Hcs].
    + apply list_elem_of_fmap in Hcs as (x & -> & Hx). rewrite Hin in Hc by done. simplify_eq.
      apply list_elem_of_fmap in Hd as (y & -> & Hy). exists x, y. by rewrite edge_succs.
    + rewrite Hout in Hc by done. apply Hempty in Hc. subst. set_solver.
  - intros (x & y & -> & -> & Hxy). exists (singletons (succs g x)).
    rewrite elem_of_singletons, <-edge_succs. split; [|done]. by eapply Hin, edge_source.
Qed.

Lemma heads_of_singletons l acc :
  foldM (λ acc (t : list A), match t with [] => Raise IndexError | x :: _ => Ok (acc ++ [x]) end) acc (singletons l)
  = Ok (acc ++ l).
Proof.
  revert acc. induction l as [|x l IH]; intros acc; simpl; [by rewrite app_nil_r|].
  rewrite IH, <-app_assoc. done.
Qed.

Lemma topsort_spec :
  ∃ l, topsort g = Ok l ∧ l ≡ₚ g_nodes g ∧ dependencies_first g l.
Proof.
  destruct (tarjan72_acyclic g) as (comps & Ht & Hperm); [done..|].
  destruct (component_graph comps Hperm) as (cg & Hcg & Hkeys & Hedge).
  assert (∀ c d, tc (edge cg) c d → ∃ x y, c = [x] ∧ d = [y] ∧ tc (edge g) x y) as Htc.
  { induction 1 as [c d (x & y & -> & -> & ?)%Hedge|c d e (x & y & -> & -> & ?)%Hedge _ IH].
    - eauto 10 using tc_once.
    - destruct IH as (y' & z & [= ->] & -> & ?). eauto 10 using tc_l. }
  destruct (khan62_acyclic cg) as (order & Hk & Hop & Hdf).
  - unfold dict_wf. rewrite Hkeys. apply NoDup_fmap; [intros ?? [= ->]; done|by rewrite Hperm].
  - intros c d (x & y & -> & -> & Hxy)%Hedge. unfold g_nodes.
    rewrite Hkeys, elem_of_singletons, Hperm. by eapply Hclosed.
  - intros c (x & y & -> & [= ->] & Hxy)%Htc. by eapply Hacyclic.
  - unfold g_nodes in Hop. rewrite Hkeys in Hop.
    apply Permutation_map_inv in Hop as (l & -> & Hl).
    exists l. unfold topsort. rewrite Ht. simpl. rewrite Hcg. simpl. rewrite Hk. simpl.
    rewrite heads_of_singletons. split_and!; [done|by rewrite <-Hl|].
    intros l1 x l2 -> y Hxy. rewrite <-elem_of_singletons.
    apply (Hdf (singletons l1) [x] (singletons l2)); [by rewrite map_app|]. apply Hedge. eauto.
Qed.
End TopsortProps.

(** C29: [topsort] on a graph without cycles, built from tuples of an object and
    its dependencies that are all objects of the graph themselves, returns every
    object exactly once, and each one after all the objects it depends on. *)
Theorem topsort_acyclic {A} `{EqDecision A} (tups : list (A * list A)) :
  NoDup tups.*1 → closed tups → acyclic tups →
  ∃ g l, g_init tups = Ok g ∧ topsort g = Ok l ∧ l ≡ₚ tups.*1 ∧
    ∀ x deps y, (x, deps) ∈ tups → y ∈ deps →
      ∃ l1 l2 l3, l = l1 ++ y :: l2 ++ x :: l3.
Proof.
  intros Hnd Hcl Hac. destruct (topsort_spec tups) as (l & Hl & Hperm & Hdf); [done..|].
  exists tups, l. split_and!; [by apply g_init_distinct|done|done|]. intros x deps y Hx Hy.
  assert (x ∈ l) as (l1 & l3 & ->)%list_elem_of_split by (rewrite Hperm; exact (list_elem_of_fmap_2 fst _ _ Hx)).
  assert (y ∈ l1) as (l0 & l2 & ->)%list_elem_of_split.
  { eapply (Hdf l1 x l3); [done|]. exists deps. split; [by apply dict_elem_get|done]. }
  exists l0, l2, l3. by rewrite <-app_assoc.
Qed.

Definition diamond : graph string :=
  [("top", ["left"; "right"]); ("left", ["base"]); ("right", ["base"; "left"]); ("base", [])]%string.

Example diamond_topsort : topsort diamond = Ok ["base"; "left"; "right"; "top"]%string.
Proof. reflexivity. Qed.


Lemma diamond_edge x y : edge diamond x y →
  (x, y) ∈ [("top", "left"); ("top", "right"); ("left", "base"); ("right", "base"); ("right", "left")]%string.
Proof.
  intros (l & Hl%dict_get_Some_elem & Hy). unfold diamond in Hl. rewrite !elem_of_cons, elem_of_nil in Hl.
  destruct_or!; simplify_eq; set_unfold; naive_solver.
Qed.

Lemma topsort_acyclic_witness :
  ∃ g l, g_init diamond = Ok g ∧ topsort g = Ok l ∧ l ≡ₚ diamond.*1 ∧
    ∀ x deps y, (x, deps) ∈ diamond → y ∈ deps → ∃ l1 l2 l3, l = l1 ++ y :: l2 ++ x :: l3.
Proof.
  apply topsort_acyclic.
  - by apply (bool_decide_unpack _).
  - intros x y Hxy%diamond_edge. rewrite !elem_of_cons, elem_of_nil in Hxy.
    destruct_or!; simplify_eq; by apply dict_in_true.
  - set (rank := λ x, match x with "base" => 0 | "left" => 1 | "right" => 2 | _ => 3 end%string).
    assert (∀ x y, edge diamond x y → rank y < rank x) as Hr1.
    { intros x y Hxy%diamond_edge. rewrite !elem_of_cons, elem_of_nil in Hxy.
      destruct_or!; simplify_eq; simpl; lia. }
    assert (∀ x y, tc (edge diamond) x y → rank y < rank x) as Hr.
    { induction 1 as [x y Hxy|x y z Hxy _ IH]; [auto|]. etrans; eauto. }
    intros x Hx%Hr. lia.
Defined.

(** On a graph with a cycle [topsort] silently leaves nodes out: only one
    node of each strongly connected component is returned. *)
Theorem topsort_drops_cycle :
  topsort [("a", ["b"]); ("b", ["c"]); ("c", ["a"]); ("d", ["a"])]%string = Ok ["a"; "d"]%string.
Proof. reflexivity. Qed.

End DependencyGraph.
