(* ===== verification/Bootsteps.v ===== *)
(** The blueprints of celery/bootsteps.py: how the boot order of a set of steps
    is computed ([Blueprint.apply] and what it calls), and the life cycle of a
    blueprint ([start], [stop], [close], [restart], [send_all]).

    A step class is a node of the world below: its name, its [last] flag and
    the list [requires], which [_firstpass] overwrites on the class.  Entries
    of [requires] are classes or dotted names; the lookup of a name
    ([symbol_by_name] of kombu) is the parameter [resolve], which leaves
    classes as they are.  The iteration order of the set [Blueprint.types] is
    the order of the list given to [claim_steps]. *)

From S2P Require Import Prelude PyDict Graph.
Import DependencyGraph.
Local Open Scope Z_scope.

Module Blueprint.

(** ** Step classes *)

Abbreviation cid := string.

(** An entry of [types] or [requires] *)
Inductive ref :=
| RClass (c : cid)
| RName (name : string).

#[global] Instance ref_eq_dec : EqDecision ref.
Proof. solve_decision. Defined.

(** The class attributes read by the blueprint; [requires] is mutable *)
Record stepclass := StepClass { c_name : cid → string; c_last : cid → bool }.
Abbreviation requires_map := (cid → list ref).

Definition set_requires (req : requires_map) (c : cid) (l : list ref) : requires_map :=
  λ c', if decide (c' = c) then l else req c'.

Section Order.
Context (resolve : string → outcome cid) (cls : stepclass).
Implicit Types (steps : pydict string cid) (req : requires_map) (c : cid).

Definition symbol_by_name (r : ref) : outcome cid :=
  match r with RClass c => Ok c | RName n => resolve n end.

Definition load_step (r : ref) : outcome (string * cid) :=
  let! c := symbol_by_name r in Ok (c_name cls c, c).

Definition claim_steps (types : list ref) : outcome (pydict string cid) :=
  foldM (λ steps r, let! p := load_step r in Ok (dict_set steps p.1 p.2)) [] types.

Definition find_last steps : option cid := head (filter (λ c, c_last cls c = true) (dict_values steps)).

(** [[symbol_by_name(dep) for dep in step.requires]] *)
Fixpoint resolve_all (l : list ref) : outcome (list cid) :=
  match l with
  | [] => Ok []
  | r :: l => let! c := symbol_by_name r in let! cs := resolve_all l in Ok (c :: cs)
  end.

(** The first loop of [_firstpass]: [requires] of the claimed steps *)
Definition resolve_requires steps req : outcome requires_map :=
  foldM (λ req c, let! cs := resolve_all (req c) in Ok (set_requires req c (RClass <$> cs)))
        req (dict_values steps).

(** One [for node in stream.popleft()] *)
Definition firstpass_node req (st : pydict string cid * list (list ref)) (r : ref)
    : outcome (pydict string cid * list (list ref)) :=
  let '(steps, stream) := st in
  let! c := symbol_by_name r in
  let steps := if dict_in steps (c_name cls c) then steps else dict_set steps (c_name cls c) c in
  Ok (steps, stream ++ [req c]).

(** [while stream] *)
Fixpoint firstpass_loop (fuel : nat) req steps (stream : list (list ref)) : outcome (pydict string cid) :=
  match stream with
  | [] => Ok steps
  | l :: stream =>
      match fuel with
      | O => Diverge
      | S fuel =>
          let! st := foldM (firstpass_node req) (steps, stream) l in
          firstpass_loop fuel req st.1 st.2
      end
  end.

Definition firstpass (fuel : nat) steps req : outcome (pydict string cid * requires_map) :=
  let! req := resolve_requires steps req in
  let! steps := firstpass_loop fuel req steps (req <$> dict_values steps) in
  Ok (steps, req).

(** [for obj in G: if obj != last: G.add_edge(last, obj)] *)
Definition add_last_edges (last : option cid) (G : graph ref) : outcome (graph ref) :=
  match last with
  | None => Ok G
  | Some c =>
      foldM (λ G obj, if bool_decide (obj = RClass c) then Ok G else add_edge G (RClass c) obj) G (g_nodes G)
  end.

(** [_finalize_steps]: the boot order, with the steps found on the way *)
Definition finalize_steps (fuel : nat) steps req : outcome (pydict string cid * graph ref * list ref) :=
  let last := find_last steps in
  let! (steps, req) := firstpass fuel steps req in
  let! G := g_init ((λ c, (RClass c, req c)) <$> dict_values steps) in
  let! G := add_last_edges last G in
  let! order := topsort G in
  Ok (steps, G, order).

(** What [apply] needs to know of the parent and of the step objects:
    [include_if], whether [create] succeeds, and whether the class is a
    [StartStopStep], whose [include] appends it to [parent.steps]. *)
Record behaviour := Behaviour {
  b_include_if : cid → bool;
  b_create : cid → outcome unit;
  b_startstop : cid → bool;
}.

Definition include (b : behaviour) (parent_steps : list cid) c : outcome (list cid) :=
  if b_include_if b c then
    let! _ := b_create b c in
    Ok (if b_startstop b c then parent_steps ++ [c] else parent_steps)
  else Ok parent_steps.

(** The loop of [apply] that instantiates the classes of the order *)
Definition instantiate_steps (order : list ref) : outcome (list cid) :=
  foldM (λ acc r, match r with RClass c => Ok (acc ++ [c]) | RName _ => Raise TypeError end) [] order.

(** [apply]: the order of the steps and the [steps] of the parent *)
Definition apply (fuel : nat) (b : behaviour) (types : list ref) req : outcome (list cid * list cid) :=
  let! steps := claim_steps types in
  let! r := finalize_steps fuel steps req in
  let! order := instantiate_steps r.2 in
  let! parent_steps := foldM (include b) [] order in
  Ok (order, parent_steps).
End Order.

(** ** The boot order *)

Section OrderProps.
Context (resolve : string → outcome cid) (cls : stepclass).
Implicit Types (steps : pydict string cid) (req : requires_map) (c d : cid) (stream : list (list ref)).

Abbreviation sym := (symbol_by_name resolve).

(** [c] requires [d] *)
Definition depends req c d : Prop := ∃ r, r ∈ req c ∧ sym r = Ok d.

(** Distinct classes have distinct names, and every requirement of every class
    can be imported. *)
Context (Hnames : ∀ c d, c_name cls c = c_name cls d → c = d).
Definition importable req : Prop := ∀ c r, r ∈ req c → ∃ d, sym r = Ok d.

(** The classes are registered under their names. *)
Definition steps_ok steps : Prop := dict_wf steps ∧ ∀ n c, (n, c) ∈ steps → n = c_name cls c.

Lemma steps_in steps c : steps_ok steps → (c ∈ dict_values steps ↔ c_name cls c ∈ dict_keys steps).
Proof.
  intros [Hwf Hn]. unfold dict_values, dict_keys. rewrite !list_elem_of_fmap. split.
  - intros ([n c'] & -> & Hin). exists (n, c'). split; [|done]. simpl. symmetry. by apply Hn.
  - intros ([n c'] & Heq & Hin). exists (n, c'). split; [|done]. simpl in *. subst n.
    by apply Hnames, Hn.
Qed.

Lemma steps_nodup steps : steps_ok steps → NoDup (dict_values steps).
Proof.
  intros [Hwf Hn]. unfold dict_wf, dict_keys in Hwf.
  assert (dict_keys steps = c_name cls <$> dict_values steps) as Heq.
  { unfold dict_keys, dict_values. rewrite <-list_fmap_compose. apply list_fmap_ext.
    intros i [n c] Hi%list_elem_of_lookup_2. by apply Hn. }
  eapply NoDup_fmap_1. rewrite <-Heq. done.
Qed.

Lemma steps_set steps c :
  steps_ok steps → steps_ok (dict_set steps (c_name cls c) c) ∧
  ∀ d, d ∈ dict_values (dict_set steps (c_name cls c) c) ↔ d = c ∨ d ∈ dict_values steps.
Proof.
  intros Hok. pose proof Hok as [Hwf Hn].
  assert (steps_ok (dict_set steps (c_name cls c) c)) as Hok'.
  { pose proof (dict_set_wf _ (c_name cls c) c Hwf) as Hwf'. split; [done|].
    intros n d Hin%dict_elem_get; [|done]. rewrite dict_get_set in Hin. case_decide; [by simplify_eq|].
    by apply Hn, dict_get_Some_elem. }
  split; [done|]. intros d. rewrite !steps_in, elem_of_dict_keys_set by done. naive_solver.
Qed.

Lemma claim_steps_ok types :
  (∀ r, r ∈ types → ∃ c, sym r = Ok c) →
  ∃ steps, claim_steps resolve cls types = Ok steps ∧ steps_ok steps ∧
    ∀ c, c ∈ dict_values steps ↔ ∃ r, r ∈ types ∧ sym r = Ok c.
Proof.
  intros Ht. unfold claim_steps.
  assert (∀ steps, steps_ok steps → ∃ steps',
    foldM (λ steps r, let! p := load_step resolve cls r in Ok (dict_set steps p.1 p.2)) steps types = Ok steps' ∧
    steps_ok steps' ∧ ∀ c, c ∈ dict_values steps' ↔ c ∈ dict_values steps ∨ ∃ r, r ∈ types ∧ sym r = Ok c) as H.
  { induction types as [|r types IH]; intros steps Hok; simpl; [exists steps; set_solver|].
    destruct (Ht r) as [c Hc]; [set_solver|]. unfold load_step at 1. rewrite Hc. simpl.
    destruct (steps_set steps c Hok) as [Hok1 Hin1].
    destruct (IH ltac:(set_solver) _ Hok1) as (steps' & -> & Hok' & Hin). exists steps'.
    split_and!; [done|done|]. intros d. rewrite Hin, Hin1. split.
    - intros [[->|?]|(r' & ? & ?)]; [right; exists r|left|right; exists r']; set_solver.
    - intros [?|(r' & [->|?]%elem_of_cons & ?)]; [by left; right|left; left; congruence|right; eauto]. }
  destruct (H []) as (steps & ? & ? & Hin); [split; [constructor|set_solver]|].
  exists steps. split_and!; [done|done|]. intros c. rewrite Hin. set_solver.
Qed.

(** *** Requirements as classes *)

Lemma resolve_all_ok l :
  (∀ r, r ∈ l → ∃ d, sym r = Ok d) →
  ∃ cs, resolve_all resolve l = Ok cs ∧ ∀ d, d ∈ cs ↔ ∃ r, r ∈ l ∧ sym r = Ok d.
Proof.
  induction l as [|r l IH]; intros Hl; simpl; [exists []; set_solver|].
  destruct (Hl r) as [c Hc]; [set_solver|]. rewrite Hc. simpl.
  destruct IH as (cs & -> & Hcs); [set_solver|]. exists (c :: cs). split; [done|].
  intros d. rewrite elem_of_cons, Hcs. split.
  - intros [->|(r' & ? & ?)]; [exists r|exists r']; set_solver.
  - intros (r' & [->|?]%elem_of_cons & ?); [left; congruence|eauto].
Qed.

Lemma resolve_requires_ok req l :
  importable req →
  ∃ req', foldM (λ req c, let! cs := resolve_all resolve (req c) in Ok (set_requires req c (RClass <$> cs))) req l
      = Ok req' ∧
    (∀ c d, depends req' c d ↔ depends req c d) ∧ importable req' ∧
    (∀ c, c ∉ l → req' c = req c) ∧ ∀ c, c ∈ l → ∀ r, r ∈ req' c → ∃ d, r = RClass d.
Proof.
  revert req. induction l as [|c l IH]; intros req Himp; simpl.
  { exists req. split_and!; try done. set_solver. }
  destruct (resolve_all_ok (req c)) as (cs & -> & Hcs); [eauto|]. simpl.
  set (req1 := set_requires req c (RClass <$> cs)).
  assert (∀ a d, depends req1 a d ↔ depends req a d) as Hdep.
  { intros a d. unfold depends, req1, set_requires. case_decide; [|done]. subst a. rewrite <-Hcs.
    setoid_rewrite list_elem_of_fmap. split.
    - intros (r & (y & -> & Hy) & Heq). simpl in Heq. congruence.
    - intros Hd. exists (RClass d). eauto. }
  assert (importable req1) as Himp1.
  { intros a r Hr. unfold req1, set_requires in Hr. case_decide; [|eauto].
    apply list_elem_of_fmap in Hr as (y & -> & _). exists y. done. }
  destruct (IH req1 Himp1) as (req' & -> & Hdep' & Himp' & Hsame & Hcl). exists req'.
  split_and!; [done|intros a d; by rewrite Hdep'|done| |].
  - intros a Ha. rewrite Hsame by set_solver. unfold req1, set_requires. rewrite decide_False; set_solver.
  - intros a Ha r Hr. destruct (decide (a ∈ l)) as [Hal|Hal]; [eauto|].
    assert (a = c) as -> by set_solver. rewrite Hsame in Hr by done.
    unfold req1, set_requires in Hr. rewrite decide_True in Hr by done.
    apply list_elem_of_fmap in Hr as (y & -> & _). eauto.
Qed.

(** *** The stream of requirements *)

Context (req : requires_map) (rank : cid → nat).
Context (Himp : importable req) (Hrank : ∀ c d, depends req c d → (rank d < rank c)%nat).

(** The number of turns of the loop that a list of requirements costs *)
Inductive cost : list ref → nat → Prop :=
| cost_nil : cost [] 1
| cost_cons r c l m n : sym r = Ok c → cost (req c) m → cost l n → cost (r :: l) (m + n).

Lemma cost_exists c : ∃ n, cost (req c) n.
Proof.
  assert (∀ k l, (∀ r, r ∈ l → ∃ d, sym r = Ok d ∧ (rank d < k)%nat) → ∃ n, cost l n) as H.
  { induction k as [|k IHk]; intros l Hl.
    { destruct l as [|r l]; [eauto using cost_nil|]. destruct (Hl r) as (d & _ & ?); [set_solver|lia]. }
    induction l as [|r l IHl]; [eauto using cost_nil|].
    destruct (Hl r) as (d & Hd & Hlt); [set_solver|]. destruct IHl as [n Hn]; [set_solver|].
    destruct (IHk (req d)) as [m Hm]; [|eauto using cost_cons].
    intros r' Hr'. destruct (Himp d r' Hr') as [d' Hd']. exists d'. split; [done|].
    assert (rank d' < rank d)%nat by (apply Hrank; by exists r'). lia. }
  apply (H (rank c)). intros r Hr. destruct (Himp c r Hr) as [d Hd]. exists d. split; [done|].
  apply Hrank. by exists r.
Qed.

Lemma cost_pos l n : cost l n → (0 < n)%nat.
Proof. induction 1; lia. Qed.

(** The requirements of a known step are pending in the stream, still to be
    handled in the current turn, or known themselves; and all known steps and
    all pending requirements satisfy [R]. *)
Record stream_inv (R : cid → Prop) steps stream (todo : list ref) : Prop := {
  si_ok : steps_ok steps;
  si_closed : ∀ c, c ∈ dict_values steps → req c ∈ stream ∨
    ∀ r d, r ∈ req c → sym r = Ok d → r ∈ todo ∨ d ∈ dict_values steps;
  si_steps : ∀ c, c ∈ dict_values steps → R c;
  si_stream : ∀ l r d, l ∈ stream → r ∈ l → sym r = Ok d → R d;
  si_todo : ∀ r d, r ∈ todo → sym r = Ok d → R d;
}.

Lemma firstpass_node_inv R steps stream r c todo :
  (∀ c d, R c → depends req c d → R d) → sym r = Ok c →
  stream_inv R steps stream (r :: todo) →
  ∃ steps', firstpass_node resolve cls req (steps, stream) r = Ok (steps', stream ++ [req c]) ∧
    stream_inv R steps' (stream ++ [req c]) todo ∧ ∀ d, d ∈ dict_values steps → d ∈ dict_values steps'.
Proof.
  intros HR Hr [Hok Hcl Hst Hstr Htd]. unfold firstpass_node. rewrite Hr. simpl.
  assert (R c) as HRc by (eapply Htd; [|done]; set_solver).
  set (steps' := if dict_in steps (c_name cls c) then steps else dict_set steps (c_name cls c) c).
  assert (steps_ok steps' ∧ ∀ d, d ∈ dict_values steps' ↔ d = c ∨ d ∈ dict_values steps) as [Hok' Hin'].
  { unfold steps'. destruct (dict_in _ _) eqn:E; [|by apply steps_set]. split; [done|].
    rewrite dict_in_true, <-steps_in in E by done. intros d. naive_solver. }
  exists steps'. split; [done|]. split; [|intros d; rewrite Hin'; auto]. split.
  - done.
  - intros a [->|Ha]%Hin'; [left; set_solver|]. destruct (Hcl a Ha) as [?|Hreq]; [left; set_solver|].
    right. intros r' d' Hr' Hd'. rewrite Hin'. destruct (Hreq r' d' Hr' Hd') as [[->|?]%elem_of_cons|?]; [|auto..].
    right. left. congruence.
  - intros a [->|?]%Hin'; auto.
  - intros l r' d [Hl|Hl%list_elem_of_singleton]%elem_of_app Hr' Hd; [by eapply Hstr|]. subst l.
    eapply HR; [done|]. by exists r'.
  - intros r' d Hr' Hd. eapply Htd; [|done]. set_solver.
Qed.

Lemma firstpass_nodes_inv R todo n steps stream :
  (∀ c d, R c → depends req c d → R d) → cost todo n →
  stream_inv R steps stream todo →
  ∃ steps' ls ms, foldM (firstpass_node resolve cls req) (steps, stream) todo = Ok (steps', stream ++ ls) ∧
    Forall2 cost ls ms ∧ S (sum_list ms) = n ∧
    stream_inv R steps' (stream ++ ls) [] ∧ ∀ d, d ∈ dict_values steps → d ∈ dict_values steps'.
Proof.
  intros HR Hcost. revert steps stream.
  induction Hcost as [|r c todo m n Hr Hm _ _ IH]; intros steps stream Hinv.
  { exists steps, [], []. rewrite app_nil_r. done. }
  destruct (firstpass_node_inv R steps stream r c todo) as (steps1 & Hrun & Hinv1 & Hsub); [done..|].
  cbn [foldM]. rewrite Hrun. cbn [obind].
  destruct (IH _ _ Hinv1) as (steps2 & ls & ms & -> & Hc & Hsum & Hinv2 & Hsub2).
  exists steps2, (req c :: ls), (m :: ms). rewrite <-app_assoc in *. simpl in *.
  split_and!; [done|by constructor|lia|done|auto].
Qed.

(** More fuel does not change the result. *)
Lemma firstpass_loop_mono fuel fuel' steps stream steps' :
  firstpass_loop resolve cls fuel req steps stream = Ok steps' → (fuel ≤ fuel')%nat →
  firstpass_loop resolve cls fuel' req steps stream = Ok steps'.
Proof.
  revert fuel' steps stream. induction fuel as [|fuel IH]; intros fuel' steps [|l stream] Hrun Hle;
    destruct fuel' as [|fuel']; try done; try lia. simpl in *.
  apply obind_Ok in Hrun as (st & -> & Hst). simpl. apply IH; [done|lia].
Qed.

Lemma firstpass_loop_ok R fuel steps stream ms :
  (∀ c d, R c → depends req c d → R d) → Forall2 cost stream ms → (sum_list ms ≤ fuel)%nat →
  stream_inv R steps stream [] →
  ∃ steps', firstpass_loop resolve cls fuel req steps stream = Ok steps' ∧ steps_ok steps' ∧
    (∀ d, d ∈ dict_values steps → d ∈ dict_values steps') ∧ (∀ c, c ∈ dict_values steps' → R c) ∧
    ∀ c d, c ∈ dict_values steps' → depends req c d → d ∈ dict_values steps'.
Proof.
  intros HR. revert steps stream ms. induction fuel as [|fuel IH]; intros steps stream ms Hms Hfuel Hinv.
  all: destruct Hms as [|l m stream ms Hl Hms]; simpl in *.
  1,3: exists steps; split_and!; [done|apply Hinv|done|apply Hinv|];
    intros c d Hc (r & Hr & Hd); destruct (si_closed _ _ _ _ Hinv c Hc) as [?|Hcl]; [set_solver|];
    destruct (Hcl r d Hr Hd); set_solver.
  { pose proof (cost_pos _ _ Hl). lia. }
  destruct (firstpass_nodes_inv R l m steps stream) as (steps1 & ls & ns & -> & Hns & Hsum & Hinv1 & Hsub1); [done|done| |].
  { destruct Hinv as [Hok Hcl Hst Hstr Htd]. split; [done| |done| |].
    - intros c Hc. destruct (Hcl c Hc) as [[->|?]%elem_of_cons|Hd]; [right; auto|by left|].
      right. intros r d Hr Hd'. destruct (Hd r d Hr Hd'); [set_solver|auto].
    - intros l' r d ???. eapply Hstr; eauto. set_solver.
    - intros r d ??. eapply (Hstr l); eauto. set_solver. }
  simpl. destruct (IH steps1 (stream ++ ls) (ms ++ ns)) as (steps2 & Hrun & Hok & Hsub & HRs & Hc);
    [by apply Forall2_app| |done|].
  { rewrite sum_list_with_app. pose proof (cost_pos _ _ Hl). lia. }
  exists steps2. split_and!; auto.
Qed.
End OrderProps.

(** *** The graph *)

Lemma add_last_edges_ok c l (G : graph ref) :
  dict_get G (RClass c) = Some l →
  ∃ G', add_last_edges (Some c) G = Ok G' ∧ g_nodes G' = g_nodes G ∧ (dict_wf G → dict_wf G') ∧
    ∀ x y, edge G' x y ↔ edge G x y ∨ (x = RClass c ∧ y ≠ RClass c ∧ y ∈ g_nodes G).
Proof.
  intros Hl. unfold add_last_edges.
  assert (∀ todo (G : graph ref) l, dict_get G (RClass c) = Some l →
    foldM (λ G obj, if bool_decide (obj = RClass c) then Ok G else add_edge G (RClass c) obj) G todo
    = Ok (dict_set G (RClass c) (l ++ filter (.≠ RClass c) todo))) as H.
  { clear. induction todo as [|obj todo IH]; intros G l Hl; cbn [foldM].
    { by rewrite app_nil_r, dict_set_same. }
    rewrite filter_cons. case_bool_decide as Ho; cbn [obind].
    { rewrite decide_False by naive_solver. by apply IH. }
    rewrite decide_True by done. unfold add_edge at 1, g_getitem. rewrite Hl. cbn [of_option obind].
    rewrite (IH _ (l ++ [obj])) by apply dict_get_set_eq. by rewrite dict_set_set, <-app_assoc. }
  eexists. split; [by apply H|]. clear H.
  assert (RClass c ∈ g_nodes G) as Hc by (apply dict_in_true; unfold dict_in; by rewrite Hl).
  split_and!; [by apply dict_set_keys_in|by intros; apply dict_set_wf|]. intros x y. unfold edge.
  setoid_rewrite dict_get_set. destruct (decide (x = RClass c)) as [->|Hne].
  - rewrite decide_True by done. split.
    + intros (l' & [= <-] & [?|[??]%list_elem_of_filter]%elem_of_app); [left; eauto|right; eauto].
    + intros [(l' & ? & ?)|(_ & ? & ?)]; (eexists; split; [done|]); rewrite elem_of_app, list_elem_of_filter;
        [left; congruence|by right].
  - setoid_rewrite decide_False; [|done..]. naive_solver.
Qed.

Section Boot.
Context (resolve : string → outcome cid) (cls : stepclass) (b : behaviour).
Context (types : list ref) (req : requires_map) (rank : cid → nat).
Implicit Types (c d : cid).

Abbreviation symb := (symbol_by_name resolve).
Abbreviation requires := (depends resolve req).

Definition claimed c : Prop := ∃ r, r ∈ types ∧ symb r = Ok c.

(** The step is one of the given types or required by one, directly or not. *)
Definition needed c : Prop := ∃ c0, claimed c0 ∧ rtc requires c0 c.

(** What the classes have to satisfy: they can be imported, have different
    names, do not require each other in a cycle, nothing requires a step marked
    [last], [create] succeeds, and a step that is only found as a requirement
    lists its own requirements as classes. *)
Record bootable : Prop := {
  bo_types : ∀ r, r ∈ types → ∃ c, symb r = Ok c;
  bo_importable : importable resolve req;
  bo_names : ∀ c d, c_name cls c = c_name cls d → c = d;
  bo_rank : ∀ c d, requires c d → (rank d < rank c)%nat;
  bo_last : ∀ c d, requires c d → c_last cls d = false;
  bo_found : ∀ c, ¬ claimed c → ∀ r, r ∈ req c → ∃ d, r = RClass d;
  bo_create : ∀ c, b_create b c = Ok ();
}.

Context (Hboot : bootable).

Lemma firstpass_ok steps :
  steps_ok cls steps → (∀ c, c ∈ dict_values steps ↔ claimed c) →
  ∃ fuel steps' req', (∀ n, (fuel ≤ n)%nat → firstpass resolve cls n steps req = Ok (steps', req')) ∧
    steps_ok cls steps' ∧ (∀ c, c ∈ dict_values steps' ↔ needed c) ∧
    (∀ c r, c ∈ dict_values steps' → r ∈ req' c → ∃ d, r = RClass d ∧ requires c d ∧ d ∈ dict_values steps') ∧
    ∀ c d, requires c d → RClass d ∈ req' c ∨ ¬ needed c.
Proof.
  intros Hok Hst. destruct Hboot as [_ Himp Hnm Hrk _ Hfound _].
  destruct (resolve_requires_ok resolve cls Hnm req (dict_values steps) Himp) as (req' & Hreq & Hdep & Himp' & Hsame & Hcl).
  assert (∀ c d, depends resolve req' c d → (rank d < rank c)%nat) as Hrk' by (setoid_rewrite Hdep; done).
  assert (∃ ms, Forall2 (cost resolve req') (req' <$> dict_values steps) ms) as [ms Hms].
  { clear Hreq Hsame Hcl Hst. induction (dict_values steps) as [|c l [ms IH]]; [by exists []|].
    destruct (cost_exists resolve cls Hnm req' rank Himp' Hrk' c) as [m ?]. exists (m :: ms). by constructor. }
  edestruct (firstpass_loop_ok resolve cls Hnm req' rank Himp' Hrk' needed (sum_list ms) steps)
    as (steps' & Hrun & Hok' & Hsub & Hneed & Hclosed); [|exact Hms|done| |].
  { intros c d (c0 & ? & ?) Hd. exists c0. split; [done|]. eapply rtc_r; [done|]. by apply Hdep. }
  { split; [done| | | |set_solver].
    - intros c Hc. left. by apply list_elem_of_fmap_2.
    - intros c Hc%Hst. exists c. by split.
    - intros l r d (c & -> & Hc%Hst)%list_elem_of_fmap Hr Hd. exists c. split; [done|].
      apply rtc_once, Hdep. by exists r. }
  exists (sum_list ms), steps', req'.
  assert (∀ c, needed c → c ∈ dict_values steps') as Hneed2.
  { intros c (c0 & Hc0%Hst%Hsub & Hr). induction Hr as [|c1 c2 c3 H12 _ IH]; [done|].
    apply IH. eapply Hclosed; [done|]. by apply Hdep. }
  split_and!; [|done|naive_solver| |].
  - intros n Hn. unfold firstpass, resolve_requires. rewrite Hreq. cbn [obind].
    by rewrite (firstpass_loop_mono _ _ _ _ _ _ _ _ Hrun Hn).
  - intros c r Hc Hr. assert (∃ d, r = RClass d) as [d ->].
    { destruct (decide (c ∈ dict_values steps)) as [|Hn]; [eauto|]. rewrite Hst in Hn.
      apply (Hfound c); [done|]. rewrite <-Hsame by (by rewrite Hst). done. }
    assert (depends resolve req' c d) as Hd by (by exists (RClass d)).
    exists d. split_and!; [done|by apply Hdep|by eapply Hclosed].
  - intros c d Hd. destruct (decide (RClass d ∈ req' c)); [by left|]. right. intros Hc%Hneed2.
    apply Hdep in Hd as (r & Hr & Hrd). assert (∃ d', r = RClass d') as [d' ->]; [|simpl in Hrd; congruence].
    destruct (decide (c ∈ dict_values steps)) as [|Hn]; [eauto|]. rewrite Hst in Hn.
    apply (Hfound c); [done|]. rewrite <-Hsame by (by rewrite Hst). done.
Qed.

(** The graph of the needed steps: requirements, and edges from the step marked
    [last] to all others. *)
Lemma boot_graph steps req' last_ :
  steps_ok cls steps →
  (∀ c r, c ∈ dict_values steps → r ∈ req' c → ∃ d, r = RClass d ∧ requires c d ∧ d ∈ dict_values steps) →
  (∀ c, last_ = Some c → c_last cls c = true ∧ c ∈ dict_values steps) →
  ∃ G0 G, g_init ((λ c, (RClass c, req' c)) <$> dict_values steps) = Ok G0 ∧
    add_last_edges last_ G0 = Ok G ∧ dict_wf G ∧ g_nodes G = RClass <$> dict_values steps ∧ closed G ∧ acyclic G ∧
    (∀ c d, c ∈ dict_values steps → RClass d ∈ req' c → edge G (RClass c) (RClass d)) ∧
    (∀ c d, last_ = Some c → d ∈ dict_values steps → d ≠ c → edge G (RClass c) (RClass d)).
Proof.
  intros Hok Hreq Hlast. destruct Hboot as [_ _ Hnm Hrk Hnl _ _].
  set (G0 := (λ c, (RClass c, req' c)) <$> dict_values steps). exists G0.
  assert (g_nodes G0 = RClass <$> dict_values steps) as Hnodes.
  { unfold g_nodes, dict_keys, G0. by rewrite <-list_fmap_compose. }
  assert (dict_wf G0) as Hwf0.
  { unfold dict_wf. fold (g_nodes G0). rewrite Hnodes. apply NoDup_fmap; [intros ?? [= ->]; done|].
    by eapply steps_nodup. }
  assert (∀ c, c ∈ dict_values steps → dict_get G0 (RClass c) = Some (req' c)) as Hget.
  { intros c Hc. apply dict_elem_get; [done|]. unfold G0. apply list_elem_of_fmap. eauto. }
  assert (∀ x y, edge G0 x y → ∃ c d, x = RClass c ∧ y = RClass d ∧ requires c d ∧ d ∈ dict_values steps) as Hedge0.
  { intros x y (l & Hl%dict_get_Some_elem & Hy). unfold G0 in Hl.
    apply list_elem_of_fmap in Hl as (c & [= -> ->] & Hc). destruct (Hreq c y Hc Hy) as (d & -> & ? & ?). eauto 10. }
  assert (∃ G, add_last_edges last_ G0 = Ok G ∧ g_nodes G = g_nodes G0 ∧ dict_wf G ∧
    ∀ x y, edge G x y ↔ edge G0 x y ∨ ∃ c, last_ = Some c ∧ x = RClass c ∧ y ≠ RClass c ∧ y ∈ g_nodes G0)
    as (G & HG & HGn & HGwf & HGe).
  { destruct last_ as [c|]; [|exists G0; naive_solver]. destruct (Hlast c) as [_ Hc]; [done|].
    destruct (add_last_edges_ok c (req' c) G0) as (G & HG & HGn & HGwf & HGe); [auto|].
    exists G. split_and!; [done|done|auto|]. intros x y. rewrite HGe. naive_solver. }
  assert (∀ x y, edge G x y → (∀ c, last_ = Some c → y ≠ RClass c) ∧ ∃ d, y = RClass d ∧ d ∈ dict_values steps ∧
    ∀ c, x = RClass c → last_ ≠ Some c → (rank d < rank c)%nat) as He.
  { intros x y [(c & d & -> & -> & Hr & Hd)%Hedge0|(c & -> & -> & Hne & Hy)]%HGe.
    - split; [|exists d; naive_solver]. intros c' Hc' [= ->]. apply Hlast in Hc' as [Hl _]. apply Hnl in Hr. congruence.
    - split; [naive_solver|]. rewrite Hnodes in Hy. apply list_elem_of_fmap in Hy as (d & -> & Hd).
      exists d. naive_solver. }
  exists G. split_and!; [apply g_init_distinct, Hwf0|done|done|by rewrite HGn| | | |].
  - intros x y (_ & d & -> & Hd & _)%He. rewrite HGn, Hnodes. by apply list_elem_of_fmap_2.
  - assert (∀ x y, tc (edge G) x y → (∀ c, last_ = Some c → y ≠ RClass c) ∧ ∃ d, y = RClass d ∧
      ∀ c, x = RClass c → last_ ≠ Some c → (rank d < rank c)%nat) as Htc.
    { induction 1 as [x y (Hl & d & -> & _ & Hd)%He|x y z (Hl & d & -> & _ & Hd)%He _ (Hl2 & e & -> & Hz)]; [eauto|].
      split; [done|]. exists e. split; [done|]. intros c Hx Hc. specialize (Hd c Hx Hc).
      enough (rank e < rank d)%nat by lia. apply (Hz d); [done|]. intros Hd'. by apply (Hl d). }
    intros x (Hl & d & -> & Hd)%Htc. enough (rank d < rank d)%nat by lia. apply (Hd d); [done|]. intros Hd'. by apply (Hl d).
  - intros c d Hc Hd. apply HGe. left. exists (req' c). auto.
  - intros c d Hc Hd Hne. apply HGe. right. exists c. split_and!; [done|done|congruence|].
    rewrite Hnodes. by apply list_elem_of_fmap_2.
Qed.

Lemma instantiate_classes (l : list cid) acc :
  foldM (λ acc r, match r with RClass c => Ok (acc ++ [c]) | RName _ => Raise TypeError end) acc (RClass <$> l)
  = Ok (acc ++ l).
Proof.
  revert acc. induction l as [|c l IH]; intros acc; simpl; [by rewrite app_nil_r|]. rewrite IH, <-app_assoc. done.
Qed.

Lemma include_all (l acc : list cid) :
  foldM (include b) acc l = Ok (acc ++ filter (λ c, b_include_if b c && b_startstop b c = true) l).
Proof.
  revert acc. induction l as [|c l IH]; intros acc; [simpl; by rewrite app_nil_r|]. cbn [foldM].
  unfold include at 1. rewrite (bo_create Hboot), filter_cons.
  destruct (b_include_if b c), (b_startstop b c); simpl; rewrite IH; try done. by rewrite <-app_assoc.
Qed.

(** The result of [apply] *)
Lemma apply_spec :
  ∃ fuel order, (∀ n, (fuel ≤ n)%nat → apply resolve cls n b types req =
      Ok (order, filter (λ c, b_include_if b c && b_startstop b c = true) order)) ∧
    NoDup order ∧ (∀ c, c ∈ order ↔ needed c) ∧
    (∀ l1 c l2 d, order = l1 ++ c :: l2 → requires c d → d ∈ l1) ∧
    (∀ c, claimed c → c_last cls c = true → ∃ l1 c', order = l1 ++ [c'] ∧ claimed c' ∧ c_last cls c' = true).
Proof.
  destruct (claim_steps_ok resolve cls (bo_names Hboot) types (bo_types Hboot)) as (steps0 & Hclaim & Hok0 & Hin0).
  destruct (firstpass_ok steps0 Hok0 Hin0) as (fuel & steps & req' & Hfp & Hok & Hneed & Hreq & Hreq2).
  set (last_ := find_last cls steps0).
  assert (∀ c, last_ = Some c → claimed c ∧ c_last cls c = true) as Hlast.
  { intros c Hc. unfold last_, find_last in Hc. apply head_Some_elem_of, list_elem_of_filter in Hc as [??].
    split; [by apply Hin0|done]. }
  destruct (boot_graph steps req' last_ Hok Hreq) as (G0 & G & HG0 & HG & Hwf & Hnodes & Hcl & Hac & He1 & He2).
  { intros c [Hc ?]%Hlast. split; [done|]. apply Hneed. by exists c. }
  destruct (topsort_spec G Hwf Hcl Hac) as (rl & Htop & Hperm & Hdf).
  rewrite Hnodes in Hperm. apply Permutation_map_inv in Hperm as (order & -> & Hperm).
  change (map RClass order) with (RClass <$> order) in *.
  assert (∀ c, c ∈ order ↔ needed c) as Hord by (intros c; by rewrite <-Hperm, Hneed).
  assert (NoDup order) as Hnd by (rewrite <-Hperm; by eapply steps_nodup).
  assert (∀ l1 c l2 d, order = l1 ++ c :: l2 → edge G (RClass c) (RClass d) → d ∈ l1) as Hbefore.
  { intros l1 c l2 d -> He. assert (RClass d ∈ RClass <$> l1) as (d' & [= ->] & ?)%list_elem_of_fmap; [|done].
    eapply (Hdf _ _ (RClass <$> l2)); [|done]. by rewrite fmap_app. }
  exists fuel, order. split_and!; [|done|done| |].
  - intros n Hn. unfold apply, finalize_steps. rewrite Hclaim. cbn [obind]. rewrite Hfp by done. cbn [obind].
    rewrite HG0. cbn [obind]. fold last_. rewrite HG. cbn [obind]. rewrite Htop. cbn [obind snd].
    unfold instantiate_steps. rewrite (instantiate_classes order []). cbn [obind app].
    rewrite include_all. done.
  - intros l1 c l2 d Heq Hcd. eapply Hbefore; [done|]. apply He1.
    + apply Hneed, Hord. set_solver.
    + destruct (Hreq2 c d Hcd) as [?|[]]; [done|]. apply Hord. set_solver.
  - intros c Hc Hcl'. destruct last_ as [c'|] eqn:El.
    + destruct (Hlast c') as [Hc' Hc'l]; [done|].
      assert (c' ∈ order) as (l1 & l2 & Heq)%list_elem_of_split by (apply Hord; by exists c').
      exists l1, c'. split_and!; [|done|done]. destruct l2 as [|z l2]; [done|]. exfalso.
      rewrite Heq in Hnd. apply NoDup_app in Hnd as (_ & Hd & Hnd2).
      assert (z ≠ c') as Hz by (intros ->; apply NoDup_cons in Hnd2; set_solver).
      apply (Hd z); [|set_solver]. eapply Hbefore; [done|]. apply He2; [done| |done].
      apply Hneed, Hord. rewrite Heq. set_solver.
    + exfalso. unfold last_, find_last in El. apply head_None in El.
      assert (c ∈ filter (λ c, c_last cls c = true) (dict_values steps0)) as Hin
        by (apply list_elem_of_filter; split; [done|by apply Hin0]). rewrite El in Hin. set_solver.
Qed.
End Boot.


(** A blueprint like the worker's: [Pool] requires [Hub] by name, [Hub] requires
    [Timer], which is not among the given steps, and [Consumer] is last. *)
Definition ex_resolve (n : string) : outcome cid :=
  if decide (n = "celery.worker.components:Hub"%string) then Ok "Hub"%string else Raise ValueError.
Definition ex_cls : stepclass := StepClass id (λ c, bool_decide (c = "Consumer"%string)).
Definition ex_behaviour : behaviour := Behaviour (λ c, bool_decide (c ≠ "Timer"%string)) (λ _, Ok ()) (λ _, true).
Definition ex_types : list ref := [RClass "Consumer"; RClass "Pool"; RClass "Hub"]%string.
Definition ex_req : requires_map := λ c,
  if decide (c = "Pool"%string) then [RName "celery.worker.components:Hub"]
  else if decide (c = "Hub"%string) then [RClass "Timer"] else [].
Definition ex_rank (c : cid) : nat := if decide (c = "Pool"%string) then 2 else if decide (c = "Hub"%string) then 1 else 0.

Lemma ex_depends c d :
  depends ex_resolve ex_req c d →
  (c = "Pool"%string ∧ d = "Hub"%string) ∨ (c = "Hub"%string ∧ d = "Timer"%string).
Proof.
  intros (r & Hr & Hd). unfold ex_req in Hr. repeat case_decide; subst;
    apply list_elem_of_singleton in Hr || apply elem_of_nil in Hr; try done; subst; vm_compute in Hd; naive_solver.
Qed.


Example ex_boot :
  apply ex_resolve ex_cls 20 ex_behaviour ex_types ex_req
  = Ok (["Timer"; "Hub"; "Pool"; "Consumer"], ["Hub"; "Pool"; "Consumer"])%string.
Proof. by vm_compute. Qed.

(** Two steps that require each other keep [_firstpass] busy forever: the
    stream of requirements never runs empty, so that [apply] neither returns an
    order nor reports the cycle. *)
Theorem firstpass_diverges_on_cycle fuel b :
  let req := λ c, if decide (c = "a"%string) then [RClass "b"] else [RClass "a"] in
  apply (λ _, Raise ValueError) (StepClass id (λ _, false)) fuel b [RClass "a"; RClass "b"]%string req = Diverge.
Proof.
  intros req. unfold apply, finalize_steps, firstpass.
  replace (claim_steps _ _ _) with (Ok [("a", "a"); ("b", "b")]%string) by by vm_compute.
  cbn [obind]. unfold resolve_requires. simpl. unfold set_requires. simpl.
  set (req' := λ c', if decide (c' = "b"%string) then [RClass "a"]
               else if decide (c' = "a"%string) then [RClass "b"] else req c').
  assert (∀ n steps stream, stream ≠ [] → Forall (λ l, l = [RClass "a"%string] ∨ l = [RClass "b"%string]) stream →
    firstpass_loop (λ _, Raise ValueError) (StepClass id (λ _, false)) n req' steps stream = Diverge) as H.
  { induction n as [|n IH]; intros steps stream Hne Hs; destruct Hs as [|l stream Hl Hs]; try done. simpl.
    assert (∀ st, ∃ steps', foldM (firstpass_node (λ _, Raise ValueError) (StepClass id (λ _, false)) req') (st, stream) l
      = Ok (steps', stream ++ [if decide (l = [RClass "a"%string]) then [RClass "b"%string] else [RClass "a"%string]]))
      as Hn by (intros st; destruct Hl as [->| ->]; eexists; reflexivity).
    destruct (Hn steps) as [steps' ->]. simpl. apply IH; [by destruct stream|].
    apply Forall_app. split; [done|]. constructor; [|done]. case_decide; auto. }
  rewrite H; [done..|]. apply Forall_cons. split; [by right|]. apply Forall_singleton. by left.
Qed.

(** The requirements of a step that is found only through another step's
    [requires] are not resolved on the class.  When it lists them by dotted
    name, as steps may, the graph has an edge to the name instead of the class,
    and [apply] fails with [KeyError] (unknown bootstep), although every step
    could be imported and there is no cycle. *)
Theorem found_step_names_unresolved :
  let resolve := λ n, if decide (n = "mod:C"%string) then Ok "C"%string else Raise ValueError in
  let req := λ c, if decide (c = "A"%string) then [RClass "B"]
                  else if decide (c = "B"%string) then [RName "mod:C"] else [] in
  ∀ b, apply resolve (StepClass id (λ _, false)) 100 b [RClass "A"]%string req = Raise KeyError.
Proof. intros resolve req b. by vm_compute. Qed.

End Blueprint.

(** ** The life cycle of a blueprint *)

Module Lifecycle.

Inductive bstate := INITIALIZING | RUN | CLOSE | TERMINATE.

#[global] Instance bstate_eq_dec : EqDecision bstate.
Proof. solve_decision. Defined.

Inductive method := Mstart | Mclose | Mstop | Mterminate.

Abbreviation sid := nat.

(** Calls in the order in which they are made *)
Inductive event :=
| Call (m : method) (step : sid)
| OnStart
| OnClose
| OnStopped.

Record blueprint := BP {
  bp_state : bstate;
  bp_started : nat;
  bp_shutdown : bool;   (* shutdown_complete is set *)
  bp_log : list event;
}.

Definition set_state (s : bstate) (bp : blueprint) : blueprint :=
  BP s (bp_started bp) (bp_shutdown bp) (bp_log bp).
Definition set_started (n : nat) (bp : blueprint) : blueprint :=
  BP (bp_state bp) n (bp_shutdown bp) (bp_log bp).
Definition set_shutdown (bp : blueprint) : blueprint :=
  BP (bp_state bp) (bp_started bp) true (bp_log bp).
Definition emit (e : event) (bp : blueprint) : blueprint :=
  BP (bp_state bp) (bp_started bp) (bp_shutdown bp) (bp_log bp ++ [e]).

Section Lifecycle.
(** The code called: [run log e] is the outcome of call [e] after the calls
    [log]; [has m step] tells whether the step has method [m], and the flags
    whether the callbacks were given.  The called code does not call back into
    the blueprint. *)
Context (run : list event → event → outcome ()).
Context (has : method → sid → bool) (on_start on_close on_stopped : bool).
(** [parent.steps]; an entry may be [None] *)
Context (steps : list (option sid)).
Implicit Types (bp : blueprint).

(** The state after the call is returned along with its outcome, since
    exceptions do not undo anything. *)
Definition call (e : event) bp : blueprint * outcome () := (emit e bp, run (bp_log bp) e).

Definition callback (given : bool) (e : event) bp : blueprint * outcome () :=
  if given then call e bp else (bp, Ok ()).

(** [for i, step in enumerate(...)] of [start] *)
Fixpoint start_loop (i : nat) (l : list sid) bp : blueprint * outcome () :=
  match l with
  | [] => (bp, Ok ())
  | s :: l =>
      match call (Call Mstart s) (set_started (i + 1) bp) with
      | (bp, Ok _) => start_loop (i + 1) l bp
      | r => r
      end
  end.

Definition start bp : blueprint * outcome () :=
  match callback on_start OnStart (set_state RUN bp) with
  | (bp, Ok _) => start_loop 0 (omap id steps) bp
  | r => r
  end.

Fixpoint send_loop (m : method) (propagate : bool) (l : list (option sid)) bp : blueprint * outcome () :=
  match l with
  | [] => (bp, Ok ())
  | Some s :: l =>
      if has m s then
        match call (Call m s) bp with
        | (bp, Ok _) => send_loop m propagate l bp
        | (bp, Raise e) =>
            if negb (is_Exception e) || propagate then (bp, Raise e) else send_loop m propagate l bp
        | r => r
        end
      else send_loop m propagate l bp
  | None :: l => send_loop m propagate l bp
  end.

Definition send_all (m : method) (rev propagate : bool) bp : blueprint * outcome () :=
  send_loop m propagate (if rev then reverse steps else steps) bp.

Definition close bp : blueprint * outcome () :=
  match callback on_close OnClose bp with
  | (bp, Ok _) => send_all Mclose false true bp
  | r => r
  end.

Definition restart (m : method) (propagate : bool) bp : blueprint * outcome () :=
  send_all m true propagate bp.

Definition stop (terminate : bool) bp : blueprint * outcome () :=
  if bool_decide (bp_state bp = CLOSE ∨ bp_state bp = TERMINATE) then (bp, Ok ())
  else if bool_decide (bp_state bp ≠ RUN ∨ bp_started bp ≠ length steps) then
    (set_shutdown (set_state TERMINATE bp), Ok ())
  else
    match close bp with
    | (bp, Ok _) =>
        match restart (if terminate then Mterminate else Mstop) false (set_state CLOSE bp) with
        | (bp, Ok _) =>
            match callback on_stopped OnStopped bp with
            | (bp, Ok _) => (set_shutdown (set_state TERMINATE bp), Ok ())
            | r => r
            end
        | r => r
        end
    | r => r
    end.

(** *** Properties *)

Abbreviation calls m l := ((λ s, Call m s) <$> l).

Definition add_log (l : list event) bp : blueprint :=
  BP (bp_state bp) (bp_started bp) (bp_shutdown bp) (bp_log bp ++ l).

Lemma add_log_nil bp : add_log [] bp = bp.
Proof. destruct bp. unfold add_log. simpl. by rewrite app_nil_r. Qed.

Lemma add_log_app l1 l2 bp : add_log l2 (add_log l1 bp) = add_log (l1 ++ l2) bp.
Proof. unfold add_log. simpl. by rewrite <-app_assoc. Qed.

(** A call that returns, or raises an [Exception] that is not propagated *)
Definition tolerated (propagate : bool) (r : outcome ()) : Prop :=
  r = Ok () ∨ propagate = false ∧ ∃ e, r = Raise e ∧ is_Exception e = true.

Lemma send_loop_all m propagate l bp :
  (∀ s, s ∈ omap id l → has m s = true ∧ ∀ log, tolerated propagate (run log (Call m s))) →
  send_loop m propagate l bp = (add_log (calls m (omap id l)) bp, Ok ()).
Proof.
  revert bp. induction l as [|[s|] l IH]; intros bp Hl; simpl.
  - by rewrite add_log_nil.
  - destruct (Hl s) as [-> Ht]; [simpl; set_solver|]. unfold call.
    assert (send_loop m propagate l (emit (Call m s) bp) =
      (add_log (calls m (s :: omap id l)) bp, Ok ())) as Hrec.
    { rewrite IH by (intros s' ?; apply Hl; simpl; set_solver). f_equal.
      change (emit (Call m s) bp) with (add_log [Call m s] bp). apply add_log_app. }
    destruct (Ht (bp_log bp)) as [->|(-> & e & -> & ->)]; done.
  - apply IH. intros s ?. apply Hl. done.
Qed.

Lemma start_loop_all i l bp :
  (∀ s log, s ∈ l → run log (Call Mstart s) = Ok ()) →
  start_loop i l bp = (add_log (calls Mstart l) (set_started (if decide (l = []) then bp_started bp else i + length l)%nat bp), Ok ()).
Proof.
  revert i bp. induction l as [|s l IH]; intros i bp Hl; simpl.
  { rewrite add_log_nil. by destruct bp. }
  unfold call. rewrite Hl by set_solver. rewrite IH by set_solver.
  unfold add_log, set_started, emit. simpl. rewrite <-app_assoc. simpl.
  replace (if decide (l = []) then (i + 1)%nat else _) with (i + S (length l))%nat; [done|].
  case_decide; [subst l; simpl; lia|lia].
Qed.

Lemma omap_reverse (l : list (option sid)) : omap id (reverse l) = reverse (omap id l).
Proof.
  induction l as [|[s|] l IH]; [done|..]; rewrite reverse_cons, omap_app, IH; simpl.
  - by rewrite reverse_cons.
  - by rewrite app_nil_r.
Qed.

Lemma callback_ok given e bp :
  (∀ log, run log e = Ok ()) → callback given e bp = (add_log (if given then [e] else []) bp, Ok ()).
Proof.
  intros He. unfold callback, call. destruct given; [by rewrite He|]. by rewrite add_log_nil.
Qed.
End Lifecycle.

(** The life cycle of a blueprint whose steps all have the four methods.
    When starting succeeds, [start] calls the steps in order; the following
    [stop] closes them in order and then stops (or terminates) them in reverse
    order, every one of them even when others raise on the way, and leaves the
    blueprint terminated with [shutdown_complete] set; a further [stop] does
    nothing. *)
Theorem start_stop_order run has (on_start on_close on_stopped : bool) (l : list sid) bp (terminate : bool) :
  let m := if terminate then Mterminate else Mstop in
  l ≠ [] →
  (∀ m s, s ∈ l → has m s = true) →
  (∀ log e, (∀ s, e ≠ Call m s) → run log e = Ok ()) →
  (∀ log s, run log (Call m s) = Ok () ∨ ∃ e, run log (Call m s) = Raise e ∧ is_Exception e = true) →
  ∃ bp1 bp2,
    start run on_start (Some <$> l) bp = (bp1, Ok ()) ∧ bp_state bp1 = RUN ∧
    bp_log bp1 = bp_log bp ++ (if on_start then [OnStart] else []) ++ ((λ s, Call Mstart s) <$> l) ∧
    stop run has on_close on_stopped (Some <$> l) terminate bp1 = (bp2, Ok ()) ∧
    bp_state bp2 = TERMINATE ∧ bp_shutdown bp2 = true ∧
    bp_log bp2 = bp_log bp1 ++ (if on_close then [OnClose] else []) ++ ((λ s, Call Mclose s) <$> l) ++
                 ((λ s, Call m s) <$> reverse l) ++ (if on_stopped then [OnStopped] else []) ∧
    ∀ t, stop run has on_close on_stopped (Some <$> l) t bp2 = (bp2, Ok ()).
Proof.
  intros m Hne Hhas Hok Htol.
  assert (omap id (Some <$> l) = l) as Hom by (clear; induction l as [|s l IH]; simpl; [done|by f_equal]).
  assert (∀ m', m' ≠ m → ∀ log s, run log (Call m' s) = Ok ()) as Hok' by (intros m' ???; apply Hok; naive_solver).
  unfold start. rewrite callback_ok, Hom by (intros; by apply Hok).
  rewrite start_loop_all by (intros; apply Hok'; unfold m; by destruct terminate).
  rewrite decide_False by done. eexists. eexists.
  split; [reflexivity|]. split; [done|]. split; [simpl; by rewrite <-app_assoc|].
  unfold stop at 1. rewrite bool_decide_eq_false_2 by naive_solver.
  rewrite bool_decide_eq_false_2 by (simpl; rewrite length_fmap; intros [?|?]; done).
  unfold close. rewrite callback_ok by (intros; by apply Hok).
  unfold restart, send_all. rewrite send_loop_all.
  2:{ rewrite Hom. intros s Hs. split; [by apply Hhas|]. left. apply Hok'. unfold m; by destruct terminate. }
  rewrite send_loop_all.
  2:{ rewrite omap_reverse, Hom. intros s Hs. rewrite elem_of_reverse in Hs.
      split; [by apply Hhas|]. intros log. fold m.
      destruct (Htol log s) as [?|(e & ? & ?)]; [by left|right; eauto]. }
  rewrite callback_ok by (intros; by apply Hok).
  split; [reflexivity|]. split; [done|]. split; [done|]. split.
  - simpl. rewrite Hom, omap_reverse, Hom, <-!app_assoc. done.
  - intros t. unfold stop. rewrite bool_decide_eq_true_2; [done|]. by right.
Qed.

(** The second of three steps raises while it is stopped. *)
Lemma start_stop_order_witness :
  let run := λ (_ : list event) e, match e with Call Mstop 2 => Raise ValueError | _ => Ok () end in
  ∃ bp1 bp2,
    start run true (Some <$> [1; 2; 3]%nat) (BP INITIALIZING 0 false []) = (bp1, Ok ()) ∧ bp_state bp1 = RUN ∧
    bp_log bp1 = [] ++ [OnStart] ++ ((λ s, Call Mstart s) <$> [1; 2; 3]%nat) ∧
    stop run (λ _ _, true) false true (Some <$> [1; 2; 3]%nat) false bp1 = (bp2, Ok ()) ∧
    bp_state bp2 = TERMINATE ∧ bp_shutdown bp2 = true ∧
    bp_log bp2 = bp_log bp1 ++ [] ++ ((λ s, Call Mclose s) <$> [1; 2; 3]%nat) ++
                 ((λ s, Call Mstop s) <$> reverse [1; 2; 3]%nat) ++ [OnStopped] ∧
    ∀ t, stop run (λ _ _, true) false true (Some <$> [1; 2; 3]%nat) t bp2 = (bp2, Ok ()).
Proof.
  intros run. apply (start_stop_order run (λ _ _, true) true false true [1; 2; 3]%nat (BP INITIALIZING 0 false []) false).
  - done.
  - done.
  - intros log [[] s| | |] He; try done. by destruct (He s).
  - intros log [|[|[|s]]]; simpl; eauto.
Defined.

(** A blueprint that is not fully started is terminated without calling any
    step: the steps already started are not stopped. *)
Lemma stop_partial run has on_close on_stopped steps terminate bp :
  bp_state bp = RUN → bp_started bp ≠ length steps →
  stop run has on_close on_stopped steps terminate bp = (set_shutdown (set_state TERMINATE bp), Ok ()).
Proof.
  intros Hs Hn. unfold stop. rewrite bool_decide_eq_false_2 by (rewrite Hs; intros [?|?]; done).
  by rewrite bool_decide_eq_true_2 by auto.
Qed.

End Lifecycle.
