(* ===== verification/WorkerState.v ===== *)
(** The global state of a worker, celery/worker/state.py: the registries of the
    requests the worker knows, the totals, the revoked ids and their storage
    between restarts ([Persistent]).

    Task ids have a type with a total order (the order is only used by the heap
    of the limited sets).  Requests are identified by [rid]; a request set is a
    set of objects, and the fact that these sets hold their elements weakly is
    not modelled: every request here is alive. *)

From S2P Require Import Prelude PyDict PyHeap LimitedSet.
Import LimitedSet.
Local Open Scope Z_scope.

Module WorkerState.

(** [should_stop] and [should_terminate]: [None], [False], or an exit code *)
Inductive flag :=
| FNone
| FFalse
| FCode (n : Z).

Definition flag_set (f : flag) : bool :=
  match f with FCode _ => true | _ => false end.
Definition flag_truthy (f : flag) : bool :=
  match f with FCode n => negb (n =? 0) | _ => false end.

(** The value of a stamp header: one value or a sequence *)
Inductive header :=
| HOne (v : string)
| HMany (l : list string).

Section State.
Context {K : Type} `{!EqDecision K}.
Context (kle : relation K) `{!RelDecision kle, !Total kle, !Transitive kle}.
Context {rid : Type} `{!EqDecision rid, !Countable rid}.
Context (req_id : rid → K) (req_name : rid → string).

Record worker_state := WS {
  requests : pydict K rid;
  reserved_requests : gset rid;
  active_requests : gset rid;
  scheduled_requests : gset rid;
  successful_requests : @limited_set K;
  total_count : pydict string Z;
  all_total_count : Z;
  revoked : @limited_set K;
  revoked_stamps : pydict string header;
  should_stop : flag;
  should_terminate : flag;
}.
Implicit Types (w : worker_state) (r : rid).

Definition with_sets w reqs res act sch : worker_state :=
  WS reqs res act sch (successful_requests w) (total_count w) (all_total_count w) (revoked w)
     (revoked_stamps w) (should_stop w) (should_terminate w).
Definition with_revoked w rev : worker_state :=
  WS (requests w) (reserved_requests w) (active_requests w) (scheduled_requests w) (successful_requests w)
     (total_count w) (all_total_count w) rev (revoked_stamps w) (should_stop w) (should_terminate w).
Definition with_successful w s : worker_state :=
  WS (requests w) (reserved_requests w) (active_requests w) (scheduled_requests w) s
     (total_count w) (all_total_count w) (revoked w) (revoked_stamps w) (should_stop w) (should_terminate w).
Definition with_totals w t a : worker_state :=
  WS (requests w) (reserved_requests w) (active_requests w) (scheduled_requests w) (successful_requests w)
     t a (revoked w) (revoked_stamps w) (should_stop w) (should_terminate w).

(** ** Operations *)

Definition reset_state w : worker_state :=
  WS [] ∅ ∅ ∅ (clear (successful_requests w)) [] 0 (clear (revoked w)) [] (should_stop w) (should_terminate w).

Definition maybe_shutdown w : outcome () :=
  if flag_set (should_terminate w) then Raise WorkerTerminate
  else if flag_set (should_stop w) then Raise WorkerShutdown
  else Ok ().

Definition task_reserved w r : worker_state :=
  with_sets w (dict_set (requests w) (req_id r) r) ({[r]} ∪ reserved_requests w) (active_requests w)
            (scheduled_requests w ∖ {[r]}).

Definition task_scheduled w r : worker_state :=
  if bool_decide (r ∈ reserved_requests w ∨ r ∈ active_requests w) then w
  else with_sets w (dict_set (requests w) (req_id r) r) (reserved_requests w) (active_requests w)
                 ({[r]} ∪ scheduled_requests w).

Definition task_accepted w r : worker_state :=
  let w := with_sets w (dict_set (requests w) (req_id r) r) (reserved_requests w) ({[r]} ∪ active_requests w)
                     (scheduled_requests w) in
  with_totals w (dict_set (total_count w) (req_name r) (default 0 (dict_get (total_count w) (req_name r)) + 1))
              (all_total_count w + 1).

(** [clk] and [pclk] are the clock readings of the set of successful ids *)
Definition task_ready w r (successful : bool) (clk pclk : Z) : outcome worker_state :=
  let! w := (if successful then
               let! s := add kle (successful_requests w) (req_id r) None clk pclk in Ok (with_successful w s)
             else Ok w) in
  Ok (with_sets w (dict_del (requests w) (req_id r)) (reserved_requests w ∖ {[r]}) (active_requests w ∖ {[r]})
                (scheduled_requests w ∖ {[r]})).

(** What is merged: the ids of an iterable, or of a set (oldest first) *)
Inductive saved :=
| SavedIds (l : list K)
| SavedSet (s : @limited_set K).

Definition saved_ids (v : saved) : list K :=
  match v with SavedIds l => l | SavedSet s => iter kle s end.

Definition saved_truthy (v : saved) : bool :=
  match v with SavedIds l => negb (bool_decide (l = [])) | SavedSet s => negb (ls_len s =? 0) end.

Definition merge_revoked w (v : saved) (clk : nat → Z * Z) : outcome worker_state :=
  if negb (saved_truthy v) then Ok w
  else let! s := update kle (revoked w) (UpdIter (saved_ids v)) clk in Ok (with_revoked w s).

(** ** [Persistent] *)

Section Persistent.
(** The compressed pickles ([zlib], [pickle]) and the logical clock of kombu *)
Context {B C : Type} (nonempty : B → bool) (dumps : @limited_set K → B) (loads : B → (nat → Z * Z) → outcome saved).
Context (clock_adjust : C → Z → C * Z) (clock_forward : C → C * Z).

Record db := DB { db_zrevoked : option B; db_revoked : option saved; db_clock : option Z }.

Definition merge_revoked_v3 w (z : B) (lclk clk : nat → Z * Z) : outcome worker_state :=
  if nonempty z then let! v := loads z lclk in merge_revoked w v clk else Ok w.

(** The [KeyError] handlers: a missing key, or one raised while merging *)
Definition merge_revoked_db w (d : db) (lclk clk : nat → Z * Z) (now : Z) : outcome (worker_state * db) :=
  let fallback (_ : exn) :=
    match db_revoked d with
    | None => Ok (w, d)
    | Some v =>
        otry (let! w := merge_revoked w v clk in Ok (w, DB (db_zrevoked d) None (db_clock d)))
             (λ e, if bool_decide (e = KeyError) then Ok (w, DB (db_zrevoked d) None (db_clock d)) else Raise e)
    end in
  let! p := match db_zrevoked d with
            | None => fallback KeyError
            | Some z =>
                otry (let! w := merge_revoked_v3 w z lclk clk in Ok (w, d))
                     (λ e, if bool_decide (e = KeyError) then fallback e else Raise e)
            end in
  let '(w, d) := p in
  let! s := purge now (revoked w) in
  Ok (with_revoked w s, d).

Definition merge_clock (c : option C) (d : db) : option C * db :=
  match c with
  | None => (None, d)
  | Some c => let '(c, v) := clock_adjust c (default 0 (db_clock d)) in (Some c, DB (db_zrevoked d) (db_revoked d) (Some v))
  end.

Definition merge_with w (c : option C) (d : db) lclk clk now : outcome (worker_state * option C * db) :=
  let! (w, d) := merge_revoked_db w d lclk clk now in
  let '(c, d) := merge_clock c d in
  Ok (w, c, d).

Definition sync_with w (c : option C) (d : db) (now : Z) : outcome (worker_state * option C * db) :=
  let! s := purge now (revoked w) in
  let '(c, v) := match c with None => (None, 0) | Some c => let '(c, v) := clock_forward c in (Some c, v) end in
  Ok (with_revoked w s, c, DB (Some (dumps s)) (db_revoked d) (Some v)).
End Persistent.

(** ** The registries *)

Definition known w : gset rid := reserved_requests w ∪ active_requests w ∪ scheduled_requests w.

(** The dictionary holds exactly the requests of the three sets, under their
    ids; a scheduled request is neither reserved nor active; the totals agree. *)
Record registry_inv w : Prop := {
  ri_wf : dict_wf (requests w);
  ri_known : ∀ k r, dict_get (requests w) k = Some r ↔ r ∈ known w ∧ k = req_id r;
  ri_scheduled : scheduled_requests w ## reserved_requests w ∪ active_requests w;
  ri_total : all_total_count w = foldr Z.add 0 (dict_values (total_count w));
}.

Inductive op :=
| OReserved (r : rid)
| OScheduled (r : rid)
| OAccepted (r : rid)
| OReady (r : rid) (successful : bool) (clk pclk : Z)
| OReset.

Definition run_op w (o : op) : outcome worker_state :=
  match o with
  | OReserved r => Ok (task_reserved w r)
  | OScheduled r => Ok (task_scheduled w r)
  | OAccepted r => Ok (task_accepted w r)
  | OReady r b clk pclk => task_ready w r b clk pclk
  | OReset => Ok (reset_state w)
  end.

(** A request is handed to the pool, and so accepted by it, only after it was
    reserved. *)
Definition op_ok w (o : op) : Prop :=
  match o with OAccepted r => r ∈ reserved_requests w | _ => True end.

Definition sum_values (d : pydict string Z) : Z := foldr Z.add 0 (dict_values d).

Lemma sum_values_set (d : pydict string Z) k v :
  sum_values (dict_set d k v) = sum_values d - default 0 (dict_get d k) + v.
Proof.
  unfold sum_values. induction d as [|[k' v'] d IH]; simpl; [lia|]. case_decide; simpl; [lia|]. lia.
Qed.

Section Registry.
Context (Hid : ∀ r r', req_id r = req_id r' → r = r').

(** Registering a request under its id *)
Lemma register_known (d : pydict K rid) (s s' : gset rid) r :
  (∀ k x, dict_get d k = Some x ↔ x ∈ s ∧ k = req_id x) → s' = {[r]} ∪ s →
  ∀ k x, dict_get (dict_set d (req_id r) r) k = Some x ↔ x ∈ s' ∧ k = req_id x.
Proof.
  intros Hd -> k x. rewrite dict_get_set, elem_of_union, elem_of_singleton. case_decide as Hk.
  - subst k. split; [intros [= ->]; auto|]. intros [_ Heq]. by rewrite (Hid _ _ Heq).
  - rewrite Hd. split; [naive_solver|]. intros [[->|?] ->]; [done|auto].
Qed.

(** Unregistering it *)
Lemma unregister_known (d : pydict K rid) (s s' : gset rid) r :
  dict_wf d → (∀ k x, dict_get d k = Some x ↔ x ∈ s ∧ k = req_id x) → s' = s ∖ {[r]} →
  ∀ k x, dict_get (dict_del d (req_id r)) k = Some x ↔ x ∈ s' ∧ k = req_id x.
Proof.
  intros Hwf Hd -> k x. rewrite elem_of_difference, elem_of_singleton.
  destruct (decide (req_id r = k)) as [<-|Hne].
  - rewrite dict_get_del_eq by done. split; [done|]. intros [[_ Hx] Heq]. destruct Hx. symmetry. by apply Hid.
  - rewrite dict_get_del_ne by done. rewrite Hd. naive_solver.
Qed.

Lemma run_op_inv w o :
  registry_inv w → ls_good kle (successful_requests w) → op_ok w o →
  ∃ w', run_op w o = Ok w' ∧ registry_inv w' ∧ ls_good kle (successful_requests w').
Proof.
  intros [Hwf Hk Hs Ht] Hg Ho. unfold known in Hk. destruct o as [r|r|r|r b clk pclk|]; simpl in *.
  - eexists. split; [done|]. split; [|done]. split; simpl; [by apply dict_set_wf| |set_solver|done].
    eapply register_known; [done|]. unfold known. simpl. unfold_leibniz. set_unfold.
    intros x. destruct (decide (x = r)); tauto.
  - unfold task_scheduled. case_bool_decide as Hr; [eexists; by split|].
    eexists. split; [done|]. split; [|done]. split; simpl; [by apply dict_set_wf| |set_solver|done].
    eapply register_known; [done|]. unfold known. simpl. set_solver.
  - eexists. split; [done|]. split; [|done].
    split; simpl; [by apply dict_set_wf| |set_solver|].
    + eapply register_known; [done|]. unfold known. simpl. set_solver.
    + fold (sum_values (dict_set (total_count w) (req_name r) (default 0 (dict_get (total_count w) (req_name r)) + 1))).
      rewrite sum_values_set. unfold sum_values. lia.
  - assert (∃ w1, (if b then let! s := add kle (successful_requests w) (req_id r) None clk pclk in Ok (with_successful w s)
                   else Ok w) = Ok w1 ∧ ls_good kle (successful_requests w1) ∧ requests w1 = requests w ∧
              reserved_requests w1 = reserved_requests w ∧ active_requests w1 = active_requests w ∧
              scheduled_requests w1 = scheduled_requests w ∧ total_count w1 = total_count w ∧
              all_total_count w1 = all_total_count w) as (w1 & Hw & Hg1 & E1 & E2 & E3 & E4 & E5 & E6).
    { destruct b; [|by exists w]. destruct (add_good kle _ (req_id r) None clk pclk Hg) as (s & -> & ?). simpl. eauto 10. }
    unfold task_ready. rewrite Hw. simpl. eexists. split; [done|]. split; [|done].
    split; simpl; rewrite ?E1, ?E2, ?E3, ?E4, ?E5, ?E6; [by apply dict_del_wf| |set_solver|done].
    eapply unregister_known; [done..|]. unfold known. simpl. set_solver.
  - eexists. split; [done|]. split.
    + split; simpl; [constructor| |set_solver|done]. intros k x. unfold known. set_solver.
    + destruct (ls_run_good kle _ OpClear Hg I) as (s & [= <-] & ?). done.
Qed.
End Registry.

Definition step w w' : Prop := ∃ o, op_ok w o ∧ run_op w o = Ok w'.

(** The registries of the worker stay consistent, for calls that do not overlap:
    whatever the order in which distinct tasks are scheduled, reserved, accepted and
    finished, every operation succeeds, the dictionary of requests holds exactly the
    requests that are reserved, active or scheduled, each under its id; a scheduled
    request is never reserved or active at the same time; the overall count is
    the sum of the counts by type; and a request that is ready is forgotten.
    RegistryRaces.v has what is left of this when calls from several threads
    overlap. *)
Theorem registry_consistent w w' :
  (∀ r r', req_id r = req_id r' → r = r') →
  registry_inv w → ls_good kle (successful_requests w) → rtc step w w' →
  registry_inv w' ∧ (∀ o, op_ok w' o → is_Ok (run_op w' o)) ∧
  (∀ r b clk pclk w'', task_ready w' r b clk pclk = Ok w'' →
     r ∉ known w'' ∧ dict_get (requests w'') (req_id r) = None).
Proof.
  intros Hid Hw Hg Hsteps.
  assert (registry_inv w' ∧ ls_good kle (successful_requests w')) as [Hw' Hg'].
  { induction Hsteps as [|w1 w2 w3 (o & Ho & Hrun) _ IH]; [done|].
    destruct (run_op_inv Hid w1 o Hw Hg Ho) as (w2' & Hrun' & ? & ?). rewrite Hrun in Hrun'. injection Hrun' as <-. by apply IH. }
  split_and!; [done| |].
  - intros o Ho. destruct (run_op_inv Hid w' o Hw' Hg' Ho) as (w2 & -> & _). by exists w2.
  - intros r b clk pclk w'' Hr. destruct (run_op_inv Hid w' (OReady r b clk pclk) Hw' Hg' I) as (w2 & Hrun & Hinv & _).
    simpl in Hrun. rewrite Hr in Hrun. injection Hrun as <-. unfold task_ready in Hr. apply obind_Ok in Hr as (w1 & _ & [= <-]).
    assert (r ∉ known (with_sets w1 (dict_del (requests w1) (req_id r)) (reserved_requests w1 ∖ {[r]})
      (active_requests w1 ∖ {[r]}) (scheduled_requests w1 ∖ {[r]}))) as Hnk by (unfold known; set_solver).
    split; [done|]. destruct (dict_get _ _) as [r'|] eqn:E; [|done].
    apply (ri_known _ Hinv) in E as [Hin Heq]. apply Hid in Heq. by subst.
Qed.

(** *** Restarts *)

Section Restart.
Context {B C : Type} (nonempty : B → bool) (dumps : @limited_set K → B) (loads : B → (nat → Z * Z) → outcome saved).
Context (clock_adjust : C → Z → C * Z) (clock_forward : C → C * Z).

(** Revoked ids survive a restart.  A worker that syncs its state and a
    new one, with an empty set, that merges what was stored end up with the
    same revoked ids, as long as the set is below its limit; the ids have
    local stamps after the merge, whatever the clock of the first worker was.
    Pickling a set amounts to rebuilding it with [__reduce__], and the pickle
    of a set is not empty. *)
Theorem revoked_survive_restart w w0 c c0 d now lclk clk now' t0 :
  (∀ s lclk, loads (dumps s) lclk = let! s' := rebuild kle s lclk in Ok (SavedSet s')) →
  (∀ s, nonempty (dumps s) = true) →
  ls_good kle (revoked w) → ls_good kle (revoked w0) → ls_data (revoked w0) = [] → ls_heap (revoked w0) = [] →
  ls_maxlen (revoked w0) = ls_maxlen (revoked w) →
  (ls_maxlen (revoked w) = 0 ∨ ls_len (revoked w) < ls_maxlen (revoked w)) →
  (∀ j, t0 <= (clk j).1) → now' < t0 + ls_expires (revoked w0) →
  ∃ w1 c1 d1 w2 c2 d2,
    sync_with dumps clock_forward w c d now = Ok (w1, c1, d1) ∧
    merge_with nonempty loads clock_adjust w0 c0 d1 lclk clk now' = Ok (w2, c2, d2) ∧
    (∀ k, ls_contains (revoked w2) k = ls_contains (revoked w1) k) ∧
    (∀ k e, (k, e) ∈ ls_data (revoked w2) → t0 <= stamp e).
Proof.
  intros Hpickle Hne (Hi & Hl & Hb) (Hi0 & Hl0 & Hb0) Hd0 Hh0 Hm Hlen Hclk Hnow.
  destruct (purge_spec kle now (revoked w) Hi Hl) as (s1 & Hpurge & Hi1 & Hr & _).
  pose proof (ls_len_reduces _ _ Hr) as Hlen1. pose proof (ls_reduces_limits _ _ Hr Hl) as Hl1.
  destruct Hr as [(Hm1 & _ & _ & _) _ _].
  destruct (rebuild_below kle s1 lclk Hi1 Hl1) as (s2 & Hreb & Hi2 & Hk2 & Hm2 & _); [rewrite Hm1; lia|].
  destruct (add_items_append kle (revoked w0) (iter kle s2) clk 0) as (s3 & Hadd & Hi3 & Hk3 & Hst & Hm3 & Hn3 & Hx3).
  { done. }
  { rewrite iter_perm by done. apply Hi2. }
  { rewrite Hd0. set_solver. }
  { assert (Z.of_nat (length (iter kle s2)) = ls_len s1) as ->.
    { rewrite iter_perm, Hk2 by done. unfold ls_len, dict_keys. by rewrite length_fmap. }
    unfold ls_len in *. rewrite Hm, Hd0. simpl. lia. }
  assert (∀ e, e ∈ ls_heap s3 → t0 <= stamp e) as Hstamp.
  { intros e [He|[j ->]]%Hst; [rewrite Hh0 in He; set_solver|done]. }
  assert (purge now' s3 = Ok s3) as Hpurge3.
  { apply (purge_fresh kle); [done| |].
    - rewrite Hm3, Hm. intros Hne0. unfold ls_len. rewrite <-(length_fmap fst (ls_data s3)).
      fold (dict_keys (ls_data s3)). rewrite Hk3, Hd0. simpl. rewrite iter_perm, Hk2 by done.
      unfold dict_keys. rewrite length_fmap. unfold ls_len in *. lia.
    - intros _ e He%Hstamp. lia. }
  unfold sync_with, merge_with, merge_revoked_db, merge_revoked_v3. rewrite Hpurge. cbn [obind].
  destruct (match c with None => _ | Some c => _ end) as [c1 v].
  exists (with_revoked w s1), c1, (DB (Some (dumps s1)) (db_revoked d) (Some v)). cbn [db_zrevoked db_revoked db_clock].
  rewrite Hne, Hpickle, Hreb. cbn [obind].
  assert (∃ w2, merge_revoked w0 (SavedSet s2) clk = Ok w2 ∧ purge now' (revoked w2) = Ok (revoked w2) ∧
    dict_keys (ls_data (revoked w2)) ≡ₚ dict_keys (ls_data s1) ∧
    ∀ k e, (k, e) ∈ ls_data (revoked w2) → t0 <= stamp e) as (w2 & -> & Hp2 & Hk & Hs).
  { unfold merge_revoked, saved_truthy, saved_ids.
    destruct (ls_len s2 =? 0) eqn:E; zbool; cbn [negb].
    - exists w0. split_and!; [done| | |rewrite Hd0; set_solver].
      + apply (purge_fresh kle); [done|done|]. rewrite Hh0. set_solver.
      + rewrite Hd0, <-Hk2. unfold ls_len in E. by destruct (ls_data s2).
    - cbn [update]. rewrite Hadd. cbn [obind]. eexists. split_and!; [done|done| |].
      + simpl. rewrite Hk3, Hd0. simpl. by rewrite iter_perm, Hk2.
      + simpl. intros k e He. apply Hstamp. by apply (inv_heap _ _ Hi3 k). }
  cbn [obind otry]. rewrite Hp2. cbn [obind].
  destruct (merge_clock _ c0 _) as [c2 d2]. do 3 eexists. split; [done|]. split; [done|]. simpl. split.
  - intros k. unfold ls_contains. apply eq_bool_prop_intro. rewrite !Is_true_true, !dict_in_true, Hk. done.
  - intros k e. apply Hs.
Qed.
End Restart.
End State.

(** ** Witnesses *)

Definition boot_state : @worker_state nat nat _ _ :=
  WS [] ∅ ∅ ∅ (LS 1000 0 10800 [] [] 0) [] 0 (LS 50 0 10800 [] [] 0) [] FNone FNone.

Lemma empty_good (maxlen expires : Z) (s : @limited_set nat) :
  s = LS maxlen 0 expires [] [] 0 → 0 <= maxlen → 0 <= expires → ls_good Nat.le s.
Proof.
  intros -> ??. split_and!; [|unfold ls_limits; simpl; lia|unfold ls_len; simpl; lia].
  split; simpl; [constructor|set_solver|set_solver|constructor].
Qed.

Lemma boot_inv : registry_inv id boot_state.
Proof. split; simpl; [constructor|intros k r; unfold known; set_solver|set_solver|done]. Qed.

(** Task 7 is scheduled, its time comes and it is accepted by the pool. *)
Lemma registry_consistent_witness :
  let w := task_accepted id (λ _, "add"%string) (task_reserved id (task_scheduled id boot_state 7%nat) 7%nat) 7%nat in
  registry_inv id w ∧ (∀ o, op_ok w o → is_Ok (run_op Nat.le id (λ _, "add"%string) w o)) ∧
  (∀ r b clk pclk w'', task_ready Nat.le id w r b clk pclk = Ok w'' →
     r ∉ known w'' ∧ dict_get (requests w'') r = None).
Proof.
  intros w. apply (registry_consistent Nat.le id (λ _, "add"%string) boot_state w).
  - done.
  - apply boot_inv.
  - eapply empty_good; [reflexivity|lia|lia].
  - eapply rtc_l; [by exists (OScheduled 7%nat)|]. eapply rtc_l; [by exists (OReserved 7%nat)|].
    eapply rtc_once. exists (OAccepted 7%nat). split; [|done]. simpl; set_solver.
Defined.

(** Pickles as the sets themselves, and a counter as the clock *)
Definition ex_loads (b : @limited_set nat) (lclk : nat → Z * Z) : outcome (@saved nat) :=
  let! s := rebuild Nat.le b lclk in Ok (SavedSet s).
Definition ex_clk (j : nat) : Z * Z := (5, 5).

Lemma revoked_survive_restart_witness :
  ∃ s, add_items Nat.le (revoked boot_state) [1; 2; 3]%nat (λ j, (100, 100)) 0 = Ok s ∧
  ∃ w1 c1 d1 w2 c2 d2,
    sync_with id (λ c, (c + 1, c + 1)) (with_revoked boot_state s) (Some 41) (DB None None None) 120 = Ok (w1, c1, d1) ∧
    merge_with Nat.le (λ _, true) ex_loads (λ c v, (Z.max c v + 1, Z.max c v + 1)) boot_state (Some 0) d1 ex_clk ex_clk 6
      = Ok (w2, c2, d2) ∧
    (∀ k, ls_contains (revoked w2) k = ls_contains (revoked w1) k) ∧
    (∀ k e, (k, e) ∈ ls_data (revoked w2) → 5 <= stamp e).
Proof.
  eexists. split; [reflexivity|].
  apply (revoked_survive_restart Nat.le); [done|done| |eapply empty_good; [done|lia|lia]|done|done|done| |done|simpl; lia].
  - match goal with |- ls_good _ (revoked (with_revoked _ ?s)) => enough (ls_good Nat.le s) by done end.
    destruct (add_items_good Nat.le (revoked boot_state) [1; 2; 3]%nat (λ j, (100, 100)) 0) as (s & Hs & Hg).
    { eapply empty_good; [done|lia|lia]. }
    vm_compute in Hs. injection Hs as Hs. subst s. exact Hg.
  - right. vm_compute. done.
Defined.

End WorkerState.
