(* ===== verification/RegistryRaces.v ===== *)
(** Registering requests from several threads (celery/worker/state.py,
    celery/worker/strategy.py).

    The strategy puts a request with an ETA on the timer and then calls
    [task_scheduled].  A timer with a thread of its own may fire at once, so the
    request can be reserved, accepted and even finished before or while
    [task_scheduled] runs.  Here the functions of the registry are sequences of
    operations on the dictionary and the sets, each of them atomic, and the two
    activities of each request, and those of different requests, take turns after
    every operation.  [reserved_ops] and the like say that the sequences are the
    functions of WorkerState.v.  The counters and the set of successful ids are left
    out, and connections are not lost meanwhile (for [on_close] see Consumer.v). *)

From S2P Require Import Prelude PyDict LimitedSet WorkerState.
From stdpp Require Import functions.
Import WorkerState.

Module RegistryRaces.

Section Races.
Context {K : Type} `{!EqDecision K}.
Context {rid : Type} `{!EqDecision rid, !Countable rid}.
Context (req_id : rid → K).

Record registry := Registry {
  reqs : pydict K rid; reserved : gset rid; active : gset rid; scheduled : gset rid }.

Definition registry_of (w : worker_state) : registry :=
  Registry (requests w) (reserved_requests w) (active_requests w) (scheduled_requests w).

(** ** Operations on the dictionary and the sets *)

Inductive prim := AddRequest | AddReserved | AddActive | AddScheduled
                | RemoveRequest | DiscardActive | DiscardReserved | DiscardScheduled.
#[global] Instance prim_eq_dec : EqDecision prim.
Proof. solve_decision. Defined.

Definition apply_prim (r : rid) (g : registry) (p : prim) : registry :=
  match p with
  | AddRequest => Registry (dict_set (reqs g) (req_id r) r) (reserved g) (active g) (scheduled g)
  | RemoveRequest => Registry (dict_del (reqs g) (req_id r)) (reserved g) (active g) (scheduled g)
  | AddReserved => Registry (reqs g) ({[r]} ∪ reserved g) (active g) (scheduled g)
  | AddActive => Registry (reqs g) (reserved g) ({[r]} ∪ active g) (scheduled g)
  | AddScheduled => Registry (reqs g) (reserved g) (active g) ({[r]} ∪ scheduled g)
  | DiscardActive => Registry (reqs g) (reserved g) (active g ∖ {[r]}) (scheduled g)
  | DiscardReserved => Registry (reqs g) (reserved g ∖ {[r]}) (active g) (scheduled g)
  | DiscardScheduled => Registry (reqs g) (reserved g) (active g) (scheduled g ∖ {[r]})
  end.

Definition reserved_prims : list prim := [AddRequest; AddReserved; DiscardScheduled].
Definition accepted_prims : list prim := [AddRequest; AddActive].
Definition ready_prims : list prim := [RemoveRequest; DiscardActive; DiscardReserved; DiscardScheduled].
Definition scheduled_prims : list prim := [AddRequest; AddScheduled].

(** the test of [task_scheduled], one step: a request is active only while it is
    reserved, so that reading the two sets one after the other gives no other answer *)
Definition moved_on (r : rid) (g : registry) : bool := bool_decide (r ∈ reserved g ∨ r ∈ active g).

(** One after the other they are the functions of the module. *)
Lemma reserved_ops w r : registry_of (task_reserved req_id w r) = foldl (apply_prim r) (registry_of w) reserved_prims.
Proof. done. Qed.
Lemma accepted_ops name w r : registry_of (task_accepted req_id name w r) = foldl (apply_prim r) (registry_of w) accepted_prims.
Proof. done. Qed.
Lemma scheduled_ops w r :
  registry_of (task_scheduled req_id w r) =
  if moved_on r (registry_of w) then registry_of w else foldl (apply_prim r) (registry_of w) scheduled_prims.
Proof. unfold task_scheduled, moved_on. simpl. by case_bool_decide. Qed.
Lemma ready_ops kle `{!RelDecision kle} w r b clk pclk w' :
  task_ready kle req_id w r b clk pclk = Ok w' → registry_of w' = foldl (apply_prim r) (registry_of w) ready_prims.
Proof.
  unfold task_ready. intros (w1 & Hw1 & [= <-])%obind_Ok. destruct b; [|by injection Hw1 as <-].
  apply obind_Ok in Hw1 as (s & _ & [= <-]). done.
Qed.

(** ** Two activities per request *)

(** Requests with an ETA or countdown *)
Context (has_eta : rid → bool).

(** [task_scheduled], called by the strategy: not yet; after the test; what is left to
    do; over, and whether that was before the request began to be reserved; or over
    since the request had moved on *)
Inductive scheduling := NotYet | Scheduling (left : list prim) | Scheduled (before : bool) | MovedOn.

(** The life of a request: waiting for its ETA or to be handled, [task_reserved],
    waiting for the pool, [task_accepted], running, [task_ready], and gone.  From the
    start of [task_ready] on: whether the call of [task_scheduled] was over then *)
Inductive life :=
| Waiting | Reserving (left : list prim) | Queued | Accepting (left : list prim) | Running
| Finishing (left : list prim) (over : bool) | Gone (over : bool).

Record config := Config { reg : registry; strat : rid → scheduling; lives : rid → life }.

Definition is_over (r : rid) (s : scheduling) : bool :=
  negb (has_eta r) || match s with Scheduled _ | MovedOn => true | _ => false end.
Definition is_waiting (l : life) : bool := match l with Waiting => true | _ => false end.

(** The next operation of [task_scheduled], from what its test sees and whether the
    request is still waiting *)
Inductive next_scheduling (moved waiting : bool) : scheduling → option prim → scheduling → Prop :=
| n_test : next_scheduling moved waiting NotYet None (if moved then MovedOn else Scheduling scheduled_prims)
| n_scheduling p ps :
    next_scheduling moved waiting (Scheduling (p :: ps)) (Some p) (match ps with [] => Scheduled waiting | _ => Scheduling ps end).

(** A request that is revoked or has expired is finished without being accepted. *)
Inductive next_life (over : bool) : life → option prim → life → Prop :=
| n_reserve : next_life over Waiting None (Reserving reserved_prims)
| n_reserving p ps : next_life over (Reserving (p :: ps)) (Some p) (match ps with [] => Queued | _ => Reserving ps end)
| n_accept : next_life over Queued None (Accepting accepted_prims)
| n_accepting p ps : next_life over (Accepting (p :: ps)) (Some p) (match ps with [] => Running | _ => Accepting ps end)
| n_refuse : next_life over Queued None (Finishing ready_prims over)
| n_ready : next_life over Running None (Finishing ready_prims over)
| n_finishing p ps o : next_life over (Finishing (p :: ps) o) (Some p) (match ps with [] => Gone o | _ => Finishing ps o end).

Definition perform (r : rid) (p : option prim) (g : registry) : registry :=
  match p with Some p => apply_prim r g p | None => g end.

Inductive step : config → config → Prop :=
| step_strategy r c p s :
    has_eta r = true → next_scheduling (moved_on r (reg c)) (is_waiting (lives c r)) (strat c r) p s →
    step c (Config (perform r p (reg c)) (<[r := s]> (strat c)) (lives c))
| step_life r c p l :
    next_life (is_over r (strat c r)) (lives c r) p l →
    step c (Config (perform r p (reg c)) (strat c) (<[r := l]> (lives c))).

Definition start : config := Config (Registry [] ∅ ∅ ∅) (λ _, NotYet) (λ _, Waiting).

(** ** Schedules *)

Inductive move := MStrategy (r : rid) | MLife (r : rid) | MRefuse (r : rid).

Definition life_next (refuse over : bool) (l : life) : option (option prim * life) :=
  match l with
  | Waiting => Some (None, Reserving reserved_prims)
  | Reserving (p :: ps) => Some (Some p, match ps with [] => Queued | _ => Reserving ps end)
  | Queued => Some (None, if refuse then Finishing ready_prims over else Accepting accepted_prims)
  | Accepting (p :: ps) => Some (Some p, match ps with [] => Running | _ => Accepting ps end)
  | Running => Some (None, Finishing ready_prims over)
  | Finishing (p :: ps) o => Some (Some p, match ps with [] => Gone o | _ => Finishing ps o end)
  | _ => None
  end.
Definition scheduling_next (moved waiting : bool) (s : scheduling) : option (option prim * scheduling) :=
  match s with
  | NotYet => Some (None, if moved then MovedOn else Scheduling scheduled_prims)
  | Scheduling (p :: ps) => Some (Some p, match ps with [] => Scheduled waiting | _ => Scheduling ps end)
  | _ => None
  end.

Definition make_move (c : config) (m : move) : option config :=
  let live r b := '(p, l) ← life_next b (is_over r (strat c r)) (lives c r); Some (Config (perform r p (reg c)) (strat c) (<[r := l]> (lives c))) in
  match m with
  | MStrategy r =>
      if has_eta r then
        '(p, s) ← scheduling_next (moved_on r (reg c)) (is_waiting (lives c r)) (strat c r);
        Some (Config (perform r p (reg c)) (<[r := s]> (strat c)) (lives c))
      else None
  | MLife r => live r false
  | MRefuse r => live r true
  end.
Fixpoint schedule (ms : list move) (c : config) : option config :=
  match ms with [] => Some c | m :: ms => c' ← make_move c m; schedule ms c' end.

Lemma make_move_step c m c' : make_move c m = Some c' → step c c'.
Proof.
  assert (∀ b o l p l', life_next b o l = Some (p, l') → next_life o l p l') as Hl.
  { intros b o l p l' Hn. destruct l as [|[|q qs]| |[|q qs]| |[|q qs] o'|]; simplify_eq/=; try constructor. destruct b; constructor. }
  assert (∀ r b c', ('(p, l) ← life_next b (is_over r (strat c r)) (lives c r);
            Some (Config (perform r p (reg c)) (strat c) (<[r := l]> (lives c)))) = Some c' → step c c') as Hlife.
  { intros r b c1. destruct (life_next _ _ _) as [[p l]|] eqn:E; [|done]. intros [= <-]. apply step_life. by eapply Hl. }
  destruct m as [r|r|r]; simpl; [|apply Hlife..]. destruct (has_eta r) eqn:He; [|done].
  destruct (scheduling_next _ _ _) as [[p s]|] eqn:E; [|done]. intros [= <-]. apply step_strategy; [done|].
  destruct (strat c r) as [|[|q qs]| |]; simplify_eq/=; constructor.
Qed.

Lemma schedule_reached ms c c' : schedule ms c = Some c' → rtc step c c'.
Proof.
  revert c; induction ms as [|m ms IH]; intros c; simpl; [by intros [= <-]|].
  destruct (make_move c m) as [c1|] eqn:E; [|done]. intros H. eapply rtc_l; [by apply make_move_step in E|by apply IH].
Qed.

(** ** What is known of one request *)

(** What the registry holds of a request *)
Record view := View { v_req : bool; v_res : bool; v_act : bool; v_sch : bool }.
Definition view_of (g : registry) (r : rid) : view :=
  View (bool_decide (dict_get (reqs g) (req_id r) = Some r)) (bool_decide (r ∈ reserved g)) (bool_decide (r ∈ active g))
       (bool_decide (r ∈ scheduled g)).
Definition view_prim (v : view) (p : prim) : view :=
  match p with
  | AddRequest => View true (v_res v) (v_act v) (v_sch v)
  | RemoveRequest => View false (v_res v) (v_act v) (v_sch v)
  | AddReserved => View (v_req v) true (v_act v) (v_sch v)
  | AddActive => View (v_req v) (v_res v) true (v_sch v)
  | AddScheduled => View (v_req v) (v_res v) (v_act v) true
  | DiscardActive => View (v_req v) (v_res v) false (v_sch v)
  | DiscardReserved => View (v_req v) false (v_act v) (v_sch v)
  | DiscardScheduled => View (v_req v) (v_res v) (v_act v) false
  end.

(** Where a request is in its life *)
Definition s_shape (s : scheduling) : bool :=
  match s with Scheduling l => bool_decide (l = scheduled_prims ∨ l = [AddScheduled]) | _ => true end.
Definition l_shape (l : life) : bool :=
  match l with
  | Reserving l => bool_decide (l = reserved_prims ∨ l = [AddReserved; DiscardScheduled] ∨ l = [DiscardScheduled])
  | Accepting l => bool_decide (l = accepted_prims ∨ l = [AddActive])
  | Finishing l _ => bool_decide (l = ready_prims ∨ l = [DiscardActive; DiscardReserved; DiscardScheduled] ∨
                                  l = [DiscardReserved; DiscardScheduled] ∨ l = [DiscardScheduled])
  | _ => true
  end.
Definition to_reserve (l : life) : bool := match l with Waiting | Reserving (AddRequest :: _) => true | _ => false end.
Definition is_reserved (l : life) : bool :=
  match l with
  | Reserving [_] | Queued | Accepting _ | Running => true
  | Finishing l _ => bool_decide (DiscardReserved ∈ l)
  | _ => false
  end.
Definition may_be_active (l : life) : bool :=
  match l with Running => true | Finishing l _ => bool_decide (DiscardActive ∈ l) | _ => false end.
Definition is_running (l : life) : bool := match l with Running => true | _ => false end.
(** after [task_reserved] returned and before [task_ready] begins *)
Definition in_hand (l : life) : bool := match l with Queued | Accepting _ | Running => true | _ => false end.
Definition registered (l : life) : bool :=
  match l with Reserving l => negb (bool_decide (AddRequest ∈ l)) | Finishing l _ => bool_decide (RemoveRequest ∈ l) | _ => in_hand l end.
Definition unregistered_over (l : life) : bool :=
  match l with Finishing l o => o && negb (bool_decide (RemoveRequest ∈ l)) | Gone o => o | _ => false end.
Definition past_reserving (l : life) : bool := match l with Waiting | Reserving _ => false | _ => true end.
Definition over_flag (l : life) : bool := match l with Finishing _ o | Gone o => o | _ => false end.
Definition is_gone_over (l : life) : bool := match l with Gone o => o | _ => false end.
Definition is_scheduled (s : scheduling) : bool := match s with Scheduled _ => true | _ => false end.
Definition scheduled_before (s : scheduling) : bool := match s with Scheduled b => b | _ => false end.
Definition has_added (s : scheduling) : bool := match s with Scheduled _ => true | Scheduling [_] => true | _ => false end.

(** What the registry holds of a request, from where its two activities are *)
Definition ok (r : rid) (s : scheduling) (l : life) (v : view) : bool :=
  s_shape s && l_shape l && (has_eta r || match s with NotYet => true | _ => false end) &&
  eqb (v_res v) (is_reserved l) && implb (v_act v) (may_be_active l) && implb (is_running l) (v_act v) &&
  implb (registered l) (v_req v) && implb (to_reserve l && v_req v) (has_added s) && implb (has_added s && to_reserve l) (v_req v) &&
  implb (unregistered_over l) (negb (v_req v)) &&
  implb (v_sch v) (is_scheduled s) && implb (is_scheduled s && is_waiting l) (v_sch v && scheduled_before s) &&
  implb (scheduled_before s && past_reserving l) (negb (v_sch v)) && implb (is_gone_over l) (negb (v_sch v)) &&
  implb (over_flag l) (is_over r s).

Lemma ok_shapes r s l v : ok r s l v = true → s_shape s = true ∧ l_shape l = true.
Proof. unfold ok. rewrite !andb_true_iff. tauto. Qed.

(** All the cases, by computation *)
Ltac cases r v :=
  unfold ok, is_over in *; destruct v as [[] [] [] []], (has_eta r); simpl in *; done.

Lemma s_cases s : s_shape s = true →
  s = NotYet ∨ s = Scheduling scheduled_prims ∨ s = Scheduling [AddScheduled] ∨ s = Scheduled true ∨ s = Scheduled false ∨ s = MovedOn.
Proof. destruct s as [|q|[]|]; try tauto. simpl. intros [-> | ->]%bool_decide_eq_true; tauto. Qed.

Lemma l_cases l : l_shape l = true →
  l = Waiting ∨ l = Reserving reserved_prims ∨ l = Reserving [AddReserved; DiscardScheduled] ∨ l = Reserving [DiscardScheduled] ∨
  l = Queued ∨ l = Accepting accepted_prims ∨ l = Accepting [AddActive] ∨ l = Running ∨
  (∃ o, l = Finishing ready_prims o) ∨ (∃ o, l = Finishing [DiscardActive; DiscardReserved; DiscardScheduled] o) ∨
  (∃ o, l = Finishing [DiscardReserved; DiscardScheduled] o) ∨ (∃ o, l = Finishing [DiscardScheduled] o) ∨ (∃ o, l = Gone o).
Proof.
  intros Hl. destruct l as [|q| |q| |q o|o]; simpl in Hl; rewrite ?bool_decide_eq_true in Hl; try tauto.
  - destruct Hl as [->|[-> | ->]]; tauto.
  - destruct Hl as [-> | ->]; tauto.
  - destruct Hl as [->|[->|[-> | ->]]]; eauto 15.
  - eauto 15.
Qed.

Lemma ok_strategy r s l p s' v :
  has_eta r = true → ok r s l v = true → next_scheduling (v_res v || v_act v) (is_waiting l) s p s' →
  ok r s' l (match p with Some p => view_prim v p | None => v end) = true.
Proof.
  intros He Hok Hn. destruct (ok_shapes _ _ _ _ Hok) as [Hs Hl%l_cases].
  destruct Hn as [|p ps]; simpl in Hs; rewrite ?bool_decide_eq_true in Hs; [|destruct Hs as [[= -> ->]|[= -> ->]]];
    unfold ok, is_over in *; rewrite He in *; destruct v as [[] [] [] []];
    destruct Hl as [->|[->|[->|[->|[->|[->|[->|[->|[[[] ->]|[[[] ->]|[[[] ->]|[[[] ->]|[[] ->]]]]]]]]]]]]]; simpl in *; done.
Qed.

Lemma ok_life r s l p l' v :
  ok r s l v = true → next_life (is_over r s) l p l' → ok r s l' (match p with Some p => view_prim v p | None => v end) = true.
Proof.
  intros Hok Hn. destruct (ok_shapes _ _ _ _ Hok) as [Hcase%s_cases Hl]. destruct Hn as [|p ps| |p ps| | |p ps o]; simpl in Hl; rewrite ?bool_decide_eq_true in Hl.
  - destruct Hcase as [->|[->|[->|[->|[->| ->]]]]]; cases r v.
  - destruct Hl as [[= -> ->]|[[= -> ->]|[= -> ->]]]; destruct Hcase as [->|[->|[->|[->|[->| ->]]]]]; cases r v.
  - destruct Hcase as [->|[->|[->|[->|[->| ->]]]]]; cases r v.
  - destruct Hl as [[= -> ->]|[= -> ->]]; destruct Hcase as [->|[->|[->|[->|[->| ->]]]]]; cases r v.
  - destruct Hcase as [->|[->|[->|[->|[->| ->]]]]]; cases r v.
  - destruct Hcase as [->|[->|[->|[->|[->| ->]]]]]; cases r v.
  - destruct o, Hl as [[= -> ->]|[[= -> ->]|[[= -> ->]|[= -> ->]]]]; destruct Hcase as [->|[->|[->|[->|[->| ->]]]]]; cases r v.
Qed.

Context (Hid : ∀ r r', req_id r = req_id r' → r = r').

Lemma view_same r g p : dict_wf (reqs g) → view_of (apply_prim r g p) r = view_prim (view_of g r) p.
Proof.
  intros Hw. unfold view_of. destruct p; simpl; f_equal; rewrite ?dict_get_set_eq, ?dict_get_del_eq by done;
    solve [apply bool_decide_eq_true_2; set_solver|apply bool_decide_eq_false_2; set_solver].
Qed.
Lemma view_other r r' g p : r ≠ r' → view_of (apply_prim r g p) r' = view_of g r'.
Proof.
  intros Hne. assert (req_id r ≠ req_id r') by (by intros ?%Hid).
  unfold view_of. destruct p; simpl; f_equal; rewrite ?dict_get_set_ne, ?dict_get_del_ne by done; try done; apply bool_decide_ext; set_solver.
Qed.

Record inv (c : config) : Prop := {
  i_ok r : ok r (strat c r) (lives c r) (view_of (reg c) r) = true;
  i_wf : dict_wf (reqs (reg c));
  i_own r r' : dict_get (reqs (reg c)) (req_id r) = Some r' → r' = r }.

Lemma start_inv : inv start.
Proof. split; simpl; [|constructor|done]. intros r. unfold ok, is_over. simpl. by destruct (has_eta r). Qed.

Lemma perform_wf r p g : dict_wf (reqs g) → dict_wf (reqs (perform r p g)).
Proof. destruct p as [[]|]; simpl; auto using dict_set_wf, dict_del_wf. Qed.

Lemma perform_own r p g :
  dict_wf (reqs g) → (∀ r r', dict_get (reqs g) (req_id r) = Some r' → r' = r) →
  ∀ r1 r', dict_get (reqs (perform r p g)) (req_id r1) = Some r' → r' = r1.
Proof.
  intros Hw Ho r1 r'. destruct p as [[]|]; simpl; try apply Ho.
  - rewrite dict_get_set. case_decide as E; [|apply Ho]. intros [= <-]. by apply Hid.
  - destruct (decide (req_id r = req_id r1)) as [E|Hne]; [rewrite E, dict_get_del_eq by done; done|].
    rewrite dict_get_del_ne by done. apply Ho.
Qed.

Lemma perform_view r p g r' :
  dict_wf (reqs g) →
  view_of (perform r p g) r' = if decide (r = r') then match p with Some p => view_prim (view_of g r) p | None => view_of g r end else view_of g r'.
Proof. intros Hw. case_decide as E; [subst|]; destruct p as [p|]; simpl; auto using view_same, view_other. Qed.

Lemma interleaved_inv c c' : inv c → step c c' → inv c'.
Proof.
  intros [Hok Hw Ho] Hst. destruct Hst as [r c p s He Hn|r c p l Hn]; split; simpl; auto using perform_wf; try (by apply perform_own).
  - intros r'. rewrite perform_view by done. case_decide as E; [subst r'|by rewrite fn_lookup_insert_ne].
    rewrite fn_lookup_insert. eapply ok_strategy; [done|apply Hok|].
    unfold moved_on in Hn. rewrite bool_decide_or in Hn. exact Hn.
  - intros r'. rewrite perform_view by done. case_decide as E; [subst r'|by rewrite fn_lookup_insert_ne].
    rewrite fn_lookup_insert. by eapply ok_life.
Qed.

Lemma ok_facts r s l v :
  ok r s l v = true →
  (l = Waiting → is_scheduled s = true → v = View true false false true) ∧
  (in_hand l = true → v_req v = true ∧ v_res v = true ∧ (l = Running → v_act v = true) ∧ (s = Scheduled true → v_sch v = false)) ∧
  (l = Gone true → v = View false false false false) ∧
  (v_sch v = true → past_reserving l = true → s = Scheduled false).
Proof.
  intros Hok. destruct (ok_shapes _ _ _ _ Hok) as [Hs%s_cases Hl%l_cases]. unfold ok, is_over in Hok.
  destruct v as [[] [] [] []], (has_eta r), Hs as [->|[->|[->|[->|[->| ->]]]]];
    destruct Hl as [->|[->|[->|[->|[->|[->|[->|[->|[[[] ->]|[[[] ->]|[[[] ->]|[[[] ->]|[[] ->]]]]]]]]]]]]]; simpl in *; try done.
Qed.

(** What the registry shows of a request, whatever the interleaving of the calls for this
    request and the others *)
Definition shows (c : config) (r : rid) (req res act sch : bool) : Prop :=
  dict_get (reqs (reg c)) (req_id r) = (if req then Some r else None) ∧
  (r ∈ reserved (reg c) ↔ res = true) ∧ (r ∈ active (reg c) ↔ act = true) ∧ (r ∈ scheduled (reg c) ↔ sch = true).

Lemma shows_view c r :
  inv c → let v := view_of (reg c) r in shows c r (v_req v) (v_res v) (v_act v) (v_sch v).
Proof.
  intros [_ _ Ho]. simpl. split_and!; [|by rewrite bool_decide_eq_true..]. case_bool_decide as Hr; [done|].
  destruct (dict_get _ _) as [r'|] eqn:E; [|done]. destruct Hr. by rewrite (Ho _ _ E).
Qed.

End Races.

(** ** Examples *)
Module Examples.

(** One request, 7, with an ETA that is in the past *)
Abbreviation ex_step := (step (K := nat) (rid := nat) id (λ _, true)).
Abbreviation ex_config := (@config nat nat _ _).
Definition at_end (ms : list (@move nat)) : option (life * scheduling * view) :=
  c ← schedule (K := nat) id (λ _, true) ms start; Some (lives c 7, strat c 7, view_of id (reg c) 7).

Lemma at_end_reached ms l s v : at_end ms = Some (l, s, v) →
  ∃ c : ex_config, rtc ex_step start c ∧ lives c 7 = l ∧ strat c 7 = s ∧ view_of id (reg c) 7 = v.
Proof.
  unfold at_end. destruct (schedule id (λ _, true) ms start) as [c|] eqn:E; [|done]. intros [= <- <- <-].
  exists c. split; [by eapply schedule_reached|done].
Defined.

Definition S7 : @move nat := MStrategy 7.
Definition L7 : @move nat := MLife 7.

(** It is scheduled, reserved, accepted and finished. *)
Definition orderly : list (@move nat) := replicate 3 S7 ++ replicate 12 L7.


(** The timer fires between the test of [task_scheduled] and what it adds: the request is
    queued for the pool and scheduled. *)
Lemma reserved_and_scheduled : ∃ c : ex_config, rtc ex_step start c ∧
  lives c 7 = Queued ∧ strat c 7 = Scheduled false ∧ view_of id (reg c) 7 = View true true false true.
Proof. apply (at_end_reached (S7 :: replicate 4 L7 ++ replicate 2 S7)). vm_compute. reflexivity. Qed.

(** The timer fires and the task is finished before [task_scheduled] is called: it is
    neither reserved nor active any more, so it is registered, and stays. *)
Lemma finished_but_scheduled : ∃ c : ex_config, rtc ex_step start c ∧
  lives c 7 = Gone false ∧ strat c 7 = Scheduled false ∧ view_of id (reg c) 7 = View true false false true.
Proof. apply (at_end_reached (replicate 12 L7 ++ replicate 3 S7)). vm_compute. reflexivity. Qed.
End Examples.
End RegistryRaces.
