(* ===== verification/Request.v ===== *)
(** [Request] of celery/worker/request.py: the life of one task message in the
    worker, from being revoked, accepted, timed out, finished or failed, to the
    acknowledgement or rejection of its message, and the message handler of
    celery/worker/strategy.py that creates requests.

    The methods mutate the request and the worker state and call out to other
    code (the message, the event dispatcher, the result backend, signal
    handlers, task hooks, the pool).  Each call is an effect in a log together
    with how it ended; [run] decides that, so that every external call may
    raise at any time.  Clock readings come from [time]. *)

From S2P Require Import Prelude PyDict Effect LimitedSet WorkerState.
Import LimitedSet WorkerState.
Local Open Scope Z_scope.
Local Open Scope eff_scope.

Module Request.

(** Exceptions a task can end with, as the parent process sees them *)
Inductive texc :=
| Terminated
| TSystemExit
| TKeyboardInterrupt
| TMemoryError
| TReject (requeue : bool)
| TIgnore
| TRetry
| TWorkerLost
| TTimeLimit
| TOther (name : string)
| WithTraceback (e : texc).    (* ExceptionWithTraceback *)

(** The attributes of the task and of the request that do not change *)
Record task := Task {
  acks_late : bool;
  acks_on_timeout : bool;
  acks_on_failure : bool;
  reject_on_worker_lost : bool;
  send_events : bool;
  store_errors_even_if_ignored : bool;
  has_custom_after_return : bool;
}.

Record message := Message {
  m_ignore_result : bool;
  m_expires : option Z;
  m_stamped_headers : list string;
  m_stamps : pydict string header;
}.

Inductive effect :=
| Ack
| Rej (requeue : bool)
| Event (type : string)
| MarkFailure (e : texc) (store : bool)
| MarkRevoked (reason : string) (store : bool)
| MarkRetry
| SigFailure
| SigRevoked
| SigRetry
| HookFailure
| HookRetry
| HookAfterReturn
| PushContext
| PopContext
| ApplyAsync
| TerminateJob (signal : Z)
| TerminateResult (signal : Z)
(* the message handler *)
| SigReceived
| QosIncrement
| CallAtLimit (eta : Z)
| CallAtApply (eta : Z)
| LimitTask
| RunCallbacks
| OnTaskRequest.

Abbreviation trace := (list (effect * outcome ())).

Section Request.
Context {K : Type} `{!EqDecision K}.
Context (kle : relation K) `{!RelDecision kle, !Total kle, !Transitive kle}.
Context (req_id : nat → K) (req_name : nat → string).
(** The request itself *)
Context (me : nat) (tk : task) (msg : message) (eventer_enabled : bool).
Context (run : trace → effect → outcome ()) (time : nat → Z).

Record rstate := RS {
  acknowledged : bool;
  time_start : option Z;
  worker_pid : option Z;
  already_revoked : bool;
  already_cancelled : bool;
  terminate_on_ack : option Z;   (* the signal of a deferred terminate *)
  apply_result : bool;           (* the weak reference to the pool's result is live *)
  world : @worker_state K nat _ _;
  tick : nat;
  log : trace;
}.

Definition set_acknowledged b s := RS b (time_start s) (worker_pid s) (already_revoked s) (already_cancelled s)
  (terminate_on_ack s) (apply_result s) (world s) (tick s) (log s).
Definition set_started pid t s := RS (acknowledged s) (Some t) (Some pid) (already_revoked s) (already_cancelled s)
  (terminate_on_ack s) (apply_result s) (world s) (tick s) (log s).
Definition set_revoked s := RS (acknowledged s) (time_start s) (worker_pid s) true (already_cancelled s)
  (terminate_on_ack s) (apply_result s) (world s) (tick s) (log s).
Definition set_cancelled s := RS (acknowledged s) (time_start s) (worker_pid s) (already_revoked s) true
  (terminate_on_ack s) (apply_result s) (world s) (tick s) (log s).
Definition set_terminate_on_ack sig s := RS (acknowledged s) (time_start s) (worker_pid s) (already_revoked s)
  (already_cancelled s) (Some sig) (apply_result s) (world s) (tick s) (log s).
Definition set_apply_result b s := RS (acknowledged s) (time_start s) (worker_pid s) (already_revoked s)
  (already_cancelled s) (terminate_on_ack s) b (world s) (tick s) (log s).
Definition set_world w s := RS (acknowledged s) (time_start s) (worker_pid s) (already_revoked s)
  (already_cancelled s) (terminate_on_ack s) (apply_result s) w (tick s) (log s).
Definition set_tick n s := RS (acknowledged s) (time_start s) (worker_pid s) (already_revoked s)
  (already_cancelled s) (terminate_on_ack s) (apply_result s) (world s) n (log s).
Definition set_log l s := RS (acknowledged s) (time_start s) (worker_pid s) (already_revoked s)
  (already_cancelled s) (terminate_on_ack s) (apply_result s) (world s) (tick s) l.

Abbreviation M := (eff rstate).

(** ** Calls and clock readings *)

Definition call (e : effect) : M () := λ s,
  let r := run (log s) e in (set_log (log s ++ [(e, r)]) s, r).

Definition now : M Z := λ s, (set_tick (S (tick s)) s, Ok (time (tick s))).

(** Run an operation of the worker state *)
Definition on_world (f : worker_state → outcome worker_state) : M () := λ s,
  match f (world s) with
  | Ok w => (set_world w s, Ok ())
  | Raise e => (s, Raise e)
  | Diverge => (s, Diverge)
  end.

Definition ready (successful : bool) : M () :=
  do! clk := now in
  do! pclk := now in
  on_world (λ w, task_ready kle req_id w me successful clk pclk).

(** ** Methods *)

Definition store_errors : bool := negb (m_ignore_result msg) || store_errors_even_if_ignored tk.

Definition send_event (type : string) : M () :=
  ewhen (eventer_enabled && send_events tk) (call (Event type)).

Definition acknowledge : M () :=
  do! b := eget acknowledged in
  ewhen (negb b) (
    run! call Ack in
    emodify (set_acknowledged true)).

Definition reject (requeue : bool) : M () :=
  do! b := eget acknowledged in
  ewhen (negb b) (
    run! call (Rej requeue) in
    run! emodify (set_acknowledged true) in
    send_event "task-rejected").

Definition announce_revoked (reason : string) : M () :=
  run! ready false in
  run! send_event "task-revoked" in
  run! call (MarkRevoked reason store_errors) in
  run! acknowledge in
  run! emodify set_revoked in
  call SigRevoked.

Definition announce_cancelled (emit_retry : bool) : M () :=
  run! ready false in
  run! send_event "task-cancelled" in
  run! ewhen emit_retry (run! call MarkRetry in call HookRetry) in
  run! emodify set_cancelled in
  ewhen emit_retry (call SigRetry).

(** [maybe_expire]: true when the message has expired *)
Definition maybe_expire : M bool :=
  match m_expires msg with
  | None => eret false
  | Some exp =>
      do! t := now in
      if exp <? t then
        do! clk := now in
        do! pclk := now in
        run! on_world (λ w, let! s := add kle (WorkerState.revoked w) (req_id me) None clk pclk in Ok (with_revoked w s)) in
        eret true
      else eret false
  end.

(** [maybe_list] *)
Definition header_list (h : header) : list string :=
  match h with HOne v => [v] | HMany l => l end.

(** The loop over the stamped headers: only the first header that is known to
    [revoked_stamps] is looked at *)
Fixpoint revoked_by_header (stamps : pydict string header) (hs : list string) : outcome bool :=
  match hs with
  | [] => Ok false
  | h :: hs =>
      match dict_get stamps h with
      | None => revoked_by_header stamps hs
      | Some rh =>
          let! sh := of_option KeyError (dict_get (m_stamps msg) h) in
          match sh with
          | HMany vs => Ok (existsb (λ v, bool_decide (v ∈ header_list rh)) vs)
          | HOne v => Ok (bool_decide (v ∈ header_list rh) || match rh with HOne v' => bool_decide (v = v') | _ => false end)
          end
      end
  end.

Definition revoked : M bool :=
  do! already := eget already_revoked in
  if already then eret true else
  do! expired := maybe_expire in
  do! by_id := eget (λ s, ls_contains (WorkerState.revoked (world s)) (req_id me)) in
  do! by_header := (if negb by_id && negb (bool_decide (m_stamped_headers msg = []))
                    then do! stamps := eget (λ s, revoked_stamps (world s)) in
                         elift (revoked_by_header stamps (m_stamped_headers msg))
                    else eret false) in
  if expired || by_id || by_header then
    run! announce_revoked (if expired then "expired" else "revoked") in eret true
  else eret false.

Definition terminate_result (signal : Z) : M () :=
  do! live := eget apply_result in ewhen live (call (TerminateResult signal)).

Definition terminate (signal : Z) : M () :=
  do! started := eget time_start in
  run! match started with
      | Some _ => run! call (TerminateJob signal) in announce_revoked "terminated"
      | None => emodify (set_terminate_on_ack signal)
      end in
  terminate_result signal.

Definition cancel (signal : Z) (emit_retry : bool) : M () :=
  do! started := eget time_start in
  run! match started with
      | Some _ => run! call (TerminateJob signal) in announce_cancelled emit_retry
      | None => eret ()
      end in
  terminate_result signal.

Definition execute_using_pool : M () :=
  do! r := revoked in
  if r then eraise TaskRevokedError else
  run! call ApplyAsync in
  emodify (set_apply_result true).

Definition on_accepted (pid time_accepted : Z) : M () :=
  do! t1 := now in
  do! t2 := now in
  run! emodify (set_started pid (t1 - (t2 - time_accepted))) in
  run! on_world (λ w, Ok (task_accepted req_id req_name w me)) in
  run! ewhen (negb (acks_late tk)) acknowledge in
  run! send_event "task-started" in
  do! sig := eget terminate_on_ack in
  match sig with Some sig => terminate sig | None => eret () end.

Definition on_timeout (soft : bool) : M () :=
  if soft then eret () else
  run! ready false in
  do! cold := eget (λ s, flag_truthy (should_terminate (world s))) in
  run! ewhen (negb cold) (
    run! call (MarkFailure TTimeLimit store_errors) in
    run! call HookFailure in
    run! ewhen (has_custom_after_return tk) (call HookAfterReturn) in
    run! call SigFailure in
    send_event "task-failed") in
  ewhen (acks_late tk) (if acks_on_timeout tk then acknowledge else reject true).

Definition on_retry : M () :=
  run! ewhen (acks_late tk) acknowledge in
  send_event "task-retried".

Definition unwrap (e : texc) : texc := match e with WithTraceback e => e | e => e end.

(** The end of [on_failure], for exceptions that count as a failed task *)
Definition fail_task (exc : texc) (send_failed_event return_ok : bool) : M () :=
  let is_worker_lost := match exc with TWorkerLost => true | _ => false end in
  let is_timeout := match exc with TTimeLimit => true | _ => false end in
  let ack_flag := if is_timeout then acks_on_timeout tk else acks_on_failure tk in
  let rej := (reject_on_worker_lost tk && is_worker_lost) || (is_timeout && negb ack_flag) in
  let requeue := acks_late tk && rej in
  run! ewhen (acks_late tk)
    (if rej then reject true else if ack_flag then acknowledge else reject false) in
  let send_failed_event := send_failed_event && negb requeue in
  do! cold := eget (λ s, flag_truthy (should_terminate (world s))) in
  let return_ok := return_ok || cold in
  let send_failed_event := send_failed_event && negb cold in
  run! ewhen (negb requeue && (is_worker_lost || negb return_ok)) (
    run! call (MarkFailure exc store_errors) in
    run! call PushContext in
    efinally (call SigFailure) (call PopContext)) in
  ewhen send_failed_event (send_event "task-failed").

Definition on_failure (e : texc) (send_failed_event return_ok : bool) : M () :=
  run! ready false in
  match unwrap e with
  | Terminated =>
      do! c := eget already_cancelled in
      do! r := eget already_revoked in
      ewhen (negb c && negb r) (announce_revoked "terminated")
  | TSystemExit | TKeyboardInterrupt =>
      do! c := eget already_cancelled in
      do! r := eget already_revoked in
      if c || r then eret () else fail_task TWorkerLost send_failed_event return_ok
  | TMemoryError => eraise MemoryError
  | TReject requeue =>
      run! ewhen (negb requeue) (
        run! call (MarkFailure (TReject requeue) store_errors) in
        run! call SigFailure in
        ewhen send_failed_event (send_event "task-failed")) in
      reject requeue
  | TIgnore => acknowledge
  | TRetry => on_retry
  | exc => fail_task exc send_failed_event return_ok
  end.

(** [on_success]: the pool reports a result, or the exception of the task *)
Definition on_success (failed : option texc) : M () :=
  match failed with
  | Some e =>
      match unwrap e with
      | TSystemExit => eraise SystemExit
      | TKeyboardInterrupt => eraise KeyboardInterrupt
      | _ => on_failure e true true
      end
  | None =>
      run! ready true in
      run! ewhen (acks_late tk) acknowledge in
      send_event "task-succeeded"
  end.

(** [on_success] of the class built by [create_request_cls], with the flags of
    the task looked up once *)
Definition on_success_cls (events : bool) (failed : option texc) : M () :=
  match failed with
  | Some e =>
      match unwrap e with
      | TSystemExit => eraise SystemExit
      | TKeyboardInterrupt => eraise KeyboardInterrupt
      | _ => on_failure e true true
      end
  | None =>
      run! ready true in
      run! ewhen (acks_late tk) acknowledge in
      ewhen events (send_event "task-succeeded")
  end.

(** [execute]: run the task in this process; [traced] is the info flag of
    [trace_task] (whether the task ended with an exception that is reported) *)
Definition execute (traced : M bool) : M () :=
  do! r := revoked in
  if r then eret () else
  run! ewhen (negb (acks_late tk)) acknowledge in
  do! i := traced in
  if i then reject false else acknowledge.

(** ** The message handler of the default strategy *)

(** How the time of [req.eta] converts to a timestamp; [bucket] is the token
    bucket of the task when rate limits are enabled *)
Definition task_message_handler (eta : option (outcome Z)) (bucket callbacks : bool) : M () :=
  do! in_revoked := eget (λ s, ls_contains (WorkerState.revoked (world s)) (req_id me)) in
  do! r := (if bool_decide (m_expires msg ≠ None) || in_revoked then revoked else eret false) in
  if r then eret () else
  run! call SigReceived in
  run! ewhen (eventer_enabled && send_events tk) (call (Event "task-received")) in
  do! eta := match eta with
             | None => eret 0
             | Some (Raise e) =>
                 if bool_decide (e = OverflowError ∨ e = ValueError)
                 then run! reject false in eret 0
                 else eraise e
             | Some r => elift r
             end in
  if negb (eta =? 0) && bucket then
    run! call QosIncrement in
    run! call (CallAtLimit eta) in
    on_world (λ w, Ok (task_scheduled req_id w me))
  else if negb (eta =? 0) then
    run! call QosIncrement in
    run! call (CallAtApply eta) in
    on_world (λ w, Ok (task_scheduled req_id w me))
  else if bucket then call LimitTask
  else
    run! on_world (λ w, Ok (task_reserved req_id w me)) in
    run! ewhen callbacks (call RunCallbacks) in
    call OnTaskRequest.

(** ** Settling the message *)

Definition is_settle (e : effect) : bool :=
  match e with Ack | Rej _ => true | _ => false end.

(** The attempts to acknowledge or reject the message, in order *)
Definition settles (l : trace) : trace := filter (λ p, is_settle p.1 = true) l.

Lemma settles_app l1 l2 : settles (l1 ++ l2) = settles l1 ++ settles l2.
Proof. apply filter_app. Qed.

(** All attempts failed, except for the last one once the request counts as
    acknowledged. *)
Definition settled_inv (s : rstate) : Prop :=
  ∃ fs, Forall (λ p, p.2 ≠ Ok ()) fs ∧
    if acknowledged s then ∃ e, settles (log s) = fs ++ [(e, Ok ())] else settles (log s) = fs.

Lemma settled_inv_ext s s' :
  acknowledged s' = acknowledged s → settles (log s') = settles (log s) → settled_inv s → settled_inv s'.
Proof. unfold settled_inv. intros -> ->. done. Qed.

Lemma keeps_call e : is_settle e = false → keeps settled_inv (call e).
Proof.
  intros He s. apply settled_inv_ext; [done|]. simpl. rewrite settles_app. unfold settles at 2.
  rewrite filter_cons, decide_False by (simpl; congruence). by rewrite app_nil_r.
Qed.

Lemma keeps_now : keeps settled_inv now.
Proof. intros s. by apply settled_inv_ext. Qed.

Lemma keeps_on_world f : keeps settled_inv (on_world f).
Proof. intros s. unfold on_world. destruct (f (world s)); [by apply settled_inv_ext|done..]. Qed.

(** A settling call, made by a request that is not acknowledged yet *)
Lemma keeps_settle e (k : M ()) :
  is_settle e = true → keeps settled_inv k →
  keeps settled_inv (do! b := eget acknowledged in ewhen (negb b) (
    run! call e in run! emodify (set_acknowledged true) in k)).
Proof.
  intros He Hk s Hs. unfold ebind at 1, eget. destruct (acknowledged s) eqn:Ea; [done|].
  assert (settles (log s ++ [(e, run (log s) e)]) = settles (log s) ++ [(e, run (log s) e)]) as Hset.
  { rewrite settles_app. unfold settles at 2. by rewrite filter_cons, decide_True. }
  destruct Hs as (fs & Hfs & Hl). rewrite Ea in Hl.
  cbn [ewhen negb]. unfold ebind, call, emodify. destruct (run (log s) e) as [[]|x|] eqn:Er.
  - apply Hk. exists fs. split; [done|]. simpl. exists e. by rewrite Hset, Hl.
  - exists (fs ++ [(e, Raise x)]). split; [apply Forall_app; by repeat constructor|]. simpl. rewrite Ea, Hset, Hl. done.
  - exists (fs ++ [(e, Diverge)]). split; [apply Forall_app; by repeat constructor|]. simpl. rewrite Ea, Hset, Hl. done.
Qed.

Lemma keeps_set (f : rstate → rstate) :
  (∀ s, acknowledged (f s) = acknowledged s) → (∀ s, log (f s) = log s) → keeps settled_inv (emodify f).
Proof. intros Ha Hl s. simpl. apply settled_inv_ext; [done|]. simpl. by rewrite Hl. Qed.

#[local] Hint Extern 1 (keeps settled_inv (call _)) => apply keeps_call; reflexivity : keeps.
#[local] Hint Extern 1 (keeps settled_inv (emodify _)) => apply keeps_set; reflexivity : keeps.
#[local] Hint Resolve keeps_now keeps_on_world : keeps.

Lemma keeps_send_event ty : keeps settled_inv (send_event ty).
Proof. unfold send_event. keeps. Qed.
#[local] Hint Resolve keeps_send_event : keeps.

Lemma keeps_acknowledge : keeps settled_inv acknowledge.
Proof.
  intros s Hs. pose proof (keeps_settle Ack (eret ()) eq_refl (keeps_ret _ ()) s Hs) as H.
  unfold acknowledge. revert H. unfold ebind, eget, ewhen, emodify, eret. by destruct (negb _), (call Ack s) as [? [[]| |]].
Qed.

Lemma keeps_reject b : keeps settled_inv (reject b).
Proof. apply keeps_settle; [done|]. auto with keeps. Qed.
#[local] Hint Resolve keeps_acknowledge keeps_reject : keeps.

Lemma keeps_ready b : keeps settled_inv (ready b).
Proof. unfold ready. keeps. Qed.
#[local] Hint Resolve keeps_ready : keeps.

Lemma keeps_announce_revoked r : keeps settled_inv (announce_revoked r).
Proof. unfold announce_revoked. keeps. Qed.
#[local] Hint Resolve keeps_announce_revoked : keeps.

Lemma keeps_announce_cancelled b : keeps settled_inv (announce_cancelled b).
Proof. unfold announce_cancelled. keeps. Qed.
#[local] Hint Resolve keeps_announce_cancelled : keeps.

Lemma keeps_revoked : keeps settled_inv revoked.
Proof. unfold revoked, maybe_expire. keeps. Qed.
#[local] Hint Resolve keeps_revoked : keeps.

Lemma keeps_terminate sig : keeps settled_inv (terminate sig).
Proof. unfold terminate, terminate_result. keeps. Qed.
#[local] Hint Resolve keeps_terminate : keeps.

Lemma keeps_cancel sig b : keeps settled_inv (cancel sig b).
Proof. unfold cancel, terminate_result. keeps. Qed.

Lemma keeps_fail_task e b1 b2 : keeps settled_inv (fail_task e b1 b2).
Proof. unfold fail_task. keeps. Qed.
#[local] Hint Resolve keeps_fail_task : keeps.

Lemma keeps_on_failure e b1 b2 : keeps settled_inv (on_failure e b1 b2).
Proof. unfold on_failure, on_retry. keeps. Qed.
#[local] Hint Resolve keeps_on_failure keeps_cancel : keeps.

(** What can happen to a request, in any order and any number of times *)
Inductive handler :=
| HRevoked
| HTerminate (signal : Z)
| HCancel (signal : Z) (emit_retry : bool)
| HExecuteUsingPool
| HAccepted (pid time_accepted : Z)
| HTimeout (soft : bool)
| HSuccess (failed : option texc)
| HSuccessCls (events : bool) (failed : option texc)
| HFailure (e : texc) (send_failed_event return_ok : bool)
| HAcknowledge
| HReject (requeue : bool)
| HMessage (eta : option (outcome Z)) (bucket callbacks : bool).

Definition handle (h : handler) : M () :=
  match h with
  | HRevoked => do! _ := revoked in eret ()
  | HTerminate sig => terminate sig
  | HCancel sig b => cancel sig b
  | HExecuteUsingPool => execute_using_pool
  | HAccepted pid t => on_accepted pid t
  | HTimeout soft => on_timeout soft
  | HSuccess f => on_success f
  | HSuccessCls b f => on_success_cls b f
  | HFailure e b1 b2 => on_failure e b1 b2
  | HAcknowledge => acknowledge
  | HReject b => reject b
  | HMessage eta b cb => task_message_handler eta b cb
  end.

(** An exception ends the handler, not the request. *)
Definition handle_all (hs : list handler) (s : rstate) : rstate := foldl (λ s h, (handle h s).1) s hs.

Lemma keeps_handle h : keeps settled_inv (handle h).
Proof.
  destruct h; cbn [handle]; unfold execute_using_pool, on_accepted, on_timeout, on_success, on_success_cls,
    task_message_handler; keeps.
Qed.

Lemma handle_all_settled hs s : settled_inv s → settled_inv (handle_all hs s).
Proof.
  revert s. induction hs as [|h hs IH]; intros s Hs; simpl; [done|]. apply IH, keeps_handle, Hs.
Qed.

(** C15: a message is settled at most once.  Whatever happens to a request, in
    any order, and whichever of the calls it makes raise, at most one attempt
    to acknowledge or reject the message succeeds, none is made after that,
    and the request counts as acknowledged exactly when one has succeeded. *)
Theorem settled_at_most_once hs s :
  acknowledged s = false → log s = [] →
  ∃ fs, Forall (λ p, p.2 ≠ Ok ()) fs ∧
    if acknowledged (handle_all hs s)
    then ∃ e, settles (log (handle_all hs s)) = fs ++ [(e, Ok ())]
    else settles (log (handle_all hs s)) = fs.
Proof.
  intros Ha Hl. apply handle_all_settled. exists []. by rewrite Ha, Hl.
Qed.

(** ** Leaving the registries *)

Definition forgotten (s : rstate) : Prop :=
  dict_wf (requests (world s)) ∧ dict_get (requests (world s)) (req_id me) = None ∧ me ∉ known (world s).

Lemma forgotten_call e : keeps forgotten (call e).
Proof. by intros s. Qed.
Lemma forgotten_now : keeps forgotten now.
Proof. by intros s. Qed.
Lemma forgotten_set (f : rstate → rstate) : (∀ s, world (f s) = world s) → keeps forgotten (emodify f).
Proof. intros Hf s. unfold forgotten. simpl. by rewrite Hf. Qed.

Lemma forgotten_ready b : keeps forgotten (ready b).
Proof.
  unfold ready. apply keeps_bind; [apply forgotten_now|]. intros clk. apply keeps_bind; [apply forgotten_now|].
  intros pclk s (Hwf & Hn & Hk). unfold on_world. destruct (task_ready _ _ _ _ _ _ _) as [w|e|] eqn:E; [|done..].
  apply obind_Ok in E as (w1 & Hw1 & [= <-]).
  assert (requests w1 = requests (world s)) as Hr.
  { destruct b; [apply obind_Ok in Hw1 as (? & _ & [= <-])|injection Hw1 as <-]; done. }
  unfold forgotten, known. simpl. rewrite Hr. split_and!; [by apply dict_del_wf| |set_solver].
  by apply dict_get_del_eq.
Qed.

#[local] Hint Extern 1 (keeps forgotten (emodify _)) => apply forgotten_set; reflexivity : keeps.
#[local] Hint Resolve forgotten_call forgotten_now forgotten_ready : keeps.

Lemma forgotten_send_event ty : keeps forgotten (send_event ty).
Proof. unfold send_event. keeps. Qed.
#[local] Hint Resolve forgotten_send_event : keeps.
Lemma forgotten_acknowledge : keeps forgotten acknowledge.
Proof. unfold acknowledge. keeps. Qed.
Lemma forgotten_reject b : keeps forgotten (reject b).
Proof. unfold reject. keeps. Qed.
#[local] Hint Resolve forgotten_acknowledge forgotten_reject : keeps.
Lemma forgotten_announce_revoked r : keeps forgotten (announce_revoked r).
Proof. unfold announce_revoked. keeps. Qed.
Lemma forgotten_fail_task e b1 b2 : keeps forgotten (fail_task e b1 b2).
Proof. unfold fail_task. keeps. Qed.
#[local] Hint Resolve forgotten_announce_revoked forgotten_fail_task : keeps.

(** After [task_ready] has succeeded, nothing brings the request back. *)
Lemma ready_forgets b (k : () → M ()) s :
  dict_wf (requests (world s)) → ls_good kle (successful_requests (world s)) →
  (∀ a, keeps forgotten (k a)) → forgotten (ebind (ready b) k s).1.
Proof.
  intros Hwf Hg Hk. unfold ready, ebind at 1 2 3, now, on_world. simpl.
  assert (∃ w, task_ready kle req_id (world s) me b (time (tick s)) (time (S (tick s))) = Ok w ∧
    dict_wf (requests w) ∧ dict_get (requests w) (req_id me) = None ∧ me ∉ known w) as (w & -> & Hw).
  { unfold task_ready. destruct b.
    - destruct (add_good kle _ (req_id me) None (time (tick s)) (time (S (tick s))) Hg) as (s' & -> & _). simpl.
      eexists. split; [done|]. unfold known. simpl. split_and!; [by apply dict_del_wf|by apply dict_get_del_eq|set_solver].
    - eexists. split; [done|]. unfold known. simpl. split_and!; [by apply dict_del_wf|by apply dict_get_del_eq|set_solver]. }
  by apply Hk.
Qed.

(** The handlers that end the request; a task that ended with [SystemExit] or
    [KeyboardInterrupt] in a result makes [on_success] raise at once. *)
Definition ends (h : handler) : bool :=
  match h with
  | HTimeout soft => negb soft
  | HSuccess (Some e) | HSuccessCls _ (Some e) =>
      match unwrap e with TSystemExit | TKeyboardInterrupt => false | _ => true end
  | HSuccess None | HSuccessCls _ None | HFailure _ _ _ => true
  | _ => false
  end.

(** A request that ended leaves the registries.  After a result, a failure
    or a hard time limit was reported, the request is neither reserved, active
    nor scheduled and its id is not known any more, even when storing the
    result, a signal handler or the acknowledgement raises. *)
Theorem ended_request_forgotten h s :
  ends h = true → dict_wf (requests (world s)) → ls_good kle (successful_requests (world s)) →
  forgotten (handle h s).1.
Proof.
  intros He Hwf Hg.
  assert (∀ e b1 b2, forgotten (on_failure e b1 b2 s).1) as Hf.
  { intros e b1 b2. apply ready_forgets; [done|done|]. intros []. unfold on_retry. keeps. }
  destruct h as [| | | | |soft|[e|]|b [e|]|e b1 b2| | |]; cbn [handle ends] in *; try done.
  - unfold on_timeout. destruct soft; [done|]. apply ready_forgets; [done|done|]. keeps.
  - unfold on_success. destruct (unwrap e); try apply Hf; done.
  - apply ready_forgets; [done|done|]. keeps.
  - unfold on_success_cls. destruct (unwrap e); try apply Hf; done.
  - apply ready_forgets; [done|done|]. keeps.
Qed.

(** ** What happens to the message of a failed task *)

Section Failure.
Context (Hrun : ∀ l e, run l e = Ok ()).

Definition logged (es : list effect) : trace := (λ e, (e, Ok ())) <$> es.
Definition when_ (b : bool) (es : list effect) : list effect := if b then es else [].

Definition events_on : bool := eventer_enabled && send_events tk.

(** The calls made for a failed task whose message is not settled yet *)
Definition failure_calls (exc : texc) (send_failed_event return_ok cold : bool) : list effect :=
  let lost := match exc with TWorkerLost => true | _ => false end in
  let timeout := match exc with TTimeLimit => true | _ => false end in
  let ack := if timeout then acks_on_timeout tk else acks_on_failure tk in
  let requeue := acks_late tk && (reject_on_worker_lost tk && lost || timeout && negb ack) in
  when_ (acks_late tk)
    (if requeue then [Rej true] ++ when_ events_on [Event "task-rejected"]
     else if ack then [Ack] else [Rej false] ++ when_ events_on [Event "task-rejected"]) ++
  when_ (negb requeue && (lost || negb (return_ok || cold)))
    [MarkFailure exc store_errors; PushContext; SigFailure; PopContext] ++
  when_ (send_failed_event && negb requeue && negb cold && events_on) [Event "task-failed"].

(** The failures that are not handled specially *)
Definition plain_failure (e : texc) : bool :=
  match e with TWorkerLost | TTimeLimit | TOther _ => true | _ => false end.

(** The fate of a failed task.  With late acknowledgement the message goes
    back to the queue exactly when the worker process was lost and the task
    asks for that, or when the time limit was exceeded and such tasks are not
    acknowledged; otherwise it is acknowledged or rejected for good, as the
    task says.  The failure is stored exactly when the message was not put
    back, and either the worker was lost or nobody has stored it before; a
    message that was put back has no failure stored and no event sent. *)
Theorem failure_settlement e send_failed_event return_ok s :
  plain_failure e = true → acknowledged s = false →
  ∃ s', on_failure e send_failed_event return_ok s = (s', Ok ()) ∧
    log s' = log s ++ logged (failure_calls e send_failed_event return_ok (flag_truthy (should_terminate (world s)))) ∧
    acknowledged s' = acks_late tk.
Proof.
  intros He Ha. unfold on_failure, ready, fail_task, reject, acknowledge, send_event, failure_calls, logged, events_on.
  destruct e as [| | | | | | | | |name|]; try done; simpl unwrap; cbv match;
    unfold ebind, eget, ewhen, call, emodify, eret, efinally, now, on_world; simpl;
    destruct (acks_late tk), (reject_on_worker_lost tk), (acks_on_timeout tk), (acks_on_failure tk);
    simpl; rewrite ?Ha; simpl; rewrite ?Hrun; simpl; destruct (eventer_enabled && send_events tk); simpl;
    rewrite ?Hrun; simpl; destruct (flag_truthy _), return_ok, send_failed_event; simpl; rewrite ?Hrun; simpl;
    rewrite ?Hrun; simpl; (eexists; split; [reflexivity|]); simpl; rewrite <-?app_assoc, ?app_nil_r, ?Ha; done.
Qed.
End Failure.

(** The request class built for a task behaves like the base class as long as
    its [events] flag is the state of the event dispatcher. *)
Lemma on_success_cls_equiv failed s :
  on_success_cls eventer_enabled failed s = on_success failed s.
Proof.
  destruct failed as [e|]; [done|]. unfold on_success_cls, on_success, send_event. cbn.
  destruct eventer_enabled; [done|]. done.
Qed.
End Request.

(** ** Examples, and two defects *)

Definition late_task : task := Task true true true true true false false.
Definition early_task : task := Task false true true false true false false.
Definition plain_message : message := Message false None [] [].
Definition always_ok (_ : trace) (_ : effect) : outcome () := Ok ().
Definition clock (n : nat) : Z := Z.of_nat n.

Definition fresh (w : @worker_state nat nat _ _) : @rstate nat :=
  RS false None None false false None false w 0 [].

(** The first acknowledgement fails, a timeout follows a success. *)
Lemma settled_at_most_once_witness :
  let run := λ (l : trace) e, match l, e with [], Ack => Raise OtherExc | _, _ => Ok () end in
  let hs := [HExecuteUsingPool; HAccepted 1 0; HSuccess None; HTimeout false; HAcknowledge] in
  let s' := handle_all Nat.le id (λ _, "t"%string) 7 late_task plain_message false run clock hs (fresh boot_state) in
  ∃ fs, Forall (λ p, p.2 ≠ Ok ()) fs ∧
    if acknowledged s' then ∃ e, settles (log s') = fs ++ [(e, Ok ())] else settles (log s') = fs.
Proof. intros run hs s'. by apply settled_at_most_once. Defined.

Lemma ended_request_forgotten_witness :
  let s := fresh (task_accepted id (λ _, "t"%string) (task_reserved id boot_state 7%nat) 7%nat) in
  let s' := (handle Nat.le id (λ _, "t"%string) 7 late_task plain_message true (λ _ _, Raise OtherExc) clock
               (HFailure (TOther "ValueError") true false) s).1 in
  forgotten id 7 s' ∧ 7%nat ∈ known (world s).
Proof.
  intros s s'. split; [|unfold known; simpl; set_solver].
  apply ended_request_forgotten; [apply _|apply _|done|apply NoDup_singleton|].
  eapply empty_good; [reflexivity|lia|lia].
Defined.

Lemma failure_settlement_witness :
  ∃ s', on_failure Nat.le id 7 late_task plain_message true always_ok clock TWorkerLost true false (fresh boot_state) = (s', Ok ()) ∧
    log s' = [] ++ logged (failure_calls late_task plain_message true TWorkerLost true false false) ∧
    acknowledged s' = true.
Proof. by apply (failure_settlement Nat.le id 7 late_task plain_message true always_ok clock). Defined.

Example worker_lost_calls :
  failure_calls late_task plain_message true TWorkerLost true false false = [Rej true; Event "task-rejected"].
Proof. reflexivity. Qed.

(** A task carrying two stamps runs although its second stamp is revoked.
    Header [a] is known to the revoked stamps, but with a value the task does
    not have; the loop stops there and never looks at header [b], whose value
    is revoked.  With the headers in the other order the task is revoked. *)
Theorem second_stamp_not_checked :
  let stamps := [("a", HMany ["x"]); ("b", HMany ["y"])]%string in
  let msg := Message false None ["a"; "b"]%string [("a", HOne "other"); ("b", HOne "y")]%string in
  revoked_by_header msg stamps ["a"; "b"]%string = Ok false ∧
  revoked_by_header msg stamps ["b"; "a"]%string = Ok true.
Proof. split; reflexivity. Qed.

(** A task whose ETA cannot be converted to a timestamp is executed although
    its message was rejected: the handler goes on after the rejection as if the
    task had no ETA, and hands the request to the pool. *)
Theorem rejected_eta_still_executed :
  let '(s, r) := task_message_handler Nat.le id 7 early_task plain_message false always_ok clock
                   (Some (Raise OverflowError)) false false (fresh boot_state) in
  r = Ok () ∧ log s = [(SigReceived, Ok ()); (Rej false, Ok ()); (OnTaskRequest, Ok ())] ∧
  7%nat ∈ reserved_requests (world s).
Proof. split_and!; [done|done|]. simpl. set_solver. Qed.

End Request.
