(* ===== verification/Beat.v ===== *)
(** The scheduler of celery/beat.py: entries, the heap of upcoming runs, one
    [tick], the merging of the configured schedule, and syncing.

    Times are integers (microseconds).  The schedule of an entry is abstract
    ([sched]); [due] is its [is_due], given the last run and the current time,
    where the next time to run may be a number or not.  The order of entries
    with the same time and priority (by object identity in the code) is
    [entry_le].  Clock readings come from [time], sending a task and syncing the
    store are calls that may raise. *)

From S2P Require Import Prelude PyDict PyHeap Effect.
Local Open Scope Z_scope.
Local Open Scope eff_scope.

Module Beat.

Section Beat.
(** [args], [kwargs] and [options] of an entry are one value of type [A]. *)
Context {sched A : Type} `{!EqDecision sched, !EqDecision A}.
Context (due : sched → Z → Z → bool * option Z).

Record entry := Entry {
  e_name : string;
  e_task : string;
  e_schedule : sched;
  e_args : A;
  e_last_run_at : Z;
  e_total_run_count : Z;
}.

#[global] Instance entry_eq_dec : EqDecision entry.
Proof. solve_decision. Defined.

(** [_next_instance] *)
Definition next_instance (e : entry) (now : Z) : entry :=
  Entry (e_name e) (e_task e) (e_schedule e) (e_args e) now (e_total_run_count e + 1).

(** [update]: the editable fields of [other] *)
Definition entry_update (e other : entry) : entry :=
  Entry (e_name e) (e_task other) (e_schedule other) (e_args other) (e_last_run_at e) (e_total_run_count e).

Definition editable_fields_equal (e other : entry) : bool :=
  bool_decide (e_task e = e_task other ∧ e_args e = e_args other ∧ e_schedule e = e_schedule other).

(** [event_t] *)
Record event := Event { ev_time : Z; ev_priority : Z; ev_entry : entry }.

#[global] Instance event_eq_dec : EqDecision event.
Proof. solve_decision. Defined.

Context (entry_le : relation entry) `{!RelDecision entry_le, !Total entry_le, !Transitive entry_le}.

Definition event_le (a b : event) : Prop :=
  ev_time a < ev_time b ∨
  ev_time a = ev_time b ∧ (ev_priority a < ev_priority b ∨ ev_priority a = ev_priority b ∧ entry_le (ev_entry a) (ev_entry b)).

#[global] Instance event_le_dec : RelDecision event_le.
Proof. intros a b. unfold event_le. apply _. Defined.

#[global] Instance event_le_total : Total event_le.
Proof.
  intros a b. unfold event_le. destruct (Z.lt_trichotomy (ev_time a) (ev_time b)) as [|[|]]; [tauto| |tauto].
  destruct (Z.lt_trichotomy (ev_priority a) (ev_priority b)) as [|[|]]; [tauto| |right; right; split; [lia|tauto]].
  destruct (total entry_le (ev_entry a) (ev_entry b)); [left; tauto|]. right. right. split; [lia|]. right. split; [lia|done].
Qed.

#[global] Instance event_le_trans : Transitive event_le.
Proof.
  intros a b c. unfold event_le. intros [?|[? [?|[? Hab]]]] [?|[? [?|[? Hbc]]]]; try (left; lia); right;
    (split; [lia|]); try (left; lia). right. split; [lia|]. by etrans.
Qed.

(** ** The state of a scheduler *)

Abbreviation schedules := (pydict string entry).

Inductive call_ :=
| Connect
| Send (e : entry)
| Sync.

Abbreviation trace := (list (call_ * outcome ())).

Record scheduler := Scheduler {
  s_data : schedules;
  s_heap : option (list event);
  s_old : option schedules;
  s_last_sync : option Z;
  s_tasks_since_sync : Z;
  s_connected : bool;
  s_clock : nat;
  s_log : trace;
}.

Context (run : trace → call_ → outcome ()) (time : nat → Z).
(** Settings of the scheduler *)
Context (max_interval sync_every : Z) (sync_every_tasks : option Z).

Abbreviation M := (eff scheduler).

Definition set_data d s := Scheduler d (s_heap s) (s_old s) (s_last_sync s) (s_tasks_since_sync s) (s_connected s) (s_clock s) (s_log s).
Definition set_heap h s := Scheduler (s_data s) (Some h) (s_old s) (s_last_sync s) (s_tasks_since_sync s) (s_connected s) (s_clock s) (s_log s).
Definition set_old o s := Scheduler (s_data s) (s_heap s) (Some o) (s_last_sync s) (s_tasks_since_sync s) (s_connected s) (s_clock s) (s_log s).
Definition set_sync t n s := Scheduler (s_data s) (s_heap s) (s_old s) t n (s_connected s) (s_clock s) (s_log s).

Definition set_connected s := Scheduler (s_data s) (s_heap s) (s_old s) (s_last_sync s) (s_tasks_since_sync s) true (s_clock s) (s_log s).

Definition now : M Z := λ s,
  (Scheduler (s_data s) (s_heap s) (s_old s) (s_last_sync s) (s_tasks_since_sync s) (s_connected s) (S (s_clock s)) (s_log s), Ok (time (s_clock s))).
Definition call (c : call_) : M () := λ s,
  let r := run (s_log s) c in
  (Scheduler (s_data s) (s_heap s) (s_old s) (s_last_sync s) (s_tasks_since_sync s) (s_connected s) (s_clock s) (s_log s ++ [(c, r)]), r).

(** ** Operations *)

(** [adjust]: a drift of 10 ms; what is not a number is returned as it is *)
Definition adjust (n : option Z) : option Z :=
  match n with Some n => Some (if 0 <? n then n - 10000 else n) | None => None end.

(** [_when]: the clock, and what is added to it *)
Definition when_ (n : option Z) : M Z :=
  do! t := now in eret (t + default 0 (adjust n)).

Definition entry_is_due (e : entry) : M (bool * option Z) :=
  do! t := now in eret (due (e_schedule e) (e_last_run_at e) t).

Fixpoint heap_events (l : list entry) : M (list event) :=
  match l with
  | [] => eret []
  | e :: l =>
      do! (is_due, delay) := entry_is_due e in
      do! t := when_ (if is_due then Some 0 else delay) in
      do! evs := heap_events l in
      eret (Event t 5 e :: evs)
  end.

Definition populate_heap : M () :=
  do! data := eget s_data in
  do! evs := heap_events (dict_values data) in
  emodify (set_heap (heapify event_le evs)).

(** [schedules_equal(old, new)] for a schedule that is there *)
Definition schedules_equal (old : option schedules) (new : schedules) : bool :=
  match old with
  | None => false
  | Some old =>
      bool_decide ((list_to_set (dict_keys old) : gset string) = list_to_set (dict_keys new)) &&
      forallb (λ p, match dict_get new p.1 with
                    | Some e => editable_fields_equal e p.2
                    | None => false
                    end) old
  end.

Definition should_sync : M bool :=
  do! last := eget s_last_sync in
  do! n := eget s_tasks_since_sync in
  do! late := match last with
              | None => eret true
              | Some last => do! t := now in eret (sync_every <? t - last)
              end in
  eret (late || match sync_every_tasks with Some k => negb (k =? 0) && (k <=? n) | None => false end).

Definition do_sync : M () :=
  efinally (call Sync) (do! t := now in emodify (set_sync (Some t) 0)).

Definition reserve (e : entry) : M entry :=
  do! t := now in
  let e' := next_instance e t in
  run! emodify (λ s, set_data (dict_set (s_data s) (e_name e) e') s) in
  eret e'.

(** [apply_async(entry, advance=False)] *)
Definition apply_async (e : entry) : M () :=
  efinally
    (ecatch (call (Send e)) (λ x, eraise (if is_Exception x then SchedulingError else x)))
    (run! emodify (λ s, set_sync (s_last_sync s) (s_tasks_since_sync s + 1) s) in
     do! b := should_sync in
     ewhen b do_sync).

(** [apply_entry]: errors are logged *)
Definition apply_entry (e : entry) : M () := 
  ecatch (apply_async e) (λ x, if is_Exception x then eret () else eraise x).

(** [producer]: the connection is made on first use *)
Definition producer : M () :=
  do! connected := eget s_connected in
  ewhen (negb connected) (run! call Connect in emodify set_connected).

Definition tick : M Z :=
  do! heap := eget s_heap in
  do! old := eget s_old in
  do! data := eget s_data in
  run! (if bool_decide (heap = None) || negb (schedules_equal old data)
        then run! emodify (set_old data) in populate_heap
        else eret ()) in
  do! heap := eget s_heap in
  match default [] heap with
  | [] => eret max_interval
  | (ev :: _) as H =>
      let e := ev_entry ev in
      do! t := when_ (Some 0) in
      if t <? ev_time ev then eret (Z.min (ev_time ev - t) max_interval) else
      do! (is_due, next_time_to_run) := entry_is_due e in
      if is_due then
        match heappop H with
        | Some (verify, H') =>
            run! emodify (set_heap H') in
            if bool_decide (verify = ev) then
              do! next_entry := reserve e in
              run! producer in
              run! apply_entry e in
              do! t := when_ next_time_to_run in
              run! emodify (set_heap (heappush event_le H' (Event t (ev_priority ev) next_entry))) in
              eret 0
            else
              run! emodify (set_heap (heappush event_le H' verify)) in
              do! t := when_ (Some 0) in
              eret (Z.min (ev_time verify - t) max_interval)
        | None => eraise IndexError
        end
      else
        let reschedule_delay := default max_interval next_time_to_run in
        match heappop H with
        | Some (verify, H') =>
            run! emodify (set_heap H') in
            if bool_decide (verify = ev) then
              do! t := when_ (Some reschedule_delay) in
              let H'' := heappush event_le H' (Event t (ev_priority ev) e) in
              run! emodify (set_heap H'') in
              eret (match H'' with
                    | top :: _ => if bool_decide (ev_entry top = e)
                                  then Z.min (default 0 (adjust (Some reschedule_delay))) max_interval else 0
                    | [] => Z.min (default 0 (adjust (Some reschedule_delay))) max_interval
                    end)
            else
              run! emodify (set_heap (heappush event_le H' verify)) in
              do! t := when_ (Some 0) in
              eret (Z.min (ev_time verify - t) max_interval)
        | None => eraise IndexError
        end
  end.

(** ** Setting up the schedule *)

(** An entry of the configuration *)
Record cfg := Cfg { cf_task : string; cf_schedule : sched; cf_args : A; cf_last : option Z; cf_count : option Z }.

(** [Entry( **dict(c, name=name))]: the clock is read for a missing last run *)
Definition make_entry (name : string) (c : cfg) : M entry :=
  do! t := match cf_last c with Some t => eret t | None => now end in
  eret (Entry name (cf_task c) (cf_schedule c) (cf_args c) t (default 0 (cf_count c))).

Fixpoint make_entries (l : pydict string cfg) : M schedules :=
  match l with
  | [] => eret []
  | (n, c) :: l =>
      do! e := make_entry n c in
      do! d := make_entries l in
      eret ((n, e) :: d)
  end.

Definition update_from_dict (l : pydict string cfg) : M () :=
  do! d := make_entries l in
  emodify (λ s, set_data (dict_update (s_data s) d) s).

Definition backend_cleanup : string := "celery.backend_cleanup".

(** [install_default_entries]; [expire] tells whether results expire and the
    backend does not expire them itself, [cleanup] is the default entry *)
Definition install_default_entries (expire : bool) (cleanup : cfg) : M () :=
  do! data := eget s_data in
  update_from_dict (if expire && negb (dict_in data backend_cleanup) then [(backend_cleanup, cleanup)] else []).

(** [merge_inplace(b)]; [diff] and [keys] are the symmetric difference of the
    names and the names of [b] in the order in which the sets are iterated *)
Definition merge_key (b : pydict string cfg) (key : string) : M () :=
  match dict_get b key with
  | None => eraise KeyError
  | Some c =>
      do! e := make_entry key c in
      emodify (λ s, set_data (dict_set (s_data s) key
        (match dict_get (s_data s) key with Some old => entry_update old e | None => e end)) s)
  end.

Definition merge_inplace (b : pydict string cfg) (diff keys : list string) : M () :=
  run! eiter (λ key, emodify (λ s, set_data (dict_del (s_data s) key) s)) diff in
  eiter (merge_key b) keys.

(** [Scheduler.setup_schedule] *)
Definition setup_schedule (b : pydict string cfg) expire cleanup diff keys : M () :=
  run! install_default_entries expire cleanup in
  merge_inplace b diff keys.

(** ** One tick *)

(** Entries are filed under their names. *)
Definition data_ok (d : schedules) : Prop := dict_wf d ∧ ∀ n e, (n, e) ∈ d → e_name e = n.

(** The heap holds the entries of the schedule and is in order. *)
Definition heap_ok (d : schedules) (H : list event) : Prop :=
  ev_entry <$> H ≡ₚ dict_values d ∧ StronglySorted event_le H.

Definition is_send (c : call_) : option entry := match c with Send e => Some e | _ => None end.
Definition sends (l : trace) : list entry := omap (λ p, is_send p.1) l.

(** The parts of the state that clock readings leave alone *)
Definition same_but_clock (s s' : scheduler) : Prop :=
  s_data s' = s_data s ∧ s_heap s' = s_heap s ∧ s_old s' = s_old s ∧ s_log s' = s_log s ∧ s_connected s' = s_connected s.

Lemma heap_events_ok l s :
  ∃ s' evs, heap_events l s = (s', Ok evs) ∧ ev_entry <$> evs = l ∧ same_but_clock s s'.
Proof.
  revert s. induction l as [|e l IH]; intros s; simpl; [by exists s, []|].
  unfold entry_is_due, when_, ebind, now, eret. simpl. destruct (due _ _ _) as [b delay]. simpl.
  match goal with |- context [heap_events l ?s1] => destruct (IH s1) as (s' & evs & -> & Hevs & H) end.
  eexists s', _. split; [done|]. split; [by rewrite fmap_cons, Hevs|]. done.
Qed.

Lemma populate_heap_ok s :
  ∃ s' H, populate_heap s = (s', Ok ()) ∧ s_heap s' = Some H ∧ heap_ok (s_data s) H ∧
    s_data s' = s_data s ∧ s_old s' = s_old s ∧ s_log s' = s_log s.
Proof.
  unfold populate_heap, ebind at 1, eget.
  destruct (heap_events_ok (dict_values (s_data s)) s) as (s1 & evs & Hrun & Hevs & Hd & _ & Ho & Hl & _).
  unfold ebind. rewrite Hrun. eexists _, _. split; [done|]. simpl. split; [done|]. split; [split|done].
  - by rewrite heapify_perm, Hevs.
  - apply heapify_sorted; apply _.
Qed.

Section Tick.
(** Calls may raise, but nothing that [except Exception] lets through. *)
Context (Hrun : ∀ l c, run l c = Ok () ∨ ∃ x, run l c = Raise x ∧ is_Exception x = true).

Lemma do_sync_ok s :
  ∃ s' r, do_sync s = (s', r) ∧ (r = Ok () ∨ ∃ x, r = Raise x ∧ is_Exception x = true) ∧
    s_data s' = s_data s ∧ s_heap s' = s_heap s ∧ s_old s' = s_old s ∧ sends (s_log s') = sends (s_log s).
Proof.
  unfold do_sync, efinally, call. simpl. eexists _, _. split; [done|]. split; [apply Hrun|].
  split_and!; try done. simpl. unfold sends. rewrite omap_app. simpl. by rewrite app_nil_r.
Qed.

Lemma should_sync_ok s :
  ∃ s' b, should_sync s = (s', Ok b) ∧ same_but_clock s s'.
Proof.
  unfold should_sync, ebind, eget. destruct (s_last_sync s) as [t|]; simpl; by eexists _, _.
Qed.

Lemma send_ok e s :
  ∃ s' r, ecatch (call (Send e)) (λ x, eraise (if is_Exception x then SchedulingError else x)) s = (s', r) ∧
    (r = Ok () ∨ r = Raise SchedulingError) ∧
    s_data s' = s_data s ∧ s_heap s' = s_heap s ∧ s_old s' = s_old s ∧ sends (s_log s') = sends (s_log s) ++ [e].
Proof.
  unfold ecatch, call. destruct (Hrun (s_log s) (Send e)) as [Hr|(x & Hr & Hx)]; rewrite Hr; [|unfold eraise; rewrite Hx].
  all: eexists _, _; split; [done|]; split; [auto|]; simpl; unfold sends; by rewrite omap_app.
Qed.

Lemma apply_entry_ok e s :
  ∃ s', apply_entry e s = (s', Ok ()) ∧ s_data s' = s_data s ∧ s_heap s' = s_heap s ∧ s_old s' = s_old s ∧
    sends (s_log s') = sends (s_log s) ++ [e].
Proof.
  destruct (send_ok e s) as (s1 & r & Hsend & Hr & Hd1 & Hh1 & Ho1 & Hl1).
  unfold apply_entry, ecatch at 1, apply_async, efinally. rewrite Hsend.
  unfold ebind at 1, emodify. set (s2 := set_sync _ _ s1).
  unfold ebind. destruct (should_sync_ok s2) as (s3 & b & -> & Hd3 & Hh3 & Ho3 & Hl3 & _).
  assert (∃ s4 r4, ewhen b do_sync s3 = (s4, r4) ∧ (r4 = Ok () ∨ ∃ x, r4 = Raise x ∧ is_Exception x = true) ∧
    s_data s4 = s_data s3 ∧ s_heap s4 = s_heap s3 ∧ s_old s4 = s_old s3 ∧ sends (s_log s4) = sends (s_log s3))
    as (s4 & r4 & -> & Hr4 & Hd4 & Hh4 & Ho4 & Hl4).
  { destruct b; [apply do_sync_ok|]. eexists s3, _. split; [done|]. split; [by left|done]. }
  exists s4. split; [|by rewrite Hd4, Hh4, Ho4, Hl4, Hd3, Hh3, Ho3, Hl3].
  destruct Hr4 as [->|(x & -> & Hx)]; [|by rewrite Hx]. by destruct Hr as [->| ->].
Qed.

Lemma producer_ok s :
  ∃ s' r, producer s = (s', r) ∧ s_data s' = s_data s ∧ s_heap s' = s_heap s ∧ s_old s' = s_old s ∧
    sends (s_log s') = sends (s_log s) ∧
    (r = Ok () ∨ ∃ x, r = Raise x ∧ s_log s' = s_log s ++ [(Connect, Raise x)]).
Proof.
  unfold producer, ebind at 1, eget, ewhen. destruct (s_connected s); simpl; [exists s, (Ok ()); split_and!; auto|].
  unfold ebind, call. destruct (Hrun (s_log s) Connect) as [Hr|(x & Hr & _)]; rewrite Hr; simpl;
    eexists _, _; (split; [done|]); simpl; split_and!; eauto; unfold sends; rewrite omap_app; simpl; by rewrite app_nil_r.
Qed.

(** The first part of a tick: a heap for the current schedule *)
Lemma tick_heap s :
  (∀ H, s_heap s = Some H → schedules_equal (s_old s) (s_data s) = true → heap_ok (s_data s) H) →
  ∃ s' H, (if bool_decide (s_heap s = None) || negb (schedules_equal (s_old s) (s_data s))
           then run! emodify (set_old (s_data s)) in populate_heap else eret ()) s = (s', Ok ()) ∧
    s_heap s' = Some H ∧ heap_ok (s_data s) H ∧ s_data s' = s_data s ∧ s_log s' = s_log s.
Proof.
  intros Hok. destruct (bool_decide (s_heap s = None) || negb (schedules_equal (s_old s) (s_data s))) eqn:E.
  - unfold ebind, emodify. destruct (populate_heap_ok (set_old (s_data s) s)) as (s' & H & -> & ? & ? & ? & _ & ?).
    exists s', H. done.
  - apply orb_false_iff in E as [E1 E2]. zbool. destruct (s_heap s) as [H|] eqn:EH; [|done].
    exists s, H. split_and!; [done|done|by apply Hok|done|done].
Qed.

(** The entry on top of the heap runs: it is replaced in schedule and heap. *)
Lemma heap_ok_replace d e e' ev' H t p :
  data_ok d → heap_ok d (Event t p e :: H) → e_name e' = e_name e → ev_entry ev' = e' →
  data_ok (dict_set d (e_name e) e') ∧ heap_ok (dict_set d (e_name e) e') (heappush event_le H ev') ∧
  dict_get d (e_name e) = Some e.
Proof.
  intros [Hwf Hn] [Hperm Hs] Hname Hev. inversion Hs as [|?? Hs' _]; subst.
  assert (dict_get d (e_name e) = Some e) as Hget.
  { assert (e ∈ dict_values d) as ([n e2] & Heq & Hin)%list_elem_of_fmap by (rewrite <-Hperm; set_solver).
    simpl in Heq. subst e2. apply dict_elem_get; [done|]. by rewrite (Hn n e Hin). }
  split; [split|split; [split; [|apply heappush_sorted; [apply _..|done]]|done]].
  - by apply dict_set_wf.
  - intros n x Hin%dict_elem_get; [|by apply dict_set_wf]. rewrite dict_get_set in Hin.
    case_decide; simplify_eq; [done|]. apply Hn. by apply dict_get_Some_elem.
  - destruct (dict_values_set d (e_name e) e (ev_entry ev') Hget) as (l & Hl1 & Hl2).
    rewrite Hl2, heappush_perm. simpl. f_equiv. rewrite Hl1 in Hperm. simpl in Hperm. by apply Permutation_cons_inv in Hperm.
Qed.

(** The entry on top of the heap is taken from it. *)
Lemma heap_without d e H t p :
  data_ok d → heap_ok d (Event t p e :: H) → ev_entry <$> H ≡ₚ dict_values (dict_del d (e_name e)).
Proof.
  intros [Hwf Hn] [Hperm _]. assert (dict_get d (e_name e) = Some e) as Hget.
  { assert (e ∈ dict_values d) as ([n e2] & Heq & Hin)%list_elem_of_fmap by (rewrite <-Hperm; set_solver).
    simpl in Heq. subst e2. apply dict_elem_get; [done|]. by rewrite (Hn n e Hin). }
  simpl in Hperm. unfold dict_values in *. rewrite (dict_del_perm _ _ _ Hget) in Hperm. simpl in Hperm. by apply Permutation_cons_inv in Hperm.
Qed.

(** C40: one tick of the scheduler, when calls may raise anything that is an
    [Exception].  Either it returns, with a delay of at most [max_interval].  Then
    either no task is sent and the schedule is unchanged, or exactly one entry is
    sent (also if sending it raises): one that is due by its own schedule, whose last
    run becomes the current time and whose run count goes up by one.  In both cases
    the heap holds exactly the entries of the schedule afterwards, in order: no entry
    is lost and none runs twice.  Or the scheduler was not connected yet and connecting
    raised: then the tick raises that error, nothing is sent, but the run of the entry
    that was due is counted and the entry is not put back into the heap
    ([unconnected_entry_lost]). *)
Theorem tick_one_entry s :
  0 <= max_interval → data_ok (s_data s) →
  (∀ H, s_heap s = Some H → schedules_equal (s_old s) (s_data s) = true → heap_ok (s_data s) H) →
  ∃ s' r H', tick s = (s', r) ∧ s_heap s' = Some H' ∧ data_ok (s_data s') ∧
    ((∃ wait, r = Ok wait ∧ wait <= max_interval ∧ heap_ok (s_data s') H' ∧
      (s_data s' = s_data s ∧ sends (s_log s') = sends (s_log s) ∨
       ∃ e i j next, dict_get (s_data s) (e_name e) = Some e ∧
         due (e_schedule e) (e_last_run_at e) (time i) = (true, next) ∧
         s_data s' = dict_set (s_data s) (e_name e) (next_instance e (time j)) ∧
         sends (s_log s') = sends (s_log s) ++ [e] ∧ wait = 0)) ∨
     (∃ x e i j next, r = Raise x ∧ s_log s' = s_log s ++ [(Connect, Raise x)] ∧
        dict_get (s_data s) (e_name e) = Some e ∧ due (e_schedule e) (e_last_run_at e) (time i) = (true, next) ∧
        s_data s' = dict_set (s_data s) (e_name e) (next_instance e (time j)) ∧
        ev_entry <$> H' ≡ₚ dict_values (dict_del (s_data s) (e_name e)))).
Proof.
  intros Hmax Hd Hh. destruct (tick_heap s Hh) as (s1 & H & Hpop & Hheap & Hok & Hdata & Hlog).
  unfold tick. unfold ebind at 1 2 3, eget. unfold ebind at 1. rewrite Hpop. unfold ebind at 1. rewrite Hheap. cbn [default from_option id].
  destruct H as [|[et p e] H].
  { exists s1, (Ok max_interval), []. rewrite Hdata. split_and!; [done|done|done|]. left. exists max_interval.
    split_and!; [done|lia|done|]. left. by rewrite Hlog. }
  cbn [ev_entry ev_time ev_priority]. unfold when_ at 1, ebind at 1 2, now at 1, eret at 1. cbn [s_clock s_heap s_data s_log adjust Z.ltb].
  destruct (_ <? et) eqn:Et.
  { unfold eret. exists (Scheduler (s_data s1) (s_heap s1) (s_old s1) (s_last_sync s1) (s_tasks_since_sync s1) (s_connected s1) (S (s_clock s1)) (s_log s1)).
    eexists _, _. split; [reflexivity|]. simpl. rewrite Hdata, Hlog. split_and!; [done|done|]. left. eexists. split_and!; [done|lia|done|by left]. }
  unfold entry_is_due at 1, ebind at 1 2, now at 1, eret at 1. cbn [s_clock s_heap s_data s_log].
  destruct (due (e_schedule e) (e_last_run_at e) (time (S (s_clock s1)))) as [[] next] eqn:Edue.
  - cbn [heappop]. unfold ebind at 1, emodify at 1. rewrite bool_decide_eq_true_2 by done.
    unfold reserve, ebind at 1 2 3, now at 1, emodify at 1, eret at 1. simpl s_clock. simpl s_data.
    unfold ebind at 1. destruct (producer_ok (set_data (dict_set (s_data s1) (e_name e) (next_instance e (time (S (S (s_clock s1))))))
      (Scheduler (s_data s1) (Some H) (s_old s1) (s_last_sync s1) (s_tasks_since_sync s1) (s_connected s1) (S (S (S (s_clock s1)))) (s_log s1))))
      as (s2 & rp & Hprod & Hd2 & Hh2 & Ho2 & Hl2 & Hrp).
    unfold set_heap in *; cbn [s_data s_heap s_old s_last_sync s_tasks_since_sync s_connected s_clock s_log] in *.
    rewrite Hprod. destruct Hrp as [->|(x & -> & Hlx)]; cycle 1.
    { exists s2, (Raise x), H. rewrite Hd2. simpl. rewrite Hdata.
      match goal with |- context [next_instance e ?t] => destruct (heap_ok_replace (s_data s) e (next_instance e t)
        (Event 0 0 (next_instance e t)) H et p Hd Hok eq_refl eq_refl) as (Hdok & _ & Hget) end.
      split_and!; [done|done|done|]. right. exists x, e, (S (s_clock s1)), (S (S (s_clock s1))), next.
      rewrite Hlx. simpl. rewrite Hlog. split_and!; try done. by eapply heap_without. }
    unfold ebind at 1. destruct (apply_entry_ok e s2) as (s3 & -> & Hd3 & Hh3 & Ho3 & Hl3).
    unfold when_, ebind, now, eret, emodify. eexists _, (Ok 0), _. split; [reflexivity|]. simpl.
    match goal with |- context [heappush event_le H ?ev'] => destruct (heap_ok_replace (s_data s) e
      (next_instance e (time (S (S (s_clock s1))))) ev' H et p Hd Hok eq_refl eq_refl) as (Hdok & Hhok & Hget) end.
    rewrite Hd3, Hd2. simpl. rewrite Hdata. split_and!; [done|done|]. left. exists 0. split_and!; [done|lia|done|]. right.
    exists e, (S (s_clock s1)), (S (S (s_clock s1))), next. split_and!; [done|done|done| |done].
    rewrite Hl3, Hl2. simpl. by rewrite Hlog.
  - cbn [heappop]. unfold ebind at 1, emodify at 1. rewrite bool_decide_eq_true_2 by done.
    unfold when_, ebind, now, eret, emodify. eexists _, _, _. split; [reflexivity|]. simpl.
    match goal with |- context [heappush event_le H ?ev'] => destruct (heap_ok_replace (s_data s) e e ev' H et p Hd Hok eq_refl eq_refl)
      as (Hdok & Hhok & Hget) end.
    rewrite dict_set_same in Hhok by done. rewrite Hdata, Hlog. split_and!; [done|done|]. left. eexists. split; [done|].
    split; [destruct (heappush _ _ _) as [|top ?]; [apply Z.le_min_r|destruct (bool_decide (ev_entry top = e)); [apply Z.le_min_r|done]]|]. split; [done|by left].
Qed.
End Tick.

(** ** Merging the configuration *)

Lemma make_entry_ok n c s :
  ∃ s' t, make_entry n c s = (s', Ok (Entry n (cf_task c) (cf_schedule c) (cf_args c) t (default 0 (cf_count c)))) ∧
    s_data s' = s_data s ∧ (cf_last c = None ∨ cf_last c = Some t).
Proof using Type.
  clear dependent entry_le.
  unfold make_entry, ebind, eret. destruct (cf_last c) as [t|] eqn:E; eexists _, _; (split; [reflexivity|]); split; auto.
Qed.

(** What the configuration makes of an entry *)
Definition merged (d : schedules) (key : string) (c : cfg) (e : entry) : Prop :=
  match dict_get d key with
  | Some old => e = Entry (e_name old) (cf_task c) (cf_schedule c) (cf_args c) (e_last_run_at old) (e_total_run_count old)
  | None => ∃ t, e = Entry key (cf_task c) (cf_schedule c) (cf_args c) t (default 0 (cf_count c))
  end.

Lemma remove_keys diff s :
  ∃ s', eiter (λ key, emodify (λ s, set_data (dict_del (s_data s) key) s)) diff s = (s', Ok ()) ∧
    (dict_wf (s_data s) → dict_wf (s_data s') ∧
       ∀ k, dict_get (s_data s') k = if decide (k ∈ diff) then None else dict_get (s_data s) k).
Proof using Type.
  clear dependent entry_le.
  revert s. induction diff as [|key diff IH]; intros s; simpl; [exists s; done|].
  unfold ebind, emodify at 1. destruct (IH (set_data (dict_del (s_data s) key) s)) as (s' & -> & H).
  exists s'. split; [done|]. intros Hwf. destruct H as [Hwf' Hget]; [by apply dict_del_wf|]. split; [done|].
  intros k. rewrite Hget. simpl. destruct (decide (k = key)) as [->|Hne].
  - rewrite (decide_True (P := key ∈ key :: diff)) by set_solver. rewrite dict_get_del_eq by done. by case_decide.
  - rewrite dict_get_del_ne by done. repeat case_decide; set_solver.
Qed.

Lemma merge_keys b keys s :
  NoDup keys → (∀ k, k ∈ keys → is_Some (dict_get b k)) →
  ∃ s', eiter (merge_key b) keys s = (s', Ok ()) ∧
    (dict_wf (s_data s) → dict_wf (s_data s')) ∧
    (∀ k, k ∉ keys → dict_get (s_data s') k = dict_get (s_data s) k) ∧
    ∀ k c, k ∈ keys → dict_get b k = Some c → ∃ e, dict_get (s_data s') k = Some e ∧ merged (s_data s) k c e.
Proof using Type.
  clear dependent entry_le.
  intros Hnd. revert s. induction Hnd as [|key keys Hk Hnd IH]; intros s Hb; simpl.
  { exists s. split_and!; [done|done|done|set_solver]. }
  destruct (Hb key) as [c Hc]; [set_solver|]. unfold ebind at 1, merge_key at 1. rewrite Hc.
  destruct (make_entry_ok key c s) as (s1 & t & Hm & Hd1 & _). unfold ebind at 1. rewrite Hm. unfold emodify at 1.
  set (e := match dict_get (s_data s1) key with Some old => _ | None => _ end).
  destruct (IH (set_data (dict_set (s_data s1) key e) s1)) as (s' & -> & Hwf & Hout & Hin); [set_solver|].
  exists s'. simpl in *. rewrite Hd1 in *. split_and!; [done|intros ?; by apply Hwf, dict_set_wf| |].
  - intros k Hkn. rewrite Hout by set_solver. rewrite dict_get_set_ne by set_solver. done.
  - intros k c' [->|Hkin]%elem_of_cons Hc'.
    + simplify_eq. exists e. split; [by rewrite Hout, dict_get_set_eq|]. unfold merged, e. rewrite Hd1. destruct (dict_get (s_data s) key); [done|eauto].
    + destruct (Hin k c' Hkin Hc') as (e' & He' & Hm'). exists e'. split; [done|].
      unfold merged in *. by rewrite dict_get_set_ne in Hm' by set_solver.
Qed.

(** Merging the configured schedule.  Afterwards the schedule has exactly
    the configured names, whatever the order in which the sets are iterated.
    An entry that was there before takes task, schedule and arguments from the
    configuration and keeps its last run and its run count; the others are new. *)
Theorem merge_inplace_spec b diff keys s :
  dict_wf (s_data s) → NoDup keys → (∀ k, k ∈ keys ↔ k ∈ dict_keys b) →
  (∀ k, k ∈ diff ↔ ¬ (k ∈ dict_keys b ↔ k ∈ dict_keys (s_data s))) →
  ∃ s', merge_inplace b diff keys s = (s', Ok ()) ∧ dict_wf (s_data s') ∧
    (∀ k, dict_get b k = None → dict_get (s_data s') k = None) ∧
    ∀ k c, dict_get b k = Some c → ∃ e, dict_get (s_data s') k = Some e ∧ merged (s_data s) k c e.
Proof using Type.
  clear dependent entry_le.
  intros Hwf Hnd Hkeys Hdiff. unfold merge_inplace, ebind.
  destruct (remove_keys diff s) as (s1 & -> & H1). destruct (H1 Hwf) as [Hwf1 Hget1].
  destruct (merge_keys b keys s1 Hnd) as (s' & -> & Hwf' & Hout & Hin).
  { intros k Hk%Hkeys. destruct (dict_get b k) eqn:E; [done|]. by apply dict_get_None in E. }
  assert (∀ k, k ∉ diff → dict_get (s_data s1) k = dict_get (s_data s) k) as Hsame by (intros k ?; by rewrite Hget1, decide_False).
  exists s'. split_and!; [done|by apply Hwf'| |].
  - intros k Hk%dict_get_None. rewrite Hout by (by rewrite Hkeys). rewrite Hget1. case_decide as Hd; [done|].
    apply dict_get_None. intros Hin2. apply Hd, Hdiff. tauto.
  - intros k c Hc. assert (k ∈ dict_keys b) as Hk by (apply dict_in_true; unfold dict_in; by rewrite Hc).
    destruct (Hin k c) as (e & He & Hm); [by apply Hkeys|done|]. exists e. split; [done|]. unfold merged in *.
    destruct (decide (k ∈ diff)) as [Hd|Hd]; [|by rewrite Hsame in Hm].
    assert (dict_get (s_data s) k = None) as ->.
    { apply dict_get_None. intros Hks. apply Hdiff in Hd. tauto. }
    by rewrite Hget1, decide_True in Hm.
Qed.

(** The default entry does not survive the set-up of the in-memory
    scheduler.  It installs [celery.backend_cleanup] and then merges the
    configuration, which removes every name the configuration does not have;
    the persistent scheduler does it the other way round. *)
Theorem default_entry_removed b cleanup diff keys s :
  s_data s = [] → NoDup keys → (∀ k, k ∈ keys ↔ k ∈ dict_keys b) → backend_cleanup ∉ dict_keys b →
  (∀ k, k ∈ diff ↔ k = backend_cleanup ∨ k ∈ dict_keys b) →
  ∃ s', setup_schedule b true cleanup diff keys s = (s', Ok ()) ∧ dict_get (s_data s') backend_cleanup = None.
Proof using Type.
  clear dependent entry_le.
  intros Hd Hnd Hkeys Hnb Hdiff. unfold setup_schedule, ebind at 1, install_default_entries, update_from_dict.
  unfold ebind at 1, eget. rewrite Hd. simpl. destruct (make_entry_ok backend_cleanup cleanup s) as (s1 & t & Hm & Hd1 & _).
  unfold ebind at 1 2. rewrite Hm. unfold ebind, eret, emodify. simpl. rewrite Hd1, Hd. cbn [dict_update foldl].
  unfold merge_inplace, ebind.
  match goal with |- context [eiter _ diff ?s2] => destruct (remove_keys diff s2) as (s3 & -> & H3) end.
  destruct H3 as [Hwf3 Hget3]; [simpl; apply NoDup_singleton|].
  destruct (merge_keys b keys s3 Hnd) as (s' & -> & Hwf' & Hout & Hin).
  { intros k Hk%Hkeys. destruct (dict_get b k) eqn:E; [done|]. by apply dict_get_None in E. }
  exists s'. split; [done|]. rewrite Hout by (by rewrite Hkeys). rewrite Hget3, decide_True; [done|]. apply Hdiff. by left.
Qed.
End Beat.

(** ** Witnesses *)

(** Interval schedules, in microseconds *)
Definition ex_due (i last t : Z) : bool * option Z :=
  if last + i <=? t then (true, Some i) else (false, Some (last + i - t)).
Definition ex_le (a b : @entry Z ()) : Prop := e_total_run_count a <= e_total_run_count b.

#[global] Instance ex_le_dec : RelDecision ex_le.
Proof. intros a b. unfold ex_le. apply _. Defined.
#[global] Instance ex_le_total : Total ex_le.
Proof. intros a b. unfold ex_le. lia. Qed.
#[global] Instance ex_le_trans : Transitive ex_le.
Proof. intros a b c. unfold ex_le. lia. Qed.

Definition ex_a : @entry Z () := Entry "a" "tasks.a" 5000000 () 0 3.
Definition ex_b : @entry Z () := Entry "b" "tasks.b" 9000000 () 0 1.
Definition ex_sched : @scheduler Z () := Scheduler [("a", ex_a); ("b", ex_b)]%string None None None 0 false 0 [].
Definition ex_time (n : nat) : Z := 6000000.
Definition ex_run (l : list (@call_ Z () * outcome ())) (c : @call_ Z ()) : outcome () := match c with Send _ => Raise OtherExc | _ => Ok () end.

Lemma tick_one_entry_witness :
  ∃ s' r H', tick ex_due ex_le ex_run ex_time 300000000 180000000 None ex_sched = (s', r) ∧
    s_heap s' = Some H' ∧ data_ok (s_data s') ∧
    ((∃ wait, r = Ok wait ∧ wait <= 300000000 ∧ heap_ok ex_le (s_data s') H' ∧
      (s_data s' = s_data ex_sched ∧ sends (s_log s') = sends (s_log ex_sched) ∨
       ∃ e i j next, dict_get (s_data ex_sched) (e_name e) = Some e ∧
         ex_due (e_schedule e) (e_last_run_at e) (ex_time i) = (true, next) ∧
         s_data s' = dict_set (s_data ex_sched) (e_name e) (next_instance e (ex_time j)) ∧
         sends (s_log s') = sends (s_log ex_sched) ++ [e] ∧ wait = 0)) ∨
     (∃ x e i j next, r = Raise x ∧ s_log s' = s_log ex_sched ++ [(Connect, Raise x)] ∧
        dict_get (s_data ex_sched) (e_name e) = Some e ∧ ex_due (e_schedule e) (e_last_run_at e) (ex_time i) = (true, next) ∧
        s_data s' = dict_set (s_data ex_sched) (e_name e) (next_instance e (ex_time j)) ∧
        ev_entry <$> H' ≡ₚ dict_values (dict_del (s_data ex_sched) (e_name e)))).
Proof.
  apply tick_one_entry; [apply _..| |lia| |done].
  - intros l [|e|]; simpl; eauto.
  - split; [by apply (bool_decide_unpack _); vm_compute|]. intros n e Hin. simpl in Hin.
    rewrite !elem_of_cons, elem_of_nil in Hin. destruct_or!; by simplify_eq.
Defined.

(** The first connection fails: the entry "a" counts as run and is not in the heap any
    more, and the next tick, with a connection, does not send it either. *)
Definition offline_run (l : list (@call_ Z () * outcome ())) (c : @call_ Z ()) : outcome () :=
  match c with Connect => match l with [] => Raise OtherExc | _ => Ok () end | _ => Ok () end.

Lemma unconnected_entry_lost :
  let ex_tick := tick ex_due ex_le offline_run ex_time 300000000 180000000 None in
  let s1 := (ex_tick ex_sched).1 in
  (ex_tick ex_sched).2 = Raise OtherExc ∧ sends (s_log s1) = [] ∧
  dict_get (s_data s1) "a" = Some (next_instance ex_a 6000000) ∧ (e_name ∘ ev_entry <$> default [] (s_heap s1)) = ["b"]%string ∧
  (e_name ∘ ev_entry <$> default [] (s_heap (ex_tick s1).1)) = ["b"]%string ∧ sends (s_log (ex_tick s1).1) = [].
Proof. by vm_compute. Qed.

Example tick_sends_a :
  let '(s', r) := tick ex_due ex_le ex_run ex_time 300000000 180000000 None ex_sched in
  r = Ok 0 ∧ sends (s_log s') = [ex_a] ∧ e_total_run_count <$> dict_values (s_data s') = [4; 1].
Proof. by vm_compute. Qed.

Definition ex_cfg : pydict string (@cfg Z ()) :=
  [("b", Cfg "tasks.b2" 7000000 () None None); ("c", Cfg "tasks.c" 1000000 () None None)]%string.

Lemma merge_inplace_spec_witness :
  ∃ s', merge_inplace ex_time ex_cfg ["a"; "c"]%string ["c"; "b"]%string ex_sched = (s', Ok ()) ∧ dict_wf (s_data s') ∧
    (∀ k, dict_get ex_cfg k = None → dict_get (s_data s') k = None) ∧
    ∀ k c, dict_get ex_cfg k = Some c → ∃ e, dict_get (s_data s') k = Some e ∧ merged (s_data ex_sched) k c e.
Proof.
  apply merge_inplace_spec.
  - by apply (bool_decide_unpack _); vm_compute.
  - by apply (bool_decide_unpack _); vm_compute.
  - intros k. unfold ex_cfg. simpl. set_solver.
  - intros k. unfold ex_cfg. simpl. set_unfold.
    destruct (decide (k = "a"%string)), (decide (k = "b"%string)), (decide (k = "c"%string)); naive_solver.
Defined.

Lemma default_entry_removed_witness :
  let s := Scheduler [] None None None 0 false 0 [] in
  ∃ s', setup_schedule ex_time ex_cfg true (Cfg backend_cleanup 0 () None None)
          ["b"; backend_cleanup; "c"]%string ["c"; "b"]%string s = (s', Ok ()) ∧ dict_get (s_data s') backend_cleanup = None.
Proof.
  intros s. apply default_entry_removed; [done|by apply (bool_decide_unpack _); vm_compute| | |].
  - intros k. unfold ex_cfg. simpl. set_solver.
  - by apply (bool_decide_unpack _); vm_compute.
  - intros k. unfold ex_cfg. simpl. set_solver.
Defined.

End Beat.
