(* ===== verification/Bisect.v ===== *)
(** Python's [bisect.insort]: the binary search with its comparison, and
    insertion into a list sorted by it.  The order is given by its [<] as a
    boolean function and need only behave on the elements satisfying [P]
    (elements of mixed kinds may compare in odd ways). *)

From S2P Require Import Prelude.

Section Bisect.
Context {A : Type} (lt : A → A → bool).

(** The loop of [bisect_right]; each round makes [hi - lo] smaller, so the
    length of the list is enough fuel. *)
Fixpoint bisect_loop (fuel : nat) (a : list A) (x : A) (lo hi : nat) : nat :=
  match fuel with
  | O => lo
  | S fuel =>
      if bool_decide (lo < hi)%nat then
        let mid := ((lo + hi) `div` 2)%nat in
        match a !! mid with
        | Some y => if lt x y then bisect_loop fuel a x lo mid else bisect_loop fuel a x (S mid) hi
        | None => lo
        end
      else lo
  end.

Definition bisect_right (a : list A) (x : A) : nat := bisect_loop (length a) a x 0 (length a).

Definition insort (a : list A) (x : A) : list A :=
  let i := bisect_right a x in take i a ++ x :: drop i a.

(** [if a and x > a[-1]: a.append(x)  else: insort(a, x)], as the code has it *)
Definition append_or_insort (a : list A) (x : A) : list A :=
  match last a with
  | Some y => if lt y x then a ++ [x] else insort a x
  | None => insort a x
  end.

Lemma insort_perm a x : insort a x ≡ₚ x :: a.
Proof. unfold insort. by rewrite <-Permutation_middle, take_drop. Qed.

Lemma append_or_insort_perm a x : append_or_insort a x ≡ₚ x :: a.
Proof.
  unfold append_or_insort. destruct (last a) as [y|]; [destruct (lt y x)|]; try apply insort_perm.
  by rewrite Permutation_app_comm.
Qed.

Lemma append_or_insort_length a x : length (append_or_insort a x) = S (length a).
Proof. by rewrite append_or_insort_perm. Qed.

(** ** Sorted lists *)

Definition le (x y : A) : Prop := lt y x = false.

Context (P : A → Prop).
Context (Htrans : ∀ x y z, P x → P y → P z → le x y → le y z → le x z).
Context (Hasym : ∀ x y, P x → P y → lt x y = true → lt y x = false).

Definition sorted (a : list A) : Prop := Forall P a ∧ StronglySorted le a.

Lemma sorted_lookup a i j x y : StronglySorted le a → (i < j)%nat → a !! i = Some x → a !! j = Some y → le x y.
Proof.
  intros Hs. revert i j. induction Hs as [|z a Hs IH Hz]; intros i j Hij Hi Hj; [done|].
  destruct i as [|i], j as [|j]; simplify_eq/=; [lia| |lia|].
  - by eapply Forall_lookup_1.
  - eapply (IH i j); [lia|done|done].
Qed.

Lemma bisect_loop_spec fuel a x lo hi :
  sorted a → P x → (hi - lo ≤ fuel)%nat → (lo ≤ hi ≤ length a)%nat →
  (∀ i y, (i < lo)%nat → a !! i = Some y → lt x y = false) →
  (∀ i y, (hi ≤ i)%nat → a !! i = Some y → lt x y = true) →
  let k := bisect_loop fuel a x lo hi in
  (∀ i y, (i < k)%nat → a !! i = Some y → lt x y = false) ∧
  (∀ i y, (k ≤ i)%nat → a !! i = Some y → lt x y = true).
Proof.
  intros [HP Hs] Hx. rewrite Forall_lookup in HP.
  revert lo hi. induction fuel as [|fuel IH]; intros lo hi Hf Hb Hlo Hhi; cbn [bisect_loop].
  { split; [done|]. intros i y Hi. apply Hhi. lia. }
  case_bool_decide as Hlt; [|split; [done|]; intros i y Hi; apply Hhi; lia].
  assert (lo ≤ (lo + hi) `div` 2 < hi)%nat as Hmid.
  { split; [apply Nat.div_le_lower_bound; lia|apply Nat.Div0.div_lt_upper_bound; lia]. }
  set (mid := ((lo + hi) `div` 2)%nat) in *.
  destruct (lookup_lt_is_Some_2 a mid) as [y Hy]; [lia|]. rewrite Hy.
  destruct (lt x y) eqn:E; apply IH; try lia; try done.
  - intros i z Hi Hz. destruct (decide (i = mid)) as [->|]; [by simplify_eq|].
    destruct (lt x z) eqn:Ez; [done|]. exfalso. assert (le y x) as Hyx; [|unfold le in Hyx; congruence].
    apply (Htrans y z x); eauto. apply (sorted_lookup a mid i); [done|lia|done|done].
  - intros i z Hi Hz. destruct (decide (i = mid)) as [->|]; [by simplify_eq|].
    apply (Htrans z y x); eauto. apply (sorted_lookup a i mid); [done|lia|done|done].
Qed.

Lemma sorted_app_le a b : StronglySorted le a → StronglySorted le b →
  (∀ x y, x ∈ a → y ∈ b → le x y) → StronglySorted le (a ++ b).
Proof.
  intros Ha Hb. induction Ha as [|x a Ha IH Hx]; intros H; simpl; [done|].
  constructor; [apply IH; set_solver|]. apply Forall_app. split; [done|].
  apply Forall_forall. intros y Hy. apply H; set_solver.
Qed.

Lemma sorted_take_drop n a : StronglySorted le a → StronglySorted le (take n a) ∧ StronglySorted le (drop n a).
Proof.
  intros Ha. revert n. induction Ha as [|x a Ha IH Hx]; intros [|n]; simpl; try by repeat constructor.
  destruct (IH n) as [Ht Hd]. split; [|done]. constructor; [done|]. by apply Forall_take.
Qed.

Lemma insort_sorted a x : sorted a → P x → sorted (insort a x).
Proof.
  intros Ha Hx. destruct (bisect_loop_spec (length a) a x 0 (length a) Ha Hx) as [Hlo Hhi]; [lia|lia|lia| |].
  { intros i y Hi Hy. apply lookup_lt_Some in Hy. lia. }
  destruct Ha as [HP Hs]. split; [rewrite insort_perm; by constructor|].
  unfold insort, bisect_right. set (k := bisect_loop _ _ _ _ _) in *.
  destruct (sorted_take_drop k a Hs) as [Ht Hd]. rewrite Forall_forall in HP.
  apply sorted_app_le; [done| |].
  - constructor; [done|]. apply Forall_forall. intros y Hy.
    apply list_elem_of_lookup in Hy as [i Hi]. rewrite lookup_drop in Hi.
    apply Hasym; [done|apply HP; by eapply list_elem_of_lookup_2|]. eapply Hhi; [|done]. lia.
  - intros y z Hy Hz. apply list_elem_of_lookup in Hy as [i Hi].
    apply lookup_take_Some in Hi as [Hi Hik]. assert (le y x) as Hyx by (by eapply Hlo).
    apply elem_of_cons in Hz as [->|Hz]; [done|].
    apply list_elem_of_lookup in Hz as [j Hj]. rewrite lookup_drop in Hj.
    eapply (sorted_lookup a i (k + j)); [done|lia|done|done].
Qed.

Lemma append_or_insort_sorted a x : sorted a → P x → sorted (append_or_insort a x).
Proof.
  intros Ha Hx. unfold append_or_insort. destruct (last a) as [y|] eqn:El; [|by apply insort_sorted].
  destruct (lt y x) eqn:E; [|by apply insort_sorted]. destruct Ha as [HP Hs].
  split; [apply Forall_app; split; [done|by constructor]|].
  rewrite Forall_forall in HP. assert (y ∈ a) as Hya by (by apply last_Some_elem_of).
  apply sorted_app_le; [done|repeat constructor|]. intros z w Hz ->%list_elem_of_singleton.
  assert (le y x) as Hyx by (by apply Hasym; auto).
  apply list_elem_of_lookup in Hz as [i Hi]. pose proof El as El'. rewrite last_lookup in El'.
  destruct (decide (i = pred (length a))) as [->|Hne]; [by simplify_eq|].
  apply (Htrans z y x); auto. { apply HP. by eapply list_elem_of_lookup_2. }
  apply lookup_lt_Some in Hi as Hl. eapply (sorted_lookup a i (pred (length a))); [done|lia|done|done].
Qed.

Lemma sorted_tail a : sorted a → sorted (tail a).
Proof. intros [HP Hs]. destruct Hs as [|x a Hs]; [split; [done|constructor]|]. apply Forall_cons in HP as [? ?]. by split. Qed.

End Bisect.
