(* ===== verification/EventState.v ===== *)
(** The picture of the cluster kept by celery/events/state.py: workers with
    their heartbeats, tasks with the merging of events that arrive out of order,
    the list of task events ordered by time, and the dispatch of one event.

    Numbers (timestamps, clocks, frequencies) are integers.  An event is a
    dictionary; the entries the dispatcher itself reads have types of their own
    and may be missing.  Tasks are objects: [t_oid] is the identity of one, and
    the weak references of the time list and of the sets of tasks are identities
    together with the task's id (two tasks are equal when their ids are).  A task
    that is in no cache is gone; references to it are dead.

    Three things come from other packages: the order of kombu's time tuples
    ([tt_lt]), kombu's LRU cache (the class [LRU]) and the text of a value
    ([str]).  Callbacks and handlers are calls that may raise ([run]). *)

From S2P Require Import Prelude PyDict Effect States PyStr Bisect.
Import States.
Local Open Scope Z_scope.
Local Open Scope eff_scope.

Module EventState.

Inductive value :=
| VNone
| VNum (n : Z)
| VStr (s : string)
| VWorker (hostname : string)
| VOther (n : nat).

#[global] Instance value_eq_dec : EqDecision value.
Proof. solve_decision. Defined.

Definition truthy (v : value) : bool :=
  match v with
  | VNone => false
  | VNum n => negb (n =? 0)
  | VStr s => negb (bool_decide (s = ""%string))
  | VWorker _ | VOther _ => true
  end.

Definition of_num (o : option Z) : value := match o with Some n => VNum n | None => VNone end.
Definition num_truthy (o : option Z) : bool := truthy (of_num o).

Abbreviation attrs := (pydict string value).

(** ** Constants *)

Definition HEARTBEAT_EXPIRE_WINDOW : Z := 200.
Definition heartbeat_max : nat := 4.
Definition heap_multiplier : nat := 4.

Definition TASK_EVENT_TO_STATE : pydict string string :=
  [("sent", PENDING); ("received", RECEIVED); ("started", STARTED); ("failed", FAILURE);
   ("retried", RETRY); ("succeeded", SUCCESS); ("revoked", REVOKED); ("rejected", REJECTED)]%string.

Definition merge_rules : pydict string (list string) :=
  [(RECEIVED, ["name"; "args"; "kwargs"; "parent_id"; "root_id"; "retries"; "eta"; "expires"]%string)].

(** ** Workers *)

(** The attributes of a worker; [w_heartbeats] is the list its event handler
    works on. *)
Record worker := WorkerObj { w_attrs : attrs; w_heartbeats : list Z }.

Definition Worker (hostname : string) : worker :=
  WorkerObj [("hostname", VStr hostname); ("pid", VNone); ("freq", VNum 60); ("clock", VNum 0);
             ("active", VNone); ("processed", VNone); ("loadavg", VNone); ("sw_ident", VNone);
             ("sw_ver", VNone); ("sw_sys", VNone)]%string [].

Definition w_get (w : worker) (k : string) : value := default VNone (dict_get (w_attrs w) k).

(** [Worker.update(f)] *)
Definition worker_update (w : worker) (f : attrs) : worker :=
  WorkerObj (dict_update (w_attrs w) f) (w_heartbeats w).

(** What [event] does to the heartbeats when there is something to record *)
Definition heartbeat (l : list Z) (t : Z) : list Z :=
  append_or_insort Z.ltb (if bool_decide (heartbeat_max - 1 < length l)%nat then tail l else l) t.

(** The worker's [event]; [None] is the type of an event of one of its tasks *)
Definition worker_event (w : worker) (type_ : option string) (timestamp local_received : option Z) (fields : attrs) : worker :=
  let a := dict_update (w_attrs w) fields in
  if bool_decide (type_ = Some "offline"%string) then WorkerObj a []
  else match local_received, timestamp with
       | Some r, Some t => if num_truthy local_received && num_truthy timestamp
                           then WorkerObj a (heartbeat (w_heartbeats w) r) else WorkerObj a (w_heartbeats w)
       | _, _ => WorkerObj a (w_heartbeats w)
       end.

Definition heartbeat_expires (timestamp freq expire_window : Z) : Z := timestamp + freq * expire_window / 100.

Definition alive (w : worker) (now : Z) : outcome bool :=
  match last (w_heartbeats w) with
  | None => Ok false
  | Some t => match w_get w "freq" with
              | VNum freq => Ok (now <? heartbeat_expires t freq HEARTBEAT_EXPIRE_WINDOW)
              | _ => Raise TypeError
              end
  end.

(** ** Tasks *)

Definition oref : Type := nat * string.

(** [t_attrs] is the [__dict__] of the task without its children. *)
Record task := TaskObj { t_oid : nat; t_uuid : string; t_attrs : attrs; t_children : list oref }.

Definition Task (oid : nat) (uuid : string) : task := TaskObj oid uuid [("uuid", VStr uuid)]%string [].

Definition class_default (k : string) : value :=
  if bool_decide (k = "state"%string) then VStr PENDING
  else if bool_decide (k = "clock"%string) then VNum 0 else VNone.

Definition t_get (t : task) (k : string) : value := default (class_default k) (dict_get (t_attrs t) k).

Definition t_set (t : task) (k : string) (v : value) : task :=
  TaskObj (t_oid t) (t_uuid t) (dict_set (t_attrs t) k v) (t_children t).
Definition t_update (t : task) (f : attrs) : task :=
  TaskObj (t_oid t) (t_uuid t) (dict_update (t_attrs t) f) (t_children t).
Definition t_add_children (t : task) (c : list oref) : task := TaskObj (t_oid t) (t_uuid t) (t_attrs t) c.

(** [precedence(v)] for an attribute *)
Definition value_precedence (v : value) : nat := match v with VStr s => precedence s | _ => NONE_PRECEDENCE end.

(** The state an event stands for *)
Definition event_state (type_ : string) : string := default (str_upper type_) (dict_get TASK_EVENT_TO_STATE type_).

(** [Task.event]: the task and the fields afterwards, since the dictionary of
    the event is changed in place *)
Definition task_event (t : task) (type_ : string) (timestamp : option Z) (fields : attrs) : task * attrs :=
  let state := event_state type_ in
  let t := if dict_in TASK_EVENT_TO_STATE type_ then t_set t type_ (of_num timestamp) else t in
  if negb (bool_decide (state = RETRY)) && negb (bool_decide (t_get t "state" = VStr RETRY)) &&
     bool_decide (value_precedence (t_get t "state") < precedence state)%nat
  then match dict_get merge_rules state with
       | Some keep => (t_update t (filter (λ p, p.1 ∈ keep) fields), fields)
       | None => (t_update t fields, fields)
       end
  else let fields := dict_update fields [("state", VStr state); ("timestamp", of_num timestamp)]%string in
       (t_update t fields, fields).

Definition ready (t : task) : bool :=
  match t_get t "state" with VStr s => bool_decide (s ∈ READY_STATES) | _ => false end.

(** [_info_fields] and [Task.info]: the attributes that have a value *)
Definition info_fields : list string :=
  ["args"; "kwargs"; "retries"; "result"; "eta"; "runtime"; "expires"; "exception"; "exchange"; "routing_key";
   "root_id"; "parent_id"]%string.
Definition task_info (t : task) (fields : option (list string)) (extra : list string) : attrs :=
  dict_update [] (omap (λ k, if bool_decide (t_get t k = VNone) then None else Some (k, t_get t k))
                       (default info_fields fields ++ extra)).

(** ** The state of the cluster *)

Record timetup := TT { tt_clock : value; tt_timestamp : value; tt_origin : value; tt_ref : oref }.

Record event := Event {
  ev_type : option string;
  ev_uuid : option string;
  ev_hostname : option string;
  ev_timestamp : option Z;
  ev_local_received : option Z;
  ev_clock : option Z;
  ev_fields : attrs;
}.

Definition entry_of {A} (k : string) (f : A → value) (o : option A) : attrs :=
  match o with Some a => [(k, f a)] | None => [] end.

(** The dictionary of an event *)
Definition event_dict (e : event) : attrs :=
  entry_of "type" VStr (ev_type e) ++ entry_of "uuid" VStr (ev_uuid e) ++ entry_of "hostname" VStr (ev_hostname e) ++
  entry_of "timestamp" VNum (ev_timestamp e) ++ entry_of "local_received" VNum (ev_local_received e) ++
  entry_of "clock" VNum (ev_clock e) ++ ev_fields e.

Inductive call_ :=
| EventCallback
| Handler (group subject : string)
| NodeJoin (w : worker)
| NodeLeave (w : worker).

Abbreviation trace := (list (call_ * outcome ())).

Record cluster := Cluster {
  event_count : Z;
  task_count : Z;
  workers : pydict string worker;
  tasks : pydict string task;
  taskheap : list timetup;
  seen_types : list value;
  tasks_by_type : pydict value (list oref);
  tasks_by_worker : pydict string (list oref);
  tasks_to_resolve : pydict string (list oref);
  next_oid : nat;
  log : trace;
}.

(** kombu's LRU cache: [lru_set limit data k v] is the data after [cache[k] = v]
    (which may drop old entries to stay within the limit) and [lru_touch data k]
    the data after the lookup [cache[k]] of a key that is there. *)
Class LRU (V : Type) := {
  lru_set : nat → pydict string V → string → V → pydict string V;
  lru_touch : pydict string V → string → pydict string V;
  lru_update : nat → pydict string V → pydict string V → pydict string V;
}.

(** What the code relies on: a stored entry is there, all others are as they
    were or gone; a lookup changes the order only. *)
Class LRULaws (V : Type) `{!LRU V} := {
  lru_set_get n d k v : dict_wf d → dict_get (lru_set n d k v) k = Some v;
  lru_set_other n d k v k' v' : dict_wf d → k' ≠ k → dict_get (lru_set n d k v) k' = Some v' → dict_get d k' = Some v';
  lru_set_wf n d k v : dict_wf d → dict_wf (lru_set n d k v);
  lru_touch_perm d k : dict_wf d → lru_touch d k ≡ₚ d;
  lru_update_sub n d d' k v : dict_wf d → dict_wf d' → dict_get (lru_update n d d') k = Some v → dict_get (dict_update d d') k = Some v;
  lru_update_wf n d d' : dict_wf d → dict_wf d' → dict_wf (lru_update n d d');
}.

(** [s.partition('-')] without the separator *)
Fixpoint partition_dash (l : chars) : chars * chars :=
  match l with
  | [] => ([], [])
  | c :: l => if bool_decide (c = "-"%char) then ([], l) else let '(g, s) := partition_dash l in (c :: g, s)
  end.
Definition partition (s : string) : string * string :=
  let '(g, s) := partition_dash (to_chars s) in (of_chars g, of_chars s).

Section State.
Context (tt_lt : timetup → timetup → bool) (str : value → string).
Context `{!LRU worker, !LRU task, !LRU (list oref)}.
(** Arguments of the constructor: the limits, and which callbacks are given *)
Context (max_workers_in_memory max_tasks_in_memory : nat).
Context (event_callback on_node_join on_node_leave : bool) (handlers : gset string).
Context (run : trace → call_ → outcome ()).

Abbreviation M := (eff cluster).

Definition set_workers ws (s : cluster) : cluster :=
  Cluster (event_count s) (task_count s) ws (tasks s) (taskheap s) (seen_types s) (tasks_by_type s)
    (tasks_by_worker s) (tasks_to_resolve s) (next_oid s) (log s).
Definition set_tasks ts (s : cluster) : cluster :=
  Cluster (event_count s) (task_count s) (workers s) ts (taskheap s) (seen_types s) (tasks_by_type s)
    (tasks_by_worker s) (tasks_to_resolve s) (next_oid s) (log s).
Definition set_taskheap h (s : cluster) : cluster :=
  Cluster (event_count s) (task_count s) (workers s) (tasks s) h (seen_types s) (tasks_by_type s)
    (tasks_by_worker s) (tasks_to_resolve s) (next_oid s) (log s).
Definition set_counts ec tc (s : cluster) : cluster :=
  Cluster ec tc (workers s) (tasks s) (taskheap s) (seen_types s) (tasks_by_type s)
    (tasks_by_worker s) (tasks_to_resolve s) (next_oid s) (log s).
Definition set_index st bt bw (s : cluster) : cluster :=
  Cluster (event_count s) (task_count s) (workers s) (tasks s) (taskheap s) st bt bw (tasks_to_resolve s) (next_oid s) (log s).
Definition set_resolve r (s : cluster) : cluster :=
  Cluster (event_count s) (task_count s) (workers s) (tasks s) (taskheap s) (seen_types s) (tasks_by_type s)
    (tasks_by_worker s) r (next_oid s) (log s).
Definition set_next n (s : cluster) : cluster :=
  Cluster (event_count s) (task_count s) (workers s) (tasks s) (taskheap s) (seen_types s) (tasks_by_type s)
    (tasks_by_worker s) (tasks_to_resolve s) n (log s).

Definition call (c : call_) : M () := λ s,
  let r := run (log s) c in
  (Cluster (event_count s) (task_count s) (workers s) (tasks s) (taskheap s) (seen_types s) (tasks_by_type s)
    (tasks_by_worker s) (tasks_to_resolve s) (next_oid s) (log s ++ [(c, r)]), r).

(** ** Weak references *)

(** The object a reference points to, if it is still in the cache *)
Definition deref (ts : pydict string task) (r : oref) : option task :=
  match dict_get ts r.2 with
  | Some t => if bool_decide (t_oid t = r.1) then Some t else None
  | None => None
  end.

Definition ref (t : task) : oref := (t_oid t, t_uuid t).

(** [WeakSet.add]: dead members are gone, equal members are not added again *)
Definition weak_add (ts : pydict string task) (l : list oref) (r : oref) : list oref :=
  let l := filter (λ r, is_Some (deref ts r)) l in
  if bool_decide (r.2 ∈ l.*2) then l else l ++ [r].

(** ** Clearing *)

Definition clear_tasks_ (only_ready : bool) : M () :=
  run! (if only_ready
        then emodify (λ s, set_tasks (lru_update max_tasks_in_memory [] (filter (λ p, ready p.2 = false) (tasks s))) s)
        else emodify (set_tasks [])) in
  emodify (set_taskheap []).

Definition clear_ (only_ready : bool) : M () :=
  run! emodify (set_workers []) in
  run! clear_tasks_ only_ready in
  emodify (set_counts 0 0).

(** [freeze_while(fun, clear_after=...)]; the lock is released either way *)
Definition freeze_while {A} (fun_ : M A) (clear_after : bool) : M A :=
  efinally fun_ (ewhen clear_after (clear_ true)).

(** ** Lookup by name *)

(** The keyword arguments are attributes of workers. *)
Definition get_or_create_worker (hostname : string) (kwargs : attrs) : M (worker * bool) :=
  do! ws := eget workers in
  match dict_get ws hostname with
  | Some w =>
      let w := match kwargs with [] => w | _ => worker_update w kwargs end in
      run! emodify (set_workers (dict_set (lru_touch ws hostname) hostname w)) in
      eret (w, false)
  | None =>
      let w := worker_update (Worker hostname) kwargs in
      run! emodify (set_workers (lru_set max_workers_in_memory ws hostname w)) in
      eret (w, true)
  end.

Definition new_task (uuid : string) : M task :=
  do! n := eget next_oid in
  run! emodify (set_next (S n)) in
  let t := Task n uuid in
  run! emodify (λ s, set_tasks (lru_set max_tasks_in_memory (tasks s) uuid t) s) in
  eret t.

Definition get_or_create_task (uuid : string) : M (task * bool) :=
  do! ts := eget tasks in
  match dict_get ts uuid with
  | Some t => run! emodify (set_tasks (lru_touch ts uuid)) in eret (t, false)
  | None => do! t := new_task uuid in eret (t, true)
  end.

(** ** Events of workers *)

Inductive result :=
| RNone
| RHandler (subject : string)
| RWorker (w : worker) (created : bool) (subject : string)
| RTask (uuid : string) (created : bool) (subject : string).

(** Changes to a worker or task object that is in the cache *)
Definition put_worker (hostname : string) (w : worker) : M () :=
  emodify (λ s, match dict_get (workers s) hostname with
                | Some _ => set_workers (dict_set (workers s) hostname w) s
                | None => s
                end).
Definition modify_task (uuid : string) (f : task → task) : M () :=
  emodify (λ s, match dict_get (tasks s) uuid with
                | Some t => set_tasks (dict_set (tasks s) uuid (f t)) s
                | None => s
                end).

Definition new_worker (hostname : string) : M worker :=
  run! emodify (λ s, set_workers (lru_set max_workers_in_memory (workers s) hostname (Worker hostname)) s) in
  eret (Worker hostname).

(** [get_worker(hostname)], or a new worker; the worker that goes offline is
    not put into the cache. *)
Definition find_worker (hostname : string) (is_offline : bool) : M (worker * bool) :=
  do! ws := eget workers in
  match dict_get ws hostname with
  | Some w => eret (w, false)
  | None => if is_offline then eret (Worker hostname, false)
            else do! w := new_worker hostname in eret (w, true)
  end.

Definition dispatch_worker (e : event) (subject hostname : string) (timestamp local_received : Z) : M result :=
  let is_offline := bool_decide (subject = "offline"%string) in
  do! (w, created) := find_worker hostname is_offline in
  let w := worker_event w (Some subject) (Some timestamp) (Some local_received) (event_dict e) in
  run! put_worker hostname w in
  run! ewhen (on_node_join && (created || bool_decide (subject = "online"%string))) (call (NodeJoin w)) in
  run! ewhen (on_node_leave && is_offline)
         (run! call (NodeLeave w) in emodify (λ s, set_workers (dict_del (workers s) hostname) s)) in
  eret (RWorker w created subject).

(** ** Events of tasks *)

Definition worker_id (w : worker) : string := (str (w_get w "hostname") ++ "." ++ str (w_get w "pid"))%string.

(** The worker of an event of a task, with the note that it is alive, and the
    origin of the event *)
Definition task_origin (uuid hostname : string) (timestamp local_received : Z) (is_client_event : bool) : M value :=
  if is_client_event then
    run! modify_task uuid (λ t, t_set t "client" (VStr hostname)) in
    eret (VStr hostname)
  else
    do! (w, _) := find_worker hostname false in
    run! modify_task uuid (λ t, t_set t "worker" (VWorker hostname)) in
    let w := if num_truthy (Some local_received)
             then worker_event w None (Some local_received) (Some timestamp) [] else w in
    run! put_worker hostname w in
    eret (VStr (worker_id w)).

Definition max_events_in_heap : nat := max_tasks_in_memory * heap_multiplier.

(** The event in the list ordered by time *)
Definition add_to_heap (tt : timetup) : M () :=
  do! heap := eget taskheap in
  run! ewhen (bool_decide (max_events_in_heap < length heap + 1)%nat)
         (match heap with
          | [] => eraise IndexError
          | _ :: heap => emodify (set_taskheap heap)
          end) in
  do! heap' := eget taskheap in
  match heap, heap' with
  | _ :: _, [] => eraise IndexError
  | _, _ => emodify (set_taskheap (append_or_insort tt_lt heap' tt))
  end.

Definition index_task (t : task) (hostname : string) (task_created : bool) : M () :=
  let name := t_get t "name" in
  ewhen (negb (bool_decide (name = VNone)))
    (emodify (λ s,
       let seen := if bool_decide (name ∈ seen_types s) then seen_types s else seen_types s ++ [name] in
       let add {K} `{!EqDecision K} (d : pydict K (list oref)) (k : K) :=
         dict_set d k (weak_add (tasks s) (default [] (dict_get d k)) (ref t)) in
       if task_created then set_index seen (add (tasks_by_type s) name) (add (tasks_by_worker s) hostname) s
       else set_index seen (tasks_by_type s) (tasks_by_worker s) s)).

Definition add_pending_task_child (t : task) (parent_id : string) : M () :=
  emodify (λ s,
    match dict_get (tasks_to_resolve s) parent_id with
    | Some ch => set_resolve (dict_set (lru_touch (tasks_to_resolve s) parent_id) parent_id (weak_add (tasks s) ch (ref t))) s
    | None => set_resolve (lru_set max_tasks_in_memory (tasks_to_resolve s) parent_id (weak_add (tasks s) [] (ref t))) s
    end).

(** Parents are known by a string. *)
Definition link_parent (t : task) : M () :=
  ewhen (truthy (t_get t "parent_id"))
    (match t_get t "parent_id" with
     | VStr parent_id =>
         do! ts := eget tasks in
         match dict_get ts parent_id with
         | Some _ =>
             run! emodify (set_tasks (lru_touch ts parent_id)) in
             modify_task parent_id (λ p, t_add_children p (weak_add ts (t_children p) (ref t)))
         | None => add_pending_task_child t parent_id
         end
     | _ => eraise TypeError
     end).

Definition link_children (uuid : string) : M () :=
  do! waiting := eget tasks_to_resolve in
  match dict_get waiting uuid with
  | None => eret ()
  | Some children =>
      run! emodify (set_resolve (dict_del waiting uuid)) in
      do! ts := eget tasks in
      modify_task uuid (λ t, t_add_children t
        (foldl (weak_add ts) (t_children t) (filter (λ r, is_Some (deref ts r)) children)))
  end.

Definition get_task (uuid : string) : M task :=
  do! ts := eget tasks in elift (of_option KeyError (dict_get ts uuid)).

Definition dispatch_task (e : event) (subject uuid hostname : string) (timestamp local_received clock : Z) : M (result * attrs) :=
  do! ts := eget tasks in
  do! task_created := match dict_get ts uuid with
                      | Some _ => eret false
                      | None => run! new_task uuid in eret true
                      end in
  do! origin := task_origin uuid hostname timestamp local_received (bool_decide (subject = "sent"%string)) in
  do! t := get_task uuid in
  run! add_to_heap (TT (VNum clock) (VNum timestamp) origin (ref t)) in
  run! ewhen (bool_decide (subject = "received"%string))
         (emodify (λ s, set_counts (event_count s) (task_count s + 1) s)) in
  do! t := get_task uuid in
  let '(t', fields) := task_event t subject (Some timestamp) (event_dict e) in
  run! modify_task uuid (λ _, t') in
  run! index_task t' hostname task_created in
  run! link_parent t' in
  run! link_children uuid in
  eret (RTask uuid task_created subject, fields).

(** [_event]: the result, and the dictionary of the event afterwards *)
Definition event_ (e : event) : M (result * attrs) :=
  run! emodify (λ s, set_counts (event_count s + 1) (task_count s) s) in
  run! ewhen event_callback (call EventCallback) in
  do! type_ := elift (of_option KeyError (ev_type e)) in
  let '(group, subject) := partition type_ in
  if bool_decide (group ∈ handlers) then
    run! call (Handler group subject) in eret (RHandler subject, event_dict e)
  else if bool_decide (group = "worker"%string) then
    match ev_hostname e, ev_timestamp e, ev_local_received e with
    | Some hostname, Some timestamp, Some local_received =>
        do! r := dispatch_worker e subject hostname timestamp local_received in eret (r, event_dict e)
    | _, _, _ => eret (RNone, event_dict e)
    end
  else if bool_decide (group = "task"%string) then
    match ev_uuid e, ev_hostname e, ev_timestamp e, ev_local_received e, ev_clock e with
    | Some uuid, Some hostname, Some timestamp, Some local_received, Some clock =>
        dispatch_task e subject uuid hostname timestamp local_received clock
    | _, _, _, _, _ => eraise KeyError
    end
  else eret (RNone, event_dict e).

(** ** Queries *)

(** The origin of a task; the worker is looked up by its name *)
Definition task_origin_of (ws : pydict string worker) (t : task) : value :=
  match t_get t "worker" with
  | VWorker h => VStr (worker_id (default (Worker h) (dict_get ws h)))
  | _ => t_get t "client"
  end.

(** [rebuild_taskheap]: the list that is sorted afterwards is not the list of
    the state, which has been given a copy of its elements before. *)
Definition rebuild_taskheap : M () :=
  emodify (λ s, set_taskheap ((λ t, TT (t_get t "clock") (t_get t "timestamp") (task_origin_of (workers s) t) (ref t))
                              <$> dict_values (tasks s)) s).

Definition itertasks (s : cluster) (limit : option nat) : list (string * task) :=
  match limit with Some (S n) => take (S n) (tasks s) | _ => tasks s end.

Fixpoint unseen (seen : list string) (l : list task) : list (string * task) :=
  match l with
  | [] => []
  | t :: l => if bool_decide (t_uuid t ∈ seen) then unseen seen l else (t_uuid t, t) :: unseen (t_uuid t :: seen) l
  end.

Definition tasks_by_time (s : cluster) (limit : option nat) (reversed : bool) : list (string * task) :=
  let heap := if reversed then reverse (taskheap s) else taskheap s in
  let heap := match limit with Some n => take n heap | None => heap end in
  unseen [] (omap (λ tt, deref (tasks s) (tt_ref tt)) heap).

Definition tasks_by_type_ (s : cluster) (name : string) (limit : option nat) (reversed : bool) : list (string * task) :=
  let l := filter (λ p, t_get p.2 "name" = VStr name) (tasks_by_time s None reversed) in
  match limit with Some n => take n l | None => l end.

(** The generator asks each task for the name of its worker until the limit is
    reached; a task that no worker has reported has none. *)
Fixpoint on_worker (hostname : string) (limit : option nat) (l : list (string * task)) : outcome (list (string * task)) :=
  match limit, l with
  | Some O, _ | _, [] => Ok []
  | _, p :: l =>
      match t_get p.2 "worker" with
      | VWorker h => if bool_decide (h = hostname)
                     then let! r := on_worker hostname (pred <$> limit) l in Ok (p :: r)
                     else on_worker hostname limit l
      | _ => Raise AttributeError
      end
  end.

Definition tasks_by_worker_ (s : cluster) (hostname : string) (limit : option nat) (reversed : bool) : outcome (list (string * task)) :=
  on_worker hostname limit (tasks_by_time s None reversed).

Definition alive_workers (s : cluster) (now : Z) : outcome (list worker) :=
  foldM (λ acc w, let! a := alive w now in Ok (if a then acc ++ [w] else acc)) [] (dict_values (workers s)).

End State.

(** ** The picture stays well formed *)

Section Invariant.
Context (tt_lt : timetup → timetup → bool) (str : value → string).
Context `{!LRU worker, !LRULaws worker, !LRU task, !LRULaws task, !LRU (list oref)}.
Context (max_workers_in_memory max_tasks_in_memory : nat).
Context (event_callback on_node_join on_node_leave : bool) (handlers : gset string).
Context (run : trace → call_ → outcome ()).

(** The tuples kombu orders by the logical clock *)
Definition clocked (tt : timetup) : Prop :=
  (∃ n, tt_clock tt = VNum n ∧ n ≠ 0) ∧ ∃ o, tt_origin tt = VStr o.

Context (Htrans : ∀ a b c, clocked a → clocked b → clocked c → le tt_lt a b → le tt_lt b c → le tt_lt a c).
Context (Hasym : ∀ a b, clocked a → clocked b → tt_lt a b = true → tt_lt b a = false).

(** Whether the list of events is to be in order *)
Section Ordered.
Context (ordered : Prop).

(** A worker known as [hostname]: its heartbeats are in order and at most four *)
Definition worker_ok (hostname : string) (w : worker) : Prop :=
  w_get w "hostname" = VStr hostname ∧
  sorted Z.ltb (λ _, True) (w_heartbeats w) ∧ (length (w_heartbeats w) ≤ heartbeat_max)%nat.

Record cluster_ok (s : cluster) : Prop := {
  ok_workers_wf : dict_wf (workers s);
  ok_workers h w : dict_get (workers s) h = Some w → worker_ok h w;
  ok_tasks_wf : dict_wf (tasks s);
  ok_tasks u t : dict_get (tasks s) u = Some t → t_uuid t = u ∧ (t_oid t < next_oid s)%nat;
  ok_oids u u' t t' : dict_get (tasks s) u = Some t → dict_get (tasks s) u' = Some t' → t_oid t = t_oid t' → u = u';
  ok_heap_sorted : ordered → sorted tt_lt clocked (taskheap s);
  ok_heap_refs tt : tt ∈ taskheap s → ((tt_ref tt).1 < next_oid s)%nat;
  ok_heap_bound : (length (taskheap s) ≤ max_events_in_heap max_tasks_in_memory)%nat;
}.

(** The parts of the state the invariant speaks of *)
Lemma cluster_ok_frame s s' :
  workers s' = workers s → tasks s' = tasks s → taskheap s' = taskheap s → next_oid s' = next_oid s →
  cluster_ok s → cluster_ok s'.
Proof. intros Hw Ht Hh Hn []. split; rewrite ?Hw, ?Ht, ?Hh, ?Hn; auto. Qed.

(** *** Workers *)

Lemma heartbeat_ok l t :
  sorted Z.ltb (λ _, True) l → (length l ≤ heartbeat_max)%nat →
  sorted Z.ltb (λ _, True) (heartbeat l t) ∧ (length (heartbeat l t) ≤ heartbeat_max)%nat.
Proof using Type.
  intros Hs Hl. unfold heartbeat. split.
  - apply append_or_insort_sorted; [|intros; lia| |done].
    + unfold le. intros x y z _ _ _ ?%Z.ltb_ge ?%Z.ltb_ge. apply Z.ltb_ge. lia.
    + by case_bool_decide; [apply sorted_tail|].
  - rewrite append_or_insort_length. unfold heartbeat_max in *. case_bool_decide; [destruct l; simpl in *; lia|lia].
Qed.

Lemma Worker_ok h : worker_ok h (Worker h).
Proof using Type. split; [done|]. split; [split; constructor|]. simpl. unfold heartbeat_max. lia. Qed.

Lemma worker_event_ok h w ty ts lr f :
  worker_ok h w → dict_wf f → (∀ v, dict_get f "hostname" = Some v → v = VStr h) → worker_ok h (worker_event w ty ts lr f).
Proof using Type.
  intros (Hh & Hs & Hl) Hf Hv. unfold worker_event.
  assert (∀ l, w_get (WorkerObj (dict_update (w_attrs w) f) l) "hostname" = VStr h) as Hget.
  { intros l. unfold w_get. simpl. rewrite dict_get_update by done. destruct (dict_get f _) as [v|]; [by rewrite (Hv v eq_refl)|done]. }
  case_bool_decide; [split; [done|]; split; [split; constructor|simpl; unfold heartbeat_max; lia]|].
  destruct lr as [r|], ts as [t|]; try by split.
  destruct (_ && _); [|by split]. split; [done|]. by apply heartbeat_ok.
Qed.

Lemma put_worker_ok h w : worker_ok h w → keeps cluster_ok (put_worker h w).
Proof.
  intros Hw. apply keeps_modify. intros s Hs. destruct (dict_get (workers s) h) eqn:E; [|done].
  destruct Hs as []. split; simpl; auto using dict_set_wf.
  intros h' w'. rewrite dict_get_set. case_decide; [|auto]. subst. by intros [= <-].
Qed.

Lemma new_worker_ok h : triple cluster_ok (new_worker max_workers_in_memory h) (λ w s, cluster_ok s ∧ worker_ok h w) cluster_ok.
Proof.
  intros s Hs. split; [|apply Worker_ok]. destruct Hs as []. split; simpl; auto using lru_set_wf.
  intros h' w'. destruct (decide (h' = h)) as [->|].
  - rewrite lru_set_get by done. intros [= <-]. apply Worker_ok.
  - intros H%lru_set_other; [auto|done..].
Qed.

(** *** Tasks *)

Definition same_task (t t' : task) : Prop := t_uuid t' = t_uuid t ∧ t_oid t' = t_oid t.

Lemma set_task_ok s u t t' :
  cluster_ok s → dict_get (tasks s) u = Some t → same_task t t' → cluster_ok (set_tasks (dict_set (tasks s) u t') s).
Proof.
  intros Hs Ht [Hu Ho]. destruct Hs as []. split; simpl; auto using dict_set_wf.
  - intros u1 t1. rewrite dict_get_set. case_decide as E; [|by auto]. subst. intros [= <-]. rewrite Hu, Ho. by auto.
  - intros u1 u2 t1 t2. rewrite !dict_get_set. repeat case_decide; subst; intros ?? Hoid; simplify_eq; [done|..].
    + eapply ok_oids0; [done|done|]. congruence.
    + eapply ok_oids0; [done|done|]. congruence.
    + eapply ok_oids0; [done|done|done].
Qed.

Lemma modify_task_ok u f : (∀ t, same_task t (f t)) → keeps cluster_ok (modify_task u f).
Proof.
  intros Hf. apply keeps_modify. intros s Hs. destruct (dict_get (tasks s) u) as [t|] eqn:E; [|done].
  eapply set_task_ok; eauto.
Qed.

Lemma new_task_ok u : keeps cluster_ok (new_task max_tasks_in_memory u).
Proof.
  intros s Hs. simpl. destruct Hs as []. split; simpl; auto using lru_set_wf.
  - intros u1 t1. destruct (decide (u1 = u)) as [->|].
    + rewrite lru_set_get by done. intros [= <-]. split; [done|]. simpl. lia.
    + intros [? ?]%lru_set_other%ok_tasks0; [|done..]. split; [done|lia].
  - intros u1 u2 t1 t2 H1 H2 Hoid. destruct (decide (u1 = u)) as [->|], (decide (u2 = u)) as [->|]; [done|..].
    + rewrite lru_set_get in H1 by done. simplify_eq/=. apply lru_set_other, ok_tasks0 in H2; [|done..]. lia.
    + rewrite lru_set_get in H2 by done. simplify_eq/=. apply lru_set_other, ok_tasks0 in H1; [|done..]. lia.
    + apply lru_set_other in H1, H2; [|done..]. by eapply ok_oids0.
  - intros tt Htt%ok_heap_refs0. lia.
Qed.

Lemma touch_ok s u : cluster_ok s → cluster_ok (set_tasks (lru_touch (tasks s) u) s).
Proof.
  intros Hs. pose proof (lru_touch_perm (tasks s) u (ok_tasks_wf s Hs)) as Hp. destruct Hs as [].
  assert (dict_wf (lru_touch (tasks s) u)) as Hwf by (unfold dict_wf, dict_keys in *; by rewrite Hp).
  assert (∀ k, dict_get (lru_touch (tasks s) u) k = dict_get (tasks s) k) as Hget by (intros k; by apply dict_get_perm).
  split; simpl; auto.
  - intros u1 t1. rewrite Hget. auto.
  - intros u1 u2 t1 t2. rewrite !Hget. eauto.
Qed.

Lemma get_task_ok u : triple cluster_ok (get_task u) (λ t s, cluster_ok s ∧ dict_get (tasks s) u = Some t) cluster_ok.
Proof. intros s Hs. unfold get_task, ebind, eget, elift. simpl. by destruct (dict_get (tasks s) u). Qed.

(** *** The list ordered by time *)

Lemma set_taskheap_ok s h :
  cluster_ok s → (ordered → sorted tt_lt clocked h) → (∀ tt, tt ∈ h → ((tt_ref tt).1 < next_oid s)%nat) →
  (length h ≤ max_events_in_heap max_tasks_in_memory)%nat → cluster_ok (set_taskheap h s).
Proof. intros [] ???. split; simpl; auto. Qed.

Lemma add_to_heap_ok tt :
  (ordered → clocked tt) → triple (λ s, cluster_ok s ∧ ((tt_ref tt).1 < next_oid s)%nat) (add_to_heap tt_lt max_tasks_in_memory tt) (λ _, cluster_ok) cluster_ok.
Proof.
  intros Htt s [Hs Href]. unfold add_to_heap, ebind, eget, emodify, eraise, ewhen.
  assert (∀ s h, cluster_ok s → ((tt_ref tt).1 < next_oid s)%nat → taskheap s = h → (length h < max_events_in_heap max_tasks_in_memory)%nat →
            cluster_ok (set_taskheap (append_or_insort tt_lt h tt) s)) as Hadd.
  { intros s' h Hs' Href' <- Hlen. pose proof (ok_heap_sorted s' Hs'). apply set_taskheap_ok; [done| | |].
    - intros Ho. apply append_or_insort_sorted; auto.
    - intros tt'. rewrite append_or_insort_perm, elem_of_cons. intros [->|Hin]; [done|]. by apply (ok_heap_refs s').
    - rewrite append_or_insort_length. lia. }
  pose proof (ok_heap_bound s Hs) as Hb. pose proof (ok_heap_refs s Hs) as Hr. pose proof (ok_heap_sorted s Hs) as Hsort.
  case_bool_decide as Hfull.
  - destruct (taskheap s) as [|x h] eqn:Eh; simpl in *; [done|].
    assert (cluster_ok (set_taskheap h s)) as Hs1.
    { apply set_taskheap_ok; [done|intros Ho; by apply (sorted_tail _ _ (x :: h)), Hsort|set_solver|lia]. }
    destruct h as [|y h]; [done|]. apply (Hadd (set_taskheap (y :: h) s) (y :: h)); simpl in *; [done|done|done|lia].
  - simpl. destruct (taskheap s) as [|x h] eqn:Eh; apply Hadd; simpl in *; auto; lia.
Qed.

(** *** Dispatch *)

Lemma keeps_frame {A} (c : eff cluster A) :
  (∀ s, let s' := (c s).1 in workers s' = workers s ∧ tasks s' = tasks s ∧ taskheap s' = taskheap s ∧ next_oid s' = next_oid s) →
  keeps cluster_ok c.
Proof. intros H s. destruct (H s) as (?&?&?&?). by apply cluster_ok_frame. Qed.

Lemma call_ok c : keeps cluster_ok (call run c).
Proof. by apply keeps_frame. Qed.

(** What is known of a value for good can be assumed in the rest. *)
Lemma keeps_triple {A B} (c : eff cluster A) (k : A → eff cluster B) (Q : A → Prop) :
  triple cluster_ok c (λ a s, cluster_ok s ∧ Q a) cluster_ok → (∀ a, Q a → keeps cluster_ok (k a)) → keeps cluster_ok (ebind c k).
Proof.
  intros Hc Hk s Hs. specialize (Hc s Hs). unfold ebind. destruct (c s) as [s' [a|x|]]; simpl; [|done..].
  destruct Hc as [Hs' Ha]. by apply Hk.
Qed.

Lemma find_worker_ok h off :
  triple cluster_ok (find_worker max_workers_in_memory h off) (λ p s, cluster_ok s ∧ worker_ok h p.1) cluster_ok.
Proof.
  intros s Hs. unfold find_worker, ebind at 1, eget. destruct (dict_get (workers s) h) as [w|] eqn:E.
  { split; [done|]. by apply (ok_workers s Hs). }
  destruct off; [split; [done|apply Worker_ok]|]. pose proof (new_worker_ok h s Hs) as Hn. unfold ebind.
  by destruct (new_worker max_workers_in_memory h s) as [s' []].
Qed.

Lemma event_hostname e h v :
  dict_wf (event_dict e) → ev_hostname e = Some h → dict_get (event_dict e) "hostname" = Some v → v = VStr h.
Proof.
  intros Hwf Hh Hv. assert (("hostname"%string, VStr h) ∈ event_dict e) as Hin.
  { unfold event_dict. rewrite Hh. simpl. set_solver. }
  apply dict_elem_get in Hin; [|done]. congruence.
Qed.

Lemma remove_worker_ok h : keeps cluster_ok (emodify (λ s, set_workers (dict_del (workers s) h) s)).
Proof.
  apply keeps_modify. intros s []. split; simpl; auto using dict_del_wf.
  intros h' w' Hw. destruct (decide (h = h')) as [->|]; [by rewrite dict_get_del_eq in Hw|].
  rewrite dict_get_del_ne in Hw by done. auto.
Qed.

Lemma dispatch_worker_ok e subject h ts lr :
  dict_wf (event_dict e) → ev_hostname e = Some h →
  keeps cluster_ok (dispatch_worker max_workers_in_memory on_node_join on_node_leave run e subject h ts lr).
Proof.
  intros Hwf Hh. unfold dispatch_worker. eapply keeps_triple; [apply find_worker_ok|]. intros [w created] Hw. simpl in Hw.
  assert (worker_ok h (worker_event w (Some subject) (Some ts) (Some lr) (event_dict e))) as Hw'.
  { apply worker_event_ok; [done|done|]. intros v. by apply event_hostname. }
  keeps; auto using put_worker_ok, call_ok, remove_worker_ok.
Qed.

Lemma task_origin_ok u h ts lr client :
  triple cluster_ok (task_origin str max_workers_in_memory u h ts lr client) (λ v s, cluster_ok s ∧ ∃ o, v = VStr o) cluster_ok.
Proof.
  intros s Hs. assert (keeps cluster_ok (task_origin str max_workers_in_memory u h ts lr client)) as Hk.
  { unfold task_origin. destruct client; [keeps; by apply modify_task_ok|].
    eapply keeps_triple; [apply find_worker_ok|]. intros [w created] Hw. simpl in Hw.
    keeps; [by apply modify_task_ok|]. apply put_worker_ok. destruct (num_truthy _); [|done].
    apply worker_event_ok; [done|apply NoDup_nil_2|done]. }
  specialize (Hk s Hs). destruct (task_origin _ _ _ _ _ _ _ s) as [s' [v|x|]] eqn:E; [|done..]. split; [done|].
  revert E. unfold task_origin. destruct client; unfold ebind, eret; intros E.
  - destruct (modify_task _ _ s) as [? []]; simplify_eq. eauto.
  - destruct (find_worker _ _ _ s) as [s1 [[w created]|x|]]; simplify_eq.
    destruct (modify_task _ _ s1) as [s2 []]; simplify_eq. destruct (put_worker _ _ s2) as [? []]; simplify_eq. eauto.
Qed.

Lemma index_task_ok t h b : keeps cluster_ok (index_task t h b).
Proof.
  apply keeps_frame. intros s. unfold index_task, ewhen, emodify. by destruct (negb _), b.
Qed.

Lemma link_parent_ok t : keeps cluster_ok (link_parent max_tasks_in_memory t).
Proof.
  unfold link_parent. apply keeps_when. destruct (t_get t "parent_id") as [| |p| |]; try apply keeps_raise.
  intros s Hs. unfold ebind at 1, eget. destruct (dict_get (tasks s) p).
  - unfold ebind, emodify at 1. by apply modify_task_ok, touch_ok.
  - revert s Hs. apply keeps_frame. intros s. unfold add_pending_task_child, emodify. simpl. by destruct (dict_get (tasks_to_resolve s) p).
Qed.

Lemma link_children_ok u : keeps cluster_ok (link_children u).
Proof. unfold link_children. keeps; [by apply keeps_frame|by apply modify_task_ok]. Qed.

Lemma task_event_same t ty ts f : same_task t (task_event t ty ts f).1.
Proof using Type.
  unfold task_event. destruct (dict_in _ _); (case_match; [case_match|]); done.
Qed.

Lemma keeps_get_task {B} u (k : task → eff cluster B) :
  (∀ t, triple (λ s, cluster_ok s ∧ dict_get (tasks s) u = Some t) (k t) (λ _, cluster_ok) cluster_ok) →
  keeps cluster_ok (ebind (get_task u) k).
Proof.
  intros Hk s Hs. pose proof (get_task_ok u s Hs) as Hg. unfold ebind.
  destruct (get_task u s) as [s' [t|x|]]; simpl; [|done..]. specialize (Hk t s' Hg). by destruct (k t s') as [? []].
Qed.

Lemma triple_keeps {A} (c : eff cluster A) : keeps cluster_ok c → triple cluster_ok c (λ _, cluster_ok) cluster_ok.
Proof. intros Hc s Hs. specialize (Hc s Hs). by destruct (c s) as [? []]. Qed.

Lemma dispatch_task_ok e subject u h ts lr clock :
  (ordered → clock ≠ 0) →
  keeps cluster_ok (dispatch_task tt_lt str max_workers_in_memory max_tasks_in_memory e subject u h ts lr clock).
Proof.
  intros Hclock. unfold dispatch_task. apply keeps_bind; [apply keeps_get|intros known].
  apply keeps_bind; [keeps; apply new_task_ok|intros created].
  eapply keeps_triple; [apply task_origin_ok|]. intros v [o ->]. apply keeps_get_task. intros t.
  eapply triple_bind; [eapply triple_conseq; [apply add_to_heap_ok| |done]|].
  { intros Ho. split; simpl; eauto. }
  { intros s [Hs Ht]. split; [done|]. by apply (ok_tasks s Hs u t). }
  intros []. apply triple_keeps. apply keeps_bind; [keeps; by apply keeps_frame|intros _].
  apply keeps_get_task. intros t1. pose proof (task_event_same t1 subject (Some ts) (event_dict e)) as Hsame.
  destruct (task_event _ _ _ _) as [t2 f]. eapply (triple_bind _ _ _ (λ _, cluster_ok)).
  { intros s [Hs Ht]. simpl. rewrite Ht. by eapply set_task_ok. }
  intros []. apply triple_keeps. keeps; auto using index_task_ok, link_parent_ok, link_children_ok.
Qed.

Lemma event_ok e :
  dict_wf (event_dict e) → (ordered → ∀ n, ev_clock e = Some n → n ≠ 0) →
  keeps cluster_ok (event_ tt_lt str max_workers_in_memory max_tasks_in_memory event_callback on_node_join on_node_leave handlers run e).
Proof.
  intros Hwf Hc. unfold event_. apply keeps_bind; [by apply keeps_frame|intros _].
  apply keeps_bind; [keeps; apply call_ok|intros _]. apply keeps_bind; [keeps|intros ty].
  destruct (partition ty) as [group subject]. destruct (ev_hostname e) eqn:Eh; keeps; auto using call_ok, dispatch_worker_ok, dispatch_task_ok.
Qed.

(** The picture after a sequence of events, each of which may have failed *)
Definition consume (s : cluster) (es : list event) : cluster :=
  foldl (λ s e, (event_ tt_lt str max_workers_in_memory max_tasks_in_memory event_callback on_node_join on_node_leave handlers run e s).1) s es.

Definition empty_cluster : cluster := Cluster 0 0 [] [] [] [] [] [] [] 0 [].

Lemma empty_cluster_ok : cluster_ok empty_cluster.
Proof using Type. split; simpl; try done; try constructor; [constructor|constructor|intros ? []%not_elem_of_nil|lia]. Qed.

Lemma consume_ok s es :
  cluster_ok s → Forall (λ e, dict_wf (event_dict e) ∧ (ordered → ∀ n, ev_clock e = Some n → n ≠ 0)) es → cluster_ok (consume s es).
Proof. intros Hs Hes. revert s Hs. induction Hes as [|e es [] _ IH]; intros s Hs; simpl; [done|]. apply IH. by apply event_ok. Qed.

(** ** Tasks by time *)

Lemma unseen_spec seen l :
  NoDup (unseen seen l).*1 ∧ (∀ u t, (u, t) ∈ unseen seen l → t ∈ l ∧ u = t_uuid t ∧ u ∉ seen) ∧
  ∀ t, t ∈ l → t_uuid t ∉ seen → t_uuid t ∈ (unseen seen l).*1.
Proof using Type.
  revert seen. induction l as [|t l IH]; intros seen; simpl.
  { split_and!; [constructor|by intros u t ?%not_elem_of_nil|by intros t ?%not_elem_of_nil]. }
  case_bool_decide as Hin.
  - destruct (IH seen) as (Hnd & Hsub & Hall). split_and!; [done| |].
    + intros u t' [? ?]%Hsub. split; [by right|done].
    + intros t' [->|?]%elem_of_cons ?; [done|auto].
  - destruct (IH (t_uuid t :: seen)) as (Hnd & Hsub & Hall). split_and!.
    + simpl. constructor; [|done]. intros ([u t'] & Hu & Ht)%list_elem_of_fmap. simpl in *. subst.
      apply Hsub in Ht as (_ & _ & Hns). apply Hns. by left.
    + intros u t' [[= -> ->]|(H1 & H2 & H3)%Hsub]%elem_of_cons; [split_and!; [by left|done|done]|].
      split_and!; [by right|done|]. intros ?. apply H3. by right.
    + intros t' [->|Ht]%elem_of_cons Hns; simpl; [by left|].
      destruct (decide (t_uuid t' = t_uuid t)) as [->|]; [by left|]. right. apply Hall; [done|].
      rewrite elem_of_cons. tauto.
Qed.

(** With no limit the tasks by time are the cached tasks that have an event in
    the list, each once. *)
Lemma tasks_by_time_spec s reversed :
  cluster_ok s →
  NoDup (tasks_by_time s None reversed).*1 ∧
  ∀ u, u ∈ (tasks_by_time s None reversed).*1 ↔ ∃ tt t, tt ∈ taskheap s ∧ tt_ref tt = ref t ∧ dict_get (tasks s) u = Some t.
Proof.
  intros Hs. unfold tasks_by_time. set (heap := if reversed then _ else _).
  assert (∀ tt, tt ∈ heap ↔ tt ∈ taskheap s) as Hheap by (intros tt; unfold heap; destruct reversed; [apply elem_of_reverse|done]).
  destruct (unseen_spec [] (omap (λ tt, deref (tasks s) (tt_ref tt)) heap)) as (Hnd & Hsub & Hall). split; [done|].
  assert (∀ r t, deref (tasks s) r = Some t ↔ r = ref t ∧ dict_get (tasks s) (t_uuid t) = Some t) as Hderef.
  { intros [o u] t. unfold deref, ref. simpl. split.
    - destruct (dict_get (tasks s) u) as [t'|] eqn:E; [|done]. case_bool_decide; [|done]. intros [= ->].
      destruct (ok_tasks s Hs u t E) as [<- _]. by subst.
    - intros [[= -> ->] ->]. by rewrite bool_decide_eq_true_2. }
  intros u. split.
  - intros ([u' t] & -> & Ht)%list_elem_of_fmap. simpl. apply Hsub in Ht as (Ht & -> & _).
    apply list_elem_of_omap in Ht as (tt & Htt & Hd). apply Hderef in Hd as [? ?]. exists tt, t. by rewrite <-Hheap.
  - intros (tt & t & Htt & Hr & Hg). destruct (ok_tasks s Hs u t Hg) as [<- _]. apply Hall; [|by apply not_elem_of_nil].
    apply list_elem_of_omap. exists tt. split; [by apply Hheap|]. by apply Hderef.
Qed.

End Ordered.


End Invariant.

(** ** Merging of task events *)

(** An event as [Task.event] gets it: type, timestamp and fields *)
Abbreviation tevent := (string * option Z * attrs)%type.

Definition apply_events (t : task) (es : list tevent) : task :=
  foldl (λ t e, (task_event t e.1.1 e.1.2 e.2).1) t es.

Lemma t_get_update t f k : dict_wf f →
  t_get (t_update t f) k = default (t_get t k) (dict_get f k).
Proof. intros Hf. unfold t_get, t_update. simpl. rewrite dict_get_update by done. by destruct (dict_get f k). Qed.

Lemma t_get_set_ne t k k' v : k ≠ k' → t_get (t_set t k v) k' = t_get t k'.
Proof. intros Hne. unfold t_get, t_set. simpl. by rewrite dict_get_set_ne. Qed.

(** The state after one event, out of order or not *)
Lemma task_event_state t type_ ts f s :
  t_get t "state" = VStr s → s ≠ RETRY → event_state type_ ≠ RETRY → type_ ≠ "state"%string →
  dict_wf f → dict_get f "state" = None →
  t_get (task_event t type_ ts f).1 "state" =
  VStr (if decide (precedence s < precedence (event_state type_))%nat then s else event_state type_).
Proof.
  intros Hs Hr He Hty Hwf Hf. unfold task_event.
  set (t1 := if dict_in _ _ then _ else t).
  assert (t_get t1 "state" = VStr s) as Hs1.
  { unfold t1. destruct (dict_in _ _); [|done]. by rewrite t_get_set_ne. }
  rewrite Hs1. rewrite !bool_decide_eq_false_2 by congruence. cbn [negb andb value_precedence].
  rewrite bool_decide_decide. destruct (decide _) as [Hlt|Hge].
  - destruct (dict_get merge_rules _) as [keep|] eqn:Ek; simpl; rewrite t_get_update by auto using dict_filter_wf.
    + replace (dict_get (filter _ f) "state") with (@None value); [done|]. symmetry.
      apply dict_get_None. intros (p & Hp & [_ Hin]%list_elem_of_filter)%list_elem_of_fmap.
      apply dict_get_None in Hf. apply Hf. apply list_elem_of_fmap. eauto.
    + by rewrite Hf.
  - simpl. rewrite t_get_update by (apply dict_set_wf, dict_set_wf, Hwf).
    by rewrite dict_get_set_ne, dict_get_set_eq by done.
Qed.

(** The types of events the merging can order: those of built-in states but for
    [retried], which starts the task over *)
Definition plain_event (e : tevent) : Prop :=
  dict_in TASK_EVENT_TO_STATE e.1.1 = true ∧ e.1.1 ≠ "retried"%string ∧ dict_wf e.2 ∧ dict_get e.2 "state" = None.

Lemma plain_event_state e : plain_event e → e.1.1 ≠ "state"%string ∧ event_state e.1.1 ≠ RETRY ∧ event_state e.1.1 ∈ builtin.
Proof.
  intros (Hin & Hr & _). apply dict_in_true in Hin. simpl in Hin.
  rewrite !elem_of_cons, elem_of_nil in Hin.
  destruct_or!; rewrite ?Hin in *; try done; (split_and!; [done|by vm_compute|apply (bool_decide_unpack _); by vm_compute]).
Qed.

Lemma precedence_inj s s' : s ∈ builtin → s' ∈ builtin → precedence s = precedence s' → s = s'.
Proof.
  intros Hs Hs'. unfold builtin in *. simpl in *. rewrite !elem_of_cons, elem_of_nil in *.
  destruct_or!; subst; vm_compute; congruence.
Qed.

(** [s] is one of the states of [l] and none of them is higher. *)
Definition best (s : string) (l : list string) : Prop := s ∈ l ∧ ∀ s', s' ∈ l → state_ge s s' = true.

Lemma best_unique s s' l l' : l ≡ₚ l' → (∀ x, x ∈ l → x ∈ builtin) → best s l → best s' l' → s = s'.
Proof.
  intros Hp Hb [Hin Hbest] [Hin' Hbest']. rewrite <-Hp in Hin'. apply precedence_inj; [by apply Hb..|].
  specialize (Hbest s' Hin'). specialize (Hbest' s ltac:(by rewrite <-Hp)).
  unfold state_ge in *. apply Nat.leb_le in Hbest, Hbest'. lia.
Qed.

Lemma apply_events_state t es s :
  t_get t "state" = VStr s → s ≠ RETRY → Forall plain_event es →
  ∃ s', t_get (apply_events t es) "state" = VStr s' ∧ best s' (s :: ((λ e, event_state e.1.1) <$> es)).
Proof.
  intros Hs Hr Hes. revert t s Hs Hr. induction Hes as [|e es He Hes IH]; intros t s Hs Hr; simpl.
  { exists s. split; [done|]. split; [set_solver|]. intros s' ->%list_elem_of_singleton. unfold state_ge. by apply Nat.leb_le. }
  pose proof (plain_event_state e He) as (Hne & Hne' & _). destruct He as (_ & _ & Hwf & Hf).
  pose proof (task_event_state t e.1.1 e.1.2 e.2 s Hs Hr Hne' Hne Hwf Hf) as Ht.
  set (s1 := if decide _ then s else _) in Ht.
  destruct (IH _ s1 Ht) as (s' & Hs' & Hin & Hbest); [unfold s1; by case_decide|].
  exists s'. split; [done|]. split.
  - unfold s1 in Hin. case_decide; set_solver.
  - assert (∀ x, x ∈ [s; event_state e.1.1] → state_ge s1 x = true) as Hs1.
    { intros x Hx. unfold state_ge. apply Nat.leb_le. unfold s1.
      rewrite !elem_of_cons, elem_of_nil in Hx. destruct Hx as [->|[->|[]]]; case_decide; lia. }
    intros x Hx. rewrite !elem_of_cons in Hx. destruct Hx as [->|[->|Hx]]; [| |apply Hbest; set_solver];
      (specialize (Hbest s1 ltac:(set_solver)); unfold state_ge in *; apply Nat.leb_le in Hbest; apply Nat.leb_le;
       etrans; [exact Hbest|]; apply Nat.leb_le, Hs1; set_solver).
Qed.

(** The state of a task does not depend on the order in which its events
    arrive.  For events of built-in types other than [retried], the state of a
    new task afterwards is the highest of [PENDING] and the states the events
    stand for, and any other order of the same events leads to the same state. *)
Theorem task_state_order_independent oid uuid es :
  Forall plain_event es →
  ∃ s, t_get (apply_events (Task oid uuid) es) "state" = VStr s ∧
    best s (PENDING :: ((λ e, event_state e.1.1) <$> es)) ∧
    ∀ es', es' ≡ₚ es → t_get (apply_events (Task oid uuid) es') "state" = VStr s.
Proof.
  intros Hes. destruct (apply_events_state (Task oid uuid) es PENDING eq_refl ltac:(done) Hes) as (s & Hs & Hbest).
  exists s. split; [done|]. split; [done|]. intros es' Hp.
  assert (Forall plain_event es') as Hes' by (by rewrite Hp).
  destruct (apply_events_state (Task oid uuid) es' PENDING eq_refl ltac:(done) Hes') as (s' & -> & Hbest').
  f_equal. eapply best_unique; [|  |done|done]; [by rewrite Hp|].
  intros x Hx. rewrite elem_of_cons in Hx. destruct Hx as [->|(e & -> & He)%list_elem_of_fmap].
  - apply (bool_decide_unpack _). by vm_compute.
  - rewrite Forall_forall in Hes'. by apply plain_event_state, Hes'.
Qed.

Lemma task_state_order_independent_witness :
  ∃ s, t_get (apply_events (Task 0 "u") [("succeeded", Some 3, []); ("received", Some 1, [("name", VStr "add")]); ("started", Some 2, [])]%string) "state" = VStr s ∧
    best s [PENDING; SUCCESS; RECEIVED; STARTED] ∧
    ∀ es', es' ≡ₚ [("succeeded", Some 3, []); ("received", Some 1, [("name", VStr "add")]); ("started", Some 2, [])]%string →
      t_get (apply_events (Task 0 "u") es') "state" = VStr s.
Proof.
  apply (task_state_order_independent 0 "u").
  repeat constructor; try done; apply (bool_decide_unpack _); by vm_compute.
Defined.

(** ** Examples and witnesses *)

(** A cache that drops its oldest entry when it is full *)
#[local] Instance oldest_out V : LRU V := {|
  lru_set n d k v := dict_set (if bool_decide (0 < n ≤ length d)%nat then tail d else d) k v;
  lru_touch d k := match dict_get d k with Some v => dict_del d k ++ [(k, v)] | None => d end;
  lru_update n d d' := let u := dict_update d d' in if bool_decide (n = 0%nat) then u else drop (length u - n) u;
|}.

Lemma dict_get_tail {V} (d : pydict string V) k v : dict_wf d → dict_get (tail d) k = Some v → dict_get d k = Some v.
Proof.
  destruct d as [|[k1 v1] d]; [done|]. intros [Hk _]%NoDup_cons Hv. simpl. rewrite decide_False; [done|]. intros ->.
  apply Hk. apply (list_elem_of_fmap_2 fst d (k1, v)). by apply dict_get_Some_elem.
Qed.

Lemma dict_drop {V} n (d : pydict string V) : dict_wf d → dict_wf (drop n d) ∧ ∀ k v, dict_get (drop n d) k = Some v → dict_get d k = Some v.
Proof.
  revert d. induction n as [|n IH]; intros d Hd; [done|]. destruct d as [|p d]; [done|]. simpl.
  destruct (IH d) as [Hwf Hget]; [by apply NoDup_cons in Hd as [_ ?]|]. split; [done|].
  intros k v Hv%Hget. by apply (dict_get_tail (p :: d)).
Qed.

#[local] Instance oldest_out_laws V : LRULaws V.
Proof.
  split; simpl.
  - intros. apply dict_get_set_eq.
  - intros n d k v k' v' Hwf Hne. rewrite dict_get_set_ne by done. case_bool_decide; [by apply dict_get_tail|done].
  - intros n d k v Hwf. apply dict_set_wf. case_bool_decide; [|done]. apply (dict_drop 1 d Hwf).
  - intros d k Hwf. destruct (dict_get d k) as [v|] eqn:E; [|done].
    rewrite Permutation_app_comm. symmetry. by apply dict_del_perm.
  - intros n d d' k v Hd Hd'. case_bool_decide; [done|]. by apply dict_drop, dict_update_wf.
  - intros n d d' Hd Hd'. case_bool_decide; [by apply dict_update_wf|]. by apply dict_drop, dict_update_wf.
Qed.

(** Time tuples by their clock *)
Definition by_clock (a b : timetup) : bool :=
  match tt_clock a, tt_clock b with VNum n, VNum m => n <? m | _, _ => false end.

Definition ex_str (v : value) : string := match v with VStr s => s | _ => "None" end.
Definition ex_run (l : trace) (c : call_) : outcome () := match c with NodeJoin _ => Raise OtherExc | _ => Ok () end.

Definition ex_event (ty : string) (uuid : option string) (clock ts lr : Z) (fields : attrs) : event :=
  Event (Some ty) uuid (Some "w1") (Some ts) (Some lr) (Some clock) fields.

Definition ex_events : list event :=
  [ex_event "worker-online" None 1 100 101 [("freq", VNum 2)];
   ex_event "task-received" (Some "b") 7 120 121 [("name", VStr "add"); ("parent_id", VStr "a")];
   ex_event "task-received" (Some "a") 3 110 122 [("name", VStr "mul")];
   ex_event "task-succeeded" (Some "b") 9 130 131 [("result", VStr "4")]]%string.

Definition ex_consume : cluster → list event → cluster := consume by_clock ex_str 10 10 true true true ∅ ex_run.

Lemma by_clock_trans a b c : clocked a → clocked b → clocked c → le by_clock a b → le by_clock b c → le by_clock a c.
Proof. intros [(n & Ha & _) _] [(m & Hb & _) _] [(k & Hc & _) _]. unfold le, by_clock. rewrite Ha, Hb, Hc. lia. Qed.
Lemma by_clock_asym a b : clocked a → clocked b → by_clock a b = true → by_clock b a = false.
Proof. intros [(n & Ha & _) _] [(m & Hb & _) _]. unfold by_clock. rewrite Ha, Hb. lia. Qed.
Lemma ex_events_wf : Forall (λ e, dict_wf (event_dict e)) ex_events.
Proof. repeat constructor; apply (bool_decide_unpack _); by vm_compute. Qed.
Lemma ex_events_clocks : Forall (λ e, ∀ n, ev_clock e = Some n → n ≠ 0) ex_events.
Proof. repeat constructor; intros n [= <-]; done. Qed.


(** The events of the example: the child that arrived before its parent is
    linked to it, the tasks come out by their clocks. *)
Example ex_consume_result :
  let s := ex_consume empty_cluster ex_events in
  event_count s = 4 ∧ task_count s = 2 ∧ (tasks_by_time s None false).*1 = ["a"; "b"]%string ∧
  (t_children <$> dict_get (tasks s) "a") = Some [(0%nat, "b"%string)] ∧
  (λ t, t_get t "state") <$> dict_get (tasks s) "b" = Some (VStr SUCCESS) ∧
  snd <$> log s = [Ok (); Raise OtherExc; Ok (); Ok (); Ok ()].
Proof. by vm_compute. Qed.

(** [rebuild_taskheap] does not sort the list of the state: a state whose
    list is in order has it out of order afterwards. *)
Theorem rebuild_leaves_unsorted :
  let s := ex_consume empty_cluster ex_events in
  sorted by_clock clocked (taskheap s) ∧ ¬ StronglySorted (le by_clock) (taskheap (rebuild_taskheap ex_str s).1).
Proof.
  split.
  - apply (ok_heap_sorted by_clock 10 True); [|done]. apply consume_ok; [apply _|apply _|apply by_clock_trans|apply by_clock_asym|apply empty_cluster_ok|].
    apply Forall_forall. intros e He. pose proof ex_events_wf as H1. pose proof ex_events_clocks as H2. rewrite Forall_forall in H1, H2.
    split; [by apply H1|intros _; by apply H2].
  - intros Hs. vm_compute in Hs. apply StronglySorted_inv in Hs as [_ Hs]. apply Forall_cons in Hs as [Hs _]. done.
Qed.

(** The order kombu documents: by the logical clock if both events have one, and by
    the time otherwise; equal clocks by the process *)
Definition clock_or_time (a b : timetup) : bool :=
  if truthy (tt_clock a) && truthy (tt_clock b) then
    match tt_clock a, tt_clock b with
    | VNum n, VNum m => (n <? m) || (n =? m) && match tt_origin a, tt_origin b with VStr x, VStr y => negb (String.leb y x) | _, _ => false end
    | _, _ => false
    end
  else match tt_timestamp a, tt_timestamp b with VNum n, VNum m => n <? m | _, _ => false end.

(** Three events with rising timestamps, the second with the clock 0 (a receiver whose
    own clock is 0 gives that to a [task-sent] event): the third comes after the first
    in the list, although its clock is lower. *)
Lemma zero_clock_unsorted :
  let s := consume clock_or_time ex_str 10 10 true true true ∅ ex_run empty_cluster
    [ex_event "task-received" (Some "a") 5 100 101 []; ex_event "task-sent" (Some "b") 0 110 111 [];
     ex_event "task-received" (Some "c") 3 120 121 []]%string in
  tt_clock <$> taskheap s = [VNum 5; VNum 0; VNum 3] ∧ ¬ StronglySorted (le clock_or_time) (taskheap s).
Proof.
  split; [by vm_compute|]. intros Hs. vm_compute in Hs. apply StronglySorted_inv in Hs as [_ Hs].
  apply Forall_cons in Hs as [_ Hs]. apply Forall_cons in Hs as [Hs _]. done.
Qed.

(** A task that only its client has reported makes the list by worker raise. *)
Example tasks_by_worker_of_sent_task :
  let s := ex_consume empty_cluster (ex_events ++ [ex_event "task-sent" (Some "c"%string) 10 140 141 []]) in
  tasks_by_worker_ s "w1" None true = Raise AttributeError ∧
  tasks_by_worker_ (ex_consume empty_cluster ex_events) "w1" None true ≠ Raise AttributeError.
Proof. by vm_compute. Qed.

(** The heartbeat noted for the event of a task is the time at which it was
    sent, that of an event of the worker the time at which it was received. *)
Example heartbeat_of_task_event :
  w_heartbeats <$> dict_values (workers (ex_consume empty_cluster [ex_event "task-received" (Some "a") 3 110 122 []])%string) = [[110]] ∧
  w_heartbeats <$> dict_values (workers (ex_consume empty_cluster [ex_event "worker-online" None 3 110 122 []])%string) = [[122]].
Proof. by vm_compute. Qed.

(** Fields named in the merge rule are taken from any later event too. *)
Example merge_rule_not_kept :
  t_get (apply_events (Task 0 "u") [("received", Some 1, [("name", VStr "add")]); ("started", Some 2, [("name", VStr "mul")])]%string) "name" = VStr "mul".
Proof. by vm_compute. Qed.

End EventState.
