(* ===== verification/Routing.v ===== *)
(** Routing: the table of queues (celery/app/amqp.py, [Queues]) and the routers
    (celery/app/routes.py).

    Exchanges, the patterns of a map route and queues made from keyword arguments
    come from kombu and [re]: they are parameters.  Options of a message other
    than its queue are values of a type [A] or [None].  The queues of the table
    are taken to stay alive, so aliases do not vanish. *)

From Stdlib Require Import Ascii.
From S2P Require Import Prelude PyDict Effect.
Local Open Scope eff_scope.

Module Routing.

Section Routing.
Context {exchange A : Type}.
Context (ex_name : exchange → string) (ex_truthy : exchange → bool).
(** [Exchange(name, type)] *)
Context (Exchange : string → string → exchange).
(** [Queue.from_dict]: a queue from keyword arguments *)
Context {options : Type}.

Record queue := Queue {
  q_name : string;
  q_exchange : option exchange;
  q_routing_key : option string;
  q_arguments : option (pydict string (string + Z));
  q_alias : option string;
}.

Context (from_dict : string → options → option string → queue).
(** [routing_key] and [binding_key] of the keyword arguments *)
Context (opt_routing_key opt_binding_key : options → option string) (has_routing_key : options → bool).

Definition str_truthy (o : option string) : bool :=
  match o with Some s => negb (bool_decide (s = ""%string)) | None => false end.

(** ** The table of queues *)

Record queues := Queues {
  table : pydict string queue;
  aliases : pydict string queue;
  consume_from_ : option (pydict string queue);
  default_consume_from : pydict string queue;
}.

(** Arguments of the constructor *)
Context (default_exchange : option exchange) (default_routing_key : option string).
Context (create_missing : bool) (create_missing_queue_type create_missing_queue_exchange_type : option string).
Context (autoexchange : string → exchange) (max_priority : option Z).

Abbreviation M := (eff queues).

Definition exchange_truthy (o : option exchange) : bool := match o with Some x => ex_truthy x | None => false end.

(** [_set_max_priority] *)
Definition set_max_priority (args : pydict string (string + Z)) : pydict string (string + Z) :=
  match max_priority with
  | Some n => if dict_in args "x-max-priority" then args else dict_set args "x-max-priority" (inr n)
  | None => args
  end.

(** What [__setitem__] makes of a queue *)
Definition fill_defaults (q : queue) : queue :=
  Queue (q_name q)
    (if exchange_truthy default_exchange && negb (exchange_truthy (q_exchange q)) then default_exchange else q_exchange q)
    (if str_truthy (q_routing_key q) then q_routing_key q else default_routing_key)
    (match max_priority with
     | Some _ => Some (set_max_priority (default [] (q_arguments q)))
     | None => q_arguments q
     end)
    (q_alias q).

Definition setitem (name : string) (q : queue) : M queue :=
  let q := fill_defaults q in
  run! emodify (λ s, Queues (dict_set (table s) name q) (aliases s) (consume_from_ s) (default_consume_from s)) in
  run! ewhen (str_truthy (q_alias q))
         (emodify (λ s, Queues (table s) (dict_set (aliases s) (default "" (q_alias q)) q) (consume_from_ s) (default_consume_from s))) in
  eret q.

(** [_add] *)
Definition add_ (q : queue) : M queue :=
  let nameless := match q_exchange q with None => true | Some x => bool_decide (ex_name x = ""%string) end in
  let q := if exchange_truthy default_exchange && nameless
           then Queue (q_name q) default_exchange (q_routing_key q) (q_arguments q) (q_alias q) else q in
  setitem (q_name q) q.

Definition add_compat (name : string) (o : options) : M queue :=
  let routing_key := if has_routing_key o then opt_routing_key o else opt_binding_key o in
  let routing_key := match routing_key with Some k => Some k | None => Some name end in
  add_ (from_dict name o routing_key).

(** [add]: a queue, or a name with keyword arguments *)
Definition add (q : queue + string * options) : M queue :=
  match q with
  | inl q => add_ q
  | inr (name, o) => add_compat name o
  end.

Definition new_missing (name : string) : outcome queue :=
  let! args := (if str_truthy create_missing_queue_type && negb (bool_decide (create_missing_queue_type = Some "classic"%string))
                then if bool_decide (create_missing_queue_type = Some "quorum"%string)
                     then Ok (Some [("x-queue-type", inl "quorum")]%string) else Raise ValueError
                else Ok None) in
  let x := match create_missing_queue_exchange_type with
           | Some ty => if str_truthy (Some ty) then Exchange name ty else autoexchange name
           | None => autoexchange name
           end in
  Ok (Queue name (Some x) (Some name) args None).

Definition missing (name : string) : M queue :=
  if create_missing then do! q := elift (new_missing name) in add (inl q)
  else eraise KeyError.

Definition getitem (name : string) : M queue :=
  do! al := eget aliases in
  match dict_get al name with
  | Some q => eret q
  | None =>
      do! tb := eget table in
      match dict_get tb name with
      | Some q => eret q
      | None => missing name
      end
  end.

Definition init (l : list (string * (queue + options))) : M () :=
  run! eiter (λ p, run! add (match p.2 with inl q => inl q | inr o => inr (p.1, o) end) in eret ()) l in
  emodify (λ s, Queues (table s) (aliases s) (consume_from_ s) (table s)).

(** *** Which queues are consumed from *)

Definition consume_from (s : queues) : pydict string queue := default (default_consume_from s) (consume_from_ s).

Definition set_consumed (f : pydict string queue → pydict string queue) (s : queues) : queues :=
  match consume_from_ s with
  | Some c => Queues (table s) (aliases s) (Some (f c)) (default_consume_from s)
  | None => Queues (table s) (aliases s) None (f (default_consume_from s))
  end.

Definition select_add (q : queue + string * options) : M queue :=
  do! q := add q in
  run! emodify (set_consumed (λ c, dict_set c (q_name q) q)) in
  eret q.

(** [_consume_from[...] = q] *)
Definition consume (q : queue) : M () :=
  emodify (λ s, Queues (table s) (aliases s) (Some (dict_set (default [] (consume_from_ s)) (q_name q) q)) (default_consume_from s)).

Definition select (include : list string) : M () :=
  match include with
  | [] => eret ()
  | _ =>
      run! emodify (λ s, Queues (table s) (aliases s) (Some []) (default_consume_from s)) in
      eiter (λ name, do! q := getitem name in consume q) include
  end.

Definition deselect (exclude : list string) : M () :=
  eiter (λ name, emodify (λ s,
    let key := match dict_get (aliases s) name with Some q => q_name q | None => name end in
    set_consumed (λ c, dict_del c key) s)) exclude.

(** ** Looking up a queue *)

(** The queue a name stands for *)
Definition known (s : queues) (name : string) (q : queue) : Prop :=
  match dict_get (aliases s) name with
  | Some q' => q = q'
  | None => dict_get (table s) name = Some q
  end.

(** Looking up names only adds queues under names that stand for nothing, and
    does not touch what is consumed from. *)
Definition extends (s s' : queues) : Prop :=
  (∀ n q, known s n q → known s' n q) ∧ consume_from_ s' = consume_from_ s ∧ default_consume_from s' = default_consume_from s.

Lemma extends_refl s : extends s s.
Proof. done. Qed.
Lemma extends_trans s1 s2 s3 : extends s1 s2 → extends s2 s3 → extends s1 s3.
Proof. intros (H1 & H2 & H3) (H4 & H5 & H6). split_and!; [auto|congruence..]. Qed.

Lemma new_missing_name n q : new_missing n = Ok q → q_name q = n ∧ q_alias q = None.
Proof. unfold new_missing. destruct (_ && _); [case_bool_decide|]; simpl; intros; by simplify_eq. Qed.

Lemma add_new_queue q s :
  q_alias q = None →
  ∃ q', add (inl q) s = (Queues (dict_set (table s) (q_name q) q') (aliases s) (consume_from_ s) (default_consume_from s), Ok q') ∧ q_name q' = q_name q.
Proof.
  intros Ha. unfold add, add_, setitem. destruct (_ && _); simpl; rewrite Ha; simpl; eauto.
Qed.

Lemma getitem_total n s :
  create_missing = true → is_Ok (new_missing n) → ∃ s' q, getitem n s = (s', Ok q).
Proof.
  intros Hc [q0 Hq0]. unfold getitem, ebind, eget. destruct (dict_get (aliases s) n); [eauto|].
  destruct (dict_get (table s) n); [eauto|]. unfold missing, ebind, elift. rewrite Hc, Hq0.
  destruct (new_missing_name n q0 Hq0) as [_ Hal]. destruct (add_new_queue q0 s Hal) as (q & -> & _). eauto.
Qed.

(** What the lookup of a name yields at all *)
Lemma getitem_known n s s' q : getitem n s = (s', Ok q) → known s' n q ∧ extends s s'.
Proof.
  unfold getitem, ebind, eget. destruct (dict_get (aliases s) n) as [q0|] eqn:Ea.
  { intros [= <- <-]. unfold known. by rewrite Ea. }
  destruct (dict_get (table s) n) as [q0|] eqn:Et.
  { intros [= <- <-]. unfold known. by rewrite Ea. }
  unfold missing, ebind, elift. destruct create_missing; [|done].
  destruct (new_missing n) as [q0| |] eqn:Eq; [|done..]. destruct (new_missing_name n q0 Eq) as [Hn Hal].
  destruct (add_new_queue q0 s Hal) as (q1 & -> & Hq). intros [= <- <-]. rewrite Hn in *. split; [|split; [|done]].
  - unfold known. simpl. by rewrite Ea, dict_get_set_eq.
  - intros m q'. unfold known. simpl. destruct (dict_get (aliases s) m); [done|]. intros Hm.
    rewrite dict_get_set_ne; [done|]. intros <-. congruence.
Qed.

(** ** Selecting queues *)

Lemma known_unique s n q q' : known s n q → known s n q' → q = q'.
Proof. unfold known. destruct (dict_get (aliases s) n); congruence. Qed.

Lemma select_loop include s s' c :
  consume_from_ s = Some c → dict_wf c →
  eiter (λ name, do! q := getitem name in consume q) include s = (s', Ok ()) →
  ∃ c', consume_from_ s' = Some c' ∧ dict_wf c' ∧ (∀ n q, known s n q → known s' n q) ∧
    ∀ n, n ∈ dict_keys c' ↔ n ∈ dict_keys c ∨ ∃ m q, m ∈ include ∧ known s' m q ∧ q_name q = n.
Proof.
  revert s c. induction include as [|m include IH]; intros s c Hc Hwf; simpl.
  { intros [= <-]. exists c. split_and!; [done..|]. intros n. split; [by left|]. intros [?|(m & q & []%not_elem_of_nil & _)]; done. }
  unfold ebind at 1. destruct ((do! q := getitem m in consume q) s) as [s2 [[]|x|]] eqn:E; [|done..].
  unfold ebind in E. destruct (getitem m s) as [s1 [q|x|]] eqn:Eg; simplify_eq.
  apply getitem_known in Eg as [Hk (Hext & Hc1 & _)]. intros Hrest.
  unfold consume, emodify in E. injection E as <-.
  destruct (λ H, IH _ (dict_set c (q_name q) q) H (dict_set_wf _ _ _ Hwf) Hrest) as (c' & Hc' & Hwf' & Hknown & Hkeys).
  { simpl. by rewrite Hc1, Hc. }
  assert (known s' m q) as Hk' by (by apply Hknown).
  exists c'. split_and!; [done|done|intros n q' Hn; by apply Hknown, Hext|].
  intros n. rewrite Hkeys, elem_of_dict_keys_set. split.
  - intros [[->|Hin]|(m' & q' & Hm & Hq & <-)]; [right; exists m, q; split; [by left|done]|by left|].
    right. exists m', q'. split; [by right|done].
  - intros [Hin|(m' & q' & [->|Hm]%elem_of_cons & Hq & <-)]; [by left; right| |right; by exists m', q'].
    left. left. by rewrite (known_unique s' m q q').
Qed.

(** The name under which [deselect] looks for a queue *)
Definition resolve (s : queues) (name : string) : string :=
  match dict_get (aliases s) name with Some q => q_name q | None => name end.

Lemma consume_from_set f s : consume_from (set_consumed f s) = f (consume_from s).
Proof. unfold consume_from, set_consumed. by destruct (consume_from_ s). Qed.
Lemma aliases_set_consumed f s : aliases (set_consumed f s) = aliases s.
Proof. unfold set_consumed. by destruct (consume_from_ s). Qed.

Lemma deselect_spec exclude s :
  dict_wf (consume_from s) →
  ∃ s', deselect exclude s = (s', Ok ()) ∧
    ∀ n, n ∈ dict_keys (consume_from s') ↔ n ∈ dict_keys (consume_from s) ∧ ∀ m, m ∈ exclude → resolve s m ≠ n.
Proof.
  unfold deselect. revert s. induction exclude as [|m exclude IH]; intros s Hwf; simpl.
  { exists s. split; [done|]. intros n. split; [|tauto]. intros ?. split; [done|]. by intros m ?%not_elem_of_nil. }
  unfold ebind, emodify at 1. fold (resolve s m).
  set (s1 := set_consumed (λ c, dict_del c (resolve s m)) s).
  assert (consume_from s1 = dict_del (consume_from s) (resolve s m)) as Hc1 by apply consume_from_set.
  assert (∀ m, resolve s1 m = resolve s m) as Hr by (intros m'; unfold resolve, s1; by rewrite aliases_set_consumed).
  destruct (IH s1) as (s' & -> & Hs'); [rewrite Hc1; by apply dict_del_wf|]. exists s'. split; [done|].
  intros n. rewrite Hs', Hc1, elem_of_dict_keys_del by done. setoid_rewrite Hr. split.
  - intros [[Hne Hin] Hall]. split; [done|]. intros m' [->|Hm]%elem_of_cons; [congruence|auto].
  - intros [Hin Hall]. split_and!; [|done|].
    + intros ->. by apply (Hall m); [left|].
    + intros m' Hm. apply Hall. by right.
Qed.

(** The queues a worker consumes from.  After selecting a list of names and
    deselecting another, they are exactly the queues the selected names (or
    aliases) stand for, created where they were missing, without the deselected
    ones. *)
Theorem selected_queues include exclude s s1 :
  include ≠ [] → select include s = (s1, Ok ()) →
  ∃ s2, deselect exclude s1 = (s2, Ok ()) ∧
    ∀ n, n ∈ dict_keys (consume_from s2) ↔
      (∃ m q, m ∈ include ∧ known s1 m q ∧ q_name q = n) ∧ ∀ m, m ∈ exclude → resolve s1 m ≠ n.
Proof.
  intros Hne Hsel. unfold select in Hsel. destruct include as [|m0 l]; [done|]. unfold ebind at 1, emodify in Hsel.
  destruct (select_loop (m0 :: l) (Queues (table s) (aliases s) (Some []) (default_consume_from s)) s1 [] eq_refl NoDup_nil_2 Hsel) as (c & Hc & Hwf & _ & Hkeys).
  assert (consume_from s1 = c) as Hc1 by (unfold consume_from; by rewrite Hc).
  destruct (deselect_spec exclude s1) as (s2 & Hd & Hs2); [by rewrite Hc1|]. exists s2. split; [done|].
  intros n. rewrite Hs2, Hc1, Hkeys. split; intros [H1 H2]; (split; [|done]); [destruct H1 as [H1|H1]; [by apply not_elem_of_nil in H1|done]|by right].
Qed.

(** ** Routers *)

(** The value of the option [queue]: [None], a name or a queue *)
Inductive dest := DNone | DName (s : string) | DQueue (q : queue).

(** Options of a message: the option [queue], if it is there, and the others *)
Record route_ := Route { r_queue : option dest; r_opts : pydict string (option A) }.

(** What a router may return, or the value of a map route: a queue name or
    options *)
Abbreviation route_value := (string + route_)%type.

Context {pattern : Type} `{!EqDecision pattern} (is_match : pattern → string → bool).
(** [re.compile(fnmatch.translate(k))] *)
Context (glob : string → pattern).

(** [MapRoute]: exact names, and patterns in their order *)
Record map_route := MR { mr_map : pydict string route_value; mr_patterns : pydict pattern route_value }.

Definition has_star (k : string) : bool := existsb (Ascii.eqb "*"%char) (String.list_ascii_of_string k).

Definition MapRoute (items : list ((pattern + string) * route_value)) : map_route :=
  foldl (λ m p, match p.1 with
                | inl k => MR (mr_map m) (dict_set (mr_patterns m) k p.2)
                | inr k => if has_star k then MR (mr_map m) (dict_set (mr_patterns m) (glob k) p.2)
                           else MR (dict_set (mr_map m) k p.2) (mr_patterns m)
                end) (MR [] []) items.

(** [dict(v)], or the queue named [v]; the empty name is the empty dictionary *)
Definition as_dict (v : route_value) : route_ :=
  match v with
  | inl s => if bool_decide (s = ""%string) then Route None [] else Route (Some (DName s)) []
  | inr r => r
  end.

Definition map_route_call (m : map_route) (name : string) : option route_ :=
  match dict_get (mr_map m) name with
  | Some v => Some (as_dict v)
  | None => match list_find (λ p, is_match p.1 name) (mr_patterns m) with
            | Some (_, (_, v)) => Some (as_dict v)
            | None => None
            end
  end.

Inductive router :=
| RMap (m : map_route)
| RCall (f : string → outcome (option route_value)).

(** [prepare]: the routers of the setting, given what a name stands for *)
Inductive router_spec :=
| SMap (items : list ((pattern + string) * route_value))
| SName (name : string)
| SCall (f : string → outcome (option route_value)).

Definition expand_route (symbol : string → router) (r : router_spec) : router :=
  match r with
  | SMap items => RMap (MapRoute items)
  | SName name => symbol name
  | SCall f => RCall f
  end.

Definition prepare (symbol : string → router) (routes : option (router_spec + list router_spec)) : list router :=
  match routes with
  | None => []
  | Some (inl r) => [expand_route symbol r]
  | Some (inr l) => expand_route symbol <$> l
  end.

Definition query_router (r : router) (name : string) : outcome (option route_value) :=
  match r with
  | RMap m => Ok (inr <$> map_route_call m name)
  | RCall f => f name
  end.

Fixpoint lookup_route (routers : list router) (name : string) : outcome (option route_value) :=
  match routers with
  | [] => Ok None
  | r :: routers =>
      let! v := query_router r name in
      match v with Some v => Ok (Some v) | None => lookup_route routers name end
  end.

Definition route_truthy (v : route_value) : bool :=
  match v with
  | inl s => str_truthy (Some s)
  | inr (Route None []) => false
  | inr _ => true
  end.

Definition expand_destination (v : route_value) : M route_ :=
  let '(dst, opts) := match v with
                      | inl s => (Some (DName s), [])
                      | inr r => (r_queue r, r_opts r)
                      end in
  match dst with
  | None | Some DNone => eret (Route None opts)
  | Some (DQueue q) => eret (Route (Some (DQueue q)) opts)
  | Some (DName s) =>
      if str_truthy (Some s) then
        do! q := ecatch (getitem s) (λ x, match x with KeyError => eraise QueueNotFound | _ => eraise x end) in
        eret (Route (Some (DQueue q)) opts)
      else eret (Route None opts)
  end.

(** [lpmerge(L, R)]: the values of [R] that are not [None] win *)
Definition lpmerge (l r : route_) : route_ :=
  Route (match r_queue r with Some q => Some q | None => r_queue l end)
        (dict_update (r_opts l) (filter (λ p, is_Some p.2) (r_opts r))).

Definition route (routers : list router) (task_default_queue : string) (opts : route_) (name : string) : M route_ :=
  do! opts := expand_destination (inr opts) in
  do! found := elift (lookup_route routers name) in
  match found with
  | Some v => if route_truthy v
              then do! r := expand_destination v in eret (lpmerge r opts)
              else
                match r_queue opts with
                | None => do! r := expand_destination (inl task_default_queue) in eret (lpmerge r opts)
                | Some _ => eret opts
                end
  | None =>
      match r_queue opts with
      | None => do! r := expand_destination (inl task_default_queue) in eret (lpmerge r opts)
      | Some _ => eret opts
      end
  end.

(** ** The destination of a message *)

Definition dest_of (v : route_value) : option dest := match v with inl s => Some (DName s) | inr r => r_queue r end.
Definition opts_of (v : route_value) : pydict string (option A) := match v with inl _ => [] | inr r => r_opts r end.

(** [None] and the empty name are no destination *)
Definition clean (d : option dest) : option dest :=
  match d with
  | Some (DName n) => if bool_decide (n = ""%string) then None else d
  | Some (DQueue _) => d
  | _ => None
  end.

(** The destination [d] has become [rq] *)
Definition settled (s : queues) (d rq : option dest) : Prop :=
  match d with
  | Some (DName n) => ∃ q, rq = Some (DQueue q) ∧ known s n q
  | Some (DQueue q) => rq = Some (DQueue q)
  | _ => rq = None
  end.

Lemma settled_extends s s' d rq : extends s s' → settled s d rq → settled s' d rq.
Proof. intros [Hk _]. destruct d as [[|n|q]|]; simpl; [done| |done|done]. intros (q & -> & ?). eauto. Qed.

Section Route.
Context (Hcreate : create_missing = true) (Hmissing : ∀ n, is_Ok (new_missing n)).

Lemma expand_destination_spec v s :
  ∃ s' r, expand_destination v s = (s', Ok r) ∧ settled s' (clean (dest_of v)) (r_queue r) ∧ r_opts r = opts_of v ∧ extends s s'.
Proof.
  unfold expand_destination. assert (∀ n opts, ∃ s' r,
    (if str_truthy (Some n) then
       do! q := ecatch (getitem n) (λ x, match x with KeyError => eraise QueueNotFound | _ => eraise x end) in
       eret (Route (Some (DQueue q)) opts)
     else eret (Route None opts)) s = (s', Ok r) ∧
    settled s' (clean (Some (DName n))) (r_queue r) ∧ r_opts r = opts ∧ extends s s') as Hname.
  { intros n opts. unfold str_truthy, clean. case_bool_decide; simpl.
    - by exists s, (Route None opts).
    - destruct (getitem_total n s Hcreate (Hmissing n)) as (s' & q & Hg). unfold ebind, ecatch. rewrite Hg.
      apply getitem_known in Hg as [Hk Hext]. eexists s', _. split; [done|]. simpl. eauto. }
  destruct v as [n|[[[|n|q]|] opts]]; try apply Hname; eexists s, _; (split; [done|]); done.
Qed.

(** Where a message goes.  With queues created on demand routing always
    succeeds when the routers do, and the queue is the one given in the options,
    else the one of the first router that answers with something, else the
    default queue; an option given by the caller is never overridden by a route;
    and routing does not change which queues are consumed from. *)
Theorem route_spec routers dflt opts name found s :
  lookup_route routers name = Ok found → dict_wf (r_opts opts) →
  let answer := match found with Some v => if route_truthy v then Some v else None | None => None end in
  ∃ s' r, route routers dflt opts name s = (s', Ok r) ∧
    settled s' (match clean (r_queue opts), answer with
                | Some d, _ => Some d
                | None, Some v => clean (dest_of v)
                | None, None => clean (Some (DName dflt))
                end) (r_queue r) ∧
    (∀ k v, dict_get (r_opts opts) k = Some (Some v) → dict_get (r_opts r) k = Some (Some v)) ∧
    consume_from s' = consume_from s.
Proof.
  intros Hfound Hwf answer. destruct (expand_destination_spec (inr opts) s) as (s1 & o & Ho & Hset1 & Hopts1 & Hext1).
  simpl in Hset1, Hopts1.
  assert (∀ v, ∃ s' r, (do! r := expand_destination v in eret (lpmerge r o)) s1 = (s', Ok r) ∧
    settled s' (match clean (r_queue opts) with Some d => Some d | None => clean (dest_of v) end) (r_queue r) ∧
    (∀ k w, dict_get (r_opts opts) k = Some (Some w) → dict_get (r_opts r) k = Some (Some w)) ∧ extends s s') as Hmerge.
  { intros v. destruct (expand_destination_spec v s1) as (s2 & r & Hr & Hset2 & _ & Hext2).
    exists s2, (lpmerge r o). unfold ebind. rewrite Hr. split_and!; [done| | |by eapply extends_trans].
    - destruct (clean (r_queue opts)) as [d|] eqn:Ec.
      + apply (settled_extends _ _ _ _ Hext2) in Hset1. destruct d as [|n|q]; simpl in *.
        * by destruct (r_queue opts) as [[|n|]|]; simpl in Ec; try case_bool_decide.
        * destruct Hset1 as (q & Hq & Hk). rewrite Hq. eauto.
        * by rewrite Hset1.
      + simpl in Hset1. simpl. by rewrite Hset1.
    - intros k w Hk. simpl. rewrite Hopts1. rewrite dict_get_update by (by apply dict_filter_wf).
      apply dict_get_Some_elem in Hk.
      rewrite (dict_elem_get _ k (Some w)); [done|by apply dict_filter_wf|].
      apply list_elem_of_filter. split; [done|by apply Hk]. }
  assert (∃ s' r, match r_queue o with None => do! r := expand_destination (inl dflt) in eret (lpmerge r o) | Some _ => eret o end s1 = (s', Ok r) ∧
    settled s' (match clean (r_queue opts) with Some d => Some d | None => clean (Some (DName dflt)) end) (r_queue r) ∧
    (∀ k w, dict_get (r_opts opts) k = Some (Some w) → dict_get (r_opts r) k = Some (Some w)) ∧ extends s s') as Hdefault.
  { destruct (r_queue o) as [d|] eqn:Eo; [|by apply Hmerge]. exists s1, o. split_and!; [done| |by rewrite Hopts1|done].
    rewrite Eo. destruct (clean (r_queue opts)) as [[|n|q]|]; done. }
  unfold route, ebind at 1. rewrite Ho. unfold ebind at 1, elift at 1. rewrite Hfound.
  assert (∀ s', extends s s' → consume_from s' = consume_from s) as Hcons.
  { intros s' (_ & H2 & H3). unfold consume_from. by rewrite H2, H3. }
  unfold answer. destruct found as [v|]; [destruct (route_truthy v)|].
  - destruct (Hmerge v) as (s' & r & Hr & Hset & Hk & Hext). exists s', r. split_and!; auto.
  - destruct Hdefault as (s' & r & Hr & Hset & Hk & Hext). exists s', r. split_and!; auto.
  - destruct Hdefault as (s' & r & Hr & Hset & Hk & Hext). exists s', r. split_and!; auto.
Qed.
End Route.

(** With [create_missing] off an unknown name is an error. *)
Lemma route_unknown_queue routers dflt n opts name s :
  create_missing = false → n ≠ ""%string → dict_get (aliases s) n = None → dict_get (table s) n = None →
  (route routers dflt (Route (Some (DName n)) opts) name s).2 = Raise QueueNotFound.
Proof.
  intros Hc Hn Ha Ht. unfold route, expand_destination, ebind, str_truthy. simpl. rewrite bool_decide_eq_false_2 by done.
  unfold ecatch, getitem, ebind, eget. simpl. rewrite Ha, Ht. unfold missing. by rewrite Hc.
Qed.

End Routing.

(** ** Witnesses *)

(** Exchanges by their names; patterns that match the names they begin *)
Definition ex_queue (n : string) (alias : option string) : @queue string := Queue n (Some n) (Some n) None alias.
Definition ex_queues : @queues string :=
  Queues [("celery", ex_queue "celery" None); ("low", ex_queue "low" (Some "slow"))]%string [("slow", ex_queue "low" (Some "slow"))]%string
         None [("celery", ex_queue "celery" None); ("low", ex_queue "low" (Some "slow"))]%string.
Definition ex_truthy (x : string) : bool := negb (bool_decide (x = ""%string)).
Definition ex_from_dict (n : string) (o : ()) (rk : option string) : @queue string := Queue n (Some n) rk None None.

Definition ex_new_missing : string → outcome (@queue string) := new_missing (λ n ty, n) None (Some "topic"%string) id.

Abbreviation ex_select := (select id ex_truthy (λ n ty, n) ex_from_dict (λ _, None) (λ _, None) (λ _, false) (Some "tasks"%string) None true None (Some "topic"%string) id (Some 10%Z)).
Abbreviation ex_route := (route (A := nat) (pattern := string) id ex_truthy (λ n ty, n) ex_from_dict (λ _, None) (λ _, None) (λ _, false)
  (Some "tasks"%string) None true None (Some "topic"%string) id (Some 10%Z) (λ p n, String.prefix p n)).

Definition ex_routers : list (@router string nat string) :=
  [RMap (MapRoute (λ p, p) [(inr "feeds.import"%string, inl "feeds"%string); (inl "feeds."%string, inr (Route (Some (DName "slow")) [("priority"%string, Some 3)]))]);
   RCall (λ n, Ok (Some (inl "late"%string)))].

Lemma route_spec_witness :
  let opts := Route None [("priority", Some 9%nat); ("expires", None)]%string in
  ∃ s' r, ex_route ex_routers "celery" opts "feeds.fetch" ex_queues = (s', Ok r) ∧
    settled s' (Some (DName "slow")) (r_queue r) ∧
    (∀ k v, dict_get (r_opts opts) k = Some (Some v) → dict_get (r_opts r) k = Some (Some v)) ∧
    consume_from s' = consume_from ex_queues.
Proof.
  intros opts. eapply (route_spec id ex_truthy _ ex_from_dict _ _ _ _ _ true _ _ _ _ _ eq_refl) with
    (found := Some (inr (Route (Some (DName "slow")) [("priority"%string, Some 3%nat)]))).
  - intros n. by eexists.
  - by vm_compute.
  - apply (bool_decide_unpack _). by vm_compute.
Defined.

Lemma selected_queues_witness :
  let s1 := (ex_select ["slow"; "new"]%string ex_queues).1 in
  ∃ s2, deselect ["new"; "celery"]%string s1 = (s2, Ok ()) ∧
    ∀ n, n ∈ dict_keys (consume_from s2) ↔
      (∃ m q, m ∈ ["slow"; "new"]%string ∧ known s1 m q ∧ q_name q = n) ∧ ∀ m, m ∈ ["new"; "celery"]%string → resolve s1 m ≠ n.
Proof.
  intros s1. apply (selected_queues id ex_truthy (λ n ty, n) ex_from_dict (λ _, None) (λ _, None) (λ _, false) (Some "tasks"%string) None true
    None (Some "topic"%string) id (Some 10%Z) ["slow"; "new"]%string ["new"; "celery"]%string ex_queues s1); [done|by vm_compute].
Defined.

Example routed_by_map :
  snd (ex_route ex_routers "celery" (Route None []) "feeds.import" ex_queues) =
    Ok (Route (Some (DQueue (Queue "feeds" (Some "feeds") (Some "feeds") (Some [("x-max-priority", inr 10%Z)]) None))) [])%string ∧
  dict_keys (consume_from (ex_select ["slow"; "new"]%string ex_queues).1) = ["low"; "new"]%string.
Proof. by vm_compute. Qed.

End Routing.
