(* ===== verification/Autoscale.v ===== *)
(** The autoscaler of celery/worker/autoscale.py.

    The pool is another component: the class [Pool] is what the autoscaler uses
    of it, [PoolLaws] what it relies on (growing adds the processes asked for,
    shrinking removes some of them, at most as many as asked for, and may give up
    with an exception half-way).  Clock readings are arguments. *)

From S2P Require Import Prelude Effect.
Local Open Scope Z_scope.
Local Open Scope eff_scope.

Module Autoscale.

Class Pool (P : Type) := {
  num_processes : P → Z;
  pool_grow : Z → eff P ();
  pool_shrink : Z → eff P ();
  maintain_pool : eff P ();
}.

Class PoolLaws (P : Type) `{!Pool P} := {
  grow_adds n p : 0 < n → ∃ p', pool_grow n p = (p', Ok ()) ∧ num_processes p' = num_processes p + n;
  shrink_removes n p : 0 < n → num_processes p - n <= num_processes (pool_shrink n p).1 <= num_processes p;
  shrink_raises n p x : (pool_shrink n p).2 = Raise x → is_Exception x = true;
  shrink_returns n p : (pool_shrink n p).2 ≠ Diverge;
  maintain_keeps p : ∃ p', maintain_pool p = (p', Ok ()) ∧ num_processes p' = num_processes p;
}.

Section Autoscaler.
Context {P : Type} `{!Pool P}.

Record autoscaler := Autoscaler {
  pool : P;
  max_concurrency : Z;
  min_concurrency : Z;
  keepalive : Z;
  last_scale_up : option Z;
  (** the changes of the prefetch count asked of the consumer *)
  prefetch : list Z;
}.

Abbreviation M := (eff autoscaler).

Definition set_pool p (a : autoscaler) : autoscaler :=
  Autoscaler p (max_concurrency a) (min_concurrency a) (keepalive a) (last_scale_up a) (prefetch a).
Definition set_limits mx mn (a : autoscaler) : autoscaler :=
  Autoscaler (pool a) mx mn (keepalive a) (last_scale_up a) (prefetch a).

Definition on_pool (c : eff P ()) : M () := λ a, let '(p, r) := c (pool a) in (set_pool p a, r).

Definition processes (a : autoscaler) : Z := num_processes (pool a).

Definition grow (n : Z) : M () := on_pool (pool_grow n).

(** [_shrink]: exceptions are logged *)
Definition shrink (n : Z) : M () :=
  ecatch (on_pool (pool_shrink n)) (λ x, if is_Exception x then eret () else eraise x).

Definition scale_up (now n : Z) : M () :=
  run! emodify (λ a, Autoscaler (pool a) (max_concurrency a) (min_concurrency a) (keepalive a) (Some now) (prefetch a)) in
  grow n.

Definition scale_down (now n : Z) : M () :=
  do! last := eget last_scale_up in
  do! k := eget keepalive in
  ewhen (match last with Some t => negb (t =? 0) && (k <? now - t) | None => false end) (shrink n).

(** [_maybe_scale]; [qty] is the number of reserved requests *)
Definition maybe_scale_ (now qty : Z) : M bool :=
  do! procs := eget processes in
  do! mx := eget max_concurrency in
  do! mn := eget min_concurrency in
  let cur := Z.min qty mx in
  if procs <? cur then run! scale_up now (cur - procs) in eret true
  else
    let cur := Z.max qty mn in
    if cur <? procs then run! scale_down now (procs - cur) in eret true
    else eret false.

Definition maybe_scale (now qty : Z) : M () :=
  do! scaled := maybe_scale_ now qty in
  ewhen scaled (on_pool maintain_pool).

(** [_update_consumer_prefetch_count] *)
Definition update_prefetch (new_max : Z) : M () :=
  emodify (λ a, let diff := new_max - max_concurrency a in
                if diff =? 0 then a
                else Autoscaler (pool a) (max_concurrency a) (min_concurrency a) (keepalive a) (last_scale_up a) (prefetch a ++ [diff])).

Definition update (mx mn : option Z) : M (Z * Z) :=
  run! match mx with
       | None => eret ()
       | Some mx =>
           do! procs := eget processes in
           run! ewhen (mx <? procs) (shrink (procs - mx)) in
           run! update_prefetch mx in
           emodify (λ a, set_limits mx (min_concurrency a) a)
       end in
  run! match mn with
       | None => eret ()
       | Some mn =>
           do! procs := eget processes in
           run! ewhen (procs <? mn) (grow (mn - procs)) in
           emodify (λ a, set_limits (max_concurrency a) mn a)
       end in
  eget (λ a, (max_concurrency a, min_concurrency a)).

Definition info (a : autoscaler) (qty : Z) : list (string * Z) :=
  [("max", max_concurrency a); ("min", min_concurrency a); ("current", processes a); ("qty", qty)]%string.

(** ** Scaling *)

Context `{!PoolLaws P}.

(** Everything but the pool, the time of the last growth and the prefetch count *)
Definition same_limits (a a' : autoscaler) : Prop :=
  max_concurrency a' = max_concurrency a ∧ min_concurrency a' = min_concurrency a ∧ keepalive a' = keepalive a.

Lemma shrink_ok n a : 0 < n →
  ∃ a', shrink n a = (a', Ok ()) ∧ same_limits a a' ∧ last_scale_up a' = last_scale_up a ∧ prefetch a' = prefetch a ∧
    processes a - n <= processes a' <= processes a.
Proof.
  intros Hn. pose proof (shrink_removes n (pool a) Hn) as Hr. pose proof (shrink_raises n (pool a)) as Hx.
  pose proof (shrink_returns n (pool a)) as Hd. unfold shrink, ecatch, on_pool, processes.
  destruct (pool_shrink n (pool a)) as [p r]; simpl in *. exists (set_pool p a).
  split; [|done]. destruct r as [[]|x|]; [done| |done]. by rewrite (Hx x).
Qed.

Lemma grow_ok n a : 0 < n →
  ∃ a', grow n a = (a', Ok ()) ∧ same_limits a a' ∧ last_scale_up a' = last_scale_up a ∧ prefetch a' = prefetch a ∧
    processes a' = processes a + n.
Proof.
  intros Hn. destruct (grow_adds n (pool a) Hn) as (p & Hp & Hnum). exists (set_pool p a).
  unfold grow, on_pool, processes. rewrite Hp. by split_and!.
Qed.

Lemma maintain_ok a :
  ∃ a', on_pool maintain_pool a = (a', Ok ()) ∧ same_limits a a' ∧ last_scale_up a' = last_scale_up a ∧ processes a' = processes a.
Proof.
  destruct (maintain_keeps (pool a)) as (p & Hp & Hnum). exists (set_pool p a).
  unfold on_pool, processes. rewrite Hp. by split_and!.
Qed.

(** Whether the pool may shrink at this time *)
Definition may_shrink (a : autoscaler) (now : Z) : bool :=
  match last_scale_up a with Some t => negb (t =? 0) && (keepalive a <? now - t) | None => false end.

(** One run of the autoscaler.  It always returns; it grows the pool to the
    number of reserved requests, but not above the maximum, and remembers the
    time; otherwise it shrinks the pool, by at most the processes in excess of
    the requests and of the minimum, and only when the pool has grown more than
    [keepalive] ago; and a pool within its limits stays within them. *)
Theorem maybe_scale_spec now qty a :
  min_concurrency a <= max_concurrency a →
  ∃ a', maybe_scale now qty a = (a', Ok ()) ∧ same_limits a a' ∧
    (if processes a <? Z.min qty (max_concurrency a)
     then processes a' = Z.min qty (max_concurrency a) ∧ last_scale_up a' = Some now
     else last_scale_up a' = last_scale_up a ∧
       if (Z.max qty (min_concurrency a) <? processes a) && may_shrink a now
       then Z.max qty (min_concurrency a) <= processes a' <= processes a
       else processes a' = processes a) ∧
    (min_concurrency a <= processes a <= max_concurrency a → min_concurrency a' <= processes a' <= max_concurrency a').
Proof.
  intros Hlim. unfold maybe_scale, maybe_scale_, ebind, eget, same_limits.
  destruct (processes a <? Z.min qty (max_concurrency a)) eqn:Eup.
  - apply Z.ltb_lt in Eup. unfold scale_up, ebind, emodify. set (a1 := Autoscaler _ _ _ _ _ _).
    destruct (grow_ok (Z.min qty (max_concurrency a) - processes a) a1) as (a2 & -> & (Hm & Hn & Hk) & Hl & _ & Hp); [lia|].
    destruct (maintain_ok a2) as (a3 & Ha3 & (Hm' & Hn' & Hk') & Hl' & Hp'). simpl. rewrite Ha3. exists a3.
    change (processes a1) with (processes a) in Hp. subst a1. simpl in *.
    split_and!; [done|congruence..|lia|congruence|intros; lia].
  - destruct (Z.max qty (min_concurrency a) <? processes a) eqn:Edown; simpl;
      [|exists a; by split_and!].
    unfold scale_down, ebind, eget. fold (may_shrink a now). destruct (may_shrink a now); simpl.
    + apply Z.ltb_lt in Edown.
      destruct (shrink_ok (processes a - Z.max qty (min_concurrency a)) a) as (a2 & -> & (Hm & Hn & Hk) & Hl & _ & Hp); [lia|].
      destruct (maintain_ok a2) as (a3 & Ha3 & (Hm' & Hn' & Hk') & Hl' & Hp'). simpl. rewrite Ha3. exists a3.
      split_and!; [done|congruence..|lia|lia|lia].
    + destruct (maintain_ok a) as (a3 & Ha3 & (Hm' & Hn' & Hk') & Hl' & Hp'). rewrite Ha3. exists a3.
      split_and!; [done|congruence..|lia].
Qed.

(** Changing the limits: the new ones are set, the consumer is told of the
    change of the maximum, and the pool has at least the new minimum. *)
Lemma update_spec mx mn a :
  ∃ a', update (Some mx) (Some mn) a = (a', Ok (mx, mn)) ∧ max_concurrency a' = mx ∧ min_concurrency a' = mn ∧
    mn <= processes a' ∧
    prefetch a' = prefetch a ++ (if mx - max_concurrency a =? 0 then [] else [mx - max_concurrency a]).
Proof.
  unfold update, ebind, eget. set (procs := processes a).
  assert (∃ a1, ewhen (mx <? procs) (shrink (procs - mx)) a = (a1, Ok ()) ∧ same_limits a a1 ∧ prefetch a1 = prefetch a)
    as (a1 & -> & (Hm & _ & _) & Hpre).
  { destruct (mx <? procs) eqn:E; simpl; [|by exists a].
    apply Z.ltb_lt in E. destruct (shrink_ok (procs - mx) a) as (a1 & -> & Hsame & _ & Hpre & _); [lia|by exists a1]. }
  unfold update_prefetch, emodify at 1 2. set (a2 := set_limits mx _ _).
  assert (prefetch a2 = prefetch a ++ (if mx - max_concurrency a =? 0 then [] else [mx - max_concurrency a])) as Hpre2.
  { subst a2. simpl. rewrite Hm. destruct (_ =? 0); simpl; by rewrite Hpre, ?app_nil_r. }
  assert (∃ a3, ewhen (processes a2 <? mn) (grow (mn - processes a2)) a2 = (a3, Ok ()) ∧ same_limits a2 a3 ∧
            prefetch a3 = prefetch a2 ∧ mn <= processes a3) as (a3 & -> & (Hm3 & _ & _) & Hpre3 & Hp3).
  { destruct (processes a2 <? mn) eqn:E; simpl; [|exists a2; split_and!; [done..|lia]].
    apply Z.ltb_lt in E. destruct (grow_ok (mn - processes a2) a2) as (a3 & -> & Hsame & _ & Hpre' & Hp); [lia|].
    exists a3. split_and!; [done..|lia]. }
  simpl. eexists. split; [by rewrite Hm3|]. simpl. split_and!; [done|done|done|]. by rewrite Hpre3.
Qed.

End Autoscaler.

(** ** Witness *)

(** A pool of which one process is busy *)
#[local] Instance ex_pool : Pool Z := {|
  num_processes p := p;
  pool_grow n p := (p + n, Ok ());
  pool_shrink n p := if decide (n < p) then (p - n, Ok ()) else (Z.min p 1, Raise ValueError);
  maintain_pool p := (p, Ok ());
|}.

#[local] Instance ex_pool_laws : PoolLaws Z.
Proof.
  split; simpl.
  - eauto.
  - intros n p Hn. case_decide; simpl; lia.
  - intros n p x. case_decide; simpl; [done|]. by intros [= <-].
  - intros n p. by case_decide.
  - eauto.
Qed.

Definition ex_scaler : @autoscaler Z := Autoscaler 8 10 2 30 (Some 100) [].

Lemma maybe_scale_spec_witness :
  ∃ a', maybe_scale 200 3 ex_scaler = (a', Ok ()) ∧ same_limits ex_scaler a' ∧
    (last_scale_up a' = Some 100 ∧ 3 <= processes a' <= 8) ∧ (2 <= 8 <= 10 → min_concurrency a' <= processes a' <= max_concurrency a').
Proof. destruct (maybe_scale_spec 200 3 ex_scaler) as (a' & Ha'); [simpl; lia|]. exists a'. exact Ha'. Defined.

Example scale_examples :
  processes (maybe_scale 200 3 ex_scaler).1 = 3 ∧ processes (maybe_scale 120 3 ex_scaler).1 = 8 ∧
  processes (maybe_scale 120 30 ex_scaler).1 = 10 ∧ prefetch (update (Some 4) None ex_scaler).1 = [-6].
Proof. by vm_compute. Qed.

End Autoscale.
