(* ===== verification/Trace.v ===== *)
(** The execution of a task, celery/app/trace.py: the function made by
    [build_tracer] with its handling of errors, callbacks and chains, and the
    entry points that call it.

    Everything the tracer calls (the body of the task, its handlers, signals,
    the result backend, the loader, the sending of callbacks) is a call that may
    raise; [run] gives the outcome of a call from the calls before it.  The local
    variables of [trace_task] are part of the state, since exception handlers see
    what was assigned before.  Clearing of tracebacks and logging are left out. *)

From S2P Require Import Prelude Effect States.
Import States.
Local Open Scope eff_scope.

Module Trace.

Section Trace.
(** Results of tasks, and signatures of callbacks *)
Context {A sig : Type} (is_group : sig → bool).

(** ** Tasks and requests *)

Record task := TaskAttrs {
  ignore_result : bool;
  store_errors_even_if_ignored : bool;
  store_eager_result : bool;
  track_started : bool;
  has_before_start : bool;
  has_on_success : bool;
  has_after_return : bool;
}.

Record delivery_info := DInfo { redelivered : bool; priority : option Z }.

(** The [Context] of a request; [r_ignore_result] is set only if the request
    has its own value *)
Record request := Req {
  r_id : string;
  r_ignore_result : option bool;
  r_delivery_info : option delivery_info;
  r_callbacks : list sig;
  r_chain : list sig;
  r_kwargs_mapping : bool;
}.

Definition get_actual_ignore_result (t : task) (req : request) : bool := default (ignore_result t) (r_ignore_result req).

(** The value [R]: nothing yet, the result of the task, or an [ExceptionInfo],
    which may be flagged as internal *)
Inductive rvalue := RNone | RVal (v : A) | REinfo (x : exn) | RInternal (x : exn).

(** [TraceInfo] *)
Record trace_info := Info { i_state : string; i_retval : exn }.

(** What the tracer calls *)
Inductive call_ :=
| SendPrerun | TaskInit | StoreStarted | BeforeStart | Body
| ApplyGroup (g : sig) (v : A) (prio : option Z)
| ApplySigs (l : list sig) (v : A) (prio : option Z)
| ApplyCallback (s : sig) (v : A) (prio : option Z)
| ApplyChain (s : sig) (rest : list sig) (v : A) (prio : option Z)
| MarkDone (v : A) (publish : bool)
| OnSuccess | SendSuccess
| AfterReturn (state : option string)
| SendPostrun (state : option string)
| BackendCleanup | LoaderCleanup
| MarkRetry (x : exn) | OnRetry (x : exn) | SendRetry (x : exn)
| MarkFailure (x : exn) (store_errors call_errbacks : bool) | OnFailure (x : exn) | SendFailure (x : exn)
| SendInternalError (x : exn) | PrepareException (x : exn)
| GetState | GetMeta.

Abbreviation trace := (list (call_ * outcome ())).

Record tstate := TState {
  task_stack : nat;
  request_stack : list string;
  successful_requests : gset string;
  log : trace;
  v_R : rvalue;
  v_I : option trace_info;
  v_T : bool;
  v_Rstr : bool;
  v_state : option string;
}.

Abbreviation M := (eff tstate).

(** Arguments of [build_tracer] and settings of the application *)
Context (tk : task) (eager propagate : bool).
Context (prerun_receivers postrun_receivers success_receivers : bool).
Context (deduplicate_successful_tasks inherit_parent_priority : bool).
(** Outcomes of the calls; the body, the state and the metadata of a result
    have values *)
Context (run : trace → call_ → outcome ()).
Context (body : trace → outcome A) (get_state : trace → outcome string) (get_meta : trace → outcome (A * bool)).

Definition add_log (c : call_) (r : outcome ()) (s : tstate) : tstate :=
  TState (task_stack s) (request_stack s) (successful_requests s) (log s ++ [(c, r)]) (v_R s) (v_I s) (v_T s) (v_Rstr s) (v_state s).
Definition set_stacks n l (s : tstate) : tstate :=
  TState n l (successful_requests s) (log s) (v_R s) (v_I s) (v_T s) (v_Rstr s) (v_state s).
Definition set_R R (s : tstate) : tstate :=
  TState (task_stack s) (request_stack s) (successful_requests s) (log s) R (v_I s) (v_T s) (v_Rstr s) (v_state s).
Definition set_I inf (s : tstate) : tstate :=
  TState (task_stack s) (request_stack s) (successful_requests s) (log s) (v_R s) (Some inf) (v_T s) (v_Rstr s) (v_state s).
Definition set_state st (s : tstate) : tstate :=
  TState (task_stack s) (request_stack s) (successful_requests s) (log s) (v_R s) (v_I s) (v_T s) (v_Rstr s) (Some st).
Definition set_result (s : tstate) : tstate :=
  TState (task_stack s) (request_stack s) (successful_requests s) (log s) (v_R s) (v_I s) true true (v_state s).
Definition add_successful id (s : tstate) : tstate :=
  TState (task_stack s) (request_stack s) ({[id]} ∪ successful_requests s) (log s) (v_R s) (v_I s) (v_T s) (v_Rstr s) (v_state s).
Definition clear_locals (s : tstate) : tstate :=
  TState (task_stack s) (request_stack s) (successful_requests s) (log s) RNone None false false None.

Definition call (c : call_) : M () := λ s, let r := run (log s) c in (add_log c r s, r).

(** A call with a value *)
Definition ask {B} (c : call_) (f : trace → outcome B) : M B := λ s,
  let r := f (log s) in (add_log c (let! _ := r in Ok ()) s, r).

(** ** Errors *)

Definition handle_retry (x : exn) (store_errors : bool) : M rvalue :=
  run! ewhen store_errors (call (MarkRetry x)) in
  run! call (OnRetry x) in
  run! call (SendRetry x) in
  eret (REinfo x).

Definition handle_failure (x : exn) (store_errors call_errbacks : bool) : M rvalue :=
  run! call (MarkFailure x store_errors call_errbacks) in
  run! call (OnFailure x) in
  run! call (SendFailure x) in
  eret (REinfo x).

Definition store_errors (req : request) : bool :=
  if get_actual_ignore_result tk req then store_errors_even_if_ignored tk
  else if eager && store_eager_result tk then true else negb eager.

Definition handle_error_state (inf : trace_info) (req : request) (call_errbacks : bool) : M rvalue :=
  if bool_decide (i_state inf = RETRY) then handle_retry (i_retval inf) (store_errors req)
  else if bool_decide (i_state inf = FAILURE) then handle_failure (i_retval inf) (store_errors req) call_errbacks
  else eraise KeyError.

(** [on_error] while [x] is handled; with [propagate] it is raised again *)
Definition on_error (req : request) (x : exn) (state : string) (call_errbacks : bool) : M (trace_info * rvalue) :=
  if propagate then eraise x
  else do! R := handle_error_state (Info state x) req call_errbacks in eret (Info state x, R).

(** [I, R, state, retval = on_error(...)] *)
Definition assign_error (req : request) (x : exn) (state : string) (call_errbacks : bool) : M () :=
  do! (inf, R) := on_error req x state call_errbacks in
  emodify (λ s, set_state (i_state inf) (set_R R (set_I inf s))).

Definition signal_internal_error (x : exn) : M () := call (SendInternalError x).

Definition report_internal_error (x : exn) : M rvalue :=
  run! call (PrepareException x) in eret (RInternal x).

(** ** Callbacks *)

Definition dispatch_callbacks_and_chain (v : A) (callbacks chain : list sig) (prio : option Z) : M () :=
  run! match callbacks with
       | [] => eret ()
       | [s] => call (ApplyCallback s v prio)
       | _ =>
           run! eiter (λ g, call (ApplyGroup g v prio)) (filter (λ s, is_group s = true) callbacks) in
           match filter (λ s, is_group s = false) callbacks with
           | [] => eret ()
           | sigs => call (ApplySigs sigs v prio)
           end
       end in
  match last chain with
  | Some s => call (ApplyChain s (removelast chain) v prio)
  | None => eret ()
  end.

(** ** The tracer *)

Definition publish_result (req : request) : bool :=
  if eager && negb (get_actual_ignore_result tk req) && store_eager_result tk then true
  else negb eager && negb (get_actual_ignore_result tk req).

Definition tracks_started (req : request) : bool :=
  negb eager && (track_started tk && negb (get_actual_ignore_result tk req)).

(** The priority the callbacks inherit *)
Definition task_priority (req : request) : M (option Z) :=
  if inherit_parent_priority then
    match r_delivery_info req with
    | Some d => eret (priority d)
    | None => eraise AttributeError
    end
  else eret None.

Definition nonempty {B} (l : list B) : bool := match l with [] => false | _ => true end.

(** A task whose result is already stored: its callbacks are sent if they have
    not been. *)
Definition deduplicated (req : request) : M () :=
  do! prio := task_priority req in
  ecatch
    (do! (stored_retval, has_children) := ask GetMeta get_meta in
     run! ewhen ((nonempty (r_callbacks req) || nonempty (r_chain req)) && negb has_children)
            (dispatch_callbacks_and_chain stored_retval (r_callbacks req) (r_chain req) prio) in
     emodify (add_successful (r_id req)))
    (λ x, if bool_decide (x = MemoryError) then eraise x
          else if is_Exception x then eraise RejectExc else eraise x).

(** Whether the task has been executed before, and need not be again *)
Definition deduplicate (req : request) : M bool :=
  if deduplicate_successful_tasks && match r_delivery_info req with Some d => redelivered d | None => false end then
    do! known := eget (λ s, bool_decide (r_id req ∈ successful_requests s)) in
    if known : bool then eret true
    else etry (ask GetState get_state)
           (λ x, match x with BackendGetMetaError => eret false | _ => eraise x end)
           (λ st, run! emodify (set_state st) in
                  if bool_decide (st = SUCCESS) then run! deduplicated req in eret true
                  else eret false)
  else eret false.

(** The body returned [v]. *)
Definition succeeded (req : request) (prio : option Z) (v : A) : M () :=
  etry (run! dispatch_callbacks_and_chain v (r_callbacks req) (r_chain req) prio in
        call (MarkDone v (publish_result req)))
    (λ x, match x with EncodeError => assign_error req x FAILURE true | _ => eraise x end)
    (λ _, run! emodify set_result in
          run! ewhen (has_on_success tk) (call OnSuccess) in
          ewhen success_receivers (call SendSuccess)).

(** The body raised [x]. *)
Definition failed (req : request) (x : exn) : M () :=
  match x with
  | RejectExc => emodify (λ s, set_state REJECTED (set_R (RInternal x) (set_I (Info REJECTED x) s)))
  | IgnoreExc => emodify (λ s, set_state IGNORED (set_R (RInternal x) (set_I (Info IGNORED x) s)))
  | RetryExc => assign_error req x RETRY false
  | _ => if is_Exception x then assign_error req x FAILURE true else eraise x
  end.

Definition IGNORE_STATES : list string := [IGNORED; RETRY; REJECTED].

(** PRE, TRACE and POST *)
Definition traced (req : request) (prio : option Z) : M () :=
  run! ewhen prerun_receivers (call SendPrerun) in
  run! call TaskInit in
  run! ewhen (tracks_started req) (call StoreStarted) in
  run! etry (run! ewhen (has_before_start tk) (call BeforeStart) in
             do! v := ask Body body in
             run! emodify (λ s, set_state SUCCESS (set_R (RVal v) s)) in
             eret v)
         (failed req) (succeeded req prio) in
  do! st := eget v_state in
  ewhen (negb (bool_decide (st ∈ Some <$> IGNORE_STATES)) && has_after_return tk) (call (AfterReturn st)).

Definition cleanup : M () :=
  ecatch (run! call BackendCleanup in call LoaderCleanup)
    (λ x, match x with
          | KeyboardInterrupt | SystemExit | MemoryError => eraise x
          | _ => if is_Exception x then eret () else eraise x
          end).

Definition finish : M () :=
  efinally
    (do! st := eget v_state in ewhen postrun_receivers (call (SendPostrun st)))
    (run! emodify (λ s, set_stacks (pred (task_stack s)) (tail (request_stack s)) s) in
     ewhen (negb eager) cleanup).

Definition execute (req : request) : M () :=
  run! emodify (λ s, set_stacks (S (task_stack s)) (request_stack s) s) in
  do! prio := task_priority req in
  run! emodify (λ s, set_stacks (task_stack s) (r_id req :: request_stack s) s) in
  efinally (traced req prio) finish.

(** [trace_ok_t] *)
Record trace_ok := TraceOk { ok_R : rvalue; ok_I : option trace_info; ok_T : bool; ok_Rstr : bool }.

Definition result_of (s : tstate) : trace_ok := TraceOk (v_R s) (v_I s) (v_T s) (v_Rstr s).

(** An exception outside the body; [has_request] tells whether the context of
    the request was made before *)
Definition internal_error (req : request) (has_request : bool) (x : exn) : M () :=
  match x with
  | MemoryError | RejectExc => eraise x
  | _ =>
      if is_Exception x then
        run! signal_internal_error x in
        if eager then eraise x else
        do! R := report_internal_error x in
        run! emodify (set_R R) in
        ewhen has_request (do! (inf, _) := on_error req x FAILURE true in emodify (set_I inf))
      else eraise x
  end.

(** The function [trace_task] made by [build_tracer] *)
Definition tracer (req : request) : M trace_ok :=
  run! emodify clear_locals in
  run! (if r_kwargs_mapping req then
          ecatch (do! known := deduplicate req in ewhen (negb known) (execute req)) (internal_error req true)
        else internal_error req false InvalidTaskError) in
  eget result_of.

(** The function [trace_task] of the module, for a task with a tracer *)
Definition trace_task (req : request) : M trace_ok :=
  ecatch (tracer req)
    (λ x, match x with
          | RejectExc => eraise x
          | _ => if is_Exception x then
                   run! signal_internal_error x in
                   do! R := report_internal_error x in
                   eret (TraceOk R (Some (Info FAILURE x)) true false)
                 else eraise x
          end).

(** What is sent back to the worker: failed or not, the value, and whether
    there is a run time *)
Definition trace_return (r : trace_ok) : bool * option rvalue * bool :=
  match ok_I r with
  | Some _ => (true, Some (ok_R r), ok_T r)
  | None => (false, if ok_Rstr r then Some (ok_R r) else None, ok_T r)
  end.

Definition trace_task_ret (req : request) : M (bool * option rvalue * bool) :=
  do! r := trace_task req in eret (trace_return r).

(** [fast_trace_task], when the worker has been set up *)
Definition fast_trace_task (req : request) : M (bool * option rvalue * bool) :=
  do! r := tracer req in eret (trace_return r).

(** ** The stacks are balanced *)

Definition stacks (s : tstate) : nat * list string := (task_stack s, request_stack s).

Section Stacks.
Context (st : nat * list string).
Abbreviation same := (λ s, stacks s = st).

Lemma call_same c : keeps same (call c).
Proof. by intros s. Qed.
Lemma ask_same {B} c (f : trace → outcome B) : keeps same (ask c f).
Proof. by intros s. Qed.
Lemma modify_same f : (∀ s, stacks (f s) = stacks s) → keeps same (emodify f).
Proof. intros Hf s <-. apply Hf. Qed.
#[local] Hint Resolve call_same ask_same modify_same : keeps.

Lemma on_error_same req x state b : keeps same (on_error req x state b).
Proof. unfold on_error, handle_error_state, handle_retry, handle_failure. keeps. Qed.
#[local] Hint Resolve on_error_same : keeps.
Lemma assign_error_same req x state b : keeps same (assign_error req x state b).
Proof. unfold assign_error. keeps. Qed.
#[local] Hint Resolve assign_error_same : keeps.
Lemma dispatch_same v cb ch prio : keeps same (dispatch_callbacks_and_chain v cb ch prio).
Proof. unfold dispatch_callbacks_and_chain. keeps. Qed.
#[local] Hint Resolve dispatch_same : keeps.
Lemma task_priority_same req : keeps same (task_priority req).
Proof. unfold task_priority. keeps. Qed.
#[local] Hint Resolve task_priority_same : keeps.
Lemma deduplicate_same req : keeps same (deduplicate req).
Proof. unfold deduplicate, deduplicated. keeps. Qed.
Lemma succeeded_same req prio v : keeps same (succeeded req prio v).
Proof. unfold succeeded. keeps. Qed.
Lemma failed_same req x : keeps same (failed req x).
Proof. unfold failed. keeps. Qed.
#[local] Hint Resolve deduplicate_same succeeded_same failed_same : keeps.
Lemma traced_same req prio : keeps same (traced req prio).
Proof. unfold traced. keeps. Qed.
Lemma cleanup_same : keeps same cleanup.
Proof. unfold cleanup. keeps. Qed.
Lemma internal_error_same req b x : keeps same (internal_error req b x).
Proof. unfold internal_error, signal_internal_error, report_internal_error. keeps. Qed.
End Stacks.

Lemma finish_pops s : stacks (finish s).1 = (pred (task_stack s), tail (request_stack s)).
Proof.
  unfold finish, efinally.
  pose proof (keeps_bind _ _ _ (keeps_get _ v_state) (λ st, keeps_when _ postrun_receivers _ (call_same (stacks s) (SendPostrun st))) s eq_refl) as H1.
  destruct (ebind _ _ s) as [s1 r] eqn:E1. simpl in H1. unfold ebind, emodify.
  set (s2 := set_stacks _ _ s1).
  assert (stacks s2 = (pred (task_stack s), tail (request_stack s))) as Hs2.
  { unfold s2, stacks in *. injection H1 as Ha Hb. simpl. by rewrite Ha, Hb. }
  pose proof (keeps_when _ (negb eager) _ (cleanup_same (stacks s2)) s2 eq_refl) as H2.
  destruct (ewhen (negb eager) cleanup s2) as [s3 [[]|x|]]; simpl in *; congruence.
Qed.

Lemma execute_balanced req s :
  (inherit_parent_priority = true → is_Some (r_delivery_info req)) → stacks (execute req s).1 = stacks s.
Proof.
  intros Hd. unfold execute, ebind at 1, emodify at 1. set (s1 := set_stacks _ _ s).
  assert (∃ p, task_priority req s1 = (s1, Ok p)) as [p Hp].
  { unfold task_priority. destruct inherit_parent_priority; [destruct (Hd eq_refl) as [d ->]|]; eauto. }
  unfold ebind at 1. rewrite Hp. unfold ebind, emodify. set (s2 := set_stacks _ _ s1). unfold efinally.
  pose proof (traced_same (stacks s2) req p s2 eq_refl) as H3. destruct (traced req p s2) as [s3 r]. simpl in H3.
  pose proof (finish_pops s3) as H4. assert (stacks (finish s3).1 = stacks s) as H5.
  { rewrite H4. unfold s2, s1, stacks in *. simpl in *. injection H3 as Ha Hb. by rewrite Ha, Hb. }
  by destruct (finish s3) as [s4 [[]|x|]].
Qed.

Lemma tracer_balanced req s :
  (inherit_parent_priority = true → is_Some (r_delivery_info req)) → stacks (tracer req s).1 = stacks s.
Proof.
  intros Hd. revert s. enough (∀ st, keeps (λ s, stacks s = st) (tracer req)) as H by (intros s; by apply H).
  intros st. unfold tracer. apply keeps_bind; [by apply modify_same|intros _]. apply keeps_bind; [|intros; apply keeps_get].
  destruct (r_kwargs_mapping req); [|apply internal_error_same].
  apply keeps_catch; [|intros; apply internal_error_same]. apply keeps_bind; [apply deduplicate_same|intros known].
  apply keeps_when. intros s <-. by apply execute_balanced.
Qed.

(** C7: the stacks of current tasks and requests are balanced: after tracing
    they are as before, whatever the task, its handlers, signals and the backend
    raise (for requests that carry delivery information if priorities are
    inherited). *)
Theorem trace_balanced req s :
  (inherit_parent_priority = true → is_Some (r_delivery_info req)) →
  task_stack (trace_task req s).1 = task_stack s ∧ request_stack (trace_task req s).1 = request_stack s.
Proof.
  intros Hd. enough (stacks (trace_task req s).1 = stacks s) as H by (unfold stacks in H; by injection H).
  apply (catch_from (λ s', stacks s' = stacks s)); [by apply tracer_balanced|].
  unfold signal_internal_error, report_internal_error. keeps; apply call_same.
Qed.

(** Without delivery information the task stays on the stack. *)
Lemma no_delivery_info_leaks req s :
  inherit_parent_priority = true → r_delivery_info req = None →
  stacks (execute req s).1 = (S (task_stack s), request_stack s).
Proof. intros Hi Hd. unfold execute, ebind, emodify, task_priority. by rewrite Hi, Hd. Qed.

(** ** Success is reported only for stored results *)

Section Stored.
Context (req : request).
(** The log when tracing began *)
Context (base : trace).

(** Since then the body was called and returned [v]. *)
Definition has_returned (v : A) (l : trace) : Prop := ∃ l1 l2, l = base ++ l1 ++ (Body, Ok ()) :: l2 ∧ body (base ++ l1) = Ok v.

(** After that, the backend was told that the task is done with [v], to store it unless results are ignored, and
    returned. *)
Definition is_stored (v : A) (s : tstate) : Prop :=
  ∃ l1 l2, log s = l1 ++ (MarkDone v (publish_result req), Ok ()) :: l2 ∧ has_returned v l1.

(** What is told about the result is true. *)
Definition honest (s : tstate) : Prop := v_I s = None → v_Rstr s = true → ∃ v, v_R s = RVal v ∧ is_stored v s.
(** Something is told. *)
Definition decided (s : tstate) : Prop := is_Some (v_I s) ∨ v_Rstr s = true.
Definition undecided (s : tstate) : Prop := v_Rstr s = false ∧ base `prefix_of` log s.
Definition returned (v : A) (s : tstate) : Prop := v_Rstr s = false ∧ v_R s = RVal v ∧ has_returned v (log s).

Lemma has_returned_app v l x : has_returned v l → has_returned v (l ++ x).
Proof. intros (l1 & l2 & -> & Hb). exists l1, (l2 ++ x). split; [|done]. by rewrite <- !app_assoc. Qed.

Lemma returned_undecided v s : returned v s → undecided s.
Proof. intros (? & _ & l1 & l2 & Hl & _). split; [done|]. rewrite Hl. by apply prefix_app_r. Qed.

Lemma undecided_honest s : undecided s → honest s.
Proof. unfold undecided, honest. intros [? _]. congruence. Qed.

(** Predicates that no call changes *)
Definition call_stable (P : tstate → Prop) : Prop := ∀ c r s, P s → P (add_log c r s).

Lemma call_keeps P c : call_stable P → keeps P (call c).
Proof. intros HP s Hs. by apply HP. Qed.
Lemma ask_keeps {B} P c (f : trace → outcome B) : call_stable P → keeps P (ask c f).
Proof. intros HP s Hs. by apply HP. Qed.
#[local] Hint Resolve call_keeps ask_keeps : keeps.

Lemma honest_stable : call_stable honest.
Proof.
  intros c r s Hs HI HR. destruct (Hs HI HR) as (v & ? & ?). exists v. split; [done|].
  match goal with H : is_stored _ _ |- _ => destruct H as (l1 & l2 & Hl & ?) end. exists l1, (l2 ++ [(c, r)]).
  split; [|done]. simpl. by rewrite Hl, <- app_assoc.
Qed.
Lemma decided_stable : call_stable decided.
Proof. by intros c r s. Qed.
Lemma undecided_stable : call_stable undecided.
Proof. intros c r s [? ?]. split; [done|]. simpl. by apply prefix_app_r. Qed.
Lemma returned_stable v : call_stable (returned v).
Proof. intros c r s (? & ? & ?). split_and!; [done|done|]. simpl. by apply has_returned_app. Qed.
#[local] Hint Resolve honest_stable decided_stable undecided_stable returned_stable : keeps.

Lemma dispatch_keeps P v cb ch prio : call_stable P → keeps P (dispatch_callbacks_and_chain v cb ch prio).
Proof. intros HP. unfold dispatch_callbacks_and_chain. keeps. Qed.

Lemma on_error_keeps P x st b : call_stable P → keeps P (on_error req x st b).
Proof. intros HP. unfold on_error, handle_error_state, handle_retry, handle_failure. keeps. Qed.
#[local] Hint Resolve dispatch_keeps on_error_keeps : keeps.

Lemma assign_error_undecided x st b : keeps undecided (assign_error req x st b).
Proof. unfold assign_error. keeps. by apply keeps_modify. Qed.

Lemma assign_error_decides x st b s : (assign_error req x st b s).2 = Ok () → decided (assign_error req x st b s).1.
Proof.
  unfold assign_error, ebind. destruct (on_error _ _ _ _ s) as [s1 [[inf R]|?|]]; [|done..].
  intros _. left. by eexists.
Qed.

Lemma succeeded_honest prio v s : returned v s → honest (succeeded req prio v s).1.
Proof.
  intros Hs. unfold succeeded, etry, ebind at 1.
  pose proof (dispatch_keeps _ v (r_callbacks req) (r_chain req) prio (returned_stable v) s Hs) as H1.
  destruct (dispatch_callbacks_and_chain _ _ _ _ s) as [s1 [[]|x|]]; simpl in H1.
  - unfold call at 1. assert (returned v (add_log (MarkDone v (publish_result req)) (run (log s1) (MarkDone v (publish_result req))) s1)) as H2
      by (by apply returned_stable).
    destruct (run (log s1) _) as [[]|x|] eqn:Er.
    + assert (keeps honest (run! ewhen (has_on_success tk) (call OnSuccess) in ewhen success_receivers (call SendSuccess))) as Hk by keeps.
      apply Hk. intros _ _. exists v. split; [apply H2|]. exists (log s1), []. split; [done|]. apply H1.
    + apply undecided_honest. destruct x; try apply assign_error_undecided; by eapply returned_undecided.
    + by eapply undecided_honest, returned_undecided.
  - apply undecided_honest. destruct x; try apply assign_error_undecided; by eapply returned_undecided.
  - by eapply undecided_honest, returned_undecided.
Qed.

Lemma succeeded_decides prio v s : (succeeded req prio v s).2 = Ok () → decided (succeeded req prio v s).1.
Proof.
  unfold succeeded, etry. destruct (ebind _ _ s) as [s1 [[]|x|]]; [|destruct x; try done; apply assign_error_decides|done].
  intros _. assert (keeps decided (run! ewhen (has_on_success tk) (call OnSuccess) in ewhen success_receivers (call SendSuccess))) as Hk by keeps.
  apply Hk. by right.
Qed.

Lemma failed_undecided x : keeps undecided (failed req x).
Proof. destruct x; simpl; first [apply keeps_raise|apply assign_error_undecided|by apply keeps_modify]. Qed.

Lemma failed_decides x s : (failed req x s).2 = Ok () → decided (failed req x s).1.
Proof. destruct x; simpl; try done; try apply assign_error_decides; intros _; left; by eexists. Qed.

(** From nothing told to a true account, which is given if the program returns *)
Definition accounts (c : M ()) : Prop := ∀ s, undecided s → honest (c s).1 ∧ ((c s).2 = Ok () → decided (c s).1).

Lemma accounts_pre {B} (c : M B) k : keeps undecided c → (∀ b, accounts (k b)) → accounts (ebind c k).
Proof.
  intros Hc Hk s Hs. specialize (Hc s Hs). unfold ebind.
  destruct (c s) as [s1 [b|x|]]; [by apply Hk|by split; [apply undecided_honest|]..].
Qed.

Lemma accounts_post c (k : () → M ()) :
  accounts c → (∀ u, keeps honest (k u)) → (∀ u, keeps decided (k u)) → accounts (ebind c k).
Proof.
  intros Hc Hh Hd s Hs. destruct (Hc s Hs) as [H1 H2]. unfold ebind.
  destruct (c s) as [s1 [[]|x|]]; [|done..]. split; [by apply Hh|]. intros _. by apply Hd, H2.
Qed.

Lemma accounts_finally c f : accounts c → keeps honest f → keeps decided f → accounts (efinally c f).
Proof.
  intros Hc Hh Hd s Hs. destruct (Hc s Hs) as [H1 H2]. unfold efinally.
  destruct (c s) as [s1 r]. specialize (Hh s1 H1). specialize (Hd s1).
  destruct (f s1) as [s2 [[]|x|]]; [|done..]. split; [done|]. intros E. by apply Hd, H2.
Qed.

Lemma accounts_try c prio :
  triple undecided c returned undecided → accounts (etry c (failed req) (succeeded req prio)).
Proof.
  intros Hc s Hs. specialize (Hc s Hs). unfold etry. destruct (c s) as [s' [v|x|]].
  - split; [by apply succeeded_honest|apply succeeded_decides].
  - split; [by apply undecided_honest, failed_undecided|apply failed_decides].
  - by split; [apply undecided_honest|].
Qed.

Lemma body_returned :
  triple undecided
    (run! ewhen (has_before_start tk) (call BeforeStart) in
     do! v := ask Body body in
     run! emodify (λ s, set_state SUCCESS (set_R (RVal v) s)) in
     eret v) returned undecided.
Proof.
  apply (triple_bind _ _ _ (λ _, undecided)).
  - intros s Hs. destruct (has_before_start tk); [|done]. unfold ewhen, call.
    pose proof (undecided_stable BeforeStart (run (log s) BeforeStart) s Hs). by destruct (run _ _).
  - intros _ s [Hs [L HL]]. unfold ebind, ask, emodify, eret. destruct (body (log s)) as [v|x|] eqn:Eb; simpl.
    + split_and!; [done|done|]. exists L, []. simpl. split; [by rewrite HL, <- app_assoc|by rewrite <- HL].
    + split; [done|]. simpl. rewrite HL. by do 2 apply prefix_app_r.
    + split; [done|]. simpl. rewrite HL. by do 2 apply prefix_app_r.
Qed.

Lemma accounts_execute : accounts (execute req).
Proof.
  unfold execute. apply accounts_pre; [by apply keeps_modify|intros _].
  apply accounts_pre; [unfold task_priority; keeps|intros prio]. apply accounts_pre; [by apply keeps_modify|intros _].
  apply accounts_finally; [|unfold finish, cleanup; keeps; by apply keeps_modify..].
  unfold traced. do 3 (apply accounts_pre; [keeps|intros _]).
  apply accounts_post; [apply accounts_try, body_returned|keeps..].
Qed.

Lemma deduplicate_undecided : keeps undecided (deduplicate req).
Proof. unfold deduplicate, deduplicated, task_priority. keeps; by apply keeps_modify. Qed.

(** Whether the task may be skipped because it was executed before *)
Definition may_skip : bool :=
  deduplicate_successful_tasks && match r_delivery_info req with Some d => redelivered d | None => false end.

(** What the result says, and why it may say nothing *)
Definition reported (s : tstate) (r : trace_ok) : Prop :=
  ok_I r = None →
  if ok_Rstr r then ∃ v, ok_R r = RVal v ∧ is_stored v s
  else r_kwargs_mapping req = false ∨ may_skip = true.

Lemma internal_error_informs x s s' : internal_error req true x s = (s', Ok ()) → is_Some (v_I s').
Proof.
  unfold internal_error, signal_internal_error, report_internal_error.
  destruct x; simpl; try done; unfold call, ebind, emodify;
    repeat (case_match; simplify_eq/=; try done); intros; simplify_eq; by eexists.
Qed.

Lemma invalid_undecided : keeps undecided (internal_error req false InvalidTaskError).
Proof. unfold internal_error, signal_internal_error, report_internal_error. simpl. keeps. by apply keeps_modify. Qed.

Lemma tracer_reported s s' r : log s = base → tracer req s = (s', Ok r) → reported s' r.
Proof.
  intros Hbase. unfold tracer, ebind at 1, emodify at 1. set (s1 := clear_locals s).
  assert (undecided s1) as Hu by (split; [done|simpl; by rewrite Hbase]). clearbody s1.
  intros H Hn. revert H.
  destruct (r_kwargs_mapping req) eqn:Ek.
  - unfold ebind at 1, ecatch, ebind at 1. pose proof (deduplicate_undecided s1 Hu) as H1.
    assert (may_skip = false → (deduplicate req s1).2 = Ok false) as Hm.
    { unfold may_skip, deduplicate. by intros ->. }
    destruct (deduplicate req s1) as [s2 [known|x|]]; simpl in H1, Hm; [|..|done].
    2: { destruct (internal_error req true x s2) as [s3 [[]|y|]] eqn:Ei; [|done..].
         intros [= <- <-]. destruct (internal_error_informs _ _ _ Ei). simpl in *. congruence. }
    destruct known; simpl.
    + intros [= <- <-]. simpl. rewrite (proj1 H1). right. destruct may_skip; [done|]. by discriminate Hm.
    + destruct (accounts_execute s2 H1) as [Hh Hd]. destruct (execute req s2) as [s3 [[]|x|]]; simpl in *; [..|done].
      * intros [= <- <-]. simpl in *. destruct (v_Rstr s3) eqn:E3; [by apply Hh|].
        destruct (Hd eq_refl) as [[? ?]|?]; congruence.
      * destruct (internal_error req true x s3) as [s4 [[]|y|]] eqn:Ei; [|done..].
        intros [= <- <-]. destruct (internal_error_informs _ _ _ Ei). simpl in *. congruence.
  - unfold ebind. destruct (internal_error req false InvalidTaskError s1) as [s2 [[]|y|]] eqn:Ei; [|done..].
    intros [= <- <-]. simpl. assert (undecided s2) as [-> _]; [|by left].
    pose proof (invalid_undecided s1 Hu) as H2. by rewrite Ei in H2.
Qed.

Lemma trace_task_reported s s' r : log s = base → trace_task req s = (s', Ok r) → reported s' r.
Proof.
  intros Hbase.
  unfold trace_task, ecatch. destruct (tracer req s) as [s1 [r1|x|]] eqn:Et; [|intros H|done].
  - intros [= <- <-]. by eapply tracer_reported.
  - intros Hn. revert H. unfold signal_internal_error, report_internal_error, ebind, call.
    destruct x; simpl; repeat (case_match; simplify_eq/=; try done); by intros [= <- <-].
Qed.

End Stored.

(** C6: A worker is told that a task succeeded with a value only if, while it was traced, the body was called and
    returned that value, and after that the backend was told that the task is done with it and returned; it is
    told to store the value unless results of the task are ignored or not stored for local execution
    ([publish_result]).  This holds whatever the handlers, signals and callbacks raise.  A worker is told of a success
    without a value only for tasks that may have been executed before and for messages whose keyword arguments
    are not a mapping. *)
Theorem success_is_stored req s s' R b :
  trace_task_ret req s = (s', Ok (false, R, b)) →
  (∃ v before between after, R = Some (RVal v) ∧ body (log s ++ before) = Ok v ∧
     log s' = log s ++ before ++ (Body, Ok ()) :: between ++ (MarkDone v (publish_result req), Ok ()) :: after) ∨
  (R = None ∧ (r_kwargs_mapping req = false ∨ may_skip req = true)).
Proof.
  unfold trace_task_ret, ebind. destruct (trace_task req s) as [s1 [r|x|]] eqn:Et; [|done..].
  intros [= -> Hr]. unfold trace_return in Hr. destruct (ok_I r) eqn:Ei; [done|].
  pose proof (trace_task_reported req (log s) _ _ _ eq_refl Et Ei) as Hrep. destruct (ok_Rstr r); [left|by right; simplify_eq].
  destruct Hrep as (v & Hv & l & after & Hl & before & between & -> & Hb). injection Hr as <- _.
  exists v, before, between, after. split_and!; [by rewrite Hv|done|]. by rewrite Hl, <- !app_assoc.
Qed.

(** Keyword arguments that are not a mapping: the error is signalled, and the
    worker is told of a success. *)
Lemma invalid_kwargs_succeed req s :
  r_kwargs_mapping req = false → eager = false → (∀ t c, run t c = Ok ()) →
  (trace_task_ret req s).2 = Ok (false, None, false).
Proof.
  intros Hk He Hr. unfold trace_task_ret, trace_task, tracer. rewrite Hk.
  unfold ebind, ecatch, emodify, internal_error, signal_internal_error, report_internal_error, call. rewrite He. simpl.
  unfold ebind. by rewrite !Hr.
Qed.

(** ** Redelivered tasks *)

Section Skip.
Context (req : request) (base : trace).

(** The body has not been called since [base]. *)
Definition not_run (s : tstate) : Prop := ∃ L, log s = base ++ L ∧ Body ∉ L.*1.

Lemma not_run_add c r s : c ≠ Body → not_run s → not_run (add_log c r s).
Proof.
  intros Hc (L & HL & HB). exists (L ++ [(c, r)]). simpl. rewrite HL, fmap_app, <-(assoc_L app). set_solver.
Qed.
Lemma call_not_run c : c ≠ Body → keeps not_run (call c).
Proof. intros Hc s. by apply not_run_add. Qed.
Lemma ask_not_run {B} c (f : trace → outcome B) : c ≠ Body → keeps not_run (ask c f).
Proof. intros Hc s. by apply not_run_add. Qed.
Lemma modify_not_run f : (∀ s, log (f s) = log s) → keeps not_run (emodify f).
Proof. intros Hf s (L & HL & ?). exists L. simpl. by rewrite Hf. Qed.

Ltac not_run := keeps; first [by apply call_not_run|by apply ask_not_run|by apply modify_not_run].

Lemma dispatch_not_run v cb ch prio : keeps not_run (dispatch_callbacks_and_chain v cb ch prio).
Proof. unfold dispatch_callbacks_and_chain. not_run. Qed.

Lemma on_error_not_run x st b : keeps not_run (on_error req x st b).
Proof. unfold on_error, handle_error_state, handle_retry, handle_failure. not_run. Qed.

Lemma deduplicated_not_run : keeps not_run (deduplicated req).
Proof. unfold deduplicated, task_priority. keeps; first [by apply ask_not_run|apply dispatch_not_run|by apply modify_not_run]. Qed.

Lemma deduplicate_not_run : keeps not_run (deduplicate req).
Proof. unfold deduplicate. keeps; first [by apply ask_not_run|apply deduplicated_not_run|by apply modify_not_run]. Qed.

Lemma internal_error_not_run b x : keeps not_run (internal_error req b x).
Proof.
  unfold internal_error, signal_internal_error, report_internal_error.
  keeps; first [by apply call_not_run|apply on_error_not_run|by apply modify_not_run].
Qed.

(** The task was executed before: by this process, or by what the backend has. *)
Definition executed_before (s : tstate) : Prop :=
  r_id req ∈ successful_requests s ∨ ∀ t, get_state t = Ok SUCCESS.

Lemma deduplicate_known s : may_skip req = true → executed_before s → (deduplicate req s).2 ≠ Ok false.
Proof.
  intros Hm Hk. unfold may_skip in Hm. unfold deduplicate. rewrite Hm. unfold ebind at 1, eget.
  case_bool_decide as Hin; [done|]. destruct Hk as [?|Hk]; [done|].
  unfold etry, ask. rewrite Hk. unfold ebind, emodify, eret. simpl.
  by destruct (deduplicated req _) as [s1 [[]|x|]].
Qed.

Lemma tracer_skips s : may_skip req = true → executed_before s → not_run s → not_run (tracer req s).1.
Proof.
  intros Hm Hk Hs. unfold tracer, ebind at 1, emodify at 1. set (s1 := clear_locals s).
  assert (not_run s1) as H1 by done. assert (executed_before s1) as Hk1 by done. clearbody s1.
  destruct (r_kwargs_mapping req).
  - unfold ebind at 1, ecatch, ebind at 1. pose proof (deduplicate_known s1 Hm Hk1) as Hd.
    pose proof (deduplicate_not_run s1 H1) as H2. destruct (deduplicate req s1) as [s2 [[]|x|]]; simpl in *; [done..| |done].
    pose proof (internal_error_not_run true x s2 H2) as H3. by destruct (internal_error req true x s2) as [s3 [[]|y|]].
  - apply (keeps_bind not_run); [apply internal_error_not_run|intros; apply keeps_get|done].
Qed.
End Skip.

(** With deduplication, the body of a redelivered task that was executed
    successfully before is not called again, whatever the callbacks that are sent
    instead, the backend and the signals raise. *)
Theorem duplicate_not_executed req s :
  may_skip req = true → executed_before req s →
  ∃ L, log (trace_task req s).1 = log s ++ L ∧ Body ∉ L.*1.
Proof.
  intros Hm Hk. apply (catch_from (not_run (log s))).
  - apply tracer_skips; [done..|]. exists []. rewrite app_nil_r. set_solver.
  - unfold signal_internal_error, report_internal_error. keeps; by apply call_not_run.
Qed.

(** ** What a tracer calls when nothing outside the body fails *)

Section Quiet.
Context (Hrun : ∀ l c, run l c = Ok ()).
Context (Heager : eager = false) (Hpropagate : propagate = false).

Definition when_ {B} (b : bool) (x : B) : list B := if b then [x] else [].

Definition calls (s : tstate) : list call_ := (log s).*1.

Definition dispatched (v : A) (callbacks chain : list sig) (prio : option Z) : list call_ :=
  match callbacks with
  | [] => []
  | [s] => [ApplyCallback s v prio]
  | _ => ((λ g, ApplyGroup g v prio) <$> filter (λ s, is_group s = true) callbacks) ++
         match filter (λ s, is_group s = false) callbacks with [] => [] | sigs => [ApplySigs sigs v prio] end
  end ++ match last chain with Some s => [ApplyChain s (removelast chain) v prio] | None => [] end.

(** What follows the body, by its outcome *)
Definition after_body (req : request) (prio : option Z) (r : outcome A) : list call_ :=
  match r with
  | Ok v => dispatched v (r_callbacks req) (r_chain req) prio ++ [MarkDone v (publish_result req)] ++
            when_ (has_on_success tk) OnSuccess ++ when_ success_receivers SendSuccess ++
            when_ (has_after_return tk) (AfterReturn (Some SUCCESS))
  | Raise RejectExc | Raise IgnoreExc => []
  | Raise RetryExc => when_ (store_errors req) (MarkRetry RetryExc) ++ [OnRetry RetryExc; SendRetry RetryExc]
  | Raise x => if is_Exception x
               then [MarkFailure x (store_errors req) true; OnFailure x; SendFailure x] ++
                    when_ (has_after_return tk) (AfterReturn (Some FAILURE))
               else []
  | Diverge => []
  end.

Definition final_state (r : outcome A) : option string :=
  match r with
  | Ok _ => Some SUCCESS
  | Raise RejectExc => Some REJECTED
  | Raise IgnoreExc => Some IGNORED
  | Raise RetryExc => Some RETRY
  | Raise x => if is_Exception x then Some FAILURE else None
  | Diverge => None
  end.

(** Adding calls to the log *)
Lemma call_quiet c s : call c s = (add_log c (Ok ()) s, Ok ()).
Proof. unfold call. by rewrite Hrun. Qed.
Definition locals (s : tstate) : rvalue * option trace_info * bool * bool * option string :=
  (v_R s, v_I s, v_T s, v_Rstr s, v_state s).

(** From the local variables [l] the program makes the calls [L], leaves the
    variables [l'] and has the outcome [o]. *)
Definition does {B} l (c : M B) (L : list call_) l' (o : outcome B) : Prop :=
  ∀ s, locals s = l → ∃ s', c s = (s', o) ∧ calls s' = calls s ++ L ∧ locals s' = l'.

Lemma does_bind {B C} l (c : M B) (k : B → M C) L L' l1 l2 b o :
  does l c L l1 (Ok b) → does l1 (k b) L' l2 o → does l (ebind c k) (L ++ L') l2 o.
Proof.
  intros Hc Hk s Hs. destruct (Hc s Hs) as (s1 & E1 & Hl1 & H1). destruct (Hk s1 H1) as (s2 & E2 & Hl2 & H2).
  exists s2. unfold ebind. rewrite E1, E2. split_and!; [done| |done]. by rewrite Hl2, Hl1, (assoc_L app).
Qed.

Lemma does_bind_raise {B C} l (c : M B) (k : B → M C) L l1 x :
  does l c L l1 (Raise x) → does l (ebind c k) L l1 (Raise x).
Proof. intros Hc s Hs. destruct (Hc s Hs) as (s1 & E1 & H1). exists s1. unfold ebind. by rewrite E1. Qed.

Lemma does_try_ok {B C} l (c : M B) (h : exn → M C) (k : B → M C) L L' l1 l2 b o :
  does l c L l1 (Ok b) → does l1 (k b) L' l2 o → does l (etry c h k) (L ++ L') l2 o.
Proof.
  intros Hc Hk s Hs. destruct (Hc s Hs) as (s1 & E1 & Hl1 & H1). destruct (Hk s1 H1) as (s2 & E2 & Hl2 & H2).
  exists s2. unfold etry. rewrite E1, E2. split_and!; [done| |done]. by rewrite Hl2, Hl1, (assoc_L app).
Qed.

Lemma does_try_raise {B C} l (c : M B) (h : exn → M C) (k : B → M C) L L' l1 l2 x o :
  does l c L l1 (Raise x) → does l1 (h x) L' l2 o → does l (etry c h k) (L ++ L') l2 o.
Proof.
  intros Hc Hk s Hs. destruct (Hc s Hs) as (s1 & E1 & Hl1 & H1). destruct (Hk s1 H1) as (s2 & E2 & Hl2 & H2).
  exists s2. unfold etry. rewrite E1, E2. split_and!; [done| |done]. by rewrite Hl2, Hl1, (assoc_L app).
Qed.

Lemma does_finally {B} l (c : M B) (f : M ()) L L' l1 l2 o :
  does l c L l1 o → does l1 f L' l2 (Ok ()) → does l (efinally c f) (L ++ L') l2 o.
Proof.
  intros Hc Hk s Hs. destruct (Hc s Hs) as (s1 & E1 & Hl1 & H1). destruct (Hk s1 H1) as (s2 & E2 & Hl2 & H2).
  exists s2. unfold efinally. rewrite E1, E2. split_and!; [done| |done]. by rewrite Hl2, Hl1, (assoc_L app).
Qed.

Lemma does_catch_ok {B} l (c : M B) h L l1 b : does l c L l1 (Ok b) → does l (ecatch c h) L l1 (Ok b).
Proof. intros Hc s Hs. destruct (Hc s Hs) as (s1 & E1 & H1). exists s1. unfold ecatch. by rewrite E1. Qed.

Lemma does_catch_raise {B} l (c : M B) h L L' l1 l2 x o :
  does l c L l1 (Raise x) → does l1 (h x) L' l2 o → does l (ecatch c h) (L ++ L') l2 o.
Proof.
  intros Hc Hk s Hs. destruct (Hc s Hs) as (s1 & E1 & Hl1 & H1). destruct (Hk s1 H1) as (s2 & E2 & Hl2 & H2).
  exists s2. unfold ecatch. rewrite E1, E2. split_and!; [done| |done]. by rewrite Hl2, Hl1, (assoc_L app).
Qed.

Lemma does_ret {B} l (b : B) : does l (eret b) [] l (Ok b).
Proof. intros s <-. exists s. by rewrite app_nil_r. Qed.
Lemma does_raise {B} l x : does l (@eraise _ B x) [] l (Raise x).
Proof. intros s <-. exists s. by rewrite app_nil_r. Qed.
Lemma does_get {B} l (f : tstate → B) b : (∀ s, locals s = l → f s = b) → does l (eget f) [] l (Ok b).
Proof. intros Hf s Hs. exists s. unfold eget. by rewrite app_nil_r, (Hf s Hs). Qed.
Lemma does_modify l l' f : (∀ s, locals s = l → locals (f s) = l' ∧ log (f s) = log s) → does l (emodify f) [] l' (Ok ()).
Proof. intros Hf s Hs. exists (f s). unfold calls. destruct (Hf s Hs) as [? ->]. by rewrite app_nil_r. Qed.

Lemma does_call l c : does l (call c) [c] l (Ok ()).
Proof. intros s <-. rewrite call_quiet. eexists. split; [done|]. unfold calls. simpl. by rewrite fmap_app. Qed.

Lemma does_when l b c : does l (ewhen b (call c)) (when_ b c) l (Ok ()).
Proof. destruct b; [apply does_call|apply does_ret]. Qed.

Lemma does_iter {B} l (f : B → call_) bs : does l (eiter (λ b, call (f b)) bs) (f <$> bs) l (Ok ()).
Proof. induction bs as [|b bs IH]; [apply does_ret|]. apply (does_bind l _ _ [f b] _ l l ()); [apply does_call|apply IH]. Qed.

Lemma does_ask {B} l c (f : trace → outcome B) r : (∀ t, f t = r) → does l (ask c f) [c] l r.
Proof. intros Hf s <-. unfold ask. rewrite Hf. eexists. split; [done|]. unfold calls. simpl. by rewrite fmap_app. Qed.

Lemma does_eq {B} l (c : M B) L L' l' o : does l c L l' o → L = L' → does l c L' l' o.
Proof. by intros ? <-. Qed.

(** Steps through a sequence of calls. *)
Ltac does_step :=
  match goal with
  | |- does _ (ebind _ _) _ _ _ => eapply does_bind
  | |- does _ (ewhen _ (call _)) _ _ _ => apply does_when
  | |- does _ (call _) _ _ _ => apply does_call
  | |- does _ (eret _) _ _ _ => apply does_ret
  | |- does _ (match (_, _) with _ => _ end) _ _ _ => cbv beta iota
  | |- does _ (emodify _) _ _ _ => apply does_modify; intros ? ?; unfold locals in *; simplify_eq/=; split; reflexivity
  end.
Ltac does := eapply does_eq; [repeat does_step|].

Lemma does_dispatch l v cb ch prio : does l (dispatch_callbacks_and_chain v cb ch prio) (dispatched v cb ch prio) l (Ok ()).
Proof.
  unfold dispatch_callbacks_and_chain, dispatched. eapply does_bind.
  - destruct cb as [|s1 [|s2 cb]]; [apply does_ret|apply does_call|]. eapply does_bind; [apply does_iter|].
    destruct (filter (λ s, is_group s = false) _); [apply does_ret|apply does_call].
  - destruct (last ch); [apply does_call|apply does_ret].
Qed.

Lemma does_failure l req x b R inf T Rs st :
  l = (R, inf, T, Rs, st) →
  does l (assign_error req x FAILURE b) [MarkFailure x (store_errors req) b; OnFailure x; SendFailure x]
    (REinfo x, Some (Info FAILURE x), T, Rs, Some FAILURE) (Ok ()).
Proof.
  intros ->. unfold assign_error, on_error, handle_error_state, handle_failure. rewrite Hpropagate. simpl. by does.
Qed.

Lemma does_retry l req x b R inf T Rs st :
  l = (R, inf, T, Rs, st) →
  does l (assign_error req x RETRY b) (when_ (store_errors req) (MarkRetry x) ++ [OnRetry x; SendRetry x])
    (REinfo x, Some (Info RETRY x), T, Rs, Some RETRY) (Ok ()).
Proof.
  intros ->. unfold assign_error, on_error, handle_error_state, handle_retry. rewrite Hpropagate. simpl. does.
  by list_simplifier.
Qed.

Lemma does_set_result R inf T Rs st :
  does (R, inf, T, Rs, st) (emodify set_result) [] (R, inf, true, true, st) (Ok ()).
Proof. apply does_modify. intros s Hs. unfold locals in *. simpl. by simplify_eq. Qed.

Lemma does_set_value R inf T Rs st v :
  does (R, inf, T, Rs, st) (emodify (λ s, set_state SUCCESS (set_R (RVal v) s))) [] (RVal v, inf, T, Rs, Some SUCCESS) (Ok ()).
Proof. apply does_modify. intros s Hs. unfold locals in *. simpl. by simplify_eq. Qed.

Lemma does_succeeded req prio v :
  does (RVal v, None, false, false, Some SUCCESS) (succeeded req prio v)
    (dispatched v (r_callbacks req) (r_chain req) prio ++ [MarkDone v (publish_result req)] ++
     when_ (has_on_success tk) OnSuccess ++ when_ success_receivers SendSuccess)
    (RVal v, None, true, true, Some SUCCESS) (Ok ()).
Proof.
  unfold succeeded. eapply does_eq.
  - eapply does_try_ok; [eapply does_bind; [apply does_dispatch|apply does_call]|].
    eapply does_bind; [apply does_set_result|]. eapply does_bind; apply does_when.
  - by list_simplifier.
Qed.

(** The local variables after the body with the outcome [r] has been handled *)
Definition locals_after (r : outcome A) : rvalue * option trace_info * bool * bool * option string :=
  match r with
  | Ok v => (RVal v, None, true, true, Some SUCCESS)
  | Raise RejectExc => (RInternal RejectExc, Some (Info REJECTED RejectExc), false, false, Some REJECTED)
  | Raise IgnoreExc => (RInternal IgnoreExc, Some (Info IGNORED IgnoreExc), false, false, Some IGNORED)
  | Raise RetryExc => (REinfo RetryExc, Some (Info RETRY RetryExc), false, false, Some RETRY)
  | Raise x => if is_Exception x then (REinfo x, Some (Info FAILURE x), false, false, Some FAILURE)
               else (RNone, None, false, false, None)
  | Diverge => (RNone, None, false, false, None)
  end.

(** The exceptions a tracer does not handle *)
Definition unhandled (r : outcome A) : outcome () :=
  match r with
  | Raise x => if is_Exception x then Ok () else Raise x
  | Diverge => Diverge
  | Ok _ => Ok ()
  end.

Lemma does_body l r : (∀ t, body t = r) →
  does l (run! ewhen (has_before_start tk) (call BeforeStart) in
          do! v := ask Body body in
          run! emodify (λ s, set_state SUCCESS (set_R (RVal v) s)) in
          eret v) (when_ (has_before_start tk) BeforeStart ++ [Body])
    (match r with Ok v => (RVal v, l.1.1.1.2, l.1.1.2, l.1.2, Some SUCCESS) | _ => l end) r.
Proof.
  intros Hb. eapply does_bind; [apply does_when|].
  destruct l as [[[[R inf] T] Rs] st]. destruct r as [v|x|].
  - eapply (does_bind _ _ _ [_] []); [by apply does_ask|].
    eapply (does_bind _ _ _ [] []); [apply does_set_value|apply does_ret].
  - eapply does_bind_raise. by apply does_ask.
  - intros s Hs. exists (add_log Body Diverge s). unfold ebind, ask. rewrite Hb. unfold calls. simpl. by rewrite fmap_app.
Qed.

(** The calls between the body and the handler that runs after a task *)
Definition handling (req : request) (prio : option Z) (r : outcome A) : list call_ :=
  match r with
  | Ok v => dispatched v (r_callbacks req) (r_chain req) prio ++ [MarkDone v (publish_result req)] ++
            when_ (has_on_success tk) OnSuccess ++ when_ success_receivers SendSuccess
  | Raise RejectExc | Raise IgnoreExc => []
  | Raise RetryExc => when_ (store_errors req) (MarkRetry RetryExc) ++ [OnRetry RetryExc; SendRetry RetryExc]
  | Raise x => if is_Exception x then [MarkFailure x (store_errors req) true; OnFailure x; SendFailure x] else []
  | Diverge => []
  end.

Lemma does_failed req x :
  does (RNone, None, false, false, None) (failed req x) (handling req None (Raise x)) (locals_after (Raise x)) (unhandled (Raise x)).
Proof.
  unfold failed, handling, locals_after, unhandled.
  destruct x; simpl; first [apply does_raise|by eapply does_failure|by eapply does_retry|apply does_modify];
    intros s Hs; destruct s; unfold locals in *; simpl in *; by simplify_eq.
Qed.

Lemma handling_raise req prio x : handling req prio (Raise x) = handling req None (Raise x).
Proof. done. Qed.

Lemma does_handled req prio r :
  (∀ t, body t = r) → r ≠ Diverge →
  does (RNone, None, false, false, None)
    (etry (run! ewhen (has_before_start tk) (call BeforeStart) in
           do! v := ask Body body in
           run! emodify (λ s, set_state SUCCESS (set_R (RVal v) s)) in
           eret v) (failed req) (succeeded req prio))
    (when_ (has_before_start tk) BeforeStart ++ [Body] ++ handling req prio r) (locals_after r) (unhandled r).
Proof.
  intros Hb Hr. pose proof (does_body (RNone, None, false, false, None) r Hb) as Hbody.
  rewrite (assoc_L app). destruct r as [v|x|]; [| |done].
  - eapply does_try_ok; [apply Hbody|apply does_succeeded].
  - rewrite handling_raise. eapply does_try_raise; [apply Hbody|apply does_failed].
Qed.

Lemma does_traced req prio r :
  (∀ t, body t = r) → r ≠ Diverge →
  does (RNone, None, false, false, None) (traced req prio)
    (when_ prerun_receivers SendPrerun ++ [TaskInit] ++ when_ (tracks_started req) StoreStarted ++
     when_ (has_before_start tk) BeforeStart ++ [Body] ++ after_body req prio r)
    (locals_after r) (unhandled r).
Proof.
  intros Hb Hr. unfold traced. pose proof (does_handled req prio r Hb Hr) as Hh.
  do 3 (eapply does_bind; [apply does_when || apply does_call|]).
  assert (unhandled r = Ok () → does (locals_after r)
    (do! st := eget v_state in ewhen (negb (bool_decide (st ∈ Some <$> IGNORE_STATES)) && has_after_return tk) (call (AfterReturn st)))
    (when_ (negb (bool_decide ((locals_after r).2 ∈ Some <$> IGNORE_STATES)) && has_after_return tk) (AfterReturn (locals_after r).2))
    (locals_after r) (Ok ())) as Hafter.
  { intros _. apply (does_bind _ _ _ [] _ (locals_after r) _ (locals_after r).2); [|apply does_when].
    apply does_get. intros s <-. done. }
  destruct (unhandled r) as [[]|x|] eqn:Eu.
  - eapply does_eq; [eapply does_bind; [apply Hh|by apply Hafter]|]. rewrite <-!(assoc_L app). do 2 f_equal.
    destruct r as [v|x|]; [| |done]; simpl in *; [by list_simplifier|].
    destruct x; simpl in *; try done; by list_simplifier.
  - eapply does_eq; [apply does_bind_raise, Hh|]. do 2 f_equal.
    destruct r as [v|y|]; [done| |done]. destruct y; simplify_eq/=; done.
  - destruct r as [v|x|]; [done| |done]. simpl in Eu. by destruct (is_Exception x).
Qed.

Definition finishing (st : option string) : list call_ :=
  when_ postrun_receivers (SendPostrun st) ++ [BackendCleanup; LoaderCleanup].

Lemma does_stacks l (f : tstate → nat) (g : tstate → list string) :
  does l (emodify (λ s, set_stacks (f s) (g s) s)) [] l (Ok ()).
Proof. by apply does_modify. Qed.

Lemma does_finish l : does l finish (finishing l.2) l (Ok ()).
Proof.
  unfold finish, finishing. eapply does_finally.
  - eapply (does_bind _ _ _ [] _ l l l.2); [|apply does_when]. apply does_get. by intros s <-.
  - rewrite Heager. eapply (does_bind _ _ _ [] [_; _]); [apply does_stacks|].
    apply does_catch_ok. eapply (does_bind _ _ _ [_] [_]); apply does_call.
Qed.

(** What a tracer calls, and what it leaves in its local variables *)
Definition trace_calls (req : request) (prio : option Z) (r : outcome A) : list call_ :=
  when_ prerun_receivers SendPrerun ++ [TaskInit] ++ when_ (tracks_started req) StoreStarted ++
  when_ (has_before_start tk) BeforeStart ++ [Body] ++ after_body req prio r ++ finishing (final_state r).

Definition inherited_priority (req : request) : option Z :=
  if inherit_parent_priority then r_delivery_info req ≫= priority else None.

Lemma locals_after_state r : (locals_after r).2 = final_state r.
Proof. destruct r as [v|x|]; [done| |done]. by destruct x. Qed.

Lemma does_execute req r :
  (inherit_parent_priority = true → is_Some (r_delivery_info req)) → (∀ t, body t = r) → r ≠ Diverge →
  does (RNone, None, false, false, None) (execute req) (trace_calls req (inherited_priority req) r) (locals_after r) (unhandled r).
Proof.
  intros Hd Hb Hr. unfold execute, trace_calls. eapply (does_bind _ _ _ []); [apply does_stacks|].
  eapply (does_bind _ _ _ [] _ _ _ (inherited_priority req)).
  { unfold task_priority, inherited_priority.
    destruct inherit_parent_priority; [destruct (Hd eq_refl) as [d ->]|]; apply does_ret. }
  eapply (does_bind _ _ _ []); [apply does_stacks|].
  eapply does_eq; [eapply does_finally; [by apply does_traced|apply does_finish]|].
  rewrite locals_after_state. by list_simplifier.
Qed.

(** The value a tracer returns for an outcome of the body *)
Definition traced_result (r : outcome A) : outcome trace_ok :=
  match unhandled r with
  | Ok _ => let '(R, inf, T, Rs, _) := locals_after r in Ok (TraceOk R inf T Rs)
  | Raise x => Raise x
  | Diverge => Diverge
  end.

Lemma does_clear s : locals (clear_locals s) = (RNone, None, false, false, None) ∧ calls (clear_locals s) = calls s.
Proof. done. Qed.

Lemma does_tracer_inner req r :
  r_kwargs_mapping req = true → may_skip req = false →
  (inherit_parent_priority = true → is_Some (r_delivery_info req)) → (∀ t, body t = r) → r ≠ Diverge →
  does (RNone, None, false, false, None)
    (ecatch (do! known := deduplicate req in ewhen (negb known) (execute req)) (internal_error req true))
    (trace_calls req (inherited_priority req) r) (locals_after r) (unhandled r).
Proof.
  intros Hk Hn Hd Hb Hr. pose proof (does_execute req r Hd Hb Hr) as He.
  assert (does (RNone, None, false, false, None) (do! known := deduplicate req in ewhen (negb known) (execute req))
            (trace_calls req (inherited_priority req) r) (locals_after r) (unhandled r)) as Hi.
  { unfold may_skip in Hn. unfold deduplicate. rewrite Hn. eapply (does_bind _ _ _ []); [apply does_ret|apply He]. }
  destruct (unhandled r) as [[]|x|] eqn:Eu; [by apply does_catch_ok| |by destruct r as [| |]; [|simpl in Eu; case_match|]].
  eapply does_eq; [eapply (does_catch_raise _ _ _ _ []); [apply Hi|]|apply app_nil_r].
  destruct r as [v|y|]; [done| |done]. simpl in Eu. destruct y; simplify_eq/=; apply does_raise.
Qed.

Lemma does_tracer req r s :
  r_kwargs_mapping req = true → may_skip req = false →
  (inherit_parent_priority = true → is_Some (r_delivery_info req)) → (∀ t, body t = r) → r ≠ Diverge →
  ∃ s', tracer req s = (s', traced_result r) ∧ calls s' = calls s ++ trace_calls req (inherited_priority req) r.
Proof.
  intros Hk Hn Hd Hb Hr. destruct (does_clear s) as [Hl Hc].
  destruct (does_tracer_inner req r Hk Hn Hd Hb Hr _ Hl) as (s' & E & Hcs & Hls).
  exists s'. rewrite Hcs, Hc. split; [|done].
  unfold tracer, ebind at 1, emodify at 1. rewrite Hk. unfold ebind at 1. rewrite E. unfold traced_result.
  destruct (unhandled r) as [[]|x|]; [|done..].
  destruct (locals_after r) as [[[[R inf] T] Rs] st]. unfold eget, result_of. unfold locals in Hls. by simplify_eq.
Qed.

(** C1: when nothing but the body of a task can fail, tracing it calls exactly
    the handlers, signals and backend operations for the outcome of the body, in
    order: for a value the callbacks, then the store of the result, then
    the success handlers; for [Retry] the retry handlers; [Ignore] and [Reject]
    store nothing; any other [Exception] is stored as a failure; exceptions that
    are not [Exception]s go through after the clean-up. *)
Theorem trace_outcome req r s :
  r_kwargs_mapping req = true → may_skip req = false →
  (inherit_parent_priority = true → is_Some (r_delivery_info req)) → (∀ t, body t = r) → r ≠ Diverge →
  ∃ s', trace_task req s = (s', traced_result r) ∧ calls s' = calls s ++ trace_calls req (inherited_priority req) r.
Proof.
  intros Hk Hn Hd Hb Hr. destruct (does_tracer req r s Hk Hn Hd Hb Hr) as (s' & E & Hc).
  exists s'. split; [|done]. unfold trace_task, ecatch. rewrite E.
  unfold traced_result. destruct r as [v|x|]; [done| |done]. simpl. destruct x; done.
Qed.
End Quiet.


(** An [Exception] leaves [trace_task] only if reporting it fails; [Reject] does. *)
Lemma trace_task_raises req s x :
  (∀ t y, run t (SendInternalError y) = Ok ()) → (∀ t y, run t (PrepareException y) = Ok ()) →
  (trace_task req s).2 = Raise x → x = RejectExc ∨ is_Exception x = false.
Proof.
  intros Hs Hp. unfold trace_task, ecatch. destruct (tracer req s) as [s1 [r|y|]]; [done| |done].
  destruct y; simpl; unfold signal_internal_error, report_internal_error, call, ebind; rewrite ?Hs, ?Hp;
    intros [= <-]; auto.
Qed.
End Trace.

(** ** Examples *)

Module Examples.
Definition plain : task := TaskAttrs false false false true false false false.
Definition redelivered_req : request := @Req string "t1" None (Some (DInfo true (Some 3%Z))) ["cb"] ["next"] true.
Definition fine (_ : list (@call_ Z string * outcome ())) (_ : @call_ Z string) : outcome () := Ok ().
Definition start : @tstate Z string := TState 0 [] ∅ [] RNone None false false None.

Definition run_task (dedup : bool) (body : outcome Z) :=
  trace_task (λ _, false) plain false false true true true dedup true fine (λ _, body) (λ _, Ok SUCCESS) (λ _, Ok (7%Z, false)) redelivered_req start.

(** A task that returns, one that fails, and one that was executed before *)
Lemma traced_success : calls (run_task false (Ok 5%Z)).1 =
  [SendPrerun; TaskInit; StoreStarted; Body; ApplyCallback "cb" 5 (Some 3); ApplyChain "next" [] 5 (Some 3);
   MarkDone 5 true; SendSuccess; SendPostrun (Some SUCCESS); BackendCleanup; LoaderCleanup]%Z.
Proof. vm_compute. reflexivity. Qed.

Lemma traced_failure : calls (run_task false (Raise ValueError)).1 =
  [SendPrerun; TaskInit; StoreStarted; Body; MarkFailure ValueError true true; OnFailure ValueError; SendFailure ValueError;
   SendPostrun (Some FAILURE); BackendCleanup; LoaderCleanup].
Proof. vm_compute. reflexivity. Qed.

Lemma traced_duplicate : calls (run_task true (Ok 5%Z)).1 =
  [GetState; GetMeta; ApplyCallback "cb" 7 (Some 3); ApplyChain "next" [] 7 (Some 3)]%Z.
Proof. vm_compute. reflexivity. Qed.

Lemma trace_balanced_witness :
  task_stack (run_task false (Raise KeyError)).1 = 0 ∧ request_stack (run_task false (Raise KeyError)).1 = [].
Proof. unfold run_task. apply (trace_balanced _ plain). intros _. by eexists. Defined.

Lemma success_is_stored_witness :
  ∃ s' R b, trace_task_ret (λ _, false) plain false false true true true false true fine (λ _, Ok 5%Z) (λ _, Ok SUCCESS)
              (λ _, Ok (7%Z, false)) redelivered_req start = (s', Ok (false, R, b)) ∧
  ((∃ v before between after, R = Some (RVal v) ∧ Ok 5%Z = Ok v ∧
      log s' = log start ++ before ++ (Body, Ok ()) :: between ++ (MarkDone v (publish_result plain false redelivered_req), Ok ()) :: after) ∨
   (R = None ∧ (r_kwargs_mapping redelivered_req = false ∨ may_skip false redelivered_req = true))).
Proof.
  eexists _, _, _. split; [vm_compute; reflexivity|].
  eapply (success_is_stored (λ _, false) plain false false true true true false true fine (λ _, Ok 5%Z) (λ _, Ok SUCCESS)
            (λ _, Ok (7%Z, false)) redelivered_req start). vm_compute. reflexivity.
Defined.

Lemma duplicate_not_executed_witness : ∃ L, log (run_task true (Ok 5%Z)).1 = [] ++ L ∧ Body ∉ L.*1.
Proof. unfold run_task. apply duplicate_not_executed; [done|by right]. Defined.

Lemma trace_outcome_witness :
  ∃ s', run_task false (Ok 5%Z) = (s', traced_result (Ok 5%Z)) ∧
  calls s' = [] ++ trace_calls (λ _, false) plain false true true true redelivered_req (Some 3%Z) (Ok 5%Z).
Proof.
  unfold run_task. apply (trace_outcome (λ _, false) plain false false true true true false true fine (λ _, Ok 5%Z)); done.
Defined.
End Examples.
End Trace.
