(* ===== verification/Exceptions.v ===== *)
(** Exceptions as results: celery/utils/serialization.py (exceptions that can be
    pickled) and the conversion of exceptions to stored results and back in
    celery/backends/base.py.

    Python's modules are a table of objects with attributes; only some objects
    are exception classes.  Calling an object is recorded, so that what reading a
    stored exception calls is part of the model. *)

From S2P Require Import Prelude PyDict Effect PyStr.
Local Open Scope eff_scope.

Module Exceptions.

Section Exceptions.
(** Arguments of exceptions; [safe_repr] makes a text of a value *)
Context {V : Type} (safe_repr : V → V).
(** Exception classes, their base classes (most specific first, the class
    itself included) and what calling one with arguments gives: the arguments of
    the instance, unless it raises *)
Context {K : Type} `{EqDecision K}.
Context (mro : K → list K) (cls_module cls_name cls_qualname : K → string).
Context (construct : K → list V → option (list V)).
Context (Exception_ : K) (unwanted_base_classes : list K).

(** ** Objects *)

(** A class of exceptions: declared somewhere, or made while reading a result *)
Inductive pycls := Real (c : K) | Created (name module : string).

(** What can be called: an exception class, or anything else *)
Inductive callee := CExc (c : pycls) | COther (name : string).

Inductive pyobj := PyObj (what : callee) (attrs : list (string * pyobj)).

(** Exceptions; [UnpickleableExceptionWrapper] describes another one. *)
Inductive pyexc :=
| Inst (c : pycls) (args : list V)
| Wrapper (exc_module exc_cls_name : string) (exc_args : list V) (text : V).

Context (repr_exc : pyexc → V).
(** Whether [pickle.loads(pickle.dumps(x))] returns *)
Context (pickles : pyexc → bool) (vpickles : V → bool).

Definition class_module (c : pycls) : string := match c with Real c => cls_module c | Created _ m => m end.
Definition class_name (c : pycls) : string := match c with Real c => cls_name c | Created n _ => n end.
Definition class_qualname (c : pycls) : string := match c with Real c => cls_qualname c | Created n _ => n end.
(** [getmro]; a created class derives from [Exception] *)
Definition getmro (c : pycls) : list pycls :=
  match c with Real c => Real <$> mro c | Created _ _ => c :: (Real <$> mro Exception_) end.
Definition instantiate (c : pycls) (args : list V) : option pyexc :=
  match c with
  | Real k => Inst c <$> construct k args
  | Created _ _ => Some (Inst c args)
  end.

(** ** Pickleable exceptions *)

Definition ensure_serializable (encodes : V → bool) (items : list V) : list V :=
  (λ v, if encodes v then v else safe_repr v) <$> items.

Definition is_unwanted (c : pycls) : bool := match c with Real k => bool_decide (k ∈ unwanted_base_classes) | Created _ _ => false end.

(** [itermro(cls, unwanted_base_classes)] *)
Fixpoint takewhile (f : pycls → bool) (l : list pycls) : list pycls :=
  match l with [] => [] | c :: l => if f c then c :: takewhile f l else [] end.
Definition itermro (c : pycls) : list pycls := takewhile (λ c, negb (is_unwanted c)) (getmro c).

(** The loop of [find_pickleable_exception] over the classes *)
Fixpoint first_pickleable (classes : list pycls) (args : list V) : option pyexc :=
  match classes with
  | [] => None
  | c :: classes =>
      match instantiate c args with
      | Some e => if pickles e then Some e else first_pickleable classes args
      | None => first_pickleable classes args
      end
  end.

Definition find_pickleable_exception (c : pycls) (args : list V) : option pyexc := first_pickleable (itermro c) args.

Definition from_exception (c : pycls) (args : list V) : pyexc :=
  Wrapper (class_module c) (class_name c) (ensure_serializable vpickles args) (repr_exc (Inst c args)).

(** For an instance of [c] with arguments [args] *)
Definition get_pickleable_exception (c : pycls) (args : list V) : pyexc :=
  if pickles (Inst c args) then Inst c args
  else default (from_exception c args) (find_pickleable_exception c args).

Definition restore (exc_module exc_cls_name : string) (args : list V) : pyexc := Inst (Created exc_cls_name exc_module) args.

Definition get_pickled_exception (e : pyexc) : pyexc :=
  match e with
  | Wrapper m n args _ => restore m n args
  | Inst _ _ => e
  end.

(** ** Stored exceptions *)

(** [exc_message]: a tuple or list of arguments, or a single value *)
Inductive message := MArgs (args : list V) | MOne (v : V).

Record exc_dict := ExcDict { d_module : option string; d_type : option string; d_message : option message }.

(** What is found as the result of a failed task; other objects may convert to a
    dictionary *)
Inductive stored :=
| SNone
| SExn (e : pyexc)
| SDict (d : exc_dict)
| SOther (as_dict : outcome exc_dict).

Context (encodes : V → bool) (empty_text : V) (call_text : callee → message → V).
Context (modules : list (string * pyobj)).

Definition prepare_exception (pickle : bool) (c : pycls) (args : list V) : stored :=
  if pickle then SExn (get_pickleable_exception c args)
  else SDict (ExcDict (Some (class_module c)) (Some (class_qualname c)) (Some (MArgs (ensure_serializable encodes args)))).

(** The objects that were called *)
Abbreviation M := (eff (list callee)).

(** Calling an object that is not an exception class returns some object. *)
Inductive retval := RNone | RExc (e : pyexc) | ROther (name : string).

Definition call_object (o : callee) (args : list V) : M retval :=
  run! emodify (λ l, l ++ [o]) in
  match o with
  | CExc c => match instantiate c args with Some e => eret (RExc e) | None => eraise OtherExc end
  | COther name => eret (ROther name)
  end.

Definition is_exception_class (o : callee) : bool := match o with CExc _ => true | COther _ => false end.

(** [cls = sys.modules[m]], then the attributes along the dotted name *)
Definition object_of (o : pyobj) : callee := let 'PyObj what _ := o in what.
Definition attrs_of (o : pyobj) : pydict string pyobj := let 'PyObj _ attrs := o in attrs.
Fixpoint getattrs (o : pyobj) (names : list string) : option pyobj :=
  match names with
  | [] => Some o
  | n :: names => dict_get (attrs_of o) n ≫= λ o, getattrs o names
  end.

Definition dotted (s : string) : list string := of_chars <$> split_on "." (to_chars s).

Definition find_class (module : option string) (type_ : string) : callee :=
  match module with
  | None => CExc (Created type_ "celery.backends.base")
  | Some m =>
      match dict_get modules m ≫= λ o, getattrs o (dotted type_) with
      | Some o => object_of o
      | None => CExc (Created type_ "celery.exceptions")
      end
  end.

Definition make_exception (o : callee) (msg : message) : M retval :=
  ecatch (match msg with MArgs args => call_object o args | MOne v => call_object o [v] end)
    (λ x, if is_Exception x then eret (RExc (Inst (Real Exception_) [call_text o msg])) else eraise x).

(** From the dictionary on *)
Definition exception_from_dict (d : exc_dict) : M retval :=
  match d_type d with
  | None => eraise ValueError
  | Some type_ =>
      let cls := find_class (d_module d) type_ in
      let msg := default (MOne empty_text) (d_message d) in
      if negb (is_exception_class cls) then eraise SecurityError else make_exception cls msg
  end.

Definition exception_to_python (pickle : bool) (exc : stored) : M retval :=
  match exc with
  | SNone => eret RNone
  | SExn e => eret (RExc (if pickle then get_pickled_exception e else e))
  | SDict d => exception_from_dict d
  | SOther conv => do! d := elift conv in exception_from_dict d
  end.

(** ** Properties *)

(** Reading a stored exception calls nothing but exception classes,
    whatever the stored dictionary says and whatever the modules of the process
    hold; it returns an exception, nothing, or raises. *)
Theorem only_exceptions_called pickle exc s :
  (∃ L, (exception_to_python pickle exc s).1 = s ++ L ∧ Forall (λ o, is_exception_class o = true) L) ∧
  ∀ name, (exception_to_python pickle exc s).2 ≠ Ok (ROther name).
Proof.
  assert (∀ d, (∃ L, (exception_from_dict d s).1 = s ++ L ∧ Forall (λ o, is_exception_class o = true) L) ∧
               ∀ name, (exception_from_dict d s).2 ≠ Ok (ROther name)) as Hd.
  { intros d. unfold exception_from_dict. destruct (d_type d) as [t|]; [|by split; [exists []; rewrite app_nil_r|]].
    destruct (find_class _ t) as [c|o]; simpl; [|by split; [exists []; rewrite app_nil_r|]].
    unfold make_exception, ecatch. split.
    - exists [CExc c]. split; [|by repeat constructor].
      destruct (default _ _); unfold call_object, ebind, emodify; by destruct (instantiate c _).
    - intros name. destruct (default _ _); unfold call_object, ebind, emodify; by destruct (instantiate c _). }
  destruct exc as [|e|d|conv]; simpl; [by split; [exists []; rewrite app_nil_r|]..|done|].
  unfold ebind, elift. destruct conv as [d|x|]; [done|by split; [exists []; rewrite app_nil_r|]..].
Qed.

(** Pickling of wrappers: their arguments are what matters, and the text of a
    value can be pickled. *)
Context (Hwrapper : ∀ m n args t, Forall (λ v, vpickles v = true) args → pickles (Wrapper m n args t) = true).
Context (Hrepr : ∀ v, vpickles (safe_repr v) = true).

Lemma ensure_serializable_ok args : Forall (λ v, vpickles v = true) (ensure_serializable vpickles args).
Proof. unfold ensure_serializable. apply Forall_fmap, Forall_true. intros v. simpl. destruct (vpickles v) eqn:E; [done|apply Hrepr]. Qed.

Lemma ensure_serializable_id encode args : Forall (λ v, encode v = true) args → ensure_serializable encode args = args.
Proof. unfold ensure_serializable. induction 1 as [|v args Hv _ IH]; csimpl; [done|]. by rewrite Hv, IH. Qed.

Lemma first_pickleable_ok classes args e :
  first_pickleable classes args = Some e → pickles e = true ∧ ∃ c args', c ∈ classes ∧ e = Inst c args'.
Proof.
  induction classes as [|c classes IH]; simpl; [done|].
  destruct (instantiate c args) as [e'|] eqn:Ei.
  - destruct (pickles e') eqn:Ep.
    + intros [= <-]. split; [done|]. exists c. unfold instantiate in Ei. destruct c as [k|n m]; simpl in *.
      * destruct (construct k args) as [args'|]; simplify_eq/=. exists args'. split; [set_solver|done].
      * simplify_eq. exists args. split; [set_solver|done].
    + intros (? & c' & args' & ? & ?)%IH. split; [done|]. exists c', args'. split; [set_solver|done].
  - intros (? & c' & args' & ? & ?)%IH. split; [done|]. exists c', args'. split; [set_solver|done].
Qed.

Lemma takewhile_elem f l c : c ∈ takewhile f l → c ∈ l ∧ f c = true.
Proof. induction l as [|c' l IH]; simpl; [set_solver|]. destruct (f c') eqn:E; set_solver. Qed.

(** The exception that is sent in place of one that cannot be pickled can be
    pickled.  It is the exception itself if that can be pickled, else an instance of
    one of its base classes below [Exception], else a wrapper that restores to a
    class of the same name and module with the same arguments, where those that
    cannot be pickled are replaced by their text. *)
Theorem pickleable_exception c args :
  let e := get_pickleable_exception c args in
  pickles e = true ∧
  (e = Inst c args ∨
   (∃ c' args', e = Inst c' args' ∧ c' ∈ getmro c ∧ is_unwanted c' = false) ∨
   get_pickled_exception e = Inst (Created (class_name c) (class_module c)) (ensure_serializable vpickles args)).
Proof.
  unfold get_pickleable_exception. destruct (pickles (Inst c args)) eqn:Ep; [by split; [|left]|].
  destruct (find_pickleable_exception c args) as [e|] eqn:Ef; simpl.
  - destruct (first_pickleable_ok _ _ _ Ef) as (He & c' & args' & Hc & ->). split; [done|right; left].
    apply takewhile_elem in Hc as [Hc Hu]. exists c', args'. zbool. done.
  - split; [apply Hwrapper, ensure_serializable_ok|by right; right].
Qed.

(** The class is found where it says it is. *)
Definition importable (c : K) : Prop :=
  object_of <$> (dict_get modules (cls_module c) ≫= λ o, getattrs o (dotted (cls_qualname c))) = Some (CExc (Real c)).

Lemma find_importable c : importable c → find_class (Some (cls_module c)) (cls_qualname c) = CExc (Real c).
Proof. unfold importable, find_class. destruct (_ ≫= _); [|done]. by intros [= ->]. Qed.

(** An exception survives being stored and read back, with the pickle
    serializer and with the others: an importable class that takes its own
    arguments comes back as the same instance; a class that cannot be imported
    comes back as a class of that name. *)
Theorem exception_roundtrip pickle c args s :
  pickles (Inst (Real c) args) = true → Forall (λ v, encodes v = true) args → construct c args = Some args →
  (importable c →
   (exception_to_python pickle (prepare_exception pickle (Real c) args) s).2 = Ok (RExc (Inst (Real c) args))) ∧
  (dict_get modules (cls_module c) = None →
   (exception_to_python false (prepare_exception false (Real c) args) s).2 =
   Ok (RExc (Inst (Created (cls_qualname c) "celery.exceptions") args))).
Proof.
  intros Hp He Hc. split.
  - intros Hi. destruct pickle; simpl.
    + unfold get_pickleable_exception. by rewrite Hp.
    + unfold exception_from_dict. cbn -[find_class]. rewrite (find_importable c Hi). simpl.
      unfold make_exception, ecatch, call_object, ebind, emodify. simpl. by rewrite ensure_serializable_id, Hc.
  - intros Hm. simpl. unfold exception_from_dict, find_class. simpl. rewrite Hm. simpl.
    unfold make_exception, ecatch, call_object, ebind, emodify. simpl. by rewrite ensure_serializable_id.
Qed.
End Exceptions.

(** ** Examples *)

Module Examples.
(** Values are texts; classes 0, 1 and 2 are [Exception], [a.B] and [a.C], a
    subclass of [a.B] that cannot be pickled *)
Definition ex_mro (c : nat) : list nat := match c with 0 => [0] | 1 => [1; 0] | _ => [2; 1; 0] end.
Definition ex_module (c : nat) : string := match c with 0 => "builtins" | _ => "a" end.
Definition ex_name (c : nat) : string := match c with 0 => "Exception" | 1 => "B" | _ => "C" end.
Definition ex_construct (c : nat) (args : list string) : option (list string) := Some args.
Definition ex_pickles (e : @pyexc string nat) : bool :=
  match e with Inst (Real 2) _ => false | _ => true end.
Definition ex_modules : list (string * @pyobj nat) :=
  [("a", PyObj (COther "a") [("B", PyObj (CExc (Real 1)) []); ("C", PyObj (CExc (Real 2)) [])]);
   ("os", PyObj (COther "os") [("system", PyObj (COther "os.system") [])])].

Definition read := exception_to_python ex_construct 0 "" (λ _ _, "call") ex_modules.

Lemma read_system : read false (SDict (ExcDict (Some "os") (Some "system") (Some (MOne "rm")))) [] = ([], Raise SecurityError).
Proof. vm_compute. reflexivity. Qed.

Lemma pickle_base :
  get_pickleable_exception (λ v, v) ex_mro ex_module ex_name ex_construct 0 [0] (λ _, "repr") ex_pickles (λ _, true) (Real 2) ["x"] =
  Inst (Real 1) ["x"].
Proof. vm_compute. reflexivity. Qed.

Lemma pickleable_exception_witness :
  let e := get_pickleable_exception (λ v, v) ex_mro ex_module ex_name ex_construct 0 [0] (λ _, "repr") ex_pickles (λ _, true) (Real 2) ["x"] in
  ex_pickles e = true ∧
  (e = Inst (Real 2) ["x"] ∨
   (∃ c' args', e = Inst c' args' ∧ c' ∈ getmro ex_mro 0 (Real 2) ∧ is_unwanted [0] c' = false) ∨
   get_pickled_exception e = Inst (Created (class_name ex_name (Real 2)) (class_module ex_module (Real 2)))
                                  (ensure_serializable (λ v, v) (λ _, true) ["x"])).
Proof. apply pickleable_exception; [exact ex_name|exact (λ _, true)|exact ""|by intros..]. Defined.

Lemma exception_roundtrip_witness :
  importable ex_module ex_name ex_modules 1 ∧
  (read false (prepare_exception (λ v, v) ex_mro ex_module ex_name ex_name ex_construct 0 [0] (λ _, "repr") ex_pickles (λ _, true)
                 (λ _, true) false (Real 1) ["x"]) []).2 = Ok (RExc (Inst (Real 1) ["x"])).
Proof.
  split; [reflexivity|].
  apply exception_roundtrip; try reflexivity. by repeat constructor.
Defined.
End Examples.
End Exceptions.
