(* ===== verification/Backoff.v ===== *)
(** Waiting between attempts: [get_exponential_backoff_interval] of
    celery/utils/time.py, and the loop [_ensure_retryable] of
    celery/backends/base.py that repeats an operation of a result backend. *)

From S2P Require Import Prelude Effect.
Local Open Scope eff_scope.
Local Open Scope Z_scope.

Module Backoff.

Section Interval.
(** [random.randrange(n)] for [0 < n] *)
Context (rnd : Z → Z).

Definition randrange (n : Z) : outcome Z := if n <=? 0 then Raise ValueError else Ok (rnd n).

Definition get_exponential_backoff_interval (factor retries maximum : Z) (full_jitter : bool) : outcome Z :=
  let countdown := Z.min maximum (factor * 2 ^ retries) in
  let! countdown := (if full_jitter then randrange (countdown + 1) else Ok countdown) in
  Ok (Z.max 0 countdown).

Context (Hrnd : ∀ n, 0 < n → 0 <= rnd n < n).

Lemma randrange_range n r : randrange n = Ok r → 0 <= r < n.
Proof. unfold randrange. destruct (n <=? 0) eqn:E; [done|]. intros [= <-]. zbool. by apply Hrnd. Qed.

Lemma interval_spec factor retries maximum jitter :
  0 <= factor → 0 <= maximum →
  ∃ w, get_exponential_backoff_interval factor retries maximum jitter = Ok w ∧
       0 <= w <= Z.min maximum (factor * 2 ^ retries) ∧
       (jitter = false → w = Z.min maximum (factor * 2 ^ retries)).
Proof.
  intros Hf Hm. unfold get_exponential_backoff_interval.
  assert (0 <= Z.min maximum (factor * 2 ^ retries)) as Hc.
  { apply Z.min_glb; [done|]. apply Z.mul_nonneg_nonneg; [done|apply Z.pow_nonneg; lia]. }
  destruct jitter.
  - destruct (randrange (Z.min maximum (factor * 2 ^ retries) + 1)) as [r|x|] eqn:Er.
    + apply randrange_range in Er as Hr. simpl. eexists. split; [done|]. split; [lia|done].
    + unfold randrange in Er. case_match; [|done]. zbool. lia.
    + unfold randrange in Er. by case_match.
  - simpl. eexists. split; [done|]. split; [lia|]. intros _. lia.
Qed.

(** Without jitter the waiting time does not shrink from one attempt to the next. *)
Lemma interval_mono factor r r' maximum w w' :
  0 <= factor → 0 <= maximum → 0 <= r <= r' →
  get_exponential_backoff_interval factor r maximum false = Ok w →
  get_exponential_backoff_interval factor r' maximum false = Ok w' → w <= w'.
Proof.
  intros Hf Hm Hr [= <-] [= <-].
  assert (factor * 2 ^ r <= factor * 2 ^ r') by (apply Z.mul_le_mono_nonneg_l; [done|apply Z.pow_le_mono_r; lia]). lia.
Qed.
End Interval.

(** ** Repeating an operation *)

Section Loop.
Context {S A : Type} (rnd : Z → Z).
(** Attributes of the backend; no maximum stands for [inf] *)
Context (always_retry : bool) (exception_safe_to_retry : exn → bool) (max_retries : option nat).
Context (base_sleep max_sleep : Z).
Context (on_backend_retryable_error : exn → eff S ()) (sleep : Z → eff S ()).
Context (fallback_exc : option exn).

Definition retryable (x : exn) : bool := is_Exception x && (always_retry && exception_safe_to_retry x).

Definition may_retry (retries : nat) : bool :=
  match max_retries with Some n => (retries <? n)%nat | None => true end.

(** The hook and the pause before the next attempt *)
Definition pause (x : exn) (retries : nat) : eff S () :=
  run! ecatch (on_backend_retryable_error x) (λ y, if is_Exception y then eret () else eraise y) in
  do! ms := elift (get_exponential_backoff_interval rnd base_sleep (Z.of_nat retries) max_sleep true) in
  sleep ms.

Fixpoint ensure_retryable (fuel retries : nat) (func : eff S A) : eff S A :=
  match fuel with
  | O => λ s, (s, Diverge)
  | Datatypes.S fuel =>
      ecatch func (λ x,
        if retryable x then
          if may_retry retries then
            run! pause x (Datatypes.S retries) in
            ensure_retryable fuel (Datatypes.S retries) func
          else match fallback_exc with Some y => eraise y | None => eraise x end
        else eraise x)
  end.

(** ** Properties *)

(** What the operation, the hook and the pause keep, the loop keeps; a value it
    returns was returned by the operation in such a state. *)
Lemma keeps_pause (J : S → Prop) x n :
  (∀ y, keeps J (on_backend_retryable_error y)) → (∀ ms, keeps J (sleep ms)) → keeps J (pause x n).
Proof. intros Hh Hs. unfold pause. keeps; auto. Qed.

Lemma ensure_retryable_inv (J : S → Prop) (func : eff S A) fuel k s :
  keeps J func → (∀ y, keeps J (on_backend_retryable_error y)) → (∀ ms, keeps J (sleep ms)) → J s →
  J (ensure_retryable fuel k func s).1 ∧
  ∀ a, (ensure_retryable fuel k func s).2 = Ok a → ∃ s1, J s1 ∧ func s1 = ((ensure_retryable fuel k func s).1, Ok a).
Proof.
  intros Hf Hh Hs. revert k s. induction fuel as [|fuel IH]; intros k s HJ; [done|]. cbn [ensure_retryable]. unfold ecatch.
  pose proof (Hf s HJ) as H1. destruct (func s) as [s1 [a|x|]] eqn:Ef; simpl in H1.
  - split; [done|]. intros b [= <-]. by exists s.
  - destruct (retryable x); [|done]. destruct (may_retry k); [|by destruct fallback_exc].
    unfold ebind. pose proof (keeps_pause J x (Datatypes.S k) Hh Hs s1 H1) as H2.
    destruct (pause x (Datatypes.S k) s1) as [s2 [[]|y|]]; [by apply IH|done..].
  - done.
Qed.

(** Attempts are counted by the state: the operation counts one, the hook and
    the pause none. *)
Context (func : eff S A) (attempts : S → nat).
Context (Hfunc : ∀ s, attempts (func s).1 = Datatypes.S (attempts s)).
Context (Hhook : ∀ x s, attempts (on_backend_retryable_error x s).1 = attempts s).
Context (Hsleep : ∀ ms s, attempts (sleep ms s).1 = attempts s).

Lemma pause_attempts x n s : attempts (pause x n s).1 = attempts s.
Proof.
  enough (keeps (λ s', attempts s' = attempts s) (pause x n)) as H by (by apply H).
  unfold pause. keeps; intros s'; rewrite ?Hhook, ?Hsleep; done.
Qed.

(** What is known when the loop ends: how many attempts there were, and why it
    gave up *)
Definition ends (n k : nat) (s : S) (r : S * outcome A) : Prop :=
  (attempts s < attempts r.1 <= attempts s + Datatypes.S (n - k))%nat ∧
  match r.2 with
  | Ok a => ∃ s', func s' = (r.1, Ok a)
  | Raise y =>
      (∃ s', func s' = (r.1, Raise y) ∧ retryable y = false) ∨
      (attempts r.1 = attempts s + Datatypes.S (n - k) ∧
       ∃ s' x, func s' = (r.1, Raise x) ∧ retryable x = true ∧ y = default x fallback_exc)%nat ∨
      (∃ s' x m, (pause x m s').2 = Raise y)
  | Diverge => (∃ s', (func s').2 = Diverge) ∨ ∃ s' x m, (pause x m s').2 = Diverge
  end.

Lemma ensure_retryable_ends n fuel k s :
  max_retries = Some n → (k <= n)%nat → (n - k < fuel)%nat → ends n k s (ensure_retryable fuel k func s).
Proof.
  intros Hn. revert k s. induction fuel as [|fuel IH]; intros k s Hk Hf; [lia|]. cbn [ensure_retryable].
  unfold ecatch. pose proof (Hfunc s) as Ha. destruct (func s) as [s1 [a|x|]] eqn:Ef; simpl in Ha.
  - split; simpl; [lia|eauto].
  - destruct (retryable x) eqn:Er.
    + unfold may_retry. rewrite Hn. destruct (k <? n)%nat eqn:Ek; zbool.
      * unfold ebind. pose proof (pause_attempts x (Datatypes.S k) s1) as Hp.
        destruct (pause x (Datatypes.S k) s1) as [s2 [[]|y|]] eqn:Ep; simpl in Hp.
        -- destruct (IH (Datatypes.S k) s2) as [H1 H2]; [lia|lia|]. split; [lia|].
           destruct (ensure_retryable fuel (Datatypes.S k) func s2) as [s3 [a|y|]]; simpl in *; [done| |done].
           destruct H2 as [?|[[? ?]|?]]; [by left| |by right; right]. right; left. split; [lia|done].
        -- split; simpl; [lia|]. right; right. exists s1, x, (Datatypes.S k). by rewrite Ep.
        -- split; simpl; [lia|]. right. exists s1, x, (Datatypes.S k). by rewrite Ep.
      * assert (n = k) as -> by lia. replace (k - k)%nat with 0%nat by lia.
        assert (∀ y, y = default x fallback_exc → ends k k s (s1, Raise y)) as Hend.
        { intros y ->. split; simpl; [lia|]. right; left. split; [lia|eauto]. }
        destruct fallback_exc; by apply Hend.
    + split; simpl; [lia|]. left. eauto.
  - split; simpl; [lia|]. left. exists s. by rewrite Ef.
Qed.

(** An operation of a backend that retries is attempted at most
    [max_retries] times more than once and the loop ends: with the value of an
    attempt that returned, with an error that must not be retried, or after
    exactly [max_retries + 1] failed attempts with the error for that (or the
    last one); the operation, the hook and the pause may do anything else. *)
Theorem retries_bounded n s :
  max_retries = Some n → ends n 0 s (ensure_retryable (Datatypes.S n) 0 func s).
Proof. intros Hn. apply ensure_retryable_ends; [done|lia|lia]. Qed.
End Loop.

(** ** Example *)

(** The operation fails twice, then returns the number of attempts; the state
    counts the attempts. *)
Definition flaky : eff nat nat := λ s, (S s, if (s <? 2)%nat then Raise OtherExc else Ok (S s)).
Definition run_flaky (max : nat) : nat * outcome nat :=
  ensure_retryable (λ n, n - 1) true (λ _, true) (Some max) 10 10000 (λ _, eret ()) (λ _, eret ()) (Some BackendStoreError) (S max) 0 flaky 0%nat.

Lemma flaky_succeeds : run_flaky 2 = (3, Ok 3)%nat.
Proof. reflexivity. Qed.

Lemma retries_bounded_witness :
  ends (λ n, n - 1) true (λ _, true) 10 10000 (λ _, eret ()) (λ _, eret ()) (Some BackendStoreError) flaky id 1 0 0%nat (run_flaky 1).
Proof. apply retries_bounded; intros; reflexivity. Defined.
End Backoff.
