(* ===== verification/TaskRetry.v ===== *)
(** Retrying a task: [Context.as_execution_options], [Task.signature_from_request]
    and [Task.retry] of celery/app/task.py, and the wrapper of a task's body made
    by celery/app/autoretry.py.

    Options are dictionaries of values; what the retry code does not look at
    (arguments, chains, callbacks, ...) are opaque objects.  The attribute
    [override_max_retries] lives on the task object, which all executions of the
    task in a process share. *)

From S2P Require Import Prelude PyDict Effect Backoff.
Import Backoff.
Local Open Scope eff_scope.
Local Open Scope Z_scope.

Module TaskRetry.

(** ** Requests and their options *)

Inductive val := VNone | VInt (z : Z) | VStr (s : string) | VObj (id : Z) | VDict (d : list (string * val)).
Abbreviation options := (pydict string val).

(** [bool(v)] *)
Definition truthy (v : val) : bool :=
  match v with
  | VNone => false
  | VInt z => negb (z =? 0)
  | VStr s => negb (bool_decide (s = ""))
  | VObj _ => true
  | VDict d => match d with [] => false | _ => true end
  end.

Record context := Context_ {
  id : val; root_id : val; parent_id : val; group : val; group_index : val; shadow : val;
  chord : val; chain : val; callbacks : val; errbacks : val; expires : val;
  timelimit : option (val * val); headers : option options; reply_to : val;
  replaced_task_nesting : Z; origin : val;
  stamps : option options; stamped_headers : val;
  c_args : val; c_kwargs : val;
  retries : Z; delivery_info : option options;
  called_directly : bool; is_eager : bool;
}.

Definition X_DEATH_HEADERS : list string :=
  ["x-death"; "x-first-death-exchange"; "x-first-death-queue"; "x-first-death-reason";
   "x-last-death-exchange"; "x-last-death-queue"; "x-last-death-reason"].

Definition filter_x_death_headers (h : option options) : options := foldl dict_del (default [] h) X_DEATH_HEADERS.

Definition as_execution_options (c : context) : options :=
  let '(limit_hard, limit_soft) := default (VNone, VNone) (timelimit c) in
  let opts :=
    [("task_id", id c); ("root_id", root_id c); ("parent_id", parent_id c); ("group_id", group c);
     ("group_index", group_index c); ("shadow", shadow c); ("chord", chord c); ("chain", chain c);
     ("link", callbacks c); ("link_error", errbacks c); ("expires", expires c);
     ("soft_time_limit", limit_soft); ("time_limit", limit_hard);
     ("headers", VDict (filter_x_death_headers (headers c))); ("retries", VInt (retries c));
     ("reply_to", reply_to c); ("replaced_task_nesting", VInt (replaced_task_nesting c)); ("origin", origin c)] in
  match stamps c, stamped_headers c with
  | Some st, VNone => opts
  | Some st, h => dict_update (dict_set opts "stamped_headers" h) st
  | None, _ => opts
  end.

(** [Signature(task, args, kwargs, options, **extra)] *)
Record signature := Sig { s_task : string; s_args : val; s_kwargs : val; s_options : options }.

Definition or_default (v d : val) : val := match v with VNone => d | _ => v end.

Definition signature_from_request (name : string) (c : context) (args kwargs queue : val) (extra : options) : signature :=
  let opts := dict_update (as_execution_options c) extra in
  let dinfo := default [] (delivery_info c) in
  let priority := default VNone (dict_get dinfo "priority") in
  let opts := match priority with VNone => opts | _ => dict_set opts "priority" priority end in
  let opts :=
    if truthy queue then dict_set opts "queue" queue
    else let exchange := default VNone (dict_get dinfo "exchange") in
         let routing_key := default VNone (dict_get dinfo "routing_key") in
         if match exchange with VStr s => bool_decide (s = "") | _ => false end && truthy routing_key
         then dict_set opts "queue" routing_key
         else dict_update opts dinfo in
  Sig name (or_default args (c_args c)) (or_default kwargs (c_kwargs c)) (dict_update opts extra).

(** ** [Task.retry] *)

Record task := Task_ { t_name : string; t_max_retries : option Z; default_retry_delay : Z }.

(** The exception [Retry]: its cause, time and signature *)
Record retry_exc := RetryInfo { re_exc : option exn; re_when : val; re_eager : bool; re_sig : signature }.

Record state := State { override_max_retries : option Z; sent : list signature; raised : option retry_exc }.
Definition set_override o (s : state) : state := State o (sent s) (raised s).
Definition add_sent g (s : state) : state := State (override_max_retries s) (sent s ++ [g]) (raised s).
Definition set_raised r (s : state) : state := State (override_max_retries s) (sent s) (Some r).

(** Arguments of [retry]; [ra_options] are further options *)
Record retry_args := RArgs {
  ra_args : val; ra_kwargs : val; ra_throw : bool; ra_eta : val; ra_countdown : option Z;
  ra_max_retries : option Z; ra_queue : val; ra_options : options }.

Section Retry.
Context (tk : task) (req : context).
(** Outcome of sending a signature *)
Context (apply_async : signature → outcome ()).

Abbreviation M := (eff state).

Definition send (g : signature) : M () :=
  match apply_async g with
  | Ok _ => emodify (add_sent g)
  | Raise x => if is_Exception x then eraise RejectExc else eraise x
  | Diverge => elift Diverge
  end.

Definition raise_retry (r : retry_exc) : M retry_exc := run! emodify (set_raised r) in eraise RetryExc.

Definition effective_max (a : retry_args) : option Z :=
  match ra_max_retries a with Some m => Some m | None => t_max_retries tk end.

Definition effective_countdown (a : retry_args) : val :=
  match ra_countdown a with
  | Some c => VInt c
  | None => if truthy (ra_eta a) then VNone else VInt (default_retry_delay tk)
  end.

(** The signature of the next attempt *)
Definition retry_signature (a : retry_args) : signature :=
  signature_from_request (t_name tk) req (ra_args a) (ra_kwargs a) (ra_queue a)
    (dict_update [("countdown", effective_countdown a); ("eta", ra_eta a); ("retries", VInt (retries req + 1))] (ra_options a)).

Definition exhausted (a : retry_args) : bool :=
  match effective_max a with Some m => m <? retries req + 1 | None => false end.

Definition retry (exc : option exn) (a : retry_args) : M retry_exc :=
  run! match ra_max_retries a with Some m => emodify (set_override (Some m)) | None => eret () end in
  if called_directly req then eraise (default RetryExc exc)
  else
    let S := retry_signature a in
    if exhausted a then
      match exc with
      | Some x => eraise x
      | None => eraise MaxRetriesExceeded
      end
    else
      let ret := RetryInfo exc (if truthy (ra_eta a) then ra_eta a else effective_countdown a) (is_eager req) S in
      if is_eager req then (if ra_throw a then raise_retry ret else eret ret)
      else
        run! send S in
        if ra_throw a then raise_retry ret else eret ret.

(** ** Properties of [retry] *)

(** The options that make it the same task *)
Definition carried : list string :=
  ["task_id"; "root_id"; "parent_id"; "group_id"; "group_index"; "shadow"; "chord"; "chain"; "link"; "link_error";
   "expires"; "soft_time_limit"; "time_limit"; "headers"; "reply_to"; "replaced_task_nesting"; "origin"].

Lemma signature_option name c args kwargs queue extra k :
  k ∉ ["priority"; "queue"] → k ∉ dict_keys extra → k ∉ dict_keys (default [] (delivery_info c)) →
  dict_get (s_options (signature_from_request name c args kwargs queue extra)) k = dict_get (as_execution_options c) k.
Proof.
  intros Hk He Hd. unfold signature_from_request. simpl. rewrite dict_get_update_notin by done.
  assert (∀ o v, dict_get (match v with VNone => o | _ => dict_set o "priority" v end) k = dict_get o k) as Hp.
  { intros o [| | | |]; [done|rewrite dict_get_set_ne by set_solver; done..]. }
  destruct (truthy queue); [|destruct (_ && _)].
  1,2: rewrite dict_get_set_ne by set_solver.
  3: rewrite dict_get_update_notin by done.
  all: by rewrite Hp, dict_get_update_notin.
Qed.

Lemma retry_retries a :
  "retries" ∉ dict_keys (ra_options a) → dict_get (s_options (retry_signature a)) "retries" = Some (VInt (retries req + 1)).
Proof.
  intros Ho. unfold retry_signature, signature_from_request. simpl.
  rewrite dict_get_update by (apply dict_update_wf; unfold dict_wf; simpl; repeat constructor; set_solver).
  by rewrite dict_get_update_notin.
Qed.

(** What is sent for a retry is the same task with one more retry: the
    identifiers, group, chord, rest of the chain, callbacks, errbacks, limits and
    arguments of the request are kept (unless new arguments are given); the
    headers a dead-lettering broker added are dropped. *)
Theorem retry_same_task a :
  "retries" ∉ dict_keys (ra_options a) → 
  (∀ k, k ∈ carried → k ∉ dict_keys (ra_options a) ∧ k ∉ dict_keys (default [] (delivery_info req))) →
  let g := retry_signature a in
  (∀ k, k ∈ carried → dict_get (s_options g) k = dict_get (as_execution_options req) k) ∧
  dict_get (s_options g) "retries" = Some (VInt (retries req + 1)) ∧
  (stamps req = None → dict_get (s_options g) "task_id" = Some (id req) ∧ dict_get (s_options g) "link" = Some (callbacks req) ∧
   dict_get (s_options g) "chain" = Some (chain req) ∧ dict_get (s_options g) "chord" = Some (chord req)) ∧
  s_task g = t_name tk ∧
  (ra_args a = VNone → s_args g = c_args req) ∧ (ra_kwargs a = VNone → s_kwargs g = c_kwargs req).
Proof.
  intros Hr Hc. assert (∀ k, k ∈ carried → dict_get (s_options (retry_signature a)) k = dict_get (as_execution_options req) k) as Hk.
  { intros k Hk. destruct (Hc k Hk) as [Ho Hd]. apply signature_option; [unfold carried in Hk; set_solver| |done].
    assert (dict_get (dict_update [("countdown", effective_countdown a); ("eta", ra_eta a); ("retries", VInt (retries req + 1))]
              (ra_options a)) k = None) as Hn; [|by apply dict_get_None].
    rewrite dict_get_update_notin by done. apply dict_get_None. unfold carried in Hk. set_solver. }
  split_and!; [done|by apply retry_retries| |done|..].
  - intros Hs. rewrite !Hk by (unfold carried; set_solver). unfold as_execution_options. rewrite Hs.
    by destruct (timelimit req) as [[h so]|].
  - by intros H; simpl; rewrite H.
  - by intros H; simpl; rewrite H.
Qed.

(** What the request says of the task, as options of a signature *)
Definition kept (c : context) : options :=
  [("task_id", id c); ("root_id", root_id c); ("parent_id", parent_id c); ("group_id", group c); ("group_index", group_index c);
   ("shadow", shadow c); ("chord", chord c); ("chain", chain c); ("link", callbacks c); ("link_error", errbacks c);
   ("expires", expires c); ("soft_time_limit", (default (VNone, VNone) (timelimit c)).2);
   ("time_limit", (default (VNone, VNone) (timelimit c)).1); ("reply_to", reply_to c); ("replaced_task_nesting", VInt (replaced_task_nesting c)); ("origin", origin c)].

(** A signature that stands for the next attempt at the task of the request: the
    same task, arguments and options, except for what the arguments of [retry]
    say; one retry more, the given delay (or the task's), and the queue that was
    named, else the one the message came from *)
Record next_attempt (a : retry_args) (g : signature) : Prop := {
  na_task : s_task g = t_name tk;
  na_args : s_args g = match ra_args a with VNone => c_args req | v => v end;
  na_kwargs : s_kwargs g = match ra_kwargs a with VNone => c_kwargs req | v => v end;
  na_retries : dict_get (s_options g) "retries" = Some (VInt (1 + retries req));
  na_kept : ∀ k v, (k, v) ∈ kept req → dict_get (s_options g) k = Some (default v (dict_get (ra_options a) k));
  na_eta : dict_get (s_options g) "eta" = Some (ra_eta a);
  na_countdown : dict_get (s_options g) "countdown" =
    Some match ra_countdown a with
         | Some c => VInt c
         | None => if truthy (ra_eta a) then VNone else VInt (default_retry_delay tk)
         end;
  na_queue : truthy (ra_queue a) = true → dict_get (s_options g) "queue" = Some (ra_queue a);
  na_same_queue : truthy (ra_queue a) = false → ∀ d rk, delivery_info req = Some d →
    dict_get d "exchange" = Some (VStr "") → dict_get d "routing_key" = Some (VStr rk) → rk ≠ "" →
    dict_get (s_options g) "queue" = Some (VStr rk);
}.

Lemma signature_extra name c args kwargs queue extra k v :
  dict_wf extra → dict_get extra k = Some v →
  dict_get (s_options (signature_from_request name c args kwargs queue extra)) k = Some v.
Proof. intros Hw Hk. simpl. rewrite dict_get_update by done. by rewrite Hk. Qed.

Lemma kept_option k v :
  (k, v) ∈ kept req → k ∉ dict_keys (default [] (stamps req)) → dict_get (as_execution_options req) k = Some v.
Proof.
  intros Hk Hs. assert (∀ o, dict_get o k = Some v → ∀ h, k ≠ h → ∀ w st, k ∉ dict_keys st →
    dict_get (dict_update (dict_set o h w) st) k = Some v) as Hu.
  { intros o Ho h Hh w st Hst. rewrite dict_get_update_notin, dict_get_set_ne by done. done. }
  assert (k ≠ "stamped_headers") as Hh by (unfold kept in Hk; set_solver).
  unfold as_execution_options. unfold kept in Hk. destruct (default (VNone, VNone) (timelimit req)) as [lh ls]. simpl in Hk.
  match goal with |- context [dict_set ?o "stamped_headers" _] => assert (dict_get o k = Some v) as Ho end.
  { repeat (apply elem_of_cons in Hk as [[= -> ->]|Hk]; [reflexivity|]). by apply elem_of_nil in Hk. }
  destruct (stamps req) as [st|]; [|done]. destruct (stamped_headers req); auto.
Qed.

Lemma retry_signature_next a :
  dict_wf (ra_options a) → (∀ k, k ∈ ["eta"; "countdown"; "retries"; "queue"] → k ∉ dict_keys (ra_options a)) →
  (∀ k, k ∈ dict_keys (kept req) → k ∉ dict_keys (default [] (stamps req)) ∧ k ∉ dict_keys (default [] (delivery_info req))) →
  next_attempt a (retry_signature a).
Proof.
  intros Hw Ho Hk. set (base := [("countdown", effective_countdown a); ("eta", ra_eta a); ("retries", VInt (retries req + 1))]).
  assert (dict_wf (dict_update base (ra_options a))) as Hwe
    by (apply dict_update_wf; unfold dict_wf; simpl; repeat constructor; set_solver).
  assert (∀ k, k ∈ ["eta"; "countdown"; "retries"; "queue"] → dict_get (dict_update base (ra_options a)) k = dict_get base k) as Hb.
  { intros k Hin. rewrite dict_get_update_notin; [done|by apply Ho]. }
  assert (∀ k v, k ∈ ["eta"; "countdown"; "retries"; "queue"] → dict_get base k = Some v →
            dict_get (s_options (retry_signature a)) k = Some v) as Hv.
  { intros k v Hin Hkv. apply signature_extra; [done|]. by rewrite Hb. }
  assert ("queue" ∉ dict_keys (dict_update base (ra_options a))) as Hq
    by (apply dict_get_None; rewrite Hb by set_solver; done).
  split; try reflexivity.
  - simpl. by destruct (ra_args a).
  - simpl. by destruct (ra_kwargs a).
  - rewrite Z.add_comm. apply Hv; [set_solver|reflexivity].
  - intros k v Hkv. destruct (Hk k) as [Hst Hdi]; [by apply (list_elem_of_fmap_2 fst) in Hkv|].
    destruct (dict_get (ra_options a) k) as [w|] eqn:Ek.
    + apply signature_extra; [done|]. fold base. rewrite dict_get_update by done. by rewrite Ek.
    + unfold retry_signature. rewrite signature_option; [by apply kept_option|unfold kept in Hkv; set_solver| |done].
      apply dict_get_None. fold base. rewrite dict_get_update_notin by (by apply dict_get_None).
      apply dict_get_None. unfold kept in Hkv. set_solver.
  - apply Hv; [set_solver|reflexivity].
  - apply Hv; [set_solver|reflexivity].
  - intros Hqt. unfold retry_signature, signature_from_request. simpl. fold base.
    rewrite dict_get_update_notin by done. by rewrite Hqt, dict_get_set_eq.
  - intros Hqf d rk Hd Hx Hr Hne. unfold retry_signature, signature_from_request. simpl. fold base.
    rewrite dict_get_update_notin by done. rewrite Hqf, Hd. simpl. rewrite Hx, Hr. simpl.
    rewrite (bool_decide_eq_false_2 (rk = "")) by done. simpl. by rewrite dict_get_set_eq.
Qed.

(** The retry is announced: [Retry], with the signature, its cause and the time
    of the next attempt, is raised, or returned if [throw] is false *)
Definition announced (exc : option exn) (a : retry_args) (g : signature) (old new : option retry_exc) (r : outcome retry_exc) : Prop :=
  ∃ ret, re_sig ret = g ∧ re_exc ret = exc ∧ re_eager ret = is_eager req ∧
    re_when ret = match truthy (ra_eta a), ra_countdown a with
                  | true, _ => ra_eta a
                  | false, Some c => VInt c
                  | false, None => VInt (default_retry_delay tk)
                  end ∧
    (ra_throw a = true ∧ r = Raise RetryExc ∧ new = Some ret ∨ ra_throw a = false ∧ r = Ok ret ∧ new = old).

Lemma retry_announced exc a g s :
  let ret := RetryInfo exc (if truthy (ra_eta a) then ra_eta a else effective_countdown a) (is_eager req) g in
  let r := (if ra_throw a then raise_retry ret else eret ret) s in
  announced exc a g (raised s) (raised r.1) r.2 ∧ sent r.1 = sent s ∧ override_max_retries r.1 = override_max_retries s.
Proof.
  intros ret r. unfold r. split.
  - exists ret. unfold ret, effective_countdown. simpl. split_and!; try done.
    + by destruct (truthy (ra_eta a)), (ra_countdown a).
    + destruct (ra_throw a); [left|right]; done.
  - by destruct (ra_throw a).
Qed.

(** Within the limit *)
Lemma retry_within exc a s :
  next_attempt a (retry_signature a) →
  let ret := RetryInfo exc (if truthy (ra_eta a) then ra_eta a else effective_countdown a) (is_eager req) (retry_signature a) in
  let '(s', r) := (if is_eager req then (if ra_throw a then raise_retry ret else eret ret)
                   else run! send (retry_signature a) in if ra_throw a then raise_retry ret else eret ret) s in
  override_max_retries s' = override_max_retries s ∧ ∃ g, next_attempt a g ∧
     if is_eager req then sent s' = sent s ∧ announced exc a g (raised s) (raised s') r
     else match apply_async g with
          | Ok _ => sent s' = sent s ++ [g] ∧ announced exc a g (raised s) (raised s') r
          | Raise y => sent s' = sent s ∧ r = Raise (if is_Exception y then RejectExc else y)
          | Diverge => sent s' = sent s ∧ r = Diverge
          end.
Proof.
  intros Hn ret. set (g := retry_signature a) in *. set (fin := if ra_throw a then raise_retry ret else eret ret).
  destruct (is_eager req) eqn:Ee.
  - pose proof (retry_announced exc a g s) as Ha. cbv zeta in Ha. rewrite Ee in Ha. fold ret fin in Ha.
    destruct (fin s) as [s' r]. destruct Ha as (H1 & H2 & H3). split; [done|]. exists g. done.
  - unfold send, ebind. destruct (apply_async g) as [[]|y|] eqn:Eg; simpl.
    + pose proof (retry_announced exc a g (add_sent g s)) as Ha. cbv zeta in Ha. rewrite Ee in Ha. fold ret fin in Ha.
      destruct (fin (add_sent g s)) as [s' r]. destruct Ha as (H1 & H2 & H3). split; [done|]. exists g. by rewrite Eg.
    + destruct (is_Exception y) eqn:Ey; simpl; (split; [done|]; exists g; by rewrite Eg, Ey).
    + split; [done|]. exists g. by rewrite Eg.
Qed.

(** C8: what [retry] does, for a task with [retries req] attempts behind it and
    the limit [max_retries] of the call, or of the task if the call gives none.
    - Called directly: the given exception (or [Retry]) is raised.
    - With a limit that is at most the number of retries made: the given exception
      (or [MaxRetriesExceededError]) is raised.
    - Otherwise there is a signature for the next attempt: same task, arguments,
      identifiers, group, chord, chain, callbacks, limits and so on, unless the call
      changes them, one retry more, the delay asked for or the task's, on the queue
      asked for or the one the message came from.  A task that runs eagerly
      announces it and sends nothing; else it is sent once and announced, or
      [Reject] is raised if it cannot be sent.  Announcing is raising [Retry] if
      [throw] is true and returning it otherwise.
    Nothing else is sent, and a limit given to the call is left on the task.  The
    options of the call are none of those [retry] has parameters for, and neither
    the stamps nor the delivery information use names of the options kept. *)
Theorem retry_outcome exc a s :
  dict_wf (ra_options a) → (∀ k, k ∈ ["eta"; "countdown"; "retries"; "queue"] → k ∉ dict_keys (ra_options a)) →
  (∀ k, k ∈ dict_keys (kept req) → k ∉ dict_keys (default [] (stamps req)) ∧ k ∉ dict_keys (default [] (delivery_info req))) →
  let '(s', r) := retry exc a s in
  let limit := match ra_max_retries a with Some m => Some m | None => t_max_retries tk end in
  override_max_retries s' = match ra_max_retries a with Some m => Some m | None => override_max_retries s end ∧
  if called_directly req then sent s' = sent s ∧ r = Raise (default RetryExc exc)
  else
    (∃ m, limit = Some m ∧ m <= retries req ∧ sent s' = sent s ∧ r = Raise (default MaxRetriesExceeded exc)) ∨
    ((∀ m, limit = Some m → retries req < m) ∧ ∃ g, next_attempt a g ∧
     if is_eager req then sent s' = sent s ∧ announced exc a g (raised s) (raised s') r
     else match apply_async g with
          | Ok _ => sent s' = sent s ++ [g] ∧ announced exc a g (raised s) (raised s') r
          | Raise y => sent s' = sent s ∧ r = Raise (if is_Exception y then RejectExc else y)
          | Diverge => sent s' = sent s ∧ r = Diverge
          end).
Proof.
  intros Hw Ho Hk. unfold retry, ebind at 1.
  set (o := match ra_max_retries a with Some m => Some m | None => override_max_retries s end).
  assert (match ra_max_retries a with Some m => emodify (set_override (Some m)) | None => eret () end s =
          (set_override o s, Ok ())) as -> by (unfold o; destruct (ra_max_retries a); [done|by destruct s]).
  destruct (called_directly req); [done|]. unfold exhausted, effective_max.
  destruct (match ra_max_retries a with Some m => Some m | None => t_max_retries tk end) as [m|] eqn:Em.
  1: destruct (m <? retries req + 1) eqn:El; zbool.
  { destruct exc; (split; [done|]; left; exists m; split_and!; [done|lia|done|done]). }
  all: pose proof (retry_within exc a (set_override o s) (retry_signature_next a Hw Ho Hk)) as Hr.
  all: cbv zeta in Hr; destruct (_ (set_override o s)) as [s' r]; destruct Hr as [Hov Hr]; split; [done|right; split; [|done]].
  - intros n [= <-]. lia.
  - done.
Qed.

(** ** [add_autoretry_behaviour] *)

(** Its options; [retry_backoff] is a number of seconds, 0 for none *)
Record autoretry := Autoretry {
  autoretry_for : exn → bool; dont_autoretry_for : exn → bool; retry_kwargs : retry_args;
  retry_backoff : Z; retry_backoff_max : Z; retry_jitter : bool }.

Context (rnd : Z → Z) (au : autoretry).

Definition set_countdown (c : Z) (a : retry_args) : retry_args :=
  RArgs (ra_args a) (ra_kwargs a) (ra_throw a) (ra_eta a) (Some c) (ra_max_retries a) (ra_queue a) (ra_options a).
Definition set_max_retries (m : Z) (a : retry_args) : retry_args :=
  RArgs (ra_args a) (ra_kwargs a) (ra_throw a) (ra_eta a) (ra_countdown a) (Some m) (ra_queue a) (ra_options a).

(** [retry_kwargs_for_attempt] *)
Definition attempt_kwargs : M retry_args :=
  let a := retry_kwargs au in
  do! a := (if retry_backoff au =? 0 then eret a
            else do! c := elift (get_exponential_backoff_interval rnd (Z.max 1 (retry_backoff au)) (retries req)
                                   (retry_backoff_max au) (retry_jitter au)) in
                 eret (set_countdown c a)) in
  do! o := eget override_max_retries in
  eret (match o with Some m => set_max_retries m a | None => a end).

(** The method [run] that replaces the body [orig_run] *)
Definition run {A} (orig_run : M A) : M A :=
  ecatch orig_run (λ x,
    match x with
    | IgnoreExc | RetryExc => eraise x
    | _ =>
        if dont_autoretry_for au x then eraise x
        else if autoretry_for au x then
          do! a := attempt_kwargs in
          do! ret := retry (Some x) a in
          run! emodify (set_override None) in
          do! _ := raise_retry ret in
          eraise RetryExc
        else eraise x
    end).

End Retry.

(** ** A task that always fails *)

Section Executions.
Context (tk : task) (rnd : Z → Z) (au : autoretry) (x : exn).

(** The request a worker makes of a signature sent by [retry] *)
Definition redelivered (req : context) (g : signature) : option context :=
  match dict_get (s_options g) "retries" with
  | Some (VInt k) =>
      Some (Context_ (id req) (root_id req) (parent_id req) (group req) (group_index req) (shadow req) (chord req) (chain req)
              (callbacks req) (errbacks req) (expires req) (timelimit req) (headers req) (reply_to req)
              (replaced_task_nesting req) (origin req) (stamps req) (stamped_headers req) (s_args g) (s_kwargs g)
              k (delivery_info req) (called_directly req) (is_eager req))
  | _ => None
  end.

(** The body raises [x] whenever it is run, and every signature that is sent is
    executed by the same process: the number of executions and the error of the
    last one *)
Fixpoint executions (fuel : nat) (req : context) (s : state) : option (nat * exn) :=
  match fuel with
  | O => None
  | S fuel =>
      match run tk req (λ _, Ok ()) rnd au (@eraise _ () x) s with
      | (s', Raise RetryExc) =>
          g ← last (sent s'); req' ← redelivered req g; '(n, y) ← executions fuel req' s'; Some (S n, y)
      | (_, Raise y) => Some (1%nat, y)
      | _ => None
      end
  end.

Context (Hrnd : ∀ n, 0 < n → 0 <= rnd n < n).
Context (m : Z) (Hmax : effective_max tk (retry_kwargs au) = Some m).
Context (Hback : 0 <= retry_backoff_max au) (Hthrow : ra_throw (retry_kwargs au) = true).
Context (Hopts : "retries" ∉ dict_keys (ra_options (retry_kwargs au))).
Context (Hx : x ≠ IgnoreExc ∧ x ≠ RetryExc ∧ is_Exception x = true).
Context (Hfor : autoretry_for au x = true ∧ dont_autoretry_for au x = false).

(** The limit seen by this process *)
Definition limit_ok (s : state) : Prop := override_max_retries s = None ∨ override_max_retries s = Some m.

Lemma attempt_kwargs_ok req s :
  limit_ok s → ∃ a, attempt_kwargs req rnd au s = (s, Ok a) ∧ effective_max tk a = Some m ∧ ra_throw a = true ∧
    ra_options a = ra_options (retry_kwargs au) ∧ (∀ n, ra_max_retries a = Some n → n = m).
Proof.
  intros Hl. unfold attempt_kwargs.
  set (c := if retry_backoff au =? 0 then _ else _).
  assert (∃ cd, c s = (s, Ok cd) ∧ effective_max tk cd = Some m ∧ ra_throw cd = true ∧
            ra_options cd = ra_options (retry_kwargs au) ∧ ra_max_retries cd = ra_max_retries (retry_kwargs au)) as (a & Ha & H1 & H2 & H3 & H4).
  { unfold c. destruct (retry_backoff au =? 0); [by eexists|].
    destruct (interval_spec rnd Hrnd (Z.max 1 (retry_backoff au)) (retries req) (retry_backoff_max au) (retry_jitter au))
      as (w & Hw & _); [lia|done|]. unfold ebind, elift. rewrite Hw. by eexists. }
  unfold ebind. rewrite Ha. unfold eget, eret. destruct Hl as [->| ->]; eexists; split_and!; try done.
  - rewrite H4. unfold effective_max in Hmax. intros n Hn. rewrite Hn in Hmax. by injection Hmax.
  - by intros n [= <-].
Qed.

Lemma run_failing req s :
  limit_ok s → called_directly req = false → is_eager req = false →
  ∃ s', limit_ok s' ∧
    if m <? retries req + 1 then run tk req (λ _, Ok ()) rnd au (@eraise _ () x) s = (s', Raise x)
    else run tk req (λ _, Ok ()) rnd au (@eraise _ () x) s = (s', Raise RetryExc) ∧
         ∃ g, last (sent s') = Some g ∧ dict_get (s_options g) "retries" = Some (VInt (retries req + 1)).
Proof.
  intros Hl Hd He. destruct (attempt_kwargs_ok req s Hl) as (a & Ha & Hm & Ht & Ho & Hn).
  set (o := match ra_max_retries a with Some n => Some n | None => override_max_retries s end).
  assert (limit_ok (set_override o s)) as Hlo.
  { unfold o. destruct (ra_max_retries a) as [n|]; [right; simpl; by rewrite (Hn n)|]. by destruct s. }
  assert (run tk req (λ _, Ok ()) rnd au (@eraise _ () x) s =
          (let '(s', r) := retry tk req (λ _, Ok ()) (Some x) a s in
           match r with
           | Ok ret => (set_raised ret (set_override None s'), Raise RetryExc)
           | Raise y => (s', Raise y)
           | Diverge => (s', Diverge)
           end)) as ->.
  { unfold run, ecatch, eraise at 1. destruct Hfor as [Hf1 Hf2], Hx as (Hx1 & Hx2 & _).
    destruct x; try done; unfold ebind; rewrite Hf2, Hf1, Ha; by destruct (retry _ _ _ _ a s) as [s' [ret|y|]]. }
  assert (retry tk req (λ _, Ok ()) (Some x) a s =
          if m <? retries req + 1 then (set_override o s, Raise x)
          else (set_raised (RetryInfo (Some x) (if truthy (ra_eta a) then ra_eta a else effective_countdown tk a) false (retry_signature tk req a))
                  (add_sent (retry_signature tk req a) (set_override o s)), Raise RetryExc)) as ->.
  { unfold retry, ebind, o. rewrite Hd, He, Ht. unfold exhausted. rewrite Hm.
    destruct (ra_max_retries a); simpl; destruct (m <? retries req + 1); try done; by destruct s. }
  destruct (m <? retries req + 1); [by exists (set_override o s)|]. eexists. split; [|split; [done|]]; [done|].
  eexists. simpl. rewrite last_snoc. split; [done|]. apply retry_retries. by rewrite Ho.
Qed.

(** C30: a task that fails every time with an error it is retried for is executed
    exactly [max_retries + 1] times (counting from a fresh request), and the last
    execution ends with the error itself. *)
Theorem failing_task_executions req s fuel :
  limit_ok s → called_directly req = false → is_eager req = false → 0 <= retries req <= m →
  (Z.to_nat (m - retries req) < fuel)%nat →
  executions fuel req s = Some (S (Z.to_nat (m - retries req)), x).
Proof.
  revert req s. induction fuel as [|fuel IH]; intros req s Hl Hd He Hr Hf; [lia|]. cbn [executions].
  destruct (run_failing req s Hl Hd He) as (s' & Hl' & Hrun). destruct Hx as (Hx1 & Hx2 & _).
  destruct (m <? retries req + 1) eqn:Em; zbool.
  - rewrite Hrun. replace (m - retries req) with 0 by lia. by destruct x.
  - destruct Hrun as (-> & g & -> & Hg). simpl. unfold redelivered. rewrite Hg. simpl.
    rewrite IH; [|done|done|done|simpl; lia|simpl; lia]. simpl. do 3 f_equal. lia.
Qed.
End Executions.

(** The limit given to one call of [retry] stays on the task object and replaces
    the configured limit of every later automatic retry in the process, for
    other messages too. *)
Lemma retry_limit_leaks tk req apply exc a m s :
  ra_max_retries a = Some m →
  let s1 := (retry tk req apply exc a s).1 in
  override_max_retries s1 = Some m ∧
  ∀ req' rnd au a', (attempt_kwargs req' rnd au s1).2 = Ok a' → ra_max_retries a' = Some m.
Proof.
  intros Hm s1. assert (override_max_retries s1 = Some m) as H1.
  { unfold s1, retry, ebind. rewrite Hm. simpl. destruct (called_directly req); [done|]. destruct (exhausted tk req a); [by destruct exc|].
    destruct (is_eager req); [by destruct (ra_throw a)|]. unfold send. destruct (apply _) as [[]|y|]; [by destruct (ra_throw a)|by destruct (is_Exception y)|done]. }
  split; [done|]. intros req' rnd au a'. clearbody s1. unfold attempt_kwargs. destruct (retry_backoff au =? 0).
  - unfold ebind, eget, eret. rewrite H1. by intros [= <-].
  - unfold ebind, elift, eget, eret. destruct (get_exponential_backoff_interval _ _ _ _ _); [|done..].
    rewrite H1. by intros [= <-].
Qed.

(** ** Examples *)

Module Examples.
Definition tk : task := Task_ "proj.add" (Some 3) 180.
Definition req (k : Z) : context :=
  Context_ (VStr "id") (VStr "root") VNone VNone VNone VNone VNone (VObj 1) (VObj 2) (VObj 3) VNone None
    (Some [("x-death", VInt 1); ("h", VInt 2)]) VNone 0 VNone None VNone (VObj 4) (VObj 5) k
    (Some [("exchange", VStr ""); ("routing_key", VStr "celery"); ("priority", VNone)]) false false.
Definition plain : retry_args := RArgs VNone VNone true VNone None None VNone [].
Definition au : autoretry := Autoretry (λ _, true) (λ _, false) plain 2 600 true.
Definition start : state := State None [] None.

Lemma queue_of_retry : dict_get (s_options (retry_signature tk (req 0) plain)) "queue" = Some (VStr "celery").
Proof. reflexivity. Qed.

Lemma retry_same_task_witness :
  dict_get (s_options (retry_signature tk (req 1) plain)) "link" = Some (VObj 2) ∧
  dict_get (s_options (retry_signature tk (req 1) plain)) "retries" = Some (VInt 2).
Proof.
  destruct (retry_same_task tk (req 1) plain) as (_ & H1 & H2 & _).
  - simpl. by apply not_elem_of_nil.
  - intros k Hk. unfold carried in Hk. simpl. set_solver.
  - split; [apply H2; reflexivity|exact H1].
Defined.

Lemma retry_outcome_witness :
  ∃ g, next_attempt tk (req 2) plain g ∧ sent (retry tk (req 2) (λ _, Ok ()) None plain start).1 = [g] ∧
    (retry tk (req 2) (λ _, Ok ()) None plain start).2 = Raise RetryExc.
Proof.
  pose proof (retry_outcome tk (req 2) (λ _, Ok ()) None plain start) as H.
  destruct (retry tk (req 2) (λ _, Ok ()) None plain start) as [s' r] eqn:E. destruct H as [_ [H|H]].
  - apply NoDup_nil_2.
  - intros k _. apply not_elem_of_nil.
  - intros k Hk. split; [apply not_elem_of_nil|]. simpl in *. set_solver.
  - destruct H as (m & Hm & Hle & _). injection Hm as <-. simpl in Hle. lia.
  - destruct H as (_ & g & Hg & Hs & ret & _ & _ & _ & _ & [(_ & Hr & _)|(Ht & _)]); [|discriminate].
    exists g. split; [exact Hg|]. split; [exact Hs|exact Hr].
Defined.

Lemma failing_task_executions_witness : executions tk (λ n, n - 1) au KeyError 10 (req 0) start = Some (4%nat, KeyError).
Proof.
  apply (failing_task_executions tk (λ n, n - 1) au KeyError ltac:(intros; lia) 3); try done; try (by left); simpl; try lia.
  by apply not_elem_of_nil.
Defined.
End Examples.
End TaskRetry.
