(* ===== verification/Payload.v ===== *)
(** How results are written: compressed payloads, [encode] and [decode], and the
    keys of key/value backends, celery/backends/base.py.

    Bytes are lists of 8-bit characters.  The compression methods and the
    serializer of kombu are parameters with the laws they are used by. *)

From S2P Require Import Prelude PyStr.

Module Payload.

Definition NUL : ascii := "000"%char.
Definition COMPRESSED_PAYLOAD_MAGIC : chars := NUL :: to_chars "celery-compressed" ++ [NUL].

(** What a backend gets back from its store *)
Inductive payload := PBytes (b : chars) | PView (b : chars) | PText (s : chars).

(** [b.startswith(p)] *)
Fixpoint startswith (p b : chars) : bool :=
  match p, b with
  | [], _ => true
  | c :: p, d :: b => bool_decide (c = d) && startswith p b
  | _, [] => false
  end.

(** [b.partition(sep)], without the separator; all of [b] if it is missing *)
Fixpoint partition (sep : ascii) (b : chars) : chars * chars :=
  match b with
  | [] => ([], [])
  | c :: b => if bool_decide (c = sep) then ([], b) else let '(h, t) := partition sep b in (c :: h, t)
  end.

Section Payload.
(** kombu's registries: the encoder of a method with its content type, and the
    decoder of a content type *)
Context (get_encoder : string → outcome ((chars → chars) * chars)) (get_decoder : chars → outcome (chars → chars)).

Definition ensure_bytes (p : payload) : chars := match p with PBytes b | PView b | PText b => b end.

Definition compress_payload (p : payload) (compression : string) : outcome chars :=
  let! (enc, content_type) := get_encoder compression in
  Ok (COMPRESSED_PAYLOAD_MAGIC ++ content_type ++ [NUL] ++ enc (ensure_bytes p)).

Definition decompress_payload (p : payload) : outcome payload :=
  match p with
  | PText _ => Ok p
  | PBytes b | PView b =>
      if startswith COMPRESSED_PAYLOAD_MAGIC b then
        let '(content_type, body) := partition NUL (drop (length COMPRESSED_PAYLOAD_MAGIC) b) in
        let! dec := get_decoder content_type in
        Ok (PBytes (dec body))
      else Ok (PBytes b)
  end.

(** The serializer *)
Context {D : Type} (dumps : D → outcome payload) (loads : payload → outcome D).

Definition prepare_compression (supports_result_compression : bool) (compression : option string) : outcome (option string) :=
  match compression with
  | None => Ok None
  | Some c =>
      if bool_decide (c = "") then Ok None
      else if negb supports_result_compression then Ok None
      else match get_encoder c with
           | Ok _ => Ok (Some c)
           | Raise KeyError => Raise ImproperlyConfigured
           | Raise x => Raise x
           | Diverge => Diverge
           end
  end.

Definition encode (compression : option string) (data : D) : outcome payload :=
  let! p := dumps data in
  match compression with
  | Some c => let! b := compress_payload p c in Ok (PBytes b)
  | None => Ok p
  end.

(** [payload or str(payload)] *)
Definition or_str (p : payload) : payload :=
  match p with
  | PBytes [] => PText (to_chars "b''")
  | PView [] => PText (to_chars "<memory>")
  | _ => p
  end.

Definition decode (p : option payload) : outcome (option D) :=
  match p with
  | None => Ok None
  | Some p => let! p := decompress_payload (or_str p) in let! d := loads p in Ok (Some d)
  end.

(** ** Properties *)

(** Documented behaviour of kombu: a method's decoder is registered under its
    content type, a content type is a text without NUL, serialized data is not
    empty and does not start with NUL, and can be read as text or bytes.  [wire d] is
    what becomes of [d] on its way through the serializer (JSON makes lists of
    tuples, for example). *)
Context (wire : D → D).
Context (Hcodec : ∀ c enc ct, get_encoder c = Ok (enc, ct) → ∃ dec, get_decoder ct = Ok dec ∧ ∀ b, dec (enc b) = b).
Context (Hct : ∀ c enc ct, get_encoder c = Ok (enc, ct) → NUL ∉ ct).
Context (Hdumps : ∀ d p, dumps d = Ok p → ensure_bytes p ≠ [] ∧ head (ensure_bytes p) ≠ Some NUL ∧
                                          loads p = Ok (wire d) ∧ loads (PBytes (ensure_bytes p)) = Ok (wire d)).

Lemma startswith_app p b : startswith p (p ++ b) = true.
Proof. induction p as [|c p IH]; simpl; [done|]. by rewrite bool_decide_eq_true_2. Qed.

Lemma startswith_magic b : head b ≠ Some NUL → startswith COMPRESSED_PAYLOAD_MAGIC b = false.
Proof. destruct b as [|c b]; [done|]. intros Hc. unfold COMPRESSED_PAYLOAD_MAGIC. cbn [startswith]. rewrite bool_decide_eq_false_2; [done|]. intros <-. by apply Hc. Qed.

Lemma partition_app sep h t : sep ∉ h → partition sep (h ++ sep :: t) = (h, t).
Proof.
  induction h as [|c h IH]; intros Hh; simpl.
  - by rewrite bool_decide_eq_true_2.
  - rewrite bool_decide_eq_false_2 by set_solver. rewrite IH by set_solver. done.
Qed.

Lemma decompress_compress p c b :
  compress_payload p c = Ok b → decompress_payload (PBytes b) = Ok (PBytes (ensure_bytes p)) ∧
                                decompress_payload (PView b) = Ok (PBytes (ensure_bytes p)).
Proof.
  unfold compress_payload. destruct (get_encoder c) as [[enc ct]|?|] eqn:Ee; [|done..]. cbn [obind]. intros Hb.
  assert (b = COMPRESSED_PAYLOAD_MAGIC ++ ct ++ [NUL] ++ enc (ensure_bytes p)) as -> by congruence. clear Hb.
  destruct (Hcodec _ _ _ Ee) as (dec & Hd & Hinv). pose proof (Hct _ _ _ Ee) as Hnul.
  unfold decompress_payload. rewrite startswith_app, drop_app_length. cbn [app]. rewrite partition_app by done.
  simpl. by rewrite Hd; simpl; rewrite Hinv.
Qed.

(** A result that was encoded can be decoded, to what the serializer makes of it,
    whatever compression the writer
    uses and whether or not the reader is configured for one; a writer whose
    compression was accepted when it was created can encode whatever the
    serializer can; and payloads without the marker are read as they are. *)
Theorem decode_encode supports conf comp d p :
  prepare_compression supports conf = Ok comp → dumps d = Ok p →
  ∃ q, encode comp d = Ok q ∧ decode (Some q) = Ok (Some (wire d)) ∧
       (comp = None → q = p) ∧ (supports = false → comp = None).
Proof.
  intros Hc Hd. destruct (Hdumps d p Hd) as (Hne & Hn & Hl & Hlb). unfold encode. rewrite Hd. simpl.
  assert (decode (Some p) = Ok (Some (wire d))) as Hplain.
  { destruct p as [b|b|b]; cbn [ensure_bytes] in *; unfold decode, or_str.
    1,2: destruct b as [|c0 b]; [done|]; unfold decompress_payload; rewrite startswith_magic by done; simpl; by rewrite ?Hl, ?Hlb.
    simpl. by rewrite Hl. }
  unfold prepare_compression in Hc. destruct conf as [c|]; [|simplify_eq; by eexists].
  case_bool_decide; [simplify_eq; by eexists|]. destruct supports; simpl in Hc; [|simplify_eq; by eexists].
  destruct (get_encoder c) as [[enc ct]|x|] eqn:Ee; [|by destruct x|done]. simplify_eq.
  destruct (compress_payload p c) as [b|x|] eqn:Eb; unfold compress_payload in Eb; rewrite Ee in Eb; simpl in Eb; [|done..].
  exists (PBytes b). simpl. split_and!; [done| |done|done].
  assert (compress_payload p c = Ok b) as Ec by (unfold compress_payload; by rewrite Ee).
  destruct (decompress_compress p c b Ec) as [Hdec _].
  unfold decode, or_str. destruct b as [|c0 b]; [by simplify_eq/=|]. rewrite Hdec. simpl. by rewrite Hlb.
Qed.
End Payload.

(** ** Keys *)

Definition task_keyprefix : string := "celery-task-meta-".
Definition group_keyprefix : string := "celery-taskset-meta-".
Definition chord_keyprefix : string := "chord-unlock-".

(** [global_keyprefix] with its separator *)
Definition global_prefix (g : string) : string :=
  match last (to_chars g) with
  | None => ""
  | Some c => if bool_decide (c ∈ to_chars ":_-.") then g else g +:+ "_"
  end.

Section Keys.
Context (global_keyprefix : string).
Definition add_global_keyprefix (prefix : string) : string := global_prefix global_keyprefix +:+ prefix.

Definition get_key_for (prefix id key : string) : outcome string :=
  if bool_decide (id = "") then Raise ValueError else Ok (add_global_keyprefix prefix +:+ id +:+ key).
Definition get_key_for_task : string → string → outcome string := get_key_for task_keyprefix.
Definition get_key_for_group : string → string → outcome string := get_key_for group_keyprefix.
Definition get_key_for_chord : string → string → outcome string := get_key_for chord_keyprefix.

(** [key[len(prefix):]] if it starts with the prefix *)
Fixpoint without_prefix (p s : string) : option string :=
  match p, s with
  | EmptyString, _ => Some s
  | String c p, String d s => if bool_decide (c = d) then without_prefix p s else None
  | String _ _, EmptyString => None
  end.

Definition strip_prefix (key : string) : string :=
  match without_prefix (add_global_keyprefix task_keyprefix) key with
  | Some s => s
  | None => default key (without_prefix (add_global_keyprefix group_keyprefix) key)
  end.

Lemma string_app_cons x (a b : string) : String x a +:+ b = String x (a +:+ b).
Proof. reflexivity. Qed.

Lemma string_app_assoc (a b c : string) : a +:+ b +:+ c = (a +:+ b) +:+ c.
Proof. induction a as [|x a IH]; [done|]. by rewrite !string_app_cons, IH. Qed.

Lemma string_app_inj (p a b : string) : p +:+ a = p +:+ b → a = b.
Proof. induction p as [|x p IH]; [done|]. rewrite !string_app_cons. intros [= ?]. auto. Qed.

Lemma without_prefix_app p s : without_prefix p (p +:+ s) = Some s.
Proof. induction p as [|c p IH]; [done|]. rewrite string_app_cons. simpl. by rewrite bool_decide_eq_true_2. Qed.

Lemma without_prefix_common p q s : without_prefix (p +:+ q) (p +:+ s) = without_prefix q s.
Proof. induction p as [|c p IH]; [done|]. rewrite !string_app_cons. simpl. by rewrite bool_decide_eq_true_2. Qed.

Lemma string_app_nil_r s : s +:+ "" = s.
Proof. induction s as [|c s IH]; [done|]. by rewrite string_app_cons, IH. Qed.

Lemma get_key_for_inj prefix id id' k : get_key_for prefix id "" = Ok k → get_key_for prefix id' "" = Ok k → id = id'.
Proof.
  unfold get_key_for. do 2 case_bool_decide; [done..|]. intros [= <-] [= Hk]. rewrite !string_app_nil_r in Hk.
  by apply string_app_inj in Hk.
Qed.

(** Keys identify what they are made for: the keys of tasks, groups and
    chords are never the same, equal keys of one kind belong to equal identifiers,
    and stripping the prefix from the key of a task or group gives its identifier
    back, with any global prefix. *)
Theorem keys_faithful id id' k k' g g' c c' :
  get_key_for_task id "" = Ok k → get_key_for_task id' "" = Ok k' →
  get_key_for_group id "" = Ok g → get_key_for_group id' "" = Ok g' →
  get_key_for_chord id "" = Ok c → get_key_for_chord id' "" = Ok c' →
  (k = k' → id = id') ∧ (g = g' → id = id') ∧ (c = c' → id = id') ∧
  k ≠ g' ∧ k ≠ c' ∧ g ≠ c' ∧ strip_prefix k = id ∧ strip_prefix g = id.
Proof.
  unfold get_key_for_task, get_key_for_group, get_key_for_chord, get_key_for.
  do 2 case_bool_decide; [done..|]. intros [= <-] [= <-] [= <-] [= <-] [= <-] [= <-].
  rewrite !string_app_nil_r. split_and!.
  1-3: by intros ?%string_app_inj.
  1-3: unfold add_global_keyprefix; rewrite <-!string_app_assoc; intros ?%string_app_inj; done.
  - unfold strip_prefix. by rewrite without_prefix_app.
  - unfold strip_prefix, add_global_keyprefix. rewrite <-!string_app_assoc, !without_prefix_common.
    replace (without_prefix task_keyprefix (group_keyprefix +:+ id)) with (@None string) by reflexivity.
    by rewrite without_prefix_app.
Qed.
End Keys.

(** ** Examples *)

Module Examples.
(** A method that reverses, a serializer of texts *)
Definition ex_encoder (c : string) : outcome ((chars → chars) * chars) :=
  if bool_decide (c = "rev") then Ok (reverse, to_chars "application/x-rev") else Raise KeyError.
Definition ex_decoder (ct : chars) : outcome (chars → chars) :=
  if bool_decide (ct = to_chars "application/x-rev") then Ok reverse else Raise KeyError.

Lemma decode_encode_witness :
  ∃ q, encode ex_encoder (λ d : bool, Ok (PText (to_chars (if d then "true" else "false")))) (Some "rev") true = Ok q ∧
       decode ex_decoder (λ p, Ok (bool_decide (ensure_bytes p = to_chars "true"))) (Some q) = Ok (Some true) ∧
       (Some "rev" = None → q = PText (to_chars "true")) ∧ (true = false → Some "rev" = None).
Proof.
  apply (decode_encode ex_encoder ex_decoder (λ d : bool, Ok (PText (to_chars (if d then "true" else "false"))))
           (λ p, Ok (bool_decide (ensure_bytes p = to_chars "true"))) (λ d, d)) with (conf := Some "rev"); [..|reflexivity|reflexivity].
  - intros c enc ct. unfold ex_encoder. case_bool_decide; [|done]. intros [= <- <-]. exists reverse.
    split; [reflexivity|apply reverse_involutive].
  - intros c enc ct. unfold ex_encoder. case_bool_decide; [|done]. intros [= <- <-]. by vm_compute; set_solver.
  - by intros [] p [= <-].
Defined.

Lemma keys_faithful_witness : ∃ k, get_key_for_task "my" "id1" "" = Ok k ∧ strip_prefix "my" k = "id1".
Proof.
  eexists. split; [reflexivity|].
  destruct (keys_faithful "my" "id1" "id2" _ _ _ _ _ _ eq_refl eq_refl eq_refl eq_refl eq_refl eq_refl)
    as (_ & _ & _ & _ & _ & _ & H & _). exact H.
Defined.
End Examples.
End Payload.
