(* ===== verification/Backend.v ===== *)
(** Storing and reading results, celery/backends/base.py: the methods of
    [Backend] and [BaseKeyValueStoreBackend] that write, read, cache and forget the
    result of a task.

    The store behind a backend is a map from keys to payloads.  Every operation on
    it may raise, and a write that raises may or may not have taken effect; [fault]
    says so from the operations before.  How results become payloads and come back is
    the interface [Codec], which StoredResults.v implements with the definitions of
    Payload.v and Exceptions.v; nothing is assumed of it here. *)

From S2P Require Import Prelude Effect States Backoff Payload.
Import States Backoff.
Local Open Scope eff_scope.
Local Open Scope Z_scope.

Module Backend.

(** ** Metadata *)

(** What is stored of a task; [X] is the extended metadata of its request *)
Record meta {X R : Type} := Meta {
  m_status : string;
  m_result : R;
  m_traceback : option string;
  m_children : option (list string);
  m_date_done : option Z;
  m_group_id : option string;
  m_parent_id : option string;
  m_extended : option X;
  m_task_id : string;
}.
Arguments meta X R : clear implicits.

(** The parts of a request a backend looks at *)
Record request {X : Type} := Req {
  rq_group : option string;
  rq_parent_id : option string;
  rq_children : list string;
  rq_extended : X;
}.
Arguments request X : clear implicits.

(** Python values [R], their stored form [E] and payloads [V] *)
Class Codec (X R E V : Type) := {
  is_exception : R → bool;
  none_result : R;
  prepare_exception : R → E;
  prepare_value : R → E;
  exception_to_python : E → outcome R;
  value_of : E → R;
  encode : meta X E → outcome V;
  decode : V → outcome (meta X E);
}.

(** ** State *)

Inductive op := OpGet (k : string) | OpSet (k : string) | OpDel (k : string) | OpSleep (ms : Z) | OpHook (x : exn).

Section Backend.
Context {X R E V : Type} `{C : Codec X R E V}.

(** A cache of metadata: [LRUCache] may drop entries, [_nulldict] keeps none *)
Class Cache (T : Type) := {
  cache_get : T → string → option (meta X R);
  cache_set : T → string → meta X R → T;
  cache_pop : T → string → T;
  cache_set_sound t k m k' m' : cache_get (cache_set t k m) k' = Some m' → (k' = k ∧ m' = m) ∨ (k' ≠ k ∧ cache_get t k' = Some m');
  cache_pop_sound t k k' m' : cache_get (cache_pop t k) k' = Some m' → k' ≠ k ∧ cache_get t k' = Some m';
}.
Context {T : Type} `{!Cache T}.

Record bstate := BState { kv : gmap string V; cache : T; ops : list op }.
Definition set_kv m (s : bstate) : bstate := BState m (cache s) (ops s).
Definition set_cache c (s : bstate) : bstate := BState (kv s) c (ops s).
Definition add_op o (s : bstate) : bstate := BState (kv s) (cache s) (ops s ++ [o]).

Abbreviation M := (eff bstate).

(** Configuration *)
Context (rnd : Z → Z) (always_retry : bool) (safe_to_retry : exn → bool) (max_retries : option nat) (base_sleep max_sleep : Z).
Context (global_keyprefix : string) (result_extended : bool).
(** The request of the task that is being executed, and the clock *)
Context (current_request : option (request X)) (now : list op → Z).
(** An operation that raises, and whether it took effect all the same *)
Context (fault : list op → op → option (exn * bool)).

(** ** The store *)

Definition kv_get (k : string) : M (option V) := λ s,
  let s' := add_op (OpGet k) s in
  match fault (ops s) (OpGet k) with
  | Some (x, _) => (s', Raise x)
  | None => (s', Ok (kv s !! k))
  end.

Definition kv_write (o : op) (f : gmap string V → gmap string V) : M () := λ s,
  match fault (ops s) o with
  | Some (x, false) => (add_op o s, Raise x)
  | Some (x, true) => (add_op o (set_kv (f (kv s)) s), Raise x)
  | None => (add_op o (set_kv (f (kv s)) s), Ok ())
  end.
Definition kv_set (k : string) (v : V) : M () := kv_write (OpSet k) (insert k v).
Definition kv_delete (k : string) : M () := kv_write (OpDel k) (delete k).

(** A call that does not touch the store *)
Definition call (o : op) : M () := λ s,
  (add_op o s, match fault (ops s) o with Some (x, _) => Raise x | None => Ok () end).

Definition get_key_for_task (id : string) : M string := elift (Payload.get_key_for_task global_keyprefix id "").

(** ** Metadata of a result *)

Definition is_ready (st : string) : bool := bool_decide (st ∈ READY_STATES).
Definition is_exception_state (st : string) : bool := bool_decide (st ∈ EXCEPTION_STATES).

Definition current_task_children (req : option (request X)) : option (list string) :=
  rq_children <$> (match req with Some r => Some r | None => current_request end).

Definition get_result_meta (id : string) (result : E) (st : string) (tb : option string) (req : option (request X)) (t : Z) : meta X E :=
  Meta _ _ st result tb (current_task_children req) (if is_ready st then Some t else None)
    (req ≫= rq_group) (req ≫= rq_parent_id)
    (if result_extended then rq_extended <$> req else None) id.

Definition encode_result (r : R) (st : string) : E :=
  if is_exception_state st && is_exception r then prepare_exception r else prepare_value r.

Definition with_result {R R'} (m : meta X R) (r : R') : meta X R' :=
  Meta _ _ (m_status m) r (m_traceback m) (m_children m) (m_date_done m) (m_group_id m) (m_parent_id m) (m_extended m) (m_task_id m).

Definition meta_from_decoded (m : meta X E) : outcome (meta X R) :=
  let! r := (if is_exception_state (m_status m) then exception_to_python (m_result m) else Ok (value_of (m_result m))) in
  Ok (with_result m r).

Definition decode_result (v : V) : outcome (meta X R) := let! m := decode v in meta_from_decoded m.

Definition pending (id : string) : meta X R := Meta _ _ PENDING none_result None None None None None None id.

(** ** Operations *)

Definition get_task_meta_for (id : string) : M (meta X R) :=
  do! k := get_key_for_task id in
  do! v := kv_get k in
  match v with
  | None => eret (pending id)
  | Some v => elift (decode_result v)
  end.

Definition retryable_ {A} (fallback : option exn) (fuel : nat) (f : M A) : M A :=
  ensure_retryable rnd always_retry safe_to_retry max_retries base_sleep max_sleep
    (λ x, call (OpHook x)) (λ ms, call (OpSleep ms)) fallback (match max_retries with Some n => S n | None => fuel end) 0 f.

Definition store_result_ (id : string) (result : E) (st : string) (tb : option string) (req : option (request X)) : M () :=
  do! t := eget (λ s, now (ops s)) in
  let m := get_result_meta id result st tb req t in
  do! current := get_task_meta_for id in
  if bool_decide (m_status current = SUCCESS) then eret ()
  else do! k := get_key_for_task id in
       do! v := elift (encode m) in
       kv_set k v.

(** [fuel] bounds the attempts when there is no [max_retries] *)
Definition store_result (fuel : nat) (id : string) (result : R) (st : string) (tb : option string) (req : option (request X)) : M () :=
  retryable_ (Some BackendStoreError) fuel (store_result_ id (encode_result result st) st tb req).

Definition forget_ (id : string) : M () := do! k := get_key_for_task id in kv_delete k.
Definition forget (fuel : nat) (id : string) : M () :=
  run! emodify (λ s, set_cache (cache_pop (cache s) id) s) in
  retryable_ None fuel (forget_ id).

Definition get_task_meta (fuel : nat) (use_cache : bool) (id : string) : M (meta X R) :=
  do! cached := eget (λ s, if use_cache then cache_get (cache s) id else None) in
  match cached with
  | Some m => eret m
  | None =>
      do! m := retryable_ (Some BackendGetMetaError) fuel (get_task_meta_for id) in
      run! ewhen (use_cache && bool_decide (m_status m = SUCCESS)) (emodify (λ s, set_cache (cache_set (cache s) id m) s)) in
      eret m
  end.

Definition get_state (fuel : nat) (id : string) : M string := do! m := get_task_meta fuel true id in eret (m_status m).
Definition get_traceback (fuel : nat) (id : string) : M (option string) := do! m := get_task_meta fuel true id in eret (m_traceback m).
Definition get_result (fuel : nat) (id : string) : M R := do! m := get_task_meta fuel true id in eret (m_result m).
Definition get_children (fuel : nat) (id : string) : M (option (list string)) := do! m := get_task_meta fuel true id in eret (m_children m).

Definition reload_task_result (fuel : nat) (id : string) : M () :=
  do! m := get_task_meta fuel false id in
  emodify (λ s, set_cache (cache_set (cache s) id m) s).

Definition task_result_exists (id : string) : M bool :=
  do! k := get_key_for_task id in
  do! v := kv_get k in
  eret (bool_decide (is_Some v)).

Definition mark_as_started (fuel : nat) (id : string) (m : R) : M () := store_result fuel id m STARTED None None.
Definition mark_as_retry (fuel : nat) (id : string) (exc : R) (tb : option string) (req : option (request X)) : M () :=
  store_result fuel id exc RETRY tb req.

(** ** What one operation does *)

Abbreviation task_key := (λ id, Payload.get_key_for_task global_keyprefix id "").

Lemma op_keeps (P : bstate → Prop) o : (∀ o s, P s → P (add_op o s)) → keeps P (call o).
Proof. intros HP s Hs. simpl. by apply HP. Qed.

(** Reading does not change the store, and returns what is there unless it raises. *)
Lemma get_task_meta_for_spec id s :
  kv (get_task_meta_for id s).1 = kv s ∧ cache (get_task_meta_for id s).1 = cache s ∧
  ∀ m, (get_task_meta_for id s).2 = Ok m →
    ∃ k, task_key id = Ok k ∧ match kv s !! k with None => m = pending id | Some v => decode_result v = Ok m end.
Proof.
  unfold get_task_meta_for, get_key_for_task, ebind, elift. destruct (task_key id) as [k|x|]; [|done..].
  unfold kv_get. destruct (fault (ops s) (OpGet k)) as [[x b]|]; [done|]. destruct (kv s !! k) as [v|] eqn:Ek.
  - split_and!; [done..|]. intros m Hm. exists k. by rewrite Ek.
  - split_and!; [done..|]. intros m [= <-]. exists k. by rewrite Ek.
Qed.

(** The result of the task in the store *)
Definition stored (id : string) (s : bstate) : option (outcome (meta X R)) :=
  match task_key id with Ok k => decode_result <$> kv s !! k | _ => None end.

Definition succeeded (id : string) (s : bstate) : Prop := ∃ m, stored id s = Some (Ok m) ∧ m_status m = SUCCESS.

(** Writing sets the key of the task to new metadata, never over a success; it
    returns normally only if it wrote or found a success. *)
Definition written (id : string) (e : E) (st : string) (tb : option string) (req : option (request X)) (s s' : bstate) : Prop :=
  cache s' = cache s ∧
  ∃ k t v, task_key id = Ok k ∧ encode (get_result_meta id e st tb req t) = Ok v ∧ kv s' = <[k := v]> (kv s).

Lemma store_result_spec_ id e st tb req s s' r :
  store_result_ id e st tb req s = (s', r) →
  ((kv s' = kv s ∧ cache s' = cache s) ∨ (¬ succeeded id s ∧ written id e st tb req s s')) ∧
  (r = Ok () → succeeded id s ∨ (¬ succeeded id s ∧ written id e st tb req s s')).
Proof.
  unfold store_result_, ebind at 1, eget.
  pose proof (get_task_meta_for_spec id s) as (H1 & H2 & H3). unfold ebind at 1.
  destruct (get_task_meta_for id s) as [s1 [cur|x|]]; simpl in *; [|intros [= <- <-]; by split; [left|]..].
  destruct (H3 cur eq_refl) as (k & Hk & Hv). clear H3. case_bool_decide as Hc.
  - intros [= <- <-]. split; [by left|]. intros _. left. exists cur. split; [|done]. unfold stored. rewrite Hk.
    destruct (kv s !! k) as [v|]; simpl; [by rewrite Hv|]. subst cur. discriminate Hc.
  - assert (¬ succeeded id s) as Hns.
    { intros (m & Hm & Hs). unfold stored in Hm. rewrite Hk in Hm. destruct (kv s !! k) as [v|]; simpl in Hm; [|done].
      rewrite Hv in Hm. congruence. }
    unfold get_key_for_task, ebind, elift. rewrite Hk. destruct (encode _) as [v|x|] eqn:Ev; simpl; [|intros [= <- <-]; by split; [left|]..].
    assert (∀ s2, kv s2 = <[k:=v]> (kv s1) → cache s2 = cache s1 → written id e st tb req s s2) as Hw.
    { intros s2 Hk2 Hc2. split; [congruence|]. exists k, (now (ops s)), v. rewrite Hk2, H1. done. }
    unfold kv_set, kv_write. destruct (fault _ _) as [[x []]|]; intros [= <- <-]; simpl; split; auto; done.
Qed.

Lemma stored_same id s s' : kv s' = kv s → stored id s' = stored id s.
Proof. unfold stored. by intros ->. Qed.

Lemma written_other id e st tb req s s' id' : written id e st tb req s s' → id' ≠ id → stored id' s' = stored id' s.
Proof.
  intros (_ & k & t & v & Hk & _ & Hkv) Hne. unfold stored. destruct (task_key id') as [k'|x|] eqn:Ek'; [|done..].
  rewrite Hkv, lookup_insert_ne; [done|]. intros <-. apply Hne. by eapply Payload.get_key_for_inj.
Qed.

(** Writing again replaces what was written. *)
Lemma written_trans id e st tb req s s1 s2 :
  written id e st tb req s s1 → written id e st tb req s1 s2 → written id e st tb req s s2.
Proof.
  intros (Hc & k & t & v & Hk & _ & Hkv) (Hc' & k' & t' & v' & Hk' & Hv' & Hkv').
  split; [congruence|]. exists k', t', v'. split_and!; [done..|]. rewrite Hkv', Hkv.
  assert (k' = k) as -> by congruence. by rewrite insert_insert_eq.
Qed.

(** A success stays as it is. *)
Lemma store_result_final_ id0 m id e st tb req :
  m_status m = SUCCESS → keeps (λ s, stored id0 s = Some (Ok m)) (store_result_ id e st tb req).
Proof.
  intros Hm s Hs. destruct (store_result_ id e st tb req s) as [s' r] eqn:Er.
  destruct (store_result_spec_ _ _ _ _ _ _ _ _ Er) as [[[Hkv _]|[Hns Hw]] _]; simpl.
  - by rewrite (stored_same _ _ _ Hkv).
  - rewrite (written_other _ _ _ _ _ _ _ _ Hw); [done|]. intros ->. apply Hns. by exists m.
Qed.

(** Loops around an operation *)
Lemma retryable_inv {A} (J : bstate → Prop) fb fuel (f : M A) s :
  keeps J f → (∀ o s, J s → J (add_op o s)) → J s →
  J (retryable_ fb fuel f s).1 ∧
  ∀ a, (retryable_ fb fuel f s).2 = Ok a → ∃ s1, J s1 ∧ f s1 = ((retryable_ fb fuel f s).1, Ok a).
Proof.
  intros Hf Ho Hs. unfold retryable_. apply ensure_retryable_inv; [done| | |done]; intros; by apply op_keeps.
Qed.

Lemma store_result_final fuel id0 m id r st tb req :
  m_status m = SUCCESS → keeps (λ s, stored id0 s = Some (Ok m)) (store_result fuel id r st tb req).
Proof. intros Hm s Hs. by apply (retryable_inv (λ s, stored id0 s = Some (Ok m))); [apply store_result_final_| |]. Qed.

Lemma store_result_spec fuel id r st tb req s s' res :
  store_result fuel id r st tb req s = (s', res) →
  ((kv s' = kv s ∧ cache s' = cache s) ∨ (¬ succeeded id s ∧ written id (encode_result r st) st tb req s s')) ∧
  (res = Ok () → succeeded id s ∨ written id (encode_result r st) st tb req s s').
Proof.
  set (e := encode_result r st). intros Hst.
  set (J := λ s1, (kv s1 = kv s ∧ cache s1 = cache s) ∨ (¬ succeeded id s ∧ written id e st tb req s s1)).
  assert (∀ s1 s2, J s1 → ¬ succeeded id s1 → written id e st tb req s1 s2 → ¬ succeeded id s ∧ written id e st tb req s s2) as Hstep.
  { intros s1 s2 [[Hkv1 Hc1]|[Hns1 Hw1]] Hns Hw; [|split; [done|by eapply written_trans]]. split.
    - intros (m & Hm & ?). apply Hns. exists m. by rewrite (stored_same _ s).
    - destruct Hw as [? Hw]. split; [congruence|]. by rewrite <-Hkv1. }
  assert (∀ s1 s2, J s1 → kv s2 = kv s1 → cache s2 = cache s1 → J s2) as Hsame.
  { intros s1 s2 [[? ?]|[? [? Hw]]] Hkv Hc; [left|right; split; [done|]]; split; try congruence. by rewrite Hkv. }
  assert (keeps J (store_result_ id e st tb req)) as HJ.
  { intros s1 Hs1. destruct (store_result_ id e st tb req s1) as [s2 r2] eqn:Er. simpl.
    destruct (store_result_spec_ _ _ _ _ _ _ _ _ Er) as [[[Hkv Hc]|[Hns Hw]] _]; [by eapply Hsame|]. right. by eapply Hstep. }
  destruct (retryable_inv J (Some BackendStoreError) fuel _ s HJ) as [H1 H2]; [done|by left|].
  unfold store_result in Hst. fold e in Hst. rewrite Hst in H1, H2. simpl in H1, H2. split; [done|].
  intros ->. destruct (H2 () eq_refl) as (s1 & Hs1 & Er). destruct (store_result_spec_ _ _ _ _ _ _ _ _ Er) as [Hk Hr].
  destruct (Hr eq_refl) as [Hsu|[Hns Hw]]; [|right; by eapply Hstep].
  destruct Hs1 as [[Hkv1 _]|Hw1].
  - left. destruct Hsu as (m & Hm & ?). exists m. by rewrite <-(stored_same _ s s1).
  - right. destruct Hk as [[Hkv2 Hc2]|[? _]]; [|done]. destruct Hw1 as [_ [? Hw1]]. split; [congruence|]. by rewrite Hkv2.
Qed.

(** What [store_result] does.  Whatever operation of the store raises, and
    however often it is retried, the results of other tasks do not change, and
    that of the task is what it was or the new result; if a success was stored
    it is not replaced, and if the call returns the new result is stored
    unless there was one. *)
Theorem store_result_effect fuel id r st tb req s :
  let s' := (store_result fuel id r st tb req s).1 in
  (∀ id', id' ≠ id → stored id' s' = stored id' s) ∧ cache s' = cache s ∧
  (kv s' = kv s ∨ written id (encode_result r st) st tb req s s') ∧
  (succeeded id s → kv s' = kv s) ∧
  ((store_result fuel id r st tb req s).2 = Ok () → succeeded id s ∨ written id (encode_result r st) st tb req s s').
Proof.
  destruct (store_result fuel id r st tb req s) as [s' res] eqn:Er. simpl.
  destruct (store_result_spec _ _ _ _ _ _ _ _ _ Er) as [H1 H2]. split_and!.
  - intros id' Hne. destruct H1 as [[? _]|[_ Hw]]; [by apply stored_same|by eapply written_other].
  - by destruct H1 as [[_ ?]|[_ [? _]]].
  - destruct H1 as [[? _]|[_ ?]]; auto.
  - intros Hsu. by destruct H1 as [[? _]|[? _]].
  - done.
Qed.

(** ** Reading what was written *)

Lemma read_stored fuel id s m :
  (∀ o, fault (ops s) o = None) → stored id s = Some (Ok m) → (get_task_meta (S fuel) false id s).2 = Ok m.
Proof.
  intros Hf Hm. unfold get_task_meta, ebind, eget.
  assert (∃ s1, retryable_ (Some BackendGetMetaError) (S fuel) (get_task_meta_for id) s = (s1, Ok m)) as [s1 ->]; [|done].
  unfold stored in Hm. destruct (task_key id) as [k|x|] eqn:Ek; [|done..].
  assert ((get_task_meta_for id s).2 = Ok m) as Hg.
  { unfold get_task_meta_for, get_key_for_task, ebind, elift, kv_get. rewrite Ek, Hf. destruct (kv s !! k); simplify_eq/=. done. }
  unfold retryable_. destruct max_retries; cbn [ensure_retryable]; unfold ecatch;
    destruct (get_task_meta_for id s) as [s1 g]; simpl in Hg; subst g; by eexists.
Qed.

(** After [store_result] returned, in any later state in which the store is the
    same, a reader decodes the payload that was made of the result, unless a success
    was stored before, which is still there. *)
Lemma store_then_read fuel fuel' id r st tb req s s' sl :
  store_result fuel id r st tb req s = (s', Ok ()) → kv sl = kv s' → (∀ o, fault (ops sl) o = None) →
  (∃ m, (get_task_meta (S fuel') false id sl).2 = Ok m ∧ stored id s = Some (Ok m) ∧ m_status m = SUCCESS) ∨
  (∃ t v, encode (get_result_meta id (encode_result r st) st tb req t) = Ok v ∧
          ∀ m, decode_result v = Ok m → (get_task_meta (S fuel') false id sl).2 = Ok m).
Proof.
  intros Hst Hkv Hf. destruct (store_result_spec _ _ _ _ _ _ _ _ _ Hst) as [H1 H2]. destruct (H2 eq_refl) as [(m & Hm & Hs)|Hw].
  - left. exists m. split_and!; [|done|done]. apply read_stored; [done|]. rewrite (stored_same _ s' sl) by done.
    destruct H1 as [[Hk _]|[Hns _]]; [by rewrite (stored_same _ s)|]. destruct Hns. by exists m.
  - right. destruct Hw as (_ & k & t & v & Hk & Hv & Hkv'). exists t, v. split; [done|]. intros m Hm. apply read_stored; [done|].
    unfold stored. rewrite Hk, Hkv, Hkv', lookup_insert_eq. simpl. by rewrite Hm.
Qed.

(** ** The cache *)

(** The metadata a task has: what is stored, or that it is pending *)
Definition seen (id : string) (s : bstate) (m : meta X R) : Prop :=
  stored id s = Some (Ok m) ∨ (stored id s = None ∧ m = pending id).

Definition coherent (s : bstate) : Prop :=
  ∀ id m, cache_get (cache s) id = Some m → m_status m = SUCCESS ∧ stored id s = Some (Ok m).

Lemma fetch_seen fuel id s s' m :
  retryable_ (Some BackendGetMetaError) fuel (get_task_meta_for id) s = (s', Ok m) → kv s' = kv s ∧ cache s' = cache s ∧ seen id s m.
Proof.
  intros Hr. set (J := λ s1, kv s1 = kv s ∧ cache s1 = cache s).
  destruct (retryable_inv J (Some BackendGetMetaError) fuel (get_task_meta_for id) s) as [H1 H2]; [|done|done|].
  { intros s1 [Hk Hc]. destruct (get_task_meta_for_spec id s1) as (? & ? & _). split; congruence. }
  rewrite Hr in H1, H2. simpl in *. destruct (H2 m eq_refl) as (s1 & [Hk _] & Hg). split; [apply H1|]. split; [apply H1|].
  destruct (get_task_meta_for_spec id s1) as (_ & _ & H3). rewrite Hg in H3. destruct (H3 m eq_refl) as (k & Hkey & Hv).
  unfold seen, stored. rewrite Hkey, <-Hk. destruct (kv s1 !! k); simpl; [left; by rewrite Hv|by right].
Qed.

Lemma fetch_same fuel id s :
  let s' := (retryable_ (Some BackendGetMetaError) fuel (get_task_meta_for id) s).1 in kv s' = kv s ∧ cache s' = cache s.
Proof.
  apply (retryable_inv (λ s1, kv s1 = kv s ∧ cache s1 = cache s)); [|done|done].
  intros s1 [Hk Hc]. destruct (get_task_meta_for_spec id s1) as (? & ? & _). split; congruence.
Qed.

Lemma coherent_same s s' : kv s' = kv s → cache s' = cache s → coherent s → coherent s'.
Proof. intros Hk Hc Hs id m. rewrite Hc, (stored_same _ s s' Hk). apply Hs. Qed.

Lemma store_coherent fuel id r st tb req : keeps coherent (store_result fuel id r st tb req).
Proof.
  intros s Hs id' m. destruct (store_result fuel id r st tb req s) as [s' res] eqn:Er. simpl.
  destruct (store_result_spec _ _ _ _ _ _ _ _ _ Er) as [H1 _].
  assert (cache s' = cache s) as -> by (by destruct H1 as [[_ ?]|[_ [? _]]]).
  intros [Hm Hst]%Hs. split; [done|]. pose proof (store_result_final fuel id' m id r st tb req Hm s Hst) as Hf. by rewrite Er in Hf.
Qed.

Lemma get_coherent fuel b id s :
  coherent s → coherent (get_task_meta fuel b id s).1 ∧ kv (get_task_meta fuel b id s).1 = kv s ∧
               ∀ m, (get_task_meta fuel b id s).2 = Ok m → seen id s m.
Proof.
  intros Hs. unfold get_task_meta, ebind, eget.
  destruct (if b then cache_get (cache s) id else None) as [m|] eqn:Ec.
  { destruct b; [|done]. simpl. destruct (Hs _ _ Ec) as [_ ?]. split_and!; [done..|]. intros m' [= <-]. by left. }
  pose proof (fetch_same fuel id s) as [Hk Hc]. pose proof (fetch_seen fuel id s) as Hf.
  destruct (retryable_ _ _ _ s) as [s1 [m|x|]]; simpl in *; [|by split_and!; [eapply coherent_same|..]..].
  destruct (Hf _ _ eq_refl) as (_ & _ & Hseen). destruct (b && bool_decide (m_status m = SUCCESS)) eqn:Eb; simpl; zbool.
  - split_and!; [|done|by intros ? [= <-]]. intros id' m' Hg. simpl in Hg. rewrite (stored_same _ s) by done.
    destruct (cache_set_sound _ _ _ _ _ Hg) as [[-> ->]|[_ Hold]]; [|apply Hs; by rewrite <-Hc].
    split; [done|]. destruct Hseen as [?|[_ ->]]; done.
  - split_and!; [by eapply coherent_same|done|by intros ? [= <-]].
Qed.

Lemma forget_spec fuel id s :
  let s' := (forget fuel id s).1 in
  cache s' = cache_pop (cache s) id ∧ ∀ id', id' ≠ id → stored id' s' = stored id' s.
Proof.
  unfold forget, ebind, emodify. set (s1 := set_cache _ s).
  apply (retryable_inv (λ s', cache s' = cache s1 ∧ ∀ id', id' ≠ id → stored id' s' = stored id' s)); [|done|done].
  intros s2 [Hc Ho]. unfold forget_, get_key_for_task, ebind, elift.
  destruct (task_key id) as [k|x|] eqn:Ek; [|done..]. unfold kv_delete, kv_write.
  assert (∀ id', id' ≠ id → stored id' (set_kv (delete k (kv s2)) s2) = stored id' s) as Hd.
  { intros id' Hne. rewrite <-Ho by done. unfold stored. destruct (task_key id') as [k'|x|] eqn:Ek'; [|done..]. simpl.
    rewrite lookup_delete_ne; [done|]. intros <-. apply Hne. by eapply Payload.get_key_for_inj. }
  destruct (fault _ _) as [[x []]|]; split; done.
Qed.

Lemma forget_coherent fuel id : keeps coherent (forget fuel id).
Proof.
  intros s Hs id' m. destruct (forget_spec fuel id s) as [-> Ho].
  intros [Hne Hold]%cache_pop_sound. rewrite Ho by done. by apply Hs.
Qed.

Lemma get_keeps_kv fuel b id s : kv (get_task_meta fuel b id s).1 = kv s.
Proof.
  unfold get_task_meta, ebind, eget. destruct (if b then _ else _); [done|].
  pose proof (fetch_same fuel id s) as [Hk _]. destruct (retryable_ _ _ _ s) as [s1 [m|x|]]; simpl in *; [|done..].
  by destruct (b && _).
Qed.

(** Operations on a backend *)
Inductive bop :=
| BStore (id : string) (r : R) (st : string) (tb : option string) (req : option (request X))
| BForget (id : string)
| BGet (use_cache : bool) (id : string).

Definition run_bop (fuel : nat) (o : bop) (s : bstate) : bstate :=
  match o with
  | BStore id r st tb req => (store_result fuel id r st tb req s).1
  | BForget id => (forget fuel id s).1
  | BGet b id => (get_task_meta fuel b id s).1
  end.

Lemma bops_coherent fuel l s : coherent s → coherent (foldl (λ s o, run_bop fuel o s) s l).
Proof.
  revert s; induction l as [|o l IH]; intros s Hs; simpl; [done|]. apply IH.
  destruct o; simpl; [by apply store_coherent|by apply forget_coherent|by apply get_coherent].
Qed.

(** The cache cannot be told from the store.  After any operations of a
    process on the backend, with any of them raising, reading the metadata of a
    task through the cache returns what the store holds (or that the task is
    pending), as reading without the cache does. *)
Theorem cached_read_equivalent fuel l s id m m' :
  coherent s →
  let s' := foldl (λ s o, run_bop fuel o s) s l in
  (get_task_meta fuel true id s').2 = Ok m →
  (get_task_meta fuel false id s').2 = Ok m' → m = m' ∧ seen id s' m.
Proof.
  intros Hs s' Hm Hm'. assert (coherent s') as Hc by (by apply bops_coherent).
  destruct (get_coherent fuel true id s' Hc) as (_ & _ & H1), (get_coherent fuel false id s' Hc) as (_ & _ & H2).
  specialize (H1 _ Hm). specialize (H2 _ Hm'). split; [|done]. destruct H1 as [?|[? ->]], H2 as [?|[? ->]]; congruence.
Qed.

(** C10: a success is final.  Once the store holds the success of a task, no
    sequence of operations that does not forget the task changes its metadata. *)
Theorem success_is_final fuel l s id m :
  stored id s = Some (Ok m) → m_status m = SUCCESS →
  Forall (λ o, match o with BForget id' => id' ≠ id | _ => True end) l →
  stored id (foldl (λ s o, run_bop fuel o s) s l) = Some (Ok m).
Proof.
  intros Hst Hm Hl. revert s Hst. induction Hl as [|o l Ho _ IH]; intros s Hst; simpl; [done|]. apply IH.
  destruct o as [id' r st tb req|id'|b id']; simpl.
  - by apply store_result_final.
  - by rewrite (proj2 (forget_spec fuel id' s)).
  - by rewrite (stored_same _ s) by apply get_keeps_kv.
Qed.

(** Reloading the result of a task that has not finished puts it into the cache;
    it is then read as unfinished for as long as the entry stays, whatever is
    stored meanwhile. *)
Lemma reload_pins_result fuel id s s' m later :
  (∀ t k m, cache_get (cache_set t k m) k = Some m) →
  reload_task_result fuel id s = (s', Ok ()) → seen id s m → cache later = cache s' →
  (get_task_meta fuel true id later).2 = Ok m.
Proof.
  intros Hset. unfold reload_task_result, get_task_meta, ebind, eget. pose proof (fetch_seen fuel id s) as Hf.
  destruct (retryable_ _ _ _ s) as [s1 [m1|x|]]; simpl; [|done..]. destruct (Hf _ _ eq_refl) as (_ & _ & Hm1).
  intros [= <-] Hm ->. simpl. rewrite Hset. simpl. f_equal. destruct Hm as [?|[? ->]], Hm1 as [?|[? ->]]; congruence.
Qed.
End Backend.

(** ** Caches *)

(** [_nulldict]: ignores what is put into it *)
#[global, program] Instance nulldict {X R} : @Cache X R () :=
  {| cache_get _ _ := None; cache_set _ _ _ := (); cache_pop _ _ := () |}.
Next Obligation. done. Qed.
Next Obligation. done. Qed.

(** A dictionary, which is what an [LRUCache] without a limit is *)
#[global, program] Instance dict_cache {X R} : @Cache X R (gmap string (meta X R)) :=
  {| cache_get t k := t !! k; cache_set t k m := <[k := m]> t; cache_pop t k := delete k t |}.
Next Obligation. intros X R t k m k' m' H. simpl in *. destruct (decide (k' = k)) as [->|Hne]; simplify_map_eq; auto. Qed.
Next Obligation. intros X R t k k' m' H. simpl in *. destruct (decide (k' = k)) as [->|Hne]; simplify_map_eq; auto. Qed.

(** ** Examples *)

Module Examples.
(** Results are texts, a text that starts with "!" is an exception; payloads are
    the metadata *)
#[local] Instance text_codec : Codec () string string (meta () string) :=
  {| is_exception r := String.prefix "!" r; none_result := ""; prepare_exception r := r; prepare_value r := r;
     exception_to_python r := Ok r; value_of r := r; encode m := Ok m; decode m := Ok m |}.
Definition ok (_ : list op) (_ : op) : option (exn * bool) := None.
(** The first write takes effect and raises *)
Definition flaky (l : list op) (o : op) : option (exn * bool) :=
  match o with OpSet _ => if existsb (λ o, match o with OpSet _ => true | _ => false end) l then None else Some (OtherExc, true) | _ => None end.
Abbreviation bst := (@bstate (meta () string) (gmap string (meta () string))).
Definition start : bst := BState ∅ ∅ [].
Definition store fault id r st (s : bst) : bst * outcome () :=
  store_result (λ n, n - 1) true (λ _, true) (Some 3%nat) 10 1000 "" false None (λ _, 0) fault 0 id r st None None s.
Definition fetch fault b id (s : bst) : bst * outcome (meta () string) :=
  get_task_meta (λ n, n - 1) true (λ _, true) (Some 3%nat) 10 1000 "" fault 0 b id s.

Lemma store_get : (fetch ok true "a" (store ok "a" "5" SUCCESS start).1).2 = Ok (Meta _ _ SUCCESS "5" None None (Some 0) None None None "a").
Proof. vm_compute. reflexivity. Qed.

Lemma store_twice : stored "" "a" (store ok "a" "!x" FAILURE (store flaky "a" "5" SUCCESS start).1).1 =
  Some (Ok (Meta () _ SUCCESS "5" None None (Some 0) None None None "a")).
Proof. vm_compute. reflexivity. Qed.

Lemma cached_read_equivalent_witness :
  ∃ m m', (fetch ok true "a" (store ok "a" "5" SUCCESS start).1).2 = Ok m ∧ (fetch ok false "a" (store ok "a" "5" SUCCESS start).1).2 = Ok m' ∧
  m = m' ∧ seen "" "a" (store ok "a" "5" SUCCESS start).1 m.
Proof.
  eexists _, _. split; [vm_compute; reflexivity|]. split; [vm_compute; reflexivity|].
  apply (cached_read_equivalent (λ n, n - 1) true (λ _, true) (Some 3%nat) 10 1000 "" false None (λ _, 0) ok 0
           [BStore "a" "5" SUCCESS None None] start "a"); [by intros id m|vm_compute; reflexivity|vm_compute; reflexivity].
Defined.

Lemma success_is_final_witness :
  stored "" "a" (store ok "a" "!x" FAILURE (store ok "a" "5" SUCCESS start).1).1 =
  Some (Ok (Meta () _ SUCCESS "5" None None (Some 0) None None None "a")).
Proof.
  apply (success_is_final (λ n, n - 1) true (λ _, true) (Some 3%nat) 10 1000 "" false None (λ _, 0) ok 0
           [BStore "a" "!x" FAILURE None None]); [vm_compute; reflexivity|reflexivity|by repeat constructor].
Defined.
End Examples.
End Backend.
