(* ===== verification/Chord.v ===== *)
(** The completion of chords counted in a key/value store:
    [BaseKeyValueStoreBackend.on_chord_part_return] of celery/backends/base.py.

    The parts of a chord return in different processes, which share the saved
    group and the counter in the store.  [on_chord_part_return] is a sequence of
    calls, each of which is atomic in the store; [phase] is a part between two
    calls, and [step] lets the parts of a chord make their calls in any order.
    The model is that of one chord, since the keys of different chords differ. *)

From S2P Require Import Prelude Effect.
From Stdlib Require Import Relations.
Local Open Scope eff_scope.
Local Open Scope Z_scope.

Module Chord.

(** Why an error is reported for the callback *)
Inductive chord_error := CannotRestore | NoLongerExists | DependencyRaised (x : exn) | CallbackError (x : exn).

Inductive ccall :=
| Restore | Incr | Join | Delay | DeleteGroup | DeleteKey | Expire
| ChordErrorFromStack (e : chord_error).

(** A call that was made, with what it raised *)
Abbreviation event := (ccall * option exn)%type.

(** Saved group (the number of its results), counter (0 if missing) and calls *)
Record cstate := CState { group : option Z; counter : Z; log : list event }.

(** The effect of a call on the shared store *)
Definition effect (c : ccall) (s : cstate) : cstate :=
  match c with
  | Incr => CState (group s) (counter s + 1) (log s)
  | DeleteGroup => CState None (counter s) (log s)
  | DeleteKey => CState (group s) 0 (log s)
  | _ => s
  end.
Definition logged (e : event) (s : cstate) : cstate := CState (group s) (counter s) (log s ++ [e]).

Section Part.
(** [chord_size] of the request, if it has one *)
Context (chord_size : option Z).

Definition size (deps : Z) : Z := default deps chord_size.

(** ** The method *)

Section Sequential.
(** Which calls raise, and whether they took effect *)
Context (fault : list event → ccall → option (exn * bool)).

Abbreviation M := (eff cstate).

Definition call {A} (c : ccall) (f : cstate → A) : M A := λ s,
  match fault (log s) c with
  | None => (logged (c, None) (effect c s), Ok (f (effect c s)))
  | Some (x, true) => (logged (c, Some x) (effect c s), Raise x)
  | Some (x, false) => (logged (c, Some x) s, Raise x)
  end.
Definition call_ (c : ccall) : M () := call c (λ _, ()).

Definition complete : M () :=
  efinally
    (etry (call_ Join)
       (λ x, if is_Exception x then call_ (ChordErrorFromStack (DependencyRaised x)) else eraise x)
       (λ _, ecatch (call_ Delay)
               (λ x, if is_Exception x then call_ (ChordErrorFromStack (CallbackError x)) else eraise x)))
    (run! call_ DeleteGroup in call_ DeleteKey).

Definition on_chord_part_return : M () :=
  etry (call Restore group)
    (λ x, if is_Exception x then call_ (ChordErrorFromStack CannotRestore) else eraise x)
    (λ deps, match deps with
             | None => call_ (ChordErrorFromStack NoLongerExists)
             | Some deps =>
                 do! val := call Incr counter in
                 if size deps <? val then eret ()
                 else if val =? size deps then complete
                 else call_ Expire
             end).
End Sequential.

(** ** Parts as processes *)

Inductive phase :=
| PRestore
| PIncr (deps : Z)
| PExpire
| PJoin
| PDelay
| PError (e : chord_error)
(** while the callback is handled, with what is raised after the clean-up *)
| PCleanError (e : chord_error)
| PDeleteGroup (r : outcome ())
| PDeleteKey (r : outcome ())
| PDone (r : outcome ()).

(** The next call of a part *)
Definition next_call (p : phase) : option ccall :=
  match p with
  | PRestore => Some Restore
  | PIncr _ => Some Incr
  | PExpire => Some Expire
  | PJoin => Some Join
  | PDelay => Some Delay
  | PError e | PCleanError e => Some (ChordErrorFromStack e)
  | PDeleteGroup _ => Some DeleteGroup
  | PDeleteKey _ => Some DeleteKey
  | PDone _ => None
  end.

(** After a call that returned, with the state it left; after one that raised *)
Definition returned (p : phase) (s : cstate) : phase :=
  match p with
  | PRestore => match group s with None => PError NoLongerExists | Some deps => PIncr deps end
  | PIncr deps =>
      if size deps <? counter s then PDone (Ok ())
      else if counter s =? size deps then PJoin
      else PExpire
  | PJoin => PDelay
  | PDelay | PCleanError _ => PDeleteGroup (Ok ())
  | PDeleteGroup r => PDeleteKey r
  | PDeleteKey r => PDone r
  | PExpire | PError _ | PDone _ => PDone (Ok ())
  end.

Definition raised (p : phase) (x : exn) : phase :=
  match p with
  | PRestore => if is_Exception x then PError CannotRestore else PDone (Raise x)
  | PJoin => if is_Exception x then PCleanError (DependencyRaised x) else PDeleteGroup (Raise x)
  | PDelay => if is_Exception x then PCleanError (CallbackError x) else PDeleteGroup (Raise x)
  | PCleanError _ => PDeleteGroup (Raise x)
  | _ => PDone (Raise x)
  end.

(** One call of one part *)
Definition part_step (o : option (exn * bool)) (p : phase) (s : cstate) : option (phase * cstate) :=
  c ← next_call p;
  Some match o with
       | None => (returned p (effect c s), logged (c, None) (effect c s))
       | Some (x, true) => (raised p x, logged (c, Some x) (effect c s))
       | Some (x, false) => (raised p x, logged (c, Some x) s)
       end.

(** Running a part alone is the method. *)
Fixpoint run_part (fault : list event → ccall → option (exn * bool)) (fuel : nat) (p : phase) (s : cstate) : cstate * outcome () :=
  match fuel, next_call p with
  | S fuel, Some c =>
      match part_step (fault (log s) c) p s with
      | Some (p', s') => run_part fault fuel p' s'
      | None => (s, Diverge)
      end
  | _, None => match p with PDone r => (s, r) | _ => (s, Diverge) end
  | O, _ => (s, Diverge)
  end.

(** What the method still does from a phase *)
Definition rest (fault : list event → ccall → option (exn * bool)) (p : phase) : eff cstate () :=
  let clean := run! call_ fault DeleteGroup in call_ fault DeleteKey in
  match p with
  | PRestore => on_chord_part_return fault
  | PIncr deps =>
      do! val := call fault Incr counter in
      if size deps <? val then eret () else if val =? size deps then complete fault else call_ fault Expire
  | PExpire => call_ fault Expire
  | PJoin => complete fault
  | PDelay =>
      efinally (ecatch (call_ fault Delay)
                  (λ x, if is_Exception x then call_ fault (ChordErrorFromStack (CallbackError x)) else eraise x)) clean
  | PError e => call_ fault (ChordErrorFromStack e)
  | PCleanError e => efinally (call_ fault (ChordErrorFromStack e)) clean
  | PDeleteGroup r => efinally (elift r) clean
  | PDeleteKey r => efinally (elift r) (call_ fault DeleteKey)
  | PDone r => elift r
  end.

Definition result_of {A} (o : option (exn * bool)) (c : ccall) (f : cstate → A) (s : cstate) : cstate * outcome A :=
  match o with
  | None => (logged (c, None) (effect c s), Ok (f (effect c s)))
  | Some (x, true) => (logged (c, Some x) (effect c s), Raise x)
  | Some (x, false) => (logged (c, Some x) s, Raise x)
  end.

Lemma rest_step fault p s c :
  next_call p = Some c →
  ∃ p' s', part_step (fault (log s) c) p s = Some (p', s') ∧ rest fault p s = rest fault p' s'.
Proof.
  intros Hc. assert (∀ A (f : cstate → A), call fault c f s = result_of (fault (log s) c) c f s) as Hcall by done.
  unfold part_step. rewrite Hc. destruct (fault (log s) c) as [[x []]|]; simpl in *; eexists _, _; (split; [reflexivity|]);
    destruct p; simplify_eq/=; unfold on_chord_part_return, complete, call_, etry, efinally, ecatch, ebind, elift;
    rewrite ?Hcall; simpl; first [done|destruct (is_Exception x); done|destruct (group s); done|
      destruct (size deps <? counter s + 1); [done|destruct (counter s + 1 =? size deps); done]].
Qed.

(** Each part makes at most six calls. *)
Definition steps_left (p : phase) : nat :=
  match p with
  | PRestore => 7 | PIncr _ => 6 | PJoin => 5 | PDelay => 4 | PCleanError _ => 3 | PDeleteGroup _ => 2
  | PDeleteKey _ | PExpire | PError _ => 1 | PDone _ => 0
  end.

Lemma part_step_decreases o p s p' s' : part_step o p s = Some (p', s') → (steps_left p' < steps_left p)%nat.
Proof.
  unfold part_step. destruct (next_call p) as [c|] eqn:Ec; [|done]. simpl. intros [= Hp].
  destruct o as [[x []]|]; injection Hp as <- _; destruct p; simplify_eq/=; repeat case_match; simpl; lia.
Qed.

(** The phases, run one after the other by a single process, are the method. *)
Lemma run_part_rest fault fuel p s : (steps_left p <= fuel)%nat → run_part fault fuel p s = rest fault p s.
Proof.
  revert p s. induction fuel as [|fuel IH]; intros p s Hf.
  { destruct p; simpl in Hf; try lia. done. }
  simpl. destruct (next_call p) as [c|] eqn:Ec; [|by destruct p].
  destruct (rest_step fault p s c Ec) as (p' & s' & Hst & ->). rewrite Hst. apply IH.
  apply part_step_decreases in Hst. lia.
Qed.

(** The phases of a part are the method: run without interruption, with any
    calls raising, they make the same calls, leave the same state and have the same
    outcome as [on_chord_part_return]. *)
Theorem part_is_method fault s : run_part fault 7 PRestore s = on_chord_part_return fault s.
Proof. by apply run_part_rest. Qed.

(** ** All parts of a chord *)

Record config := Config { parts : list phase; shared : cstate }.

(** One part makes its next call; [can_fail] says which exceptions it may raise. *)
Inductive step (can_fail : ccall → exn → bool) : config → config → Prop :=
| step_part ps s i p o p' s' c :
    ps !! i = Some p → next_call p = Some c →
    (∀ x b, o = Some (x, b) → can_fail c x = true) →
    part_step o p s = Some (p', s') →
    step can_fail (Config ps s) (Config (<[i := p']> ps) s').

Definition start (n : nat) : config := Config (replicate n PRestore) (CState (Some (Z.of_nat n)) 0 []).
Definition is_done (p : phase) : bool := match p with PDone _ => true | _ => false end.

(** Parts that have not counted themselves yet, and the part that joins *)
Definition is_pre (p : phase) : bool := match p with PRestore | PIncr _ => true | _ => false end.
Definition is_join (p : phase) : bool := match p with PJoin => true | _ => false end.
Definition is_owner (p : phase) : bool :=
  match p with PDelay | PCleanError _ | PDeleteGroup _ | PDeleteKey _ => true | _ => false end.
Definition is_Join (e : event) : bool := match e.1 with Join => true | _ => false end.
Definition is_Delay (e : event) : bool := match e.1 with Delay => true | _ => false end.

Section Runs.
Context (n : nat) (Hsize : size (Z.of_nat n) = Z.of_nat n).

(** Whatever fails: before the join at most [n] parts count themselves, and the one
    that counts the last of them joins. *)
Definition sound (c : config) : Prop :=
  let ps := parts c in let s := shared c in
  (∀ g, group s = Some g → g = Z.of_nat n) ∧ (∀ d, PIncr d ∈ ps → d = Z.of_nat n) ∧
  ((cnt is_Join (log s) = 0%nat ∧ cnt is_Delay (log s) = 0%nat ∧ 0 <= counter s ∧ counter s + Z.of_nat (cnt is_pre ps) <= Z.of_nat n ∧
    cnt is_owner ps = 0%nat ∧
    (cnt is_join ps = 0%nat ∨ (cnt is_join ps = 1%nat ∧ counter s = Z.of_nat n))) ∨
   (cnt is_Join (log s) = 1%nat ∧ cnt is_pre ps = 0%nat ∧ cnt is_join ps = 0%nat ∧
    (cnt is_Delay (log s) + cnt (λ p, match p with PDelay => true | _ => false end) ps <= 1)%nat)).

Lemma start_sound : sound (start n).
Proof.
  unfold sound, start. simpl. split_and!; [by intros g [= <-]|intros d Hd; apply elem_of_replicate in Hd as [? _]; done|].
  left. rewrite !cnt_replicate. simpl. split_and!; try done; lia.
Qed.

Definition is_delay (p : phase) : bool := match p with PDelay => true | _ => false end.

(** The numbers a step changes *)
Lemma step_counts ps i (p p' : phase) s (c : event) :
  ps !! i = Some p →
  (cnt is_pre (<[i:=p']> ps) + Nat.b2n (is_pre p) = cnt is_pre ps + Nat.b2n (is_pre p') ∧
   cnt is_join (<[i:=p']> ps) + Nat.b2n (is_join p) = cnt is_join ps + Nat.b2n (is_join p') ∧
   cnt is_owner (<[i:=p']> ps) + Nat.b2n (is_owner p) = cnt is_owner ps + Nat.b2n (is_owner p') ∧
   cnt is_delay (<[i:=p']> ps) + Nat.b2n (is_delay p) = cnt is_delay ps + Nat.b2n (is_delay p') ∧
   cnt is_Join (log (logged c s)) = cnt is_Join (log s) + Nat.b2n (is_Join c) ∧
   cnt is_Delay (log (logged c s)) = cnt is_Delay (log s) + Nat.b2n (is_Delay c))%nat.
Proof. intros Hp. split_and!; try by apply cnt_insert. all: simpl; rewrite cnt_app, cnt_cons; unfold cnt; simpl; lia. Qed.

Lemma step_sound can_fail c c' : sound c → step can_fail c c' → sound c'.
Proof.
  intros Hs Hst. destruct Hst as [ps s i p o p' s' c Hp Hc _ Hps]. unfold part_step in Hps. rewrite Hc in Hps. simpl in Hps.
  destruct Hs as (Hg & Hi & Hs). simpl in Hg, Hi, Hs. assert (p ∈ ps) as Hin by (by eapply list_elem_of_lookup_2).
  pose proof (step_counts ps i p p' (match o with Some (_, false) => s | _ => effect c s end) (c, fst <$> o) Hp) as (H1 & H2 & H3 & H4 & H5 & H6).
  assert (∀ d, PIncr d = p → d = Z.of_nat n) as Hd by (intros d <-; by apply Hi).
  assert (∀ d, PIncr d ∈ <[i:=p']> ps → PIncr d = p' ∨ d = Z.of_nat n) as Hi'.
  { intros d [->|?]%elem_of_insert_or; [by left|right; by apply Hi]. }
  unfold sound. simpl. split_and!.
  - intros g. destruct o as [[x []]|]; injection Hps as <- <-; destruct p; simplify_eq/=; auto; done.
  - intros d [Hd'| ->]%Hi'; [|done].
    destruct o as [[x []]|]; injection Hps as <- <-; destruct p; simplify_eq/=; repeat case_match; simplify_eq/=; auto.
  - destruct Hs as [(J0 & D0 & C0 & Cp & Ow & Jn)|(J1 & P1 & N1 & DL)].
    + pose proof (cnt_zero _ _ _ Ow Hin) as Hno. pose proof (cnt_le is_delay is_owner ps ltac:(by intros [])) as Hdo.
      destruct o as [[x []]|]; injection Hps as <- <-; destruct p as [|d| | | | | | | |]; simplify_eq/=;
        try (rewrite (Hd d eq_refl), Hsize in *; destruct (Z.of_nat n <? counter s + 1) eqn:El; [|destruct (counter s + 1 =? Z.of_nat n) eqn:Eq]; zbool);
        try (destruct (is_Exception x)); try (destruct (group s)); simpl in *;
        solve [left; split_and!; lia|right; fold is_delay; split_and!; lia].
    + pose proof (cnt_zero _ _ _ P1 Hin) as Hnp. pose proof (cnt_zero _ _ _ N1 Hin) as Hnj. fold is_delay in DL.
      destruct o as [[x []]|]; injection Hps as <- <-; destruct p; simplify_eq/=;
        try (destruct (is_Exception x)); simpl in *; right; fold is_delay; split_and!; lia.
Qed.

(** ** Nothing is lost when only the join or the callback can fail *)

Definition benign (c : ccall) (x : exn) : bool := match c with Join | Delay => is_Exception x | _ => false end.

(** The calls that decide about the callback: waiting for the results, applying
    it, reporting an error for it *)
Definition decisive (e : event) : bool :=
  match e.1 with Join | Delay | ChordErrorFromStack _ => true | _ => false end.
Definition decision (l : list event) : list event := base.filter (λ e, decisive e = true) l.

(** The decisive calls of a chord that is complete: the results were joined and the
    callback was applied; or joining raised, and that error was reported; or
    applying the callback raised, and that error was reported *)
Inductive settling : list event → Prop :=
| applied : settling [(Join, None); (Delay, None)]
| part_failed x : settling [(Join, Some x); (ChordErrorFromStack (DependencyRaised x), None)]
| callback_failed x : settling [(Join, None); (Delay, Some x); (ChordErrorFromStack (CallbackError x), None)].
Definition settled (l : list event) : Prop := settling (decision l).

Lemma decision_snoc l e : decision (l ++ [e]) = decision l ++ if decisive e then [e] else [].
Proof. unfold decision. rewrite filter_app. simpl. rewrite filter_cons, filter_nil. by destruct (decisive e). Qed.

(** What is known of the part that completes the chord *)
Definition owner_ok (s : cstate) (p : phase) : Prop :=
  match p with
  | PDelay => decision (log s) = [(Join, None)]
  | PCleanError e =>
      ∃ x, e = DependencyRaised x ∧ decision (log s) = [(Join, Some x)] ∨
           e = CallbackError x ∧ decision (log s) = [(Join, None); (Delay, Some x)]
  | PDeleteGroup r => settled (log s) ∧ r = Ok ()
  | PDeleteKey r => settled (log s) ∧ group s = None ∧ r = Ok ()
  | _ => True
  end.

Definition part_ok (p : phase) : Prop :=
  match p with PDone r => r = Ok () | PError _ => False | PIncr d => d = Z.of_nat n | _ => True end.

Definition live (c : config) : Prop :=
  let ps := parts c in let s := shared c in
  (∀ p, p ∈ ps → part_ok p) ∧
  ((decision (log s) = [] ∧ group s = Some (Z.of_nat n) ∧ 0 <= counter s ∧ counter s + Z.of_nat (cnt is_pre ps) = Z.of_nat n ∧
    cnt is_owner ps = 0%nat ∧ cnt is_join ps = Nat.b2n (counter s =? Z.of_nat n)) ∨
   (cnt is_pre ps = 0%nat ∧ cnt is_join ps = 0%nat ∧
    ((cnt is_owner ps = 1%nat ∧ ∀ p, p ∈ ps → owner_ok s p) ∨
     (cnt is_owner ps = 0%nat ∧ settled (log s) ∧ group s = None ∧ counter s = 0)))).

Lemma elem_of_insert_idx {A} (l : list A) i x y : y ∈ <[i := x]> l → y = x ∨ ∃ j, j ≠ i ∧ l !! j = Some y.
Proof.
  intros [j Hj]%list_elem_of_lookup. destruct (decide (i = j)) as [->|Hne].
  - apply list_lookup_insert_Some in Hj as [(_ & -> & _)|[? _]]; [by left|done].
  - rewrite list_lookup_insert_ne in Hj by done. right. by exists j.
Qed.

Lemma cnt_unique {A} (f : A → bool) l i j x y :
  cnt f l = 1%nat → l !! i = Some x → l !! j = Some y → f x = true → f y = true → i = j.
Proof.
  revert i j; induction l as [|z l IH]; intros [|i] [|j]; simpl; rewrite ?cnt_cons; intros Hc Hi Hj Hx Hy; simplify_eq; try done.
  - exfalso. rewrite Hx in Hc. simpl in Hc. pose proof (cnt_zero f l y ltac:(lia) (list_elem_of_lookup_2 _ _ _ Hj)). congruence.
  - exfalso. rewrite Hy in Hc. simpl in Hc. pose proof (cnt_zero f l x ltac:(lia) (list_elem_of_lookup_2 _ _ _ Hi)). congruence.
  - f_equal. apply IH; try done. pose proof (cnt_zero f l x) as Hz. destruct (f z); simpl in Hc; [|done].
    rewrite Hz in Hx; [done|lia|by eapply list_elem_of_lookup_2].
Qed.

Lemma decision_same l e : decisive e = false → decision (l ++ [e]) = decision l.
Proof. intros He. by rewrite decision_snoc, He, app_nil_r. Qed.

Lemma settled_mono l e : decisive e = false → settled l → settled (l ++ [e]).
Proof. intros He. unfold settled. by rewrite decision_same. Qed.

Lemma start_live : (0 < n)%nat → live (start n).
Proof.
  intros Hn. unfold live, start. cbn [parts shared group counter log]. split; [by intros p [-> _]%elem_of_replicate|].
  left. rewrite !cnt_replicate, (proj2 (Z.eqb_neq 0 (Z.of_nat n))) by lia. simpl. split_and!; try done; lia.
Qed.

(** The steps that can be taken *)
Lemma benign_step o p s c p' s' :
  next_call p = Some c → (∀ x b, o = Some (x, b) → benign c x = true) → part_step o p s = Some (p', s') →
  (o = None ∧ p' = returned p (effect c s) ∧ s' = logged (c, None) (effect c s)) ∨
  (∃ x, p = PJoin ∧ p' = PCleanError (DependencyRaised x) ∧ s' = logged (c, Some x) s) ∨
  (∃ x, p = PDelay ∧ p' = PCleanError (CallbackError x) ∧ s' = logged (c, Some x) s).
Proof.
  intros Hc Hb. unfold part_step. rewrite Hc. simpl. destruct o as [[x b]|]; [|by left; simplify_eq].
  specialize (Hb x b eq_refl). intros Hp. right. destruct p, b; simplify_eq/=; rewrite Hb; [left|left|right|right]; by exists x.
Qed.

Lemma owner_ok_other s p : is_owner p = false → owner_ok s p.
Proof. by destruct p. Qed.

Lemma owner_ok_log s e p : decisive e = false → owner_ok s p → owner_ok (logged e s) p.
Proof. intros He. destruct p; simpl; unfold settled; by rewrite ?decision_same. Qed.

(** If the part that completes the chord steps, the others are not involved. *)
Lemma owner_unique ps i p p' q :
  cnt is_owner ps = 1%nat → ps !! i = Some p → is_owner p = true → q ∈ <[i := p']> ps → q = p' ∨ is_owner q = false.
Proof.
  intros Hc Hp Ho [->|(j & Hne & Hq)]%elem_of_insert_idx; [by left|right].
  destruct (is_owner q) eqn:E; [|done]. exfalso. apply Hne. by eapply cnt_unique.
Qed.

Lemma insert_all {A} (Q : A → Prop) (l : list A) i x : (∀ y, y ∈ l → Q y) → Q x → ∀ y, y ∈ <[i := x]> l → Q y.
Proof. intros Hl Hx y [->|?]%elem_of_insert_or; auto. Qed.

(** Before the join *)
Lemma counting_step ps s i p c p' s' o :
  ps !! i = Some p → next_call p = Some c → (∀ x b, o = Some (x, b) → benign c x = true) → part_step o p s = Some (p', s') →
  (∀ p, p ∈ ps → part_ok p) →
  decision (log s) = [] → group s = Some (Z.of_nat n) → 0 <= counter s → counter s + Z.of_nat (cnt is_pre ps) = Z.of_nat n →
  cnt is_owner ps = 0%nat → cnt is_join ps = Nat.b2n (counter s =? Z.of_nat n) → live (Config (<[i := p']> ps) s').
Proof.
  intros Hp Hc Hb Hps Hall J0 G C0 Cp Ow Jn. assert (p ∈ ps) as Hin by (by eapply list_elem_of_lookup_2).
  pose proof (Hall p Hin) as Hpp. pose proof (cnt_zero _ _ _ Ow Hin) as Hno.
  pose proof (step_counts ps i p p' s (c, None) Hp) as (H1 & H2 & H3 & _ & _ & _).
  assert (∀ q, q ∈ ps → owner_ok s' q) as Hoth by (intros q Hq; by eapply owner_ok_other, cnt_zero).
  unfold live. cbn [parts shared].
  destruct (benign_step o p s c p' s' Hc Hb Hps) as [(-> & -> & ->)|[(x & -> & -> & ->)|(x & -> & -> & ->)]]; [| |done].
  - destruct p as [|d| | | | | | | |]; simplify_eq/=.
    + rewrite G in *. simpl in *. split; [by apply insert_all|]. left. split_and!; first [by rewrite decision_same|done|lia].
    + rewrite Hsize in *.
      destruct (Z.of_nat n <? counter s + 1) eqn:El; zbool; simpl in *; [lia|].
      destruct (counter s + 1 =? Z.of_nat n) eqn:Ee; simpl in *; (split; [by apply insert_all|]); left; zbool; split_and!; try first [by rewrite decision_same|done|lia].
      * rewrite (proj2 (Z.eqb_neq (counter s) (Z.of_nat n))) in Jn by lia. simpl in Jn. lia.
      * rewrite (proj2 (Z.eqb_neq (counter s) (Z.of_nat n))) in Jn by lia. simpl in Jn. lia.
    + split; [by apply insert_all|]. left. split_and!; first [by rewrite decision_same|done|lia].
    + split; [by apply insert_all|]. right. destruct (counter s =? Z.of_nat n) eqn:Ee; zbool; simpl in Jn; [|lia].
      split_and!; try lia. left. split; [lia|]. apply insert_all; [done|]. simpl. by rewrite decision_snoc, J0.
    + done.
  - simplify_eq/=. split; [by apply insert_all|]. right. simpl in *. destruct (counter s =? Z.of_nat n) eqn:Ee; zbool; simpl in Jn; [|lia].
    split_and!; try lia. left. split; [lia|]. apply insert_all; [done|]. exists x. left. split; [done|].
    simpl. by rewrite decision_snoc, J0.
Qed.

(** After the join *)
Lemma completing_step ps s i p c p' s' o :
  ps !! i = Some p → next_call p = Some c → (∀ x b, o = Some (x, b) → benign c x = true) → part_step o p s = Some (p', s') →
  (∀ p, p ∈ ps → part_ok p) →
  cnt is_pre ps = 0%nat → cnt is_join ps = 0%nat →
  (cnt is_owner ps = 1%nat ∧ ∀ p, p ∈ ps → owner_ok s p) ∨
    (cnt is_owner ps = 0%nat ∧ settled (log s) ∧ group s = None ∧ counter s = 0) →
  live (Config (<[i := p']> ps) s').
Proof.
  intros Hp Hc Hb Hps Hall P1 N1 Hs. assert (p ∈ ps) as Hin by (by eapply list_elem_of_lookup_2).
  pose proof (Hall p Hin) as Hpp. pose proof (cnt_zero _ _ _ P1 Hin) as Hnp. pose proof (cnt_zero _ _ _ N1 Hin) as Hnj.
  pose proof (step_counts ps i p p' s (c, None) Hp) as (H1 & H2 & H3 & _ & _ & _).
  unfold live. cbn [parts shared]. destruct Hs as [[Ow Hok]|(Ow & Hset & Hg & Hcn)].
  - pose proof (Hok p Hin) as Hpok.
    assert (is_owner p = true → ∀ s', owner_ok s' p' → ∀ q, q ∈ <[i:=p']> ps → owner_ok s' q) as Hown.
    { intros Ho s1 Hp' q Hq. destruct (owner_unique _ _ _ _ _ Ow Hp Ho Hq) as [->|?]; [done|by apply owner_ok_other]. }
    destruct (benign_step o p s c p' s' Hc Hb Hps) as [(-> & -> & ->)|[(x & -> & -> & ->)|(x & -> & -> & ->)]]; [|done|].
    + destruct p as [| | | | |e|e|r|r|r]; simplify_eq/=;
        (split; [apply insert_all; [done|]; first [done|by destruct Hpok as (? & ? & ?)]|]); right; split_and!; try lia.
      * left. split; [lia|]. apply insert_all; [|done]. intros q Hq. by apply owner_ok_log, Hok.
      * left. split; [lia|]. apply Hown; [done|]. simpl. split; [|done]. unfold settled. rewrite decision_snoc, Hpok. constructor.
      * left. split; [lia|]. apply Hown; [done|]. simpl. split; [|done]. unfold settled. rewrite decision_snoc.
        destruct Hpok as (x & [[-> ->]|[-> ->]]); constructor.
      * left. split; [lia|]. apply Hown; [done|]. simpl. destruct Hpok. split_and!; [by apply settled_mono|done|done].
      * right. destruct Hpok as (? & ? & ?). split_and!; [lia|by apply settled_mono|done|done].
    + simplify_eq/=. split; [by apply insert_all|]. right. split_and!; try lia. left. split; [lia|]. apply Hown; [done|].
      exists x. right. split; [done|]. simpl. by rewrite decision_snoc, Hpok.
  - pose proof (cnt_zero _ _ _ Ow Hin) as Hno.
    destruct (benign_step o p s c p' s' Hc Hb Hps) as [(-> & -> & ->)|[(x & -> & -> & ->)|(x & -> & -> & ->)]]; [|done|done].
    destruct p as [| | | | |e|e|r|r|r]; simplify_eq/=; try done. split; [by apply insert_all|]. right. split_and!; try lia.
    right. split_and!; [lia|by apply settled_mono|done|done].
Qed.

Lemma step_live c c' : live c → step benign c c' → live c'.
Proof.
  intros [Hall Hs] Hst. destruct Hst as [ps s i p o p' s' c Hp Hc Hb Hps]. cbn [parts shared] in *.
  destruct Hs as [(? & ? & ? & ? & ? & ?)|(? & ? & ?)]; [by eapply counting_step|by eapply completing_step].
Qed.

(** ** Every run ends *)

Definition work (c : config) : nat := sum_list_with steps_left (parts c).

Lemma work_insert ps i p p' : ps !! i = Some p → (sum_list_with steps_left (<[i:=p']> ps) + steps_left p = sum_list_with steps_left ps + steps_left p')%nat.
Proof. revert i; induction ps as [|q ps IH]; intros [|i] Hi; simplify_eq/=; [lia|]. specialize (IH i Hi). lia. Qed.

Lemma step_work can_fail c c' : step can_fail c c' → (work c' < work c)%nat.
Proof.
  intros [ps s i p o p' s' d Hp Hc Hb Hps]. unfold work. simpl.
  pose proof (work_insert ps i p p' Hp). apply part_step_decreases in Hps. lia.
Qed.

Definition finished (c : config) : Prop := ∀ p, p ∈ parts c → is_done p = true.

Lemma step_or_finished can_fail c : finished c ∨ ∃ c', step can_fail c c'.
Proof.
  destruct c as [ps s]. destruct (decide (Forall (λ p, is_done p = true) ps)) as [Hd|Hd].
  - left. rewrite Forall_forall in Hd. intros p Hp. by apply Hd.
  - right. apply not_Forall_Exists in Hd; [|apply _]. apply Exists_exists in Hd as (p & Hin & Hnd).
    apply list_elem_of_lookup in Hin as [i Hi]. destruct (next_call p) as [c|] eqn:Ec; [|by destruct p; simpl in *].
    eexists. eapply (step_part can_fail ps s i p None); [done|done|done|]. unfold part_step. rewrite Ec. reflexivity.
Qed.

Lemma steps_inv (P : config → Prop) can_fail c c' :
  (∀ c c', P c → step can_fail c c' → P c') → P c → rtc (step can_fail) c c' → P c'.
Proof. intros HP Hc Hr. induction Hr as [|c c1 c2 Hst _ IH]; [done|]. apply IH. by eapply HP. Qed.

(** C12: the callback of a chord is applied at most once.  For the parts of a chord
    of their number, whose processes make their calls in any order, any of which
    may raise with or without effect, at most one part joins the results and at
    most one call applies the callback. *)
Theorem chord_callback_at_most_once can_fail c :
  rtc (step can_fail) (start n) c →
  (cnt is_Join (log (shared c)) <= 1)%nat ∧ (cnt is_Delay (log (shared c)) <= 1)%nat.
Proof.
  intros Hr. assert (sound c) as (_ & _ & Hs).
  { eapply (steps_inv sound); [apply step_sound|apply start_sound|done]. }
  destruct Hs as [(? & ? & _)|(? & _ & _ & ?)]; lia.
Qed.

(** C13: a chord completes.  If nothing but the join or the callback raises an
    error, every run of its parts ends after a bounded number of calls, from every
    reachable state the run can go on until all parts have returned, and then the
    group and the counter are gone and, of the calls that decide about the callback,
    exactly these were made: the results were joined and the callback was applied,
    once each and without an error; or joining raised, and that error was reported
    once as the error of a dependency; or applying the callback raised, and that
    error was reported once as the error of the callback. *)
Theorem chord_completes c :
  (0 < n)%nat → rtc (step benign) (start n) c →
  (∀ k c', nsteps (step benign) k c c' → (k <= work c)%nat) ∧
  (∃ c', rtc (step benign) c c' ∧ finished c') ∧
  (finished c → settled (log (shared c)) ∧ group (shared c) = None ∧ counter (shared c) = 0 ∧
                ∀ p, p ∈ parts c → p = PDone (Ok ())).
Proof.
  intros Hn Hr. assert (live c) as Hl by (eapply (steps_inv live); [apply step_live|by apply start_live|done]).
  split_and!.
  - intros k. clear Hr Hl. revert c. induction k as [|k IH]; intros c c' Hk; [lia|].
    inversion Hk as [|? ? c1 ? Hst Hk']; subst. apply step_work in Hst. specialize (IH _ _ Hk'). lia.
  - clear Hr Hl. induction c as [c IH] using (induction_ltof1 _ work). unfold ltof in IH.
    destruct (step_or_finished benign c) as [Hf|[c1 Hst]]; [by exists c|].
    destruct (IH c1 (step_work _ _ _ Hst)) as (c2 & H2 & ?). exists c2. split; [by eapply rtc_l|done].
  - intros Hf. destruct Hl as [Hall Hs].
    assert (∀ f, (∀ p, is_done p = true → f p = false) → cnt f (parts c) = 0%nat) as Hz.
    { intros f Hfd. enough (∀ l, (∀ p, p ∈ l → is_done p = true) → cnt f l = 0%nat) by auto.
      induction l as [|p l IH]; intros Hd; [done|]. rewrite cnt_cons, IH, Hfd by (intros; apply Hd; set_solver). done. }
    rewrite !Hz in Hs by (by intros []). destruct Hs as [(J0 & _ & _ & Cp & _ & Jn)|(_ & _ & [[? _]|(_ & ? & ? & ?)])].
    + rewrite (proj2 (Z.eqb_eq _ _)) in Jn by lia. done.
    + done.
    + split_and!; try done. intros p Hp. specialize (Hall p Hp). specialize (Hf p Hp). destruct p; try done. simpl in Hall. by subst.
Qed.
End Runs.

(** ** Schedules *)

(** The part [i] makes its next call, which returns. *)
Definition schedule_step (c : config) (i : nat) : option config :=
  p ← parts c !! i; '(p', s') ← part_step None p (shared c); Some (Config (<[i := p']> (parts c)) s').
Fixpoint schedule (l : list nat) (c : config) : option config :=
  match l with [] => Some c | i :: l => c' ← schedule_step c i; schedule l c' end.

Lemma schedule_steps can_fail l c c' : schedule l c = Some c' → rtc (step can_fail) c c'.
Proof.
  revert c; induction l as [|i l IH]; intros c; simpl; [by intros [= <-]|].
  destruct (schedule_step c i) as [c1|] eqn:E; [|done]. simpl. intros Hl. apply (rtc_l _ _ c1); [|by apply IH].
  unfold schedule_step in E. destruct c as [ps s]. simpl in E. destruct (ps !! i) as [p|] eqn:Ep; [|done]. simpl in E.
  destruct (next_call p) as [d|] eqn:Ed; [|unfold part_step in E; by rewrite Ed in E].
  destruct (part_step None p s) as [[p' s']|] eqn:Es; [|done]. simplify_eq/=. by eapply (step_part can_fail ps s i p None).
Qed.
End Part.

(** A part that returns after the chord is complete (a task that is executed
    twice) reports an error for the callback. *)
Lemma late_part_reports size_ s :
  group s = None → (on_chord_part_return size_ (λ _ _, None) s).1 = logged (ChordErrorFromStack NoLongerExists, None) (logged (Restore, None) s).
Proof. intros Hg. unfold on_chord_part_return, etry, call. simpl. by rewrite Hg. Qed.

Module Examples.
(** Two parts; the second restores the group before the first has counted. *)
Definition order : list nat := [0; 1; 1; 0; 1; 0; 0; 0; 0]%nat.
Definition final : config :=
  Config [PDone (Ok ()); PDone (Ok ())] (CState None 0 (map (λ c, (c, None)) [Restore; Restore; Incr; Incr; Expire; Join; Delay; DeleteGroup; DeleteKey])).

Lemma order_final : schedule (Some 2) order (start 2) = Some final.
Proof. vm_compute. reflexivity. Qed.

Lemma chord_callback_at_most_once_witness :
  (cnt is_Join (log (shared final)) <= 1)%nat ∧ (cnt is_Delay (log (shared final)) <= 1)%nat.
Proof.
  apply (chord_callback_at_most_once (Some 2) 2 eq_refl benign). apply (schedule_steps _ _ order). vm_compute. reflexivity.
Defined.

Lemma chord_completes_witness :
  settled (log (shared final)) ∧ group (shared final) = None ∧ counter (shared final) = 0 ∧
  ∀ p, p ∈ parts final → p = PDone (Ok ()).
Proof.
  apply (chord_completes (Some 2) 2 eq_refl final).
  - apply Nat.lt_0_succ.
  - apply (schedule_steps _ _ order). vm_compute. reflexivity.
  - intros p Hp. simpl in Hp. by set_unfold in Hp; destruct Hp as [->|[->|[]]].
Defined.
End Examples.
End Chord.
