(* ===== verification/Mark.v ===== *)
(** Marking tasks as done, failed or revoked, celery/backends/base.py: what is
    stored, the parts of chords and the rest of a chain that are told, errbacks,
    and the errors reported for the callback of a chord.

    Each operation is a sequence of calls (to [store_result], to
    [on_chord_part_return], to errbacks, ...), which Backend.v and Chord.v model;
    [run] gives their outcomes. *)

From S2P Require Import Prelude Effect States.
Import States.
Local Open Scope eff_scope.

Module Mark.

(** ** Requests *)

(** How an errback is called: directly, as a task, or unknown to this worker *)
Inductive errback_kind := NewStyle | OldStyle | Unregistered.
Record errback := Errback { eb_name : string; eb_kind : errback_kind }.

(** An element of a chain: the identifier in its options, whether it is a member
    of a chord, and, if it is a chord itself, the body *)
Inductive elem := Elem (id : option string) (in_chord : bool) (chord_body : option elem).
Definition elem_id (e : elem) : option string := let 'Elem id _ _ := e in id.
Definition in_chord (e : elem) : bool := let 'Elem _ c _ := e in c.
Definition chord_body (e : elem) : option elem := let 'Elem _ _ b := e in b.

Record request := Req {
  rq_id : string;
  rq_has_chord : bool;
  rq_ignore_result : bool;
  rq_chain : list elem;
  rq_errbacks : list errback;
  rq_is_eager : bool;
}.

Inductive mcall :=
| StoreResult (id : string) (state : string)
| ChordPart (e : option string) (state : string)
| CallErrback (name : string)
| ApplyErrbacks (names : list string) (eager : bool)
| Freeze
| Revoke.

Section Mark.
Context (task_always_eager : bool).
Context (run : list mcall → mcall → outcome ()).

Abbreviation M := (eff (list mcall)).

Definition call (c : mcall) : M () := λ s, (s ++ [c], run s c).

(** ** Errbacks *)

Definition is_new (e : errback) : bool := match eb_kind e with NewStyle => true | _ => false end.

(** [except Exception: pass] *)
Definition swallow (c : M ()) : M () := ecatch c (λ x, if is_Exception x then eret () else eraise x).

Definition call_task_errbacks (errbacks : list errback) (eager : bool) : M () :=
  run! eiter (λ e, if is_new e then swallow (call (CallErrback (eb_name e))) else eret ()) errbacks in
  match filter (λ e, is_new e = false) errbacks with
  | [] => eret ()
  | old => call (ApplyErrbacks (eb_name <$> old) (task_always_eager || eager))
  end.

(** ** Tasks *)

Definition mark_as_done (id : string) (req : option request) (store_result : bool) (state : string) : M () :=
  run! ewhen (store_result && match req with Some r => negb (rq_ignore_result r) | None => true end) (call (StoreResult id state)) in
  match req with
  | Some r => ewhen (rq_has_chord r) (call (ChordPart (Some (rq_id r)) state))
  | None => eret ()
  end.

Definition mark_as_revoked (id : string) (req : option request) (store_result : bool) (state : string) : M () :=
  run! ewhen store_result (call (StoreResult id state)) in
  match req with
  | Some r => ewhen (rq_has_chord r) (call (ChordPart (Some (rq_id r)) state))
  | None => eret ()
  end.

(** One element of the chain *)
Definition fail_elem (store_result : bool) (state : string) (e : elem) : M () :=
  run! match elem_id e with
       | Some id => ewhen (store_result && bool_decide (state ∈ PROPAGATE_STATES)) (call (StoreResult id state))
       | None => eret ()
       end in
  ewhen (in_chord e) (call (ChordPart (elem_id e) state)).

(** The loop over the deque of elements; bodies of chords are appended to it *)
Fixpoint fail_chain (fuel : nat) (store_result : bool) (state : string) (elems : list elem) : M () :=
  match elems with
  | [] => eret ()
  | e :: elems =>
      match fuel with
      | O => elift Diverge
      | S fuel =>
          run! fail_elem store_result state e in
          fail_chain fuel store_result state (elems ++ option_list (chord_body e))
      end
  end.

Fixpoint elem_size (e : elem) : nat := let 'Elem _ _ b := e in S match b with Some b => elem_size b | None => 0 end.
Definition chain_size (l : list elem) : nat := sum_list_with elem_size l.

Definition mark_as_failure (id : string) (req : option request) (store_result call_errbacks : bool) (state : string) : M () :=
  run! ewhen store_result (call (StoreResult id state)) in
  match req with
  | None => eret ()
  | Some r =>
      run! ewhen (rq_has_chord r) (call (ChordPart (Some (rq_id r)) state)) in
      run! fail_chain (chain_size (rq_chain r)) store_result state (rq_chain r) in
      match rq_errbacks r with
      | [] => eret ()
      | _ => ewhen call_errbacks (call_task_errbacks (rq_errbacks r) (rq_is_eager r))
      end
  end.

(** ** Errors of chords *)

Definition fail_from_current_stack (id : string) : M () := mark_as_failure id None true true FAILURE.

(** The callback of a chord: a task (with the identifier it gets if it has none),
    or a group with its results *)
Inductive callback :=
| CTask (id : string) (errbacks : list errback)
| CGroup (group_id : option string) (results : list string) (errbacks : list errback).

(** One result of a group *)
Definition fail_group_result (errbacks : list errback) (id : string) : M () :=
  swallow (run! swallow (call_task_errbacks errbacks false) in fail_from_current_stack id).

(** [fallback_id] is the identifier of the callback *)
Definition handle_group_chord_error (fallback_id : string) (group_id : option string) (results : list string) (errbacks : list errback) : M () :=
  ecatch
    (run! call Freeze in
     run! eiter (fail_group_result errbacks) results in
     run! match group_id with Some g => mark_as_failure g None true true FAILURE | None => eret () end in
     call Revoke)
    (λ x, if is_Exception x then fail_from_current_stack fallback_id else eraise x).

Definition chord_error_from_stack (cb : callback) : M () :=
  match cb with
  | CGroup g results errbacks => handle_group_chord_error (default "" g) g results errbacks
  | CTask id errbacks =>
      etry (call_task_errbacks errbacks false)
        (λ x, if is_Exception x then fail_from_current_stack id else eraise x)
        (λ _, fail_from_current_stack id)
  end.

(** ** The rest of a chain *)

(** The elements in the order of the loop: those of the chain, then the bodies of
    its chords, then the bodies of these *)
Fixpoint levels (k : nat) (l : list elem) : list elem :=
  match k with
  | O => []
  | S k => match l with [] => [] | _ => l ++ levels k (omap chord_body l) end
  end.

Definition elem_calls (store_result : bool) (state : string) (e : elem) : list mcall :=
  match elem_id e with
  | Some id => if store_result && bool_decide (state ∈ PROPAGATE_STATES) then [StoreResult id state] else []
  | None => []
  end ++ if in_chord e then [ChordPart (elem_id e) state] else [].

Lemma elem_size_body e b : chord_body e = Some b → elem_size e = S (elem_size b).
Proof. destruct e as [i c o]. simpl. by intros ->. Qed.

Lemma elem_size_leaf e : chord_body e = None → elem_size e = 1.
Proof. destruct e as [i c o]. simpl. by intros ->. Qed.

Lemma chain_size_app l1 l2 : chain_size (l1 ++ l2) = chain_size l1 + chain_size l2.
Proof. unfold chain_size. by rewrite sum_list_with_app. Qed.

Lemma chain_size_step e l : chain_size (l ++ option_list (chord_body e)) < chain_size (e :: l).
Proof.
  rewrite chain_size_app. unfold chain_size at 3. simpl. fold (chain_size l).
  destruct (chord_body e) as [b|] eqn:Eb; simpl; [rewrite (elem_size_body _ _ Eb)|rewrite (elem_size_leaf _ Eb)]; unfold chain_size; simpl; lia.
Qed.

(** The loop ends within its fuel, whatever the calls do. *)
Lemma fail_chain_ends fuel st state l s :
  (∀ t c, run t c ≠ Diverge) → chain_size l <= fuel → (fail_chain fuel st state l s).2 ≠ Diverge.
Proof.
  intros Hrun. revert l s. induction fuel as [|fuel IH]; intros l s Hf.
  - destruct l as [|e l]; [done|]. pose proof (chain_size_step e l). lia.
  - destruct l as [|e l]; [done|]. cbn [fail_chain]. unfold ebind at 1.
    assert ((fail_elem st state e s).2 ≠ Diverge) as He.
    { unfold fail_elem, ewhen, call, ebind, eret. destruct (elem_id e); repeat case_match; simplify_eq/=; try done;
        first [by apply Hrun|exfalso; by eapply Hrun]. }
    destruct (fail_elem st state e s) as [s1 [[]|x|]]; simpl in *; [|done|done].
    apply IH. pose proof (chain_size_step e l) as Hc. change (chain_size (e :: l)) with (elem_size e + chain_size l) in Hc. lia.
Qed.

(** When nothing raises *)
Definition quiet : Prop := ∀ t c, run t c = Ok ().

Lemma fail_elem_quiet st state e s : quiet → fail_elem st state e s = (s ++ elem_calls st state e, Ok ()).
Proof.
  intros Hq. unfold fail_elem, elem_calls, ewhen, call, ebind, eret.
  destruct (elem_id e) as [id|]; [destruct (st && _)|]; destruct (in_chord e); rewrite ?Hq; simpl; rewrite ?Hq, ?app_nil_r, <-?(assoc_L app); done.
Qed.

(** The queue [l ++ m]: the bodies of the elements of [l] come after [m]. *)
Lemma fail_chain_level fuel st state l m s :
  quiet →
  fail_chain (length l + fuel) st state (l ++ m) s =
  fail_chain fuel st state (m ++ omap chord_body l) (s ++ (l ≫= elem_calls st state)).
Proof.
  intros Hq. revert m s. induction l as [|e l IH]; intros m s; simpl; [by rewrite !app_nil_r|].
  unfold ebind. rewrite fail_elem_quiet by done. rewrite <-(assoc_L app). rewrite IH, <-!(assoc_L app).
  by destruct (chord_body e).
Qed.

Lemma fail_chain_quiet k fuel st state l s :
  quiet → (∀ e, e ∈ l → elem_size e <= k) → chain_size l <= fuel →
  fail_chain fuel st state l s = (s ++ (levels k l ≫= elem_calls st state), Ok ()).
Proof.
  intros Hq. revert fuel l s. induction k as [|k IH]; intros fuel l s Hk Hf.
  - destruct l as [|e l]; [simpl; by destruct fuel; rewrite app_nil_r|].
    specialize (Hk e ltac:(set_solver)). destruct e; simpl in Hk; lia.
  - destruct l as [|e l]; [simpl; by destruct fuel; rewrite app_nil_r|]. cbn [levels].
    set (l0 := e :: l) in *. clearbody l0.
    assert (length l0 + chain_size (omap chord_body l0) = chain_size l0) as Hsz.
    { clear. induction l0 as [|x l IHl]; [done|]. unfold chain_size in *. csimpl.
      destruct (chord_body x) as [b|] eqn:Eb; csimpl; [rewrite (elem_size_body _ _ Eb)|rewrite (elem_size_leaf _ Eb)]; lia. }
    replace fuel with (length l0 + (fuel - length l0)) by lia.
    pose proof (fail_chain_level (fuel - length l0) st state l0 [] s Hq) as Hl. rewrite app_nil_r in Hl. rewrite Hl. simpl.
    rewrite IH; [| |lia].
    + rewrite bind_app, (assoc_L app). done.
    + intros b (x & Hx & Hb)%list_elem_of_omap. specialize (Hk x Hx). rewrite (elem_size_body _ _ Hb) in Hk. lia.
Qed.

(** An element with the bodies inside it *)
Fixpoint nested (e : elem) : list elem :=
  let 'Elem _ _ b := e in e :: match b with Some b => nested b | None => [] end.

Lemma nested_cases e x : x ∈ nested e → x = e ∨ ∃ b, chord_body e = Some b ∧ x ∈ nested b.
Proof. destruct e as [i c [b|]]; simpl; set_unfold; intros [->|?]; eauto. by left. Qed.

Lemma levels_nested k l x : (∀ e, e ∈ l → elem_size e <= k) → x ∈ l ≫= nested → x ∈ levels k l.
Proof.
  revert l. induction k as [|k IH]; intros l Hk Hx; apply list_elem_of_bind in Hx as (e & Hx & He).
  - specialize (Hk e He). destruct e; simpl in Hk; lia.
  - simpl. destruct l as [|y l]; [set_solver|]. set (l0 := y :: l) in *. clearbody l0. apply elem_of_app.
    destruct (nested_cases e x Hx) as [->|(b & Hb & Hxb)]; [by left|right]. apply IH.
    + intros z (w & Hw & Hz)%list_elem_of_omap. specialize (Hk w Hw). rewrite (elem_size_body _ _ Hz) in Hk. lia.
    + apply list_elem_of_bind. exists b. split; [done|]. apply list_elem_of_omap. eauto.
Qed.

(** The calls for errbacks *)
Definition errback_calls (errbacks : list errback) (eager : bool) : list mcall :=
  ((λ e, CallErrback (eb_name e)) <$> filter (λ e, is_new e = true) errbacks) ++
  match filter (λ e, is_new e = false) errbacks with
  | [] => []
  | old => [ApplyErrbacks (eb_name <$> old) (task_always_eager || eager)]
  end.

Lemma errbacks_quiet errbacks eager s : quiet → call_task_errbacks errbacks eager s = (s ++ errback_calls errbacks eager, Ok ()).
Proof.
  intros Hq. unfold call_task_errbacks, errback_calls.
  set (f := λ e, if is_new e then swallow (call (CallErrback (eb_name e))) else eret ()).
  assert (∀ e t, f e t = (t ++ (if is_new e then [CallErrback (eb_name e)] else []), Ok ())) as Hf.
  { intros e t. unfold f, swallow, ecatch, call. destruct (is_new e); [by rewrite Hq|]. by rewrite app_nil_r. }
  clearbody f.
  assert (∀ l t, eiter f l t = (t ++ ((λ e, CallErrback (eb_name e)) <$> filter (λ e, is_new e = true) l), Ok ())) as Hi.
  { induction l as [|e l IH]; intros t; [by rewrite app_nil_r|]. simpl. unfold ebind. rewrite Hf, IH, filter_cons.
    destruct (is_new e); case_decide; try done; csimpl; by rewrite <-!(assoc_L app). }
  unfold ebind. rewrite Hi. rewrite (assoc_L app).
  destruct (filter (λ e, is_new e = false) errbacks); [by rewrite app_nil_r|]. unfold call. by rewrite Hq.
Qed.

(** The calls of [mark_as_failure] *)
Definition failure_calls (id : string) (r : request) (st cb : bool) (state : string) : list mcall :=
  (if st then [StoreResult id state] else []) ++
  (if rq_has_chord r then [ChordPart (Some (rq_id r)) state] else []) ++
  (levels (chain_size (rq_chain r)) (rq_chain r) ≫= elem_calls st state) ++
  (if cb then errback_calls (rq_errbacks r) (rq_is_eager r) else []).

Lemma elem_size_le e l : e ∈ l → elem_size e <= chain_size l.
Proof. unfold chain_size. induction l as [|x l IH]; [set_solver|]. intros [->|He]%elem_of_cons; simpl; [lia|]. specialize (IH He). lia. Qed.

Lemma mark_as_failure_quiet id r st cb state s :
  quiet → mark_as_failure id (Some r) st cb state s = (s ++ failure_calls id r st cb state, Ok ()).
Proof.
  intros Hq. unfold mark_as_failure, failure_calls, ebind at 1.
  assert (∀ b c t, ewhen b (call c) t = (t ++ (if b : bool then [c] else []), Ok ())) as Hw.
  { intros b c t. unfold ewhen, call. destruct b; simpl; [by rewrite Hq|by rewrite app_nil_r]. }
  rewrite Hw. unfold ebind at 1. rewrite Hw. unfold ebind.
  rewrite (fail_chain_quiet (chain_size (rq_chain r))); [|done|intros; by apply elem_size_le|done].
  rewrite <-!(assoc_L app). destruct (rq_errbacks r) as [|e es] eqn:Ee.
  - destruct cb; unfold errback_calls; simpl; by rewrite ?app_nil_r.
  - unfold ewhen. destruct cb; [rewrite errbacks_quiet by done; by rewrite <-!(assoc_L app)|by rewrite app_nil_r].
Qed.

(** C14: a failure reaches the rest of the chain.  Marking a task as failed stores
    the failure, tells the chord it is a member of, and does the same for every
    task of the remaining chain and of the bodies of chords inside it, each once
    and in a fixed order, before the errbacks are called; the loop that follows
    the bodies ends. *)
Theorem failure_propagates id r cb s :
  quiet →
  mark_as_failure id (Some r) true cb FAILURE s = (s ++ failure_calls id r true cb FAILURE, Ok ()) ∧
  StoreResult id FAILURE ∈ failure_calls id r true cb FAILURE ∧
  ∀ e, e ∈ rq_chain r ≫= nested →
    (∀ i, elem_id e = Some i → StoreResult i FAILURE ∈ failure_calls id r true cb FAILURE) ∧
    (in_chord e = true → ChordPart (elem_id e) FAILURE ∈ failure_calls id r true cb FAILURE).
Proof.
  intros Hq. split; [by apply mark_as_failure_quiet|]. split; [unfold failure_calls; set_solver|].
  intros e He. apply (levels_nested (chain_size (rq_chain r))) in He; [|intros; by apply elem_size_le].
  assert (∀ c, c ∈ elem_calls true FAILURE e → c ∈ failure_calls id r true cb FAILURE) as Hc.
  { intros c Hc. unfold failure_calls. apply elem_of_app. right. apply elem_of_app. right. apply elem_of_app. left.
    apply list_elem_of_bind. by exists e. }
  split; [intros i Hi; apply Hc; unfold elem_calls; rewrite Hi; simpl; set_solver|].
  intros Hch. apply Hc. unfold elem_calls. rewrite Hch. set_solver.
Qed.

(** ** Errors of chords are reported *)

Section Reported.
(** Calls return or raise an [Exception]. *)
Context (Hrun : ∀ t c, match run t c with Ok _ => True | Raise x => is_Exception x = true | Diverge => False end).

Definition has (c : mcall) (s : list mcall) : Prop := c ∈ s.

Lemma call_has c d : keeps (has c) (call d).
Proof. intros s Hs. unfold has, call in *. simpl. set_solver. Qed.
#[local] Hint Resolve call_has : keeps.

Lemma failure_has c id : keeps (has c) (fail_from_current_stack id).
Proof. unfold fail_from_current_stack, mark_as_failure. keeps. Qed.
Lemma errbacks_has c errbacks eager : keeps (has c) (call_task_errbacks errbacks eager).
Proof. unfold call_task_errbacks, swallow. keeps. Qed.
#[local] Hint Resolve failure_has errbacks_has : keeps.

(** Programs that return or raise an [Exception] *)
Definition mild (c : M ()) : Prop := ∀ s, match (c s).2 with Ok _ => True | Raise x => is_Exception x = true | Diverge => False end.

Lemma mild_call c : mild (call c).
Proof. intros s. apply Hrun. Qed.
Lemma mild_bind (c : M ()) k : mild c → (∀ u, mild (k u)) → mild (ebind c k).
Proof. intros Hc Hk s. unfold ebind. specialize (Hc s). destruct (c s) as [s1 [u|x|]]; [apply Hk|done..]. Qed.
Lemma mild_ret u : mild (eret u).
Proof. by intros s. Qed.

(** A swallowed program returns. *)
Lemma swallow_returns c s : mild c → (swallow c s).2 = Ok ().
Proof.
  intros Hc. unfold swallow, ecatch. specialize (Hc s). destruct (c s) as [s1 [[]|x|]]; simpl in *; [done| |done]. by rewrite Hc.
Qed.

Lemma mild_swallow c : mild c → mild (swallow c).
Proof. intros Hc s. by rewrite swallow_returns. Qed.

Lemma mild_iter {A} (f : A → M ()) l : (∀ a, mild (f a)) → mild (eiter f l).
Proof. intros Hf. induction l as [|a l IH]; [apply mild_ret|]. simpl. by apply mild_bind. Qed.

Lemma mild_errbacks errbacks eager : mild (call_task_errbacks errbacks eager).
Proof.
  unfold call_task_errbacks. apply mild_bind.
  - apply mild_iter. intros e. destruct (is_new e); [apply mild_swallow, mild_call|apply mild_ret].
  - intros _. destruct (filter _ _); [apply mild_ret|apply mild_call].
Qed.

Lemma failure_stores id s : StoreResult id FAILURE ∈ (fail_from_current_stack id s).1.
Proof. unfold fail_from_current_stack, mark_as_failure, ebind, ewhen, call. destruct (run s _); simpl; set_solver. Qed.

Lemma mild_failure id : mild (fail_from_current_stack id).
Proof. unfold fail_from_current_stack, mark_as_failure. apply mild_bind; [apply mild_call|intros _; apply mild_ret]. Qed.

Lemma group_result_stores errbacks id s : StoreResult id FAILURE ∈ (fail_group_result errbacks id s).1.
Proof.
  unfold fail_group_result, swallow at 1, ecatch, ebind.
  pose proof (swallow_returns (call_task_errbacks errbacks false) s (mild_errbacks _ _)) as Hs.
  destruct (swallow _ s) as [s1 r]. simpl in Hs. subst r. pose proof (failure_stores id s1) as Hst.
  destruct (fail_from_current_stack id s1) as [s2 [[]|x|]]; simpl in *; [done| |done]. by destruct (is_Exception x).
Qed.

Lemma group_result_has c errbacks id : keeps (has c) (fail_group_result errbacks id).
Proof. unfold fail_group_result, swallow. keeps. Qed.

Lemma group_results_store errbacks results s id :
  id ∈ results → StoreResult id FAILURE ∈ (eiter (fail_group_result errbacks) results s).1 ∧
                 (eiter (fail_group_result errbacks) results s).2 = Ok ().
Proof.
  assert (∀ l s, (eiter (fail_group_result errbacks) l s).2 = Ok ()) as Hok.
  { induction l as [|i l IH]; intros s0; [done|]. simpl. unfold ebind.
    assert ((fail_group_result errbacks i s0).2 = Ok ()) as Hi.
    { apply swallow_returns, mild_bind; [apply mild_swallow, mild_errbacks|intros _; apply mild_failure]. }
    destruct (fail_group_result errbacks i s0) as [s1 r]. simpl in Hi. subst r. apply IH. }
  intros Hin. split; [|apply Hok]. revert s. induction results as [|i l IH]; intros s; [set_solver|]. simpl. unfold ebind.
  pose proof (group_result_stores errbacks i s) as Hst.
  assert ((fail_group_result errbacks i s).2 = Ok ()) as Hi.
  { apply swallow_returns, mild_bind; [apply mild_swallow, mild_errbacks|intros _; apply mild_failure]. }
  destruct (fail_group_result errbacks i s) as [s1 r]. simpl in Hi, Hst. subst r.
  apply elem_of_cons in Hin as [->|Hin]; [|by apply IH].
  apply (keeps_iter (has (StoreResult i FAILURE))); [|done]. intros. apply group_result_has.
Qed.

(** The error of a chord is never lost: whatever errbacks, stores and
    revocations raise, the failure of the callback is stored, and for a group that
    of every task of the group. *)
Theorem chord_error_reported cb s :
  (∀ t, run t Freeze = Ok ()) →
  ∀ id, id ∈ match cb with CTask id _ => [id] | CGroup _ results _ => results end →
  StoreResult id FAILURE ∈ (chord_error_from_stack cb s).1.
Proof.
  intros Hfr id Hid. destruct cb as [i errbacks|g results errbacks]; simpl.
  - apply list_elem_of_singleton in Hid as ->. unfold etry. pose proof (mild_errbacks errbacks false s) as Hm.
    destruct (call_task_errbacks errbacks false s) as [s1 [[]|x|]]; simpl in Hm; [apply failure_stores|rewrite Hm; apply failure_stores|done].
  - unfold handle_group_chord_error. apply (catch_from (has (StoreResult id FAILURE))).
    + unfold ebind at 1, call at 1. rewrite Hfr. unfold ebind at 1.
      destruct (group_results_store errbacks results (s ++ [Freeze]) id Hid) as [Hs Hok].
      destruct (eiter _ results _) as [s1 r]. simpl in Hs, Hok. subst r.
      assert (keeps (has (StoreResult id FAILURE))
                (run! match g with Some g => mark_as_failure g None true true FAILURE | None => eret () end in call Revoke)) as Hk.
      { unfold mark_as_failure. keeps. }
      by apply Hk.
    + intros x. keeps.
Qed.
End Reported.
End Mark.

(** ** Examples *)

Module Examples.
Definition fine (_ : list mcall) (_ : mcall) : outcome () := Ok ().
(** A chain of a task and a chord, whose body is a chord again *)
Definition chain : list elem :=
  [Elem (Some "b") false None; Elem None true (Some (Elem (Some "c") false (Some (Elem (Some "d") false None))))].
Definition req : request := Req "a" false false chain [Errback "old" OldStyle; Errback "new" NewStyle] false.

Lemma chain_failure : (mark_as_failure false fine "a" (Some req) true true FAILURE []).1 =
  [StoreResult "a" FAILURE; StoreResult "b" FAILURE; ChordPart None FAILURE; StoreResult "c" FAILURE; StoreResult "d" FAILURE;
   CallErrback "new"; ApplyErrbacks ["old"] false].
Proof. vm_compute. reflexivity. Qed.

Lemma failure_propagates_witness : StoreResult "d" FAILURE ∈ failure_calls false "a" req true true FAILURE.
Proof.
  destruct (failure_propagates false fine "a" req true []) as (_ & _ & H); [done|].
  apply (H (Elem (Some "d") false None)); [|reflexivity]. vm_compute. set_solver.
Defined.

(** Storing results fails *)
Definition broken (_ : list mcall) (c : mcall) : outcome () := match c with StoreResult _ _ => Raise OtherExc | _ => Ok () end.

Lemma chord_error_reported_witness :
  StoreResult "y" FAILURE ∈ (chord_error_from_stack false broken (CGroup (Some "g") ["x"; "y"] []) []).1.
Proof.
  apply (chord_error_reported false broken); [by intros t []|done|]. simpl. set_solver.
Defined.
End Examples.
End Mark.
