(* ===== verification/Polling.v ===== *)
(** Waiting for results by polling, celery/backends/base.py: [wait_for] of
    [SyncBackendMixin] and [get_many] of [BaseKeyValueStoreBackend].

    Times are whole numbers of a small unit.  What the backend holds when it is
    read for the n-th time is given by [poll] and [look]: other processes write to
    it while this one sleeps. *)

From S2P Require Import Prelude States.
Import States.
Local Open Scope Z_scope.

Module Polling.

Section Polling.
Context {A : Type} (status : A → string).
(** Seconds until giving up, pause between two reads *)
Context (timeout : option Z) (interval : Z).

Definition is_ready (m : A) : bool := bool_decide (status m ∈ READY_STATES).

Definition timed_out (elapsed : Z) : bool := match timeout with Some t => t <=? elapsed | None => false end.
Definition next_nap (elapsed : Z) : Z := match timeout with Some t => Z.min interval (t - elapsed) | None => interval end.

(** ** [wait_for] *)

Section WaitFor.
(** The metadata of the task at the n-th read *)
Context (poll : nat → outcome A).

(** The naps taken, and the outcome *)
Fixpoint wait_loop (fuel n : nat) (elapsed : Z) : list Z * outcome A :=
  match fuel with
  | O => ([], Diverge)
  | S fuel =>
      match poll n with
      | Raise x => ([], Raise x)
      | Diverge => ([], Diverge)
      | Ok m =>
          if is_ready m then ([], Ok m)
          else if timed_out elapsed then ([], Raise TimeoutError)
          else let nap := next_nap elapsed in
               let '(naps, r) := wait_loop fuel (S n) (elapsed + nap) in (nap :: naps, r)
      end
  end.

Definition wait_for (fuel : nat) : list Z * outcome A := wait_loop fuel 0 0.

Definition total (l : list Z) : Z := foldr Z.add 0 l.

(** How a wait that starts at the n-th read with [elapsed] gone ends *)
Definition wait_spec (n : nat) (left : Z) (r : list Z * outcome A) : Prop :=
  Forall (λ nap, 0 < nap <= interval) r.1 ∧ total r.1 <= left ∧
  let k := (n + length r.1)%nat in
  (∀ i, (n <= i < k)%nat → ∃ m, poll i = Ok m ∧ is_ready m = false) ∧
  match r.2 with
  | Ok m => poll k = Ok m ∧ is_ready m = true
  | Raise x => poll k = Raise x ∨ (x = TimeoutError ∧ total r.1 = left ∧ ∃ m, poll k = Ok m ∧ is_ready m = false)
  | Diverge => poll k = Diverge
  end.

Context (t : Z) (Ht : timeout = Some t) (Hint : 0 < interval).

Lemma wait_loop_spec fuel n elapsed :
  0 <= elapsed <= t → (0 < fuel)%nat → t - elapsed <= (Z.of_nat fuel - 1) * interval → wait_spec n (t - elapsed) (wait_loop fuel n elapsed).
Proof.
  revert n elapsed. induction fuel as [|fuel IH]; intros n elapsed He Hf0 Hf; [lia|]. simpl.
  assert (∀ r, match r with
               | Ok m => poll n = Ok m ∧ is_ready m = true
               | Raise x => poll n = Raise x ∨ (x = TimeoutError ∧ 0 = t - elapsed ∧ ∃ m, poll n = Ok m ∧ is_ready m = false)
               | Diverge => poll n = Diverge
               end → wait_spec n (t - elapsed) ([], r)) as Hend.
  { intros r Hr. unfold wait_spec. simpl. rewrite Nat.add_0_r. split_and!; [constructor|lia|intros; lia|done]. }
  destruct (poll n) as [m|x|] eqn:Ep; [|apply Hend; by left|by apply Hend].
  destruct (is_ready m) eqn:Er; [by apply Hend|]. unfold timed_out, next_nap. rewrite Ht.
  destruct (t <=? elapsed) eqn:El; zbool.
  - apply Hend. right. split_and!; [done|lia|eauto].
  - assert (0 < fuel)%nat as Hf1 by (destruct fuel; [simpl in Hf; lia|lia]).
    assert (0 <= (Z.of_nat fuel - 1) * interval) as Hp by (apply Z.mul_nonneg_nonneg; lia).
    destruct (IH (S n) (elapsed + Z.min interval (t - elapsed))) as (H1 & H2 & H3 & H4); [lia|lia|lia|].
    destruct (wait_loop fuel (S n) (elapsed + Z.min interval (t - elapsed))) as [naps r]. simpl in *.
    unfold wait_spec. simpl. split_and!.
    + constructor; [lia|done].
    + lia.
    + intros i Hi. destruct (decide (i = n)) as [->|Hne]; [eauto|]. apply H3. lia.
    + rewrite Nat.add_succ_r. destruct r as [m'|x|]; [done| |done].
      destruct H4 as [?|(? & ? & ?)]; [by left|right]. split_and!; [done|lia|done].
Qed.

(** [wait_for] with a timeout ends: it returns the metadata of the first read
    at which the task is ready, raises what a read raises, or raises
    [TimeoutError] after having slept for exactly the timeout and found the task
    unfinished at a last read; it never sleeps longer than the timeout, nor longer
    than the interval at a time. *)
Theorem wait_for_spec :
  0 <= t → wait_spec 0 t (wait_for (S (Z.to_nat (t / interval + 1)))).
Proof.
  intros H0. replace t with (t - 0) at 1 by lia. apply wait_loop_spec; [lia|lia|].
  pose proof (Z.div_mod t interval ltac:(lia)). pose proof (Z.mod_pos_bound t interval Hint).
  assert (0 <= t / interval) by (apply Z.div_pos; lia). rewrite Nat2Z.inj_succ, Z2Nat.id by lia. nia.
Qed.
End WaitFor.

(** ** [get_many] *)

Section GetMany.
(** The n-th read of many keys: the metadata of each task, if there is any *)
Context (mget : nat → outcome (string → option A)).
Context (max_iterations : nat).

(** [_mget_to_results] *)
Definition ready_results (f : string → option A) (ids : list string) : list (string * A) :=
  omap (λ id, m ← f id; if is_ready m then Some (id, m) else None) ids.

(** What is yielded, the naps taken and how it ends *)
Record polled := Polled { yields : list (string * A); naps : list Z; ending : outcome () }.

Fixpoint get_loop (fuel n : nat) (elapsed : Z) (ids : gset string) : polled :=
  match fuel with
  | O => Polled [] [] Diverge
  | S fuel =>
      if bool_decide (ids = ∅) then Polled [] [] (Ok ())
      else match mget n with
           | Raise x => Polled [] [] (Raise x)
           | Diverge => Polled [] [] Diverge
           | Ok f =>
               let r := ready_results f (elements ids) in
               let ids := ids ∖ list_to_set r.*1 in
               if bool_decide (ids = ∅) then Polled r [] (Ok ())
               else if timed_out elapsed then Polled r [] (Raise TimeoutError)
               else let nap := next_nap elapsed in
                    if negb (max_iterations =? 0)%nat && (max_iterations <=? S n)%nat then Polled r [nap] (Ok ())
                    else let '(Polled ys ns e) := get_loop fuel (S n) (elapsed + nap) ids in Polled (r ++ ys) (nap :: ns) e
           end
  end.

(** The cache is read first, and gets what is read. *)
Definition get_many (fuel : nat) (cache : gmap string A) (ids : gset string) : polled * gmap string A :=
  let cached := ready_results (λ id, cache !! id) (elements ids) in
  let '(Polled ys ns e) := get_loop fuel 0 0 (ids ∖ list_to_set cached.*1) in
  (Polled (cached ++ ys) ns e, list_to_map ys ∪ cache).

Lemma ready_results_elem f ids id m : (id, m) ∈ ready_results f ids ↔ id ∈ ids ∧ f id = Some m ∧ is_ready m = true.
Proof.
  unfold ready_results. rewrite list_elem_of_omap. split.
  - intros (i & Hi & Hm). destruct (f i) as [m'|] eqn:E; [|done]. simpl in Hm. destruct (is_ready m') eqn:Er; simplify_eq. done.
  - intros (Hi & Hf & Hr). exists id. split; [done|]. rewrite Hf. simpl. by rewrite Hr.
Qed.

Lemma ready_results_NoDup f ids : NoDup ids → NoDup (ready_results f ids).*1.
Proof.
  induction 1 as [|id ids Hid Hnd IH]; [constructor|]. unfold ready_results. simpl. fold (ready_results f ids).
  destruct (f id) as [m|]; simpl; [|done]. destruct (is_ready m); simpl; [|done]. constructor; [|done].
  intros ((i & m') & -> & Hi)%list_elem_of_fmap. by apply ready_results_elem in Hi as (? & _).
Qed.

Definition many_spec (ids : gset string) (left : Z) (r : polled) : Prop :=
  NoDup (yields r).*1 ∧
  (∀ id m, (id, m) ∈ yields r → id ∈ ids ∧ is_ready m = true ∧ ∃ n f, mget n = Ok f ∧ f id = Some m) ∧
  Forall (λ nap, 0 < nap <= interval) (naps r) ∧ total (naps r) <= left ∧
  match ending r with
  | Ok _ => ∀ id, id ∈ ids → id ∈ (yields r).*1
  | Raise x =>
      (∃ n, mget n = Raise x) ∨
      (x = TimeoutError ∧ total (naps r) = left ∧
       ∃ n f, mget n = Ok f ∧ ∀ id m, id ∈ ids → id ∉ (yields r).*1 → f id = Some m → is_ready m = false)
  | Diverge => ∃ n, mget n = Diverge
  end.

Context (t : Z) (Ht : timeout = Some t) (Hint : 0 < interval) (Hmax : max_iterations = 0%nat).

Lemma get_loop_spec fuel n elapsed ids :
  0 <= elapsed <= t → (0 < fuel)%nat → t - elapsed <= (Z.of_nat fuel - 1) * interval →
  many_spec ids (t - elapsed) (get_loop fuel n elapsed ids).
Proof.
  revert n elapsed ids. induction fuel as [|fuel IH]; intros n elapsed ids He Hf0 Hf; [lia|]. cbn [get_loop].
  destruct (bool_decide (ids = ∅)) eqn:Ei; zbool.
  { unfold many_spec. simpl. split_and!; [constructor|set_solver|constructor|lia|set_solver]. }
  destruct (mget n) as [f|x|] eqn:Em.
  2,3: unfold many_spec; simpl; split_and!; [constructor|set_solver|constructor|lia|eauto].
  set (r := ready_results f (elements ids)). set (ids' := ids ∖ list_to_set r.*1).
  assert (∀ id m, (id, m) ∈ r ↔ id ∈ ids ∧ f id = Some m ∧ is_ready m = true) as Hr.
  { intros id m. unfold r. by rewrite ready_results_elem, elem_of_elements. }
  assert (NoDup r.*1) as Hnd by (apply ready_results_NoDup, NoDup_elements).
  assert (∀ id, id ∈ ids' ↔ id ∈ ids ∧ id ∉ r.*1) as Hids' by (intros id; unfold ids'; set_solver).
  assert (∀ id m, (id, m) ∈ r → id ∈ ids ∧ is_ready m = true ∧ ∃ n f, mget n = Ok f ∧ f id = Some m) as Hyield.
  { intros id m (? & ? & ?)%Hr. split_and!; [done|done|]. by exists n, f. }
  clearbody r ids'. destruct (bool_decide (ids' = ∅)) eqn:Ei'; zbool.
  { unfold many_spec. simpl. split_and!; [done|done|constructor|lia|]. intros id Hid.
    destruct (decide (id ∈ r.*1)); [done|]. assert (id ∈ ids') by (by apply Hids'). set_solver. }
  unfold timed_out, next_nap. rewrite Ht, Hmax. destruct (t <=? elapsed) eqn:El; zbool.
  { unfold many_spec. simpl. split_and!; [done|done|constructor|lia|]. right. split_and!; [done|lia|]. exists n, f. split; [done|].
    intros id m Hid Hn Hfm. destruct (is_ready m) eqn:Er; [|done]. destruct Hn. apply list_elem_of_fmap. exists (id, m). split; [done|].
    by apply Hr. }
  simpl. assert (0 < fuel)%nat as Hf1 by (destruct fuel; [simpl in Hf; lia|lia]).
  assert (0 <= (Z.of_nat fuel - 1) * interval) as Hp by (apply Z.mul_nonneg_nonneg; lia).
  destruct (IH (S n) (elapsed + Z.min interval (t - elapsed)) ids') as (H1 & H2 & H3 & H4 & H5); [lia|lia|lia|].
  destruct (get_loop fuel (S n) (elapsed + Z.min interval (t - elapsed)) ids') as [ys ns e]. simpl in *.
  assert (∀ id, id ∈ ys.*1 → id ∉ r.*1) as Hdisj.
  { intros id ((i & m) & -> & Hi)%list_elem_of_fmap. apply H2 in Hi as (Hi%Hids' & _). by destruct Hi. }
  unfold many_spec. simpl. rewrite fmap_app. split_and!.
  - apply NoDup_app. split_and!; [done| |done]. intros id Hid Hid'. by apply (Hdisj id).
  - intros id m [Hin|Hin]%elem_of_app; [by apply Hyield|]. apply H2 in Hin as (Hi%Hids' & Hrd & Hlook). by destruct Hi.
  - constructor; [lia|done].
  - lia.
  - destruct e as [u|x|]; [| |done].
    + intros id Hid. apply elem_of_app. destruct (decide (id ∈ r.*1)); [by left|right]. apply H5. by apply Hids'.
    + destruct H5 as [?|(-> & Htot & n' & f' & Hn' & Hf')]; [by left|right]. split_and!; [done|lia|]. exists n', f'. split; [done|].
      intros id m Hid Hn. rewrite elem_of_app in Hn. apply Hf'; [apply Hids'|]; naive_solver.
Qed.

(** [get_many] with a timeout ends and yields every task at most once, only
    finished ones, with metadata from the cache or from a read; when it ends
    normally it has yielded all of them; it raises what a read raises, or
    [TimeoutError] after having slept for exactly the timeout, if some task was
    unfinished at the last read; and what it read is in the cache. *)
Theorem get_many_spec cache ids :
  0 <= t →
  let '(r, cache') := get_many (S (Z.to_nat (t / interval + 1))) cache ids in
  NoDup (yields r).*1 ∧
  (∀ id m, (id, m) ∈ yields r → id ∈ ids ∧ is_ready m = true ∧ cache' !! id = Some m ∧
                                (cache !! id = Some m ∨ ∃ n f, mget n = Ok f ∧ f id = Some m)) ∧
  Forall (λ nap, 0 < nap <= interval) (naps r) ∧ total (naps r) <= t ∧
  match ending r with
  | Ok _ => ∀ id, id ∈ ids → id ∈ (yields r).*1
  | Raise x =>
      (∃ n, mget n = Raise x) ∨
      (x = TimeoutError ∧ total (naps r) = t ∧
       ∃ n f, mget n = Ok f ∧ ∀ id m, id ∈ ids → id ∉ (yields r).*1 → f id = Some m → is_ready m = false)
  | Diverge => ∃ n, mget n = Diverge
  end.
Proof.
  intros H0. unfold get_many. set (cached := ready_results (λ id, cache !! id) (elements ids)).
  assert (∀ id m, (id, m) ∈ cached ↔ id ∈ ids ∧ cache !! id = Some m ∧ is_ready m = true) as Hc.
  { intros id m. unfold cached. by rewrite ready_results_elem, elem_of_elements. }
  assert (NoDup cached.*1) as Hcn by (apply ready_results_NoDup, NoDup_elements).
  set (ids' := ids ∖ list_to_set cached.*1).
  assert (∀ id, id ∈ ids' ↔ id ∈ ids ∧ id ∉ cached.*1) as Hids' by (intros id; unfold ids'; set_solver). clearbody cached ids'.
  destruct (get_loop_spec (S (Z.to_nat (t / interval + 1))) 0 0 ids') as (H1 & H2 & H3 & H4 & H5); [lia|lia| |].
  { pose proof (Z.div_mod t interval ltac:(lia)). pose proof (Z.mod_pos_bound t interval Hint).
    assert (0 <= t / interval) by (apply Z.div_pos; lia). rewrite Nat2Z.inj_succ, Z2Nat.id by lia. nia. }
  rewrite Z.sub_0_r in *. destruct (get_loop _ 0 0 ids') as [ys ns e]. simpl in *. rewrite fmap_app.
  assert (∀ id, id ∈ ys.*1 → id ∉ cached.*1) as Hdisj.
  { intros id ((i & m) & -> & Hi)%list_elem_of_fmap. apply H2 in Hi as (Hi%Hids' & _). by destruct Hi. }
  split_and!.
  - apply NoDup_app. split_and!; [done| |done]. intros id Hid Hid'. by apply (Hdisj id).
  - intros id m [Hin|Hin]%elem_of_app.
    + pose proof Hin as Hin'. apply Hc in Hin as (? & Hm & ?). split_and!; [done|done| |by left]. rewrite lookup_union_r; [done|].
      apply not_elem_of_list_to_map. intros Hy. apply (Hdisj id Hy). apply list_elem_of_fmap. by exists (id, m).
    + pose proof Hin as Hin'. apply H2 in Hin as (Hi%Hids' & Hrd & Hlook). destruct Hi. split_and!; [done|done| |by right].
      apply lookup_union_Some_l. by apply elem_of_list_to_map.
  - done.
  - done.
  - destruct e as [u|x|]; [| |done].
    + intros id Hid. apply elem_of_app. destruct (decide (id ∈ cached.*1)); [by left|right]. apply H5. by apply Hids'.
    + destruct H5 as [?|(-> & Htot & n' & f' & Hn' & Hf')]; [by left|right]. split_and!; [done|done|]. exists n', f'. split; [done|].
      intros id m Hid Hn. rewrite elem_of_app in Hn. apply Hf'; [apply Hids'|]; naive_solver.
Qed.
End GetMany.
End Polling.

(** ** Examples *)

Module Examples.
(** A task that is finished from the third read on *)
Definition ex_poll (n : nat) : outcome string := Ok (if (n <? 2)%nat then STARTED else SUCCESS).

Lemma wait_finds : wait_for id (Some 12) 5 ex_poll 5 = ([5; 5], Ok SUCCESS).
Proof. reflexivity. Qed.
Lemma wait_times_out : wait_for id (Some 7) 5 (λ _, Ok STARTED) 5 = ([5; 2], Raise TimeoutError).
Proof. reflexivity. Qed.

Lemma wait_for_spec_witness : wait_spec id 5 ex_poll 0 12 (wait_for id (Some 12) 5 ex_poll (S (Z.to_nat (12 / 5 + 1)))).
Proof. apply wait_for_spec; [reflexivity|lia|lia]. Defined.

Definition ex_mget (n : nat) : outcome (string → option string) := Ok (λ i, if bool_decide (i = "a") then Some SUCCESS else None).

Lemma get_many_spec_witness :
  let '(r, cache) := get_many id (Some 7) 5 ex_mget 0 (S (Z.to_nat (7 / 5 + 1))) ∅ {["a"; "b"]} in
  r = Polled [("a", SUCCESS)] [5; 2] (Raise TimeoutError) ∧ NoDup (yields r).*1.
Proof.
  pose proof (get_many_spec id (Some 7) 5 ex_mget 0 7 eq_refl ltac:(lia) eq_refl ∅ {["a"; "b"]} ltac:(lia)) as H.
  revert H. vm_compute. intros H. split; [reflexivity|apply H].
Defined.
End Examples.
End Polling.
