(* ===== verification/Canvas.v ===== *)
(** Signatures and their composition, celery/canvas.py: the four kinds of
    signatures ([Signature], [_chain], [group], [chord]), merging and cloning,
    links, and the operator [|] with the class [chain] built on it.

    Signatures are trees.  Arguments are values of a type [V]; options are a
    dictionary whose values may be signatures again (links).  The tasks of chains
    and groups are lists (not generators), chords have a body, and serialized
    signatures have been converted.  A method that changes a signature returns
    the changed tree; that a clone of a group shares its members with the original
    is not part of the model.

    [evals] is the meaning of a canvas: what its tasks compute, given what each
    task does with its arguments.  [|] is shown to mean composition. *)

From S2P Require Import Prelude.
From S2P Require Import PyDict.

Module Canvas.

(** The entries of a signature (a dictionary) that all kinds have *)
Record attrs (V O : Type) := Attrs {
  args : list V; kwargs : pydict string V; options : pydict string O; immutable : bool }.
Arguments Attrs {_ _} _ _ _ _.
Arguments args {_ _} _.
Arguments kwargs {_ _} _.
Arguments options {_ _} _.
Arguments immutable {_ _} _.

Inductive sig (V : Type) :=
| Task (name : string) (d : attrs V (oval V))
| Chain (d : attrs V (oval V)) (tasks : list (sig V))
| Group (d : attrs V (oval V)) (tasks : list (sig V))
| Chord (d : attrs V (oval V)) (header : list (sig V)) (body : sig V)
with oval (V : Type) :=
| OStr (s : string)
| OBool (b : bool)
| OVal (v : V)
| OList (l : list (oval V))
| OSig (s : sig V).
Arguments Task {_} _ _.
Arguments Chain {_} _ _.
Arguments Group {_} _ _.
Arguments Chord {_} _ _ _.
Arguments OStr {_} _.
Arguments OBool {_} _.
Arguments OVal {_} _.
Arguments OList {_} _.
Arguments OSig {_} _.

Section Canvas.
Context {V : Type} `{!EqDecision V}.
Implicit Types s t a b : sig V.
Implicit Types d : attrs V (oval V).

(** What [Signature.__init__] fills in *)
Definition attrs0 : attrs V (oval V) := Attrs [] [] [] false.

Definition attrs_of s : attrs V (oval V) :=
  match s with Task _ d | Chain d _ | Group d _ | Chord d _ _ => d end.

(** ** Equality of dictionaries, as [==] compares signatures: the order of entries
    does not matter *)
Definition dict_eqb_with {A} (eqb : A → A → bool) (d1 d2 : pydict string A) : bool :=
  (length d1 =? length d2)%nat &&
  forallb (λ kv, match dict_get d2 kv.1 with Some v => eqb kv.2 v | None => false end) d1.

Definition attrs_eqb (oeqb : oval V → oval V → bool) d1 d2 : bool :=
  bool_decide (args d1 = args d2) && dict_eqb_with (λ x y, bool_decide (x = y)) (kwargs d1) (kwargs d2)
  && dict_eqb_with oeqb (options d1) (options d2) && bool_decide (immutable d1 = immutable d2).

Definition list_eqb_with {A} (eqb : A → A → bool) : list A → list A → bool :=
  fix go l1 l2 :=
    match l1, l2 with
    | [], [] => true
    | x :: l1, y :: l2 => eqb x y && go l1 l2
    | _, _ => false
    end.

Fixpoint sig_eqb s1 s2 : bool :=
  match s1, s2 with
  | Task n1 d1, Task n2 d2 => bool_decide (n1 = n2) && attrs_eqb oval_eqb d1 d2
  | Chain d1 l1, Chain d2 l2 | Group d1 l1, Group d2 l2 => attrs_eqb oval_eqb d1 d2 && list_eqb_with sig_eqb l1 l2
  | Chord d1 h1 b1, Chord d2 h2 b2 => attrs_eqb oval_eqb d1 d2 && list_eqb_with sig_eqb h1 h2 && sig_eqb b1 b2
  | _, _ => false
  end
with oval_eqb (x y : oval V) : bool :=
  match x, y with
  | OStr a, OStr b => bool_decide (a = b)
  | OBool a, OBool b => bool_decide (a = b)
  | OVal a, OVal b => bool_decide (a = b)
  | OList a, OList b => list_eqb_with oval_eqb a b
  | OSig a, OSig b => sig_eqb a b
  | _, _ => false
  end.

(** ** Merging, cloning, options *)

Definition IMMUTABLE_OPTIONS : list string := ["group_id"; "stamped_headers"]%string.

Definition stamped_names (o : option (oval V)) : list string :=
  match o with Some (OList l) => omap (λ x, match x with OStr n => Some n | _ => None end) l | _ => [] end.

(** the options of a signature that must not be overridden *)
Definition immutable_options d : list string :=
  IMMUTABLE_OPTIONS ++ stamped_names (dict_get (options d) "stamped_headers"%string).

Definition overridable d (k : string) : bool :=
  bool_decide (k ∉ immutable_options d) || bool_decide (k ∉ dict_keys (options d)).

Definition merge_options d (opts : pydict string (oval V)) : pydict string (oval V) :=
  dict_update (options d)
    (filter (λ kv, overridable d kv.1 = true) opts).

Definition merge d (xs : list V) (kws : pydict string V) (opts : option (pydict string (oval V))) (force : bool) :
    list V * pydict string V * pydict string (oval V) :=
  let new_options := match opts with Some o => merge_options d o | None => options d end in
  if immutable d && negb force then (args d, kwargs d, new_options)
  else (if xs is [] then args d else xs ++ args d,
        if kws is [] then kwargs d else dict_update (kwargs d) kws, new_options).

(** [Signature.clone] up to [from_dict]: what the copy is made from *)
Definition clone_attrs d (xs : list V) (kws : pydict string V) (opts : pydict string (oval V)) : attrs V (oval V) :=
  match xs, kws, opts with
  | [], [], [] => d
  | _, _, _ => let m := merge d xs kws (Some opts) false in Attrs m.1.1 m.1.2 m.2 (immutable d)
  end.

(** [clone] of the four classes.  [from_dict] of chains and groups passes on their
    tasks and options only; that of a chord converts (and so clones) its header. *)
Fixpoint clone s (xs : list V) (kws : pydict string V) (opts : pydict string (oval V)) : sig V :=
  let d := clone_attrs (attrs_of s) xs kws opts in
  match s with
  | Task n _ => Task n d
  | Chain _ ts => Chain (Attrs [] [] (options d) false) (map (λ t, clone t [] [] []) ts)
  | Group _ ts => Group (Attrs [] [] (options d) false) ts
  | Chord _ h b => Chord d (map (λ t, clone t [] [] []) h) (clone b [] [] [])
  end.

Definition copy s : sig V := clone s [] [] [].

Definition set_attrs s d : sig V :=
  match s with
  | Task n _ => Task n d
  | Chain _ ts => Chain d ts
  | Group _ ts => Group d ts
  | Chord _ h b => Chord d h b
  end.

Definition set_options s (o : pydict string (oval V)) : sig V :=
  let d := attrs_of s in set_attrs s (Attrs (args d) (kwargs d) o (immutable d)).

(** [set_immutable]: groups pass it on to their members, chords to their header *)
Fixpoint set_immutable s (b : bool) : sig V :=
  match s with
  | Task _ d | Chain d _ => set_attrs s (Attrs (args d) (kwargs d) (options d) b)
  | Group d ts => Group d (map (λ t, set_immutable t b) ts)
  | Chord d h bd => Chord d (map (λ t, set_immutable t b) h) bd
  end.

(** [Signature.set] *)
Definition set_ s (imm : option bool) (opts : pydict string (oval V)) : sig V :=
  let s := match imm with Some b => set_immutable s b | None => s end in
  set_options s (dict_update (options (attrs_of s)) opts).

(** [Signature.replace] *)
Definition replace s (xs : option (list V)) (kws : option (pydict string V)) (opts : option (pydict string (oval V))) : sig V :=
  let s := copy s in
  let d := attrs_of s in
  set_attrs s (Attrs (default (args d) xs) (default (kwargs d) kws) (default (options d) opts) (immutable d)).

Definition with_list_option s (key : string) : sig V * list (oval V) :=
  match dict_get (options (attrs_of s)) key with
  | None => (set_options s (dict_set (options (attrs_of s)) key (OList [])), [])
  | Some (OList l) => (s, l)
  | Some x => (set_options s (dict_set (options (attrs_of s)) key (OList [x])), [x])
  end.

Definition append_to_list_option s (key : string) (v : oval V) : sig V :=
  let (s, items) := with_list_option s key in
  if existsb (λ x, oval_eqb x v) items then s
  else set_options s (dict_set (options (attrs_of s)) key (OList (items ++ [v]))).

Definition extend_list_option s (key : string) (vs : list (oval V)) : sig V :=
  let (s, items) := with_list_option s key in
  set_options s (dict_set (options (attrs_of s)) key (OList (items ++ vs))).

(** [maybe_list(options.get(key)) or []], the signatures among them *)
Definition links d (key : string) : list (sig V) :=
  omap (λ x, match x with OSig t => Some t | _ => None end)
    match dict_get (options d) key with None => [] | Some (OList l) => l | Some x => [x] end.

(** [Signature.freeze]: the attributes afterwards and the task's id.  [thread_oid] and
    [new_id] are the reply address of the thread and a new id. *)
Definition truthy_set (o : pydict string (oval V)) (k : string) (v : option (oval V)) : pydict string (oval V) :=
  match v with Some v => dict_set o k v | None => o end.

Definition unless_set (o : pydict string (oval V)) (k : string) (v : option (oval V)) : pydict string (oval V) :=
  if dict_in o k then o else truthy_set o k v.

Definition freeze d (id root_id parent_id group_id chord group_index : option (oval V)) (thread_oid new_id : oval V) :
    attrs V (oval V) * oval V :=
  let o := options d in
  let '(tid, o) := match dict_get o "task_id" with
                   | Some tid => (tid, o)
                   | None => let tid := default new_id id in (tid, dict_set o "task_id" tid)
                   end in
  let o := truthy_set o "root_id" root_id in
  let o := truthy_set o "parent_id" parent_id in
  let o := unless_set o "reply_to" (Some thread_oid) in
  let o := unless_set o "group_id" group_id in
  let o := truthy_set o "chord" chord in
  let o := truthy_set o "group_index" group_index in
  (Attrs (args d) (kwargs d) o (immutable d), tid).

(** ** Links

    A chord links to its body, a group to its first member (with an immutable
    copy); the members of a group and, if the setting
    [task_allow_error_cb_on_chord_header] says so, of a chord's header get error
    callbacks each. *)
Definition update_last {A} (f : A → outcome A) (l : list A) : outcome (list A) :=
  match rev l with
  | [] => Raise IndexError
  | x :: l' => let! y := f x in Ok (rev (y :: l'))
  end.

Fixpoint link s (callback : sig V) : outcome (sig V) :=
  match s with
  | Task _ _ | Chain _ _ => Ok (append_to_list_option s "link" (OSig callback))
  | Group d ts =>
      match ts with
      | [] => Raise IndexError
      | t :: ts => let! t := link t (set_ (copy callback) (Some true) []) in Ok (Group d (t :: ts))
      end
  | Chord d h b => let! b := link b callback in Ok (Chord d h b)
  end.

Section Errbacks.
Variable allow_on_header : bool. (* conf.task_allow_error_cb_on_chord_header *)

Definition is_chord s : bool := match s with Chord _ _ _ => true | _ => false end.

(** [link_error] once for each of [errbacks], in turn *)
Fixpoint link_errors s (errbacks : list (sig V)) : sig V :=
  match s with
  | Task _ _ | Chain _ _ => foldl (λ s e, append_to_list_option s "link_error" (OSig e)) s errbacks
  | Group d ts => Group d (map (λ t, link_errors t (map copy errbacks)) ts)
  | Chord d h b =>
      Chord d
        (map (λ t, link_errors t
           (concat (map (λ e, (if allow_on_header then [clone e [] [] [("immutable"%string, OBool true)]] else [])
                              ++ if is_chord t then [e] else []) errbacks))) h)
        (link_errors b errbacks)
  end.

Definition link_error s (errback : sig V) : sig V := link_errors s [errback].

(** ** The operator [|] *)

(** [maybe_unroll_group] and [_is_empty_group] *)
Definition maybe_unroll_group s : sig V :=
  match s with Group _ [t] => t | _ => s end.

Definition is_empty_group s : bool := match s with Group _ [] => true | _ => false end.

(** [_chain.unchain_tasks] *)
Definition unchain_tasks d (ts : list (sig V)) : outcome (list (sig V)) :=
  let tasks := map copy ts in
  let! tasks := foldM (λ tasks cb, update_last (λ t, link t cb) tasks) tasks (links d "link") in
  Ok (foldl (λ tasks e, map (λ t, link_error t e) tasks) tasks (links d "link_error")).

(** [_chain(tasks)] and [chord(header, body)] *)
Definition new_chain (ts : list (sig V)) : sig V := Chain attrs0 ts.
Definition new_chord (h : list (sig V)) b : sig V := Chord attrs0 h b.

(** [_chain.__or__] with a group and with another signature that is not a chain;
    [rec] is the operator itself.  What follows a chord goes to its body; a group
    becomes the header of a chord. *)
Definition append_task d (ts : list (sig V)) b : outcome (sig V) :=
  let! tasks := unchain_tasks d ts in Ok (new_chain (tasks ++ [b])).

Definition chain_or_group (rec : sig V → sig V → outcome (sig V)) d ts b : outcome (sig V) :=
  let! tasks := unchain_tasks d ts in
  match rev tasks with
  | [] => Ok b
  | Chord dc h bd :: init => let! bd := rec bd b in Ok (new_chain (rev (Chord dc h bd :: init)))
  | _ => Ok (new_chain (tasks ++ [b]))
  end.

Definition chain_or_task (rec : sig V → sig V → outcome (sig V)) d ts b : outcome (sig V) :=
  let copied := Chain (Attrs [] [] (options d) false) in
  match rev (map copy ts) with
  | Group _ h :: Chord dc hc bd :: init =>
      let! bd := rec bd (new_chord h b) in Ok (copied (rev (Chord dc hc bd :: init)))
  | Group _ h :: init => Ok (copied (rev (new_chord h b :: init)))
  | Chord dc h bd :: init =>
      if is_chord b then append_task d ts b
      else let! bd := rec bd b in Ok (copied (rev (Chord dc h bd :: init)))
  | _ => append_task d ts b
  end.

(** [Signature.__or__] *)
Definition signature_or a b : outcome (sig V) :=
  match b with
  | Chain d ts => let! ts := unchain_tasks d ts in Ok (new_chain (a :: ts))
  | Group _ _ => Ok (new_chain [a; maybe_unroll_group b])
  | _ => Ok (new_chain [a; b])
  end.

(** [__or__] of the four classes.  The tasks of a chain on the right are appended
    one after the other, so the recursion is not structural. *)
Fixpoint or_ (fuel : nat) a b : outcome (sig V) :=
  match fuel with
  | O => Diverge
  | S fuel =>
      match a with
      | Task _ _ => signature_or a b
      | Group _ ts => if is_empty_group b then Ok a else Ok (new_chord ts b)
      | Chord d h bd =>
          let attach other := let! bd := or_ fuel (copy bd) other in Ok (Chord d (map copy h) bd) in
          match b with
          | Task _ _ | Chord _ _ _ => attach b
          | Group _ [t] => attach t
          | _ => signature_or a b
          end
      | Chain d ts =>
          if is_empty_group b then Ok a else
          match b with
          | Group _ _ =>
              match maybe_unroll_group b with
              | Group _ _ as other => chain_or_group (or_ fuel) d ts other
              | other => or_ fuel a other
              end
          | Chain db tsb => let! tasks := unchain_tasks db tsb in foldM (or_ fuel) a tasks
          | _ => chain_or_task (or_ fuel) d ts b
          end
      end
  end.

(** [chain.__new__]: [chain(x, y, z)] is [_chain() | x | y | z] *)
Definition chain_new (fuel : nat) (ts : list (sig V)) : outcome (sig V) := foldM (or_ fuel) (new_chain []) ts.
End Errbacks.

(** ** What a canvas computes *)

Section Meaning.
(** what a task does with its arguments, and the value that gathers a list *)
Context (sem : string → list V → pydict string V → V) (vlist : list V → V).

(** the value of a signature as a step of a chain, from the values it contributes
    to a header *)
Definition value s (vs : list V) : option V :=
  match s with Group _ [] => None | Group _ _ => Some (vlist vs) | _ => head vs end.

(** what the next step is called with *)
Definition input (xs : list V) (r : option V) : list V := match r with Some v => [v] | None => xs end.

(** The values that a signature called with partial arguments contributes to the
    header it is part of: nested groups are flattened.  A chain calls its first
    task with the partial arguments and each other one with the value before it. *)
Fixpoint evals s (xs : list V) : list V :=
  match s with
  | Task n d => [sem n (if immutable d then args d else xs ++ args d) (kwargs d)]
  | Chain d ts =>
      option_list (foldl (λ r t,
        match value t (evals t (input (if immutable d then args d else xs ++ args d) r)) with
        | Some v => Some v
        | None => r
        end) None ts)
  | Group _ ts => concat (map (λ t, evals t xs) ts)
  | Chord d h b =>
      option_list (value b (evals b [vlist (concat (map (λ t, evals t (if immutable d then args d else xs ++ args d)) h))]))
  end.

Definition eval s (xs : list V) : option V := value s (evals s xs).

Definition eval_seq (xs : list V) (r : option V) (ts : list (sig V)) : option V :=
  foldl (λ r t, match eval t (input xs r) with Some v => Some v | None => r end) r ts.
End Meaning.

(** Canvases in normal form: chains are not empty and take partial arguments as
    they come, groups have two members at least (the operator unrolls smaller
    ones), and so for all parts. *)
Fixpoint proper s : bool :=
  match s with
  | Task _ _ => true
  | Chain d ts => bool_decide (args d = []) && negb (immutable d) && negb (length ts =? 0)%nat && forallb proper ts
  | Group _ ts => (2 <=? length ts)%nat && forallb proper ts
  | Chord _ h b => forallb proper h && proper b
  end.

(** A signature without what has no part in its meaning *)
Definition erase_attrs d : attrs V (oval V) := Attrs (args d) [] [] (immutable d).
Fixpoint erase s : sig V :=
  match s with
  | Task n d => Task n (Attrs (args d) (kwargs d) [] (immutable d))
  | Chain d ts => Chain (erase_attrs d) (map erase ts)
  | Group _ ts => Group attrs0 (map erase ts)
  | Chord d h b => Chord (erase_attrs d) (map erase h) (erase b)
  end.

Fixpoint csize s : nat :=
  match s with
  | Task _ _ => 1
  | Chain _ ts | Group _ ts => S (sum_list (map csize ts))
  | Chord _ h b => S (sum_list (map csize h) + csize b)
  end.

Lemma sig_ind' (P : sig V → Prop) :
  (∀ n d, P (Task n d)) → (∀ d ts, Forall P ts → P (Chain d ts)) → (∀ d ts, Forall P ts → P (Group d ts)) →
  (∀ d h b, Forall P h → P b → P (Chord d h b)) → ∀ s, P s.
Proof.
  intros HT HC HG HD. fix IH 1. intros [n d|d ts|d ts|d h b]; [apply HT|apply HC|apply HG|apply HD; [|apply IH]].
  all: match goal with |- Forall _ ?l => induction l; constructor; [apply IH|assumption] end.
Qed.

(** *** Erasure *)

Lemma map_Forall_ext {A B} (f g : A → B) l : Forall (λ x, f x = g x) l → map f l = map g l.
Proof. induction 1; simpl; congruence. Qed.

Lemma map_Forall_compose {A} (f : A → A) (g : A → A) l : Forall (λ x, f (g x) = f x) l → map f (map g l) = map f l.
Proof. induction 1; simpl; congruence. Qed.

Lemma Forall_mp {A} (P Q : A → Prop) l : Forall (λ x, P x → Q x) l → Forall P l → Forall Q l.
Proof. induction 1; inversion 1; subst; constructor; auto. Qed.

Lemma forallb_Forall' {A} (f : A → bool) l : forallb f l = true ↔ Forall (λ x, f x = true) l.
Proof. induction l; simpl; [split; [constructor|done]|]. rewrite andb_true_iff, IHl, Forall_cons. done. Qed.

Lemma forallb_map_ext {A} (f : A → bool) g l : Forall (λ x, f (g x) = f x) l → forallb f (map g l) = forallb f l.
Proof. induction 1; simpl; congruence. Qed.

Lemma erase_set_options s o : erase (set_options s o) = erase s.
Proof. by destruct s. Qed.

Lemma erase_append s k v : erase (append_to_list_option s k v) = erase s.
Proof.
  unfold append_to_list_option, with_list_option.
  repeat case_match; simplify_eq; rewrite ?erase_set_options; done.
Qed.

Lemma erase_link s cb s' : link s cb = Ok s' → erase s' = erase s.
Proof.
  revert cb s'. induction s as [n d|d ts IH|d ts IH|d h b _ IH] using sig_ind'; intros cb s' H; simpl in H.
  - injection H as <-. apply erase_append.
  - injection H as <-. apply erase_append.
  - destruct ts as [|t ts]; [done|]. apply obind_Ok in H as (t' & Ht & [= <-]).
    apply Forall_cons in IH as [IH _]. simpl. by rewrite (IH _ _ Ht).
  - apply obind_Ok in H as (b' & Hb & [= <-]). simpl. by rewrite (IH _ _ Hb).
Qed.

Lemma link_proper s cb : proper s = true → is_Ok (link s cb).
Proof.
  revert cb. induction s as [n d|d ts IH|d ts IH|d h b _ IH] using sig_ind'; intros cb H; simpl in *; try by eexists.
  - destruct ts as [|t ts]; [done|]. apply Forall_cons in IH as [IH _]. simpl in H.
    rewrite !andb_true_iff in H. destruct (IH (set_ (copy cb) (Some true) [])) as [t' ->]; [tauto|by eexists].
  - rewrite andb_true_iff in H. destruct (IH cb) as [b' ->]; [tauto|by eexists].
Qed.

Lemma erase_appends k es s : erase (foldl (λ s e, append_to_list_option s k (OSig e)) s es) = erase s.
Proof. revert s. induction es as [|e es IH]; intros s; simpl; [done|]. by rewrite IH, erase_append. Qed.

Lemma erase_link_errors allow s es : erase (link_errors allow s es) = erase s.
Proof.
  revert es. induction s as [n d|d ts IH|d ts IH|d h b IHh IH] using sig_ind'; intros es; simpl; [apply erase_appends..| |].
  - f_equal. rewrite map_map. apply map_Forall_ext. eapply Forall_impl; [exact IH|]. intros t Ht. apply Ht.
  - f_equal; [|by apply IH]. rewrite map_map. apply map_Forall_ext. eapply Forall_impl; [exact IHh|]. intros t Ht. apply Ht.
Qed.

Lemma erase_copy s : proper s = true → erase (copy s) = erase s.
Proof.
  unfold copy. induction s as [n d|d ts IH|d ts IH|d h b IHh IH] using sig_ind'; intros H; simpl in *; [done|..].
  - rewrite !andb_true_iff, forallb_Forall' in H. destruct H as [[[Ha%bool_decide_eq_true Hi] _] Hp].
    unfold erase_attrs; simpl. destruct (immutable d); [done|]. rewrite Ha. f_equal.
    apply map_Forall_compose. exact (Forall_mp _ _ _ IH Hp).
  - done.
  - rewrite andb_true_iff, forallb_Forall' in H. destruct H as [Hp Hb]. rewrite IH by done. f_equal.
    apply map_Forall_compose. exact (Forall_mp _ _ _ IHh Hp).
Qed.

Lemma proper_erase s : proper (erase s) = proper s.
Proof.
  induction s as [n d|d ts IH|d ts IH|d h b IHh IH] using sig_ind'; simpl; [done|..]; rewrite ?length_map, ?IH;
    rewrite forallb_map_ext by assumption; done.
Qed.

Lemma csize_erase s : csize (erase s) = csize s.
Proof.
  induction s as [n d|d ts IH|d ts IH|d h b IHh IH] using sig_ind'; simpl; [done|..]; rewrite ?IH, map_map;
    rewrite (map_Forall_ext _ csize) by assumption; done.
Qed.

Section Evals.
Context (sem : string → list V → pydict string V → V) (vlist : list V → V).

Lemma value_erase s vs : value vlist (erase s) vs = value vlist s vs.
Proof. destruct s as [| |d [|]|]; done. Qed.

Lemma evals_erase s xs : evals sem vlist (erase s) xs = evals sem vlist s xs.
Proof.
  revert xs. induction s as [n d|d ts IH|d ts IH|d h b IHh IH] using sig_ind'; intros xs; simpl; [done|..].
  - f_equal. generalize (None (A:=V)) as r. induction IH as [|t ts Ht _ IHts]; intros r; simpl; [done|].
    rewrite value_erase, Ht. apply IHts.
  - f_equal. rewrite map_map. apply map_Forall_ext. eapply Forall_impl; [exact IH|]. intros t Ht. apply Ht.
  - rewrite value_erase, IH. do 6 f_equal. rewrite map_map. apply map_Forall_ext. eapply Forall_impl; [exact IHh|].
    intros t Ht. apply Ht.
Qed.

Lemma eval_erase s xs : eval sem vlist (erase s) xs = eval sem vlist s xs.
Proof. unfold eval. by rewrite value_erase, evals_erase. Qed.

Lemma eval_same s s' xs : erase s = erase s' → eval sem vlist s xs = eval sem vlist s' xs.
Proof. intros H. by rewrite <-eval_erase, H, eval_erase. Qed.

Lemma evals_same s s' xs : erase s = erase s' → evals sem vlist s xs = evals sem vlist s' xs.
Proof. intros H. by rewrite <-evals_erase, H, evals_erase. Qed.

Lemma eval_seq_same xs r ts ts' : map erase ts = map erase ts' → eval_seq sem vlist xs r ts = eval_seq sem vlist xs r ts'.
Proof.
  revert r ts'. induction ts as [|t ts IH]; intros r [|t' ts'] H; simplify_eq/=; [done|].
  erewrite eval_same by done. by apply IH.
Qed.

Lemma eval_chain d ts xs :
  args d = [] → immutable d = false → eval sem vlist (Chain d ts) xs = eval_seq sem vlist xs None ts.
Proof.
  intros Ha Hi. unfold eval, eval_seq; simpl. rewrite Ha, Hi, (right_id_L [] (++)).
  by destruct (foldl _ _ _).
Qed.

Lemma eval_seq_app xs r ts1 ts2 :
  eval_seq sem vlist xs r (ts1 ++ ts2) = eval_seq sem vlist xs (eval_seq sem vlist xs r ts1) ts2.
Proof. apply foldl_app. Qed.

(** a canvas in normal form has a value *)
Lemma eval_proper s xs : proper s = true → is_Some (eval sem vlist s xs).
Proof.
  revert xs. induction s as [n d|d ts IH|d ts IH|d h b IHh IH] using sig_ind'; intros xs H.
  - by eexists.
  - simpl in H. rewrite !andb_true_iff, forallb_Forall', bool_decide_eq_true in H. destruct H as [[[Ha Hi] Hn] Hp].
    destruct (immutable d) eqn:E; [done|]. rewrite eval_chain by done.
    destruct ts as [|t ts]; [done|]. clear Hn. apply Forall_cons in IH as [IH _], Hp as [Ht _].
    simpl. destruct (IH xs Ht) as [v ->]. clear. revert v. induction ts as [|t ts IH]; intros v; simpl; [by eexists|].
    destruct (eval _ _ t _); apply IH.
  - simpl in H. destruct ts; [done|]. by eexists.
  - simpl in H. rewrite andb_true_iff in H. unfold eval; simpl.
    destruct (IH [vlist (concat (map (λ t, evals sem vlist t (if immutable d then args d else xs ++ args d)) h))]) as [v Hv]; [tauto|].
    unfold eval in Hv. rewrite Hv. by eexists.
Qed.

Lemma eval_chord d h b xs :
  eval sem vlist (Chord d h b) xs =
  eval sem vlist b [vlist (concat (map (λ t, evals sem vlist t (if immutable d then args d else xs ++ args d)) h))].
Proof. unfold eval at 1; simpl. by destruct (value _ _ _) eqn:E; unfold eval; rewrite E. Qed.

Lemma eval_seq_snoc xs r ts t : proper t = true →
  eval_seq sem vlist xs r (ts ++ [t]) = eval sem vlist t (input xs (eval_seq sem vlist xs r ts)).
Proof.
  intros Ht. rewrite eval_seq_app. simpl. by destruct (eval_proper t (input xs (eval_seq sem vlist xs r ts)) Ht) as [v ->].
Qed.
End Evals.

Lemma eval_seq_Some sem vlist xs ys v ts : eval_seq sem vlist xs (Some v) ts = eval_seq sem vlist ys (Some v) ts.
Proof. revert v. induction ts as [|t ts IH]; intros v; simpl; [done|]. destruct (eval _ _ t _); apply IH. Qed.

Lemma eval_seq_input sem vlist xs r ts :
  ts ≠ [] → forallb proper ts = true → eval_seq sem vlist xs r ts = eval_seq sem vlist (input xs r) None ts.
Proof.
  destruct ts as [|t ts]; [done|]. simpl. rewrite andb_true_iff. intros _ [Ht _].
  destruct (eval_proper sem vlist t (input xs r) Ht) as [v ->]. apply eval_seq_Some.
Qed.

Lemma erase_proper ts ts' : map erase ts = map erase ts' → forallb proper ts = forallb proper ts'.
Proof.
  revert ts'. induction ts as [|t ts IH]; intros [|t' ts'] H; simplify_eq/=; [done|].
  rewrite <-(proper_erase t), <-(proper_erase t'). f_equal; [congruence|auto].
Qed.

Lemma sum_list_app' l l' : sum_list (l ++ l') = (sum_list l + sum_list l')%nat.
Proof. induction l; simpl; lia. Qed.

Lemma erase_sum ts ts' : map erase ts = map erase ts' → sum_list (map csize ts) = sum_list (map csize ts').
Proof.
  revert ts'. induction ts as [|t ts IH]; intros [|t' ts'] H; simplify_eq/=; [done|].
  rewrite <-(csize_erase t), <-(csize_erase t'). f_equal; [congruence|auto].
Qed.

Lemma erase_copies ts : forallb proper ts = true → map erase (map copy ts) = map erase ts.
Proof.
  intros H%forallb_Forall'. apply map_Forall_compose. eapply Forall_impl; [exact H|]. apply erase_copy.
Qed.

Lemma unchain_spec allow d ts :
  ts ≠ [] ∨ links d "link" = [] → forallb proper ts = true →
  ∃ ts', unchain_tasks allow d ts = Ok ts' ∧ map erase ts' = map erase ts.
Proof.
  intros Hne Hp. unfold unchain_tasks.
  assert (∃ ts', foldM (λ tasks cb, update_last (λ t, link t cb) tasks) (map copy ts) (links d "link") = Ok ts'
                 ∧ map erase ts' = map erase ts) as (ts' & -> & Hts'); cycle 1.
  { eexists. split; [done|]. revert ts' Hts'. induction (links d "link_error") as [|e es IH]; intros ts' Hts'; simpl; [done|].
    apply IH. rewrite <-Hts', map_map. apply map_Forall_ext, Forall_forall. intros. apply erase_link_errors. }
  destruct Hne as [Hne|Hnil]; [|rewrite Hnil; exists (map copy ts); split; [done|by apply erase_copies]].
  apply (foldM_total (λ ts', map erase ts' = map erase ts)); [by apply erase_copies|].
  intros ts' cb _ Hts'. unfold update_last. rewrite <-(erase_proper _ _ Hts') in Hp.
  destruct ts' as [|t l _] using rev_ind; [by destruct ts|]. rewrite rev_unit.
  rewrite forallb_app in Hp. simpl in Hp. rewrite !andb_true_iff in Hp.
  destruct (link_proper t cb) as [t' Ht]; [tauto|]. rewrite Ht. eexists. split; [done|].
  simpl. rewrite rev_involutive, <-Hts', !map_app. simpl. by rewrite (erase_link _ _ _ Ht).
Qed.

Lemma eval_seq_cons sem vlist xs r t ts : proper t = true →
  ∃ v, eval sem vlist t (input xs r) = Some v ∧ eval_seq sem vlist xs r (t :: ts) = eval_seq sem vlist xs (Some v) ts.
Proof. intros [v Hv]%(eval_proper sem vlist t (input xs r)). exists v. split; [done|]. simpl. by rewrite Hv. Qed.

(** *** Composition *)

Section Or.
Context (allow : bool) (sem : string → list V → pydict string V → V) (vlist : list V → V).
Local Abbreviation eval := (eval sem vlist).
Local Abbreviation eval_seq := (eval_seq sem vlist).

(** [s] does what [a] does and then [b], and is not too large *)
Record composes a b s : Prop := {
  co_proper : proper s = true;
  co_size : (csize s ≤ csize a + csize b + 1)%nat;
  co_eval : ∀ xs, eval s xs = eval b (input xs (eval a xs)) }.

(** what [_chain()] starts from *)
Definition startable a : Prop := proper a = true ∨ a = new_chain [].

Definition is_chain s : bool := match s with Chain _ _ => true | _ => false end.

Lemma composes_pair a b : proper a = true → proper b = true → composes a b (new_chain [a; b]).
Proof.
  intros Ha Hb. split; [by simpl; rewrite Ha, Hb|simpl; lia|]. intros xs. unfold new_chain. rewrite eval_chain by done.
  simpl. destruct (eval_proper sem vlist a xs Ha) as [v ->]. simpl.
  by destruct (eval_proper sem vlist b [v] Hb) as [w ->].
Qed.

(** appending to, or replacing the end of, the tasks of a chain *)
Lemma composes_end d d' ts init suf b y :
  args d = [] → immutable d = false → args d' = [] → immutable d' = false →
  forallb proper ts = true → map erase (init ++ suf) = map erase ts →
  proper y = true → (csize y ≤ sum_list (map csize suf) + csize b + 1)%nat →
  (∀ xs r, eval y (input xs r) = eval b (input xs (eval_seq xs r suf))) →
  composes (Chain d ts) b (Chain d' (init ++ [y])).
Proof.
  intros Ha Hi Ha' Hi' Hp Her Hy Hsz Hev.
  pose proof (erase_proper _ _ Her) as Hp'. rewrite Hp, forallb_app, andb_true_iff in Hp'. destruct Hp' as [Hpi _].
  pose proof (erase_sum _ _ Her) as Hsum. rewrite map_app, sum_list_app' in Hsum. split.
  - simpl. rewrite Ha', Hi', forallb_app, length_app, Hpi, Nat.add_comm. simpl. by rewrite Hy.
  - simpl. rewrite map_app, sum_list_app'. simpl. lia.
  - intros xs. rewrite !eval_chain by done. rewrite eval_seq_snoc by done.
    rewrite <-(eval_seq_same _ _ xs None _ _ Her), eval_seq_app. apply Hev.
Qed.
Lemma startable_chain d ts : startable (Chain d ts) →
  args d = [] ∧ immutable d = false ∧ forallb proper ts = true ∧ (ts ≠ [] ∨ links d "link" = []).
Proof.
  intros [H|[= -> ->]]; [|by eauto 7]. simpl in H. rewrite !andb_true_iff, bool_decide_eq_true in H.
  destruct H as [[[? ?%negb_true_iff] Hn] ?]. repeat split; [done..|]. left. by destruct ts.
Qed.

Lemma composes_group d ts b : proper (Group d ts) = true → proper b = true → composes (Group d ts) b (new_chord ts b).
Proof.
  simpl. rewrite andb_true_iff. intros [Hn Hp] Hb. split; [by simpl; rewrite Hp|simpl; lia|].
  intros xs. unfold new_chord. rewrite eval_chord. simpl. rewrite (right_id_L [] (++)). by destruct ts.
Qed.

Lemma composes_chord d h h' bd b bd' :
  proper (Chord d h bd) = true → map erase h' = map erase h → composes bd b bd' →
  composes (Chord d h bd) b (Chord d h' bd').
Proof.
  simpl. rewrite andb_true_iff. intros [Hh Hbd] Her [Hp Hs He]. split.
  - simpl. by rewrite (erase_proper _ _ Her), Hh.
  - simpl. rewrite (erase_sum _ _ Her). lia.
  - intros xs. rewrite !eval_chord, He. set (ys := if immutable d then args d else xs ++ args d).
    assert (map (λ t, evals sem vlist t ys) h' = map (λ t, evals sem vlist t ys) h) as ->.
    { clear -Her. revert h Her. induction h' as [|t h' IH]; intros [|t' h] H; simplify_eq/=; [done|].
      f_equal; [by apply evals_same|auto]. }
    destruct (eval_proper sem vlist bd [vlist (concat (map (λ t, evals sem vlist t ys) h))] Hbd) as [w ->]. done.
Qed.

Lemma composes_same a a' b s : erase a = erase a' → composes a b s → composes a' b s.
Proof.
  intros Her [Hp Hs He]. split; [done|by rewrite <-(csize_erase a'), <-Her, csize_erase|].
  intros xs. by rewrite He, (eval_same _ _ _ _ xs Her).
Qed.

Lemma composes_last d d' ts init x b y :
  startable (Chain d ts) → args d' = [] → immutable d' = false →
  map erase (init ++ [x]) = map erase ts → composes x b y → composes (Chain d ts) b (Chain d' (init ++ [y])).
Proof.
  intros (Ha & Hi & Hp & _)%startable_chain Ha' Hi' Her [Hpy Hs He].
  apply (composes_end _ _ _ _ [x]); try done; [simpl; lia|].
  intros xs r. simpl. rewrite <-(erase_proper _ _ Her), forallb_app in Hp. simpl in Hp. rewrite !andb_true_iff in Hp.
  rewrite He. destruct (eval_proper sem vlist x (input xs r)) as [v ->]; [tauto|done].
Qed.

Lemma composes_append d ts ts' b :
  startable (Chain d ts) → map erase ts' = map erase ts → proper b = true →
  composes (Chain d ts) b (new_chain (ts' ++ [b])).
Proof.
  intros (Ha & Hi & Hp & _)%startable_chain Her Hb.
  apply (composes_end _ _ _ _ []); rewrite ?app_nil_r; try done; simpl; lia.
Qed.
(** the last two tasks of a chain, a chord and a group, with what follows *)
Lemma composes_last_two d d' ts init dc hc bd dg h b bd' :
  startable (Chain d ts) → args d' = [] → immutable d' = false →
  map erase (init ++ [Chord dc hc bd; Group dg h]) = map erase ts → proper b = true →
  composes bd (new_chord h b) bd' → composes (Chain d ts) b (Chain d' (init ++ [Chord dc hc bd'])).
Proof.
  intros (Ha & Hi & Hp & _)%startable_chain Ha' Hi' Her Hb Hc.
  pose proof (erase_proper _ _ Her) as Hp'. rewrite Hp, forallb_app in Hp'. simpl in Hp'. rewrite !andb_true_iff in Hp'.
  assert (composes (Chord dc hc bd) (new_chord h b) (Chord dc hc bd')) as [Hpy Hs He].
  { apply composes_chord; [simpl; rewrite andb_true_iff; tauto|done|done]. }
  assert (composes (Group dg h) b (new_chord h b)) as [_ _ He'] by (apply composes_group; [simpl; rewrite andb_true_iff; tauto|done]).
  apply (composes_end _ _ _ _ [Chord dc hc bd; Group dg h]); try done; [simpl in *; lia|].
  intros xs r. rewrite He.
  destruct (eval_seq_cons sem vlist xs r (Chord dc hc bd) [Group dg h]) as (v & -> & ->); [simpl; rewrite andb_true_iff; tauto|].
  destruct (eval_seq_cons sem vlist xs (Some v) (Group dg h) []) as (w & Hw & ->); [simpl; rewrite andb_true_iff; tauto|].
  cbn [input] in *. by rewrite He', Hw.
Qed.

(** what the bodies of chords at the end of a chain need of the operator *)
Definition rec_composes (rec : sig V → sig V → outcome (sig V)) (k : nat) : Prop :=
  ∀ a b, proper a = true → proper b = true → is_chain b = false → (csize a < k)%nat → ∃ s, rec a b = Ok s ∧ composes a b s.

Lemma body_composes rec d ts dc hc bd init suf b' :
  rec_composes rec (csize (Chain d ts)) → forallb proper ts = true → proper b' = true → is_chain b' = false →
  map erase (init ++ [Chord dc hc bd] ++ suf) = map erase ts →
  ∃ bd', rec bd b' = Ok bd' ∧ composes bd b' bd' ∧ composes (Chord dc hc bd) b' (Chord dc hc bd').
Proof.
  intros Hrec Hp Hb Hc Hi. pose proof (erase_proper _ _ Hi) as Hpi. rewrite Hp, !forallb_app in Hpi. simpl in Hpi.
  rewrite !andb_true_iff in Hpi. pose proof (erase_sum _ _ Hi) as Hsi. rewrite !map_app, !sum_list_app' in Hsi.
  destruct (Hrec bd b') as (bd' & Hbd & Hco); [tauto|done|done|simpl in *; lia|].
  exists bd'. split_and!; [done|done|]. apply composes_chord; [simpl; rewrite andb_true_iff; tauto|done|done].
Qed.

Lemma append_composes d ts b :
  startable (Chain d ts) → proper b = true → ∃ s, append_task allow d ts b = Ok s ∧ composes (Chain d ts) b s.
Proof.
  intros Ha Hb. destruct (startable_chain _ _ Ha) as (_ & _ & Hp & Hl). unfold append_task.
  destruct (unchain_spec allow d ts Hl Hp) as (us & -> & Her). eexists. split; [done|]. by apply composes_append.
Qed.

Lemma chain_or_group_composes rec d ts b :
  rec_composes rec (csize (Chain d ts)) → startable (Chain d ts) → proper b = true → is_chain b = false →
  ∃ s, chain_or_group allow rec d ts b = Ok s ∧ composes (Chain d ts) b s.
Proof.
  intros Hrec Ha Hb Hc. pose proof (append_composes d ts b Ha Hb) as Happ. unfold append_task in Happ.
  destruct (startable_chain _ _ Ha) as (Hda & Hdi & Hp & Hl). unfold chain_or_group.
  destruct (unchain_spec allow d ts Hl Hp) as (us & Hus & Her). rewrite Hus in *. simpl in *.
  destruct (rev us) as [|x init] eqn:E; apply (f_equal (@rev _)) in E; rewrite rev_involutive in E; simpl in E; subst us.
  - eexists. split; [done|]. destruct ts; [|done]. destruct Ha as [Ha|[= ->]]; [simpl in Ha; by rewrite !andb_false_r in Ha|].
    split; [done|lia|done].
  - destruct x as [| | |dc hc bd]; try done.
    destruct (body_composes rec d ts dc hc bd (rev init) [] b Hrec Hp Hb Hc) as (bd' & -> & _ & Hco);
      [by rewrite app_nil_r|].
    eexists. split; [done|]. simpl. by eapply composes_last.
Qed.

Lemma chain_or_task_composes rec d ts b :
  rec_composes rec (csize (Chain d ts)) → startable (Chain d ts) → proper b = true → is_chain b = false →
  ∃ s, chain_or_task allow rec d ts b = Ok s ∧ composes (Chain d ts) b s.
Proof.
  intros Hrec Ha Hb Hc. pose proof (append_composes d ts b Ha Hb) as Happ.
  destruct (startable_chain _ _ Ha) as (Hda & Hdi & Hp & Hl). unfold chain_or_task.
  pose proof (erase_copies ts Hp) as Her.
  destruct (rev (map copy ts)) as [|x init] eqn:E; apply (f_equal (@rev _)) in E; rewrite rev_involutive in E; simpl in E;
    [done|]. rewrite E in Her.
  destruct x as [| |dg h|dc hc bd]; [done|done| |].
  - assert (composes (Group dg h) b (new_chord h b)) as Hg.
    { apply composes_group; [|done]. pose proof (erase_proper _ _ Her) as Hpi. rewrite Hp, forallb_app in Hpi.
      simpl in *. rewrite !andb_true_iff in *. tauto. }
    pose proof (composes_last _ (Attrs [] [] (options d) false) _ _ _ _ _ Ha eq_refl eq_refl Her Hg) as Hl'.
    destruct init as [|[| | |dc hc bd] init]; try (eexists; split; [done|]; exact Hl').
    simpl in Her. rewrite <-app_assoc in Her.
    destruct (body_composes rec d ts dc hc bd (rev init) [Group dg h] (new_chord h b) Hrec Hp) as (bd' & -> & Hco & _);
      [by destruct Hg|done|done|].
    eexists. split; [done|]. simpl. by apply (composes_last_two _ _ _ _ _ _ bd dg h).
  - destruct (is_chord b); [done|].
    destruct (body_composes rec d ts dc hc bd (rev init) [] b Hrec Hp Hb Hc) as (bd' & -> & _ & Hco);
      [by rewrite app_nil_r|].
    eexists. split; [done|]. simpl. by eapply composes_last.
Qed.

Lemma or_not_chain n a b :
  startable a → proper b = true → is_chain b = false → (csize a < n)%nat →
  ∃ s, or_ allow n a b = Ok s ∧ composes a b s.
Proof.
  revert a b. induction n as [|n IH]; intros a b Ha Hb Hc Hn; [lia|].
  assert (is_empty_group b = false) as Hne by (destruct b as [| |? []|]; done).
  assert (maybe_unroll_group b = b) as Hun by (destruct b as [| |? [|? []]|]; done).
  assert (proper a = true → ∃ s, signature_or allow a b = Ok s ∧ composes a b s) as Hsig.
  { intros Hp. exists (new_chain [a; b]). split; [|by apply composes_pair]. destruct b; cbn [signature_or]; rewrite ?Hun; done. }
  assert (rec_composes (or_ allow n) (csize a)) as Hrec.
  { intros a' b' ? ? ? ?. apply IH; [by left|done|done|lia]. }
  destruct a as [na da|d ts|d ts|d h bd]; cbn [or_]; rewrite ?Hne.
  - destruct Ha as [Ha|]; [|done]. by apply Hsig.
  - destruct b; [by apply chain_or_task_composes|done| |by apply chain_or_task_composes].
    rewrite Hun. by apply chain_or_group_composes.
  - destruct Ha as [Ha|]; [|done]. eexists. split; [done|]. by apply composes_group.
  - destruct Ha as [Ha|]; [|done]. pose proof Ha as Ha'. simpl in Ha'. rewrite andb_true_iff in Ha'. destruct Ha' as [Hh Hbd].
    pose proof (erase_copy bd Hbd) as Her.
    destruct (IH (copy bd) b) as (bd' & Ebd & Hco); [left; by rewrite <-proper_erase, Her, proper_erase|done|done| |].
    { rewrite <-csize_erase, Her, csize_erase. simpl in Hn. lia. }
    assert (composes (Chord d h bd) b (Chord d (map copy h) bd')) as Hr.
    { apply composes_chord; [done|by apply erase_copies|]. by apply (composes_same (copy bd)). }
    destruct b as [| |db [|? []]|]; try done; try (rewrite Ebd; by eauto); by apply Hsig.
Qed.
Lemma proper_chain d ts : proper (Chain d ts) = true → ts ≠ [] ∧ startable (Chain d ts).
Proof. intros H. split; [|by left]. intros ->. simpl in H. by rewrite andb_false_r in H. Qed.

(** The size of the operands bounds the depth of the recursion. *)
Definition or_ok (n : nat) : Prop := ∀ a b,
  startable a → proper b = true → (csize a + 3 * csize b ≤ n)%nat →
  ∃ s, or_ allow n a b = Ok s ∧ proper s = true ∧ (csize s ≤ csize a + 2 * csize b)%nat ∧
       ∀ xs, eval s xs = eval b (input xs (eval a xs)).

Lemma csize_pos s : (1 ≤ csize s)%nat.
Proof. destruct s; simpl; lia. Qed.

Lemma fold_or n us a :
  (∀ a b, b ∈ us → startable a → proper b = true → (csize a + 3 * csize b ≤ n)%nat →
    ∃ s, or_ allow n a b = Ok s ∧ proper s = true ∧ (csize s ≤ csize a + 2 * csize b)%nat ∧
         ∀ xs, eval s xs = eval b (input xs (eval a xs))) →
  startable a → forallb proper us = true → (csize a + 3 * sum_list (map csize us) ≤ n)%nat →
  ∃ s, foldM (or_ allow n) a us = Ok s ∧ (proper a = true ∨ us ≠ [] → proper s = true) ∧
       (csize s ≤ csize a + 2 * sum_list (map csize us))%nat ∧ ∀ xs, eval s xs = eval_seq xs (eval a xs) us.
Proof.
  revert a. induction us as [|u us IH]; intros a Hor Ha Hp Hn; simpl in *.
  { exists a. split_and!; [done|by intros [|]|lia|done]. }
  rewrite andb_true_iff in Hp. destruct Hp as [Hu Hus].
  destruct (Hor a u) as (s1 & -> & Hp1 & Hs1 & He1); [set_solver|done|done|lia|]. simpl.
  destruct (IH s1) as (s & -> & Hps & Hss & He); [intros; apply Hor; [set_solver|done..]|by left|done|lia|].
  exists s. split_and!; [done|auto|lia|].
  intros xs. rewrite He, He1. destruct (eval_proper sem vlist u (input xs (eval a xs)) Hu) as [v ->]. done.
Qed.

(** a signature before the tasks of a chain *)
Lemma prepend_chain a d ts us xs :
  proper a = true → proper (Chain d ts) = true → map erase us = map erase ts →
  proper (new_chain (a :: us)) = true ∧ (csize (new_chain (a :: us)) ≤ csize a + csize (Chain d ts))%nat ∧
  eval (new_chain (a :: us)) xs = eval (Chain d ts) (input xs (eval a xs)).
Proof.
  intros Ha Hb Her. destruct (proper_chain _ _ Hb) as [Hne (Hda & Hdi & Hp & _)%startable_chain]. split_and!.
  - simpl. by rewrite Ha, (erase_proper _ _ Her), Hp.
  - simpl. rewrite (erase_sum _ _ Her). lia.
  - unfold new_chain. rewrite !eval_chain by done.
    destruct (eval_seq_cons sem vlist xs None a us Ha) as (v & Hv & ->). cbn [input] in Hv. rewrite Hv.
    rewrite (eval_seq_same _ _ _ _ us ts Her). by apply eval_seq_input.
Qed.

Lemma or_spec n : or_ok n.
Proof.
  induction n as [|n IH]; intros a b Ha Hb Hn; [pose proof (csize_pos a); lia|].
  pose proof (csize_pos b) as Hpos. destruct (is_chain b) eqn:Hc; cycle 1.
  { destruct (or_not_chain (S n) a b) as (s & Hs & [? ? ?]); [done|done|done|lia|]. exists s. split_and!; [done|done|lia|done]. }
  destruct b as [|d ts| |]; try done. destruct (proper_chain _ _ Hb) as [Hne (_ & _ & Hp & Hl)%startable_chain].
  destruct (unchain_spec allow d ts Hl Hp) as (us & Hus & Her).
  assert (proper a = true → ∃ s, signature_or allow a (Chain d ts) = Ok s ∧ proper s = true ∧
    (csize s ≤ csize a + 2 * csize (Chain d ts))%nat ∧ ∀ xs, eval s xs = eval (Chain d ts) (input xs (eval a xs))) as Hsig.
  { intros Hpa. unfold signature_or. rewrite Hus. exists (new_chain (a :: us)).
    pose proof (λ xs, prepend_chain a d ts us xs Hpa Hb Her) as H. split_and!; [done|apply (H [])| |apply H].
    destruct (H []) as (_ & ? & _). lia. }
  destruct a as [na da|da tsa|da tsa|da h bd]; cbn [or_ is_empty_group].
  - destruct Ha as [Ha|]; [by apply Hsig|done].
  - rewrite Hus. cbn [obind]. pose proof (erase_sum _ _ Her) as Hsum.
    destruct (fold_or n us (Chain da tsa)) as (s & -> & Hps & Hss & He).
    + intros a b Hb' ? ? ?. by apply IH.
    + done.
    + by rewrite (erase_proper _ _ Her).
    + rewrite Hsum. simpl in *. lia.
    + exists s. split_and!; [done|apply Hps; right; by intros ->; destruct ts|rewrite Hsum in Hss; simpl in *; lia|].
      intros xs. apply proper_chain in Hb as [_ (Hda & Hdi & _ & _)%startable_chain].
      rewrite He, (eval_seq_same _ _ _ _ us ts Her), (eval_chain _ _ d) by done. by apply eval_seq_input.
  - destruct Ha as [Ha|]; [|done]. destruct (composes_group da tsa (Chain d ts) Ha Hb) as [? ? ?].
    eexists. split_and!; [done|done|lia|done].
  - destruct Ha as [Ha|]; [by apply Hsig|done].
Qed.
(** C2: for canvases in normal form, [a | b] is a canvas in normal form that does
    what [a] does and then [b]: it returns (the recursion ends), and called with any
    arguments it computes what [b] computes when called with the value of [a].
    In normal form ([proper]) means that every group in the canvas has two members
    or more, and every chain in it has a task, no arguments of its own and is not
    immutable; [a] may also be the empty chain to start from.  Within that, all
    combinations of tasks, chains, groups and chords are covered, and the bodies
    that take up what follows a chord.  Outside of it the statement does not hold:
    a group of one task is unrolled on one side only
    ([single_group_not_associative]), and the copy of an immutable chain takes
    arguments ([chain_clone_loses_immutable]). *)
Theorem or_composes n a b :
  startable a → proper b = true → (csize a + 3 * csize b ≤ n)%nat →
  ∃ s, or_ allow n a b = Ok s ∧ proper s = true ∧ ∀ xs, eval s xs = eval b (input xs (eval a xs)).
Proof. intros Ha Hb Hn. destruct (or_spec n a b Ha Hb Hn) as (s & ? & ? & _ & ?). by exists s. Qed.

(** [chain(x, y, z)] calls the tasks one after the other, each with the value of
    the one before. *)
Theorem chain_new_composes n ts :
  ts ≠ [] → forallb proper ts = true → (1 + 3 * sum_list (map csize ts) ≤ n)%nat →
  ∃ s, chain_new allow n ts = Ok s ∧ proper s = true ∧ ∀ xs, eval s xs = eval_seq xs None ts.
Proof.
  intros Hne Hp Hn. destruct (fold_or n ts (new_chain [])) as (s & Hs & Hps & _ & He);
    [intros a b _; apply or_spec|by right|done|simpl; lia|].
  exists s. split_and!; [done|by apply Hps; right|exact He].
Qed.

(** For canvases in normal form the operator is associative in what is computed:
    it does not matter how a workflow is put together. *)
Theorem or_assoc n a b c :
  startable a → proper b = true → proper c = true → (csize a + 6 * (csize b + csize c) ≤ n)%nat →
  ∃ ab bc l r, or_ allow n a b = Ok ab ∧ or_ allow n ab c = Ok l ∧ or_ allow n b c = Ok bc ∧ or_ allow n a bc = Ok r ∧
    ∀ xs, eval l xs = eval r xs.
Proof.
  intros Ha Hb Hc Hn.
  destruct (or_spec n a b) as (ab & Hab & Pab & Sab & Eab); [done|done|lia|].
  destruct (or_spec n b c) as (bc & Hbc & Pbc & Sbc & Ebc); [by left|done|lia|].
  destruct (or_spec n ab c) as (l & Hl & Pl & Sl & El); [by left|done|lia|].
  destruct (or_spec n a bc) as (r & Hr & Pr & Sr & Er); [done|done|lia|].
  exists ab, bc, l, r. split_and!; [done..|]. intros xs. rewrite El, Er, Eab, Ebc.
  by destruct (eval_proper sem vlist b (input xs (eval a xs)) Hb) as [v ->].
Qed.
End Or.

Lemma dict_get_truthy_set (o : pydict string (oval V)) k k' v : k ≠ k' → dict_get (truthy_set o k v) k' = dict_get o k'.
Proof. intros H. destruct v; simpl; [by apply dict_get_set_ne|done]. Qed.

Lemma dict_get_unless_ne (o : pydict string (oval V)) k k' v : k ≠ k' → dict_get (unless_set o k v) k' = dict_get o k'.
Proof. intros H. unfold unless_set. destruct (dict_in o k); [done|by apply dict_get_truthy_set]. Qed.

Lemma dict_get_unless_eq (o : pydict string (oval V)) k v :
  dict_get (unless_set o k v) k = match dict_get o k with Some x => Some x | None => v end.
Proof. unfold unless_set, dict_in. destruct (dict_get o k) eqn:E; [done|]. destruct v; simpl; [apply dict_get_set_eq|done]. Qed.

Lemma freeze_options d id root parent group chord index oid new :
  let '(d', tid) := freeze d id root parent group chord index oid new in
  tid = default (default new id) (dict_get (options d) "task_id") ∧
  dict_get (options d') "task_id" = Some tid ∧
  dict_get (options d') "reply_to" = Some (default oid (dict_get (options d) "reply_to")) ∧
  dict_get (options d') "group_id" = match dict_get (options d) "group_id" with Some g => Some g | None => group end ∧
  args d' = args d ∧ kwargs d' = kwargs d ∧ immutable d' = immutable d.
Proof.
  unfold freeze. destruct (dict_get (options d) "task_id") as [tid|] eqn:E; cbn [options args kwargs immutable default];
    split_and!; try done;
    repeat first [rewrite dict_get_truthy_set by done | rewrite dict_get_unless_ne by done | rewrite dict_get_unless_eq
                 | rewrite dict_get_set_ne by done | rewrite dict_get_set_eq]; try done; by destruct (dict_get (options d) "reply_to").
Qed.

(** A signature that has been frozen stays the same task: freezing it again,
    with whatever other ids, returns the same id and changes neither it nor the
    group it belongs to nor where it replies to. *)
Theorem freeze_stable d id root parent group chord index oid new id' root' parent' group' chord' index' oid' new' :
  let '(d1, tid) := freeze d id root parent group chord index oid new in
  let '(d2, tid') := freeze d1 id' root' parent' group' chord' index' oid' new' in
  tid' = tid ∧ dict_get (options d2) "task_id" = Some tid ∧
  dict_get (options d2) "reply_to" = dict_get (options d1) "reply_to" ∧
  (is_Some (dict_get (options d1) "group_id") → dict_get (options d2) "group_id" = dict_get (options d1) "group_id") ∧
  args d2 = args d ∧ kwargs d2 = kwargs d ∧ immutable d2 = immutable d.
Proof.
  pose proof (freeze_options d id root parent group chord index oid new) as H1.
  destruct (freeze d _ _ _ _ _ _ _ _) as [d1 tid].
  pose proof (freeze_options d1 id' root' parent' group' chord' index' oid' new') as H2.
  destruct (freeze d1 _ _ _ _ _ _ _ _) as [d2 tid'].
  destruct H1 as (_ & Ht & Hr & _ & Ha & Hk & Hi), H2 as (Ht' & Hs & Hr' & Hg' & Ha' & Hk' & Hi').
  rewrite Ht in Ht'. simpl in Ht'. subst tid'. rewrite Hr, Hr', Hr, Ha', Hk', Hi'. split_and!; try done.
  rewrite Hg'. by intros [g ->].
Qed.

(** Cloning or applying with new options never changes the options a
    signature must keep once it has them (its group and what it is stamped with);
    other options are those given, or else the signature's own. *)
Theorem merge_keeps_options d xs kws opts force k :
  dict_wf (options d) → dict_wf opts →
  dict_get (merge d xs kws (Some opts) force).2 k =
  if decide (k ∈ immutable_options d ∧ k ∈ dict_keys (options d)) then dict_get (options d) k
  else match dict_get opts k with Some v => Some v | None => dict_get (options d) k end.
Proof.
  intros Hd Ho. assert ((merge d xs kws (Some opts) force).2 = merge_options d opts) as -> by (unfold merge; by destruct (_ && _)).
  unfold merge_options. rewrite dict_get_update by (by apply dict_filter_wf).
  assert (dict_get (filter (λ kv, overridable d kv.1 = true) opts) k
          = if decide (overridable d k = true) then dict_get opts k else None) as ->
    by exact (dict_get_filter_key (λ k, overridable d k = true) opts k).
  unfold overridable.
  destruct (decide (k ∈ immutable_options d)), (decide (k ∈ dict_keys (options d)));
    repeat (rewrite bool_decide_true by tauto || rewrite bool_decide_false by tauto); simpl;
    repeat case_decide; done || tauto.
Qed.

End Canvas.

(** ** Examples *)

Module Examples.
Open Scope Z_scope.

Definition sum (l : list Z) : Z := foldr Z.add 0 l.
Definition sem (n : string) (xs : list Z) (_ : pydict string Z) : Z :=
  if decide (n = "add"%string) then sum xs else foldr Z.mul 1 xs.
(** a list is told from a number *)
Definition vlist (l : list Z) : Z := 1000 + sum l.
Definition task (n : string) (xs : list Z) : sig Z := Task n (Attrs xs [] [] false).
Definition add (x : Z) : sig Z := task "add" [x].
Definition group (ts : list (sig Z)) : sig Z := Group attrs0 ts.

Lemma or_composes_witness :
  ∃ s, or_ false 40 (new_chain [add 1; group [add 2; add 3]]) (add 4) = Ok s ∧ proper s = true ∧
    ∀ xs, eval sem vlist s xs = eval sem vlist (add 4) (input xs (eval sem vlist (new_chain [add 1; group [add 2; add 3]]) xs)).
Proof. apply or_composes; [by left|done|vm_compute; lia]. Defined.

Lemma or_assoc_witness :
  ∃ ab bc l r, or_ false 40 (add 1) (group [add 2; add 3]) = Ok ab ∧ or_ false 40 ab (add 4) = Ok l ∧
    or_ false 40 (group [add 2; add 3]) (add 4) = Ok bc ∧ or_ false 40 (add 1) bc = Ok r ∧
    ∀ xs, eval sem vlist l xs = eval sem vlist r xs.
Proof. apply or_assoc; [by left|done|done|vm_compute; lia]. Defined.

Lemma chain_new_composes_witness :
  ∃ s, chain_new false 40 [add 1; group [add 2; add 3]; add 4] = Ok s ∧ proper s = true ∧
    ∀ xs, eval sem vlist s xs = eval_seq sem vlist xs None [add 1; group [add 2; add 3]; add 4].
Proof. apply chain_new_composes; [done|done|vm_compute; lia]. Defined.

Lemma merge_keeps_options_witness :
  let d : attrs Z (oval Z) := Attrs [] [] [("group_id", OStr "g"); ("queue", OStr "q")]%string false in
  dict_get (merge d [] [] (Some [("group_id", OStr "h"); ("queue", OStr "r")]%string) false).2 "group_id"%string = Some (OStr "g"%string).
Proof.
  intros d. pose proof (merge_keeps_options d [] [] [("group_id", OStr "h"); ("queue", OStr "r")]%string false "group_id"%string) as H.
  rewrite H; [done|apply (bool_decide_unpack _); by vm_compute..].
Defined.

Lemma freeze_stable_witness :
  let '(d1, tid) := freeze (attrs0 (V := Z)) (Some (OStr "a"%string)) None None (Some (OStr "g"%string)) None None (OStr "r"%string) (OStr "n"%string) in
  let '(d2, tid') := freeze d1 (Some (OStr "b"%string)) None None (Some (OStr "h"%string)) None None (OStr "s"%string) (OStr "m"%string) in
  tid' = OStr "a"%string ∧ dict_get (options d2) "group_id"%string = Some (OStr "g"%string).
Proof.
  pose proof (freeze_stable (attrs0 (V := Z)) (Some (OStr "a"%string)) None None (Some (OStr "g"%string)) None None (OStr "r"%string) (OStr "n"%string)
    (Some (OStr "b"%string)) None None (Some (OStr "h"%string)) None None (OStr "s"%string) (OStr "m"%string)) as H.
  destruct H as (Ht & _ & _ & Hg & _). split; [exact Ht|]. apply Hg. by eexists.
Defined.

(** the chain is 1 + 10 = 11, then [13; 14], gathered as 1027, then 1031 *)
Example chain_runs :
  (let! s := chain_new false 40 [add 1; group [add 2; add 3]; add 4] in of_option ValueError (eval sem vlist s [10])) = Ok 1031.
Proof. done. Qed.

(** A group of one task is unrolled after a signature but not before one: how the
    same three steps are put together decides whether the last one gets a value or
    a list with that value. *)
Lemma single_group_not_associative :
  (let! ab := or_ false 40 (add 1) (group [add 2]) in let! s := or_ false 40 ab (add 4) in
   of_option ValueError (eval sem vlist s [10])) = Ok 17 ∧
  (let! bc := or_ false 40 (group [add 2]) (add 4) in let! s := or_ false 40 (add 1) bc in
   of_option ValueError (eval sem vlist s [10])) = Ok 1017.
Proof. done. Qed.

(** The copy of a chain that takes no arguments takes arguments. *)
Lemma chain_clone_loses_immutable :
  let c := set_immutable (new_chain [add 1]) true in
  eval sem vlist c [10] = Some 1 ∧ eval sem vlist (copy c) [10] = Some 11.
Proof. done. Qed.

(** The error callback that a chord links to its header is meant to be immutable,
    but [clone(immutable=True)] makes that an option of the copy. *)
Lemma errback_clone_not_immutable :
  let e := clone (add 1) [] [] [("immutable"%string, OBool true)] in
  immutable (attrs_of e) = false ∧ dict_get (options (attrs_of e)) "immutable"%string = Some (OBool true).
Proof. done. Qed.

End Examples.
End Canvas.
