(* ===== verification/ChainSteps.v ===== *)
(** Laying out a chain for execution, celery/canvas.py: [_chain.prepare_steps] and
    [_chain.run], and how the size of a chord is counted ([_chord._descend]).

    [prepare_steps] asks each step to freeze itself, and links callbacks to it;
    these calls are recorded with the step, since steps are of different classes.
    Freezing returns a result, of which the id is kept; the [parent] links between
    results are not modelled. *)

From S2P Require Import Prelude.
From S2P Require Import PyDict.
From S2P Require Import Canvas.
Import Canvas.

Module ChainSteps.

Section Steps.
Context {V : Type} `{!EqDecision V}.
Implicit Types s t : sig V.
Implicit Types ts : list (sig V).

Inductive call :=
| CFreeze (id root_id group_id : option string) (chord : option (sig V)) (group_index : option Z)
| CLinkNext
| CLinkError (errback : sig V)
| CBodyLinkError (errback : sig V)
| CExtendLink (l : list (oval V)).

(** A step: a signature, or a chord made of a group and the step after it *)
Inductive step :=
| Step (s : sig V) (calls : list call)
| StepChord (task_id root_id : option string) (header : list (sig V)) (body : step) (calls : list call).

Definition add_call (st : step) (c : call) : step :=
  match st with
  | Step s l => Step s (l ++ [c])
  | StepChord i r h b l => StepChord i r h b (l ++ [c])
  end.

Definition is_chord_step (st : step) : bool := match st with Step s _ => is_chord s | StepChord _ _ _ _ _ => true end.

(** The arguments of [prepare_steps], what [freeze] returns, and whether the backend
    allows chords *)
Record params := Params {
  p_args : list V; p_kwargs : pydict string V; root_id : option string; p_link_error : list (sig V);
  last_task_id : option string; p_group_id : option string; chord_body : option (sig V);
  p_clone : bool; p_group_index : option Z; use_link : bool;
  frozen : nat → step → outcome string; chords_allowed : outcome () }.

Section Prepare.
Variable P : params.

(** The head of the chain: nested chains are spliced, empty groups dropped *)
Fixpoint norm_head (fuel : nat) (steps : list (sig V)) : outcome (list (sig V)) :=
  match steps with
  | [] => Ok []
  | head :: rest =>
      match fuel with
      | O => Diverge
      | S fuel =>
          match head with
          | Chain _ ts => norm_head fuel ((if p_clone P then map copy ts else ts) ++ rest)
          | Group _ _ =>
              let head := maybe_unroll_group head in
              match rest with
              | _ :: _ => if is_empty_group head then norm_head fuel rest else Ok (head :: rest)
              | [] => Ok (head :: rest)
              end
          | _ => Ok (head :: rest)
          end
      end
  end.

(** The loop's variables.  Newest first: [s_tasks] is [tasks] reversed, and its
    head is [prev_task].  [s_prev_id] is [prev_res.task_id], which a result of a
    group does not have; [s_count] is [i]. *)
Record state := State { s_tasks : list step; s_results : list string; s_prev_id : option string; s_count : nat }.

Definition set_args s (xs : list V) : sig V :=
  let d := attrs_of s in set_attrs s (Attrs xs (kwargs d) (options d) (immutable d)).

Definition own_task (is_first : bool) s : sig V :=
  if p_clone P then (if is_first then clone s (p_args P) (p_kwargs P) [] else copy s)
  else if is_first then set_args s (p_args P ++ args (attrs_of s)) else s.

Definition errback_calls (st : step) : step :=
  foldl (λ st e, let st := add_call st (CLinkError e) in
                 if is_chord_step st then add_call st (CBodyLinkError e) else st) st (p_link_error P).

(** from the upgrade of a group to the end of the loop's body *)
Definition add_step (st : state) (task : sig V) : outcome state :=
  let '(new, tasks, results) :=
    match task, s_tasks st with
    | Group _ h, prev :: tasks => (StepChord (s_prev_id st) (root_id P) h prev [], tasks, tail (s_results st))
    | _, tasks => (Step task [], tasks, s_results st)
    end in
  let new := add_call new
    (if (s_count st =? 0)%nat
     then CFreeze (last_task_id P) (root_id P) (p_group_id P) (chord_body P) (p_group_index P)
     else CFreeze None (root_id P) None None None) in
  let! id := frozen P (s_count st) new in
  let new := match tasks with _ :: _ => if use_link P then add_call new CLinkNext else new | [] => new end in
  let new := errback_calls new in
  let! _ := if is_chord_step new then chords_allowed P else Ok () in
  Ok (State (new :: tasks) (id :: results)
        (match task with Task _ _ => Some id | _ => None end) (S (s_count st))).

(** The walk from the last step to the first; [rsteps] is the deque reversed. *)
Fixpoint walk (fuel : nat) (rsteps : list (sig V)) (st : state) : outcome state :=
  match rsteps with
  | [] => Ok st
  | task :: rest =>
      match fuel with
      | O => Diverge
      | S fuel =>
          let task := maybe_unroll_group task in
          let nonempty {A} (l : list A) := match l with [] => false | _ => true end in
          if is_empty_group task && (nonempty rest || nonempty (s_tasks st)) then walk fuel rest st
          else
            match own_task (negb (nonempty rest)) task with
            | Chain _ ts => walk fuel (rev ts ++ rest) st
            | task => let! st := add_step st task in walk fuel rest st
            end
      end
  end.

(** The tasks (last one first, as in the code), the results and the chain's id *)
Definition prepare_steps (fuel : nat) (tasks : list (sig V)) : outcome (list step * list string * option string) :=
  let! steps := norm_head fuel tasks in
  let! st := walk fuel (rev steps) (State [] [] None 0) in
  let results := rev (s_results st) in
  Ok (rev (s_tasks st), results, match results with id :: _ => Some id | [] => last_task_id P end).

End Prepare.

(** [_prepare_chain_from_options]: the [chain] option of the first task.
    [chain] is the option the chain was called with, if it was given. *)
Definition prepare_chain_from_options (chain : option (option (list step))) (tasks : list step) (use_link : bool) :
    outcome (option (list step)) :=
  if use_link then Ok None else
  match chain with
  | None => Ok (Some tasks)
  | Some (Some l) => Ok (Some (l ++ tasks))
  | Some None => Raise TypeError
  end.

(** [_chain.run]: the task that is applied, with its [chain] option.  [xs] are the
    arguments of the call, [P] the other ones. *)
Definition with_args (P : params) (xs : list V) : params :=
  Params xs (p_kwargs P) (root_id P) (p_link_error P) (last_task_id P) (p_group_id P) (chord_body P)
    (p_clone P) (p_group_index P) (use_link P) (frozen P) (chords_allowed P).

Definition run (P : params) (fuel : nat) (d : attrs V (oval V)) ts (xs : list V)
    (link : option (list (oval V))) (chain : option (option (list step))) : outcome (option (step * option (list step))) :=
  let xs := match xs with [] => args d | _ => if immutable d then args d else xs ++ args d end in
  let! (tasks, results, _) := prepare_steps (with_args P xs) fuel ts in
  match results with
  | [] => Ok None
  | _ =>
      let tasks := match tasks, link with t :: l, Some (x :: ls) => add_call t (CExtendLink (x :: ls)) :: l | _, _ => tasks end in
      match rev tasks with
      | [] => Raise IndexError
      | first :: rest => let! chain := prepare_chain_from_options chain (rev rest) (use_link P) in Ok (Some (first, chain))
      end
  end.

(** [_chord._descend]: how many parts of a chord a member of its header stands for *)
Fixpoint descend s : nat :=
  match s with
  | Task _ _ => 1
  | Group _ ts => sum_list (map descend ts)
  | Chain _ ts =>
      (fix go l := match l with
                   | [] => 0
                   | t :: l => let n := go l in if (0 <? n)%nat then n else descend t
                   end) ts
  | Chord _ _ b => descend b
  end.

(** ** The layout of a chain *)

(** the tasks of a chain with nested chains spliced and empty groups left out *)
Fixpoint leaves s : list (sig V) :=
  match s with
  | Chain _ ts => concat (map leaves ts)
  | Group _ [] => []
  | _ => [s]
  end.

(** a group and what follows it become a chord *)
Definition lay s (next : list (sig V)) : list (sig V) :=
  match s, next with
  | Group _ h, b :: next => new_chord h b :: next
  | _, _ => s :: next
  end.
Definition layout (ts : list (sig V)) : list (sig V) := foldr lay [] ts.

(** The first task gets the partial arguments, unless it takes none.  A group
    does not keep them. *)
Definition given (xs : list V) (kws : pydict string V) s : sig V :=
  match s with
  | Task n d => if immutable d then s else Task n (Attrs (xs ++ args d) (dict_update (kwargs d) kws) (options d) false)
  | Chord d h b => if immutable d then s else Chord (Attrs (xs ++ args d) (kwargs d) (options d) false) h b
  | _ => s
  end.
Definition give (xs : list V) (kws : pydict string V) ts : list (sig V) :=
  match ts with [] => [] | t :: ts => given xs kws t :: ts end.

(** Chains that are given as they are built: nested chains take partial arguments
    as they come, no group has a single member. *)
Fixpoint spine s : bool :=
  match s with
  | Task _ _ => true
  | Chain d ts => bool_decide (args d = []) && negb (immutable d) && forallb spine ts
  | Group _ ts => negb (length ts =? 1)%nat
  | Chord _ _ _ => proper s
  end.

(** a step without the calls made on it, and the freezing among those calls *)
Fixpoint shape (st : step) : sig V :=
  match st with Step s _ => s | StepChord _ _ h b _ => new_chord h (shape b) end.

Definition is_freeze (c : call) : bool := match c with CFreeze _ _ _ _ _ => true | _ => false end.
(** the parts of a step, each with how it was frozen *)
Fixpoint nodes (st : step) : list (sig V * list call) :=
  match st with
  | Step s l => [(s, List.filter is_freeze l)]
  | StepChord _ _ h b l => (Group attrs0 h, List.filter is_freeze l) :: nodes b
  end.

Lemma leaves_erase s : map erase (leaves s) = leaves (erase s).
Proof.
  induction s as [n d|d ts IH|d ts IH|d h b IHh IH] using sig_ind'; simpl; [done| |by destruct ts|done].
  rewrite concat_map, !map_map. f_equal. by apply map_Forall_ext.
Qed.

Lemma lay_erase s next : map erase (lay s next) = lay (erase s) (map erase next).
Proof. by destruct s, next. Qed.

Lemma copy_spine s : spine s = true → erase (copy s) = erase s.
Proof.
  unfold copy. induction s as [n d|d ts IH|d ts IH|d h b IHh IH] using sig_ind'; intros H; [done| |done|by apply (erase_copy (Chord d h b))].
  simpl in *. rewrite !andb_true_iff, forallb_Forall', bool_decide_eq_true in H. destruct H as [[Ha Hi] Hp].
  unfold erase_attrs; simpl. destruct (immutable d); [done|]. rewrite Ha. f_equal.
  apply map_Forall_compose. exact (Forall_mp _ _ _ IH Hp).
Qed.

Lemma spine_erase s : spine (erase s) = spine s.
Proof.
  induction s as [n d|d ts IH|d ts IH|d h b IHh IH] using sig_ind'; [done|..]; [|by simpl; rewrite length_map|apply (proper_erase (Chord d h b))].
  simpl. by rewrite forallb_map_ext.
Qed.

Lemma spines_erase ts ts' : map erase ts = map erase ts' → forallb spine ts = forallb spine ts'.
Proof.
  revert ts'. induction ts as [|t ts IH]; intros [|t' ts'] H; simplify_eq/=; [done|].
  rewrite <-(spine_erase t), <-(spine_erase t'). f_equal; [congruence|auto].
Qed.

Lemma spine_unroll s : spine s = true → maybe_unroll_group s = s.
Proof. by destruct s as [| |d [|? []]|]. Qed.

Definition flat ts : list (sig V) := concat (map leaves ts).

Lemma flat_app ts ts' : flat (ts ++ ts') = flat ts ++ flat ts'.
Proof. unfold flat. by rewrite map_app, concat_app. Qed.

Lemma flat_one t : flat [t] = leaves t.
Proof. apply app_nil_r. Qed.

Lemma flat_erase ts : map erase (flat ts) = flat (map erase ts).
Proof.
  unfold flat. rewrite concat_map, !map_map. f_equal. apply map_ext. intros t. apply leaves_erase.
Qed.

Lemma copies_spine ts : forallb spine ts = true → map erase (map copy ts) = map erase ts.
Proof. intros H%forallb_Forall'. apply map_Forall_compose. eapply Forall_impl; [exact H|]. apply copy_spine. Qed.

Lemma forallb_rev {A} (f : A → bool) l : forallb f (rev l) = forallb f l.
Proof. induction l as [|x l IH]; simpl; [done|]. rewrite forallb_app, IH. simpl. by rewrite andb_true_r, andb_comm. Qed.

Lemma sum_list_rev l : sum_list (rev l) = sum_list l.
Proof. induction l; simpl; [done|]. rewrite sum_list_app'. simpl. lia. Qed.

(** a step that is neither a chain nor an empty group *)
Definition real s : bool := negb (is_chain s || is_empty_group s).

Lemma norm_head_spec P n steps :
  p_clone P = true → forallb spine steps = true → (sum_list (map csize steps) ≤ n)%nat → flat steps ≠ [] →
  ∃ hd rest, norm_head P n steps = Ok (hd :: rest) ∧ real hd = true ∧ forallb spine (hd :: rest) = true ∧
    map erase (flat (hd :: rest)) = map erase (flat steps) ∧ (sum_list (map csize (hd :: rest)) ≤ sum_list (map csize steps))%nat.
Proof.
  intros Hcl. revert steps. induction n as [|n IH]; intros [|hd rest] Hsp Hn Hne; try done.
  { simpl in Hn. pose proof (csize_pos hd). lia. }
  pose proof Hsp as Hsp'. simpl in Hsp'. rewrite andb_true_iff in Hsp'. destruct Hsp' as [Hs Hr]. cbn [norm_head].
  destruct (real hd) eqn:Hreal; [|destruct (is_chain hd) eqn:Hch].
  - exists hd, rest. split_and!; try done. destruct hd as [|d ts|d ts|]; try done.
    rewrite (spine_unroll _ Hs). destruct rest; [done|]. by destruct ts.
  - destruct hd as [|d ts| |]; try done. rewrite Hcl. simpl in Hs. rewrite !andb_true_iff in Hs. destruct Hs as [_ Hs].
    pose proof (copies_spine ts Hs) as Her.
    assert (map erase (map copy ts ++ rest) = map erase (ts ++ rest)) as Her' by (by rewrite !map_app, Her).
    destruct (IH (map copy ts ++ rest)) as (hd & rest' & -> & Hreal' & Hsp' & Hfl & Hsz).
    + by rewrite (spines_erase _ _ Her'), forallb_app, Hs, Hr.
    + rewrite (erase_sum _ _ Her'), map_app, sum_list_app'. simpl in Hn. lia.
    + intros H0. apply Hne. apply (f_equal (map erase)) in H0. rewrite flat_erase, Her', <-flat_erase in H0.
      apply map_eq_nil in H0. rewrite flat_app in H0. exact H0.
    + exists hd, rest'. split_and!; try done.
      * rewrite Hfl, flat_erase, Her', <-flat_erase, flat_app. done.
      * rewrite (erase_sum _ _ Her'), map_app, sum_list_app' in Hsz. simpl in *. lia.
  - destruct hd as [| |d [|]|]; try done. destruct rest as [|t rest]; [done|]. cbn.
    destruct (IH (t :: rest)) as (hd & rest' & -> & Hreal' & Hsp' & Hfl & Hsz); [done|simpl in *; lia|done|].
    exists hd, rest'. split_and!; try done. simpl in *. lia.
Qed.

(** *** The walk *)

Lemma shape_add_call st c : shape (add_call st c) = shape st.
Proof. by destruct st. Qed.

Lemma nodes_add_call st c : is_freeze c = false → nodes (add_call st c) = nodes st.
Proof. intros H. destruct st; simpl; rewrite List.filter_app; simpl; by rewrite H, app_nil_r. Qed.

Lemma errback_calls_same P st : shape (errback_calls P st) = shape st ∧ nodes (errback_calls P st) = nodes st.
Proof.
  unfold errback_calls. revert st. induction (p_link_error P) as [|e l IH]; intros st; simpl; [done|].
  destruct (IH (if is_chord_step (add_call st (CLinkError e)) then add_call (add_call st (CLinkError e)) (CBodyLinkError e)
                else add_call st (CLinkError e))) as [-> ->].
  destruct (is_chord_step _); by rewrite ?shape_add_call, ?nodes_add_call.
Qed.

Definition erase_node (x : sig V * list call) : sig V * list call := (erase x.1, x.2).
Definition shapes (st : state) : list (sig V) := map erase (map shape (s_tasks st)).
Definition state_nodes (st : state) : list (sig V * list call) := map erase_node (concat (map nodes (s_tasks st))).

(** how the last task and the other ones are frozen *)
Definition last_freeze (P : params) : call :=
  CFreeze (last_task_id P) (root_id P) (p_group_id P) (chord_body P) (p_group_index P).
Definition plain_freeze (P : params) : call := CFreeze None (root_id P) None None None.

Definition annotate (P : params) (l : list (sig V)) : list (sig V * list call) :=
  foldr (λ t acc, (t, [match acc with [] => last_freeze P | _ => plain_freeze P end]) :: acc) [] l.

(** freezing returns results, and chords are allowed *)
Definition working (P : params) : Prop := (∀ n st, is_Ok (frozen P n st)) ∧ chords_allowed P = Ok ().

(** the state after the tasks [l] *)
Definition state_ok (P : params) (st : state) (l : list (sig V)) : Prop :=
  state_nodes st = annotate P l ∧ length (s_results st) = length (s_tasks st) ∧ s_count st = length l.

Lemma length_annotate P l : length (annotate P l) = length l.
Proof. induction l; simpl; congruence. Qed.

Lemma annotate_cons P t l :
  (t, [if (length l =? 0)%nat then last_freeze P else plain_freeze P]) :: annotate P l = annotate P (t :: l).
Proof. by destruct l. Qed.

Lemma add_step_spec P st task l :
  working P → is_chain task = false → state_ok P st l →
  ∃ st', add_step P st task = Ok st' ∧ shapes st' = lay (erase task) (shapes st) ∧ state_ok P st' (erase task :: l).
Proof.
  intros [Hfr Hall] Hc (Hf & Hr & Hcount). unfold add_step.
  set (c := if (s_count st =? 0)%nat then _ else _).
  assert ((erase task, [c]) :: state_nodes st = annotate P (erase task :: l)) as Hc'.
  { rewrite Hf, <-annotate_cons. unfold c. by rewrite Hcount. }
  assert (is_freeze c = true) as Hfc by (unfold c; by destruct (_ =? _)%nat).
  assert (∃ new tasks results,
    match task, s_tasks st with
    | Group _ h, prev :: tasks => (StepChord (s_prev_id st) (root_id P) h prev [], tasks, tail (s_results st))
    | _, tasks => (Step task [], tasks, s_results st)
    end = (new, tasks, results) ∧
    map erase (shape new :: map shape tasks) = lay (erase task) (shapes st) ∧
    map erase_node (nodes (add_call new c) ++ concat (map nodes tasks)) = (erase task, [c]) :: state_nodes st ∧
    length results = length tasks) as (new & tasks & results & -> & Hs & Hfz & Hl).
  { unfold shapes, state_nodes. destruct (s_tasks st) as [|prev l']; destruct task; simpl in *; do 3 eexists;
      split_and!; try done; simpl; rewrite ?Hfc; try done. destruct (s_results st); simpl in *; lia. }
  destruct (Hfr (s_count st) (add_call new c)) as [id ->]. cbn [obind].
  set (new1 := match tasks with [] => add_call new c | _ :: _ => _ end).
  assert (shape new1 = shape new ∧ nodes new1 = nodes (add_call new c)) as [Hn1 Hn2].
  { unfold new1. destruct tasks; [by rewrite shape_add_call|].
    destruct (use_link P); [rewrite (nodes_add_call _ CLinkNext) by done|]; by rewrite !shape_add_call. }
  destruct (errback_calls_same P new1) as [He1 He2].
  assert ((if is_chord_step (errback_calls P new1) then chords_allowed P else Ok ()) = Ok ()) as -> by (rewrite Hall; by destruct (is_chord_step _)).
  eexists. split_and!; [done| |split_and!].
  - rewrite <-Hs. unfold shapes. simpl. by rewrite He1, Hn1.
  - unfold state_nodes. cbn [s_tasks map concat]. by rewrite He2, Hn2, Hfz.
  - simpl. by rewrite Hl.
  - simpl. by rewrite Hcount.
Qed.

Lemma walk_front P n k front hd st l0 :
  working P → p_clone P = true → forallb spine front = true → (sum_list (map csize front) + k ≤ n)%nat → state_ok P st l0 →
  ∃ n' st', walk P n (front ++ [hd]) st = walk P n' [hd] st' ∧ (k ≤ n')%nat ∧
    shapes st' = foldr lay (shapes st) (map erase (flat (rev front))) ∧
    state_ok P st' (map erase (flat (rev front)) ++ l0).
Proof.
  intros Hw Hcl. revert front st l0. induction n as [|n IH]; intros front st l0 Hsp Hn Hok.
  all: destruct front as [|t front]; [eexists _, st; split_and!; [reflexivity|simpl in *; lia|done|done]|].
  { simpl in Hn. pose proof (csize_pos t). lia. }
  simpl in Hsp, Hn. rewrite andb_true_iff in Hsp. destruct Hsp as [Ht Hsp].
  cbn [rev]. rewrite flat_app, flat_one, map_app, foldr_app, <-app_assoc.
  cbn [walk app]. rewrite (spine_unroll _ Ht).
  destruct (front ++ [hd]) as [|y l] eqn:El; [by destruct front|]. cbn [orb negb]. rewrite <-El. clear y l El.
  unfold own_task. rewrite Hcl. pose proof (copy_spine t Ht) as Hcp. pose proof (csize_pos t).
  destruct (is_empty_group t) eqn:He; [|destruct (is_chain t) eqn:Hch].
  - destruct t as [| |d []|]; try done. cbn. apply IH; [done|lia|done].
  - destruct t as [|d ts| |]; try done. pose proof Ht as Hts. simpl in Hts. rewrite !andb_true_iff in Hts. destruct Hts as [_ Hts].
    pose proof (copies_spine ts Hts) as Her. cbn [is_empty_group andb clone copy]. unfold copy; cbn [clone].
    change (map (λ t, clone t [] [] []) ts) with (map copy ts). rewrite app_assoc.
    destruct (IH (rev (map copy ts) ++ front) st l0) as (n' & st' & -> & ? & Hs & Hok').
    + rewrite forallb_app, andb_true_iff. split; [|done]. rewrite forallb_rev. by rewrite (spines_erase _ _ Her).
    + rewrite map_app, sum_list_app', map_rev, sum_list_rev, (erase_sum _ _ Her). simpl in Hn. lia.
    + done.
    + exists n', st'. rewrite rev_app_distr, rev_involutive, flat_app in Hs, Hok'.
      rewrite map_app, (flat_erase (map copy ts)), Her, <-flat_erase in Hs, Hok'. rewrite foldr_app in Hs.
      rewrite <-app_assoc in Hok'. done.
  - assert (leaves t = [t]) as Hl by (destruct t as [| |d []|]; done).
    assert (is_chain (copy t) = false) as Hcc by (destruct t; done).
    destruct (add_step_spec P st (copy t) l0 Hw Hcc Hok) as (st1 & Hst1 & Hs1 & Hok1).
    destruct (IH front st1 _ Hsp ltac:(lia) Hok1) as (n' & st' & Hwk & ? & Hs & Hok').
    exists n', st'. rewrite Hcp in *. rewrite Hl, Hs, Hs1. split_and!; [|done|done|done].
    cbn [andb]. rewrite <-Hwk. destruct (copy t) eqn:E; try done; by rewrite Hst1.
Qed.

(** the first task of the chain *)
Lemma walk_last P n hd st l :
  working P → p_clone P = true → spine hd = true → real hd = true → (0 < n)%nat → state_ok P st l →
  ∃ st', walk P n [hd] st = Ok st' ∧ shapes st' = lay (erase (clone hd (p_args P) (p_kwargs P) [])) (shapes st) ∧
    state_ok P st' (erase (clone hd (p_args P) (p_kwargs P) []) :: l).
Proof.
  intros Hw Hcl Hsp Hr Hn Hok. destruct n as [|n]; [lia|]. cbn [walk]. rewrite (spine_unroll _ Hsp).
  assert (is_chain (clone hd (p_args P) (p_kwargs P) []) = false) as Hcc by (by destruct hd).
  assert (is_empty_group hd = false) as -> by (by destruct hd as [| |? []|]).
  unfold own_task. rewrite Hcl. cbn [andb negb].
  destruct (add_step_spec P st _ l Hw Hcc Hok) as (st1 & Hst1 & ?). exists st1.
  split; [|done]. destruct (clone hd _ _ _) eqn:E; try done; rewrite Hst1; by destruct n.
Qed.

Lemma clone_attrs_args (d : attrs V (oval V)) xs kws :
  args (clone_attrs d xs kws []) = (if immutable d then args d else xs ++ args d) ∧
  kwargs (clone_attrs d xs kws []) = (if immutable d then kwargs d else dict_update (kwargs d) kws) ∧
  immutable (clone_attrs d xs kws []) = immutable d.
Proof.
  destruct d as [a k o i]. unfold clone_attrs, merge. destruct xs, kws, i; simpl; by rewrite ?andb_false_r.
Qed.

Lemma erase_clone s xs kws : spine s = true → real s = true → erase (clone s xs kws []) = given xs kws (erase s).
Proof.
  intros Hs Hr. destruct s as [n d|d ts|d ts|d h b]; try done.
  - simpl. destruct (clone_attrs_args d xs kws) as (-> & -> & ->). by destruct (immutable d) eqn:E; rewrite ?E.
  - assert (map erase (map copy h) = map erase h ∧ erase (copy b) = erase b) as [Hh Hb].
    { simpl in Hs. rewrite andb_true_iff in Hs. destruct Hs. by rewrite erase_copies, erase_copy. }
    unfold copy in Hh, Hb. simpl. rewrite Hh, Hb. unfold erase_attrs.
    destruct (clone_attrs_args d xs kws) as (-> & _ & ->). simpl. by destruct (immutable d).
Qed.

Lemma prepare_spec P n ts :
  working P → p_clone P = true → forallb spine ts = true → flat ts ≠ [] → (sum_list (map csize ts) ≤ n)%nat →
  ∃ steps id results, prepare_steps P n ts = Ok (rev steps, id :: results, Some id) ∧
    length (id :: results) = length steps ∧
    let l := give (p_args P) (p_kwargs P) (map erase (flat ts)) in
    map erase (map shape steps) = layout l ∧ map erase_node (concat (map nodes steps)) = annotate P l.
Proof.
  intros Hw Hcl Hsp Hne Hn. unfold prepare_steps.
  destruct (norm_head_spec P n ts Hcl Hsp Hn Hne) as (hd & rest & -> & Hr & Hsp' & Hfl & Hsz). cbn [obind rev].
  pose proof Hsp' as Hs. simpl in Hs. rewrite andb_true_iff in Hs. destruct Hs as [Hshd Hsrest].
  destruct (walk_front P n 1 (rev rest) hd (State [] [] None 0) []) as (n' & st1 & -> & Hn' & Hs1 & Hok1); [done|done|..|done|].
  { by rewrite forallb_rev. }
  { rewrite map_rev, sum_list_rev. simpl in Hsz. pose proof (csize_pos hd). lia. }
  destruct (walk_last P n' hd st1 _ Hw Hcl Hshd Hr ltac:(lia) Hok1) as (st2 & -> & Hs2 & Hf & Hl & _).
  cbn [obind]. rewrite rev_involutive in Hs1. rewrite rev_involutive, app_nil_r in Hf.
  assert (erase (clone hd (p_args P) (p_kwargs P) []) :: map erase (flat rest)
          = give (p_args P) (p_kwargs P) (map erase (flat ts))) as Hgive.
  { rewrite (erase_clone _ _ _ Hshd Hr), <-Hfl. assert (flat (hd :: rest) = hd :: flat rest) as ->; [|done].
    unfold flat. simpl. by destruct hd as [| |? []|]. }
  destruct (rev (s_results st2)) as [|id results] eqn:Er.
  { apply (f_equal length) in Er. rewrite length_rev, Hl in Er. destruct (s_tasks st2) eqn:E; [|done].
    unfold state_nodes in Hf. by rewrite E in Hf. }
  exists (s_tasks st2), id, results. split_and!; [done|by rewrite <-Er, length_rev| |].
  - change (map erase (map shape (s_tasks st2))) with (shapes st2). by rewrite Hs2, Hs1, <-Hgive.
  - by rewrite <-Hgive.
Qed.


(** *** What the steps compute *)

Section Meaning.
Context (sem : string → list V → pydict string V → V) (vlist : list V → V).
Local Abbreviation eval := (eval sem vlist).
Local Abbreviation eval_seq := (eval_seq sem vlist).

Lemma eval_seq_step xs r t ts :
  eval_seq xs r (t :: ts) = eval_seq xs (match eval t (input xs r) with Some v => Some v | None => r end) ts.
Proof. done. Qed.

Lemma eval_seq_is_Some xs v ts : is_Some (eval_seq xs (Some v) ts).
Proof. revert v. induction ts as [|t ts IH]; intros v; simpl; [by eexists|]. destruct (Canvas.eval _ _ t _); apply IH. Qed.

Lemma eval_seq_shift xs r ts : eval_seq xs r ts = match eval_seq (input xs r) None ts with Some v => Some v | None => r end.
Proof.
  induction ts as [|t ts IH]; simpl; [done|]. destruct (Canvas.eval _ _ t _) as [v|]; [|apply IH].
  destruct (eval_seq_is_Some (input xs r) v ts) as [w Hw]. rewrite (eval_seq_Some _ _ xs (input xs r)).
  unfold Canvas.eval_seq in Hw. unfold Canvas.eval_seq. by rewrite Hw.
Qed.

Lemma eval_leaves s xs r : spine s = true → eval_seq xs r [s] = eval_seq xs r (leaves s).
Proof.
  revert xs r. induction s as [n d|d ts IH|d ts IH|d h b IHh IH] using sig_ind'; intros xs r H; [done| |by destruct ts|done].
  simpl in H. rewrite !andb_true_iff, forallb_Forall', bool_decide_eq_true in H. destruct H as [[Ha Hi] Hp].
  cbn [leaves]. apply negb_true_iff in Hi.
  assert (∀ r, eval_seq xs r ts = eval_seq xs r (concat (map leaves ts))) as Hts.
  { clear Ha Hi r. induction IH as [|t ts Ht _ IHts]; intros r; [done|]. apply Forall_cons in Hp as [Hpt Hp].
    change (t :: ts) with ([t] ++ ts). cbn [map concat app]. change (t :: ts) with ([t] ++ ts).
    rewrite !eval_seq_app, (Ht xs r Hpt). by apply IHts. }
  rewrite <-Hts, (eval_seq_shift xs r ts).
  by rewrite eval_seq_step, eval_chain.
Qed.

Lemma eval_flat ts xs r : forallb spine ts = true → eval_seq xs r ts = eval_seq xs r (flat ts).
Proof.
  revert r. induction ts as [|t ts IH]; intros r Hp; [done|]. simpl in Hp. rewrite andb_true_iff in Hp. destruct Hp as [Ht Hp].
  change (t :: ts) with ([t] ++ ts). rewrite flat_app, !eval_seq_app, flat_one, (eval_leaves t) by done. by apply IH.
Qed.

(** a signature that always has a value *)
Definition valued s : Prop := ∀ xs, is_Some (eval s xs).

Lemma real_valued s : spine s = true → real s = true → valued s.
Proof.
  intros Hs Hr xs. destruct s as [| |d [|]|]; try done; try by eexists. by apply eval_proper.
Qed.

Lemma layout_eval ts : Forall valued ts → Forall valued (layout ts) ∧ ∀ xs r, eval_seq xs r (layout ts) = eval_seq xs r ts.
Proof.
  induction 1 as [|t ts Ht _ [IHv IHe]]; [done|]. cbn [layout foldr]. fold (layout ts).
  assert (lay t (layout ts) = t :: layout ts ∨ ∃ d h b l, t = Group d h ∧ layout ts = b :: l ∧ lay t (layout ts) = new_chord h b :: l)
    as [->|(d & h & b & l & -> & Hl & ->)].
  { destruct t; [by left..| |by left]. destruct (layout ts); [by left|]. right. eauto 10. }
  - split; [by constructor|]. intros xs r. simpl. apply IHe.
  - rewrite Hl in *. apply Forall_cons in IHv as [Hb Hv].
    assert (∀ ys, ∃ v, eval (Group d h) ys = Some v ∧ eval (new_chord h b) ys = eval b [v]) as Hc.
    { intros ys. destruct (Ht ys) as [v Hv']. exists v. split; [done|]. unfold new_chord. rewrite eval_chord. simpl.
      rewrite (right_id_L [] (++)). unfold Canvas.eval in Hv'. simpl in Hv'. by destruct h; simplify_eq/=. }
    split. { constructor; [|done]. intros ys. destruct (Hc ys) as (v & _ & ->). apply Hb. }
    intros xs r. rewrite !eval_seq_step. destruct (Hc (input xs r)) as (v & -> & ->). rewrite <-IHe, eval_seq_step.
    by destruct (Hb [v]) as [w Hw]; cbn [input]; rewrite Hw.
Qed.

Lemma eval_given xs s : (∀ d ts, s = Group d ts → xs = []) → is_chain s = false → eval (given xs [] s) [] = eval s xs.
Proof.
  intros Hg Hc. destruct s as [n d|d ts|d ts|d h b]; try done.
  - simpl. destruct (immutable d) eqn:E; unfold Canvas.eval; simpl; by rewrite ?E.
  - simpl. by rewrite (Hg _ _ eq_refl).
  - unfold given. destruct (immutable d) eqn:E; rewrite !eval_chord; simpl; by rewrite ?E.
Qed.

Lemma flat_real ts : forallb spine ts = true → Forall (λ t, spine t = true ∧ real t = true) (flat ts).
Proof.
  assert (∀ s, spine s = true → Forall (λ t, spine t = true ∧ real t = true) (leaves s)) as Hs.
  { induction s as [n d|d ts' IH|d ts' IH|d h b _ _] using sig_ind'; intros H; simpl.
    - by repeat constructor.
    - simpl in H. rewrite !andb_true_iff, forallb_Forall' in H. destruct H as [_ H].
      induction IH as [|t ts' Ht _ IHt]; simpl; [constructor|]. apply Forall_cons in H as [? ?]. apply Forall_app; auto.
    - destruct ts'; by repeat constructor.
    - by repeat constructor. }
  unfold flat. induction ts as [|t ts IH]; simpl; [constructor|]. rewrite andb_true_iff. intros [? ?]. apply Forall_app; auto.
Qed.

Lemma eval_seq_erase xs r ts : eval_seq xs r (map erase ts) = eval_seq xs r ts.
Proof. revert r. induction ts as [|t ts IH]; intros r; [done|]. cbn [map]. by rewrite !eval_seq_step, eval_erase. Qed.

Lemma give_valued xs kws ts :
  Forall (λ t, spine t = true ∧ real t = true) ts → Forall valued (give xs kws (map erase ts)).
Proof.
  assert (∀ t, spine t = true → real t = true → valued (erase t)) as He.
  { intros t ? ?. apply real_valued; [by rewrite spine_erase|by destruct t as [| |? []|]]. }
  destruct 1 as [|t ts [Ht Hr] Hts]; simpl; constructor.
  - apply real_valued.
    + rewrite <-spine_erase in Ht. destruct (erase t); simpl in *; by repeat case_match.
    + destruct t as [| |? []|]; try done; simpl; by repeat case_match.
  - apply Forall_fmap. eapply Forall_impl; [exact Hts|]. intros t' [? ?]. by apply He.
Qed.

Lemma chain_run_spec P n d ts xs :
  working P → p_clone P = true → use_link P = false → p_kwargs P = [] → args d = [] → immutable d = false →
  forallb spine ts = true → flat ts ≠ [] → (sum_list (map csize ts) ≤ n)%nat →
  (∀ d' h, head (flat ts) = Some (Group d' h) → xs = []) →
  ∃ first l, run P n d ts xs None None = Ok (Some (first, Some l)) ∧
    eval_seq [] None (map shape (first :: rev l)) = eval (Chain d ts) xs.
Proof.
  intros Hw Hcl Hul Hk Ha Hi Hsp Hne Hn Hg. unfold run.
  assert (match xs with [] => args d | _ => if immutable d then args d else xs ++ args d end = xs) as ->
    by (rewrite Ha, Hi; destruct xs; by rewrite ?app_nil_r).
  destruct (prepare_spec (with_args P xs) n ts) as (steps & id & results & -> & Hl & Hs & _); [done..|].
  cbn [obind]. destruct steps as [|first steps]; [done|].
  assert (∀ l : list step, match l, (None : option (list (oval V))) with t :: l, Some (x :: ls) => add_call t (CExtendLink (x :: ls)) :: l | _, _ => l end = l) as ->
    by (by intros []).
  rewrite rev_involutive. rewrite Hul. cbn [prepare_chain_from_options obind].
  exists first, (rev steps). split; [done|]. rewrite rev_involutive, eval_chain by done.
  rewrite <-eval_seq_erase, Hs. cbn [with_args p_args p_kwargs]. rewrite Hk.
  pose proof (flat_real ts Hsp) as Hreal. rewrite (eval_flat ts) by done.
  destruct (layout_eval (give xs [] (map erase (flat ts)))) as [_ ->]; [by apply give_valued|].
  destruct (flat ts) as [|t0 rest] eqn:E; [done|]. apply Forall_cons in Hreal as [[Ht0 Hr0] _].
  cbn [map give]. rewrite !eval_seq_step. cbn [input].
  rewrite eval_given, eval_erase.
  - destruct (real_valued t0 Ht0 Hr0 xs) as [v ->]. rewrite eval_seq_erase. apply eval_seq_Some.
  - intros d' h Hd. destruct t0; try done. by eapply Hg.
  - destruct t0; done.
Qed.

End Meaning.

(** ** The size of a chord

    [reports s n]: applied as a member of the header of a chord, [s] leads to [n]
    tasks that report to the chord when they are done.  A task reports; the members
    of a group report (an empty chain among them is dropped); of a chord its body
    does; of a chain those of its steps that [prepare_steps] freezes with the chord. *)
Definition has_chord (c : call) : bool := match c with CFreeze _ _ _ (Some _) _ => true | _ => false end.
Definition carriers (steps : list step) : list (sig V) :=
  map fst (List.filter (λ x, existsb has_chord x.2) (concat (map nodes steps))).

Inductive reports : sig V → nat → Prop :=
| reports_task n d : reports (Task n d) 1
| reports_group d ts ns : Forall2 reports ts ns → reports (Group d ts) (sum_list ns)
| reports_chord d h b n : reports b n → reports (Chord d h b) n
| reports_empty d : reports (Chain d []) 0
| reports_chain P fuel d ts tasks results id ns :
    ts ≠ [] → working P → p_clone P = true → chord_body P ≠ None → (sum_list (map csize ts) ≤ fuel)%nat →
    prepare_steps P fuel ts = Ok (tasks, results, id) → Forall2 reports (carriers (rev tasks)) ns →
    reports (Chain d ts) (sum_list ns).

(** Canvases whose chains are as built ([spine]) and have steps that each stand for
    some task; an empty chain is allowed *)
Fixpoint solid s : bool :=
  match s with
  | Task _ _ => true
  | Group _ ts => forallb solid ts
  | Chord _ _ b => solid b
  | Chain _ ts =>
      forallb spine ts && forallb solid ts && forallb (λ t, 0 <? descend t)%nat (flat ts)
      && ((length ts =? 0)%nat || negb (length (flat ts) =? 0)%nat)
  end.

Definition last_descend (l : list (sig V)) : nat := match last l with Some t => descend t | None => 0 end.

Lemma descend_flat ts :
  Forall (λ t, forallb (λ t, 0 <? descend t)%nat (leaves t) = true → descend t = last_descend (leaves t)) ts →
  forallb (λ t, 0 <? descend t)%nat (flat ts) = true →
  (fix go l := match l with [] => 0%nat | t :: l => let n := go l in if (0 <? n)%nat then n else descend t end) ts
  = last_descend (flat ts).
Proof.
  induction 1 as [|t ts Ht _ IH]; intros H; [done|]. unfold flat in H. simpl in H. rewrite forallb_app, andb_true_iff in H.
  destruct H as [H1 H2]. rewrite IH by done. unfold flat; simpl. fold (flat ts). unfold last_descend at 3.
  destruct (flat ts) as [|x l _] eqn:E using rev_ind.
  - rewrite app_nil_r. simpl. by apply Ht.
  - rewrite app_assoc, last_snoc. unfold last_descend. rewrite last_snoc.
    change (concat (map leaves ts)) with (flat ts) in H2. rewrite E, forallb_app in H2. simpl in H2.
    rewrite !andb_true_iff in H2. destruct H2 as (_ & -> & _). done.
Qed.

Lemma descend_leaves s :
  forallb (λ t, 0 <? descend t)%nat (leaves s) = true → descend s = last_descend (leaves s).
Proof.
  induction s as [n d|d ts IH|d ts IH|d h b _ _] using sig_ind'; intros H; [done| |by destruct ts|done].
  by apply descend_flat.
Qed.

Lemma descend_chain d ts :
  forallb (λ t, 0 <? descend t)%nat (flat ts) = true → descend (Chain d ts) = last_descend (flat ts).
Proof. intros H. by apply (descend_leaves (Chain d ts)). Qed.

Lemma descend_erase s : descend (erase s) = descend s.
Proof.
  induction s as [n d|d ts IH|d ts IH|d h b _ IH] using sig_ind'; simpl; [done| | |done].
  - induction IH as [|t ts Ht _ IHts]; simpl; [done|]. by rewrite IHts, Ht.
  - rewrite map_map. f_equal. by apply map_Forall_ext.
Qed.

Lemma solid_erase s : solid (erase s) = solid s.
Proof.
  induction s as [n d|d ts IH|d ts IH|d h b _ IH] using sig_ind'; simpl; [done| | |done].
  - rewrite length_map, (forallb_map_ext solid), (forallb_map_ext spine), <-flat_erase, length_map.
    + do 2 f_equal. rewrite forallb_map_ext; [done|]. apply Forall_forall. intros t _. by rewrite descend_erase.
    + apply Forall_forall. intros t _. apply spine_erase.
    + done.
  - by apply forallb_map_ext.
Qed.

Lemma annotate_carriers P l t :
  chord_body P ≠ None →
  map fst (List.filter (λ x, existsb has_chord x.2) (annotate P (l ++ [t]))) = [t].
Proof.
  intros Hb. induction l as [|x l IH]; [simpl; by destruct (chord_body P)|].
  cbn [app]. rewrite <-annotate_cons, length_app. cbn [List.filter map]. rewrite Nat.add_comm. simpl. apply IH.
Qed.

Lemma carriers_erase steps :
  map erase (carriers steps) = map fst (List.filter (λ x, existsb has_chord x.2) (map erase_node (concat (map nodes steps)))).
Proof.
  unfold carriers. induction (concat (map nodes steps)) as [|x l IH]; simpl; [done|].
  destruct (existsb has_chord x.2); simpl; by rewrite IH.
Qed.

Lemma given_same xs kws s : descend (given xs kws s) = descend s ∧ solid (given xs kws s) = solid s ∧ csize (given xs kws s) = csize s.
Proof. destruct s; simpl; by repeat case_match. Qed.

Lemma leaves_props s t : t ∈ leaves s → (csize t ≤ csize s)%nat ∧ (solid s = true → solid t = true).
Proof.
  induction s as [n d|d ts IH|d ts IH|d h b _ _] using sig_ind'; simpl; intros H.
  - apply list_elem_of_singleton in H as ->. by split.
  - apply list_elem_of_In, in_concat in H as (l & (s & <- & Hs)%in_map_iff & Ht).
    rewrite Forall_forall in IH. apply list_elem_of_In in Hs, Ht. destruct (IH s Hs Ht) as [H1 H2]. split.
    + apply list_elem_of_split in Hs as (l1 & l2 & ->). rewrite map_app, sum_list_app'. simpl. lia.
    + rewrite !andb_true_iff, (forallb_Forall' solid), Forall_forall. intros [[[_ Hp] _] _]. by apply H2, Hp.
  - destruct ts; [by apply elem_of_nil in H|]. apply list_elem_of_singleton in H as ->. by split.
  - apply list_elem_of_singleton in H as ->. by split.
Qed.

(** the only step of a chain that carries the chord *)
Lemma chain_carrier P fuel d ts tasks results id :
  solid (Chain d ts) = true → ts ≠ [] → working P → p_clone P = true → chord_body P ≠ None →
  (sum_list (map csize ts) ≤ fuel)%nat → prepare_steps P fuel ts = Ok (tasks, results, id) →
  ∃ x, carriers (rev tasks) = [x] ∧ solid x = true ∧ (csize x < csize (Chain d ts))%nat ∧ descend x = descend (Chain d ts).
Proof.
  intros Hsol Hne Hw Hcl Hb Hn Hp. pose proof Hsol as Hsol'. simpl in Hsol.
  rewrite !andb_true_iff, orb_true_iff in Hsol. destruct Hsol as [[[Hsp Hso] Hpos] Hfl].
  assert (flat ts ≠ []) as Hfl' by (destruct Hfl, ts; try done; by destruct (flat _)).
  destruct (prepare_spec P fuel ts Hw Hcl Hsp Hfl' Hn) as (steps & id' & results' & Hp' & _ & _ & Hnodes).
  rewrite Hp in Hp'. injection Hp' as -> -> ->. rewrite rev_involutive.
  pose proof (carriers_erase steps) as Hc. rewrite Hnodes in Hc.
  destruct (flat ts) as [|t l _] eqn:E using rev_ind; [done|].
  assert (∃ xs kws, give (p_args P) (p_kwargs P) (map erase (l ++ [t])) = xs ++ [kws] ∧
            descend kws = descend t ∧ solid kws = solid t ∧ csize kws = csize t) as (xs & x' & Hx & Hd & Hs & Hz).
  { rewrite map_app. destruct l as [|y l]; simpl.
    - exists [], (given (p_args P) (p_kwargs P) (erase t)). destruct (given_same (p_args P) (p_kwargs P) (erase t)) as (-> & -> & ->).
      by rewrite descend_erase, solid_erase, csize_erase.
    - exists (given (p_args P) (p_kwargs P) (erase y) :: map erase l), (erase t). by rewrite descend_erase, solid_erase, csize_erase. }
  rewrite Hx, annotate_carriers in Hc by done. destruct (carriers steps) as [|x [|]]; simplify_eq/=.
  rewrite descend_erase in Hd. rewrite solid_erase in Hs. rewrite csize_erase in Hz.
  assert (t ∈ flat ts) as Ht by (rewrite E; set_solver). exists x. rewrite Hd, Hs, Hz. split_and!; [done|..].
  - by apply (leaves_props (Chain d ts)).
  - unfold flat in Ht. apply list_elem_of_In, in_concat in Ht as (l' & (s & <- & Hin)%in_map_iff & Ht).
    apply list_elem_of_In in Hin, Ht. apply leaves_props in Ht as [Ht _].
    apply list_elem_of_split in Hin as (l1 & l2 & ->). simpl. rewrite map_app, sum_list_app'. simpl. lia.
  - change (descend t = descend (Chain d ts)). rewrite descend_chain by (by rewrite E). by unfold last_descend; rewrite E, last_snoc.
Qed.

Lemma reports_exact k s : (csize s ≤ k)%nat → solid s = true → ∀ n, reports s n ↔ n = descend s.
Proof.
  revert s. induction k as [|k IH]; intros s Hk Hs n; [pose proof (csize_pos s); lia|].
  destruct s as [nm d|d ts|d ts|d h b].
  - split; [by inversion 1|intros ->; constructor].
  - destruct (decide (ts = [])) as [->|Hne]; [split; [by inversion 1|intros ->; constructor]|].
    set (P0 := Params [] [] None [] None None (Some (Chain d ts)) true None false (λ _ _, Ok ""%string) (Ok ())).
    assert (working P0) as Hw0 by (split; [by eexists|done]).
    split.
    + inversion 1 as [| | | |P fuel d' ts' tasks results id ns _ Hw Hcl Hb Hn Hp Hf]; subst; [done|].
      destruct (chain_carrier P fuel d ts tasks results id Hs Hne Hw Hcl Hb Hn Hp) as (x & Hc & Hx & Hz & <-).
      rewrite Hc in Hf. inversion Hf as [|? m ? ms Hm Hnil]; subst. inversion Hnil; subst. simpl.
      apply IH in Hm; [lia|lia|done].
    + intros ->. pose proof Hs as Hs'. simpl in Hs'. rewrite !andb_true_iff, orb_true_iff in Hs'. destruct Hs' as [[[Hsp _] _] Hfl].
      assert (flat ts ≠ []) as Hfl' by (destruct Hfl, ts; try done; by destruct (flat _)).
      destruct (prepare_spec P0 _ ts Hw0 eq_refl Hsp Hfl' (le_n _)) as (steps & id & results & Hp & _).
      destruct (chain_carrier P0 _ d ts _ _ _ Hs Hne Hw0 eq_refl ltac:(done) (le_n _) Hp) as (x & Hc & Hx & Hz & <-).
      replace (descend x) with (sum_list [descend x]) by (simpl; lia).
      eapply reports_chain; [done|exact Hw0|done|done|done|exact Hp|]. rewrite Hc. constructor; [|constructor].
      apply IH; [lia|done|done].
  - simpl in Hs. apply forallb_Forall' in Hs.
    assert (Forall (λ t, ∀ m, reports t m ↔ m = descend t) ts) as Hts.
    { apply Forall_forall. intros t Ht m. apply IH; [|by apply (proj1 (Forall_forall _ _) Hs)].
      apply list_elem_of_split in Ht as (l1 & l2 & ->). simpl in Hk. rewrite map_app, sum_list_app' in Hk. simpl in Hk. lia. }
    clear Hs Hk IH. split.
    + inversion 1 as [|? ? ns Hf| | |]; subst. simpl. f_equal. clear -Hf Hts. revert Hts.
      induction Hf as [|t m ts ns Hm _ IH]; intros Hts; [done|]. apply Forall_cons in Hts as [Ht Hts].
      apply Ht in Hm as ->. simpl. f_equal. auto.
    + intros ->. simpl. constructor. induction Hts as [|t ts Ht _ IHt]; constructor; [by apply Ht|done].
  - simpl in Hs, Hk |- *. rewrite <-(IH b) by (done || lia). split; [by inversion 1|by constructor].
Qed.

(** The size that is stored for a chord is the number of tasks that report to it:
    counted by [_descend] for a member of the header, it is exactly the number of
    tasks that carry the chord when the member is executed, however chains, groups
    and chords are nested in it. *)
Theorem chord_size_exact s n : solid s = true → reports s n ↔ n = descend s.
Proof. intros Hs. by apply (reports_exact (csize s)). Qed.

End Steps.

(** ** Examples *)

Module Examples.
Import Canvas.Examples.
Open Scope Z_scope.

Definition P (xs : list Z) : params :=
  Params xs [] None [] (Some "last"%string) (Some "g"%string) (Some (add 0)) true None false (λ _ _, Ok "id"%string) (Ok ()).

Lemma working_P xs : working (P xs).
Proof. split; [by eexists|done]. Qed.

Definition ex_chain : list (sig Z) := [new_chain [Group attrs0 []; add 1]; group [add 2; add 3]; add 4].



Lemma chord_size_exact_witness : reports (new_chain ex_chain) 1 ↔ 1%nat = descend (new_chain ex_chain).
Proof. apply chord_size_exact. done. Defined.

(** A chain that starts with a group is called without its partial arguments: the
    group is cloned with them, and its copy does not keep them. *)
Lemma head_group_loses_args :
  ∃ first, run (P []) 20 attrs0 [group [add 2; add 3]; add 4] [10] None None = Ok (Some (first, Some [])) ∧
    eval sem vlist (shape first) [] = eval sem vlist (new_chain [group [add 2; add 3]; add 4]) [] ∧
    eval sem vlist (shape first) [] ≠ eval sem vlist (new_chain [group [add 2; add 3]; add 4]) [10].
Proof. eexists. split; [by vm_compute|]. by vm_compute. Qed.

(** A group of empty groups at the end of a chain carries the chord and reports
    nothing, but [_descend] counts the task before it. *)
Lemma hollow_group_miscounted :
  let c := [add 1; group [group []; group []]] in
  descend (new_chain c) = 1%nat ∧
  ∃ tasks results id, prepare_steps (P []) 20 c = Ok (tasks, results, id) ∧ carriers (rev tasks) = [group [group []; group []]] ∧
    reports (group [group []; group []]) 0.
Proof.
  split; [done|]. do 3 eexists. split; [by vm_compute|]. split; [done|].
  apply (reports_group _ _ [0%nat; 0%nat]). repeat constructor; apply (reports_group _ _ []); constructor.
Qed.

End Examples.
End ChainSteps.
