(* ===== verification/Groups.v ===== *)
(** Groups, celery/canvas.py: how the members of a group are unrolled to be sent
    ([group._prepared], [_apply_tasks]) and to be frozen ([_freeze_unroll]), and the
    local execution of a chain ([_chain.apply]).

    Freezing and applying a member are calls of its own class; what is modelled is
    which members they are made on, in which order and with which arguments. *)

From S2P Require Import Prelude.
From S2P Require Import PyDict.
From S2P Require Import Canvas.
From S2P Require Import ChainSteps.
Import Canvas ChainSteps.

Module Groups.

Section Groups.
Context {V : Type} `{!EqDecision V}.
Implicit Types s t : sig V.
Implicit Types ts : list (sig V).

Definition is_group s : bool := match s with Group _ _ => true | _ => false end.
Definition is_empty_chain s : bool := match s with Chain _ [] => true | _ => false end.

(** [_prepared]: members with the index they are frozen with.  Nested groups are
    unrolled in place, empty chains dropped. *)
Definition prepend_args (xs : list V) s : sig V :=
  match xs with
  | [] => s
  | _ => if immutable (attrs_of s) then s else set_args s (xs ++ args (attrs_of s))
  end.

Fixpoint prepared_of (xs : list V) s (index : nat) : list (sig V * nat) :=
  match s with
  | Group _ ts =>
      (fix go i l := match l with [] => [] | t :: l => prepared_of xs t i ++ go (S i) l end) 0%nat ts
  | _ => if is_empty_chain s then [] else [(prepend_args xs (copy s), index)]
  end.

Definition prepared (xs : list V) ts : list (sig V * nat) := prepared_of xs (Group attrs0 ts) 0.

(** [_freeze_unroll]: the members as they are frozen, with their index.
    [extendleft] puts the members of a nested group on the left one by one. *)
Fixpoint freeze_unroll (fuel : nat) (stack : list (sig V)) (group_index : nat) : outcome (list (sig V * nat)) :=
  match stack with
  | [] => Ok []
  | task :: stack =>
      match fuel with
      | O => Diverge
      | S fuel =>
          match copy task with
          | Group _ ts => freeze_unroll fuel (rev ts ++ stack) group_index
          | Chain _ [] => freeze_unroll fuel stack group_index
          | task => let! l := freeze_unroll fuel stack (S group_index) in Ok ((task, group_index) :: l)
          end
      end
  end.

(** [_apply_tasks]: the size of the chord is set before the last member is applied *)
Inductive act :=
| ASetChordSize (n : nat)
| AApply (s : sig V) (chord : option (oval V)).

Fixpoint apply_tasks (chord : option (oval V)) (chord_size : nat) (tasks : list (sig V)) : list act :=
  match tasks with
  | [] => []
  | s :: rest =>
      let chord_obj := match chord with Some c => Some c | None => dict_get (options (attrs_of s)) "chord"%string end in
      let chord_size := (chord_size + descend s)%nat in
      (match chord_obj, rest with Some _, [] => [ASetChordSize chord_size] | _, _ => [] end)
      ++ AApply s chord_obj :: apply_tasks chord chord_size rest
  end.

(** [_freeze_gid]: the options given to the members, and the group's id.  [uuid] is
    a fresh id. *)
Definition freeze_gid (d : attrs V (oval V)) (opts : pydict string (oval V)) (uuid : oval V) :
    pydict string (oval V) * oval V :=
  let o := dict_update (options d)
    (filter (λ kv, (bool_decide (kv.1 ∉ IMMUTABLE_OPTIONS) || bool_decide (kv.1 ∉ dict_keys (options d))) = true) opts) in
  let gid := default uuid (dict_get o "task_id"%string) in
  (dict_set (dict_del o "task_id"%string) "group_id"%string gid, gid).

(** [_chain.apply].  [apply_sig] applies a signature locally; of its result matter
    the value and whether it says ignored or rejected.  (Results count as true.) *)
Record eres := ERes { e_value : V; e_stop : bool }.

Section Eager.
Variable apply_sig : sig V → list V → outcome eres.

Fixpoint chain_apply ts (last : option eres) (fargs : list V) : outcome (option eres) :=
  match ts with
  | [] => Ok last
  | task :: rest =>
      if is_empty_group task && (match rest with [] => false | _ => true end || match last with Some _ => true | None => false end)
      then chain_apply rest last fargs
      else
        let! res := apply_sig (copy task)
          (match last with Some r => [e_value r] | None => fargs end) in
        if e_stop res then Ok (Some res) else chain_apply rest (Some res) []
  end.
End Eager.

(** ** The members of a group *)

(** the members in order, and in the order in which they are frozen *)
Fixpoint members s : list (sig V) :=
  match s with
  | Group _ ts => concat (map members ts)
  | _ => if is_empty_chain s then [] else [copy s]
  end.
Fixpoint rmembers s : list (sig V) :=
  match s with
  | Group _ ts => concat (rev (map rmembers ts))
  | _ => if is_empty_chain s then [] else [copy s]
  end.

Lemma prepared_of_members s i : (prepared_of [] s i).*1 = members s.
Proof.
  revert i. induction s as [n d|d [] IH|d ts IH|d h b _ _] using sig_ind'; intros i; [done..| |done].
  cbn [prepared_of members]. generalize 0%nat as k. induction IH as [|t ts Ht _ IHt]; intros k; [done|].
  rewrite fmap_app, Ht, IHt. done.
Qed.

Lemma concat_rev_perm {A} (l : list (list A)) : concat (rev l) ≡ₚ concat l.
Proof.
  induction l as [|x l IH]; simpl; [done|]. rewrite concat_app. simpl. rewrite app_nil_r, IH. apply Permutation_app_comm.
Qed.

Lemma rmembers_perm s : rmembers s ≡ₚ members s.
Proof.
  induction s as [n d|d [] IH|d ts IH|d h b _ _] using sig_ind'; [done..| |done]. cbn [members rmembers].
  rewrite concat_rev_perm.
  induction IH as [|t ts Ht _ IHt]; simpl; [done|]. by rewrite Ht, IHt.
Qed.

Lemma rmembers_all ts : concat (map rmembers ts) ≡ₚ concat (map members ts).
Proof. induction ts as [|t ts IH]; simpl; [done|]. by rewrite (rmembers_perm t), IH. Qed.

Lemma freeze_unroll_eq fuel stack i :
  (sum_list (map csize stack) ≤ fuel)%nat →
  ∃ l, freeze_unroll fuel stack i = Ok l ∧ l.*1 = concat (map rmembers stack) ∧ l.*2 = seq i (length l).
Proof.
  revert stack i. induction fuel as [|fuel IH]; intros [|t stack] i Hf; try by eexists.
  { simpl in Hf. pose proof (csize_pos t). lia. }
  simpl in Hf. pose proof (csize_pos t).
  assert (∀ s, rmembers t = [s] → ∃ l, (let! l := freeze_unroll fuel stack (S i) in Ok ((s, i) :: l)) = Ok l ∧
    l.*1 = concat (map rmembers (t :: stack)) ∧ l.*2 = seq i (length l)) as Hone.
  { intros s Hs. destruct (IH stack (S i)) as (l & -> & H1 & H2); [lia|]. eexists. split; [done|].
    cbn [map concat fmap list_fmap]. by rewrite Hs, H1, H2. }
  destruct t as [n d|d [|t ts]|d ts|d h b]; cbn [freeze_unroll copy clone map].
  - by apply Hone.
  - destruct (IH stack i) as (l & Hl & H1 & H2); [lia|]. by exists l.
  - by apply Hone.
  - destruct (IH (rev ts ++ stack) i) as (l & Hl & H1 & H2).
    { rewrite map_app, sum_list_app', map_rev, sum_list_rev. simpl in Hf. lia. }
    exists l. split_and!; [done| |done]. rewrite H1, map_app, concat_app, map_rev. done.
  - by apply Hone.
Qed.

(** Freezing a group ends and freezes each member that sending it would apply
    once, numbered from zero; in the order in which they are sent when no group is
    nested in it. *)
Theorem freeze_unroll_members fuel ts :
  (sum_list (map csize ts) ≤ fuel)%nat →
  ∃ l, freeze_unroll fuel ts 0 = Ok l ∧ l.*2 = seq 0 (length l) ∧ l.*1 ≡ₚ (prepared [] ts).*1 ∧
    (Forall (λ t, is_group t = false) ts → l.*1 = (prepared [] ts).*1).
Proof.
  intros Hf. destruct (freeze_unroll_eq fuel ts 0 Hf) as (l & Hl & H1 & H2). exists l.
  unfold prepared. rewrite prepared_of_members, H1. cbn [members]. split_and!; [done|done| |].
  - apply rmembers_all.
  - intros Hg. f_equal. apply map_Forall_ext. eapply Forall_impl; [exact Hg|]. by intros [].
Qed.

(** ** The size of the chord *)

Lemma apply_tasks_eq c k init t :
  apply_tasks (Some c) k (init ++ [t]) =
  map (λ s, AApply s (Some c)) init
  ++ [ASetChordSize (k + sum_list (map descend (init ++ [t]))); AApply t (Some c)].
Proof.
  revert k. induction init as [|s init IH]; intros k; simpl; [by rewrite Nat.add_0_r|].
  rewrite IH. destruct (init ++ [t]) eqn:E; [by destruct init|]. rewrite <-E. simpl. by rewrite Nat.add_assoc.
Qed.

(** C4: sending the header of a chord sets the chord's size once, before the last
    member is sent, to the number of tasks that will report to the chord; every
    member is sent with the chord.  This is for [solid] headers, which constrain the
    chains in the header: their nested chains have no arguments of their own and
    are not immutable, no step is a group of a single member, chords among the steps
    are in normal form ([proper]), and every step stands for at least one task.
    The last condition is needed: when a chain ends in a group of empty groups, the
    size is wrong ([hollow_group_miscounted] in ChainSteps). *)
Theorem chord_size_set c d init t :
  forallb solid (init ++ [t]) = true →
  ∃ n, apply_tasks (Some c) 0 (init ++ [t]) =
         map (λ s, AApply s (Some c)) init ++ [ASetChordSize n; AApply t (Some c)] ∧
       ∀ m, reports (Group d (init ++ [t])) m ↔ m = n.
Proof.
  intros Hs. exists (descend (Group d (init ++ [t]))). split; [by rewrite apply_tasks_eq|].
  intros m. by apply (reports_exact (csize (Group d (init ++ [t])))).
Qed.

(** ** Local execution *)

Section EagerMeaning.
Context (sem : string → list V → pydict string V → V) (vlist : list V → V).
Variable apply_sig : sig V → list V → outcome eres.

(** applying the tasks of the chain locally gives what they mean *)
Definition applies t : Prop :=
  is_empty_group t = false → ∀ xs, ∃ v, apply_sig (copy t) xs = Ok (ERes v false) ∧ eval sem vlist t xs = Some v.

Lemma chain_apply_seq ts last xs :
  Forall applies ts → (last = None → forallb is_empty_group ts = false) →
  ∃ r, chain_apply apply_sig ts last xs = Ok (Some r) ∧ eval_seq sem vlist xs (e_value <$> last) ts = Some (e_value r).
Proof.
  intros Happ. revert last xs. induction Happ as [|t ts Ht _ IH]; intros last xs Hl.
  { destruct last as [r|]; [by exists r|by specialize (Hl eq_refl)]. }
  cbn [chain_apply]. rewrite eval_seq_step. destruct (is_empty_group t) eqn:Eg.
  - assert (eval sem vlist t (input xs (e_value <$> last)) = None) as -> by (by destruct t as [| |? []|]).
    assert (match ts with [] => false | _ => true end || match last with Some _ => true | None => false end = true) as ->.
    { destruct last; [by destruct ts|]. specialize (Hl eq_refl). simpl in Hl. rewrite Eg in Hl. by destruct ts. }
    cbn [andb]. apply IH. intros Hn. specialize (Hl Hn). simpl in Hl. by rewrite Eg in Hl.
  - cbn [andb]. assert (match last with Some r => [e_value r] | None => xs end = input xs (e_value <$> last)) as -> by (by destruct last).
    destruct (Ht Eg (input xs (e_value <$> last))) as (v & -> & ->). cbn [obind e_stop].
    destruct (IH (Some (ERes v false)) []) as (r & Hr & Hv); [done|]. exists r. split; [done|].
    rewrite <-Hv. apply eval_seq_Some.
Qed.

(** Executing a chain locally and sending it agree: the local result has the
    value that the steps sent to workers compute one after the other. *)
Theorem eager_agrees P n d ts xs :
  working P → p_clone P = true → use_link P = false → p_kwargs P = [] → args d = [] → immutable d = false →
  forallb spine ts = true → flat ts ≠ [] → (sum_list (map csize ts) ≤ n)%nat →
  (∀ d' h, head (flat ts) = Some (Group d' h) → xs = []) → Forall applies ts →
  ∃ first l r, run P n d ts xs None None = Ok (Some (first, Some l)) ∧ chain_apply apply_sig ts None xs = Ok (Some r) ∧
    eval_seq sem vlist [] None (map shape (first :: rev l)) = Some (e_value r).
Proof.
  intros Hw Hcl Hul Hk Ha Hi Hsp Hne Hn Hg Happ.
  destruct (chain_run_spec sem vlist P n d ts xs) as (first & l & Hrun & Hev); [done..|].
  destruct (chain_apply_seq ts None xs Happ) as (r & Hr & Hv).
  { intros _. apply not_true_is_false. intros Hall. apply Hne. clear -Hall. unfold flat.
    induction ts as [|t ts IH]; [done|]. simpl in *. rewrite andb_true_iff in Hall. destruct Hall as [Ht Hts].
    rewrite (IH Hts). by destruct t as [| |? []|]. }
  exists first, l, r. split_and!; [done|done|]. by rewrite Hev, eval_chain.
Qed.
End EagerMeaning.

End Groups.

(** ** Examples *)

Module Examples.
Import Canvas.Examples ChainSteps.Examples.
Open Scope Z_scope.

(** applying a task locally *)
Definition apply_sig (s : sig Z) (xs : list Z) : outcome eres :=
  match eval sem vlist s xs with Some v => Ok (ERes v false) | None => Raise AttributeError end.

Lemma freeze_unroll_members_witness :
  ∃ l, freeze_unroll 20 [add 1; group [add 2; add 3]] 0 = Ok l ∧ l.*2 = seq 0 (length l) ∧
    l.*1 ≡ₚ (prepared [] [add 1; group [add 2; add 3]]).*1 ∧
    (Forall (λ t, is_group t = false) [add 1; group [add 2; add 3]] → l.*1 = (prepared [] [add 1; group [add 2; add 3]]).*1).
Proof. apply freeze_unroll_members. vm_compute. lia. Defined.

Lemma chord_size_set_witness :
  ∃ n, apply_tasks (Some (OSig (add 9))) 0 [group [add 1; add 2]; new_chain ex_chain] =
         [AApply (group [add 1; add 2]) (Some (OSig (add 9))); ASetChordSize n; AApply (new_chain ex_chain) (Some (OSig (add 9)))] ∧
       ∀ m, reports (group [group [add 1; add 2]; new_chain ex_chain]) m ↔ m = n.
Proof. by apply (chord_size_set (OSig (add 9)) attrs0 [group [add 1; add 2]] (new_chain ex_chain)). Defined.

Lemma eager_agrees_witness :
  ∃ first l r, run (P []) 20 attrs0 ex_chain [10] None None = Ok (Some (first, Some l)) ∧
    chain_apply apply_sig ex_chain None [10] = Ok (Some r) ∧
    eval_seq sem vlist [] None (map shape (first :: rev l)) = Some (e_value r).
Proof.
  apply eager_agrees; [apply working_P|done..|vm_compute; lia|done|].
  repeat constructor; intros _ xs; eexists; (split; [|reflexivity]); reflexivity.
Defined.

(** The members of a nested group are frozen in reverse order, but sent in order:
    their results are stored in another order than that of the group. *)
Lemma nested_group_reversed :
  (let! l := freeze_unroll 20 [add 1; group [add 2; add 3]] 0 in Ok (l.*1)) = Ok [add 1; add 3; add 2] ∧
  (prepared [] [add 1; group [add 2; add 3]]).*1 = [add 1; add 2; add 3].
Proof. done. Qed.

(** ... and the indexes of the members of a nested group start again from zero. *)
Lemma prepared_index_repeats : (prepared [] [add 1; group [add 2; add 3]]).*2 = [0; 0; 1]%nat.
Proof. done. Qed.

(** A group that holds only an empty group is skipped by a worker and executed
    locally: the two ways do not agree on it. *)
Lemma nested_empty_group_differs :
  (let! r := chain_apply apply_sig [add 1; group [group []]] None [10] in Ok (e_value <$> r)) = Ok (Some 1000) ∧
  ∃ first, run (P []) 20 attrs0 [add 1; group [group []]] [10] None None = Ok (Some (first, Some [])) ∧
    eval sem vlist (shape first) [] = Some 11.
Proof. split; [done|]. eexists. by split; [vm_compute|]. Qed.

End Examples.
End Groups.
