(* ===== verification/Results.v ===== *)
(** Results of tasks and groups, celery/result.py: result objects as tuples and
    back, the tree of results a task leads to, sets of results, waiting for all of
    them ([join] and [join_native]), and reading the state of one result with its
    cache.

    The backend is another component: what it returns when a result is read is
    given by parameters, since other processes change it in between. *)

From S2P Require Import Prelude.
From S2P Require Import PyDict.
From S2P Require Import Effect.
From S2P Require Import States.
From S2P Require Import Graph.
Import States.

Module Results.

(** ** Result objects *)

Inductive result :=
| AsyncResult (id : string) (parent : option result)
| GroupResult (id : string) (results : list result) (parent : option result).

(** Serialized results: [((id, parent), nodes)], or [(id, nodes)] in an older form.
    [parent] may also be an object: a parent that counts as false is left as it is. *)
Inductive tup :=
| Tup (id : string) (parent : tparent) (nodes : option (list tup))
| OldTup (id : string) (nodes : option (list tup))
with tparent :=
| PNone
| PTup (t : tup)
| PObj (r : result).

(** [bool(result)]: [GroupResult.__bool__] *)
Definition truthy (r : result) : bool :=
  match r with
  | AsyncResult _ _ => true
  | GroupResult id rs _ => negb (bool_decide (id = ""%string)) || negb (length rs =? 0)%nat
  end.

Fixpoint as_tuple (r : result) : tup :=
  let ptup p := match p with None => PNone | Some p => if truthy p then PTup (as_tuple p) else PObj p end in
  match r with
  | AsyncResult id p => Tup id (ptup p) None
  | GroupResult id rs p => Tup id (ptup p) (Some (map as_tuple rs))
  end.

Fixpoint result_from_tuple (t : tup) : result :=
  let pres p := match p with PNone => None | PTup t => Some (result_from_tuple t) | PObj r => Some r end in
  let make id p nodes :=
    match nodes with
    | Some l => GroupResult id (map result_from_tuple l) p
    | None => AsyncResult id p
    end in
  match t with
  | Tup id p nodes => make id (pres p) nodes
  | OldTup id nodes => make id None nodes
  end.

(** [AsyncResult.as_list]; results of groups have no such method *)
Fixpoint as_list (r : result) : outcome (list string) :=
  match r with
  | AsyncResult id None => Ok [id]
  | AsyncResult id (Some p) => let! l := as_list p in Ok (id :: l)
  | GroupResult _ _ _ => Raise AttributeError
  end.

(** [forget] of both classes: the ids the backend is told to forget, in order *)
Fixpoint forget (r : result) : list string :=
  match r with
  | AsyncResult id p => match p with Some p => if truthy p then forget p else [] | None => [] end ++ [id]
  | GroupResult _ rs _ => concat (map forget rs)
  end.

Lemma result_ind' (P : result → Prop) :
  (∀ id, P (AsyncResult id None)) → (∀ id p, P p → P (AsyncResult id (Some p))) →
  (∀ id rs, Forall P rs → P (GroupResult id rs None)) → (∀ id rs p, Forall P rs → P p → P (GroupResult id rs (Some p))) →
  ∀ r, P r.
Proof.
  intros HA HAp HG HGp. fix IH 1. intros [id [p|]|id rs p].
  - apply HAp, IH.
  - apply HA.
  - assert (Forall P rs) as Hrs by (induction rs; constructor; [apply IH|assumption]).
    destruct p as [p|]; [apply HGp; [assumption|apply IH]|apply HG; assumption].
Qed.

(** A result that is turned into a tuple (to be stored with a group or as the
    child of a task) and back is the same result, with its parents and members. *)
Theorem result_tuple_roundtrip r : result_from_tuple (as_tuple r) = r.
Proof.
  induction r as [id|id p IH|id rs IH|id rs p IH IHp] using result_ind'; simpl.
  - done.
  - destruct (truthy p); [by rewrite IH|done].
  - f_equal. rewrite map_map. rewrite <-(map_id rs) at 2. apply map_ext_Forall. eapply Forall_impl; [exact IH|]. done.
  - f_equal; [|destruct (truthy p); [by rewrite IHp|done]].
    rewrite map_map. rewrite <-(map_id rs) at 2. apply map_ext_Forall. eapply Forall_impl; [exact IH|]. done.
Qed.

(** The task before a group is not forgotten with the task after it, and the ids of
    a chain with a group cannot be listed: results of groups stop both. *)
Lemma group_stops_parents t1 t2 g s p :
  p = Some (AsyncResult t1 None) →
  forget (AsyncResult t2 (Some (GroupResult g [AsyncResult s None] p))) = [s; t2] ∧
  as_list (AsyncResult t2 (Some (GroupResult g [AsyncResult s None] p))) = Raise AttributeError.
Proof. intros ->. simpl. by rewrite orb_true_r. Qed.

(** ** The tree of results *)

(** A result with the results it leads to, in the order of its children *)
Inductive tree := Node (id : string) (children : list tree).

Definition node_id (t : tree) : string := match t with Node id _ => id end.
Definition children (t : tree) : list tree := match t with Node _ l => l end.

Section Tree.
Variable ready : string → bool.

(** [iterdeps]: what the generator yields, and how it ends *)
Fixpoint iterdeps (fuel : nat) (intermediate : bool) (stack : list (option string * tree)) :
    list (option string * string) * outcome () :=
  match stack with
  | [] => ([], Ok ())
  | (parent, node) :: stack =>
      match fuel with
      | O => ([], Diverge)
      | S fuel =>
          let '(l, r) :=
            if ready (node_id node)
            then iterdeps fuel intermediate (stack ++ map (λ c, (Some (node_id node), c)) (children node))
            else if intermediate then iterdeps fuel intermediate stack else ([], Raise IncompleteStream) in
          ((parent, node_id node) :: l, r)
      end
  end.

(** [collect] gets the value of each; [get_leaf] returns the last one *)
Definition collect {A} (get : string → outcome A) (fuel : nat) (intermediate : bool) (t : tree) : outcome (list (string * A)) :=
  let '(l, r) := iterdeps fuel intermediate [(None, t)] in
  let! vs := foldM (λ acc x, let! v := get x.2 in Ok (acc ++ [(x.2, v)])) [] l in
  let! _ := r in Ok vs.

Definition get_leaf {A} (get : string → outcome A) (fuel : nat) (t : tree) : outcome (option A) :=
  let! vs := collect get fuel false t in Ok (snd <$> last vs).
End Tree.

(** [build_graph], from what [iterdeps] yields *)
Definition add_result (g : graph string) (x : option string * string) : outcome (graph string) :=
  let g := DependencyGraph.add_arc g x.2 in
  match x.1 with Some p => DependencyGraph.add_edge g p x.2 | None => Ok g end.

Definition build_graph (ready : string → bool) (fuel : nat) (intermediate : bool) (t : tree) : outcome (graph string) :=
  let '(l, r) := iterdeps ready fuel intermediate [(None, t)] in
  let! g := foldM add_result [] l in
  let! _ := r in Ok g.

(** every result of the tree with its parent, parents first *)
Fixpoint edges (parent : option string) (t : tree) : list (option string * string) :=
  match t with Node id l => (parent, id) :: concat (map (edges (Some id)) l) end.

Fixpoint tsize (t : tree) : nat := match t with Node _ l => S (sum_list (map tsize l)) end.

(** all results that lead to others are ready *)
Fixpoint complete (ready : string → bool) (t : tree) : bool :=
  match t with Node id l => ready id && forallb (complete ready) l end.

(** parents come before their children *)
Fixpoint parents_first (seen : list string) (l : list (option string * string)) : Prop :=
  match l with
  | [] => True
  | (p, c) :: l => (∀ q, p = Some q → q ∈ seen) ∧ parents_first (c :: seen) l
  end.

Definition stack_edges (stack : list (option string * tree)) : list (option string * string) :=
  concat (map (λ x, edges x.1 x.2) stack).
Definition stack_size (stack : list (option string * tree)) : nat := sum_list (map (λ x, tsize x.2) stack).

Lemma sum_list_app_nat l l' : sum_list (l ++ l') = (sum_list l + sum_list l')%nat.
Proof. induction l; simpl; lia. Qed.

Lemma forallb_map_compose {A B} (f : B → bool) (g : A → B) l : forallb f (map g l) = forallb (λ x, f (g x)) l.
Proof. induction l; simpl; congruence. Qed.

Lemma iterdeps_spec ready fuel inter stack seen :
  (stack_size stack ≤ fuel)%nat → (∀ x q, x ∈ stack → x.1 = Some q → q ∈ seen) →
  let '(l, r) := iterdeps ready fuel inter stack in
  parents_first seen l ∧
  if forallb (λ x, complete ready x.2) stack then r = Ok () ∧ l ≡ₚ stack_edges stack
  else if inter then r = Ok () else r = Raise IncompleteStream.
Proof.
  revert stack seen. induction fuel as [|fuel IH]; intros [|[p [id cs]] stack] seen Hf Hseen; simpl; try done.
  { unfold stack_size in Hf. simpl in Hf. lia. }
  unfold stack_size in Hf. simpl in Hf.
  assert (∀ q, p = Some q → q ∈ seen) as Hp by (intros q ->; by apply (Hseen (Some q, Node id cs) q); [left|]).
  assert (∀ x q, x ∈ stack → x.1 = Some q → q ∈ id :: seen) as Hs by (intros; right; eapply Hseen; [by right|done]).
  destruct (ready id) eqn:Hr; simpl; [|destruct inter; [|done]].
  - specialize (IH (stack ++ map (λ c, (Some id, c)) cs) (id :: seen)).
    destruct (iterdeps ready fuel inter _) as [l r]. destruct IH as [Ho Hrest].
    + unfold stack_size. rewrite map_app, sum_list_app_nat, map_map. change (map _ cs) with (map tsize cs). lia.
    + intros x q [Hx|Hx]%elem_of_app Hq; [by eapply Hs|]. apply list_elem_of_fmap in Hx as (c & -> & _). simplify_eq/=. by left.
    + split; [done|]. rewrite forallb_app, forallb_map_compose, andb_comm in Hrest.
      change (forallb _ cs) with (forallb (complete ready) cs) in Hrest. destruct (forallb (complete ready) cs && _); [|done]. destruct Hrest as [-> Hl]. split; [done|].
      unfold stack_edges in *. simpl. rewrite Hl, map_app, concat_app, map_map. simpl. constructor. apply Permutation_app_comm.
  - specialize (IH stack (id :: seen)). destruct (iterdeps ready fuel true stack) as [l r].
    destruct IH as [Ho Hrest]; [unfold stack_size; lia|done|]. split; [done|]. by destruct (forallb _ _), Hrest.
Qed.

(** Walking over the results a task leads to ends; it yields each result of the
    tree once with its parent, parents first, and stops with an error exactly when
    it comes to a result that is not ready. *)
Theorem iterdeps_yields ready fuel t :
  (tsize t ≤ fuel)%nat →
  let '(l, r) := iterdeps ready fuel false [(None, t)] in
  parents_first [] l ∧
  if complete ready t then r = Ok () ∧ l ≡ₚ edges None t else r = Raise IncompleteStream.
Proof.
  intros Hf. pose proof (iterdeps_spec ready fuel false [(None, t)] []) as H.
  destruct (iterdeps ready fuel false _) as [l r]. destruct H as [Ho H].
  - unfold stack_size. simpl. lia.
  - intros x q ->%list_elem_of_singleton. done.
  - split; [done|]. simpl in H. rewrite andb_true_r in H. unfold stack_edges in H. simpl in H. by rewrite app_nil_r in H.
Qed.

Lemma add_results_spec seen l g :
  (∀ k, k ∈ seen → k ∈ dict_keys g) → parents_first seen l →
  ∃ g', foldM add_result g l = Ok g' ∧ ∀ k, k ∈ dict_keys g' ↔ k ∈ dict_keys g ∨ k ∈ l.*2.
Proof.
  revert seen g. induction l as [|[p c] l IH]; intros seen g Hseen Hl; simpl.
  { exists g. split; [done|]. intros k. set_solver. }
  destruct Hl as [Hp Hl].
  assert (∀ k, k ∈ dict_keys (DependencyGraph.add_arc g c) ↔ k = c ∨ k ∈ dict_keys g) as Harc.
  { intros k. unfold DependencyGraph.add_arc, dict_setdefault, dict_in. destruct (dict_get g c) eqn:E.
    - split; [by right|]. intros [->|]; [|done]. apply dict_get_Some_elem in E. by apply (list_elem_of_fmap_2 fst) in E.
    - apply elem_of_dict_keys_set. }
  assert (∃ g1, add_result g (p, c) = Ok g1 ∧ ∀ k, k ∈ dict_keys g1 ↔ k = c ∨ k ∈ dict_keys g) as (g1 & -> & Hg1).
  { unfold add_result. simpl. destruct p as [q|]; [|by eexists].
    unfold DependencyGraph.add_edge, DependencyGraph.g_getitem.
    destruct (dict_get (DependencyGraph.add_arc g c) q) as [l0|] eqn:E.
    - eexists. split; [done|]. intros k. rewrite elem_of_dict_keys_set, Harc. split; [|tauto].
      intros [->|]; [|done]. right. apply Hseen, Hp. done.
    - exfalso. apply dict_get_None in E. apply E, Harc. right. by apply Hseen, Hp. }
  simpl. destruct (IH (c :: seen) g1) as (g' & -> & Hg'); [|done|].
  { intros k [->|Hk]%elem_of_cons; apply Hg1; [by left|right; by apply Hseen]. }
  exists g'. split; [done|]. intros k. rewrite Hg', Hg1. set_solver.
Qed.

(** The graph of the results a finished task leads to can be built: it has
    exactly the results of the tree as nodes (an edge is never added before the node
    it starts from). *)
Theorem build_graph_nodes ready fuel t :
  (tsize t ≤ fuel)%nat → complete ready t = true →
  ∃ g, build_graph ready fuel false t = Ok g ∧ ∀ k, k ∈ dict_keys g ↔ k ∈ (edges None t).*2.
Proof.
  intros Hf Hc. unfold build_graph. pose proof (iterdeps_spec ready fuel false [(None, t)] []) as H.
  destruct (iterdeps ready fuel false _) as [l r].
  destruct H as [Ho H]; [unfold stack_size; simpl; lia|by intros x q ->%list_elem_of_singleton|].
  simpl in H. rewrite Hc in H. destruct H as [-> Hl]. unfold stack_edges in Hl. simpl in Hl. rewrite app_nil_r in Hl.
  destruct (add_results_spec [] l []) as (g & -> & Hg); [set_solver|done|].
  exists g. split; [done|]. intros k. rewrite Hg, Hl. set_solver.
Qed.

(** ** Sets of results

    The results of a set are its ids, in order ([results] is a list). *)
Definition rs_add (rs : list string) (r : string) : list string := if bool_decide (r ∈ rs) then rs else rs ++ [r].

Fixpoint list_remove (rs : list string) (r : string) : outcome (list string) :=
  match rs with
  | [] => Raise ValueError
  | x :: rs => if bool_decide (x = r) then Ok rs else let! rs := list_remove rs r in Ok (x :: rs)
  end.
Definition rs_remove (rs : list string) (r : string) : outcome (list string) := otry (list_remove rs r) (λ _, Raise KeyError).
Definition rs_discard (rs : list string) (r : string) : outcome (list string) := otry (rs_remove rs r) (λ _, Ok rs).
(** [extend] takes the new results one by one, so repeated ones are seen *)
Definition rs_update (rs rs' : list string) : list string := foldl rs_add rs rs'.

Section Sets.
Variable state_of : string → string.
Definition r_ready (r : string) : bool := bool_decide (state_of r ∈ READY_STATES).
Definition r_successful (r : string) : bool := bool_decide (state_of r = SUCCESS).
Definition r_failed (r : string) : bool := bool_decide (state_of r = FAILURE).
Definition rs_successful (rs : list string) : bool := forallb r_successful rs.
Definition rs_failed (rs : list string) : bool := existsb r_failed rs.
Definition rs_waiting (rs : list string) : bool := existsb (λ r, negb (r_ready r)) rs.
Definition rs_ready (rs : list string) : bool := forallb r_ready rs.
Definition completed_count (rs : list string) : nat := sum_list (map (λ r, if r_successful r then 1 else 0) rs).
End Sets.

(** ** Joining *)

Section Join.
Context {V : Type}.

(** [join] takes results in order.  [get r remaining now] is the outcome of getting
    [r] with a timeout at time [now], and when it ends. *)
Section Polling.
Variable get : string → option Z → Z → outcome V * Z.

Definition remaining_time (start : Z) (timeout : option Z) (now : Z) : option Z :=
  (λ t, Z.max (t - (now - start)) 0) <$> timeout.

Fixpoint join_loop (start : Z) (timeout : option Z) (callback : option (string → V → outcome ()))
    (now : Z) (acc : list V) (rs : list string) : outcome (list V) * Z :=
  match rs with
  | [] => (Ok acc, now)
  | r :: rs =>
      let '(o, now) := get r (remaining_time start timeout now) now in
      match o with
      | Ok v =>
          match callback with
          | Some f =>
              match f r v with
              | Ok _ => join_loop start timeout callback now acc rs
              | Raise e => (Raise e, now)
              | Diverge => (Diverge, now)
              end
          | None => join_loop start timeout callback now (acc ++ [v]) rs
          end
      | Raise e => (Raise e, now)
      | Diverge => (Diverge, now)
      end
  end.

(** [blocked]: waiting is not allowed here ([assert_will_not_block] fails) *)
Definition join (blocked : bool) (timeout : option Z) (callback : option (string → V → outcome ())) (on_message : bool)
    (start : Z) (rs : list string) : outcome (list V) * Z :=
  if blocked then (Raise RuntimeError, start)
  else if on_message then (Raise ImproperlyConfigured, start) else join_loop start timeout callback start [] rs.
End Polling.

(** What the backend's [iter_native] yields for a result: its metadata, or the
    results of its children, each of which is got in turn *)
Inductive item :=
| IMeta (status : string) (value : V) (error : exn)
| IChildren (gets : list (outcome V)).

Variable vlist : list V → V.

Definition item_value (propagate : bool) (i : item) : outcome V :=
  match i with
  | IMeta st v e => if propagate && bool_decide (st ∈ PROPAGATE_STATES) then Raise e else Ok v
  | IChildren gets => let! vs := foldM (λ acc g, let! v := g in Ok (acc ++ [v])) [] gets in Ok (vlist vs)
  end.

(** [{result.id: i for i, result in enumerate(self.results)}] *)
Definition order_index (rs : list string) : pydict string nat :=
  foldl (λ d x, dict_set d x.2 x.1) [] (zip (seq 0 (length rs)) rs).

(** [join_native]; [items] come in the order of arrival, [ended] is how the
    iteration ends.  Without a callback the value of a result that does not arrive
    is [None]. *)
Definition store_item (propagate : bool) (index : pydict string nat) (acc : list (option V)) (x : string * item) :
    outcome (list (option V)) :=
  let! v := item_value propagate x.2 in
  let! i := of_option KeyError (dict_get index x.1) in
  Ok (<[i := Some v]> acc).

Definition join_native (blocked propagate : bool) (rs : list string) (items : list (string * item)) (ended : outcome ()) :
    outcome (list (option V)) :=
  if blocked then Raise RuntimeError else
  let! acc := foldM (store_item propagate (order_index rs)) (replicate (length rs) None) items in
  let! _ := ended in Ok acc.

Definition join_native_callback (blocked propagate : bool) (callback : string → V → outcome ()) (items : list (string * item))
    (ended : outcome ()) : outcome () :=
  if blocked then Raise RuntimeError else
  let! _ := foldM (λ _ x, let! v := item_value propagate x.2 in callback x.1 v) () items in ended.

Lemma order_index_from n (rs : list string) (d : pydict string nat) k :
  let d' := foldl (λ d x, dict_set d x.2 x.1) d (zip (seq n (length rs)) rs) in
  (k ∉ rs → dict_get d' k = dict_get d k) ∧
  (NoDup rs → ∀ i, rs !! i = Some k → dict_get d' k = Some (n + i)%nat).
Proof.
  revert n d. induction rs as [|r rs IH]; intros n d; simpl; [done|].
  destruct (IH (S n) (dict_set d r n)) as [Hnot Hin]. split.
  - intros Hk. rewrite Hnot by set_solver. apply dict_get_set_ne. set_solver.
  - intros [Hr Hnd]%NoDup_cons [|i] Hi; simpl in Hi.
    + simplify_eq. rewrite Hnot by done. by rewrite dict_get_set_eq, Nat.add_0_r.
    + rewrite (Hin Hnd i Hi). f_equal. lia.
Qed.

Lemma order_index_get rs k i : NoDup rs → rs !! i = Some k → dict_get (order_index rs) k = Some i.
Proof. intros Hnd Hi. by apply (order_index_from 0 rs [] k). Qed.

Lemma store_items propagate rs vals its acc :
  NoDup rs → length acc = length rs →
  (∀ x, x ∈ its → x.1 ∈ rs ∧ item_value propagate x.2 = Ok (vals x.1)) →
  ∃ acc', foldM (store_item propagate (order_index rs)) acc its = Ok acc' ∧ length acc' = length rs ∧
    ∀ i r, rs !! i = Some r → acc' !! i = if decide (r ∈ its.*1) then Some (Some (vals r)) else acc !! i.
Proof.
  intros Hnd. revert acc. induction its as [|[k it] its IH]; intros acc Hl Hits; simpl.
  { exists acc. split_and!; [done|done|]. intros i r _. done. }
  destruct (Hits (k, it)) as [[j Hj]%list_elem_of_lookup Hv]; [set_solver|]. simpl in *.
  unfold store_item at 1. simpl. rewrite Hv. simpl. rewrite (order_index_get rs k j Hnd Hj). simpl.
  destruct (IH (<[j := Some (vals k)]> acc)) as (acc' & -> & Hl' & Hacc).
  { by rewrite length_insert. } { intros x Hx. apply Hits. set_solver. }
  exists acc'. split_and!; [done|done|]. intros i r Hi. rewrite (Hacc i r Hi).
  destruct (decide (r ∈ its.*1)) as [Hr|Hr].
  { by rewrite decide_True by set_solver. }
  destruct (decide (r = k)) as [->|Hne].
  - assert (i = j) as -> by (by eapply NoDup_lookup). rewrite decide_True by set_solver.
    rewrite list_lookup_insert_eq; [done|]. rewrite Hl. by eapply lookup_lt_Some.
  - rewrite decide_False by set_solver. rewrite list_lookup_insert_ne; [done|]. intros ->. congruence.
Qed.

Lemma join_loop_values get start timeout now acc rs (vals : string → V) :
  (∀ r t n, (get r t n).1 = Ok (vals r)) →
  (join_loop get start timeout None now acc rs).1 = Ok (acc ++ map vals rs).
Proof.
  intros Hg. revert now acc. induction rs as [|r rs IH]; intros now acc; simpl; [by rewrite app_nil_r|].
  pose proof (Hg r (remaining_time start timeout now) now) as H. destruct (get _ _ _) as [o now']. simpl in H. subst o.
  rewrite IH, <-app_assoc. done.
Qed.

(** C32: the two ways to wait for all results of a set of distinct results agree:
    when getting each result gives a value (no timeout, no error), and the backend
    yields each result once with that value, [join_native] puts the values that arrive
    in any order at the places of their results, and returns what [join] returns that
    takes the results in order.  A set that holds the same result twice is left out:
    [join_native] fills only one of its places ([repeated_result_lost]). *)
Theorem join_native_agrees propagate rs items (vals : string → V) get timeout start :
  NoDup rs → items.*1 ≡ₚ rs → (∀ x, x ∈ items → item_value propagate x.2 = Ok (vals x.1)) →
  (∀ r t n, (get r t n).1 = Ok (vals r)) →
  ∃ vs, (join get false timeout None false start rs).1 = Ok vs ∧ join_native false propagate rs items (Ok ()) = Ok (Some <$> vs) ∧
    vs = map vals rs.
Proof.
  intros Hnd Hperm Hits Hget. exists (map vals rs). split_and!; [|..|done].
  { unfold join. by rewrite (join_loop_values _ _ _ _ _ _ vals). }
  unfold join_native. destruct (store_items propagate rs vals items (replicate (length rs) None)) as (acc & -> & Hl & Hacc).
  - done.
  - by rewrite length_replicate.
  - intros x Hx. split; [|by apply Hits]. rewrite <-Hperm. by apply list_elem_of_fmap_2.
  - simpl. f_equal. apply list_eq. intros i. rewrite list_lookup_fmap. fold (vals <$> rs). rewrite list_lookup_fmap.
    destruct (rs !! i) as [r|] eqn:Hi; simpl.
    + rewrite (Hacc i r Hi). rewrite decide_True; [done|]. rewrite Hperm. by eapply list_elem_of_lookup_2.
    + apply lookup_ge_None in Hi. apply lookup_ge_None. lia.
Qed.

(** Waiting for all results of a set takes no longer than the timeout: each
    result is waited for in what is left of it, and in no time at all when nothing
    is left. *)
Theorem join_within_timeout get T callback start rs :
  (∀ r t now, (now <= (get r t now).2)%Z ∧ ∀ d, t = Some d → (0 <= d)%Z → ((get r t now).2 <= now + d)%Z) →
  (start <= (join get false (Some T) callback false start rs).2 <= start + Z.max T 0)%Z.
Proof.
  intros Hg. unfold join.
  assert (∀ acc now, (start <= now <= start + Z.max T 0)%Z →
    (start <= (join_loop get start (Some T) callback now acc rs).2 <= start + Z.max T 0)%Z) as H; [|apply H; lia].
  induction rs as [|r rs IH]; intros acc now Hn; simpl; [done|].
  pose proof (Hg r (remaining_time start (Some T) now) now) as [H1 H2].
  destruct (get r _ now) as [o now']. simpl in *. specialize (H2 _ eq_refl ltac:(lia)).
  assert (start <= now' <= start + Z.max T 0)%Z by lia.
  destruct o as [v| |]; [|done|done]. destruct callback as [f|]; [|by apply IH]. destruct (f r v); [by apply IH|done|done].
Qed.

(** A result that is twice in a set has one place of its own only. *)
Lemma repeated_result_lost propagate r v e :
  join_native false propagate [r; r] [(r, IMeta SUCCESS v e)] (Ok ()) = Ok [None; Some v].
Proof.
  unfold join_native, order_index. cbn -[dict_get dict_set]. unfold store_item. cbn -[dict_get dict_set].
  rewrite andb_false_r. cbn -[dict_get dict_set]. by rewrite dict_get_set_eq.
Qed.

End Join.

(** ** One result

    A result object keeps what it read once the task is done.  [fetch n id] is what
    the backend has for a task when it is read for the n-th time. *)
Section Read.
Local Open Scope eff_scope.
Context {V : Type}.

Record rmeta := Meta { status : string; rvalue : V; error : exn }.
Record robj := Obj { o_id : string; o_ignored : bool; o_parents : list (list nat) }.
  (* [o_parents]: the parent, its parent and so on; a group stands for its results *)

Record rstate := RState { cache : gmap nat rmeta; reads : nat }.

Variable objs : nat → robj.
Variable fetch : nat → string → outcome rmeta.
(** waiting for the result in the backend, and whether waiting is allowed here *)
Variable wait_for_pending : nat → rstate → rstate * outcome V.
Variable will_block : bool.

Definition is_ready (m : rmeta) : bool := bool_decide (status m ∈ READY_STATES).

(** [_get_task_meta] with [_maybe_set_cache] *)
Definition get_task_meta (o : nat) : eff rstate rmeta := λ s,
  match cache s !! o with
  | Some m => (s, Ok m)
  | None =>
      let s := RState (cache s) (S (reads s)) in
      match fetch (reads s) (o_id (objs o)) with
      | Ok m => (if is_ready m then RState (<[o := m]> (cache s)) (reads s) else s, Ok m)
      | Raise e => (s, Raise e)
      | Diverge => (s, Diverge)
      end
  end.

Definition maybe_throw (propagate : bool) (o : nat) : eff rstate V :=
  do! m := get_task_meta o in
  if bool_decide (status m ∈ PROPAGATE_STATES) && propagate then eraise (error m) else eret (rvalue m).

Definition maybe_reraise_parent_error (o : nat) : eff rstate () :=
  eiter (λ node, eiter (λ p, do! _ := maybe_throw true p in eret ()) node) (rev (o_parents (objs o))).

Definition state (o : nat) : eff rstate string := do! m := get_task_meta o in eret (status m).
Definition get_value (o : nat) : eff rstate V := do! m := get_task_meta o in eret (rvalue m).

(** [AsyncResult.get]; [None] for a task whose result is ignored *)
Definition get (propagate follow_parents disable_sync_subtasks : bool) (o : nat) : eff rstate (option V) := λ s,
  if o_ignored (objs o) then (s, Ok None)
  else
    (run! ewhen (disable_sync_subtasks && will_block) (eraise RuntimeError) in
     run! ewhen (follow_parents && propagate && negb (length (o_parents (objs o)) =? 0)%nat) (maybe_reraise_parent_error o) in
     λ s, match cache s !! o with
          | Some m =>
              (run! ewhen propagate (do! _ := maybe_throw true o in eret ()) in
               do! v := get_value o in eret (Some v)) s
          | None => (do! v := wait_for_pending o in eret (Some v)) s
          end) s.

(** what is cached stays *)
Definition cached (o : nat) (m : rmeta) (s : rstate) : Prop := cache s !! o = Some m.

Lemma get_task_meta_cached o o' m s : cached o m s → cached o m (get_task_meta o' s).1.
Proof.
  unfold cached, get_task_meta. intros H. destruct (cache s !! o') eqn:E; [done|].
  destruct (fetch _ _) as [m'| |]; [|done|done]. simpl. destruct (is_ready m'); [|done].
  simpl. rewrite lookup_insert_ne; [done|]. congruence.
Qed.

Lemma maybe_throw_cached o m b o' s : cached o m s → cached o m (maybe_throw b o' s).1.
Proof.
  intros H. unfold maybe_throw, ebind. pose proof (get_task_meta_cached o o' m s H) as H'.
  destruct (get_task_meta o' s) as [s' [m'| |]]; simpl in *; [|done|done]. by destruct (_ && b).
Qed.

(** Reading one result after the other: the operations of result objects that read *)
Inductive rop :=
| RMeta (o : nat)
| RThrow (propagate : bool) (o : nat)
| RParents (o : nat).
Definition run_rop (s : rstate) (p : rop) : rstate :=
  match p with
  | RMeta o => (get_task_meta o s).1
  | RThrow b o => (maybe_throw b o s).1
  | RParents o => (maybe_reraise_parent_error o s).1
  end.

Lemma eiter_cached {A} (f : A → eff rstate ()) l o m s :
  (∀ a s, cached o m s → cached o m (f a s).1) → cached o m s → cached o m (eiter f l s).1.
Proof.
  intros Hf. revert s. induction l as [|a l IH]; intros s Hs; simpl; [done|]. unfold ebind.
  pose proof (Hf a s Hs) as Ha. destruct (f a s) as [s' [[]| |]]; simpl in *; [by apply IH|done|done].
Qed.

Lemma run_rop_cached o m s p : cached o m s → cached o m (run_rop s p).
Proof.
  intros H. destruct p as [o'|b o'|o']; simpl; [by apply get_task_meta_cached|by apply maybe_throw_cached|].
  apply eiter_cached; [|done]. intros node s' Hs'. apply eiter_cached; [|done]. intros p s'' Hs''.
  unfold ebind. pose proof (maybe_throw_cached o m true p s'' Hs'') as Hp.
  by destruct (maybe_throw true p s'') as [s3 [| |]].
Qed.

(** A result object never changes its mind: once it has read that a task is done,
    every later read gives the same state and value, whatever the backend has since. *)
Theorem ready_is_final o m ops s s' :
  get_task_meta o s = (s', Ok m) → is_ready m = true →
  (∀ o' m', cache s !! o' = Some m' → is_ready m' = true) →
  (get_task_meta o (foldl run_rop s' ops)).2 = Ok m.
Proof.
  intros Hget Hr Hc. assert (cached o m s') as H.
  { unfold get_task_meta in Hget. unfold cached. destruct (cache s !! o) eqn:E; [by simplify_eq|].
    destruct (fetch _ _) as [m'| |]; simplify_eq/=. rewrite Hr. simpl. by rewrite lookup_insert_eq. }
  assert (cached o m (foldl run_rop s' ops)) as H'.
  { clear Hget. revert s' H. induction ops as [|p ops IH]; intros s' H; simpl; [done|]. by apply IH, run_rop_cached. }
  unfold get_task_meta. unfold cached in H'. by rewrite H'.
Qed.

(** ** Errors of parents *)
Section Parents.
(** the backend does not change while the parents are read *)
Variable meta_of : string → rmeta.
Hypothesis fetch_meta : ∀ n id, fetch n id = Ok (meta_of id).
Definition consistent (s : rstate) : Prop := ∀ o m, cache s !! o = Some m → m = meta_of (o_id (objs o)).

Definition fails (o : nat) : bool := bool_decide (status (meta_of (o_id (objs o))) ∈ PROPAGATE_STATES).

Lemma maybe_throw_spec o s : consistent s → ∃ s', consistent s' ∧
  maybe_throw true o s = (s', if fails o then Raise (error (meta_of (o_id (objs o)))) else Ok (rvalue (meta_of (o_id (objs o))))).
Proof.
  intros Hs. unfold maybe_throw, ebind, get_task_meta, fails. destruct (cache s !! o) as [m|] eqn:E.
  - rewrite (Hs _ _ E). exists s. split; [done|]. rewrite andb_true_r. by destruct (bool_decide _).
  - rewrite fetch_meta. set (m := meta_of _). eexists (if is_ready m then _ else _). split; cycle 1.
    { rewrite andb_true_r. by destruct (bool_decide _). }
    destruct (is_ready m); [|done]. intros o' m' Hm. simpl in Hm. destruct (decide (o = o')) as [->|].
    + rewrite lookup_insert_eq in Hm. by simplify_eq.
    + rewrite lookup_insert_ne in Hm by done. by apply Hs.
Qed.

(** the first of a list of results that failed *)
Definition first_failed (l : list nat) : option nat := head (filter (λ o, fails o = true) l).

Lemma eiter_throw l s : consistent s → ∃ s', consistent s' ∧
  eiter (λ p, do! _ := maybe_throw true p in eret ()) l s =
  (s', match first_failed l with Some p => Raise (error (meta_of (o_id (objs p)))) | None => Ok () end).
Proof.
  revert s. induction l as [|o l IH]; intros s Hs; [by exists s|]. cbn [eiter]. unfold ebind at 1 2.
  destruct (maybe_throw_spec o s Hs) as (s1 & Hs1 & ->). unfold first_failed. rewrite filter_cons.
  destruct (fails o); simpl; [by exists s1|]. by apply IH.
Qed.

Lemma eiter_nodes nodes s : consistent s → ∃ s', consistent s' ∧
  eiter (λ node, eiter (λ p, do! _ := maybe_throw true p in eret ()) node) nodes s =
  (s', match first_failed (concat nodes) with Some p => Raise (error (meta_of (o_id (objs p)))) | None => Ok () end).
Proof.
  revert s. induction nodes as [|l nodes IH]; intros s Hs; [by exists s|]. cbn [eiter concat]. unfold ebind at 1.
  destruct (eiter_throw l s Hs) as (s1 & Hs1 & ->). unfold first_failed. rewrite filter_app.
  destruct (filter _ l) as [|p l'] eqn:E; simpl; [|by exists s1]. by apply IH.
Qed.

(** Getting a result raises the error of the first task of its chain that failed,
    from the root of the chain on, without waiting; otherwise it raises or returns
    what is known of the task itself, and only waits when nothing is. *)
Theorem get_outcome dis o s :
  consistent s → o_ignored (objs o) = false → dis && will_block = false →
  ∃ s1, consistent s1 ∧
    get true true dis o s =
    match first_failed (concat (rev (o_parents (objs o)))) with
    | Some p => (s1, Raise (error (meta_of (o_id (objs p)))))
    | None =>
        match cache s1 !! o with
        | Some _ => (s1, if fails o then Raise (error (meta_of (o_id (objs o)))) else Ok (Some (rvalue (meta_of (o_id (objs o))))))
        | None => let '(s2, r) := wait_for_pending o s1 in (s2, let! v := r in Ok (Some v))
        end
    end.
Proof.
  intros Hs Hi Hb. unfold get. rewrite Hi, Hb. cbn [ewhen andb]. unfold ebind at 1. cbn [eret].
  assert (∃ s1, consistent s1 ∧
    ewhen (negb (length (o_parents (objs o)) =? 0)%nat) (maybe_reraise_parent_error o) s =
    (s1, match first_failed (concat (rev (o_parents (objs o)))) with Some p => Raise (error (meta_of (o_id (objs p)))) | None => Ok () end))
    as (s1 & Hs1 & Hp).
  { destruct (o_parents (objs o)) as [|n l] eqn:E; [by exists s|].
    cbn [length Nat.eqb negb ewhen]. unfold maybe_reraise_parent_error. rewrite E. by apply eiter_nodes. }
  unfold ebind at 1. rewrite Hp. destruct (first_failed _) as [p|]; [by exists s1|].
  destruct (cache s1 !! o) as [m|] eqn:Ec.
  - exists s1. split; [done|]. rewrite Ec. pose proof (Hs1 _ _ Ec) as ->.
    unfold maybe_throw, get_value, ebind, get_task_meta, fails, ewhen. rewrite Ec, andb_true_r.
    destruct (bool_decide _); [done|]. simpl. by rewrite Ec.
  - exists s1. split; [done|]. rewrite Ec. unfold ebind. by destruct (wait_for_pending o s1) as [s2 [| |]].
Qed.
End Parents.

End Read.

(** [EagerResult.get]: the result of a task executed locally.  [is_exc]: the value is
    an exception (then [error] is it), otherwise a plain [Exception] is raised. *)
Definition eager_get {V} (propagate will_block : bool) (st : string) (v : V) (is_exc : bool) (err : exn) : outcome (option V) :=
  if will_block then Raise RuntimeError
  else if bool_decide (st = SUCCESS) then Ok (Some v)
  else if bool_decide (st ∈ PROPAGATE_STATES) then
    if propagate then Raise (if is_exc then err else OtherExc) else Ok (Some v)
  else Ok None.

(** ** Examples *)

Module Examples.
Local Open Scope Z_scope.

Definition t : tree := Node "a" [Node "b" [Node "d" []]; Node "c" []].

Lemma iterdeps_yields_witness :
  let '(l, r) := iterdeps (λ id, bool_decide (id ≠ "c"%string)) 4 false [(None, t)] in
  parents_first [] l ∧ r = Raise IncompleteStream.
Proof. exact (iterdeps_yields (λ id, bool_decide (id ≠ "c"%string)) 4 t ltac:(vm_compute; lia)). Defined.

Lemma build_graph_nodes_witness :
  ∃ g, build_graph (λ _, true) 4 false t = Ok g ∧ ∀ k, k ∈ dict_keys g ↔ k ∈ (edges None t).*2.
Proof. apply build_graph_nodes; [vm_compute; lia|done]. Defined.

Definition vals (r : string) : Z := if decide (r = "a"%string) then 1 else 2.
Definition get1 (r : string) (t : option Z) (now : Z) : outcome Z * Z := (Ok (vals r), match t with Some d => now + Z.min (Z.max d 0) 3 | None => now + 3 end).

Lemma join_native_agrees_witness :
  ∃ vs, (join get1 false (Some 5) None false 0 ["a"; "b"]%string).1 = Ok vs ∧
    join_native (λ l, 0) false true ["a"; "b"]%string [("b", IMeta SUCCESS 2 OtherExc); ("a", IMeta SUCCESS 1 OtherExc)]%string (Ok ()) = Ok (Some <$> vs) ∧
    vs = map vals ["a"; "b"]%string.
Proof.
  apply join_native_agrees.
  - apply (bool_decide_unpack _). by vm_compute.
  - simpl. apply Permutation_swap.
  - intros x Hx. repeat (apply elem_of_cons in Hx as [->|Hx]; [done|]). by apply elem_of_nil in Hx.
  - done.
Defined.

Lemma join_within_timeout_witness : 0 <= (join get1 false (Some 5) None false 0 ["a"; "b"]%string).2 <= 0 + Z.max 5 0.
Proof.
  apply join_within_timeout. intros r [d|] now; simpl; split; try lia.
  - intros d' [= <-]. lia.
  - done.
Defined.

(** A chain of three tasks: the middle one failed *)
Definition objs (o : nat) : robj :=
  match o with
  | 0%nat => Obj "c" false [[1]; [2]]%nat
  | 1%nat => Obj "b" false [[2]]%nat
  | _ => Obj "a" false []
  end.
Definition meta_of (id : string) : rmeta (V := Z) :=
  if decide (id = "b"%string) then Meta FAILURE 0 ValueError
  else if decide (id = "c"%string) then Meta PENDING 0 OtherExc else Meta SUCCESS 7 OtherExc.
Definition wait (o : nat) (s : rstate (V := Z)) : rstate * outcome Z := (s, Raise TimeoutError).

Lemma get_outcome_witness :
  ∃ s1, consistent objs meta_of s1 ∧ get objs (λ _ id, Ok (meta_of id)) wait false true true true 0 (RState ∅ 0) = (s1, Raise ValueError).
Proof.
  destruct (get_outcome objs (λ _ id, Ok (meta_of id)) wait false meta_of (λ _ _, eq_refl) true 0 (RState ∅ 0)) as (s1 & H1 & H2).
  - intros o m. simpl. by rewrite lookup_empty.
  - done.
  - done.
  - exists s1. split; [done|]. rewrite H2. done.
Defined.

Lemma ready_is_final_witness :
  (get_task_meta objs (λ n id, if decide (n = 1%nat) then Ok (meta_of id) else Raise KeyError) 2
     (foldl (run_rop objs (λ n id, if decide (n = 1%nat) then Ok (meta_of id) else Raise KeyError))
        (RState {[2%nat := Meta SUCCESS 7 OtherExc]} 1) [RMeta 0; RThrow true 2; RParents 0])).2 = Ok (Meta SUCCESS 7 OtherExc).
Proof. by apply (ready_is_final objs _ 2 (Meta SUCCESS 7 OtherExc) _ (RState ∅ 0)). Defined.
End Examples.

End Results.
