(* ===== verification/StoredResults.v ===== *)
(** What is read back of a stored result: the backend of Backend.v with the
    conversions of celery/backends/base.py as they are, [prepare_value],
    [prepare_exception], [exception_to_python], [encode] and [decode], instead of an
    interface.

    Only kombu is a parameter: its compression methods and its serializer, of
    which it is assumed that what was serialized can be loaded.  [wire_value] and
    [wire_ext] say what becomes of values on the way (JSON turns tuples into lists);
    nothing is assumed of them. *)

From S2P Require Import Prelude PyDict Effect PyStr States Exceptions Payload Backend Results.
From stdpp Require Import countable.
Import States Exceptions Backend.
Local Open Scope Z_scope.

Module StoredResults.

Section Codec.
Context {V K X : Type} `{EqDecision K}.
(** As in Exceptions.v: values, classes of exceptions and the modules of the process *)
Context (safe_repr : V → V) (mro : K → list K) (cls_module cls_name cls_qualname : K → string).
Context (construct : K → list V → option (list V)) (Exception_ : K) (unwanted_base_classes : list K).
Context (repr_exc : @pyexc V K → V) (pickles : @pyexc V K → bool) (vpickles encodes : V → bool).
Context (none empty_text : V) (call_text : @callee K → @message V → V) (modules : list (string * @pyobj K)).

(** Results of tasks: a value, a result object, an exception; or something that was
    stored for one of them, a tuple (or the lists a serializer makes of it) for a
    result object, a dictionary for an exception *)
Inductive pyres :=
| PVal (v : V)
| PRes (r : Results.result)
| PExc (c : @pycls K) (args : list V)
| PTuple (t : Results.tup)
| PRaw (x : @Exceptions.stored V K).

(** What is given to the serializer as the result *)
Inductive stored_res := EVal (r : pyres) | EExc (x : @Exceptions.stored V K).

(** [self.serializer] is ["pickle"] *)
Context (pickle : bool).

Definition prepare_value (r : pyres) : stored_res :=
  match r with
  | PRes x => if pickle then EVal r else EVal (PTuple (Results.as_tuple x))
  | _ => EVal r
  end.

Definition prepare_exc (r : pyres) : stored_res :=
  match r with
  | PExc c args =>
      EExc (Exceptions.prepare_exception safe_repr mro cls_module cls_name cls_qualname construct Exception_ unwanted_base_classes
              repr_exc pickles vpickles encodes pickle c args)
  | _ => EVal r
  end.

(** How [exception_to_python] sees a value that is not an exception: as nothing if
    it counts as false, or as what [dict(v)] makes of it *)
Context (as_exception : V → @Exceptions.stored V K).

Definition exception_view (e : stored_res) : @Exceptions.stored V K :=
  match e with
  | EExc x | EVal (PRaw x) => x
  | EVal (PVal v) => as_exception v
  | EVal (PExc c args) => SExn (Inst c args)
  | EVal (PRes _) | EVal (PTuple _) => SOther (Raise TypeError)
  end.

Definition exc_to_python (e : stored_res) : outcome pyres :=
  let! x := (Exceptions.exception_to_python construct Exception_ empty_text call_text modules pickle (exception_view e) []).2 in
  Ok match x with
     | RNone | ROther _ => PVal none
     | RExc (Inst c args) => PExc c args
     | RExc w => PRaw (SExn w)
     end.

Definition value_of_stored (e : stored_res) : pyres := match e with EVal r => r | EExc x => PRaw x end.

(** kombu: compression methods, and the serializer *)
Context (get_encoder : string → outcome ((chars → chars) * chars)) (get_decoder : chars → outcome (chars → chars)).
Context (dumps : meta X stored_res → outcome Payload.payload) (loads : Payload.payload → outcome (meta X stored_res)).
Context (compression : option string).

Definition decode_payload (p : Payload.payload) : outcome (meta X stored_res) :=
  let! d := Payload.decode get_decoder loads (Some p) in of_option TypeError d.

#[local] Instance result_codec : Codec X pyres stored_res Payload.payload := {|
  is_exception r := match r with PExc _ _ => true | _ => false end;
  none_result := PVal none;
  Backend.prepare_exception := prepare_exc;
  Backend.prepare_value := prepare_value;
  Backend.exception_to_python := exc_to_python;
  value_of := value_of_stored;
  Backend.encode := Payload.encode get_encoder dumps compression;
  Backend.decode := decode_payload;
|}.

(** ** The serializer *)

Context (wire_value : V → V) (wire_ext : X → X).

Definition wire_message (m : @message V) : @message V :=
  match m with MArgs args => MArgs (wire_value <$> args) | MOne v => MOne (wire_value v) end.

Definition wire_result (e : stored_res) : stored_res :=
  match e with
  | EVal (PVal v) => EVal (PVal (wire_value v))
  | EExc (SDict d) => EExc (SDict (ExcDict (d_module d) (d_type d) (wire_message <$> d_message d)))
  | _ => e
  end.

(** The metadata of a result after the serializer *)
Definition wire (m : meta X stored_res) : meta X stored_res :=
  Meta _ _ (m_status m) (wire_result (m_result m)) (m_traceback m) (m_children m) (m_date_done m) (m_group_id m) (m_parent_id m)
    (wire_ext <$> m_extended m) (m_task_id m).

(** Documented behaviour of kombu *)
Context (Hcodec : ∀ c enc ct, get_encoder c = Ok (enc, ct) → ∃ dec, get_decoder ct = Ok dec ∧ ∀ b, dec (enc b) = b).
Context (Hct : ∀ c enc ct, get_encoder c = Ok (enc, ct) → Payload.NUL ∉ ct).
Context (Hdumps : ∀ d p, dumps d = Ok p →
  Payload.ensure_bytes p ≠ [] ∧ head (Payload.ensure_bytes p) ≠ Some Payload.NUL ∧
  loads p = Ok (wire d) ∧ loads (Payload.PBytes (Payload.ensure_bytes p)) = Ok (wire d)).

(** ** What comes back *)

(** The arguments of an exception as they come back when it was stored as a
    dictionary: those that cannot be serialized as their text *)
Definition stored_args (args : list V) : list V := (λ v, wire_value (if encodes v then v else safe_repr v)) <$> args.

(** [reads_back st r r']: what a reader gets for the result [r] that was stored
    with the state [st] *)
Inductive reads_back (st : string) : pyres → pyres → Prop :=
| rb_value v : st ∉ EXCEPTION_STATES → reads_back st (PVal v) (PVal (wire_value v))
| rb_result x : st ∉ EXCEPTION_STATES → reads_back st (PRes x) (if pickle then PRes x else PTuple (Results.as_tuple x))
| rb_pickled c args :
    st ∈ EXCEPTION_STATES → pickle = true → pickles (Inst c args) = true → reads_back st (PExc c args) (PExc c args)
| rb_found c args args' :
    st ∈ EXCEPTION_STATES → pickle = false → importable cls_module cls_qualname modules c →
    construct c (stored_args args) = Some args' → reads_back st (PExc (Real c) args) (PExc (Real c) args')
| rb_unusable c args :
    st ∈ EXCEPTION_STATES → pickle = false → importable cls_module cls_qualname modules c →
    construct c (stored_args args) = None →
    reads_back st (PExc (Real c) args) (PExc (Real Exception_) [call_text (CExc (Real c)) (MArgs (stored_args args))])
| rb_unknown c args :
    st ∈ EXCEPTION_STATES → pickle = false → dict_get modules (cls_module c) = None →
    reads_back st (PExc (Real c) args) (PExc (Created (cls_qualname c) "celery.exceptions") (stored_args args)).

Lemma stored_args_eq args : wire_value <$> ensure_serializable safe_repr encodes args = stored_args args.
Proof. unfold ensure_serializable, stored_args. by rewrite <-list_fmap_compose. Qed.

(** What the conversions of the result make of it, one after the other *)
Lemma converted st r r' :
  reads_back st r r' →
  let e := wire_result (encode_result r st) in
  (if is_exception_state st then exc_to_python e else Ok (value_of_stored e)) = Ok r'.
Proof.
  unfold encode_result, is_exception_state.
  destruct 1 as [v Hs|x Hs|c args Hs Hp Hk|c args args' Hs Hp Hi Hc|c args Hs Hp Hi Hc|c args Hs Hp Hm]; simpl.
  all: first [rewrite bool_decide_eq_true_2 by done|rewrite bool_decide_eq_false_2 by done]; simpl.
  - done.
  - by destruct pickle.
  - unfold exc_to_python. simpl. rewrite Hp. simpl. unfold get_pickleable_exception. by rewrite Hk.
  - unfold exc_to_python. rewrite Hp. simpl. rewrite stored_args_eq. unfold exception_from_dict. cbn -[find_class].
    rewrite (find_importable _ _ _ c Hi). simpl. unfold make_exception, ecatch, call_object, ebind, emodify. simpl. by rewrite Hc.
  - unfold exc_to_python. rewrite Hp. simpl. rewrite stored_args_eq. unfold exception_from_dict. cbn -[find_class].
    rewrite (find_importable _ _ _ c Hi). simpl. unfold make_exception, ecatch, call_object, ebind, emodify. simpl. by rewrite Hc.
  - unfold exc_to_python. rewrite Hp. simpl. rewrite stored_args_eq. unfold exception_from_dict, find_class. simpl. by rewrite Hm.
Qed.

Lemma decode_encoded supports conf m v :
  Payload.prepare_compression get_encoder supports conf = Ok compression →
  Payload.encode get_encoder dumps compression m = Ok v → decode_payload v = Ok (wire m).
Proof.
  intros Hc Hv. destruct (dumps m) as [p|x|] eqn:Ed; [|unfold Payload.encode in Hv; by rewrite Ed in Hv..].
  destruct (Payload.decode_encode get_encoder get_decoder dumps loads wire Hcodec Hct Hdumps supports conf compression m p Hc Ed)
    as (q & Hq & Hl & _). rewrite Hv in Hq. injection Hq as ->. unfold decode_payload. by rewrite Hl.
Qed.

(** ** Storing and reading *)

Section Store.
Context {T : Type} `{!Cache (X := X) (R := pyres) T}.
Context (rnd : Z → Z) (always_retry : bool) (safe_to_retry : exn → bool) (max_retries : option nat) (base_sleep max_sleep : Z).
Context (global_keyprefix : string) (result_extended : bool) (current_request : option (request X)) (now : list op → Z).
Context (fault : list op → op → option (exn * bool)).

Definition store := store_result (T := T) rnd always_retry safe_to_retry max_retries base_sleep max_sleep global_keyprefix result_extended
  current_request now fault.
Definition fetch := get_task_meta (T := T) rnd always_retry safe_to_retry max_retries base_sleep max_sleep global_keyprefix fault.

(** The metadata that is read for a task whose result is read as [r] *)
Definition read_meta (id : string) (r : pyres) (st : string) (tb : option string) (req : option (request X)) (t : Z) : meta X pyres :=
  Meta _ _ st r tb (rq_children <$> match req with Some q => Some q | None => current_request end)
    (if bool_decide (st ∈ READY_STATES) then Some t else None)
    (req ≫= rq_group) (req ≫= rq_parent_id) (if result_extended then wire_ext ∘ rq_extended <$> req else None) id.

(** C11: a result that was stored is read back.  After [store_result] returned, in
    any later state in which the store is the same, reading gives the state, the
    traceback, the children, the group, the parent and the result of the task, unless
    a success was stored before, which is then read.  The result ([reads_back]) is
    - for a value: the value, as it comes through the serializer;
    - for a result object: the object itself with the pickle serializer, else its
      tuple;
    - for an exception that can be pickled, with the pickle serializer: the exception;
    - for an exception with another serializer, whose class is found under its name:
      an instance of the class with its arguments, as they come through the
      serializer (arguments that cannot be serialized as their text), or an
      [Exception] with a text if the class does not take them;
    - if the module of the class is not loaded: an instance of a class of that name.
    The compression of the writer is one its backend accepted. *)
Theorem store_then_get supports conf fuel fuel' id r r' st tb req s s' sl :
  Payload.prepare_compression get_encoder supports conf = Ok compression → reads_back st r r' →
  store fuel id r st tb req s = (s', Ok ()) → kv sl = kv s' → (∀ o, fault (ops sl) o = None) →
  (∃ t, (fetch (S fuel') false id sl).2 = Ok (read_meta id r' st tb req t)) ∨
  (∃ m, (fetch (S fuel') false id sl).2 = Ok m ∧ Backend.stored global_keyprefix id s = Some (Ok m) ∧ m_status m = SUCCESS).
Proof.
  intros Hc Hr Hst Hkv Hf.
  destruct (store_then_read rnd always_retry safe_to_retry max_retries base_sleep max_sleep global_keyprefix result_extended
              current_request now fault fuel fuel' id r st tb req s s' sl Hst Hkv Hf) as [?|(t & v & Hv & Hm)]; [by right|left].
  exists t. apply Hm. unfold decode_result. simpl in Hv. cbn [Backend.decode result_codec].
  rewrite (decode_encoded _ _ _ _ Hc Hv). simpl. unfold meta_from_decoded. cbn [m_status m_result wire get_result_meta].
  pose proof (converted st r r' Hr) as He. cbv zeta in He. cbn [Backend.exception_to_python value_of result_codec]. rewrite He. simpl.
  unfold with_result, read_meta. simpl. by destruct result_extended, req.
Qed.
End Store.
End Codec.

(** ** Examples *)

Module Examples.
Import Exceptions.Examples.

(** A serializer of texts and of exceptions as dictionaries: the data as a string
    of binary digits *)
Abbreviation data := (meta () (@stored_res string nat)).
Definition fields : Type :=
  option () * option string * option string * option (list string) * option string * option Z * string * string *
  (string + string * string * list string).

Definition to_fields (d : data) : option fields :=
  let 'Meta _ _ st r tb ch dd g p x id := d in
  match r with
  | EVal (PVal v) => Some (x, p, g, ch, tb, dd, id, st, inl v)
  | EExc (SDict (ExcDict (Some m) (Some t) (Some (MArgs args)))) => Some (x, p, g, ch, tb, dd, id, st, inr (m, t, args))
  | _ => None
  end.
Definition of_fields (f : fields) : data :=
  let '(x, p, g, ch, tb, dd, id, st, r) := f in
  Meta _ _ st (match r with
               | inl v => EVal (PVal v)
               | inr (m, t, args) => EExc (SDict (ExcDict (Some m) (Some t) (Some (MArgs args))))
               end) tb ch dd g p x id.

Fixpoint bits (p : positive) : chars :=
  match p with xH => [] | xO p => "0"%char :: bits p | xI p => "1"%char :: bits p end.
Fixpoint of_bits (l : chars) : positive :=
  match l with [] => xH | c :: l => if bool_decide (c = "1"%char) then xI (of_bits l) else xO (of_bits l) end.

Lemma of_bits_bits p : of_bits (bits p) = p.
Proof. by induction p as [p IH|p IH|]; simpl; rewrite ?IH. Qed.

Definition ex_dumps (d : data) : outcome Payload.payload :=
  match to_fields d with Some f => Ok (Payload.PText ("b"%char :: bits (countable.encode f))) | None => Raise TypeError end.
Definition ex_loads (p : Payload.payload) : outcome data :=
  match countable.decode (A := fields) (of_bits (tail (Payload.ensure_bytes p))) with Some f => Ok (of_fields f) | None => Raise ValueError end.

Lemma ex_loads_dumps d p :
  ex_dumps d = Ok p →
  Payload.ensure_bytes p ≠ [] ∧ head (Payload.ensure_bytes p) ≠ Some Payload.NUL ∧
  ex_loads p = Ok (wire (λ v, v) (λ x, x) d) ∧ ex_loads (Payload.PBytes (Payload.ensure_bytes p)) = Ok (wire (λ v, v) (λ x, x) d).
Proof.
  unfold ex_dumps. destruct (to_fields d) as [f|] eqn:Ef; [|done]. intros [= <-].
  assert (of_fields f = wire (λ v, v) (λ x, x) d) as Hw.
  { destruct d as [st r tb ch dd g p x id]. simpl in Ef. unfold wire. simpl.
    destruct r as [[v| | | |]|[| |[[m|] [t|] [[args|]|]]|]]; simplify_eq/=; f_equal; rewrite ?list_fmap_id; by destruct x. }
  assert (∀ q, Payload.ensure_bytes q = "b"%char :: bits (countable.encode f) → ex_loads q = Ok (wire (λ v, v) (λ x, x) d)) as Hl.
  { intros q Hq. unfold ex_loads. rewrite Hq. simpl. by rewrite of_bits_bits, decode_encode, Hw. }
  split_and!; [done|done|by apply Hl..].
Qed.

Abbreviation bst := (@bstate Payload.payload (gmap string (meta () (@pyres string nat)))).
Definition start : bst := BState ∅ ∅ [].
Definition ok (_ : list op) (_ : op) : option (exn * bool) := None.

(** A backend that compresses what a serializer other than pickle gives it *)
Definition ex_store := store (λ v : string, v) ex_mro ex_module ex_name ex_name ex_construct 0%nat [0%nat] (λ _, "repr") ex_pickles (λ _, true) (λ _, true)
  "" "" (λ _ _, "call") ex_modules false (λ _, SNone) Payload.Examples.ex_encoder Payload.Examples.ex_decoder ex_dumps ex_loads (Some "rev")
  (T := gmap string (meta () (@pyres string nat))) (λ n, n - 1) true (λ _, true) (Some 3%nat) 10 1000 "" false None (λ _, 0) ok.
Definition ex_fetch := fetch (λ v : string, v) ex_mro ex_module ex_name ex_name ex_construct 0%nat [0%nat] (λ _, "repr") ex_pickles (λ _, true) (λ _, true)
  "" "" (λ _ _, "call") ex_modules false (λ _, SNone) Payload.Examples.ex_encoder Payload.Examples.ex_decoder ex_dumps ex_loads (Some "rev")
  (T := gmap string (meta () (@pyres string nat))) (λ n, n - 1) true (λ _, true) (Some 3%nat) 10 1000 "" ok.

Lemma stored_ok : (ex_store 0%nat "id" (PExc (Real 1%nat) ["x"]) FAILURE None None start).2 = Ok ().
Proof. vm_compute. reflexivity. Qed.

(** The failure of a task with an instance of [a.B] *)
Lemma store_then_get_witness :
  let s' := (ex_store 0%nat "id" (PExc (Real 1%nat) ["x"]) FAILURE None None start).1 in
  (∃ t, (ex_fetch 1%nat false "id" s').2 = Ok (read_meta (λ x, x) false None "id" (PExc (Real 1%nat) ["x"]) FAILURE None None t)) ∨
  (∃ m, (ex_fetch 1%nat false "id" s').2 = Ok m ∧
        Backend.stored (C := result_codec (λ v : string, v) ex_mro ex_module ex_name ex_name ex_construct 0%nat [0%nat] (λ _, "repr") ex_pickles
          (λ _, true) (λ _, true) "" "" (λ _ _, "call") ex_modules false (λ _, SNone) Payload.Examples.ex_encoder Payload.Examples.ex_decoder
          ex_dumps ex_loads (Some "rev")) "" "id" start = Some (Ok m) ∧ m_status m = SUCCESS).
Proof.
  eapply (store_then_get (λ v : string, v) ex_mro ex_module ex_name ex_name ex_construct 0%nat [0%nat] (λ _, "repr") ex_pickles (λ _, true)
    (λ _, true) "" "" (λ _ _, "call") ex_modules false (λ _, SNone) Payload.Examples.ex_encoder Payload.Examples.ex_decoder ex_dumps ex_loads
    (Some "rev") (λ v, v) (λ x, x)) with (supports := true) (conf := Some "rev") (fuel := 0%nat) (r := PExc (Real 1%nat) ["x"])
    (s' := (ex_store 0%nat "id" (PExc (Real 1%nat) ["x"]) FAILURE None None start).1).
  - intros c enc ct. unfold Payload.Examples.ex_encoder. case_bool_decide; [|done]. intros [= <- <-]. exists reverse.
    split; [reflexivity|apply reverse_involutive].
  - intros c enc ct. unfold Payload.Examples.ex_encoder. case_bool_decide; [|done]. intros [= <- <-]. by vm_compute; set_solver.
  - exact ex_loads_dumps.
  - reflexivity.
  - apply rb_found; [by vm_compute; set_solver|reflexivity|reflexivity|reflexivity].
  - apply injective_projections; [reflexivity|]. exact stored_ok.
  - reflexivity.
  - reflexivity.
Defined.

(** The value of that read *)
Lemma failure_read :
  (ex_fetch 1%nat false "id" (ex_store 0%nat "id" (PExc (Real 1%nat) ["x"]) FAILURE None None start).1).2 =
  Ok (Meta _ _ FAILURE (PExc (Real 1%nat) ["x"]) None None (Some 0) None None None "id").
Proof. vm_compute. reflexivity. Qed.
End Examples.
End StoredResults.
