(* ===== verification/Messages.v ===== *)
(** Task messages: building them (celery/app/amqp.py, [as_task_v1], [as_task_v2]),
    where they are published ([send_task_message]), and how a worker reads them
    (celery/worker/strategy.py, [proto1_to_proto2], [hybrid_to_proto2]; celery/worker/request.py,
    [Request.__init__]).

    Objects that are only passed on (arguments, signatures) have a type [A].
    Datetimes are of a type [D] with the operations of Python they are used by:
    [isoparse] reads what [isoformat] writes, and making a datetime aware of its time
    zone twice is the same as once. *)

From Stdlib Require Import Ascii.
From S2P Require Import Prelude.
From S2P Require Import PyDict.

Module Messages.

(** Values of headers *)
Inductive hval (A : Type) :=
| HNone
| HStr (s : string)
| HInt (z : Z)
| HBool (b : bool)
| HList (l : list (hval A))
| HDict (d : list (string * hval A))
| HObj (a : A).
Arguments HNone {_}.
Arguments HStr {_} _.
Arguments HInt {_} _.
Arguments HBool {_} _.
Arguments HList {_} _.
Arguments HDict {_} _.
Arguments HObj {_} _.

(** A date as it is given: as text, as a datetime, or as a number of seconds *)
Inductive when_ (D : Type) :=
| WNone
| WStr (s : string)
| WDate (d : D)
| WNum (z : Z).
Arguments WNone {_}.
Arguments WStr {_} _.
Arguments WDate {_} _.
Arguments WNum {_} _.

(** What [isinstance] and [or] tell of objects, and datetimes *)
Record world (A D : Type) := World {
  is_seq : A → bool; is_map : A → bool; truthy_obj : A → bool; empty_args : A; empty_kwargs : A; saferepr : A → string;
  isoformat : D → string; isoparse : string → outcome D; add_seconds : D → Z → outcome D; make_aware : D → D;
  anon_nodename : string }.
Arguments is_seq {_ _} _ _.
Arguments is_map {_ _} _ _.
Arguments truthy_obj {_ _} _ _.
Arguments empty_args {_ _} _.
Arguments empty_kwargs {_ _} _.
Arguments saferepr {_ _} _ _.
Arguments isoformat {_ _} _ _.
Arguments isoparse {_ _} _ _.
Arguments add_seconds {_ _} _ _ _.
Arguments make_aware {_ _} _ _.
Arguments anon_nodename {_ _} _.

Class WorldLaws {A D} (W : world A D) := {
  isoparse_isoformat d : isoparse W (isoformat W d) = Ok d;
  isoformat_nonempty d : isoformat W d ≠ ""%string;
  make_aware_idemp d : make_aware W (make_aware W d) = make_aware W d }.

(** The arguments of [as_task_v1] and [as_task_v2] *)
Record call (A D : Type) := Call {
  task_id : string; name : string; args : option A; kwargs : option A;
  countdown : option Z; eta : when_ D; expires : when_ D;
  group_id : option string; group_index : option Z; retries : Z;
  chord : option A; callbacks : option A; errbacks : option A; chain : option A;
  reply_to : option string; time_limit : option Z; soft_time_limit : option Z;
  create_sent_event : bool; root_id : option string; parent_id : option string; shadow : option string;
  origin : option string; ignore_result : bool; argsrepr : option string; kwargsrepr : option string;
  stamped_headers : option (list string); replaced_task_nesting : Z; extra : pydict string (hval A) }.
Arguments task_id {_ _} _.
Arguments name {_ _} _.
Arguments args {_ _} _.
Arguments kwargs {_ _} _.
Arguments countdown {_ _} _.
Arguments eta {_ _} _.
Arguments expires {_ _} _.
Arguments group_id {_ _} _.
Arguments group_index {_ _} _.
Arguments retries {_ _} _.
Arguments chord {_ _} _.
Arguments callbacks {_ _} _.
Arguments errbacks {_ _} _.
Arguments chain {_ _} _.
Arguments reply_to {_ _} _.
Arguments time_limit {_ _} _.
Arguments soft_time_limit {_ _} _.
Arguments create_sent_event {_ _} _.
Arguments root_id {_ _} _.
Arguments parent_id {_ _} _.
Arguments shadow {_ _} _.
Arguments origin {_ _} _.
Arguments ignore_result {_ _} _.
Arguments argsrepr {_ _} _.
Arguments kwargsrepr {_ _} _.
Arguments stamped_headers {_ _} _.
Arguments replaced_task_nesting {_ _} _.
Arguments extra {_ _} _.

(** The body of a message: a tuple (protocol 2) or a dictionary (protocol 1) *)
Inductive body (A : Type) :=
| Body2 (args kwargs : hval A) (embed : pydict string (hval A))
| Body1 (d : pydict string (hval A)).
Arguments Body2 {_} _ _ _.
Arguments Body1 {_} _.

Record message (A : Type) := Message {
  m_headers : pydict string (hval A); m_properties : pydict string (hval A); m_body : body A;
  m_sent_event : option (pydict string (hval A)) }.
Arguments Message {_} _ _ _ _.
Arguments m_headers {_} _.
Arguments m_properties {_} _.
Arguments m_body {_} _.
Arguments m_sent_event {_} _.

Section Messages.
Context {A D : Type} (W : world A D).
Local Open Scope string_scope.

Definition hstr (o : option string) : hval A := match o with Some s => HStr s | None => HNone end.
Definition hint (o : option Z) : hval A := match o with Some z => HInt z | None => HNone end.
Definition hobj (o : option A) : hval A := match o with Some a => HObj a | None => HNone end.

Definition INT_MIN : Z := -2147483648.
(** [_verify_seconds] *)
Definition verify_seconds (s : Z) : outcome Z := if (s <? INT_MIN)%Z then Raise ValueError else Ok s.

(** [x or default] *)
Definition or_default (x : option A) (default : A) : A :=
  match x with Some a => if truthy_obj W a then a else default | None => default end.

(** a string that counts as false *)
Definition or_empty (o : option string) : string := default "" o.
Definition nonempty (o : option string) : option string := match o with Some "" | None => None | Some s => Some s end.

(** [args or ()] and [kwargs or {}] with the checks of their types *)
Definition checked_args (c : call A D) : outcome (A * A) :=
  let a := or_default (args c) (empty_args W) in
  let k := or_default (kwargs c) (empty_kwargs W) in
  if negb (is_seq W a) then Raise TypeError else if negb (is_map W k) then Raise TypeError else Ok (a, k).

(** a time some seconds from now *)
Definition from_now (now : D) (seconds : Z) : outcome D :=
  let! s := verify_seconds seconds in add_seconds W now s.

(** the countdown as an eta; [aware] makes the time aware of its zone *)
Definition effective_eta (aware : D → D) (now : D) (c : call A D) : outcome (when_ D) :=
  match countdown c with
  | Some z => if (z =? 0)%Z then Ok (eta c) else let! d := from_now now z in Ok (WDate (aware d))
  | None => Ok (eta c)
  end.

Definition effective_expires (aware : D → D) (now : D) (c : call A D) : outcome (when_ D) :=
  match expires c with
  | WNum z => let! d := from_now now z in Ok (WDate (aware d))
  | w => Ok w
  end.

(** [w and w.isoformat()]; text has no such method *)
Definition isoformat_of (w : when_ D) : outcome (hval A) :=
  match w with
  | WNone => Ok HNone
  | WDate d => Ok (HStr (isoformat W d))
  | WStr s => if bool_decide (s = "") then Ok (HStr s) else Raise AttributeError
  | WNum z => if (z =? 0)%Z then Ok (HInt z) else Raise AttributeError
  end.
(** the same, for what is not text already *)
Definition text_of (w : when_ D) : outcome (hval A) := match w with WStr s => Ok (HStr s) | w => isoformat_of w end.

Definition stamps (c : call A D) : outcome (list (string * hval A)) :=
  foldM (λ d h, let! v := of_option KeyError (dict_get (extra c) h) in Ok (dict_set d h v)) [] (default [] (stamped_headers c)).

Definition properties_of (c : call A D) : pydict string (hval A) :=
  [("correlation_id", HStr (task_id c)); ("reply_to", HStr (or_empty (reply_to c)))].

Definition as_task_v2 (now : D) (c : call A D) : outcome (message A) :=
  let! (a, k) := checked_args c in
  let! w_eta := effective_eta (make_aware W) now c in
  let! w_exp := effective_expires (make_aware W) now c in
  let! t_eta := text_of w_eta in
  let! t_exp := text_of w_exp in
  let arepr := default (saferepr W a) (argsrepr c) in
  let krepr := default (saferepr W k) (kwargsrepr c) in
  let root := default (task_id c) (nonempty (root_id c)) in
  let! st := stamps c in
  let headers :=
    [("lang", HStr "py"); ("task", HStr (name c)); ("id", HStr (task_id c)); ("shadow", hstr (shadow c));
     ("eta", t_eta); ("expires", t_exp); ("group", hstr (group_id c)); ("group_index", hint (group_index c));
     ("retries", HInt (retries c)); ("timelimit", HList [hint (time_limit c); hint (soft_time_limit c)]);
     ("root_id", HStr root); ("parent_id", hstr (parent_id c)); ("argsrepr", HStr arepr); ("kwargsrepr", HStr krepr);
     ("origin", HStr (default (anon_nodename W) (nonempty (origin c)))); ("ignore_result", HBool (ignore_result c));
     ("replaced_task_nesting", HInt (replaced_task_nesting c));
     ("stamped_headers", match stamped_headers c with Some l => HList (map HStr l) | None => HNone end); ("stamps", HDict st)] in
  Ok (Message headers (properties_of c)
    (Body2 (HObj a) (HObj k)
      [("callbacks", hobj (callbacks c)); ("errbacks", hobj (errbacks c)); ("chain", hobj (chain c)); ("chord", hobj (chord c))])
    (if create_sent_event c then
       Some [("uuid", HStr (task_id c)); ("root_id", HStr root); ("parent_id", hstr (parent_id c)); ("name", HStr (name c));
             ("args", HStr arepr); ("kwargs", HStr krepr); ("retries", HInt (retries c)); ("eta", t_eta); ("expires", t_exp)]
     else None)).

Definition as_task_v1 (utc : bool) (now : D) (c : call A D) : outcome (message A) :=
  let! (a, k) := checked_args c in
  let! w_eta := effective_eta id now c in
  let! w_exp := effective_expires id now c in
  let! t_eta := isoformat_of w_eta in
  let! t_exp := isoformat_of w_exp in
  Ok (Message [] (properties_of c)
    (Body1
      [("task", HStr (name c)); ("id", HStr (task_id c)); ("args", HObj a); ("kwargs", HObj k); ("group", hstr (group_id c));
       ("group_index", hint (group_index c)); ("retries", HInt (retries c)); ("eta", t_eta); ("expires", t_exp); ("utc", HBool utc);
       ("callbacks", hobj (callbacks c)); ("errbacks", hobj (errbacks c));
       ("timelimit", HList [hint (time_limit c); hint (soft_time_limit c)]); ("taskset", hstr (group_id c)); ("chord", hobj (chord c))])
    (if create_sent_event c then
       Some [("uuid", HStr (task_id c)); ("name", HStr (name c)); ("args", HStr (saferepr W a)); ("kwargs", HStr (saferepr W k));
             ("retries", HInt (retries c)); ("eta", t_eta); ("expires", t_exp)]
     else None)).

(** ** Where a message is published *)

(** What is read of a queue and its exchange.  The type of an exchange is never empty. *)
Record target_queue := TQ {
  tq_name : string; tq_exchange : string; tq_type : string; tq_delivery_mode : option Z; tq_routing_key : string;
  tq_broadcast : bool }.

(** An exchange is given by its name, or it is the default exchange. *)
Inductive exchange_ref := ExName (s : string) | ExDefault.

(** The arguments of [send_task_message]; a queue is given by its name or as it is. *)
Record sending := Sending {
  s_exchange : option string; s_routing_key : option string; s_queue : option (string + target_queue);
  s_delivery_mode : option Z; s_exchange_type : option string; s_declare : option (list target_queue);
  s_headers : pydict string (hval A); s_properties : pydict string (hval A) }.

(** What is given to the producer, and the event *)
Record published := Published {
  p_exchange : exchange_ref; p_routing_key : option string; p_delivery_mode : Z; p_declare : option (list target_queue);
  p_headers : pydict string (hval A); p_properties : pydict string (hval A); p_body : body A;
  p_event : option (pydict string (hval A)) }.

(** The table of queues, [default_queue] and the settings *)
Record sender := Sender {
  queues : string → outcome target_queue; default_queue : outcome target_queue; default_exchange_name : string;
  default_delivery_mode : Z; default_rkey : string }.

(** [x or y] of two strings that may be None *)
Definition or_str (x : option string) (y : string) : string := default y (nonempty x).
Definition falsy_str (x : option string) : bool := bool_decide (nonempty x = None).

(** the queue and its name *)
Definition chosen_queue (S : sender) (s : sending) : outcome (option string * option target_queue) :=
  match s_queue s with
  | Some (inl n) => let! q := queues S n in Ok (Some n, Some q)
  | Some (inr q) => Ok (Some (tq_name q), Some q)
  | None =>
      match s_exchange s with
      | None => let! q := default_queue S in Ok (Some (tq_name q), Some q)
      | Some _ => Ok (None, None)
      end
  end.

Definition exchange_type_of (s : sending) (q : option target_queue) : string :=
  match s_exchange_type s with
  | Some t => t
  | None => match q with Some q => tq_type q | None => "direct" end
  end.

Definition delivery_mode_of (S : sender) (s : sending) (q : option target_queue) : Z :=
  match s_delivery_mode s with
  | Some d => d
  | None =>
      match q with
      | Some q => match tq_delivery_mode q with Some d => if (d =? 0)%Z then default_delivery_mode S else d | None => default_delivery_mode S end
      | None => default_delivery_mode S
      end
  end.

(** the exchange and the routing key *)
Definition destination (S : sender) (s : sending) (qname : option string) (q : option target_queue) :
    outcome (exchange_ref * option string) :=
  if (falsy_str (s_exchange s) || falsy_str (s_routing_key s)) && bool_decide (exchange_type_of s q = "direct")
  then Ok (ExName "", qname)
  else
    match s_exchange s with
    | Some x => Ok (ExName x, s_routing_key s)
    | None =>
        match q with
        | None => Raise AttributeError
        | Some q =>
            Ok (match tq_exchange q with "" => ExDefault | x => ExName x end,
                Some (or_str (s_routing_key s) (or_str (Some (tq_routing_key q)) (default_rkey S))))
        end
    end.

(** [send_task_message], up to what is published and the event that tells of it *)
Definition send_task_message (S : sender) (m : message A) (s : sending) : outcome published :=
  let! (qname, q) := chosen_queue S s in
  let! (x, k) := destination S s qname q in
  let declare := match s_declare s, q with
                 | None, Some q => if tq_broadcast q then None else Some [q]
                 | d, _ => d
                 end in
  Ok (Published x k (delivery_mode_of S s q) declare (dict_update (m_headers m) (s_headers s))
        (dict_update (m_properties m) (s_properties s)) (m_body m)
        (match m_sent_event m with
         | Some e =>
             Some (dict_update e
               [("queue", hstr qname);
                ("exchange", match x with ExName n => HStr n | ExDefault => HStr (default_exchange_name S) end);
                ("routing_key", hstr k)])
         | None => None
         end)).

(** ** In the worker *)

Definition get_ (d : pydict string (hval A)) (k : string) : hval A := default HNone (dict_get d k).

Definition embed_of (d : pydict string (hval A)) : pydict string (hval A) :=
  [("callbacks", get_ d "callbacks"); ("errbacks", get_ d "errbacks"); ("chord", get_ d "chord"); ("chain", HNone)].

Definition mapping (h : hval A) : bool := match h with HObj a => is_map W a | HDict _ => true | _ => false end.
Definition saferepr_of (h : hval A) : hval A := match h with HObj a => HStr (saferepr W a) | _ => HStr "" end.

(** [proto1_to_proto2]: the arguments, what is embedded, the headers, and [utc] *)
Definition proto1_to_proto2 (headers d : pydict string (hval A)) :
    outcome (hval A * hval A * pydict string (hval A) * pydict string (hval A) * hval A) :=
  let a := default (HObj (empty_args W)) (dict_get d "args") in
  let k := default (HObj (empty_kwargs W)) (dict_get d "kwargs") in
  if negb (mapping k) then Raise InvalidTaskError
  else
    let d := dict_update d [("argsrepr", saferepr_of a); ("kwargsrepr", saferepr_of k); ("headers", HDict headers)] in
    let d := match dict_get d "taskset" with Some g => dict_set d "group" g | None => d end in
    Ok (a, k, embed_of d, d, default (HBool true) (dict_get d "utc")).

(** [hybrid_to_proto2] *)
Definition hybrid_to_proto2 (headers d : pydict string (hval A)) :
    outcome (hval A * hval A * pydict string (hval A) * pydict string (hval A) * hval A) :=
  let a := default (HObj (empty_args W)) (dict_get d "args") in
  let k := default (HObj (empty_kwargs W)) (dict_get d "kwargs") in
  if negb (mapping k) then Raise InvalidTaskError
  else
    let h := (map (λ key, (key, get_ d key))
               ["lang"; "task"; "id"; "root_id"; "parent_id"; "group"; "meth"; "shadow"; "eta"; "expires"] ++
             [("retries", default (HInt 0) (dict_get d "retries"));
              ("timelimit", default (HList [HNone; HNone]) (dict_get d "timelimit"))] ++
             map (λ key, (key, get_ d key)) ["argsrepr"; "kwargsrepr"; "origin"])%list in
    Ok (a, k, embed_of d, dict_update h headers, default (HBool true) (dict_get d "utc")).

(** What counts as true *)
Definition htruthy (h : hval A) : bool :=
  match h with
  | HNone => false
  | HStr s => bool_decide (s ≠ "")
  | HInt z => bool_decide (z ≠ 0%Z)
  | HBool b => b
  | HList l => match l with [] => false | _ => true end
  | HDict d => match d with [] => false | _ => true end
  | HObj a => truthy_obj W a
  end.

(** What a request knows of its task *)
Record request := Req {
  r_id : hval A; r_type : hval A; r_name : hval A; r_root_id : hval A; r_parent_id : hval A;
  r_args : hval A; r_kwargs : hval A; r_argsrepr : hval A; r_kwargsrepr : hval A;
  r_callbacks : hval A; r_errbacks : hval A; r_chain : hval A; r_chord : hval A;
  r_eta : option D; r_expires : option D; r_time_limits : hval A;
  r_group : hval A; r_group_index : hval A; r_retries : hval A;
  r_ignore_result : hval A; r_reply_to : hval A; r_correlation_id : hval A }.

(** [maybe_make_aware(maybe_iso8601(x))] for a header that is not None.  What counts
    as false is read as None, which has no time zone, outside the [try]; what is not
    text or not a valid date is an invalid task. *)
Definition request_date (h : hval A) : outcome (option D) :=
  match h with
  | HNone => Ok None
  | _ =>
      if negb (htruthy h) then Raise AttributeError
      else match h with
           | HStr s =>
               match isoparse W s with
               | Ok d => Ok (Some (make_aware W d))
               | Raise ValueError | Raise TypeError | Raise AttributeError => Raise InvalidTaskError
               | Raise e => Raise e
               | Diverge => Diverge
               end
           | _ => Raise InvalidTaskError
           end
  end.

(** [Request.__init__], with what its properties read of the headers and the embedded
    options; [task_ignores] is the task's own setting *)
Definition request_of (headers properties : pydict string (hval A)) (a k : hval A) (embed : pydict string (hval A))
    (task_ignores : bool) : outcome request :=
  let! id := of_option KeyError (dict_get headers "id") in
  let! task := of_option KeyError (dict_get headers "task") in
  let shadow := get_ headers "shadow" in
  let limits := get_ headers "timelimit" in
  let ignore := get_ headers "ignore_result" in
  let! e := request_date (get_ headers "eta") in
  let! x := request_date (get_ headers "expires") in
  Ok (Req id task (if htruthy shadow then shadow else task) (get_ headers "root_id") (get_ headers "parent_id") a k
        (default (HStr "") (dict_get headers "argsrepr")) (default (HStr "") (dict_get headers "kwargsrepr"))
        (get_ embed "callbacks") (get_ embed "errbacks") (get_ embed "chain") (get_ embed "chord") e x
        (if htruthy limits then limits else HList [HNone; HNone])
        (get_ headers "group") (get_ headers "group_index") (get_ headers "retries")
        (match ignore with HNone => HBool task_ignores | h => h end)
        (get_ properties "reply_to") (get_ properties "correlation_id")).

(** [task_message_handler] up to the request.  [payload] is None for a message whose
    headers name the task.  A protocol 2 body has three parts; of a dictionary that has
    three keys these are the keys. *)
Definition handler_request (task_ignores : bool) (payload : option (pydict string (hval A))) (m : message A) : outcome request :=
  let has_args := match m_body m with Body1 d => dict_in d "args" | Body2 _ _ _ => false end in
  match payload, m_body m with
  | None, Body2 a k embed => request_of (m_headers m) (m_properties m) a k embed task_ignores
  | _, Body1 d =>
      if has_args then
        let! (a, k, embed, headers, _) := hybrid_to_proto2 (m_headers m) d in
        request_of headers (m_properties m) a k embed task_ignores
      else
        match payload with
        | Some d =>
            let! (a, k, embed, headers, _) := proto1_to_proto2 (m_headers m) d in
            request_of headers (m_properties m) a k embed task_ignores
        | None =>
            let! _ := request_of (m_headers m) (m_properties m) HNone HNone [] task_ignores in
            match map fst d with
            | [a; k; _] => request_of (m_headers m) (m_properties m) (HStr a) (HStr k) [] task_ignores
            | _ => Raise ValueError
            end
        end
  | Some d, Body2 _ _ _ =>
      let! (a, k, embed, headers, _) := proto1_to_proto2 (m_headers m) d in
      request_of headers (m_properties m) a k embed task_ignores
  end.

(** How the consumer answers a message *)
Inductive received :=
| UnknownMessage
| UnknownTask
| InvalidTask
| Accepted (r : request).

(** [on_task_received], for the tasks the worker knows and their own settings *)
Definition on_task_received (strategies : hval A → option bool) (m : message A) : outcome received :=
  let start ty payload :=
    match strategies ty with
    | None => Ok UnknownTask
    | Some ignores =>
        match handler_request ignores payload m with
        | Ok r => Ok (Accepted r)
        | Raise InvalidTaskError => Ok InvalidTask
        | Raise e => Raise e
        | Diverge => Diverge
        end
    end in
  match dict_get (m_headers m) "task" with
  | Some ty => start ty None
  | None =>
      match m_body m with
      | Body2 _ _ _ => Ok UnknownMessage
      | Body1 d => match dict_get d "task" with Some ty => start ty (Some d) | None => Ok UnknownMessage end
      end
  end.

(** ** What is received is what was sent *)

(** The date a caller means *)
Definition meant (w : when_ D) : outcome (option D) :=
  match w with
  | WNone => Ok None
  | WDate d => Ok (Some (make_aware W d))
  | WStr s => if bool_decide (s = "") then Raise AttributeError else let! d := isoparse W s in Ok (Some (make_aware W d))
  | WNum _ => Raise AttributeError
  end.

Definition task_name (c : call A D) : string := default (name c) (nonempty (shadow c)).

(** The request a protocol 2 worker should make of a call *)
Definition intended (c : call A D) (e x : option D) : request :=
  let a := or_default (args c) (empty_args W) in
  let k := or_default (kwargs c) (empty_kwargs W) in
  Req (HStr (task_id c)) (HStr (name c)) (HStr (task_name c)) (HStr (default (task_id c) (nonempty (root_id c))))
    (hstr (parent_id c)) (HObj a) (HObj k)
    (HStr (default (saferepr W a) (argsrepr c))) (HStr (default (saferepr W k) (kwargsrepr c)))
    (hobj (callbacks c)) (hobj (errbacks c)) (hobj (chain c)) (hobj (chord c)) e x
    (HList [hint (time_limit c); hint (soft_time_limit c)])
    (hstr (group_id c)) (hint (group_index c)) (HInt (retries c)) (HBool (ignore_result c))
    (HStr (or_empty (reply_to c))) (HStr (task_id c)).

(** What protocol 1 keeps of it *)
Definition v1_view (task_ignores : bool) (r : request) : request :=
  Req (r_id r) (r_type r) (r_type r) HNone HNone (r_args r) (r_kwargs r) HNone HNone
    (r_callbacks r) (r_errbacks r) HNone (r_chord r) (r_eta r) (r_expires r) (r_time_limits r)
    (r_group r) HNone (r_retries r) (HBool task_ignores) (r_reply_to r) (r_correlation_id r).

Context {WL : WorldLaws W}.

Lemma request_date_text w t e : text_of w = Ok t → meant w = Ok e → request_date t = Ok e.
Proof using WL.
  destruct w as [|s|d|z]; cbn [text_of isoformat_of meant].
  - intros [= <-] [= <-]. done.
  - intros [= <-]. unfold request_date, htruthy. case_bool_decide as E; [done|].
    rewrite bool_decide_true by done. cbn [negb].
    destruct (isoparse W s); cbn; [|done..]. by intros [= <-].
  - intros [= <-] [= <-]. unfold request_date, htruthy.
    rewrite bool_decide_true by apply isoformat_nonempty. cbn [negb].
    by rewrite isoparse_isoformat.
  - done.
Qed.

Lemma isoformat_text w t : isoformat_of w = Ok t → text_of w = Ok t.
Proof using. destruct w; cbn; try done. by case_bool_decide. Qed.

Lemma shadow_name (c : call A D) :
  (if htruthy (hstr (shadow c)) then hstr (shadow c) else HStr (name c)) = HStr (task_name c).
Proof using.
  unfold task_name, nonempty. destruct (shadow c) as [s|]; [|done]. by destruct s.
Qed.

(** A message given no exchange has a queue to go to. *)
Lemma chosen_queue_Some S s qn q : s_exchange s = None → chosen_queue S s = Ok (qn, q) → ∃ n r, qn = Some n ∧ q = Some r.
Proof using.
  unfold chosen_queue. intros ->. destruct (s_queue s) as [[n|r]|].
  - intros (r & _ & [= <- <-])%obind_Ok. eauto.
  - intros [= <- <-]. eauto.
  - intros (r & _ & [= <- <-])%obind_Ok. eauto.
Qed.

(** Where a task is published.  Once its queue is found a message can be published,
    with its body unchanged.  With an exchange and a routing key it goes there.  With no
    exchange it goes to the queue: through the anonymous exchange under the name the queue
    was asked for by, if the queue's exchange is direct, and otherwise through the queue's
    exchange, or the default one if that has no name, under the routing key given or else
    the queue's or else the default one.  The event names the same exchange and key. *)
Theorem published_where S m s qn q :
  chosen_queue S s = Ok (qn, q) →
  ∃ p, send_task_message S m s = Ok p ∧ p_body p = m_body m ∧
    (∀ x k, s_exchange s = Some x → s_routing_key s = Some k → x ≠ "" → k ≠ "" →
       p_exchange p = ExName x ∧ p_routing_key p = Some k) ∧
    (s_exchange s = None →
       ∃ n r, qn = Some n ∧ q = Some r ∧
         if bool_decide (exchange_type_of s q = "direct")
         then p_exchange p = ExName "" ∧ p_routing_key p = Some n
         else p_exchange p = (if bool_decide (tq_exchange r = "") then ExDefault else ExName (tq_exchange r)) ∧
              p_routing_key p = Some (or_str (s_routing_key s) (or_str (Some (tq_routing_key r)) (default_rkey S)))) ∧
    (is_Some (m_sent_event m) → ∃ e, p_event p = Some e ∧ dict_get e "routing_key" = Some (hstr (p_routing_key p))).
Proof using.
  intros Hq. unfold send_task_message. rewrite Hq. cbn [obind].
  assert (is_Ok (destination S s qn q)) as [[x k] Hd].
  { unfold destination. case_match; [by eexists|]. destruct (s_exchange s) eqn:Hx; [by eexists|].
    destruct (chosen_queue_Some _ _ _ _ Hx Hq) as (n & r & -> & ->). by eexists. }
  rewrite Hd. cbn [obind]. eexists. split; [reflexivity|]. split; [done|].
  cbn [p_exchange p_routing_key p_event]. unfold destination, falsy_str in Hd. split; [|split].
  - intros x' k' Hx Hk Hx0 Hk0. rewrite Hx, Hk in Hd. destruct x' as [|a x']; [done|]. destruct k' as [|b k']; [done|].
    by injection Hd as <- <-.
  - intros Hx. destruct (chosen_queue_Some _ _ _ _ Hx Hq) as (n & r & -> & ->).
    exists n, r. do 2 (split; [done|]). rewrite Hx in Hd. cbn [nonempty] in Hd.
    rewrite bool_decide_true in Hd by done. cbn [orb andb] in Hd.
    case_bool_decide; injection Hd as <- <-; [done|]. split; [|done]. by destruct (tq_exchange r).
  - intros [e ->]. eexists. split; [reflexivity|]. cbn [dict_update foldl]. by rewrite dict_get_set_eq.
Qed.

(** A queue asked for by another name than its own (its alias), whose exchange is direct,
    is missed: the message is sent under the name asked for. *)
Lemma alias_missed S m s n q :
  s_queue s = Some (inl n) → s_exchange s = None → s_exchange_type s = None →
  queues S n = Ok q → tq_type q = "direct" →
  ∃ p, send_task_message S m s = Ok p ∧ p_exchange p = ExName "" ∧ p_routing_key p = Some n.
Proof using.
  intros Hs Hx Ht Hn Hd. unfold send_task_message, chosen_queue. rewrite Hs, Hn. cbn [obind].
  unfold destination, exchange_type_of. rewrite Hx, Ht. cbn. rewrite Hd. eexists; by split_and!.
Qed.

(** Looking up a key by the boolean comparison, which evaluates on literals *)
Fixpoint lit_get {V} (d : pydict string V) (k : string) : option V :=
  match d with
  | [] => None
  | (k', v) :: d => if String.eqb k k' then Some v else lit_get d k
  end.

Lemma dict_get_lit {V} (d : pydict string V) k : dict_get d k = lit_get d k.
Proof using.
  induction d as [|[k' v] d IH]; [done|]. cbn. destruct (String.eqb_spec k k'); by case_decide.
Qed.

Lemma checked_args_Ok c a k :
  checked_args c = Ok (a, k) →
  a = or_default (args c) (empty_args W) ∧ k = or_default (kwargs c) (empty_kwargs W) ∧ is_map W k = true.
Proof using.
  unfold checked_args. case_match; [done|]. case_match eqn:E; [done|]. intros [= <- <-].
  by apply negb_false_iff in E.
Qed.

Lemma meant_text w e : meant w = Ok e → ∃ t, text_of w = Ok t ∧ request_date t = Ok e.
Proof using WL.
  intros H. assert (∃ t, text_of w = Ok t) as [t Ht] by (destruct w; cbn in *; eauto; done).
  exists t. split; [done|]. by eapply request_date_text.
Qed.

Lemma stamps_Ok c : (∀ h, h ∈ default [] (stamped_headers c) → is_Some (dict_get (extra c) h)) → is_Ok (stamps c).
Proof using.
  intros H. unfold stamps.
  match goal with |- is_Ok (foldM ?f ?s ?l) => destruct (foldM_total (λ _, True) f s l) as (d & Hd & _) end;
    [done| |by exists d].
  intros d h Hh _. destruct (H h Hh) as [v ->]. cbn. eauto.
Qed.

(** The headers of a protocol 2 message and the request made of them *)
Lemma v2_message now c m :
  as_task_v2 now c = Ok m →
  ∃ w_eta w_exp t_eta t_exp,
    is_Ok (checked_args c) ∧
    effective_eta (make_aware W) now c = Ok w_eta ∧ text_of w_eta = Ok t_eta ∧
    effective_expires (make_aware W) now c = Ok w_exp ∧ text_of w_exp = Ok t_exp ∧
    dict_get (m_headers m) "task" = Some (HStr (name c)) ∧
    ∀ ig, handler_request ig None m =
      let! e := request_date t_eta in let! x := request_date t_exp in Ok (intended c e x).
Proof using.
  unfold as_task_v2. intros ([a k] & Hak & Hm)%obind_Ok.
  apply obind_Ok in Hm as (we & He & Hm). apply obind_Ok in Hm as (wx & Hx & Hm).
  apply obind_Ok in Hm as (te & Hte & Hm). apply obind_Ok in Hm as (tx & Htx & Hm).
  apply obind_Ok in Hm as (st & _ & [= <-]). exists we, wx, te, tx.
  split; [by eexists|]. do 4 (split; [done|]). split; [by rewrite dict_get_lit|]. intros ig.
  apply checked_args_Ok in Hak as (-> & -> & _).
  unfold handler_request. cbn [m_body m_headers m_properties]. unfold request_of, get_. rewrite !dict_get_lit.
  cbn -[request_date htruthy]. destruct (request_date te); cbn [obind]; [|done..].
  destruct (request_date tx); cbn [obind]; [|done..]. by rewrite shadow_name.
Qed.

(** The same of a protocol 1 message *)
Lemma v1_message utc now c m :
  as_task_v1 utc now c = Ok m →
  ∃ w_eta w_exp t_eta t_exp d,
    effective_eta id now c = Ok w_eta ∧ isoformat_of w_eta = Ok t_eta ∧
    effective_expires id now c = Ok w_exp ∧ isoformat_of w_exp = Ok t_exp ∧
    m_body m = Body1 d ∧ m_headers m = [] ∧ dict_get d "task" = Some (HStr (name c)) ∧
    ∀ ig, handler_request ig (Some d) m =
      let! e := request_date t_eta in let! x := request_date t_exp in Ok (v1_view ig (intended c e x)).
Proof using.
  unfold as_task_v1. intros ([a k] & Hak & Hm)%obind_Ok.
  apply obind_Ok in Hm as (we & He & Hm). apply obind_Ok in Hm as (wx & Hx & Hm).
  apply obind_Ok in Hm as (te & Hte & Hm). apply obind_Ok in Hm as (tx & Htx & [= <-]).
  apply checked_args_Ok in Hak as (-> & -> & Hmap).
  eexists we, wx, te, tx, _. do 4 (split; [done|]). split; [reflexivity|]. split; [done|].
  split; [by rewrite dict_get_lit|]. intros ig.
  unfold handler_request. cbn [m_body m_headers m_properties]. unfold dict_in. rewrite dict_get_lit. cbn -[hybrid_to_proto2 obind].
  unfold hybrid_to_proto2, embed_of, get_. cbn [map app dict_update foldl]. rewrite !dict_get_lit.
  cbn -[request_date htruthy request_of]. rewrite Hmap.
  cbn -[request_date htruthy request_of]. unfold request_of, get_. rewrite !dict_get_lit.
  cbn -[request_date htruthy].
  destruct (request_date te); cbn [obind]; [|done..].
  by destruct (request_date tx); cbn [obind].
Qed.

(** C33: a call that can be sent is received as it was meant.  When the arguments are a
    sequence and a mapping, the values of the stamps are given, and the dates are
    readable, the protocol 2 message can be built, and a worker that knows the task makes
    the request of it that the caller meant: the task and its shadow name, arguments,
    dates aware of the time zone (a countdown or a number of seconds counted from now),
    group and index, retries, limits, callbacks, chain and chord, and the root id, which
    is the task's own when none is given. *)
Theorem task_v2_received strategies ig now c w_eta w_exp e x :
  strategies (HStr (name c)) = Some ig →
  is_Ok (checked_args c) →
  (∀ h, h ∈ default [] (stamped_headers c) → is_Some (dict_get (extra c) h)) →
  effective_eta (make_aware W) now c = Ok w_eta → meant w_eta = Ok e →
  effective_expires (make_aware W) now c = Ok w_exp → meant w_exp = Ok x →
  ∃ m, as_task_v2 now c = Ok m ∧ on_task_received strategies m = Ok (Accepted (intended c e x)).
Proof using WL.
  intros Hs [[a k] Hak] [st Hst]%stamps_Ok He (te & Hte & He')%meant_text Hx (tx & Htx & Hx')%meant_text.
  destruct (as_task_v2 now c) as [m| |] eqn:Hm.
  2,3: by unfold as_task_v2 in Hm; rewrite Hak, He, Hx in Hm; cbn [obind] in Hm;
    rewrite Hte, Htx in Hm; cbn [obind] in Hm; rewrite Hst in Hm.
  exists m. split; [done|].
  destruct (v2_message _ _ _ Hm) as (we2 & wx2 & te2 & tx2 & _ & He2 & Hte2 & Hx2 & Htx2 & Hty & Hreq).
  replace te2 with te in Hreq by congruence. replace tx2 with tx in Hreq by congruence.
  unfold on_task_received. rewrite Hty, Hs, Hreq, He'. cbn [obind]. by rewrite Hx'.
Qed.

Lemma dates_agree w1 w2 t1 t2 :
  isoformat_of w1 = Ok t1 → text_of w2 = Ok t2 →
  w1 = w2 ∨ (∃ d1 d2, w1 = WDate d1 ∧ w2 = WDate d2 ∧ make_aware W d1 = make_aware W d2) →
  request_date t1 = request_date t2.
Proof using WL.
  intros H1 H2 [->|(d1 & d2 & -> & -> & Hd)].
  - apply isoformat_text in H1. congruence.
  - assert (meant (WDate d1) = meant (WDate d2)) as Hm by (cbn; by rewrite Hd).
    rewrite (request_date_text (WDate d1) t1 (Some (make_aware W d1))), (request_date_text (WDate d2) t2 (Some (make_aware W d1)));
      [done..| |by apply isoformat_text|done]; cbn; by rewrite ?Hd.
Qed.

Lemma etas_agree now c w1 w2 :
  effective_eta id now c = Ok w1 → effective_eta (make_aware W) now c = Ok w2 →
  w1 = w2 ∨ ∃ d1 d2, w1 = WDate d1 ∧ w2 = WDate d2 ∧ make_aware W d1 = make_aware W d2.
Proof using WL.
  unfold effective_eta. destruct (countdown c) as [z|]; [|by intros [= <-] [= <-]; left].
  case_match; [by intros [= <-] [= <-]; left|].
  destruct (from_now now z) as [d| |]; cbn; [|done..]. intros [= <-] [= <-]. right.
  exists d, (make_aware W d). by rewrite make_aware_idemp.
Qed.

Lemma expiries_agree now c w1 w2 :
  effective_expires id now c = Ok w1 → effective_expires (make_aware W) now c = Ok w2 →
  w1 = w2 ∨ ∃ d1 d2, w1 = WDate d1 ∧ w2 = WDate d2 ∧ make_aware W d1 = make_aware W d2.
Proof using WL.
  unfold effective_expires. destruct (expires c) as [| | |z]; try by intros [= <-] [= <-]; left.
  destruct (from_now now z) as [d| |]; cbn; [|done..]. intros [= <-] [= <-]. right.
  exists d, (make_aware W d). by rewrite make_aware_idemp.
Qed.

Definition map_received (f : request → request) (v : received) : received :=
  match v with Accepted r => Accepted (f r) | v => v end.

(** The two protocols agree.  Whatever the consumer answers to a protocol 2 message,
    errors included, it answers to the protocol 1 message of the same call, except for
    what protocol 1 has no place for or loses on the way: the root and parent ids, the
    shadow name, the text of the arguments, the chain, the index in the group, and the
    caller's own choice to ignore the result. *)
Theorem protocols_agree strategies utc now c m1 m2 :
  as_task_v1 utc now c = Ok m1 → as_task_v2 now c = Ok m2 →
  on_task_received strategies m1 =
    let! v := on_task_received strategies m2 in
    Ok (map_received (v1_view (default false (strategies (HStr (name c))))) v).
Proof using WL.
  intros (w1 & x1 & t1 & y1 & d & He1 & Ht1 & Hx1 & Hy1 & Hb & Hh & Hty1 & Hreq1)%v1_message
    (w2 & x2 & t2 & y2 & _ & He2 & Ht2 & Hx2 & Hy2 & Hty2 & Hreq2)%v2_message.
  unfold on_task_received. rewrite Hh, Hb, Hty1, Hty2. cbn [dict_get].
  destruct (strategies (HStr (name c))) as [ig|]; [|done]. cbn [default]. rewrite Hreq1, Hreq2.
  rewrite (dates_agree _ _ _ _ Ht1 Ht2), (dates_agree _ _ _ _ Hy1 Hy2) by eauto using etas_agree, expiries_agree.
  destruct (request_date t2) as [e|ex|]; cbn [obind]; [|by destruct ex|done].
  destruct (request_date y2) as [x|ex|]; cbn [obind]; [done|by destruct ex|done].
Qed.

(** Only protocol 2 takes dates that are text already, as they are when a task is
    retried: protocol 1 calls a method of theirs that text has not. *)
Lemma v1_rejects_text_dates utc now c s :
  is_Ok (checked_args c) → countdown c = None → eta c = WStr s → s ≠ "" → is_Ok (effective_expires id now c) →
  as_task_v1 utc now c = Raise AttributeError.
Proof using.
  intros [[a k] Hak] Hc He Hs [w Hw]. unfold as_task_v1, effective_eta.
  rewrite Hak, Hc, He, Hw. cbn [obind isoformat_of]. by rewrite bool_decide_false.
Qed.

(** An empty date gets past the sender, and the error it makes in the worker is not among
    those the consumer answers by rejecting the message. *)
Lemma empty_date_uncaught strategies ig now c m :
  strategies (HStr (name c)) = Some ig → countdown c = None → eta c = WStr "" → as_task_v2 now c = Ok m →
  on_task_received strategies m = Raise AttributeError.
Proof using.
  intros Hs Hc He (w & x & t & y & _ & Hw & Ht & _ & _ & Hty & Hreq)%v2_message.
  unfold effective_eta in Hw. rewrite Hc, He in Hw. simplify_eq. cbn in Ht. simplify_eq.
  unfold on_task_received. by rewrite Hty, Hs, Hreq.
Qed.

(** The dates of a call are bounded.  A countdown, or an expiry in seconds, below
    [INT_MIN] raises ValueError in both protocols before a message is built; a countdown
    of zero is no countdown. *)
Theorem seconds_verified utc now c z :
  is_Ok (checked_args c) →
  (countdown c = Some z ∨ (default 0%Z (countdown c) = 0%Z ∧ expires c = WNum z)) → (z < INT_MIN)%Z →
  as_task_v2 now c = Raise ValueError ∧ as_task_v1 utc now c = Raise ValueError.
Proof using.
  intros [[a k] Hak] Hz Hlt.
  assert (∀ n, from_now n z = Raise ValueError) as Hf.
  { intros n. unfold from_now, verify_seconds. by rewrite (proj2 (Z.ltb_lt _ _) Hlt). }
  unfold as_task_v2, as_task_v1, effective_eta, effective_expires. rewrite Hak. cbn [obind].
  destruct Hz as [-> | [H0 ->]].
  - rewrite (proj2 (Z.eqb_neq z 0)) by (unfold INT_MIN in Hlt; lia). by rewrite Hf.
  - destruct (countdown c) as [q|]; cbn in H0; [subst q|]; cbn [Z.eqb obind]; by rewrite Hf.
Qed.

End Messages.

(** ** Examples *)
Module Examples.
Local Open Scope string_scope.

Inductive obj := OArgs (l : list nat) | OKwargs (l : list (string * nat)) | OSig (task : string).

(** A datetime is a number of seconds, aware of its zone or not; its text is a mark
    and so many strokes. *)
Definition moment : Type := bool * nat.
Fixpoint strokes (n : nat) : string := match n with 0%nat => "" | S n => String "I"%char (strokes n) end.
Lemma strokes_length n : String.length (strokes n) = n.
Proof. induction n as [|n IH]; [done|]. cbn. by rewrite IH. Qed.

Definition W : world obj moment := {|
  is_seq o := match o with OArgs _ => true | _ => false end;
  is_map o := match o with OKwargs _ => true | _ => false end;
  truthy_obj o := match o with OArgs [] | OKwargs [] => false | _ => true end;
  empty_args := OArgs []; empty_kwargs := OKwargs []; saferepr o := match o with OArgs _ => "(...)" | _ => "{...}" end;
  isoformat (d : moment) := String (if d.1 then "Z"%char else "N"%char) (strokes d.2);
  isoparse s :=
    match s with
    | String "Z"%char t => Ok (true, String.length t)
    | String "N"%char t => Ok (false, String.length t)
    | _ => Raise ValueError
    end;
  add_seconds (d : moment) z := if (Z.of_nat d.2 + z <? 0)%Z then Raise OverflowError else Ok (d.1, Z.to_nat (Z.of_nat d.2 + z));
  make_aware (d : moment) := (true, d.2); anon_nodename := "gen1@host" |}.

#[global] Instance W_laws : WorldLaws W.
Proof. split; [intros [[] n]; cbn; by rewrite strokes_length | by intros [[] n] | done]. Qed.

Definition c : call obj moment :=
  {| task_id := "t1"; name := "tasks.add"; args := Some (OArgs [2; 2]%nat); kwargs := None; countdown := Some 3%Z;
     eta := WNone; expires := WNum 10; group_id := Some "g1"; group_index := Some 1%Z; retries := 0;
     chord := None; callbacks := Some (OSig "log"); errbacks := None; chain := None; reply_to := None;
     time_limit := Some 60%Z; soft_time_limit := None; create_sent_event := true; root_id := None; parent_id := None;
     shadow := Some "addition"; origin := None; ignore_result := false; argsrepr := None; kwargsrepr := None;
     stamped_headers := Some ["stamp"]; replaced_task_nesting := 0; extra := [("stamp", HInt 1)] |}.
Definition strategies (h : hval obj) : option bool := match h with HStr "tasks.add" => Some false | _ => None end.
Definition now : moment := (false, 5%nat).

Lemma task_v2_received_witness :
  ∃ m, as_task_v2 W now c = Ok m ∧
       on_task_received W strategies m = Ok (Accepted (intended W c (Some (true, 8%nat)) (Some (true, 15%nat)))).
Proof.
  apply (task_v2_received W strategies false now c (WDate (true, 8%nat)) (WDate (true, 15%nat))); try reflexivity.
  - by eexists.
  - intros h Hh. apply list_elem_of_singleton in Hh as ->. eexists; reflexivity.
Defined.

Definition m1 : message obj := match as_task_v1 W true now c with Ok m => m | _ => Message [] [] (Body1 []) None end.
Definition m2 : message obj := match as_task_v2 W now c with Ok m => m | _ => Message [] [] (Body1 []) None end.

Lemma protocols_agree_witness :
  as_task_v1 W true now c = Ok m1 ∧ as_task_v2 W now c = Ok m2 ∧
  on_task_received W strategies m1 =
    (let! v := on_task_received W strategies m2 in Ok (map_received (v1_view (default false (strategies (HStr (name c))))) v)).
Proof.
  split; [reflexivity|]. split; [reflexivity|]. apply (protocols_agree W strategies true now c m1 m2); reflexivity.
Defined.

(** Protocol 1 sends the index in the group, and the worker loses it. *)
Lemma v1_group_index_lost :
  (∃ r, on_task_received W strategies m1 = Ok (Accepted r) ∧ r_group r = HStr "g1" ∧ r_group_index r = HNone) ∧
  match m_body m1 with Body1 d => dict_get d "group_index" = Some (HInt 1) | _ => False end.
Proof. split; [eexists; by vm_compute|by vm_compute]. Qed.

Definition late : call obj moment :=
  {| task_id := "t2"; name := "tasks.add"; args := None; kwargs := None; countdown := Some (-2147483649)%Z;
     eta := WNone; expires := WNone; group_id := None; group_index := None; retries := 0; chord := None; callbacks := None;
     errbacks := None; chain := None; reply_to := None; time_limit := None; soft_time_limit := None;
     create_sent_event := false; root_id := None; parent_id := None; shadow := None; origin := None; ignore_result := false;
     argsrepr := None; kwargsrepr := None; stamped_headers := None; replaced_task_nesting := 0; extra := [] |}.

Lemma seconds_verified_witness :
  as_task_v2 W now late = Raise ValueError ∧ as_task_v1 W true now late = Raise ValueError.
Proof. apply (seconds_verified W true now late (-2147483649)); [by eexists|by left|reflexivity]. Defined.

Definition feeds : target_queue := TQ "feeds" "feeds" "topic" None "feed.#" false.
Definition S_ : sender :=
  Sender (λ n, if bool_decide (n = "feeds") then Ok feeds else Raise KeyError) (Ok (TQ "celery" "celery" "direct" None "celery" false))
    "celery" 2 "celery".
Definition to_feeds : sending (A := obj) := Sending None None (Some (inl "feeds")) None None None [] [].

Lemma published_where_witness :
  ∃ p, send_task_message S_ m2 to_feeds = Ok p ∧ p_exchange p = ExName "feeds" ∧ p_routing_key p = Some "feed.#".
Proof.
  destruct (published_where S_ m2 to_feeds (Some "feeds") (Some feeds)) as (p & Hp & _ & _ & H & _); [reflexivity|].
  destruct (H eq_refl) as (n & r & Hn & Hr & Hx). injection Hn as <-. injection Hr as <-. by exists p.
Defined.

End Examples.
End Messages.
