(* ===== verification/RateLimit.v ===== *)
(** Rate limits of a worker (celery/worker/consumer/consumer.py): requests wait in
    token buckets and a timer tries again when there are no tokens.

    A bucket is an object: changing the rate limits puts new buckets into the table,
    while timers still hold the old ones.  Buckets therefore have addresses in a store.
    Whether there are tokens and how long it takes to get some is up to kombu's
    [TokenBucket], here the functions [can_consume] and [expected_time] of what happened
    so far; its queue is a [deque]. *)

From S2P Require Import Prelude.
From S2P Require Import PyDict.
From S2P Require Import Effect.

Module RateLimit.
Local Open Scope eff_scope.

Section RateLimit.
Context {rid : Type}.

(** What happens to requests *)
Inductive event :=
| Added (b : nat) (r : rid)
| Moved (b : nat) (r : rid)  (* reserved and given to [on_task_request] *)
| Cleared (b : nat)
| QosDecrement.

Record limits := Limits {
  store : list (list (rid * Z));                 (* the contents of the buckets *)
  task_buckets : pydict string (option nat);
  limit_order : Z;
  timers : list (nat * Z * Z);                   (* bucket, seconds, priority *)
  log : list event;                              (* newest last *)
}.

Context (can_consume : list event → nat → Z → bool) (expected_time : list event → nat → Z → Z).
(** how [on_task_request] ends *)
Context (on_task_request : list event → rid → outcome ()).

Abbreviation M := (eff limits).

Definition contents (b : nat) (s : limits) : list (rid * Z) := default [] (store s !! b).
Definition set_contents (b : nat) (q : list (rid * Z)) (s : limits) : limits :=
  Limits (<[b := q]> (store s)) (task_buckets s) (limit_order s) (timers s) (log s).
Definition emit (e : event) (s : limits) : limits :=
  Limits (store s) (task_buckets s) (limit_order s) (timers s) (log s ++ [e]).
(** [_limit_order] goes round, and a timer calls [_schedule_bucket_request] again *)
Definition call_after (b : nat) (hold : Z) (s : limits) : limits :=
  let pri := ((limit_order s + 1) mod 10)%Z in
  Limits (store s) (task_buckets s) pri (timers s ++ [(b, hold, pri)]) (log s).

Definition limit_move_to_pool (b : nat) (r : rid) : M () :=
  run! emodify (emit (Moved b r)) in
  do! l := eget log in elift (on_task_request l r).

(** The loop of [_schedule_bucket_request]; [q] is what is in the bucket *)
Fixpoint schedule_loop (b : nat) (q : list (rid * Z)) : M () :=
  match q with
  | [] => eret ()
  | (r, tokens) :: q =>
      run! emodify (set_contents b q) in
      do! l := eget log in
      if can_consume l b tokens then
        run! limit_move_to_pool b r in schedule_loop b q
      else
        run! emodify (set_contents b ((r, tokens) :: q)) in
        emodify (call_after b (expected_time l b tokens))
  end.

Definition schedule_bucket_request (b : nat) : M () :=
  do! q := eget (contents b) in schedule_loop b q.

Definition bucket_add (b : nat) (r : rid) (tokens : Z) : M () :=
  run! emodify (emit (Added b r)) in
  do! q := eget (contents b) in emodify (set_contents b (q ++ [(r, tokens)])).

Definition limit_task (r : rid) (b : nat) (tokens : Z) : M () :=
  run! bucket_add b r tokens in schedule_bucket_request b.

Definition limit_post_eta (r : rid) (b : nat) (tokens : Z) : M () :=
  run! emodify (emit QosDecrement) in
  run! bucket_add b r tokens in schedule_bucket_request b.

(** The timer runs an entry and forgets it. *)
Definition fire (i : nat) : M () :=
  do! ts := eget timers in
  match ts !! i with
  | Some (b, _, _) =>
      run! emodify (λ s, Limits (store s) (task_buckets s) (limit_order s) (delete i (timers s)) (log s)) in
      schedule_bucket_request b
  | None => eret ()
  end.

(** [reset_rate_limits], given the tasks and whether each has a limit *)
Definition bucket_for_task (limited : bool) (s : limits) : limits * option nat :=
  if limited then
    (Limits (store s ++ [[]]) (task_buckets s) (limit_order s) (timers s) (log s), Some (length (store s)))
  else (s, None).

Fixpoint reset_rate_limits (tasks : list (string * bool)) (s : limits) : limits :=
  match tasks with
  | [] => s
  | (n, limited) :: tasks =>
      let '(s, b) := bucket_for_task limited s in
      reset_rate_limits tasks (Limits (store s) (dict_set (task_buckets s) n b) (limit_order s) (timers s) (log s))
  end.

(** The part of [on_close] that empties the buckets of the table *)
Fixpoint clear_buckets (bs : list (option nat)) (s : limits) : limits :=
  match bs with
  | [] => s
  | Some b :: bs => clear_buckets bs (emit (Cleared b) (set_contents b [] s))
  | None :: bs => clear_buckets bs s
  end.
Definition on_close (s : limits) : limits := clear_buckets (dict_values (task_buckets s)) s.

(** ** An abstract queue for each bucket *)

Definition queues : Type := nat → list rid.
Definition upd (qs : queues) (b : nat) (q : list rid) : queues := λ b', if decide (b' = b) then q else qs b'.

(** A request may be moved when it is the first of its queue. *)
Definition spec_step (qs : queues) (e : event) (qs' : queues) : Prop :=
  match e with
  | Added b r => ∀ b', qs' b' = upd qs b (qs b ++ [r]) b'
  | Moved b r => ∃ q, qs b = r :: q ∧ ∀ b', qs' b' = upd qs b q b'
  | Cleared b => ∀ b', qs' b' = upd qs b [] b'
  | QosDecrement => ∀ b', qs' b' = qs b'
  end.

Inductive spec_run : queues → list event → queues → Prop :=
| spec_nil qs qs' : (∀ b, qs b = qs' b) → spec_run qs [] qs'
| spec_snoc qs l qs1 e qs2 : spec_run qs l qs1 → spec_step qs1 e qs2 → spec_run qs (l ++ [e]) qs2.

Definition view (s : limits) : queues := λ b, (contents b s).*1.

(** Buckets of the table and of timers are in the store. *)
Definition addressed (s : limits) : Prop :=
  (∀ n b, (n, Some b) ∈ task_buckets s → b < length (store s)) ∧
  (∀ b h p, (b, h, p) ∈ timers s → b < length (store s)).

Definition refines (s : limits) : Prop := spec_run (λ _, []) (log s) (view s).
Definition good (s : limits) : Prop := addressed s ∧ refines s.

(** No bucket waits without a timer. *)
Definition awake (s : limits) : Prop := ∀ b, contents b s ≠ [] → ∃ h p, (b, h, p) ∈ timers s.
(** the same but for the bucket at hand *)
Definition awake_but (b : nat) (s : limits) : Prop := ∀ b', b' ≠ b → contents b' s ≠ [] → ∃ h p, (b', h, p) ∈ timers s.

Lemma contents_set b q s b' : b < length (store s) → contents b' (set_contents b q s) = if decide (b' = b) then q else contents b' s.
Proof using.
  intros Hb. unfold contents, set_contents. simpl. case_decide as E.
  - subst. by rewrite list_lookup_insert_eq.
  - by rewrite list_lookup_insert_ne.
Qed.

Lemma addressed_set b q s : addressed s → addressed (set_contents b q s).
Proof using. unfold addressed, set_contents. simpl. by rewrite length_insert. Qed.
Lemma addressed_emit e s : addressed s → addressed (emit e s).
Proof using. done. Qed.
Lemma addressed_call_after b h s : b < length (store s) → addressed s → addressed (call_after b h s).
Proof using.
  intros Hb [H1 H2]. split; [done|]. unfold call_after. simpl. intros b' h' p Hin.
  apply elem_of_app in Hin as [?|Hin%list_elem_of_singleton]; [eauto|by simplify_eq].
Qed.

Lemma spec_run_ext l qs qs1 qs2 : spec_run qs l qs1 → (∀ b, qs1 b = qs2 b) → spec_run qs l qs2.
Proof using.
  intros H Heq. destruct H as [qs qs' H|qs l qs1 e qs' Hr Hs].
  - constructor. intros b. by rewrite H, Heq.
  - econstructor; [exact Hr|]. destruct e as [b r|b r|b|]; simpl in *.
    1,3,4: intros b'; by rewrite <-Heq, Hs.
    destruct Hs as (q & Hq & Hs). exists q. split; [done|]. intros b'. by rewrite <-Heq, Hs.
Qed.
Lemma refines_emit s s' e :
  refines s → log s' = log s ++ [e] → spec_step (view s) e (view s') → refines s'.
Proof using. unfold refines. intros H -> Hs. by econstructor. Qed.
Lemma refines_same s s' : refines s → log s' = log s → (∀ b, view s b = view s' b) → refines s'.
Proof using. unfold refines. intros H -> Hs. by eapply spec_run_ext. Qed.

Lemma view_set b q s b' : b < length (store s) → view (set_contents b q s) b' = upd (view s) b q.*1 b'.
Proof using. intros Hb. unfold view, upd. rewrite contents_set by done. by case_decide. Qed.

(** One run of the loop keeps the queues, and the bucket has a timer if something is left. *)
Lemma schedule_loop_spec b q s :
  contents b s = q → b < length (store s) → good s →
  good (schedule_loop b q s).1 ∧
  (awake_but b s → (schedule_loop b q s).2 = Ok () → awake (schedule_loop b q s).1).
Proof using.
  revert s. induction q as [|[r tk] q IH]; intros s Hq Hb [Ha Hr].
  { simpl. split; [done|]. intros Hw _ b' Hb'. apply Hw; [|done]. by intros ->. }
  assert (view s b = r :: q.*1) as Hv by (unfold view; by rewrite Hq).
  cbn [schedule_loop]. unfold ebind, emodify, eget. cbn [log set_contents].
  destruct (can_consume (log s) b tk).
  - unfold limit_move_to_pool, ebind, emodify, eget, elift. set (s2 := emit _ _).
    assert (good s2) as Hg.
    { split; [by apply addressed_emit, addressed_set|]. eapply refines_emit; [exact Hr|done|].
      exists q.*1. split; [done|]. intros b'. apply (view_set b q s b'). done. }
    assert (contents b s2 = q) as Hq2 by (unfold s2, emit, set_contents, contents; cbn [store]; by rewrite list_lookup_insert_eq).
    assert (b < length (store s2)) as Hb2 by (unfold s2, emit; simpl; by rewrite length_insert).
    destruct (on_task_request (log s2) r) as [[]|e|]; [|done..].
    destruct (IH s2 Hq2 Hb2 Hg) as [H1 H2]. split; [done|]. intros Hw. apply H2.
    intros b' Hne. unfold s2, emit, set_contents, contents. cbn [store timers]. rewrite list_lookup_insert_ne by done. by apply Hw.
  - cbn [fst snd]. set (s1 := set_contents b q s). set (s2 := set_contents b _ s1).
    assert (b < length (store s1)) as Hb1 by (unfold s1; simpl; by rewrite length_insert).
    assert (∀ b', contents b' s2 = contents b' s) as Hc.
    { intros b'. unfold s2. rewrite contents_set by done. case_decide as E; [by subst|].
      unfold s1. rewrite contents_set by done. by rewrite decide_False. }
    split.
    + split.
      * apply addressed_call_after; [unfold s2, s1; simpl; by rewrite !length_insert|]. by do 2 apply addressed_set.
      * eapply refines_same; [exact Hr|done|]. intros b'. unfold view. by rewrite <-Hc.
    + intros Hw _ b' Hne. unfold call_after. cbn [timers]. destruct (decide (b' = b)) as [->|Hb'].
      * do 2 eexists. apply elem_of_app. right. by apply list_elem_of_singleton.
      * destruct (Hw b' Hb') as (h & p & Hin); [by rewrite <-Hc|].
        exists h, p. apply elem_of_app. by left.
Qed.

Lemma schedule_spec b s :
  b < length (store s) → good s →
  good (schedule_bucket_request b s).1 ∧
  (awake_but b s → (schedule_bucket_request b s).2 = Ok () → awake (schedule_bucket_request b s).1).
Proof using. intros. by apply schedule_loop_spec. Qed.

Lemma bucket_add_spec b r tk s :
  b < length (store s) → good s →
  ∃ s', bucket_add b r tk s = (s', Ok ()) ∧ good s' ∧ length (store s') = length (store s) ∧ (awake s → awake_but b s').
Proof using.
  intros Hb [Ha Hr]. unfold bucket_add, ebind, emodify, eget. eexists. split; [reflexivity|]. split_and!.
  - split; [by apply addressed_set, addressed_emit|]. eapply refines_emit; [exact Hr|done|].
    intros b'. rewrite view_set by done. unfold upd. case_decide; [|done].
    unfold view, contents, emit. simpl. by rewrite fmap_app.
  - simpl. by rewrite length_insert.
  - intros Hw b' Hne. rewrite contents_set by done. rewrite decide_False by done. apply Hw.
Qed.

Lemma reset_spec tasks s :
  good s → good (reset_rate_limits tasks s) ∧ (awake s → awake (reset_rate_limits tasks s)).
Proof using.
  revert s. induction tasks as [|[n limited] tasks IH]; intros s [[Ha1 Ha2] Hr]; [done|].
  cbn [reset_rate_limits]. unfold bucket_for_task. destruct limited.
  - set (s1 := Limits _ _ _ _ _).
    assert (∀ b, contents b s1 = contents b s) as Hc.
    { intros b. unfold contents, s1. cbn [store]. destruct (decide (b < length (store s))).
      - by rewrite lookup_app_l.
      - rewrite lookup_app_r by lia. rewrite (lookup_ge_None_2 (store s) b) by lia.
        by destruct (b - length (store s)) as [|[]]. }
    destruct (IH s1) as [H1 H2].
    + split; [|by eapply refines_same; [exact Hr|done|]; intros b; unfold view; rewrite Hc].
      unfold s1. split; cbn [store timers task_buckets]; rewrite length_app; simpl.
      * intros n' b' Hin. apply dict_set_elem in Hin as [[_ [= ->]]|Hin]; [lia|]. specialize (Ha1 _ _ Hin). lia.
      * intros b' h p Hin. specialize (Ha2 _ _ _ Hin). lia.
    + split; [done|]. intros Hw. apply H2. intros b. rewrite Hc. apply Hw.
  - refine (IH (Limits _ (dict_set (task_buckets s) n None) _ (timers s) _) _).
    split; [|done]. split; [|done]. cbn [store timers task_buckets].
    intros n' b' Hin. apply dict_set_elem in Hin as [[_ [=]]|Hin]. eauto.
Qed.

Lemma clear_spec bs s :
  (∀ b, Some b ∈ bs → b < length (store s)) → good s →
  good (clear_buckets bs s) ∧ (awake s → awake (clear_buckets bs s)) ∧
  (∀ b, contents b (clear_buckets bs s) = if bool_decide (Some b ∈ bs) then [] else contents b s).
Proof using.
  revert s. induction bs as [|[b|] bs IH]; intros s Hbs Hg; [done| |].
  - assert (b < length (store s)) as Hb by (apply Hbs; set_solver).
    cbn [clear_buckets]. set (s1 := emit _ _).
    assert (∀ b', contents b' s1 = if decide (b' = b) then [] else contents b' s) as Hc by (intros; by apply contents_set).
    destruct (IH s1) as (H1 & H2 & H3).
    + intros b' Hb'. unfold s1. simpl. rewrite length_insert. apply Hbs. set_solver.
    + destruct Hg as [Ha Hr]. split; [by apply addressed_emit, addressed_set|].
      eapply refines_emit; [exact Hr|done|]. intros b'. by apply (view_set b [] s).
    + split_and!; [done| |].
      * intros Hw. apply H2. intros b'. rewrite Hc. case_decide; [done|]. apply Hw.
      * intros b'. rewrite H3, Hc. repeat case_bool_decide; repeat case_decide; subst; set_solver.
  - cbn [clear_buckets]. destruct (IH s) as (H1 & H2 & H3); [|done|].
    { intros b Hb. apply Hbs. set_solver. }
    split_and!; [done..|]. intros b. rewrite H3. repeat case_bool_decide; set_solver.
Qed.

(** ** All operations, in any order *)

(** A task is limited if the table has a bucket for its name.  A request with an eta
    was given its bucket when it came, which may have been replaced since. *)
Inductive op :=
| OLimit (r : rid) (n : string)
| OPostEta (r : rid) (b : nat)
| OFire (i : nat)
| OReset (tasks : list (string * bool))
| OClose.

Definition run_op (o : op) : M () :=
  match o with
  | OLimit r n =>
      do! bs := eget task_buckets in
      match dict_get bs n with Some (Some b) => limit_task r b 1 | _ => eret () end
  | OPostEta r b => limit_post_eta r b 1
  | OFire i => fire i
  | OReset tasks => emodify (reset_rate_limits tasks)
  | OClose => emodify on_close
  end.

Definition op_ok (s : limits) (o : op) : Prop := match o with OPostEta _ b => b < length (store s) | _ => True end.

Lemma on_close_spec s :
  good s →
  good (on_close s) ∧ (awake s → awake (on_close s)) ∧ (∀ n b, (n, Some b) ∈ task_buckets s → contents b (on_close s) = []).
Proof using.
  intros Hg. destruct (clear_spec (dict_values (task_buckets s)) s) as (H1 & H2 & H3); [|done|].
  - intros b Hb. destruct Hg as [[Ha _] _]. apply list_elem_of_fmap in Hb as ([n o] & Ho & Hin). simpl in Ho. subst o. eauto.
  - split_and!; [done..|]. intros n b Hin. unfold on_close. rewrite H3, bool_decide_true; [done|].
    apply list_elem_of_fmap. by exists (n, Some b).
Qed.

Lemma limit_spec b r tk s :
  b < length (store s) → good s →
  good (limit_task r b tk s).1 ∧ (awake s → (limit_task r b tk s).2 = Ok () → awake (limit_task r b tk s).1).
Proof using.
  intros Hb Hg. unfold limit_task. destruct (bucket_add_spec b r tk s Hb Hg) as (s1 & E & Hg1 & Hl & Hw).
  unfold ebind. rewrite E. destruct (schedule_spec b s1) as [H1 H2]; [by rewrite Hl|done|]. split; [done|]. auto.
Qed.

Lemma run_op_spec o s :
  op_ok s o → good s → good (run_op o s).1 ∧ (awake s → (run_op o s).2 = Ok () → awake (run_op o s).1).
Proof using.
  intros Ho Hg. destruct o as [r n|r b|i|tasks|]; cbn [run_op].
  - unfold ebind, eget. destruct (dict_get (task_buckets s) n) as [[b|]|] eqn:E; [|done..].
    apply limit_spec; [|done]. destruct Hg as [[Ha _] _]. eapply Ha, dict_get_Some_elem, E.
  - apply (limit_spec b r 1 (emit QosDecrement s)); [done|]. destruct Hg as [Ha Hr].
    split; [done|]. by eapply refines_emit; [exact Hr|done|].
  - unfold fire, ebind, eget, emodify. destruct (timers s !! i) as [[[b h] p]|] eqn:E; [|done].
    set (s1 := Limits _ _ _ _ _). destruct Hg as [[Ha1 Ha2] Hr].
    assert (b < length (store s)) by (eapply Ha2, list_elem_of_lookup_2, E).
    destruct (schedule_spec b s1) as [H1 H2]; [done| |].
    + split; [|done]. split; [done|]. intros b' h' p' Hin. eapply Ha2. by eapply elem_of_delete, Hin.
    + split; [done|]. intros Hw. apply H2. intros b' Hne Hc. destruct (Hw b' Hc) as (h' & p' & Hin).
      exists h', p'. unfold s1. cbn [timers]. by eapply elem_of_delete_ne; [exact E|congruence|].
  - destruct (reset_spec tasks s Hg) as [H1 H2]. auto.
  - destruct (on_close_spec s Hg) as (H1 & H2 & _). auto.
Qed.

Definition step (s s' : limits) : Prop := ∃ o, op_ok s o ∧ (run_op o s).1 = s'.
(** the same when nothing raises *)
Definition step_ok (s s' : limits) : Prop := ∃ o, op_ok s o ∧ run_op o s = (s', Ok ()).

(** A worker that has just read its limits *)
Definition initial (s : limits) : Prop := log s = [] ∧ timers s = [] ∧ addressed s ∧ ∀ b, contents b s = [].

Lemma initial_good s : initial s → good s ∧ awake s.
Proof using.
  intros (Hl & Ht & Ha & Hc). split; [split; [done|]|].
  - unfold refines. rewrite Hl. constructor. intros b. unfold view. by rewrite Hc.
  - intros b. by rewrite Hc.
Qed.

(** C34: Limited requests are first in, first out.  Whatever the order of messages, etas,
    timers, changes of the limits and lost connections, and whether or not the pool
    raises, what happened to each bucket is a run of a queue: a request is given to the
    pool only when it is the oldest one waiting in its bucket, so once at most, and what
    waits is what was added and neither given to the pool nor cleared. *)
Theorem limits_refine_queues s0 s :
  initial s0 → rtc step s0 s → spec_run (λ _, []) (log s) (view s).
Proof using.
  intros [Hg _]%initial_good Hs. enough (good s) as [_ H] by exact H.
  induction Hs as [|s1 s2 s3 (o & Ho & <-) _ IH]; [done|]. apply IH. by apply run_op_spec.
Qed.

Lemma step_ok_awake s0 s : good s0 → awake s0 → rtc step_ok s0 s → good s ∧ awake s.
Proof using.
  intros Hg Hw Hs. induction Hs as [|s1 s2 s3 (o & Ho & E) _ IH]; [done|].
  destruct (run_op_spec o s1 Ho Hg) as [H1 H2]. rewrite E in H1, H2. apply IH; [done|]. by apply H2.
Qed.

(** Firing a timer with tokens at hand *)
Lemma schedule_all b q s :
  (∀ l b t, can_consume l b t = true) → (∀ l r, on_task_request l r = Ok ()) →
  contents b s = q → b < length (store s) →
  ∃ s', schedule_loop b q s = (s', Ok ()) ∧ contents b s' = [] ∧ (∀ b', b' ≠ b → contents b' s' = contents b' s) ∧
        timers s' = timers s ∧ length (store s') = length (store s).
Proof using.
  intros Hcan Hreq. revert s. induction q as [|[r tk] q IH]; intros s Hq Hb; [by exists s|].
  cbn [schedule_loop]. unfold limit_move_to_pool, ebind, emodify, eget, elift. rewrite Hcan, Hreq.
  destruct (IH (emit (Moved b r) (set_contents b q s))) as (s' & E & H1 & H2 & H3 & H4).
  - unfold contents, emit, set_contents. cbn [store]. by rewrite list_lookup_insert_eq.
  - simpl. by rewrite length_insert.
  - exists s'. split; [exact E|]. split_and!; [done| |done|by rewrite H4; simpl; rewrite length_insert].
    intros b' Hne. rewrite H2 by done. unfold contents, emit, set_contents. cbn [store]. by rewrite list_lookup_insert_ne.
Qed.

Definition fire_all : nat → M () := fix go n := match n with O => eret () | S n => run! fire 0 in go n end.

Lemma fire_all_drains s :
  (∀ l b t, can_consume l b t = true) → (∀ l r, on_task_request l r = Ok ()) →
  (∀ b h p, (b, h, p) ∈ timers s → b < length (store s)) → awake s →
  ∃ s', fire_all (length (timers s)) s = (s', Ok ()) ∧ timers s' = [] ∧ ∀ b, contents b s' = [].
Proof using.
  intros Hcan Hreq. remember (length (timers s)) as n eqn:Hn. revert s Hn. induction n as [|n IH]; intros s Hn Ha Hw.
  - exists s. split; [done|]. symmetry in Hn. apply nil_length_inv in Hn. split; [done|]. intros b.
    destruct (contents b s) as [|x q] eqn:E; [done|]. destruct (Hw b) as (h & p & Hin); [by rewrite E|].
    rewrite Hn in Hin. set_solver.
  - destruct (timers s) as [|[[b h] p] ts] eqn:Et; [done|]. injection Hn as Hn.
    cbn [fire_all]. unfold fire at 1, schedule_bucket_request, ebind, eget, emodify. rewrite Et. cbn [lookup list_lookup].
    set (s1 := Limits _ _ _ _ _).
    destruct (schedule_all b (contents b s1) s1 Hcan Hreq eq_refl) as (s' & E & H1 & H2 & H3 & H4).
    { unfold s1. simpl. eapply Ha. by left. }
    rewrite E. apply IH.
    + rewrite H3. unfold s1. simpl. by rewrite Et.
    + rewrite H3, H4. unfold s1. simpl. rewrite Et. simpl. intros b' h' p' Hin. eapply Ha. by right.
    + intros b' Hc. destruct (decide (b' = b)) as [->|Hne]; [congruence|].
      rewrite H2 in Hc by done. destruct (Hw b' Hc) as (h' & p' & Hin). rewrite Et in Hin.
      apply elem_of_cons in Hin as [[= ? ? ?]|Hin]; [done|]. exists h', p'. rewrite H3. unfold s1. simpl. by rewrite Et.
Qed.

(** When a connection is lost the buckets are emptied, since what waits in them cannot be
    acknowledged any more; but a bucket replaced since is not in the table. *)
Lemma replaced_bucket_kept s n b q :
  good s → dict_wf (task_buckets s) → dict_get (task_buckets s) n = Some (Some b) → contents b s = q →
  (∀ n', n' ≠ n → dict_get (task_buckets s) n' ≠ Some (Some b)) →
  contents b (on_close (reset_rate_limits [(n, true)] s)) = q.
Proof using.
  intros Hg Hwf Hn Hq Hu. assert (b < length (store s)) as Hb.
  { destruct Hg as [[Ha _] _]. eapply Ha, dict_get_Some_elem, Hn. }
  destruct (reset_spec [(n, true)] s Hg) as [Hg1 _].
  set (s1 := reset_rate_limits [(n, true)] s) in *.
  destruct (clear_spec (dict_values (task_buckets s1)) s1) as (_ & _ & H3); [|done|].
  { intros b' Hb'. destruct Hg1 as [[Ha _] _]. apply list_elem_of_fmap in Hb' as ([n' o] & Ho & Hin).
    simpl in Ho. subst o. eauto. }
  unfold on_close. rewrite H3, bool_decide_false.
  - unfold s1, contents. simpl. rewrite lookup_app_l by done. exact Hq.
  - intros Hin. apply list_elem_of_fmap in Hin as ([n' o] & Ho & Hin). simpl in Ho. subst o.
    unfold s1 in Hin. simpl in Hin. apply dict_set_elem in Hin as Hin'.
    apply dict_elem_get in Hin; [|by apply dict_set_wf]. rewrite dict_get_set in Hin. case_decide.
    + injection Hin as Hin. lia.
    + by apply (Hu n').
Qed.

End RateLimit.

(** A limited request is not forgotten.  As long as the pool takes what it is given,
    every bucket in which requests wait has a timer set that tries again, also a bucket
    that was replaced when limits changed; and if there are tokens from then on, running
    these timers gives every waiting request to the pool. *)
Theorem limited_requests_run {rid} can hold req can' req' (s0 s : @limits rid) :
  initial s0 → rtc (step_ok can hold req) s0 s →
  (∀ l b t, can' l b t = true) → (∀ l r, req' l r = Ok ()) →
  awake s ∧ ∃ s', fire_all can' hold req' (length (timers s)) s = (s', Ok ()) ∧ timers s' = [] ∧ ∀ b, contents b s' = [].
Proof.
  intros [Hg Hw]%initial_good Hs Hcan Hreq. destruct (step_ok_awake can hold req s0 s Hg Hw Hs) as [[[_ Ha] _] Hw'].
  split; [done|]. by apply fire_all_drains.
Qed.

(** ** Examples *)
Module Examples.

(** A bucket with one token for every two events, and a pool that takes everything *)
Definition can (l : list (@event nat)) (b : nat) (t : Z) : bool := bool_decide (Nat.even (length l) = true).
Definition hold (l : list (@event nat)) (b : nat) (t : Z) : Z := 3.
Definition takes (l : list (@event nat)) (r : nat) : outcome () := Ok ().
Definition s0 : @limits nat := reset_rate_limits [("add", true); ("mul", false)]%string (Limits [] [] 0 [] []).

Lemma initial_s0 : initial s0.
Proof.
  split_and!; [done|done| |by intros [|[]]].
  split; [|set_solver]. intros n b Hin. repeat (apply elem_of_cons in Hin as [[= ? ?]|Hin]; [subst; simpl; lia|]). set_solver.
Qed.

(** Two requests come, and a timer fires. *)
Definition after (ops : list (@op nat)) : @limits nat := foldl (λ s o, (run_op can hold takes o s).1) s0 ops.
Definition s3 : @limits nat := after [OLimit 1 "add"; OLimit 2 "add"; OFire 0]%nat%string.

Lemma s3_reached : rtc (step_ok can hold takes) s0 s3.
Proof.
  eapply rtc_l; [exists (OLimit 1%nat "add"%string); split; [done|reflexivity]|].
  eapply rtc_l; [exists (OLimit 2%nat "add"%string); split; [done|reflexivity]|].
  eapply rtc_once. exists (OFire 0). split; [done|reflexivity].
Qed.

Lemma limits_refine_queues_witness : spec_run (λ _, []) (log s3) (view s3).
Proof.
  apply (limits_refine_queues can hold takes s0 s3); [exact initial_s0|].
  eapply rtc_subrel; [|exact s3_reached]. intros s s' (o & Ho & E). exists o. by rewrite E.
Defined.

(** The second request waits, and is given to the pool when there are tokens. *)
Lemma limited_requests_run_witness :
  contents 0 s3 = [(2%nat, 1%Z)] ∧
  awake s3 ∧
  ∃ s', fire_all (λ _ _ _, true) hold takes (length (timers s3)) s3 = (s', Ok ()) ∧ timers s' = [] ∧ ∀ b, contents b s' = [].
Proof.
  split; [reflexivity|].
  apply (limited_requests_run can hold takes (λ _ _ _, true) takes s0 s3); [exact initial_s0|exact s3_reached|done|done].
Defined.

End Examples.
End RateLimit.
