(* ===== verification/Consumer.v ===== *)
(** The consumer of a worker (celery/worker/consumer/consumer.py, tasks.py,
    celery/worker/loops.py): prefetch counts across lost connections, forgetting
    requests that can no longer be acknowledged, answers to messages that no task
    can take, starting again, and the event loops. *)

From S2P Require Import Prelude.
From S2P Require Import PyDict.
From S2P Require Import Effect.
From S2P Require Import LimitedSet.
From S2P Require Import WorkerState.
From S2P Require Import Bootsteps.
From S2P Require Import Messages.

Module Consumer.
Local Open Scope eff_scope.

(** ** Prefetch counts *)
Module Prefetch.
Local Open Scope Z_scope.

Record prefetch := PF {
  initial_prefetch_count : Z; prefetch_multiplier : Z; num_processes : Z;
  qos_value : Z; qos_global : option bool; maximum_prefetch_restored : bool;
  worker_enable_prefetch_count_reduction : bool }.

Definition max_prefetch_count (p : prefetch) : Z := num_processes p * prefetch_multiplier p.
Definition new_prefetch_count (p : prefetch) : Z := qos_value p + prefetch_multiplier p.

Definition set_initial (i : Z) (restored : bool) (p : prefetch) : prefetch :=
  PF i (prefetch_multiplier p) (num_processes p) (qos_value p) (qos_global p) restored
     (worker_enable_prefetch_count_reduction p).
Definition set_value (v : Z) (p : prefetch) : prefetch :=
  PF (initial_prefetch_count p) (prefetch_multiplier p) (num_processes p) v (qos_global p) (maximum_prefetch_restored p)
     (worker_enable_prefetch_count_reduction p).

(** The last part of [on_connection_error_after_connected], with so many active requests *)
Definition reduce (active_count : Z) (p : prefetch) : prefetch :=
  if worker_enable_prefetch_count_reduction p then
    match qos_global p with
    | Some false => set_initial (max_prefetch_count p) true p
    | _ =>
        let i := Z.max (prefetch_multiplier p) (max_prefetch_count p - active_count * prefetch_multiplier p) in
        set_initial i (i =? max_prefetch_count p) p
    end
  else p.

(** [Tasks.start]: the counts are told to the broker *)
Definition tasks_start (global : bool) (p : prefetch) : prefetch :=
  PF (initial_prefetch_count p) (prefetch_multiplier p) (num_processes p) (initial_prefetch_count p) (Some global)
     (maximum_prefetch_restored p) (worker_enable_prefetch_count_reduction p).

(** Whether [on_task_received] asks that the count be restored when the task is
    acknowledged or rejected *)
Definition restores (restart_count : Z) (p : prefetch) : bool :=
  negb (maximum_prefetch_restored p) && (0 <? restart_count) && (new_prefetch_count p <=? max_prefetch_count p).

Definition restore_prefetch_count (p : prefetch) : prefetch :=
  if negb (worker_enable_prefetch_count_reduction p) || maximum_prefetch_restored p then p
  else
    let n := Z.min (max_prefetch_count p) (new_prefetch_count p) in
    set_initial n (n =? max_prefetch_count p) (set_value n p).

(** [_update_prefetch_count], after the pool grew or shrank by [index]; kombu's QoS object
    changes the value. *)
Definition update_prefetch_count (increment decrement : Z → Z → Z) (index : Z) (p : prefetch) : prefetch :=
  if (initial_prefetch_count p =? 0) || (num_processes p =? 0) then p
  else
    let p := set_initial (max_prefetch_count p) (maximum_prefetch_restored p) p in
    let by_ := Z.abs index * prefetch_multiplier p in
    set_value (if index <? 0 then decrement (qos_value p) by_ else increment (qos_value p) by_) p.

Fixpoint restored_times (k : nat) (p : prefetch) : prefetch :=
  match k with O => p | S k => restore_prefetch_count (restored_times k p) end.

(** What a reduced consumer looks like when [j] more processes' worth may be fetched *)
Definition reduced (m n j : Z) (g : option bool) : prefetch := PF (m * j) m n (m * j) g (j =? n) true.

Lemma restore_reduced m n j g :
  1 <= m → 1 <= j <= n → restore_prefetch_count (reduced m n j g) = reduced m n (Z.min n (j + 1)) g.
Proof.
  intros Hm Hj. unfold restore_prefetch_count, reduced. simpl.
  destruct (j =? n) eqn:E; zbool; simpl.
  - subst. replace (Z.min n (n + 1)) with n by lia. by rewrite Z.eqb_refl.
  - unfold set_initial, set_value, max_prefetch_count, new_prefetch_count. simpl.
    replace (Z.min (n * m) (m * j + m)) with (m * Z.min n (j + 1)) by nia. f_equal.
    destruct (Z.min n (j + 1) =? n) eqn:E1; zbool; [|nia]. rewrite E1. apply Z.eqb_eq. nia.
Qed.

Lemma reduce_reduced p a :
  1 <= prefetch_multiplier p → 1 <= num_processes p → 0 <= a →
  worker_enable_prefetch_count_reduction p = true → qos_global p ≠ Some false →
  ∀ g, tasks_start g (reduce a p) =
    reduced (prefetch_multiplier p) (num_processes p) (Z.max 1 (num_processes p - a)) (Some g).
Proof.
  intros Hm Hn Ha He Hg g. unfold reduce. rewrite He. destruct p as [i m n v q r e]. simpl in *. subst e.
  replace (match q with Some false => _ | _ => _ end)
    with (set_initial (Z.max m (n * m - a * m)) (Z.max m (n * m - a * m) =? n * m) (PF i m n v q r true)) by
    (by destruct q as [[]|]).
  unfold tasks_start, set_initial, reduced. simpl.
  replace (Z.max m (n * m - a * m)) with (m * Z.max 1 (n - a)) by nia. f_equal.
  destruct (Z.max 1 (n - a) =? n) eqn:E; zbool; [rewrite E; apply Z.eqb_eq; nia|nia].
Qed.

Lemma restored_reduced k m n j g :
  1 <= m → 1 <= j <= n → restored_times k (reduced m n j g) = reduced m n (Z.min n (j + Z.of_nat k)) g.
Proof.
  intros Hm Hj. induction k as [|k IH]; [cbn; f_equal; lia|].
  cbn [restored_times]. rewrite IH, restore_reduced by lia. f_equal. lia.
Qed.

(** The prefetch count after a lost connection.  With [a] tasks still running, a pool
    of [n] processes and a multiplier [m], the worker that connects again asks the broker
    for [m] messages for each idle process, but at least [m].  Each task that is done gives
    [m] back, and after [min a (n - 1)] of them, and no sooner, the count is back at its
    maximum [n * m], which it never exceeds; as long as it is not, a message that comes in
    asks for the next step. *)
Theorem prefetch_restored p a k g rc :
  1 <= prefetch_multiplier p → 1 <= num_processes p → 0 <= a → 0 < rc →
  worker_enable_prefetch_count_reduction p = true → qos_global p ≠ Some false →
  let m := prefetch_multiplier p in let n := num_processes p in
  let p' := restored_times k (tasks_start g (reduce a p)) in
  qos_value p' = m * Z.min n (Z.max 1 (n - a) + Z.of_nat k) ∧
  m <= qos_value p' <= max_prefetch_count p ∧
  maximum_prefetch_restored p' = (Z.min a (n - 1) <=? Z.of_nat k) ∧
  restores rc p' = negb (maximum_prefetch_restored p').
Proof.
  intros Hm Hn Ha Hrc He Hg m n p'. unfold p'. rewrite reduce_reduced, restored_reduced by (done || lia).
  fold m n. set (j := Z.min n (Z.max 1 (n - a) + Z.of_nat k)).
  assert (1 <= j <= n) as Hj by (unfold j, n; lia). cbn. unfold max_prefetch_count. fold m n. split_and!; [done|nia|nia| |].
  - destruct (Z.min a (n - 1) <=? Z.of_nat k) eqn:E; zbool; [apply Z.eqb_eq|apply Z.eqb_neq]; unfold j; lia.
  - unfold restores. cbn. destruct (j =? n) eqn:E; zbool; cbn; [done|].
    rewrite (proj2 (Z.ltb_lt 0 rc)) by done. cbn. apply Z.leb_le. unfold new_prefetch_count, max_prefetch_count. cbn. fold m n. nia.
Qed.

(** With a count for each consumer the broker does not hear of changes, so there is no
    reduction, and an earlier one is undone. *)
Lemma per_consumer_not_reduced p a :
  worker_enable_prefetch_count_reduction p = true → qos_global p = Some false →
  initial_prefetch_count (reduce a p) = max_prefetch_count p ∧ maximum_prefetch_restored (reduce a p) = true.
Proof. intros He Hg. unfold reduce. by rewrite He, Hg. Qed.

End Prefetch.

(** ** Closing: requests that can no longer be acknowledged *)
Module Closing.
Section Closing.
Import LimitedSet WorkerState.
Context {K : Type} `{!EqDecision K} {rid : Type} `{!EqDecision rid, !Countable rid}.
Context (req_id : rid → K).
Implicit Types (w : @worker_state K rid _ _).

Definition pop_unless (keep : gset rid) (d : pydict K rid) (l : list rid) : pydict K rid :=
  foldl (λ d r, if bool_decide (r ∈ keep) then d else dict_del d (req_id r)) d l.

(** The registries after [Consumer.on_close].  The sets are iterated in some order. *)
Definition on_close w : worker_state :=
  let d := pop_unless (active_requests w) (requests w) (elements (reserved_requests w)) in
  let reserved := active_requests w in
  let d := pop_unless (active_requests w ∪ reserved) d (elements (scheduled_requests w)) in
  with_sets w d reserved (active_requests w) ∅.

(** the timer entries it cancels: those of the requests with an eta *)
Definition cancelled (eta_timer_entry : rid → option nat) w : list nat := omap eta_timer_entry (elements (scheduled_requests w)).

Lemma pop_unless_spec (Hid : ∀ r r', req_id r = req_id r' → r = r') keep l (s : gset rid) d :
  dict_wf d → (∀ k x, dict_get d k = Some x ↔ x ∈ s ∧ k = req_id x) →
  dict_wf (pop_unless keep d l) ∧
  ∀ k x, dict_get (pop_unless keep d l) k = Some x ↔ (x ∈ s ∧ (x ∈ l → x ∈ keep)) ∧ k = req_id x.
Proof using.
  revert s d. induction l as [|r l IH]; intros s d Hwf Hd; cbn [pop_unless foldl].
  { split; [done|]. intros k x. rewrite Hd. set_solver. }
  case_bool_decide as Hr.
  - destruct (IH s d Hwf Hd) as [H1 H2]. split; [done|]. intros k x. rewrite H2. set_solver.
  - destruct (IH (s ∖ {[r]}) (dict_del d (req_id r))) as [H1 H2].
    + by apply dict_del_wf.
    + eapply (unregister_known req_id (λ _, EmptyString) Hid); [done|exact Hd|done].
    + split; [done|]. intros k x. rewrite H2. destruct (decide (x = r)) as [->|Hne]; set_solver.
Qed.

(** What a lost connection leaves.  The worker forgets every request that is not
    running: the dictionary of requests holds exactly the active ones, which are also the
    reserved ones, none is scheduled, and the registries are consistent again; what was
    revoked and counted stays. *)
Theorem close_keeps_active w :
  (∀ r r', req_id r = req_id r' → r = r') → registry_inv req_id w →
  registry_inv req_id (on_close w) ∧
  (∀ k r, dict_get (requests (on_close w)) k = Some r ↔ r ∈ active_requests w ∧ k = req_id r) ∧
  reserved_requests (on_close w) = active_requests w ∧ scheduled_requests (on_close w) = ∅ ∧
  revoked (on_close w) = revoked w ∧ total_count (on_close w) = total_count w.
Proof using.
  intros Hid [Hwf Hk Hs Ht]. unfold on_close.
  destruct (pop_unless_spec Hid (active_requests w) (elements (reserved_requests w)) (known w) _ Hwf Hk) as [H1 H2].
  set (s1 := filter (λ x, x ∈ reserved_requests w → x ∈ active_requests w) (known w)).
  destruct (pop_unless_spec Hid (active_requests w ∪ active_requests w) (elements (scheduled_requests w)) s1 _ H1) as [H3 H4].
  { intros k x. rewrite H2. unfold s1. rewrite elem_of_filter, elem_of_elements. tauto. }
  assert (∀ k r, dict_get (requests (on_close w)) k = Some r ↔ r ∈ active_requests w ∧ k = req_id r) as Hfin.
  { intros k r. unfold on_close. simpl. rewrite H4. unfold s1, known. rewrite elem_of_filter, elem_of_elements.
    split; [|set_solver]. intros [[[Hr Hin] Hsch] ->]. split; [|done].
    apply elem_of_union in Hin as [Hin|Hin]; [|set_solver]. apply elem_of_union in Hin as [Hin|Hin]; auto. }
  split_and!; [|exact Hfin|done..]. split; simpl; [exact H3| |set_solver|done].
  intros k r. rewrite (Hfin k r). unfold known. simpl. set_solver.
Qed.

(** [cancel_active_requests]: the requests that a shutdown cancels, and whether it says
    that they will be retried *)
Context (acks_late acknowledged : rid → bool).
Definition should_cancel w (r : rid) : bool :=
  if negb (acks_late r) then true
  else if negb (acknowledged r) then (if ls_contains (successful_requests w) (req_id r) then false else true)
  else false.
Definition cancel_active_requests w : list (rid * bool) :=
  (λ r, (r, negb (acks_late r))) <$> filter (λ r, should_cancel w r = true) (elements (active_requests w)).

(** What a shutdown cancels.  Of the running tasks it cancels those that were
    acknowledged early, and of the late ones those that are neither acknowledged nor
    known to have succeeded; only the early ones are announced as retries. *)
Theorem cancels_unfinished w r b :
  (r, b) ∈ cancel_active_requests w ↔
  r ∈ active_requests w ∧ b = negb (acks_late r) ∧
  (acks_late r = false ∨ (acknowledged r = false ∧ ls_contains (successful_requests w) (req_id r) = false)).
Proof using.
  unfold cancel_active_requests. rewrite list_elem_of_fmap. split.
  - intros (r' & [= -> ->] & Hin). apply list_elem_of_filter in Hin as [Hc Hin%elem_of_elements]. split_and!; [done..|].
    revert Hc. unfold should_cancel. destruct (acks_late r'), (acknowledged r'), (ls_contains _ _); naive_solver.
  - intros (Hin & -> & Hc). exists r. split; [done|]. apply list_elem_of_filter. rewrite elem_of_elements. split; [|done].
    unfold should_cancel. destruct (acks_late r), (acknowledged r), (ls_contains _ _); naive_solver.
Qed.

End Closing.
End Closing.

(** ** Answers to messages *)
Module Answers.
Import Messages.

Section Answers.
Context {A D : Type} (W : world A D).
Local Open Scope string_scope.

(** Calls on the message, the backend, the event dispatcher and signals, and the
    strategy's request *)
Inductive call_ :=
| Ack
| Reject
| MarkAsFailure (id name : hval A)
| SendEvent
| Signal (name : string)
| Handle (r : request (A := A) (D := D)).

(** Every call may raise; [fault] sees the calls so far. *)
Context (fault : list call_ → call_ → outcome ()).
Abbreviation M := (eff (list call_)).

Definition call (c : call_) : M () := λ l, ((l ++ [c])%list, fault l c).

Definition on_unknown_message : M () := run! call Reject in call (Signal "task_rejected").
Definition on_invalid_task : M () := run! call Reject in call (Signal "task_rejected").
Definition on_decode_error : M () := call Ack.

(** [obj[key]] of a decoded body: protocol 2 bodies are lists *)
Definition body_item (b : body A) (k : string) : outcome (hval A) :=
  match b with
  | Body1 d => of_option KeyError (dict_get d k)
  | Body2 _ _ _ => Raise TypeError
  end.

(** the id and the name in the headers, or else in the body *)
Definition unknown_id_name (m : message A) : outcome (hval A * hval A) :=
  match dict_get (m_headers m) "id", dict_get (m_headers m) "task" with
  | Some i, Some n => Ok (i, n)
  | _, _ => let! i := body_item (m_body m) "id" in let! n := body_item (m_body m) "task" in Ok (i, n)
  end.

Definition on_unknown_task (dispatcher : bool) (m : message A) : M () :=
  do! (i, n) := elift (unknown_id_name m) in
  run! call Reject in
  run! call (MarkAsFailure i n) in
  run! ewhen dispatcher (call SendEvent) in
  call (Signal "task_unknown").

(** How decoding the body of a message ends; [DecodeError] stands for any failure of
    [message.decode] *)
Inductive decoding := Decodes | NotDecodable | NotAllowed.

(** The whole of [on_task_received].  The strategy decodes what was not yet decoded. *)
Definition on_message (strategies : hval A → option bool) (dispatcher : bool) (dec : decoding) (m : message A) : M () :=
  let received :=
    match on_task_received W strategies m with
    | Ok UnknownMessage => on_unknown_message
    | Ok UnknownTask => on_unknown_task dispatcher m
    | Ok InvalidTask => on_invalid_task
    | Ok (Accepted r) => call (Handle r)
    | Raise e => eraise e
    | Diverge => λ l, (l, Diverge)
    end in
  match dec, dict_get (m_headers m) "task" with
  | Decodes, _ => received
  | _, None => on_decode_error
  | d, Some ty =>
      match strategies ty with
      | None => (* headers only, unless they have no id *)
          match dict_get (m_headers m) "id" with
          | Some i => on_unknown_task dispatcher m
          | None => eraise OtherExc
          end
      | Some _ => match d with NotAllowed => on_invalid_task | _ => on_decode_error end
      end
  end.

Definition settles (c : call_) : bool := match c with Ack | Reject | Handle _ => true | _ => false end.
Definition settlements (l : list call_) : list call_ := filter (λ c, settles c = true) l.

(** The calls a program adds: one that settles the message, first, and others. *)
Definition answered (c : M ()) : Prop :=
  ∀ l, ∃ first rest, settles first = true ∧ settlements rest = [] ∧ (c l).1 = (l ++ first :: rest)%list.

Lemma answered_call c : settles c = true → answered (call c).
Proof using. intros Hc l. by exists c, []. Qed.

Lemma answered_bind (c d : M ()) :
  answered c → (∀ l, ∃ rest, settlements rest = [] ∧ (d l).1 = (l ++ rest)%list) → answered (run! c in d).
Proof using.
  intros Hc Hd l. destruct (Hc l) as (f & rest & Hf & Hr & E). unfold ebind.
  destruct (c l) as [l' r] eqn:Ec. simpl in E. subst l'. destruct r; [|by exists f, rest..].
  destruct (Hd (l ++ f :: rest)%list) as (rest' & Hr' & ->). exists f, (rest ++ rest')%list. split_and!; [done| |].
  - unfold settlements in *. by rewrite filter_app, Hr, Hr'.
  - by rewrite <-app_assoc.
Qed.

Lemma adds_call c : settles c = false → ∀ l, ∃ rest, settlements rest = [] ∧ (call c l).1 = (l ++ rest)%list.
Proof using.
  intros Hc l. exists [c]. split; [|done]. unfold settlements. rewrite filter_cons_False; [done|by rewrite Hc].
Qed.
Lemma adds_bind (c d : M ()) :
  (∀ l, ∃ rest, settlements rest = [] ∧ (c l).1 = (l ++ rest)%list) →
  (∀ l, ∃ rest, settlements rest = [] ∧ (d l).1 = (l ++ rest)%list) →
  ∀ l, ∃ rest, settlements rest = [] ∧ ((run! c in d) l).1 = (l ++ rest)%list.
Proof using.
  intros Hc Hd l. unfold ebind. destruct (Hc l) as (r1 & H1 & E1). destruct (c l) as [l' [u|e|]]; simpl in E1; subst l'; [|eauto..].
  destruct (Hd (l ++ r1)%list) as (r2 & H2 & ->). exists (r1 ++ r2)%list. split; [|by rewrite app_assoc].
  unfold settlements in *. by rewrite filter_app, H1, H2.
Qed.

Lemma answered_rejected (n : string) : answered (run! call Reject in call (Signal n)).
Proof using. apply answered_bind; [by apply answered_call|by apply adds_call]. Qed.

Lemma answered_unknown_task dispatcher m : is_Ok (unknown_id_name m) → answered (on_unknown_task dispatcher m).
Proof using.
  intros [[i n] E] l. unfold on_unknown_task, elift. unfold ebind at 1. rewrite E. revert l.
  apply answered_bind; [by apply answered_call|].
  apply adds_bind; [by apply adds_call|]. apply adds_bind; [|by apply adds_call].
  destruct dispatcher; [by apply adds_call|]. intros l. exists []. by rewrite app_nil_r.
Qed.

(** A message of protocol 2, or a decoded one of protocol 1, that has an id.  Headers with
    an id are those of protocol 2. *)
Definition has_id (m : message A) : Prop := is_Ok (unknown_id_name m).

(** Every message is answered.  For a message that has an id and whose dates can be
    read, the consumer first either acknowledges it, rejects it, or hands it to the
    strategy as a request, and does not settle it again, whatever is raised on the way. *)
Theorem every_message_answered strategies dispatcher dec m :
  (dec ≠ Decodes → dict_get (m_headers m) "task" ≠ None → dict_get (m_headers m) "id" ≠ None) →
  has_id m → is_Ok (on_task_received W strategies m) →
  answered (on_message strategies dispatcher dec m).
Proof using.
  intros Hdec Hid [v Hv]. unfold on_message. rewrite Hv.
  assert (answered (match v with
    | UnknownMessage => on_unknown_message | UnknownTask => on_unknown_task dispatcher m
    | InvalidTask => on_invalid_task | Accepted r => call (Handle r) end)) as H.
  { destruct v; [apply answered_rejected|by apply answered_unknown_task|apply answered_rejected|by apply answered_call]. }
  destruct dec; [exact H| |].
  all: destruct (dict_get (m_headers m) "task") as [ty|]; [|by apply answered_call].
  all: destruct (strategies ty); [first [apply answered_rejected | by apply answered_call]|].
  all: destruct (dict_get (m_headers m) "id") as [i|] eqn:E; [by apply answered_unknown_task|].
  all: by destruct Hdec.
Qed.

(** A message for a task that is not known, without an id, is neither acknowledged nor
    rejected, and the error is not one of those the consumer takes care of. *)
Lemma unknown_without_id strategies dispatcher m d ty l :
  dict_get (m_headers m) "task" = None → m_body m = Body1 d → dict_get d "task" = Some ty → strategies ty = None →
  dict_get (m_headers m) "id" = None → dict_get d "id" = None →
  on_message strategies dispatcher Decodes m l = (l, Raise KeyError).
Proof using.
  intros H1 H2 H3 H4 H5 H6. unfold on_message, on_task_received, on_unknown_task, unknown_id_name, elift, ebind.
  rewrite H1, H2, H3, H4. rewrite H5. unfold body_item. by rewrite H6.
Qed.

End Answers.
End Answers.

(** ** Starting, and starting again *)
Module Start.
Import Lifecycle.

Inductive event :=
| Sleep                     (* restarts are too frequent *)
| BlueprintStart
| ErrorBeforeConnected
| ErrorAfterConnected
| OnClose
| BlueprintRestart.

(** The settings *)
Record settings := Settings {
  broker_channel_error_retry : bool; broker_connection_retry : bool; broker_connection_retry_on_startup : option bool }.

Record cstate := CS {
  restart_count : Z; first_connection_attempt : bool; connection : bool; bp_state : bstate; log : list event }.

(** What happens when the blueprint is started: how it ends, the state of the blueprint
    then, whether there is a connection, and whether one was made on the way *)
Record attempt := Attempt { a_result : outcome (); a_state : bstate; a_connection : bool; a_connected : bool }.

(** [_get_connection_retry_type], with the value of that setting *)
Definition connection_retry (c : settings) (on_startup : bool) : bool :=
  match on_startup, broker_connection_retry_on_startup c with
  | true, Some b => b
  | _, _ => broker_connection_retry c
  end.

(** The decision of [ensure_connected] *)
Definition retry_disabled (c : settings) (first : bool) : bool :=
  match broker_connection_retry_on_startup c with
  | None => negb (broker_connection_retry c)
  | Some b => if first then negb b else negb (broker_connection_retry c)
  end.

Section Start.
Context (conf : settings) (connection_error channel_error emfile : exn → bool).
(** by the number of the attempt *)
Context (attempts : nat → attempt) (too_frequent : nat → bool) (maybe_shutdown : nat → outcome ()).
Abbreviation M := (eff cstate).

Definition recoverable (e : exn) : bool := connection_error e || (broker_channel_error_retry conf && channel_error e).
Definition stopping (b : bstate) : bool := match b with CLOSE | TERMINATE => true | _ => false end.

Definition emit (e : event) (s : cstate) : cstate :=
  CS (restart_count s) (first_connection_attempt s) (connection s) (bp_state s) (log s ++ [e]).
Definition count_restart (s : cstate) : cstate :=
  CS (restart_count s + 1) (first_connection_attempt s) (connection s) (bp_state s) (log s).
Definition not_first (s : cstate) : cstate := CS (restart_count s) false (connection s) (bp_state s) (log s).
Definition after_attempt (a : attempt) (s : cstate) : cstate :=
  CS (restart_count s) (first_connection_attempt s && negb (a_connected a)) (a_connection a) (a_state a) (log s ++ [BlueprintStart]).
Definition set_connection (b : bool) (s : cstate) : cstate :=
  CS (restart_count s) (first_connection_attempt s) b (bp_state s) (log s).

(** number of the attempt that is about to start, or running *)
Definition number (s : cstate) : nat := Z.to_nat (restart_count s).

Definition blueprint_start : M () := λ s,
  let a := attempts (number s) in (after_attempt a s, a_result a).

(** [Consumer.start]'s handler of recoverable errors *)
Definition on_error (e : exn) : M () :=
  do! first := eget first_connection_attempt in
  run! emodify not_first in
  if negb (connection_retry conf first) then eraise WorkerShutdown
  else if emfile e then eraise WorkerTerminate
  else
    do! n := eget number in
    run! elift (maybe_shutdown n) in
    do! b := eget bp_state in
    if stopping b then eret ()
    else
      do! c := eget connection in
      run! (if c then run! emodify (emit ErrorAfterConnected) in emodify (set_connection false)
            else emodify (emit ErrorBeforeConnected)) in
      run! emodify (emit OnClose) in
      emodify (emit BlueprintRestart).

Fixpoint start (fuel : nat) : M () :=
  match fuel with
  | O => λ s, (s, Diverge)
  | S fuel =>
      do! b := eget bp_state in
      if stopping b then eret ()
      else
        do! rc := eget restart_count in
        run! elift (maybe_shutdown (Z.to_nat (rc + 1))) in
        run! ewhen (negb (rc =? 0)%Z && too_frequent (Z.to_nat (rc + 1))) (emodify (emit Sleep)) in
        run! emodify count_restart in
        run! ecatch blueprint_start (λ e, if recoverable e then on_error e else eraise e) in
        start fuel
  end.

(** ** What it does *)

(** The events of an attempt that failed and is repeated *)
Definition pause (i : nat) : list event := if bool_decide (i ≠ 1%nat) && too_frequent i then [Sleep] else [].
Definition cycle (i : nat) : list event :=
  pause i ++
  [BlueprintStart; if a_connection (attempts i) then ErrorAfterConnected else ErrorBeforeConnected; OnClose; BlueprintRestart].

(** Attempt [i] fails in a way that the worker recovers from. *)
Definition fails (i : nat) (first : bool) : Prop :=
  ∃ e, a_result (attempts i) = Raise e ∧ recoverable e = true ∧ emfile e = false ∧
       stopping (a_state (attempts i)) = false ∧
       connection_retry conf (first && negb (a_connected (attempts i))) = true.

Context (no_shutdown : ∀ i, maybe_shutdown i = Ok ()).

Definition at_ (n : nat) (first : bool) (s : cstate) : Prop :=
  restart_count s = (Z.of_nat n - 1)%Z ∧ first_connection_attempt s = first ∧ stopping (bp_state s) = false.

(** What is done before the blueprint is started *)
Lemma begin_attempt n first fuel s :
  at_ n first s →
  ∃ s1, number s1 = n ∧ restart_count s1 = Z.of_nat n ∧ first_connection_attempt s1 = first ∧ log s1 = log s ++ pause n ∧
    start (S fuel) s = (run! ecatch blueprint_start (λ e, if recoverable e then on_error e else eraise e) in start fuel) s1.
Proof using no_shutdown.
  intros (Hrc & Hf & Hst). unfold pause.
  assert (negb (restart_count s =? 0)%Z = bool_decide (n ≠ 1%nat)) as E.
  { destruct (restart_count s =? 0)%Z eqn:E; zbool; cbn; symmetry;
      [apply bool_decide_eq_false|apply bool_decide_eq_true]; lia. }
  cbn [start]. unfold ebind at 1, eget at 1. rewrite Hst. unfold ebind at 1, eget at 1.
  unfold ebind at 1, elift at 1. rewrite no_shutdown, E. replace (Z.to_nat (restart_count s + 1)) with n by lia.
  unfold ebind at 1. destruct (bool_decide (n ≠ 1%nat) && too_frequent n); cbn [ewhen]; unfold emodify, eret.
  all: eexists; split_and!; [| | | |reflexivity]; unfold number; simpl; rewrite ?app_nil_r; (lia || done).
Qed.

Lemma failed_cycle n first fuel s :
  at_ n first s → fails n first →
  ∃ s', start (S fuel) s = start fuel s' ∧ at_ (S n) false s' ∧ log s' = log s ++ cycle n.
Proof using no_shutdown.
  intros Hs (e & Hres & Hrec & Hem & Hst' & Hretry).
  destruct (begin_attempt n first fuel s Hs) as (s1 & Hn & R1 & F1 & L1 & ->).
  unfold ebind at 1, ecatch, blueprint_start. rewrite Hn, Hres, Hrec. unfold on_error, ebind, eget, emodify, elift.
  cbn [first_connection_attempt after_attempt]. rewrite F1, Hretry, Hem. cbn [negb]. rewrite no_shutdown.
  cbn [bp_state not_first after_attempt connection]. rewrite Hst'. cbn [connection not_first after_attempt].
  unfold cycle.
  destruct (a_connection (attempts n)); eexists; (split; [reflexivity|]); unfold at_; simpl;
    rewrite L1, <-!app_assoc, R1; (split_and!; [lia|done|done|done]).
Qed.

Definition begins (s : cstate) : Prop := at_ 0 true s ∧ log s = [].

Lemma failed_cycles n k s :
  begins s → (∀ i, i < n → fails i (bool_decide (i = 0))) →
  ∃ s', start (n + k) s = start k s' ∧ at_ n (bool_decide (n = 0)) s' ∧ log s' = mjoin (cycle <$> seq 0 n).
Proof using no_shutdown.
  intros [Hs Hl]. revert k. induction n as [|n IH]; intros k Hn.
  { exists s. split_and!; [done|exact Hs|done]. }
  destruct (IH (S k)) as (s1 & E1 & H1 & L1). { intros i Hi. apply Hn. lia. }
  destruct (failed_cycle n (bool_decide (n = 0)) k s1 H1) as (s2 & E2 & H2 & L2); [apply Hn; lia|].
  exists s2. split_and!; [|exact H2|].
  - rewrite <-E2, <-E1. f_equal. lia.
  - rewrite L2, L1, seq_S, fmap_app, join_app. simpl. by rewrite app_nil_r.
Qed.

(** How the attempt after [n] failed ones ends the run *)
Inductive ends_with (n : nat) : outcome () → Prop :=
| ends_stopped : a_result (attempts n) = Ok () → stopping (a_state (attempts n)) = true → ends_with n (Ok ())
| ends_unrecoverable e : a_result (attempts n) = Raise e → recoverable e = false → ends_with n (Raise e)
| ends_no_retry e : a_result (attempts n) = Raise e → recoverable e = true →
    connection_retry conf (bool_decide (n = 0) && negb (a_connected (attempts n))) = false →
    ends_with n (Raise WorkerShutdown)
| ends_no_files e : a_result (attempts n) = Raise e → recoverable e = true → emfile e = true →
    connection_retry conf (bool_decide (n = 0) && negb (a_connected (attempts n))) = true →
    ends_with n (Raise WorkerTerminate)
| ends_stopped_late e : a_result (attempts n) = Raise e → recoverable e = true → emfile e = false →
    connection_retry conf (bool_decide (n = 0) && negb (a_connected (attempts n))) = true →
    stopping (a_state (attempts n)) = true → ends_with n (Ok ()).

Lemma last_attempt n fuel s r :
  at_ n (bool_decide (n = 0)) s → ends_with n r →
  ∃ s', start (S (S fuel)) s = (s', r) ∧ log s' = log s ++ pause n ++ [BlueprintStart].
Proof using no_shutdown.
  intros Hs He. destruct (begin_attempt n _ (S fuel) s Hs) as (s1 & Hn & R1 & F1 & L1 & ->).
  assert (log (after_attempt (attempts n) s1) = log s ++ pause n ++ [BlueprintStart]) as L2.
  { simpl. by rewrite L1, <-app_assoc. }
  unfold ebind at 1, ecatch, blueprint_start. rewrite Hn. cbn [start].
  unfold on_error, ebind, eget, emodify, elift, eret, eraise.
  destruct He as [H1 H2|e H1 H2|e H1 H2 H3|e H1 H2 H4 H3|e H1 H2 H4 H3 H5]; rewrite H1.
  - cbn [bp_state after_attempt]. rewrite H2. eexists. by split.
  - rewrite H2. eexists. by split.
  - rewrite H2. cbn [first_connection_attempt after_attempt]. rewrite F1, H3. eexists. by split.
  - rewrite H2. cbn [first_connection_attempt after_attempt]. rewrite F1, H3, H4. eexists. by split.
  - rewrite H2. cbn [first_connection_attempt after_attempt]. rewrite F1, H3, H4. cbn [negb].
    rewrite no_shutdown. cbn [bp_state not_first after_attempt]. rewrite H5.
    cbn [bp_state not_first after_attempt]. rewrite H5. eexists. by split.
Qed.

(** The consumer starts again until it is stopped.  After any number of attempts that
    fail in a way it may retry, in each of which the blueprint was started, the error
    handled, the requests dropped and the blueprint restarted, the next attempt decides:
    the consumer returns when it was stopped, passes other errors on, and raises
    WorkerShutdown when the setting that applies forbids retries (the one for the startup
    only before a first connection was made) or WorkerTerminate when there are no more
    file descriptors; in these cases nothing is closed or restarted any more. *)
Theorem start_outcome n fuel s r :
  begins s → (∀ i, i < n → fails i (bool_decide (i = 0))) → ends_with n r →
  ∃ s', start (n + S (S fuel)) s = (s', r) ∧
        log s' = mjoin (cycle <$> seq 0 n) ++ pause n ++ [BlueprintStart].
Proof using no_shutdown.
  intros Hs Hn He. destruct (failed_cycles n (S (S fuel)) s Hs Hn) as (s1 & -> & H1 & <-).
  by apply last_attempt.
Qed.

End Start.

(** The two places that decide whether to retry agree. *)
Lemma retry_policies_agree conf first : retry_disabled conf first = negb (connection_retry conf first).
Proof. unfold retry_disabled, connection_retry. by destruct conf as [? ? [[]|]], first. Qed.

End Start.

(** ** Event loops *)
Module Loops.

(** The calls of the loops *)
Inductive call_ :=
| CreateTaskHandler | EnableHeartbeats | RegisterController | RegisterConsumer | Consume | OnReady | QuickDrain
| MaybeShutdown | UpdateQos | Next | CreateLoop | PerformPending | DrainEvents | HubReset | TimerClear.

Section Loops.
(** How calls end, and what is seen, after the calls so far *)
Context (run : list call_ → call_ → outcome ()).
Context (running in_run_state qos_changed : list call_ → bool) (heartbeat_error dispatcher_heartbeat_error : list call_ → option exn).
Context (has_dispatcher amqp did_start_ok first_start has_hub is_green drains_dispatcher : bool) (is_OSError : exn → bool).
Abbreviation M := (eff (list call_)).

Definition call (c : call_) : M () := λ l, (l ++ [c], run l c).
Definition seen {A} (f : list call_ → A) : M A := eget f.
Definition raise_if (f : list call_ → option exn) : M () :=
  do! e := seen f in match e with Some e => eraise e | None => eret () end.

(** [try: c  except Exception: log] *)
Definition logged (c : M ()) : M () := ecatch c (λ e, if is_Exception e then eret () else eraise e).

Definition on_exception (cleanup : M ()) (c : M ()) : M () :=
  ecatch c (λ e, if is_Exception e then run! cleanup in eraise e else eraise e).

Definition update_qos : M () := do! b := seen qos_changed in ewhen b (call UpdateQos).

Fixpoint asyn_while (fuel : nat) : M () :=
  match fuel with
  | O => λ l, (l, Diverge)
  | S fuel =>
      do! b := seen running in
      if b then
        run! call MaybeShutdown in
        run! raise_if heartbeat_error in
        run! raise_if dispatcher_heartbeat_error in
        run! update_qos in
        run! ecatch (call Next) (λ e, if bool_decide (e = StopIteration) then call CreateLoop else eraise e) in
        asyn_while fuel
      else eret ()
  end.

Definition asynloop (fuel : nat) : M () :=
  run! call CreateTaskHandler in
  run! call EnableHeartbeats in
  run! ewhen has_dispatcher (call EnableHeartbeats) in
  run! call RegisterController in
  run! call RegisterConsumer in
  run! call Consume in
  run! call OnReady in
  run! (if first_start && negb did_start_ok then eraise OtherExc else eret ()) in
  run! ewhen amqp (call QuickDrain) in
  run! call CreateLoop in
  on_exception (run! logged (call HubReset) in logged (call TimerClear)) (asyn_while fuel).

(** One iteration of the blocking loop.  A timeout is also an [OSError]. *)
Definition quiet_unless_running (e : exn) : M () :=
  do! b := seen in_run_state in if is_OSError e then (if b then eraise e else eret ()) else eraise e.

Definition loop_cycle : M () :=
  run! raise_if heartbeat_error in
  run! raise_if dispatcher_heartbeat_error in
  run! update_qos in
  run! ecatch (run! call PerformPending in call DrainEvents)
         (λ e, if bool_decide (e = TimeoutError) then eret () else quiet_unless_running e) in
  ewhen (is_green && drains_dispatcher) (ecatch (call QuickDrain) quiet_unless_running).

Fixpoint syn_while (fuel : nat) : M () :=
  match fuel with
  | O => λ l, (l, Diverge)
  | S fuel =>
      do! b := seen running in
      if b then run! efinally (call MaybeShutdown) loop_cycle in syn_while fuel else eret ()
  end.

Definition synloop (fuel : nat) : M () :=
  run! call CreateTaskHandler in
  run! ewhen is_green (run! call EnableHeartbeats in ewhen has_dispatcher (call EnableHeartbeats)) in
  run! call Consume in
  run! call OnReady in
  on_exception (ewhen has_hub (logged (call HubReset))) (syn_while fuel).

Definition cleans (c : call_) : bool := match c with HubReset | TimerClear => true | _ => false end.
Definition no_cleanup (l : list call_) : Prop := Forall (λ c, cleans c = false) l.

Lemma no_cleanup_call c : cleans c = false → keeps no_cleanup (call c).
Proof using. intros Hc l Hl. unfold no_cleanup, call. simpl. apply Forall_app. by repeat constructor. Qed.

Lemma no_cleanup_raise_if f : keeps no_cleanup (raise_if f).
Proof using. intros l. unfold raise_if, seen, ebind, eget. by destruct (f l). Qed.

Lemma asyn_while_no_cleanup fuel : keeps no_cleanup (asyn_while fuel).
Proof using.
  induction fuel as [|fuel IH]; [by intros l|]. cbn [asyn_while]. unfold seen, update_qos.
  repeat first [ apply IH | apply no_cleanup_raise_if | by apply no_cleanup_call | keeps_step ].
Qed.

Lemma syn_while_no_cleanup fuel : keeps no_cleanup (syn_while fuel).
Proof using.
  induction fuel as [|fuel IH]; [by intros l|]. cbn [syn_while]. unfold loop_cycle, seen, update_qos, quiet_unless_running, seen.
  repeat first [ apply IH | apply no_cleanup_raise_if | by apply no_cleanup_call | keeps_step ].
Qed.

Lemma logged_call c l : (∀ l e, run l c = Raise e → is_Exception e = true) → run l c ≠ Diverge → logged (call c) l = (l ++ [c], Ok ()).
Proof using.
  intros He Hd. unfold logged, ecatch, call. destruct (run l c) as [[]|e|] eqn:E; [done| |done]. by rewrite (He _ _ E).
Qed.

(** A loop that fails leaves the hub clean.  If the event loop ends with an error, the
    hub is reset and its timers are cleared, once and last, also when resetting fails, and
    the error is passed on.  If it ends because the worker stops, by returning or by the
    exceptions of a shutdown, they are left alone, so that timers go on while the pool
    finishes. *)
Theorem failed_loop_cleans_up fuel l l' r :
  (∀ l c e, cleans c = true → run l c = Raise e → is_Exception e = true) →
  (∀ l c, run l c ≠ Diverge) →
  no_cleanup l → asyn_while fuel l = (l', r) →
  no_cleanup l' ∧
  on_exception (run! logged (call HubReset) in logged (call TimerClear)) (asyn_while fuel) l =
    match r with
    | Raise e => if is_Exception e then (l' ++ [HubReset; TimerClear], r) else (l', r)
    | _ => (l', r)
    end.
Proof using.
  intros He Hd Hl E. assert (no_cleanup l') as Hl'. { pose proof (asyn_while_no_cleanup fuel l Hl) as H. by rewrite E in H. }
  split; [done|]. unfold on_exception, ecatch. rewrite E. destruct r as [[]|e|]; [done| |done].
  destruct (is_Exception e); [|done]. unfold ebind.
  rewrite (logged_call HubReset l'), (logged_call TimerClear); [by rewrite <-app_assoc|intros ??; by apply He|apply Hd|intros ??; by apply He|apply Hd].
Qed.

End Loops.
End Loops.

(** ** Examples *)
Module Examples.

(** Eight processes, four messages each, three tasks running: 20 messages may be fetched,
    and after three tasks 32 again. *)
Lemma prefetch_restored_witness :
  let p := Prefetch.PF 32 4 8 32 None true true in
  let p' := Prefetch.restored_times 2 (Prefetch.tasks_start true (Prefetch.reduce 3 p)) in
  (Prefetch.qos_value p' = 4 * Z.min 8 (Z.max 1 (8 - 3) + Z.of_nat 2) ∧
   4 <= Prefetch.qos_value p' <= Prefetch.max_prefetch_count p ∧
   Prefetch.maximum_prefetch_restored p' = (Z.min 3 (8 - 1) <=? Z.of_nat 2) ∧
   Prefetch.restores 1 p' = negb (Prefetch.maximum_prefetch_restored p'))%Z.
Proof. apply (Prefetch.prefetch_restored (Prefetch.PF 32 4 8 32 None true true) 3 2 true 1); simpl; (lia || done). Defined.

(** Task 1 runs, task 2 is reserved and task 3 waits for its time. *)
Definition busy : @WorkerState.worker_state nat nat _ _ :=
  WorkerState.task_scheduled id (WorkerState.task_reserved id
    (WorkerState.task_accepted id (λ _, "add"%string) (WorkerState.task_reserved id WorkerState.boot_state 1) 1) 2) 3.

Lemma busy_inv : WorkerState.registry_inv id busy.
Proof.
  assert (∀ o w w', WorkerState.op_ok w o → WorkerState.run_op Nat.le id (λ _, "add"%string) w o = Ok w' →
    WorkerState.registry_inv id w ∧ LimitedSet.ls_good Nat.le (WorkerState.successful_requests w) →
    WorkerState.registry_inv id w' ∧ LimitedSet.ls_good Nat.le (WorkerState.successful_requests w')) as Hstep.
  { intros o w w' Ho E [Hw Hg].
    destruct (WorkerState.run_op_inv Nat.le id (λ _, "add"%string) (λ _ _ H, H) w o Hw Hg Ho) as (w2 & E2 & H). congruence. }
  apply (Hstep (WorkerState.OScheduled 3) _ _ I eq_refl), (Hstep (WorkerState.OReserved 2) _ _ I eq_refl).
  apply (Hstep (WorkerState.OAccepted 1) (WorkerState.task_reserved id WorkerState.boot_state 1)); [simpl; set_solver|done|].
  apply (Hstep (WorkerState.OReserved 1) _ _ I eq_refl). split; [apply WorkerState.boot_inv|by eapply WorkerState.empty_good].
Qed.

Lemma close_keeps_active_witness :
  WorkerState.registry_inv id (Closing.on_close id busy) ∧
  (∀ k r, dict_get (WorkerState.requests (Closing.on_close id busy)) k = Some r ↔ r ∈ WorkerState.active_requests busy ∧ k = id r) ∧
  WorkerState.reserved_requests (Closing.on_close id busy) = WorkerState.active_requests busy ∧
  WorkerState.scheduled_requests (Closing.on_close id busy) = ∅ ∧
  WorkerState.revoked (Closing.on_close id busy) = WorkerState.revoked busy ∧
  WorkerState.total_count (Closing.on_close id busy) = WorkerState.total_count busy.
Proof. apply (Closing.close_keeps_active id busy); [done|exact busy_inv]. Defined.

Lemma every_message_answered_witness :
  Answers.answered (Answers.on_message Messages.Examples.W (λ _ _, Ok ()) (λ _, None) true Answers.Decodes Messages.Examples.m2).
Proof.
  apply (Answers.every_message_answered Messages.Examples.W (λ _ _, Ok ()) (λ _, None) true Answers.Decodes Messages.Examples.m2).
  - done.
  - eexists. reflexivity.
  - eexists. reflexivity.
Defined.

(** The connection is lost twice, then the worker is stopped. *)
Definition ex_attempts (i : nat) : Start.attempt :=
  if decide (i < 2) then Start.Attempt (Raise TimeoutError) Lifecycle.RUN (bool_decide (i = 1)) (bool_decide (i = 1))
  else Start.Attempt (Ok ()) Lifecycle.CLOSE true true.
Definition ex_conf : Start.settings := Start.Settings true true None.
Definition ex_start := Start.start ex_conf (λ e, bool_decide (e = TimeoutError)) (λ _, false) (λ _, false) ex_attempts (λ _, false) (λ _, Ok ()).

Lemma start_outcome_witness :
  ∃ s', ex_start (2 + 2) (Start.CS (-1) true false Lifecycle.INITIALIZING []) = (s', Ok ()) ∧
        Start.log s' = mjoin (Start.cycle ex_attempts (λ _, false) <$> seq 0 2) ++ Start.pause (λ _, false) 2 ++ [Start.BlueprintStart].
Proof.
  apply (Start.start_outcome ex_conf (λ e, bool_decide (e = TimeoutError)) (λ _, false) (λ _, false) ex_attempts (λ _, false) (λ _, Ok ())).
  - done.
  - done.
  - intros i Hi. exists TimeoutError. unfold ex_attempts. rewrite decide_True by done. by destruct i as [|[|i]]; [..|lia].
  - by apply Start.ends_stopped.
Defined.

Lemma failed_loop_cleans_up_witness :
  let run := λ (_ : list Loops.call_) c, match c with Loops.Next => Raise TimeoutError | _ => Ok () end in
  Loops.no_cleanup [Loops.MaybeShutdown; Loops.Next] ∧
  Loops.on_exception (ebind (Loops.logged (Loops.call run Loops.HubReset)) (λ _, Loops.logged (Loops.call run Loops.TimerClear)))
    (Loops.asyn_while run (λ _, true) (λ _, false) (λ _, None) (λ _, None) 1) [] =
  ([Loops.MaybeShutdown; Loops.Next; Loops.HubReset; Loops.TimerClear], Raise TimeoutError).
Proof.
  intros run.
  apply (Loops.failed_loop_cleans_up run (λ _, true) (λ _, false) (λ _, None) (λ _, None) 1 [] [Loops.MaybeShutdown; Loops.Next] (Raise TimeoutError)).
  - by intros l [] e.
  - by intros l [].
  - constructor.
  - reflexivity.
Defined.

End Examples.
End Consumer.
