(* ===== verification/RedisChord.v ===== *)
(** Chords in the Redis backend (celery/backends/redis.py): the parts of a chord put
    their results into a sorted set or a list, and the part that completes it sends the
    callback.

    Redis executes the commands of a pipeline as one.  Its sorted sets and lists are an
    interface ([JobKey]) with the laws that the commands document; a list keeps the
    order of arrival, a sorted set that of scores.  [phase] is a part between two
    pipelines or calls, any of which may raise, and [step] lets parts take turns.
    The keys are taken not to expire while the chord runs. *)

From S2P Require Import Prelude.
From S2P Require Import States.
Import States.

Module RedisChord.
Local Open Scope Z_scope.

(** Scores of a sorted set: the index in the group, or infinity *)
Inductive score := Index (z : Z) | PosInf.
Definition score_le (a b : score) : Prop :=
  match a, b with Index x, Index y => x <= y | _, PosInf => True | PosInf, Index _ => False end.

(** What is under the key of the results: [ZADD], [ZCOUNT], [ZRANGE], or [RPUSH], [LLEN], [LRANGE] *)
Record jobs (B : Type) := Jobs { J : Type; jempty : J; jadd : J → B → score → J; jcount : J → Z; jrange : J → Z → list B }.
Arguments J {_} _.
Arguments jempty {_} _.
Arguments jadd {_} _ _ _ _.
Arguments jcount {_} _ _.
Arguments jrange {_} _ _ _.

Class JobKey {B} (K : jobs B) := {
  jcount_empty : jcount K (jempty K) = 0;
  jcount_add l b x : b ∉ l.*1 → NoDup l.*1 →
    let k := foldl (λ k p, jadd K k p.1 p.2) (jempty K) l in jcount K (jadd K k b x) = jcount K k + 1 }.
(** All of a range, sorted by score *)
Class OrderedKey {B} (K : jobs B) :=
  jrange_sorted l total : NoDup l.*1 → Z.of_nat (length l) <= total →
    ∃ l', l' ≡ₚ l ∧ StronglySorted (λ p q, score_le p.2 q.2) l' ∧
          jrange K (foldl (λ k p, jadd K k p.1 p.2) (jempty K) l) total = l'.*1.

Section Redis.
(** Values, encoded results, and the two functions between them *)
Context {V B : Type} `{!EqDecision B} (K : jobs B).
Context (encode : string * string * V → B) (decode : B → outcome (string * string * V)).
Context (exception_to_python : V → V).

(** What a part returns *)
Record part := Part { p_id : string; p_index : option Z; p_state : string; p_value : V }.
Definition encoded (p : part) : B := encode (p_id p, p_state p, p_value p).
Definition score_of (p : part) : score := match p_index p with Some i => Index i | None => PosInf end.

(** [_unpack_chord_result] *)
Definition unpack (b : B) : outcome V :=
  let! (_, st, v) := decode b in
  let v := if bool_decide (st ∈ EXCEPTION_STATES) then exception_to_python v else v in
  if bool_decide (st ∈ PROPAGATE_STATES) then Raise ChordError else Ok v.

Fixpoint unpack_all (l : list B) : outcome (list V) :=
  match l with
  | [] => Ok []
  | b :: l => let! v := unpack b in let! vs := unpack_all l in Ok (v :: vs)
  end.

(** Why an error is reported for the callback *)
Inductive chord_error := Dependency | JoinError (x : exn) | CallbackError (x : exn).

Inductive call :=
| Return                    (* the pipeline that adds a result and reads the counts *)
| Restore | JoinGroup | Range
| Delay (vs : list V)
| ChordErrorFromStack (e : chord_error)
| Delete
| SetChordSize (n : Z) | AddToChord.

Record keys := Keys { jkey : J K; tkey : option Z; skey : option Z; log : list call }.
Definition logged (c : call) (s : keys) : keys := Keys (jkey s) (tkey s) (skey s) (log s ++ [c]).

(** the effect of the pipelines *)
Definition add_result (p : part) (s : keys) : keys := Keys (jadd K (jkey s) (encoded p) (score_of p)) (tkey s) (skey s) (log s).
Definition delete_keys (s : keys) : keys := Keys (jempty K) None None (log s).
Definition set_chord_size (n : Z) (s : keys) : keys := Keys (jkey s) (tkey s) (Some n) (log s ++ [SetChordSize n]).
Definition add_to_chord (s : keys) : keys := Keys (jkey s) (Some (default 0 (tkey s) + 1)) (skey s) (log s ++ [AddToChord]).

(** ** [on_chord_part_return] *)

(** [completes] tells whether the part saw that the chord is complete. *)
Inductive phase :=
| PReturn
| PRestore (total : Z)
| PJoinGroup
| PRange (total : Z)
| PDelay (vs : list V)
| PErrorClean (e : chord_error)          (* reported before the keys are deleted *)
| PDelete (r : outcome ())
| PError (e : chord_error)               (* reported last *)
| PDone (completes : bool) (r : outcome ()).

(** The errors of the outer [try] *)
Definition failed (x : exn) : phase :=
  if bool_decide (x = ChordError) then PError Dependency
  else if is_Exception x then PError (JoinError x) else PDone true (Raise x).

(** How a call ends: it returns, or raises with or without having taken effect. *)
Definition fault : Type := option (exn * bool).

(** [group] says whether the group was saved since some of its results are groups, and
    how joining it ends. *)
Context (group : option (outcome (list V))).

Definition next (f : fault) (p : part) (ph : phase) (s : keys) : option (phase * keys) :=
  match ph with
  | PReturn =>
      let s' := logged Return (add_result p s) in
      Some match f with
           | Some (x, true) => (PDone false (Raise x), s')
           | Some (x, false) => (PDone false (Raise x), logged Return s)
           | None =>
               match skey s' with
               | Some n => let total := n + default 0 (tkey s') in
                           (if jcount K (jkey s') =? total then PRestore total else PDone false (Ok ()), s')
               | None => (PDone false (Ok ()), s')
               end
           end
  | PRestore total =>
      Some (match f with
            | Some (x, _) => failed x
            | None => match group with Some _ => PJoinGroup | None => PRange total end
            end, logged Restore s)
  | PJoinGroup =>
      Some (match f, group with
            | Some (x, _), _ => failed x
            | None, Some (Ok vs) => PDelay vs
            | None, Some (Raise x) => failed x
            | None, _ => PDone true Diverge
            end, logged JoinGroup s)
  | PRange total =>
      Some (match f with
            | Some (x, _) => failed x
            | None => match unpack_all (jrange K (jkey s) total) with
                      | Ok vs => PDelay vs
                      | Raise x => failed x
                      | Diverge => PDone true Diverge
                      end
            end, logged Range s)
  | PDelay vs =>
      Some (match f with
            | Some (x, _) => if is_Exception x then PErrorClean (CallbackError x) else PDelete (Raise x)
            | None => PDelete (Ok ())
            end, logged (Delay vs) s)
  | PErrorClean e =>
      Some (PDelete (match f with Some (x, _) => Raise x | None => Ok () end), logged (ChordErrorFromStack e) s)
  | PDelete r =>
      Some match f with
           | None => (match r with Raise x => failed x | r => PDone true r end, logged Delete (delete_keys s))
           | Some (x, true) => (failed x, logged Delete (delete_keys s))
           | Some (x, false) => (failed x, logged Delete s)
           end
  | PError e =>
      Some (PDone true (match f with Some (x, _) => Raise x | None => Ok () end), logged (ChordErrorFromStack e) s)
  | PDone _ _ => None
  end.

(** ** All parts of a chord *)

Record config := Config { phases : list phase; shared : keys; size_set : bool }.

Context (parts : list part) (chord_size : Z).

(** The sender of the chord sets its size once, and each part returns once. *)
Inductive step (may_fail : bool) : config → config → Prop :=
| step_size phs s : step may_fail (Config phs s false) (Config phs (set_chord_size chord_size s) true)
| step_part phs s b i p ph f ph' s' :
    phs !! i = Some ph → parts !! i = Some p → (f ≠ None → may_fail = true) →
    next f p ph s = Some (ph', s') →
    step may_fail (Config phs s b) (Config (<[i := ph']> phs) s' b).

Definition start : config := Config (replicate (length parts) PReturn) (Keys (jempty K) None None []) false.

(** ** At most one callback *)

Definition passed (ph : phase) : bool := match ph with PReturn => false | PDone b _ => b | _ => true end.
Definition pre_delay (ph : phase) : bool :=
  match ph with PRestore _ | PJoinGroup | PRange _ | PDelay _ => true | _ => false end.
Definition is_Delay (c : call) : bool := match c with Delay _ => true | _ => false end.

Definition filled (l : list (B * score)) : J K := foldl (λ k p, jadd K k p.1 p.2) (jempty K) l.

(** What a part does after it returned *)
Lemma next_later f p ph s ph' s' :
  ph ≠ PReturn → next f p ph s = Some (ph', s') →
  passed ph = true ∧ passed ph' = true ∧ ph' ≠ PReturn ∧
  (∃ c, log s' = log s ++ [c] ∧ (Nat.b2n (pre_delay ph') + Nat.b2n (is_Delay c) <= Nat.b2n (pre_delay ph))%nat) ∧
  ((jkey s' = jkey s ∧ tkey s' = tkey s ∧ skey s' = skey s) ∨ (jkey s' = jempty K ∧ tkey s' = None ∧ skey s' = None)).
Proof using.
  intros Hne. destruct ph as [|total| |total|vs|e|r|e|b r]; [done|..|done]; cbn [next]; intros [= <- <-] || destruct f as [[x []]|]; intros.
  all: simplify_eq; (split; [done|]); unfold failed.
  all: repeat match goal with |- context [match ?x with _ => _ end] => destruct x end; simpl.
  all: split_and!; try done.
  all: first [by eexists; split; [reflexivity|simpl; lia] | by left | by right].
Qed.

Context {HK : JobKey K}.
Context (distinct : NoDup (encoded <$> parts)).

(** The results under the key are those of parts that returned. *)
Definition holds (phs : list phase) (l : list (B * score)) : Prop :=
  NoDup l.*1 ∧
  ∀ b, b ∈ l.*1 → ∃ i p ph, parts !! i = Some p ∧ phs !! i = Some ph ∧ ph ≠ PReturn ∧ b = encoded p.

Record sound (c : config) : Prop := {
  so_passed : (cnt passed (phases c) <= 1)%nat;
  so_delays : (cnt pre_delay (phases c) + cnt is_Delay (log (shared c)) <= cnt passed (phases c))%nat;
  so_jobs : ∃ l, jkey (shared c) = filled l ∧ holds (phases c) l;
  so_tkey : tkey (shared c) = None;
  so_skey n : skey (shared c) = Some n → size_set c = true ∧ n = chord_size;
  so_full : (0 < cnt passed (phases c))%nat →
    size_set c = true ∧ (skey (shared c) = Some chord_size → chord_size <= jcount K (jkey (shared c))) }.

Lemma holds_insert phs l i ph ph' :
  holds phs l → phs !! i = Some ph → (ph' ≠ PReturn) → holds (<[i := ph']> phs) l.
Proof using.
  intros [H1 H2] Hi Hne. split; [done|]. intros b Hb. destruct (H2 b Hb) as (j & p & ph1 & Hp & Hph & Hr & ->).
  destruct (decide (i = j)) as [<-|Hij].
  - exists i, p, ph'. split_and!; [done| |done|done]. apply list_lookup_insert_eq. by eapply lookup_lt_Some.
  - exists j, p, ph1. by rewrite list_lookup_insert_ne.
Qed.

(** A part that returns adds a result that was not there. *)
Lemma holds_add phs l i p ph' :
  holds phs l → phs !! i = Some PReturn → parts !! i = Some p → ph' ≠ PReturn →
  encoded p ∉ l.*1 ∧ holds (<[i := ph']> phs) (l ++ [(encoded p, score_of p)]).
Proof using distinct.
  intros [H1 H2] Hi Hp Hne.
  assert (encoded p ∉ l.*1) as Hfresh.
  { intros Hin. destruct (H2 _ Hin) as (j & q & ph & Hq & Hph & Hr & Heq).
    assert (j = i) as ->; [|congruence].
    eapply (NoDup_lookup _ j i (encoded p) distinct); rewrite list_lookup_fmap; [by rewrite Hq, Heq|by rewrite Hp]. }
  split; [done|]. split.
  - rewrite fmap_app. apply NoDup_app. split; [done|]. split; [|apply NoDup_singleton].
    intros b Hb ->%list_elem_of_singleton. done.
  - intros b Hb. rewrite fmap_app in Hb. apply elem_of_app in Hb as [Hb|Hb%list_elem_of_singleton].
    + destruct (holds_insert phs l i PReturn ph' (conj H1 H2) Hi Hne) as [_ H]. by apply H.
    + exists i, p, ph'. split_and!; [done| |done|done]. apply list_lookup_insert_eq. by eapply lookup_lt_Some.
Qed.

Lemma next_return f p s ph' s' :
  next f p PReturn s = Some (ph', s') →
  ph' ≠ PReturn ∧ log s' = log s ++ [Return] ∧ tkey s' = tkey s ∧ skey s' = skey s ∧
  (jkey s' = jkey s ∧ passed ph' = false ∨
   jkey s' = jadd K (jkey s) (encoded p) (score_of p) ∧
   (passed ph' = false ∨
    ∃ n, skey s = Some n ∧ jcount K (jkey s') = n + default 0 (tkey s) ∧ ph' = PRestore (n + default 0 (tkey s)))) ∧
  (passed ph' = false → pre_delay ph' = false).
Proof using.
  cbn [next]. intros [= Hn]. destruct f as [[x []]|]; simplify_eq/=; [by split_and!; auto..|].
  destruct (skey s) as [n|] eqn:Es; simplify_eq/=; [|by split_and!; auto].
  destruct (jcount _ _ =? _) eqn:E; zbool; simpl; split_and!; try done; right; (split; [done|]); [right; eauto|by left].
Qed.

Lemma redis_start_sound : sound start.
Proof using HK distinct.
  split; simpl; rewrite ?cnt_replicate; unfold cnt; simpl; try done; try lia.
  exists []. split; [done|]. split; [constructor|]. intros b Hb. set_solver.
Qed.

Lemma redis_step_sound mf c c' : sound c → step mf c c' → sound c'.
Proof using HK distinct.
  intros [H1 H2 (l & Hj & Hl) H4 H5 H6] Hst.
  destruct Hst as [phs s|phs s b i p ph f ph' s' Hph Hp _ Hnext]; simpl in *.
  - split; simpl; [done| |by exists l|done|by intros n [= <-]|].
    + rewrite cnt_app, cnt_cons. unfold cnt at 3. simpl. lia.
    + intros Hpos. destruct (H6 Hpos) as [? _]. done.
  - pose proof (cnt_insert passed phs i ph ph' Hph) as C1. pose proof (cnt_insert pre_delay phs i ph ph' Hph) as C2.
    assert (ph = PReturn ∨ ph ≠ PReturn) as [-> | Hne] by (destruct ph; auto).
    + destruct (next_return _ _ _ _ _ Hnext) as (Hr & Hlog & Ht & Hs & Hcase & Hpd). simpl in C1, C2.
      destruct (holds_add phs l i p ph' Hl Hph Hp Hr) as [Hfresh Hl'].
      assert (cnt is_Delay (log s') = cnt is_Delay (log s)) as Hd.
      { rewrite Hlog, cnt_app, cnt_cons. unfold cnt at 2. simpl. lia. }
      assert (∀ j x, jcount K (jadd K (filled l) (encoded p) x) = j → jcount K (filled l) + 1 = j) as Hcnt.
      { intros j x <-. unfold filled. rewrite jcount_add; [done|done|by destruct Hl]. }
      assert (∃ l', jkey s' = filled l' ∧ holds (<[i:=ph']> phs) l') as Hjobs.
      { destruct Hcase as [[-> _]|[-> _]]; [by exists l; split; [|eapply holds_insert]|].
        exists (l ++ [(encoded p, score_of p)]). split; [|done]. unfold filled. rewrite foldl_app, Hj. done. }
      destruct Hcase as [[Hk Hf]|[Hk [Hf|(n & Hn & Hc & ->)]]].
      * rewrite Hf in C1. rewrite (Hpd Hf) in C2. simpl in C1, C2.
        split; simpl; rewrite ?Hd, ?Ht, ?Hs, ?Hk; [lia|lia|by rewrite <-Hk|done|done|]. intros Hpos. apply H6. lia.
      * rewrite Hf in C1. rewrite (Hpd Hf) in C2. simpl in C1, C2.
        split; simpl; rewrite ?Hd, ?Ht, ?Hs; [lia|lia|done|done|done|]. intros Hpos.
        destruct H6 as [H6a H6b]; [lia|]. split; [done|]. intros Hsk. specialize (H6b Hsk).
        rewrite Hk, Hj. rewrite Hj in H6b. specialize (Hcnt _ (score_of p) eq_refl). lia.
      * simpl in C1, C2. destruct (H5 n Hn) as [Hset ->].
        assert (cnt passed phs = 0%nat) as Hz.
        { destruct (cnt passed phs) as [|k] eqn:E; [done|]. exfalso.
          destruct H6 as [_ H6]; [lia|]. specialize (H6 Hn). rewrite H4 in Hc. simpl in Hc.
          rewrite Hk, Hj in Hc. apply Hcnt in Hc. rewrite Hj in H6. lia. }
        split; simpl; rewrite ?Hd, ?Ht, ?Hs; [lia|lia|done|done|done|]. intros _. split; [done|]. intros _.
        rewrite Hc, H4. simpl. lia.
    + destruct (next_later _ _ _ _ _ _ Hne Hnext) as (Hp1 & Hp2 & Hr & (c & Hlog & Hpd) & Hkeys).
      rewrite Hp1, Hp2 in C1. simpl in C1.
      assert (cnt is_Delay (log s') = cnt is_Delay (log s) + Nat.b2n (is_Delay c))%nat as Hd.
      { rewrite Hlog, cnt_app, cnt_cons. unfold cnt at 2. simpl. lia. }
      destruct Hkeys as [(K1 & K2 & K3)|(K1 & K2 & K3)].
      * split; simpl; rewrite ?Hd, ?K1, ?K2, ?K3; [lia|lia|exists l; split; [done|by eapply holds_insert]|done|done|].
        intros Hpos. apply H6. lia.
      * split; simpl; rewrite ?Hd, ?K1, ?K2, ?K3; [lia|lia| |done|done|].
        { exists []. split; [done|]. split; [constructor|]. intros b' Hb'. set_solver. }
        intros Hpos. destruct H6 as [? _]; [lia|]. done.
Qed.

(** C17: the callback of a chord in Redis is sent at most once, whatever the order in which
    its parts take their steps, whatever size was set and when, and whichever pipelines
    and calls raise, with or without having taken effect. *)
Theorem redis_callback_at_most_once c :
  rtc (step true) start c → (cnt is_Delay (log (shared c)) <= 1)%nat.
Proof using HK distinct.
  intros Hs. enough (sound c) as [H1 H2 _ _ _ _] by lia.
  pose proof redis_start_sound as H. revert H. induction Hs as [|c1 c2 c3 Hst _ IH]; [done|]. eauto using redis_step_sound.
Qed.

(** ** Exactly one callback, in order *)

Definition is_return (ph : phase) : bool := match ph with PReturn => true | _ => false end.
Definition item (p : part) : B * score := (encoded p, score_of p).

(** The results of the parts that returned *)
Definition arrived (ps : list part) (phs : list phase) : list (B * score) :=
  omap (λ x, if is_return x.2 then None else Some (item x.1)) (zip ps phs).

Lemma arrived_cons q ps ph phs :
  arrived (q :: ps) (ph :: phs) = if is_return ph then arrived ps phs else item q :: arrived ps phs.
Proof using. unfold arrived. simpl. by destruct (is_return ph). Qed.

Lemma arrived_none ps : arrived ps (replicate (length ps) PReturn) = [].
Proof using. induction ps as [|p ps IH]; [done|]. cbn [length replicate]. by rewrite arrived_cons. Qed.

Lemma arrived_insert ps phs i p ph' :
  ps !! i = Some p → phs !! i = Some PReturn → is_return ph' = false →
  arrived ps (<[i := ph']> phs) ≡ₚ arrived ps phs ++ [item p].
Proof using.
  intros Hp Hph Hr. revert phs i Hp Hph. induction ps as [|q ps IH]; intros [|ph phs] [|i] Hp Hph; simplify_eq/=.
  - rewrite !arrived_cons, Hr. simpl. apply Permutation_cons_append.
  - rewrite !arrived_cons. destruct (is_return ph); simpl; [by apply IH|]. by rewrite (IH phs i Hp Hph).
Qed.

Lemma arrived_length ps phs : length ps = length phs → (length (arrived ps phs) + cnt is_return phs = length ps)%nat.
Proof using.
  revert phs. induction ps as [|q ps IH]; intros [|ph phs] Hl; simplify_eq/=; [done|].
  specialize (IH phs Hl). rewrite arrived_cons, cnt_cons. destruct (is_return ph); simpl; lia.
Qed.

Lemma arrived_all ps phs : length ps = length phs → cnt is_return phs = 0%nat → arrived ps phs = item <$> ps.
Proof using.
  revert phs. induction ps as [|q ps IH]; intros [|ph phs] Hl Hc; simplify_eq/=; [done|].
  rewrite cnt_cons in Hc. rewrite arrived_cons. destruct (is_return ph); simpl in *; [lia|]. rewrite IH; [done|done|lia].
Qed.

Lemma jcount_filled l : NoDup l.*1 → jcount K (filled l) = Z.of_nat (length l).
Proof using HK.
  induction l as [|[b x] l IH] using rev_ind; intros Hnd; [apply jcount_empty|].
  rewrite fmap_app in Hnd. apply NoDup_app in Hnd as (Hnd & Hd & _).
  unfold filled. rewrite foldl_app. simpl. rewrite jcount_add; [|intros Hb; by apply (Hd b Hb), list_elem_of_singleton|done].
  fold (filled l). rewrite IH, length_app by done. simpl. lia.
Qed.

Lemma arrived_NoDup ps phs : NoDup (encoded <$> ps) → NoDup (arrived ps phs).*1.
Proof using.
  revert phs. induction ps as [|q ps IH]; intros [|ph phs]; simpl; [constructor..|].
  intros [Hq Hnd]%NoDup_cons. specialize (IH phs Hnd). rewrite arrived_cons.
  destruct (is_return ph); simpl; [done|]. apply NoDup_cons. split; [|done]. intros Hin. apply Hq.
  apply list_elem_of_fmap in Hin as ([b x] & Hb & Hin). apply list_elem_of_omap in Hin as ([p ph1] & Hz & Hi).
  simpl in *. destruct (is_return ph1); [done|]. injection Hi as <- <-. simpl in Hb. rewrite Hb.
  apply list_elem_of_fmap. exists p. split; [done|]. apply list_elem_of_lookup in Hz as [k Hk].
  apply lookup_zip_Some in Hk as [Hk _]. by eapply list_elem_of_lookup_2.
Qed.

Context {HO : OrderedKey K}.
(** The members of the group have their indices and succeed, and what is encoded can be
    decoded. *)
Context (indexed : ∀ i p, parts !! i = Some p → p_index p = Some (Z.of_nat i)).
Context (succeed : ∀ p, p ∈ parts → p_state p = SUCCESS).
Context (decode_encode : ∀ x, decode (encode x) = Ok x).
Context (simple : group = None) (sized : chord_size = Z.of_nat (length parts)).

Lemma unpack_parts ps : (∀ p, p ∈ ps → p_state p = SUCCESS) → unpack_all (encoded <$> ps) = Ok (p_value <$> ps).
Proof using decode_encode.
  induction ps as [|p ps IH]; intros Hs; [done|]. cbn [fmap list_fmap unpack_all]. unfold unpack, encoded at 1.
  rewrite decode_encode. cbn [obind]. rewrite (Hs p) by (by left).
  rewrite !bool_decide_false by (apply (bool_decide_eq_false (SUCCESS ∈ _)); by vm_compute).
  cbn [obind]. rewrite IH; [done|]. intros q Hq. apply Hs. by right.
Qed.

(** Read back, the results are in the order of the group. *)
Lemma range_in_order l total :
  l ≡ₚ item <$> parts → Z.of_nat (length parts) <= total → jrange K (filled l) total = encoded <$> parts.
Proof using HO distinct indexed.
  intros Hl Ht.
  assert (NoDup l.*1) as Hnd.
  { rewrite Hl. rewrite <-list_fmap_compose. erewrite list_fmap_ext; [exact distinct|]. done. }
  unfold filled. destruct (jrange_sorted l total Hnd) as (l' & Hp & Hs & ->).
  { rewrite Hl, length_fmap. done. }
  enough (l' = item <$> parts) as -> by (rewrite <-list_fmap_compose; by apply list_fmap_ext).
  assert (∀ i x, (item <$> parts) !! i = Some x → x.2 = Index (Z.of_nat i)) as Hidx.
  { intros i x Hx. rewrite list_lookup_fmap in Hx. destruct (parts !! i) as [p|] eqn:E; [|done]. simplify_eq/=.
    unfold score_of. by rewrite (indexed _ _ E). }
  apply (StronglySorted_unique_strong (λ p q, score_le p.2 q.2)); [|done| |by rewrite Hp].
  - intros x1 x2 Hx1 Hx2. rewrite Hp, Hl in Hx1.
    apply list_elem_of_lookup in Hx1 as [i1 Hi1]. apply list_elem_of_lookup in Hx2 as [i2 Hi2].
    rewrite (Hidx _ _ Hi1), (Hidx _ _ Hi2). simpl. intros. assert (i1 = i2) as -> by lia. congruence.
  - apply sorted_of_lookup. intros i1 i2 x1 x2 Hlt Hi1 Hi2. rewrite (Hidx _ _ Hi1), (Hidx _ _ Hi2). simpl. lia.
Qed.

(** The sender sets the size before it sends the last member of the group, so until then
    some part has not returned. *)
Definition timely (c c' : config) : Prop := step false c c' ∧ (size_set c = true ∨ PReturn ∈ phases c').

Definition quiet (phs : list phase) : Prop := ∀ ph, ph ∈ phs → ph = PReturn ∨ ph = PDone false (Ok ()).
Definition results : list V := p_value <$> parts.

(** All but one part are done, and that one is completing the chord. *)
Definition completing (i : nat) (ph : phase) (c : config) : Prop :=
  phases c !! i = Some ph ∧ (∀ k ph', k ≠ i → phases c !! k = Some ph' → ph' = PDone false (Ok ())).

(** What the completing part is about to do, given the calls so far *)
Definition on_track (ph : phase) (s : keys) : Prop :=
  match ph with
  | PRestore total | PRange total =>
      total = Z.of_nat (length parts) ∧ filter (λ c, is_Delay c = true) (log s) = [] ∧
      ∃ l, jkey s = filled l ∧ l ≡ₚ item <$> parts
  | PDelay vs => vs = results ∧ filter (λ c, is_Delay c = true) (log s) = []
  | PDelete r => r = Ok () ∧ filter (λ c, is_Delay c = true) (log s) = [Delay results]
  | PDone b r => b = true ∧ r = Ok () ∧ filter (λ c, is_Delay c = true) (log s) = [Delay results]
  | _ => False
  end.

Inductive good (c : config) : Prop :=
| good_waiting l :
    PReturn ∈ phases c → quiet (phases c) → length (phases c) = length parts →
    jkey (shared c) = filled l → l ≡ₚ arrived parts (phases c) →
    tkey (shared c) = None → skey (shared c) = (if size_set c then Some chord_size else None) →
    filter (λ c, is_Delay c = true) (log (shared c)) = [] → good c
| good_completing i ph :
    size_set c = true → completing i ph c → on_track ph (shared c) → good c.

Lemma good_return phs s i p ph' s' b :
  good (Config phs s b) → phs !! i = Some PReturn → parts !! i = Some p →
  next None p PReturn s = Some (ph', s') → b = true ∨ PReturn ∈ <[i := ph']> phs →
  good (Config (<[i := ph']> phs) s' b).
Proof using HK distinct sized.
  intros Hg Hi Hp Hn Ht. destruct Hg as [l Hr Hq Hlen Hj Hl Htk Hsk Hlog|i0 ph0 _ [H1 H2] H3]; simpl in *.
  2:{ exfalso. destruct (decide (i = i0)) as [->|Hne]; [|by specialize (H2 i _ Hne Hi)]. simplify_eq. done. }
  assert (s' = logged Return (add_result p s) ∧ is_return ph' = false) as [-> Hir].
  { injection Hn as Hn. destruct (skey s); [case_match|]; by simplify_eq. }
  set (s' := logged Return (add_result p s)) in *.
  assert (jkey s' = filled (l ++ [item p])) as J1 by (unfold filled; simpl; by rewrite foldl_app, Hj).
  assert (filter (λ c, is_Delay c = true) (log s') = []) as Hlog' by (simpl; by rewrite filter_app, Hlog).
  assert (l ++ [item p] ≡ₚ arrived parts (<[i := ph']> phs)) as Hl'.
  { rewrite (arrived_insert parts phs i p ph' Hp Hi Hir), Hl. done. }
  assert (length (<[i := ph']> phs) = length parts) as Hlen' by (by rewrite length_insert).
  pose proof (arrived_length parts (<[i := ph']> phs) (eq_sym Hlen')) as Hcount. rewrite <-Hl' in Hcount.
  assert (jcount K (jkey s') = Z.of_nat (length (l ++ [item p]))) as Hjc.
  { rewrite J1. apply jcount_filled. rewrite Hl'. by apply arrived_NoDup. }
  assert (PReturn ∈ <[i := ph']> phs ↔ cnt is_return (<[i := ph']> phs) ≠ 0%nat) as Hret.
  { split.
    - intros Hin Hz. by pose proof (cnt_zero _ _ _ Hz Hin).
    - intros Hnz. destruct (filter (λ x, is_return x = true) (<[i := ph']> phs)) as [|x xs] eqn:E; [by unfold cnt in Hnz; rewrite E in Hnz|].
      assert (x ∈ filter (λ x, is_return x = true) (<[i := ph']> phs)) as Hx by (rewrite E; by left).
      apply list_elem_of_filter in Hx as [Hx Hin]. by destruct x. }
  injection Hn as Hn. fold s' in Hn. change (skey s') with (skey s) in Hn. change (tkey s') with (tkey s) in Hn.
  rewrite Hsk, Htk in Hn. destruct b.
  - injection Hn as Hph. cbn [default] in Hph. change (jadd K (jkey s) (encoded p) (score_of p)) with (jkey s') in Hph. rewrite Hjc, Z.add_0_r, sized in Hph.
    destruct (_ =? _) eqn:E in Hph; zbool.
    + right with i ph'; [done| |].
      * split; simpl; [by apply list_lookup_insert_eq; eapply lookup_lt_Some|].
        intros k phk Hne Hk. rewrite list_lookup_insert_ne in Hk by done.
        destruct (Hq phk) as [-> | ->]; [by eapply list_elem_of_lookup_2| |done].
        exfalso. assert (PReturn ∈ <[i := ph']> phs) as Hin.
        { apply list_elem_of_lookup. exists k. by rewrite list_lookup_insert_ne. }
        apply Hret in Hin. lia.
      * rewrite <-Hph. simpl. split_and!; [done|done|]. exists (l ++ [item p]). split; [done|].
        rewrite Hl'. rewrite arrived_all; [done|done|lia].
    + left with (l ++ [item p]); simpl; try done; [apply Hret; lia|].
      intros x [-> |Hx]%elem_of_insert_or; [by right|by apply Hq].
  - injection Hn as Hph. destruct Ht as [?|Ht]; [done|].
    left with (l ++ [item p]); simpl; try done.
    intros x [-> |Hx]%elem_of_insert_or; [by right|by apply Hq].
Qed.

Lemma good_later ph p s ph' s' :
  on_track ph s → next None p ph s = Some (ph', s') → on_track ph' s'.
Proof using HO distinct indexed succeed decode_encode simple.
  destruct ph as [|total| |total|vs|e|r|e|b r]; simpl; try done; rewrite ?simple.
  - intros (-> & Hlog & l & Hj & Hl) [= <- <-]. simpl. rewrite filter_app, Hlog. split_and!; [done|done|]. by exists l.
  - intros (-> & Hlog & l & Hj & Hl). rewrite Hj, (range_in_order l) by done. rewrite unpack_parts by done.
    intros [= <- <-]. simpl. by rewrite filter_app, Hlog.
  - intros [-> Hlog] [= <- <-]. simpl. by rewrite filter_app, Hlog.
  - intros [-> Hlog] [= <- <-]. simpl. by rewrite filter_app, Hlog.
Qed.

Lemma good_step c c' : good c → timely c c' → good c'.
Proof using HK HO distinct indexed succeed decode_encode simple sized.
  intros Hg [Hst Ht]. destruct Hst as [phs s|phs s b i p ph f ph' s' Hph Hp Hf Hn].
  - destruct Hg as [l Hr Hq Hlen Hj Hl Htk Hsk Hlog|i0 ph0 ? _ _]; simpl in *; [|done].
    left with l; simpl; try done. by rewrite filter_app, Hlog.
  - destruct f as [x|]; [by specialize (Hf ltac:(done))|]. destruct (is_return ph) eqn:Er.
    { assert (ph = PReturn) as -> by (by destruct ph). eauto using good_return. }
    destruct Hg as [l Hr Hq Hlen Hj Hl Htk Hsk Hlog|i0 ph0 Hset [H1 H2] H3]; simpl in *.
    { destruct (Hq ph) as [-> | ->]; [by eapply list_elem_of_lookup_2|done|done]. }
    destruct (decide (i = i0)) as [->|Hne]; [|by rewrite (H2 i ph Hne Hph) in Hn]. simplify_eq.
    right with i0 ph'; simpl; [done| |by eapply good_later].
    split; simpl; [apply list_lookup_insert_eq; by eapply lookup_lt_Some|].
    intros k phk Hne Hk. rewrite list_lookup_insert_ne in Hk by done. by eapply H2.
Qed.

Lemma start_good : parts ≠ [] → good start.
Proof using distinct indexed succeed sized.
  intros Hne. left with []; simpl; try done.
  - apply elem_of_replicate. split; [done|]. destruct parts; simpl; [done|lia].
  - intros ph [-> _]%elem_of_replicate. by left.
  - by rewrite length_replicate.
  - by rewrite arrived_none.
Qed.

Definition finished (c : config) : Prop := ∀ ph, ph ∈ phases c → ∃ b r, ph = PDone b r.

Definition steps_left (ph : phase) : nat :=
  match ph with
  | PReturn => 8 | PRestore _ => 7 | PJoinGroup => 6 | PRange _ => 6 | PDelay _ => 5 | PErrorClean _ => 4 | PDelete _ => 3
  | PError _ => 1 | PDone _ _ => 0
  end.
Definition work (c : config) : nat := (sum_list_with steps_left (phases c) + Nat.b2n (negb (size_set c)))%nat.

Lemma next_decreases f p ph s :
  (∀ b r, ph ≠ PDone b r) → ∃ ph' s', next f p ph s = Some (ph', s') ∧ (steps_left ph' < steps_left ph)%nat.
Proof using simple parts.
  intros Hne. destruct ph as [|total| |total|vs|e|r|e|b r]; [..|by destruct (Hne b r)]; cbn [next].
  all: destruct f as [[x []]|]; unfold failed;
    repeat match goal with |- context [match ?x with _ => _ end] => destruct x end; do 2 eexists; (split; [reflexivity|simpl; lia]).
Qed.

Lemma sum_insert phs i ph ph' :
  phs !! i = Some ph → (sum_list_with steps_left (<[i := ph']> phs) + steps_left ph = sum_list_with steps_left phs + steps_left ph')%nat.
Proof using.
  revert i. induction phs as [|x phs IH]; intros [|i] Hi; simplify_eq/=; [lia|]. specialize (IH i Hi). lia.
Qed.

Lemma length_step mf c c' : step mf c c' → length (phases c') = length (phases c).
Proof using. intros []; simpl; [done|by rewrite length_insert]. Qed.

(** As long as a part is not done, a step can be made. *)
Lemma can_step c : good c → length (phases c) = length parts → finished c ∨ ∃ c', timely c c' ∧ (work c' < work c)%nat.
Proof using simple parts.
  intros Hg Hlen. destruct c as [phs s b]. destruct b.
  - destruct (decide (Forall (λ ph, steps_left ph = 0%nat) phs)) as [Hall|Hex].
    { left. intros ph Hph. rewrite Forall_forall in Hall. specialize (Hall ph Hph). destruct ph; try done. eauto. }
    right. apply not_Forall_Exists in Hex; [|intros x; apply _]. apply Exists_exists in Hex as (ph & Hph & Hnz).
    apply list_elem_of_lookup in Hph as [i Hi]. destruct (lookup_lt_is_Some_2 parts i) as [p Hp].
    { rewrite <-Hlen. by eapply lookup_lt_Some. }
    destruct (next_decreases None p ph s) as (ph' & s' & Hn & Hlt). { intros b r ->. by apply Hnz. }
    exists (Config (<[i := ph']> phs) s' true). split.
    + split; [|by left]. by eapply step_part.
    + unfold work. simpl. pose proof (sum_insert phs i ph ph' Hi). lia.
  - right. exists (Config phs (set_chord_size chord_size s) true). split; [|unfold work; simpl; lia].
    split; [apply step_size|]. right. destruct Hg as [l Hr _ _ _ _ _ _ _|i ph ? _ _]; done.
Qed.

(** C16: a chord in Redis completes.  If nothing raises, the members succeed and have their
    indices, and the size is set before the last of them is sent, then whatever the order
    of steps, the chord can always be finished, and when all parts are done its callback
    was sent exactly once, with the results in the order of the group. *)
Theorem redis_chord_completes c :
  parts ≠ [] → rtc timely start c →
  (finished c → filter (λ c, is_Delay c = true) (log (shared c)) = [Delay results]) ∧
  ∃ c', rtc timely c c' ∧ finished c'.
Proof using HK HO distinct indexed succeed decode_encode simple sized.
  intros Hne Hs.
  assert (good c ∧ length (phases c) = length parts) as [Hg Hlen].
  { assert (length (phases start) = length parts) as Hl by (simpl; by rewrite length_replicate).
    pose proof (start_good Hne) as H. revert H Hl. induction Hs as [|c1 c2 c3 Hst _ IH]; [done|]. intros Hg Hl.
    apply IH; [by eapply good_step|]. destruct Hst as [Hst _]. by rewrite (length_step _ _ _ Hst). }
  split.
  - intros Hf. destruct Hg as [l Hr _ _ _ _ _ _ _|i ph _ [H1 _] H3].
    + by destruct (Hf _ Hr) as (b & r & ?).
    + destruct (Hf ph) as (b & r & ->); [by eapply list_elem_of_lookup_2|]. by destruct H3 as (_ & _ & ?).
  - clear Hs. remember (work c) as n eqn:En. revert c En Hg Hlen. induction (lt_wf n) as [n _ IH]. intros c -> Hg Hlen.
    destruct (can_step c Hg Hlen) as [Hf|(c1 & Hst & Hlt)]; [by exists c|].
    destruct (IH (work c1) Hlt c1 eq_refl) as (c' & Hs & Hf).
    + by eapply good_step.
    + destruct Hst as [Hst _]. by rewrite (length_step _ _ _ Hst).
    + exists c'. split; [by eapply rtc_l|done].
Qed.

(** An error while the keys are deleted is reported as an error of the callback, which was
    already sent. *)
Lemma sent_and_failed x b p s :
  is_Exception x = true → x ≠ ChordError →
  ∃ s', next (Some (x, b)) p (PDelete (Ok ())) s = Some (PError (JoinError x), s').
Proof using.
  intros Hx Hne. cbn [next]. unfold failed. rewrite bool_decide_false by done. rewrite Hx. destruct b; eauto.
Qed.

End Redis.

(** ** Examples *)
Module Examples.

(** A sorted set of encoded results as a sorted list *)
Definition B : Type := string * string * nat.
Definition score_leb (a b : score) : bool :=
  match a, b with Index x, Index y => x <=? y | _, PosInf => true | PosInf, Index _ => false end.
Fixpoint put (p : B * score) (l : list (B * score)) : list (B * score) :=
  match l with [] => [p] | q :: l => if score_leb p.2 q.2 then p :: q :: l else q :: put p l end.
Definition zset : jobs B :=
  {| J := list (B * score); jempty := [];
     jadd k b x := put (b, x) (filter (λ q, q.1 ≠ b) k);
     jcount k := Z.of_nat (length k); jrange k _ := k.*1 |}.

Lemma score_leb_le a b : score_leb a b = true ↔ score_le a b.
Proof. destruct a, b; simpl; [apply Z.leb_le|done..]. Qed.
Lemma score_leb_gt a b : score_leb a b = false → score_le b a.
Proof. destruct a, b; simpl; [rewrite Z.leb_gt; lia|done..]. Qed.
Lemma put_perm p l : put p l ≡ₚ p :: l.
Proof.
  induction l as [|q l IH]; simpl; [done|]. case_match; [done|]. rewrite IH. apply Permutation_swap.
Qed.
Lemma put_sorted p l : StronglySorted (λ p q : B * score, score_le p.2 q.2) l → StronglySorted (λ p q : B * score, score_le p.2 q.2) (put p l).
Proof.
  induction 1 as [|q l Hl IH Hq]; simpl; [by repeat constructor|]. destruct (score_leb p.2 q.2) eqn:E.
  - apply score_leb_le in E. constructor; [by constructor|]. constructor; [done|].
    eapply Forall_impl; [exact Hq|]. intros x Hx. simpl in *. revert E Hx.
    destruct (p.2), (q.2), (x.2); simpl; intros; lia || done.
  - apply score_leb_gt in E. constructor; [done|]. rewrite put_perm. by constructor.
Qed.

Lemma filled_zset l :
  NoDup l.*1 → filled zset l ≡ₚ l ∧ StronglySorted (λ p q : B * score, score_le p.2 q.2) (filled zset l).
Proof.
  induction l as [|[b x] l IH] using rev_ind; intros Hnd; [split; [done|constructor]|].
  rewrite fmap_app in Hnd. apply NoDup_app in Hnd as (Hnd & Hd & _). destruct (IH Hnd) as [Hp Hs].
  unfold filled in *. rewrite foldl_app. simpl.
  assert (filter (λ q : B * score, q.1 ≠ b) (foldl (λ k p, jadd zset k p.1 p.2) (jempty zset) l)
          = foldl (λ k p, jadd zset k p.1 p.2) (jempty zset) l) as Hf.
  { apply filter_all, Forall_forall. intros q Hq Hb. apply (Hd b); [|by apply list_elem_of_singleton].
    apply list_elem_of_fmap. exists q. split; [done|]. by rewrite <-Hp. }
  simpl in *. rewrite Hf. split; [|by apply put_sorted]. rewrite put_perm, Hp. apply Permutation_cons_append.
Qed.

#[global] Instance zset_key : JobKey zset.
Proof.
  split; [done|]. intros l b x Hb Hnd k. destruct (filled_zset l Hnd) as [Hp _]. unfold filled in Hp. fold k in Hp.
  simpl. rewrite put_perm, filter_all; [simpl; lia|]. apply Forall_forall. intros q Hq <-. apply Hb.
  apply list_elem_of_fmap. exists q. split; [done|]. by rewrite <-Hp.
Qed.
#[global] Instance zset_ordered : OrderedKey zset.
Proof. intros l total Hnd _. destruct (filled_zset l Hnd) as [Hp Hs]. by exists (filled zset l). Qed.

Definition members : list (@part nat) := [Part "a"%string (Some 0) SUCCESS 10%nat; Part "b"%string (Some 1) SUCCESS 20%nat; Part "c"%string (Some 2) SUCCESS 30%nat].
Definition ex_timely := timely (V := nat) zset id (@Ok B) id None members 3.

(** The parts return in the order c, a, b, and the last of them completes the chord. *)
Definition ex_turns : list nat := [2; 0; 1; 1; 1; 1; 1]%nat.
Definition ex_turn (c : config zset) (i : nat) : config zset :=
  match phases zset c !! i, members !! i with
  | Some ph, Some p =>
      match next (V := nat) zset id (@Ok B) id None None p ph (shared zset c) with
      | Some (ph', s') => Config zset (<[i := ph']> (phases zset c)) s' (size_set zset c)
      | None => c
      end
  | _, _ => c
  end.
Definition ex_sized : config zset :=
  Config zset (phases zset (start zset members)) (set_chord_size zset 3 (shared zset (start zset members))) true.
Definition ex_end : config zset := foldl ex_turn ex_sized ex_turns.

Lemma ex_turn_timely c i : size_set zset c = true → size_set zset (ex_turn c i) = true ∧ rtc ex_timely c (ex_turn c i).
Proof.
  intros Hc. unfold ex_turn. destruct c as [phs s b]. simpl in *. subst b.
  destruct (phs !! i) as [ph|] eqn:E1; [|done]. destruct (members !! i) as [p|] eqn:E2; [|done].
  destruct (next _ _ _ _ _ _ _ _ _) as [[ph' s']|] eqn:E3; [|done]. split; [done|].
  apply rtc_once. split; [|by left]. by eapply step_part.
Qed.

Lemma ex_run : rtc ex_timely (start zset members) ex_end.
Proof.
  eapply rtc_l with ex_sized. { split; [apply (step_size zset)|]. right. by left. }
  unfold ex_end. assert (size_set zset ex_sized = true) as H by done. revert H. generalize ex_sized.
  induction ex_turns as [|i l IH]; intros c Hc; [done|]. simpl. destruct (ex_turn_timely c i Hc) as [H1 H2].
  etrans; [exact H2|]. by apply IH.
Qed.

Lemma ex_distinct : NoDup (encoded (V := nat) (B := B) id <$> members).
Proof. apply (bool_decide_unpack _). by vm_compute. Qed.

Lemma redis_callback_at_most_once_witness : (cnt is_Delay (log zset (shared zset ex_end)) <= 1)%nat.
Proof.
  apply (redis_callback_at_most_once zset id (@Ok B) id None members 3 ex_distinct).
  eapply rtc_subrel; [|exact ex_run]. intros c c' [H _]. destruct H; [apply step_size|]. by eapply step_part.
Defined.

Lemma redis_chord_completes_witness :
  (finished zset ex_end → filter (λ c, is_Delay c = true) (log zset (shared zset ex_end)) = [Delay [10; 20; 30]%nat]) ∧
  ∃ c', rtc ex_timely ex_end c' ∧ finished zset c'.
Proof.
  apply (redis_chord_completes zset id (@Ok B) id None members 3 ex_distinct); [| | |done|done|done|exact ex_run].
  - intros [|[|[|i]]] p Hp; simplify_eq/=; done.
  - intros p Hp. repeat (apply elem_of_cons in Hp as [-> |Hp]; [done|]). set_solver.
  - done.
Defined.

(** It is finished after these turns. *)
Lemma ex_finished : phases zset ex_end = [PDone false (Ok ()); PDone true (Ok ()); PDone false (Ok ())].
Proof. by vm_compute. Qed.
End Examples.
End RedisChord.
