(* ===== verification/RedisConsumer.v ===== *)
(** Subscriptions of the Redis result consumer (celery/backends/redis.py,
    [ResultConsumer]): threads subscribe to the channels of results and cancel them, and
    a cancel never waits for the lock: if it is busy, its holder unsubscribes later.

    Threads are interleaved between the accesses to what they share without the lock,
    the set of keys to unsubscribe: every operation on that set is a step of its own.
    What is accessed only with the lock (the keys subscribed to, the connection)
    changes together with the step next to it.  The channels of the connection are
    what Redis has been told.  A cancel by the garbage collector in a thread that does
    not hold the lock is like one of another thread.  Commands that fail for good are
    not modelled: an operation on a broken connection reconnects and succeeds. *)

From S2P Require Import Prelude.

Module RedisConsumer.
Section Consumer.
Context {key : Type} `{!EqDecision key, !Countable key}.

(** Where a thread is *)
Inductive pc :=
| Idle
| Locked                        (* in a [_locked] block *)
| Consuming (k : key)           (* in [_consume_from], the key is no longer pending *)
| Check                         (* about to read the pending keys in the outer loop of the flush *)
| Acquire                       (* about to try the lock *)
| Draining                      (* in the inner loop, with the lock *)
| Popped (k : key)              (* in the inner loop, took a key from the pending ones *)
| Releasing                     (* saw no more pending keys, about to release the lock *)
| Reconnecting (back : bool).   (* between [subscribed_to -= pending] and [pending.clear()];
                                   reconnected while draining, or else in a [_locked] block *)

Record state := State {
  lock : option nat;                (* the thread that has it *)
  pending_unsubscribe : gset key;
  subscribed_to : gset key;
  channels : gset key;
  threads : list pc }.

(** ** What a thread does in one step *)

Definition at_ (s : state) (t : nat) (p : pc) : Prop := threads s !! t = Some p.
Definition goto (t : nat) (p : pc) (s : state) : state :=
  State (lock s) (pending_unsubscribe s) (subscribed_to s) (channels s) (<[t := p]> (threads s)).
Definition set_lock (l : option nat) (s : state) : state :=
  State l (pending_unsubscribe s) (subscribed_to s) (channels s) (threads s).
Definition set_pending (p : gset key) (s : state) : state :=
  State (lock s) p (subscribed_to s) (channels s) (threads s).

(** [_consume_from]: first the key is no longer pending, then it is subscribed to *)
Definition discard_pending (k : key) (s : state) : state := set_pending (pending_unsubscribe s ∖ {[k]}) s.
Definition consume_from (k : key) (s : state) : state :=
  if bool_decide (k ∈ subscribed_to s) then s
  else State (lock s) (pending_unsubscribe s) ({[k]} ∪ subscribed_to s) ({[k]} ∪ channels s) (threads s).

(** the first line of [cancel_for] *)
Definition add_pending (k : key) (s : state) : state := set_pending ({[k]} ∪ pending_unsubscribe s) s.

(** one turn of the inner loop of [_flush_pending_unsubscribe], after the key was
    taken from the pending ones *)
Definition unsubscribe (k : key) (s : state) : state :=
  if bool_decide (k ∈ subscribed_to s) then
    State (lock s) (pending_unsubscribe s) (subscribed_to s ∖ {[k]}) (channels s ∖ {[k]}) (threads s)
  else s.

(** [_reconnect_pubsub]: a new connection; the pending keys are subtracted, then
    forgotten, and the others subscribed to again *)
Definition reconnect (s : state) : state :=
  State (lock s) (pending_unsubscribe s) (subscribed_to s ∖ pending_unsubscribe s) ∅ (threads s).
Definition resubscribe (s : state) : state := State (lock s) ∅ (subscribed_to s) (subscribed_to s) (threads s).

Definition holds_lock (p : pc) : bool := match p with Idle | Check | Acquire => false | _ => true end.
Definition will_flush (p : pc) : bool := match p with Check | Acquire => true | _ => false end.
Definition reconnecting (p : pc) : bool := match p with Reconnecting _ => true | _ => false end.

Inductive action := AConsume (k : key) | ACancel (k : key) | ANone.

Inductive step (t : nat) : state → action → state → Prop :=
| s_enter s : at_ s t Idle → lock s = None → step t s ANone (set_lock (Some t) (goto t Locked s))
| s_discard s k : at_ s t Locked → step t s (AConsume k) (goto t (Consuming k) (discard_pending k s))
| s_consume s k : at_ s t (Consuming k) → step t s ANone (goto t Locked (consume_from k s))
| s_reconnect s p : at_ s t p → p = Locked ∨ p = Draining →
    step t s ANone (goto t (Reconnecting (match p with Draining => true | _ => false end)) (reconnect s))
| s_resubscribe s b : at_ s t (Reconnecting b) → step t s ANone (goto t (if b then Draining else Locked) (resubscribe s))
(* the garbage collector cancels in the middle of an operation *)
| s_nested_cancel s k p : at_ s t p → holds_lock p = true → step t s (ACancel k) (add_pending k s)
| s_exit s : at_ s t Locked → step t s ANone (set_lock None (goto t Check s))
| s_cancel s k : at_ s t Idle → step t s (ACancel k) (goto t Check (add_pending k s))
| s_check_empty s : at_ s t Check → pending_unsubscribe s = ∅ → step t s ANone (goto t Idle s)
| s_check s : at_ s t Check → pending_unsubscribe s ≠ ∅ → step t s ANone (goto t Acquire s)
| s_acquire s : at_ s t Acquire → lock s = None → step t s ANone (set_lock (Some t) (goto t Draining s))
| s_busy s t' : at_ s t Acquire → lock s = Some t' → step t s ANone (goto t Idle s)
| s_pop s k : at_ s t Draining → k ∈ pending_unsubscribe s → step t s ANone (goto t (Popped k) (discard_pending k s))
| s_unsubscribe s k : at_ s t (Popped k) → step t s ANone (goto t Draining (unsubscribe k s))
| s_drained s : at_ s t Draining → pending_unsubscribe s = ∅ → step t s ANone (goto t Releasing s)
| s_release s : at_ s t Releasing → step t s ANone (set_lock None (goto t Check s)).

(** ** What the threads want *)

(** The keys whose last action was to consume *)
Definition want (a : action) (w : gset key) : gset key :=
  match a with AConsume k => {[k]} ∪ w | ACancel k => w ∖ {[k]} | ANone => w end.

(** The keys that were cancelled at a bad time: while a thread is between
    subtracting the pending keys and forgetting them *)
Definition lose (s : state) (a : action) (l : gset key) : gset key :=
  match a with ACancel k => if existsb reconnecting (threads s) then {[k]} ∪ l else l | _ => l end.

(** [runs s s' w l]: from [s] to [s'], with the keys wanted and the keys cancelled at
    a bad time *)
Inductive runs (s0 : state) : state → gset key → gset key → Prop :=
| runs_refl : runs s0 s0 ∅ ∅
| runs_step s1 w l t a s2 : runs s0 s1 w l → step t s1 a s2 → runs s0 s2 (want a w) (lose s1 a l).

Definition initial (n : nat) : state := State None ∅ ∅ ∅ (replicate n Idle).

(** ** The invariant *)

(** The keys subscribed to when the holder of the lock, at [p], is done *)
Definition settles (p : pc) (sub : gset key) : gset key :=
  match p with Consuming k => {[k]} ∪ sub | Popped k => sub ∖ {[k]} | _ => sub end.
Definition holder (s : state) : pc := default Idle (lock s ≫= λ t, threads s !! t).

(** Wanted keys are subscribed to or will be; others are so only if they are pending
    or were cancelled at a bad time. *)
Definition agrees (s : state) (p : pc) (w l : gset key) : Prop :=
  w ⊆ settles p (subscribed_to s) ∖ pending_unsubscribe s ∧
  settles p (subscribed_to s) ∖ pending_unsubscribe s ⊆ w ∪ l ∧
  (if reconnecting p then subscribed_to s ∩ pending_unsubscribe s ⊆ l else channels s = subscribed_to s).

Record inv (s : state) (w l : gset key) : Prop := {
  i_agrees : agrees s (holder s) w l;
  i_lock t p : threads s !! t = Some p → (holds_lock p = true ↔ lock s = Some t);
  i_owner t : lock s = Some t → t < length (threads s);
  i_pending : pending_unsubscribe s ≠ ∅ → is_Some (lock s) ∨ ∃ t p, threads s !! t = Some p ∧ will_flush p = true }.

Lemma initial_inv n : inv (initial n) ∅ ∅.
Proof. split; simpl; try done. intros t p [-> _]%lookup_replicate. done. Qed.

(** A thread at [p] moves on to [q], with or without the lock. *)
Lemma lock_moves s t p q lk (w l : gset key) :
  inv s w l → threads s !! t = Some p →
  (lk = if holds_lock q then Some t else if holds_lock p then None else lock s) →
  (holds_lock p = false → holds_lock q = true → lock s = None) →
  (∀ t' p', <[t := q]> (threads s) !! t' = Some p' → (holds_lock p' = true ↔ lk = Some t')) ∧
  (∀ t', lk = Some t' → t' < length (<[t := q]> (threads s))).
Proof.
  intros Hi Ht -> Hfree. pose proof (lookup_lt_Some _ _ _ Ht) as Hlt. pose proof (i_lock _ _ _ Hi _ _ Ht) as Hp. split.
  - intros t' p' Hp'. destruct (decide (t = t')) as [<-|Hne].
    + rewrite list_lookup_insert_eq in Hp' by done. injection Hp' as <-. destruct (holds_lock q), (holds_lock p); try done.
    + rewrite list_lookup_insert_ne in Hp' by done. pose proof (i_lock _ _ _ Hi _ _ Hp') as Hp''.
      destruct (holds_lock p) eqn:Ep; [|destruct (holds_lock q) eqn:Eq; [|done]].
      * assert (lock s = Some t) as Hl by (by apply Hp). rewrite Hl in Hp''. destruct (holds_lock q); [done|]. split; [|done].
        intros H. apply Hp'' in H. congruence.
      * rewrite (Hfree eq_refl eq_refl) in Hp''. split; [by intros ?%Hp''|congruence].
  - intros t'. rewrite length_insert. destruct (holds_lock q); [by intros [= <-]|]. destruct (holds_lock p); [done|]. apply (i_owner _ _ _ Hi).
Qed.

Lemma holder_at s t p w l : inv s w l → threads s !! t = Some p → holds_lock p = true → lock s = Some t ∧ holder s = p.
Proof. intros Hi Ht Hp. assert (lock s = Some t) as Hl by (by apply (i_lock _ _ _ Hi t p)). split; [done|]. unfold holder. rewrite Hl. simpl. by rewrite Ht. Qed.

(** Others that will flush still do. *)
Lemma still_flushing s t p q :
  threads s !! t = Some p → will_flush p = false →
  (∃ t' p', threads s !! t' = Some p' ∧ will_flush p' = true) →
  ∃ t' p', <[t := q]> (threads s) !! t' = Some p' ∧ will_flush p' = true.
Proof.
  intros Ht Hp (t' & p' & Ht' & Hp'). exists t', p'. split; [|done].
  rewrite list_lookup_insert_ne; [done|]. intros <-. congruence.
Qed.

Lemma bad_time s w l : inv s w l → existsb reconnecting (threads s) = reconnecting (holder s).
Proof.
  intros Hi. destruct (existsb reconnecting (threads s)) eqn:E.
  - apply existsb_exists in E as (p & Hin & Hp). apply list_elem_of_In, list_elem_of_lookup in Hin as [t Ht].
    destruct (holder_at s t p w l Hi Ht) as [_ ->]; [by destruct p|done].
  - unfold holder. destruct (lock s) as [t|]; [|done]. simpl. destruct (threads s !! t) as [p|] eqn:Ep; [|done]. simpl.
    symmetry. destruct (reconnecting p) eqn:Er; [|done]. rewrite <-E. symmetry. apply existsb_exists. exists p. split; [|done].
    by eapply list_elem_of_In, list_elem_of_lookup_2.
Qed.

(** *** What each access does to the keys *)

Lemma agrees_discard s k w l : agrees s Locked w l → agrees (discard_pending k s) (Consuming k) ({[k]} ∪ w) l.
Proof.
  intros (Hw & Hl & Hc). split_and!; simpl in *; [..|done]; intros y; destruct (decide (y = k)) as [->|]; set_solver.
Qed.

Lemma agrees_consume s k w l : agrees s (Consuming k) w l → agrees (consume_from k s) Locked w l.
Proof.
  intros (Hw & Hl & Hc). unfold consume_from. simpl in *. case_bool_decide; split_and!; simpl; [set_solver..|done|set_solver|set_solver|].
  by rewrite Hc.
Qed.

Lemma agrees_reconnect s p b w l : p = Locked ∨ p = Draining → agrees s p w l → agrees (reconnect s) (Reconnecting b) w l.
Proof. intros Hp (Hw & Hl & Hc). assert (∀ x, settles p x = x) as Hs by (by destruct Hp as [-> | ->]). rewrite Hs in *. split_and!; simpl; set_solver. Qed.

Lemma agrees_resubscribe s b p w l : p = Locked ∨ p = Draining → agrees s (Reconnecting b) w l → agrees (resubscribe s) p w l.
Proof.
  intros Hp (Hw & Hl & Hc). assert (∀ x, settles p x = x) as Hs by (by destruct Hp as [-> | ->]).
  unfold agrees. rewrite Hs. simpl in *. split_and!; [set_solver| |by destruct Hp as [-> | ->]].
  intros y Hy. destruct (decide (y ∈ pending_unsubscribe s)); set_solver.
Qed.

Lemma agrees_cancel s k p w l :
  agrees s p w l → agrees (add_pending k s) p (w ∖ {[k]}) (if reconnecting p then {[k]} ∪ l else l).
Proof.
  intros (Hw & Hl & Hc). unfold agrees. simpl. destruct (reconnecting p); split_and!; try done;
    try (intros y; destruct (decide (y = k)) as [->|]; set_solver); set_solver.
Qed.

Lemma agrees_pop s k w l : k ∈ pending_unsubscribe s → agrees s Draining w l → agrees (discard_pending k s) (Popped k) w l.
Proof.
  intros Hk (Hw & Hl & Hc). split_and!; simpl in *; [..|done]; intros y; destruct (decide (y = k)) as [->|]; set_solver.
Qed.

Lemma agrees_unsubscribe s k w l : agrees s (Popped k) w l → agrees (unsubscribe k s) Draining w l.
Proof.
  intros (Hw & Hl & Hc). unfold unsubscribe. simpl in *. case_bool_decide; split_and!; simpl; [set_solver..|by rewrite Hc|set_solver| |done].
  intros y. destruct (decide (y = k)) as [->|]; set_solver.
Qed.

(** A step of the thread [t] from [p] to [q] that leaves the keys [s'] *)
Lemma moves s s' t p q lk w l w' l' :
  inv s w l → threads s !! t = Some p → threads s' = threads s → lock s' = lock s →
  (lk = if holds_lock q then Some t else if holds_lock p then None else lock s) →
  (holds_lock p = false → holds_lock q = true → lock s = None) →
  agrees s' (if holds_lock q then q else if holds_lock p then Idle else holder s) w' l' →
  (pending_unsubscribe s' ≠ ∅ → is_Some lk ∨ will_flush q = true ∨ (holds_lock p = false ∧ will_flush p = false ∧ pending_unsubscribe s ≠ ∅)) →
  inv (set_lock lk (goto t q s')) w' l'.
Proof.
  intros Hi Ht Hth Hlk Hk Hfree Ha Hp. pose proof (lookup_lt_Some _ _ _ Ht) as Hlt.
  destruct (lock_moves s t p q lk w l Hi Ht Hk Hfree) as [H1 H2]. split; simpl; rewrite ?Hth; [|done|done|].
  - assert (holder (set_lock lk (goto t q s')) = if holds_lock q then q else if holds_lock p then Idle else holder s) as ->; [|done].
    unfold holder. simpl. rewrite Hth, Hk. destruct (holds_lock q) eqn:Eq; simpl; [by rewrite list_lookup_insert_eq|].
    destruct (holds_lock p) eqn:Ep; [done|]. destruct (lock s) as [t'|] eqn:El; [|done]. simpl. rewrite list_lookup_insert_ne; [done|].
    intros <-. pose proof (proj2 (i_lock _ _ _ Hi _ _ Ht) El). congruence.
  - intros Hne. destruct (Hp Hne) as [?|[Hq|(Hh & Hq & Hne')]]; [by left|right; exists t, q; by rewrite list_lookup_insert_eq|].
    destruct (i_pending _ _ _ Hi Hne') as [Hs|Hfl]; [|right; by eapply still_flushing].
    left. rewrite Hk, Hh. by destruct (holds_lock q).
Qed.

Lemma moves_keep s s' t p q w l w' l' :
  inv s w l → threads s !! t = Some p → threads s' = threads s → lock s' = lock s → holds_lock q = holds_lock p →
  agrees s' (if holds_lock q then q else holder s) w' l' →
  (pending_unsubscribe s' ≠ ∅ → holds_lock p = true ∨ will_flush q = true ∨ (will_flush p = false ∧ pending_unsubscribe s ≠ ∅) ∨ is_Some (lock s)) →
  inv (goto t q s') w' l'.
Proof.
  intros Hi Ht Hth Hlk Hq Ha Hp.
  replace (goto t q s') with (set_lock (if holds_lock q then Some t else lock s) (goto t q s')).
  - eapply (moves s s' t p q); try done.
    + rewrite Hq. by destruct (holds_lock p).
    + by rewrite Hq; intros ->.
    + rewrite Hq in *. by destruct (holds_lock p).
    + intros Hne. rewrite Hq. destruct (holds_lock p) eqn:Ep; [by left|].
      destruct (Hp Hne) as [?|[?|[[? ?]|?]]]; [done|by right; left|by right; right|by left].
  - unfold set_lock, goto. simpl. rewrite Hlk. f_equal. rewrite Hq. destruct (holds_lock p) eqn:Ep; [|done].
    symmetry. by apply (i_lock _ _ _ Hi t p).
Qed.

Lemma step_inv t s a s' w l : inv s w l → step t s a s' → inv s' (want a w) (lose s a l).
Proof.
  intros Hi Hst. pose proof (i_agrees _ _ _ Hi) as Ha. pose proof (bad_time _ _ _ Hi) as Hb.
  destruct Hst as [s Ht Hn|s k Ht|s k Ht|s p Ht Hp|s b Ht|s k p Ht Hp|s Ht|s k Ht|s Ht He|s Ht He|s Ht Hn|s t' Ht Hn|s k Ht Hk|s k Ht|s Ht He|s Ht];
    cbn [want lose]; unfold at_ in Ht;
    try (match type of Ht with _ = Some ?p => destruct (holder_at s t p w l Hi Ht eq_refl) as [Hlk Hh]; rewrite Hh in Ha end).
  - eapply (moves s s t Idle Locked); try done; [|by left]. simpl. unfold holder in Ha. rewrite Hn in Ha. exact Ha.
  - eapply (moves_keep s _ t Locked); try done; [by apply agrees_discard|by left].
  - eapply (moves_keep s _ t (Consuming k)); try done; [..|by left].
    + unfold consume_from. by case_bool_decide.
    + unfold consume_from. by case_bool_decide.
    + by apply agrees_consume.
  - destruct (holder_at s t p w l Hi Ht) as [Hlk Hh]; [by destruct Hp as [-> | ->]|]. rewrite Hh in Ha.
    eapply (moves_keep s _ t p); try done; [by destruct Hp as [-> | ->]| |left; by destruct Hp as [-> | ->]].
    by eapply agrees_reconnect.
  - eapply (moves_keep s _ t (Reconnecting b)); try done; [by destruct b|].
    destruct b; by eapply agrees_resubscribe; eauto.
  - destruct (holder_at s t p w l Hi Ht Hp) as [Hlk Hh]. rewrite Hb, Hh in *.
    split; [|apply (i_lock _ _ _ Hi)|apply (i_owner _ _ _ Hi)|intros _; left; by exists t].
    change (holder (add_pending k s)) with (holder s). rewrite Hh. by apply agrees_cancel.
  - eapply (moves s s t Locked Check); try done. by right; left.
  - eapply (moves_keep s _ t Idle); try done; [|by right; left]. cbn [holds_lock]. rewrite Hb. by apply agrees_cancel.
  - eapply (moves_keep s _ t Check); try done.
  - eapply (moves_keep s _ t Check); try done. by right; left.
  - eapply (moves s s t Acquire Draining); try done; [|by left]. simpl. unfold holder in Ha. rewrite Hn in Ha. exact Ha.
  - eapply (moves_keep s _ t Acquire); try done. intros _. right. right. right. by rewrite Hn.
  - eapply (moves_keep s _ t Draining); try done; [by apply agrees_pop|by left].
  - eapply (moves_keep s _ t (Popped k)); try done; [..|by left].
    + unfold unsubscribe. by case_bool_decide.
    + unfold unsubscribe. by case_bool_decide.
    + by apply agrees_unsubscribe.
  - eapply (moves_keep s _ t Draining); try done.
  - eapply (moves s s t Releasing Check); try done. by right; left.
Qed.

Lemma runs_inv n s w l : runs (initial n) s w l → inv s w l.
Proof. intros Hr. induction Hr as [|s1 w l t a s2 _ IH Hst]; [apply initial_inv|]. by eapply step_inv. Qed.

(** C31: no subscription is lost, and no cancel but at one bad time.  Whatever the
    interleaving of threads that subscribe to results, cancel them (also from within
    another operation) and reconnect, when all threads are idle no key waits to be
    unsubscribed, the lock is free, and the channels of the connection are the keys
    subscribed to; these include every key whose last action was to subscribe, and any
    other key among them was cancelled at the bad time: while a thread that reconnects
    is between [subscribed_to -= _pending_unsubscribe] and
    [_pending_unsubscribe.clear()].  If no cancel falls there, the keys subscribed to are
    exactly the ones whose last action was to subscribe.  A cancel that does fall there
    can be lost ([cancel_lost_in_reconnect]). *)
Theorem cancels_not_lost n s w bad :
  runs (initial n) s w bad → Forall (λ p, p = Idle) (threads s) →
  pending_unsubscribe s = ∅ ∧ lock s = None ∧ channels s = subscribed_to s ∧
  w ⊆ subscribed_to s ∧ subscribed_to s ⊆ w ∪ bad ∧ (bad = ∅ → subscribed_to s = w).
Proof.
  intros Hr Hidle. pose proof (runs_inv _ _ _ _ Hr) as [Ha Hl Ho Hp].
  assert (∀ t p, threads s !! t = Some p → p = Idle) as Hid.
  { intros t p Ht. rewrite Forall_lookup in Hidle. by eapply Hidle. }
  assert (lock s = None) as Hn.
  { destruct (lock s) as [t|] eqn:E; [|done]. destruct (lookup_lt_is_Some_2 (threads s) t) as [p Ht]; [by apply Ho|].
    pose proof (Hid _ _ Ht). subst p. by pose proof (proj2 (Hl t Idle Ht) eq_refl). }
  assert (pending_unsubscribe s = ∅) as He.
  { destruct (decide (pending_unsubscribe s = ∅)) as [|Hne]; [done|]. exfalso.
    destruct (Hp Hne) as [[t ?]|(t & p & Ht & Hf)]; [congruence|]. by rewrite (Hid _ _ Ht) in Hf. }
  unfold holder in Ha. rewrite Hn in Ha. destruct Ha as (Hw & Hb & Hc). simpl in *. rewrite He, difference_empty_L in *.
  split_and!; [done..|]. intros ->. set_solver.
Qed.
End Consumer.

(** ** Examples *)
Module Examples.

Ltac go H r := eapply (runs_step (key := nat)) in H; [|r].

(** Thread 0 subscribes to 7 while thread 1 cancels 7 and finds the lock busy. *)
Lemma ex_runs : ∃ s : @state nat _ _, runs (initial 2) s ∅ ∅ ∧ threads s = [Idle; Idle] ∧ subscribed_to s = ∅.
Proof.
  pose proof (runs_refl (key := nat) (initial 2)) as H.
  go H ltac:(by apply (s_enter 0)). go H ltac:(by apply (s_discard 0 _ 7)). go H ltac:(by apply (s_consume 0 _ 7)).
  go H ltac:(by apply (s_cancel 1 _ 7)). go H ltac:(by apply (s_check 1)). go H ltac:(by apply (s_busy 1 _ 0)).
  go H ltac:(by apply (s_exit 0)). go H ltac:(by apply (s_check 0)). go H ltac:(by apply (s_acquire 0)).
  go H ltac:(by apply (s_pop 0 _ 7); [done|set_solver]). go H ltac:(by apply (s_unsubscribe 0 _ 7)).
  go H ltac:(by apply (s_drained 0)). go H ltac:(by apply (s_release 0)). go H ltac:(by apply (s_check_empty 0)).
  eexists. split; [exact H|]. split; reflexivity.
Defined.

Lemma cancels_not_lost_witness : ∃ s : @state nat _ _,
  runs (initial 2) s ∅ ∅ ∧ pending_unsubscribe s = ∅ ∧ channels s = subscribed_to s ∧ subscribed_to s = ∅.
Proof.
  destruct ex_runs as (s & Hr & Ht & _). exists s. destruct (cancels_not_lost 2 s ∅ ∅ Hr) as (H1 & _ & H3 & _ & _ & H6).
  - rewrite Ht. by repeat constructor.
  - split; [exact Hr|]. split; [exact H1|]. split; [exact H3|by apply H6].
Defined.

(** Thread 0 is subscribed to 7 and reconnects.  Thread 1 cancels 7 after thread 0 has
    subtracted the pending keys and before it forgets them, and finds the lock busy.
    When both are done, the connection is subscribed to 7 for good. *)
Lemma cancel_lost_in_reconnect : ∃ s : @state nat _ _,
  runs (initial 2) s ∅ {[7]} ∧ threads s = [Idle; Idle] ∧ pending_unsubscribe s = ∅ ∧ channels s = {[7]}.
Proof.
  pose proof (runs_refl (key := nat) (initial 2)) as H.
  go H ltac:(by apply (s_enter 0)). go H ltac:(by apply (s_discard 0 _ 7)). go H ltac:(by apply (s_consume 0 _ 7)).
  go H ltac:(by apply (s_reconnect 0 _ Locked); [done|left]). go H ltac:(by apply (s_cancel 1 _ 7)). go H ltac:(by apply (s_check 1)).
  go H ltac:(by apply (s_busy 1 _ 0)). go H ltac:(by apply (s_resubscribe 0 _ false)).
  go H ltac:(by apply (s_exit 0)). go H ltac:(by apply (s_check_empty 0)).
  eexists. split; [exact H|]. split; [reflexivity|]. split; reflexivity.
Qed.

End Examples.
End RedisConsumer.
