(* ===== verification/Signals.v ===== *)
(** Signals (celery/utils/dispatch/signal.py): receivers are connected to senders, weakly
    by default, and called when a signal is sent.

    Objects are numbers.  The [id] of an object is its address, and addresses are used
    again when objects die; [addr] says where an object is.  A receiver is a function or
    the method of an object, which lives as long as that object.  What receivers return
    is up to them; that they connect and disconnect others meanwhile is not modelled.

    With [use_caching] the cache is a [WeakKeyDictionary]: entries go when their sender
    dies, and looking up or storing a sender that cannot be weakly referenced ([None],
    texts and some other objects) raises [TypeError]. *)

From S2P Require Import Prelude.
From S2P Require Import PyDict.

Module Signals.

(** [_make_id]: the address of an object, of [None] in particular; text stands for itself *)
Inductive ident := Addr (n : nat) | Text (s : string) | AddrNone.
#[global] Instance ident_eq_dec : EqDecision ident.
Proof. solve_decision. Defined.

(** A function, or a function bound to an object; retried receivers have an id of their
    own *)
Record receiver := Receiver { r_func : nat; r_self : option nat; r_dispatch_uid : option ident }.
#[global] Instance receiver_eq_dec : EqDecision receiver.
Proof. solve_decision. Defined.

(** the object a weak reference depends on *)
Definition main_object (r : receiver) : nat := default (r_func r) (r_self r).

Definition key : Type := ident * ident.

(** Senders: [None] is any sender *)
Inductive sender := SNone | SText (s : string) | SObj (o : nat).
#[global] Instance sender_eq_dec : EqDecision sender.
Proof. solve_decision. Defined.

Section Signals.
Context (addr : nat → nat).
Context {R : Type}.
(** how a receiver answers, and what stands for an exception *)
Context (answer : receiver → outcome R) (failure : exn → R).

Definition make_id_sender (s : sender) : ident :=
  match s with SNone => AddrNone | SText t => Text t | SObj o => Addr (addr o) end.
Definition NONE_ID : ident := make_id_sender SNone.

(** Objects that can be weakly referenced *)
Context (referenceable : nat → bool).
Definition weakly (s : sender) : bool := match s with SObj o => referenceable o | _ => false end.

(** the id of a method is that of its function *)
Definition make_id (r : receiver) : ident := Addr (addr (r_func r)).

Definition make_lookup_key (r : receiver) (s : sender) (uid : option ident) : key :=
  match uid with
  | Some u => (u, make_id_sender s)
  | None => match r_dispatch_uid r with
            | Some u => (u, make_id_sender s)
            | None => (make_id r, make_id_sender s)
            end
  end.

(** A connection: its key, the receiver, and whether it is weak *)
Record entry := Entry { e_key : key; e_receiver : receiver; e_weak : bool }.

#[global] Instance entry_eq_dec : EqDecision entry.
Proof. solve_decision. Defined.

(** Cached receivers of a sender; [None] is [NO_RECEIVERS].  Without [use_caching] the
    cache is a plain dictionary. *)
Record signal := Signal {
  receivers : list entry; cache : pydict sender (option (list entry)); dead_receivers : bool;
  finalizers : gset nat;  (* objects that tell the signal when they die *)
  dead : gset nat }.

Context (use_caching : bool).

Definition alive (s : signal) (e : entry) : bool :=
  negb (e_weak e) || bool_decide (main_object (e_receiver e) ∉ dead s).

Definition clear_dead_receivers (s : signal) : signal :=
  if dead_receivers s then
    Signal (filter (λ e, alive s e = true) (receivers s)) (cache s) false (finalizers s) (dead s)
  else s.

(** [_connect_signal] *)
Definition connect_signal (r : receiver) (snd : sender) (weak : bool) (uid : option ident) (s : signal) : signal :=
  let k := make_lookup_key r snd uid in
  let s := if weak then Signal (receivers s) (cache s) (dead_receivers s) ({[main_object r]} ∪ finalizers s) (dead s) else s in
  let s := clear_dead_receivers s in
  let rs := if bool_decide (k ∈ e_key <$> receivers s) then receivers s else receivers s ++ [Entry k r weak] in
  Signal rs [] (dead_receivers s) (finalizers s) (dead s).

(** [connect]: a receiver to be retried is wrapped in a new function [wrapper], is kept
    alive, and is known by the id of the function it wraps *)
Definition connect (r : receiver) (snd : sender) (weak : bool) (uid : option ident) (retry : option nat) (s : signal) : signal :=
  match retry with
  | Some wrapper =>
      let u := default (make_id r) uid in
      connect_signal (Receiver wrapper None (Some u)) snd false (Some u) s
  | None => connect_signal r snd weak uid s
  end.

(** the first entry with a key is deleted *)
Fixpoint remove_key (k : key) (l : list entry) : list entry * bool :=
  match l with
  | [] => ([], false)
  | e :: l => if bool_decide (e_key e = k) then (l, true) else let '(l, b) := remove_key k l in (e :: l, b)
  end.

Definition disconnect (r : receiver) (snd : sender) (uid : option ident) (s : signal) : signal * bool :=
  let k := make_lookup_key r snd uid in
  let s := clear_dead_receivers s in
  let '(rs, b) := remove_key k (receivers s) in
  (Signal rs [] (dead_receivers s) (finalizers s) (dead s), b).

(** [sender_receivers_cache.get(sender)] and [sender_receivers_cache[sender] = v] *)
Definition cache_get (snd : sender) (s : signal) : outcome (option (option (list entry))) :=
  if use_caching && negb (weakly snd) then Raise TypeError else Ok (dict_get (cache s) snd).
Definition cache_set (snd : sender) (v : option (list entry)) (s : signal) : outcome signal :=
  if use_caching && negb (weakly snd) then Raise TypeError
  else Ok (Signal (receivers s) (dict_set (cache s) snd v) (dead_receivers s) (finalizers s) (dead s)).

Definition forget_sender (o : nat) (c : pydict sender (option (list entry))) : pydict sender (option (list entry)) :=
  filter (λ kv, kv.1 ≠ SObj o) c.

(** An object dies: nothing refers to it strongly.  A cached sender goes with it. *)
Definition die (o : nat) (s : signal) : signal :=
  Signal (receivers s) (forget_sender o (cache s)) (dead_receivers s || bool_decide (o ∈ finalizers s)) (finalizers s) ({[o]} ∪ dead s).

Definition matches (snd : sender) (e : entry) : bool :=
  bool_decide ((e_key e).2 = NONE_ID) || bool_decide ((e_key e).2 = make_id_sender snd).

(** [_live_receivers] *)
Definition live_receivers (snd : sender) (s : signal) : signal * outcome (list receiver) :=
  match (if use_caching && negb (dead_receivers s) then cache_get snd s else Ok None) with
  | Raise x => (s, Raise x)
  | Diverge => (s, Diverge)
  | Ok (Some None) => (s, Ok [])
  | Ok (Some (Some rs)) => (s, Ok (e_receiver <$> filter (λ e, alive s e = true) rs))
  | Ok None =>
      let s := clear_dead_receivers s in
      let rs := filter (λ e, matches snd e = true) (receivers s) in
      match (if use_caching then cache_set snd (match rs with [] => None | _ => Some rs end) s else Ok s) with
      | Raise x => (s, Raise x)
      | Diverge => (s, Diverge)
      | Ok s => (s, Ok (e_receiver <$> filter (λ e, alive s e = true) rs))
      end
  end.

(** Receivers are called in turn; what they raise is their answer. *)
Fixpoint call_all (rs : list receiver) : outcome (list (receiver * R)) :=
  match rs with
  | [] => Ok []
  | r :: rs =>
      let! v := match answer r with
                | Raise e => if is_Exception e then Ok (failure e) else Raise e
                | o => o
                end in
      let! l := call_all rs in Ok ((r, v) :: l)
  end.

Definition send (snd : sender) (s : signal) : signal * outcome (list (receiver * R)) :=
  if bool_decide (receivers s = []) then (s, Ok [])
  else match cache_get snd s with
       | Raise x => (s, Raise x)
       | Diverge => (s, Diverge)
       | Ok (Some None) => (s, Ok [])
       | Ok _ => let '(s, rs) := live_receivers snd s in (s, let! rs := rs in call_all rs)
       end.

Definition has_listeners (snd : sender) (s : signal) : signal * outcome bool :=
  let '(s, rs) := live_receivers snd s in (s, let! rs := rs in Ok (negb (bool_decide (rs = [])))).

(** ** An abstract signal: the connections whose receivers are alive *)

Abbreviation conns := (list entry).

Definition spec_connect (r : receiver) (snd : sender) (weak : bool) (uid : option ident) (l : conns) : conns :=
  let k := make_lookup_key r snd uid in
  if bool_decide (k ∈ e_key <$> l) then l else l ++ [Entry k r weak].
Definition spec_connect_retry (r : receiver) (snd : sender) (weak : bool) (uid : option ident) (retry : option nat) (l : conns) : conns :=
  match retry with
  | Some w => let u := default (make_id r) uid in spec_connect (Receiver w None (Some u)) snd false (Some u) l
  | None => spec_connect r snd weak uid l
  end.
Definition spec_die (o : nat) (l : conns) : conns :=
  filter (λ e, e_weak e = false ∨ main_object (e_receiver e) ≠ o) l.
Definition spec_live (snd : sender) (l : conns) : list receiver := e_receiver <$> filter (λ e, matches snd e = true) l.

Inductive op :=
| OConnect (r : receiver) (snd : sender) (weak : bool) (uid : option ident) (retry : option nat)
| ODisconnect (r : receiver) (snd : sender) (uid : option ident)
| ODie (o : nat)
| OSend (snd : sender)
| OHasListeners (snd : sender).

(** What a caller sees *)
Inductive seen := SNothing | SBool (b : outcome bool) | SAnswers (l : outcome (list (receiver * R))).

Definition run_op (o : op) (s : signal) : signal * seen :=
  match o with
  | OConnect r snd weak uid retry => (connect r snd weak uid retry s, SNothing)
  | ODisconnect r snd uid => let '(s, b) := disconnect r snd uid s in (s, SBool (Ok b))
  | ODie o => (die o s, SNothing)
  | OSend snd => let '(s, l) := send snd s in (s, SAnswers l)
  | OHasListeners snd => let '(s, b) := has_listeners snd s in (s, SBool b)
  end.

Definition spec_op (o : op) (l : conns) : conns * seen :=
  match o with
  | OConnect r snd weak uid retry => (spec_connect_retry r snd weak uid retry l, SNothing)
  | ODisconnect r snd uid => let '(l, b) := remove_key (make_lookup_key r snd uid) l in (l, SBool (Ok b))
  | ODie o => (spec_die o l, SNothing)
  | OSend snd => (l, SAnswers (call_all (spec_live snd l)))
  | OHasListeners snd => (l, SBool (Ok (negb (bool_decide (spec_live snd l = [])))))
  end.

(** Only live receivers are connected, and the cache can hold the senders of signals. *)
Definition op_ok (s : signal) (o : op) : Prop :=
  match o with
  | OConnect r _ _ _ _ => main_object r ∉ dead s
  | OSend snd | OHasListeners snd => use_caching = false ∨ weakly snd = true
  | _ => True
  end.

Definition live (s : signal) : conns := filter (λ e, alive s e = true) (receivers s).

Record inv (s : signal) : Prop := {
  i_clean : dead_receivers s = false → live s = receivers s;
  i_final e : e ∈ receivers s → e_weak e = true → main_object (e_receiver e) ∈ finalizers s;
  i_uncached : use_caching = false → cache s = [];
  i_none snd : dict_get (cache s) snd = Some None → filter (λ e, matches snd e = true) (live s) = [];
  i_some snd l : dict_get (cache s) snd = Some (Some l) →
    filter (λ e, alive s e = true) l = filter (λ e, matches snd e = true) (live s) }.

Definition empty : signal := Signal [] [] false ∅ ∅.

Lemma clear_live s : live (clear_dead_receivers s) = live s.
Proof using.
  unfold clear_dead_receivers. destruct (dead_receivers s); [|done]. apply filter_idemp.
Qed.

Lemma clear_dead_spec s : inv s →
  inv (clear_dead_receivers s) ∧ receivers (clear_dead_receivers s) = live s ∧ dead_receivers (clear_dead_receivers s) = false.
Proof using.
  intros Hi. pose proof Hi as [H1 H2 H3 H4 H5]. pose proof (clear_live s) as Hl. unfold clear_dead_receivers in *.
  destruct (dead_receivers s) eqn:E; [|split_and!; [exact Hi|symmetry; by apply H1|done]].
  split_and!; [|done|done]. split; cbn -[live]; rewrite ?Hl; try done.
  intros e [He Hin]%list_elem_of_filter. by apply H2.
Qed.

Lemma clear_fields s : cache (clear_dead_receivers s) = cache s ∧ finalizers (clear_dead_receivers s) = finalizers s ∧
  dead (clear_dead_receivers s) = dead s.
Proof using. unfold clear_dead_receivers. by destruct (dead_receivers s). Qed.

(** ** Each operation *)

Lemma remove_key_filter k l (P : entry → Prop) :
  Forall P l → Forall P (remove_key k l).1.
Proof using.
  induction 1 as [|e l He Hl IH]; simpl; [constructor|]. case_bool_decide; [done|].
  destruct (remove_key k l). simpl in *. by constructor.
Qed.

Lemma live_all s : live s = receivers s ↔ Forall (λ e, alive s e = true) (receivers s).
Proof using.
  unfold live. induction (receivers s) as [|e l IH]; [done|]. rewrite filter_cons, Forall_cons. case_decide as E.
  - rewrite <-IH. split; [intros [= ->]; done|]. by intros [_ ->].
  - split; [|tauto]. intros Heq. exfalso.
    assert (length (filter (λ e, alive s e = true) l) <= length l) by apply length_filter. rewrite Heq in *. simpl in *. lia.
Qed.

(** A signal whose receivers are all alive and whose cache is empty *)
Lemma inv_fresh rs fin d :
  Forall (λ e, alive (Signal rs [] false fin d) e = true) rs →
  (∀ e, e ∈ rs → e_weak e = true → main_object (e_receiver e) ∈ fin) → inv (Signal rs [] false fin d).
Proof using. intros H1 H2. split; simpl; try done. intros _. by apply live_all. Qed.

Lemma connect_signal_spec r snd weak uid s :
  inv s → main_object r ∉ dead s ∨ weak = false →
  inv (connect_signal r snd weak uid s) ∧ live (connect_signal r snd weak uid s) = spec_connect r snd weak uid (live s).
Proof using.
  intros Hi Hr. unfold connect_signal. set (s1 := if weak then _ else s).
  assert (inv s1 ∧ live s1 = live s ∧ dead s1 = dead s ∧ (weak = true → main_object r ∈ finalizers s1)) as (Hi1 & Hl1 & Hd1 & Hf1).
  { unfold s1. destruct weak; [|done]. split_and!; [|done|done|intros _; apply elem_of_union; left; by apply elem_of_singleton]. destruct Hi as [H1 H2 H3 H4 H5].
    split; try done. intros e He Hw. simpl. apply elem_of_union. right. by apply H2. }
  destruct (clear_dead_spec s1 Hi1) as (Hi2 & Hr2 & Hd2). destruct (clear_fields s1) as (Hc & Hfin & Hdead).
  set (s2 := clear_dead_receivers s1) in *. rewrite Hd2, Hr2, Hl1.
  assert (Forall (λ e, alive s e = true) (live s)) as Hall.
  { apply Forall_forall. intros e [He _]%list_elem_of_filter. done. }
  assert (alive s (Entry (make_lookup_key r snd uid) r weak) = true) as Hnew.
  { unfold alive. simpl. destruct Hr as [Hr| ->]; [|done]. rewrite bool_decide_true by done. apply orb_true_r. }
  assert (∀ e, e ∈ live s → e_weak e = true → main_object (e_receiver e) ∈ finalizers s2) as Hfs.
  { intros e He Hw. rewrite Hfin. apply (i_final _ Hi1); [|done]. rewrite <-Hl1 in He. by apply list_elem_of_filter in He as [_ ?]. }
  unfold spec_connect. case_bool_decide as Hk.
  - assert (inv (Signal (live s) [] false (finalizers s2) (dead s2))) as Hinv.
    { apply inv_fresh; [|done]. unfold alive. simpl. rewrite Hdead, Hd1. exact Hall. }
    split; [done|]. by apply (i_clean _ Hinv).
  - assert (inv (Signal (live s ++ [Entry (make_lookup_key r snd uid) r weak]) [] false (finalizers s2) (dead s2))) as Hinv.
    { apply inv_fresh.
      - unfold alive. simpl. rewrite Hdead, Hd1. apply Forall_app. split; [exact Hall|]. by repeat constructor.
      - intros e [He| ->%list_elem_of_singleton]%elem_of_app; [by apply Hfs|]. simpl. rewrite Hfin. done. }
    split; [done|]. by apply (i_clean _ Hinv).
Qed.

Lemma disconnect_spec r snd uid s :
  inv s → inv (disconnect r snd uid s).1 ∧
  live (disconnect r snd uid s).1 = (remove_key (make_lookup_key r snd uid) (live s)).1 ∧
  (disconnect r snd uid s).2 = (remove_key (make_lookup_key r snd uid) (live s)).2.
Proof using.
  intros Hi. unfold disconnect. destruct (clear_dead_spec s Hi) as (Hi2 & Hr2 & Hd2). destruct (clear_fields s) as (Hc & Hfin & Hdead).
  rewrite Hr2, Hd2. set (k := make_lookup_key r snd uid).
  assert (Forall (λ e, alive s e = true ∧ (e_weak e = true → main_object (e_receiver e) ∈ finalizers s)) (live s)) as Hall.
  { apply Forall_forall. intros e [He Hin]%list_elem_of_filter. split; [done|]. by apply (i_final _ Hi). }
  apply (remove_key_filter k) in Hall. destruct (remove_key k (live s)) as [rs b]. simpl in *.
  rewrite Forall_forall in Hall.
  assert (inv (Signal rs [] false (finalizers (clear_dead_receivers s)) (dead (clear_dead_receivers s)))) as Hinv.
  { apply inv_fresh.
    - apply Forall_forall. intros e He. unfold alive. simpl. rewrite Hdead. by apply Hall.
    - intros e He. rewrite Hfin. by apply Hall. }
  split_and!; [done| |done]. by apply (i_clean _ Hinv).
Qed.

Lemma forget_sender_get o c snd v : dict_get (forget_sender o c) snd = Some v → dict_get c snd = Some v.
Proof using.
  unfold forget_sender. induction c as [|[k w] c IH]; [done|]. rewrite filter_cons. simpl.
  destruct (decide (k ≠ SObj o)) as [Hk|Hk]; simpl; destruct (decide (snd = k)) as [->|]; [done|done| |by apply IH].
  intros Hg. exfalso. apply dict_get_Some_elem in Hg. apply list_elem_of_filter in Hg as [Hne _]. by apply Hk.
Qed.

Lemma die_spec o s : inv s → inv (die o s) ∧ live (die o s) = spec_die o (live s).
Proof using addr referenceable.
  intros [H1 H2 H3 H4 H5].
  assert (∀ l, filter (λ e, alive (die o s) e = true) l = spec_die o (filter (λ e, alive s e = true) l)) as Hf.
  { intros l. unfold spec_die. rewrite list_filter_filter. apply list_filter_iff. intros e. unfold alive. simpl.
    destruct (e_weak e); simpl; [|tauto].
    rewrite !bool_decide_eq_true, not_elem_of_union, not_elem_of_singleton. intuition congruence. }
  assert (live (die o s) = spec_die o (live s)) as Hl by apply Hf.
  split; [|done]. split; cbn [receivers cache dead_receivers finalizers dead die].
  - intros [Hd Ho]%orb_false_iff. rewrite Hl, H1 by done. unfold spec_die. apply bool_decide_eq_false in Ho.
    assert (Forall (λ e, e_weak e = false ∨ main_object (e_receiver e) ≠ o) (receivers s)) as Hall.
    { apply Forall_forall. intros e He. destruct (e_weak e) eqn:E; [|by left]. right. intros <-. by apply Ho, H2. }
    by apply filter_all.
  - done.
  - intros Hu. by rewrite H3.
  - intros snd Hc%forget_sender_get. rewrite Hl. unfold spec_die. rewrite filter_swap, H4; done.
  - intros snd l Hc%forget_sender_get. rewrite Hl, Hf. unfold spec_die. rewrite (H5 snd l Hc). apply filter_swap.
Qed.

Lemma cache_ok snd s v :
  use_caching = false ∨ weakly snd = true →
  cache_get snd s = Ok (dict_get (cache s) snd) ∧
  cache_set snd v s = Ok (Signal (receivers s) (dict_set (cache s) snd v) (dead_receivers s) (finalizers s) (dead s)).
Proof using. unfold cache_get, cache_set. by intros [-> | ->]; [|destruct use_caching]. Qed.

Lemma live_receivers_spec snd s :
  inv s → use_caching = false ∨ weakly snd = true →
  inv (live_receivers snd s).1 ∧ live (live_receivers snd s).1 = live s ∧ (live_receivers snd s).2 = Ok (spec_live snd (live s)).
Proof using.
  intros Hi Hsnd. unfold live_receivers. rewrite (proj1 (cache_ok snd s None Hsnd)).
  set (cached := if use_caching && negb (dead_receivers s) then dict_get (cache s) snd else None).
  assert ((if use_caching && negb (dead_receivers s) then Ok (dict_get (cache s) snd) else Ok None) = Ok cached) as ->
    by (unfold cached; by destruct (use_caching && negb (dead_receivers s))).
  assert (∀ v, cached = Some v → dead_receivers s = false ∧ dict_get (cache s) snd = Some v) as Hcached.
  { intros v. unfold cached. destruct use_caching; [|done]. by destruct (dead_receivers s). }
  destruct cached as [[l|]|]; [| |clear Hcached].
  - destruct (Hcached _ eq_refl) as [Hd Hc]. split_and!; [done|done|]. simpl. unfold spec_live. by rewrite (i_some _ Hi _ _ Hc).
  - destruct (Hcached _ eq_refl) as [Hd Hc]. split_and!; [done|done|]. simpl. unfold spec_live. by rewrite (i_none _ Hi _ Hc).
  - destruct (clear_dead_spec s Hi) as (Hi2 & Hr2 & Hd2). pose proof (clear_live s) as Hl2.
    set (s2 := clear_dead_receivers s) in *. set (rs := filter (λ e, matches snd e = true) (receivers s2)).
    assert (rs = filter (λ e, matches snd e = true) (live s)) as Hrs by (unfold rs; by rewrite Hr2).
    assert (filter (λ e, alive s2 e = true) rs = rs) as Hal.
    { rewrite Hrs, filter_swap. f_equal. rewrite <-Hl2. unfold live. by rewrite filter_idemp. }
    assert (∀ v, cache_set snd v s2 = Ok (Signal (receivers s2) (dict_set (cache s2) snd v) (dead_receivers s2) (finalizers s2) (dead s2)))
      as Hset by (intros v; by apply cache_ok).
    destruct use_caching eqn:Eu; [rewrite Hset|].
    + split_and!; [|exact Hl2|].
      * destruct Hi2 as [H1 H2 H3 H4 H5]. split; cbn -[live]; [done|done|by rewrite Eu| |].
        -- intros snd'. rewrite dict_get_set. case_decide as E; [|by apply H4]. subst snd'. intros Hv.
           change (filter (λ e, matches snd e = true) (live s2) = []). rewrite Hl2, <-Hrs. by destruct rs.
        -- intros snd' l. rewrite dict_get_set. case_decide as E; [|by apply H5]. subst snd'. intros Hv.
           change (filter (λ e, alive s2 e = true) l = filter (λ e, matches snd e = true) (live s2)).
           rewrite Hl2, <-Hrs. destruct rs; [done|]. injection Hv as <-. exact Hal.
      * cbn [Datatypes.snd]. change (Ok (e_receiver <$> filter (λ e, alive s2 e = true) rs) = Ok (spec_live snd (live s))).
        rewrite Hal. unfold spec_live. by rewrite <-Hrs.
    + split_and!; [done|done|]. cbn [Datatypes.snd]. rewrite Hal. unfold spec_live. by rewrite <-Hrs.
Qed.

Lemma run_op_refines o s :
  inv s → op_ok s o →
  inv (run_op o s).1 ∧ live (run_op o s).1 = (spec_op o (live s)).1 ∧ (run_op o s).2 = (spec_op o (live s)).2.
Proof using.
  intros Hi Ho. destruct o as [r snd weak uid retry|r snd uid|o|snd|snd]; cbn [run_op spec_op].
  - unfold connect, spec_connect_retry. destruct retry as [w|].
    + destruct (connect_signal_spec (Receiver w None (Some (default (make_id r) uid))) snd false (Some (default (make_id r) uid)) s Hi) as [H1 H2];
        [by right|]. done.
    + destruct (connect_signal_spec r snd weak uid s Hi) as [H1 H2]; [by left|]. done.
  - destruct (disconnect_spec r snd uid s Hi) as (H1 & H2 & H3). destruct (disconnect r snd uid s), (remove_key _ (live s)).
    simpl in *. by subst.
  - destruct (die_spec o s Hi) as [H1 H2]. done.
  - destruct (live_receivers_spec snd s Hi Ho) as (H1 & H2 & H3).
    unfold send. case_bool_decide as Er; simpl.
    + split_and!; [done|done|]. unfold live. by rewrite Er.
    + rewrite (proj1 (cache_ok snd s None Ho)). destruct (dict_get (cache s) snd) as [[l|]|] eqn:Ec; simpl;
        try (destruct (live_receivers snd s); simpl in *; by subst).
      split_and!; [done|done|]. unfold spec_live. by rewrite (i_none _ Hi _ Ec).
  - unfold has_listeners. destruct (live_receivers_spec snd s Hi Ho) as (H1 & H2 & H3). destruct (live_receivers snd s).
    simpl in *. by subst.
Qed.

(** ** Sequences of operations *)

Fixpoint run (ops : list op) (s : signal) : list seen :=
  match ops with [] => [] | o :: ops => (run_op o s).2 :: run ops (run_op o s).1 end.
Fixpoint spec_run (ops : list op) (l : conns) : list seen :=
  match ops with [] => [] | o :: ops => (spec_op o l).2 :: spec_run ops (spec_op o l).1 end.
Fixpoint ops_ok (ops : list op) (s : signal) : Prop :=
  match ops with [] => True | o :: ops => op_ok s o ∧ ops_ok ops (run_op o s).1 end.

Lemma empty_inv : inv empty.
Proof using. by apply inv_fresh; [constructor|intros e He; apply elem_of_nil in He]. Qed.

(** C35: a signal behaves like the list of its live connections.  For every sequence of
    connecting, disconnecting, sending and asking for listeners, with receivers and
    senders that die at any moment, what callers see is what they would see if a
    connection vanished with its receiver: a dead receiver is not called, does not stand
    in the way of a new one that has its address, and the cache of receivers makes no
    difference.  Receivers are alive when they are connected; when caching is used,
    signals are sent for objects that can be weakly referenced, since for others, [None]
    included, [send] raises ([caching_needs_weakref]). *)
Theorem signal_refines ops : ops_ok ops empty → run ops empty = spec_run ops [].
Proof using.
  assert (∀ s, inv s → ops_ok ops s → run ops s = spec_run ops (live s)) as H.
  { induction ops as [|o ops IH]; intros s Hi Ho; [done|]. destruct Ho as [Ho Hos]. simpl.
    destruct (run_op_refines o s Hi Ho) as (H1 & H2 & H3). rewrite H3, <-H2. f_equal. by apply IH. }
  intros Ho. rewrite H; [done|apply empty_inv|done].
Qed.
(** With [use_caching], sending a signal that has receivers for [None], for a text or for
    any other object that cannot be weakly referenced raises [TypeError]. *)
Lemma caching_needs_weakref snd s :
  use_caching = true → weakly snd = false → receivers s ≠ [] →
  send snd s = (s, Raise TypeError) ∧ (has_listeners snd s).2 = Raise TypeError.
Proof using.
  intros Hu Hs Hr. assert (∀ v s', cache_get snd s' = Raise TypeError ∧ cache_set snd v s' = Raise TypeError) as Hc.
  { intros v s'. unfold cache_get, cache_set. by rewrite Hu, Hs. }
  unfold send. rewrite bool_decide_eq_false_2, (proj1 (Hc None s)) by done. split; [done|].
  unfold has_listeners, live_receivers. rewrite Hu, (proj1 (Hc None s)), (proj2 (Hc _ _)). by destruct (dead_receivers s).
Qed.
End Signals.

(** The id of a method is that of its function, so the same method of two objects cannot be
    connected to the same sender: the second is taken for the first. *)
Lemma second_method_ignored addr f o1 o2 snd (s : signal) :
  o1 ≠ o2 → receivers s = [Entry (Addr (addr f), make_id_sender addr snd) (Receiver f (Some o1) None) true] → dead_receivers s = false →
  receivers (connect addr (Receiver f (Some o2) None) snd true None None s) = receivers s.
Proof.
  intros Hne Hr Hd. unfold connect, connect_signal, clear_dead_receivers. cbn [dead_receivers]. rewrite Hd. cbn [receivers].
  rewrite Hr. cbn. by rewrite bool_decide_true by set_solver.
Qed.

(** ** Example *)
Module Examples.
Local Open Scope string_scope.

(** A function, and another one at the same address after it died *)
Definition addr (n : nat) : nat := match n with 2%nat => 1%nat | n => n end.
Definition f : receiver := Receiver 1 None None.
Definition g : receiver := Receiver 2 None None.
(** [f] and then [g] listen to all senders, the object 5 sends *)
Definition ops : list op :=
  [OConnect f SNone true None None; OSend (SObj 5); ODie 1; OConnect g SNone true None None; OSend (SObj 5);
   ODisconnect g SNone None; OHasListeners (SObj 5)].
Definition answer (r : receiver) : outcome nat := Ok (r_func r).

Lemma signal_refines_witness :
  run addr answer (λ _, 0%nat) (λ _, true) true ops empty = spec_run addr answer (λ _, 0%nat) ops [].
Proof.
  apply (signal_refines addr answer (λ _, 0%nat) (λ _, true) true ops). split_and!; try exact I; try (right; reflexivity); cbn; set_solver.
Defined.

(** It is called although its address was taken. *)
Lemma reused_address :
  run addr answer (λ _, 0%nat) (λ _, true) true ops empty =
    [SNothing; SAnswers (Ok [(f, 1%nat)]); SNothing; SNothing; SAnswers (Ok [(g, 2%nat)]); SBool (Ok true); SBool (Ok false)].
Proof. by vm_compute. Qed.

(** A signal that is sent for [None], as its documentation allows *)
Lemma none_sender_cached :
  run addr answer (λ _, 0%nat) (λ _, true) true [OConnect f SNone true None None; OSend SNone] empty = [SNothing; SAnswers (Raise TypeError)] ∧
  run addr answer (λ _, 0%nat) (λ _, true) false [OConnect f SNone true None None; OSend SNone] empty = [SNothing; SAnswers (Ok [(f, 1%nat)])].
Proof. by vm_compute. Qed.

End Examples.
End Signals.
