(* ===== verification/EventDispatch.v ===== *)
(** Sending and receiving events (celery/events/event.py, dispatcher.py, receiver.py),
    the heartbeat of a worker (celery/worker/heartbeat.py) and the worker's event step
    (celery/worker/consumer/events.py).

    - [Dispatch]: events are published, or wait in a buffer for their group, or, when the
      broker is away, in the outbound buffer.
    - [Heart]: the heartbeat, which the dispatcher starts and stops.
    - [EventsStep]: a new dispatcher takes over from the one of the lost connection.
    - [Receive]: the other end.
    - [Threads]: a flush while other threads send.

    An event is a dictionary.  Times are integers, and offsets from UTC are counted in
    seconds (the source has fractions of hours).  The logical clock is kombu's:
    [forward] and [adjust]. *)

From S2P Require Import Prelude PyDict Effect PyStr EventState.
Import EventState.
Local Open Scope Z_scope.
Local Open Scope string_scope.
Local Open Scope eff_scope.

Module Dispatch.

(** [type.split('-', 1)[0]] *)
Definition group_from (type : string) : string :=
  of_chars (default [] (head (split_on "-" (to_chars type)))).

(** [type.replace('-', '.')] *)
Definition routing_key_of (type : string) : string :=
  of_chars ((λ c, if bool_decide (c = "-"%char) then "."%char else c) <$> to_chars type).

(** [Event]: only fields that are not parameters of it *)
Definition Event (type : string) (fields : attrs) (now : Z) : attrs :=
  if dict_in fields "timestamp" then dict_set fields "type" (VStr type)
  else dict_set (dict_set fields "timestamp" (VNum now)) "type" (VStr type).

(** What is published: an event, or the events of a group *)
Inductive body := One (e : attrs) | Many (es : list attrs).
Definition events_of (b : body) : list attrs := match b with One e => [e] | Many es => es end.
Abbreviation message := (body * string)%type.

Record dispatcher := Dispatcher {
  hostname : string; pid : Z; groups : gset string;
  buffer_group : gset string; buffer_limit : nat; buffer_while_offline : bool; has_on_send_buffered : bool;
  enabled : bool; producer : bool;  (* whether there is a producer *)
  group_buffer : pydict string (list attrs); outbound_buffer : list message;
  trefs : list (option nat)  (* the hearts that are told: the timer of each *) }.

(** The rest of the world: the clock, the broker ([net] says how the next attempts to
    publish end, and all that follow succeed), the timers that run, and whether a flush
    waits in the event loop *)
Record world := World {
  clock : Z; now : Z; net : list (option exn); published : list message;
  timers : gset nat; next_timer : nat; flush_ready : bool }.

Definition st : Type := dispatcher * world.

Definition set_enabled b p (s : st) : st := let '(d, w) := s in
  (Dispatcher (hostname d) (pid d) (groups d) (buffer_group d) (buffer_limit d) (buffer_while_offline d)
     (has_on_send_buffered d) b p (group_buffer d) (outbound_buffer d) (trefs d), w).
Definition set_group_buffer g (s : st) : st := let '(d, w) := s in
  (Dispatcher (hostname d) (pid d) (groups d) (buffer_group d) (buffer_limit d) (buffer_while_offline d)
     (has_on_send_buffered d) (enabled d) (producer d) g (outbound_buffer d) (trefs d), w).
Definition set_outbound o (s : st) : st := let '(d, w) := s in
  (Dispatcher (hostname d) (pid d) (groups d) (buffer_group d) (buffer_limit d) (buffer_while_offline d)
     (has_on_send_buffered d) (enabled d) (producer d) (group_buffer d) o (trefs d), w).
Definition set_trefs t (s : st) : st := let '(d, w) := s in
  (Dispatcher (hostname d) (pid d) (groups d) (buffer_group d) (buffer_limit d) (buffer_while_offline d)
     (has_on_send_buffered d) (enabled d) (producer d) (group_buffer d) (outbound_buffer d) t, w).
Definition set_clock c (s : st) : st := let '(d, w) := s in
  (d, World c (now w) (net w) (published w) (timers w) (next_timer w) (flush_ready w)).
Definition set_net n p (s : st) : st := let '(d, w) := s in
  (d, World (clock w) (now w) n p (timers w) (next_timer w) (flush_ready w)).
Definition set_flush_ready b (s : st) : st := let '(d, w) := s in
  (d, World (clock w) (now w) (net w) (published w) (timers w) (next_timer w) b).

Section Dispatch.
Context (forward : Z → Z) (utcoffset : Z).

Definition clock_forward : eff st Z :=
  do! c := eget (λ s : st, forward (clock s.2)) in
  run! emodify (set_clock c) in
  eret c.

Definition reserved : list string := ["type"; "hostname"; "utcoffset"; "pid"; "clock"].

(** [Event(type, hostname=..., utcoffset=..., pid=..., clock=..., **fields)] *)
Definition new_event (type : string) (c : option Z) (fields : attrs) : eff st attrs :=
  if existsb (λ k, dict_in fields k) reserved then eraise TypeError
  else
    do! d := eget fst in
    do! t := eget (λ s, now s.2) in
    eret (Event type ([("hostname", VStr (hostname d)); ("utcoffset", VNum utcoffset); ("pid", VNum (pid d)); ("clock", of_num c)] ++ fields)%list t).

(** kombu's [Producer.publish]: it succeeds or raises *)
Definition producer_publish (m : message) : eff st () :=
  do! n := eget (λ s, net s.2) in
  do! p := eget (λ s, published s.2) in
  match n with
  | Some e :: n => run! emodify (set_net n p) in eraise e
  | _ => emodify (set_net (tail n) (p ++ [m])%list)
  end.

(** [_publish] *)
Definition _publish (event : body) (producer : bool) (routing_key : string) : eff st () :=
  if producer then
    ecatch (producer_publish (event, routing_key)) (λ e,
      if is_Exception e then
        do! b := eget (λ s, buffer_while_offline s.1) in
        if b then
          do! o := eget (λ s, outbound_buffer s.1) in
          emodify (set_outbound (o ++ [(event, routing_key)])%list)
        else eraise e
      else eraise e)
  else eret ().

Definition publish (type : string) (fields : attrs) (producer blind : bool) : eff st () :=
  do! c := (if blind then eret None else (do! c := clock_forward in eret (Some c))) in
  do! event := new_event type c fields in
  _publish (One event) producer (routing_key_of type).

Definition has_producer : eff st bool := eget (λ s, producer s.1).

(** the error part of [flush] *)
Definition flush_outbound : eff st () :=
  do! buf := eget (λ s, outbound_buffer s.1) in
  run! emodify (set_outbound []) in
  eiter (λ m : message, do! p := has_producer in _publish m.1 p m.2) buf.

(** one round of the loop over groups *)
Definition flush_group (group : string) : eff st () :=
  do! events := eget (λ s, default [] (dict_get (group_buffer s.1) group)) in
  match events with
  | [] => eret ()
  | _ =>
      do! p := has_producer in
      run! _publish (Many events) p (group ++ ".multi") in
      do! g := eget (λ s, group_buffer s.1) in
      emodify (set_group_buffer (dict_set g group (drop (length events) (default [] (dict_get g group)))))
  end.

Definition flush_groups : eff st () :=
  do! g := eget (λ s, group_buffer s.1) in
  eiter flush_group (dict_keys g).

Definition flush (errors groups : bool) : eff st () :=
  run! ewhen errors flush_outbound in
  ewhen groups flush_groups.

Definition send (type : string) (blind : bool) (fields : attrs) : eff st () :=
  do! d := eget fst in
  if enabled d then
    let group := group_from type in
    if negb (bool_decide (groups d = ∅)) && negb (bool_decide (group ∈ groups d)) then eret ()
    else if bool_decide (group ∈ buffer_group d) then
      do! c := clock_forward in
      do! event := new_event type (Some c) fields in
      let buf := (default [] (dict_get (group_buffer d) group) ++ [event])%list in
      run! emodify (set_group_buffer (dict_set (group_buffer d) group buf)) in
      if bool_decide (buffer_limit d <= length buf)%nat then flush true true
      else ewhen (has_on_send_buffered d) (emodify (set_flush_ready true))
    else publish type fields (producer d) blind
  else eret ().

Definition close : eff st () :=
  do! e := eget (λ s, enabled s.1) in
  emodify (set_enabled e false).

Definition extend_buffer (other : dispatcher) : eff st () :=
  do! o := eget (λ s, outbound_buffer s.1) in
  emodify (set_outbound (o ++ outbound_buffer other)%list).

End Dispatch.

(** ** What holds of a dispatcher that is connected *)

Local Open Scope list_scope.

(** Only exceptions that [except Exception] catches come from the broker. *)
Definition faults_ok (n : list (option exn)) : Prop := Forall (λ o, match o with Some e => is_Exception e = true | None => True end) n.

Definition ready (s : st) : Prop :=
  buffer_while_offline s.1 = true ∧ producer s.1 = true ∧ faults_ok (net s.2) ∧ dict_wf (group_buffer s.1).

(** Messages have been handed over: they are at the broker or in the outbound buffer,
    and at the broker, in this order, if it is there. *)
Definition pushed (ms : list message) (s s' : st) : Prop := ∃ n p o,
  s' = set_net n p (set_outbound o s) ∧ faults_ok n ∧
  p ++ o ≡ₚ published s.2 ++ outbound_buffer s.1 ++ ms ∧
  (net s.2 = [] → n = [] ∧ p = published s.2 ++ ms ∧ o = outbound_buffer s.1).

Lemma pushed_ready ms s s' : ready s → pushed ms s s' → ready s'.
Proof. destruct s as [d w]. intros (? & ? & ? & ?) (n & p & o & -> & ? & _). done. Qed.

Lemma pushed_refl s : faults_ok (net s.2) → pushed [] s s.
Proof.
  destruct s as [[] []]; intros ?. unfold pushed. simpl in *. do 3 eexists. split_and!; [done|done| |].
  - by rewrite app_nil_r.
  - intros ->. by rewrite app_nil_r.
Qed.

Lemma pushed_trans ms1 ms2 s1 s2 s3 : pushed ms1 s1 s2 → pushed ms2 s2 s3 → pushed (ms1 ++ ms2) s1 s3.
Proof.
  destruct s1 as [d w]. intros (n1 & p1 & o1 & -> & _ & Hp1 & Hn1) (n & p & o & -> & Hn & Hp & Hq). simpl in *.
  exists n, p, o. split_and!; [done|done| |].
  - rewrite Hp, (app_assoc p1), Hp1. by rewrite <-!app_assoc.
  - intros E. destruct (Hn1 E) as (-> & -> & ->). destruct (Hq eq_refl) as (-> & -> & ->). by rewrite <-app_assoc.
Qed.

Lemma _publish_pushed b rk s : ready s → ∃ s', _publish b true rk s = (s', Ok ()) ∧ pushed [(b, rk)] s s'.
Proof.
  destruct s as [d w]. intros (Hb & Hp & Hn & Hwf). simpl in *.
  unfold _publish, ecatch, producer_publish, ebind, eget. simpl.
  destruct (net w) as [|[e|] n] eqn:En; simpl.
  - eexists; split; [done|]. destruct d, w. unfold pushed. simpl in *. subst.
    do 3 eexists. split_and!; [done|done| |done]. solve_Permutation.
  - apply Forall_cons in Hn as [He Hn]. rewrite He. unfold ebind, eget. simpl. rewrite Hb. eexists; split; [done|]. destruct d, w. unfold pushed. simpl in *. subst.
    do 3 eexists. split_and!; [done|done| |done]. done.
  - apply Forall_cons in Hn as [_ Hn]. eexists; split; [done|]. destruct d, w. unfold pushed. simpl in *. subst.
    do 3 eexists. split_and!; [done|done| |done]. solve_Permutation.
Qed.

Lemma publish_all_pushed ms s : ready s →
  ∃ s', eiter (λ m : message, do! p := has_producer in _publish m.1 p m.2) ms s = (s', Ok ()) ∧ pushed ms s s'.
Proof.
  revert s; induction ms as [|[b rk] ms IH]; intros s Hs; simpl.
  - exists s. split; [done|]. apply pushed_refl, Hs.
  - destruct (_publish_pushed b rk s Hs) as (s1 & E1 & H1).
    rewrite (ebind_Ok _ _ s s1 ()) by (unfold has_producer; rewrite ebind_get, (proj1 (proj2 Hs)); exact E1).
    destruct (IH s1) as (s2 & -> & H2); [by eapply pushed_ready|].
    exists s2. split; [done|]. apply (pushed_trans [(b, rk)] ms _ _ _ H1 H2).
Qed.

Lemma flush_outbound_pushed s : ready s →
  ∃ s', flush_outbound s = (s', Ok ()) ∧ pushed (outbound_buffer s.1) (set_outbound [] s) s'.
Proof.
  intros Hs. unfold flush_outbound, ebind, eget, emodify. simpl.
  apply (publish_all_pushed _ (set_outbound [] s)). destruct s as [[] []]. exact Hs.
Qed.

(** Flushing a group hands its events over as one message, and leaves none of them. *)
Definition batch (group : string) (es : list attrs) : list message :=
  match es with [] => [] | _ => [(Many es, (group ++ ".multi")%string)] end.
Definition waiting (s : st) (group : string) : list attrs := default [] (dict_get (group_buffer s.1) group).

(** The buffer of a group is emptied. *)
Definition emptied (group : string) (s : st) : st :=
  match waiting s group with
  | [] => s
  | _ => set_group_buffer (dict_set (group_buffer s.1) group []) s
  end.

Lemma flush_group_pushed group s : ready s →
  ∃ s', flush_group group s = (s', Ok ()) ∧ pushed (batch group (waiting s group)) (emptied group s) s'.
Proof.
  intros Hs. unfold flush_group, emptied, batch, ebind, eget. fold (waiting s group).
  destruct (waiting s group) as [|e es] eqn:E.
  { exists s. split; [done|]. apply pushed_refl, Hs. }
  unfold has_producer, eget. simpl. rewrite (proj1 (proj2 Hs)).
  destruct (_publish_pushed (Many (e :: es)) (group ++ ".multi") s Hs) as (s1 & -> & (n & p & o & -> & Hn & Hp & Hq)).
  unfold emodify. eexists; split; [done|]. unfold waiting in E.
  exists n, p, o. destruct s as [d w]. simpl in *. rewrite E. simpl. rewrite drop_all. split_and!; try done.
Qed.

Lemma ready_emptied group s : ready s → ready (emptied group s).
Proof.
  unfold emptied. destruct (waiting s group); [done|]. destruct s as [d w]. intros (? & ? & ? & ?).
  unfold ready. simpl in *. split_and!; try done. by apply dict_set_wf.
Qed.

(** The events a dispatcher has taken: published, or in one of its buffers *)
Definition message_events (ms : list message) : list attrs := ms ≫= (λ m, events_of m.1).
Definition buffered (s : st) : list attrs := mjoin (dict_values (group_buffer s.1)).
Definition content (s : st) : list attrs :=
  message_events (published s.2 ++ outbound_buffer s.1) ++ buffered s.

#[global] Instance message_events_perm : Proper ((≡ₚ) ==> (≡ₚ)) message_events.
Proof. intros l l' Hl. unfold message_events. by rewrite Hl. Qed.

Lemma message_events_app l l' : message_events (l ++ l') = message_events l ++ message_events l'.
Proof. apply bind_app. Qed.

Lemma pushed_content ms s s' : pushed ms s s' → content s' ≡ₚ content s ++ message_events ms.
Proof.
  destruct s as [d w]. intros (n & p & o & -> & _ & Hp & _). unfold content, buffered. simpl in *.
  rewrite Hp, (app_assoc (published w)), !message_events_app. solve_Permutation.
Qed.

Lemma buffered_emptied group s : buffered s ≡ₚ waiting s group ++ buffered (emptied group s).
Proof.
  unfold emptied, waiting, buffered. destruct (dict_get (group_buffer s.1) group) as [[|e es]|] eqn:E; simpl; try done.
  destruct (dict_values_set _ _ _ [] E) as (l & H1 & H2). destruct s as [d w]. simpl in *. rewrite H1, H2. done.
Qed.

Lemma batch_events group es : message_events (batch group es) = es.
Proof. destruct es; [done|]. unfold message_events. simpl. by rewrite app_nil_r. Qed.

Lemma content_emptied group s s' :
  pushed (batch group (waiting s group)) (emptied group s) s' → content s' ≡ₚ content s.
Proof.
  intros H%pushed_content. rewrite H, batch_events. unfold content. rewrite (buffered_emptied group s).
  unfold emptied. destruct (waiting s group); destruct s as [d w]; simpl; solve_Permutation.
Qed.

(** What the flushing of groups does to the buffers. *)
Definition drained (ks : list string) (g : pydict string (list attrs)) : pydict string (list attrs) :=
  (λ kv : string * list attrs, (kv.1, if bool_decide (kv.1 ∈ ks) then [] else kv.2)) <$> g.

Lemma drained_nil g : drained [] g = g.
Proof. unfold drained. rewrite <-(list_fmap_id g) at 2. apply list_fmap_ext. by intros ? [k v]. Qed.

Lemma drained_drained ks ks' g : drained ks (drained ks' g) = drained (ks' ++ ks) g.
Proof.
  unfold drained. rewrite <-list_fmap_compose. apply list_fmap_ext. intros _ [k v] _. simpl. f_equal.
  repeat case_bool_decide; set_solver.
Qed.

Lemma drained_get ks g k : dict_get (drained ks g) k = (λ es, if bool_decide (k ∈ ks) then [] else es) <$> dict_get g k.
Proof.
  induction g as [|[k1 v1] g IH]; simpl; [done|]. destruct (decide (k = k1)); subst; done.
Qed.

Lemma drained_notin k g : dict_get g k = None ∨ (dict_wf g ∧ dict_get g k = Some []) → drained [k] g = g.
Proof.
  intros H. unfold drained. rewrite <-(list_fmap_id g) at 2. apply list_fmap_ext. intros i [k' v] Hi. simpl.
  case_bool_decide as Hk; [|done]. apply list_elem_of_singleton in Hk as ->.
  apply list_elem_of_lookup_2 in Hi. destruct H as [H|[Hwf H]].
  - apply dict_get_None in H. exfalso. apply H, list_elem_of_fmap. by exists (k, v).
  - apply (dict_elem_get _ _ _ Hwf) in Hi. congruence.
Qed.

Lemma dict_set_drained k g es : dict_wf g → dict_get g k = Some es → dict_set g k [] = drained [k] g.
Proof.
  unfold dict_wf. induction g as [|[k1 v1] g IH]; simpl; [done|]. intros [Hk Hwf]%NoDup_cons.
  case_decide; subst.
  - intros _. rewrite bool_decide_true by apply list_elem_of_here. f_equal. symmetry. apply drained_notin. left. by apply dict_get_None.
  - intros Hg. rewrite bool_decide_false by (intros ?%list_elem_of_singleton; done). f_equal. by apply IH.
Qed.

Lemma emptied_drained k s : ready s → emptied k s = set_group_buffer (drained [k] (group_buffer s.1)) s.
Proof.
  intros (_ & _ & _ & Hwf). unfold emptied, waiting. destruct s as [d w]. simpl in *.
  assert (∀ g, g = group_buffer d → (d, w) = set_group_buffer g (d, w)) as Hid by (intros ? ->; by destruct d).
  destruct (dict_get (group_buffer d) k) as [[|e es]|] eqn:E; simpl.
  - apply Hid, drained_notin. by right.
  - by rewrite (dict_set_drained _ _ _ Hwf E).
  - apply Hid, drained_notin. by left.
Qed.

Lemma pushed_group_buffer g ms s s' : pushed ms s s' → pushed ms (set_group_buffer g s) (set_group_buffer g s').
Proof. destruct s as [d w]. intros (n & p & o & -> & H). exists n, p, o. by split. Qed.

Lemma pushed_get ms s s' : pushed ms s s' → group_buffer s'.1 = group_buffer s.1.
Proof. destruct s as [d w]. by intros (n & p & o & -> & _). Qed.

Lemma set_group_buffer_idemp g g' s : set_group_buffer g (set_group_buffer g' s) = set_group_buffer g s.
Proof. by destruct s. Qed.

Lemma group_buffer_set g s : group_buffer (set_group_buffer g s).1 = g.
Proof. by destruct s. Qed.

Definition batches (s : st) (ks : list string) : list message := ks ≫= (λ k, batch k (waiting s k)).

Lemma flush_keys_pushed ks s : ready s → NoDup ks →
  ∃ s', eiter flush_group ks s = (s', Ok ()) ∧
    pushed (batches s ks) (set_group_buffer (drained ks (group_buffer s.1)) s) s'.
Proof.
  revert s; induction ks as [|k ks IH]; intros s Hs Hks.
  { exists s. split; [done|]. rewrite drained_nil. destruct s as [[] w]. apply pushed_refl, Hs. }
  apply NoDup_cons in Hks as [Hk Hks]. simpl.
  destruct (flush_group_pushed k s Hs) as (s1 & E1 & H1). rewrite (ebind_Ok _ _ _ _ _ E1).
  destruct (IH s1) as (s2 & E2 & H2); [by eapply pushed_ready, H1; apply ready_emptied|done|].
  exists s2. split; [done|]. pose proof (pushed_get _ _ _ H1) as Hg.
  rewrite (emptied_drained k s Hs) in *. rewrite group_buffer_set in Hg. rewrite Hg, drained_drained in H2. simpl in H2.
  assert (batches s1 ks = batches s ks) as Hb.
  { apply Forall_bind_ext, Forall_forall. intros x Hx. unfold waiting. rewrite Hg, drained_get.
    rewrite bool_decide_false; [by destruct (dict_get _ x)|]. intros ->%list_elem_of_singleton. done. }
  rewrite Hb in H2. eapply pushed_trans; [|exact H2].
  apply (pushed_group_buffer (drained (k :: ks) (group_buffer s.1))) in H1. by rewrite set_group_buffer_idemp in H1.
Qed.
Lemma flush_groups_pushed s : ready s →
  ∃ s', flush_groups s = (s', Ok ()) ∧
    pushed (batches s (dict_keys (group_buffer s.1)))
      (set_group_buffer (drained (dict_keys (group_buffer s.1)) (group_buffer s.1)) s) s'.
Proof. intros Hs. unfold flush_groups. rewrite ebind_get. apply flush_keys_pushed; [done|apply Hs]. Qed.

(** The messages a flush has to get rid of, and the state without them *)
Definition to_flush (s : st) : list message :=
  outbound_buffer s.1 ++ batches s (dict_keys (group_buffer s.1)).
Definition flushed (s : st) : st :=
  set_group_buffer (drained (dict_keys (group_buffer s.1)) (group_buffer s.1)) (set_outbound [] s).

Lemma flush_pushed s : ready s → ∃ s', flush true true s = (s', Ok ()) ∧ pushed (to_flush s) (flushed s) s'.
Proof.
  intros Hs. unfold flush, ewhen.
  destruct (flush_outbound_pushed s Hs) as (s1 & E1 & H1). rewrite (ebind_Ok _ _ _ _ _ E1).
  assert (ready (set_outbound [] s)) as Hs0 by (destruct s as [[] w]; exact Hs).
  pose proof (pushed_get _ _ _ H1) as Hg.
  destruct (flush_groups_pushed s1) as (s2 & E2 & H2); [by eapply pushed_ready|].
  exists s2. split; [done|]. apply (pushed_trans _ _ _ (set_group_buffer (drained (dict_keys (group_buffer s1.1)) (group_buffer s1.1)) s1)).
  - apply (pushed_group_buffer (drained (dict_keys (group_buffer s.1)) (group_buffer s.1))) in H1.
    unfold flushed. rewrite Hg. by destruct s as [[] w].
  - replace (batches s (dict_keys (group_buffer s.1))) with (batches s1 (dict_keys (group_buffer s1.1))); [done|].
    unfold batches, waiting. rewrite Hg. by destruct s as [[] w].
Qed.

Lemma ready_flushed s : ready s → ready (flushed s).
Proof.
  destruct s as [d w]. intros (? & ? & ? & Hwf). unfold ready, flushed. simpl in *. split_and!; try done.
  unfold dict_wf, dict_keys, drained in *. rewrite <-list_fmap_compose. done.
Qed.

Lemma batches_events s ks : message_events (batches s ks) = ks ≫= waiting s.
Proof.
  unfold batches. induction ks as [|k ks IH]; [done|]. rewrite !bind_cons, message_events_app, IH, batch_events. done.
Qed.

Lemma drained_all g : mjoin (dict_values (drained (dict_keys g) g)) = ([] : list attrs).
Proof.
  apply join_nil_2, Forall_forall. intros l Hl. unfold dict_values, drained in Hl.
  rewrite <-list_fmap_compose in Hl. apply list_elem_of_fmap in Hl as ([k v] & -> & H). simpl.
  rewrite bool_decide_true; [done|]. apply list_elem_of_fmap. by exists (k, v).
Qed.

Lemma waiting_all s : dict_wf (group_buffer s.1) → dict_keys (group_buffer s.1) ≫= waiting s = buffered s.
Proof.
  unfold buffered, waiting, dict_wf. generalize (group_buffer s.1). intros g.
  induction g as [|[k v] g IH]; simpl; [done|]. intros [Hk Hwf]%NoDup_cons. rewrite decide_True by done. simpl. f_equal.
  rewrite <-(IH Hwf). apply Forall_bind_ext, Forall_forall. intros x Hx. rewrite decide_False; [done|congruence].
Qed.

Lemma flush_content s s' : ready s → pushed (to_flush s) (flushed s) s' → content s' ≡ₚ content s.
Proof.
  intros Hs H%pushed_content. rewrite H. unfold to_flush. rewrite message_events_app, batches_events.
  rewrite (waiting_all _ (proj2 (proj2 (proj2 Hs)))). unfold content, flushed, buffered. destruct s as [d w]. simpl.
  rewrite drained_all, !message_events_app. simpl. rewrite !app_nil_r. by rewrite app_assoc.
Qed.
(** ** What is promised

    Which events are taken, and with which clock, depends on the calls alone: not on
    the buffers and not on the state of the broker. *)

Section Promise.
Context (forward : Z → Z) (utcoffset : Z).

Inductive op :=
| Send (type : string) (blind : bool) (fields : attrs)
| Flush (errors groups : bool)
| Wait (t : Z).

Definition run_op (o : op) : eff st () :=
  match o with
  | Send type blind fields => send forward utcoffset type blind fields
  | Flush errors groups => flush errors groups
  | Wait t => emodify (λ s, (s.1, World (clock s.2) (now s.2 + t) (net s.2) (published s.2) (timers s.2) (next_timer s.2) (flush_ready s.2)))
  end.

(** An exception of one call does not keep the next from being made. *)
Definition run (ops : list op) (s : st) : st := foldl (λ s o, (run_op o s).1) s ops.

Definition accepts (d : dispatcher) (type : string) : bool :=
  enabled d && (bool_decide (groups d = ∅) || bool_decide (group_from type ∈ groups d)).

Definition conflict (fields : attrs) : bool := existsb (λ k, dict_in fields k) reserved.

Definition stamped (d : dispatcher) (t : Z) (c : option Z) (type : string) (fields : attrs) : attrs :=
  Event type ([("hostname", VStr (hostname d)); ("utcoffset", VNum utcoffset); ("pid", VNum (pid d)); ("clock", of_num c)] ++ fields) t.

(** Time, clock and the events taken *)
Definition spec_op (d : dispatcher) (tc : Z * Z) (o : op) : Z * Z * list attrs :=
  let '(t, c) := tc in
  match o with
  | Send type blind fields =>
      if accepts d type then
        let silent := blind && negb (bool_decide (group_from type ∈ buffer_group d)) in
        let c' := if silent then c else forward c in
        (t, c', if conflict fields then [] else [stamped d t (if silent then None else Some c') type fields])
      else (t, c, [])
  | Flush _ _ => (t, c, [])
  | Wait dt => (t + dt, c, [])
  end.

Fixpoint spec (d : dispatcher) (tc : Z * Z) (ops : list op) : list attrs :=
  match ops with
  | [] => []
  | o :: ops => let '(tc, es) := spec_op d tc o in es ++ spec d tc ops
  end.

(** Only buffers change. *)
Definition same (s s' : st) : Prop := ∃ g o, s'.1 = (set_group_buffer g (set_outbound o s)).1.

Lemma same_refl s : same s s.
Proof. exists (group_buffer s.1), (outbound_buffer s.1). by destruct s as [[] w]. Qed.

Lemma same_pushed ms s s' : pushed ms s s' → same s s'.
Proof. destruct s as [d w]. intros (n & p & o & -> & _). exists (group_buffer d), o. by destruct d. Qed.

Lemma same_trans s1 s2 s3 : same s1 s2 → same s2 s3 → same s1 s3.
Proof.
  destruct s1 as [d1 w1], s2 as [d2 w2]. intros (g & o & E) (g' & o' & E'). exists g', o'. simpl in *. rewrite E', E. done.
Qed.

Lemma spec_same s s' tc ops : same s s' → spec s'.1 tc ops = spec s.1 tc ops.
Proof.
  intros (g & o & E). rewrite E. clear E. destruct s as [d w]. revert tc; induction ops as [|x ops IH]; intros [t c]; [done|].
  simpl in *. destruct x as [type blind fields| |]; simpl; unfold accepts; simpl; try (by rewrite IH).
  destruct (_ && _); by rewrite IH.
Qed.

(** One call: it ends, and takes what the specification says. *)
Definition takes (s s' : st) (tc : Z * Z) (es : list attrs) : Prop :=
  ready s' ∧ same s s' ∧ (now s'.2, clock s'.2) = tc ∧ content s' ≡ₚ content s ++ es.

Lemma takes_refl s : ready s → takes s s (now s.2, clock s.2) [].
Proof. intros. unfold takes. split_and!; [done|apply same_refl|done|by rewrite app_nil_r]. Qed.

Lemma pushed_takes ms s s' : ready s → pushed ms s s' → takes s s' (now s.2, clock s.2) (message_events ms).
Proof.
  intros Hs H. split_and!; [by eapply pushed_ready|by eapply same_pushed| |by apply pushed_content].
  destruct s as [d w]. destruct H as (n & p & o & -> & _). done.
Qed.

Lemma flush_takes errors groups s : ready s →
  ∃ s', flush errors groups s = (s', Ok ()) ∧ takes s s' (now s.2, clock s.2) [].
Proof.
  intros Hs. assert (ready (set_outbound [] s)) as Hs0 by (destruct s as [[] w]; exact Hs).
  assert (∀ s', pushed (outbound_buffer s.1) (set_outbound [] s) s' → takes s s' (now s.2, clock s.2) []) as Hout.
  { intros s' H. split_and!; [by eapply pushed_ready| | |].
    - eapply same_trans; [|by eapply same_pushed]. exists (group_buffer s.1), []. by destruct s as [[] w].
    - destruct s as [d w]. by destruct H as (n & p & o & -> & _).
    - rewrite (pushed_content _ _ _ H). unfold content, buffered. destruct s as [d w]. simpl. rewrite !message_events_app. simpl. solve_Permutation. }
  assert (∀ s, ready s → ∃ s', flush_groups s = (s', Ok ()) ∧ takes s s' (now s.2, clock s.2) []) as Hgr.
  { clear. intros s Hs. destruct (flush_groups_pushed s Hs) as (s' & E & H). exists s'. split; [done|].
    assert (ready (set_group_buffer (drained (dict_keys (group_buffer s.1)) (group_buffer s.1)) s)) as Hr.
    { destruct (ready_flushed s Hs) as (? & ? & ? & Hwf). destruct s as [d w]. unfold ready. simpl in *. done. }
    split_and!; [by eapply pushed_ready| | |].
    - eapply same_trans; [|by eapply same_pushed]. exists (drained (dict_keys (group_buffer s.1)) (group_buffer s.1)), (outbound_buffer s.1). by destruct s as [[] w].
    - destruct s as [d w]. by destruct H as (n & p & o & -> & _).
    - rewrite (pushed_content _ _ _ H), batches_events, (waiting_all _ (proj2 (proj2 (proj2 Hs)))).
      unfold content, buffered. destruct s as [d w]. simpl. rewrite drained_all, !app_nil_r. done. }
  unfold flush, ewhen. destruct errors, groups.
  - destruct (flush_outbound_pushed s Hs) as (s1 & E1 & H1). rewrite (ebind_Ok _ _ _ _ _ E1).
    destruct (Hout s1 H1) as (H1r & H1s & H1c & H1p). destruct (Hgr s1 H1r) as (s2 & E2 & H2r & H2s & H2c & H2p).
    exists s2. split; [done|]. split_and!; [done|by eapply same_trans|congruence|]. by rewrite H2p, H1p, !app_nil_r.
  - destruct (flush_outbound_pushed s Hs) as (s1 & E1 & H1). rewrite (ebind_Ok _ _ _ _ _ E1). exists s1. split; [done|]. by apply Hout.
  - destruct (Hgr s Hs) as (s2 & E2 & H2). by exists s2.
  - exists s. split; [done|]. by apply takes_refl.
Qed.
Lemma takes_app s s1 s' tc1 tc es1 es :
  takes s s1 tc1 es1 → takes s1 s' tc es → takes s s' tc (es1 ++ es).
Proof.
  intros (_ & H1 & _ & H1p) (H2 & H2s & H2c & H2p). split_and!; [done|by eapply same_trans|done|].
  by rewrite H2p, H1p, app_assoc.
Qed.

(** The clock goes on, and nothing else. *)
Lemma forward_takes s : ready s →
  ∃ s', clock_forward forward s = (s', Ok (forward (clock s.2))) ∧
    takes s s' (now s.2, forward (clock s.2)) [] ∧ s'.1 = s.1.
Proof.
  intros Hs. exists (set_clock (forward (clock s.2)) s). destruct s as [d w]. split; [done|]. split; [|done].
  split_and!; [exact Hs| |done|by rewrite app_nil_r]. exists (group_buffer d), (outbound_buffer d). by destruct d.
Qed.

Lemma new_event_spec type c fields s :
  new_event utcoffset type c fields s =
    (s, if conflict fields then Raise TypeError else Ok (stamped s.1 (now s.2) c type fields)).
Proof. unfold new_event, conflict. by destruct (existsb _ _). Qed.

Lemma publish_takes type blind fields s : ready s →
  ∃ s', publish forward utcoffset type fields true blind s =
          (s', if conflict fields then Raise TypeError else Ok ()) ∧
    let c := if blind then clock s.2 else forward (clock s.2) in
    takes s s' (now s.2, c) (if conflict fields then [] else [stamped s.1 (now s.2) (if blind then None else Some c) type fields]).
Proof.
  intros Hs. unfold publish.
  assert (∃ s1, (if blind then eret None else (do! c := clock_forward forward in eret (Some c))) s =
                  (s1, Ok (if blind then None else Some (forward (clock s.2)))) ∧
                takes s s1 (now s.2, if blind then clock s.2 else forward (clock s.2)) [] ∧ s1.1 = s.1) as (s1 & E1 & H1 & Hd).
  { destruct blind.
    - exists s. split_and!; [done|by apply takes_refl|done].
    - destruct (forward_takes s Hs) as (s1 & E & H). exists s1. by rewrite (ebind_Ok _ _ _ _ _ E). }
  rewrite (ebind_Ok _ _ _ _ _ E1). pose proof H1 as (Hr & _ & Hc & _). pose proof (new_event_spec type (if blind then None else Some (forward (clock s.2))) fields s1) as E2.
  destruct (conflict fields).
  - exists s1. by rewrite (ebind_Raise _ _ _ _ _ E2).
  - injection Hc as Hn Hc. rewrite (ebind_Ok _ _ _ _ _ E2), Hd, Hn.
    destruct (_publish_pushed (One (stamped s.1 (now s.2) (if blind then None else Some (forward (clock s.2))) type fields)) (routing_key_of type) s1 Hr) as (s2 & E3 & H3).
    exists s2. split; [done|]. apply (takes_app s s1 s2 _ _ [] _ H1).
    pose proof (pushed_takes _ _ _ Hr H3) as H4. rewrite Hc, Hn in H4. destruct blind; exact H4.
Qed.

(** An event joins its group. *)
Definition joined (group : string) (e : attrs) (s : st) : st :=
  set_group_buffer (dict_set (group_buffer s.1) group (waiting s group ++ [e])) s.

Lemma joined_takes group e s : ready s → takes s (joined group e s) (now s.2, clock s.2) [e].
Proof.
  intros (? & ? & ? & Hwf). destruct s as [d w]. unfold joined, waiting in *. simpl in *. split_and!.
  - unfold ready. simpl. split_and!; try done. by apply dict_set_wf.
  - eexists _, (outbound_buffer d). done.
  - done.
  - unfold content, buffered. simpl. rewrite <-app_assoc. f_equiv. destruct (dict_get (group_buffer d) group) as [es|] eqn:E; simpl.
    + destruct (dict_values_set _ _ _ (es ++ [e]) E) as (l & -> & ->). simpl. solve_Permutation.
    + rewrite dict_set_keys_notin by (by apply dict_get_None). unfold dict_values. rewrite fmap_app, join_app. done.
Qed.
Lemma send_takes type blind fields s : ready s → producer s.1 = true →
  ∃ s' r, send forward utcoffset type blind fields s = (s', r) ∧
    takes s s' (spec_op s.1 (now s.2, clock s.2) (Send type blind fields)).1
               (spec_op s.1 (now s.2, clock s.2) (Send type blind fields)).2 ∧
    r = (if accepts s.1 type && conflict fields then Raise TypeError else Ok ()).
Proof.
  intros Hs Hp. unfold send. rewrite ebind_get. simpl. unfold accepts.
  destruct (enabled s.1); simpl; [|exists s, (Ok ()); split_and!; [done|by apply takes_refl|done]].
  destruct (bool_decide (groups s.1 = ∅) || bool_decide (group_from type ∈ groups s.1)) eqn:Hg; simpl.
  2:{ apply orb_false_iff in Hg as [-> ->]. exists s, (Ok ()). split_and!; [done|by apply takes_refl|done]. }
  replace (negb _ && negb _) with false by (by destruct (bool_decide (groups s.1 = ∅)), (bool_decide (group_from type ∈ groups s.1))).
  destruct (bool_decide (group_from type ∈ buffer_group s.1)); simpl.
  2:{ rewrite Hp, andb_true_r. destruct (publish_takes type blind fields s Hs) as (s' & E & H). exists s'. eexists. by split_and!. }
  rewrite andb_false_r. destruct (forward_takes s Hs) as (s1 & E1 & H1 & Hd). rewrite (ebind_Ok _ _ _ _ _ E1).
  pose proof H1 as (Hr & _ & Hc & _). injection Hc as Hn Hc.
  pose proof (new_event_spec type (Some (forward (clock s.2))) fields s1) as E2. rewrite Hd, Hn in E2.
  destruct (conflict fields); [exists s1; eexists; by rewrite (ebind_Raise _ _ _ _ _ E2)|].
  rewrite (ebind_Ok _ _ _ _ _ E2), <-Hd. set (e := stamped s1.1 _ _ _ _). fold (waiting s1 (group_from type)).
  rewrite ebind_modify. fold (joined (group_from type) e s1).
  pose proof (joined_takes (group_from type) e s1 Hr) as H2. rewrite Hn, Hc in H2. pose proof (takes_app _ _ _ _ _ _ _ H1 H2) as H3.
  pose proof H2 as (Hr2 & _ & Hc2 & _). injection Hc2 as Hn2 Hc2. destruct (bool_decide (buffer_limit _ <= _)%nat).
  - destruct (flush_takes true true _ Hr2) as (s3 & E3 & H4). rewrite Hn2, Hc2 in H4. exists s3, (Ok ()). split_and!; [done| |done].
    exact (takes_app _ _ _ _ _ _ _ H3 H4).
  - unfold ewhen. destruct (has_on_send_buffered s1.1); eexists _, (Ok ()); (split_and!; [done| |done]); [|exact H3].
    destruct H3 as (? & (g & o & Hs3) & ? & ?).
    destruct (joined (group_from type) e s1) as [d3 w3]. split_and!; [done| |done|done]. by exists g, o.
Qed.

Lemma run_op_takes o s : ready s →
  takes s (run_op o s).1 (spec_op s.1 (now s.2, clock s.2) o).1 (spec_op s.1 (now s.2, clock s.2) o).2.
Proof.
  intros Hs. destruct o as [type blind fields|errors groups|t].
  - destruct (send_takes type blind fields s Hs) as (s' & r & E & H & _); [apply Hs|]. simpl run_op. by rewrite E.
  - destruct (flush_takes errors groups s Hs) as (s' & E & H). simpl run_op. by rewrite E.
  - simpl. destruct s as [d w]. split_and!; [exact Hs| |done|by rewrite app_nil_r]. exists (group_buffer d), (outbound_buffer d). by destruct d.
Qed.
Lemma run_takes ops s : ready s → content (run ops s) ≡ₚ content s ++ spec s.1 (now s.2, clock s.2) ops.
Proof.
  unfold run. revert s; induction ops as [|o ops IH]; intros s Hs; cbn [foldl spec]; [by rewrite app_nil_r|].
  pose proof (run_op_takes o s Hs) as (Hr & Hsame & Htc & Hp). rewrite (IH _ Hr), Hp, (spec_same _ _ _ _ Hsame), Htc.
  destruct (spec_op s.1 (now s.2, clock s.2) o) as [[t c] es]. by rewrite <-app_assoc.
Qed.

(** Whatever the broker does, no event is lost and none is made twice: what has been
    published, what waits in the outbound buffer and what waits for its group make up
    exactly the events of the calls, each with the clock and the time of its call. *)
Theorem events_conserved ops s :
  ready s →
  content (run ops s) ≡ₚ content s ++ spec s.1 (now s.2, clock s.2) ops.
Proof. apply run_takes. Qed.

(** With the broker there, a flush publishes all that was waiting: first what was
    left over from failures, then one message per group, and the buffers are empty. *)
Theorem flush_delivers s :
  ready s → net s.2 = [] →
  ∃ s', flush true true s = (s', Ok ()) ∧
    published s'.2 = published s.2 ++ outbound_buffer s.1 ++ batches s (dict_keys (group_buffer s.1)) ∧
    outbound_buffer s'.1 = [] ∧ buffered s' = [].
Proof.
  intros Hs Hn. destruct (flush_pushed s Hs) as (s' & E & H). exists s'. split; [done|].
  pose proof (pushed_get _ _ _ H) as Hg. destruct s as [d w]. destruct H as (n & p & o & -> & _ & _ & Hq).
  destruct (Hq Hn) as (_ & -> & ->). split_and!; [done|done|]. unfold buffered. rewrite Hg. apply drained_all.
Qed.

(** ** Bounds *)

Definition bounded (s : st) : Prop := ∀ k, (length (waiting s k) < buffer_limit s.1)%nat.

Lemma flush_bounded s s' : ready s → (0 < buffer_limit s.1)%nat → pushed (to_flush s) (flushed s) s' → bounded s'.
Proof.
  intros Hs Hl H k. unfold waiting. rewrite (pushed_get _ _ _ H). unfold flushed. rewrite group_buffer_set.
  assert (buffer_limit s'.1 = buffer_limit s.1) as -> by (destruct s as [d w]; by destruct H as (n & p & o & -> & _)).
  rewrite drained_get. destruct (dict_get (group_buffer s.1) k) eqn:E; [|done]. simpl. rewrite bool_decide_true; [done|].
  apply list_elem_of_fmap. exists (k, l). split; [done|]. by apply dict_get_Some_elem.
Qed.
Lemma bounded_same_buffer s s' :
  group_buffer s'.1 = group_buffer s.1 → buffer_limit s'.1 = buffer_limit s.1 → bounded s → bounded s'.
Proof. unfold bounded, waiting. by intros -> ->. Qed.

Lemma bounded_set_outbound o s : bounded s → bounded (set_outbound o s).
Proof. apply bounded_same_buffer; by destruct s. Qed.
Lemma bounded_set_net n p s : bounded s → bounded (set_net n p s).
Proof. apply bounded_same_buffer; by destruct s. Qed.
Lemma bounded_set_clock c s : bounded s → bounded (set_clock c s).
Proof. apply bounded_same_buffer; by destruct s. Qed.

Lemma _publish_bounded b p rk : keeps bounded (_publish b p rk).
Proof.
  unfold _publish, producer_publish. destruct p; keeps; apply keeps_modify; eauto using bounded_set_outbound, bounded_set_net.
Qed.

Lemma publish_bounded type fields p blind : keeps bounded (publish forward utcoffset type fields p blind).
Proof.
  unfold publish, new_event, clock_forward. keeps; try apply _publish_bounded; apply keeps_modify; eauto using bounded_set_clock.
Qed.

Lemma flush_outbound_bounded : keeps bounded flush_outbound.
Proof.
  unfold flush_outbound, has_producer. keeps; [apply keeps_modify; eauto using bounded_set_outbound|apply _publish_bounded].
Qed.

Lemma flush_groups_bounded s : ready s → bounded s → bounded (flush_groups s).1.
Proof.
  intros Hs Hb. destruct (flush_groups_pushed s Hs) as (s' & -> & H). simpl. intros k. specialize (Hb k). unfold waiting in *.
  rewrite (pushed_get _ _ _ H), group_buffer_set, drained_get.
  assert (buffer_limit s'.1 = buffer_limit s.1) as -> by (destruct s as [d w]; by destruct H as (n & p & o & -> & _)).
  destruct (dict_get (group_buffer s.1) k); [|done]. simpl in *. case_bool_decide; simpl; lia.
Qed.

Lemma flush_keeps_bounded errors groups s : ready s → bounded s → bounded (flush errors groups s).1.
Proof.
  intros Hs Hb. unfold flush, ewhen. destruct errors, groups; try done.
  - pose proof (flush_outbound_bounded s Hb) as H. destruct (flush_outbound_pushed s Hs) as (s1 & E1 & H1).
    rewrite (ebind_Ok _ _ _ _ _ E1). rewrite E1 in H. apply flush_groups_bounded; [|done].
    eapply pushed_ready; [|done]. by destruct s as [[] w].
  - pose proof (flush_outbound_bounded s Hb) as H. destruct (flush_outbound_pushed s Hs) as (s1 & E1 & H1).
    rewrite (ebind_Ok _ _ _ _ _ E1). by rewrite E1 in H.
  - by apply flush_groups_bounded.
Qed.

Lemma send_bounded type blind fields s : ready s → (0 < buffer_limit s.1)%nat → bounded s →
  bounded (send forward utcoffset type blind fields s).1.
Proof.
  intros Hs Hl Hb. unfold send. rewrite ebind_get. destruct (enabled s.1); [|done].
  destruct (_ && _); [done|]. case_bool_decide as Hg; [|by apply publish_bounded].
  destruct (forward_takes s Hs) as (s1 & E1 & H1 & Hd). rewrite (ebind_Ok _ _ _ _ _ E1). rewrite <-Hd in *.
  assert (bounded s1) as Hb1 by (eapply bounded_same_buffer; [| |exact Hb]; by rewrite Hd).
  pose proof (new_event_spec type (Some (forward (clock s.2))) fields s1) as E2.
  destruct (conflict fields); [by rewrite (ebind_Raise _ _ _ _ _ E2)|]. rewrite (ebind_Ok _ _ _ _ _ E2).
  set (e := stamped _ _ _ _ _). fold (waiting s1 (group_from type)). rewrite ebind_modify. fold (joined (group_from type) e s1).
  pose proof (joined_takes (group_from type) e s1 (proj1 H1)) as (Hr & _).
  assert (buffer_limit (joined (group_from type) e s1).1 = buffer_limit s1.1) as Hlim by (by destruct s1).
  case_bool_decide as Hlen.
  - destruct (flush_pushed _ Hr) as (s2 & -> & H2). eapply flush_bounded; [exact Hr| |exact H2]. by rewrite Hlim.
  - assert (bounded (joined (group_from type) e s1)) as Hj.
    { intros k. rewrite Hlim. unfold waiting at 1, joined. rewrite group_buffer_set, dict_get_set.
      case_decide; [simpl; lia|apply Hb1]. }
    unfold ewhen. destruct (has_on_send_buffered s1.1); [|done]. eapply bounded_same_buffer, Hj; by destruct (joined _ _ _).
Qed.

(** No group keeps the broker waiting for more than [buffer_limit] events: whatever
    is sent, and whatever the broker does, fewer than that wait for their group. *)
Theorem group_buffers_bounded ops s :
  ready s → (0 < buffer_limit s.1)%nat → bounded s → bounded (run ops s).
Proof.
  unfold run. revert s; induction ops as [|o ops IH]; intros s Hs Hl Hb; [done|]. cbn [foldl].
  pose proof (run_op_takes o s Hs) as (Hr & (g & ob & Hsame) & _).
  apply IH; [done|by destruct s as [d w]; rewrite Hsame|].
  destruct o as [type blind fields|errors groups|t]; [by apply send_bounded|by apply flush_keeps_bounded|exact Hb].
Qed.

(** Clocks *)
Definition clock_of (e : attrs) : list Z := match dict_get e "clock" with Some (VNum c) => [c] | _ => [] end.

Lemma clock_of_stamped d t c type fields : clock_of (stamped d t c type fields) = match c with Some c => [c] | None => [] end.
Proof.
  unfold clock_of, stamped, Event. destruct (dict_in _ "timestamp"); rewrite !dict_get_set_ne by done; simpl; by destruct c.
Qed.

(** Events can be put back in the order of the calls that sent them, even those that
    wait in a buffer while others are published: their clocks are all different, and
    increase with each call (events sent blind have none). *)
Theorem clocks_follow_calls ops d t c :
  (∀ x, x < forward x) →
  StronglySorted Z.lt (c :: (spec d (t, c) ops ≫= clock_of)).
Proof.
  intros Hf. revert t c; induction ops as [|o ops IH]; intros t c; [repeat constructor|]. simpl.
  assert (∀ l, StronglySorted Z.lt (forward c :: l) → StronglySorted Z.lt (c :: l)) as Hw.
  { intros l [H1 H2]%StronglySorted_inv. constructor; [done|]. eapply Forall_impl; [exact H2|]. simpl. intros x ?. specialize (Hf c). lia. }
  destruct o as [type blind fields|errors groups|dt]; [|apply IH|apply IH]. destruct (accepts d type); [|apply IH].
  destruct (blind && _), (conflict fields); simpl; rewrite ?clock_of_stamped; simpl; [apply IH|apply IH|apply Hw, IH|].
  constructor; [apply IH|]. constructor; [apply Hf|]. by pose proof (Hw _ (IH t (forward c))) as [_ ?]%StronglySorted_inv.
Qed.
End Promise.
End Dispatch.

Module Heart.
Import Dispatch.
Section Heart.
Context (forward : Z → Z) (utcoffset : Z).
(** the fields of a heartbeat *)
Context (info : attrs).

Definition _send (event : string) : eff st () := send forward utcoffset event false info.

(** The [i]th heart of a dispatcher.  [start]: *)
Definition start (i : nat) : eff st () :=
  do! e := eget (λ s, enabled s.1) in
  ewhen e
    (run! _send "worker-online" in
     emodify (λ s : st, let '(d, w) := set_trefs (<[i := Some (next_timer s.2)]> (trefs s.1)) s in
       (d, World (clock w) (now w) (net w) (published w) ({[next_timer w]} ∪ timers w) (S (next_timer w)) (flush_ready w)))).

Definition stop (i : nat) : eff st () :=
  run! emodify (λ s : st,
    match trefs s.1 !! i with
    | Some (Some t) => let '(d, w) := set_trefs (<[i := None]> (trefs s.1)) s in
        (d, World (clock w) (now w) (net w) (published w) (timers w ∖ {[t]}) (next_timer w) (flush_ready w))
    | _ => s
    end) in
  do! e := eget (λ s, enabled s.1) in
  ewhen e (_send "worker-offline").

(** [Heart.__init__]: the new heart is started and stopped with the dispatcher *)
Definition create : eff st nat :=
  do! t := eget (λ s, trefs s.1) in
  run! emodify (set_trefs (t ++ [None])%list) in
  eret (length t).

(** [EventDispatcher.enable] and [disable] *)
Definition enable : eff st () :=
  run! emodify (set_enabled true true) in
  do! t := eget (λ s, trefs s.1) in
  eiter start (seq 0 (length t)).

Definition disable : eff st () :=
  do! e := eget (λ s, enabled s.1) in
  ewhen e
    (do! p := eget (λ s, producer s.1) in
     run! emodify (set_enabled false p) in
     run! close in
     do! t := eget (λ s, trefs s.1) in
     eiter stop (seq 0 (length t))).

(** the timer goes off *)
Definition tick : eff st () := _send "worker-heartbeat".
End Heart.
End Heart.

(** ** Threads

    [send] and [flush] may run in several threads: the events of a group are appended
    without the mutex, while a flush that holds it publishes them.  A step is what one
    thread does between two points where another can run; the label of a step says what
    events came in and which batches were handed to the broker (or to the outbound
    buffer).  [close], which releases the mutex whoever holds it, is not called
    meanwhile. *)
Module Threads.
Import Dispatch.
Local Open Scope list_scope.

Inductive thread :=
| Idle
| Keyed (group : string) (e : attrs)     (* [send]: there is a buffer for the event *)
| Appended (group : string)              (* the event is in it *)
| Direct (m : message)                   (* [publish]: waits for the mutex *)
| DirectHeld (m : message)
| FlushErrors                            (* [flush]: about to copy the outbound buffer *)
| Copied (buf : list message)            (* about to clear it *)
| WantFirst (buf : list message)
| Publishing (buf : list message)
| WantSecond
| Groups (size i : nat)                  (* in the loop over groups, at the [i]th of [size] *)
| Batched (size i : nat) (group : string) (batch : list attrs)  (* about to publish *)
| Sent (size i : nat) (group : string) (batch : list attrs).    (* about to delete *)

Definition holds (t : thread) : bool :=
  match t with
  | DirectHeld _ | Publishing _ | Groups _ _ | Batched _ _ _ _ | Sent _ _ _ _ => true
  | _ => false
  end.

Record shared := Shared {
  mutex : option nat; outbound : list message; buffers : pydict string (list attrs);
  sent : list message; limit : nat }.

Inductive label :=
| Tau
| Take (group : string) (e : attrs)
| Hand (group : string) (batch : list attrs) (online : bool)
| Offer (m : message) (online : bool).   (* by [publish] *)

(** [_publish] with the broker there or away *)
Definition hand_over (m : message) (online : bool) (s : shared) : shared :=
  if online then Shared (mutex s) (outbound s) (buffers s) (sent s ++ [m]) (limit s)
  else Shared (mutex s) (outbound s ++ [m]) (buffers s) (sent s) (limit s).
Definition set_mutex o (s : shared) : shared := Shared o (outbound s) (buffers s) (sent s) (limit s).
Definition set_outbound o (s : shared) : shared := Shared (mutex s) o (buffers s) (sent s) (limit s).
Definition set_buffers b (s : shared) : shared := Shared (mutex s) (outbound s) b (sent s) (limit s).

Definition buffer (s : shared) (k : string) : list attrs := default [] (dict_get (buffers s) k).

(** What thread [i] may do next *)
Inductive step (i : nat) : shared → thread → label → shared → thread → Prop :=
| step_key s k e : step i s Idle Tau (set_buffers (dict_setdefault (buffers s) k []) s) (Keyed k e)
| step_append s k e :
    step i s (Keyed k e) (Take k e) (set_buffers (dict_set (buffers s) k (buffer s k ++ [e])) s) (Appended k)
| step_full s k : (limit s <= length (buffer s k))%nat → step i s (Appended k) Tau s FlushErrors
| step_not_full s k : (length (buffer s k) < limit s)%nat → step i s (Appended k) Tau s Idle
| step_publish s m : step i s Idle Tau s (Direct m)
| step_direct_lock s m : mutex s = None → step i s (Direct m) Tau (set_mutex (Some i) s) (DirectHeld m)
| step_direct s m online : step i s (DirectHeld m) (Offer m online) (set_mutex None (hand_over m online s)) Idle
| step_flush s : step i s Idle Tau s FlushErrors
| step_copy s : step i s FlushErrors Tau s (Copied (outbound s))
| step_clear s buf : step i s (Copied buf) Tau (set_outbound [] s) (WantFirst buf)
| step_lock s buf : mutex s = None → step i s (WantFirst buf) Tau (set_mutex (Some i) s) (Publishing buf)
| step_again s m buf online : step i s (Publishing (m :: buf)) Tau (hand_over m online s) (Publishing buf)
| step_unlock s : step i s (Publishing []) Tau (set_mutex None s) WantSecond
| step_lock_groups s : mutex s = None →
    step i s WantSecond Tau (set_mutex (Some i) s) (Groups (length (buffers s)) 0)
| step_changed s n j : n ≠ length (buffers s) →  (* RuntimeError: the dictionary changed size *)
    step i s (Groups n j) Tau (set_mutex None s) Idle
| step_done s n j : n = length (buffers s) → (n <= j)%nat → step i s (Groups n j) Tau (set_mutex None s) Idle
| step_empty s n j k : n = length (buffers s) → buffers s !! j = Some (k, []) →
    step i s (Groups n j) Tau s (Groups n (S j))
| step_batch s n j k es : n = length (buffers s) → buffers s !! j = Some (k, es) → es ≠ [] →
    step i s (Groups n j) Tau s (Batched n j k es)
| step_hand s n j k es online :
    step i s (Batched n j k es) (Hand k es online) (hand_over (Many es, (k ++ ".multi")%string) online s) (Sent n j k es)
| step_delete s n j k es :
    step i s (Sent n j k es) Tau
      (set_buffers (dict_set (buffers s) k (drop (length es) (buffer s k))) s) (Groups n (S j)).

Definition state : Type := shared * list thread.

(** Any thread runs next. *)
Inductive steps : state → list label → state → Prop :=
| steps_refl s : steps s [] s
| steps_one s ts tr s1 ts1 i t l s2 t' :
    steps (s, ts) tr (s1, ts1) → ts1 !! i = Some t → step i s1 t l s2 t' →
    steps (s, ts) (tr ++ [l]) (s2, <[i := t']> ts1).

Definition taken (k : string) (tr : list label) : list attrs :=
  tr ≫= (λ l, match l with Take k' e => if decide (k' = k) then [e] else [] | _ => [] end).
Definition handed (k : string) (tr : list label) : list attrs :=
  tr ≫= (λ l, match l with Hand k' es _ => if decide (k' = k) then es else [] | _ => [] end).

(** What a thread has handed over but not yet deleted *)
Definition in_flight (k : string) (t : thread) : list attrs :=
  match t with Sent _ _ k' es => if decide (k' = k) then es else [] | _ => [] end.

(** What a thread is about to hand over *)
Definition chosen (k : string) (t : thread) : list attrs :=
  match t with Batched _ _ k' es => if decide (k' = k) then es else [] | _ => [] end.

(** the same of the thread with the mutex, if any *)
Definition flight (k : string) (s : shared) (ts : list thread) : list attrs :=
  match mutex s ≫= (ts !!.) with Some t => in_flight k t | None => [] end.

Definition initial (limit : nat) (n : nat) : state := (Shared None [] [] [] limit, replicate n Idle).

(** The mutex belongs to the one thread that is in a guarded part, and a batch is the
    beginning of its buffer. *)
Definition inv (tr : list label) (st : state) : Prop :=
  let '(s, ts) := st in
  dict_wf (buffers s) ∧
  (∀ i t, ts !! i = Some t → holds t = true → mutex s = Some i) ∧
  (∀ i t, mutex s = Some i → ts !! i = Some t → holds t = true) ∧
  (∀ i t k, ts !! i = Some t → chosen k t `prefix_of` buffer s k) ∧
  (∀ k, ∃ rest, taken k tr = handed k tr ++ rest ∧ buffer s k = flight k s ts ++ rest).

Lemma taken_app k tr tr' : taken k (tr ++ tr') = taken k tr ++ taken k tr'.
Proof. apply bind_app. Qed.
Lemma handed_app k tr tr' : handed k (tr ++ tr') = handed k tr ++ handed k tr'.
Proof. apply bind_app. Qed.

Lemma insert_cases {A} (l : list A) i j x y : <[i := x]> l !! j = Some y → (i = j ∧ y = x) ∨ (i ≠ j ∧ l !! j = Some y).
Proof. intros H%list_lookup_insert_Some. naive_solver. Qed.

Lemma flight_ne k s ts i t : mutex s ≠ Some i → flight k s (<[i := t]> ts) = flight k s ts.
Proof.
  unfold flight. intros H. destruct (mutex s) as [j|]; [|done]. simpl. rewrite list_lookup_insert_ne; [done|congruence].
Qed.

Lemma flight_eq k s ts i t t' : mutex s = Some i → ts !! i = Some t → flight k s (<[i := t']> ts) = in_flight k t'.
Proof. unfold flight. intros -> H. simpl. by rewrite list_lookup_insert_eq by (by eapply lookup_lt_Some). Qed.

Lemma flight_at k s ts i t : mutex s = Some i → ts !! i = Some t → flight k s ts = in_flight k t.
Proof. unfold flight. intros ->. simpl. by intros ->. Qed.

(** Steps that leave the mutex alone; events may come in. *)
Lemma inv_quiet tr s ts i t s' t' l :
  inv tr (s, ts) → ts !! i = Some t → mutex s' = mutex s → holds t' = holds t →
  dict_wf (buffers s') →
  (∀ k, in_flight k t' = in_flight k t) →
  (∀ k, chosen k t' `prefix_of` buffer s' k) →
  (∀ k, buffer s' k = buffer s k ++ taken k [l] ∧ handed k [l] = []) →
  inv (tr ++ [l]) (s', <[i := t']> ts).
Proof.
  intros (Hwf & H1 & H2 & H3 & H4) Ht Hm Hh Hwf' Hfl Hch Hb. split_and!.
  - done.
  - intros j u Hj Hu. rewrite Hm. apply insert_cases in Hj as [[<- ->]|[_ Hj]]; [|by eapply H1]. rewrite Hh in Hu. by eapply H1.
  - intros j u Hj Hu. rewrite Hm in Hj. apply insert_cases in Hu as [[<- ->]|[_ Hu]]; [|by eapply H2]. rewrite Hh. by eapply H2.
  - intros j u k Hj. apply insert_cases in Hj as [[<- ->]|[_ Hj]]; [done|]. destruct (Hb k) as [-> _].
    by apply prefix_app_r, (H3 _ _ _ Hj).
  - intros k. destruct (H4 k) as (rest & E1 & E2), (Hb k) as [Eb Eh]. exists (rest ++ taken k [l]).
    rewrite taken_app, handed_app, Eh, Eb, E1, E2, app_nil_r, !app_assoc. split; [done|]. f_equal. f_equal.
    assert (flight k s' (<[i:=t']> ts) = flight k s (<[i:=t']> ts)) as -> by (unfold flight; by rewrite Hm).
    destruct (decide (mutex s = Some i)) as [Hi|Hi]; [|by rewrite flight_ne].
    rewrite (flight_eq _ _ _ _ t), (flight_at _ _ _ _ t) by done. done.
Qed.

(** Steps that take or release the mutex. *)
Lemma inv_mutex tr s ts i t s' t' l :
  inv tr (s, ts) → ts !! i = Some t → buffers s' = buffers s →
  ((mutex s = None ∧ mutex s' = Some i ∧ holds t' = true) ∨ (holds t = true ∧ mutex s' = None ∧ holds t' = false)) →
  (∀ k, in_flight k t = [] ∧ in_flight k t' = [] ∧ chosen k t' = []) →
  (∀ k, taken k [l] = [] ∧ handed k [l] = []) →
  inv (tr ++ [l]) (s', <[i := t']> ts).
Proof.
  intros (Hwf & H1 & H2 & H3 & H4) Ht Hb Hm Hfl Hl. split_and!.
  - by rewrite Hb.
  - intros j u Hj Hu. apply insert_cases in Hj as [[<- ->]|[Hne Hj]].
    + destruct Hm as [(_ & Hm & _)|(_ & _ & Hm)]; congruence.
    + pose proof (H1 _ _ Hj Hu) as Hmj. destruct Hm as [(Hm & _)|(Hm & _)]; [congruence|]. pose proof (H1 _ _ Ht Hm). congruence.
  - intros j u Hj Hu. destruct Hm as [(_ & Hm & Hh)|(_ & Hm & _)]; [|congruence].
    apply insert_cases in Hu as [[<- ->]|[Hne Hu]]; [done|congruence].
  - intros j u k Hj. unfold buffer. rewrite Hb. apply insert_cases in Hj as [[<- ->]|[_ Hj]]; [|by eapply H3].
    destruct (Hfl k) as (_ & _ & ->). apply prefix_nil.
  - intros k. destruct (H4 k) as (rest & E1 & E2), (Hfl k) as (F1 & F2 & _), (Hl k) as [L1 L2]. exists rest. rewrite taken_app, handed_app, L1, L2, !app_nil_r.
    split; [done|]. unfold buffer. rewrite Hb. fold (buffer s k). rewrite E2. f_equal.
    destruct Hm as [(Hm & Hm' & Hh)|(Hh & Hm' & _)].
    + rewrite (flight_eq _ _ _ _ t) by done. rewrite F2. unfold flight. by rewrite Hm.
    + rewrite (flight_at _ _ _ i t) by eauto. rewrite F1. unfold flight. by rewrite Hm'.
Qed.
Lemma buffer_set k k' v s : buffer (set_buffers (dict_set (buffers s) k v) s) k' = if decide (k' = k) then v else buffer s k'.
Proof. unfold buffer. simpl. rewrite dict_get_set. by repeat case_decide; subst. Qed.

Lemma buffer_setdefault k k' s : buffer (set_buffers (dict_setdefault (buffers s) k []) s) k' = buffer s k'.
Proof.
  unfold buffer, dict_setdefault. simpl. destruct (dict_get (buffers s) k) eqn:E; [done|].
  rewrite dict_get_set. case_decide; subst; [by rewrite E|done].
Qed.

Lemma setdefault_wf k s : dict_wf (buffers s) → dict_wf (dict_setdefault (buffers s) k ([] : list attrs)).
Proof. unfold dict_setdefault. destruct (dict_get (buffers s) k); [done|]. apply dict_set_wf. Qed.

Lemma buffer_at s j k es : dict_wf (buffers s) → buffers s !! j = Some (k, es) → buffer s k = es.
Proof. intros Hwf H%list_elem_of_lookup_2. unfold buffer. by rewrite (dict_elem_get _ _ _ Hwf H). Qed.

(** A batch is handed over by the one thread with the mutex, *)
Lemma inv_hand tr s ts i n j k es online :
  inv tr (s, ts) → ts !! i = Some (Batched n j k es) →
  inv (tr ++ [Hand k es online]) (hand_over (Many es, (k ++ ".multi")%string) online s, <[i := Sent n j k es]> ts).
Proof.
  intros (Hwf & H1 & H2 & H3 & H4) Ht.
  set (s' := hand_over _ _ _). assert (buffers s' = buffers s) as Hb by (by unfold s', hand_over; destruct online).
  assert (mutex s' = mutex s) as Hm by (by unfold s', hand_over; destruct online).
  assert (mutex s = Some i) as Hi by (by eapply H1). split_and!.
  - by rewrite Hb.
  - intros u x Hx Hu. rewrite Hm. apply insert_cases in Hx as [[<- ->]|[_ Hx]]; [done|]. by eapply H1.
  - intros u x Hx Hu. rewrite Hm in Hx. apply insert_cases in Hu as [[<- ->]|[_ Hu]]; [done|]. by eapply H2.
  - intros u x k' Hx. unfold buffer. rewrite Hb. apply insert_cases in Hx as [[<- ->]|[_ Hx]]; [apply prefix_nil|by eapply H3].
  - intros k'. destruct (H4 k') as (rest & E1 & E2). rewrite (flight_at _ _ _ i _ Hi Ht) in E2. simpl in E2.
    rewrite taken_app, handed_app, (flight_eq _ _ _ i (Batched n j k es)) by (by rewrite ?Hm). unfold buffer. rewrite Hb. fold (buffer s k').
    simpl. rewrite !app_nil_r. pose proof (H3 _ _ k' Ht) as Hpre. simpl in Hpre. case_decide; subst.
    + destruct Hpre as [r Hr]. exists r. by rewrite E1, <-app_assoc, <-Hr.
    + exists (buffer s k'). by rewrite app_nil_r.
Qed.

(** and then taken off the front of its buffer. *)
Lemma inv_delete tr s ts i n j k es :
  inv tr (s, ts) → ts !! i = Some (Sent n j k es) →
  inv (tr ++ [Tau]) (set_buffers (dict_set (buffers s) k (drop (length es) (buffer s k))) s, <[i := Groups n (S j)]> ts).
Proof.
  intros (Hwf & H1 & H2 & H3 & H4) Ht. assert (mutex s = Some i) as Hi by (by eapply H1). split_and!.
  - by apply dict_set_wf.
  - intros u x Hx Hu. apply insert_cases in Hx as [[<- ->]|[_ Hx]]; [done|]. by eapply H1.
  - intros u x Hx Hu. apply insert_cases in Hu as [[<- ->]|[_ Hu]]; [done|]. by eapply H2.
  - intros u x k' Hx. apply insert_cases in Hx as [[<- ->]|[Hne Hx]]; [apply prefix_nil|].
    destruct x as [| | | | | | | | | | |n' j' k1 es'|]; try apply prefix_nil.
    pose proof (H1 u _ Hx eq_refl). congruence.
  - intros k'. destruct (H4 k') as (rest & E1 & E2). rewrite (flight_at _ _ _ i _ Hi Ht) in E2. simpl in E2.
    exists rest. rewrite taken_app, handed_app, !app_nil_r. split; [done|]. rewrite (flight_eq _ _ _ i (Sent n j k es)) by done. simpl.
    rewrite buffer_set. repeat case_decide; subst; try done. by rewrite E2, drop_app_length.
Qed.

Ltac quiet := eapply inv_quiet; [eassumption|eassumption|done|done|try done|done| |];
  intros; simpl; try apply prefix_nil; try (by rewrite app_nil_r).

Lemma threads_step_inv tr s ts i t l s' t' :
  inv tr (s, ts) → ts !! i = Some t → step i s t l s' t' → inv (tr ++ [l]) (s', <[i := t']> ts).
Proof.
  intros HI Ht Hs. assert (dict_wf (buffers s)) as Hwf by apply HI. destruct Hs;
    try (by quiet); try (eapply inv_mutex; [eassumption|eassumption|done|by (left + right)|done|done]); try (by apply inv_hand); try by eapply inv_delete.
  - quiet; [by apply setdefault_wf|]. by rewrite buffer_setdefault, app_nil_r.
  - quiet; [by apply dict_set_wf|]. rewrite buffer_set. unfold taken. simpl. repeat case_decide; subst; try done; by rewrite app_nil_r.
  - by destruct online; (eapply inv_mutex; [eassumption|eassumption|done|right|done|done]).
  - by destruct online; quiet.
  - quiet. case_decide; subst; [|apply prefix_nil]. by rewrite (buffer_at _ _ _ _ Hwf H0).
Qed.
Lemma threads_steps_inv limit n tr st : steps (initial limit n) tr st → inv tr st.
Proof.
  remember (initial limit n) as s0 eqn:E0. induction 1 as [s|s ts tr s1 ts1 i t l s2 t' _ IH Hi Hstep].
  - subst. unfold initial, inv. simpl. split_and!.
    + constructor.
    + intros i t [-> _]%lookup_replicate. done.
    + done.
    + intros i t k [-> _]%lookup_replicate. apply prefix_nil.
    + intros k. by exists [].
  - eapply threads_step_inv; [by apply IH|done|done].
Qed.

(** The events of a group are handed over in batches, each event once and in the order
    they came in, while other threads go on sending events of that group and flushing:
    what came in is what was handed over, followed by what still waits. *)
Theorem group_events_once limit n tr s ts k :
  steps (initial limit n) tr (s, ts) →
  taken k tr = handed k tr ++ drop (length (flight k s ts)) (buffer s k).
Proof. intros (_ & _ & _ & _ & H)%threads_steps_inv. destruct (H k) as (rest & -> & ->). by rewrite drop_app_length. Qed.

Tactic Notation "next" hyp(H) constr(i) uconstr(r) := eapply (steps_one _ _ _ _ _ i) in H; [|reflexivity|refine r; done]; cbn in H.

(** The outbound buffer is copied and cleared without the mutex: a message that another
    thread puts there in between is gone. *)
Lemma outbound_race m :
  ∃ tr s, steps (initial 24 2) tr (s, [Idle; Idle]) ∧ Offer m false ∈ tr ∧ outbound s = [] ∧ sent s = [].
Proof.
  pose proof (steps_refl (initial 24 2)) as H.
  next H 0%nat (step_flush 0 _). next H 0%nat (step_copy 0 _). next H 1%nat (step_publish 1 _ m).
  next H 1%nat (step_direct_lock 1 _ m _). next H 1%nat (step_direct 1 _ m false).
  next H 0%nat (step_clear 0 _ []). next H 0%nat (step_lock 0 _ [] _). next H 0%nat (step_unlock 0 _).
  next H 0%nat (step_lock_groups 0 _ _). next H 0%nat (step_done 0 _ 0 0 _ _).
  do 2 eexists. split; [exact H|]. split_and!; [|done|done]. do 4 right. left.
Qed.
End Threads.

(** ** The event step of the worker *)
Module EventsStep.
Import Dispatch.
Local Open Scope list_scope.
Section EventsStep.
Context (forward : Z → Z) (utcoffset : Z) (info : attrs).
(** whether there is an event loop, and whether the transport can carry events *)
Context (node : string) (node_pid : Z) (hub : bool) (disabled_transport : bool).

(** The dispatchers there have been; the current one; and, for each reserved request,
    the one it sends its events to *)
Record consumer := Consumer {
  self_groups : option (gset string); send_events : bool;
  dispatchers : list dispatcher; event_dispatcher : option nat; eventers : list nat }.

(** [Events.__init__] *)
Definition init (task_events without_heartbeat without_gossip : bool) : consumer :=
  Consumer (if task_events then None else Some {["worker"]})
    (task_events || negb without_gossip || negb without_heartbeat) [] None [].

(** [EventDispatcher.__init__] *)
Definition new_dispatcher (enabled_ : bool) (gs : option (gset string)) : dispatcher :=
  let e := enabled_ && negb disabled_transport in
  Dispatcher node node_pid (default ∅ gs) (if hub then {["task"]} else ∅) 24 true hub e e [] [] [].

(** [_close] *)
Definition _close (c : consumer) (w : world) : consumer * world * option dispatcher :=
  match event_dispatcher c ≫= (dispatchers c !!.) with
  | Some d =>
      let '(d, w) := (Heart.disable forward utcoffset info (d, w)).1 in
      (Consumer (Some (groups d)) (send_events c)
         (match event_dispatcher c with Some i => <[i := d]> (dispatchers c) | None => dispatchers c end) None (eventers c), w, Some d)
  | None => (c, w, None)
  end.

Definition start (c : consumer) (w : world) : consumer * world * outcome () :=
  let '(c, w, prev) := _close c w in
  let dis := new_dispatcher (send_events c) (self_groups c) in
  let i := length (dispatchers c) in
  match prev with
  | Some p =>
      let '((dis, w), r) := (run! extend_buffer p in flush true true) (dis, w) in
      (Consumer (self_groups c) (send_events c) (dispatchers c ++ [dis]) (Some i)
         (match r with Ok _ => (λ _, i) <$> eventers c | _ => eventers c end), w, r)
  | None => (Consumer (self_groups c) (send_events c) (dispatchers c ++ [dis]) (Some i) (eventers c), w, Ok ())
  end.

Definition shutdown (c : consumer) (w : world) : consumer * world := (_close c w).1.

(** Without a loop, what a stopped dispatcher does to the world is to cancel the timers
    of its hearts: no event is sent, for it is disabled when they are told. *)
Lemma stop_disabled i s : enabled s.1 = false →
  (Heart.stop forward utcoffset info i s).2 = Ok () ∧
  let s' := (Heart.stop forward utcoffset info i s).1 in
  enabled s'.1 = false ∧ published s'.2 = published s.2 ∧ net s'.2 = net s.2 ∧
  outbound_buffer s'.1 = outbound_buffer s.1 ∧ group_buffer s'.1 = group_buffer s.1 ∧ groups s'.1 = groups s.1.
Proof.
  intros He. destruct s as [d w]. unfold Heart.stop. rewrite ebind_modify.
  destruct (trefs d !! i) as [[t|]|] eqn:E; simpl; rewrite E; rewrite ebind_get; simpl in *; rewrite He; done.
Qed.

Lemma disable_silent s :
  (Heart.disable forward utcoffset info s).2 = Ok () ∧
  let s' := (Heart.disable forward utcoffset info s).1 in
  published s'.2 = published s.2 ∧ net s'.2 = net s.2 ∧ enabled s'.1 = false ∧
  outbound_buffer s'.1 = outbound_buffer s.1 ∧ group_buffer s'.1 = group_buffer s.1 ∧ groups s'.1 = groups s.1.
Proof.
  unfold Heart.disable. rewrite ebind_get. destruct (enabled s.1) eqn:He; [|by split_and!].
  assert (∀ l s, enabled s.1 = false → (eiter (Heart.stop forward utcoffset info) l s).2 = Ok () ∧
    let s' := (eiter (Heart.stop forward utcoffset info) l s).1 in
    published s'.2 = published s.2 ∧ net s'.2 = net s.2 ∧ enabled s'.1 = false ∧
    outbound_buffer s'.1 = outbound_buffer s.1 ∧ group_buffer s'.1 = group_buffer s.1 ∧ groups s'.1 = groups s.1) as H.
  { induction l as [|i l IH]; intros s0 H0; [by split_and!|]. cbn [eiter].
    pose proof (stop_disabled i s0 H0) as (E & He1 & E1 & E2 & E3 & E4 & E5).
    destruct (Heart.stop forward utcoffset info i s0) as [s1 r] eqn:Es. simpl in *. subst r.
    rewrite (ebind_Ok _ _ _ _ _ Es). destruct (IH s1 He1) as (? & ? & ? & ? & ? & ? & ?). split_and!; try congruence; done. }
  destruct s as [d w]. unfold ewhen. rewrite ebind_get, ebind_modify. unfold close. rewrite (ebind_Ok _ _ _ (set_enabled false false (set_enabled false (producer d) (d, w))) ()) by done.
  rewrite ebind_get. apply (H _ (set_enabled false false (set_enabled false (producer d) (d, w)))). done.
Qed.
Lemma start_again c w i p :
  event_dispatcher c = Some i → dispatchers c !! i = Some p →
  send_events c = true → disabled_transport = false → faults_ok (net w) →
  ∃ c' w' dis,
    start c w = (c', w', Ok ()) ∧ event_dispatcher c' = Some (length (dispatchers c)) ∧
    dispatchers c' !! length (dispatchers c) = Some dis ∧ ready (dis, w') ∧ enabled dis = true ∧ groups dis = groups p ∧
    eventers c' = (λ _, length (dispatchers c)) <$> eventers c ∧ group_buffer dis = [] ∧
    published w' ++ outbound_buffer dis ≡ₚ published w ++ outbound_buffer p ∧
    (net w = [] → published w' = published w ++ outbound_buffer p ∧ outbound_buffer dis = []).
Proof.
  intros Hi Hp Hsend Htr Hn. unfold start, _close. rewrite Hi. simpl. rewrite Hp.
  pose proof (disable_silent (p, w)) as (_ & E1 & E2 & _ & E3 & _ & E4).
  destruct (Heart.disable forward utcoffset info (p, w)).1 as [p1 w1]. simpl in *.
  set (dis := new_dispatcher (send_events c) (Some (groups p1))).
  assert (ready (Dispatch.set_outbound (outbound_buffer dis ++ outbound_buffer p1) (dis, w1))) as Hr.
  { unfold ready, dis, new_dispatcher. simpl. rewrite Hsend, Htr, E2. split_and!; [done..|]. constructor. }
  assert ((run! extend_buffer p1 in flush true true) (dis, w1) = flush true true (Dispatch.set_outbound (outbound_buffer dis ++ outbound_buffer p1) (dis, w1))) as -> by done.
  destruct (flush_pushed _ Hr) as (s' & -> & H). pose proof (pushed_ready _ _ _ (ready_flushed _ Hr) H) as Hr'.
  destruct H as (n & q & o & -> & _ & Hq & Hon). unfold to_flush, batches, flushed in *. simpl in *.
  rewrite length_insert. do 3 eexists. split; [done|]. simpl.
  split_and!; [done|apply list_lookup_middle; by rewrite length_insert|exact Hr'|by rewrite Hsend, Htr|done|done|done| |].
  - rewrite Hq, app_nil_r. by rewrite E1, E3.
  - rewrite E2 in Hon. intros Hw. destruct (Hon Hw) as (_ & -> & ->). by rewrite app_nil_r, E1, E3.
Qed.

(** After a lost connection the step starts a new dispatcher, which sends to the same
    groups; what the old one could not publish is published now, in order, or waits
    for the next flush, and the reserved requests send their events to the new one. *)
Theorem reconnect_keeps_outbound c w i p :
  event_dispatcher c = Some i → dispatchers c !! i = Some p →
  send_events c = true → disabled_transport = false → faults_ok (net w) →
  ∃ c' w' j dis,
    start c w = (c', w', Ok ()) ∧ event_dispatcher c' = Some j ∧ dispatchers c' !! j = Some dis ∧
    ready (dis, w') ∧ enabled dis = true ∧ groups dis = groups p ∧ Forall (.= j) (eventers c') ∧
    published w' ++ outbound_buffer dis ≡ₚ published w ++ outbound_buffer p ∧
    (net w = [] → published w' = published w ++ outbound_buffer p ∧ outbound_buffer dis = []).
Proof.
  intros H1 H2 H3 H4 H5. destruct (start_again c w i p H1 H2 H3 H4 H5) as (c' & w' & dis & ? & ? & ? & ? & ? & ? & He & _ & ? & ?).
  exists c', w', (length (dispatchers c)), dis. split_and!; try done. rewrite He. apply Forall_fmap, Forall_true. done.
Qed.

(** But only the outbound buffer is handed on: task events that were waiting for their
    group when the connection was lost are in no buffer of the new dispatcher, and have
    not been published. *)
Lemma waiting_events_lost c w i p :
  event_dispatcher c = Some i → dispatchers c !! i = Some p →
  send_events c = true → disabled_transport = false → faults_ok (net w) →
  ∃ c' w' dis, start c w = (c', w', Ok ()) ∧ dispatchers c' !! length (dispatchers c) = Some dis ∧
    content (dis, w') ≡ₚ message_events (published w ++ outbound_buffer p).
Proof.
  intros H1 H2 H3 H4 H5. destruct (start_again c w i p H1 H2 H3 H4 H5) as (c' & w' & dis & ? & ? & ? & _ & _ & _ & _ & Hg & Hq & _).
  exists c', w', dis. split_and!; [done|done|]. unfold content, buffered. simpl. rewrite Hg, Hq. simpl. by rewrite app_nil_r.
Qed.
End EventsStep.
End EventsStep.

(** ** The receiver *)
Module Receive.
Import Dispatch.
Local Open Scope list_scope.

Definition CLIENT_CLOCK_SKEW : Z := -1.

(** [adjust_timestamp] *)
Definition adjust_timestamp (ts offset here : Z) : Z := ts - (offset - here).

Definition get_num (v : value) : outcome Z := match v with VNum n => Ok n | _ => Raise TypeError end.

Section Receive.
(** kombu's clock; the offset from UTC here; what a handler does with an event *)
Context (forward : Z → Z) (adjust : Z → value → outcome Z) (here : Z) (run : nat → attrs → outcome ()).
Context (handlers : pydict string nat).

Record receiver := Receiver { clock : Z; now : Z; calls : list (nat * attrs) }.

Definition adjust_clock (v : value) : eff receiver () :=
  do! c := eget clock in
  do! c := elift (adjust c v) in
  emodify (λ s, Receiver c (now s) (calls s)).

Definition forward_clock : eff receiver Z :=
  do! c := eget clock in
  run! emodify (λ s, Receiver (forward c) (now s) (calls s)) in
  eret (forward c).

(** the first half of [event_from_message]: the clock *)
Definition sync_clock (type : value) (body : attrs) : eff receiver attrs :=
  if bool_decide (type = VStr "task-sent") then
    do! c := eget clock in
    let c := ((if (c =? 0)%Z then 1 else c) + CLIENT_CLOCK_SKEW)%Z in
    run! adjust_clock (VNum c) in
    eret (dict_set body "clock" (VNum c))
  else
    match dict_get body "clock" with
    | Some c => run! adjust_clock c in eret body
    | None => do! c := forward_clock in eret (dict_set body "clock" (VNum c))
    end.

Definition event_from_message (body : attrs) (localize : bool) : eff receiver (value * attrs) :=
  do! type := elift (of_option KeyError (dict_get body "type")) in
  do! body := sync_clock type body in
  do! body := elift
    (if localize then
       match dict_get body "utcoffset", dict_get body "timestamp" with
       | Some offset, Some timestamp =>
           let! offset := get_num offset in
           let! timestamp := get_num timestamp in
           Ok (dict_set body "timestamp" (VNum (adjust_timestamp timestamp offset here)))
       | _, _ => Ok body
       end
     else Ok body) in
  do! t := eget now in
  eret (type, dict_set body "local_received" (VNum t)).

(** [process] *)
Definition handler_for (type : value) : option nat :=
  match type with
  | VStr type => match dict_get handlers type with Some h => Some h | None => dict_get handlers "*" end
  | _ => dict_get handlers "*"
  end.
Definition process (type : value) (event : attrs) : eff receiver () :=
  match handler_for type with
  | Some h =>
      run! emodify (λ s, Receiver (clock s) (now s) (calls s ++ [(h, event)])) in
      elift (run h event)
  | None => eret ()
  end.

Definition receive_one (body : attrs) : eff receiver () :=
  do! te := event_from_message body true in
  process te.1 te.2.

(** [_receive] *)
Definition _receive (b : body) : eff receiver () :=
  match b with
  | Many es => eiter receive_one es
  | One e => receive_one e
  end.

Definition receive_all (ms : list message) : eff receiver () := eiter (λ m : message, _receive m.1) ms.

(** ** An event on its way *)

(** Events a dispatcher has stamped: a type, a clock unless they were sent blind, and
    numbers for the times *)
Definition well_formed (e : attrs) : Prop :=
  (∃ t, dict_get e "type" = Some (VStr t)) ∧ (∃ c, dict_get e "clock" = Some (VNum c)) ∧
  (∃ o, dict_get e "utcoffset" = Some (VNum o)) ∧ (∃ t, dict_get e "timestamp" = Some (VNum t)).

(** What the handler sees of an event: the time it was sent in the time zone of the
    receiver, the time it came in, and otherwise what was sent.  Clients do not keep
    their clocks, and the clock of their events is that of the receiver. *)
Definition seen (e e' : attrs) : Prop :=
  (∀ k, k ∉ ["clock"; "timestamp"; "local_received"] → dict_get e' k = dict_get e k) ∧
  (∀ o t, dict_get e "utcoffset" = Some (VNum o) → dict_get e "timestamp" = Some (VNum t) →
     dict_get e' "timestamp" = Some (VNum (t - (o - here)))) ∧
  (dict_get e "type" ≠ Some (VStr "task-sent") → dict_get e' "clock" = dict_get e "clock").

Hypothesis adjust_law : ∀ c x, ∃ c', adjust c (VNum x) = Ok c' ∧ c < c' ∧ x < c'.
Hypothesis run_ok : ∀ h e, run h e = Ok ().
Context (any : nat) (any_handler : dict_get handlers "*" = Some any).

Lemma sync_clock_ok type e s c : dict_get e "clock" = Some (VNum c) →
  ∃ c' e', sync_clock type e s = (Receiver c' (now s) (calls s), Ok e') ∧ clock s < c' ∧
    (∀ k, k ≠ "clock" → dict_get e' k = dict_get e k) ∧
    (type ≠ VStr "task-sent" → e' = e ∧ c < c').
Proof using adjust_law.
  intros Hc. unfold sync_clock. case_bool_decide as Ht.
  - rewrite ebind_get. set (x := (_ + CLIENT_CLOCK_SKEW)%Z). destruct (adjust_law (clock s) x) as (c' & E & H1 & H2).
    exists c', (dict_set e "clock" (VNum x)). unfold adjust_clock, ebind, eget, elift. rewrite E. split_and!; [done|done| |done].
    intros k Hk. by rewrite dict_get_set_ne.
  - rewrite Hc. destruct (adjust_law (clock s) c) as (c' & E & H1 & H2). exists c', e.
    unfold adjust_clock, ebind, eget, elift. rewrite E. split_and!; done.
Qed.

Lemma receive_one_ok e s : well_formed e →
  ∃ c' h e', receive_one e s = (Receiver c' (now s) (calls s ++ [(h, e')]), Ok ()) ∧ seen e e' ∧ clock s < c' ∧
    (∀ t c, dict_get e "type" = Some (VStr t) → t ≠ "task-sent" → dict_get e "clock" = Some (VNum c) → c < c') ∧
    (∀ t h', dict_get e "type" = Some (VStr t) → dict_get handlers t = Some h' → h = h').
Proof using adjust_law any_handler run_ok any.
  intros ((t & Ht) & (c & Hc) & (o & Ho) & (ts & Hts)).
  destruct (sync_clock_ok (VStr t) e s c Hc) as (c' & e1 & E & Hlt & Hk & Hother).
  assert (∃ h, handler_for (VStr t) = Some h ∧ (∀ h', dict_get handlers t = Some h' → h = h')) as (h & Hh & Hh').
  { simpl. destruct (dict_get handlers t) as [h|]; [|by exists any]. exists h. split; [done|]. by intros ? [= ->]. }
  exists c', h. eexists. split; [|split_and!; [|done| |]].
  - unfold receive_one, event_from_message. rewrite Ht. cbn [of_option]. unfold elift at 1.
    unfold ebind at 1. unfold ebind at 1. unfold ebind at 1. rewrite E. rewrite !Hk by done. rewrite Ho, Hts. cbn -[process]. unfold process. cbn -[handler_for]. rewrite Hh.
    unfold ebind, emodify, elift. cbn. rewrite run_ok. done.
  - split_and!.
    + intros k Hn. rewrite !dict_get_set_ne by set_solver. apply Hk. set_solver.
    + intros o' t' Ho' Ht'. simplify_eq. rewrite dict_get_set_ne by done. rewrite dict_get_set_eq. done.
    + intros Hne. rewrite !dict_get_set_ne by done. destruct Hother as [-> _]; congruence.
  - intros t' c0 Ht' Hne Hc0. simplify_eq. apply Hother. congruence.
  - intros t' h' Ht' Hh1. simplify_eq. by apply Hh'.
Qed.
Lemma receive_events_ok es s : Forall well_formed es →
  ∃ c' cs, eiter receive_one es s = (Receiver c' (now s) (calls s ++ cs), Ok ()) ∧ Forall2 seen es cs.*2 ∧ clock s <= c'.
Proof using adjust_law any_handler run_ok any.
  revert s; induction es as [|e es IH]; intros s Hwf.
  - exists (clock s), []. rewrite app_nil_r. split_and!; [by destruct s|constructor|done].
  - apply Forall_cons in Hwf as [He Hwf]. cbn [eiter]. destruct (receive_one_ok e s He) as (c1 & h & e' & E & Hs & Hc & _).
    rewrite (ebind_Ok _ _ _ _ _ E). destruct (IH (Receiver c1 (now s) (calls s ++ [(h, e')])) Hwf) as (c2 & cs & -> & Hcs & Hc2).
    exists c2, ((h, e') :: cs). simpl. rewrite <-app_assoc. split_and!; [done|by constructor|simpl in *; lia].
Qed.

Lemma receive_all_ok ms s : Forall well_formed (message_events ms) →
  ∃ c' cs, receive_all ms s = (Receiver c' (now s) (calls s ++ cs), Ok ()) ∧ Forall2 seen (message_events ms) cs.*2.
Proof using adjust_law any_handler run_ok any.
  unfold receive_all. revert s; induction ms as [|[b rk] ms IH]; intros s Hwf.
  - exists (clock s), []. rewrite app_nil_r. split; [by destruct s|constructor].
  - change (message_events ((b, rk) :: ms)) with (events_of b ++ message_events ms) in *. apply Forall_app in Hwf as [Hb Hwf].
    assert (_receive b s = eiter receive_one (events_of b) s) as Eb.
    { destruct b as [e|es]; [|done]. simpl. unfold ebind. by destruct (receive_one e s) as [? [[]| |]]. }
    destruct (receive_events_ok (events_of b) s Hb) as (c1 & cs1 & E1 & H1 & _). rewrite <-Eb in E1. cbn [eiter].
    rewrite (ebind_Ok _ _ _ _ _ E1). destruct (IH (Receiver c1 (now s) (calls s ++ cs1)) Hwf) as (c2 & cs2 & -> & H2).
    exists c2, (cs1 ++ cs2). simpl. rewrite <-app_assoc, fmap_app. split; [done|]. by apply Forall2_app.
Qed.

Lemma stamped_well_formed d uo t c type fields :
  (∀ v, dict_get fields "timestamp" = Some v → ∃ n, v = VNum n) →
  well_formed (stamped uo d t (Some c) type fields).
Proof.
  intros Hf. unfold well_formed, stamped, Event. set (l := _ ++ fields).
  assert (∀ k, k ∉ ["hostname"; "utcoffset"; "pid"; "clock"] → dict_get l k = dict_get fields k) as Hl.
  { intros k Hk. unfold l. simpl. rewrite !decide_False by set_solver. done. }
  destruct (dict_in l "timestamp") eqn:Ets.
  - rewrite dict_get_set_eq, !dict_get_set_ne by done. split_and!; [eauto|simpl; eauto|simpl; eauto|].
    rewrite Hl by set_solver. unfold dict_in in Ets. rewrite Hl in Ets by set_solver.
    destruct (dict_get fields "timestamp") as [v|]; [|done]. destruct (Hf v eq_refl) as [n ->]. eauto.
  - rewrite dict_get_set_eq, !dict_get_set_ne by done. rewrite dict_get_set_eq. split_and!; simpl; eauto.
Qed.

(** Calls that are not blind and do not give the event a time that is no number *)
Definition plain (o : op) : Prop :=
  match o with
  | Send _ blind fields => blind = false ∧ ∀ v, dict_get fields "timestamp" = Some v → ∃ n, v = VNum n
  | _ => True
  end.

Lemma spec_well_formed d uo tc ops : Forall plain ops → Forall well_formed (spec forward uo d tc ops).
Proof.
  intros H; revert tc; induction H as [|o ops Ho _ IH]; intros [t c]; [constructor|]. simpl.
  destruct o as [type blind fields|errors groups|dt]; [|apply IH|apply IH]. destruct (accepts d type); [|apply IH].
  destruct Ho as [-> Hf]. simpl. destruct (conflict fields); [apply IH|]. constructor; [|apply IH]. by apply stamped_well_formed.
Qed.

(** C20: From end to end: events are sent while the broker comes and goes; when it is there
    again a flush is made, and a receiver reads what was published.  Its handlers are
    called once for every event that was sent, and see it with its fields, its clock and
    its time. *)
Theorem events_delivered uo ops s r :
  ready s → content s = [] → Forall plain ops → net (Dispatch.run forward uo ops s).2 = [] →
  ∃ s' r' es,
    flush true true (Dispatch.run forward uo ops s) = (s', Ok ()) ∧
    receive_all (published s'.2) r = (r', Ok ()) ∧
    es ≡ₚ spec forward uo s.1 (Dispatch.now s.2, Dispatch.clock s.2) ops ∧
    ∃ cs, calls r' = calls r ++ cs ∧ Forall2 seen es cs.*2.
Proof using adjust_law any_handler run_ok any.
  intros Hs H0 Hp Hnet.
  assert (∀ ops s, ready s → ready (Dispatch.run forward uo ops s)) as Hrun.
  { clear. unfold Dispatch.run. induction ops as [|o ops IH]; intros s Hs; [done|]. cbn [foldl]. apply IH.
    by pose proof (run_op_takes forward uo o s Hs) as (? & _). }
  pose proof (run_takes forward uo ops s Hs) as Hc. rewrite H0 in Hc. simpl in Hc.
  destruct (flush_pushed _ (Hrun ops s Hs)) as (s' & E & H). exists s'.
  pose proof (flush_content _ _ (Hrun ops s Hs) H) as Hfc. pose proof (pushed_get _ _ _ H) as Hg.
  assert (content s' = message_events (published s'.2)) as Hcs.
  { destruct (Dispatch.run forward uo ops s) as [d w]. destruct H as (n & p & o & -> & _ & _ & Hq).
    destruct (Hq Hnet) as (_ & -> & ->). unfold content, buffered. rewrite Hg. unfold flushed. rewrite group_buffer_set, drained_all. simpl. by rewrite !app_nil_r. }
  rewrite Hcs, Hc in Hfc.
  destruct (receive_all_ok (published s'.2) r) as (c' & cs & Er & Hcs2).
  { rewrite Hfc. by apply spec_well_formed. }
  eexists _, (message_events (published s'.2)). split_and!; [done|done|done|]. by exists cs.
Qed.
End Receive.
End Receive.

(** ** Examples *)
Module EventExamples.
Import Dispatch.
Local Open Scope list_scope.

Definition fwd (c : Z) : Z := c + 1.
Definition adj (c : Z) (v : value) : outcome Z := match v with VNum x => Ok (Z.max c x + 1) | _ => Raise TypeError end.

Definition d0 : dispatcher := Dispatcher "w1" 7 ∅ {["task"]} 2 true true true true [] [] [].
(** the broker is away for the first message *)
Definition w0 : world := World 0 100 [Some OtherExc] [] ∅ 0 false.
Definition ops0 : list op :=
  [Send "worker-online" false []; Send "task-received" false [("uuid", VStr "a")]; Wait 5;
   Send "task-started" false [("uuid", VStr "a")]; Send "task-succeeded" false [("uuid", VStr "a")]].

Lemma ready0 : ready (d0, w0).
Proof. unfold ready, faults_ok. split_and!; [done|done| |constructor]. repeat constructor. Qed.

Definition summary (m : message) : list (option value) * string := ((λ e, dict_get e "clock") <$> events_of m.1, m.2).

Example run0 :
  let s := run fwd 0 ops0 (d0, w0) in
  (summary <$> published s.2, summary <$> outbound_buffer s.1, length <$> dict_values (group_buffer s.1), flush_ready s.2) =
  ([([Some (VNum 1)], "worker.online"); ([Some (VNum 2); Some (VNum 3)], "task.multi")], [], [1%nat], true).
Proof. vm_compute. reflexivity. Qed.

(** A blind event of a group that is buffered has a clock all the same. *)
Lemma blind_but_buffered : spec fwd 0 d0 (0, 0) [Send "task-sent" true []] ≫= clock_of = [1].
Proof. vm_compute. reflexivity. Qed.

(** Once closed, a dispatcher drops what it holds. *)
Lemma flush_after_close e :
  let s := set_outbound [(One e, "worker.online")] (d0, w0) in
  content s = [e] ∧ content ((run! close in flush true true) s).1 = [].
Proof. done. Qed.

Lemma events_conserved_example :
  content (run fwd 0 ops0 (d0, w0)) ≡ₚ spec fwd 0 d0 (100, 0) ops0.
Proof. exact (events_conserved fwd 0 ops0 (d0, w0) ready0). Defined.

Definition s1 : st := run fwd 0 (take 2 ops0) (d0, w0).

Lemma ready1 : ready s1.
Proof. unfold ready, faults_ok. vm_compute. split_and!; [done|done|constructor|]. repeat constructor; set_solver. Qed.

Lemma flush_delivers_example :
  ∃ s', flush true true s1 = (s', Ok ()) ∧
    published s'.2 = published s1.2 ++ outbound_buffer s1.1 ++ batches s1 (dict_keys (group_buffer s1.1)) ∧
    outbound_buffer s'.1 = [] ∧ buffered s' = [].
Proof. apply (flush_delivers s1 ready1). vm_compute. reflexivity. Defined.

Lemma group_buffers_bounded_example : bounded (run fwd 0 ops0 (d0, w0)).
Proof. apply (group_buffers_bounded fwd 0 ops0 (d0, w0) ready0); [simpl; lia|]. intros k. unfold waiting. simpl. lia. Defined.

Lemma clocks_follow_calls_example : StronglySorted Z.lt (0 :: (spec fwd 0 d0 (100, 0) ops0 ≫= clock_of)).
Proof. apply (clocks_follow_calls fwd 0). unfold fwd. intros x. lia. Defined.

Definition e1 : attrs := [("type", VStr "task-received")].
Definition e2 : attrs := [("type", VStr "task-started")].

(** An event comes in between the publishing of a batch and its deletion. *)
Module Concurrent.
Import Threads.
Definition threads1 : state :=
  (Shared (Some 0%nat) [] [("task", [e1; e2])] [(Many [e1], "task.multi")] 24,
   [Sent 1 0 "task" [e1]; Appended "task"]).
Definition trace1 : list label :=
  [Tau; Take "task" e1; Tau; Tau; Tau; Tau; Tau;
   Tau; Tau; Tau; Tau; Hand "task" [e1] true; Take "task" e2].

Lemma steps1 : steps (initial 24 2) trace1 threads1.
Proof.
  pose proof (steps_refl (initial 24 2)) as H.
  next H 0%nat (step_key 0 _ "task" e1). next H 0%nat (step_append 0 _ "task" e1).
  eapply (steps_one _ _ _ _ _ 0%nat) in H; [|reflexivity|apply step_not_full; simpl; lia]. cbn in H.
  next H 1%nat (step_key 1 _ "task" e2).
  next H 0%nat (step_flush 0 _). next H 0%nat (step_copy 0 _). next H 0%nat (step_clear 0 _ []).
  next H 0%nat (step_lock 0 _ [] _). next H 0%nat (step_unlock 0 _).
  next H 0%nat (step_lock_groups 0 _ _). next H 0%nat (step_batch 0 _ 1 0 "task" [e1] _ _ _).
  next H 0%nat (step_hand 0 _ 1 0 "task" [e1] true). next H 1%nat (step_append 1 _ "task" e2). exact H.
Qed.

Lemma group_events_once_example :
  taken "task" trace1 =
  handed "task" trace1 ++ drop (length (flight "task" threads1.1 threads1.2)) (buffer threads1.1 "task").
Proof. exact (group_events_once 24 2 trace1 _ _ "task" steps1). Defined.

End Concurrent.

(** A worker whose connection is lost *)
Definition old : dispatcher := Dispatcher "w1" 7 {["worker"]} {["task"]} 24 true true true true [] [(One e1, "task.received")] [Some 0%nat].
Definition c0 : EventsStep.consumer := EventsStep.Consumer None true [old] (Some 0%nat) [0%nat; 0%nat].

Lemma reconnect_keeps_outbound_example :
  ∃ c' w' j dis,
    EventsStep.start fwd 0 [] "w1" 7 true false c0 w0 = (c', w', Ok ()) ∧ EventsStep.event_dispatcher c' = Some j ∧
    EventsStep.dispatchers c' !! j = Some dis ∧ ready (dis, w') ∧ enabled dis = true ∧ groups dis = groups old ∧
    Forall (.= j) (EventsStep.eventers c') ∧
    published w' ++ outbound_buffer dis ≡ₚ published w0 ++ outbound_buffer old ∧
    (net w0 = [] → published w' = published w0 ++ outbound_buffer old ∧ outbound_buffer dis = []).
Proof. apply (EventsStep.reconnect_keeps_outbound fwd 0 [] "w1" 7 true false c0 w0 0 old); try done. apply ready0. Defined.

Lemma events_delivered_example :
  ∃ s' r' es,
    flush true true (run fwd 0 ops0 (d0, w0)) = (s', Ok ()) ∧
    Receive.receive_all fwd adj (-3600) (λ _ _, Ok ()) [("*", 0%nat)] (published s'.2) (Receive.Receiver 0 101 []) = (r', Ok ()) ∧
    es ≡ₚ spec fwd 0 d0 (100, 0) ops0 ∧
    ∃ cs, Receive.calls r' = [] ++ cs ∧ Forall2 (Receive.seen (-3600)) es cs.*2.
Proof.
  apply (Receive.events_delivered fwd adj (-3600) (λ _ _, Ok ()) [("*", 0%nat)]) with (any := 0%nat) (s := (d0, w0)) (r := Receive.Receiver 0 101 []); try done.
  - intros c x. exists (Z.max c x + 1). split; [done|lia].
  - apply ready0.
  - repeat constructor; simpl; done.
Defined.
End EventExamples.
