(* ===== verification/RemoteControl.v ===== *)
(** Remote control (celery/worker/control.py): the commands a worker obeys, and the synchronisation of workers (celery/worker/consumer/mingle.py).

    - [Revoke]: revoking and terminating tasks by id or by stamped header, on the state
      of the worker, its requests and the backends; queries about tasks.
    - [Panel]: rate and time limits, events, pool size.
    - [Mingle]: what workers tell each other at start.

    Texts of replies are constructors or fixed; the debugging commands are left out. *)

From S2P Require Import Prelude PyDict Effect PyStr States LimitedSet WorkerState Request Autoscale RateLimit Consumer EventDispatch.
Import LimitedSet WorkerState.
Local Open Scope Z_scope.
Local Open Scope eff_scope.

Module Revoke.
Import States.
Import Request.

(** What revoking asks of a result backend.  [status] is the state a client would see. *)
Class RevokeBackend (K B : Type) := {
  status : B → K → string;
  get_state : K → eff B string;
  mark_as_revoked : K → eff B ();
}.

Class RevokeBackendLaws (K B : Type) `{!RevokeBackend K B} := {
  get_state_reads id b b' o : get_state id b = (b', o) → (∀ k, status b' k = status b k) ∧ (∀ st, o = Ok st → st = status b id);
  mark_marks id b b' o : mark_as_revoked id b = (b', o) →
    (∀ k, k ≠ id → status b' k = status b k) ∧ (o = Ok () → status b' id = REVOKED);
}.

Section Revoke.
Context {K : Type} `{!EqDecision K}.
Context (kle : relation K) `{!RelDecision kle, !Total kle, !Transitive kle}.
Context (req_id : nat → K).
(** What does not change of each request: its task, its message, and the backend of its
    task (the backend of the application is number 0) *)
Context (tk : nat → task) (msg : nat → message) (task_backend : nat → nat).
Context (eventer_enabled : bool) (run : nat → trace → effect → outcome ()) (time : nat → Z).
Context {B : Type} `{!RevokeBackend K B}.
(** numbers of signals by name *)
Context (signum : option string → outcome Z).

Record panel := Panel {
  pworld : @worker_state K nat _ _; locals : gmap nat (@rstate K); backends : gmap nat B; ptick : nat }.
Abbreviation M := (eff panel).

Definition set_pworld w (p : panel) : panel := Panel w (locals p) (backends p) (ptick p).

(** A method of request [r] *)
Definition local_of (r : nat) (p : panel) : @rstate K :=
  let s := default (RS false None None false false None false (pworld p) 0 []) (locals p !! r) in
  set_tick (ptick p) (set_world (pworld p) s).
Definition on_request {A} (r : nat) (c : eff (@rstate K) A) : M A := λ p,
  let '(s, o) := c (local_of r p) in
  (Panel (world s) (<[r := s]> (locals p)) (backends p) (tick s), o).

Definition on_backend {A} (i : nat) (c : eff B A) : M A := λ p,
  match backends p !! i with
  | Some b => let '(b, o) := c b in (Panel (pworld p) (locals p) (<[i := b]> (backends p)) (ptick p), o)
  | None => (p, Raise AttributeError)
  end.

Definition req_terminate (r : nat) (signal : Z) : M () :=
  on_request r (terminate kle req_id r (tk r) (msg r) eventer_enabled (run r) time signal).
Definition req_execute (r : nat) : M () :=
  on_request r (execute_using_pool kle req_id r (tk r) (msg r) eventer_enabled (run r) time).

(** [_find_requests_by_id] *)
Definition find_requests (w : @worker_state K nat _ _) (ids : list K) : list nat :=
  omap (λ id, dict_get (requests w) id) ids.

(** [worker_state.revoked.update(task_ids)]: two clock readings for each id *)
Definition revoked_update (ids : list K) : M () := λ p,
  match update kle (WorkerState.revoked (pworld p)) (UpdIter ids) (λ j, (time (ptick p + 2 * j)%nat, time (ptick p + 2 * j + 1)%nat)) with
  | Ok s => (Panel (with_revoked (pworld p) s) (locals p) (backends p) (ptick p + 2 * length ids)%nat, Ok ())
  | Raise e => (p, Raise e)
  | Diverge => (p, Diverge)
  end.

Definition requests_by_id (w : @worker_state K nat _ _) (ids : list K) : pydict K nat :=
  foldl (λ d r, dict_set d (req_id r) r) [] (find_requests w ids).

(** the loop of [_revoke] over the ids *)
Definition mark_one (by_id : pydict K nat) (id : K) : M () :=
  do! active := eget (λ p, active_requests (pworld p)) in
  let request := dict_get by_id id in
  if match request with Some r => bool_decide (r ∈ active) | None => false end then eret ()
  else
    let backend := match request with Some r => task_backend r | None => 0%nat end in
    ecatch
      (do! st := on_backend backend (get_state id) in
       if bool_decide (st ∈ READY_STATES) then eret () else on_backend backend (mark_as_revoked id))
      (λ e, if is_Exception e then eret () else eraise e).

(** the loop of [_revoke] that terminates; each request is looked up when its turn comes *)
Fixpoint terminate_all (signal : Z) (size : nat) (ids : list K) (terminated : list K) : M (list K) :=
  match ids with
  | [] => eret terminated
  | id :: ids =>
      do! found := eget (λ p, dict_get (requests (pworld p)) id) in
      match found with
      | None => terminate_all signal size ids terminated
      | Some r =>
          if bool_decide (req_id r ∈ terminated) then terminate_all signal size ids terminated
          else
            run! req_terminate r signal in
            if bool_decide (size <= S (length terminated))%nat then eret (req_id r :: terminated)
            else terminate_all signal size ids (req_id r :: terminated)
      end
  end.

Inductive reply :=
| Unknown
| TerminateReply (ids : list K)
| Flagged (ids : list K)
| HeadersFlagged
| HeadersNotTerminated
| HeadersRevoked (matched : list (string * list string)).

(** [_revoke] *)
Definition _revoke (ids : list K) (terminate : bool) (signal : option string) : M reply :=
  run! revoked_update ids in
  do! w := eget pworld in
  run! eiter (mark_one (requests_by_id w ids)) ids in
  if terminate then
    do! n := elift (signum signal) in
    do! done_ := terminate_all n (length ids) ids [] in
    eret (match done_ with [] => Unknown | _ => TerminateReply done_ end)
  else eret (Flagged ids).

(** [revoke]: the ids form a set *)
Definition revoke (task_id : list K) (terminate : bool) (signal : option string) : M reply :=
  _revoke (remove_dups task_id) terminate signal.

Definition terminate_command (signal : string) (task_id : list K) : M reply := revoke task_id true (Some signal).

(** [revoke_by_stamped_headers] *)
Definition add_stamps (stamps : pydict string header) (h : string) (v : header) : pydict string header :=
  let old := match dict_get stamps h with Some (HMany l) => l | Some (HOne s) => if bool_decide (s = ""%string) then [] else [s] | None => [] end in
  dict_set stamps h (HMany (old ++ header_list v)).

Definition matching (r : nat) (h : string) (v : header) : list string :=
  match dict_get (m_stamps (msg r)) h with
  | Some actual => filter (λ s, s ∈ header_list v) (header_list actual)
  | None => []
  end.

Fixpoint terminate_matching (signal : Z) (l : list (nat * (string * header))) (acc : list (string * list string)) : M (list (string * list string)) :=
  match l with
  | [] => eret acc
  | (r, (h, v)) :: l =>
      match matching r h v with
      | [] => terminate_matching signal l acc
      | m => run! req_terminate r signal in terminate_matching signal l (acc ++ [(h, m)])
      end
  end.

Definition with_stamps (w : @worker_state K nat _ _) st : @worker_state K nat _ _ :=
  WS (requests w) (reserved_requests w) (active_requests w) (scheduled_requests w) (successful_requests w)
     (total_count w) (all_total_count w) (WorkerState.revoked w) st (should_stop w) (should_terminate w).

Definition revoke_by_stamped_headers (headers : pydict string header) (terminate : bool) (signal : option string) : M reply :=
  do! n := elift (signum signal) in
  run! emodify (λ p, set_pworld (with_stamps (pworld p) (foldl (λ st '(h, v), add_stamps st h v) (revoked_stamps (pworld p)) headers)) p) in
  if negb terminate then eret HeadersFlagged
  else
    do! active := eget (λ p, elements (active_requests (pworld p))) in
    do! m := terminate_matching n (active ≫= (λ r, pair r <$> headers)) [] in
    eret (match m with [] => HeadersNotTerminated | _ => HeadersRevoked m end).

(** [_state_of_task], [query_task], [reserved] and [active] *)
Definition state_of_task (w : @worker_state K nat _ _) (r : nat) : string :=
  if bool_decide (r ∈ active_requests w) then "active"
  else if bool_decide (r ∈ reserved_requests w) then "reserved"
  else if bool_decide (r ∈ scheduled_requests w) then "scheduled"
  else "ready".

Definition query_task (ids : list K) (w : @worker_state K nat _ _) : pydict K string :=
  foldl (λ d r, dict_set d (req_id r) (state_of_task w r)) [] (find_requests w ids).

Definition reserved (w : @worker_state K nat _ _) : gset nat := reserved_requests w ∖ active_requests w.
Definition active (w : @worker_state K nat _ _) : gset nat := active_requests w.
Definition revoked_command (w : @worker_state K nat _ _) : list K := iter kle (WorkerState.revoked w).

(** ** What revoking does *)

Definition room (ids : list K) (p : panel) : Prop :=
  let s := WorkerState.revoked (pworld p) in
  ls_inv kle s ∧ (ls_maxlen s = 0 ∨ ls_len s + Z.of_nat (length ids) < ls_maxlen s).

Definition known_revoked (p : panel) (id : K) : Prop := ls_contains (WorkerState.revoked (pworld p)) id = true.

Lemma revoked_update_spec ids p : room ids p →
  ∃ s, revoked_update ids p = (Panel (with_revoked (pworld p) s) (locals p) (backends p) (ptick p + 2 * length ids)%nat, Ok ()) ∧
    ∀ k, ls_contains s k = true ↔ k ∈ ids ∨ known_revoked p k.
Proof.
  intros [Hi Hl]. unfold revoked_update, known_revoked, ls_contains. cbn [update].
  destruct (add_items_below kle _ ids (λ j, (time (ptick p + 2 * j)%nat, time (ptick p + 2 * j + 1)%nat)) 0 Hi Hl) as (s & -> & _ & Hk & _).
  exists s. split; [done|]. intros k. by rewrite !dict_in_true, Hk.
Qed.

(** Terminating does not touch the set of revoked ids. *)
Definition same_revoked (S : limited_set) (s : @rstate K) : Prop := WorkerState.revoked (world s) = S.

Lemma announce_same_revoked S r reason :
  keeps (same_revoked S) (announce_revoked kle req_id r (tk r) (msg r) eventer_enabled (run r) time reason).
Proof.
  unfold announce_revoked, ready, Request.now, send_event, acknowledge. keeps; try (apply keeps_modify; by destruct 1); try done.
  all: intros s Hs; try done; unfold on_world, same_revoked in *; by rewrite ?Hs.
Qed.

Lemma terminate_same_revoked S r n :
  keeps (same_revoked S) (terminate kle req_id r (tk r) (msg r) eventer_enabled (run r) time n).
Proof.
  unfold terminate, terminate_result. keeps; try apply announce_same_revoked; try (apply keeps_modify; by destruct 1); by intros s Hs.
Qed.

Lemma on_request_keeps {A} (I : @worker_state K nat _ _ → Prop) r (c : eff (@rstate K) A) :
  keeps (λ s, I (world s)) c → keeps (λ p, I (pworld p)) (on_request r c).
Proof.
  intros Hc p Hp. unfold on_request. specialize (Hc (local_of r p)). destruct (c (local_of r p)) as [s o]. apply Hc. exact Hp.
Qed.

Lemma on_backend_world {A} (I : @worker_state K nat _ _ → Prop) i (c : eff B A) : keeps (λ p, I (pworld p)) (on_backend i c).
Proof. intros p Hp. unfold on_backend. destruct (backends p !! i) as [b|]; [|done]. by destruct (c b). Qed.

Lemma terminate_all_revoked S n size ids done_ :
  keeps (λ p, WorkerState.revoked (pworld p) = S) (terminate_all n size ids done_).
Proof.
  revert done_; induction ids as [|id ids IH]; intros done_; cbn [terminate_all]; keeps; try apply IH.
  apply (on_request_keeps (λ w, WorkerState.revoked w = S)), terminate_same_revoked.
Qed.

Lemma mark_one_world (I : @worker_state K nat _ _ → Prop) by_id id : keeps (λ p, I (pworld p)) (mark_one by_id id).
Proof. unfold mark_one. keeps; apply on_backend_world. Qed.

Lemma revoke_revokes ids terminate signal p : room (remove_dups ids) p →
  ∀ id, id ∈ ids → known_revoked (revoke ids terminate signal p).1 id.
Proof.
  intros Hr id Hid. unfold revoke, _revoke. destruct (revoked_update_spec _ _ Hr) as (s & E & Hs). rewrite (ebind_Ok _ _ _ _ _ E). rewrite ebind_get.
  set (p1 := Panel _ _ _ _). assert (ls_contains s id = true) as Hc by (apply Hs; left; by apply elem_of_remove_dups).
  unfold known_revoked. match goal with |- ls_contains (WorkerState.revoked (pworld (?c p1).1)) id = true =>
    assert (keeps (λ p, WorkerState.revoked (pworld p) = s) c) as H; [|by rewrite (H p1 eq_refl)] end.
  keeps; [apply (mark_one_world (λ w, WorkerState.revoked w = s))|apply terminate_all_revoked].
Qed.
(** ** A revoked task does not run *)

(** How often a request has been given to the pool *)
Definition is_apply (x : effect * outcome ()) : bool := match x.1 with ApplyAsync => true | _ => false end.
Definition applied (r : nat) (p : panel) : nat := cnt is_apply (log (local_of r p)).

Lemma call_applied n (r : nat) e : e ≠ ApplyAsync → keeps (λ s : @rstate K, cnt is_apply (log s) = n) (call (run r) e).
Proof. intros He s Hs. unfold call. simpl. rewrite cnt_app, Hs. by destruct e. Qed.

Lemma announce_applied n r reason :
  keeps (λ s : @rstate K, cnt is_apply (log s) = n) (announce_revoked kle req_id r (tk r) (msg r) eventer_enabled (run r) time reason).
Proof.
  unfold announce_revoked, ready, Request.now, send_event, acknowledge.
  keeps; try (by apply call_applied); try (apply keeps_modify; by destruct 1); intros s Hs; done.
Qed.

Lemma revoked_applied n r :
  keeps (λ s : @rstate K, cnt is_apply (log s) = n) (Request.revoked kle req_id r (tk r) (msg r) eventer_enabled (run r) time).
Proof.
  unfold Request.revoked, maybe_expire, Request.now. keeps; try apply announce_applied; intros s Hs; try done.
  unfold on_world. by destruct (obind _ _).
Qed.

Lemma revoked_true r (s : @rstate K) :
  ls_contains (WorkerState.revoked (world s)) (req_id r) = true →
  (Request.revoked kle req_id r (tk r) (msg r) eventer_enabled (run r) time s).2 ≠ Ok false.
Proof.
  intros Hc. unfold Request.revoked. rewrite ebind_get. destruct (already_revoked s); [done|].
  destruct (maybe_expire kle req_id r (msg r) time s) as [s1 [b| |]] eqn:Em.
  2:{ by rewrite (ebind_Raise _ _ _ _ _ Em). }
  2:{ unfold ebind at 1. by rewrite Em. }
  rewrite (ebind_Ok _ _ _ _ _ Em). rewrite ebind_get.
  assert (b = true ∨ ls_contains (WorkerState.revoked (world s1)) (req_id r) = true) as Hb.
  { revert Em. unfold maybe_expire. destruct (m_expires (msg r)) as [e|]; [|intros [= <- <-]; by right].
    unfold Request.now, ebind. simpl. destruct (e <? time (tick s)); [|intros [= <- <-]; by right].
    destruct (on_world _ _) as [? [[]| |]]; intros [= <- <-]. by left. }
  destruct (_ && _).
  - unfold ebind at 1. destruct (ebind (eget _) _ s1) as [s2 [h| |]]; [|done|done].
    assert (b || ls_contains (WorkerState.revoked (world s1)) (req_id r) || h = true) as -> by (destruct Hb as [->| ->]; by rewrite ?orb_true_r).
    unfold ebind. by destruct (announce_revoked _ _ _ _ _ _ _ _ _ s2) as [? [| |]].
  - unfold ebind at 1. unfold eret at 1.
    assert (b || ls_contains (WorkerState.revoked (world s1)) (req_id r) || false = true) as -> by (destruct Hb as [->| ->]; by rewrite ?orb_true_r).
    unfold ebind. by destruct (announce_revoked _ _ _ _ _ _ _ _ _ s1) as [? [| |]].
Qed.

Lemma execute_revoked r p : known_revoked p (req_id r) →
  applied r (req_execute r p).1 = applied r p ∧ (req_execute r p).2 ≠ Ok ().
Proof.
  intros Hk. unfold req_execute, on_request, execute_using_pool.
  pose proof (revoked_true r (local_of r p) Hk) as Ht. pose proof (revoked_applied _ r (local_of r p) eq_refl) as Ha.
  destruct (Request.revoked _ _ _ _ _ _ _ _ (local_of r p)) as [s [[]| |]] eqn:E; simpl in Ht, Ha; [| done | |].
  1: rewrite (ebind_Ok _ _ _ _ _ E). 2: rewrite (ebind_Raise _ _ _ _ _ E). 3: unfold ebind; rewrite E.
  all: simpl; split; [|done]; unfold applied, local_of; simpl; by rewrite lookup_insert_eq.
Qed.

(** ** What becomes of results *)

Definition active_id (by_id : pydict K nat) (act : gset nat) (id : K) : bool :=
  match dict_get by_id id with Some r => bool_decide (r ∈ act) | None => false end.
Definition backend_for (by_id : pydict K nat) (id : K) : nat :=
  match dict_get by_id id with Some r => task_backend r | None => 0%nat end.

(** Only the state of ids that are not active and not ready changes. *)
Definition may_change (by_id : pydict K nat) (act : gset nat) (ids : list K) (p p' : panel) : Prop :=
  pworld p' = pworld p ∧
  ∀ i b, backends p !! i = Some b → ∃ b', backends p' !! i = Some b' ∧
    ∀ k, status b' k = status b k ∨
      (k ∈ ids ∧ i = backend_for by_id k ∧ active_id by_id act k = false ∧ status b k ∉ READY_STATES).

Lemma may_change_refl by_id act ids p : may_change by_id act ids p p.
Proof. split; [done|]. intros i b Hb. exists b. split; [done|]. by left. Qed.

Lemma may_change_trans by_id act ids1 ids2 p1 p2 p3 :
  may_change by_id act ids1 p1 p2 → may_change by_id act ids2 p2 p3 → may_change by_id act (ids1 ++ ids2) p1 p3.
Proof.
  intros [H1 H1b] [H2 H2b]. split; [congruence|]. intros i b Hb. destruct (H1b i b Hb) as (b1 & Hb1 & Hk1).
  destruct (H2b i b1 Hb1) as (b2 & Hb2 & Hk2). exists b2. split; [done|]. intros k. rewrite elem_of_app.
  destruct (Hk1 k) as [E1|(? & ? & ? & ?)]; [|by right; auto].
  destruct (Hk2 k) as [E2|(? & ? & ? & Hr)]; [left; congruence|]. rewrite E1 in Hr. right. auto.
Qed.

Lemma status_insert (bs : gmap nat B) (i j : nat) (b b1 : B) (P : K → Prop) :
  bs !! i = Some b → (∀ k, status b1 k = status b k ∨ P k) →
  ∀ b0, bs !! j = Some b0 → ∃ b', <[i := b1]> bs !! j = Some b' ∧ ∀ k, status b' k = status b0 k ∨ (j = i ∧ P k).
Proof.
  intros Hi HP b0 Hj. destruct (decide (j = i)) as [->|Hne].
  - rewrite Hi in Hj. simplify_eq. exists b1. rewrite lookup_insert_eq. split; [done|]. intros k. destruct (HP k); auto.
  - exists b0. rewrite lookup_insert_ne by done. split; [done|]. by left.
Qed.

Context `{!RevokeBackendLaws K B}.

Lemma mark_one_may_change by_id id p : may_change by_id (active_requests (pworld p)) [id] p (mark_one by_id id p).1.
Proof.
  unfold mark_one. rewrite ebind_get. fold (active_id by_id (active_requests (pworld p)) id). fold (backend_for by_id id).
  destruct (active_id _ _ id) eqn:Ha; [apply may_change_refl|].
  unfold ecatch, on_backend, ebind at 1. destruct (backends p !! backend_for by_id id) as [b|] eqn:Eb; [|apply may_change_refl].
  destruct (get_state id b) as [b1 o] eqn:Eg. destruct (get_state_reads id b b1 o Eg) as [Hst Hok].
  assert (may_change by_id (active_requests (pworld p)) [id] p (Panel (pworld p) (locals p) (<[backend_for by_id id:=b1]> (backends p)) (ptick p))) as H1.
  { split; [done|]. intros i b0 Hb0. destruct (status_insert _ _ i b b1 (λ _, False) Eb (λ k, or_introl (Hst k)) b0 Hb0) as (b' & ? & Hb').
    exists b'. split; [done|]. intros k. destruct (Hb' k) as [|[_ []]]; by left. }
  destruct o as [st|e|]; [|by destruct (is_Exception e)|done].
  rewrite (Hok st eq_refl) in *. case_bool_decide as Hr; [done|]. cbn [backends]. rewrite lookup_insert_eq.
  destruct (mark_as_revoked id b1) as [b2 o2] eqn:Em. destruct (mark_marks id b1 b2 o2 Em) as [Hm _]. cbn [pworld locals ptick].
  assert (may_change by_id (active_requests (pworld p)) [id] p (Panel (pworld p) (locals p) (<[backend_for by_id id:=b2]> (<[backend_for by_id id:=b1]> (backends p))) (ptick p))) as H2.
  { split; [done|]. intros i b0 Hb0. rewrite insert_insert_eq.
    assert (∀ k, status b2 k = status b k ∨ k = id) as Hk.
    { intros k. destruct (decide (k = id)); [by right|]. left. by rewrite Hm, Hst. }
    destruct (status_insert _ _ i b b2 (λ k, k = id) Eb Hk b0 Hb0) as (b' & ? & Hb').
    exists b'. split; [done|]. intros k. destruct (Hb' k) as [|[-> ->]]; [by left|]. right. rewrite Eb in Hb0. simplify_eq.
    split_and!; [by apply list_elem_of_singleton|done|done|done]. }
  destruct o2 as [u|e|]; [done| |done]. by destruct (is_Exception e).
Qed.

Lemma mark_all_may_change by_id ids p : may_change by_id (active_requests (pworld p)) ids p (eiter (mark_one by_id) ids p).1.
Proof.
  revert p; induction ids as [|id ids IH]; intros p; cbn [eiter]; [apply may_change_refl|].
  pose proof (mark_one_may_change by_id id p) as H1. unfold ebind.
  destruct (mark_one by_id id p) as [p1 [u|e|]] eqn:E; simpl in H1.
  - specialize (IH p1). rewrite (proj1 H1) in IH. apply (may_change_trans _ _ [id] ids _ _ _ H1 IH).
  - apply (may_change_trans _ _ [id] ids _ _ _ H1 (may_change_refl _ _ _ _)).
  - apply (may_change_trans _ _ [id] ids _ _ _ H1 (may_change_refl _ _ _ _)).
Qed.

(** Revoking never overwrites a result: in every backend, a task that was ready before
    has the same state afterwards, and so have tasks that are active here and tasks
    that were not named, even if backends fail on the way. *)
Theorem revoke_keeps_results ids signal p i b :
  room (remove_dups ids) p → backends p !! i = Some b →
  ∃ b', backends (revoke ids false signal p).1 !! i = Some b' ∧
    ∀ id, (status b id ∈ READY_STATES ∨ id ∉ ids ∨
           ∃ r, dict_get (requests_by_id (pworld p) (remove_dups ids)) id = Some r ∧ r ∈ active_requests (pworld p)) →
      status b' id = status b id.
Proof.
  intros Hr Hb. unfold revoke, _revoke. destruct (revoked_update_spec _ _ Hr) as (s & E & _). rewrite (ebind_Ok _ _ _ _ _ E), ebind_get.
  set (p1 := Panel _ _ _ _). change (requests_by_id (pworld p1) (remove_dups ids)) with (requests_by_id (pworld p) (remove_dups ids)).
  set (by_id := requests_by_id _ _). pose proof (mark_all_may_change by_id (remove_dups ids) p1) as [_ H].
  destruct (H i b Hb) as (b' & Hb' & Hk). exists b'. split.
  - unfold ebind. by destruct (eiter (mark_one by_id) (remove_dups ids) p1) as [p2 [| |]].
  - intros id Hid. destruct (Hk id) as [|(Hin & _ & Ha & Hn)]; [done|]. exfalso. rewrite elem_of_remove_dups in Hin.
    destruct Hid as [?|[?|(r & Hr1 & Hr2)]]; [done|done|]. unfold active_id in Ha. rewrite Hr1 in Ha. by rewrite bool_decide_true in Ha.
Qed.
(** Backends that answer *)
Definition answering : Prop :=
  (∀ id b, ∃ b' st, get_state id b = (b', Ok st)) ∧ (∀ id b, ∃ b', mark_as_revoked id b = (b', Ok ())).

Lemma mark_one_marks by_id id p b : answering →
  backends p !! backend_for by_id id = Some b → active_id by_id (active_requests (pworld p)) id = false →
  (mark_one by_id id p).2 = Ok () ∧
  ∃ b', backends (mark_one by_id id p).1 !! backend_for by_id id = Some b' ∧
    status b' id = if bool_decide (status b id ∈ READY_STATES) then status b id else REVOKED.
Proof.
  intros [Hg Hm] Eb Ha.
  destruct (Hg id b) as (b1 & st & Eg). destruct (get_state_reads _ _ _ _ Eg) as [Hst Hok]. rewrite (Hok st eq_refl) in *.
  destruct (Hm id b1) as (b2 & Em). destruct (mark_marks _ _ _ _ Em) as [_ Hok2].
  assert (∃ t, mark_one by_id id p = (Panel (pworld p) (locals p) t (ptick p), Ok ()) ∧
    t !! backend_for by_id id = Some (if bool_decide (status b id ∈ READY_STATES) then b1 else b2)) as (t & -> & Ht).
  { unfold mark_one. rewrite ebind_get. fold (active_id by_id (active_requests (pworld p)) id). fold (backend_for by_id id). rewrite Ha.
    unfold ecatch, on_backend, ebind. rewrite Eb, Eg. case_bool_decide as Hr; cbn.
    - eexists. split; [done|]. by rewrite lookup_insert_eq.
    - rewrite lookup_insert_eq, Em. eexists. split; [done|]. by rewrite lookup_insert_eq. }
  split; [done|]. eexists. split; [exact Ht|]. case_bool_decide; [apply Hst|by apply Hok2].
Qed.
Lemma mark_all_marks by_id ids p : answering → NoDup ids →
  (∀ id, is_Some (backends p !! backend_for by_id id)) →
  (eiter (mark_one by_id) ids p).2 = Ok () ∧
  ∀ id b, id ∈ ids → active_id by_id (active_requests (pworld p)) id = false → backends p !! backend_for by_id id = Some b →
    ∃ b', backends (eiter (mark_one by_id) ids p).1 !! backend_for by_id id = Some b' ∧
      status b' id = if bool_decide (status b id ∈ READY_STATES) then status b id else REVOKED.
Proof.
  intros Han Hnd. revert p; induction Hnd as [|id ids Hid Hnd IH]; intros p Hsome.
  { split; [done|]. intros ? ? H. by apply elem_of_nil in H. }
  pose proof (mark_one_may_change by_id id p) as [Hw Hch].
  assert ((mark_one by_id id p).2 = Ok ()) as Hok.
  { destruct (active_id by_id (active_requests (pworld p)) id) eqn:Ha.
    - unfold mark_one. rewrite ebind_get. fold (active_id by_id (active_requests (pworld p)) id). by rewrite Ha.
    - destruct (Hsome id) as [b Hb]. by destruct (mark_one_marks by_id id p b Han Hb Ha). }
  destruct (mark_one by_id id p) as [p1 o] eqn:E1. simpl in Hok. subst o. cbn [eiter]. rewrite (ebind_Ok _ _ _ _ _ E1).
  destruct (IH p1) as [H1 H2].
  { intros x. destruct (Hsome x) as [b Hb]. destruct (Hch _ _ Hb) as (b' & Hb' & _). by exists b'. }
  split; [done|]. intros x b Hx Ha Hb. simpl in Hw. rewrite Hw in H2. apply elem_of_cons in Hx as [->|Hx].
  - destruct (mark_one_marks by_id id p b Han Hb Ha) as (_ & b1 & Hb1 & Hst). rewrite E1 in Hb1.
    pose proof (mark_all_may_change by_id ids p1) as [_ Hch2]. destruct (Hch2 _ _ Hb1) as (b2 & Hb2 & Hk2). exists b2. split; [done|].
    destruct (Hk2 id) as [->|(Hin & _)]; [done|]. done.
  - destruct (Hch _ _ Hb) as (b1 & Hb1 & Hk1). destruct (H2 x b1 Hx Ha Hb1) as (b2 & Hb2 & Hst). exists b2. split; [done|].
    destruct (Hk1 x) as [E|(Hin & _)]; [by rewrite <-E|]. apply list_elem_of_singleton in Hin. congruence.
Qed.

(** With backends that answer, revoking flags the ids, and every one of them that is
    not being executed here is then seen as revoked, unless it already had a result. *)
Theorem revoke_marks ids signal p :
  room (remove_dups ids) p → answering →
  (∀ i, is_Some (backends p !! i) ∨ i ≠ 0%nat ∧ ∀ r, task_backend r ≠ i) →
  let by_id := requests_by_id (pworld p) (remove_dups ids) in
  (revoke ids false signal p).2 = Ok (Flagged (remove_dups ids)) ∧
  ∀ id b, id ∈ ids → active_id by_id (active_requests (pworld p)) id = false → backends p !! backend_for by_id id = Some b →
    ∃ b', backends (revoke ids false signal p).1 !! backend_for by_id id = Some b' ∧
      status b' id = if bool_decide (status b id ∈ READY_STATES) then status b id else REVOKED.
Proof.
  intros Hr Han Hbk by_id. unfold revoke, _revoke. destruct (revoked_update_spec _ _ Hr) as (s & E & _). rewrite (ebind_Ok _ _ _ _ _ E), ebind_get.
  set (p1 := Panel _ _ _ _). change (requests_by_id (pworld p1) (remove_dups ids)) with by_id.
  destruct (mark_all_marks by_id (remove_dups ids) p1 Han (NoDup_remove_dups ids)) as [H1 H2].
  { intros id. simpl. destruct (Hbk (backend_for by_id id)) as [|[H0 Ht]]; [done|]. exfalso. unfold backend_for in *.
    destruct (dict_get by_id id) as [r|]; [by apply (Ht r)|done]. }
  destruct (eiter (mark_one by_id) (remove_dups ids) p1) as [p2 o] eqn:E2. simpl in H1. subst o. rewrite (ebind_Ok _ _ _ _ _ E2).
  split; [done|]. intros id b Hid. apply H2. by apply elem_of_remove_dups.
Qed.

(** ** Queries *)

Section Query.
Context (Hinj : ∀ r r', req_id r = req_id r' → r = r').

Lemma by_key_in {V} (f : nat → V) rs d r : r ∈ rs →
  dict_get (foldl (λ d r, dict_set d (req_id r) (f r)) d rs) (req_id r) = Some (f r).
Proof using Hinj.
  induction rs as [|x rs IH] using rev_ind; [by intros ?%elem_of_nil|]. rewrite foldl_app. cbn [foldl]. intros Hr.
  rewrite dict_get_set. case_decide as E; [by rewrite (Hinj _ _ E)|]. apply IH.
  apply elem_of_app in Hr as [|Hr%list_elem_of_singleton]; [done|]. subst. done.
Qed.

Lemma by_key_notin {V} (f : nat → V) rs d id : (∀ r, r ∈ rs → req_id r ≠ id) →
  dict_get (foldl (λ d r, dict_set d (req_id r) (f r)) d rs) id = dict_get d id.
Proof using Type.
  induction rs as [|x rs IH] using rev_ind; [done|]. rewrite foldl_app. cbn [foldl]. intros Hr.
  rewrite dict_get_set_ne; [apply IH; intros r ?; apply Hr, elem_of_app; by left|]. apply Hr, elem_of_app. right. by apply list_elem_of_singleton.
Qed.

Lemma elem_of_find w ids r : registry_inv req_id w → r ∈ find_requests w ids ↔ r ∈ known w ∧ req_id r ∈ ids.
Proof using Type.
  intros Hi. unfold find_requests. rewrite list_elem_of_omap. split.
  - intros (id & Hid & [H ->]%(ri_known _ _ Hi)). done.
  - intros [H1 H2]. exists (req_id r). split; [done|]. by apply (ri_known _ _ Hi).
Qed.

Lemma known_not_ready w r : r ∈ known w → state_of_task w r ≠ "ready"%string.
Proof using Type. unfold known, state_of_task. intros H. clear -H. repeat case_bool_decide; try done. rewrite !elem_of_union in H. tauto. Qed.

(** A query reports an id exactly when the worker knows a task with that id, and then
    as active, reserved or scheduled, never as ready. *)
Theorem query_complete ids w id :
  registry_inv req_id w →
  match dict_get (query_task ids w) id with
  | Some st => id ∈ ids ∧ ∃ r, r ∈ known w ∧ req_id r = id ∧ st = state_of_task w r ∧ st ≠ "ready"%string
  | None => id ∈ ids → ∀ r, r ∈ known w → req_id r ≠ id
  end.
Proof using Hinj.
  intros Hi. unfold query_task.
  destruct (dict_get (requests w) id) as [r|] eqn:E.
  - apply (ri_known _ _ Hi) in E as [Hk ->]. destruct (decide (req_id r ∈ ids)) as [Hid|Hid].
    + rewrite by_key_in by (by apply elem_of_find). split; [done|]. exists r. split_and!; [done|done|done|by apply known_not_ready].
    + rewrite by_key_notin; [by intros ?|]. intros r' [_ H']%elem_of_find; [|done]. congruence.
  - assert (∀ r, r ∈ known w → req_id r ≠ id) as Hno.
    { intros r Hr <-. by rewrite (proj2 (ri_known _ _ Hi (req_id r) r)) in E. }
    rewrite by_key_notin; [by intros _|]. intros r [Hr _]%elem_of_find; [|done]. by apply Hno.
Qed.
End Query.

End Revoke.
End Revoke.

(** ** Limits, events and the pool *)
Module Panel.
Import EventDispatch.Dispatch.
Section Panel.
(** [float(text)]: whether the number is not zero *)
Context (py_float : string → outcome bool).
Context {P : Type} `{!Autoscale.Pool P}.
(** kombu's QoS *)
Context (increment decrement : Z → Z → Z).

Record task_info := TaskInfo { rate_limit : option string; soft_time_limit : option Z; time_limit : option Z }.

Inductive soon := AddTaskQueue (q : string) | CancelTaskQueue (q : string).

Record controller := Controller {
  tasks : pydict string task_info; limits : @RateLimit.limits nat; pool : P; prefetch : Consumer.Prefetch.prefetch;
  autoscaler : option (@Autoscale.autoscaler P); event_dispatcher : option dispatcher; call_soon : list soon }.
Abbreviation M := (eff controller).

Definition set_tasks t (c : controller) : controller :=
  Controller t (limits c) (pool c) (prefetch c) (autoscaler c) (event_dispatcher c) (call_soon c).
Definition set_limits l (c : controller) : controller :=
  Controller (tasks c) l (pool c) (prefetch c) (autoscaler c) (event_dispatcher c) (call_soon c).
Definition set_pool p f (c : controller) : controller :=
  Controller (tasks c) (limits c) p f (autoscaler c) (event_dispatcher c) (call_soon c).
Definition set_autoscaler a (c : controller) : controller :=
  Controller (tasks c) (limits c) (pool c) (prefetch c) a (event_dispatcher c) (call_soon c).
Definition set_dispatcher d (c : controller) : controller :=
  Controller (tasks c) (limits c) (pool c) (prefetch c) (autoscaler c) d (call_soon c).
Definition add_soon x (c : controller) : controller :=
  Controller (tasks c) (limits c) (pool c) (prefetch c) (autoscaler c) (event_dispatcher c) (call_soon c ++ [x]).

Inductive reply := ok (s : string) | nok (s : string) | ok_scaled (max min : Z).

(** [rate(text)], celery/utils/time.py: whether it is not zero.  The modifier is looked
    up before the number is read. *)
Definition rate (r : option string) : outcome bool :=
  match r with
  | None | Some EmptyString => Ok false
  | Some r =>
      let '(ops, modifier) :=
        match split_on "/" (to_chars r) with
        | ops :: (m :: ms) => (of_chars ops, of_chars (foldl (λ a b, (a ++ "/"%char :: b)%list) m ms))
        | ops :: [] => (of_chars ops, "")
        | [] => ("", "")
        end%string in
      let modifier := if bool_decide (modifier = ""%string) then "s"%string else modifier in
      if bool_decide (modifier ∈ ["s"; "m"; "h"]%string) then py_float ops else Raise KeyError
  end.

(** [Consumer.reset_rate_limits] *)
Fixpoint limited_tasks (ts : pydict string task_info) : list (string * bool) * outcome () :=
  match ts with
  | [] => ([], Ok ())
  | (n, t) :: ts =>
      match rate (rate_limit t) with
      | Ok b => let '(l, r) := limited_tasks ts in ((n, b) :: l, r)
      | Raise e => ([], Raise e)
      | Diverge => ([], Diverge)
      end
  end.
Definition reset_rate_limits : M () := λ c,
  let '(l, r) := limited_tasks (tasks c) in
  (set_limits (RateLimit.reset_rate_limits l (limits c)) c, r).

(** the command [rate_limit] *)
Definition set_rate_limit (task_name : string) (limit : option string) : M reply :=
  etry (elift (rate limit)) (λ e, match e with ValueError => eret (nok "Invalid rate limit string") | e => eraise e end) (λ _,
    do! ts := eget tasks in
    match dict_get ts task_name with
    | None => eret (nok "unknown task")
    | Some t =>
        run! emodify (set_tasks (dict_set ts task_name (TaskInfo limit (soft_time_limit t) (time_limit t)))) in
        run! reset_rate_limits in
        eret (match limit with
              | None | Some EmptyString => ok "rate limit disabled successfully"
              | _ => ok "new rate limit set successfully"
              end)
    end).

(** the command [time_limit] *)
Definition set_time_limit (task_name : string) (hard soft : option Z) : M reply :=
  do! ts := eget tasks in
  match dict_get ts task_name with
  | None => eret (nok "unknown task")
  | Some t =>
      run! emodify (set_tasks (dict_set ts task_name (TaskInfo (rate_limit t) soft hard))) in
      eret (ok "time limits set successfully")
  end.

Definition with_groups g (d : dispatcher) : dispatcher :=
  Dispatcher (hostname d) (pid d) g (buffer_group d) (buffer_limit d) (buffer_while_offline d) (has_on_send_buffered d)
    (enabled d) (producer d) (group_buffer d) (outbound_buffer d) (trefs d).

Definition enable_events : M reply :=
  do! d := eget event_dispatcher in
  match d with
  | None => eret (nok "event dispatcher unavailable")
  | Some d =>
      if negb (bool_decide (groups d = ∅)) && bool_decide ("task"%string ∉ groups d) then
        run! emodify (set_dispatcher (Some (with_groups ({["task"%string]} ∪ groups d) d))) in
        eret (ok "task events enabled")
      else eret (ok "task events already enabled")
  end.

Definition disable_events : M reply :=
  do! d := eget event_dispatcher in
  match d with
  | None => eret (nok "event dispatcher unavailable")
  | Some d =>
      if bool_decide ("task"%string ∈ groups d) then
        run! emodify (set_dispatcher (Some (with_groups (groups d ∖ {["task"%string]}) d))) in
        eret (ok "task events disabled")
      else eret (ok "task events already disabled")
  end.

(** [pool_grow] and [pool_shrink] *)
Definition processes_now (p : P) (f : Consumer.Prefetch.prefetch) : Consumer.Prefetch.prefetch :=
  Consumer.Prefetch.PF (Consumer.Prefetch.initial_prefetch_count f) (Consumer.Prefetch.prefetch_multiplier f)
    (Autoscale.num_processes p) (Consumer.Prefetch.qos_value f) (Consumer.Prefetch.qos_global f)
    (Consumer.Prefetch.maximum_prefetch_restored f) (Consumer.Prefetch.worker_enable_prefetch_count_reduction f).

Definition resize (op : eff P ()) (index : Z) : M () := λ c,
  match op (pool c) with
  | (p, Ok _) => (set_pool p (Consumer.Prefetch.update_prefetch_count increment decrement index (processes_now p (prefetch c))) c, Ok ())
  | (p, Raise e) => (set_pool p (processes_now p (prefetch c)) c, Raise e)
  | (p, Diverge) => (set_pool p (processes_now p (prefetch c)) c, Diverge)
  end.

Definition pool_grow (n : Z) : M reply :=
  do! a := eget autoscaler in
  match a with
  | Some _ => eret (nok "pool_grow is not supported with autoscale. Adjust autoscale range instead.")
  | None => run! resize (Autoscale.pool_grow n) n in eret (ok "pool will grow")
  end.
Definition pool_shrink (n : Z) : M reply :=
  do! a := eget autoscaler in
  match a with
  | Some _ => eret (nok "pool_shrink is not supported with autoscale. Adjust autoscale range instead.")
  | None => run! resize (Autoscale.pool_shrink n) (- n) in eret (ok "pool will shrink")
  end.

(** the command [autoscale] *)
Definition autoscale (max min : option Z) : M reply := λ c,
  match autoscaler c with
  | None => (c, Raise ValueError)
  | Some a =>
      let '(a, r) := Autoscale.update max min a in
      (set_autoscaler (Some a) c, let! mm := r in Ok (ok_scaled mm.1 mm.2))
  end.

Definition shutdown : M reply := eraise WorkerShutdown.
Definition add_consumer (q : string) : M reply := run! emodify (add_soon (AddTaskQueue q)) in eret (ok ("add consumer " ++ q)%string).
Definition cancel_consumer (q : string) : M reply :=
  run! emodify (add_soon (CancelTaskQueue q)) in eret (ok ("no longer consuming from " ++ q)%string).

End Panel.

(** ** What the commands achieve *)

Section Achieve.
Context {P : Type}.

Definition sends (c : @controller P) (type : string) : bool :=
  match event_dispatcher c with Some d => accepts d type | None => false end.

Lemma accepts_groups d g type : enabled d = true → "worker"%string ∈ g → accepts (with_groups g d) type = bool_decide (group_from type ∈ g).
Proof. intros He Hg. unfold accepts. simpl. rewrite He, (bool_decide_false (g = ∅)) by set_solver. done. Qed.

Lemma sends_groups c d type :
  event_dispatcher c = Some d → enabled d = true → "worker"%string ∈ groups d →
  sends c type = bool_decide (group_from type ∈ groups d).
Proof. intros Hd He Hw. unfold sends. rewrite Hd. rewrite <-(accepts_groups d (groups d) type He Hw). by destruct d. Qed.

Lemma sends_enabled c d type :
  event_dispatcher c = Some d → enabled d = true → "worker"%string ∈ groups d →
  sends (enable_events c).1 type = bool_decide (group_from type ∈ {["task"%string]} ∪ groups d).
Proof.
  intros Hd He Hw. unfold enable_events. rewrite ebind_get, Hd, (bool_decide_false (groups d = ∅)) by set_solver. cbn [negb andb].
  case_bool_decide as Ht.
  - unfold sends. simpl. apply accepts_groups; [done|set_solver].
  - cbn [eret fst]. rewrite (sends_groups c d) by done. apply bool_decide_ext. rewrite elem_of_union, elem_of_singleton.
    split; [by right|]. intros [E|?]; [by rewrite E|done].
Qed.

Lemma sends_disabled c d type :
  event_dispatcher c = Some d → enabled d = true → "worker"%string ∈ groups d →
  sends (disable_events c).1 type = bool_decide (group_from type ∈ groups d ∖ {["task"%string]}).
Proof.
  intros Hd He Hw. unfold disable_events. rewrite ebind_get, Hd. case_bool_decide as Ht.
  - unfold sends. simpl. apply accepts_groups; [done|set_solver].
  - cbn [eret fst]. rewrite (sends_groups c d) by done. apply bool_decide_ext. rewrite elem_of_difference, elem_of_singleton.
    split; [|by intros []]. intros H1. split; [done|]. intros E. by rewrite E in H1.
Qed.

(** A worker that sends worker events only can be told to send task events too, and
    to stop again: after the one command it does, after the other it does not, and its
    worker events are not affected. *)
Theorem task_events_switch c d :
  event_dispatcher c = Some d → enabled d = true → "worker"%string ∈ groups d →
  (∀ type, group_from type = "task"%string → sends (enable_events c).1 type = true ∧ sends (disable_events c).1 type = false) ∧
  (∀ type, group_from type ≠ "task"%string →
     sends (enable_events c).1 type = sends c type ∧ sends (disable_events c).1 type = sends c type).
Proof.
  intros Hd He Hw. split; intros type Ht; rewrite (sends_enabled c d), (sends_disabled c d) by done.
  - rewrite Ht. split; [apply bool_decide_eq_true|apply bool_decide_eq_false]; set_solver.
  - rewrite (sends_groups c d) by done. split; apply bool_decide_ext; set_solver.
Qed.

(** A worker started to send all events has no groups: told to stop sending task events
    it says that they are disabled already, and goes on. *)
Lemma disable_all_events c d type :
  event_dispatcher c = Some d → enabled d = true → groups d = ∅ →
  disable_events c = (c, Ok (ok "task events already disabled")) ∧ sends c type = true.
Proof.
  intros Hd He Hg. unfold disable_events, sends. rewrite ebind_get, Hd, Hg. split; [done|].
  unfold accepts. by rewrite He, Hg.
Qed.

End Achieve.

(** Text that names no unit is not reported as an invalid limit: the exception escapes. *)
Lemma unknown_unit {P} py_float (c : @controller P) name : (set_rate_limit py_float name (Some "5/x"%string) c).2 = Raise KeyError.
Proof. done. Qed.

Section Prefetching.
Context {P : Type} `{!Autoscale.Pool P}.
Context (increment decrement : Z → Z → Z).

(** The prefetch count is so many messages per process. *)
Definition follows (c : @controller P) : Prop :=
  let f := prefetch c in
  Consumer.Prefetch.num_processes f = Autoscale.num_processes (pool c) ∧ 0 < Autoscale.num_processes (pool c) ∧
  0 < Consumer.Prefetch.prefetch_multiplier f ∧
  Consumer.Prefetch.initial_prefetch_count f = Consumer.Prefetch.max_prefetch_count f ∧
  Consumer.Prefetch.qos_value f = Consumer.Prefetch.max_prefetch_count f.

Lemma resize_follows op index c p' :
  (∀ v n, 0 < v → 0 <= n → increment v n = v + n) → (∀ v n, 0 <= n → 0 < v - n → decrement v n = v - n) →
  follows c → op (pool c) = (p', Ok ()) → Autoscale.num_processes p' = Autoscale.num_processes (pool c) + index →
  0 < Autoscale.num_processes p' →
  ∃ c', resize increment decrement op index c = (c', Ok ()) ∧ follows c' ∧ pool c' = p' ∧ autoscaler c' = autoscaler c ∧
    Consumer.Prefetch.prefetch_multiplier (prefetch c') = Consumer.Prefetch.prefetch_multiplier (prefetch c).
Proof.
  intros Hinc Hdec (H1 & H2 & H3 & H4 & H5) E Hn Hpos. unfold resize. rewrite E. eexists. split; [done|].
  unfold follows, Consumer.Prefetch.update_prefetch_count, processes_now, Consumer.Prefetch.max_prefetch_count in *. simpl in *.
  destruct (prefetch c) as [i m np q g mx en]. simpl in *. subst i q np.
  assert ((Autoscale.num_processes (pool c) * m =? 0) = false) as -> by (apply Z.eqb_neq; nia).
  assert ((Autoscale.num_processes p' =? 0) = false) as -> by (apply Z.eqb_neq; lia). simpl.
  split; [|done]. split_and!; try done. destruct (index <? 0) eqn:Ei; zbool; [rewrite Hdec by nia|rewrite Hinc by nia]; nia.
Qed.

(** Growing the pool by command and shrinking it again keeps the prefetch count at so
    many messages per process; with the autoscaler, the commands are refused. *)
Theorem prefetch_follows_pool `{!Autoscale.PoolLaws P} n c :
  (∀ v n, 0 < v → 0 <= n → increment v n = v + n) → (∀ v n, 0 <= n → 0 < v - n → decrement v n = v - n) →
  follows c → 0 < n →
  match autoscaler c with
  | Some _ => (pool_grow increment decrement n c).1 = c ∧ (pool_shrink increment decrement n c).1 = c
  | None =>
      ∃ c1, pool_grow increment decrement n c = (c1, Ok (ok "pool will grow")) ∧ follows c1 ∧
        Autoscale.num_processes (pool c1) = Autoscale.num_processes (pool c) + n ∧
        ∀ p', Autoscale.pool_shrink n (pool c1) = (p', Ok ()) → Autoscale.num_processes p' = Autoscale.num_processes (pool c1) - n →
          ∃ c2, pool_shrink increment decrement n c1 = (c2, Ok (ok "pool will shrink")) ∧ follows c2 ∧
            Consumer.Prefetch.qos_value (prefetch c2) = Consumer.Prefetch.qos_value (prefetch c)
  end.
Proof.
  intros Hinc Hdec Hf Hn. unfold pool_grow, pool_shrink. rewrite !ebind_get. destruct (autoscaler c) as [a|] eqn:Ea; [done|].
  destruct (Autoscale.grow_adds n (pool c) Hn) as (p1 & E1 & Hp1). pose proof Hf as (_ & Hpos & _).
  destruct (resize_follows _ n c p1 Hinc Hdec Hf E1 Hp1) as (c1 & R1 & F1 & Ep1 & A1 & M1); [lia|].
  rewrite (ebind_Ok _ _ _ _ _ R1). exists c1. rewrite Ep1. split_and!; [done|done|done|].
  intros p2 E2 Hp2. rewrite ebind_get, A1, Ea. rewrite <-Ep1 in E2, Hp2.
  destruct (resize_follows _ (- n) c1 p2 Hinc Hdec F1 E2) as (c2 & R2 & F2 & Ep2 & A2 & M2); [lia|rewrite Hp2, Ep1; lia|].
  rewrite (ebind_Ok _ _ _ _ _ R2). exists c2. split_and!; [done|done|].
  destruct Hf as (G1 & _ & _ & _ & G5), F2 as (K1 & _ & _ & _ & K5). unfold Consumer.Prefetch.max_prefetch_count in *.
  rewrite K5, G5, K1, G1, M2, M1, Ep2, Hp2, Ep1, Hp1. lia.
Qed.
End Prefetching.
End Panel.

(** ** Workers that meet *)
Module Mingle.
Section Mingle.
Context {K : Type} `{!EqDecision K}.
Context (kle : relation K) `{!RelDecision kle, !Total kle, !Transitive kle}.
Context {rid : Type} `{!EqDecision rid, !Countable rid}.
(** kombu's clock *)
Context (forward : Z → Z) (adjust : Z → Z → Z).

Record node := Node { hostname : string; state : @worker_state K rid _ _; clock : Z }.
Inductive reply := Reply (revoked : list K) (clock : Z) | Failed.

(** the command [hello]; [clk] and [now] are the clock readings of the set *)
Definition hello (from_node : string) (revoked_ : list K) (clk : nat → Z * Z) (now : Z) (n : node) : outcome (node * option reply) :=
  if bool_decide (from_node = hostname n) then Ok (n, None)
  else
    let! w := (match revoked_ with [] => Ok (state n) | _ => merge_revoked kle (state n) (SavedIds revoked_) clk end) in
    let! s := purge now (revoked w) in
    let c := forward (clock n) in
    Ok (Node (hostname n) (with_revoked w s) c, Some (Reply (iter kle s) c)).

(** What a broadcast leaves and brings back: a node that fails replies so *)
Definition answer (from_node : string) (revoked_ : list K) (clk : nat → Z * Z) (now : Z) (n : node) : node * option reply :=
  match hello from_node revoked_ clk now n with Ok r => r | _ => (n, Some Failed) end.

(** [sync_with_node] *)
Definition sync_with_node (r : reply) (clk : nat → Z * Z) (n : node) : node * outcome () :=
  let '(c, ids) := match r with Reply ids c => (c, ids) | Failed => (0, []) end in
  let n := Node (hostname n) (state n) (if c =? 0 then forward (clock n) else adjust (clock n) c) in
  match ids with
  | [] => (n, Ok ())
  | _ => match merge_revoked kle (state n) (SavedIds ids) clk with
         | Ok w => (Node (hostname n) w (clock n), Ok ())
         | Raise e => (n, Raise e)
         | Diverge => (n, Diverge)
         end
  end.

(** [on_node_reply] *)
Definition on_node_reply (r : reply) (clk : nat → Z * Z) (n : node) : node * outcome () :=
  match sync_with_node r clk n with
  | (n, Raise MemoryError) => (n, Raise MemoryError)
  | (n, Raise e) => if is_Exception e then (n, Ok ()) else (n, Raise e)
  | r => r
  end.

Fixpoint on_replies (rs : list reply) (clks : nat → nat → Z * Z) (i : nat) (n : node) : node * outcome () :=
  match rs with
  | [] => (n, Ok ())
  | r :: rs => match on_node_reply r (clks i) n with (n, Ok _) => on_replies rs clks (S i) n | r => r end
  end.

(** [sync] of node [a] with the others (its own reply is left out) *)
Definition sync (a : node) (others : list node) (clks : nat → nat → Z * Z) (clk : nat → Z * Z) (now : Z) : node * list node * outcome () :=
  let answers := answer (hostname a) (iter kle (revoked (state a))) clk now <$> others in
  let '(a, r) := on_replies (omap snd answers) clks 0 a in
  (a, answers.*1, r).

(** ** What they know afterwards *)

Definition ids (n : node) (k : K) : Prop := ls_contains (revoked (state n)) k = true.

Lemma ids_keys n k : ids n k ↔ k ∈ dict_keys (ls_data (revoked (state n))).
Proof. unfold ids, ls_contains. apply dict_in_true. Qed.

(** There is room for [m] more ids, and none expires meanwhile. *)
Definition healthy (now : Z) (m : Z) (s : @limited_set K) : Prop :=
  ls_inv kle s ∧ (ls_maxlen s = 0 ∨ ls_len s + m < ls_maxlen s) ∧
  ∀ e, e ∈ ls_heap s → now < stamp e + ls_expires s.

Definition readings (now expires : Z) (clk : nat → Z * Z) : Prop := ∀ j, now < (clk j).1 + expires.

Lemma merge_healthy (w : @worker_state K rid _ _) l clk now m :
  healthy now (Z.of_nat (length l) + m) (revoked w) → readings now (ls_expires (revoked w)) clk → 0 <= m →
  ∃ s, merge_revoked kle w (SavedIds l) clk = Ok (with_revoked w s) ∧ healthy now m s ∧ ls_expires s = ls_expires (revoked w) ∧
    ls_len s <= ls_len (revoked w) + Z.of_nat (length l) ∧
    ∀ k, k ∈ dict_keys (ls_data s) ↔ k ∈ l ∨ k ∈ dict_keys (ls_data (revoked w)).
Proof.
  intros (Hi & Hl & He) Hclk Hm. destruct l as [|k0 l].
  - exists (revoked w). split_and!; [by destruct w|split_and!; [done| |done]|done|simpl; lia|].
    + simpl in Hl. destruct Hl; [by left|right; lia].
    + intros k. rewrite elem_of_nil. tauto.
  - unfold merge_revoked. cbn [saved_truthy saved_ids update]. rewrite bool_decide_false by done. cbn [negb].
    destruct (add_items_below kle (revoked w) (k0 :: l) clk 0 Hi) as (s & -> & Hi' & Hk & Hh & Hlen & Hmx & Hmn & Hx); [destruct Hl; [by left|right; lia]|].
    exists s. split_and!; [done| |done|done|done]. split_and!; [done|rewrite Hmx; destruct Hl; [by left|right; lia]|].
    intros e [H|[j H]]%Hh; rewrite Hx; [by apply He|]. rewrite H. apply Hclk.
Qed.

Lemma hello_shares b a_name l clk now m :
  a_name ≠ hostname b → healthy now (Z.of_nat (length l) + m) (revoked (state b)) → readings now (ls_expires (revoked (state b))) clk → 0 <= m →
  ∃ b' r c, answer a_name l clk now b = (b', Some (Reply r c)) ∧
    (∀ k, ids b' k ↔ k ∈ l ∨ ids b k) ∧ (∀ k, k ∈ r ↔ ids b' k) ∧ Z.of_nat (length r) <= ls_len (revoked (state b)) + Z.of_nat (length l).
Proof.
  intros Hn Hh Hr Hm. unfold answer, hello. rewrite bool_decide_false by done.
  destruct (merge_healthy _ _ _ _ _ Hh Hr Hm) as (s & E & (Hi & Hl & He) & Hx & Hlen & Hk).
  assert (match l with [] => Ok (state b) | _ => merge_revoked kle (state b) (SavedIds l) clk end = Ok (with_revoked (state b) s)) as ->.
  { destruct l; [|done]. by rewrite <-E. }
  cbn [obind]. change (revoked (with_revoked (state b) s)) with s.
  assert (purge now s = Ok s) as -> by (apply (purge_fresh kle); [done|intros; destruct Hl; [done|lia]|auto]). cbn [obind].
  do 3 eexists. split; [done|]. split_and!.
  - intros k. rewrite !ids_keys. simpl. apply Hk.
  - intros k. rewrite ids_keys. simpl. by rewrite (iter_perm kle s Hi).
  - rewrite (iter_perm kle s Hi). unfold dict_keys. rewrite length_fmap. fold (ls_len s). exact Hlen.
Qed.

Definition reply_ids (r : reply) : list K := match r with Reply l _ => l | Failed => [] end.

Definition total (rs : list reply) : Z := foldr (λ r z, Z.of_nat (length (reply_ids r)) + z) 0 rs.

Lemma total_nonneg rs : 0 <= total rs.
Proof. induction rs as [|r rs IH]; simpl; lia. Qed.

Lemma replies_shared rs clks i n now :
  healthy now (total rs) (revoked (state n)) → (∀ j, readings now (ls_expires (revoked (state n))) (clks j)) →
  ∃ n', on_replies rs clks i n = (n', Ok ()) ∧ ∀ k, ids n' k ↔ ids n k ∨ ∃ r, r ∈ rs ∧ k ∈ reply_ids r.
Proof.
  revert i n; induction rs as [|r rs IH]; intros i n Hh Hc; cbn [on_replies total foldr] in *.
  { exists n. split; [done|]. intros k. split; [by left|]. intros [?|(r & []%elem_of_nil & _)]. done. }
  destruct (merge_healthy _ _ _ _ _ Hh (Hc i) (total_nonneg rs)) as (s & E & Hs & Hx & _ & Hk).
  assert (∃ c, on_node_reply r (clks i) n = (Node (hostname n) (with_revoked (state n) s) c, Ok ())) as (c & ->).
  { unfold on_node_reply, sync_with_node. destruct r as [l c|]; cbn [reply_ids] in *.
    - destruct l as [|k0 l]; cbn [state hostname clock].
      + eexists. simpl in E. injection E as E. rewrite E at 1. done.
      + rewrite E. eexists. done.
    - eexists. simpl in E. injection E as E. rewrite E at 1. done. }
  destruct (IH (S i) (Node (hostname n) (with_revoked (state n) s) c)) as (n' & -> & Hn'); [exact Hs|simpl; by rewrite Hx|].
  exists n'. split; [done|]. intros k. rewrite Hn', ids_keys. simpl. rewrite Hk, <-ids_keys. setoid_rewrite elem_of_cons. naive_solver.
Qed.

(** When a worker joins, it and the workers it finds tell each other the tasks that
    were revoked: afterwards each of the others knows those of the newcomer besides its
    own, and the newcomer those of all, as long as the sets have room and nothing
    expires meanwhile. *)
Theorem mingle_shares_revoked a others clks clk now :
  let l := iter kle (revoked (state a)) in
  let n := Z.of_nat (length l) in
  Forall (λ b, hostname b ≠ hostname a ∧ healthy now n (revoked (state b)) ∧ readings now (ls_expires (revoked (state b))) clk) others →
  healthy now (foldr (λ b z, ls_len (revoked (state b)) + n + z) 0 others) (revoked (state a)) →
  (∀ j, readings now (ls_expires (revoked (state a))) (clks j)) →
  ∃ a' others', sync a others clks clk now = (a', others', Ok ()) ∧
    (∀ k, ids a' k ↔ ids a k ∨ ∃ b, b ∈ others ∧ ids b k) ∧
    Forall2 (λ b b', ∀ k, ids b' k ↔ ids a k ∨ ids b k) others others'.
Proof.
  intros l n Hothers Ha Hclks. assert (∀ k, k ∈ l ↔ ids a k) as Hl.
  { intros k. rewrite ids_keys. unfold l. by rewrite (iter_perm kle _ (proj1 Ha)). }
  assert (∃ rs, omap snd (answer (hostname a) l clk now <$> others) = rs ∧
    Forall2 (λ b b', ∀ k, ids b' k ↔ ids a k ∨ ids b k) others (answer (hostname a) l clk now <$> others).*1 ∧
    (∀ k, (∃ r, r ∈ rs ∧ k ∈ reply_ids r) → ids a k ∨ ∃ b, b ∈ others ∧ ids b k) ∧
    (∀ k b, b ∈ others → ids b k → ∃ r, r ∈ rs ∧ k ∈ reply_ids r) ∧
    total rs <= foldr (λ b z, ls_len (revoked (state b)) + n + z) 0 others) as (rs & Ers & H2 & Hsub & Hsup & Htot).
  { clear Ha Hclks. induction Hothers as [|b others (Hne & Hb & Hr) _ IH].
    { exists []. split_and!; [done|constructor| |by intros ? ? ?%elem_of_nil|done]. by intros k (r & []%elem_of_nil & _). }
    destruct IH as (rs & Ers & H2 & Hsub & Hsup & Htot).
    destruct (hello_shares b (hostname a) l clk now 0) as (b' & r & c & E & Hb' & Hrr & Hlen); [done|by rewrite Z.add_0_r|done|done|].
    exists (Reply r c :: rs). cbn [fmap list_fmap omap list_omap]. rewrite E. cbn. split_and!.
    - by rewrite <-Ers.
    - constructor; [|done]. intros k. by rewrite Hb', Hl.
    - intros k (x & Hx & Hk). apply elem_of_cons in Hx as [->|Hx].
      + simpl in Hk. apply Hrr, Hb' in Hk as [Hk|Hk]; [left; by apply Hl|]. right. exists b. split; [apply list_elem_of_here|done].
      + destruct (Hsub k) as [|(b0 & ? & ?)]; [by exists x|by left|]. right. exists b0. split; [by apply list_elem_of_further|done].
    - intros k b0 Hb0 Hk. apply elem_of_cons in Hb0 as [->|Hb0].
      + exists (Reply r c). split; [apply list_elem_of_here|]. simpl. apply Hrr, Hb'. by right.
      + destruct (Hsup k b0 Hb0 Hk) as (x & ? & ?). exists x. split; [by apply list_elem_of_further|done].
    - unfold n, total in *. lia. }
  destruct (replies_shared rs clks 0 a now) as (a' & E & Ha').
  { destruct Ha as (Hi & Hm & He). split_and!; [done| |done]. destruct Hm; [by left|right; lia]. }
  { done. }
  unfold sync. fold l. rewrite Ers, E. do 2 eexists. split; [done|]. split; [|done]. intros k. rewrite Ha'. split.
  - intros [?|?]; [by left|]. by apply Hsub.
  - intros [?|(b & Hb & Hk)]; [by left|]. right. by eapply Hsup.
Qed.
End Mingle.
End Mingle.

(** ** Examples *)
Module ControlExamples.
Import States Request Revoke.

#[local] Instance states_backend : RevokeBackend nat (gmap nat string) := {|
  status b k := default PENDING (b !! k);
  get_state id b := (b, Ok (default PENDING (b !! id)));
  mark_as_revoked id b := (<[id := REVOKED]> b, Ok ());
|}.
#[local] Instance states_backend_laws : RevokeBackendLaws nat (gmap nat string).
Proof.
  split; simpl.
  - intros id b b' o [= <- <-]. split; [done|]. by intros st [= ->].
  - intros id b b' o [= <- <-]. split; [|by rewrite lookup_insert_eq]. intros k Hk. by rewrite lookup_insert_ne.
Qed.

Definition world0 : @worker_state nat nat _ _ :=
  task_reserved id (task_accepted id (λ _, "add"%string) (task_reserved id boot_state 7%nat) 7%nat) 8%nat.
(** Task 7 runs, 8 waits, 9 has succeeded, and 10 is somewhere else. *)
Definition panel0 : @panel nat (gmap nat string) := Panel world0 ∅ {[0%nat := {[7%nat := STARTED; 9%nat := SUCCESS]}]} 0.

Abbreviation revoke0 := (revoke Nat.le id (λ _, late_task) (λ _, plain_message) (λ _, 0%nat) false (λ _, always_ok) Request.clock (λ _, Ok 15)).
Abbreviation execute0 := (req_execute Nat.le id (λ _, late_task) (λ _, plain_message) false (λ _, always_ok) Request.clock).

Example revoked_states :
  let b := default ∅ (backends (revoke0 [7; 8; 9; 10; 8]%nat false None panel0).1 !! 0%nat) in
  status b <$> [7; 8; 9; 10]%nat = [STARTED; REVOKED; SUCCESS; REVOKED].
Proof. vm_compute. reflexivity. Qed.

Example query0 : query_task id [7; 8; 9]%nat world0 = [(7%nat, "active"); (8%nat, "reserved")]%string.
Proof. vm_compute. reflexivity. Qed.

Lemma room0 : room Nat.le (remove_dups [7; 8; 9; 10; 8]%nat) panel0.
Proof.
  split; [|right; vm_compute; done]. split; simpl; [constructor|set_solver|set_solver|constructor].
Qed.


Lemma revoke_keeps_results_witness :
  ∃ b', backends (revoke0 [7; 8; 9; 10; 8]%nat false None panel0).1 !! 0%nat = Some b' ∧
    ∀ id_, (status ({[7%nat := STARTED; 9%nat := SUCCESS]} : gmap nat string) id_ ∈ READY_STATES ∨ id_ ∉ [7; 8; 9; 10; 8]%nat ∨
      ∃ r, dict_get (requests_by_id id world0 (remove_dups [7; 8; 9; 10; 8]%nat)) id_ = Some r ∧ r ∈ active_requests world0) →
      status b' id_ = status ({[7%nat := STARTED; 9%nat := SUCCESS]} : gmap nat string) id_.
Proof.
  apply (revoke_keeps_results Nat.le id (λ _, late_task) (λ _, plain_message) (λ _, 0%nat) false (λ _, always_ok) Request.clock (λ _, Ok 15) _ None panel0 0 _ room0).
  reflexivity.
Defined.

Lemma revoke_marks_witness :
  let by_id := requests_by_id id world0 (remove_dups [7; 8; 9; 10; 8]%nat) in
  (revoke0 [7; 8; 9; 10; 8]%nat false None panel0).2 = Ok (Flagged (remove_dups [7; 8; 9; 10; 8]%nat)) ∧
  ∀ id_ b, id_ ∈ [7; 8; 9; 10; 8]%nat → active_id by_id (active_requests world0) id_ = false →
    backends panel0 !! backend_for (λ _, 0%nat) by_id id_ = Some b →
    ∃ b', backends (revoke0 [7; 8; 9; 10; 8]%nat false None panel0).1 !! backend_for (λ _, 0%nat) by_id id_ = Some b' ∧
      status b' id_ = if bool_decide (status b id_ ∈ READY_STATES) then status b id_ else REVOKED.
Proof.
  apply (revoke_marks Nat.le id (λ _, late_task) (λ _, plain_message) (λ _, 0%nat) false (λ _, always_ok) Request.clock (λ _, Ok 15) _ None panel0 room0).
  - split; intros; simpl; eauto.
  - intros i. destruct (decide (i = 0%nat)) as [->|Hi]; [left; by eexists|]. right. split; [done|]. congruence.
Defined.

Lemma query_complete_witness :
  match dict_get (query_task id [7; 8; 9]%nat world0) 8%nat with
  | Some st => 8%nat ∈ [7; 8; 9]%nat ∧ ∃ r, r ∈ known world0 ∧ id r = 8%nat ∧ st = state_of_task world0 r ∧ st ≠ "ready"%string
  | None => 8%nat ∈ [7; 8; 9]%nat → ∀ r, r ∈ known world0 → id r ≠ 8%nat
  end.
Proof.
  apply (query_complete id (λ r r' H, H)). split; simpl.
  - repeat constructor; set_solver.
  - intros k r. unfold known. simpl. repeat case_decide; set_solver.
  - set_solver.
  - done.
Defined.

#[local] Instance pool_of_Z : Autoscale.Pool Z := {|
  Autoscale.num_processes p := p;
  Autoscale.pool_grow n p := (p + n, Ok ());
  Autoscale.pool_shrink n p := if n <? p then (p - n, Ok ()) else (p, Raise ValueError);
  Autoscale.maintain_pool p := (p, Ok ());
|}.
#[local] Instance pool_of_Z_laws : Autoscale.PoolLaws Z.
Proof.
  split; simpl; intros.
  - eauto.
  - case_match; simpl; zbool; lia.
  - case_match; by simplify_eq/=.
  - by case_match.
  - eauto.
Qed.

Definition dispatcher0 : Dispatch.dispatcher :=
  Dispatch.Dispatcher "w1" 7 {["worker"%string]} ∅ 24 true false true true [] [] [].
Definition controller0 : @Panel.controller Z :=
  Panel.Controller [] (RateLimit.Limits [] [] 0 [] []) 4 (Consumer.Prefetch.PF 16 4 4 16 None true false) None (Some dispatcher0) [].

Lemma task_events_switch_witness :
  (∀ type, Dispatch.group_from type = "task"%string → Panel.sends (Panel.enable_events controller0).1 type = true ∧ Panel.sends (Panel.disable_events controller0).1 type = false) ∧
  (∀ type, Dispatch.group_from type ≠ "task"%string →
     Panel.sends (Panel.enable_events controller0).1 type = Panel.sends controller0 type ∧ Panel.sends (Panel.disable_events controller0).1 type = Panel.sends controller0 type).
Proof. by apply (Panel.task_events_switch controller0 dispatcher0); [| |set_solver]. Defined.

Lemma prefetch_follows_pool_witness :
  ∃ c1, Panel.pool_grow Z.add Z.sub 3 controller0 = (c1, Ok (Panel.ok "pool will grow")) ∧ Panel.follows c1 ∧
    Autoscale.num_processes (Panel.pool c1) = 4 + 3 ∧
    ∀ p', Autoscale.pool_shrink 3 (Panel.pool c1) = (p', Ok ()) → Autoscale.num_processes p' = Autoscale.num_processes (Panel.pool c1) - 3 →
      ∃ c2, Panel.pool_shrink Z.add Z.sub 3 c1 = (c2, Ok (Panel.ok "pool will shrink")) ∧ Panel.follows c2 ∧
        Consumer.Prefetch.qos_value (Panel.prefetch c2) = 16.
Proof.
  assert (Panel.follows controller0) as H by (unfold Panel.follows; split_and!; done).
  exact (Panel.prefetch_follows_pool Z.add Z.sub 3 controller0 (λ _ _ _ _, eq_refl) (λ _ _ _ _, eq_refl) H eq_refl).
Defined.

Definition node_of (n : string) (ids : list nat) : @Mingle.node nat nat _ _ :=
  Mingle.Node n (match add_items Nat.le (WorkerState.revoked boot_state) ids (λ _, (100, 100)) 0 with
                 | Ok s => with_revoked boot_state s | _ => boot_state end) 5.

Lemma node_healthy n ids m : (length ids + m < 50)%nat → Mingle.healthy Nat.le 120 (Z.of_nat m) (WorkerState.revoked (Mingle.state (node_of n ids))).
Proof.
  intros Hm. unfold node_of. destruct (add_items_below Nat.le (WorkerState.revoked boot_state) ids (λ _, (100, 100)) 0) as (s & -> & Hi & _ & Hh & Hl & Hx & _ & Hy).
  - split; simpl; [constructor|set_solver|set_solver|constructor].
  - right. simpl. unfold ls_len. simpl. lia.
  - simpl. split_and!; [done|right; rewrite Hx; unfold ls_len in *; simpl in *; lia|].
    intros e [He|[j ->]]%Hh; [by apply elem_of_nil in He|]. rewrite Hy. simpl. lia.
Qed.

Lemma mingle_shares_revoked_witness :
  ∃ a' others', Mingle.sync Nat.le (λ c, c + 1) (λ c d, Z.max c d + 1) (node_of "a" [1; 2]%nat) [node_of "b" [2; 3]%nat; node_of "c" [4]%nat]
      (λ _ _, (110, 110)) (λ _, (110, 110)) 120 = (a', others', Ok ()) ∧
    (∀ k, Mingle.ids a' k ↔ Mingle.ids (node_of "a" [1; 2]%nat) k ∨ ∃ b, b ∈ [node_of "b" [2; 3]%nat; node_of "c" [4]%nat] ∧ Mingle.ids b k) ∧
    Forall2 (λ b b', ∀ k, Mingle.ids b' k ↔ Mingle.ids (node_of "a" [1; 2]%nat) k ∨ Mingle.ids b k) [node_of "b" [2; 3]%nat; node_of "c" [4]%nat] others'.
Proof.
  apply (Mingle.mingle_shares_revoked Nat.le).
  - repeat (apply Forall_cons; split; [split; [done|]; split; [apply (node_healthy _ _ 2); simpl; lia|intros j; vm_compute; done]|]). constructor.
  - apply (node_healthy "a" [1; 2]%nat 7). simpl. lia.
  - intros j i. vm_compute. done.
Defined.
End ControlExamples.
