(* ===== verification/Gossip.v ===== *)
(** Workers that gossip (celery/worker/consumer/gossip.py): elections, and the loss of
    nodes.

    An election is started on every worker; each announces itself with its clock, each
    acknowledges every announcement, and each counts the acknowledgements until it can
    say who has won.  Two things come from other packages: [sort_heap] of kombu's clock,
    which finds the first of a heap of requests (a heap is a list here, in the order the
    requests came in), and the tasks an action starts ([call]). *)

From S2P Require Import Prelude PyDict Effect PyStr.
Local Open Scope eff_scope.

Module Gossip.

(** (clock, full hostname, topic, action) *)
Record request := Request { r_clock : Z; r_name : string; r_topic : string; r_action : string }.
#[global] Instance request_eq_dec : EqDecision request.
Proof. solve_decision. Defined.

(** The fields of an event that are there *)
Record event := Event {
  e_id : option string; e_clock : option Z; e_hostname : option string; e_pid : option Z;
  e_topic : option string; e_action : option string; e_cver : option Z }.

(** What a worker tells the others *)
Inductive sent := WorkerElect (id topic action : string) | WorkerElectAck (id : string).

(** A worker other than this one, as the state of the cluster has it *)
Record peer := Peer { p_hostname : string; p_alive : bool }.

Record gossip := GS {
  hostname : string; pid : Z;
  consensus_requests : pydict string (list request); consensus_replies : pydict string (list string);
  peers : pydict string peer;
  dispatched : list sent; called : list (string * string);  (* topics and actions of elections won *)
  lost : list string; clock : Z; updates : list string;
  on_node_lost_handlers : list nat; handler_log : list (nat * string) }.

Abbreviation M := (eff gossip).

Definition set_requests r (g : gossip) : gossip :=
  GS (hostname g) (pid g) r (consensus_replies g) (peers g) (dispatched g) (called g) (lost g) (clock g) (updates g) (on_node_lost_handlers g) (handler_log g).
Definition set_replies r (g : gossip) : gossip :=
  GS (hostname g) (pid g) (consensus_requests g) r (peers g) (dispatched g) (called g) (lost g) (clock g) (updates g) (on_node_lost_handlers g) (handler_log g).
Definition set_peers p (g : gossip) : gossip :=
  GS (hostname g) (pid g) (consensus_requests g) (consensus_replies g) p (dispatched g) (called g) (lost g) (clock g) (updates g) (on_node_lost_handlers g) (handler_log g).
Definition send (x : sent) (g : gossip) : gossip :=
  GS (hostname g) (pid g) (consensus_requests g) (consensus_replies g) (peers g) (dispatched g ++ [x]) (called g) (lost g) (clock g) (updates g) (on_node_lost_handlers g) (handler_log g).
Definition add_call (x : string * string) (g : gossip) : gossip :=
  GS (hostname g) (pid g) (consensus_requests g) (consensus_replies g) (peers g) (dispatched g) (called g ++ [x]) (lost g) (clock g) (updates g) (on_node_lost_handlers g) (handler_log g).
Definition add_lost (x : string) (g : gossip) : gossip :=
  GS (hostname g) (pid g) (consensus_requests g) (consensus_replies g) (peers g) (dispatched g) (called g) (lost g ++ [x]) (clock g) (updates g) (on_node_lost_handlers g) (handler_log g).
Definition set_clock c (g : gossip) : gossip :=
  GS (hostname g) (pid g) (consensus_requests g) (consensus_replies g) (peers g) (dispatched g) (called g) (lost g) c (updates g) (on_node_lost_handlers g) (handler_log g).
Definition add_update x (g : gossip) : gossip :=
  GS (hostname g) (pid g) (consensus_requests g) (consensus_replies g) (peers g) (dispatched g) (called g) (lost g) (clock g) (updates g ++ [x]) (on_node_lost_handlers g) (handler_log g).
Definition add_log x (g : gossip) : gossip :=
  GS (hostname g) (pid g) (consensus_requests g) (consensus_replies g) (peers g) (dispatched g) (called g) (lost g) (clock g) (updates g) (on_node_lost_handlers g) (handler_log g ++ [x]).

Lemma filter_iff_in {A} (P Q : A → Prop) `{!∀ x, Decision (P x), !∀ x, Decision (Q x)} (l : list A) :
  (∀ x, x ∈ l → P x ↔ Q x) → filter P l = filter Q l.
Proof.
  induction l as [|x l IH]; intros HP; [done|]. rewrite !filter_cons. rewrite IH by (intros; apply HP; by apply list_elem_of_further).
  pose proof (HP x (list_elem_of_here _ _)). destruct (decide (P x)), (decide (Q x)); try done; tauto.
Qed.

Lemma dict_del_filter (l : pydict string peer) k : dict_wf l → dict_del l k = filter (λ kv, kv.1 ≠ k) l.
Proof.
  unfold dict_wf. induction l as [|[k1 p1] l IH]; [done|]. simpl. intros [Hn Hw]%NoDup_cons. rewrite filter_cons. simpl.
  destruct (decide (k = k1)) as [->|Hne].
  - rewrite decide_False by (intros H; by apply H). symmetry. apply filter_all, Forall_forall. intros [k2 p2] Hin E. simpl in E. subst.
    apply Hn, list_elem_of_fmap. by exists (k1, p2).
  - rewrite decide_True by congruence. by rewrite IH.
Qed.

Lemma foldl_dict_del ks (l : pydict string peer) : dict_wf l → foldl dict_del l ks = filter (λ kv, kv.1 ∉ ks) l.
Proof.
  revert l; induction ks as [|k ks IH]; intros l Hw; simpl.
  - symmetry. apply filter_all, Forall_true. intros x. apply not_elem_of_nil.
  - rewrite IH by (by apply dict_del_wf). rewrite dict_del_filter by done. rewrite list_filter_filter.
    apply list_filter_iff. intros [k1 p1]. simpl. rewrite not_elem_of_cons. tauto.
Qed.

Section Gossip.
Context (sort_heap : list request → outcome request).
Context (str : Z → string) (forward : Z → Z).
(** handlers of the loss of a node, and the handling of events by the cluster state *)
Context (run_handler : nat → string → outcome ()) (update_state : string → outcome ()).
(** kombu's [DecodeError] and [ContentDisallowed] *)
Context (undecodable : exn → bool).

Definition full_name (host : string) (p : Z) : string := (host ++ "." ++ str p)%string.
Definition full_hostname (g : gossip) : string := full_name (hostname g) (pid g).

Definition election (id topic action : string) : M () :=
  run! emodify (λ g, set_replies (dict_set (consensus_replies g) id []) g) in
  emodify (send (WorkerElect id topic action)).

(** [on_elect]: an event without one of the fields is logged *)
Definition on_elect (e : event) : M () :=
  match e_id e, e_clock e, e_hostname e, e_pid e, e_topic e, e_action e, e_cver e with
  | Some id, Some c, Some host, Some p, Some topic, Some action, Some _ =>
      run! emodify (λ g, set_requests (dict_set (consensus_requests g) id
        (default [] (dict_get (consensus_requests g) id) ++ [Request c (full_name host p) topic action])) g) in
      emodify (send (WorkerElectAck id))
  | _, _, _, _, _, _, _ => eret ()
  end.

Definition alive_workers (g : gossip) : nat := length (filter (λ kv, p_alive kv.2 = true) (peers g)).

(** [election_handlers[topic]]: there is one, for tasks; what it raises is logged *)
Definition run_election (topic action : string) : M () :=
  ewhen (bool_decide (topic = "task"%string)) (emodify (add_call (topic, action))).

Definition on_elect_ack (e : event) : M () :=
  do! id := elift (of_option KeyError (e_id e)) in
  do! found := eget (λ g, dict_get (consensus_replies g) id) in
  match found with
  | None => eret ()  (* not for us *)
  | Some replies =>
      do! host := elift (of_option KeyError (e_hostname e)) in
      run! emodify (λ g, set_replies (dict_set (consensus_replies g) id (replies ++ [host])) g) in
      do! n := eget alive_workers in
      if bool_decide (n <= S (length replies)) then
        do! rs := eget (λ g, default [] (dict_get (consensus_requests g) id)) in
        run! emodify (λ g, set_requests (dict_set (consensus_requests g) id rs) g) in  (* a defaultdict *)
        do! leader := elift (sort_heap rs) in
        do! me := eget full_hostname in
        run! ewhen (bool_decide (r_name leader = me)) (run_election (r_topic leader) (r_action leader)) in
        run! emodify (λ g, set_requests (dict_del (consensus_requests g) id) g) in
        emodify (λ g, set_replies (dict_del (consensus_replies g) id) g)
      else eret ()
  end.

(** ** Nodes *)

(** [_call_handlers] for a lost node *)
Fixpoint call_handlers (hs : list nat) (name : string) : M () :=
  match hs with
  | [] => eret ()
  | h :: hs =>
      run! emodify (add_log (h, name)) in
      run! ecatch (elift (run_handler h name)) (λ x, if is_Exception x then eret () else eraise x) in
      call_handlers hs name
  end.

Definition on_node_lost (name : string) : M () :=
  run! emodify (add_lost name) in
  do! hs := eget on_node_lost_handlers in
  call_handlers hs name.

(** the first loop of [periodic], over the values of the table *)
Fixpoint find_dirty (ps : list peer) (dirty : list string) : M (list string) :=
  match ps with
  | [] => eret dirty
  | p :: ps =>
      if p_alive p then find_dirty ps dirty
      else run! on_node_lost (p_hostname p) in find_dirty ps (dirty ++ [p_hostname p])
  end.

Definition periodic : M () :=
  do! ps := eget (λ g, dict_values (peers g)) in
  do! dirty := find_dirty ps [] in
  emodify (λ g, set_peers (foldl dict_del (peers g) dirty) g).

(** [on_message]: the routing key, the event, and the host name from the headers or the
    body *)
Definition on_message (routing_key : string) (e : event) (host : string) : M () :=
  if bool_decide (head (split_on "." (to_chars routing_key)) = Some (to_chars "task")) then eret ()
  else if bool_decide (routing_key = "worker.elect"%string) then on_elect e
  else if bool_decide (routing_key = "worker.elect.ack"%string) then on_elect_ack e
  else
    do! me := eget hostname in
    if bool_decide (host = me) then emodify (λ g, set_clock (forward (clock g)) g)
    else
      run! emodify (add_update host) in
      ecatch (elift (update_state host)) (λ x, if bool_decide (x = TypeError) || undecodable x then eret () else eraise x).
(** ** Elections *)

(** What the workers are sent about one election *)
Inductive news :=
| Elect (c : Z) (host : string) (p : Z) (topic action : string)
| Ack (host : string).

Definition handle (id : string) (m : news) : M () :=
  match m with
  | Elect c host p topic action => on_elect (Event (Some id) (Some c) (Some host) (Some p) (Some topic) (Some action) (Some 1%Z))
  | Ack host => on_elect_ack (Event (Some id) None (Some host) None None None None)
  end.

(** An exception ends the handling of one message. *)
Definition deliver (id : string) (ms : list news) (g : gossip) : gossip := foldl (λ g m, (handle id m g).1) g ms.

(** Who wins, given the number of live workers, the requests and the number of replies
    so far; [None] while the worker has not called the election *)
Fixpoint decided (n : nat) (rs : list request) (replies : option nat) (ms : list news) : option request :=
  match ms with
  | [] => None
  | Elect c host p topic action :: ms => decided n (rs ++ [Request c (full_name host p) topic action]) replies ms
  | Ack _ :: ms =>
      match replies with
      | None => decided n rs None ms
      | Some k =>
          if bool_decide (n <= S k) then
            match sort_heap rs with Ok l => Some l | _ => decided n rs (Some (S k)) ms end
          else decided n rs (Some (S k)) ms
      end
  end.

Definition my_action (g : gossip) (l : option request) : list (string * string) :=
  match l with
  | Some l => if bool_decide (r_name l = full_hostname g) && bool_decide (r_topic l = "task"%string) then [(r_topic l, r_action l)] else []
  | None => []
  end.

(** What a worker has heard of an election *)
Definition heard (id : string) (g : gossip) : list request * option nat :=
  (default [] (dict_get (consensus_requests g) id), length <$> dict_get (consensus_replies g) id).

Definition tables_wf (g : gossip) : Prop := dict_wf (consensus_requests g) ∧ dict_wf (consensus_replies g).

Lemma handle_elect id g c host p topic action : tables_wf g →
  let g' := (handle id (Elect c host p topic action) g).1 in
  heard id g' = ((heard id g).1 ++ [Request c (full_name host p) topic action], (heard id g).2) ∧
  called g' = called g ∧ peers g' = peers g ∧ full_hostname g' = full_hostname g ∧ tables_wf g'.
Proof.
  intros [H1 H2]. unfold handle, on_elect. simpl. unfold heard. simpl. rewrite dict_get_set_eq. split_and!; try done.
  split; [by apply dict_set_wf|done].
Qed.

Lemma handle_ack id g host g' o : tables_wf g → handle id (Ack host) g = (g', o) →
  peers g' = peers g ∧ full_hostname g' = full_hostname g ∧ tables_wf g' ∧
  match (heard id g).2 with
  | None => heard id g' = heard id g ∧ called g' = called g
  | Some k =>
      match (if bool_decide (alive_workers g <= S k) then sort_heap (heard id g).1 else Diverge) with
      | Ok l => heard id g' = ([], None) ∧ called g' = called g ++ my_action g (Some l)
      | _ => heard id g' = ((heard id g).1, Some (S k)) ∧ called g' = called g
      end
  end.
Proof.
  intros [H1 H2]. unfold handle, on_elect_ack. cbn [e_id e_hostname of_option]. unfold elift at 1, ebind at 1. rewrite ebind_get.
  unfold heard. destruct (dict_get (consensus_replies g) id) as [rs|] eqn:Er; [|intros [= <- <-]; by rewrite Er].
  unfold elift at 1, ebind at 1. rewrite ebind_modify, ebind_get.
  set (g1 := set_replies _ g). change (alive_workers g1) with (alive_workers g). cbn [fmap option_fmap option_map fst snd].
  assert (dict_wf (dict_set (consensus_replies g) id (rs ++ [host]))) as Hw by (by apply dict_set_wf).
  case_bool_decide as Hn.
  2:{ intros [= <- <-]. simpl. rewrite dict_get_set_eq. simpl. by rewrite length_app, Nat.add_1_r. }
  rewrite ebind_get, ebind_modify. change (consensus_requests g1) with (consensus_requests g).
  set (rq := default [] (dict_get (consensus_requests g) id)). set (g2 := set_requests _ g1).
  assert (dict_wf (dict_set (consensus_requests g) id rq)) as Hw2 by (by apply dict_set_wf).
  unfold elift, ebind at 1. destruct (sort_heap rq) as [l|x|] eqn:Es.
  2,3: intros [= <- <-]; simpl; rewrite !dict_get_set_eq; simpl; by rewrite length_app, Nat.add_1_r.
  rewrite ebind_get. change (full_hostname g2) with (full_hostname g).
  assert (∃ g3, (ewhen (bool_decide (r_name l = full_hostname g)) (run_election (r_topic l) (r_action l)) g2) = (g3, Ok ()) ∧
    called g3 = called g ++ my_action g (Some l) ∧ peers g3 = peers g ∧ full_hostname g3 = full_hostname g ∧
    consensus_requests g3 = consensus_requests g2 ∧ consensus_replies g3 = consensus_replies g2) as (g3 & E3 & Hc & Hp & Hf & Hrq & Hrp).
  { unfold my_action, run_election. destruct (bool_decide (r_name l = full_hostname g)); simpl; [|exists g2; by rewrite app_nil_r].
    destruct (bool_decide (r_topic l = "task"%string)); simpl; [by exists (add_call (r_topic l, r_action l) g2)|exists g2; by rewrite app_nil_r]. }
  rewrite (ebind_Ok _ _ _ _ _ E3), ebind_modify. intros [= <- <-]. simpl. unfold tables_wf. simpl. rewrite Hrq, Hrp. simpl.
  rewrite !dict_get_del_eq by done. split_and!; try done; by apply dict_del_wf.
Qed.

Lemma deliver_spec id ms g : tables_wf g →
  called (deliver id ms g) = called g ++ my_action g (decided (alive_workers g) (heard id g).1 (heard id g).2 ms).
Proof.
  unfold deliver. revert g; induction ms as [|m ms IH]; intros g Hg; [by rewrite app_nil_r|]. cbn [foldl].
  assert (∀ g' rs k l, peers g' = peers g → full_hostname g' = full_hostname g → tables_wf g' → heard id g' = (rs, k) →
    called g' = called g ++ l →
    called (foldl (λ g m, (handle id m g).1) g' ms) = (called g ++ l) ++ my_action g (decided (alive_workers g) rs k ms)) as Hnext.
  { intros g' rs k l Hp Hf Hw Hh Hc. rewrite (IH g' Hw), Hh, Hc. unfold alive_workers, my_action. by rewrite Hp, Hf. }
  destruct m as [c host p topic action|host].
  - destruct (handle_elect id g c host p topic action Hg) as (Hh & Hc & Hp & Hf & Hw).
    rewrite (Hnext _ _ _ [] Hp Hf Hw Hh) by (rewrite app_nil_r; exact Hc). by rewrite app_nil_r.
  - destruct (handle id (Ack host) g) as [g' o] eqn:E. destruct (handle_ack id g host g' o Hg E) as (Hp & Hf & Hw & H). cbn [fst decided].
    destruct (heard id g) as [rs [k|]] eqn:Hh; cbn [fst snd] in *.
    2:{ destruct H as [Hh' Hc]. rewrite (Hnext _ _ _ [] Hp Hf Hw Hh') by (rewrite app_nil_r; exact Hc). by rewrite app_nil_r. }
    destruct (bool_decide (alive_workers g <= S k)).
    2:{ destruct H as [Hh' Hc]. rewrite (Hnext _ _ _ [] Hp Hf Hw Hh') by (rewrite app_nil_r; exact Hc). by rewrite app_nil_r. }
    destruct (sort_heap rs) as [l|x|]; destruct H as [Hh' Hc].
    2,3: rewrite (Hnext _ _ _ [] Hp Hf Hw Hh') by (rewrite app_nil_r; exact Hc); by rewrite app_nil_r.
    rewrite (Hnext _ _ _ _ Hp Hf Hw Hh' Hc).
    assert (∀ rs0 ms, decided (alive_workers g) rs0 None ms = None) as ->; [|by rewrite app_nil_r].
    clear. intros rs0 ms; revert rs0; induction ms as [|[] ms IH]; simpl; done.
Qed.

Lemma my_action_name g l : my_action g (Some l) ≠ [] → r_name l = full_hostname g.
Proof. unfold my_action. by case_bool_decide. Qed.

(** C21: When the workers have called an election and are told the same news of it in the
    same order, with the same number of live workers in view, at most one of them, the
    one that all find to have won, carries out the action, and carries it out once. *)
Theorem one_leader id ms gs n rs k :
  NoDup (full_hostname <$> gs) →
  Forall (λ g, tables_wf g ∧ alive_workers g = n ∧ heard id g = (rs, k)) gs →
  ∃ l, l = decided n rs k ms ∧
    (∀ i g, gs !! i = Some g → called (deliver id ms g) = called g ++ my_action g l) ∧
    (∀ i j g h, gs !! i = Some g → gs !! j = Some h → my_action g l ≠ [] → my_action h l ≠ [] → i = j).
Proof.
  intros Hnd Hgs. eexists. split; [done|]. split.
  - intros i g Hi. destruct (Forall_lookup_1 _ _ _ _ Hgs Hi) as (Hw & <- & Hh). rewrite deliver_spec by done. by rewrite Hh.
  - intros i j g h Hi Hj Hg Hh. apply (NoDup_lookup _ i j (full_hostname g) Hnd); rewrite list_lookup_fmap.
    + by rewrite Hi.
    + rewrite Hj. simpl. f_equal. destruct (decided n rs k ms) as [l|]; [|done].
      by rewrite <-(my_action_name g l Hg), <-(my_action_name h l Hh).
Qed.

(** ** Lost nodes *)

Lemma call_handlers_frame hs name g g' o : call_handlers hs name g = (g', o) → peers g' = peers g ∧ lost g' = lost g.
Proof.
  revert g; induction hs as [|h hs IH]; intros g; cbn [call_handlers]; [by intros [= <- <-]|].
  rewrite ebind_modify. unfold ecatch, elift, ebind. destruct (run_handler h name) as [u|x|]; [intros H%IH; exact H| |by intros [= <- <-]].
  destruct (is_Exception x); [intros H%IH; exact H|by intros [= <- <-]].
Qed.
Definition dead_names (ps : list peer) : list string := p_hostname <$> filter (λ p, p_alive p = false) ps.

Lemma find_dirty_spec ps dirty g g' d : find_dirty ps dirty g = (g', Ok d) →
  peers g' = peers g ∧ lost g' = lost g ++ dead_names ps ∧ d = dirty ++ dead_names ps.
Proof.
  revert dirty g; induction ps as [|p ps IH]; intros dirty g; cbn [find_dirty].
  { intros [= <- <-]. unfold dead_names. simpl. by rewrite !app_nil_r. }
  unfold dead_names. rewrite filter_cons. destruct (p_alive p) eqn:Ea; simpl.
  - intros H%IH. exact H.
  - unfold on_node_lost, ebind at 1. rewrite ebind_modify, ebind_get.
    destruct (call_handlers _ _ _) as [g1 [u|x|]] eqn:E; [|done|done]. apply call_handlers_frame in E as [Hp Hl].
    intros (H1 & H2 & H3)%IH. rewrite H1, H2, H3, Hp, Hl. simpl. by rewrite <-!app_assoc.
Qed.

Lemma call_handlers_ok hs name g : (∀ h n x, run_handler h n = Raise x → is_Exception x = true) → (∀ h n, run_handler h n ≠ Diverge) →
  ∃ g', call_handlers hs name g = (g', Ok ()).
Proof.
  intros Hx Hd. revert g; induction hs as [|h hs IH]; intros g; cbn [call_handlers]; [by eexists|].
  rewrite ebind_modify. unfold ecatch, elift, ebind. destruct (run_handler h name) as [u|x|] eqn:E; [apply IH| |by apply Hd in E].
  rewrite (Hx _ _ _ E). apply IH.
Qed.

Lemma find_dirty_ok ps dirty g : (∀ h n x, run_handler h n = Raise x → is_Exception x = true) → (∀ h n, run_handler h n ≠ Diverge) →
  ∃ g' d, find_dirty ps dirty g = (g', Ok d).
Proof.
  intros Hx Hd. revert dirty g; induction ps as [|p ps IH]; intros dirty g; cbn [find_dirty]; [by do 2 eexists|].
  destruct (p_alive p); [apply IH|]. unfold on_node_lost, ebind at 1. rewrite ebind_modify, ebind_get.
  destruct (call_handlers_ok (on_node_lost_handlers (add_lost (p_hostname p) g)) (p_hostname p) (add_lost (p_hostname p) g) Hx Hd) as [g1 ->]. apply IH.
Qed.

(** The periodic check forgets exactly the workers whose heartbeats have stopped, and
    reports each of them once, whatever handlers raise. *)
Theorem lost_nodes_forgotten g :
  (∀ h n x, run_handler h n = Raise x → is_Exception x = true) → (∀ h n, run_handler h n ≠ Diverge) →
  dict_wf (peers g) → (∀ k p, (k, p) ∈ peers g → p_hostname p = k) →
  ∃ g', periodic g = (g', Ok ()) ∧
    peers g' = filter (λ kv, p_alive kv.2 = true) (peers g) ∧
    lost g' = lost g ++ (filter (λ kv, p_alive kv.2 = false) (peers g)).*1.
Proof.
  intros Hx Hd Hwf Hk. unfold periodic. rewrite ebind_get.
  destruct (find_dirty_ok (dict_values (peers g)) [] g Hx Hd) as (g1 & d & E). rewrite (ebind_Ok _ _ _ _ _ E).
  apply find_dirty_spec in E as (Hp & Hl & ->). eexists. split; [done|]. simpl. rewrite Hp, Hl.
  assert (dead_names (dict_values (peers g)) = (filter (λ kv, p_alive kv.2 = false) (peers g)).*1) as ->.
  { clear -Hk. unfold dead_names, dict_values. revert Hk. induction (peers g) as [|[k p] l IH]; intros Hk; [done|]. cbn [fmap list_fmap]. rewrite !filter_cons. simpl.
    destruct (p_alive p); simpl; [apply IH; intros; apply Hk; by apply list_elem_of_further|].
    rewrite (Hk k p) by apply list_elem_of_here. f_equal. apply IH. intros; apply Hk; by apply list_elem_of_further. }
  split; [|done]. rewrite foldl_dict_del by done. apply filter_iff_in. intros [k p] Hin. simpl. rewrite list_elem_of_fmap. split.
  - intros Hn. destruct (p_alive p) eqn:Ea; [done|]. exfalso. apply Hn. exists (k, p). split; [done|]. by apply list_elem_of_filter.
  - intros Ha ([k' p'] & Hk' & [Hd' Hin']%list_elem_of_filter). simpl in *. subst k'.
    pose proof (dict_elem_get _ _ _ Hwf Hin). pose proof (dict_elem_get _ _ _ Hwf Hin'). congruence.
Qed.
End Gossip.
End Gossip.

(** ** Examples *)
Module GossipExamples.
Import Gossip.
Local Open Scope Z_scope.

(** The request with the lowest clock; ties go to the lower name. *)
Definition before (r s : request) : bool :=
  (r_clock r <? r_clock s) || ((r_clock r =? r_clock s) && String.ltb (r_name r) (r_name s)).
Definition first_of (l : list request) : outcome request :=
  match l with [] => Raise IndexError | r :: l => Ok (foldl (λ m r, if before r m then r else m) r l) end.
Definition str0 (p : Z) : string := of_chars (py_str_nat p).

Definition worker (h : string) (others : list string) : gossip :=
  GS h 1 [] [] ((λ o, (o, Peer o true)) <$> others) [] [] [] 0 [] [7%nat] [].
Definition wa : gossip := worker "a" ["b"; "c"].
Definition wb : gossip := worker "b" ["a"; "c"].
Definition wc : gossip := worker "c" ["a"; "b"].
Definition calls_election (g : gossip) : gossip := (election "e" "task" "cleanup" g).1.

Definition elects : list news := [Elect 10 "a" 1 "task" "cleanup"; Elect 11 "c" 1 "task" "cleanup"; Elect 5 "b" 1 "task" "cleanup"].
Definition acks : list news := [Ack "a"; Ack "b"; Ack "c"].

(** Everybody hears of everybody before the first acknowledgement: [b] wins. *)
Example fair_election :
  called <$> (deliver first_of str0 "e" (elects ++ acks ++ acks ++ acks) <$> (calls_election <$> [wa; wb; wc])) =
  [[]; [("task", "cleanup")]; []]%string.
Proof. vm_compute. reflexivity. Qed.

Lemma one_leader_witness :
  ∃ l, l = decided first_of str0 2 [] (Some 0%nat) (elects ++ acks) ∧
    (∀ i g, (calls_election <$> [wa; wb; wc]) !! i = Some g → called (deliver first_of str0 "e" (elects ++ acks) g) = called g ++ my_action str0 g l) ∧
    (∀ i j g h, (calls_election <$> [wa; wb; wc]) !! i = Some g → (calls_election <$> [wa; wb; wc]) !! j = Some h →
       my_action str0 g l ≠ [] → my_action str0 h l ≠ [] → i = j).
Proof.
  apply (one_leader first_of str0).
  - vm_compute. repeat constructor; set_solver.
  - repeat (apply Forall_cons; split; [split; [split; vm_compute; repeat constructor; set_solver|by vm_compute]|]). constructor.
Defined.

(** Acknowledgements are counted, not the workers that sent them.  The command reaches
    [b] late: by then [a] and [c] have been acknowledged twice and agree on [a]; [b], whose
    clock is behind, announces itself, is acknowledged twice, and finds that it has won.
    All workers receive the same messages in the same order. *)
Definition early_news : list news := [Elect 10 "a" 1 "task" "cleanup"; Elect 11 "c" 1 "task" "cleanup"; Ack "a"; Ack "a"].
Definition late_news : list news := [Elect 5 "b" 1 "task" "cleanup"; Ack "c"; Ack "a"].

Lemma two_leaders :
  called (deliver first_of str0 "e" late_news (deliver first_of str0 "e" early_news (calls_election wa))) = [("task", "cleanup")]%string ∧
  called (deliver first_of str0 "e" late_news (calls_election (deliver first_of str0 "e" early_news wb))) = [("task", "cleanup")]%string.
Proof. split; vm_compute; reflexivity. Qed.

Definition wd : gossip := set_peers [("a", Peer "a" true); ("b", Peer "b" false); ("c", Peer "c" false)]%string wa.

Lemma lost_nodes_forgotten_witness :
  ∃ g', periodic (λ _ _, Raise ValueError) wd = (g', Ok ()) ∧
    peers g' = filter (λ kv, p_alive kv.2 = true) (peers wd) ∧
    lost g' = lost wd ++ (filter (λ kv, p_alive kv.2 = false) (peers wd)).*1.
Proof.
  apply (lost_nodes_forgotten (λ _ _, Raise ValueError)).
  - by intros h n x [= <-].
  - done.
  - vm_compute. repeat constructor; set_solver.
  - intros k p. simpl. rewrite !elem_of_cons, elem_of_nil. naive_solver.
Defined.
End GossipExamples.
