(* ===== verification/AppRegistry.v ===== *)
(** Tasks of an application (celery/app/base.py, celery/app/registry.py,
    celery/app/__init__.py, celery/_state.py, celery/local.py, celery/utils/imports.py):
    decorators, proxies that become tasks later, shared tasks, finalization.

    Callables, tasks, proxies and applications are objects and have addresses: two
    callables with one name are not the same.  The class of a task and its binding read
    the configuration and run code of the user, so both may raise; so may a warning.
    Sets are iterated in an order that is not known: [order_finalizers], [order_apps]. *)

From S2P Require Import Prelude.
From S2P Require Import PyDict.
From S2P Require Import Effect.
Local Open Scope eff_scope.

Module AppRegistry.

(** ** Names *)

Record pymodule := PyModule { m_name : string; m_file : option string }.

Definition truthy (s : option string) : bool :=
  match s with None | Some EmptyString => false | Some _ => true end.

Section Names.
Context (sys_modules : string → option pymodule) (MP_MAIN_FILE : option string).

Definition main_module : string := "__main__".

(** The name of a module, [__main__] if it is the script that was started *)
Definition module_part (module_name : string) : outcome string :=
  match sys_modules module_name with
  | None => Ok module_name
  | Some m =>
      if truthy MP_MAIN_FILE then
        let! file := of_option AttributeError (m_file m) in
        Ok (if bool_decide (Some file = MP_MAIN_FILE) then main_module else m_name m)
      else Ok (m_name m)
  end.

Definition gen_task_name (main : option string) (name : string) (module_name : option string) : outcome string :=
  let! module_name := module_part (if truthy module_name then default main_module module_name else main_module) in
  if bool_decide (module_name = main_module) && truthy main
  then Ok (default ""%string main ++ "." ++ name)%string
  else Ok (String.concat "." (filter (λ p, p ≠ ""%string) [module_name; name])).

(** A task of the script that was started has the name it has when the module is imported.
    With the name of the module as the main name of the application, the name of a task is the
    same in the process that runs the module as a script and in one that imports it. *)
Theorem script_task_name md name file :
  md ≠ ""%string → name ≠ ""%string → sys_modules md = Some (PyModule md (Some file)) → MP_MAIN_FILE ≠ Some file →
  (∀ m, sys_modules main_module = Some m → m_name m = main_module ∧ (truthy MP_MAIN_FILE = true → m_file m ≠ None)) →
  gen_task_name (Some md) name (Some main_module) = gen_task_name (Some md) name (Some md) ∧
  gen_task_name (Some md) name (Some md) = Ok (md ++ "." ++ name)%string.
Proof.
  intros Hmod Hname Hsys Hmp Hmain.
  assert (truthy (Some md) = true) as Ht by by destruct md.
  assert (module_part main_module = Ok main_module) as E1.
  { unfold module_part. destruct (sys_modules main_module) as [m|] eqn:Em; [|done]. destruct (Hmain m eq_refl) as [Hn Hfile].
    destruct (truthy MP_MAIN_FILE); [|by rewrite Hn]. destruct (m_file m); [|by destruct Hfile]. simpl. rewrite Hn. by case_bool_decide. }
  assert (module_part md = Ok md) as E2.
  { unfold module_part. rewrite Hsys. simpl. destruct (truthy MP_MAIN_FILE); [|done]. by rewrite bool_decide_eq_false_2 by congruence. }
  unfold gen_task_name. rewrite Ht. simpl. rewrite E1, E2. simpl.
  assert (String.concat "." (filter (λ p : string, p ≠ "") [md; name]) = (md ++ "." ++ name)%string) as Hc.
  { rewrite !filter_cons, filter_nil, !decide_True by done. done. }
  rewrite Hc. by case_bool_decide.
Qed.
End Names.

(** ** Objects *)

Record pyfun := Fun { fun_id : nat; fun_name : string; fun_module : option string }.
#[global] Instance pyfun_eq_dec : EqDecision pyfun.
Proof. solve_decision. Defined.

Section Registry.
Context {O : Type}.  (* options of a decorator that are attributes of the task *)

Record opts := Opts { o_name : option string; o_attrs : O }.

(** A task: the name, the callable that was decorated (none for tasks written as classes),
    the name and module of the class, and the application it is bound to *)
Record task := Task {
  t_name : option string; t_fun : option pyfun; t_attrs : option O;
  t_cls : string; t_module : option string; t_app : option nat; t_bound : bool }.

Record app := App {
  main : option string; autofinalize : bool; finalized : bool;
  pending : list nat; tasks : pydict string nat; duplicate_task_names_warned : list string }.

Record proxy := Proxy { p_app : nat; p_fun : pyfun; p_opts : opts; p_thing : option nat }.

(** A callback of [connect_on_app_finalize]: it makes a task out of a callable.  The ones of
    decorators have one callable, the built-in ones a new callable for each application. *)
Record finalizer := Finalizer { fz_id : nat; fz_fun : nat → pyfun; fz_opts : opts }.

Inductive event :=
| Creating (a : nat) (f : pyfun)     (* the class of a task is made *)
| Bound (a t : nat)
| Autoretry (t : nat)
| Warned (a : nat) (name : string)   (* [DuplicateTaskNameWarning] *)
| AfterFinalize (a : nat).           (* the signal [on_after_finalize] *)

#[global] Instance event_eq_dec : EqDecision event.
Proof. solve_decision. Defined.

Record universe := Universe {
  apps : list app; active : list nat; objs : list task; proxies : list proxy;
  on_app_finalizers : list finalizer; default_app : option nat; current_app : option nat;
  log : list event }.

Abbreviation M := (eff universe).

Definition upd_app (f : app → app) (a : nat) (u : universe) : universe :=
  Universe (alter f a (apps u)) (active u) (objs u) (proxies u) (on_app_finalizers u) (default_app u) (current_app u) (log u).
Definition upd_task (f : task → task) (t : nat) (u : universe) : universe :=
  Universe (apps u) (active u) (alter f t (objs u)) (proxies u) (on_app_finalizers u) (default_app u) (current_app u) (log u).
Definition upd_proxy (f : proxy → proxy) (p : nat) (u : universe) : universe :=
  Universe (apps u) (active u) (objs u) (alter f p (proxies u)) (on_app_finalizers u) (default_app u) (current_app u) (log u).
Definition add_app (x : app) (u : universe) : universe :=
  Universe (apps u ++ [x]) (active u) (objs u) (proxies u) (on_app_finalizers u) (default_app u) (current_app u) (log u).
Definition add_task (x : task) (u : universe) : universe :=
  Universe (apps u) (active u) (objs u ++ [x]) (proxies u) (on_app_finalizers u) (default_app u) (current_app u) (log u).
Definition add_proxy (x : proxy) (u : universe) : universe :=
  Universe (apps u) (active u) (objs u) (proxies u ++ [x]) (on_app_finalizers u) (default_app u) (current_app u) (log u).
Definition set_active (l : list nat) (u : universe) : universe :=
  Universe (apps u) l (objs u) (proxies u) (on_app_finalizers u) (default_app u) (current_app u) (log u).
Definition set_finalizers l (u : universe) : universe :=
  Universe (apps u) (active u) (objs u) (proxies u) l (default_app u) (current_app u) (log u).
Definition set_default_app d (u : universe) : universe :=
  Universe (apps u) (active u) (objs u) (proxies u) (on_app_finalizers u) d (current_app u) (log u).
Definition set_current_app c (u : universe) : universe :=
  Universe (apps u) (active u) (objs u) (proxies u) (on_app_finalizers u) (default_app u) c (log u).
Definition add_log e (u : universe) : universe :=
  Universe (apps u) (active u) (objs u) (proxies u) (on_app_finalizers u) (default_app u) (current_app u) (log u ++ [e]).

Definition set_finalized (x : app) : app :=
  App (main x) (autofinalize x) true (pending x) (tasks x) (duplicate_task_names_warned x).
Definition set_pending (l : list nat) (x : app) : app :=
  App (main x) (autofinalize x) (finalized x) l (tasks x) (duplicate_task_names_warned x).
Definition set_tasks (d : pydict string nat) (x : app) : app :=
  App (main x) (autofinalize x) (finalized x) (pending x) d (duplicate_task_names_warned x).
Definition warned (name : string) (x : app) : app :=
  App (main x) (autofinalize x) (finalized x) (pending x) (tasks x) (name :: duplicate_task_names_warned x).
Definition bound_to (a : nat) (t : task) : task :=
  Task (t_name t) (t_fun t) (t_attrs t) (t_cls t) (t_module t) (Some a) true.
Definition set_app (a : nat) (t : task) : task :=
  Task (t_name t) (t_fun t) (t_attrs t) (t_cls t) (t_module t) (Some a) (t_bound t).
Definition named (n : string) (t : task) : task :=
  Task (Some n) (t_fun t) (t_attrs t) (t_cls t) (t_module t) (t_app t) (t_bound t).
Definition set_thing (t : nat) (p : proxy) : proxy := Proxy (p_app p) (p_fun p) (p_opts p) (Some t).

Definition get_app (a : nat) : M app := λ u, (u, of_option OtherExc (apps u !! a)).
Definition get_task (t : nat) : M task := λ u, (u, of_option OtherExc (objs u !! t)).
Definition get_proxy (p : nat) : M proxy := λ u, (u, of_option OtherExc (proxies u !! p)).

(** ** Operations *)

Context (sys_modules : string → option pymodule) (MP_MAIN_FILE : option string).
Context (fault : list event → event → option exn).
Context (order_finalizers : list finalizer → list finalizer) (order_apps : list nat → list nat).

(** Something that is logged and may raise *)
Definition call (e : event) : M () := λ u,
  (add_log e u, match fault (log u) e with Some x => Raise x | None => Ok () end).

(** [Task.bind] *)
Definition bind (a t : nat) : M () :=
  run! emodify (upd_task (bound_to a) t) in call (Bound a t).

Definition warn_duplicate_task_name (a : nat) (name : string) : M () :=
  do! x := get_app a in
  if bool_decide (name ∈ duplicate_task_names_warned x) then eret () else
  run! emodify (upd_app (warned name) a) in
  call (Warned a name).

Definition warn_if_duplicate_task_name (a t : nat) (f : pyfun) (name : string) : M () :=
  do! existing := get_task t in
  match t_fun existing with
  | None => eret ()
  | Some g => if bool_decide (fun_id g = fun_id f) then eret () else warn_duplicate_task_name a name
  end.

(** [name or self.gen_task_name(fun.__name__, fun.__module__)] *)
Definition task_name (main : option string) (f : pyfun) (o : opts) : outcome string :=
  if truthy (o_name o) then Ok (default ""%string (o_name o))
  else gen_task_name sys_modules MP_MAIN_FILE main (fun_name f) (fun_module f).

(** The class, its instance, and the entry in the registry *)
Definition create_task (a : nat) (name : string) (f : pyfun) (o : opts) : M nat :=
  run! call (Creating a f) in
  do! t := eget (λ u, length (objs u)) in
  run! emodify (add_task (Task (Some name) (Some f) (Some (o_attrs o)) (fun_name f) (fun_module f) (Some a) false)) in
  run! emodify (upd_app (λ x, set_tasks (dict_set (tasks x) name t) x) a) in
  run! bind a t in
  run! call (Autoretry t) in
  eret t.

Definition task_from_fun (a : nat) (f : pyfun) (o : opts) : M nat :=
  do! x := get_app a in
  if negb (finalized x) && negb (autofinalize x) then eraise RuntimeError else
  do! name := elift (task_name (main x) f o) in
  match dict_get (tasks x) name with
  | None => create_task a name f o
  | Some t =>
      run! warn_if_duplicate_task_name a t f name in
      eret t
  end.

(** *** Proxies (celery/local.py) *)

(** [PromiseProxy._get_current_object] *)
Definition evaluate (p : nat) : M nat :=
  do! x := get_proxy p in
  match p_thing x with
  | Some t => eret t
  | None =>
      do! t := task_from_fun (p_app x) (p_fun x) (p_opts x) in
      run! emodify (upd_proxy (set_thing t) p) in
      eret t
  end.

Definition maybe_evaluate (p : nat) : M () :=
  ecatch (run! evaluate p in eret ()) (λ e, if bool_decide (e = AttributeError) then eret () else eraise e).

(** *** Decorators *)

Definition fresh_id (u : universe) : nat := S (list_max (fz_id <$> on_app_finalizers u)).

Definition connect_on_app_finalize (c : finalizer) : M () :=
  emodify (λ u, if bool_decide (fz_id c ∈ fz_id <$> on_app_finalizers u) then u
                else set_finalizers (on_app_finalizers u ++ [c]) u).

(** A closure is a new callback *)
Definition connect_closure (f : pyfun) (o : opts) : M () :=
  do! k := eget fresh_id in connect_on_app_finalize (Finalizer k (λ _, f) o).

Inductive handle := Direct (t : nat) | Lazy (p : nat).

(** [Celery.task] *)
Definition task_decorator (a : nat) (f : pyfun) (o : opts) (shared lazy : bool) : M handle :=
  run! ewhen shared (connect_closure f o) in
  do! x := get_app a in
  if negb lazy || finalized x then
    do! t := task_from_fun a f o in eret (Direct t)
  else
    do! p := eget (λ u, length (proxies u)) in
    run! emodify (add_proxy (Proxy a f o None)) in
    run! emodify (upd_app (λ x, set_pending (pending x ++ [p]) x) a) in
    eret (Lazy p).

(** *** Finalization *)

Definition run_finalizer (a : nat) (c : finalizer) : M () :=
  run! task_from_fun a (fz_fun c a) (fz_opts c) in eret ().

Definition announce_app_finalized (a : nat) : M () :=
  do! callbacks := eget (λ u, order_finalizers (on_app_finalizers u)) in
  eiter (run_finalizer a) callbacks.

(** [while pending: maybe_evaluate(pending.popleft())] *)
Fixpoint evaluate_pending (fuel : nat) (a : nat) : M () :=
  do! x := get_app a in
  match pending x with
  | [] => eret ()
  | p :: rest =>
      match fuel with
      | 0 => elift Diverge
      | S fuel =>
          run! emodify (upd_app (set_pending rest) a) in
          run! maybe_evaluate p in
          evaluate_pending fuel a
      end
  end.

Definition finalize (a : nat) (auto : bool) : M () :=
  do! x := get_app a in
  if finalized x then eret () else
  if auto && negb (autofinalize x) then eraise RuntimeError else
  run! emodify (upd_app set_finalized a) in
  run! announce_app_finalized a in
  run! evaluate_pending (length (pending x)) a in
  do! y := get_app a in
  run! eiter (bind a) (dict_values (tasks y)) in
  emodify (add_log (AfterFinalize a)).  (* what receivers raise is caught by the signal *)

(** [Celery.tasks]; that it is cached makes no difference, as the second [finalize] does nothing *)
Definition app_tasks (a : nat) : M (pydict string nat) :=
  run! finalize a true in
  do! x := get_app a in eret (tasks x).

(** *** The registry *)

Definition registry_get (d : pydict string nat) (name : string) : outcome nat := of_option NotRegistered (dict_get d name).

(** [TaskRegistry.register] *)
Definition registry_register (a t : nat) : M () :=
  do! x := get_task t in
  do! name := elift (of_option InvalidTaskError (t_name x)) in
  run! call (Autoretry t) in
  emodify (upd_app (λ x, set_tasks (dict_set (tasks x) name t) x) a).

Definition unregister (a : nat) (name : string) : M () :=
  do! x := get_app a in
  if dict_in (tasks x) name then emodify (upd_app (λ x, set_tasks (dict_del (tasks x) name) x) a)
  else eraise NotRegistered.

(** [Celery.register_task] *)
Definition register_task (a t : nat) : M () :=
  do! x := get_task t in
  do! y := get_app a in
  do! name := (if truthy (t_name x) then eret (default ""%string (t_name x))
               else do! n := elift (gen_task_name sys_modules MP_MAIN_FILE (main y) (t_cls x) (t_module x)) in
                    run! emodify (upd_task (named n) t) in eret n) in
  do! d := app_tasks a in
  run! (match dict_get d name with
        | Some t' => if bool_decide (t' = t) then eret () else warn_duplicate_task_name a name
        | None => eret ()
        end) in
  run! call (Autoretry t) in
  run! emodify (upd_app (λ x, set_tasks (dict_set (tasks x) name t) x) a) in
  run! emodify (upd_task (set_app a) t) in
  bind a t.

(** *** Applications *)

Definition new_app (main : option string) (auto set_as_current : bool) (d : pydict string nat) : M nat :=
  do! a := eget (λ u, length (apps u)) in
  run! emodify (add_app (App main auto false [] d [])) in
  run! ewhen set_as_current (emodify (set_current_app (Some a))) in
  run! emodify (λ u, set_active (active u ++ [a]) u) in
  eret a.

Definition close (a : nat) : M () := emodify (λ u, set_active (filter (λ b, b ≠ a) (active u)) u).

Definition get_current_app : M nat :=
  do! d := eget default_app in
  do! d := (match d with
            | Some a => eret a
            | None => do! a := new_app (Some "default"%string) true false [] in
                      run! emodify (set_default_app (Some a)) in eret a
            end) in
  do! c := eget current_app in
  eret (default d c).

(** [shared_task]: the finalized applications take the task now *)
Definition take_shared (f : pyfun) (o : opts) (a : nat) : M () :=
  do! x := get_app a in
  if finalized x then run! task_from_fun a f o in eret () else eret ().

Definition shared_task (f : pyfun) (o : opts) : M () :=
  run! connect_closure f o in
  do! l := eget (λ u, order_apps (active u)) in
  eiter (take_shared f o) l.

(** What the proxy of a shared task stands for *)
Definition task_by_cons (f : pyfun) (o : opts) : M nat :=
  do! a := get_current_app in
  do! d := app_tasks a in
  do! x := get_app a in
  do! name := elift (task_name (main x) f o) in
  elift (registry_get d name).

(** *** A program that uses all of it *)

Inductive op :=
| NewApp (main : option string) (auto set_as_current : bool)
| Close (a : nat)
| NewTask (cls : string) (name module : option string)  (* an instance of a class of the user *)
| Decorate (a : nat) (f : pyfun) (o : opts) (shared lazy : bool)
| Share (f : pyfun) (o : opts)
| Connect (c : finalizer)
| Evaluate (p : nat)
| CallShared (f : pyfun) (o : opts)
| Finalize (a : nat) (auto : bool)
| RegisterTask (a t : nat)
| Register (a t : nat)
| Unregister (a : nat) (name : string).

Definition ignore {A} (c : M A) : M () := run! c in eret ().

Definition exec (x : op) : M () :=
  match x with
  | NewApp m auto cur => ignore (new_app m auto cur [])
  | Close a => close a
  | NewTask cls name module => emodify (add_task (Task name None None cls module None false))
  | Decorate a f o shared lazy => ignore (task_decorator a f o shared lazy)
  | Share f o => shared_task f o
  | Connect c => connect_on_app_finalize c
  | Evaluate p => ignore (evaluate p)
  | CallShared f o => ignore (task_by_cons f o)
  | Finalize a auto => finalize a auto
  | RegisterTask a t => register_task a t
  | Register a t => registry_register a t
  | Unregister a name => unregister a name
  end.

(** Operations that replace or remove entries of a registry *)
Definition replaces (x : op) : bool :=
  match x with RegisterTask _ _ | Register _ _ | Unregister _ _ => true | _ => false end.

(** The state after operations, each of which may have raised *)
Fixpoint exec_all (l : list op) (u : universe) : universe :=
  match l with [] => u | x :: l => exec_all l (exec x u).1 end.

(** The state after operations that have all returned *)
Fixpoint exec_ok (l : list op) (u : universe) : option universe :=
  match l with
  | [] => Some u
  | x :: l => match exec x u with (v, Ok _) => exec_ok l v | _ => None end
  end.

Definition empty_universe : universe := Universe [] [] [] [] [] None None [].

(** ** What stays *)

Definition registered (u : universe) (a : nat) (n : string) (t : nat) : Prop :=
  ∃ x, apps u !! a = Some x ∧ dict_get (tasks x) n = Some t.

Definition app_grows (x x' : app) : Prop :=
  main x' = main x ∧ autofinalize x' = autofinalize x ∧ (finalized x = true → finalized x' = true) ∧
  (∀ n t, dict_get (tasks x) n = Some t → dict_get (tasks x') n = Some t).

Definition task_grows (k k' : task) : Prop := t_name k' = t_name k ∧ t_fun k' = t_fun k.

Definition proxy_grows (x x' : proxy) : Prop :=
  p_app x' = p_app x ∧ p_fun x' = p_fun x ∧ p_opts x' = p_opts x ∧ (∀ t, p_thing x = Some t → p_thing x' = Some t).

Definition all_grow {A} (R : A → A → Prop) (l l' : list A) : Prop :=
  ∀ i x, l !! i = Some x → ∃ x', l' !! i = Some x' ∧ R x x'.

Record extends (u u' : universe) : Prop := Extends {
  ext_apps : all_grow app_grows (apps u) (apps u');
  ext_objs : all_grow task_grows (objs u) (objs u');
  ext_proxies : all_grow proxy_grows (proxies u) (proxies u');
  ext_finalizers : ∀ c, c ∈ on_app_finalizers u → c ∈ on_app_finalizers u' }.

#[global] Instance app_grows_preorder : PreOrder app_grows.
Proof. split; [done|]. intros x y z (? & ? & ? & ?) (? & ? & ? & ?). repeat split; auto; congruence. Qed.
#[global] Instance task_grows_preorder : PreOrder task_grows.
Proof. split; [done|]. intros x y z [] []. split; congruence. Qed.
#[global] Instance proxy_grows_preorder : PreOrder proxy_grows.
Proof. split; [done|]. intros x y z (? & ? & ? & ?) (? & ? & ? & ?). repeat split; auto; congruence. Qed.

#[global] Instance all_grow_preorder {A} (R : A → A → Prop) `{!PreOrder R} : PreOrder (all_grow R).
Proof.
  split.
  - intros l i x Hx. by exists x.
  - intros l l' l'' H1 H2 i x Hx. destruct (H1 i x Hx) as (x' & Hx' & Hr). destruct (H2 i x' Hx') as (x'' & Hx'' & Hr').
    exists x''. split; [done|by etrans].
Qed.

Lemma all_grow_app {A} (R : A → A → Prop) `{!PreOrder R} l k : all_grow R l (l ++ k).
Proof. intros i x Hx. exists x. split; [by apply lookup_app_l_Some|done]. Qed.

Lemma all_grow_alter {A} (R : A → A → Prop) `{!PreOrder R} l f i :
  (∀ x, l !! i = Some x → R x (f x)) → all_grow R l (alter f i l).
Proof.
  intros Hf j x Hx. destruct (decide (i = j)) as [->|Hne].
  - exists (f x). rewrite list_lookup_alter_eq, Hx. split; [done|by apply Hf].
  - exists x. by rewrite list_lookup_alter_ne.
Qed.

#[global] Instance extends_preorder : PreOrder extends.
Proof.
  split.
  - intros u. by split.
  - intros u v w [A B C D] [A' B' C' D']. split; [by etrans..|]. auto.
Qed.

Lemma registered_extends u u' a n t : extends u u' → registered u a n t → registered u' a n t.
Proof. intros He (x & Hx & Ht). destruct (ext_apps _ _ He a x Hx) as (x' & Hx' & _ & _ & _ & H). exists x'. auto. Qed.

Lemma keeps_extends u0 (f : universe → universe) : (∀ u, extends u (f u)) → keeps (extends u0) (emodify f).
Proof. intros Hf. apply keeps_modify. intros u Hu. etrans; [done|apply Hf]. Qed.

Lemma upd_app_extends f a u : (∀ x, apps u !! a = Some x → app_grows x (f x)) → extends u (upd_app f a u).
Proof. intros Hf. split; try done. by apply all_grow_alter; [apply _|]. Qed.

Lemma upd_task_extends f t u : (∀ k, task_grows k (f k)) → extends u (upd_task f t u).
Proof. intros Hf. split; try done. by apply all_grow_alter; [apply _|]. Qed.

Lemma add_task_extends k u : extends u (add_task k u).
Proof. split; try done. apply all_grow_app, _. Qed.

Lemma add_app_extends x u : extends u (add_app x u).
Proof. split; try done. apply all_grow_app, _. Qed.

Lemma add_proxy_extends x u : extends u (add_proxy x u).
Proof. split; try done. apply all_grow_app, _. Qed.

Lemma same_parts_extends u u' :
  apps u' = apps u → objs u' = objs u → proxies u' = proxies u → on_app_finalizers u' = on_app_finalizers u → extends u u'.
Proof. intros HA HB HC HD. split; rewrite ?HA, ?HB, ?HC, ?HD; done. Qed.

Lemma keeps_call_extends u0 e : keeps (extends u0) (call e).
Proof. intros u Hu. etrans; [done|]. by apply same_parts_extends. Qed.
Hint Resolve keeps_call_extends : keeps.

Lemma keeps_get_app (I : universe → Prop) a : keeps I (get_app a).
Proof. by intros u. Qed.
Lemma keeps_task_object (I : universe → Prop) t : keeps I (get_task t).
Proof. by intros u. Qed.
Lemma keeps_get_proxy (I : universe → Prop) t : keeps I (get_proxy t).
Proof. by intros u. Qed.
Hint Resolve keeps_get_app keeps_task_object keeps_get_proxy : keeps.

Lemma keeps_bind_extends u0 a t : keeps (extends u0) (bind a t).
Proof. unfold bind. keeps. apply keeps_extends. intros u. by apply upd_task_extends. Qed.
Hint Resolve keeps_bind_extends : keeps.

Lemma keeps_warn_extends u0 a n : keeps (extends u0) (warn_duplicate_task_name a n).
Proof. unfold warn_duplicate_task_name. keeps. apply keeps_extends. intros u. by apply upd_app_extends. Qed.
Hint Resolve keeps_warn_extends : keeps.

Lemma keeps_warn_if_extends u0 a t f n : keeps (extends u0) (warn_if_duplicate_task_name a t f n).
Proof. unfold warn_if_duplicate_task_name. keeps. Qed.
Hint Resolve keeps_warn_if_extends : keeps.

(** *** The registry during [task_from_fun] *)

(** What a task is made of when it is put into the registry of [a] *)
Definition new_entry (a : nat) (name : string) (f : pyfun) (o : opts) (u : universe) : universe :=
  upd_app (λ x, set_tasks (dict_set (tasks x) name (length (objs u))) x) a
    (add_task (Task (Some name) (Some f) (Some (o_attrs o)) (fun_name f) (fun_module f) (Some a) false) u).

Lemma new_entry_extends a x n f o u :
  apps u !! a = Some x → dict_get (tasks x) n = None → extends u (new_entry a n f o u).
Proof.
  intros Hx Hn. etrans; [apply add_task_extends|]. apply upd_app_extends. intros y. simpl. rewrite Hx. intros [= <-].
  repeat split; simpl; [done|]. intros m t Ht. rewrite dict_get_set_ne; congruence.
Qed.

(** [task_from_fun] raises at once, or warns, or makes an entry and continues with the
    task that it has made *)
Lemma task_from_fun_shape a f o u :
  (∃ e, task_from_fun a f o u = (u, Raise e)) ∨ task_from_fun a f o u = (u, Diverge) ∨
  ∃ x n, apps u !! a = Some x ∧ task_name (main x) f o = Ok n ∧
    match dict_get (tasks x) n with
    | Some t => task_from_fun a f o u = (run! warn_if_duplicate_task_name a t f n in eret t) u
    | None =>
        (∃ e, task_from_fun a f o u = (add_log (Creating a f) u, Raise e)) ∨
        let t := length (objs u) in
        task_from_fun a f o u = (run! bind a t in run! call (Autoretry t) in eret t) (new_entry a n f o (add_log (Creating a f) u))
    end.
Proof.
  destruct (apps u !! a) as [x|] eqn:Hx.
  2: { left. exists OtherExc. unfold task_from_fun, ebind, get_app. by rewrite Hx. }
  assert (get_app a u = (u, Ok x)) as Hg by (unfold get_app; by rewrite Hx).
  unfold task_from_fun. rewrite (ebind_Ok _ _ _ _ _ Hg). destruct (_ && _); [by left; eexists|].
  destruct (task_name (main x) f o) as [n|e|] eqn:Hn; [|by left; eexists|by right; left].
  right. right. exists x, n. split_and!; [done..|]. rewrite (ebind_Ok _ _ _ u n) by done.
  destruct (dict_get (tasks x) n) as [t|] eqn:Ht; [done|]. unfold create_task.
  destruct (call (Creating a f) u) as [v r] eqn:Hc. assert (v = add_log (Creating a f) u) as -> by (unfold call in Hc; congruence).
  destruct r as [[]|e|]; [right; by rewrite (ebind_Ok _ _ _ _ _ Hc)|left; exists e; by rewrite (ebind_Raise _ _ _ _ _ Hc)|].
  unfold call in Hc. by destruct (fault _ _).
Qed.

Lemma keeps_task_from_fun_extends u0 a f o : keeps (extends u0) (task_from_fun a f o).
Proof.
  intros u Hu. destruct (task_from_fun_shape a f o u) as [[e ->]|[->|(x & n & Hx & Hn & H)]]; [done..|].
  destruct (dict_get (tasks x) n) as [t|] eqn:Ht.
  - rewrite H. generalize u Hu. apply keeps_bind; [|intros]; eauto 2 with keeps.
  - assert (extends u0 (add_log (Creating a f) u)) as Hu' by (etrans; [done|by apply same_parts_extends]).
    destruct H as [[e ->]| ->]; [done|].
    assert (extends u0 (new_entry a n f o (add_log (Creating a f) u))) as Hn' by (etrans; [done|by eapply new_entry_extends]).
    revert Hn'. generalize (new_entry a n f o (add_log (Creating a f) u)). intros v Hv. revert v Hv. simpl.
    apply keeps_bind; [|intros]; [eauto 2 with keeps|]. apply keeps_bind; [|intros]; eauto 2 with keeps.
Qed.
Hint Resolve keeps_task_from_fun_extends : keeps.

(** It changes neither proxies nor what is pending, finalized or connected *)
Definition status (x : app) : option string * bool * bool * list nat := (main x, autofinalize x, finalized x, pending x).

Record same_status (u u' : universe) : Prop := Same {
  same_apps : status <$> apps u' = status <$> apps u;
  same_proxies : proxies u' = proxies u;
  same_finalizers : on_app_finalizers u' = on_app_finalizers u;
  same_active : active u' = active u }.

#[global] Instance same_status_preorder : PreOrder same_status.
Proof.
  split; [done|]. intros u v w [A B C D] [A' B' C' D']. split; congruence.
Qed.

Lemma status_alter f (a : nat) (l : list app) : (∀ x, status (f x) = status x) → status <$> alter f a l = status <$> l.
Proof.
  intros Hf. apply list_eq. intros i. rewrite !list_lookup_fmap. destruct (decide (a = i)) as [->|].
  - rewrite list_lookup_alter_eq. destruct (l !! i); simpl; [by rewrite Hf|done].
  - by rewrite list_lookup_alter_ne.
Qed.

Lemma upd_app_same u0 f a : (∀ x, status (f x) = status x) → keeps (same_status u0) (emodify (upd_app f a)).
Proof. intros Hf. apply keeps_modify. intros u Hu. etrans; [done|]. split; try done. by apply status_alter. Qed.

Lemma keeps_task_from_fun_same u0 a f o : keeps (same_status u0) (task_from_fun a f o).
Proof.
  unfold task_from_fun, create_task, bind, warn_if_duplicate_task_name, warn_duplicate_task_name. keeps;
    first [by apply upd_app_same|intros u Hu; etrans; [done|by split]].
Qed.

Lemma same_status_app u u' a x : same_status u u' → apps u !! a = Some x → ∃ x', apps u' !! a = Some x' ∧ status x' = status x.
Proof.
  intros H Hx. pose proof (same_apps _ _ H) as E. apply (f_equal (.!! a)) in E. rewrite !list_lookup_fmap, Hx in E.
  destruct (apps u' !! a) as [x'|]; simpl in E; [|done]. exists x'. split; [done|congruence].
Qed.

Lemma keeps_evaluate_extends u0 p : keeps (extends u0) (evaluate p).
Proof.
  intros u Hu. unfold evaluate, ebind at 1, get_proxy. destruct (proxies u !! p) as [x|] eqn:Hx; simpl; [|done].
  destruct (p_thing x) as [t|] eqn:Ht; [done|]. unfold ebind at 1.
  pose proof (keeps_task_from_fun_extends u0 (p_app x) (p_fun x) (p_opts x) u Hu) as Hv.
  pose proof (same_proxies _ _ (keeps_task_from_fun_same u (p_app x) (p_fun x) (p_opts x) u (reflexivity u))) as Hs.
  destruct (task_from_fun _ _ _ u) as [v [t|e|]]; simpl in *; [|done..].
  etrans; [exact Hv|]. split; try done. apply all_grow_alter; [apply _|].
  intros y. rewrite Hs, Hx. intros [= <-]. repeat split. simpl. congruence.
Qed.
Hint Resolve keeps_evaluate_extends : keeps.

Lemma keeps_maybe_evaluate_extends u0 p : keeps (extends u0) (maybe_evaluate p).
Proof. unfold maybe_evaluate. keeps. Qed.
Hint Resolve keeps_maybe_evaluate_extends : keeps.

Lemma keeps_evaluate_pending_extends u0 fuel a : keeps (extends u0) (evaluate_pending fuel a).
Proof.
  revert fuel. fix IH 1. intros [|fuel]; simpl.
  - keeps.
  - apply keeps_bind; [eauto 2 with keeps|intros x]. destruct (pending x) as [|q rest]; [eauto 2 with keeps|].
    apply keeps_bind; [|intros]; [apply keeps_extends; intros; by apply upd_app_extends|].
    apply keeps_bind; [eauto 2 with keeps|intros]. apply IH.
Qed.
Hint Resolve keeps_evaluate_pending_extends : keeps.

Lemma keeps_connect_extends u0 c : keeps (extends u0) (connect_on_app_finalize c).
Proof.
  apply keeps_extends. intros u. case_bool_decide; [done|]. split; try done. simpl. intros d Hd. apply elem_of_app. by left.
Qed.
Hint Resolve keeps_connect_extends : keeps.

Lemma keeps_connect_closure_extends u0 f o : keeps (extends u0) (connect_closure f o).
Proof. unfold connect_closure. keeps. Qed.
Hint Resolve keeps_connect_closure_extends : keeps.

Lemma keeps_finalize_extends u0 a auto : keeps (extends u0) (finalize a auto).
Proof.
  unfold finalize, announce_app_finalized, run_finalizer. keeps.
  - apply keeps_extends. intros. apply upd_app_extends. intros. by repeat split.
  - apply keeps_extends. intros. by apply same_parts_extends.
Qed.
Hint Resolve keeps_finalize_extends : keeps.

Lemma keeps_new_app_extends u0 m auto cur d : keeps (extends u0) (new_app m auto cur d).
Proof.
  unfold new_app. keeps; apply keeps_extends; intros; first [apply add_app_extends|by apply same_parts_extends].
Qed.
Hint Resolve keeps_new_app_extends : keeps.

(** Only explicit registration replaces tasks *)
Lemma keeps_exec_extends u0 x : replaces x = false → keeps (extends u0) (exec x).
Proof.
  destruct x; intros [=]; simpl; unfold ignore, close, task_decorator, shared_task, take_shared, task_by_cons, get_current_app, app_tasks; keeps;
    apply keeps_extends; intros; first [apply add_task_extends|apply add_proxy_extends|by apply same_parts_extends|by apply upd_app_extends].
Qed.

Lemma exec_all_extends l u : forallb (negb ∘ replaces) l = true → extends u (exec_all l u).
Proof.
  revert u; induction l as [|x l IH]; intros u; simpl; [done|]. intros [Hx Hl]%andb_prop.
  etrans; [|by apply IH]. apply keeps_exec_extends; [by apply negb_true_iff|done].
Qed.

(** *** What [task_from_fun] returns, and where entries come from *)

Lemma new_entry_registered a x n f o u :
  apps u !! a = Some x → registered (new_entry a n f o u) a n (length (objs u)).
Proof.
  intros Hx. eexists. split; [simpl; by rewrite list_lookup_alter_eq, Hx|]. apply dict_get_set_eq.
Qed.

Lemma task_from_fun_returns a f o u u' t :
  task_from_fun a f o u = (u', Ok t) →
  ∃ x n, apps u !! a = Some x ∧ task_name (main x) f o = Ok n ∧ registered u' a n t.
Proof.
  intros H. destruct (task_from_fun_shape a f o u) as [[e E]|[E|(x & n & Hx & Hn & E)]]; [congruence..|].
  exists x, n. split_and!; [done..|]. destruct (dict_get (tasks x) n) as [t'|] eqn:Ht.
  - pose proof (keeps_task_from_fun_extends u a f o u (reflexivity u)) as He. rewrite H in He. simpl in He.
    rewrite H in E. symmetry in E. apply ebind_returns in E as (? & ? & _ & [= <- <-]). apply (registered_extends u); [done|by exists x].
  - destruct E as [[e E]|E]; [congruence|]. simpl in E. rewrite H in E. symmetry in E.
    apply ebind_returns in E as (? & v & Hb & E). apply ebind_returns in E as (? & w & Hc & [= <- <-]).
    pose proof (new_entry_registered a x n f o (add_log (Creating a f) u) Hx) as Hr.
    pose proof (keeps_bind_extends _ a (length (objs u)) _ (reflexivity (new_entry a n f o (add_log (Creating a f) u)))) as H1. rewrite Hb in H1. simpl in H1.
    pose proof (keeps_call_extends _ (Autoretry (length (objs u))) _ H1) as H2. rewrite Hc in H2.
    by apply (registered_extends _ _ _ _ _ H2).
Qed.

(** The entries of [a] were there in [u0], or are tasks made of callables that [D] has *)
Definition sourced (D : pyfun → opts → Prop) (u0 : universe) (a : nat) (u : universe) : Prop :=
  ∀ n t, registered u a n t → registered u0 a n t ∨
    ∃ x k f o, apps u0 !! a = Some x ∧ objs u !! t = Some k ∧ t_fun k = Some f ∧ D f o ∧ task_name (main x) f o = Ok n.

Definition sourced_ext D u0 a u : Prop := extends u0 u ∧ sourced D u0 a u.

Lemma sourced_step D u0 a u u' :
  extends u u' → (∀ n t, registered u' a n t → registered u a n t) → sourced_ext D u0 a u → sourced_ext D u0 a u'.
Proof.
  intros He Hn [Hu Hs]. split; [by etrans|]. intros n t Ht%Hn. destruct (Hs n t Ht) as [?|(x & k & f & o & Hx & Hk & Hf & ?)]; [by left|right].
  destruct (ext_objs _ _ He t k Hk) as (k' & Hk' & _ & Hf'). exists x, k', f, o. split_and!; [done|done|congruence|naive_solver..].
Qed.

Lemma keeps_sourced D u0 a f :
  (∀ u, extends u (f u)) → (∀ u, tasks <$> apps (f u) = tasks <$> apps u) → keeps (sourced_ext D u0 a) (emodify f).
Proof.
  intros He Ht. apply keeps_modify. intros u. apply sourced_step; [apply He|]. intros n t (x & Hx & Hn).
  pose proof (f_equal (.!! a) (Ht u)) as E. rewrite !list_lookup_fmap, Hx in E.
  destruct (apps u !! a) as [y|] eqn:Hy; simpl in E; [|done]. exists y. split; [done|congruence].
Qed.

Lemma tasks_alter f (a : nat) (l : list app) : (∀ x, tasks (f x) = tasks x) → tasks <$> alter f a l = tasks <$> l.
Proof.
  intros Hf. apply list_eq. intros i. rewrite !list_lookup_fmap. destruct (decide (a = i)) as [->|].
  - rewrite list_lookup_alter_eq. destruct (l !! i); simpl; [by rewrite Hf|done].
  - by rewrite list_lookup_alter_ne.
Qed.

Lemma keeps_call_sourced D u0 a e : keeps (sourced_ext D u0 a) (call e).
Proof. intros u. apply sourced_step; [by apply same_parts_extends|done]. Qed.
Hint Resolve keeps_call_sourced : keeps.

Lemma keeps_bind_sourced D u0 a b t : keeps (sourced_ext D u0 a) (bind b t).
Proof. unfold bind. keeps. apply keeps_sourced; [|done]. intros u. by apply upd_task_extends. Qed.
Hint Resolve keeps_bind_sourced : keeps.

Lemma new_entry_sourced D u0 a x n f o u :
  apps u !! a = Some x → dict_get (tasks x) n = None → task_name (main x) f o = Ok n → D f o → apps u0 !! a ≠ None →
  sourced_ext D u0 a u → sourced_ext D u0 a (new_entry a n f o u).
Proof.
  intros Hx Hn Ht HD H0 [Hu Hs]. destruct (apps u0 !! a) as [x0|] eqn:Hx0; [|done]. clear H0.
  assert (extends u (new_entry a n f o u)) as He by by eapply new_entry_extends. split; [by etrans|].
  destruct (ext_apps _ _ Hu a x0 Hx0) as (x1 & Hx1 & Hm & _). simplify_eq.
  intros m t (y & Hy & Hm'). simpl in Hy. rewrite list_lookup_alter_eq, Hx in Hy. simplify_eq/=.
  rewrite dict_get_set in Hm'. case_decide as Hd.
  - simplify_eq. right. eexists x0, _, f, o. split_and!; [done|by apply list_lookup_middle|done|done|congruence].
  - destruct (Hs m t) as [?|(x2 & k & g & p & Hx2 & Hk & Hg & ?)]; [by exists x|by left|right].
    destruct (ext_objs _ _ He t k Hk) as (k' & Hk' & _ & Hf'). exists x2, k', g, p. split_and!; [done|done|congruence|naive_solver..].
Qed.

Lemma keeps_warn_if_sourced D u0 a b t f n : keeps (sourced_ext D u0 a) (warn_if_duplicate_task_name b t f n).
Proof.
  unfold warn_if_duplicate_task_name, warn_duplicate_task_name. keeps.
  apply keeps_sourced; intros u; [by apply upd_app_extends|by apply tasks_alter].
Qed.
Hint Resolve keeps_warn_if_sourced : keeps.

Lemma keeps_task_from_fun_sourced D u0 a f o :
  D f o → apps u0 !! a ≠ None → keeps (sourced_ext D u0 a) (task_from_fun a f o).
Proof.
  intros HD H0 u Hu. destruct (task_from_fun_shape a f o u) as [[e ->]|[->|(x & n & Hx & Hn & H)]]; [done..|].
  destruct (dict_get (tasks x) n) as [t|] eqn:Ht.
  - rewrite H. generalize u Hu. apply keeps_bind; [|intros]; eauto 2 with keeps.
  - assert (sourced_ext D u0 a (add_log (Creating a f) u)) as Hu' by by apply (keeps_call_sourced D u0 a (Creating a f) u).
    destruct H as [[e ->]| ->]; [done|].
    assert (sourced_ext D u0 a (new_entry a n f o (add_log (Creating a f) u))) as Hn' by by eapply new_entry_sourced.
    revert Hn'. generalize (new_entry a n f o (add_log (Creating a f) u)). intros v Hv. revert v Hv. simpl.
    apply keeps_bind; [|intros]; [eauto 2 with keeps|]. apply keeps_bind; [|intros]; eauto 2 with keeps.
Qed.

(** *** Proxies and finalizers *)

Lemma evaluate_returns p u u' t x :
  evaluate p u = (u', Ok t) → proxies u !! p = Some x →
  ∃ x', proxies u' !! p = Some x' ∧ p_thing x' = Some t ∧
    (p_thing x = None → ∃ y n, apps u !! p_app x = Some y ∧ task_name (main y) (p_fun x) (p_opts x) = Ok n ∧ registered u' (p_app x) n t).
Proof.
  intros H Hx. unfold evaluate in H. apply ebind_returns in H as (x1 & u1 & Hg & H). unfold get_proxy in Hg. rewrite Hx in Hg. simplify_eq/=.
  destruct (p_thing x1) as [t1|] eqn:Ht; [unfold eret in H; simplify_eq; exists x1; by rewrite Ht|].
  apply ebind_returns in H as (t1 & v & Hv & H). apply ebind_returns in H as (? & w & Hm & H). unfold emodify, eret in Hm, H. simplify_eq.
  destruct (task_from_fun_returns _ _ _ _ _ _ Hv) as (y & n & Hy & Hn & Hr).
  pose proof (same_proxies _ _ (keeps_task_from_fun_same u1 (p_app x1) (p_fun x1) (p_opts x1) u1 (reflexivity u1))) as Hs. rewrite Hv in Hs. simpl in Hs.
  exists (set_thing t x1). split_and!; [simpl; by rewrite list_lookup_alter_eq, Hs, Hx|done|]. intros _. exists y, n. done.
Qed.

(** Nothing raises an [AttributeError], which [maybe_evaluate] would hide *)
Definition no_attribute_errors : Prop :=
  (∀ l e, fault l e ≠ Some AttributeError) ∧ (∀ m f o, task_name m f o ≠ Raise AttributeError).

(** What no call raises, the program does not raise *)
Definition never {A} (e : exn) (c : M A) : Prop := ∀ u, (c u).2 ≠ Raise e.

Lemma never_bind {A B} e (c : M A) (k : A → M B) : never e c → (∀ a, never e (k a)) → never e (ebind c k).
Proof.
  intros Hc Hk u. unfold ebind. specialize (Hc u). destruct (c u) as [v [a|e'|]]; simpl in *; [apply Hk|congruence|done].
Qed.

Lemma task_from_fun_never a f o : no_attribute_errors → never AttributeError (task_from_fun a f o).
Proof.
  intros [Hf Hn]. assert (∀ e, never AttributeError (call e)) as Hc.
  { intros e u. unfold call. simpl. specialize (Hf (log u) e). destruct (fault (log u) e); congruence. }
  assert (∀ a, never AttributeError (get_app a)) as Ha by (intros ? u; simpl; by destruct (apps u !! _)).
  assert (∀ a, never AttributeError (get_task a)) as Hg by (intros ? u; simpl; by destruct (objs u !! _)).
  unfold task_from_fun, create_task, bind, warn_if_duplicate_task_name, warn_duplicate_task_name.
  repeat first [apply never_bind; [|intros ?]|by auto|by intros ?|match goal with |- never _ (if ?b then _ else _) => destruct b | |- never _ (match ?b with _ => _ end) => destruct b end].
  intros u. simpl. apply Hn.
Qed.

Lemma maybe_evaluate_returns p u u' :
  no_attribute_errors → maybe_evaluate p u = (u', Ok ()) → ∃ t, evaluate p u = (u', Ok t).
Proof.
  intros Hno. unfold maybe_evaluate, ecatch, ebind at 1.
  assert (never AttributeError (evaluate p)) as Hev.
  { unfold evaluate. apply never_bind; [intros v; simpl; by destruct (proxies v !! p)|]. intros x. destruct (p_thing x); [by intros ?|].
    apply never_bind; [by apply task_from_fun_never|]. intros t. by apply never_bind. }
  specialize (Hev u). destruct (evaluate p u) as [v [t|e|]]; simpl in *; [intros [= <-]; by exists t| |done].
  rewrite bool_decide_eq_false_2 by congruence. done.
Qed.

(** *** Finalization *)

Lemma run_finalizers_returns a x l u u' :
  apps u !! a = Some x → eiter (run_finalizer a) l u = (u', Ok ()) →
  ∀ c, c ∈ l → ∃ n t, task_name (main x) (fz_fun c a) (fz_opts c) = Ok n ∧ registered u' a n t.
Proof.
  revert u x. induction l as [|d l IH]; intros u x Hx H c Hc; [by apply not_elem_of_nil in Hc|].
  simpl in H. apply ebind_returns in H as ([] & v & Hv & H). unfold run_finalizer in Hv.
  apply ebind_returns in Hv as (t & w & Hw & [= <-]).
  pose proof (keeps_task_from_fun_extends u a (fz_fun d a) (fz_opts d) u (reflexivity u)) as He. rewrite Hw in He. simpl in He.
  destruct (ext_apps _ _ He a x Hx) as (y & Hy & Hm & _). apply elem_of_cons in Hc as [->|Hc].
  - destruct (task_from_fun_returns _ _ _ _ _ _ Hw) as (x' & n & Hx' & Hn & Hr). simplify_eq. exists n, t. split; [done|].
    apply (registered_extends w); [|done]. pose proof (keeps_iter (extends w) (run_finalizer a) l) as K.
    specialize (K (λ c, keeps_bind _ _ _ (keeps_task_from_fun_extends _ _ _ _) (λ _, keeps_ret _ _)) w (reflexivity w)). by rewrite H in K.
  - rewrite <- Hm. by apply (IH w y).
Qed.

Lemma keeps_run_finalizers_same u0 a l : keeps (same_status u0) (eiter (run_finalizer a) l).
Proof. apply keeps_iter. intros c. apply keeps_bind; [apply keeps_task_from_fun_same|intros; apply keeps_ret]. Qed.

(** Evaluating a proxy changes that proxy only *)
Lemma evaluate_others p u :
  status <$> apps (evaluate p u).1 = status <$> apps u ∧ ∀ q, q ≠ p → proxies (evaluate p u).1 !! q = proxies u !! q.
Proof.
  unfold evaluate, ebind, get_proxy. destruct (proxies u !! p) as [x|]; simpl; [|done].
  destruct (p_thing x); [done|].
  pose proof (keeps_task_from_fun_same u (p_app x) (p_fun x) (p_opts x) u (reflexivity u)) as [HA HB _ _].
  destruct (task_from_fun _ _ _ u) as [v [t|e|]]; simpl in *; [|by rewrite HB..].
  split; [done|]. intros q Hq. by rewrite list_lookup_alter_ne, HB.
Qed.

Lemma status_lookup u u' (a : nat) x :
  status <$> apps u' = status <$> apps u → apps u !! a = Some x → ∃ x', apps u' !! a = Some x' ∧ status x' = status x.
Proof.
  intros E Hx. apply (f_equal (.!! a)) in E. rewrite !list_lookup_fmap, Hx in E.
  destruct (apps u' !! a) as [x'|]; simpl in E; [|done]. exists x'. split; [done|congruence].
Qed.

Definition evaluated_to (u : universe) (a p : nat) (n : string) (t : nat) : Prop :=
  (∃ px, proxies u !! p = Some px ∧ p_thing px = Some t) ∧ registered u a n t.

Lemma evaluated_extends u u' a p n t : extends u u' → evaluated_to u a p n t → evaluated_to u' a p n t.
Proof.
  intros He [(px & Hp & Ht) Hr]. split; [|by apply (registered_extends u)].
  destruct (ext_proxies _ _ He p px Hp) as (px' & Hp' & _ & _ & _ & H). exists px'. auto.
Qed.

Lemma evaluate_pending_returns fuel a x u u' :
  no_attribute_errors → apps u !! a = Some x → evaluate_pending fuel a u = (u', Ok ()) →
  (∃ x', apps u' !! a = Some x' ∧ pending x' = [] ∧ finalized x' = finalized x) ∧
  ∀ p px, p ∈ pending x → proxies u !! p = Some px → p_app px = a → p_thing px = None →
    ∃ n t, task_name (main x) (p_fun px) (p_opts px) = Ok n ∧ evaluated_to u' a p n t.
Proof.
  intros Hno. revert x u. induction fuel as [|fuel IH]; intros x u Hx H; simpl in H;
    apply ebind_returns in H as (y & v & Hv & H); unfold get_app in Hv; rewrite Hx in Hv; simpl in Hv; simplify_eq/=;
    destruct (pending y) as [|p rest] eqn:Hp; try (unfold eret in H; simplify_eq; split; [by exists y|by intros ?? ?%not_elem_of_nil]).
  { done. }
  apply ebind_returns in H as ([] & w & [= <-] & H). apply ebind_returns in H as ([] & w & Hw & H).
  apply maybe_evaluate_returns in Hw as [t Ht]; [|done].
  set (v' := upd_app (set_pending rest) a v) in *.
  assert (apps v' !! a = Some (set_pending rest y)) as Hy by (simpl; by rewrite list_lookup_alter_eq, Hx).
  pose proof (evaluate_others p v') as [Hs Hq]. rewrite Ht in Hs, Hq. simpl in Hs, Hq.
  destruct (status_lookup v' w _ _ Hs Hy) as (z & Hz & [= Hm _ Hfin Hpend]).
  destruct (IH z w Hz H) as [(z' & Hz' & Hz1 & Hz2) Hrest]. split; [exists z'; split_and!; congruence|].
  intros q px Hin Hpx Ha Hnone. destruct (decide (q = p)) as [->|Hne].
  - destruct (evaluate_returns p v' w t px Ht Hpx) as (px' & Hpx' & Hpt & Hreg).
    destruct (Hreg Hnone) as (y' & n & Hy' & Hn & Hr). rewrite Ha in Hy'. rewrite Hy in Hy'. simplify_eq.
    exists n, t. split; [done|]. apply (evaluated_extends w).
    + pose proof (keeps_evaluate_pending_extends w fuel (p_app px) w (reflexivity w)) as K. by rewrite H in K.
    + split; [by exists px'|done].
  - apply elem_of_cons in Hin as [?|Hin]; [done|]. rewrite Hm in Hrest. apply (Hrest q px); try done.
    + by rewrite Hpend.
    + by rewrite Hq.
Qed.

(** ** Well-formed states *)

Definition app_wf (u : universe) (a : nat) (x : app) : Prop :=
  (∀ p, p ∈ pending x → ∃ px, proxies u !! p = Some px ∧ p_app px = a) ∧
  (∀ n t, (n, t) ∈ tasks x → t < length (objs u)).

(** Pending proxies are proxies of their application, and registries have tasks *)
Definition wf (u : universe) : Prop := ∀ a x, apps u !! a = Some x → app_wf u a x.

Lemma app_wf_mono u u' a x :
  all_grow proxy_grows (proxies u) (proxies u') → length (objs u) ≤ length (objs u') → app_wf u a x → app_wf u' a x.
Proof.
  intros Hg Hl [Hp Ht]. split.
  - intros p (px & Hpx & Ha)%Hp. destruct (Hg p px Hpx) as (px' & Hpx' & Ha' & _). exists px'. split; [done|congruence].
  - intros n t Hn%Ht. lia.
Qed.

Lemma wf_step u u' :
  apps u' = apps u → all_grow proxy_grows (proxies u) (proxies u') → length (objs u) ≤ length (objs u') → wf u → wf u'.
Proof. intros HA Hg Hl Hu a x Hx. rewrite HA in Hx. eapply app_wf_mono; eauto. Qed.

Lemma wf_upd_app f a u : wf u → (∀ x, apps u !! a = Some x → app_wf u a x → app_wf u a (f x)) → wf (upd_app f a u).
Proof.
  intros Hu Hf b x Hx. simpl in Hx. destruct (decide (a = b)) as [->|Hne].
  - rewrite list_lookup_alter_eq in Hx. destruct (apps u !! b) as [y|] eqn:Hy; simplify_eq/=. exact (Hf y eq_refl (Hu b y Hy)).
  - rewrite list_lookup_alter_ne in Hx by done. exact (Hu b x Hx).
Qed.

Lemma wf_new_entry a n f o u : wf u → wf (new_entry a n f o u).
Proof.
  intros Hu. unfold new_entry. apply wf_upd_app.
  - apply (wf_step u); try done. simpl. rewrite length_app. lia.
  - intros x _ [Hp Ht]. split; [done|]. intros m t. simpl. rewrite length_app. simpl. intros [[_ ->]|Hm]%dict_set_elem; [lia|].
    apply (Ht m) in Hm. simpl in Hm. rewrite length_app in Hm. simpl in Hm. lia.
Qed.

Lemma wf_call e : keeps wf (call e).
Proof. intros u. by apply wf_step. Qed.
Hint Resolve wf_call : keeps.

Lemma wf_upd_task f t u : wf u → wf (upd_task f t u).
Proof. apply wf_step; [done|done|]. simpl. by rewrite length_alter. Qed.

Lemma wf_bind a t : keeps wf (bind a t).
Proof. unfold bind. keeps. apply keeps_modify. intros u. apply wf_upd_task. Qed.
Hint Resolve wf_bind : keeps.

Lemma wf_warn a n : keeps wf (warn_duplicate_task_name a n).
Proof. unfold warn_duplicate_task_name. keeps. apply keeps_modify. intros u Hu. by apply wf_upd_app. Qed.
Hint Resolve wf_warn : keeps.

Lemma wf_warn_if a t f n : keeps wf (warn_if_duplicate_task_name a t f n).
Proof. unfold warn_if_duplicate_task_name. keeps. Qed.
Hint Resolve wf_warn_if : keeps.

Lemma wf_task_from_fun a f o : keeps wf (task_from_fun a f o).
Proof.
  intros u Hu. destruct (task_from_fun_shape a f o u) as [[e ->]|[->|(x & n & Hx & Hn & H)]]; [done..|].
  destruct (dict_get (tasks x) n) as [t|] eqn:Ht.
  - rewrite H. generalize u Hu. apply keeps_bind; [|intros]; eauto 2 with keeps.
  - assert (wf (add_log (Creating a f) u)) as Hu' by by apply (wf_call (Creating a f) u).
    destruct H as [[e ->]| ->]; [done|]. simpl.
    generalize (wf_new_entry a n f o _ Hu'). generalize (new_entry a n f o (add_log (Creating a f) u)).
    apply keeps_bind; [eauto 2 with keeps|intros]. apply keeps_bind; [|intros]; eauto 2 with keeps.
Qed.
Hint Resolve wf_task_from_fun : keeps.

Lemma wf_evaluate p : keeps wf (evaluate p).
Proof.
  unfold evaluate. keeps. apply keeps_modify. intros u Hu b x Hx. destruct (Hu b x Hx) as [Hp Ht]. split; [|done].
  intros q (px & Hpx & Ha)%Hp. simpl. destruct (decide (p = q)) as [->|]; [|exists px; by rewrite list_lookup_alter_ne].
  eexists. rewrite list_lookup_alter_eq, Hpx. by split.
Qed.
Hint Resolve wf_evaluate : keeps.

Lemma wf_evaluate_pending fuel a : keeps wf (evaluate_pending fuel a).
Proof.
  induction fuel as [|fuel IH]; intros u Hu; unfold evaluate_pending; fold evaluate_pending.
  - unfold ebind, get_app. destruct (apps u !! a) as [x|]; [|done]. simpl. by destruct (pending x).
  - unfold ebind at 1, get_app. destruct (apps u !! a) as [x|] eqn:Hx; [|done]. simpl. destruct (pending x) as [|p rest] eqn:Hp; [done|].
    assert (wf (upd_app (set_pending rest) a u)) as Hv.
    { apply wf_upd_app; [done|]. intros y Hy [Hpy Hty]. simplify_eq. split; [|done]. intros q Hq. apply Hpy. rewrite Hp. simpl in Hq. set_solver. }
    rewrite ebind_modify. revert Hv. generalize (upd_app (set_pending rest) a u). apply keeps_bind; [|intros; apply IH].
    unfold maybe_evaluate. keeps.
Qed.
Hint Resolve wf_evaluate_pending : keeps.

Lemma wf_finalize a auto : keeps wf (finalize a auto).
Proof.
  unfold finalize, announce_app_finalized, run_finalizer. keeps; apply keeps_modify; intros u Hu;
    [by apply wf_upd_app|by apply (wf_step u)].
Qed.
Hint Resolve wf_finalize : keeps.

Lemma wf_connect c : keeps wf (connect_on_app_finalize c).
Proof. apply keeps_modify. intros u Hu. case_bool_decide; [done|]. by apply (wf_step u). Qed.
Hint Resolve wf_connect : keeps.

Lemma wf_connect_closure f o : keeps wf (connect_closure f o).
Proof. unfold connect_closure. keeps. Qed.
Hint Resolve wf_connect_closure : keeps.

Lemma wf_add_app m auto u : wf u → wf (add_app (App m auto false [] [] []) u).
Proof.
  intros Hu a x Hx. simpl in Hx. apply lookup_app_Some in Hx as [Hx|[_ Hx]]; [exact (Hu a x Hx)|].
  apply list_lookup_singleton_Some in Hx as [_ <-]. split; [by intros p ?%not_elem_of_nil|by intros n t ?%not_elem_of_nil].
Qed.

Lemma wf_new_app m auto cur : keeps wf (new_app m auto cur []).
Proof.
  unfold new_app. keeps; apply keeps_modify; intros u Hu; first [by apply wf_add_app|by apply (wf_step u)].
Qed.
Hint Resolve wf_new_app : keeps.

Lemma wf_push a f o u :
  wf u → wf (upd_app (λ x, set_pending (pending x ++ [length (proxies u)]) x) a (add_proxy (Proxy a f o None) u)).
Proof.
  intros Hu. apply wf_upd_app; [apply (wf_step u); try done; apply all_grow_app, _|].
  intros x _ [Hp Ht]. split; [|done]. simpl. intros p [Hin|Hin]%elem_of_app; [by apply Hp|].
  apply list_elem_of_singleton in Hin as ->. eexists. split; [by apply list_lookup_middle|done].
Qed.

Lemma wf_task_decorator a f o shared lazy : keeps wf (task_decorator a f o shared lazy).
Proof.
  unfold task_decorator. apply keeps_bind; [keeps|intros _]. apply keeps_bind; [eauto 2 with keeps|intros x].
  destruct (_ || _); [keeps|]. intros u Hu. simpl. by apply wf_push.
Qed.
Hint Resolve wf_task_decorator : keeps.

(** An entry of a task that there is *)
Definition wf_with (t : nat) (u : universe) : Prop := wf u ∧ t < length (objs u).

Lemma keeps_with t {A} (c : M A) : keeps wf c → (∀ u, length (objs u) ≤ length (objs (c u).1)) → keeps (wf_with t) c.
Proof. intros Hc Hl u [Hu Ht]. split; [by apply Hc|]. specialize (Hl u). lia. Qed.

Lemma extends_length u u' : extends u u' → length (objs u) ≤ length (objs u').
Proof.
  intros He. destruct (length (objs u)) as [|n] eqn:Hn; [lia|]. destruct (lookup_lt_is_Some_2 (objs u) n) as [k Hk]; [lia|].
  destruct (ext_objs _ _ He n k Hk) as (k' & Hk' & _). apply lookup_lt_Some in Hk'. lia.
Qed.

Lemma keeps_with_extends t {A} (c : M A) : keeps wf c → (∀ u0, keeps (extends u0) c) → keeps (wf_with t) c.
Proof. intros Hc He. apply keeps_with; [done|]. intros u. apply extends_length, He. done. Qed.

Lemma wf_set_entry a t n : keeps (wf_with t) (emodify (upd_app (λ x, set_tasks (dict_set (tasks x) n t) x) a)).
Proof.
  apply keeps_modify. intros u [Hu Ht]. split; [|done]. apply wf_upd_app; [done|]. intros x _ [Hp Hx]. split; [done|].
  intros m t'. simpl. intros [[_ ->]|Hm]%dict_set_elem; [done|]. by apply (Hx m).
Qed.

Lemma wf_get_task {B} t (k : task → M B) : (∀ x, keeps (wf_with t) (k x)) → keeps wf (ebind (get_task t) k).
Proof.
  intros Hk u Hu. unfold ebind, get_task. destruct (objs u !! t) as [x|] eqn:Hx; [|done]. simpl.
  apply (Hk x u). split; [done|]. by eapply lookup_lt_Some.
Qed.

Lemma wf_register a t : keeps wf (registry_register a t).
Proof.
  unfold registry_register. apply wf_get_task. intros x. keeps; [|apply wf_set_entry]. apply keeps_with_extends; eauto with keeps.
Qed.
Hint Resolve wf_register : keeps.

Lemma wf_upd_task_with t f : keeps (wf_with t) (emodify (upd_task f t)).
Proof. apply keeps_with; [apply keeps_modify; intros u; apply wf_upd_task|]. intros u. simpl. by rewrite length_alter. Qed.

Lemma wf_register_task a t : keeps wf (register_task a t).
Proof.
  unfold register_task, app_tasks. apply wf_get_task. intros x. keeps;
    first [apply wf_set_entry|apply wf_upd_task_with|apply keeps_with_extends; eauto with keeps].
Qed.
Hint Resolve wf_register_task : keeps.

Lemma wf_unregister a n : keeps wf (unregister a n).
Proof.
  unfold unregister. keeps. apply keeps_modify. intros u Hu. apply wf_upd_app; [done|]. intros x _ [Hp Ht]. split; [done|].
  intros m t Hm. apply (Ht m). exact (elem_of_sublist _ _ _ Hm (dict_del_sublist _ _)).
Qed.
Hint Resolve wf_unregister : keeps.

Lemma wf_exec x : keeps wf (exec x).
Proof.
  destruct x; simpl; unfold ignore, close, shared_task, take_shared, task_by_cons, get_current_app, app_tasks; keeps;
    apply keeps_modify; intros u; apply wf_step; try done. simpl. rewrite length_app. lia.
Qed.

Lemma wf_exec_all l u : wf u → wf (exec_all l u).
Proof. revert u; induction l as [|x l IH]; intros u Hu; simpl; [done|]. by apply IH, wf_exec. Qed.

Lemma wf_empty : wf empty_universe.
Proof. by intros a x. Qed.

(** ** Programs that end *)

Definition ends {A} (c : M A) : Prop := ∀ u, (c u).2 ≠ Diverge.

Lemma ends_bind {A B} (c : M A) (k : A → M B) : ends c → (∀ a, ends (k a)) → ends (ebind c k).
Proof. intros Hc Hk u. unfold ebind. specialize (Hc u). destruct (c u) as [v [a|e|]]; simpl in *; [apply Hk|done..]. Qed.

Lemma ends_iter {A} (f : A → M ()) l : (∀ a, ends (f a)) → ends (eiter f l).
Proof. intros Hf. induction l; simpl; [done|by apply ends_bind]. Qed.

Lemma task_name_ends m f o : task_name m f o ≠ Diverge.
Proof.
  unfold task_name, gen_task_name, module_part. destruct (truthy (o_name o)); [done|].
  destruct (sys_modules _) as [[n [file|]]|]; simpl; repeat (case_match; simpl in *; try done).
Qed.

Lemma call_ends e : ends (call e).
Proof. intros u. simpl. by destruct (fault _ _). Qed.

Lemma task_from_fun_ends a f o : ends (task_from_fun a f o).
Proof.
  assert (∀ a, ends (get_app a)) as Ha by (intros ? u; simpl; by destruct (apps u !! _)).
  assert (∀ a, ends (get_task a)) as Hg by (intros ? u; simpl; by destruct (objs u !! _)).
  unfold task_from_fun, create_task, bind, warn_if_duplicate_task_name, warn_duplicate_task_name.
  repeat first [apply ends_bind; [|intros ?]|apply call_ends|by auto|by intros ?
    |match goal with |- ends (if ?b then _ else _) => destruct b | |- ends (match ?b with _ => _ end) => destruct b end].
  intros u. apply task_name_ends.
Qed.

Lemma maybe_evaluate_ends p : ends (maybe_evaluate p).
Proof.
  assert (ends (evaluate p)) as He.
  { unfold evaluate. apply ends_bind; [intros u; simpl; by destruct (proxies u !! p)|]. intros x. destruct (p_thing x); [by intros ?|].
    apply ends_bind; [apply task_from_fun_ends|]. intros t. by apply ends_bind. }
  intros u. unfold maybe_evaluate, ecatch, ebind. specialize (He u). destruct (evaluate p u) as [v [t|e|]]; simpl in *; [done| |done].
  by case_bool_decide.
Qed.

Lemma maybe_evaluate_status p u : status <$> apps (maybe_evaluate p u).1 = status <$> apps u.
Proof.
  destruct (evaluate_others p u) as [<- _]. unfold maybe_evaluate, ecatch, ebind. destruct (evaluate p u) as [v [t|e|]]; [done| |done].
  simpl. by case_bool_decide.
Qed.

(** The loop has fuel for every pending proxy *)
Lemma evaluate_pending_ends fuel a u x :
  apps u !! a = Some x → length (pending x) ≤ fuel → (evaluate_pending fuel a u).2 ≠ Diverge.
Proof.
  revert u x. induction fuel as [|fuel IH]; intros u x Hx Hl; unfold evaluate_pending; fold evaluate_pending;
    assert (get_app a u = (u, Ok x)) as Hg by (unfold get_app; by rewrite Hx); rewrite (ebind_Ok _ _ _ _ _ Hg);
    destruct (pending x) as [|p rest] eqn:Hp; simpl in Hl; try done; [lia|].
  rewrite ebind_modify. unfold ebind. set (v := upd_app (set_pending rest) a u).
  pose proof (maybe_evaluate_ends p v) as He. pose proof (maybe_evaluate_status p v) as Hs.
  destruct (maybe_evaluate p v) as [w [[]|e|]]; simpl in *; [|done..].
  destruct (status_lookup v w a (set_pending rest x)) as (z & Hz & [= _ _ _ Hpz]); [done|simpl; by rewrite list_lookup_alter_eq, Hx|].
  apply (IH w z Hz). rewrite Hpz. simpl. lia.
Qed.

(** *** When nothing raises *)

Definition nothing_raises : Prop := (∀ l e, fault l e = None) ∧ (∀ m f o, ∃ n, task_name m f o = Ok n).

Lemma call_returns e u : nothing_raises → call e u = (add_log e u, Ok ()).
Proof. intros [Hf _]. unfold call. by rewrite Hf. Qed.

Lemma bind_returns a t u : nothing_raises → bind a t u = (add_log (Bound a t) (upd_task (bound_to a) t u), Ok ()).
Proof. intros H. unfold bind. rewrite ebind_modify. by apply call_returns. Qed.

Lemma get_app_returns a u x : apps u !! a = Some x → get_app a u = (u, Ok x).
Proof. unfold get_app. by intros ->. Qed.

Lemma task_from_fun_succeeds a f o u x :
  nothing_raises → wf u → apps u !! a = Some x → finalized x = true → ∃ u' t, task_from_fun a f o u = (u', Ok t).
Proof.
  intros Hno Hu Hx Hf. destruct (proj2 Hno (main x) f o) as [n Hn].
  unfold task_from_fun. rewrite (ebind_Ok _ _ _ _ _ (get_app_returns a u x Hx)), Hf. simpl. rewrite (ebind_Ok _ _ _ u n) by (unfold elift; by rewrite Hn).
  destruct (dict_get (tasks x) n) as [t|] eqn:Ht.
  - destruct (lookup_lt_is_Some_2 (objs u) t) as [k Hk].
    { apply dict_get_Some_elem in Ht. by apply (proj2 (Hu a x Hx)) in Ht. }
    assert (get_task t u = (u, Ok k)) as Hgt by (unfold get_task; by rewrite Hk).
    assert (∃ v, warn_if_duplicate_task_name a t f n u = (v, Ok ())) as [v Hv].
    { unfold warn_if_duplicate_task_name. rewrite (ebind_Ok _ _ _ _ _ Hgt). destruct (t_fun k) as [g|]; [|by eexists].
      case_bool_decide; [by eexists|]. unfold warn_duplicate_task_name. rewrite (ebind_Ok _ _ _ _ _ (get_app_returns a u x Hx)).
      case_bool_decide; [by eexists|]. rewrite ebind_modify, call_returns by done. by eexists. }
    exists v, t. by rewrite (ebind_Ok _ _ _ _ _ Hv).
  - unfold create_task. rewrite (ebind_Ok _ _ _ _ _ (call_returns _ u Hno)), ebind_get, !ebind_modify.
    rewrite (ebind_Ok _ _ _ _ _ (bind_returns a _ _ Hno)), (ebind_Ok _ _ _ _ _ (call_returns _ _ Hno)). by eexists _, _.
Qed.

Lemma finalized_extends u u' a x : extends u u' → apps u !! a = Some x → finalized x = true → ∃ x', apps u' !! a = Some x' ∧ finalized x' = true.
Proof. intros He Hx Hf. destruct (ext_apps _ _ He a x Hx) as (x' & Hx' & _ & _ & H & _). exists x'. auto. Qed.

Lemma run_finalizers_succeed a l u x :
  nothing_raises → wf u → apps u !! a = Some x → finalized x = true → ∃ u', eiter (run_finalizer a) l u = (u', Ok ()).
Proof.
  intros Hno. revert u x. induction l as [|c l IH]; intros u x Hu Hx Hf; simpl; [by eexists|].
  destruct (task_from_fun_succeeds a (fz_fun c a) (fz_opts c) u x Hno Hu Hx Hf) as (v & t & Hv).
  assert (run_finalizer a c u = (v, Ok ())) as Hc by (unfold run_finalizer; by rewrite (ebind_Ok _ _ _ _ _ Hv)).
  rewrite (ebind_Ok _ _ _ _ _ Hc).
  pose proof (wf_task_from_fun a (fz_fun c a) (fz_opts c) u Hu) as Hw. rewrite Hv in Hw.
  pose proof (keeps_task_from_fun_extends u a (fz_fun c a) (fz_opts c) u (reflexivity u)) as He. rewrite Hv in He.
  destruct (finalized_extends _ _ _ _ He Hx Hf) as (y & Hy & Hfy). by apply (IH v y).
Qed.

Lemma maybe_evaluate_succeeds a p u x px :
  nothing_raises → wf u → apps u !! a = Some x → finalized x = true → proxies u !! p = Some px → p_app px = a →
  ∃ u', maybe_evaluate p u = (u', Ok ()).
Proof.
  intros Hno Hu Hx Hf Hp Ha. assert (∃ u' t, evaluate p u = (u', Ok t)) as (v & t & Hv).
  { assert (get_proxy p u = (u, Ok px)) as Hg by (unfold get_proxy; by rewrite Hp).
    unfold evaluate. rewrite (ebind_Ok _ _ _ _ _ Hg). destruct (p_thing px); [by eexists _, _|]. subst a.
    destruct (task_from_fun_succeeds _ (p_fun px) (p_opts px) u x Hno Hu Hx Hf) as (v & t & Hv).
    rewrite (ebind_Ok _ _ _ _ _ Hv). by eexists _, _. }
  exists v. unfold maybe_evaluate, ecatch. by rewrite (ebind_Ok _ _ _ _ _ Hv).
Qed.

Lemma evaluate_pending_succeeds fuel a u x :
  nothing_raises → wf u → apps u !! a = Some x → finalized x = true → length (pending x) ≤ fuel →
  ∃ u', evaluate_pending fuel a u = (u', Ok ()).
Proof.
  intros Hno Hu Hx Hf Hl.
  assert (∀ e, (evaluate_pending fuel a u).2 ≠ Raise e) as Hr.
  2: { pose proof (evaluate_pending_ends fuel a u x Hx Hl) as He. destruct (evaluate_pending fuel a u) as [v [[]|e|]]; [by eexists| |done].
       by destruct (Hr e). }
  clear Hl. revert u x Hu Hx Hf. induction fuel as [|fuel IH]; intros u x Hu Hx Hf e; unfold evaluate_pending; fold evaluate_pending;
    rewrite (ebind_Ok _ _ _ _ _ (get_app_returns a u x Hx)); destruct (pending x) as [|p rest] eqn:Hp; try done.
  rewrite ebind_modify. set (v := upd_app (set_pending rest) a u).
  assert (apps v !! a = Some (set_pending rest x)) as Hv by (simpl; by rewrite list_lookup_alter_eq, Hx).
  destruct (proj1 (Hu a x Hx) p) as (px & Hpx & Ha); [rewrite Hp; apply list_elem_of_here|].
  assert (wf v) as Hwv.
  { apply wf_upd_app; [done|]. intros y Hy [Hpy Hty]. simplify_eq. split; [|done]. intros q Hq. apply Hpy. rewrite Hp. by apply list_elem_of_further. }
  destruct (maybe_evaluate_succeeds a p v _ px Hno Hwv Hv Hf Hpx Ha) as [w Hw]. rewrite (ebind_Ok _ _ _ _ _ Hw).
  pose proof (maybe_evaluate_status p v) as Hs. rewrite Hw in Hs. destruct (status_lookup v w a _ Hs Hv) as (z & Hz & [= _ _ Hfz _]).
  assert (wf w) as Hww. { assert (keeps wf (maybe_evaluate p)) as K by (unfold maybe_evaluate; keeps). specialize (K v Hwv). by rewrite Hw in K. }
  apply (IH w z); [done|done|]. by rewrite Hfz.
Qed.

Lemma binds_succeed a l u : nothing_raises → ∃ u', eiter (bind a) l u = (u', Ok ()).
Proof.
  intros Hno. revert u. induction l as [|t l IH]; intros u; simpl; [by eexists|]. rewrite (ebind_Ok _ _ _ _ _ (bind_returns a t u Hno)). apply IH.
Qed.

(** *** Binding every task *)

Definition bound_in (a t : nat) (u : universe) : Prop := ∀ k, objs u !! t = Some k → t_app k = Some a ∧ t_bound k = true.

Lemma keeps_bound a t t' : keeps (bound_in a t) (bind a t').
Proof.
  intros u Hu k. unfold bind. rewrite ebind_modify. simpl. destruct (decide (t' = t)) as [->|Hne].
  - rewrite list_lookup_alter_eq. destruct (objs u !! t); [|done]. by intros [= <-].
  - rewrite list_lookup_alter_ne by done. apply Hu.
Qed.

Lemma binds_bound a l u u' t : eiter (bind a) l u = (u', Ok ()) → t ∈ l → bound_in a t u'.
Proof.
  revert u. induction l as [|t' l IH]; intros u H Ht; [by apply not_elem_of_nil in Ht|].
  simpl in H. apply ebind_returns in H as ([] & v & Hv & H). apply elem_of_cons in Ht as [->|Ht]; [|by apply (IH v)].
  assert (bound_in a t' v) as Hb.
  { unfold bind in Hv. rewrite ebind_modify in Hv. apply (f_equal fst) in Hv. simpl in Hv. subst v. intros k. simpl.
    rewrite list_lookup_alter_eq. destruct (objs u !! t'); [|done]. by intros [= <-]. }
  pose proof (keeps_iter _ (bind a) l (λ t'', keeps_bound a t' t'') v Hb) as K. by rewrite H in K.
Qed.

Lemma binds_apps a l u : apps (eiter (bind a) l u).1 = apps u.
Proof.
  assert (keeps (λ v, apps v = apps u) (eiter (bind a) l)) as K; [|by apply K].
  apply keeps_iter. intros t. unfold bind. keeps; [by apply keeps_modify|by intros v].
Qed.

(** ** Warnings *)

Definition warnings (u : universe) (a : nat) (n : string) : nat := length (filter (λ e, e = Warned a n) (log u)).

Definition names_warned (u : universe) (a : nat) : list string := default [] (duplicate_task_names_warned <$> apps u !! a).

Definition warned_once (u : universe) : Prop :=
  ∀ a n, warnings u a n ≤ if bool_decide (n ∈ names_warned u a) then 1 else 0.

Lemma warned_once_step u u' :
  (∀ a, names_warned u a = names_warned u' a) → (∀ a n, warnings u' a n = warnings u a n) → warned_once u → warned_once u'.
Proof. intros Ha Hw Hu a n. rewrite Hw, <- Ha. apply Hu. Qed.

Definition is_warning (e : event) : bool := match e with Warned _ _ => true | _ => false end.

Lemma warnings_other e u a n : is_warning e = false → warnings (add_log e u) a n = warnings u a n.
Proof.
  intros He. unfold warnings. simpl. rewrite filter_app, length_app, filter_cons, decide_False by (by intros ->). rewrite filter_nil. simpl. lia.
Qed.

Lemma warned_call e : is_warning e = false → keeps warned_once (call e).
Proof. intros He u. apply warned_once_step; [done|]. intros. by apply warnings_other. Qed.
Hint Extern 1 (keeps warned_once (call _)) => by apply warned_call : keeps.

Lemma warned_upd_app f a : (∀ x, duplicate_task_names_warned (f x) = duplicate_task_names_warned x) → keeps warned_once (emodify (upd_app f a)).
Proof.
  intros Hf. apply keeps_modify. intros u. apply warned_once_step; [|done]. intros b. unfold names_warned. simpl.
  destruct (decide (a = b)) as [->|]; [|by rewrite list_lookup_alter_ne]. rewrite list_lookup_alter_eq. destruct (apps u !! b); simpl; by rewrite ?Hf.
Qed.
Hint Extern 1 (keeps warned_once (emodify (upd_app _ _))) => by apply warned_upd_app : keeps.

Lemma warned_same (f : universe → universe) : (∀ u, apps (f u) = apps u) → (∀ u, log (f u) = log u) → keeps warned_once (emodify f).
Proof.
  intros Ha Hl. apply keeps_modify. intros u. unfold warned_once, names_warned, warnings. by rewrite Ha, Hl.
Qed.
Hint Extern 2 (keeps warned_once (emodify _)) => by apply warned_same : keeps.

Lemma warned_warn a n : keeps warned_once (warn_duplicate_task_name a n).
Proof.
  intros u Hu. unfold warn_duplicate_task_name. destruct (apps u !! a) as [x|] eqn:Hx; [|unfold ebind, get_app; by rewrite Hx].
  rewrite (ebind_Ok _ _ _ _ _ (get_app_returns a u x Hx)). case_bool_decide as Hn; [done|]. rewrite ebind_modify. simpl.
  intros b m. unfold warnings, names_warned. simpl. rewrite filter_app, length_app, filter_cons, filter_nil.
  specialize (Hu b m). unfold warnings, names_warned in Hu. destruct (decide (a = b)) as [->|Hne].
  - rewrite list_lookup_alter_eq. rewrite Hx in Hu |- *. simpl in *. destruct (decide (Warned b n = Warned b m)) as [[= ->]|Hnm].
    + rewrite bool_decide_eq_false_2 in Hu by done. rewrite bool_decide_eq_true_2 by apply list_elem_of_here. simpl. lia.
    + simpl. rewrite Nat.add_0_r. etrans; [exact Hu|]. repeat case_bool_decide; try lia. by exfalso; set_solver.
  - rewrite list_lookup_alter_ne by done. rewrite decide_False by congruence. simpl. lia.
Qed.
Hint Resolve warned_warn : keeps.

Lemma warned_task_from_fun a f o : keeps warned_once (task_from_fun a f o).
Proof. unfold task_from_fun, create_task, bind, warn_if_duplicate_task_name. keeps. Qed.
Hint Resolve warned_task_from_fun : keeps.

Lemma warned_evaluate p : keeps warned_once (evaluate p).
Proof. unfold evaluate. keeps. Qed.
Hint Resolve warned_evaluate : keeps.

Lemma warned_evaluate_pending fuel a : keeps warned_once (evaluate_pending fuel a).
Proof.
  induction fuel; unfold evaluate_pending; fold evaluate_pending; apply keeps_bind; [keeps|intros x|keeps|intros x]; destruct (pending x);
    [keeps..|]. apply keeps_bind; [keeps|intros _]. apply keeps_bind; [unfold maybe_evaluate; keeps|done].
Qed.
Hint Resolve warned_evaluate_pending : keeps.

Lemma warned_finalize a auto : keeps warned_once (finalize a auto).
Proof.
  unfold finalize, announce_app_finalized, run_finalizer, bind. keeps.
  apply keeps_modify. intros u. apply warned_once_step; [done|]. intros. by apply warnings_other.
Qed.
Hint Resolve warned_finalize : keeps.

Lemma warned_connect c : keeps warned_once (connect_on_app_finalize c).
Proof. apply warned_same; intros u; by case_bool_decide. Qed.
Hint Resolve warned_connect : keeps.

Lemma warned_new_app m auto cur d : keeps warned_once (new_app m auto cur d).
Proof.
  unfold new_app. keeps. apply keeps_modify. intros u. apply warned_once_step; [|done]. intros b. unfold names_warned. simpl.
  destruct (apps u !! b) as [x|] eqn:Hx; [by rewrite (lookup_app_l_Some _ _ _ _ Hx)|].
  rewrite lookup_app_r by (by apply lookup_ge_None). by destruct (_ - _).
Qed.
Hint Resolve warned_new_app : keeps.

Lemma warned_exec x : keeps warned_once (exec x).
Proof.
  destruct x; simpl; unfold ignore, close, task_decorator, shared_task, connect_closure, take_shared, task_by_cons, get_current_app, register_task,
    registry_register, unregister, app_tasks, bind; keeps.
Qed.

(** A name that two callables claim is warned about once.  Whatever the operations and
    whatever they raise, an application warns at most once of each name. *)
Theorem duplicates_warned_once l a n : warnings (exec_all l empty_universe) a n ≤ 1.
Proof.
  assert (∀ u, warned_once u → warned_once (exec_all l u)) as H.
  { induction l as [|x l IH]; intros u Hu; simpl; [done|]. by apply IH, warned_exec. }
  specialize (H empty_universe (λ _ _, Nat.le_0_l _) a n). by case_bool_decide; lia.
Qed.

(** ** Properties *)

Context (order_finalizers_elem : ∀ l c, c ∈ order_finalizers l ↔ c ∈ l).
Context (order_apps_elem : ∀ l (a : nat), a ∈ order_apps l ↔ a ∈ l).

(** The callables that the finalization of [a] makes tasks of *)
Definition declared (u : universe) (a : nat) (x : app) (f : pyfun) (o : opts) : Prop :=
  (∃ c, c ∈ on_app_finalizers u ∧ f = fz_fun c a ∧ o = fz_opts c) ∨
  (∃ p px, p ∈ pending x ∧ proxies u !! p = Some px ∧ f = p_fun px ∧ o = p_opts px).

Record completed (u : universe) (a : nat) (x : app) (u' : universe) (x' : app) : Prop := Completed {
  c_finalized : finalized x' = true;
  c_pending : pending x' = [];
  (* what was registered stays *)
  c_kept : ∀ n t, dict_get (tasks x) n = Some t → dict_get (tasks x') n = Some t;
  (* shared tasks and built-in tasks are there *)
  c_shared : ∀ c, c ∈ on_app_finalizers u →
    ∃ n t, task_name (main x) (fz_fun c a) (fz_opts c) = Ok n ∧ dict_get (tasks x') n = Some t;
  (* decorated functions are there, and their proxies stand for them *)
  c_decorated : ∀ p px, p ∈ pending x → proxies u !! p = Some px → p_thing px = None →
    ∃ n t px', task_name (main x) (p_fun px) (p_opts px) = Ok n ∧ dict_get (tasks x') n = Some t ∧
      proxies u' !! p = Some px' ∧ p_thing px' = Some t;
  (* and nothing else is new *)
  c_sourced : ∀ n t, dict_get (tasks x') n = Some t → dict_get (tasks x) n = Some t ∨
    ∃ k f o, objs u' !! t = Some k ∧ t_fun k = Some f ∧ declared u a x f o ∧ task_name (main x) f o = Ok n;
  c_bound : ∀ n t k, dict_get (tasks x') n = Some t → objs u' !! t = Some k → t_app k = Some a ∧ t_bound k = true }.

Lemma maybe_evaluate_sourced D u0 a p u px :
  apps u0 !! a ≠ None → proxies u !! p = Some px → p_app px = a → D (p_fun px) (p_opts px) →
  sourced_ext D u0 a u → sourced_ext D u0 a (maybe_evaluate p u).1.
Proof.
  intros H0 Hp Ha HD Hu. assert (sourced_ext D u0 a (evaluate p u).1) as He.
  { unfold evaluate. assert (get_proxy p u = (u, Ok px)) as Hg by (unfold get_proxy; by rewrite Hp). rewrite (ebind_Ok _ _ _ _ _ Hg).
    destruct (p_thing px) eqn:Ht; [done|]. subst a. pose proof (keeps_task_from_fun_sourced D u0 _ _ _ HD H0 u Hu) as Hv.
    pose proof (same_proxies _ _ (keeps_task_from_fun_same u (p_app px) (p_fun px) (p_opts px) u (reflexivity u))) as Hs.
    unfold ebind. destruct (task_from_fun _ _ _ u) as [v [t|e|]]; simpl in *; [|done..].
    revert Hv. apply sourced_step; [|done]. split; try done. apply all_grow_alter; [apply _|].
    intros y. rewrite Hs, Hp. intros [= <-]. repeat split. simpl. congruence. }
  unfold maybe_evaluate, ecatch, ebind. destruct (evaluate p u) as [v [t|e|]]; simpl in *; [done| |done]. by case_bool_decide.
Qed.

Lemma evaluate_pending_sourced D u0 fuel a u x :
  apps u0 !! a ≠ None → apps u !! a = Some x →
  (∀ p, p ∈ pending x → ∃ px, proxies u !! p = Some px ∧ p_app px = a ∧ D (p_fun px) (p_opts px)) →
  sourced_ext D u0 a u → sourced_ext D u0 a (evaluate_pending fuel a u).1.
Proof.
  intros H0. revert u x. induction fuel as [|fuel IH]; intros u x Hx Hp Hu; unfold evaluate_pending; fold evaluate_pending;
    rewrite (ebind_Ok _ _ _ _ _ (get_app_returns a u x Hx)); destruct (pending x) as [|p rest] eqn:Hpend; try done.
  rewrite ebind_modify. set (v := upd_app (set_pending rest) a u).
  assert (apps v !! a = Some (set_pending rest x)) as Hv by (simpl; by rewrite list_lookup_alter_eq, Hx).
  assert (sourced_ext D u0 a v) as Hsv.
  { apply (keeps_sourced D u0 a (upd_app (set_pending rest) a)); [intros w; by apply upd_app_extends|intros w; by apply tasks_alter|done]. }
  destruct (Hp p) as (px & Hpx & Ha & HD); [apply list_elem_of_here|].
  pose proof (maybe_evaluate_sourced D u0 a p v px H0 Hpx Ha HD Hsv) as Hw.
  pose proof (maybe_evaluate_status p v) as Hs. pose proof (keeps_maybe_evaluate_extends v p v (reflexivity v)) as He.
  unfold ebind. destruct (maybe_evaluate p v) as [w [[]|e|]]; simpl in *; [|done..].
  destruct (status_lookup v w a _ Hs Hv) as (z & Hz & [= _ _ _ Hpz]). apply (IH w z Hz); [|done].
  rewrite Hpz. simpl. intros q Hq. destruct (Hp q) as (qx & Hqx & Hqa & HDq); [by apply list_elem_of_further|].
  destruct (ext_proxies _ _ He q qx Hqx) as (qx' & Hqx' & E1 & E2 & E3 & _). exists qx'. split_and!; congruence.
Qed.

Lemma run_finalizers_sourced D u0 a l :
  (∀ c, c ∈ l → D (fz_fun c a) (fz_opts c)) → apps u0 !! a ≠ None → keeps (sourced_ext D u0 a) (eiter (run_finalizer a) l).
Proof.
  intros Hl H0. induction l as [|c l IH]; [apply keeps_ret|].
  apply keeps_bind; [|intros _; apply IH; intros d Hd; apply Hl; by apply list_elem_of_further].
  apply keeps_bind; [|intros; apply keeps_ret]. apply keeps_task_from_fun_sourced; [apply Hl, list_elem_of_here|done].
Qed.

(** The parts of [finalize] *)
Lemma finalize_phases a auto u u' x :
  apps u !! a = Some x → finalized x = false → finalize a auto u = (u', Ok ()) →
  ∃ v w y, eiter (run_finalizer a) (order_finalizers (on_app_finalizers u)) (upd_app set_finalized a u) = (v, Ok ()) ∧
    evaluate_pending (length (pending x)) a v = (w, Ok ()) ∧ apps w !! a = Some y ∧
    ∃ z, eiter (bind a) (dict_values (tasks y)) w = (z, Ok ()) ∧ u' = add_log (AfterFinalize a) z.
Proof.
  intros Hx Hf H. unfold finalize in H. rewrite (ebind_Ok _ _ _ _ _ (get_app_returns a u x Hx)), Hf in H.
  destruct (auto && _); [done|]. rewrite ebind_modify in H. apply ebind_returns in H as ([] & v & Hv & H).
  unfold announce_app_finalized in Hv. rewrite ebind_get in Hv. simpl in Hv.
  apply ebind_returns in H as ([] & w & Hw & H). apply ebind_returns in H as (y & w' & Hy & H).
  unfold get_app in Hy. destruct (apps w !! a) as [y'|] eqn:Hy'; simplify_eq/=.
  apply ebind_returns in H as ([] & z & Hz & H). unfold emodify in H. simplify_eq. exists v, w', y. split_and!; try done. by exists z.
Qed.

Lemma finalize_completed a auto u u' x :
  no_attribute_errors → wf u → apps u !! a = Some x → finalized x = false → finalize a auto u = (u', Ok ()) →
  ∃ x', apps u' !! a = Some x' ∧ completed u a x u' x'.
Proof.
  intros Hno Hu Hx Hf H. destruct (finalize_phases a auto u u' x Hx Hf H) as (v & w & y & Hv & Hw & Hy & z & Hz & ->).
  set (u1 := upd_app set_finalized a u) in *.
  assert (apps u1 !! a = Some (set_finalized x)) as Hx1 by (simpl; by rewrite list_lookup_alter_eq, Hx).
  assert (extends u u1) as E1 by (apply upd_app_extends; intros; by repeat split).
  pose proof (keeps_run_finalizers_same u1 a (order_finalizers (on_app_finalizers u)) u1 (reflexivity u1)) as S1. rewrite Hv in S1. simpl in S1.
  assert (∀ c u0, keeps (extends u0) (run_finalizer a c)) as Kf by (intros; unfold run_finalizer; keeps).
  pose proof (keeps_iter _ _ (order_finalizers (on_app_finalizers u)) (λ c, Kf c u1) u1 (reflexivity u1)) as E2. rewrite Hv in E2. simpl in E2.
  pose proof (keeps_evaluate_pending_extends v (length (pending x)) a v (reflexivity v)) as E3. rewrite Hw in E3. simpl in E3.
  pose proof (keeps_iter _ _ (dict_values (tasks y)) (λ t, keeps_bind_extends w a t) w (reflexivity w)) as E4. rewrite Hz in E4. simpl in E4.
  destruct (same_status_app _ _ _ _ S1 Hx1) as (x2 & Hx2 & [= Hm2 _ Hf2 Hp2]).
  destruct (evaluate_pending_returns _ _ _ _ _ Hno Hx2 Hw) as [(y' & Hy' & Hpy & Hfy) Hdec]. simplify_eq.
  pose proof (binds_apps a (dict_values (tasks y)) w) as Happs. rewrite Hz in Happs. simpl in Happs.
  assert (apps (add_log (AfterFinalize a) z) !! a = Some y) as Hyz by (simpl; by rewrite Happs).
  assert (∀ n t, registered w a n t → dict_get (tasks y) n = Some t) as Hreg by (intros n t (y0 & Hy0 & ?); by simplify_eq).
  exists y. split; [done|]. split.
  - by rewrite Hfy.
  - done.
  - intros n t Hn. apply Hreg. apply (registered_extends u); [etrans; [exact E1|]; by etrans|]. by exists x.
  - intros c Hc. destruct (run_finalizers_returns a _ _ _ _ Hx1 Hv c) as (n & t & Hn & Hr); [by apply order_finalizers_elem|].
    exists n, t. split; [done|]. by apply Hreg, (registered_extends v).
  - intros p px Hp Hpx Hnone. destruct (proj1 (Hu a x Hx) p Hp) as (px0 & Hpx0 & Ha). simplify_eq.
    destruct (Hdec p px) as (n & t & Hn & Hev); [by rewrite Hp2|by rewrite (same_proxies _ _ S1)|done|done|].
    rewrite Hm2 in Hn. apply (evaluated_extends _ z) in Hev as [(px' & Hpx' & Ht) Hr]; [|done].
    exists n, t, px'. split_and!; try done. destruct Hr as (y0 & Hy0 & Hn0). rewrite Happs, Hy in Hy0. by simplify_eq.
  - assert (sourced_ext (declared u a x) u a w) as [_ Hs].
    { assert (apps u !! a ≠ None) as H0 by by rewrite Hx. pose proof (evaluate_pending_sourced (declared u a x) u (length (pending x)) a v x2 H0 Hx2) as K.
      rewrite Hw in K. apply K.
      - rewrite Hp2. intros p Hp. destruct (proj1 (Hu a x Hx) p Hp) as (px & Hpx & Ha). exists px. rewrite (same_proxies _ _ S1).
        split_and!; [done|done|]. right. by exists p, px.
      - assert (sourced_ext (declared u a x) u a u1) as K1.
        { apply (keeps_sourced _ u a (upd_app set_finalized a)); [intros; apply upd_app_extends; intros; by repeat split|intros; by apply tasks_alter|].
          split; [done|by left]. }
        pose proof (run_finalizers_sourced (declared u a x) u a (order_finalizers (on_app_finalizers u))) as K2.
        specialize (K2 (λ c Hc, or_introl (ex_intro _ c (conj (proj1 (order_finalizers_elem _ c) Hc) (conj eq_refl eq_refl)))) H0 u1 K1). by rewrite Hv in K2. }
    intros n t Hn. destruct (Hs n t) as [(x0 & Hx0 & ?)|(x0 & k & f & o & Hx0 & Hk & Hkf & HD & Ho)]; [by exists y|simplify_eq; by left|right].
    simplify_eq. destruct (ext_objs _ _ E4 t k Hk) as (k' & Hk' & _ & Hkf'). exists k', f, o. split_and!; try done. congruence.
  - intros n t k Hn Hk. apply (binds_bound a _ _ _ t Hz); [|done]. apply dict_get_Some_elem in Hn. apply list_elem_of_fmap. by exists (n, t).
Qed.

Lemma finalize_ends a auto : ends (finalize a auto).
Proof.
  intros u. unfold finalize. destruct (apps u !! a) as [x|] eqn:Hx; [|unfold ebind, get_app; by rewrite Hx].
  rewrite (ebind_Ok _ _ _ _ _ (get_app_returns a u x Hx)). destruct (finalized x); [done|]. destruct (auto && _); [done|].
  rewrite ebind_modify. set (u1 := upd_app set_finalized a u).
  assert (apps u1 !! a = Some (set_finalized x)) as Hx1 by (simpl; by rewrite list_lookup_alter_eq, Hx).
  assert (ends (announce_app_finalized a)) as Hann.
  { apply ends_bind; [done|]. intros l. apply ends_iter. intros c. apply ends_bind; [apply task_from_fun_ends|done]. }
  assert (same_status u1 (announce_app_finalized a u1).1) as S1 by (unfold announce_app_finalized; rewrite ebind_get; by apply keeps_run_finalizers_same).
  specialize (Hann u1). unfold ebind at 1. destruct (announce_app_finalized a u1) as [v [[]|e|]]; simpl in *; [|done..].
  destruct (same_status_app _ _ _ _ S1 Hx1) as (x2 & Hx2 & [= _ _ _ Hp2]).
  pose proof (evaluate_pending_ends (length (pending x)) a v x2 Hx2) as He. rewrite Hp2 in He. specialize (He (le_n _)).
  unfold ebind at 1. destruct (evaluate_pending _ a v) as [w [[]|e|]]; simpl in *; [|done..].
  apply ends_bind; [intros z; simpl; by destruct (apps z !! a)|]. intros y. apply ends_bind; [|by intros ? ?].
  apply ends_iter. intros t. apply ends_bind; [done|intros; apply call_ends].
Qed.

Lemma finalize_succeeds a auto u x :
  nothing_raises → wf u → apps u !! a = Some x → (auto = true → autofinalize x = true) → ∃ u', finalize a auto u = (u', Ok ()).
Proof.
  intros Hno Hu Hx Ha. unfold finalize. rewrite (ebind_Ok _ _ _ _ _ (get_app_returns a u x Hx)). destruct (finalized x); [by eexists|].
  assert (auto && negb (autofinalize x) = false) as -> by (destruct auto; [by rewrite Ha|done]).
  rewrite ebind_modify. set (u1 := upd_app set_finalized a u).
  assert (apps u1 !! a = Some (set_finalized x)) as Hx1 by (simpl; by rewrite list_lookup_alter_eq, Hx).
  assert (wf u1) as Hw1 by by apply wf_upd_app.
  destruct (run_finalizers_succeed a (order_finalizers (on_app_finalizers u1)) u1 _ Hno Hw1 Hx1 eq_refl) as [v Hv].
  assert (announce_app_finalized a u1 = (v, Ok ())) as Hav by (unfold announce_app_finalized; by rewrite ebind_get).
  rewrite (ebind_Ok _ _ _ _ _ Hav). pose proof (keeps_run_finalizers_same u1 a (order_finalizers (on_app_finalizers u1)) u1 (reflexivity u1)) as S1. rewrite Hv in S1.
  assert (wf v) as Hwv. { assert (keeps wf (announce_app_finalized a)) as K by (unfold announce_app_finalized, run_finalizer; keeps). specialize (K u1 Hw1). by rewrite Hav in K. }
  destruct (same_status_app _ _ _ _ S1 Hx1) as (x2 & Hx2 & [= _ _ Hf2 Hp2]).
  destruct (evaluate_pending_succeeds (length (pending x)) a v x2 Hno Hwv Hx2 Hf2) as [w Hw]; [by rewrite Hp2|].
  rewrite (ebind_Ok _ _ _ _ _ Hw). pose proof (keeps_evaluate_pending_extends v (length (pending x)) a v (reflexivity v)) as E3. rewrite Hw in E3.
  destruct (ext_apps _ _ E3 a x2 Hx2) as (y & Hy & _). rewrite (ebind_Ok _ _ _ _ _ (get_app_returns a w y Hy)).
  destruct (binds_succeed a (dict_values (tasks y)) w Hno) as [z Hz]. rewrite (ebind_Ok _ _ _ _ _ Hz). by eexists.
Qed.

(** Finalization registers everything that was declared.  However an application got to
    where it is, finalizing it ends; if it returns, nothing is pending, every shared task and
    built-in task and every function decorated for it is in the registry under its name, the
    proxies stand for the tasks in the registry, entries that were there have not changed, each
    new entry is a task made of a declared callable of that name, and every task is bound to
    this application.  It does return if no call raises and the application may be finalized. *)
Theorem finalize_complete l a auto x (u := exec_all l empty_universe) :
  no_attribute_errors → apps u !! a = Some x → finalized x = false →
  (finalize a auto u).2 ≠ Diverge ∧
  (∀ u', finalize a auto u = (u', Ok ()) → ∃ x', apps u' !! a = Some x' ∧ completed u a x u' x') ∧
  (nothing_raises → (auto = true → autofinalize x = true) → (finalize a auto u).2 = Ok ()).
Proof.
  intros Hno Hx Hf. assert (wf u) as Hu by apply wf_exec_all, wf_empty. split_and!.
  - apply finalize_ends.
  - intros u' H. by apply (finalize_completed a auto u u' x).
  - intros Hr Ha. by destruct (finalize_succeeds a auto u x Hr Hu Hx Ha) as [u' ->].
Qed.

(** The first callable of a name wins.  Whatever is decorated, shared, evaluated or
    finalized afterwards, and whatever of it raises, a registered task stays registered under
    its name and stays the task of the callable it was made of; only registering a task object
    or unregistering changes that. *)
Theorem first_callable_wins l l' a n t k (u := exec_all l empty_universe) (u' := exec_all l' u) :
  forallb (negb ∘ replaces) l' = true → registered u a n t → objs u !! t = Some k →
  registered u' a n t ∧ ∃ k', objs u' !! t = Some k' ∧ t_fun k' = t_fun k ∧ t_name k' = t_name k.
Proof.
  intros Hl Hr Hk. pose proof (exec_all_extends l' u Hl) as He. split; [by apply (registered_extends u)|].
  destruct (ext_objs _ _ He t k Hk) as (k' & Hk' & ? & ?). by exists k'.
Qed.

(** ** Shared tasks *)

Definition flags (u : universe) : list bool := finalized <$> apps u.

Lemma flags_lookup u u' (a : nat) x' :
  flags u' = flags u → apps u' !! a = Some x' → ∃ x, apps u !! a = Some x ∧ finalized x = finalized x'.
Proof.
  intros E Hx. apply (f_equal (.!! a)) in E. unfold flags in E. rewrite !list_lookup_fmap, Hx in E.
  destruct (apps u !! a) as [x|]; simpl in E; [|done]. exists x. split; congruence.
Qed.

Lemma same_status_flags u u' : status <$> apps u' = status <$> apps u → flags u' = flags u.
Proof.
  intros E. unfold flags. assert (∀ l, finalized <$> l = (λ s, s.1.2) <$> (status <$> l)) as Hs by (intros l; by rewrite <- list_fmap_compose).
  by rewrite !Hs, E.
Qed.

Lemma flags_alter f (a : nat) (l : list app) : (∀ x, finalized (f x) = finalized x) → finalized <$> alter f a l = finalized <$> l.
Proof.
  intros Hf. apply list_eq. intros i. rewrite !list_lookup_fmap. destruct (decide (a = i)) as [->|].
  - rewrite list_lookup_alter_eq. destruct (l !! i); simpl; [by rewrite Hf|done].
  - by rewrite list_lookup_alter_ne.
Qed.

Lemma evaluate_pending_flags F fuel a : keeps (λ u, flags u = F) (evaluate_pending fuel a).
Proof.
  induction fuel; unfold evaluate_pending; fold evaluate_pending; apply keeps_bind; [keeps|intros x|keeps|intros x]; destruct (pending x);
    [keeps..|]. apply keeps_bind; [|intros _; apply keeps_bind; [|done]].
  - apply keeps_modify. intros u <-. by apply flags_alter.
  - intros u <-. apply same_status_flags, maybe_evaluate_status.
Qed.

Lemma finalize_flags a auto u u' x :
  apps u !! a = Some x → finalized x = false → finalize a auto u = (u', Ok ()) → flags u' = flags (upd_app set_finalized a u).
Proof.
  intros Hx Hf H. destruct (finalize_phases a auto u u' x Hx Hf H) as (v & w & y & Hv & Hw & Hy & z & Hz & ->).
  pose proof (binds_apps a (dict_values (tasks y)) w) as Happs. rewrite Hz in Happs. simpl in Happs. unfold flags. simpl. rewrite Happs.
  pose proof (evaluate_pending_flags (flags v) (length (pending x)) a v eq_refl) as E. rewrite Hw in E. simpl in E. fold (flags w). rewrite E.
  set (u1 := upd_app set_finalized a u) in *.
  pose proof (keeps_run_finalizers_same u1 a (order_finalizers (on_app_finalizers u)) u1 (reflexivity u1)) as S1. rewrite Hv in S1.
  change (flags v = flags u1). apply same_status_flags, S1.
Qed.

(** Finalized applications have the task of [c], but for the ones in [D] *)
Record covered (c : finalizer) (D : nat → Prop) (u : universe) : Prop := Covered {
  cov_wf : wf u;
  cov_connected : c ∈ on_app_finalizers u;
  cov_tasks : ∀ a x, apps u !! a = Some x → finalized x = true → ¬ D a →
    ∃ n t, task_name (main x) (fz_fun c a) (fz_opts c) = Ok n ∧ dict_get (tasks x) n = Some t }.

Lemma covered_grows c D u u' (a : nat) x x' :
  extends u u' → covered c D u → apps u !! a = Some x → finalized x = true → apps u' !! a = Some x' → ¬ D a →
  ∃ n t, task_name (main x') (fz_fun c a) (fz_opts c) = Ok n ∧ dict_get (tasks x') n = Some t.
Proof.
  intros He Hc Hx Hf Hx' Ha. destruct (cov_tasks _ _ _ Hc a x Hx Hf Ha) as (n & t & Hn & Ht).
  destruct (ext_apps _ _ He a x Hx) as (y & Hy & Hm & _ & _ & Hk). simplify_eq. exists n, t. rewrite Hm. auto.
Qed.

(** A program that returns keeps the task there *)
Abbreviation covers c D p := (triple (covered c D) p (λ _, covered c D) (λ _, True)).

Lemma covers_step c D {A} (p : M A) :
  keeps wf p → (∀ u0, keeps (extends u0) p) → (∀ u a x', apps (p u).1 !! a = Some x' → finalized x' = true → ∃ x, apps u !! a = Some x ∧ finalized x = true) →
  covers c D p.
Proof.
  intros Hw He Hf u Hu. specialize (He u u (reflexivity u)). specialize (Hf u). specialize (Hw u (cov_wf _ _ _ Hu)).
  destruct (p u) as [u' [r|e|]]; simpl in *; [|done..]. split; [done|apply (ext_finalizers _ _ He), Hu|].
  intros a x' Hx' Hfx Ha. destruct (Hf a x' Hx' Hfx) as (x & Hx & Hfx'). by eapply covered_grows.
Qed.

Lemma covers_flags c D {A} (p : M A) : keeps wf p → (∀ u0, keeps (extends u0) p) → (∀ F, keeps (λ u, flags u = F) p) → covers c D p.
Proof.
  intros Hw He Hf. apply covers_step; [done..|]. intros u a x' Hx' Hfx. destruct (flags_lookup _ _ _ _ (Hf _ u eq_refl) Hx') as (x & ? & ?).
  exists x. split; congruence.
Qed.

Lemma flags_task_from_fun F a f o : keeps (λ u, flags u = F) (task_from_fun a f o).
Proof. intros u <-. apply same_status_flags. by apply keeps_task_from_fun_same. Qed.
Hint Resolve flags_task_from_fun : keeps.

Lemma flags_evaluate F p : keeps (λ u, flags u = F) (evaluate p).
Proof. intros u <-. apply same_status_flags. apply evaluate_others. Qed.
Hint Resolve flags_evaluate : keeps.

Lemma covers_finalize c D a auto : no_attribute_errors → covers c D (finalize a auto).
Proof.
  intros Hno u Hu. pose proof (keeps_finalize_extends u a auto u (reflexivity u)) as He. pose proof (wf_finalize a auto u (cov_wf _ _ _ Hu)) as Hw.
  destruct (finalize a auto u) as [u' [[]|e|]] eqn:H; [|done..]. simpl in *. split; [done|apply (ext_finalizers _ _ He), Hu|].
  destruct (apps u !! a) as [x|] eqn:Hx; [|unfold finalize, ebind, get_app in H; by rewrite Hx in H].
  destruct (finalized x) eqn:Hf.
  { unfold finalize in H. rewrite (ebind_Ok _ _ _ _ _ (get_app_returns a u x Hx)), Hf in H. unfold eret in H. simplify_eq. apply Hu. }
  destruct (finalize_completed a auto u u' x Hno (cov_wf _ _ _ Hu) Hx Hf H) as (x' & Hx' & Hcomp).
  intros b y Hy Hfy Hb. destruct (decide (a = b)) as [<-|Hne].
  - simplify_eq. destruct (ext_apps _ _ He a x Hx) as (z & Hz & Hm & _). simplify_eq. rewrite Hm. apply (c_shared _ _ _ _ _ Hcomp), Hu.
  - destruct (flags_lookup _ _ _ _ (finalize_flags a auto u u' x Hx Hf H) Hy) as (z & Hz & Hfz). simpl in Hz. rewrite list_lookup_alter_ne in Hz by done.
    eapply (covered_grows c D u u' b z y); try done. congruence.
Qed.

Lemma covers_bind c D {A B} (p : M A) (k : A → M B) : covers c D p → (∀ a, covers c D (k a)) → covers c D (ebind p k).
Proof. apply triple_bind. Qed.

Lemma covers_apps c D {A} (p : M A) : keeps wf p → (∀ u0, keeps (extends u0) p) → (∀ u, apps (p u).1 = apps u) → covers c D p.
Proof. intros Hw He Ha. apply covers_flags; [done..|]. intros F u <-. unfold flags. by rewrite Ha. Qed.

Lemma covers_new_app c D m auto cur : covers c D (new_app m auto cur []).
Proof.
  apply covers_step; eauto with keeps. intros u a x'.
  assert (apps (new_app m auto cur [] u).1 = apps u ++ [App m auto false [] [] []]) as -> by by destruct cur.
  intros [Hx|[_ Hx]]%lookup_app_Some Hf; [by exists x'|]. by apply list_lookup_singleton_Some in Hx as [_ <-].
Qed.

Lemma covers_connect c D d : covers c D (connect_on_app_finalize d).
Proof. apply covers_apps; eauto with keeps. intros u. simpl. by case_bool_decide. Qed.

Lemma covers_connect_closure c D f o : covers c D (connect_closure f o).
Proof. apply covers_bind; [by intros u|]. intros k. apply covers_connect. Qed.

Lemma covers_task_from_fun c D a f o : covers c D (task_from_fun a f o).
Proof. apply covers_flags; eauto with keeps. Qed.

Lemma covers_get_app c D a : covers c D (get_app a).
Proof. apply covers_apps; eauto with keeps. Qed.

Lemma covers_ret c D {A} (r : A) : covers c D (eret r).
Proof. by intros u. Qed.

Lemma covers_lift c D {A} (r : outcome A) : covers c D (elift r).
Proof. intros u Hu. by destruct r. Qed.

Lemma covers_take_shared c D f o l : covers c D (eiter (take_shared f o) l).
Proof.
  induction l as [|a l IH]; simpl; [apply covers_ret|]. apply covers_bind; [|done]. apply covers_bind; [apply covers_get_app|].
  intros x. destruct (finalized x); [|apply covers_ret]. apply covers_bind; [apply covers_task_from_fun|intros; apply covers_ret].
Qed.

Lemma covers_modify c D (f : universe → universe) :
  (∀ u, wf u → wf (f u)) → (∀ u, extends u (f u)) → (∀ u, flags (f u) = flags u) → covers c D (emodify f).
Proof.
  intros Hw He Hf. apply covers_flags; [by apply keeps_modify|intros; by apply keeps_extends|].
  intros F. apply keeps_modify. intros u <-. apply Hf.
Qed.

Lemma covers_app_tasks c D a : no_attribute_errors → covers c D (app_tasks a).
Proof.
  intros Hno. apply covers_bind; [by apply covers_finalize|intros _]. apply covers_bind; [apply covers_get_app|intros; apply covers_ret].
Qed.

Lemma covers_current_app c D : covers c D get_current_app.
Proof.
  apply covers_bind; [by intros u|intros d]. apply covers_bind; [|intros d'; by intros u].
  destruct d; [apply covers_ret|]. apply covers_bind; [apply covers_new_app|intros a]. apply covers_bind; [|intros; apply covers_ret].
  apply covers_modify; intros u; [by apply wf_step|by apply same_parts_extends|done].
Qed.

Lemma covers_decorator c D a f o shared lazy : covers c D (task_decorator a f o shared lazy).
Proof.
  apply covers_bind; [destruct shared; [apply covers_connect_closure|apply covers_ret]|intros _].
  apply covers_bind; [apply covers_get_app|intros x]. destruct (_ || _).
  - apply covers_bind; [apply covers_task_from_fun|intros; apply covers_ret].
  - apply covers_flags.
    + intros u Hu. simpl. by apply wf_push.
    + intros u0. keeps; apply keeps_extends; intros; [apply add_proxy_extends|by apply upd_app_extends].
    + intros F u <-. simpl. unfold flags. simpl. by apply flags_alter.
Qed.

Lemma covers_exec c D x : no_attribute_errors → replaces x = false → covers c D (exec x).
Proof.
  intros Hno. destruct x as [m auto cur|a|cls n m|a f o sh lz|f o|d|p|f o|a auto|a t|a t|a n]; intros [=]; simpl; unfold ignore.
  - apply covers_bind; [apply covers_new_app|intros; apply covers_ret].
  - apply covers_modify; intros u; [by apply wf_step|by apply same_parts_extends|done].
  - apply covers_modify; intros u; [apply wf_step; [done|done|simpl; rewrite length_app; lia]|apply add_task_extends|done].
  - apply covers_bind; [apply covers_decorator|intros; apply covers_ret].
  - apply covers_bind; [apply covers_connect_closure|intros _]. apply covers_bind; [by intros u|intros l]. apply covers_take_shared.
  - apply covers_connect.
  - apply covers_bind; [|intros; apply covers_ret]. apply covers_flags; eauto with keeps.
  - apply covers_bind; [|intros; apply covers_ret]. apply covers_bind; [apply covers_current_app|intros a].
    apply covers_bind; [by apply covers_app_tasks|intros d]. apply covers_bind; [apply covers_get_app|intros y].
    apply covers_bind; [|intros n]; apply covers_lift.
  - by apply covers_finalize.
Qed.

Lemma exec_ok_covered c D l u u' :
  no_attribute_errors → forallb (negb ∘ replaces) l = true → covered c D u → exec_ok l u = Some u' → covered c D u'.
Proof.
  intros Hno. revert u. induction l as [|x l IH]; intros u; simpl; [by intros _ ? [= <-]|]. intros [Hx Hl]%andb_prop Hu H.
  pose proof (covers_exec c D x Hno (proj1 (negb_true_iff _) Hx) u Hu) as Hv. destruct (exec x u) as [v [[]|e|]]; [|done..]. by apply (IH v).
Qed.

Lemma take_shared_returns f o l u u' :
  eiter (take_shared f o) l u = (u', Ok ()) → extends u u' ∧ flags u' = flags u ∧
  ∀ a x, a ∈ l → apps u !! a = Some x → finalized x = true → ∃ n t, task_name (main x) f o = Ok n ∧ registered u' a n t.
Proof.
  intros H. assert (∀ a u0, keeps (extends u0) (take_shared f o a)) as Ke by (intros; unfold take_shared; keeps).
  assert (∀ a F, keeps (λ u, flags u = F) (take_shared f o a)) as Kf by (intros; unfold take_shared; keeps).
  pose proof (keeps_iter _ _ l (λ a, Ke a u) u (reflexivity u)) as He. rewrite H in He.
  pose proof (keeps_iter _ _ l (λ a, Kf a (flags u)) u eq_refl) as Hf. rewrite H in Hf. split_and!; [done|done|]. clear He Hf.
  revert u H. induction l as [|b l IH]; intros u H a x Ha Hx Hfx; [by apply not_elem_of_nil in Ha|].
  simpl in H. apply ebind_returns in H as ([] & v & Hv & H). apply elem_of_cons in Ha as [->|Ha].
  - unfold take_shared in Hv. rewrite (ebind_Ok _ _ _ _ _ (get_app_returns b u x Hx)), Hfx in Hv.
    apply ebind_returns in Hv as (t & w & Hw & Hr). unfold eret in Hr. simplify_eq.
    destruct (task_from_fun_returns _ _ _ _ _ _ Hw) as (x' & n & Hx' & Hn & Hr). simplify_eq. exists n, t. split; [done|].
    pose proof (keeps_iter _ _ l (λ a, Ke a v) v (reflexivity v)) as He. rewrite H in He. by apply (registered_extends v).
  - pose proof (Ke b u u (reflexivity u)) as He. rewrite Hv in He. simpl in He. destruct (ext_apps _ _ He a x Hx) as (y & Hy & Hm & _ & Hfy & _).
    rewrite <- Hm. apply (IH v H a y Ha Hy). auto.
Qed.

(** The applications that are finalized and closed already do not take a new shared task *)
Definition closed_before (u : universe) (a : nat) : Prop := (∃ x, apps u !! a = Some x ∧ finalized x = true) ∧ a ∉ active u.

Lemma fresh_id_new u : fresh_id u ∉ fz_id <$> on_app_finalizers u.
Proof.
  unfold fresh_id. generalize (fz_id <$> on_app_finalizers u). intros l Hin.
  pose proof (proj1 (list_max_le l (list_max l)) (le_n _)) as HF. rewrite Forall_forall in HF. specialize (HF _ Hin). lia.
Qed.

Lemma shared_task_covered f o u u' :
  wf u → shared_task f o u = (u', Ok ()) → covered (Finalizer (fresh_id u) (λ _, f) o) (closed_before u) u'.
Proof.
  intros Hu H. pose proof (wf_exec (Share f o) u Hu) as Hw. simpl in Hw. rewrite H in Hw. simpl in Hw.
  set (c := Finalizer (fresh_id u) (λ _, f) o). set (v := set_finalizers (on_app_finalizers u ++ [c]) u).
  assert (connect_closure f o u = (v, Ok ())) as Hv.
  { unfold connect_closure. rewrite ebind_get. unfold connect_on_app_finalize, emodify. by rewrite bool_decide_eq_false_2 by apply fresh_id_new. }
  unfold shared_task in H. rewrite (ebind_Ok _ _ _ _ _ Hv), ebind_get in H.
  destruct (take_shared_returns f o _ v u' H) as (He & Hf & Hall). split; [done| |].
  - apply (ext_finalizers _ _ He). simpl. apply elem_of_app. right. apply list_elem_of_here.
  - intros a x' Hx' Hfx Ha. destruct (flags_lookup _ _ _ _ Hf Hx') as (x & Hx & Hfx'). rewrite Hfx in Hfx'. simpl in Hx.
    assert (a ∈ active u) as Hact. { destruct (decide (a ∈ active u)); [done|]. destruct Ha. split; [by exists x|done]. }
    destruct (Hall a x) as (n & t & Hn & y & Hy & Ht); [by apply order_apps_elem|done|done|]. simplify_eq.
    destruct (ext_apps _ _ He a x Hx) as (z & Hz & Hm & _). simplify_eq. exists n, t. simpl. by rewrite Hm.
Qed.

(** A shared task is in every application.  Once [shared_task] has returned, then in every
    state that later operations lead to, as long as they return and do not unregister or replace
    tasks, each finalized application has a task under the name of the shared one: the
    applications that were finalized before, the ones finalized since, and the ones that did
    not exist yet.  Only applications that were finalized and closed before do not take it. *)
Theorem shared_task_everywhere l f o u1 l' u2 a x (u := exec_all l empty_universe) :
  no_attribute_errors → shared_task f o u = (u1, Ok ()) →
  forallb (negb ∘ replaces) l' = true → exec_ok l' u1 = Some u2 →
  apps u2 !! a = Some x → finalized x = true → ¬ closed_before u a →
  ∃ n t, task_name (main x) f o = Ok n ∧ registry_get (tasks x) n = Ok t.
Proof.
  intros Hno H1 Hl H2 Hx Hf Ha. assert (wf u) as Hu by apply wf_exec_all, wf_empty.
  pose proof (exec_ok_covered _ _ l' u1 u2 Hno Hl (shared_task_covered f o u u1 Hu H1) H2) as Hc.
  destruct (cov_tasks _ _ _ Hc a x Hx Hf Ha) as (n & t & Hn & Ht). exists n, t. split; [done|]. unfold registry_get. by rewrite Ht.
Qed.

End Registry.
End AppRegistry.

(** ** Examples *)
Module AppExamples.
Import AppRegistry.

Definition no_modules (s : string) : option pymodule := None.
Definition quiet (l : list event) (e : event) : option exn := None.
Definition same {A} (l : list A) : list A := l.

Definition add : pyfun := Fun 1 "add" (Some "tasks"%string).
Definition add' : pyfun := Fun 2 "add" (Some "tasks"%string).
Definition mul : pyfun := Fun 3 "mul" (Some "tasks"%string).
Definition plain : opts (O := ()) := Opts None ().

Abbreviation run := (exec_all no_modules None quiet same same).

(** An application with two functions decorated, one of them shared, and another application *)
Definition setup : list op :=
  [NewApp (Some "proj"%string) true true; Decorate 0 add plain true true; Decorate 0 mul plain false true; NewApp None true false].

Lemma quiet_ok : nothing_raises (O := ()) no_modules None quiet.
Proof. split; [done|]. intros m f o. unfold task_name, gen_task_name, module_part. simpl. destruct (truthy (o_name o)); [by eexists|]. simpl. destruct (_ && _); by eexists. Qed.

Lemma quiet_no_attribute_errors : no_attribute_errors (O := ()) no_modules None quiet.
Proof. split; [done|]. intros m f o. destruct (proj2 quiet_ok m f o) as [n ->]. done. Qed.

Lemma finalize_complete_witness :
  ∃ u', finalize no_modules None quiet same 0 true (run setup empty_universe) = (u', Ok ()) ∧
  ∃ x', apps u' !! 0 = Some x' ∧ pending x' = [] ∧ dict_keys (tasks x') = ["tasks.add"; "tasks.mul"]%string.
Proof.
  destruct (finalize_complete no_modules None quiet same same (λ l c, iff_refl _) setup 0 true
    (App (Some "proj"%string) true false [0; 1] [] []) quiet_no_attribute_errors eq_refl eq_refl) as (_ & Hc & Hok).
  specialize (Hok quiet_ok (λ _, eq_refl)). destruct (finalize _ _ _ _ _ _ _) as [u' r] eqn:E. simpl in Hok. subst r.
  destruct (Hc u' eq_refl) as (x' & Hx' & Hcomp). exists u'. split; [done|]. exists x'. split_and!; [done|apply Hcomp|].
  vm_compute in E. injection E as <-. vm_compute in Hx'. by injection Hx' as <-.
Defined.

Lemma first_callable_wins_witness :
  registered (run [Decorate 0 add' plain true false; Share add' plain; Finalize 0 true] (run (setup ++ [Finalize 0 true]) empty_universe)) 0 "tasks.add"%string 0.
Proof.
  apply (first_callable_wins no_modules None quiet same same (setup ++ [Finalize 0 true]) [Decorate 0 add' plain true false; Share add' plain; Finalize 0 true]
    0 "tasks.add"%string 0 (Task (Some "tasks.add"%string) (Some add) (Some ()) "add" (Some "tasks"%string) (Some 0) true)); [done| |done].
  eexists. split; [vm_compute; done|done].
Defined.

(** The second callable is not registered, and the warning is there, once *)
Example collision_warned : warnings (run (setup ++ [Finalize 0 true; Decorate 0 add' plain true false; Share add' plain]) empty_universe) 0 "tasks.add" = 1.
Proof. reflexivity. Qed.

(** Finalized before, after and never before: all applications have the shared task *)
Lemma shared_task_everywhere_witness :
  ∃ u1 u2 x, shared_task no_modules None quiet same add plain (run [NewApp None true false; Finalize 0 false] empty_universe) = (u1, Ok ()) ∧
    exec_ok no_modules None quiet same same [NewApp (Some "later"%string) true true; Finalize 1 false] u1 = Some u2 ∧
    apps u2 !! 1 = Some x ∧ ∃ n t, task_name no_modules None (main x) add plain = Ok n ∧ registry_get (tasks x) n = Ok t.
Proof.
  eexists _, _, _. split; [vm_compute; reflexivity|]. split; [vm_compute; reflexivity|]. split; [reflexivity|].
  eapply (shared_task_everywhere no_modules None quiet same same (λ l c, iff_refl _) (λ l c, iff_refl _) [NewApp None true false; Finalize 0 false]
    add plain _ [NewApp (Some "later"%string) true true; Finalize 1 false] _ 1);
    [exact quiet_no_attribute_errors|vm_compute; reflexivity|reflexivity|vm_compute; reflexivity|reflexivity|reflexivity|].
  intros [(x & Hx & _) _]. vm_compute in Hx. discriminate.
Defined.

Definition proj_modules (s : string) : option pymodule :=
  if String.eqb s "proj.tasks" then Some (PyModule s (Some "/srv/proj/tasks.py"%string)) else
  if String.eqb s "__main__" then Some (PyModule s None) else None.

Lemma script_task_name_witness :
  gen_task_name proj_modules None (Some "proj.tasks"%string) "add" (Some main_module) = Ok "proj.tasks.add"%string.
Proof.
  destruct (script_task_name proj_modules None "proj.tasks" "add" "/srv/proj/tasks.py") as [-> ->]; [done..| |done].
  intros m Hm. vm_compute in Hm. by injection Hm as <-.
Defined.

(** An [AttributeError] while a task is made of a decorated function (a partial function, say,
    which has no name) is hidden: the application is finalized, the task is missing, and nobody
    is told *)
Definition nameless (l : list event) (e : event) : option exn :=
  match e with Creating _ f => if bool_decide (f = mul) then Some AttributeError else None | _ => None end.

Example hidden_failure :
  let '(u, r) := finalize no_modules None nameless same 0 true (exec_all no_modules None nameless same same setup empty_universe) in
  r = Ok () ∧ (finalized <$> apps u !! 0) = Some true ∧ (pending <$> apps u !! 0) = Some [] ∧
  (dict_keys ∘ tasks <$> apps u !! 0) = Some ["tasks.add"]%string.
Proof. vm_compute. done. Qed.

(** Finalization that raises half way leaves the application finalized: the next use of the
    registry does not try again, and the other decorated functions are not in it *)
Definition bad_setup : list op := [NewApp None true false; Decorate 0 add plain false true; Decorate 0 mul plain false true].
Definition bad_first (l : list event) (e : event) : option exn :=
  match e with Creating _ f => if bool_decide (f = add) then Some ValueError else None | _ => None end.

Example failed_finalize_not_repeated :
  let '(u, r) := finalize no_modules None bad_first same 0 true (exec_all no_modules None bad_first same same bad_setup empty_universe) in
  r = Raise ValueError ∧ app_tasks no_modules None bad_first same 0 u = (u, Ok []) ∧ (pending <$> apps u !! 0) = Some [1].
Proof. vm_compute. done. Qed.
End AppExamples.
