(* ===== verification/Calling.v ===== *)
(** Calling a task: [Task.apply_async] and [Task.apply] (celery/app/task.py) and
    [Celery.send_task] (celery/app/base.py), with the detection of quorum queues
    (celery/utils/quorum_queues.py).

    Keyword arguments are a dictionary, as they are in Python: the parameters of a function
    are taken out of it and the rest are its [options].  A parameter left out is not one
    given as [None].  The router, the making of a message and its publication (Routing.v,
    Messages.v) are functions of what they are given, which may raise; so may any other
    call, as [fault] says. *)

From S2P Require Import Prelude.
From S2P Require Import PyDict.
From S2P Require Import Effect.
From S2P Require Import Backoff.
From S2P Require Import TaskRetry.
Local Open Scope eff_scope.
Local Open Scope Z_scope.

Module Calling.
Import TaskRetry.
Local Open Scope string_scope.

(** ** Tasks and their execution options *)

(** A task class: its name and what [getattr(task, attr, None)] gives *)
Record task_cls := TaskCls { tc_name : string; tc_attr : string → val }.

Definition exec_keys : list string :=
  ["queue"; "routing_key"; "exchange"; "priority"; "expires"; "serializer"; "delivery_mode"; "compression";
   "time_limit"; "soft_time_limit"; "immediate"; "mandatory"].

(** [extract_exec_options] *)
Definition exec_options (t : task_cls) : options := (λ k, (k, tc_attr t k)) <$> exec_keys.

Definition is_None (v : val) : bool := match v with VNone => true | _ => false end.

Definition non_none (d : options) : options := filter (λ kv, is_None kv.2 = false) d.

(** The parameters of [send_task] that callers give by keyword *)
Definition send_params : list string :=
  ["countdown"; "eta"; "producer"; "connection"; "router"; "result_cls"; "expires"; "publisher"; "add_to_parent"; "group_id"; "group_index"; "retries";
   "chord"; "reply_to"; "time_limit"; "soft_time_limit"; "root_id"; "parent_id"; "route_name"; "chain"; "replaced_task_nesting"].

Definition vor (v w : val) : val := if truthy v then v else w.

(** [d.pop(k, None)] *)
Definition popped (d : options) (k : string) : val := default VNone (dict_get d k).

(** The arguments of [create_task_message] *)
Record message_args := MsgArgs {
  ma_task_id : val; ma_name : string; ma_args : val; ma_kwargs : val; ma_countdown : val; ma_eta : val;
  ma_group_id : val; ma_group_index : val; ma_expires : val; ma_retries : val; ma_chord : val;
  ma_callbacks : val; ma_errbacks : val; ma_reply_to : val; ma_time_limit : val; ma_soft_time_limit : val;
  ma_root_id : val; ma_parent_id : val; ma_shadow : val; ma_chain : val; ma_ignore_result : val;
  ma_replaced_task_nesting : val; ma_options : options }.

(** A call of [send_task]: the arguments that are not in the dictionary, and the dictionary *)
Record sending := Sending {
  s_name : string; s_args : val; s_kwargs : val; s_task_id : val; s_link : val; s_link_error : val; s_shadow : val;
  s_task_type : option task_cls; s_kw : options }.

(** The task that a worker is executing *)
Record parent := Parent { par_id : val; par_root_id : val; par_priority : val; par_trail : bool }.

(** ** Options of a call *)

(** The task that decides about defaults: only a task found by name brings its execution options *)
Definition resolved (registry : string → option task_cls) (c : sending) : option task_cls :=
  match s_task_type c with Some _ => None | None => registry (s_name c) end.

Definition task_type_of (registry : string → option task_cls) (c : sending) : option task_cls :=
  match s_task_type c with Some t => Some t | None => registry (s_name c) end.

(** [**options], with the options of the task as defaults *)
Definition merged_options (registry : string → option task_cls) (c : sending) : options :=
  let rest := filter (λ kv, kv.1 ∉ send_params) (s_kw c) in
  match resolved registry c with
  | Some t => match non_none (exec_options t) with [] => rest | filtered => dict_update filtered rest end
  | None => rest
  end.

(** [x = options.pop(k, None)] if [x] was left out; else the option is dropped *)
Definition explicit_or (c : sending) (opts : options) (k : string) : val :=
  match dict_get (s_kw c) k with Some v => v | None => popped opts k end.

Record prepared := Prepared {
  p_time_limit : val; p_soft_time_limit : val; p_expires : val; p_ignore_result : val; p_options : options }.

Definition prepare (registry : string → option task_cls) (c : sending) : prepared :=
  let opts := merged_options registry c in
  let p_tl := explicit_or c opts "time_limit" in
  let opts := dict_del opts "time_limit" in
  let p_stl := explicit_or c opts "soft_time_limit" in
  let opts := dict_del opts "soft_time_limit" in
  let p_exp := explicit_or c opts "expires" in
  let opts := dict_del opts "expires" in
  Prepared p_tl p_stl p_exp (default (VInt 0) (dict_get opts "ignore_result")) (dict_del opts "ignore_result").

(** *** Lookups *)

Lemma decide_cons_ne {B} (k k1 : string) ks (x y : B) :
  k ≠ k1 → (if decide (k ∈ k1 :: ks) then x else y) = if decide (k ∈ ks) then x else y.
Proof.
  intros Hne. destruct (decide (k ∈ k1 :: ks)) as [Hin|Hin], (decide (k ∈ ks)) as [Hi|Hi]; try done.
  - by apply elem_of_cons in Hin as [?|?].
  - destruct Hin. by apply list_elem_of_further.
Qed.

Lemma get_attributes (f : string → val) ks k :
  dict_get ((λ k, (k, f k)) <$> ks) k = if decide (k ∈ ks) then Some (f k) else None.
Proof.
  induction ks as [|k1 ks IH]; [done|]. rewrite fmap_cons. cbn [dict_get]. destruct (decide (k = k1)) as [->|Hne].
  - by rewrite decide_True by apply list_elem_of_here.
  - by rewrite decide_cons_ne, IH.
Qed.

Lemma get_non_none (f : string → val) ks k :
  dict_get (non_none ((λ k, (k, f k)) <$> ks)) k = if decide (k ∈ ks) then if is_None (f k) then None else Some (f k) else None.
Proof.
  induction ks as [|k1 ks IH]; [done|]. rewrite fmap_cons. unfold non_none in *. rewrite filter_cons. cbn [snd].
  destruct (decide (k = k1)) as [->|Hne].
  - rewrite (decide_True (P := k1 ∈ k1 :: ks)) by apply list_elem_of_here. destruct (decide (is_None (f k1) = false)) as [E|E].
    + cbn [dict_get]. by rewrite decide_True, E.
    + rewrite IH. apply not_false_is_true in E. rewrite E. by destruct (decide (k1 ∈ ks)).
  - rewrite decide_cons_ne by done. destruct (decide (is_None (f k1) = false)); [|done]. cbn [dict_get]. by rewrite decide_False.
Qed.

Lemma default_non_none t k : default VNone (dict_get (non_none (exec_options t)) k) = default VNone (dict_get (exec_options t) k).
Proof.
  unfold exec_options. rewrite get_non_none, get_attributes. destruct (decide (k ∈ exec_keys)); [|done]. by destruct (tc_attr t k).
Qed.

Lemma merged_get registry c k :
  dict_wf (s_kw c) →
  dict_get (merged_options registry c) k =
  match (if decide (k ∈ send_params) then None else dict_get (s_kw c) k), resolved registry c with
  | Some v, _ => Some v
  | None, Some t => dict_get (non_none (exec_options t)) k
  | None, None => None
  end.
Proof.
  intros Hw. unfold merged_options. set (rest := filter (λ kv, kv.1 ∉ send_params) (s_kw c)).
  assert (dict_get rest k = if decide (k ∈ send_params) then None else dict_get (s_kw c) k) as Hr.
  { unfold rest. etrans; [exact (dict_get_filter_key (V := val) (λ k : string, k ∉ send_params) (s_kw c) k)|]. destruct (decide (k ∈ send_params)); [by rewrite decide_False by tauto|by rewrite decide_True]. }
  rewrite <- Hr. destruct (resolved registry c) as [t|]; [|by destruct (dict_get rest k)].
  assert (dict_wf rest) as Hwr by by apply dict_filter_wf.
  destruct (non_none (exec_options t)) as [|x l] eqn:E; [by destruct (dict_get rest k)|]. rewrite dict_get_update by done. by destruct (dict_get rest k).
Qed.

(** The limit or the expiry of a call: what the caller says, [None] included, else what the task
    says, if it is the task that is looked up by name *)
Definition chosen (registry : string → option task_cls) (c : sending) (k : string) : val :=
  match dict_get (s_kw c) k with
  | Some v => v
  | None => match resolved registry c with Some t => default VNone (dict_get (exec_options t) k) | None => VNone end
  end.

Lemma prepare_chosen registry c :
  dict_wf (s_kw c) →
  p_time_limit (prepare registry c) = chosen registry c "time_limit" ∧
  p_soft_time_limit (prepare registry c) = chosen registry c "soft_time_limit" ∧
  p_expires (prepare registry c) = chosen registry c "expires".
Proof.
  intros Hw. unfold prepare, explicit_or, chosen, popped. simpl. rewrite !dict_get_del_ne by done. rewrite !merged_get by done.
  rewrite !decide_True by (unfold send_params; set_solver). destruct (resolved registry c); rewrite ?default_non_none; done.
Qed.

Section Calling.
Context {msg : Type}.

Inductive event :=
| EAcquire                              (* a producer was taken from the pool *)
| EOnTaskCall (id : val)                (* [backend.on_task_call] *)
| EPublish (name : string) (m : msg) (opts : options)
| ERelease
| ETrail (id : val).                    (* the result becomes a child of the current task *)

Record state := State { log : list event }.
Definition add_log (e : event) (s : state) : state := State (log s ++ [e]).
Abbreviation M := (eff state).

Record conf := Conf { task_always_eager : bool; task_inherit_parent_priority : bool; task_eager_propagates : bool }.

Context (cf : conf) (registry : string → option task_cls) (current_worker_task : option parent).
Context (uuid : val) (thread_oid : val).
Context (route : options → string → val → val → option task_cls → outcome options).
Context (create_task_message : message_args → outcome msg).
Context (maybe_list : val → val) (stamp_names : val → list string).
(** [(maybe_make_aware(date) - now).total_seconds()], for datetimes and for text *)
Context (seconds_until : val → outcome Z) (is_datetime : val → bool).
Context (driver_type : string).
(** arguments of the queues of the application *)
Context (queue_arguments : list (string * options)).
(** type, routing key and exchange of a queue object *)
Context (queue_exchange : val → string * val * val).
Context (calculate_routing_key : Z → val → val) (delayed_exchange : val).
Context (fault : list event → event → option exn).

Definition call (e : event) : M () := λ s,
  (add_log e s, match fault (log s) e with Some x => Raise x | None => Ok () end).

(** *** Native delayed delivery *)

Definition is_quorum (arguments : options) : bool :=
  match dict_get arguments "x-queue-type" with Some (VStr s) => bool_decide (s = "quorum") | _ => false end.

Definition detect_quorum_queues : bool * string :=
  if bool_decide (driver_type = "amqp") then
    match filter (λ q, is_quorum q.2 = true) queue_arguments with
    | (name, _) :: _ => (true, name)
    | [] => (false, "")
    end
  else (false, "").

(** Type and routing key of where the message goes *)
Definition exchange_of (opts : options) : outcome (string * val) :=
  let queue := popped opts "queue" in
  if truthy queue then let '(ty, rk, _) := queue_exchange queue in Ok (ty, rk) else
  let! ty := of_option KeyError (dict_get opts "exchange_type") in
  let! rk := of_option KeyError (dict_get opts "routing_key") in
  let! _ := of_option KeyError (dict_get opts "exchange") in
  Ok (match ty with VStr s => s | _ => "" end, rk).

(** The options and the countdown *)
Definition delay (countdown eta : val) (opts : options) : outcome (options * val) :=
  if negb (truthy eta || truthy countdown) then Ok (opts, countdown) else
  if negb detect_quorum_queues.1 then Ok (opts, countdown) else
  let! (ty, rk) := exchange_of opts in
  if bool_decide (ty = "direct") then Ok (opts, countdown) else
  let! countdown := (if truthy eta then let! s := seconds_until eta in Ok (VInt s) else Ok countdown) in
  match countdown with
  | VInt z => if (0 <? z)%Z then
                Ok (dict_set (dict_set (dict_del opts "queue") "routing_key" (calculate_routing_key z rk)) "exchange" delayed_exchange, countdown)
              else Ok (opts, countdown)
  | v => if truthy v then Raise TypeError else Ok (opts, countdown)
  end.

(** *** Expiry *)

Definition expires_seconds (v : val) : outcome Z :=
  match v with
  | VInt z => Ok z
  | VStr _ => seconds_until v
  | v => if is_datetime v then seconds_until v else Raise TypeError
  end.

Definition set_expiration (expires : val) (opts : options) : outcome options :=
  if is_None expires then Ok opts else
  let! s := expires_seconds expires in
  let s := (if s <? 0 then 0 else s)%Z in
  Ok (dict_set opts "expiration" (VInt s)).

(** *** The parent *)

(** The ids of root and parent, and the options *)
Definition inherit (root_id parent_id : val) (opts : options) : val * val * options :=
  if truthy root_id && truthy parent_id then (root_id, parent_id, opts) else
  match current_worker_task with
  | None => (root_id, parent_id, opts)
  | Some p =>
      (vor root_id (vor (par_root_id p) (par_id p)), vor parent_id (par_id p),
       if task_inherit_parent_priority cf then dict_setdefault opts "priority" (par_priority p) else opts)
  end.

(** *** [send_task] *)

Definition kw (c : sending) (k : string) (d : val) : val := default d (dict_get (s_kw c) k).

(** Removes the stamps: [options.pop(stamp)] raises when there is none *)
Definition drop_stamps (opts : options) : outcome options :=
  let stamped := stamp_names (popped opts "stamped_headers") in
  foldM (λ d h, match dict_get d h with Some _ => Ok (dict_del d h) | None => Raise KeyError end)
    (dict_del opts "stamped_headers") stamped.

(** The message and the options it is sent with *)
Definition make_message (c : sending) (task_id : val) : outcome (msg * options * val) :=
  let p := prepare registry c in
  let route_name := match kw c "route_name" VNone with VStr s => if bool_decide (s = "") then s_name c else s | _ => s_name c end in
  let! opts := route (p_options p) route_name (s_args c) (s_kwargs c) (task_type_of registry c) in
  let! (opts, countdown) := delay (kw c "countdown" VNone) (kw c "eta" VNone) opts in
  let! opts := set_expiration (p_expires p) opts in
  let '(root_id, parent_id, opts) := inherit (kw c "root_id" VNone) (kw c "parent_id" VNone) opts in
  let! m := create_task_message (MsgArgs task_id (s_name c) (s_args c) (s_kwargs c) countdown (kw c "eta" VNone)
    (kw c "group_id" VNone) (kw c "group_index" VNone) (p_expires p) (kw c "retries" (VInt 0)) (kw c "chord" VNone)
    (maybe_list (s_link c)) (maybe_list (s_link_error c)) (vor (kw c "reply_to" VNone) thread_oid)
    (p_time_limit p) (p_soft_time_limit p) root_id parent_id (s_shadow c) (kw c "chain" VNone)
    (p_ignore_result p) (kw c "replaced_task_nesting" (VInt 0)) opts) in
  let! opts := drop_stamps opts in
  Ok (m, opts, p_ignore_result p).

(** [producer_or_acquire]: a producer or connection of the caller is used as it is *)
Definition own_producer (c : sending) : bool :=
  truthy (kw c "producer" VNone) || truthy (kw c "publisher" VNone) || truthy (kw c "connection" VNone).

Definition with_producer (own : bool) (body : M ()) : M () :=
  if own then body else
  do! s := eget log in
  match fault s EAcquire with
  | Some x => eraise x
  | None => run! emodify (add_log EAcquire) in efinally body (emodify (add_log ERelease))
  end.

(** The backend is told first *)
Definition publish (ignored : bool) (task_id : val) (e : event) : M () :=
  run! ewhen (negb ignored) (call (EOnTaskCall task_id)) in call e.

Definition trail (c : sending) (task_id : val) : M () :=
  match current_worker_task with
  | Some p => ewhen (truthy (kw c "add_to_parent" (VInt 1)) && par_trail p) (emodify (add_log (ETrail task_id)))
  | None => eret ()
  end.

(** The id of the result *)
Definition send_task (c : sending) : M val :=
  let task_id := vor (s_task_id c) uuid in
  do! (m, opts, ignore_result) := elift (make_message c task_id) in
  run! with_producer (own_producer c) (publish (truthy ignore_result) task_id (EPublish (s_name c) m opts)) in
  run! trail c task_id in
  eret task_id.

(** *** [apply_async] *)

Context (check_arguments : task_cls → val → val → outcome ()).
Context (shadow_name : task_cls → val → val → options → val).
Context (apply : task_cls → val → val → val → val → val → options → M val).
(** arguments through the serializer and back *)
Context (serialized : options → val → val → outcome (val * val)).

Definition limits_in_order (t : task_cls) : bool :=
  match tc_attr t "soft_time_limit", tc_attr t "time_limit" with
  | VInt s, VInt h => (s =? 0)%Z || (h =? 0)%Z || (s <=? h)%Z
  | _, _ => true
  end.

Definition async_options (t : task_cls) (kwargs : options) : options :=
  let opts := dict_update (exec_options t) kwargs in
  let opts := dict_setdefault opts "ignore_result" (tc_attr t "ignore_result") in
  if truthy (tc_attr t "priority") then dict_setdefault opts "priority" (tc_attr t "priority") else opts.

(** Parameters of [send_task] that [apply_async] gives itself *)
Definition given_twice (opts : options) : bool :=
  dict_in opts "name" || dict_in opts "result_cls" || dict_in opts "task_type".

Definition apply_async (t : task_cls) (a k task_id link link_error shadow : val) (kwargs : options) : M val :=
  if negb (limits_in_order t) then eraise ValueError else
  run! (if truthy (tc_attr t "typing") then elift (check_arguments t a k) else eret ()) in
  let shadow := vor shadow (shadow_name t a k kwargs) in
  let opts := async_options t kwargs in
  if task_always_eager cf then
    do! (a, k) := elift (serialized opts a k) in
    apply t a k (vor task_id uuid) link link_error opts
  else if given_twice opts then eraise TypeError
  else send_task (Sending (tc_name t) a k task_id link link_error shadow (Some t) opts).

(** ** What is published, and when *)

Definition never_diverges : Prop :=
  (∀ o n a k t, route o n a k t ≠ Diverge) ∧ (∀ x, create_task_message x ≠ Diverge) ∧ (∀ v, seconds_until v ≠ Diverge).

Lemma obind_ends {A B} (c : outcome A) (k : A → outcome B) : c ≠ Diverge → (∀ a, k a ≠ Diverge) → obind c k ≠ Diverge.
Proof. by destruct c; simpl; auto. Qed.

Lemma foldM_ends {A B} (f : A → B → outcome A) l x : (∀ a b, f a b ≠ Diverge) → foldM f x l ≠ Diverge.
Proof. intros Hf. revert x. induction l as [|b l IH]; intros x; simpl; [done|]. by apply obind_ends. Qed.

Lemma of_option_ends {A} e (o : option A) : of_option e o ≠ Diverge.
Proof. by destruct o. Qed.

Lemma exchange_of_ends opts : exchange_of opts ≠ Diverge.
Proof.
  unfold exchange_of. destruct (truthy _); [by destruct (queue_exchange _) as [[??]?]|].
  repeat (apply obind_ends; [apply of_option_ends|intros ?]). done.
Qed.

Lemma delay_ends countdown eta opts : (∀ v, seconds_until v ≠ Diverge) → delay countdown eta opts ≠ Diverge.
Proof.
  intros Hs. unfold delay. destruct (negb _); [done|]. destruct (negb _); [done|]. apply obind_ends; [apply exchange_of_ends|].
  intros [ty rk]. case_bool_decide; [done|]. apply obind_ends; [destruct (truthy eta); [by apply obind_ends|done]|].
  intros cd. repeat (case_match; try done).
Qed.

Lemma make_message_ends c id : never_diverges → make_message c id ≠ Diverge.
Proof.
  intros (Hr & Hc & Hs). unfold make_message. apply obind_ends; [apply Hr|]. intros o1. apply obind_ends; [by apply delay_ends|].
  intros [o2 cd]. apply obind_ends.
  { unfold set_expiration. case_match; [done|]. apply obind_ends; [|done]. unfold expires_seconds. repeat case_match; try done; apply Hs. }
  intros o3. destruct (inherit _ _ o3) as [[ri pi] o4]. apply obind_ends; [apply Hc|]. intros m. apply obind_ends; [|done].
  apply foldM_ends. intros d h. by case_match.
Qed.

Lemma call_spec e s : ∃ r, call e s = (add_log e s, r) ∧ (r = Ok () ∨ ∃ x, r = Raise x).
Proof. unfold call. eexists. split; [done|]. destruct (fault _ _); eauto. Qed.

(** What a program with a producer logs and how it ends *)
Lemma with_producer_spec own body s s' r :
  (∀ s, ∃ l, log (body s).1 = (log s ++ l)%list) → with_producer own body s = (s', r) →
  (∃ x, s' = s ∧ r = Raise x) ∨
  ∃ t l, log t = (log s ++ (if own then [] else [EAcquire]))%list ∧ log (body t).1 = (log t ++ l)%list ∧ r = (body t).2 ∧
    log s' = (log s ++ (if own then l else EAcquire :: l ++ [ERelease]))%list.
Proof.
  intros Hb H. unfold with_producer in H. destruct own.
  - right. destruct (Hb s) as [l Hl]. exists s, l. rewrite app_nil_r. rewrite H in Hl |- *. done.
  - rewrite ebind_get in H. destruct (fault (log s) EAcquire) as [x|]; [unfold eraise in H; left; exists x; by simplify_eq|].
    right. rewrite ebind_modify in H. destruct (Hb (add_log EAcquire s)) as [l Hl]. exists (add_log EAcquire s), l.
    unfold efinally in H. destruct (body (add_log EAcquire s)) as [v r'] eqn:E. simpl in *. simplify_eq. split_and!; try done.
    simpl. rewrite Hl. by rewrite <- !app_assoc.
Qed.

Lemma publish_spec ign id e t :
  (publish ign id e t).2 = Ok () ∧ log (publish ign id e t).1 = (log t ++ (if ign then [] else [EOnTaskCall id]) ++ [e])%list ∨
  ∃ x, (publish ign id e t).2 = Raise x ∧
    (log (publish ign id e t).1 = (log t ++ [EOnTaskCall id])%list ∨
     log (publish ign id e t).1 = (log t ++ (if ign then [] else [EOnTaskCall id]) ++ [e])%list).
Proof.
  unfold publish. destruct ign; cbn [negb ewhen].
  - rewrite (ebind_Ok _ _ _ t ()) by done. destruct (call_spec e t) as (r1 & -> & [->|[x ->]]); [by left|right; exists x; auto].
  - destruct (call_spec (EOnTaskCall id) t) as (r1 & E1 & [->|[x ->]]).
    + rewrite (ebind_Ok _ _ _ _ _ E1). destruct (call_spec e (add_log (EOnTaskCall id) t)) as (r2 & -> & [->|[x ->]]); simpl; rewrite <- app_assoc; [by left|right; exists x; auto].
    + rewrite (ebind_Raise _ _ _ _ _ E1). right. exists x. auto.
Qed.

Lemma publish_logs ign id e t : ∃ l, log (publish ign id e t).1 = (log t ++ l)%list.
Proof. destruct (publish_spec ign id e t) as [[_ ->]|(x & _ & [->| ->])]; by eexists. Qed.

(** C9: A call is published at most once, after the backend knows of it.  [send_task] ends.  If
    it returns, then the id it returns is the one the caller gave, or a new one; the producer was
    acquired (unless it is the caller's) and released, the backend was told of the task unless
    results are ignored, then the message was published, and then the result became a child of
    the task being executed, if any.  If it raises, nothing was published, or the publication
    itself raised; the producer was released, and no child is recorded. *)
Theorem send_task_order c s s' r :
  never_diverges → send_task c s = (s', r) →
  let id := vor (s_task_id c) uuid in
  let held (l : list event) := if own_producer c then l else EAcquire :: l ++ [ERelease] in
  r ≠ Diverge ∧
  (∀ v, r = Ok v → v = id ∧ ∃ m opts ign tr, make_message c id = Ok (m, opts, ign) ∧
    log s' = (log s ++ held ((if truthy ign then [] else [EOnTaskCall id]) ++ [EPublish (s_name c) m opts]) ++ tr)%list ∧
    (tr = [ETrail id] ∧ current_worker_task ≠ None ∨ tr = [])) ∧
  (∀ e, r = Raise e → log s' = log s ∨
    ∃ m opts ign, make_message c id = Ok (m, opts, ign) ∧
      (log s' = (log s ++ held [EOnTaskCall id])%list ∨
       log s' = (log s ++ held ((if truthy ign then [] else [EOnTaskCall id]) ++ [EPublish (s_name c) m opts]))%list)).
Proof.
  intros Hnd H id held. unfold send_task in H. fold id in H.
  pose proof (make_message_ends c id Hnd) as Hm. destruct (make_message c id) as [[[m opts] ign]|e|] eqn:Em; [| |done].
  2: { unfold ebind, elift in H. simplify_eq. split_and!; [done..|]. intros e' _. by left. }
  rewrite (ebind_Ok _ _ _ s (m, opts, ign)) in H by done. simpl in H.
  set (pub := EPublish (s_name c) m opts) in *. 
  destruct (with_producer (own_producer c) (publish (truthy ign) id pub) s) as [t r1] eqn:Ew.
  destruct (with_producer_spec _ _ _ _ _ (publish_logs (truthy ign) id pub) Ew) as [(x & -> & ->)|(v & l & Hv & Hl & -> & Hlog)].
  { rewrite (ebind_Raise _ _ _ _ _ Ew) in H. simplify_eq. split_and!; [done..|]. intros e _. by left. }
  destruct (publish_spec (truthy ign) id pub v) as [[Hok Hpl]|(x & Hx & Hpl)].
  - rewrite Hl in Hpl. apply app_inv_head in Hpl as ->. rewrite Hok in Ew. rewrite (ebind_Ok _ _ _ _ _ Ew) in H. clear Hok Ew.
    assert (∃ tr, log (trail c id t).1 = (log t ++ tr)%list ∧ (trail c id t).2 = Ok () ∧ (tr = [ETrail id] ∧ current_worker_task ≠ None ∨ tr = [])) as (tr & Htr & Hok & Hcase).
    { unfold trail. destruct current_worker_task as [p|]; [|exists []; rewrite app_nil_r; by auto].
      destruct (_ && _); [exists [ETrail id]; by auto|exists []; rewrite app_nil_r; by auto]. }
    destruct (trail c id t) as [w r2] eqn:Et. simpl in *. subst r2. rewrite (ebind_Ok _ _ _ _ _ Et) in H. unfold eret in H. simplify_eq.
    split_and!; [done| |done]. intros v' [= <-]. split; [done|]. exists m, opts, ign, tr. split_and!; [done| |done].
    rewrite Htr, Hlog. unfold held. destruct (own_producer c); by rewrite <- !app_assoc.
  - rewrite Hx in Ew. rewrite (ebind_Raise _ _ _ _ _ Ew) in H. simplify_eq. split_and!; [done..|]. intros e _. right. exists m, opts, ign. split; [done|].
    rewrite Hlog. destruct Hpl as [Hpl|Hpl]; rewrite Hl in Hpl; apply app_inv_head in Hpl as ->; [by left|by right].
Qed.

(** ** What the message says *)

(** A message says what the call, the task and the parent say.  The message is made with the
    id of the call; its limits and its expiry are what the caller gave, where giving [None] counts,
    else what the task looked up by name has; root and parent are what the caller gave, else those
    of the task being executed; and if the call expires, the broker is told to expire the message
    after that many seconds, at once if the time is past. *)
Theorem message_says c id m opts ign :
  dict_wf (s_kw c) → make_message c id = Ok (m, opts, ign) →
  ∃ x, create_task_message x = Ok m ∧ ma_task_id x = id ∧ ma_name x = s_name c ∧
    ma_time_limit x = chosen registry c "time_limit" ∧ ma_soft_time_limit x = chosen registry c "soft_time_limit" ∧
    ma_expires x = chosen registry c "expires" ∧
    ma_root_id x = vor (kw c "root_id" VNone) (match current_worker_task with Some p => vor (par_root_id p) (par_id p) | None => kw c "root_id" VNone end) ∧
    ma_parent_id x = vor (kw c "parent_id" VNone) (match current_worker_task with Some p => par_id p | None => kw c "parent_id" VNone end) ∧
    (is_None (ma_expires x) = false → ∃ s, expires_seconds (ma_expires x) = Ok s ∧ dict_get (ma_options x) "expiration" = Some (VInt (Z.max 0 s))).
Proof.
  intros Hw H. destruct (prepare_chosen registry c Hw) as (H1 & H2 & H3). unfold make_message in H.
  apply obind_Ok in H as (o1 & _ & H). apply obind_Ok in H as ([o2 cd] & _ & H). apply obind_Ok in H as (o3 & He & H).
  destruct (inherit (kw c "root_id" VNone) (kw c "parent_id" VNone) o3) as [[ri pi] o4] eqn:Hi.
  apply obind_Ok in H as (m' & Hm & H). apply obind_Ok in H as (o5 & _ & H). simplify_eq.
  eexists. split; [exact Hm|]. cbn [ma_task_id ma_name ma_time_limit ma_soft_time_limit ma_expires ma_root_id ma_parent_id ma_options].
  assert (∀ v, dict_get o3 "expiration" = Some v → dict_get o4 "expiration" = Some v) as Ho.
  { unfold inherit in Hi. destruct (_ && _); [by simplify_eq|]. destruct current_worker_task; simplify_eq; [|done].
    destruct (task_inherit_parent_priority cf); [|done]. intros v Hv. unfold dict_setdefault. destruct (dict_get o3 "priority"); [done|]. by rewrite dict_get_set_ne. }
  split_and!; try done.
  - unfold inherit, vor in *. destruct (truthy (kw c "root_id" VNone)), (truthy (kw c "parent_id" VNone)); simpl in Hi;
      destruct current_worker_task; by simplify_eq.
  - unfold inherit, vor in *. destruct (truthy (kw c "root_id" VNone)), (truthy (kw c "parent_id" VNone)); simpl in Hi;
      destruct current_worker_task; by simplify_eq.
  - rewrite H3 in He |- *. intros Hn. unfold set_expiration in He. rewrite Hn in He. apply obind_Ok in He as (z & Hz & [= <-]).
    exists z. split; [done|]. apply Ho. rewrite dict_get_set_eq. do 2 f_equal. destruct (Z.ltb_spec z 0); lia.
Qed.

End Calling.

(** ** Two ways to call *)

Section ByName.
Context (registry : string → option task_cls).


Lemma exec_options_wf t : dict_wf (exec_options t).
Proof. unfold dict_wf, dict_keys, exec_options. rewrite <- list_fmap_compose. apply (bool_decide_unpack (NoDup exec_keys)). by vm_compute. Qed.

Lemma options_setdefault_wf (d : options) k v : dict_wf d → dict_wf (dict_setdefault d k v).
Proof. unfold dict_setdefault. destruct (dict_get d k); [done|apply dict_set_wf]. Qed.

Lemma async_options_wf t kwargs : dict_wf (async_options t kwargs).
Proof.
  unfold async_options. assert (dict_wf (dict_setdefault (dict_update (exec_options t) kwargs) "ignore_result" (tc_attr t "ignore_result"))) as H
    by (apply options_setdefault_wf, dict_update_wf, exec_options_wf). destruct (truthy _); [by apply options_setdefault_wf|done].
Qed.

Lemma get_setdefault (d : options) k v k' :
  dict_get (dict_setdefault d k v) k' = match dict_get d k' with Some w => Some w | None => if decide (k = k') then Some v else None end.
Proof.
  unfold dict_setdefault. destruct (dict_get d k) as [w|] eqn:E.
  - destruct (decide (k = k')) as [<-|]; [by rewrite E|by destruct (dict_get d k')].
  - rewrite dict_get_set. case_decide as Hk; [subst; by rewrite E|by destruct (dict_get d k')].
Qed.

Lemma async_get t kwargs k :
  dict_wf kwargs → dict_get (async_options t kwargs) k =
  match dict_get kwargs k with
  | Some v => Some v
  | None => if decide (k ∈ exec_keys) then Some (tc_attr t k) else if decide (k = "ignore_result") then Some (tc_attr t k) else None
  end.
Proof.
  intros Hw. assert (dict_get (dict_update (exec_options t) kwargs) k = match dict_get kwargs k with Some v => Some v | None => if decide (k ∈ exec_keys) then Some (tc_attr t k) else None end) as Hu.
  { rewrite dict_get_update by done. destruct (dict_get kwargs k); [done|]. apply get_attributes. }
  assert (dict_get (dict_setdefault (dict_update (exec_options t) kwargs) "ignore_result" (tc_attr t "ignore_result")) k =
    match dict_get kwargs k with Some v => Some v | None => if decide (k ∈ exec_keys) then Some (tc_attr t k) else if decide (k = "ignore_result") then Some (tc_attr t k) else None end) as Hi.
  { rewrite get_setdefault, Hu. destruct (dict_get kwargs k); [done|]. destruct (decide (k ∈ exec_keys)); [done|].
    destruct (decide ("ignore_result" = k)) as [<-|]; [by rewrite decide_True|by rewrite decide_False]. }
  unfold async_options. destruct (truthy _); [|done]. rewrite get_setdefault, Hi. destruct (dict_get kwargs k); [done|].
  destruct (decide (k ∈ exec_keys)) as [|Hk]; [done|]. rewrite (decide_False (P := "priority" = k)); [by case_decide|].
  intros <-. apply Hk. unfold exec_keys. set_solver.
Qed.

Lemma in_both key : key ∈ exec_keys → key ∈ send_params → key ∈ ["time_limit"; "soft_time_limit"; "expires"].
Proof. unfold exec_keys, send_params. set_solver. Qed.

Definition taken_out : list string := ["time_limit"; "soft_time_limit"; "expires"; "ignore_result"].

Lemma merged_wf c : dict_wf (s_kw c) → dict_wf (merged_options registry c).
Proof.
  intros Hw. unfold merged_options. assert (dict_wf (filter (λ kv : string * val, kv.1 ∉ send_params) (s_kw c))) as Hr by by apply dict_filter_wf.
  destruct (resolved registry c) as [t|]; [|done]. pose proof (dict_filter_wf (λ kv, is_None kv.2 = false) _ (exec_options_wf t)) as He. fold (non_none (exec_options t)) in He.
  destruct (non_none (exec_options t)); [done|]. by apply dict_update_wf.
Qed.

Lemma prepare_options c key :
  dict_wf (s_kw c) → popped (p_options (prepare registry c)) key = if decide (key ∈ taken_out) then VNone else popped (merged_options registry c) key.
Proof.
  intros Hw. pose proof (merged_wf c Hw) as Hm. unfold prepare, popped. simpl.
  assert (∀ (d : options) k, dict_wf d → dict_wf (dict_del d k) ∧ ∀ k', dict_get (dict_del d k) k' = if decide (k = k') then None else dict_get d k') as Hd.
  { intros d k Hdw. split; [by apply dict_del_wf|]. intros k'. case_decide; [subst; by apply dict_get_del_eq|by apply dict_get_del_ne]. }
  destruct (Hd (merged_options registry c) "time_limit" Hm) as [W1 G1]. destruct (Hd _ "soft_time_limit" W1) as [W2 G2].
  destruct (Hd _ "expires" W2) as [W3 G3]. destruct (Hd _ "ignore_result" W3) as [_ G4]. rewrite G4, G3, G2, G1. clear.
  unfold taken_out. case_decide as Hin.
  - repeat case_decide; try done. exfalso. set_solver.
  - repeat case_decide; subst; try done; exfalso; set_solver.
Qed.

(** Calling a registered task by name is like calling the task.  For the same keyword
    arguments, [send_task] with the name of a task and [apply_async] of that task give the message
    the same limits and expiry, and pass the same options to the router, where an option that is
    [None] counts as one that is missing. *)
Theorem by_name_agrees t a k id link link_error shadow shadow' kwargs key :
  registry (tc_name t) = Some t → dict_wf kwargs →
  let by_name := prepare registry (Sending (tc_name t) a k id link link_error shadow None kwargs) in
  let by_task := prepare registry (Sending (tc_name t) a k id link link_error shadow' (Some t) (async_options t kwargs)) in
  p_time_limit by_name = p_time_limit by_task ∧ p_soft_time_limit by_name = p_soft_time_limit by_task ∧ p_expires by_name = p_expires by_task ∧
  popped (p_options by_name) key = popped (p_options by_task) key.
Proof.
  intros Hr Hw by_name by_task.
  assert (dict_wf (async_options t kwargs)) as Hwa by by apply async_options_wf.
  set (cn := Sending (tc_name t) a k id link link_error shadow None kwargs). set (ct := Sending (tc_name t) a k id link link_error shadow' (Some t) (async_options t kwargs)).
  destruct (prepare_chosen registry cn Hw) as (N1 & N2 & N3). destruct (prepare_chosen registry ct Hwa) as (T1 & T2 & T3).
  assert (∀ k, k ∈ exec_keys → chosen registry cn k = chosen registry ct k) as Hch.
  { intros k' Hk. unfold chosen, resolved, cn, ct. cbn [s_kw s_task_type s_name]. rewrite Hr, (async_get _ _ _ Hw). destruct (dict_get kwargs k') as [v|]; [done|].
    unfold exec_options. rewrite get_attributes, !decide_True by done. done. }
  unfold by_name, by_task. fold cn ct. rewrite N1, N2, N3, T1, T2, T3. split_and!; try (apply Hch; unfold exec_keys; set_solver).
  rewrite !prepare_options by done. case_decide as Hkey; [done|]. unfold popped. rewrite !merged_get by done. unfold resolved, cn, ct. cbn [s_kw s_task_type s_name]. rewrite Hr.
  destruct (decide (key ∈ send_params)) as [Hs|Hs].
  - unfold exec_options. rewrite get_non_none. rewrite decide_False; [done|]. intros Hk. apply Hkey. pose proof (in_both key Hk Hs). unfold taken_out. set_solver.
  - rewrite (async_get _ _ _ Hw). destruct (dict_get kwargs key) as [v|]; [done|]. simpl. rewrite default_non_none.
    unfold exec_options. rewrite get_attributes. case_decide; [done|]. case_decide; [|done]. subst. by destruct Hkey; set_solver.
Qed.

End ByName.

(** ** Local execution *)

Section Apply.
Context (uuid : val) (maybe_list : val → val) (stamp_names : val → list string).
Context (task_eager_propagates : val).

(** The request of a task that is executed where it is called *)
Record eager_request := EagerRequest {
  e_id : val; e_task : string; e_parent_id : val; e_root_id : val; e_retries : Z; e_logfile : val; e_loglevel : val;
  e_callbacks : val; e_errbacks : val; e_headers : val; e_timelimit : option (val * val); e_ignore_result : val;
  e_delivery_info : options; e_stamps : option (val * options); e_args : val; e_kwargs : val; e_throw : val }.

Definition int_of (v : val) : Z := match v with VInt z => z | _ => 0 end.

(** [top] is the task on top of the stack, if it has a request *)
Definition build_request (t : task_cls) (top : option parent) (a k : val) (o : options) : eager_request :=
  let id := vor (popped o "task_id") uuid in
  let '(parent_id, root_id) := match top with Some p => (par_id p, vor (par_root_id p) id) | None => (VNone, id) end in
  EagerRequest id (tc_name t) parent_id root_id (int_of (vor (popped o "retries") (VInt 0))) (popped o "logfile") (vor (popped o "loglevel") (VInt 0))
    (maybe_list (popped o "link")) (maybe_list (popped o "link_error")) (popped o "headers")
    (if is_None (tc_attr t "time_limit") && is_None (tc_attr t "soft_time_limit") then None
     else Some (tc_attr t "time_limit", tc_attr t "soft_time_limit"))
    (default (VInt 0) (dict_get o "ignore_result"))
    [("is_eager", VInt 1); ("exchange", popped o "exchange"); ("routing_key", popped o "routing_key"); ("priority", popped o "priority")]
    (match dict_get o "stamped_headers" with
     | Some h => let h := maybe_list h in Some (h, (λ n, (n, maybe_list (popped o n))) <$> stamp_names h)
     | None => None
     end)
    (vor a (VObj 0)) (vor k (VDict []))  (* the empty tuple and dictionary *)
    (match popped o "throw" with VNone => task_eager_propagates | v => v end).

(** What the tracer returns: a value or an exception with the state, or a retry with the
    signature that would be sent *)
Inductive traced :=
| Done (retval : val) (state : string)
| Again (retval : val) (sig : option (val * val * options)).

Record eager_result := EagerResult { er_id : val; er_value : val; er_state : string; er_name : string }.

Context (tracer : eager_request → outcome traced) (top : option parent).

(** [Task.apply]; the signature of a retry is applied in turn *)
Fixpoint apply (fuel : nat) (t : task_cls) (a k : val) (o : options) : outcome eager_result :=
  match fuel with
  | 0%nat => Diverge
  | S fuel =>
      let req := build_request t top a k o in
      let! ret := tracer req in
      match ret with
      | Done v st => Ok (EagerResult (e_id req) v st (tc_name t))
      | Again v None => Ok (EagerResult (e_id req) v "RETRY" (tc_name t))
      | Again v (Some (a', k', o')) => apply fuel t a' k' (dict_set o' "retries" (VInt (e_retries req + 1)))
      end
  end.

Lemma build_id t tp a k o : e_id (build_request t tp a k o) = vor (popped o "task_id") uuid.
Proof. unfold build_request. by destruct tp. Qed.

Lemma build_retries t tp a k o : e_retries (build_request t tp a k o) = int_of (vor (popped o "retries") (VInt 0)).
Proof. unfold build_request. by destruct tp. Qed.

Lemma build_retry t a' k' o' (first : eager_request) :
  dict_get o' "task_id" = Some (e_id first) → truthy (e_id first) = true →
  let next := build_request t top a' k' (dict_set o' "retries" (VInt (e_retries first + 1))) in
  e_id next = e_id first ∧ e_retries next = e_retries first + 1.
Proof.
  intros Hid Ht next. unfold next. rewrite build_id, build_retries. unfold popped. rewrite dict_get_set_ne, Hid, dict_get_set_eq by done.
  unfold vor. simpl. rewrite Ht. split; [done|]. destruct (Z.eqb_spec (e_retries first + 1) 0); simpl; lia.
Qed.

(** A task that is executed locally is executed at most once more for each retry it has left.
    If the task asks to be retried only while its request has fewer retries than [m], and keeps its
    id when it does, then applying it ends, with the outcome of the last execution, under the id of
    the first. *)
Theorem apply_ends t m a k o :
  (∀ r v a' k' o', tracer r = Ok (Again v (Some (a', k', o'))) → e_retries r < m ∧ dict_get o' "task_id" = Some (e_id r)) →
  (∀ r, tracer r ≠ Diverge) → truthy (vor (popped o "task_id") uuid) = true →
  let first := build_request t top a k o in
  ∃ r, apply (S (Z.to_nat (m - e_retries first))) t a k o = r ∧
    (∀ v, r = Ok v → er_id v = e_id first ∧ er_name v = tc_name t ∧
      ∃ last, e_id last = e_id first ∧ e_retries first <= e_retries last <= Z.max m (e_retries first) ∧
        (tracer last = Ok (Done (er_value v) (er_state v)) ∨ tracer last = Ok (Again (er_value v) None) ∧ er_state v = "RETRY")) ∧
    r ≠ Diverge.
Proof.
  intros Ha Hd Ht first. eexists. split; [done|]. revert a k o Ht first.
  assert (∀ n a k o, truthy (vor (popped o "task_id") uuid) = true → let first := build_request t top a k o in
    m - e_retries first <= Z.of_nat n →
    (∀ v, apply (S n) t a k o = Ok v → er_id v = e_id first ∧ er_name v = tc_name t ∧
      ∃ last, e_id last = e_id first ∧ e_retries first <= e_retries last <= Z.max m (e_retries first) ∧
        (tracer last = Ok (Done (er_value v) (er_state v)) ∨ tracer last = Ok (Again (er_value v) None) ∧ er_state v = "RETRY")) ∧
    apply (S n) t a k o ≠ Diverge) as H; [|intros a k o Ht first; apply (H (Z.to_nat (m - e_retries first)) a k o Ht); fold first; clear; lia].
  induction n as [|n IH]; intros a k o Ht first Hn; cbn [apply]; fold first; pose proof (Hd first) as Hdf;
    destruct (tracer first) as [[v st|v [[[a' k'] o']|]]|e|] eqn:E; simpl; try done;
    try (split; [intros v0 [= <-]; split_and!; [done..|]; exists first; split_and!; [done|lia|lia|auto]|done]).
  - destruct (Ha _ _ _ _ _ E) as [Hr _]. lia.
  - destruct (Ha _ _ _ _ _ E) as [Hr Hid]. destruct (build_retry t a' k' o' first) as [Ei Er]; [done|unfold first; by rewrite build_id|].
    set (o2 := dict_set o' "retries" (VInt (e_retries first + 1))) in *.
    destruct (IH a' k' o2) as [Hok Hnd].
    + rewrite <- (build_id t top a' k'), Ei. unfold first. by rewrite build_id.
    + rewrite Er. lia.
    + change (match n with 0%nat => _ | S _ => _ end) with (apply (S n) t a' k' o2).
      split; [|done]. intros v0 Hv. destruct (Hok v0 Hv) as (H1 & H2 & last & H3 & H4 & H5). rewrite Ei in H1, H3. rewrite Er in H4.
      split_and!; [done..|]. exists last. split_and!; [done|lia|lia|done].
Qed.
End Apply.
End Calling.

(** ** Examples *)
Module CallingExamples.
Import TaskRetry Calling.
Local Open Scope string_scope.

Definition attrs (k : string) : val :=
  if bool_decide (k = "time_limit") then VInt 60 else if bool_decide (k = "expires") then VInt 10 else
  if bool_decide (k = "queue") then VStr "slow" else VNone.
Definition add : task_cls := TaskCls "tasks.add" attrs.
Definition reg (n : string) : option task_cls := if bool_decide (n = "tasks.add") then Some add else None.
Definition cf : conf := Conf false false false.
Definition worker : parent := Parent (VStr "parent") (VStr "root") (VInt 3) true.

Definition route_all (o : options) (n : string) (a k : val) (t : option task_cls) : outcome options := Ok o.
(** a message is what it was made from *)
Definition create (x : message_args) : outcome message_args := Ok x.
Definition quiet (l : list (event (msg := message_args))) (e : event (msg := message_args)) : option exn := None.
Definition no_seconds (v : val) : outcome Z := Raise ValueError.

Definition make := make_message cf reg (Some worker) (VStr "oid") route_all create (λ v, v) (λ _, []) no_seconds (λ _, false) "redis" [] (λ _, ("direct", VNone, VNone)) (λ _ v, v) VNone.
Definition send := send_task cf reg (Some worker) (VStr "new-id") (VStr "oid") route_all create (λ v, v) (λ _, []) no_seconds (λ _, false) "redis" [] (λ _, ("direct", VNone, VNone)) (λ _ v, v) VNone quiet.

(** By name, with the expiry cleared *)
Definition by_name : sending := Sending "tasks.add" (VObj 1) (VDict []) VNone VNone VNone VNone None [("expires", VNone); ("soft_time_limit", VInt 30)].

Lemma send_task_order_witness :
  ∃ s', send by_name (State []) = (s', Ok (VStr "new-id")) ∧
    ∃ m opts, log s' = [EAcquire; EOnTaskCall (VStr "new-id"); EPublish "tasks.add" m opts; ERelease; ETrail (VStr "new-id")].
Proof.
  destruct (send by_name (State [])) as [s' r] eqn:E.
  destruct (send_task_order cf reg (Some worker) (VStr "new-id") (VStr "oid") route_all create (λ v, v) (λ _, []) no_seconds (λ _, false) "redis" []
    (λ _, ("direct", VNone, VNone)) (λ _ v, v) VNone quiet by_name (State []) s' r) as (_ & Hok & _); [done|exact E|].
  vm_compute in E. injection E as <- <-. exists (State [EAcquire; EOnTaskCall (VStr "new-id");
    EPublish "tasks.add" (MsgArgs (VStr "new-id") "tasks.add" (VObj 1) (VDict []) VNone VNone VNone VNone VNone (VInt 0) VNone VNone VNone (VStr "oid")
      (VInt 60) (VInt 30) (VStr "root") (VStr "parent") VNone VNone (VInt 0) (VInt 0) [("queue", VStr "slow")]) [("queue", VStr "slow")]; ERelease; ETrail (VStr "new-id")]).
  split; [by destruct (Hok _ eq_refl) as [-> _]|]. by eexists _, _.
Defined.

Lemma message_says_witness :
  ∃ x, create x = Ok x ∧ ma_time_limit x = VInt 60 ∧ ma_soft_time_limit x = VInt 30 ∧ ma_expires x = VNone ∧ ma_root_id x = VStr "root" ∧ ma_parent_id x = VStr "parent".
Proof.
  destruct (make by_name (VStr "new-id")) as [[[m opts] ign]|e|] eqn:E; [|vm_compute in E; discriminate..].
  destruct (message_says cf reg (Some worker) (VStr "oid") route_all create (λ v, v) (λ _, []) no_seconds (λ _, false) "redis" []
    (λ _, ("direct", VNone, VNone)) (λ _ v, v) VNone by_name (VStr "new-id") m opts ign) as (x & Hx & _ & _ & H1 & H2 & H3 & H4 & H5 & _).
  - apply (bool_decide_unpack (NoDup ["expires"; "soft_time_limit"])). by vm_compute.
  - exact E.
  - exists x. split; [done|]. rewrite H1, H2, H3, H4, H5. by vm_compute.
Defined.

Lemma by_name_agrees_witness :
  p_time_limit (prepare reg (Sending "tasks.add" VNone VNone VNone VNone VNone VNone None [("expires", VInt 5)])) =
  p_time_limit (prepare reg (Sending "tasks.add" VNone VNone VNone VNone VNone VNone (Some add) (async_options add [("expires", VInt 5)]))).
Proof. apply (by_name_agrees reg add VNone VNone VNone VNone VNone VNone VNone [("expires", VInt 5)] "queue"); [done|]. apply (bool_decide_unpack (NoDup ["expires"])). by vm_compute. Defined.

(** A task that asks for a retry twice *)
Definition twice (r : eager_request) : outcome traced :=
  if (e_retries r <? 2)%Z then Ok (Again (VStr "retry") (Some (e_args r, e_kwargs r, [("task_id", e_id r)]))) else Ok (Done (VInt 42) "SUCCESS").

Lemma apply_ends_witness :
  apply (VStr "new-id") (λ v, v) (λ _, []) (VInt 0) twice None 3 add VNone VNone [] = Ok (EagerResult (VStr "new-id") (VInt 42) "SUCCESS" "tasks.add").
Proof.
  destruct (apply_ends (VStr "new-id") (λ v, v) (λ _, []) (VInt 0) twice None add 2 VNone VNone []) as (r & Hr & Hok & Hnd).
  - intros r v a k o. unfold twice. destruct (Z.ltb_spec (e_retries r) 2); [|done]. intros [= <- <- <- <-]. by split.
  - intros r. unfold twice. by case_match.
  - done.
  - vm_compute in Hr. subst r. destruct (Hok _ eq_refl) as [<- _]. by vm_compute.
Defined.

(** [apply_async] is documented to raise when the soft time limit is above the hard one, but it
    looks at the limits of the task only, not at those of the call *)
Definition bad_limits : options := [("time_limit", VInt 5); ("soft_time_limit", VInt 50)].

Example reversed_limits_sent :
  let '(s, r) := apply_async cf reg None (VStr "new-id") (VStr "oid") route_all create (λ v, v) (λ _, []) no_seconds (λ _, false) "redis" []
    (λ _, ("direct", VNone, VNone)) (λ _ v, v) VNone quiet (λ _ _ _, Ok ()) (λ _ _ _ _, VNone) (λ _ _ _ _ _ _ _, eraise OtherExc) (λ _ a k, Ok (a, k))
    add VNone VNone VNone VNone VNone VNone bad_limits (State []) in
  r = Ok (VStr "new-id") ∧ ∃ m opts, EPublish "tasks.add" m opts ∈ log s ∧ ma_time_limit m = VInt 5 ∧ ma_soft_time_limit m = VInt 50.
Proof. vm_compute. split; [done|]. eexists _, _. split; [apply list_elem_of_further, list_elem_of_further, list_elem_of_here|done]. Qed.
End CallingExamples.
