(* ===== verification/AsyncResults.v ===== *)
(** Results that arrive as messages (celery/backends/asynchronous.py): results that wait,
    messages that came too early, buckets that collect the results of a group, and the loop
    that drains events until a result is ready.

    Result objects have addresses; their ids need not differ.  Messages that nobody waits
    for go to a [BufferMap] (Buffers.v).  What [on_ready] of a result does when it is
    fulfilled is to remove it from what is pending (celery/result.py, [_on_fulfilled]). *)

From S2P Require Import Prelude.
From S2P Require Import PyDict.
From S2P Require Import Effect.
From S2P Require Import States.
From S2P Require Import Buffers.
Local Open Scope eff_scope.

Module AsyncResults.
Import Messagebuffer BufferMap.

(** What a message says *)
Record meta := Meta { m_task_id : string; m_status : string; m_result : Z }.
#[global] Instance meta_eq_dec : EqDecision meta.
Proof. solve_decision. Defined.

Definition is_ready (m : meta) : bool := bool_decide (m_status m ∈ States.READY_STATES).

Record result := Result { r_id : string; r_cache : option meta }.

Inductive event := ConsumeFrom (id : string) | CancelFor (id : string) | OnMessage (m : meta) | Delivered (r : nat) (m : meta).

Record consumer := Consumer {
  concrete : pydict string nat; weak : pydict string nat;  (* [_pending_results] *)
  messages : bufmap string meta;                           (* [_pending_messages] *)
  buckets : pydict string nat;                             (* results are equal when their ids are *)
  bucket_store : list (list nat);
  results : list result;
  has_on_message : bool;
  log : list event }.

Abbreviation M := (eff consumer).

Definition set_pending (c w : pydict string nat) (s : consumer) : consumer :=
  Consumer c w (messages s) (buckets s) (bucket_store s) (results s) (has_on_message s) (log s).
Definition set_messages b (s : consumer) : consumer :=
  Consumer (concrete s) (weak s) b (buckets s) (bucket_store s) (results s) (has_on_message s) (log s).
Definition set_buckets b st (s : consumer) : consumer :=
  Consumer (concrete s) (weak s) (messages s) b st (results s) (has_on_message s) (log s).
Definition set_results r (s : consumer) : consumer :=
  Consumer (concrete s) (weak s) (messages s) (buckets s) (bucket_store s) r (has_on_message s) (log s).
Definition set_on_message b (s : consumer) : consumer :=
  Consumer (concrete s) (weak s) (messages s) (buckets s) (bucket_store s) (results s) b (log s).
Definition add_log e (s : consumer) : consumer :=
  Consumer (concrete s) (weak s) (messages s) (buckets s) (bucket_store s) (results s) (has_on_message s) (log s ++ [e]).

Definition get_result (r : nat) : M result := λ s, (s, of_option OtherExc (results s !! r)).
Definition cached (m : meta) (x : result) : result := Result (r_id x) (Some m).

(** *** Pending results *)

(** [_remove_pending_result] *)
Definition _remove_pending_result (id : string) : M () :=
  emodify (λ s, set_pending (dict_del (concrete s) id) (dict_del (weak s) id) s).

Definition remove_pending_result (id : string) : M () :=
  run! _remove_pending_result id in
  emodify (add_log (CancelFor id)).

(** [AsyncResult._maybe_set_cache]; a result that is ready removes itself from what is pending *)
Definition _maybe_set_cache (r : nat) (m : meta) : M () :=
  if is_ready m then
    do! x := get_result r in
    run! emodify (λ s, set_results (alter (cached m) r (results s)) s) in
    run! emodify (add_log (Delivered r m)) in
    remove_pending_result (r_id x)
  else eret ().

(** [_pending_messages.take] *)
Definition take (id : string) : M meta := λ s,
  match bm_take (messages s) id None with
  | Ok (m, b) => (set_messages b s, Ok m)
  | Raise e => (s, Raise e)
  | Diverge => (s, Diverge)
  end.

Definition put (id : string) (m : meta) : M () := λ s,
  match bm_put (messages s) id m with
  | Ok b => (set_messages b s, Ok ())
  | Raise e => (s, Raise e)
  | Diverge => (s, Diverge)
  end.

Definition _maybe_resolve_from_buffer (r : nat) : M () :=
  do! x := get_result r in
  do! m := take (r_id x) in
  _maybe_set_cache r m.

Definition _add_pending_result (r : nat) (is_weak : bool) : M () :=
  do! x := get_result r in
  do! s := eget id in
  if dict_in (weak s) (r_id x) || dict_in (concrete s) (r_id x) then eret () else
  run! emodify (λ s, if is_weak then set_pending (concrete s) (dict_set (weak s) (r_id x) r) s
                     else set_pending (dict_set (concrete s) (r_id x) r) (weak s) s) in
  emodify (add_log (ConsumeFrom (r_id x))).

Definition add_pending_result (r : nat) (is_weak : bool) : M () :=
  ecatch (_maybe_resolve_from_buffer r)
    (λ e, if bool_decide (e = QueueEmpty) then _add_pending_result r is_weak else eraise e).

Definition add_pending_results (rs : list nat) (is_weak : bool) : M () := eiter (λ r, add_pending_result r is_weak) rs.

(** *** Messages *)

Definition _get_pending_result (id : string) : M nat := λ s,
  (s, match dict_get (concrete s) id with
      | Some r => Ok r
      | None => of_option KeyError (dict_get (weak s) id)
      end).

(** A bucket is filled once *)
Definition to_bucket (r : nat) : M () :=
  do! x := get_result r in
  do! b := eget (λ s, dict_get (buckets s) (r_id x)) in
  match b with
  | None => eret ()
  | Some b => emodify (λ s, set_buckets (dict_del (buckets s) (r_id x)) (alter (λ l, l ++ [r]) b (bucket_store s)) s)
  end.

Definition on_state_change (m : meta) : M () :=
  do! h := eget has_on_message in
  run! ewhen h (emodify (add_log (OnMessage m))) in
  if is_ready m then
    etry (_get_pending_result (m_task_id m))
      (λ e, if bool_decide (e = KeyError) then put (m_task_id m) m else eraise e)
      (λ r, run! _maybe_set_cache r m in to_bucket r)
  else eret ().

(** ** Draining *)

Section Drain.
(** One round: the state afterwards, the time that has passed and what draining raised *)
Context {S : Type} (ready : S → bool) (drain : S → S) (raises : S → option exn) (elapsed : S → Z).
(** [socket.timeout] and other errors of the connection *)
Context (is_OSError : exn → bool).

(** [Drainer.drain_events_until], to the end of the generator *)
Fixpoint drain_events_until (fuel : nat) (timeout : option Z) (s : S) : S * outcome () :=
  if ready s then (s, Ok ()) else
  if match timeout with Some t => (t <=? elapsed s)%Z | None => false end then (s, Raise RuntimeTimeout) else
  match fuel with
  | 0 => (s, Diverge)
  | Datatypes.S fuel =>
      match raises s with
      | Some e => if is_OSError e then drain_events_until fuel timeout (drain s) else (drain s, Raise e)
      | None => drain_events_until fuel timeout (drain s)
      end
  end.
End Drain.

(** [BaseResultConsumer._wait_for_pending]: the callback for messages is put back whatever happens *)
Definition _wait_for_pending {A} (on_message : bool) (body : M A) : M A :=
  do! prev := eget has_on_message in
  run! emodify (set_on_message on_message) in
  efinally (ecatch body (λ e, eraise (if bool_decide (e = RuntimeTimeout) then TimeoutError else e)))
    (emodify (set_on_message prev)).

(** ** Groups of results *)

(** [iter_native]: the buckets are set up, then events are drained until the group is ready, and
    what is in the bucket is yielded after each round and at the end *)
Definition collect_node (b : nat) (r : nat) : M () :=
  do! x := get_result r in
  match r_cache x with
  | Some _ => emodify (λ s, set_buckets (buckets s) (alter (λ l, l ++ [r]) b (bucket_store s)) s)
  | None => emodify (λ s, set_buckets (dict_set (buckets s) (r_id x) b) (bucket_store s) s)
  end.

Definition new_bucket : M nat := λ s, (set_buckets (buckets s) (bucket_store s ++ [[]]) s, Ok (length (bucket_store s))).

Definition empty_bucket (b : nat) : M (list nat) := λ s,
  (set_buckets (buckets s) (alter (λ _, []) b (bucket_store s)) s, Ok (default [] (bucket_store s !! b))).

(** The rounds of draining are messages that arrive *)
Fixpoint drain_rounds (b : nat) (rounds : list (list meta)) (yielded : list nat) : M (list nat) :=
  match rounds with
  | [] => do! l := empty_bucket b in eret (yielded ++ l)
  | ms :: rounds =>
      run! eiter on_state_change ms in
      do! l := empty_bucket b in
      drain_rounds b rounds (yielded ++ l)
  end.

Definition iter_native (rs : list nat) (rounds : list (list meta)) : M (list nat) :=
  match rs with
  | [] => eraise RuntimeError  (* the [StopIteration] raised in the body of a generator *)
  | _ =>
      do! b := new_bucket in
      run! eiter (collect_node b) rs in
      drain_rounds b rounds []
  end.

(** ** A process that waits for results *)

Inductive op :=
| New (id : string)                  (* a result object *)
| Add (r : nat) (is_weak : bool)
| Forget (r : nat)                   (* [remove_pending_result] *)
| Die (r : nat)                      (* the object of a weak entry is gone *)
| Arrive (m : meta).

Definition exec (o : op) : M () :=
  match o with
  | New id => emodify (λ s, set_results (results s ++ [Result id None]) s)
  | Add r w => add_pending_result r w
  | Forget r => do! x := get_result r in remove_pending_result (r_id x)
  | Die r => emodify (λ s, set_pending (concrete s) (filter (λ kv, kv.2 ≠ r) (weak s)) s)
  | Arrive m => on_state_change m
  end.

Fixpoint exec_all (l : list op) (s : consumer) : consumer :=
  match l with [] => s | o :: l => exec_all l (exec o s).1 end.

(** [BufferMap(MESSAGE_BUFFER_MAX)] *)
Definition MESSAGE_BUFFER_MAX : Z := 8192.
Definition start : consumer := Consumer [] [] (BM (Some MESSAGE_BUFFER_MAX) (Some 1000%Z) 0 []) [] [] [] false [].

Definition awaited (s : consumer) (id : string) : Prop := dict_in (concrete s) id = true ∨ dict_in (weak s) id = true.

(** What has been given to results, of a task *)
Definition delivered (s : consumer) (id : string) : list meta :=
  omap (λ e, match e with Delivered _ m => if bool_decide (m_task_id m = id) then Some m else None | _ => None end) (log s).

(** What one result has got *)
Definition delivered_to (s : consumer) (r : nat) : list meta :=
  omap (λ e, match e with Delivered r' m => if bool_decide (r' = r) then Some m else None | _ => None end) (log s).

(** Final states that arrived, of a task *)
Definition arrived (l : list op) (id : string) : list meta :=
  omap (λ o, match o with Arrive m => if is_ready m && bool_decide (m_task_id m = id) then Some m else None | _ => None end) l.

Record inv (n : nat) (s : consumer) : Prop := Inv {
  inv_buffer : bm_inv (messages s);
  inv_max : bm_maxsize (messages s) = Some MESSAGE_BUFFER_MAX;
  inv_bufmax : bm_bufmaxsize (messages s) = Some 1000%Z;
  inv_total : (bm_total (messages s) <= Z.of_nat n)%Z;
  inv_queue : ∀ id, length (queue_of (messages s) id) ≤ n;
  inv_wf : dict_wf (concrete s) ∧ dict_wf (weak s);
  inv_concrete : ∀ id r, dict_get (concrete s) id = Some r → ∃ x, results s !! r = Some x ∧ r_id x = id;
  inv_weak : ∀ id r, dict_get (weak s) id = Some r → ∃ x, results s !! r = Some x ∧ r_id x = id;
  inv_ids : ∀ id m, m ∈ queue_of (messages s) id → m_task_id m = id ∧ is_ready m = true;
  inv_apart : ∀ id, awaited s id → queue_of (messages s) id = [];
  inv_delivered : ∀ r m, Delivered r m ∈ log s → ∃ x, results s !! r = Some x ∧ r_id x = m_task_id m;
  inv_cache : ∀ r x, results s !! r = Some x → r_cache x = last (delivered_to s r) }.

(** *** What the parts do *)

(** The state in which result [r] with id [i] has got [m] *)
Definition resolved (r : nat) (i : string) (m : meta) (s : consumer) : consumer :=
  Consumer (dict_del (concrete s) i) (dict_del (weak s) i) (messages s) (buckets s) (bucket_store s)
    (alter (cached m) r (results s)) (has_on_message s) ((log s ++ [Delivered r m]) ++ [CancelFor i]).

Lemma maybe_set_cache_eq r m x s :
  results s !! r = Some x → is_ready m = true → _maybe_set_cache r m s = (resolved r (r_id x) m s, Ok ()).
Proof. intros Hx Hm. unfold _maybe_set_cache, ebind, get_result. by rewrite Hm, Hx. Qed.

Lemma take_total b k x b' : bm_take b k None = Ok (x, b') → (bm_total (K := string) (A := meta) b' = bm_total b - 1)%Z.
Proof.
  unfold bm_take. destruct (dict_get (bm_map b) k) as [buf|]; [|done]. destruct (mb_take buf None) as [[y buf']|e|]; [|done..].
  intros H. apply obind_Ok in H as (mv & _ & [= _ <-]). done.
Qed.

Lemma delivered_app s s' l id :
  log s' = log s ++ l → delivered s' id = delivered s id ++ omap (λ e, match e with Delivered _ m => if bool_decide (m_task_id m = id) then Some m else None | _ => None end) l.
Proof. intros H. unfold delivered. by rewrite H, omap_app. Qed.

(** The state of the results only matters for their ids *)
Lemma lookup_cached m r (l : list result) i x :
  l !! i = Some x → ∃ y, alter (cached m) r l !! i = Some y ∧ r_id y = r_id x.
Proof.
  intros Hx. destruct (decide (r = i)) as [->|]; [rewrite list_lookup_alter_eq, Hx; by eexists|rewrite list_lookup_alter_ne by done; by eexists].
Qed.

Lemma dict_get_del_Some (d : pydict string nat) k k' v : dict_wf d → dict_get (dict_del d k) k' = Some v → dict_get d k' = Some v.
Proof. intros Hw. destruct (decide (k = k')) as [->|]; [by rewrite dict_get_del_eq|by rewrite dict_get_del_ne]. Qed.

Lemma awaited_get s id : awaited s id ↔ (∃ r, dict_get (concrete s) id = Some r) ∨ (∃ r, dict_get (weak s) id = Some r).
Proof.
  unfold awaited, dict_in. destruct (dict_get (concrete s) id), (dict_get (weak s) id); naive_solver.
Qed.

Lemma inv_resolved n s r x m :
  inv n s → results s !! r = Some x → r_id x = m_task_id m → inv n (resolved r (r_id x) m s).
Proof.
  intros H Hx Hid. destruct (inv_wf _ _ H) as [Hc Hw]. split; simpl; try apply H.
  - split; by apply dict_del_wf.
  - intros id r' Hr. apply dict_get_del_Some in Hr; [|done]. destruct (inv_concrete _ _ H id r' Hr) as (y & Hy & <-). by apply lookup_cached.
  - intros id r' Hr. apply dict_get_del_Some in Hr; [|done]. destruct (inv_weak _ _ H id r' Hr) as (y & Hy & <-). by apply lookup_cached.
  - intros id Ha. apply (inv_apart _ _ H). apply awaited_get in Ha as [[r' Hr]|[r' Hr]]; simpl in Hr; apply dict_get_del_Some in Hr; try done;
      apply awaited_get; [left|right]; by exists r'.
  - intros r' m'. rewrite <- app_assoc. intros [Hin|[[= -> ->]|[?|[]%not_elem_of_nil]%elem_of_cons]%elem_of_cons]%elem_of_app; [| |done].
    + destruct (inv_delivered _ _ H r' m' Hin) as (y & Hy & <-). by apply lookup_cached.
    + rewrite <- Hid. by apply lookup_cached.
  - intros r' y Hy. unfold delivered_to. simpl. rewrite !omap_app. simpl. rewrite app_nil_r. fold (delivered_to s r').
    destruct (decide (r = r')) as [->|Hne].
    + rewrite list_lookup_alter_eq, Hx in Hy. simplify_eq/=. rewrite bool_decide_eq_true_2 by done. by rewrite last_snoc.
    + rewrite list_lookup_alter_ne in Hy by done. rewrite bool_decide_eq_false_2 by done. rewrite app_nil_r. by apply (inv_cache _ _ H).
Qed.

Definition is_delivery (e : event) : bool := match e with Delivered _ _ => true | _ => false end.

Lemma inv_log n s e : is_delivery e = false → inv n s → inv n (add_log e s).
Proof.
  intros He H. split; simpl; try apply H.
  - intros r m [Hin|Hin%list_elem_of_singleton]%elem_of_app; [by apply (inv_delivered _ _ H)|by subst e].
  - intros r x Hx. unfold delivered_to. simpl. rewrite omap_app. simpl. destruct e; simpl; rewrite ?app_nil_r; try by apply (inv_cache _ _ H). done.
Qed.

Lemma inv_mono n n' s : n ≤ n' → inv n s → inv n' s.
Proof.
  intros Hn H. split; try apply H; [pose proof (inv_total _ _ H); lia|]. intros id. pose proof (inv_queue _ _ H id). lia.
Qed.

(** *** Adding a result *)

Lemma take_cases s i :
  bm_inv (messages s) →
  match queue_of (messages s) i with
  | [] => take i s = (s, Raise QueueEmpty)
  | m :: q => ∃ b, take i s = (set_messages b s, Ok m) ∧ bm_inv b ∧ same_params (messages s) b ∧ (bm_total b = bm_total (messages s) - 1)%Z ∧
                queue_of b i = q ∧ ∀ k', k' ≠ i → queue_of b k' = queue_of (messages s) k'
  end.
Proof.
  intros Hi. pose proof (bm_take_spec (messages s) i None Hi) as Ht. unfold take.
  destruct (queue_of (messages s) i) as [|m q]; [by rewrite Ht|]. destruct Ht as (b & Hb & ? & ? & ? & ?). rewrite Hb. exists b.
  split_and!; try done. by eapply take_total.
Qed.

Lemma inv_taken n s b i m q :
  inv n s → bm_inv b → same_params (messages s) b → (bm_total b = bm_total (messages s) - 1)%Z →
  queue_of (messages s) i = m :: q → queue_of b i = q → (∀ k', k' ≠ i → queue_of b k' = queue_of (messages s) k') → inv n (set_messages b s).
Proof.
  intros H Hb [P1 P2] Ht Hq Hq' Ho. assert (∀ k x, x ∈ queue_of b k → x ∈ queue_of (messages s) k) as Hsub.
  { intros k x Hx. destruct (decide (k = i)) as [->|Hne]; [rewrite Hq; rewrite Hq' in Hx; by apply list_elem_of_further|by rewrite <- Ho]. }
  split; simpl; try apply H; try done.
  - rewrite P1. apply H.
  - rewrite P2. apply H.
  - pose proof (inv_total _ _ H). lia.
  - intros k. pose proof (inv_queue _ _ H k) as Hk. destruct (decide (k = i)) as [->|Hne]; [rewrite Hq'; rewrite Hq in Hk; simpl in Hk; lia|by rewrite Ho].
  - intros k x Hx. by apply (inv_ids _ _ H), Hsub.
  - intros k Ha. pose proof (inv_apart _ _ H k Ha) as Hk. destruct (decide (k = i)) as [->|Hne]; [by rewrite Hk in Hq|by rewrite Ho].
Qed.

(** What an operation does to the messages of a task: they are given to a result or kept *)
Definition accounted (s : consumer) (id : string) : list meta := delivered s id ++ queue_of (messages s) id.

Definition arrivals (o : op) : nat := match o with Arrive _ => 1 | _ => 0 end.

Definition step_ok (n : nat) (o : op) (s s' : consumer) : Prop :=
  inv (n + arrivals o) s' ∧ ∀ id, accounted s' id ≡ₚ accounted s id ++ arrived [o] id.

Lemma step_quiet n o s s' :
  arrivals o = 0 → arrived [o] = (λ _, []) → inv n s' → (∀ id, accounted s' id ≡ₚ accounted s id) → step_ok n o s s'.
Proof. intros Ha Hr H Hacc. split; [by rewrite Ha, Nat.add_0_r|]. intros id. rewrite Hr, app_nil_r. apply Hacc. Qed.

Lemma resolved_accounted s r i m id : accounted (resolved r i m s) id ≡ₚ accounted s id ++ (if bool_decide (m_task_id m = id) then [m] else []).
Proof.
  unfold accounted, resolved. simpl. rewrite (delivered_app s _ [Delivered r m; CancelFor i]) by (simpl; by rewrite <- app_assoc).
  simpl. case_bool_decide; simpl; rewrite <- ?app_assoc; solve_Permutation.
Qed.

Lemma get_result_eq r x s : results s !! r = Some x → get_result r s = (s, Ok x).
Proof. unfold get_result. by intros ->. Qed.

Lemma add_missing r w s : results s !! r = None → add_pending_result r w s = (s, Raise OtherExc).
Proof. intros Hx. unfold add_pending_result, ecatch, _maybe_resolve_from_buffer, ebind, get_result. by rewrite Hx. Qed.

Lemma add_empty r w x s :
  results s !! r = Some x → take (r_id x) s = (s, Raise QueueEmpty) → add_pending_result r w s = _add_pending_result r w s.
Proof.
  intros Hx Ht. unfold add_pending_result, ecatch, _maybe_resolve_from_buffer.
  by rewrite (ebind_Ok _ _ _ _ _ (get_result_eq r x s Hx)), (ebind_Raise _ _ _ _ _ Ht).
Qed.

Lemma add_found r w x s b m :
  results s !! r = Some x → take (r_id x) s = (set_messages b s, Ok m) → is_ready m = true →
  add_pending_result r w s = (resolved r (r_id x) m (set_messages b s), Ok ()).
Proof.
  intros Hx Ht Hm. unfold add_pending_result, ecatch, _maybe_resolve_from_buffer.
  by rewrite (ebind_Ok _ _ _ _ _ (get_result_eq r x s Hx)), (ebind_Ok _ _ _ _ _ Ht), (maybe_set_cache_eq r m x).
Qed.

(** The state with [r] registered *)
Definition registered (r : nat) (i : string) (w : bool) (s : consumer) : consumer :=
  add_log (ConsumeFrom i) (if w then set_pending (concrete s) (dict_set (weak s) i r) s else set_pending (dict_set (concrete s) i r) (weak s) s).

Lemma register_eq r w x s :
  results s !! r = Some x →
  _add_pending_result r w s = (if dict_in (weak s) (r_id x) || dict_in (concrete s) (r_id x) then s else registered r (r_id x) w s, Ok ()).
Proof.
  intros Hx. unfold _add_pending_result. rewrite (ebind_Ok _ _ _ _ _ (get_result_eq r x s Hx)), ebind_get.
  unfold id. destruct (_ || _); [done|]. by destruct w.
Qed.

Lemma inv_registered n s r x w :
  inv n s → results s !! r = Some x → queue_of (messages s) (r_id x) = [] → inv n (registered r (r_id x) w s).
Proof.
  intros H Hx Hq. destruct (inv_wf _ _ H) as [Hc Hw]. apply inv_log; [done|].
  assert (∀ d id r', (∀ id r', dict_get d id = Some r' → ∃ x, results s !! r' = Some x ∧ r_id x = id) →
    dict_get (dict_set d (r_id x) r) id = Some r' → ∃ x, results s !! r' = Some x ∧ r_id x = id) as Hset.
  { intros d id r' Hd. rewrite dict_get_set. case_decide; [intros [= <-]; exists x; by subst|apply Hd]. }
  destruct w; split; simpl; try apply H.
  - split; [done|by apply dict_set_wf].
  - intros id r'. apply Hset, H.
  - intros id Ha. apply awaited_get in Ha as [[r' Hr]|[r' Hr]]; simpl in Hr; [by apply (inv_apart _ _ H), awaited_get; left; exists r'|].
    rewrite dict_get_set in Hr. case_decide; [by subst|]. apply (inv_apart _ _ H), awaited_get. right. by exists r'.
  - split; [by apply dict_set_wf|done].
  - intros id r'. apply Hset, H.
  - intros id Ha. apply awaited_get in Ha as [[r' Hr]|[r' Hr]]; simpl in Hr; [|by apply (inv_apart _ _ H), awaited_get; right; exists r'].
    rewrite dict_get_set in Hr. case_decide; [by subst|]. apply (inv_apart _ _ H), awaited_get. left. by exists r'.
Qed.

Lemma registered_accounted r i w s id : accounted (registered r i w s) id = accounted s id.
Proof.
  unfold accounted. rewrite (delivered_app s _ [ConsumeFrom i]) by (by destruct w). simpl. rewrite app_nil_r. by destruct w.
Qed.

Lemma taken_accounted s b i m q r id :
  m_task_id m = i → queue_of (messages s) i = m :: q → queue_of b i = q → (∀ k', k' ≠ i → queue_of b k' = queue_of (messages s) k') →
  accounted (resolved r i m (set_messages b s)) id ≡ₚ accounted s id.
Proof.
  intros Hm Hq Hb Ho. rewrite resolved_accounted. unfold accounted. simpl. rewrite Hm. destruct (decide (i = id)) as [->|Hne].
  - rewrite bool_decide_eq_true_2, Hb, Hq by done. unfold delivered. simpl. solve_Permutation.
  - rewrite bool_decide_eq_false_2, app_nil_r, Ho by done. done.
Qed.

Lemma add_step n s r w : inv n s → step_ok n (Add r w) s (exec (Add r w) s).1.
Proof.
  intros H. simpl. destruct (results s !! r) as [x|] eqn:Hx; [|rewrite add_missing by done; by apply step_quiet].
  pose proof (take_cases s (r_id x) (inv_buffer _ _ H)) as Ht. destruct (queue_of (messages s) (r_id x)) as [|m q] eqn:Hq.
  - rewrite (add_empty r w x s Hx Ht), (register_eq r w x s Hx). simpl. destruct (_ || _); [by apply step_quiet|].
    apply step_quiet; [done|done|by apply inv_registered|]. intros id. by rewrite registered_accounted.
  - destruct Ht as (b & Ht & Hb & Hp & Htot & Hqb & Ho).
    destruct (inv_ids _ _ H (r_id x) m) as [Hid Hr]; [rewrite Hq; apply list_elem_of_here|].
    rewrite (add_found r w x s b m Hx Ht Hr). apply step_quiet; [done|done|..].
    + apply inv_resolved; [|done|done]. by eapply inv_taken.
    + intros id. by eapply taken_accounted.
Qed.

Lemma forget_step n s r : inv n s → step_ok n (Forget r) s (exec (Forget r) s).1.
Proof.
  intros H. simpl. unfold ebind, get_result. destruct (results s !! r) as [x|] eqn:Hx; [|by apply step_quiet]. simpl.
  destruct (inv_wf _ _ H) as [Hc Hw]. apply step_quiet; [done|done|..].
  - apply (inv_log n (set_pending (dict_del (concrete s) (r_id x)) (dict_del (weak s) (r_id x)) s) (CancelFor (r_id x))); [done|].
    split; simpl; try apply H.
    + split; by apply dict_del_wf.
    + intros id r' Hr%dict_get_del_Some; [by apply (inv_concrete _ _ H)|done].
    + intros id r' Hr%dict_get_del_Some; [by apply (inv_weak _ _ H)|done].
    + intros id Ha. apply (inv_apart _ _ H). apply awaited_get in Ha as [[r' Hr]|[r' Hr]]; simpl in Hr; apply dict_get_del_Some in Hr; try done;
        apply awaited_get; [left|right]; by exists r'.
  - intros id. unfold accounted, delivered. simpl. rewrite omap_app. simpl. by rewrite app_nil_r.
Qed.

Lemma die_step n s r : inv n s → step_ok n (Die r) s (exec (Die r) s).1.
Proof.
  intros H. simpl. destruct (inv_wf _ _ H) as [Hc Hw]. apply step_quiet; [done|done| |done].
  assert (∀ id r', dict_get (filter (λ kv, kv.2 ≠ r) (weak s)) id = Some r' → dict_get (weak s) id = Some r') as Hf.
  { intros id r' Hr. apply dict_get_Some_elem, list_elem_of_filter in Hr as [_ Hin]. by apply dict_elem_get. }
  split; simpl; try apply H.
  - split; [done|by apply dict_filter_wf].
  - intros id r' Hr%Hf. by apply (inv_weak _ _ H).
  - intros id Ha. apply (inv_apart _ _ H), awaited_get. apply awaited_get in Ha as [[r' Hr]|[r' Hr]]; simpl in Hr; [left; by exists r'|right].
    exists r'. by apply Hf.
Qed.

Lemma new_step n s i : inv n s → step_ok n (New i) s (exec (New i) s).1.
Proof.
  intros H. apply step_quiet; [done|done| |done]. split; simpl; try apply H.
  - intros id r (x & Hx & <-)%(inv_concrete _ _ H). exists x. split; [by apply lookup_app_l_Some|done].
  - intros id r (x & Hx & <-)%(inv_weak _ _ H). exists x. split; [by apply lookup_app_l_Some|done].
  - intros r m (x & Hx & ?)%(inv_delivered _ _ H). exists x. split; [by apply lookup_app_l_Some|done].
  - intros r x [Hx|[Hr Hx]]%lookup_app_Some; [by apply (inv_cache _ _ H)|]. apply list_lookup_singleton_Some in Hx as [Hr' <-]. simpl.
    assert (delivered_to s r = []) as Hd; [|change (None = last (delivered_to s r)); by rewrite Hd].
    destruct (delivered_to s r) as [|m l] eqn:E; [done|]. exfalso.
    assert (m ∈ delivered_to s r) as Hm by (rewrite E; apply list_elem_of_here). unfold delivered_to in Hm.
    apply list_elem_of_omap in Hm as (e & He & Hm). destruct e; simplify_eq/=. case_bool_decide; simplify_eq.
    destruct (inv_delivered _ _ H r m He) as (y & Hy & _). apply lookup_lt_Some in Hy. lia.
Qed.

(** *** A message that arrives *)

Lemma to_bucket_same r s :
  let s' := (to_bucket r s).1 in
  concrete s' = concrete s ∧ weak s' = weak s ∧ messages s' = messages s ∧ results s' = results s ∧ log s' = log s.
Proof.
  unfold to_bucket, ebind, get_result, eget. destruct (results s !! r) as [x|]; [|done]. simpl. by destruct (dict_get (buckets s) (r_id x)).
Qed.

Lemma inv_same n s s' :
  concrete s' = concrete s → weak s' = weak s → messages s' = messages s → results s' = results s → log s' = log s → inv n s → inv n s'.
Proof.
  destruct s, s'. simpl. intros -> -> -> -> ->. by intros []; split.
Qed.

Lemma get_pending_cases s i :
  (_get_pending_result i s = (s, Raise KeyError) ∧ ¬ awaited s i) ∨
  ∃ r, _get_pending_result i s = (s, Ok r) ∧ (dict_get (concrete s) i = Some r ∨ dict_get (weak s) i = Some r).
Proof.
  unfold _get_pending_result. destruct (dict_get (concrete s) i) as [r|] eqn:E1; [right; exists r; auto|].
  destruct (dict_get (weak s) i) as [r|] eqn:E2; [right; exists r; auto|]. left. split; [done|]. rewrite awaited_get, E1, E2. naive_solver.
Qed.

(** The part of [on_state_change] after the callback *)
Definition dispatch (m : meta) : M () :=
  etry (_get_pending_result (m_task_id m))
    (λ e, if bool_decide (e = KeyError) then put (m_task_id m) m else eraise e)
    (λ r, run! _maybe_set_cache r m in to_bucket r).

Lemma on_state_change_eq m s :
  on_state_change m s = (if is_ready m then dispatch m else eret ()) (if has_on_message s then add_log (OnMessage m) s else s).
Proof. unfold on_state_change. rewrite ebind_get. by destruct (has_on_message s). Qed.

Lemma dispatch_ready n s m :
  inv n s → n < 1000 → is_ready m = true →
  inv (S n) (dispatch m s).1 ∧ ∀ id, accounted (dispatch m s).1 id ≡ₚ accounted s id ++ (if bool_decide (m_task_id m = id) then [m] else []).
Proof.
  intros H Hn Hm. unfold dispatch, etry.
  destruct (get_pending_cases s (m_task_id m)) as [[-> Hna]|(r & -> & Hr)].
  - rewrite bool_decide_eq_true_2 by done. unfold put.
    destruct (bm_put_spec (messages s) (m_task_id m) m (inv_buffer _ _ H)) as (b & Hb & Hbi & [P1 P2] & Ht & _ & Hq).
    { rewrite (inv_max _ _ H). by intros ? [= <-]. }
    destruct Hq as [Hq Ho]; [rewrite (inv_max _ _ H); right; pose proof (inv_total _ _ H); unfold MESSAGE_BUFFER_MAX; lia|].
    rewrite (inv_bufmax _ _ H) in Hq. assert (overflow (Some 1000%Z) (S (length (queue_of (messages s) (m_task_id m)))) = 0) as Hov.
    { unfold overflow. change (1000 =? 0)%Z with false. cbv iota. pose proof (inv_queue _ _ H (m_task_id m)). lia. }
    rewrite Hov, drop_0 in Hq. rewrite Hb. simpl. split.
    + split; simpl; try apply H; try done.
      * rewrite P1. apply H.
      * rewrite P2. apply H.
      * pose proof (inv_total _ _ H). lia.
      * intros id. pose proof (inv_queue _ _ H id). destruct (decide (id = m_task_id m)) as [->|]; [rewrite Hq, length_app; simpl; lia|rewrite Ho by done; lia].
      * intros id y. destruct (decide (id = m_task_id m)) as [->|]; [|rewrite Ho by done; apply (inv_ids _ _ H)].
        rewrite Hq. intros [Hin|Hin%list_elem_of_singleton]%elem_of_app; [by apply (inv_ids _ _ H)|by subst].
      * intros id Ha. destruct (decide (id = m_task_id m)) as [->|]; [done|]. rewrite Ho by done. by apply (inv_apart _ _ H).
    + intros id. unfold accounted. change (delivered (set_messages b s) id) with (delivered s id). simpl.
      destruct (decide (m_task_id m = id)) as [<-|Hne]; [rewrite bool_decide_eq_true_2, Hq by done|rewrite bool_decide_eq_false_2, Ho by congruence]; simpl;
        rewrite ?app_nil_r, ?app_assoc; done.
  - assert (∃ x, results s !! r = Some x ∧ r_id x = m_task_id m) as (x & Hx & Hid).
    { destruct Hr as [Hr|Hr]; [by apply (inv_concrete _ _ H)|by apply (inv_weak _ _ H)]. }
    rewrite (ebind_Ok _ _ _ _ _ (maybe_set_cache_eq r m x s Hx Hm)).
    destruct (to_bucket_same r (resolved r (r_id x) m s)) as (A & B & C & D & E). split.
    + apply (inv_same (S n) (resolved r (r_id x) m s)); try done. apply inv_resolved; [|done|done]. apply (inv_mono n); [lia|done].
    + intros id. rewrite <- (resolved_accounted s r (r_id x) m id). unfold accounted, delivered. by rewrite C, E.
Qed.

Lemma arrive_step n s m : inv n s → n < 1000 → step_ok n (Arrive m) s (exec (Arrive m) s).1.
Proof.
  intros H Hn. simpl. rewrite on_state_change_eq. set (s0 := if has_on_message s then add_log (OnMessage m) s else s).
  assert (inv n s0) as H0 by (unfold s0; destruct (has_on_message s); [by apply inv_log|done]).
  assert (∀ id, accounted s0 id = accounted s id) as Ha.
  { intros id. unfold s0. destruct (has_on_message s); [|done]. unfold accounted, delivered. simpl. rewrite omap_app. simpl. by rewrite app_nil_r. }
  unfold step_ok. simpl. rewrite Nat.add_1_r. destruct (is_ready m) eqn:Hm.
  - destruct (dispatch_ready n s0 m H0 Hn Hm) as [Hi Hacc]. split; [done|]. intros id. rewrite Hacc, Ha. by case_bool_decide.
  - split; [apply (inv_mono n); [lia|done]|]. intros id. simpl. by rewrite Ha, app_nil_r.
Qed.

Lemma inv_start : inv 0 start.
Proof.
  split; try done; simpl.
  - split; [apply NoDup_nil_2|done|by intros ?? ?%not_elem_of_nil].
  - split; apply NoDup_nil_2.
  - by intros id m ?%not_elem_of_nil.
  - by intros r m ?%not_elem_of_nil.
Qed.

Lemma exec_all_ok l n s : inv n s → n + length l ≤ 1000 → inv (n + length l) (exec_all l s) ∧ ∀ id, accounted (exec_all l s) id ≡ₚ accounted s id ++ arrived l id.
Proof.
  revert n s. induction l as [|o l IH]; intros n s H Hl; simpl in *.
  { rewrite Nat.add_0_r. split; [done|]. intros id. by rewrite app_nil_r. }
  assert (step_ok n o s (exec o s).1) as [Hi Ha].
  { destruct o; [by apply new_step|by apply add_step|by apply forget_step|by apply die_step|apply arrive_step; [done|lia]]. }
  assert (n + arrivals o ≤ S n) as Hle by (destruct o; simpl; lia).
  destruct (IH (S n) (exec o s).1) as [Hi' Ha']; [by apply (inv_mono (n + arrivals o))|lia|]. split; [by replace (n + S (length l)) with (S n + length l) by lia|].
  intros id. rewrite Ha', Ha. rewrite <- app_assoc. f_equiv. unfold arrived. simpl. by destruct o; try case_match.
Qed.

(** C24: No result is missed.  Whatever the order in which results are awaited, forgotten or garbage
    collected and messages arrive (less than a thousand, so that no buffer is full), no task is at the
    same time awaited and has a message in the buffer; every final state that arrived was given to a
    result or is in the buffer, once; and what a result has is the last that it was given, of its own
    task. *)
Theorem no_result_missed l (s := exec_all l start) :
  length l ≤ 1000 →
  (∀ id, awaited s id → queue_of (messages s) id = []) ∧
  (∀ id, delivered s id ++ queue_of (messages s) id ≡ₚ arrived l id) ∧
  (∀ r x m, results s !! r = Some x → r_cache x = Some m → last (delivered_to s r) = Some m ∧ m_task_id m = r_id x).
Proof.
  intros Hl. destruct (exec_all_ok l 0 start inv_start Hl) as [H Ha]. split_and!; [apply H|apply Ha|].
  intros r x m Hx Hc. pose proof (inv_cache _ _ H r x Hx) as Hd. fold s in Hd. rewrite Hc in Hd. split; [done|].
  assert (m ∈ delivered_to s r) as Hin by (symmetry in Hd; by apply last_Some_elem_of in Hd).
  unfold delivered_to in Hin. apply list_elem_of_omap in Hin as (e & He & Hm). destruct e; simplify_eq/=. case_bool_decide; simplify_eq.
  destruct (inv_delivered _ _ H r m He) as (y & Hy & Hid). fold s in Hy. by simplify_eq.
Qed.

(** ** Groups *)

Definition pend (s : consumer) (i : string) : option nat :=
  match dict_get (concrete s) i with Some r => Some r | None => dict_get (weak s) i end.

Definition is_cached (s : consumer) (r : nat) : Prop := ∃ x, results s !! r = Some x ∧ is_Some (r_cache x).
#[global] Instance is_cached_dec s r : Decision (is_cached s r).
Proof.
  destruct (results s !! r) as [x|] eqn:E; [destruct (r_cache x) as [m|] eqn:Em|].
  - left. exists x. rewrite Em. by eexists.
  - right. intros (y & Hy & z & Hz). congruence.
  - right. intros (y & Hy & _). congruence.
Defined.

Definition bucket (s : consumer) (b : nat) : list nat := default [] (bucket_store s !! b).

(** The nodes [done] of a group have been told to bucket [b], from which [out] was taken *)
Record collecting (b : nat) (done : list nat) (out : list nat) (s : consumer) : Prop := Collecting {
  col_exists : ∀ r, r ∈ done → ∃ x, results s !! r = Some x;
  col_ids : ∀ r r' x x', r ∈ done → r' ∈ done → results s !! r = Some x → results s !! r' = Some x' → r_id x = r_id x' → r = r';
  col_store : b < length (bucket_store s);
  col_pending : ∀ r x, r ∈ done → results s !! r = Some x → r_cache x = None → dict_get (buckets s) (r_id x) = Some b ∧ pend s (r_id x) = Some r;
  col_only : ∀ i, dict_get (buckets s) i = Some b → ∃ r x, r ∈ done ∧ results s !! r = Some x ∧ r_id x = i ∧ r_cache x = None;
  col_wf : dict_wf (buckets s);
  col_filled : out ++ bucket s b ≡ₚ filter (is_cached s) done }.

Lemma filter_same_status s s' (l : list nat) : (∀ r, r ∈ l → is_cached s' r ↔ is_cached s r) → filter (is_cached s') l = filter (is_cached s) l.
Proof.
  induction l as [|r l IH]; intros H; [done|]. rewrite !filter_cons. rewrite IH by (intros; apply H; by apply list_elem_of_further).
  pose proof (H r (list_elem_of_here _ _)). destruct (decide (is_cached s' r)), (decide (is_cached s r)); try done; tauto.
Qed.

Lemma filter_one_more s s' r (l : list nat) :
  NoDup l → r ∈ l → ¬ is_cached s r → is_cached s' r → (∀ r', r' ∈ l → r' ≠ r → is_cached s' r' ↔ is_cached s r') →
  filter (is_cached s') l ≡ₚ filter (is_cached s) l ++ [r].
Proof.
  induction l as [|a l IH]; intros Hd Hin Hn Hc Ho; [by apply not_elem_of_nil in Hin|]. apply NoDup_cons in Hd as [Ha Hd]. rewrite !filter_cons.
  apply elem_of_cons in Hin as [->|Hin].
  - rewrite decide_True, decide_False by done. rewrite (filter_same_status s s' l); [solve_Permutation|].
    intros r' Hr'. apply Ho; [by apply list_elem_of_further|]. by intros ->.
  - assert (a ≠ r) as Hne by (by intros ->). pose proof (Ho a (list_elem_of_here _ _) Hne).
    assert (filter (is_cached s') l ≡ₚ filter (is_cached s) l ++ [r]) as HI by (apply IH; [done..|intros; apply Ho; [by apply list_elem_of_further|done]]).
    destruct (decide (is_cached s' a)), (decide (is_cached s a)); try tauto. simpl. by constructor.
Qed.

Lemma get_pending_eq s i : _get_pending_result i s = (s, of_option KeyError (pend s i)).
Proof. unfold _get_pending_result, pend. by destruct (dict_get (concrete s) i). Qed.

Lemma pend_del s i k r m : dict_wf (concrete s) → dict_wf (weak s) → k ≠ i → pend (resolved r i m s) k = pend s k.
Proof. intros Hc Hw Hne. unfold pend. simpl. by rewrite !dict_get_del_ne. Qed.

(** A message that is given to a result which the group does not have *)
Lemma cached_elsewhere r m s r' x :
  r' ≠ r → alter (cached m) r (results s) !! r' = Some x ↔ results s !! r' = Some x.
Proof. intros Hne. by rewrite list_lookup_alter_ne. Qed.

Lemma to_bucket_eq r x s :
  results s !! r = Some x →
  to_bucket r s = (match dict_get (buckets s) (r_id x) with
                   | None => s
                   | Some b => set_buckets (dict_del (buckets s) (r_id x)) (alter (λ l, l ++ [r]) b (bucket_store s)) s
                   end, Ok ()).
Proof.
  intros Hx. unfold to_bucket. rewrite (ebind_Ok _ _ _ _ _ (get_result_eq r x s Hx)), ebind_get. by destruct (dict_get (buckets s) (r_id x)).
Qed.

(** The state after [r], with id [i], got [m] and was put into its bucket *)
Definition fulfilled (r : nat) (i : string) (m : meta) (s : consumer) : consumer :=
  let s1 := resolved r i m s in
  match dict_get (buckets s) i with
  | None => s1
  | Some b => set_buckets (dict_del (buckets s) i) (alter (λ l, l ++ [r]) b (bucket_store s)) s1
  end.

Lemma dispatch_pending m r x s :
  pend s (m_task_id m) = Some r → results s !! r = Some x → r_id x = m_task_id m → is_ready m = true →
  dispatch m s = (fulfilled r (r_id x) m s, Ok ()).
Proof.
  intros Hp Hx Hid Hm. unfold dispatch, etry. rewrite get_pending_eq, Hp. cbn [of_option].
  rewrite (ebind_Ok _ _ _ _ _ (maybe_set_cache_eq r m x s Hx Hm)).
  rewrite (to_bucket_eq r (cached m x)) by (simpl; by rewrite list_lookup_alter_eq, Hx). unfold fulfilled. simpl. by destruct (dict_get (buckets s) (r_id x)).
Qed.

Lemma fulfilled_results r i m s : results (fulfilled r i m s) = alter (cached m) r (results s).
Proof. unfold fulfilled. by destruct (dict_get (buckets s) i). Qed.

Lemma fulfilled_cached r i m s r' : is_Some (results s !! r) → is_cached (fulfilled r i m s) r' ↔ is_cached s r' ∨ r' = r.
Proof.
  intros [x Hx]. unfold is_cached. rewrite fulfilled_results. destruct (decide (r' = r)) as [->|Hne].
  - rewrite list_lookup_alter_eq, Hx. simpl. split; [by right|]. intros _. exists (cached m x). split; [done|by eexists].
  - rewrite list_lookup_alter_ne by done. split; [by left|]. intros [?|?]; done.
Qed.

Lemma fulfilled_lookup r i m s r' y :
  results (fulfilled r i m s) !! r' = Some y → r_cache y = None → r' ≠ r ∧ results s !! r' = Some y.
Proof.
  rewrite fulfilled_results. intros Hy Hn. destruct (decide (r' = r)) as [->|Hne].
  - rewrite list_lookup_alter_eq in Hy. destruct (results s !! r); simplify_eq/=.
  - by rewrite list_lookup_alter_ne in Hy.
Qed.

Lemma fulfilled_id r i m s r' y : results (fulfilled r i m s) !! r' = Some y → ∃ x, results s !! r' = Some x ∧ r_id y = r_id x.
Proof.
  rewrite fulfilled_results. intros Hy. destruct (decide (r' = r)) as [->|Hne].
  - rewrite list_lookup_alter_eq in Hy. destruct (results s !! r) as [x|]; simplify_eq/=. by exists x.
  - rewrite list_lookup_alter_ne in Hy by done. by exists y.
Qed.

Lemma fulfilled_pend r i m s k : k ≠ i → pend (fulfilled r i m s) k = pend s k.
Proof. intros Hne. unfold fulfilled, pend. destruct (dict_get (buckets s) i); simpl; by rewrite !dict_get_del_ne. Qed.

Lemma fulfilled_buckets r i m s k : dict_wf (buckets s) → dict_get (buckets (fulfilled r i m s)) k = if decide (i = k) then None else dict_get (buckets s) k.
Proof.
  intros Hw. unfold fulfilled. destruct (dict_get (buckets s) i) as [b|] eqn:E; simpl.
  - case_decide; [subst; by apply dict_get_del_eq|by apply dict_get_del_ne].
  - case_decide; [by subst|done].
Qed.

Lemma fulfilled_collecting b done out s r x m :
  NoDup done → collecting b done out s → results s !! r = Some x → r_id x = m_task_id m → pend s (r_id x) = Some r →
  collecting b done out (fulfilled r (r_id x) m s).
Proof.
  intros Hd H Hx Hid Hp. pose proof (col_wf _ _ _ _ H) as Hw. split.
  - intros r' Hr. destruct (col_exists _ _ _ _ H r' Hr) as [y Hy]. rewrite fulfilled_results. destruct (lookup_cached m r _ _ _ Hy) as (z & Hz & _). by exists z.
  - intros r1 r2 x1 x2 H1 H2 [y1 [Hy1 ->]]%fulfilled_id [y2 [Hy2 ->]]%fulfilled_id Hids. by apply (col_ids _ _ _ _ H r1 r2 y1 y2).
  - pose proof (col_store _ _ _ _ H). unfold fulfilled. destruct (dict_get (buckets s) (r_id x)); simpl; by rewrite ?length_alter.
  - intros r' y Hr Hy Hn. destruct (fulfilled_lookup _ _ _ _ _ _ Hy Hn) as [Hne Hy']. destruct (col_pending _ _ _ _ H r' y Hr Hy' Hn) as [Hb Hpd].
    assert (r_id x ≠ r_id y) as Hi by (intros E; rewrite E, Hpd in Hp; congruence).
    rewrite fulfilled_buckets, decide_False, fulfilled_pend by done. done.
  - intros i. rewrite fulfilled_buckets by done. case_decide as Hi; [done|]. intros Hb.
    destruct (col_only _ _ _ _ H i Hb) as (r' & y & Hr & Hy & Hiy & Hn). exists r', y. split_and!; [done| |done|done].
    rewrite fulfilled_results. rewrite list_lookup_alter_ne; [done|]. intros ->. by simplify_eq.
  - unfold fulfilled. destruct (dict_get (buckets s) (r_id x)); simpl; [by apply dict_del_wf|done].
  - destruct (decide (r ∈ done ∧ r_cache x = None)) as [[Hr Hn]|Hno].
    + destruct (col_pending _ _ _ _ H r x Hr Hx Hn) as [Hb _].
      rewrite (filter_one_more s _ r); [|done|done| | |].
      * rewrite <- (col_filled _ _ _ _ H). unfold bucket, fulfilled. rewrite Hb. simpl. rewrite list_lookup_alter_eq.
        destruct (lookup_lt_is_Some_2 (bucket_store s) b (col_store _ _ _ _ H)) as [l ->]. simpl. by rewrite app_assoc.
      * intros (y & Hy & z & Hz). congruence.
      * apply fulfilled_cached; [by exists x|by right].
      * intros r' _ Hne. rewrite fulfilled_cached by (by exists x). tauto.
    + rewrite (filter_same_status s).
      * assert (bucket (fulfilled r (r_id x) m s) b = bucket s b) as ->; [|apply H]. unfold bucket, fulfilled.
        destruct (dict_get (buckets s) (r_id x)) as [b'|] eqn:Hb; [|done]. simpl. rewrite list_lookup_alter_ne; [done|]. intros ->.
        destruct (col_only _ _ _ _ H (r_id x) Hb) as (r' & y & Hr & Hy & Hiy & Hn).
        destruct (col_pending _ _ _ _ H r' y Hr Hy Hn) as [_ Hp']. rewrite Hiy, Hp in Hp'. simplify_eq. tauto.
      * intros r' Hr'. rewrite fulfilled_cached by (by exists x). split; [|by left]. intros [?| ->]; [done|]. exists x. split; [done|].
        destruct (r_cache x) eqn:E; [by eexists|]. tauto.
Qed.

Lemma collecting_same b done out s s' :
  results s' = results s → concrete s' = concrete s → weak s' = weak s → buckets s' = buckets s → bucket_store s' = bucket_store s →
  collecting b done out s → collecting b done out s'.
Proof.
  destruct s, s'. simpl. intros -> -> -> -> ->. intros [A B C D E F G]. by split.
Qed.

(** A final state of task [i] is among the messages *)
Definition ended (ms : list meta) (i : string) : Prop := ∃ m, m ∈ ms ∧ is_ready m = true ∧ m_task_id m = i.

(** From [s] to [s'] the messages [ms] arrived: the results of [done] that have a state now had one
    or got one *)
Definition told (done : list nat) (ms : list meta) (s s' : consumer) : Prop :=
  (∀ r, r_id <$> results s' !! r = r_id <$> results s !! r) ∧
  ∀ r x, r ∈ done → results s !! r = Some x → is_cached s' r ↔ is_cached s r ∨ ended ms (r_id x).

Lemma told_none done s s' : results s' = results s → told done [] s s'.
Proof.
  intros H. split; [by rewrite H|]. intros r x _ _. unfold is_cached. rewrite H. split; [by left|]. intros [?|(m & ?%not_elem_of_nil & _)]; done.
Qed.

Lemma told_app done ms ms' s s1 s2 : told done ms s s1 → told done ms' s1 s2 → told done (ms ++ ms') s s2.
Proof.
  intros [I1 T1] [I2 T2]. split; [intros r; by rewrite I2|]. intros r x Hr Hx.
  assert (∃ y, results s1 !! r = Some y ∧ r_id y = r_id x) as (y & Hy & Hi).
  { specialize (I1 r). rewrite Hx in I1. destruct (results s1 !! r) as [y|]; simplify_eq/=. by exists y. }
  rewrite (T2 r y Hr Hy), (T1 r x Hr Hx), Hi. unfold ended. set_solver.
Qed.

Lemma told_skip done m s s' : results s' = results s → (∀ r x, r ∈ done → results s !! r = Some x → ended [m] (r_id x) → is_cached s r) → told done [m] s s'.
Proof.
  intros H Hn. split; [by rewrite H|]. intros r x Hr Hx. unfold is_cached at 1. rewrite H. split; [by left|]. intros [?|He]; [done|]. by apply (Hn r x).
Qed.

Lemma fulfilled_told b done out s r x m :
  collecting b done out s → results s !! r = Some x → r_id x = m_task_id m → pend s (r_id x) = Some r → is_ready m = true →
  told done [m] s (fulfilled r (r_id x) m s).
Proof.
  intros H Hx Hid Hp Hm. split.
  - intros r'. rewrite fulfilled_results. destruct (decide (r' = r)) as [->|]; [by rewrite list_lookup_alter_eq, Hx|by rewrite list_lookup_alter_ne].
  - intros r' x' Hr Hx'. rewrite fulfilled_cached by (by exists x). split.
    + intros [?| ->]; [by left|]. right. simplify_eq. exists m. split_and!; [apply list_elem_of_here|done|done].
    + intros [?|(m' & ->%list_elem_of_singleton & _ & Hi)]; [by left|]. destruct (r_cache x') as [c|] eqn:E; [left; exists x'; by rewrite E|].
      right. destruct (col_pending _ _ _ _ H r' x' Hr Hx' E) as [_ Hp']. rewrite <- Hi, <- Hid, Hp in Hp'. by simplify_eq.
Qed.

Lemma pend_valid n s i r : inv n s → pend s i = Some r → ∃ x, results s !! r = Some x ∧ r_id x = i.
Proof.
  intros H Hp. unfold pend in Hp. destruct (dict_get (concrete s) i) eqn:E; [simplify_eq; by apply (inv_concrete _ _ H)|by apply (inv_weak _ _ H)].
Qed.

Lemma arrive_Ok n s m : inv n s → n < 1000 → (on_state_change m s).2 = Ok ().
Proof.
  intros H Hn. rewrite on_state_change_eq. set (s0 := if has_on_message s then add_log (OnMessage m) s else s).
  assert (inv n s0) as H0 by (unfold s0; destruct (has_on_message s); [by apply inv_log|done]).
  destruct (is_ready m) eqn:Hm; [|done]. destruct (pend s0 (m_task_id m)) as [r|] eqn:Hp.
  - destruct (pend_valid n s0 _ r H0 Hp) as (x & Hx & Hid). by rewrite (dispatch_pending m r x s0).
  - unfold dispatch, etry. rewrite get_pending_eq, Hp. cbn [of_option]. rewrite bool_decide_eq_true_2 by done. unfold put.
    destruct (bm_put_spec (messages s0) (m_task_id m) m (inv_buffer _ _ H0)) as (bf & -> & _); [rewrite (inv_max _ _ H0); by intros ? [= <-]|done].
Qed.

Lemma arrive_collecting n b done out s m :
  inv n s → n < 1000 → NoDup done → collecting b done out s →
  ∃ s', on_state_change m s = (s', Ok ()) ∧ inv (S n) s' ∧ collecting b done out s' ∧ told done [m] s s'.
Proof.
  intros H Hn Hd Hc. pose proof (arrive_step n s m H Hn) as [Hi _]. simpl in Hi. rewrite Nat.add_1_r in Hi. rewrite on_state_change_eq in *.
  set (s0 := if has_on_message s then add_log (OnMessage m) s else s) in *.
  assert (inv n s0) as H0 by (unfold s0; destruct (has_on_message s); [by apply inv_log|done]).
  assert (collecting b done out s0) as Hc0 by (unfold s0; destruct (has_on_message s); [by apply (collecting_same b done out s)|done]).
  assert (results s0 = results s) as Hres by (unfold s0; by destruct (has_on_message s)).
  destruct (is_ready m) eqn:Hm.
  2:{ exists s0. split_and!; [done..|]. apply told_skip; [done|]. intros r x _ _ (? & ->%list_elem_of_singleton & ? & _). congruence. }
  destruct (pend s0 (m_task_id m)) as [r|] eqn:Hp.
  - destruct (pend_valid n s0 _ r H0 Hp) as (x & Hx & Hid).
    rewrite (dispatch_pending m r x s0) in * by done. eexists. split; [done|]. split_and!; [done| |].
    + apply fulfilled_collecting; try done. by rewrite Hid.
    + apply (told_app done [] [m] s s0); [by apply told_none|]. apply (fulfilled_told b done out); try done. by rewrite Hid.
  - unfold dispatch, etry in *. rewrite get_pending_eq, Hp in *. cbn [of_option] in *. rewrite bool_decide_eq_true_2 in * by done. unfold put in *.
    destruct (bm_put_spec (messages s0) (m_task_id m) m (inv_buffer _ _ H0)) as (bf & Hb & _); [rewrite (inv_max _ _ H0); by intros ? [= <-]|].
    rewrite Hb in *. eexists. split; [done|]. split_and!; [done|by apply (collecting_same b done out s0)|]. apply told_skip; [done|].
    intros r x Hr Hx (? & ->%list_elem_of_singleton & _ & Hi2). rewrite <- Hres in Hx. destruct (r_cache x) eqn:E; [exists x; rewrite <- Hres; by rewrite E|].
    destruct (col_pending _ _ _ _ Hc0 r x Hr Hx E) as [_ Hp']. congruence.
Qed.

Lemma arrivals_collecting n b done out s ms :
  inv n s → n + length ms ≤ 1000 → NoDup done → collecting b done out s →
  ∃ s', eiter on_state_change ms s = (s', Ok ()) ∧ inv (n + length ms) s' ∧ collecting b done out s' ∧ told done ms s s'.
Proof.
  revert n s. induction ms as [|m ms IH]; intros n s H Hl Hd Hc; simpl in *; [exists s; rewrite Nat.add_0_r; split_and!; try done; by apply told_none|].
  destruct (arrive_collecting n b done out s m) as (s1 & E1 & H1 & C1 & T1); [done|lia|done|done|]. rewrite (ebind_Ok _ _ _ _ _ E1).
  destruct (IH (S n) s1) as (s2 & E2 & H2 & C2 & T2); [done|lia|done|done|]. exists s2. split; [done|].
  split_and!; [by replace (n + S (length ms)) with (S n + length ms) by lia|done|]. by apply (told_app done [m] ms s s1).
Qed.

Lemma empty_collecting b done out s :
  collecting b done out s → ∃ s' l, empty_bucket b s = (s', Ok l) ∧ collecting b done (out ++ l) s' ∧ bucket s' b = [] ∧
    (∀ n, inv n s → inv n s') ∧ results s' = results s.
Proof.
  intros H. unfold empty_bucket. eexists _, _. split; [done|]. split_and!; [|unfold bucket; simpl; rewrite list_lookup_alter_eq; by destruct (bucket_store s !! b)| |done].
  - split; try apply H; simpl; [rewrite length_alter; apply H|].
    rewrite (filter_same_status s) by done. rewrite <- (col_filled _ _ _ _ H). unfold bucket. simpl. rewrite list_lookup_alter_eq.
    destruct (bucket_store s !! b); simpl; by rewrite ?app_nil_r.
  - intros n. by apply inv_same.
Qed.

Lemma rounds_collecting n b done out s rounds :
  inv n s → n + length (concat rounds) ≤ 1000 → NoDup done → collecting b done out s →
  ∃ s' ys, drain_rounds b rounds out s = (s', Ok ys) ∧ ys ≡ₚ filter (is_cached s') done ∧ told done (concat rounds) s s'.
Proof.
  revert n s out. induction rounds as [|ms rounds IH]; intros n s out H Hl Hd Hc; simpl in *.
  - destruct (empty_collecting b done out s Hc) as (s' & l & E & C & He & _ & Hr). rewrite (ebind_Ok _ _ _ _ _ E). eexists _, _. split; [done|].
    split; [|by apply told_none]. rewrite <- (col_filled _ _ _ _ C), He. by rewrite app_nil_r.
  - rewrite length_app in Hl. destruct (arrivals_collecting n b done out s ms) as (s1 & E1 & H1 & C1 & T1); [done|lia|done|done|].
    rewrite (ebind_Ok _ _ _ _ _ E1). destruct (empty_collecting b done out s1 C1) as (s2 & l & E2 & C2 & _ & Hi & Hr). rewrite (ebind_Ok _ _ _ _ _ E2).
    destruct (IH (n + length ms) s2 (out ++ l)) as (s3 & ys & E3 & Hy & T3); [by apply Hi|lia|done|done|]. exists s3, ys. split_and!; [done|done|].
    apply (told_app done ms _ s s1); [done|]. apply (told_app done [] _ s1 s2); [by apply told_none|done].
Qed.

(** The nodes of a group: distinct tasks, which are awaited unless they are ready *)
Record group_ok (rs : list nat) (s : consumer) : Prop := GroupOk {
  grp_exists : ∀ r, r ∈ rs → ∃ x, results s !! r = Some x;
  grp_ids : ∀ r r' x x', r ∈ rs → r' ∈ rs → results s !! r = Some x → results s !! r' = Some x' → r_id x = r_id x' → r = r';
  grp_pending : ∀ r x, r ∈ rs → results s !! r = Some x → r_cache x = None → pend s (r_id x) = Some r }.

Lemma collect_node_step b done rs s r :
  group_ok rs s → (∀ r', r' ∈ done → r' ∈ rs) → r ∈ rs → r ∉ done → collecting b done [] s →
  ∃ s', collect_node b r s = (s', Ok ()) ∧ collecting b (done ++ [r]) [] s' ∧ group_ok rs s' ∧ (∀ n, inv n s → inv n s') ∧ results s' = results s.
Proof.
  intros G Hsub Hr Hn H. destruct (grp_exists _ _ G r Hr) as [x Hx]. unfold collect_node. rewrite (ebind_Ok _ _ _ _ _ (get_result_eq r x s Hx)).
  assert (∀ r', r' ∈ done ++ [r] → r' ∈ rs) as Hsub' by (intros r' [?|?%list_elem_of_singleton]%elem_of_app; [by apply Hsub|by subst]).
  destruct (r_cache x) as [mt|] eqn:Hc.
  - eexists. split; [done|]. split_and!; [|by destruct G|intros n; by apply inv_same|done]. split; simpl.
    + intros r' Hr'. apply (grp_exists _ _ G). auto.
    + intros r1 r2 x1 x2 H1 H2. apply (grp_ids _ _ G); auto.
    + rewrite length_alter. apply H.
    + intros r' y [Hin| ->%list_elem_of_singleton]%elem_of_app Hy Hny; [by apply (col_pending _ _ _ _ H r')|congruence].
    + intros i Hb. destruct (col_only _ _ _ _ H i Hb) as (r' & y & ? & ?). exists r', y. split; [apply elem_of_app; by left|done].
    + apply H.
    + rewrite (filter_same_status s) by done. rewrite filter_app. rewrite <- (col_filled _ _ _ _ H). unfold bucket. simpl. rewrite list_lookup_alter_eq.
      destruct (lookup_lt_is_Some_2 (bucket_store s) b (col_store _ _ _ _ H)) as [l ->]. simpl.
      rewrite filter_cons, decide_True by (exists x; split; [done|by eexists]). done.
  - eexists. split; [done|]. split_and!; [|by destruct G|intros n; by apply inv_same|done]. split; simpl.
    + intros r' Hr'. apply (grp_exists _ _ G). auto.
    + intros r1 r2 x1 x2 H1 H2. apply (grp_ids _ _ G); auto.
    + apply H.
    + intros r' y [Hin| ->%list_elem_of_singleton]%elem_of_app Hy Hny.
      * destruct (col_pending _ _ _ _ H r' y Hin Hy Hny) as [Hb Hp]. split; [|done]. rewrite dict_get_set. case_decide; [done|done].
      * simplify_eq. split; [apply dict_get_set_eq|]. by apply (grp_pending _ _ G r).
    + intros i. rewrite dict_get_set. case_decide as Hi.
      * intros _. exists r, x. split_and!; try done. apply elem_of_app. right. apply list_elem_of_here.
      * intros Hb. destruct (col_only _ _ _ _ H i Hb) as (r' & y & ? & ?). exists r', y. split; [apply elem_of_app; by left|done].
    + apply dict_set_wf, H.
    + rewrite (filter_same_status s) by done. rewrite filter_app. rewrite <- (col_filled _ _ _ _ H). unfold bucket. simpl.
      rewrite filter_cons, decide_False, filter_nil, app_nil_r; [done|]. intros (y & Hy & z & Hz). congruence.
Qed.

Lemma collect_nodes b rs todo done s :
  NoDup (done ++ todo) → rs = done ++ todo → group_ok rs s → collecting b done [] s →
  ∃ s', eiter (collect_node b) todo s = (s', Ok ()) ∧ collecting b rs [] s' ∧ (∀ n, inv n s → inv n s') ∧ results s' = results s.
Proof.
  revert done s. induction todo as [|r todo IH]; intros done s Hd -> G H; simpl.
  { rewrite app_nil_r. by exists s. }
  destruct (collect_node_step b done (done ++ r :: todo) s r) as (s1 & E1 & C1 & G1 & I1 & R1); try done.
  - intros r' Hr'. apply elem_of_app. by left.
  - apply elem_of_app. right. apply list_elem_of_here.
  - intros Hin. apply NoDup_app in Hd as (_ & Hd & _). by apply (Hd r Hin), list_elem_of_here.
  - rewrite (ebind_Ok _ _ _ _ _ E1). destruct (IH (done ++ [r]) s1) as (s2 & E2 & C2 & I2 & R2); try done.
    + by rewrite <- app_assoc.
    + by rewrite <- app_assoc.
    + exists s2. split_and!; [done|done|auto|congruence].
Qed.

Abbreviation no_buckets := (λ s, buckets s = [] ∧ bucket_store s = []).

Lemma exec_no_buckets o : keeps no_buckets (exec o).
Proof.
  assert (∀ f : consumer → consumer, (∀ s, buckets (f s) = buckets s) → (∀ s, bucket_store (f s) = bucket_store s) → keeps no_buckets (emodify f)) as Hm.
  { intros f H1 H2. apply keeps_modify. intros s. by rewrite H1, H2. }
  assert (∀ i, keeps no_buckets (take i)) as Ht by (intros i s Hs; unfold take; by destruct (bm_take _ _ _) as [[??]| |]).
  assert (∀ i m, keeps no_buckets (put i m)) as Hp by (intros i m s Hs; unfold put; by destruct (bm_put _ _ _)).
  assert (∀ r, keeps no_buckets (to_bucket r)) as Hb.
  { intros r s Hs. unfold to_bucket, ebind, get_result, eget. destruct (results s !! r) as [x|]; [|done]. simpl. by rewrite (proj1 Hs). }
  assert (∀ r m, keeps no_buckets (_maybe_set_cache r m)) as Hc.
  { unfold _maybe_set_cache, remove_pending_result, _remove_pending_result. keeps; [by intros s|by apply Hm..]. }
  destruct o; simpl; unfold add_pending_result, _maybe_resolve_from_buffer, _add_pending_result, remove_pending_result, _remove_pending_result, on_state_change;
    keeps; first [apply Hm; intros; by repeat case_match|apply Ht|apply Hp|apply Hb|apply Hc|by intros s].
Qed.

Lemma exec_all_no_buckets l s : no_buckets s → no_buckets (exec_all l s).
Proof. revert s. induction l as [|o l IH]; intros s Hs; simpl; [done|]. apply IH. by apply (exec_no_buckets o). Qed.

Lemma iter_native_collects n rs rounds s :
  inv n s → no_buckets s → rs ≠ [] → NoDup rs → group_ok rs s → n + length (concat rounds) ≤ 1000 →
  ∃ s' ys, iter_native rs rounds s = (s', Ok ys) ∧ ys ≡ₚ filter (is_cached s') rs ∧ told rs (concat rounds) s s'.
Proof.
  intros H [Hb Hs] Hne Hd G Hl. unfold iter_native. destruct rs as [|r0 rs']; [done|]. set (rs := r0 :: rs') in *.
  set (s0 := set_buckets (buckets s) (bucket_store s ++ [[]]) s).
  rewrite (ebind_Ok new_bucket _ s s0 (length (bucket_store s))) by done. rewrite Hs. simpl length.
  assert (collecting 0 [] [] s0) as C0.
  { split; simpl; rewrite ?Hb, ?Hs; try done.
    - by intros ? ?%not_elem_of_nil.
    - by intros ???? ?%not_elem_of_nil.
    - simpl. lia.
    - by intros ? ? ?%not_elem_of_nil.
    - apply NoDup_nil_2.
    - unfold bucket. simpl. by rewrite Hs. }
  destruct (collect_nodes 0 rs rs [] s0) as (s1 & E1 & C1 & I1 & R1); [done|done|by destruct G|done|].
  rewrite (ebind_Ok _ _ _ _ _ E1). destruct (rounds_collecting n 0 rs [] s1 rounds) as (s2 & ys & E2 & Hy & T); [apply I1; by apply (inv_same n s)|done|done|done|].
  exists s2, ys. split_and!; [done|done|]. by apply (told_app rs [] _ s s1); [apply told_none|].
Qed.

(** Every result of a group is yielded, once.  Whatever happened before (in a process that waits for
    results and has not iterated over a group) and whatever messages arrive in the rounds of draining,
    in whatever order, what iterating over a group of different awaited tasks yields are those of its
    results that had a final state or of whose task one arrived, each once: when every task has ended,
    all of them. *)
Theorem iter_native_yields l rs rounds (s := exec_all l start) :
  rs ≠ [] → NoDup rs → group_ok rs s → length l + length (concat rounds) ≤ 1000 →
  ∃ s' ys, iter_native rs rounds s = (s', Ok ys) ∧ NoDup ys ∧ (∀ r, r ∈ ys → r ∈ rs) ∧
           (∀ r x, r ∈ rs → results s !! r = Some x → r ∈ ys ↔ is_Some (r_cache x) ∨ ended (concat rounds) (r_id x)).
Proof.
  intros Hne Hd G Hl. destruct (exec_all_ok l 0 start inv_start) as [H _]; [lia|].
  destruct (iter_native_collects (length l) rs rounds s) as (s' & ys & E & Hp & T); try done; [by apply exec_all_no_buckets|].
  exists s', ys. split_and!; [done| | |].
  - rewrite Hp. by apply NoDup_filter.
  - intros r. rewrite Hp. by intros [_ ?]%list_elem_of_filter.
  - intros r x Hr Hx. rewrite Hp, list_elem_of_filter, (proj2 T r x Hr Hx). unfold is_cached. rewrite Hx. split.
    + intros [[(y & [= ->] & ?)|?] _]; [by left|by right].
    + intros [?|?]; (split; [|done]); [left; by exists x|by right].
Qed.

(** ** Waiting *)

Section DrainProofs.
Context {S : Type} (ready : S → bool) (drain : S → S) (raises : S → option exn) (elapsed : S → Z) (is_OSError : exn → bool).
Abbreviation draining := (drain_events_until ready drain raises elapsed is_OSError).

Lemma draining_sound fuel timeout s s' o :
  is_OSError RuntimeTimeout = true → draining fuel timeout s = (s', o) →
  match o with
  | Ok _ => ready s' = true
  | Raise e => if bool_decide (e = RuntimeTimeout) then ready s' = false ∧ ∃ t, timeout = Some t ∧ (t <= elapsed s')%Z
               else is_OSError e = false ∧ ∃ s0, raises s0 = Some e ∧ s' = drain s0 ∧ ready s0 = false
  | Diverge => True
  end.
Proof.
  intros Ht. revert s. induction fuel as [|fuel IH]; intros s; simpl; (destruct (ready s) eqn:Hr; [by intros [= <- <-]|]);
    (destruct (match timeout with Some t => (t <=? elapsed s)%Z | None => false end) eqn:Hto;
       [intros [= <- <-]; simpl; split; [done|]; destruct timeout as [t|]; [|done]; exists t; split; [done|by apply Z.leb_le]|]); [by intros [= <- <-]|].
  destruct (raises s) as [e|] eqn:He; [|by apply IH]. destruct (is_OSError e) eqn:Hs; [by apply IH|]. intros [= <- <-].
  rewrite bool_decide_eq_false_2 by (intros E; subst e; congruence). split; [done|]. by exists s.
Qed.

Lemma draining_ends t fuel s :
  (∀ s, elapsed s + 1 <= elapsed (drain s))%Z → (t <= elapsed s + Z.of_nat fuel)%Z → (draining fuel (Some t) s).2 ≠ Diverge.
Proof.
  intros Hp. revert s. induction fuel as [|fuel IH]; intros s Hf; simpl; destruct (ready s); try done; destruct (Z.leb_spec t (elapsed s)); try done; [lia|].
  specialize (Hp s). destruct (raises s) as [e|]; [destruct (is_OSError e); [|done]|]; apply IH; lia.
Qed.

(** Waiting for a result ends, and only for a reason.  When every round of draining takes a second,
    a wait with a timeout ends; it returns only when the result is ready, times out only when the result
    is not ready and the time has passed (a result that is ready takes precedence over the timeout), and
    otherwise raises what draining raised, which is never an error of the connection. *)
Theorem waiting_ends t fuel s s' o :
  is_OSError RuntimeTimeout = true → (∀ s, elapsed s + 1 <= elapsed (drain s))%Z → (t <= elapsed s + Z.of_nat fuel)%Z →
  draining fuel (Some t) s = (s', o) →
  (o = Ok () ∧ ready s' = true) ∨
  (o = Raise RuntimeTimeout ∧ ready s' = false ∧ (t <= elapsed s')%Z) ∨
  ∃ e s0, o = Raise e ∧ e ≠ RuntimeTimeout ∧ is_OSError e = false ∧ raises s0 = Some e ∧ s' = drain s0 ∧ ready s0 = false.
Proof.
  intros Ht Hp Hf E. pose proof (draining_sound _ _ _ _ _ Ht E) as H. pose proof (draining_ends t fuel s Hp Hf) as Hd. rewrite E in Hd.
  destruct o as [[]|e|]; [by left| |done]. right. case_bool_decide as He.
  - left. subst e. destruct H as [? (t' & [= <-] & ?)]. done.
  - right. destruct H as [? (s0 & ? & ? & ?)]. by exists e, s0.
Qed.
End DrainProofs.

Lemma wait_restores {A} on_message (body : M A) s :
  has_on_message (_wait_for_pending on_message body s).1 = has_on_message s ∧
  ((_wait_for_pending on_message body s).2 = Raise RuntimeTimeout → False).
Proof.
  unfold _wait_for_pending, ebind, eget, emodify, efinally, ecatch, eraise.
  destruct (body (set_on_message on_message s)) as [s1 [a|e|]]; simpl; try (by split). case_bool_decide; simpl; split; congruence.
Qed.

End AsyncResults.

(** * Evaluated *)

Module AsyncResultsExamples.
Import BufferMap AsyncResults.
Local Open Scope string_scope.

Definition ok (id : string) : meta := Meta id "SUCCESS" 1.
Definition began (id : string) : meta := Meta id "STARTED" 0.

(** One result is awaited before its message arrives, one after *)
Definition history : list op := [New "a"; New "b"; New "c"; Add 0 false; Arrive (ok "b"); Arrive (began "a"); Add 1 true; Add 2 true].

Example before_and_after :
  let s := exec_all (history ++ [Arrive (ok "a")])%list start in
  r_cache <$> results s = [Some (ok "a"); Some (ok "b"); None] ∧ concrete s = [] ∧ weak s = [("c", 2)].
Proof. by vm_compute. Qed.

Lemma no_result_missed_witness : queue_of (messages (exec_all history start)) "c" = [] ∧ delivered (exec_all history start) "b" = [ok "b"].
Proof.
  destruct (no_result_missed history) as (H & _); [simpl; lia|]. split; [apply H; right; reflexivity|reflexivity].
Defined.

Lemma history_group : group_ok [0; 1; 2] (exec_all history start).
Proof.
  assert (results (exec_all history start) = [Result "a" None; Result "b" (Some (ok "b")); Result "c" None]) as Hres by (by vm_compute).
  assert (pend (exec_all history start) "a" = Some 0 ∧ pend (exec_all history start) "c" = Some 2) as [Ha Hc] by (vm_compute; split; reflexivity).
  split; setoid_rewrite Hres.
  - intros r Hr. apply lookup_lt_is_Some_2. simpl. repeat (apply elem_of_cons in Hr as [->|Hr]; [lia|]). destruct (not_elem_of_nil _ Hr).
  - intros [|[|[|r]]] [|[|[|r']]] x x' _ _ [= <-] [= <-]; done.
  - intros [|[|[|r]]] x _ [= <-]; done.
Qed.

(** The one that has its state is yielded first; then in the order of their messages *)
Example yields : (iter_native [0; 1; 2] [[ok "c"]; []; [ok "x"; ok "a"]] (exec_all history start)).2 = Ok [1; 2; 0].
Proof. by vm_compute. Qed.

Lemma iter_native_yields_witness :
  ∃ s' ys, iter_native [0; 1; 2] [[ok "c"]; []; [ok "x"; ok "a"]] (exec_all history start) = (s', Ok ys) ∧ 0 ∈ ys ∧ NoDup ys.
Proof.
  destruct (iter_native_yields history [0; 1; 2] [[ok "c"]; []; [ok "x"; ok "a"]]) as (s' & ys & E & Hd & _ & H).
  - done.
  - repeat constructor; set_solver.
  - apply history_group.
  - simpl. lia.
  - exists s', ys. split_and!; [done| |done]. apply (H 0 (Result "a" None)); [apply list_elem_of_here|by vm_compute|]. right. exists (ok "a").
    split; [simpl; do 2 apply list_elem_of_further; apply list_elem_of_here|]. split; by vm_compute.
Defined.

(** A clock that is ready after three rounds, the second of which fails with an error of the connection *)
Definition ready_at (n : Z) (t : Z) : bool := (n <=? t)%Z.
Definition fails (t : Z) : option exn := if (t =? 1)%Z then Some RuntimeTimeout else None.
Definition is_timeout (e : exn) : bool := bool_decide (e = RuntimeTimeout).

Lemma waiting_ends_witness : drain_events_until (ready_at 3) (λ t, t + 1)%Z fails (λ t, t) is_timeout 10 (Some 9%Z) 0%Z = (3%Z, Ok ()) ∧ ready_at 3 3 = true.
Proof.
  split; [reflexivity|].
  destruct (waiting_ends (ready_at 3) (λ t, t + 1)%Z fails (λ t, t) is_timeout 9 10 0%Z 3%Z (Ok ())) as [[_ H]|[(H & _)|(e & s0 & H & _)]];
    [reflexivity|intros; lia|lia|reflexivity|exact H|discriminate H|discriminate H].
Defined.

Example timed_out : drain_events_until (ready_at 3) (λ t, t + 1)%Z fails (λ t, t) is_timeout 10 (Some 2%Z) 0%Z = (2%Z, Raise RuntimeTimeout).
Proof. reflexivity. Qed.
(** A timeout of zero does not keep a result that is ready from being returned *)
Example ready_first : drain_events_until (ready_at 0) (λ t, t + 1)%Z fails (λ t, t) is_timeout 10 (Some 0%Z) 0%Z = (0%Z, Ok ()).
Proof. reflexivity. Qed.

(** A second object for a task that is awaited already is not registered: it never gets the state *)
Example second_object_waits :
  let s := exec_all [New "a"; New "a"; Add 0 false; Add 1 false; Arrive (ok "a")] start in
  r_cache <$> results s = [Some (ok "a"); None] ∧ log s = [ConsumeFrom "a"; Delivered 0 (ok "a"); CancelFor "a"] ∧
  concrete s = [] ∧ weak s = [] ∧ queue_of (messages s) "a" = [].
Proof. by vm_compute. Qed.

(** Between the look into the buffer and the registration a message may come, in another thread:
    it stays in the buffer and the result waits *)
Example arrives_between :
  let s0 := exec_all [New "a"] start in
  let s1 := (take "a" s0).1 in
  let s2 := (on_state_change (ok "a") s1).1 in
  let s3 := (_add_pending_result 0 false s2).1 in
  (take "a" s0).2 = Raise QueueEmpty ∧ awaited s3 "a" ∧ queue_of (messages s3) "a" = [ok "a"] ∧ r_cache <$> results s3 = [None].
Proof. split_and!; [reflexivity|left; reflexivity|reflexivity|reflexivity]. Qed.

(** An empty group cannot be iterated over *)
Example empty_group_raises : (iter_native [] [] start).2 = Raise RuntimeError.
Proof. reflexivity. Qed.

End AsyncResultsExamples.
