(* ===== verification/RpcBackend.v ===== *)
(** The RPC result backend (celery/backends/rpc.py): states are messages on one queue per client,
    which polling fast-forwards and a consumer (AsyncResults.v) drains.

    A message has a correlation id and a payload.  An exception and its serialised form are one
    value here (Exceptions.v models the conversion), so [meta_from_decoded] is the identity. *)

From S2P Require Import Prelude.
From S2P Require Import PyDict.
From S2P Require Import Effect.
From S2P Require Import States.
From S2P Require Import Buffers.
From S2P Require Import AsyncResults.
Local Open Scope eff_scope.

Module RpcBackend.
Import Messagebuffer BufferMap AsyncResults.

(** The cache of states: [LRUCache], or a dictionary that keeps nothing *)
Class StateCache (T : Type) := {
  cache_get : T → string → option meta;
  cache_set : T → string → meta → T;
  cache_pop : T → string → T;
  cache_empty : T;
  cache_set_sound t k m k' m' : cache_get (cache_set t k m) k' = Some m' → (k' = k ∧ m' = m) ∨ (k' ≠ k ∧ cache_get t k' = Some m');
  cache_pop_sound t k k' m' : cache_get (cache_pop t k) k' = Some m' → k' ≠ k ∧ cache_get t k' = Some m';
  cache_empty_sound k : cache_get cache_empty k = None }.

Record message := Message { tag : nat; correlation_id : option string; payload : meta }.

Inductive settlement := Acked | Requeued.
#[global] Instance settlement_eq_dec : EqDecision settlement.
Proof. solve_decision. Defined.

(** [_get_message_task_id] *)
Definition _get_message_task_id (m : message) : string := default (m_task_id (payload m)) (correlation_id m).

Section Rpc.
Context {T : Type} `{!StateCache T}.

Record rpc := Rpc {
  con : consumer;
  _out_of_band : pydict string message;
  _cache : T;
  queue : list message;
  settled : list (message * settlement) }.

Abbreviation M := (eff rpc).

Definition set_con c (s : rpc) : rpc := Rpc c (_out_of_band s) (_cache s) (queue s) (settled s).
Definition set_out_of_band d (s : rpc) : rpc := Rpc (con s) d (_cache s) (queue s) (settled s).
Definition set_cache c (s : rpc) : rpc := Rpc (con s) (_out_of_band s) c (queue s) (settled s).
Definition set_queue q (s : rpc) : rpc := Rpc (con s) (_out_of_band s) (_cache s) q (settled s).
Definition settle (m : message) (x : settlement) (s : rpc) : rpc :=
  Rpc (con s) (_out_of_band s) (_cache s) (queue s) (settled s ++ [(m, x)]).

Definition ack (m : message) : M () := emodify (settle m Acked).
(** The broker puts a message that is requeued back into the queue *)
Definition requeue (m : message) : M () := emodify (λ s, settle m Requeued (set_queue (m :: queue s) s)).

(** [ResultConsumer.on_state_change] *)
Definition on_state_change (m : meta) : M () := λ s,
  match AsyncResults.on_state_change m (con s) with
  | (c, Ok _) =>
      let s := set_con c s in
      (if is_ready m then set_out_of_band (dict_del (_out_of_band s) (m_task_id m)) s else s, Ok ())
  | (c, Raise e) => (set_con c s, Raise e)
  | (c, Diverge) => (set_con c s, Diverge)
  end.

Definition _set_cache_by_message (id : string) (m : message) : M meta :=
  run! emodify (λ s, set_cache (cache_set (_cache s) id (payload m)) s) in
  eret (payload m).

Definition on_out_of_band_result (id : string) (m : message) : M () :=
  run! on_state_change (payload m) in
  run! (if is_ready (payload m) then run! _set_cache_by_message id m in eret ()
        else emodify (λ s, set_out_of_band (dict_set (_out_of_band s) id m) s)) in
  ack m.

(** [_slurp_from_queue] and the loop over what it gives: of every task the latest message is kept,
    the ones before it are acknowledged *)
Fixpoint slurp (limit : nat) (latest_by_id : pydict string message) : M (pydict string message) :=
  match limit with
  | 0 => eraise BacklogLimitExceeded
  | S limit =>
      do! q := eget queue in
      match q with
      | [] => eret latest_by_id
      | acc :: q =>
          run! emodify (set_queue q) in
          let tid := _get_message_task_id acc in
          run! match dict_get latest_by_id tid with Some prev => ack prev | None => eret () end in
          slurp limit (dict_set latest_by_id tid acc)
      end
  end.

(** What is known of a task without a new message *)
Definition known (s : rpc) (id : string) : meta :=
  match cache_get (_cache s) id with
  | Some m => m
  | None => default (Meta id "PENDING" 0) (last (queue_of (messages (con s)) id))
  end.

Definition get_task_meta (backlog_limit : nat) (id : string) : M meta :=
  do! buffered := eget (λ s, dict_get (_out_of_band s) id) in
  run! emodify (λ s, set_out_of_band (dict_del (_out_of_band s) id) s) in
  match buffered with
  | Some m => _set_cache_by_message id m
  | None =>
      do! latest_by_id := slurp backlog_limit [] in
      run! eiter (λ '(tid, m), on_out_of_band_result tid m) (dict_del latest_by_id id) in
      match dict_get latest_by_id id with
      | Some latest =>
          do! m := _set_cache_by_message id latest in
          run! (if is_ready m then run! on_state_change (payload latest) in ack latest else requeue latest) in
          eret m
      | None => eget (λ s, known s id)
      end
  end.

(** [self._pending_messages.pop(task_id)], with the number of messages *)
Definition pop_buffer (id : string) (b : bufmap string meta) : bufmap string meta :=
  match dict_get (bm_map b) id with
  | None => b
  | Some buf => set_map b (bm_total b - mb_len buf) (dict_del (bm_map b) id)
  end.

Definition forget (id : string) : M () :=
  run! emodify (λ s, set_out_of_band (dict_del (_out_of_band s) id) s) in
  run! emodify (λ s, set_con (set_messages (pop_buffer id (messages (con s))) (con s)) s) in
  emodify (λ s, set_cache (cache_pop (_cache s) id) s).

(** [RPCBackend._after_fork] and [BaseResultConsumer._after_fork] *)
Definition _after_fork : M () :=
  run! emodify (λ s, set_con (set_pending [] [] (con s)) s) in
  run! emodify (set_out_of_band []) in
  run! emodify (λ s, set_con (set_messages (set_map (messages (con s)) 0 []) (con s)) s) in
  run! emodify (set_cache cache_empty) in
  emodify (λ s, set_con (set_on_message false (set_buckets [] (bucket_store (con s)) (con s))) s).

(** ** Reading the queue *)

Abbreviation tid := _get_message_task_id.

Definition last_for (id : string) (q : list message) : option message := last (filter (λ m, tid m = id) q).

(** The latest message of every task *)
Definition latest_of (d : pydict string message) (q : list message) : pydict string message :=
  foldl (λ d m, dict_set d (tid m) m) d q.

Fixpoint superseded (d : pydict string message) (q : list message) : list message :=
  match q with
  | [] => []
  | m :: q => option_list (dict_get d (tid m)) ++ superseded (dict_set d (tid m) m) q
  end.

Lemma slurp_eq n d s :
  length (queue s) < n →
  slurp n d s = (Rpc (con s) (_out_of_band s) (_cache s) [] (settled s ++ ((., Acked) <$> superseded d (queue s))), Ok (latest_of d (queue s))).
Proof.
  revert d s. induction n as [|n IH]; intros d s Hl; [lia|]. cbn [slurp]. rewrite ebind_get. destruct (queue s) as [|m q] eqn:Hq.
  - destruct s; simpl in *; subst. simpl. by rewrite app_nil_r.
  - rewrite ebind_modify. simpl in Hl. simpl. destruct (dict_get d (tid m)) as [prev|] eqn:Hp.
    + unfold ack. rewrite ebind_modify. rewrite IH by (simpl; lia). simpl. by rewrite <- app_assoc.
    + rewrite (ebind_Ok _ _ _ (set_queue q s) ()) by done. rewrite IH by (simpl; lia). done.
Qed.

Lemma latest_of_wf d q : dict_wf d → dict_wf (latest_of d q).
Proof. revert d. induction q as [|m q IH]; intros d Hw; [done|]. simpl. apply IH. by apply dict_set_wf. Qed.

Lemma latest_of_get d q i : dict_get (latest_of d q) i = match last_for i q with Some m => Some m | None => dict_get d i end.
Proof.
  revert d. induction q as [|m q IH]; intros d; [done|]. simpl. rewrite IH. unfold last_for. rewrite filter_cons. case_decide as Hm.
  - rewrite last_cons. destruct (last (filter _ q)); [done|]. subst i. by rewrite dict_get_set_eq.
  - destruct (last (filter _ q)); [done|]. by rewrite dict_get_set_ne.
Qed.

(** Nothing that was read is lost *)
Lemma superseded_perm d q : dict_wf d → superseded d q ++ dict_values (latest_of d q) ≡ₚ dict_values d ++ q.
Proof.
  revert d. induction q as [|m q IH]; intros d Hw; simpl; [by rewrite app_nil_r|]. rewrite <- app_assoc, IH by (by apply dict_set_wf).
  destruct (dict_get d (tid m)) as [prev|] eqn:Hp; simpl.
  - pose proof (dict_del_perm d (tid m) prev Hp) as H1.
    pose proof (dict_del_perm (dict_set d (tid m) m) (tid m) m (dict_get_set_eq _ _ _)) as H2. rewrite dict_del_set in H2.
    unfold dict_values. rewrite H2. rewrite H1 at 2. simpl. solve_Permutation.
  - apply dict_get_None in Hp. pose proof (dict_del_perm (dict_set d (tid m) m) (tid m) m (dict_get_set_eq _ _ _)) as H2.
    rewrite dict_del_set, dict_del_notin in H2 by done. unfold dict_values. rewrite H2. simpl. solve_Permutation.
Qed.

(** ** Messages of other tasks *)

(** The correlation id of a message is the id of the task *)
Definition coherent (m : message) : Prop := tid m = m_task_id (payload m).

Definition final (m : message) : bool := is_ready (payload m).
Definition final_of (o : option message) : list meta :=
  match o with Some m => if final m then [payload m] else [] | None => [] end.

(** The state [s'] after [m] was given to the consumer in state [s] *)
Definition given (n : nat) (m : message) (s s' : rpc) : Prop :=
  inv (S n) (con s') ∧ _cache s' = _cache s ∧ queue s' = queue s ∧ settled s' = settled s ∧
  _out_of_band s' = (if final m then dict_del (_out_of_band s) (m_task_id (payload m)) else _out_of_band s) ∧
  ∀ i, accounted (con s') i ≡ₚ accounted (con s) i ++ (if bool_decide (m_task_id (payload m) = i) then final_of (Some m) else []).

Lemma state_change_given n m s :
  inv n (con s) → n < 1000 → ∃ s', on_state_change (payload m) s = (s', Ok ()) ∧ given n m s s'.
Proof.
  intros H Hn. destruct (arrive_step n (con s) (payload m) H Hn) as [Hi Ha]. simpl in Hi, Ha. rewrite Nat.add_1_r in Hi.
  unfold on_state_change. pose proof (arrive_Ok n (con s) (payload m) H Hn) as Ho.
  destruct (AsyncResults.on_state_change (payload m) (con s)) as [c o]; simpl in *. subst o. eexists. split; [done|]. unfold given, final.
  assert (∀ i, accounted c i ≡ₚ accounted (con s) i ++ (if bool_decide (m_task_id (payload m) = i) then final_of (Some m) else [])) as Ha'.
  { intros i. rewrite Ha. unfold arrived. simpl. unfold final_of, final. by destruct (is_ready (payload m)), (bool_decide _). }
  by destruct (is_ready (payload m)).
Qed.

Lemma out_of_band_step n i m s :
  inv n (con s) → n < 1000 → coherent m → tid m = i → dict_wf (_out_of_band s) →
  ∃ s', on_out_of_band_result i m s = (s', Ok ()) ∧ inv (S n) (con s') ∧ queue s' = queue s ∧ settled s' = settled s ++ [(m, Acked)] ∧
    dict_wf (_out_of_band s') ∧
    (∀ k, dict_get (_out_of_band s') k = if decide (i = k) then (if final m then None else Some m) else dict_get (_out_of_band s) k) ∧
    ∀ k, accounted (con s') k ≡ₚ accounted (con s) k ++ (if decide (i = k) then final_of (Some m) else []).
Proof.
  intros H Hn Hc Hi Hw. destruct (state_change_given n m s H Hn) as (s1 & E & H1 & Hca & Hq & Hs & Ho & Ha). unfold on_out_of_band_result.
  rewrite (ebind_Ok _ _ _ _ _ E). unfold coherent in Hc. rewrite <- Hc, Hi in Ha, Ho.
  assert (∀ k, accounted (con s1) k ≡ₚ accounted (con s) k ++ (if decide (i = k) then final_of (Some m) else [])) as Ha'.
  { intros k. rewrite Ha. by case_decide; case_bool_decide. }
  unfold final in *. destruct (is_ready (payload m)); eexists; (split; [done|]); simpl; rewrite Hq, Hs, Ho; split_and!; try done.
  - by apply dict_del_wf.
  - intros k. case_decide; [subst; by apply dict_get_del_eq|by apply dict_get_del_ne].
  - by apply dict_set_wf.
  - intros k. apply dict_get_set.
Qed.

Lemma out_of_band_all n l s :
  inv n (con s) → n + length l ≤ 1000 → dict_wf l → (∀ i m, (i, m) ∈ l → coherent m ∧ tid m = i) → dict_wf (_out_of_band s) →
  ∃ s', eiter (λ '(i, m), on_out_of_band_result i m) l s = (s', Ok ()) ∧ inv (n + length l) (con s') ∧ queue s' = queue s ∧
    settled s' = settled s ++ ((., Acked) <$> dict_values l) ∧ dict_wf (_out_of_band s') ∧
    (∀ k, dict_get (_out_of_band s') k = match dict_get l k with Some m => if final m then None else Some m | None => dict_get (_out_of_band s) k end) ∧
    ∀ k, accounted (con s') k ≡ₚ accounted (con s) k ++ final_of (dict_get l k).
Proof.
  revert n s. induction l as [|[i m] l IH]; intros n s H Hl Hd Hc Hw.
  { exists s. simpl. rewrite Nat.add_0_r, app_nil_r. split_and!; try done. intros k. by rewrite app_nil_r. }
  simpl in Hl. apply NoDup_cons in Hd as [Hn Hd]. destruct (Hc i m (list_elem_of_here _ _)) as [Hm Hi].
  destruct (out_of_band_step n i m s) as (s1 & E & H1 & Hq & Hs & Hw1 & Ho & Ha); [done|lia|done..|].
  destruct (IH (S n) s1) as (s2 & E2 & H2 & Hq2 & Hs2 & Hw2 & Ho2 & Ha2); [done|lia|done|intros; apply Hc; by apply list_elem_of_further|done|].
  exists s2. cbn [eiter]. rewrite (ebind_Ok _ _ _ _ _ E). assert (dict_get l i = None) as Hli by (by apply dict_get_None).
  split_and!; [done|by replace (n + length ((i, m) :: l)) with (S n + length l) by (simpl; lia)|congruence| |done| |].
  - rewrite Hs2, Hs. simpl. by rewrite <- app_assoc.
  - intros k. rewrite Ho2, Ho. simpl. destruct (decide (k = i)) as [->|]; [by rewrite decide_True, Hli|by rewrite decide_False].
  - intros k. rewrite Ha2, Ha. simpl. destruct (decide (k = i)) as [->|]; [by rewrite decide_True, Hli, app_nil_r|by rewrite decide_False, app_nil_r].
Qed.

(** ** Polling *)

Record ready_to_poll (n limit : nat) (s : rpc) : Prop := ReadyToPoll {
  rp_inv : inv n (con s);
  rp_room : n + length (queue s) ≤ 1000;
  rp_limit : length (queue s) < limit;
  rp_coherent : Forall coherent (queue s);
  rp_wf : dict_wf (_out_of_band s) }.

Lemma last_for_elem i q m : last_for i q = Some m → m ∈ q ∧ tid m = i.
Proof. intros H. apply last_Some_elem_of, list_elem_of_filter in H. tauto. Qed.

Lemma latest_elem q i m : (i, m) ∈ latest_of [] q → m ∈ q ∧ tid m = i.
Proof.
  intros H. apply (dict_elem_get _ _ _ (latest_of_wf [] q (NoDup_nil_2))) in H. rewrite latest_of_get in H.
  destruct (last_for i q) eqn:E; simplify_eq/=. by apply last_for_elem.
Qed.

Lemma latest_length q : length (latest_of [] q) ≤ length q.
Proof.
  pose proof (superseded_perm [] q (NoDup_nil_2)) as H. apply Permutation_length in H. unfold dict_values in H. rewrite length_app, length_fmap in H. simpl in H. lia.
Qed.

(** What a poll of [id] that reads the queue does: [l] are the messages it settled *)
Record polled (n : nat) (id : string) (s s' : rpc) (l : list (message * settlement)) (m : meta) : Prop := Polled {
  po_inv : inv (n + length (queue s)) (con s');
  po_settled : settled s' = settled s ++ l;
  po_once : l.*1 ≡ₚ queue s;
  po_requeued : ∀ x, (x, Requeued) ∈ l → last_for id (queue s) = Some x ∧ final x = false;
  po_queue : queue s' = match last_for id (queue s) with Some x => if final x then [] else [x] | None => [] end;
  po_result : m = match last_for id (queue s) with Some x => payload x | None => known s' id end;
  po_final : ∀ i, accounted (con s') i ≡ₚ accounted (con s) i ++ final_of (last_for i (queue s));
  po_band : ∀ i, dict_get (_out_of_band s') i =
    if decide (i = id) then None else
    match last_for i (queue s) with Some x => if final x then None else Some x | None => dict_get (_out_of_band s) i end;
  po_wf : dict_wf (_out_of_band s') }.

(** The messages of the other tasks *)
Lemma poll_others n limit id s (d := latest_of [] (queue s)) :
  ready_to_poll n limit s → dict_get (_out_of_band s) id = None →
  ∃ s1 s2, slurp limit [] (set_out_of_band (dict_del (_out_of_band s) id) s) = (s1, Ok d) ∧
    eiter (λ '(i, m), on_out_of_band_result i m) (dict_del d id) s1 = (s2, Ok ()) ∧ inv (n + length (dict_del d id)) (con s2) ∧ queue s2 = [] ∧
    settled s2 = settled s ++ ((., Acked) <$> superseded [] (queue s) ++ dict_values (dict_del d id)) ∧ dict_wf (_out_of_band s2) ∧
    (∀ i, dict_get (_out_of_band s2) i = if decide (i = id) then None else
       match last_for i (queue s) with Some x => if final x then None else Some x | None => dict_get (_out_of_band s) i end) ∧
    (∀ i, accounted (con s2) i ≡ₚ accounted (con s) i ++ (if decide (i = id) then [] else final_of (last_for i (queue s)))).
Proof.
  intros [H Hr Hl Hc Hw] Hb. rewrite slurp_eq by done. simpl.
  set (s1 := Rpc (con s) (dict_del (_out_of_band s) id) (_cache s) [] (settled s ++ ((., Acked) <$> superseded [] (queue s)))).
  assert (dict_wf d) as Hd by (apply latest_of_wf, NoDup_nil_2).
  assert (length (dict_del d id) ≤ length (queue s)) as Hle by (etrans; [apply sublist_length, dict_del_sublist|apply latest_length]).
  destruct (out_of_band_all n (dict_del d id) s1) as (s2 & E & H2 & Hq & Hs & Hw2 & Ho & Ha); [done|lia|by apply dict_del_wf| |by apply dict_del_wf|].
  { intros i m Hin. destruct (latest_elem (queue s) i m) as [Hm Hi]; [by eapply elem_of_sublist, dict_del_sublist|].
    split; [|done]. by eapply Forall_forall in Hc. }
  exists s1, s2. split_and!; [done|done|done|done| |done| |].
  - rewrite Hs. simpl. by rewrite fmap_app, app_assoc.
  - intros i. rewrite Ho. simpl. case_decide as Hi.
    + subst. by rewrite !dict_get_del_eq.
    + rewrite !dict_get_del_ne by done. unfold d. rewrite latest_of_get. simpl. by destruct (last_for i (queue s)).
  - intros i. rewrite Ha. simpl. case_decide as Hi.
    + subst. by rewrite dict_get_del_eq.
    + rewrite dict_get_del_ne by done. unfold d. rewrite latest_of_get. simpl. by destruct (last_for i (queue s)).
Qed.

Lemma read_all q id x : dict_get (latest_of [] q) id = Some x → superseded [] q ++ dict_values (dict_del (latest_of [] q) id) ++ [x] ≡ₚ q.
Proof.
  intros Hx. pose proof (superseded_perm [] q (NoDup_nil_2)) as Hp. simpl in Hp.
  trans (superseded [] q ++ dict_values (latest_of [] q)); [|done]. f_equiv. unfold dict_values.
  rewrite (dict_del_perm (latest_of [] q) id x Hx) at 2. simpl. solve_Permutation.
Qed.

Lemma others_fewer q id x : dict_get (latest_of [] q) id = Some x → S (length (dict_del (latest_of [] q) id)) ≤ length q.
Proof. intros Hx. pose proof (latest_length q). pose proof (Permutation_length (dict_del_perm _ _ _ Hx)) as Hl. simpl in Hl. lia. Qed.

Lemma acked_firsts (l : list message) : ((., Acked) <$> l).*1 = l.
Proof. rewrite <- list_fmap_compose. apply list_fmap_id. Qed.

Lemma acked_only (l : list message) y h : (y, h) ∈ ((., Acked) <$> l) → h = Acked.
Proof. intros (? & ? & _)%list_elem_of_fmap. by simplify_eq. Qed.

(** The end of a poll, when there is a message of the task *)
Definition poll_latest (id : string) (latest : message) : M meta :=
  do! m := _set_cache_by_message id latest in
  run! (if is_ready m then run! on_state_change (payload latest) in ack latest else requeue latest) in
  eret m.

Lemma poll_latest_final n id x s :
  inv n (con s) → n < 1000 → final x = true → coherent x → tid x = id → dict_wf (_out_of_band s) → dict_get (_out_of_band s) id = None →
  ∃ s', poll_latest id x s = (s', Ok (payload x)) ∧ inv (S n) (con s') ∧ queue s' = queue s ∧ settled s' = settled s ++ [(x, Acked)] ∧
    _cache s' = cache_set (_cache s) id (payload x) ∧ dict_wf (_out_of_band s') ∧ (∀ i, dict_get (_out_of_band s') i = dict_get (_out_of_band s) i) ∧
    ∀ i, accounted (con s') i ≡ₚ accounted (con s) i ++ (if decide (i = id) then [payload x] else []).
Proof.
  intros H Hn Hf Hc Hi Hw Hb. destruct (state_change_given n x (set_cache (cache_set (_cache s) id (payload x)) s)) as (s4 & E4 & H4 & Hca & Hq4 & Hs4 & Ho4 & Ha4); [done|done|].
  unfold coherent in Hc. rewrite <- Hc, Hi in Ho4, Ha4. rewrite Hf in Ho4. unfold poll_latest, _set_cache_by_message. unfold final in Hf.
  unfold ebind at 1 2, emodify, eret. rewrite Hf. unfold ebind at 1. rewrite (ebind_Ok _ _ _ _ _ E4). eexists. split; [done|]. simpl.
  rewrite Hs4, Hq4, Hca, Ho4. split_and!; try done.
  - by apply dict_del_wf.
  - intros i. destruct (decide (id = i)) as [->|]; [simpl; by rewrite dict_get_del_eq|by rewrite dict_get_del_ne].
  - intros i. rewrite Ha4. simpl. unfold final. rewrite Hf. case_bool_decide; case_decide; congruence || done.
Qed.

Lemma poll_spec n limit id s :
  ready_to_poll n limit s → dict_get (_out_of_band s) id = None →
  ∃ s' l m, get_task_meta limit id s = (s', Ok m) ∧ polled n id s s' l m ∧
            (∀ x, last_for id (queue s) = Some x → ∃ c, _cache s' = cache_set c id (payload x)).
Proof.
  intros R Hb. destruct (poll_others n limit id s R Hb) as (s1 & s2 & E1 & E2 & H2 & Hq & Hs & Hw & Ho & Ha).
  destruct R as [H Hr Hl Hc Hwf]. set (d := latest_of [] (queue s)) in *.
  assert (get_task_meta limit id s = (match dict_get d id with Some latest => poll_latest id latest | None => eget (λ s, known s id) end) s2) as ->.
  { unfold get_task_meta. rewrite ebind_get, Hb, ebind_modify. rewrite (ebind_Ok _ _ _ _ _ E1), (ebind_Ok _ _ _ _ _ E2). done. }
  pose proof (latest_of_get [] (queue s) id) as Hg. fold d in Hg. destruct (last_for id (queue s)) as [x|] eqn:Hx; simpl in Hg; rewrite Hg.
  - pose proof (read_all _ _ _ Hg) as Hall. pose proof (others_fewer _ _ _ Hg) as Hlen. fold d in Hall, Hlen.
    destruct (last_for_elem _ _ _ Hx) as [Hin Hi]. assert (coherent x) as Hcx by (by eapply Forall_forall in Hc).
    set (acks := superseded [] (queue s) ++ dict_values (dict_del d id)) in *. rewrite app_assoc in Hall. fold acks in Hall.
    destruct (final x) eqn:Hf.
    + destruct (poll_latest_final (n + length (dict_del d id)) id x s2) as (s4 & -> & H4 & Hq4 & Hs4 & Hca & Hw4 & Ho4 & Ha4); try done; [lia|rewrite Ho; by rewrite decide_True|].
      eexists _, (((., Acked) <$> acks) ++ [(x, Acked)]), _. split; [done|]. split; [|intros y [= <-]; by exists (_cache s2)].
      split; rewrite ?Hx, ?Hf; try done.
      * apply (inv_mono (S (n + length (dict_del d id)))); [lia|done].
      * rewrite Hs4, Hs. by rewrite <- app_assoc.
      * rewrite fmap_app, acked_firsts. done.
      * intros y [Hy%acked_only|Hy%list_elem_of_singleton]%elem_of_app; done.
      * by rewrite Hq4.
      * intros i. rewrite Ha4, Ha. case_decide; [subst i; rewrite Hx; simpl; by rewrite Hf, app_nil_r|by rewrite app_nil_r].
      * intros i. by rewrite Ho4, Ho.
    + unfold poll_latest. unfold ebind, _set_cache_by_message, emodify, eret, requeue. simpl. change (is_ready (payload x)) with (final x). rewrite Hf.
      eexists _, (((., Acked) <$> acks) ++ [(x, Requeued)]), _. split; [done|].
      split; [|intros y [= <-]; by exists (_cache s2)]. split; simpl; rewrite ?Hx, ?Hf; try done.
      * apply (inv_mono (n + length (dict_del d id))); [lia|done].
      * rewrite Hs. by rewrite <- app_assoc.
      * rewrite fmap_app, acked_firsts. done.
      * intros y [Hy%acked_only|Hy%list_elem_of_singleton]%elem_of_app; [done|by simplify_eq].
      * by rewrite Hq.
      * intros i. rewrite Ha. case_decide; [subst i; rewrite Hx; simpl; by rewrite Hf|done].
  - assert (dict_del d id = d) as Hdel by (apply dict_del_notin; by apply dict_get_None). rewrite Hdel in *.
    pose proof (superseded_perm [] (queue s) (NoDup_nil_2)) as Hp. fold d in Hp. pose proof (latest_length (queue s)) as Hlen. fold d in Hlen.
    eexists _, ((., Acked) <$> superseded [] (queue s) ++ dict_values d), _. split; [done|]. split; [|done]. split; rewrite ?Hx; try done.
    + apply (inv_mono (n + length d)); [lia|done].
    + by rewrite acked_firsts.
    + intros y Hy%acked_only. done.
    + intros i. rewrite Ha. case_decide; [subst i; by rewrite Hx|done].
Qed.

(** A poll loses nothing.  When fewer messages are in the queue than the limit, a poll that finds no
    state set aside for its task returns the latest state in the queue, else what is known of the task;
    every message it read is settled once, all acknowledged but the latest of the task if that is not
    final, which goes back to the queue; of every task that ended, the latest state was given to the
    result that waits for it or is buffered; of every other task that has not, it is set aside. *)
Theorem poll_conserves n limit id s :
  ready_to_poll n limit s → dict_get (_out_of_band s) id = None →
  ∃ s' l m, get_task_meta limit id s = (s', Ok m) ∧ polled n id s s' l m.
Proof. intros R Hb. destruct (poll_spec n limit id s R Hb) as (s' & l & m & E & P & _). by exists s', l, m. Qed.

Lemma poll_buffered limit id b s :
  dict_get (_out_of_band s) id = Some b →
  get_task_meta limit id s = (set_cache (cache_set (_cache s) id (payload b)) (set_out_of_band (dict_del (_out_of_band s) id) s), Ok (payload b)).
Proof. intros Hb. unfold get_task_meta. by rewrite ebind_get, Hb. Qed.

(** A final state is returned by the second poll at the latest, the first if no earlier state was set
    aside for the task. *)
Theorem final_within_two_polls n limit id s x :
  ready_to_poll n limit s → last_for id (queue s) = Some x → final x = true →
  ∃ s1 m, get_task_meta limit id s = (s1, Ok m) ∧ (m = payload x ∨ ∃ s2, get_task_meta limit id s1 = (s2, Ok (payload x))).
Proof.
  intros R Hx Hf. destruct (dict_get (_out_of_band s) id) as [b|] eqn:Hb.
  - rewrite (poll_buffered limit id b s Hb). eexists _, _. split; [done|]. right. set (s1 := set_cache _ _).
    destruct (poll_spec n limit id s1) as (s2 & l & m & -> & P & _).
    + destruct R. split; try done. by apply dict_del_wf.
    + simpl. by apply dict_get_del_eq, R.
    + exists s2. pose proof (po_result _ _ _ _ _ _ P) as Hm. change (queue s1) with (queue s) in Hm. rewrite Hx in Hm. by subst m.
  - destruct (poll_spec n limit id s R Hb) as (s1 & l & m & -> & P & _). exists s1, m. split; [done|]. left. pose proof (po_result _ _ _ _ _ _ P) as Hm. by rewrite Hx in Hm.
Qed.

Lemma poll_idle limit id s :
  queue s = [] → dict_get (_out_of_band s) id = None → 0 < limit → get_task_meta limit id s = (set_out_of_band (dict_del (_out_of_band s) id) s, Ok (known s id)).
Proof.
  intros Hq Hb Hl. unfold get_task_meta. rewrite ebind_get, Hb, ebind_modify. destruct limit as [|limit]; [lia|]. simpl. unfold ebind, eget. simpl.
  rewrite Hq. done.
Qed.

(** Polling again, with no new message, returns the same state (with a cache that keeps at least the
    latest entry), whether it was final, went back to the queue or was known before. *)
Theorem poll_repeatable n limit id s s1 m :
  (∀ (t : T) k x, cache_get (cache_set t k x) k = Some x) →
  ready_to_poll n limit s → n + length (queue s) < 1000 → dict_get (_out_of_band s) id = None → get_task_meta limit id s = (s1, Ok m) →
  ∃ s2, get_task_meta limit id s1 = (s2, Ok m).
Proof.
  intros Hlaw R Hroom Hb E. destruct (poll_spec n limit id s R Hb) as (s1' & l & m' & E' & P & Hca). rewrite E in E'. simplify_eq.
  destruct P as [H _ _ _ Hq Hm _ Ho Hw]. assert (dict_get (_out_of_band s1') id = None) as Hb1 by (rewrite Ho; by rewrite decide_True).
  assert (0 < limit) as Hl by (pose proof (rp_limit _ _ _ R); lia). destruct (last_for id (queue s)) as [x|] eqn:Hx.
  2:{ eexists. rewrite poll_idle by done. by rewrite Hm. }
  destruct (last_for_elem _ _ _ Hx) as [Hin Hi]. destruct (final x) eqn:Hf.
  - eexists. rewrite poll_idle by done. rewrite Hm. unfold known. destruct (Hca x eq_refl) as [c ->]. by rewrite Hlaw.
  - assert (1 ≤ length (queue s)) as Hl1 by (destruct (queue s); [by apply not_elem_of_nil in Hin|simpl; lia]).
    destruct (poll_spec (n + length (queue s)) limit id s1') as (s2 & l2 & m2 & E2 & P2 & _); [|done|].
    { split; [done|rewrite Hq; simpl; lia|rewrite Hq; simpl; pose proof (rp_limit _ _ _ R); lia| |done].
      rewrite Hq. repeat constructor. by apply (proj1 (Forall_forall _ _) (rp_coherent _ _ _ R)). }
    exists s2. rewrite E2. pose proof (po_result _ _ _ _ _ _ P2) as Hm2. rewrite Hq in Hm2. unfold last_for in Hm2. simpl in Hm2.
    rewrite filter_cons, decide_True in Hm2 by done. simpl in Hm2. by subst.
Qed.

(** ** Forgetting *)

Lemma pop_buffer_inv id b : bm_inv b → bm_inv (pop_buffer id b) ∧ queue_of (pop_buffer id b) id = [] ∧ ∀ k, k ≠ id → queue_of (pop_buffer id b) k = queue_of b k.
Proof.
  intros [Hw Hs Hc]. unfold pop_buffer. destruct (dict_get (bm_map b) id) as [buf|] eqn:E.
  - split_and!.
    + split; simpl; [by apply dict_del_wf|rewrite (msgs_del _ _ buf), Hs by done; done|].
      intros k b' Hin. apply (Hc k b'). by eapply elem_of_sublist, dict_del_sublist.
    + unfold queue_of. simpl. by rewrite dict_get_del_eq.
    + intros k Hk. unfold queue_of. simpl. by rewrite dict_get_del_ne.
  - split_and!; [done|unfold queue_of; by rewrite E|done].
Qed.

(** Of a task that is forgotten nothing is left: a poll that finds no message says that it is pending;
    the number of buffered messages stays right and other tasks keep what is known of them.  After a
    fork nothing of the parent's is left at all. *)
Theorem forgotten id s limit :
  dict_wf (_out_of_band s) → bm_inv (messages (con s)) → queue s = [] → 0 < limit →
  (∃ s1 s2, forget id s = (s1, Ok ()) ∧ bm_inv (messages (con s1)) ∧
     (∀ k, k ≠ id → queue_of (messages (con s1)) k = queue_of (messages (con s)) k ∧ dict_get (_out_of_band s1) k = dict_get (_out_of_band s) k) ∧
     get_task_meta limit id s1 = (s2, Ok (Meta id "PENDING" 0))) ∧
  ∃ s1, _after_fork s = (s1, Ok ()) ∧ bm_inv (messages (con s1)) ∧ bm_total (messages (con s1)) = 0%Z ∧
    ∀ k, ¬ awaited (con s1) k ∧ ∃ s2, get_task_meta limit k s1 = (s2, Ok (Meta k "PENDING" 0)).
Proof.
  intros Hw Hb Hq Hl. destruct (pop_buffer_inv id (messages (con s)) Hb) as (Hb1 & Hid & Hoth). split.
  - eexists _, _. split; [done|]. simpl. split_and!; [done|intros k Hk; split; [by apply Hoth|by rewrite dict_get_del_ne]|].
    rewrite poll_idle; simpl; [|done|by apply dict_get_del_eq|done]. do 2 f_equal. unfold known. simpl. rewrite Hid.
    destruct (cache_get (cache_pop (_cache s) id) id) as [m|] eqn:E; [|done]. by apply cache_pop_sound in E as [? _].
  - eexists. split; [done|]. simpl. split_and!; [|done|].
    + split; simpl; [apply NoDup_nil_2|done|by intros ?? ?%not_elem_of_nil].
    + intros k. split; [intros [?|?]; done|]. eexists. rewrite poll_idle by done. unfold known. simpl. by rewrite cache_empty_sound.
Qed.

(** Messages that were read when the limit is reached are neither acknowledged nor given back *)
Lemma limit_reached limit d s :
  limit ≤ length (queue s) →
  slurp limit d s = (Rpc (con s) (_out_of_band s) (_cache s) (drop limit (queue s)) (settled s ++ ((., Acked) <$> superseded d (firstn limit (queue s)))), Raise BacklogLimitExceeded).
Proof.
  revert d s. induction limit as [|n IH]; intros d s Hl; [destruct s; simpl; by rewrite app_nil_r|]. cbn [slurp]. rewrite ebind_get.
  destruct (queue s) as [|m q] eqn:Hq; [simpl in Hl; lia|]. rewrite ebind_modify. simpl in Hl. simpl.
  destruct (dict_get d (tid m)) as [prev|] eqn:Hp.
  - unfold ack. rewrite ebind_modify. rewrite IH by (simpl; lia). simpl. by rewrite <- app_assoc.
  - rewrite (ebind_Ok _ _ _ (set_queue q s) ()) by done. rewrite IH by (simpl; lia). done.
Qed.
End Rpc.
Arguments rpc : clear implicits.
End RpcBackend.

(** * Evaluated *)

Module RpcExamples.
Import BufferMap AsyncResults RpcBackend.
Local Open Scope string_scope.

(** A cache that keeps everything *)
#[global] Program Instance dict_cache : StateCache (pydict string meta) := {
  cache_get := dict_get; cache_set := dict_set; cache_pop d k := filter (λ kv, kv.1 ≠ k) d; cache_empty := [] }.
Next Obligation. intros t k m k' m'. rewrite dict_get_set. case_decide; intros; simplify_eq; [by left|by right]. Qed.
Next Obligation. intros t k k' m' H. pose proof (dict_get_filter_key (λ k', k' ≠ k) t k') as Hf. simpl in *. rewrite Hf in H. by case_decide. Qed.
Next Obligation. done. Qed.

Definition msg (t : nat) (id st : string) (r : Z) : message := Message t (Some id) (Meta id st r).

Definition a1 := msg 1 "a" "STARTED" 0.
Definition b1 := msg 2 "b" "STARTED" 0.
Definition a2 := msg 3 "a" "PROGRESS" 5.
Definition c1 := msg 4 "c" "SUCCESS" 7.
Definition b2 := msg 5 "b" "SUCCESS" 9.

Definition empty (q : list message) : rpc (pydict string meta) := Rpc start [] [] q [].

(** Task [a] has not ended: its latest state goes back.  Task [b] has: nobody waits for it, it is buffered
    and cached. *)
Example polls :
  let '(s, o) := get_task_meta 1000 "a" (empty [a1; b1; a2; c1; b2]) in
  o = Ok (payload a2) ∧ queue s = [a2] ∧ settled s = [(a1, Acked); (b1, Acked); (b2, Acked); (c1, Acked); (a2, Requeued)] ∧
  queue_of (messages (con s)) "b" = [payload b2] ∧ known s "c" = payload c1 ∧ _out_of_band s = [].
Proof. vm_compute. split_and!; reflexivity. Qed.

Lemma ready_five : ready_to_poll 0 1000 (empty [a1; b1; a2; c1; b2]).
Proof. split; [apply inv_start|simpl; lia|simpl; lia|repeat constructor|apply NoDup_nil_2]. Qed.

Lemma poll_conserves_witness :
  ∃ s' l m, get_task_meta 1000 "a" (empty [a1; b1; a2; c1; b2]) = (s', Ok m) ∧ polled 0 "a" (empty [a1; b1; a2; c1; b2]) s' l m.
Proof. apply poll_conserves; [apply ready_five|reflexivity]. Defined.

(** An earlier state was set aside: the first poll returns it, the second the result *)
Definition late : rpc (pydict string meta) := Rpc start [("b", b1)] [] [a2; b2] [].

Lemma final_within_two_polls_witness :
  ∃ s1 m, get_task_meta 1000 "b" late = (s1, Ok m) ∧ (m = payload b2 ∨ ∃ s2, get_task_meta 1000 "b" s1 = (s2, Ok (payload b2))).
Proof.
  apply (final_within_two_polls 0); [|reflexivity|by vm_compute].
  split; [apply inv_start|simpl; lia|simpl; lia|repeat constructor|repeat constructor; apply not_elem_of_nil].
Defined.

Example second_poll_needed : (get_task_meta 1000 "b" late).2 = Ok (payload b1) ∧ (get_task_meta 1000 "b" (get_task_meta 1000 "b" late).1).2 = Ok (payload b2).
Proof. vm_compute. split; reflexivity. Qed.

Lemma poll_repeatable_witness :
  ∃ s2, get_task_meta 1000 "a" (get_task_meta 1000 "a" (empty [a1; b1; a2; c1; b2])).1 = (s2, Ok (payload a2)).
Proof.
  apply (poll_repeatable 0 1000 "a" (empty [a1; b1; a2; c1; b2]));
    [intros; apply dict_get_set_eq|apply ready_five|simpl; lia|reflexivity|by vm_compute].
Defined.

Lemma forgotten_witness : ∃ s1 s2, forget "b" (get_task_meta 1000 "c" (empty [b2; c1])).1 = (s1, Ok ()) ∧ get_task_meta 1000 "b" s1 = (s2, Ok (Meta "b" "PENDING" 0)).
Proof.
  destruct (forgotten "b" (get_task_meta 1000 "c" (empty [b2; c1])).1 1000) as [(s1 & s2 & E & _ & _ & E2) _]; [apply NoDup_nil_2| |by vm_compute|lia|by exists s1, s2].
  destruct (poll_spec 0 1000 "c" (empty [b2; c1])) as (s' & l & m & E & P & _); [|reflexivity|by rewrite E; apply (inv_buffer _ _ (po_inv _ _ _ _ _ _ P))].
  split; [apply inv_start|simpl; lia|simpl; lia|repeat constructor|apply NoDup_nil_2].
Defined.

(** As many messages as the limit, not more, are too many.  They are taken from the queue and left
    unsettled. *)
Example limit_leaves_unsettled :
  let '(s, o) := get_task_meta 3 "a" (empty [a1; b1; b2]) in o = Raise BacklogLimitExceeded ∧ queue s = [] ∧ settled s = [(b1, Acked)].
Proof. vm_compute. split_and!; reflexivity. Qed.

End RpcExamples.
