(* ===== verification/ControlClient.v ===== *)
(** Remote control from the side of the client: the methods of [Control] and [Inspect]
    (celery/app/control.py), the arguments of [celery control] and [celery inspect]
    (celery/bin/control.py), and the registry of commands that both and the workers share
    (celery/worker/control.py, [Panel]).  What the commands do in a worker is in RemoteControl.v.

    A command has the parameters of its handler and what it declares for the command line.  The
    mailbox is kombu's: it calls the handler with [state] and the arguments as keywords. *)

From S2P Require Import Prelude.
From S2P Require Import PyDict.
From S2P Require Import PyStr.
From S2P Require Import Effect.
Local Open Scope eff_scope.
Local Open Scope string_scope.
Local Open Scope list_scope.
Local Open Scope nat_scope.

Module Panel.

(** The parameters of a handler after [state] *)
Record signature := Sig { required : list string; optional : list string; var_keyword : bool }.

(** [str], [int], [float] and [strtobool] *)
Inductive typ := TStr | TInt | TFloat | TBool.
Inductive kind := control | inspect.
#[global] Instance kind_eq_dec : EqDecision kind.
Proof. solve_decision. Defined.

Record command := Command {
  c_name : string; c_alias : option string; c_type : kind; c_visible : bool;
  c_args : list (string * typ); c_variadic : option string; c_sig : signature }.

Definition control_command name alias visible args variadic sig : command := Command name alias control visible args variadic sig.
Definition inspect_command name alias visible args variadic sig : command := Command name alias inspect visible args variadic sig.

Record panel := MkPanel { data : pydict string signature; meta : pydict string command }.

(** [Panel._register] *)
Definition _register (c : command) (p : panel) : panel :=
  let d := dict_set (data p) (c_name c) (c_sig c) in
  MkPanel (match c_alias c with Some a => dict_set d a (c_sig c) | None => d end) (dict_set (meta p) (c_name c) c).

Definition report_command : command := inspect_command "report" None true [] None (Sig [] [] false).
Definition conf_command : command := inspect_command "conf" (Some "dump_conf") true [("with_defaults", TBool)] None (Sig [] ["with_defaults"] true).
Definition query_task_command : command := inspect_command "query_task" None true [] (Some "ids") (Sig ["ids"] [] true).
Definition revoke_command : command := control_command "revoke" None true [] (Some "task_id") (Sig ["task_id"] ["terminate"; "signal"] true).
Definition revoke_by_stamped_headers_command : command := control_command "revoke_by_stamped_headers" None true [] (Some "headers") (Sig ["headers"] ["terminate"; "signal"] true).
Definition terminate_command : command := control_command "terminate" None true [("signal", TStr)] (Some "task_id") (Sig ["signal"; "task_id"] [] true).
Definition rate_limit_command : command := control_command "rate_limit" None true [("task_name", TStr); ("rate_limit", TStr)] None (Sig ["task_name"; "rate_limit"] [] true).
Definition time_limit_command : command := control_command "time_limit" None true [("task_name", TStr); ("soft", TFloat); ("hard", TFloat)] None (Sig [] ["task_name"; "hard"; "soft"] true).
Definition clock_command : command := inspect_command "clock" None true [] None (Sig [] [] true).
Definition election_command : command := control_command "election" None true [] None (Sig ["id"; "topic"] ["action"] true).
Definition enable_events_command : command := control_command "enable_events" None true [] None (Sig [] [] false).
Definition disable_events_command : command := control_command "disable_events" None true [] None (Sig [] [] false).
Definition heartbeat_command : command := control_command "heartbeat" None true [] None (Sig [] [] false).
Definition hello_command : command := inspect_command "hello" None false [] None (Sig ["from_node"] ["revoked"] true).
Definition ping_command : command := inspect_command "ping" None true [] None (Sig [] [] true).
Definition stats_command : command := inspect_command "stats" None true [] None (Sig [] [] true).
Definition scheduled_command : command := inspect_command "scheduled" (Some "dump_schedule") true [] None (Sig [] [] true).
Definition reserved_command : command := inspect_command "reserved" (Some "dump_reserved") true [] None (Sig [] [] true).
Definition active_command : command := inspect_command "active" (Some "dump_active") true [] None (Sig [] ["safe"] true).
Definition revoked_command : command := inspect_command "revoked" (Some "dump_revoked") true [] None (Sig [] [] true).
Definition registered_command : command := inspect_command "registered" (Some "dump_tasks") true [] (Some "taskinfoitems") (Sig [] ["taskinfoitems"; "builtins"] true).
Definition objgraph_command : command := inspect_command "objgraph" None true [("type", TStr); ("num", TInt); ("max_depth", TInt)] None (Sig [] ["num"; "max_depth"; "type"] false).
Definition memsample_command : command := inspect_command "memsample" None true [] None (Sig [] [] true).
Definition memdump_command : command := inspect_command "memdump" None true [("samples", TInt)] None (Sig [] ["samples"] true).
Definition pool_grow_command : command := control_command "pool_grow" None true [("n", TInt)] None (Sig [] ["n"] true).
Definition pool_shrink_command : command := control_command "pool_shrink" None true [("n", TInt)] None (Sig [] ["n"] true).
Definition pool_restart_command : command := control_command "pool_restart" None true [] None (Sig [] ["modules"; "reload"; "reloader"] true).
Definition autoscale_command : command := control_command "autoscale" None true [("max", TInt); ("min", TInt)] None (Sig [] ["max"; "min"] false).
Definition shutdown_command : command := control_command "shutdown" None true [] None (Sig [] ["msg"] true).
Definition add_consumer_command : command := control_command "add_consumer" None true [("queue", TStr); ("exchange", TStr); ("exchange_type", TStr); ("routing_key", TStr)] None (Sig ["queue"] ["exchange"; "exchange_type"; "routing_key"] true).
Definition cancel_consumer_command : command := control_command "cancel_consumer" None true [("queue", TStr)] None (Sig ["queue"] [] true).
Definition active_queues_command : command := inspect_command "active_queues" None true [] None (Sig [] [] false).

Definition commands : list command := [
  report_command; conf_command; query_task_command; revoke_command; revoke_by_stamped_headers_command;
  terminate_command; rate_limit_command; time_limit_command; clock_command; election_command; enable_events_command;
  disable_events_command; heartbeat_command; hello_command; ping_command; stats_command; scheduled_command;
  reserved_command; active_command; revoked_command; registered_command; objgraph_command; memsample_command;
  memdump_command; pool_grow_command; pool_shrink_command; pool_restart_command; autoscale_command; shutdown_command;
  add_consumer_command; cancel_consumer_command; active_queues_command].

Definition the_panel : panel := foldl (λ p c, _register c p) (MkPanel [] []) commands.

(** Calling a handler: [handler(state, **arguments)] *)
Definition bindable (s : signature) (keys : list string) : bool :=
  negb (bool_decide ("state" ∈ keys)) && forallb (λ k, bool_decide (k ∈ keys)) (required s) &&
  (var_keyword s || forallb (λ k, bool_decide (k ∈ required s ++ optional s)) keys).

Definition call {V} (command : string) (arguments : pydict string V) : outcome () :=
  let! s := of_option KeyError (dict_get (data the_panel) command) in
  if bindable s (dict_keys arguments) then Ok () else Raise TypeError.

End Panel.

Module ControlClient.
Import Panel.

Section Client.
Context {V : Type}.

(** ** The methods *)

Abbreviation arguments := (pydict string V).

(** One constructor for each method of [Inspect] that sends a command, with what the caller gives;
    lists of ids and the like are values as well *)
Inductive inspection :=
| IReport | IClock | IActive (safe : V) | IScheduled | IReserved | IStats | IRevoked | IRegistered (taskinfoitems : V) | IPing
| IActiveQueues | IQueryTask (ids : V) | IConf (with_defaults : V) | IHello (from_node revoked : V) | IMemsample | IMemdump (samples : V)
| IObjgraph (type n max_depth : V).

(** What [Inspect._request] is given *)
Definition requests (m : inspection) : string * arguments :=
  match m with
  | IReport => ("report", [])
  | IClock => ("clock", [])
  | IActive safe => ("active", [("safe", safe)])
  | IScheduled => ("scheduled", [])
  | IReserved => ("reserved", [])
  | IStats => ("stats", [])
  | IRevoked => ("revoked", [])
  | IRegistered items => ("registered", [("taskinfoitems", items)])
  | IPing => ("ping", [])
  | IActiveQueues => ("active_queues", [])
  | IQueryTask ids => ("query_task", [("ids", ids)])
  | IConf d => ("conf", [("with_defaults", d)])
  | IHello from_node revoked => ("hello", [("from_node", from_node); ("revoked", revoked)])
  | IMemsample => ("memsample", [])
  | IMemdump samples => ("memdump", [("samples", samples)])
  | IObjgraph type n max_depth => ("objgraph", [("num", n); ("max_depth", max_depth); ("type", type)])
  end.

(** The same for [Control] *)
Inductive control_call :=
| CElection (id topic action : V) | CRevoke (task_id terminate signal : V) | CRevokeByStampedHeaders (headers terminate signal : V)
| CPing | CRateLimit (task_name rate_limit : V) | CAddConsumer (queue exchange exchange_type routing_key : V) (options : arguments)
| CCancelConsumer (queue : V) | CTimeLimit (task_name soft hard : V) | CEnableEvents | CDisableEvents | CPoolGrow (n : V) | CPoolShrink (n : V)
| CAutoscale (max min : V) | CShutdown | CPoolRestart (modules reload reloader : V) | CHeartbeat.

Definition broadcasts (m : control_call) : string * arguments :=
  match m with
  | CElection id topic action => ("election", [("id", id); ("topic", topic); ("action", action)])
  | CRevoke task_id terminate signal => ("revoke", [("task_id", task_id); ("terminate", terminate); ("signal", signal)])
  | CRevokeByStampedHeaders headers terminate signal =>
      ("revoke_by_stamped_headers", [("headers", headers); ("terminate", terminate); ("signal", signal)])
  | CPing => ("ping", [])
  | CRateLimit task_name rate_limit => ("rate_limit", [("task_name", task_name); ("rate_limit", rate_limit)])
  | CAddConsumer queue exchange exchange_type routing_key options =>
      ("add_consumer", dict_update [("queue", queue); ("exchange", exchange); ("exchange_type", exchange_type); ("routing_key", routing_key)] options)
  | CCancelConsumer queue => ("cancel_consumer", [("queue", queue)])
  | CTimeLimit task_name soft hard => ("time_limit", [("task_name", task_name); ("hard", hard); ("soft", soft)])
  | CEnableEvents => ("enable_events", [])
  | CDisableEvents => ("disable_events", [])
  | CPoolGrow n => ("pool_grow", [("n", n)])
  | CPoolShrink n => ("pool_shrink", [("n", n)])
  | CAutoscale max min => ("autoscale", [("max", max); ("min", min)])
  | CShutdown => ("shutdown", [])
  | CPoolRestart modules reload reloader => ("pool_restart", [("modules", modules); ("reload", reload); ("reloader", reloader)])
  | CHeartbeat => ("heartbeat", [])
  end.

(** A method of either class, with the keywords that [broadcast] does not know; [Inspect] gives none *)
Inductive method := Inspects (m : inspection) | Controls (m : control_call) (extra_kwargs : arguments).

(** [Control.broadcast]: what the message has *)
Definition broadcast_arguments (args extra_kwargs : arguments) : arguments := dict_update args extra_kwargs.

Definition sends (m : method) : string * arguments :=
  match m with
  | Inspects m => ((requests m).1, broadcast_arguments (requests m).2 [])
  | Controls m extra => ((broadcasts m).1, broadcast_arguments (broadcasts m).2 extra)
  end.

(** The options that a caller adds to the arguments *)
Definition options_of (m : method) : arguments := match m with Controls (CAddConsumer _ _ _ _ options) _ => options | _ => [] end.
Definition extra_of (m : method) : arguments := match m with Controls _ extra => extra | _ => [] end.

(** ** Replies *)

Section Replies.
Context {R : Type}.

(** [flatten_reply]: the replies by node, and the names that came more than once *)
Definition flatten_step (acc : pydict string R * gset string) (item : pydict string R) : pydict string R * gset string :=
  (dict_update acc.1 item, acc.2 ∪ list_to_set (filter (λ n, dict_in acc.1 n = true) (dict_keys item))).

Definition flatten_reply (reply : list (pydict string R)) : pydict string R * gset string :=
  foldl flatten_step ([], ∅) reply.

Inductive destination := ToAll | ToNode (n : string) | ToNodes (l : list string).
Inductive prepared := NoReply | OneReply (r : option R) | ByNode (d : pydict string R).

(** [Inspect._prepare]; [matches] is kombu's [match] for the pattern of the inspector *)
Definition _prepare (dst : destination) (matches : option (string → bool)) (reply : list (pydict string R)) : prepared :=
  match reply with
  | [] => NoReply
  | _ =>
      let by_node := (flatten_reply reply).1 in
      match dst, matches with
      | ToNode n, _ => if bool_decide (n = "") then
                         match matches with Some f => ByNode (filter (λ kv, f kv.1 = true) by_node) | None => ByNode by_node end
                       else OneReply (dict_get by_node n)
      | _, Some f => ByNode (filter (λ kv, f kv.1 = true) by_node)
      | _, None => ByNode by_node
      end
  end.
End Replies.

(** ** Revoking by stamps *)

(** What a worker answered: a text or (were there one) a set of ids under [ok], or an error *)
Inductive response := OkText (s : string) | OkSet (ids : list string) | Failed (s : string).

(** [response['ok']] *)
Definition response_ids (r : response) : outcome (list string) :=
  match r with OkText _ => Ok [] | OkSet ids => Ok ids | Failed _ => Raise KeyError end.

Fixpoint collect_ids (rs : list response) : outcome (list string) :=
  match rs with
  | [] => Ok []
  | r :: rs => let! ids := response_ids r in let! rest := collect_ids rs in Ok (ids ++ rest)
  end.

(** [Control.revoke_by_stamped_headers]: the log has what was sent; [replies] are the answers to the
    first message, none when no reply is asked for *)
Definition revoke_by_stamped_headers (VList : list string → V) (headers terminate signal : V) (replies : option (list (pydict string response))) :
  eff (list (string * arguments)) (option (list string)) :=
  run! emodify (λ l, l ++ [broadcasts (CRevokeByStampedHeaders headers terminate signal)]) in
  do! ids := elift (collect_ids (concat (dict_values <$> default [] replies))) in
  match remove_dups ids with
  | [] => eret None
  | ids => run! emodify (λ l, l ++ [broadcasts (CRevoke (VList ids) terminate signal)]) in eret (Some ids)
  end.
End Client.
Arguments method : clear implicits.
Arguments inspection : clear implicits.
Arguments control_call : clear implicits.

(** ** The command line *)

Section CommandLine.
Context {F : Type} (py_float : string → outcome F).

Inductive value := VStr (s : string) | VInt (z : Z) | VFloat (f : F) | VBool (b : bool) | VArgs (l : list string).

(** [strtobool] of a string *)
Definition STRTOBOOL_DEFAULT_TABLE : pydict string bool :=
  [("false", false); ("no", false); ("0", false); ("true", true); ("yes", true); ("1", true); ("on", true); ("off", false)].
Definition strtobool (term : string) : outcome bool := of_option TypeError (dict_get STRTOBOOL_DEFAULT_TABLE (str_lower term)).

Definition convert (t : typ) (s : string) : outcome value :=
  match t with
  | TStr => Ok (VStr s)
  | TInt => let! z := py_int (to_chars s) in Ok (VInt z)
  | TFloat => let! f := py_float s in Ok (VFloat f)
  | TBool => let! b := strtobool s in Ok (VBool b)
  end.

(** [_consume_arguments], all of it: the named arguments and what [args] is afterwards.  [i] is the
    index of the argument at hand. *)
Fixpoint consume (variadic : bool) (specs : list (string * typ)) (args : list string) : outcome (list (string * value) * nat) :=
  match args with
  | [] => Ok ([], 0)
  | arg :: args =>
      match specs with
      | [] => if variadic then Ok ([], 0) else Raise OtherExc (* [click.UsageError] *)
      | (name, t) :: specs =>
          let! v := convert t arg in
          let! (l, i) := consume variadic specs args in
          Ok ((name, v) :: l, match args with [] => 0 | _ => S i end)
      end
  end.

Definition _consume_arguments (m : command) (args : list string) : outcome (list (string * value) * list string) :=
  let! (l, i) := consume (bool_decide (is_Some (c_variadic m))) (c_args m) args in Ok (l, drop i args).

Definition _compile_arguments (m : command) (args : list string) : outcome (pydict string value) :=
  let! (d, args) := match c_args m with [] => Ok ([], args) | _ => let! (l, rest) := _consume_arguments m args in Ok (dict_update [] l, rest) end in
  Ok (match c_variadic m with Some v => dict_update d [(v, VArgs args)] | None => d end).

(** [_get_commands_of_type], unsorted, and [_verify_command_name] *)
Definition _get_commands_of_type (k : kind) : pydict string command :=
  filter (λ kv, c_type kv.2 = k ∧ c_visible kv.2 = true) (meta the_panel).

(** A command as typed: what is sent to the workers *)
Definition run_command (k : kind) (name : string) (args : list string) : outcome (pydict string value) :=
  let! m := of_option OtherExc (dict_get (_get_commands_of_type k) name) in _compile_arguments m args.

(** ** Properties of the command line *)

Lemma consume_keys variadic specs args l i :
  consume variadic specs args = Ok (l, i) →
  l.*1 = take (length args) specs.*1 ∧ (variadic = false → length args ≤ length specs) ∧
  i = (if bool_decide (length args ≤ length specs) then length args - 1 else length specs).
Proof.
  revert args l i. induction specs as [|[name t] specs IH]; intros [|arg args] l i; simpl; try (by intros [= <- <-]).
  - destruct variadic; [|done]. by intros [= <- <-].
  - intros [= <- <-]. split_and!; [done|lia|done].
  - intros (v & _ & ([l' i'] & E & [= <- <-])%obind_Ok)%obind_Ok. destruct (IH _ _ _ E) as (Hl & Hv & Hi). split_and!; [exact (f_equal (cons name) Hl)|intros Hf; specialize (Hv Hf); lia|].
    rewrite Hi. destruct args as [|a args]; simpl; [done|]. repeat case_bool_decide; simpl in *; lia.
Qed.

Definition spec_names (m : command) : list string := (c_args m).*1.

(** What declares its arguments well *)
Definition well_declared (m : command) : bool :=
  bool_decide (NoDup (spec_names m ++ option_list (c_variadic m))).

Lemma dict_update_app {V} (d l : pydict string V) : NoDup (d ++ l).*1 → dict_update d l = d ++ l.
Proof.
  unfold dict_update. revert d. induction l as [|[k v] l IH]; intros d H; simpl; [by rewrite app_nil_r|].
  rewrite fmap_app in H. simpl in H. pose proof (proj1 (NoDup_app _ _) H) as (_ & Hn & _).
  rewrite dict_set_keys_notin by (intros Hin; by apply (Hn k Hin), list_elem_of_here).
  rewrite IH; rewrite <- (app_assoc d [(k, v)] l); [done|]. by rewrite fmap_app.
Qed.

Lemma compile_spec m args d :
  well_declared m = true → _compile_arguments m args = Ok d →
  dict_keys d = take (length args) (spec_names m) ++ option_list (c_variadic m) ∧ (c_variadic m = None → c_args m ≠ [] → length args ≤ length (c_args m)).
Proof.
  intros Hw%bool_decide_eq_true. unfold _compile_arguments, spec_names in *. intros ([d0 rest] & E & [= <-])%obind_Ok.
  assert (dict_keys d0 = take (length args) (c_args m).*1 ∧ d0 = dict_update [] d0 ∧ (c_variadic m = None → c_args m ≠ [] → length args ≤ length (c_args m))) as (Hk & Hd & Hl).
  { destruct (c_args m) as [|sp sps] eqn:Ea; [injection E as <- <-; split_and!; [by destruct (length args)|done|done]|].
    apply obind_Ok in E as ([l r'] & ([l' i] & E & [= <- <-])%obind_Ok & [= <- <-]). destruct (consume_keys _ _ _ _ _ E) as (Hk & Hv & _).
    assert (NoDup l'.*1) as Hn by (rewrite Hk, Ea; apply NoDup_app in Hw as (Hw & _ & _); by apply (sublist_NoDup _ _ Hw), sublist_take).
    rewrite dict_update_app by done. rewrite dict_update_app by done. rewrite Ea in Hk, Hv. split_and!; [done|done|]. intros Hnone _. apply Hv. by rewrite Hnone. }
  destruct (c_variadic m) as [v|] eqn:Hv; [|simpl; by rewrite app_nil_r]. simpl in Hw. split; [|done].
  apply NoDup_app in Hw as (_ & Hnv & _). assert (v ∉ dict_keys d0) as Hnot.
  { rewrite Hk. intros Hin. apply (Hnv v); [|apply list_elem_of_here]. by eapply elem_of_sublist, sublist_take. }
  unfold dict_update. simpl. rewrite dict_set_keys_notin by done. unfold dict_keys in *. rewrite fmap_app. by rewrite Hk.
Qed.

(** The arguments without which the handler cannot be called *)
Definition needed (m : command) : nat := length (filter (λ n, n ∈ required (c_sig m)) (spec_names m)).

(** Every number of arguments from those that are needed to those that are declared suits the handler *)
Definition agrees (m : command) : bool :=
  well_declared m && forallb (λ k, bindable (c_sig m) (take k (spec_names m) ++ option_list (c_variadic m))) (seq (needed m) (S (length (c_args m)) - needed m)).

Lemma commands_agree : forallb (λ kv, bool_decide (kv.1 = "election") || negb (c_visible kv.2) || (agrees kv.2 && bool_decide (kv.1 = c_name kv.2))) (meta the_panel) = true.
Proof. by vm_compute. Qed.

Lemma meta_in_data : forallb (λ kv, match dict_get (data the_panel) kv.1 with Some s => bool_decide (required s = required (c_sig kv.2) ∧ optional s = optional (c_sig kv.2) ∧ var_keyword s = var_keyword (c_sig kv.2)) | None => false end) (meta the_panel) = true.
Proof. by vm_compute. Qed.

Lemma agrees_call m k : agrees m = true → needed m ≤ k → bindable (c_sig m) (take k (spec_names m) ++ option_list (c_variadic m)) = true.
Proof.
  intros [_ H]%andb_true_iff Hk. rewrite forallb_forall in H. destruct (decide (k ≤ length (c_args m))) as [Hle|Hgt].
  - apply H, in_seq. lia.
  - replace (take k (spec_names m)) with (take (length (c_args m)) (spec_names m)); [apply H, in_seq|].
    + assert (needed m ≤ length (c_args m)); [|lia]. unfold needed. etrans; [apply length_filter|]. unfold spec_names. by rewrite length_fmap.
    + rewrite !take_ge; [done|unfold spec_names; rewrite length_fmap; lia|unfold spec_names; by rewrite length_fmap].
Qed.

Lemma listed k name m : dict_get (_get_commands_of_type k) name = Some m → (name, m) ∈ meta the_panel ∧ c_visible m = true.
Proof. intros [[_ Hv] Hin]%dict_get_Some_elem%list_elem_of_filter. done. Qed.

Lemma listed_signature name m : (name, m) ∈ meta the_panel → ∃ s, dict_get (data the_panel) name = Some s ∧ ∀ keys, bindable s keys = bindable (c_sig m) keys.
Proof.
  intros Hin. pose proof meta_in_data as H. rewrite forallb_forall in H. specialize (H (name, m)). rewrite <- list_elem_of_In in H. specialize (H Hin). cbn [fst snd] in H.
  destruct (dict_get (data the_panel) name) as [s|]; [|done]. exists s. split; [done|]. apply bool_decide_eq_true in H as (H1 & H2 & H3).
  intros keys. unfold bindable. by rewrite H1, H2, H3.
Qed.

(** What the command line sends, the workers accept.  When a command that is listed (other than
    [election], which takes no arguments there) is typed with at least the arguments that its handler
    needs, and the arguments are converted, the handler of that name can be called with them; the names
    are those that the command declares, in order, then the one for the rest. *)
Theorem typed_commands_understood k name args m d :
  dict_get (_get_commands_of_type k) name = Some m → name ≠ "election" → needed m ≤ length args → run_command k name args = Ok d →
  dict_keys d = take (length args) (spec_names m) ++ option_list (c_variadic m) ∧ call name d = Ok ().
Proof.
  intros Hm Hne Hn. unfold run_command. rewrite Hm. cbn [of_option obind]. intros Hc. destruct (listed k name m Hm) as [Hin Hv].
  pose proof commands_agree as Ha. rewrite forallb_forall in Ha. specialize (Ha (name, m)). rewrite <- list_elem_of_In in Ha. specialize (Ha Hin). cbn [fst snd] in Ha.
  rewrite bool_decide_eq_false_2, Hv in Ha by done. apply andb_true_iff in Ha as [Ha _].
  destruct (compile_spec m args d) as [Hk _]; [by apply andb_true_iff in Ha as [? _]|done|]. split; [done|]. unfold call.
  destruct (listed_signature name m Hin) as (s & -> & Hs). cbn [of_option obind]. by rewrite Hs, Hk, agrees_call.
Qed.
End CommandLine.

(** ** Properties of the client *)

Section ClientProofs.
Context {V : Type}.

Lemma update_keys (d d' : pydict string V) k : k ∈ dict_keys (dict_update d d') ↔ k ∈ dict_keys d ∨ k ∈ dict_keys d'.
Proof.
  unfold dict_update. revert d. induction d' as [|[k' v] d' IH]; intros d; simpl; [rewrite elem_of_nil; tauto|].
  rewrite IH, elem_of_dict_keys_set, elem_of_cons. tauto.
Qed.

(** More keywords do no harm to a handler that takes any *)
Lemma bindable_more s (keys keys' : list string) :
  bindable s keys = true → (∀ k, k ∈ keys' → k ∈ keys ∨ (k ≠ "state" ∧ (var_keyword s = true ∨ k ∈ required s ++ optional s))) → (∀ k, k ∈ keys → k ∈ keys') →
  bindable s keys' = true.
Proof.
  unfold bindable. rewrite !andb_true_iff, !negb_true_iff, !bool_decide_eq_false, !orb_true_iff, !forallb_forall. intros [[Hs Hr] Hv] Hin Hsub. split_and!.
  - intros H. destruct (Hin _ H) as [?|[? _]]; done.
  - intros k Hk. apply bool_decide_eq_true. apply Hsub. specialize (Hr k Hk). by apply bool_decide_eq_true in Hr.
  - destruct (var_keyword s); [by left|]. right. destruct Hv as [?|Hv]; [done|]. intros k Hk. rewrite <- list_elem_of_In in Hk. apply bool_decide_eq_true.
    destruct (Hin k Hk) as [Hk'|[_ [?|?]]]; [|done|done]. specialize (Hv k). rewrite <- list_elem_of_In in Hv. specialize (Hv Hk'). by apply bool_decide_eq_true in Hv.
Qed.

Definition handler (command : string) : signature := default (Sig [] [] false) (dict_get (data the_panel) command).

Lemma call_bindable command (args : pydict string V) :
  is_Some (dict_get (data the_panel) command) → bindable (handler command) (dict_keys args) = true → call command args = Ok ().
Proof. unfold call, handler. intros [s ->]. simpl. by intros ->. Qed.

Lemma base_bindable (m : method V) : options_of m = [] → extra_of m = [] → is_Some (dict_get (data the_panel) (sends m).1) ∧ bindable (handler (sends m).1) (dict_keys (sends m).2) = true.
Proof.
  intros Ho He. destruct m as [m|m extra]; [destruct m|simpl in He; subst extra; destruct m; try (simpl in Ho; subst options)]; (split; [by vm_compute; eexists|by vm_compute]).
Qed.

(** Without the options and keywords, the same command is sent *)
Lemma plain (m : method V) :
  ∃ m0 : method V, options_of m0 = [] ∧ extra_of m0 = [] ∧ (sends m).1 = (sends m0).1 ∧
        ∀ k, k ∈ dict_keys (sends m).2 ↔ k ∈ dict_keys (sends m0).2 ∨ k ∈ dict_keys (extra_of m) ∨ (var_keyword (handler (sends m).1) = true ∧ k ∈ dict_keys (options_of m)).
Proof.
  assert (∀ (c : control_call V) e k, options_of (Controls c e) = [] → k ∈ dict_keys (sends (Controls c e)).2 ↔
    k ∈ dict_keys (sends (Controls c [])).2 ∨ k ∈ dict_keys (extra_of (Controls c e)) ∨ (var_keyword (handler (sends (Controls c e)).1) = true ∧ k ∈ dict_keys (options_of (Controls c e)))) as H.
  { intros c e k Hop. rewrite Hop. simpl. unfold broadcast_arguments. rewrite !update_keys. set_solver. }
  destruct m as [m|m extra]; [exists (Inspects m); split_and!; try done; intros k; set_solver|].
  destruct m as [| | | | |queue exchange exchange_type routing_key options| | | | | | | | | |];
    try (eexists (Controls _ []); split_and!; [| |reflexivity|intros k; by apply H]; done).
  exists (Controls (CAddConsumer queue exchange exchange_type routing_key []) []). split_and!; [done|done|done|]. intros k.
  assert (var_keyword (handler "add_consumer") = true) as Hv by (by vm_compute). cbn [sends fst snd broadcasts options_of extra_of]. rewrite Hv. unfold broadcast_arguments. rewrite !update_keys. set_solver.
Qed.

(** What the methods of [Control] and [Inspect] send, the workers accept: the command is one of the
    panel and its handler can be called with these arguments, whatever their values.  Options of
    [add_consumer] and keywords that are passed on must not be called [state] and, where the handler
    does not take any keyword, must be parameters of it. *)
Theorem methods_understood (m : method V) :
  "state" ∉ dict_keys (options_of m) ++ dict_keys (extra_of m) →
  (var_keyword (handler (sends m).1) = false → ∀ k, k ∈ dict_keys (extra_of m) → k ∈ required (handler (sends m).1) ++ optional (handler (sends m).1)) →
  call (sends m).1 (sends m).2 = Ok ().
Proof.
  intros Hs Hp. destruct (plain m) as (m0 & Ho & He & Hn & Hk).
  destruct (base_bindable m0 Ho He) as [Hd Hb]. rewrite <- Hn in Hd, Hb. apply call_bindable; [done|].
  apply (bindable_more _ (dict_keys (sends m0).2)); [done| |intros k ?; apply Hk; by left].
  intros k [?|[Hin|[Hv Hin]]]%Hk; [by left|right..]; (split; [intros ->; apply Hs, elem_of_app; by auto|]).
  - destruct (var_keyword (handler (sends m).1)) eqn:E; [by left|right]. by apply Hp.
  - by left.
Qed.
End ClientProofs.

(** ** Properties of the replies *)

Section ReplyProofs.
Context {R : Type}.

(** How many replies have a node *)
Definition occurrences (n : string) (reply : list (pydict string R)) : nat := length (filter (λ item, dict_in item n = true) reply).

Lemma flatten_app l (item : pydict string R) : flatten_reply (l ++ [item]) = flatten_step (flatten_reply l) item.
Proof. unfold flatten_reply. by rewrite foldl_app. Qed.

Lemma update_in (d d' : pydict string R) n : dict_in (dict_update d d') n = dict_in d n || dict_in d' n.
Proof.
  apply eq_true_iff_eq. rewrite orb_true_iff, !dict_in_true. apply update_keys.
Qed.

Lemma flatten_in l n : dict_in (flatten_reply (R := R) l).1 n = true ↔ occurrences n l ≠ 0.
Proof.
  induction l as [|item l IH] using rev_ind; [done|]. rewrite flatten_app. simpl. rewrite update_in, orb_true_iff, IH. unfold occurrences.
  rewrite filter_app, length_app, filter_cons. case_decide as Hd; simpl; [split; [lia|by right]|]. rewrite Nat.add_0_r. tauto.
Qed.

(** The replies of the nodes by name.  Of a node that replied more than once the last reply counts,
    and these nodes, no others, are reported as duplicates. *)
Theorem flatten_reply_spec (reply : list (pydict string R)) n :
  Forall dict_wf reply →
  dict_get (flatten_reply reply).1 n = last (omap (λ item, dict_get item n) reply) ∧
  (n ∈ (flatten_reply reply).2 ↔ 2 ≤ occurrences n reply).
Proof.
  induction reply as [|item l IH] using rev_ind; intros Hw; [by split; [|split; [set_solver|unfold occurrences; simpl; lia]]|].
  apply Forall_app in Hw as [Hl Hi]. apply Forall_cons in Hi as [Hi _]. destruct (IH Hl) as [Hg Hd]. rewrite flatten_app. simpl. split.
  - rewrite omap_app, last_app. simpl. rewrite dict_get_update by done. destruct (dict_get item n); [done|]. simpl. by rewrite Hg.
  - rewrite elem_of_union, Hd, elem_of_list_to_set, list_elem_of_filter, flatten_in, <- dict_in_true. unfold occurrences. rewrite filter_app, length_app, filter_cons.
    case_decide as Hn; simpl; [split; [intros [?|[? _]]; lia|]; intros ?; destruct (decide (2 ≤ length (filter (λ item, dict_in item n = true) l))); [by left|right; split; [lia|done]]|]. split; [intros [?|[_ ?]]; [lia|done]|]. intros ?. left. lia.
Qed.
End ReplyProofs.

End ControlClient.

(** * Evaluated *)

Module ControlClientExamples.
Import Panel ControlClient.

(** Numbers with a fraction as text *)
Definition as_text (s : string) : outcome string := Ok s.

Definition add_queue : method Z := Controls (CAddConsumer 1%Z 2%Z 3%Z 4%Z [("expires", 5%Z)]) [("durable", 1%Z)].

Lemma methods_understood_witness : call "add_consumer" (sends add_queue).2 = Ok ().
Proof.
  apply (methods_understood add_queue); [|intros H; by vm_compute in H].
  intros H. repeat (apply elem_of_cons in H as [?|H]; [done|]). by apply not_elem_of_nil in H.
Defined.

(** [enable_events] takes no other keyword *)
Example keyword_refused : call "enable_events" (sends (Controls CEnableEvents [("queue", 1%Z)])).2 = Raise TypeError.
Proof. by vm_compute. Qed.

Example typed : run_command as_text control "terminate" ["KILL"; "id1"; "id2"] = Ok [("signal", VStr "KILL"); ("task_id", VArgs ["id1"; "id2"])] ∧
  run_command as_text inspect "memdump" ["20"] = Ok [("samples", VInt 20)] ∧ run_command as_text inspect "conf" ["On"] = Ok [("with_defaults", VBool true)] ∧
  run_command as_text control "rate_limit" ["t"; "5/s"; "6/s"] = Raise OtherExc ∧ run_command as_text control "report" [] = Raise OtherExc.
Proof. by vm_compute. Qed.

Lemma typed_commands_understood_witness : call "terminate" [("signal", VStr "KILL"); ("task_id", VArgs (F := string) ["id1"; "id2"])] = Ok ().
Proof.
  apply (typed_commands_understood as_text control "terminate" ["KILL"; "id1"; "id2"] terminate_command); [by vm_compute|done|vm_compute; lia|by vm_compute].
Defined.

Lemma flatten_reply_spec_witness : dict_get (flatten_reply [[("a", 1)]; [("b", 2)]; [("a", 3)]]).1 "a" = Some 3.
Proof. apply (flatten_reply_spec [[("a", 1)]; [("b", 2)]; [("a", 3)]] "a"). repeat constructor; apply not_elem_of_nil. Defined.

(** With no more arguments than the declared ones, the last of them is also among the rest: the signal
    becomes the id of a task *)
Example signal_as_id : run_command as_text control "terminate" ["KILL"] = Ok [("signal", VStr "KILL"); ("task_id", VArgs ["KILL"])].
Proof. by vm_compute. Qed.

(** [election] is listed, but what can be typed never suits its handler; arguments are ignored *)
Example election_never_called args : ∃ d, run_command as_text control "election" args = Ok d ∧ call "election" d = Raise TypeError.
Proof. exists []. split; by vm_compute. Qed.

(** The workers answer a text: the ids that are looked for are never there, so that no second message
    is sent, and an error of one of them is raised as a [KeyError] *)
Example no_ids_in_answers (s : string) :
  revoke_by_stamped_headers (V := Z) (λ _, 0%Z) 1%Z 2%Z 3%Z (Some [[("a", OkText s)]; [("b", OkText s)]]) [] =
    ([broadcasts (CRevokeByStampedHeaders 1%Z 2%Z 3%Z)], Ok None) ∧
  (revoke_by_stamped_headers (V := Z) (λ _, 0%Z) 1%Z 2%Z 3%Z (Some [[("a", Failed s)]]) []).2 = Raise KeyError.
Proof. by vm_compute. Qed.

End ControlClientExamples.
