(* ===== verification/SafeRepr.v ===== *)
(** The representation of arguments and results in logs and events (celery/utils/saferepr.py): a
    streaming, truncating version of [repr] that works on objects that contain themselves.

    Objects live in a heap.  Text is a list of characters; numbers and objects of other types have
    the text that [str] or [repr] gives for them.  Values of type [bytes] are not modelled.  The stack
    of [reprstream] holds one iterator: it is replaced by the chain of the members of the object at
    hand and of what was left of it. *)

From S2P Require Import Prelude.
From S2P Require Import PyStr.

Module SafeRepr.
Local Open Scope nat_scope.

Inductive value :=
| VNumber (text : chars)      (* [str] of it *)
| VStr (s : chars)
| VOther (text : chars)       (* [repr] of it: [Decimal], [range], any other object *)
| VRef (a : nat).

Inductive object :=
| OSet (name : chars) (l : list value)   (* [name] is the name of the type *)
| OTuple (l : list value)
| ODict (l : list (value * value))
| OList (l : list value).

(** [_literal], with the level that it leads to *)
Record literal := Lit { l_value : chars; l_truncate : bool; l_direction : Z }.

Definition LIT_DICT_START := Lit (to_chars "{") false 1.
Definition LIT_DICT_KVSEP := Lit (to_chars ": ") true 0.
Definition LIT_DICT_END := Lit (to_chars "}") false (-1).
Definition LIT_LIST_START := Lit (to_chars "[") false 1.
Definition LIT_LIST_END := Lit (to_chars "]") false (-1).
Definition LIT_LIST_SEP := Lit (to_chars ", ") true 0.
Definition LIT_SET_START := Lit (to_chars "{") false 1.
Definition LIT_SET_END := Lit (to_chars "}") false (-1).
Definition LIT_TUPLE_START := Lit (to_chars "(") false 1.
Definition LIT_TUPLE_END := Lit (to_chars ")") false (-1).
Definition LIT_TUPLE_END_SV := Lit (to_chars ",)") false (-1).

(** What an iterator has: values, literals, [_key] and [_dirty] *)
Inductive item := IVal (v : value) | ILit (l : literal) | IKey (k : value) | IDirty (a : nat).

Fixpoint _chainlist (l : list value) : list item :=
  match l with
  | [] => []
  | [v] => [IVal v]
  | v :: l => IVal v :: ILit LIT_LIST_SEP :: _chainlist l
  end.

Fixpoint _chaindict (l : list (value * value)) : list item :=
  match l with
  | [] => []
  | [(k, v)] => [IKey k; ILit LIT_DICT_KVSEP; IVal v]
  | (k, v) :: l => IKey k :: ILit LIT_DICT_KVSEP :: IVal v :: ILit LIT_LIST_SEP :: _chaindict l
  end.

Definition _repr_empty_set (name : chars) : chars := name ++ to_chars "()".

(** [_reprseq] for sets *)
Definition _reprseq (name : chars) (lit_start lit_end : literal) : literal * literal :=
  if bool_decide (name = to_chars "set") then (lit_start, lit_end)
  else (Lit (name ++ to_chars "(" ++ l_value lit_start) false 1, Lit (l_value lit_end ++ to_chars ")") false (-1)).

Definition parts (o : object) : literal * literal * list item :=
  match o with
  | OSet name l => (_reprseq name LIT_SET_START LIT_SET_END, _chainlist l)
  | OTuple l => (LIT_TUPLE_START, if bool_decide (length l = 1) then LIT_TUPLE_END_SV else LIT_TUPLE_END, _chainlist l)
  | ODict l => (LIT_DICT_START, LIT_DICT_END, _chaindict l)
  | OList l => (LIT_LIST_START, LIT_LIST_END, _chainlist l)
  end.

(** [truncate] of celery/utils/text.py: [s[:maxlen].rsplit(' ', 1)[0] + suffix] *)
Fixpoint rsplit_space (l : chars) : option chars :=
  match l with
  | [] => None
  | c :: l => match rsplit_space l with
              | Some r => Some (c :: r)
              | None => if bool_decide (c = " "%char) then Some [] else None
              end
  end.

Definition truncate (s : chars) (maxlen : option Z) : chars :=
  match maxlen with
  | None => s
  | Some m =>
      if negb (m =? 0)%Z && (m <=? Z.of_nat (length s))%Z then
        let s := take (Z.to_nat (if (m <? 0)%Z then Z.of_nat (length s) + m else m)) s in
        default s (rsplit_space s) ++ to_chars "..."
      else s
  end.

(** [.replace("'", "\\'")] *)
Definition escape_quotes (s : chars) : chars := s ≫= λ c, if bool_decide (c = "'"%char) then ["\"%char; c] else [c].
Definition _format_chars (s : chars) (maxlen : option Z) : chars := to_chars "'" ++ escape_quotes (truncate s maxlen) ++ to_chars "'".

Inductive token := TLit (l : literal) | TKey (k : value) | TQuoted (s : chars) | TText (s : chars).

Section Repr.
Context (heap : list object) (recursion : nat → chars).  (* [pprint._recursion] *)

Definition lookup (a : nat) : object := default (OList []) (heap !! a).

Section Levels.
Context (maxlevels : Z).

(** The levels are used up *)
Definition too_deep (level : Z) : bool := negb (maxlevels =? 0)%Z && (maxlevels <=? level)%Z.

(** [reprstream]: the tokens, each with what is left of the iterator *)
Fixpoint reprstream (fuel : nat) (level : Z) (seen : gset nat) (it : list item) : option (list (token * list item)) :=
  match fuel with
  | 0 => None
  | S fuel =>
      match it with
      | [] => Some []
      | IDirty a :: it => reprstream fuel level (seen ∖ {[a]}) it
      | ILit l :: it => cons (TLit l, it) <$> reprstream fuel (level + l_direction l) seen it
      | IKey k :: it => cons (TKey k, it) <$> reprstream fuel level seen it
      | IVal (VNumber s) :: it => cons (TText s, it) <$> reprstream fuel level seen it
      | IVal (VStr s) :: it => cons (TQuoted s, it) <$> reprstream fuel level seen it
      | IVal (VOther s) :: it => cons (TText s, it) <$> reprstream fuel level seen it
      | IVal (VRef a) :: it =>
          match lookup a with
          | OSet name [] => cons (TText (_repr_empty_set name), it) <$> reprstream fuel level seen it
          | o =>
              let '(lit_start, lit_end, members) := parts o in
              if too_deep level then
                cons (TText (l_value lit_start ++ to_chars "..." ++ l_value lit_end), it) <$> reprstream fuel level seen it
              else if bool_decide (a ∈ seen) then cons (TText (recursion a), it) <$> reprstream fuel level seen it
              else reprstream fuel level (seen ∪ {[a]}) (ILit lit_start :: members ++ IDirty a :: ILit lit_end :: it)
          end
      end
  end.

(** [_saferepr] given the tokens, with [key] for the text of keys.  A piece of text: a token, the
    dots, or a bracket that was still open. *)
Inductive piece := PToken (t : token) (text : chars) | PDots | PDangling (l : literal).
Definition piece_text (p : piece) : chars :=
  match p with PToken _ s => s | PDots => to_chars ", ..." | PDangling l => l_value l end.

Definition dangling (it : list item) : list piece :=
  omap (λ i, match i with ILit l => if l_truncate l then None else Some (PDangling l) | _ => None end) it.

Definition token_text (key : option Z → value → option chars) (maxlen : option Z) (t : token) : option chars :=
  match t with
  | TLit l => Some (l_value l)
  | TKey k => key maxlen k
  | TQuoted s => Some (_format_chars s maxlen)
  | TText s => Some (truncate s maxlen)
  end.

Fixpoint emit (key : option Z → value → option chars) (maxlen : option Z) (toks : list (token * list item)) : option (list piece) :=
  match toks with
  | [] => Some []
  | (t, it) :: toks =>
      if match maxlen with Some m => (m <=? 0)%Z | None => false end then Some (PDots :: dangling it)
      else s ← token_text key maxlen t;
           cons (PToken t s) <$> emit key ((λ m, m - Z.of_nat (length s))%Z <$> maxlen) toks
  end.

(** The text of keys is made the same way; [depth] is how many keys are inside each other *)
Fixpoint saferepr (depth fuel : nat) (maxlen : option Z) (v : value) : option chars :=
  match depth with
  | 0 => None
  | S depth =>
      toks ← reprstream fuel 0 ∅ [IVal v];
      ps ← emit (saferepr depth fuel) maxlen toks;
      Some (concat (piece_text <$> ps))
  end.

(** ** The recursive definition *)

Fixpoint join (ts : list chars) : chars :=
  match ts with
  | [] => []
  | [t] => t
  | t :: ts => t ++ to_chars ", " ++ join ts
  end.

Section Text.
Context (key : value → option chars).

(** [repr], to the levels given and with the objects that contain themselves marked *)
Fixpoint text (d : nat) (level : Z) (seen : gset nat) (v : value) : option chars :=
  match d with
  | 0 => None
  | S d =>
      match v with
      | VNumber s => Some s
      | VStr s => Some (_format_chars s None)
      | VOther s => Some s
      | VRef a =>
          match lookup a with
          | OSet name [] => Some (name ++ to_chars "()")
          | o =>
              let '(s, e, _) := parts o in
              if too_deep level then Some (l_value s ++ to_chars "..." ++ l_value e)
              else if bool_decide (a ∈ seen) then Some (recursion a)
              else
                let member := text d (level + 1) (seen ∪ {[a]}) in
                ts ← match o with
                     | OSet _ l | OTuple l | OList l => mapM member l
                     | ODict l => mapM (λ '(k, v), kt ← key k; vt ← member v; Some (kt ++ to_chars ": " ++ vt)) l
                     end;
                Some (l_value s ++ join ts ++ l_value e)
          end
      end
  end.
End Text.

Fixpoint repr (depth d : nat) (v : value) : option chars :=
  match depth with
  | 0 => None
  | S depth => text (repr depth d) d 0 ∅ v
  end.

(** *** The stream computes it *)

(** From one state of the stream to another one, with the tokens on the way *)
Definition runs (level : Z) (seen : gset nat) (it : list item) (level' : Z) (seen' : gset nat) (it' : list item) (toks : list (token * list item)) : Prop :=
  ∃ n, ∀ fuel, reprstream (n + fuel) level seen it = app toks <$> reprstream fuel level' seen' it'.

Lemma runs_refl level seen it : runs level seen it level seen it [].
Proof. exists 0. intros fuel. simpl. by destruct (reprstream fuel level seen it). Qed.

Lemma runs_trans l1 s1 i1 l2 s2 i2 l3 s3 i3 t1 t2 : runs l1 s1 i1 l2 s2 i2 t1 → runs l2 s2 i2 l3 s3 i3 t2 → runs l1 s1 i1 l3 s3 i3 (t1 ++ t2).
Proof.
  intros [n1 H1] [n2 H2]. exists (n1 + n2). intros fuel. rewrite <- Nat.add_assoc, H1, H2. destruct (reprstream fuel l3 s3 i3); simpl; [|done]. by rewrite app_assoc.
Qed.

Lemma runs_step level seen i it level' seen' it' toks :
  (∀ fuel, reprstream (S fuel) level seen (i :: it) = app toks <$> reprstream fuel level' seen' it') → runs level seen (i :: it) level' seen' it' toks.
Proof. intros H. by exists 1. Qed.

Lemma runs_lit level seen l it : runs level seen (ILit l :: it) (level + l_direction l) seen it [(TLit l, it)].
Proof. by apply runs_step. Qed.

Lemma runs_dirty level seen a it : runs level seen (IDirty a :: it) level (seen ∖ {[a]}) it [].
Proof. apply runs_step. intros fuel. simpl. by destruct (reprstream fuel level (seen ∖ {[a]}) it). Qed.

(** The text of tokens without limit *)
Definition says (key : option Z → value → option chars) (toks : list (token * list item)) (s : chars) : Prop :=
  ∃ l, mapM (token_text key None) toks.*1 = Some l ∧ s = concat l.

Lemma says_nil key : says key [] [].
Proof. by exists []. Qed.

Lemma says_one key t it s : token_text key None t = Some s → says key [(t, it)] s.
Proof. intros H. exists [s]. simpl. rewrite H. split; [done|]. simpl. by rewrite app_nil_r. Qed.

Lemma says_app key t1 t2 s1 s2 : says key t1 s1 → says key t2 s2 → says key (t1 ++ t2) (s1 ++ s2).
Proof.
  intros (l1 & H1 & ->) (l2 & H2 & ->). exists (l1 ++ l2). split; [|by rewrite concat_app]. rewrite fmap_app. apply mapM_Some in H1, H2. apply mapM_Some. by apply Forall2_app.
Qed.

(** Both at once *)
Definition prints key level seen it level' seen' it' (s : chars) : Prop := ∃ toks, runs level seen it level' seen' it' toks ∧ says key toks s.

Lemma prints_trans key l1 s1 i1 l2 s2 i2 l3 s3 i3 t1 t2 : prints key l1 s1 i1 l2 s2 i2 t1 → prints key l2 s2 i2 l3 s3 i3 t2 → prints key l1 s1 i1 l3 s3 i3 (t1 ++ t2).
Proof. intros (k1 & R1 & S1) (k2 & R2 & S2). exists (k1 ++ k2). split; [by eapply runs_trans|by apply says_app]. Qed.

Lemma prints_lit key level seen l it : prints key level seen (ILit l :: it) (level + l_direction l) seen it (l_value l).
Proof. exists [(TLit l, it)]. split; [apply runs_lit|by apply says_one]. Qed.

Lemma prints_sep key level seen l it : l_direction l = 0%Z → prints key level seen (ILit l :: it) level seen it (l_value l).
Proof. intros H. pose proof (prints_lit key level seen l it) as P. by rewrite H, Z.add_0_r in P. Qed.

Lemma prints_one key level seen i it t s :
  (∀ fuel, reprstream (S fuel) level seen (i :: it) = cons (t, it) <$> reprstream fuel level seen it) → token_text key None t = Some s →
  prints key level seen (i :: it) level seen it s.
Proof.
  intros H Ht. exists [(t, it)]. split; [|by apply says_one]. apply runs_step. intros fuel. rewrite H. by destruct (reprstream fuel level seen it).
Qed.

Section Members.
Context (key : option Z → value → option chars) (level : Z) (seen : gset nat) (member : value → option chars).
Context (Hmember : ∀ v s it, member v = Some s → prints key level seen (IVal v :: it) level seen it s).

Lemma prints_list l ts it : mapM member l = Some ts → prints key level seen (_chainlist l ++ it) level seen it (join ts).
Proof.
  intros H%mapM_Some. induction H as [|v t l ts Hv Hl IH]; [exists []; split; [apply runs_refl|apply says_nil]|].
  destruct Hl as [|v2 t2 l ts Hv2 Hl]; [by apply Hmember|].
  change (prints key level seen (IVal v :: ILit LIT_LIST_SEP :: (_chainlist (v2 :: l) ++ it)) level seen it (t ++ l_value LIT_LIST_SEP ++ join (t2 :: ts))).
  eapply prints_trans; [by apply Hmember|]. eapply prints_trans; [by apply prints_sep|done].
Qed.

Lemma prints_dict l ts it :
  mapM (λ '(k, v), kt ← key None k; vt ← member v; Some (kt ++ to_chars ": " ++ vt)) l = Some ts → prints key level seen (_chaindict l ++ it) level seen it (join ts).
Proof.
  assert (∀ k v t it, (kt ← key None k; vt ← member v; Some (kt ++ to_chars ": " ++ vt)) = Some t →
    prints key level seen (IKey k :: ILit LIT_DICT_KVSEP :: IVal v :: it) level seen it t) as Hkv.
  { intros k v t it' (kt & Hk & (vt & Hv & [= <-])%bind_Some)%bind_Some. eapply prints_trans; [by eapply (prints_one _ _ _ _ _ (TKey k))|].
    change (":"%char :: " "%char :: vt) with (l_value LIT_DICT_KVSEP ++ vt). eapply prints_trans; [by apply prints_sep|]. by apply Hmember. }
  intros H%mapM_Some. induction H as [|[k v] t l ts Hv Hl IH]; [exists []; split; [apply runs_refl|apply says_nil]|].
  destruct Hl as [|[k2 v2] t2 l ts Hv2 Hl]; [by apply Hkv|].
  change (prints key level seen (IKey k :: ILit LIT_DICT_KVSEP :: IVal v :: ILit LIT_LIST_SEP :: (_chaindict ((k2, v2) :: l) ++ it)) level seen it (t ++ l_value LIT_LIST_SEP ++ join (t2 :: ts))).
  eapply prints_trans; [by apply Hkv|]. eapply prints_trans; [by apply prints_sep|done].
Qed.
End Members.

Lemma parts_directions o s e m : parts o = (s, e, m) → l_direction s = 1%Z ∧ l_direction e = (-1)%Z.
Proof. destruct o; simpl; unfold _reprseq; repeat case_bool_decide; by intros [= <- <- <-]. Qed.

Definition empty_set (o : object) : bool := match o with OSet _ [] => true | _ => false end.

(** The members of an object *)
Definition member_texts (key member : value → option chars) (o : object) : option (list chars) :=
  match o with
  | OSet _ l | OTuple l | OList l => mapM member l
  | ODict l => mapM (λ '(k, v), kt ← key k; vt ← member v; Some (kt ++ to_chars ": " ++ vt)) l
  end.

Lemma text_object key d level seen a s e m :
  empty_set (lookup a) = false → parts (lookup a) = (s, e, m) →
  text key (S d) level seen (VRef a) =
    if too_deep level then Some (l_value s ++ to_chars "..." ++ l_value e)
    else if bool_decide (a ∈ seen) then Some (recursion a)
    else ts ← member_texts key (text key d (level + 1) (seen ∪ {[a]})) (lookup a); Some (l_value s ++ join ts ++ l_value e).
Proof. intros He Hp. cbn [text]. destruct (lookup a) as [name [|v l]| | |]; [done|..]; by rewrite Hp. Qed.

Lemma stream_object fuel level seen a it s e m :
  empty_set (lookup a) = false → parts (lookup a) = (s, e, m) →
  reprstream (S fuel) level seen (IVal (VRef a) :: it) =
    if too_deep level then cons (TText (l_value s ++ to_chars "..." ++ l_value e), it) <$> reprstream fuel level seen it
    else if bool_decide (a ∈ seen) then cons (TText (recursion a), it) <$> reprstream fuel level seen it
    else reprstream fuel level (seen ∪ {[a]}) (ILit s :: m ++ IDirty a :: ILit e :: it).
Proof. intros He Hp. cbn [reprstream]. destruct (lookup a) as [name [|v l]| | |]; [done|..]; by rewrite Hp. Qed.

(** An object that is expanded *)
Lemma prints_object key a lit_start lit_end members level seen it s :
  empty_set (lookup a) = false → parts (lookup a) = (lit_start, lit_end, members) → too_deep level = false → a ∉ seen →
  prints key (level + 1) (seen ∪ {[a]}) (members ++ IDirty a :: ILit lit_end :: it) (level + 1) (seen ∪ {[a]}) (IDirty a :: ILit lit_end :: it) s →
  prints key level seen (IVal (VRef a) :: it) level seen it (l_value lit_start ++ s ++ l_value lit_end).
Proof.
  intros He Hp Hd Hs Hm. destruct (parts_directions _ _ _ _ Hp) as [Hds Hde].
  change (l_value lit_start ++ s ++ l_value lit_end) with ([] ++ (l_value lit_start ++ s ++ l_value lit_end)).
  eapply prints_trans.
  { exists []. split; [|apply says_nil]. apply (runs_step level seen (IVal (VRef a)) it level (seen ∪ {[a]}) (ILit lit_start :: members ++ IDirty a :: ILit lit_end :: it)).
    intros fuel. assert (∀ r : option (list (token * list item)), r = app [] <$> r) as Hr by (by intros []).
    rewrite (stream_object _ _ _ _ _ _ _ _ He Hp), Hd, bool_decide_eq_false_2 by done. apply Hr. }
  eapply prints_trans; [apply prints_lit|]. rewrite Hds. eapply prints_trans; [exact Hm|].
  change (l_value lit_end) with ([] ++ l_value lit_end). eapply prints_trans; [exists []; split; [apply runs_dirty|apply says_nil]|].
  replace ((seen ∪ {[a]}) ∖ {[a]}) with seen by set_solver. pose proof (prints_lit key (level + 1) seen lit_end it) as P. rewrite Hde in P.
  by replace (level + 1 + -1)%Z with level in P by lia.
Qed.

Lemma prints_members key level seen member o s e m ts it :
  (∀ v s it, member v = Some s → prints key level seen (IVal v :: it) level seen it s) → parts o = (s, e, m) →
  member_texts (key None) member o = Some ts → prints key level seen (m ++ it) level seen it (join ts).
Proof.
  intros Hm Hp Hts. apply (f_equal snd) in Hp. destruct o as [name l|l|l|l]; simpl in Hp; subst m;
    [by apply (prints_list _ _ _ _ Hm)..|by apply (prints_dict _ _ _ _ Hm)|by apply (prints_list _ _ _ _ Hm)].
Qed.

Lemma prints_value key d level seen v s it : text (key None) d level seen v = Some s → prints key level seen (IVal v :: it) level seen it s.
Proof.
  revert level seen v s it. induction d as [|d IH]; intros level seen v s it; [done|]. destruct v as [n|c|o|a].
  - intros [= <-]. by apply (prints_one _ _ _ _ _ (TText n)).
  - intros [= <-]. by apply (prints_one _ _ _ _ _ (TQuoted c)).
  - intros [= <-]. by apply (prints_one _ _ _ _ _ (TText o)).
  - destruct (empty_set (lookup a)) eqn:He.
    { cbn [text]. destruct (lookup a) as [name [|]| | |] eqn:Ha; try done. intros [= <-].
      apply (prints_one _ _ _ _ _ (TText (_repr_empty_set name))); [|done]. intros fuel. cbn [reprstream]. by rewrite Ha. }
    destruct (parts (lookup a)) as [[ls le] m] eqn:Hp. rewrite (text_object _ _ _ _ _ _ _ _ He Hp). destruct (too_deep level) eqn:Ht; [|case_bool_decide as Hs].
    + intros H. apply (inj Some) in H. subst s. apply (prints_one _ _ _ _ _ (TText (l_value ls ++ to_chars "..." ++ l_value le))); [|done].
      intros fuel. by rewrite (stream_object _ _ _ _ _ _ _ _ He Hp), Ht.
    + intros [= <-]. apply (prints_one _ _ _ _ _ (TText (recursion a))); [|done].
      intros fuel. by rewrite (stream_object _ _ _ _ _ _ _ _ He Hp), Ht, bool_decide_eq_true_2.
    + intros (ts & Hts & Heq)%bind_Some. apply (inj Some) in Heq. subst s. apply (prints_object key a ls le m); try done.
      apply (prints_members key _ _ (text (key None) d (level + 1) (seen ∪ {[a]})) (lookup a) ls le); [|done|done]. intros. by apply IH.
Qed.

(** *** It ends *)

Definition members_of (o : object) : list value :=
  match o with OSet _ l | OTuple l | OList l => l | ODict l => l.*2 end.
Definition keys_of (o : object) : list value := match o with ODict l => l.*1 | _ => [] end.

Definition closed (v : value) : Prop := match v with VRef a => a < length heap | _ => True end.
Definition closed_heap : Prop := ∀ a o, heap !! a = Some o → Forall closed (members_of o) ∧ Forall closed (keys_of o).

(** Enough depth: by the levels, or by the objects not seen *)
Definition enough (d : nat) (level : Z) (seen : gset nat) : Prop :=
  (0 < maxlevels ∧ 0 < Z.of_nat d ∧ maxlevels - level < Z.of_nat d)%Z ∨ (maxlevels = 0%Z ∧ size (set_seq 0 (length heap) ∖ seen) < d).

Lemma enough_step d level seen a :
  enough (S d) level seen → too_deep level = false → a ∉ seen → a < length heap → enough d (level + 1) (seen ∪ {[a]}).
Proof.
  intros [(H0 & _ & Hl)|[-> Hs]] Ht Hn Ha.
  - left. unfold too_deep in Ht. apply andb_false_iff in Ht as [Ht|Ht]; [apply negb_false_iff, Z.eqb_eq in Ht; lia|]. apply Z.leb_gt in Ht. lia.
  - right. split; [done|]. assert (size (set_seq 0 (length heap) ∖ (seen ∪ {[a]}) : gset nat) < size (set_seq 0 (length heap) ∖ seen : gset nat)); [|lia].
    apply subset_size. split; [set_solver|]. intros Hsub. specialize (Hsub a). rewrite !elem_of_difference, elem_of_set_seq in Hsub. set_solver by lia.
Qed.

Lemma text_total key d level seen v :
  closed_heap → (∀ a o k, heap !! a = Some o → k ∈ keys_of o → is_Some (key k)) → closed v → enough d level seen → is_Some (text key d level seen v).
Proof.
  intros Hc Hk. revert level seen v. induction d as [|d IH]; intros level seen v Hv He.
  { exfalso. destruct He as [(_ & ? & _)|[_ ?]]; lia. }
  destruct v as [n|c|o|a]; try (by eexists). destruct (empty_set (lookup a)) eqn:Hem.
  { cbn [text]. destruct (lookup a) as [name [|]| | |]; done || by eexists. }
  destruct (parts (lookup a)) as [[ls le] m] eqn:Hp. rewrite (text_object _ _ _ _ _ _ _ _ Hem Hp). destruct (too_deep level) eqn:Ht; [by eexists|]. case_bool_decide as Hs; [by eexists|].
  simpl in Hv. destruct (lookup_lt_is_Some_2 heap a Hv) as [o Ho]. unfold lookup. rewrite Ho. simpl. destruct (Hc a o Ho) as [Hm _].
  assert (∀ v, v ∈ members_of o → is_Some (text key d (level + 1) (seen ∪ {[a]}) v)) as Hmem.
  { intros v Hin. apply IH; [by eapply Forall_forall in Hm|by apply enough_step]. }
  assert (is_Some (member_texts key (text key d (level + 1) (seen ∪ {[a]})) o)) as [ts ->]; [|by eexists].
  destruct o as [name l|l|l|l]; simpl in *; try (apply mapM_is_Some; by apply Forall_forall).
  apply mapM_is_Some, Forall_forall. intros [k v] Hin. destruct (Hk a (ODict l) k Ho) as [kt Hkt]; [by apply list_elem_of_fmap; exists (k, v)|].
  destruct (Hmem v) as [vt Hvt]; [by apply list_elem_of_fmap; exists (k, v)|]. simpl. rewrite Hkt. simpl. rewrite Hvt. by eexists.
Qed.

(** *** The text *)

Lemma keys_agree depth d (toks : list (token * list item)) l :
  (∀ v s, repr depth d v = Some s → ∃ n, ∀ fuel, n ≤ fuel → saferepr depth fuel None v = Some s) →
  mapM (token_text (λ _, repr depth d) None) toks.*1 = Some l →
  ∃ n, ∀ fuel, n ≤ fuel → ∃ ps, emit (saferepr depth fuel) None toks = Some ps ∧ piece_text <$> ps = l.
Proof.
  intros IH. revert l. induction toks as [|[t it] toks IHt]; intros l; simpl.
  { intros [= <-]. exists 0. intros fuel _. by exists []. }
  intros (s & Hs & (l' & Hl & [= <-])%bind_Some)%bind_Some. destruct (IHt l' Hl) as [n Hn].
  assert (∃ m, ∀ fuel, m ≤ fuel → token_text (saferepr depth fuel) None t = Some s) as [m Hm].
  { destruct t; simpl in *; try (by exists 0). by apply IH. }
  exists (n `max` m). intros fuel Hf. destruct (Hn fuel) as (ps & -> & Hps); [lia|]. rewrite Hm by lia. simpl. exists (PToken t s :: ps). split; [done|]. exact (f_equal (cons s) Hps).
Qed.

Lemma saferepr_prints depth d v s : repr depth d v = Some s → ∃ n, ∀ fuel, n ≤ fuel → saferepr depth fuel None v = Some s.
Proof.
  revert v s. induction depth as [|depth IH]; intros v s; [done|]. simpl. intros H.
  destruct (prints_value (λ _, repr depth d) d 0 ∅ v s [] H) as (toks & [n Hn] & (l & Hl & ->)).
  destruct (keys_agree depth d toks l IH Hl) as [m Hm]. exists (S n `max` m). intros fuel Hf.
  replace fuel with (n + S (fuel - S n)) by lia. rewrite Hn. simpl. rewrite app_nil_r. replace (n + S (fuel - S n)) with fuel by lia.
  destruct (Hm fuel) as (ps & -> & <-); [lia|]. done.
Qed.

(** Keys that are not objects themselves *)
Definition simple_keys : Prop := ∀ a o k, heap !! a = Some o → k ∈ keys_of o → match k with VRef _ => False | _ => True end.

(** C27: [saferepr] without a limit of length is [repr]: on any objects, also ones that contain themselves,
    the streaming loop ends and gives the text of the recursive definition, in which objects below the
    given level are left out and an object inside itself is marked (for dictionaries whose keys are not
    containers).  The recursive definition is total: as deep as the levels or, when these are not
    limited, as the number of objects. *)
Theorem saferepr_is_repr v :
  (0 <= maxlevels)%Z → closed_heap → simple_keys → closed v →
  let d := S (Z.to_nat maxlevels `max` length heap) in
  ∃ s n, repr 2 d v = Some s ∧ ∀ fuel, n ≤ fuel → saferepr 2 fuel None v = Some s.
Proof.
  intros H0 Hc Hk Hv d. assert (enough d 0 ∅) as He.
  { destruct (decide (maxlevels = 0%Z)) as [E|]; [right|left; lia]. split; [done|]. rewrite difference_empty_L, size_set_seq. unfold d. lia. }
  destruct (text_total (repr 1 d) d 0 ∅ v Hc) as [s Hs]; [|done|done|].
  - intros a o k Ho Hin. specialize (Hk a o k Ho Hin). destruct k; [by eexists..|done].
  - destruct (saferepr_prints 2 d v s Hs) as [n Hn]. by exists s, n.
Qed.

(** *** Brackets *)

Definition sum (l : list Z) : Z := foldr Z.add 0%Z l.
Lemma sum_app l1 l2 : sum (l1 ++ l2) = (sum l1 + sum l2)%Z.
Proof. unfold sum. induction l1; simpl; lia. Qed.

Lemma sum_cons x l : sum (x :: l) = (x + sum l)%Z.
Proof. done. Qed.

Definition lit_of (i : item) : list literal := match i with ILit l => [l] | _ => [] end.
Definition lits (it : list item) : list literal := it ≫= lit_of.
(** The levels that what is left of an iterator goes up *)
Definition item_levels (it : list item) : Z := sum (l_direction <$> lits it).
Definition token_level (t : token) : Z := match t with TLit l => l_direction l | _ => 0%Z end.
Definition piece_level (p : piece) : Z := match p with PToken t _ => token_level t | PDots => 0%Z | PDangling l => l_direction l end.

(** Only what may be left out is neutral *)
Definition lit_ok (l : literal) : Prop := l_truncate l = true → l_direction l = 0%Z.
Definition items_ok (it : list item) : Prop := Forall lit_ok (lits it).

Lemma lits_app i1 i2 : lits (i1 ++ i2) = lits i1 ++ lits i2.
Proof. apply bind_app. Qed.
Lemma levels_app i1 i2 : item_levels (i1 ++ i2) = (item_levels i1 + item_levels i2)%Z.
Proof. unfold item_levels. by rewrite lits_app, fmap_app, sum_app. Qed.
Lemma levels_cons i it : item_levels (i :: it) = (sum (l_direction <$> lit_of i) + item_levels it)%Z.
Proof. unfold item_levels, lits. simpl. by rewrite fmap_app, sum_app. Qed.
Lemma ok_app i1 i2 : items_ok (i1 ++ i2) ↔ items_ok i1 ∧ items_ok i2.
Proof. unfold items_ok. rewrite lits_app. apply Forall_app. Qed.
Lemma ok_cons i it : items_ok (i :: it) ↔ Forall lit_ok (lit_of i) ∧ items_ok it.
Proof. apply (Forall_app _ (lit_of i)). Qed.

Lemma dangling_levels it : items_ok it → sum (piece_level <$> dangling it) = item_levels it.
Proof.
  induction it as [|i it IH]; intros H; [done|]. apply ok_cons in H as [Hi Hit]. rewrite levels_cons, <- IH by done.
  destruct i as [v|l|k|a]; try done. apply Forall_cons in Hi as [Hi _]. unfold lit_ok in Hi.
  assert (dangling (ILit l :: it) = (if l_truncate l then [] else [PDangling l]) ++ dangling it) as -> by (unfold dangling; simpl; by destruct (l_truncate l)).
  rewrite fmap_app, sum_app. f_equal. destruct (l_truncate l); [|done]. unfold sum. simpl. by rewrite Hi.
Qed.

Lemma parts_ok o s e m : parts o = (s, e, m) → items_ok (ILit s :: m ++ [ILit e]) ∧ item_levels m = 0%Z ∧ (l_direction s + l_direction e = 0)%Z.
Proof.
  intros Hp. assert (item_levels m = 0%Z ∧ items_ok m) as [Hl Hm].
  { apply (f_equal snd) in Hp. assert (∀ l, item_levels (_chainlist l) = 0%Z ∧ items_ok (_chainlist l)) as HL.
    { intros l. induction l as [|v [|v2 l] IH]; [split; [done|constructor]|split; [done|constructor]|]. destruct IH as [I1 I2].
      change (_chainlist (v :: v2 :: l)) with (IVal v :: ILit LIT_LIST_SEP :: _chainlist (v2 :: l)). rewrite !levels_cons, I1. split; [done|]. rewrite !ok_cons. split_and!; [constructor|by repeat constructor|done]. }
    destruct o as [name l|l|l|l]; simpl in Hp; subst m; try apply HL. induction l as [|[k v] [|[k2 v2] l] IH]; [split; [done|constructor]|split; [done|by repeat constructor]|]. destruct IH as [I1 I2].
    change (_chaindict ((k, v) :: (k2, v2) :: l)) with (IKey k :: ILit LIT_DICT_KVSEP :: IVal v :: ILit LIT_LIST_SEP :: _chaindict ((k2, v2) :: l)).
    rewrite !levels_cons, I1. split; [done|]. rewrite !ok_cons. split_and!; try done; repeat constructor; done. }
  destruct (parts_directions _ _ _ _ Hp) as [-> ->]. split_and!; [|done|lia].
  assert (lit_ok s ∧ lit_ok e) as [Hs He]; [|rewrite ok_cons, ok_app; split_and!; [by repeat constructor|done|by repeat constructor]].
  unfold lit_ok. destruct o; simpl in Hp; unfold _reprseq in Hp; repeat case_bool_decide; simplify_eq/=; done.
Qed.

(** Wherever the stream is, what it has yet to yield leads back to the level of the start *)
Lemma stream_levels fuel level seen it toks :
  reprstream fuel level seen it = Some toks → items_ok it → (level + item_levels it = 0)%Z →
  (level + sum (token_level <$> toks.*1) = 0)%Z ∧
  ∀ pre t it' post, toks = pre ++ (t, it') :: post → items_ok it' ∧ (level + sum (token_level <$> pre.*1) + token_level t + item_levels it' = 0)%Z.
Proof.
  revert level seen it toks. induction fuel as [|fuel IH]; intros level seen it toks; [done|].
  assert (∀ t l' it, (l' = level + token_level t)%Z → items_ok it → (l' + item_levels it = 0)%Z → cons (t, it) <$> reprstream fuel l' seen it = Some toks →
    (level + sum (token_level <$> toks.*1) = 0)%Z ∧
    ∀ pre t' it' post, toks = pre ++ (t', it') :: post → items_ok it' ∧ (level + sum (token_level <$> pre.*1) + token_level t' + item_levels it' = 0)%Z) as Hyield.
  { intros t l' it0 -> Hok Hz (r & Hr & ->)%fmap_Some. destruct (IH _ _ _ _ Hr Hok Hz) as [Ht Hp].
    change (token_level <$> ((t, it0) :: r).*1) with (token_level t :: (token_level <$> r.*1)). rewrite sum_cons. split; [lia|].
    intros [|x pre] t' it' post Heq; simplify_list_eq; [split; [done|]; change (sum (token_level <$> [].*1)) with 0%Z; lia|]. destruct (Hp pre t' it' post eq_refl) as [Hok' Hz'].
    split; [done|]. enough ((level + (token_level t + sum (token_level <$> pre.*1)) + token_level t' + item_levels it')%Z = 0%Z) by done. lia. }
  destruct it as [|[v|l|k|a] it]; cbn [reprstream].
  - intros [= <-] _ Hz. unfold item_levels in Hz. simpl in *. split; [done|]. by intros [|].
  - intros H [_ Hok]%ok_cons Hz. rewrite levels_cons in Hz. change (sum (l_direction <$> lit_of (IVal v))) with 0%Z in Hz. destruct v as [n|c|o|a];
      [by apply (Hyield (TText n) level it); simpl; [lia|..]|by apply (Hyield (TQuoted c) level it); simpl; [lia|..]|by apply (Hyield (TText o) level it); simpl; [lia|..]|].
    destruct (empty_set (lookup a)) eqn:He.
    { destruct (lookup a) as [name [|]| | |]; try done. by apply (Hyield (TText (_repr_empty_set name)) level it); simpl; [lia|..]. }
    destruct (parts (lookup a)) as [[ls le] m] eqn:Hp. pose proof (stream_object fuel level seen a it ls le m He Hp) as Hso. cbn [reprstream] in Hso. rewrite Hso in H. clear Hso.
    destruct (too_deep level); [eapply (Hyield (TText _) level it); [simpl; lia|done|done|exact H]|]. case_bool_decide; [eapply (Hyield (TText _) level it); [simpl; lia|done|done|exact H]|].
    destruct (parts_ok _ _ _ _ Hp) as (Hpo & Hml & Hd). rewrite ok_cons, ok_app in Hpo. apply (IH _ _ _ _ H).
    + rewrite ok_cons, ok_app, !ok_cons. rewrite ok_cons in Hpo. split_and!; tauto.
    + rewrite levels_cons, levels_app, !levels_cons, Hml. unfold sum in *. simpl. lia.
  - intros H [_ Hok]%ok_cons Hz. rewrite levels_cons in Hz. unfold sum in Hz. simpl in Hz. apply (Hyield (TLit l) (level + l_direction l)%Z it); [done|done|lia|done].
  - intros H [_ Hok]%ok_cons Hz. rewrite levels_cons in Hz. unfold sum in Hz. simpl in Hz. apply (Hyield (TKey k) level it); [simpl; lia|done|lia|done].
  - intros H [_ Hok]%ok_cons Hz. rewrite levels_cons in Hz. unfold sum in Hz. simpl in Hz. apply (IH _ _ _ _ H); [done|lia].
Qed.

(** What is emitted: all tokens, or those before one at which the limit was reached *)
Lemma emit_cases key maxlen toks ps :
  emit key maxlen toks = Some ps →
  (∃ texts, ps = zip_with PToken toks.*1 texts ∧ length texts = length toks) ∨
  (∃ pre t it post texts, toks = pre ++ (t, it) :: post ∧ ps = zip_with PToken pre.*1 texts ++ PDots :: dangling it ∧ length texts = length pre).
Proof.
  revert maxlen ps. induction toks as [|[t it] toks IH]; intros maxlen ps; simpl.
  { intros [= <-]. left. by exists []. }
  destruct (match maxlen with Some m => (m <=? 0)%Z | None => false end).
  { intros [= <-]. right. by exists [], t, it, toks, []. }
  intros (s & _ & (ps' & Hps & ->)%fmap_Some)%bind_Some. destruct (IH _ _ Hps) as [(texts & -> & Hl)|(pre & t' & it' & post & texts & -> & -> & Hl)].
  - left. exists (s :: texts). split; [done|]. simpl. lia.
  - right. exists ((t, it) :: pre), t', it', post, (s :: texts). split_and!; [done|done|]. simpl. lia.
Qed.

Lemma pieces_levels ts texts : length texts = length ts → sum (piece_level <$> zip_with PToken ts texts) = sum (token_level <$> ts).
Proof.
  revert texts. induction ts as [|t ts IH]; intros [|s texts] Hl; try done. simpl in Hl. change (token_level t + sum (piece_level <$> zip_with PToken ts texts) = token_level t + sum (token_level <$> ts))%Z.
  rewrite IH by lia. done.
Qed.

(** Brackets are closed.  A text that was not cut closes every bracket that it opens; one that was cut
    closes those that are still open after the dots, unless the token at which the limit was reached was
    a bracket itself: that one is missing. *)
Theorem brackets_closed key fuel maxlen v toks ps :
  reprstream fuel 0 ∅ [IVal v] = Some toks → emit key maxlen toks = Some ps →
  sum (piece_level <$> ps) = 0%Z ∨
  ∃ pre t it post, toks = pre ++ (t, it) :: post ∧ PDots ∈ ps ∧ token_level t ≠ 0%Z ∧ sum (piece_level <$> ps) = (- token_level t)%Z.
Proof.
  intros Hs He. destruct (stream_levels fuel 0 ∅ [IVal v] toks Hs) as [Ht Hp]; [constructor|done|].
  destruct (emit_cases _ _ _ _ He) as [(texts & -> & Hl)|(pre & t & it & post & texts & -> & -> & Hl)].
  - left. rewrite pieces_levels by (by rewrite length_fmap). lia.
  - destruct (Hp pre t it post eq_refl) as [Hok Hz]. rewrite fmap_app, sum_app, pieces_levels by (by rewrite length_fmap).
    assert (sum (piece_level <$> PDots :: dangling it) = item_levels it) as -> by (rewrite <- dangling_levels by done; done).
    destruct (decide (token_level t = 0%Z)); [left; lia|]. right. exists pre, t, it, post. split_and!; [done| |done|lia]. apply elem_of_app. right. apply list_elem_of_here.
Qed.
End Levels.
End Repr.
End SafeRepr.

(** * Evaluated *)

Module SafeReprExamples.
Import SafeRepr.

Definition num (s : string) : value := VNumber (to_chars s).
(** 0 contains itself; 1 is a dictionary with it and a tuple *)
Definition heap : list object :=
  [OList [num "1"; VRef 0]; ODict [(VStr (to_chars "k"), VRef 0); (num "2", VRef 2)]; OTuple [VRef 3]; OSet (to_chars "frozenset") [num "7"]; OSet (to_chars "set") []].
Definition rec_text (a : nat) : chars := to_chars "<Recursion>".
Definition show (maxlevels : Z) (maxlen : option Z) (v : value) : option string := of_chars <$> saferepr heap rec_text maxlevels 2 100 maxlen v.

Example shows :
  show 3 None (VRef 1) = Some "{'k': [1, <Recursion>], 2: (frozenset({7}),)}"%string ∧
  show 2 None (VRef 1) = Some "{'k': [1, [...]], 2: (frozenset({...}),)}"%string ∧ show 3 None (VRef 4) = Some "set()"%string ∧
  show 3 (Some 9%Z) (VRef 1) = Some "{'k': [1, , ...]}"%string.
Proof. vm_compute. split_and!; reflexivity. Qed.

Lemma saferepr_is_repr_witness : ∃ s n, repr heap rec_text 0 2 6 (VRef 1) = Some s ∧ ∀ fuel, n ≤ fuel → saferepr heap rec_text 0 2 fuel None (VRef 1) = Some s.
Proof.
  apply (saferepr_is_repr heap rec_text 0 (VRef 1)); [lia| | |simpl; lia].
  - intros [|[|[|[|[|a]]]]] o [= <-]; simpl; split; repeat constructor.
  - intros [|[|[|[|[|a]]]]] o k [= <-]; simpl; intros Hk; try (by apply not_elem_of_nil in Hk); repeat (apply elem_of_cons in Hk as [->|Hk]; [done|]); by apply not_elem_of_nil in Hk.
Defined.

(** The tokens of the dictionary, and what is emitted of them with a limit *)
Definition toks1 := default [] (reprstream heap rec_text 3 100 0 ∅ [IVal (VRef 1)]).
Definition cut1 := default [] (emit (saferepr heap rec_text 3 1 100) (Some 9%Z) toks1).

Lemma brackets_closed_witness : sum (piece_level <$> cut1) = 0%Z ∨ ∃ pre t it post, toks1 = pre ++ (t, it) :: post ∧ PDots ∈ cut1 ∧ token_level t ≠ 0%Z ∧ sum (piece_level <$> cut1) = (- token_level t)%Z.
Proof. apply (brackets_closed heap rec_text 3 (saferepr heap rec_text 3 1 100) 100 (Some 9%Z) (VRef 1)); by vm_compute. Defined.

(** The limit is reached right at a bracket: it is neither shown nor left for the end *)
Example bracket_lost :
  show 3 (Some 14%Z) (VRef 0) = Some "[1, <Recursion..., ..."%string ∧ show 3 (Some 6%Z) (VRef 1) = Some "{'k': , ...]}"%string.
Proof. vm_compute. split; reflexivity. Qed.

End SafeReprExamples.
