(* ===== verification/DelayedDelivery.v ===== *)
(** The step of the worker's consumer that sets up native delayed delivery
    (celery/worker/consumer/delayed_delivery.py): validation of the settings, and for every broker the
    declaration of exchanges and the binding of all queues, with retries.

    Calls to kombu are events in a log; what they raise is a function of the log so far.  The loop that
    retries is kombu's [retry_over_time], a parameter. *)

From S2P Require Import Prelude.
From S2P Require Import PyStr.
From S2P Require Import Effect.
Local Open Scope eff_scope.
Local Open Scope nat_scope.

Module DelayedDelivery.

Definition MAX_RETRIES : nat := 3.
Definition VALID_QUEUE_TYPES : list string := ["classic"; "quorum"]%string.

(** The setting [broker_url]: a string, a list (a member that is no string is [None]), something else,
    or nothing *)
Inductive urls := UStr (s : string) | UList (l : list (option string)) | UOther | UNone.

Definition _validate_broker_urls (broker_urls : urls) : outcome (list string) :=
  match broker_urls with
  | UNone => Raise ValueError
  | UStr s => if bool_decide (s = ""%string) then Raise ValueError else Ok (remove_dups (of_chars <$> split_on ";" (to_chars s)))
  | UList [] => Raise ValueError
  | UList l => match mapM id l with
               | None => Raise ValueError
               | Some l => match remove_dups l with [] => Raise ValueError | l => Ok l end
               end
  | UOther => Raise ValueError
  end.

Definition _validate_queue_type (queue_type : option string) : outcome () :=
  match queue_type with
  | None => Raise ValueError
  | Some t => if bool_decide (t = ""%string) then Raise ValueError else if bool_decide (t ∈ VALID_QUEUE_TYPES) then Ok () else Raise ValueError
  end.

Definition _validate_configuration (broker_urls : urls) (queue_type : option string) : outcome () :=
  let! _ := _validate_broker_urls broker_urls in _validate_queue_type queue_type.

Record queue := Queue { q_name : string; q_broadcast : bool }.

Inductive event := Connect (url : string) | Release (url : string) | DeclareExchange (url : string) (queue_type : string) | Bind (url : string) (q : string).
#[global] Instance event_eq_dec : EqDecision event.
Proof. solve_decision. Defined.

Abbreviation log := (list (event * option exn)).

Section Step.
Context (oracle : log → event → option exn).
Context (is_OSError : exn → bool).  (* [RETRIED_EXCEPTIONS] *)
Context (retry_over_time : eff log () → eff log ()).
Context (queues : list queue) (queue_type : string).

Abbreviation M := (eff log).

Definition ext (e : event) : M () := λ l,
  (l ++ [(e, oracle l e)], match oracle l e with None => Ok () | Some x => Raise x end).

(** The loop of [_bind_queues] with the errors so far *)
Fixpoint bind_loop (url : string) (qs : list queue) (exceptions : list exn) : M () :=
  match qs with
  | [] => if bool_decide (exceptions = []) then eret () else eraise ExceptionGroup
  | q :: qs =>
      if q_broadcast q then bind_loop url qs exceptions else
      etry (ext (Bind url (q_name q)))
        (λ e, if is_Exception e then if is_OSError e then eraise e else bind_loop url qs (exceptions ++ [e]) else eraise e)
        (λ _, bind_loop url qs exceptions)
  end.

Definition _bind_queues (url : string) : M () :=
  match queues with [] => eret () | _ => bind_loop url queues [] end.

Definition _setup_delayed_delivery (url : string) : M () :=
  run! ext (Connect url) in
  efinally (run! ext (DeclareExchange url queue_type) in _bind_queues url) (ext (Release url)).

(** The loop of [start]: the brokers that could not be set up *)
Fixpoint setup_all (broker_urls : list string) : M (list (string * exn)) :=
  match broker_urls with
  | [] => eret []
  | url :: broker_urls =>
      do! err := etry (retry_over_time (_setup_delayed_delivery url))
                   (λ e, if is_Exception e then eret [(url, e)] else eraise e) (λ _, eret []) in
      do! errs := setup_all broker_urls in
      eret (err ++ errs)
  end.

(** The brokers are a set: they come in any order.  The answer is whether the failure of all of them
    was reported. *)
Definition start (broker_urls : urls) (configured_type : option string) (order : list string → list string) : M bool :=
  run! elift (_validate_configuration broker_urls configured_type) in
  do! us := elift (_validate_broker_urls broker_urls) in
  do! setup_errors := setup_all (order us) in
  eret (bool_decide (length setup_errors = length us)).

(** ** What is relied on *)

(** Runs again after an error that is to be retried, at most [n] times *)
Fixpoint attempts (n : nat) (f : M ()) : M () :=
  match n with
  | 0 => f
  | S n => ecatch f (λ e, if is_OSError e then attempts n f else eraise e)
  end.

(** [retry_over_time]: some number of attempts, not more than [max_retries] after the first *)
Context (Hretry : ∀ f l, ∃ n, n ≤ MAX_RETRIES ∧ retry_over_time f l = attempts n f l).
(** What kombu raises is an [Exception] *)
Context (Horacle : ∀ l e x, oracle l e = Some x → is_Exception x = true).

(** ** Binding *)

Definition wanted (qs : list queue) : list string := q_name <$> filter (λ q, q_broadcast q = false) qs.

(** What binding did: [new] are the events *)
Definition bound (url : string) (qs : list queue) (exceptions : list exn) (new : log) (o : outcome ()) : Prop :=
  new.*1 `prefix_of` (Bind url <$> wanted qs) ∧
  match o with
  | Ok _ => new = (λ q, (Bind url q, None)) <$> wanted qs ∧ exceptions = []
  | Raise e => (is_Exception e = true ∧ is_OSError e = true ∧ ∃ ev pre, new = pre ++ [(ev, Some e)]) ∨
               (e = ExceptionGroup ∧ new.*1 = Bind url <$> wanted qs ∧ (exceptions ≠ [] ∨ ∃ ev x, (ev, Some x) ∈ new ∧ is_OSError x = false))
  | Diverge => False
  end.

Lemma bind_loop_spec url qs exceptions l :
  ∃ new, (bind_loop url qs exceptions l).1 = l ++ new ∧ bound url qs exceptions new (bind_loop url qs exceptions l).2.
Proof.
  revert exceptions l. induction qs as [|q qs IH]; intros exceptions l; simpl.
  { exists []. rewrite app_nil_r. case_bool_decide; simpl; (split; [done|]); (split; [apply prefix_nil|]); [done|by right; auto]. }
  unfold bound, wanted. rewrite filter_cons. destruct (q_broadcast q); simpl; [apply IH|]. unfold etry, ext. destruct (oracle l (Bind url (q_name q))) as [x|] eqn:Ho.
  - rewrite (Horacle _ _ _ Ho). destruct (is_OSError x) eqn:Hx; simpl.
    + eexists. split; [done|]. split; [by apply prefix_cons, prefix_nil|]. left. split_and!; [by eapply Horacle|done|]. by exists (Bind url (q_name q)), [].
    + destruct (IH (exceptions ++ [x]) (l ++ [(Bind url (q_name q), Some x)])) as (new & -> & Hp & Hb). exists ((Bind url (q_name q), Some x) :: new).
      split; [by rewrite <- app_assoc|]. split; [by apply prefix_cons|]. destruct (bind_loop url qs (exceptions ++ [x]) _).2 as [[]|e|]; [|destruct Hb as [(Hex0 & He & ev & pre & ->)|(-> & Hn & _)]|done].
      * destruct Hb as [_ Hb]. by destruct exceptions.
      * left. split_and!; [done|done|]. by exists ev, ((Bind url (q_name q), Some x) :: pre).
      * right. split_and!; [done|exact (f_equal (cons _) Hn)|]. right. exists (Bind url (q_name q)), x. split; [apply list_elem_of_here|done].
  - destruct (IH exceptions (l ++ [(Bind url (q_name q), None)])) as (new & -> & Hp & Hb). exists ((Bind url (q_name q), None) :: new).
    split; [by rewrite <- app_assoc|]. split; [by apply prefix_cons|]. destruct (bind_loop url qs exceptions _).2 as [[]|e|]; [|destruct Hb as [(Hex0 & He & ev & pre & ->)|(-> & Hn & Hex)]|done].
    + destruct Hb as [-> ->]. done.
    + left. split_and!; [done|done|]. by exists ev, ((Bind url (q_name q), None) :: pre).
    + right. split_and!; [done|exact (f_equal (cons _) Hn)|]. destruct Hex as [?|(ev & y & Hin & Hy)]; [by left|]. right. exists ev, y. split; [by apply list_elem_of_further|done].
Qed.

(** ** One broker *)

Definition url_of (e : event) : string := match e with Connect u | Release u | DeclareExchange u _ | Bind u _ => u end.
Definition about (url : string) (new : log) : Prop := Forall (λ x, url_of x.1 = url) new.
Definition count (P : event * option exn → bool) (new : log) : nat := length (filter (λ x, P x = true) new).
Definition is_connect (url : string) (x : event * option exn) : bool := bool_decide (x.1 = Connect url).
Definition connected (url : string) (x : event * option exn) : bool := bool_decide (x = (Connect url, None)).
Definition is_release (url : string) (x : event * option exn) : bool := bool_decide (x.1 = Release url).

(** A broker was set up: exchanges declared, every queue bound *)
Definition set_up (url : string) : log :=
  (Connect url, None) :: (DeclareExchange url queue_type, None) :: ((λ q, (Bind url q, None)) <$> wanted queues) ++ [(Release url, None)].

Lemma count_app P l1 l2 : count P (l1 ++ l2) = count P l1 + count P l2.
Proof. unfold count. by rewrite filter_app, length_app. Qed.

Lemma count_cons P x l : count P (x :: l) = (if P x then 1 else 0) + count P l.
Proof. unfold count. rewrite filter_cons. by destruct (P x). Qed.

Lemma count_none P new : Forall (λ x, P x = false) new → count P new = 0.
Proof. induction 1 as [|x new Hx _ IH]; [done|]. by rewrite count_cons, Hx, IH. Qed.

(** Of the events of one run: the connection is opened once and closed if it was opened *)
Record one_run (url : string) (new : log) (o : outcome ()) : Prop := OneRun {
  run_about : about url new;
  run_once : count (is_connect url) new = 1;
  run_released : count (is_release url) new = count (connected url) new;
  run_ok : o = Ok () → new = set_up url;
  run_raises : ∀ e, o = Raise e → is_Exception e = true;
  run_ends : o ≠ Diverge }.

Lemma binds_only url new qs : new.*1 `prefix_of` (Bind url <$> qs) → about url new ∧ ∀ P, (∀ q o, P (Bind url q, o) = false) → count P new = 0.
Proof.
  intros [k Hk]. assert (∀ x, x ∈ new → ∃ q, x.1 = Bind url q) as Hb.
  { intros x Hx. assert (x.1 ∈ Bind url <$> qs) as Hin; [rewrite Hk; apply elem_of_app; left; by apply list_elem_of_fmap; exists x|].
    apply list_elem_of_fmap in Hin as (q & -> & _). by exists q. }
  split.
  - apply Forall_forall. intros x Hx. by destruct (Hb x Hx) as [q ->].
  - intros P HP. apply count_none, Forall_forall. intros [e o] Hx. destruct (Hb _ Hx) as [q Hq]. simpl in Hq. subst e. apply HP.
Qed.

Lemma bind_queues_spec url l :
  ∃ new, (_bind_queues url l).1 = l ++ new ∧ bound url queues [] new (_bind_queues url l).2.
Proof.
  unfold _bind_queues. destruct queues as [|q qs] eqn:Hq; [|apply bind_loop_spec]. exists []. rewrite app_nil_r. split; [done|]. split; [apply prefix_nil|done].
Qed.

Lemma setup_spec url l : ∃ new, (_setup_delayed_delivery url l).1 = l ++ new ∧ one_run url new (_setup_delayed_delivery url l).2.
Proof.
  unfold _setup_delayed_delivery. destruct (oracle l (Connect url)) as [x|] eqn:Hc.
  { rewrite (ebind_Raise _ _ l (l ++ [(Connect url, Some x)]) x) by (unfold ext; by rewrite Hc). eexists. split; [done|]. split; simpl; try done.
    - by repeat constructor.
    - rewrite count_cons. unfold is_connect. by rewrite bool_decide_eq_true_2.
    - rewrite !count_cons. unfold is_release, connected. by rewrite !bool_decide_eq_false_2.
    - intros e [= <-]. by eapply Horacle. }
  set (l1 := l ++ [(Connect url, None)]). rewrite (ebind_Ok _ _ l l1 ()) by (unfold ext; by rewrite Hc). unfold efinally.
  assert (∃ new o, ((run! ext (DeclareExchange url queue_type) in _bind_queues url) l1) = (l1 ++ new, o) ∧ about url new ∧ count (is_connect url) new = 0 ∧ count (is_release url) new = 0 ∧
    count (connected url) new = 0 ∧ (o = Ok () → new = (DeclareExchange url queue_type, None) :: ((λ q, (Bind url q, None)) <$> wanted queues)) ∧ (∀ e, o = Raise e → is_Exception e = true) ∧ o ≠ Diverge) as
    (new & o & E & Ha & C1 & C2 & C3 & Hok & Hr & Hd).
  { unfold ebind, ext. destruct (oracle l1 (DeclareExchange url queue_type)) as [x|] eqn:Hdc.
    - eexists _, _. split; [done|]. split_and!; try done; [by repeat constructor|]. intros e [= <-]. by eapply Horacle.
    - set (l2 := l1 ++ [(DeclareExchange url queue_type, None)]). destruct (bind_queues_spec url l2) as (nb & E & Hpre & Hb). destruct (_bind_queues url l2) as [l3 o]. simpl in *. subst l3.
      destruct (binds_only url nb _ Hpre) as [Ha Hc0]. exists ((DeclareExchange url queue_type, None) :: nb), o. split; [unfold l2; by rewrite <- app_assoc|].
      rewrite !count_cons, !Hc0 by done. split_and!; try done.
      + by constructor.
      + intros ->. destruct Hb as [-> _]. done.
      + intros e ->. by destruct Hb as [[? _]|[-> _]].
      + by intros ->. }
  rewrite E. unfold ext. assert (about url ((Connect url, None) :: new ++ [(Release url, oracle (l1 ++ new) (Release url))])) as Hab.
  { constructor; [done|]. apply Forall_app. split; [done|by repeat constructor]. }
  assert (∀ r, count (is_connect url) ((Connect url, None) :: new ++ [(Release url, r)]) = 1 ∧
    count (is_release url) ((Connect url, None) :: new ++ [(Release url, r)]) = 1 ∧ count (connected url) ((Connect url, None) :: new ++ [(Release url, r)]) = 1) as Hcnt.
  { intros r. rewrite !count_cons, !count_app, C1, C2, C3, !count_cons. unfold is_connect, is_release, connected. simpl.
    repeat case_bool_decide; simplify_eq; done. }
  destruct (Hcnt (oracle (l1 ++ new) (Release url))) as (N1 & N2 & N3).
  exists ((Connect url, None) :: new ++ [(Release url, oracle (l1 ++ new) (Release url))]). destruct (oracle (l1 ++ new) (Release url)) as [x|] eqn:Hre; simpl.
  - split; [unfold l1; by rewrite <- !app_assoc|]. split; try done; [congruence|]. intros e [= <-]. by eapply Horacle.
  - split; [unfold l1; by rewrite <- !app_assoc|]. split; try done; [congruence|]. intros ->. unfold set_up. by rewrite (Hok eq_refl).
Qed.

(** ** All of them *)

(** The runs for one broker *)
Record runs (url : string) (n : nat) (new : log) (o : outcome ()) : Prop := Runs {
  runs_about : about url new;
  runs_some : 1 ≤ count (is_connect url) new ≤ S n;
  runs_released : count (is_release url) new = count (connected url) new;
  runs_ok : o = Ok () → set_up url `suffix_of` new;
  runs_raises : ∀ e, o = Raise e → is_Exception e = true;
  runs_ends : o ≠ Diverge }.

Lemma attempts_spec url n l : ∃ new, (attempts n (_setup_delayed_delivery url) l).1 = l ++ new ∧ runs url n new (attempts n (_setup_delayed_delivery url) l).2.
Proof.
  revert l. induction n as [|n IH]; intros l; simpl.
  - destruct (setup_spec url l) as (new & E & [A B C D F G]). exists new. split; [done|]. split; try done; [lia|]. intros Ho. by rewrite (D Ho).
  - unfold ecatch. destruct (setup_spec url l) as (new & E & [A B C D F G]). destruct (_setup_delayed_delivery url l) as [l1 [[]|e|]]; simpl in *; subst l1.
    + exists new. split; [done|]. split; try done; [lia|]. intros Ho. by rewrite (D Ho).
    + destruct (is_OSError e) eqn:He; [|exists new; split; [done|]; split; try done; lia].
      destruct (IH (l ++ new)) as (new2 & E2 & [A2 B2 C2 D2 F2 G2]). exists (new ++ new2). split; [by rewrite E2, app_assoc|].
      split; [by apply Forall_app|rewrite count_app; lia|rewrite !count_app; lia| |done|done]. intros Ho. by apply suffix_app_r, D2.
    + done.
Qed.

(** What [start] did to the brokers *)
Record all_tried (us : list string) (errs : list (string * exn)) (new : log) : Prop := AllTried {
  tried_urls : Forall (λ x, url_of x.1 ∈ us) new;
  tried_each : ∀ u, u ∈ us → 1 ≤ count (is_connect u) new ≤ S MAX_RETRIES;
  tried_released : ∀ u, count (is_release u) new = count (connected u) new;
  tried_errs : ∀ u, u ∈ errs.*1 → u ∈ us;
  tried_ok : ∀ u, u ∈ us → u ∉ errs.*1 → ∃ pre post, new = pre ++ set_up u ++ post;
  tried_len : length errs ≤ length us }.

Lemma other_url u url new : about url new → u ≠ url → count (is_connect u) new = 0 ∧ count (is_release u) new = 0 ∧ count (connected u) new = 0.
Proof.
  intros H Hne. split_and!; apply count_none; (eapply Forall_impl; [exact H|]); intros [e o] Hu; simpl in Hu; apply bool_decide_eq_false; simpl; intros E; simplify_eq; done.
Qed.

Lemma setup_all_spec us l : NoDup us → ∃ new errs, setup_all us l = (l ++ new, Ok errs) ∧ all_tried us errs new.
Proof.
  revert l. induction us as [|url us IH]; intros l Hd; simpl.
  { exists [], []. rewrite app_nil_r. split; [done|]. split; try done; try (by intros ? ?%not_elem_of_nil). }
  apply NoDup_cons in Hd as [Hn Hd]. destruct (Hretry (_setup_delayed_delivery url) l) as (n & Hle & Hrt). destruct (attempts_spec url n l) as (n1 & E1 & [A B C D F G]).
  unfold ebind at 1, etry. rewrite Hrt. destruct (attempts n (_setup_delayed_delivery url) l) as [l1 o1]. simpl in *. subst l1.
  destruct (IH (l ++ n1) Hd) as (n2 & errs & E2 & [A2 B2 C2 D2 F2 G2]).
  assert (∃ err, match o1 with Ok _ => eret [] (l ++ n1) | Raise e => (if is_Exception e then eret [(url, e)] else eraise e) (l ++ n1) | Diverge => (l ++ n1, Diverge) end = (l ++ n1, Ok err) ∧
    (err = [] ∧ o1 = Ok () ∨ ∃ e, err = [(url, e)])) as (err & -> & Herr).
  { destruct o1 as [[]|e|]; [by exists []; auto|rewrite (F e eq_refl); exists [(url, e)]; split; [done|right; by exists e]|done]. }
  rewrite (ebind_Ok _ _ _ _ _ E2). exists (n1 ++ n2), (err ++ errs). split; [by rewrite <- app_assoc|]. split.
  - apply Forall_app. split; (eapply Forall_impl; [eassumption|]); intros x Hx; apply elem_of_cons; [by left|by right].
  - intros u Hu. rewrite count_app. apply elem_of_cons in Hu as [->|Hu].
    + rewrite (count_none _ n2); [lia|]. eapply Forall_impl; [exact A2|]. intros [e o] Hin. apply bool_decide_eq_false. simpl. intros ->. done.
    + destruct (other_url u url n1 A) as (-> & _); [by intros ->|]. by apply B2.
  - intros u. rewrite !count_app, C2. destruct (decide (u = url)) as [->|Hne]; [lia|]. destruct (other_url u url n1 A Hne) as (_ & -> & ->). done.
  - intros u. rewrite fmap_app, elem_of_app, elem_of_cons. intros [Hu|Hu]; [|right; by apply D2]. left. destruct Herr as [[-> _]|[e ->]]; [by apply not_elem_of_nil in Hu|]. by apply list_elem_of_singleton in Hu.
  - intros u Hu Hnot. rewrite fmap_app, elem_of_app in Hnot. apply elem_of_cons in Hu as [->|Hu].
    + destruct Herr as [[-> Ho]|[e ->]]; [|exfalso; apply Hnot; left; apply list_elem_of_here]. destruct (D Ho) as [pre ->]. exists pre, n2. by rewrite <- app_assoc.
    + destruct (F2 u Hu) as (pre & post & ->); [tauto|]. exists (n1 ++ pre), post. by rewrite <- app_assoc.
  - rewrite length_app. simpl. destruct Herr as [[-> _]|[e ->]]; simpl; lia.
Qed.

(** One failure does not keep other queues from being bound.  Binding the queues of a broker tries
    each queue that is no broadcast, in order, and ends: without an error when all are bound, with a
    group of the errors when some were not but all were tried; only an error that is to be retried stops
    it, at once. *)
Theorem binding_goes_on url l :
  ∃ new, (_bind_queues url l).1 = l ++ new ∧ bound url queues [] new (_bind_queues url l).2.
Proof. apply bind_queues_spec. Qed.

Lemma validated_nodup c us : _validate_broker_urls c = Ok us → NoDup us.
Proof.
  destruct c as [s|[|x l]| |]; simpl; try done.
  - case_bool_decide; [done|]. intros [= <-]. apply NoDup_remove_dups.
  - destruct (mapM id (x :: l)) as [l'|] eqn:E; cbn in E; rewrite E; [|done]. destruct (remove_dups l') as [|y ys] eqn:Er; [done|]. intros [= <-]. rewrite <- Er. apply NoDup_remove_dups.
Qed.

(** Setting up delayed delivery fails only for the settings, and then before anything is done.
    Otherwise every broker is tried, at least once and at most once more for each retry, whatever fails
    for the others; every connection that was opened is released; and of a broker that is not reported
    as failed, the exchanges were declared and all queues bound. *)
Theorem start_tries_all broker_urls configured_type order l :
  (∀ us, order us ≡ₚ us) →
  match _validate_configuration broker_urls configured_type with
  | Raise e => e = ValueError ∧ start broker_urls configured_type order l = (l, Raise ValueError)
  | Ok _ => ∃ us errs new, _validate_broker_urls broker_urls = Ok us ∧ all_tried us errs new ∧
              start broker_urls configured_type order l = (l ++ new, Ok (bool_decide (length errs = length us)))
  | Diverge => False
  end.
Proof.
  intros Ho. unfold start, _validate_configuration, elift, ebind. destruct (_validate_broker_urls broker_urls) as [us|e|] eqn:Hu; cbn [obind].
  - destruct (_validate_queue_type configured_type) as [[]|e|] eqn:Ht.
    + destruct (setup_all_spec (order us) l) as (new & errs & -> & A); [rewrite Ho; by eapply validated_nodup|]. exists us, errs, new. split_and!; [done| |done].
      destruct A as [A B C D E F]. assert (∀ u, u ∈ order us ↔ u ∈ us) as Hin by (intros u; by rewrite Ho). split; try done.
      * eapply Forall_impl; [exact A|]. intros x. apply Hin.
      * intros u Hu2%Hin. by apply B.
      * intros u Hu2. by apply Hin, D.
      * intros u Hu2%Hin. by apply E.
      * by rewrite <- (Permutation_length (Ho us)).
    + unfold _validate_queue_type in Ht. destruct configured_type as [t|]; repeat case_bool_decide; by simplify_eq.
    + unfold _validate_queue_type in Ht. destruct configured_type as [t|]; repeat case_bool_decide; by simplify_eq.
  - enough (e = ValueError) as -> by done. unfold _validate_broker_urls in Hu. repeat case_match; by simplify_eq.
  - unfold _validate_broker_urls in Hu. repeat case_match; by simplify_eq.
Qed.
End Step.
End DelayedDelivery.

(** * Evaluated *)

Module DelayedExamples.
Import DelayedDelivery.
Local Open Scope string_scope.
Local Open Scope list_scope.
Local Open Scope nat_scope.

(** Errors of the connection are represented by [RuntimeTimeout]; broker [b] refuses the first two
    connections, queue [q2] of broker [a] cannot be bound *)
Definition os_error (e : exn) : bool := bool_decide (e = RuntimeTimeout).
Definition fails (l : list (event * option exn)) (e : event) : option exn :=
  if bool_decide (e = Connect "b") then if bool_decide (count (is_connect "b") l < 2) then Some RuntimeTimeout else None
  else if bool_decide (e = Bind "a" "q2") then Some KeyError else None.
Definition qs : list queue := [Queue "q1" false; Queue "all" true; Queue "q2" false; Queue "q3" false].

Definition go (urls : urls) (type : option string) := start fails os_error (attempts os_error MAX_RETRIES) qs "quorum" urls type id [].

Example runs_on :
  (go (UStr "a;b") (Some "quorum")).2 = Ok false ∧ count (is_connect "b") (go (UStr "a;b") (Some "quorum")).1 = 3 ∧
  (Bind "a" "q3", None) ∈ (go (UStr "a;b") (Some "quorum")).1 ∧ go (UStr "a;b") (Some "stream") = ([], Raise ValueError).
Proof. split_and!; [by vm_compute..| |by vm_compute]. apply list_elem_of_In. vm_compute. tauto. Qed.

Lemma retry_ok f l : ∃ n, n ≤ MAX_RETRIES ∧ attempts os_error MAX_RETRIES f l = attempts os_error n f l.
Proof. by exists MAX_RETRIES. Qed.
Lemma fails_ok l e x : fails l e = Some x → is_Exception x = true.
Proof. unfold fails. repeat case_bool_decide; by intros [= <-]. Qed.

Lemma start_tries_all_witness : ∃ us errs new, all_tried qs "quorum" us errs new ∧ go (UStr "a;b") (Some "quorum") = (new, Ok (bool_decide (length errs = length us))).
Proof.
  destruct (start_tries_all fails os_error (attempts os_error MAX_RETRIES) qs "quorum" retry_ok fails_ok (UStr "a;b") (Some "quorum") id [] (λ us, Permutation_refl us)) as (us & errs & new & _ & A & E).
  by exists us, errs, new.
Defined.

Lemma binding_goes_on_witness : ∃ new, (_bind_queues fails os_error qs "a" []).1 = [] ++ new ∧ bound os_error "a" qs [] new (_bind_queues fails os_error qs "a" []).2.
Proof. apply (binding_goes_on fails os_error qs fails_ok). Defined.

(** An empty part is a broker as well *)
Example empty_part : _validate_broker_urls (UStr "amqp://a;") = Ok ["amqp://a"; ""] ∧ _validate_broker_urls (UStr ";") = Ok [""].
Proof. by vm_compute. Qed.

End DelayedExamples.
