(* ===== verification/Stamping.v ===== *)
(** Stamping of canvases (celery/canvas.py): [_merge_dictionaries], [Signature._stamp_headers], and the
    [stamp] methods of signatures, chains, groups and chords, with their links.

    Lists are objects in a store, because headers are passed on by reference and merged in place.  Stamps
    are strings, integers, [None], tuples and lists (stamps that are dictionaries are not modelled).  A
    visitor is a function for each of its methods; the dictionaries it returns are fresh.  Sets of names
    become lists in an order that does not matter. *)

From S2P Require Import Prelude.
From S2P Require Import PyDict.
From S2P Require Import Effect.
Local Open Scope eff_scope.

Module Stamping.
Local Open Scope string_scope.
Local Open Scope list_scope.
Local Open Scope nat_scope.

Inductive value := SStr (s : string) | SInt (z : Z) | SNone | STuple (l : list value) | SRef (a : nat).

Abbreviation store := (list (list value)).
Abbreviation M := (eff store).
Abbreviation headers := (pydict string value).

Definition alloc (l : list value) : M value := λ st, (st ++ [l], Ok (SRef (length st))).
Definition read (a : nat) : M (list value) := λ st, (st, of_option OtherExc (st !! a)).
Definition extend (a : nat) (l : list value) : M () := λ st, (alter (λ l', l' ++ l) a st, Ok ()).

Definition is_scalar (v : value) : bool := match v with SStr _ | SInt _ => true | _ => false end.

(** [list(v)]; a string is never there, it was made a list of one *)
Definition py_list (v : value) : M (list value) :=
  match v with SRef a => read a | STuple l => eret l | _ => eraise TypeError end.

(** The value of a key that both dictionaries have *)
Definition merge_value (aggregate_duplicates : bool) (v1 v2 : value) : M value :=
  do! v1 := (if is_scalar v1 && aggregate_duplicates then alloc [v1] else eret v1) in
  match v1, v2 with
  | SRef a, SRef b => do! l := read b in run! extend a l in eret (SRef a)
  | _, _ =>
      if aggregate_duplicates then
        do! l := match v1 with SNone => eret [] | _ => py_list v1 end in alloc (l ++ [v2])
      else eret v1
  end.

Fixpoint merge_loop (aggregate_duplicates : bool) (d1 d2 : headers) : M headers :=
  match d1 with
  | [] => eret []
  | (k, v) :: d1 =>
      do! v' := match dict_get d2 k with Some v2 => merge_value aggregate_duplicates v v2 | None => eret v end in
      do! d1 := merge_loop aggregate_duplicates d1 d2 in
      eret ((k, v') :: d1)
  end.

Definition _merge_dictionaries (d1 d2 : headers) (aggregate_duplicates : bool) : M headers :=
  match d2 with
  | [] => eret d1
  | _ => do! d := merge_loop aggregate_duplicates d1 d2 in eret (d ++ filter (λ kv, dict_in d1 kv.1 = false) d2)
  end.

(** The names in a list of stamped headers *)
Definition names_of (l : list value) : list string := omap (λ v, match v with SStr s => Some s | _ => None end) l.

(** [set(d.get("stamped_headers", []))] *)
Definition stamped_names (d : headers) : M (list string) :=
  match dict_get d "stamped_headers" with
  | None => eret []
  | Some v => do! l := py_list v in eret (remove_dups (names_of l))
  end.

(** [headers["stamped_headers"] = list(set(headers["stamped_headers"]))] *)
Definition dedupe (h : headers) : M headers :=
  do! ns := stamped_names h in
  do! v := alloc (SStr <$> ns) in
  eret (dict_set h "stamped_headers" v).

Definition with_stamped_headers (h : headers) : M headers :=
  if dict_in h "stamped_headers" then eret h else
  do! v := alloc (SStr <$> dict_keys h) in eret (dict_set h "stamped_headers" v).

Definition _stamp_headers (options : headers) (visitor_headers : option headers) (append_stamps self_headers : bool) (h : headers) : M headers :=
  do! h := with_stamped_headers h in
  do! h := match visitor_headers with
           | None => eret h
           | Some vh =>
               do! vh := with_stamped_headers vh in
               do! h := _merge_dictionaries h vh append_stamps in
               dedupe h
           end in
  if self_headers then
    do! mine := stamped_names h in
    do! own := stamped_names options in
    do! v := alloc (SStr <$> remove_dups (mine ++ own)) in
    let h := dict_set h "stamped_headers" v in
    let redacted_options := filter (λ kv, kv.1 ∈ remove_dups (mine ++ own)) options in
    do! h := _merge_dictionaries h redacted_options append_stamps in
    dedupe h
  else eret h.

(** [copy.deepcopy] of headers *)
Fixpoint deepcopy (h : headers) : M headers :=
  match h with
  | [] => eret []
  | (k, v) :: h =>
      do! v := match v with SRef a => do! l := read a in alloc l | _ => eret v end in
      do! h := deepcopy h in
      eret ((k, v) :: h)
  end.

(** ** Canvases *)

Inductive sig := Sig (options : headers) (kind : node) (link link_error : list sig)
with node := NTask (name : string) | NChain (tasks : list sig) | NGroup (tasks : list sig) | NChord (tasks : list sig) (body : option sig).

(** The methods of a [StampingVisitor] that return headers *)
Record visitor := Visitor {
  on_signature : sig → headers → headers; on_chain_start : sig → headers → headers; on_group_start : sig → headers → headers;
  on_chord_header_start : sig → headers → headers; on_chord_body : sig → headers → headers;
  on_callback : sig → headers → headers; on_errback : sig → headers → headers }.

Section Stamp.
Context (vis : option visitor).

Definition visited (f : visitor → sig → headers → headers) (s : sig) (h : headers) : option headers := (λ v, f v s h) <$> vis.

(** [Signature.set]; it takes [immutable] as its own *)
Definition set_options (options h : headers) : headers := dict_update options (dict_del h "immutable").

Section Loops.
Context (stamp : sig → headers → M sig).

(** The tasks of a canvas *)
Fixpoint each (l : list sig) (h : headers) : M (list sig) :=
  match l with
  | [] => eret []
  | x :: l => do! x := stamp x h in do! l := each l h in eret (x :: l)
  end.

(** The callbacks or errbacks of a signature: the headers for one of them are those for the next *)
Fixpoint links (options : headers) (append_stamps : bool) (f : visitor → sig → headers → headers) (l : list sig) (h : headers) : M (list sig) :=
  match l with
  | [] => eret []
  | x :: l =>
      do! h := _stamp_headers options (visited f x h) append_stamps false h in
      do! x := stamp x h in
      do! l := links options append_stamps f l h in
      eret (x :: l)
  end.

Definition stamp_links (options : headers) (append_stamps : bool) (link link_error : list sig) (h : headers) : M (list sig * list sig) :=
  do! h1 := deepcopy h in
  do! l1 := links options append_stamps on_callback link h1 in
  do! h2 := deepcopy h in
  do! l2 := links options append_stamps on_errback link_error h2 in
  eret (l1, l2).
End Loops.

(** The [stamp] methods, given that of their parts *)
Section Methods.
Context (stamp : bool → sig → headers → M sig) (append_stamps : bool) (s : sig) (options : headers) (link link_error : list sig).

Definition stamp_signature (name : string) (h : headers) : M sig :=
  do! (l1, l2) := stamp_links (stamp append_stamps) options append_stamps link link_error h in
  do! h := _stamp_headers options (visited on_signature s h) append_stamps true h in
  eret (Sig (set_options options h) (NTask name) l1 l2).

Definition stamp_chain (tasks : list sig) (h : headers) : M sig :=
  do! h := _stamp_headers options (visited on_chain_start s h) append_stamps true h in
  do! (l1, l2) := stamp_links (stamp false) options false link link_error h in
  do! tasks := each (stamp append_stamps) tasks h in
  eret (Sig options (NChain tasks) l1 l2).

Definition stamp_group (tasks : list sig) (h : headers) : M sig :=
  do! h := _stamp_headers options (visited on_group_start s h) append_stamps true h in
  do! (l1, l2) := stamp_links (stamp append_stamps) options append_stamps link link_error h in
  do! tasks := each (stamp append_stamps) tasks h in
  eret (Sig options (NGroup tasks) l1 l2).

Definition stamp_chord (tasks : list sig) (body : option sig) (h : headers) : M sig :=
  do! h := _stamp_headers options (visited on_chord_header_start s h) append_stamps true h in
  do! (l1, l2) := stamp_links (stamp append_stamps) options append_stamps link link_error h in
  do! tasks := each (stamp append_stamps) tasks h in
  match vis, body with
  | Some v, Some b =>
      do! h := _stamp_headers options (Some (on_chord_body v s h)) append_stamps true h in
      do! b := stamp append_stamps b h in
      eret (Sig options (NChord tasks (Some b)) l1 l2)
  | _, _ => eret (Sig options (NChord tasks body) l1 l2)
  end.
End Methods.

Fixpoint stamp (append_stamps : bool) (s : sig) (h : headers) {struct s} : M sig :=
  match s with
  | Sig options (NTask name) link link_error => stamp_signature stamp append_stamps s options link link_error name h
  | Sig options (NChain tasks) link link_error => stamp_chain stamp append_stamps s options link link_error tasks h
  | Sig options (NGroup tasks) link link_error => stamp_group stamp append_stamps s options link link_error tasks h
  | Sig options (NChord tasks body) link link_error => stamp_chord stamp append_stamps s options link link_error tasks body h
  end.
End Stamp.

(** ** Merging *)

Lemma names_of_strings ns : names_of (SStr <$> ns) = ns.
Proof. unfold names_of. induction ns as [|n ns IH]; [done|]. exact (f_equal (cons n) IH). Qed.

Definition valid_refs (st : store) (d : headers) : Prop := ∀ k a, dict_get d k = Some (SRef a) → is_Some (st !! a).

Lemma prefix_lookup_Some (st st' : store) a l : st `prefix_of` st' → st !! a = Some l → st' !! a = Some l.
Proof. intros [k ->] H. by apply lookup_app_l_Some. Qed.

(** A scalar is merged without a change to any list that was there *)
Lemma merge_value_spec agg v1 v2 st :
  is_scalar v1 = true → (∀ b, v2 = SRef b → is_Some (st !! b)) →
  ∃ st' v, merge_value agg v1 v2 st = (st', Ok v) ∧ st `prefix_of` st' ∧ (agg = false → v = v1).
Proof.
  intros Hs Hv. unfold merge_value. rewrite Hs. destruct agg; simpl.
  - unfold ebind, alloc. destruct v2 as [x|z| |t|b].
    5: { destruct (Hv b eq_refl) as [l Hl]. unfold read. rewrite (lookup_app_l_Some _ _ _ _ Hl). simpl. eexists _, _. split; [done|]. split; [|done].
         rewrite alter_app_r_alt by done. by eexists. }
    all: simpl; unfold read; rewrite (list_lookup_middle st [] [v1] (length st)) by done; simpl; eexists _, _; (split; [done|]); (split; [|done]);
      rewrite <- app_assoc; by eexists.
  - exists st, v1. destruct v1; try done.
Qed.

Lemma merge_loop_spec agg (d1 d2 : headers) st :
  dict_wf d1 → (∀ k v, dict_get d1 k = Some v → dict_in d2 k = true → is_scalar v = true) → valid_refs st d2 →
  ∃ st' d, merge_loop agg d1 d2 st = (st', Ok d) ∧ st `prefix_of` st' ∧ dict_keys d = dict_keys d1 ∧
    ∀ k v, dict_get d1 k = Some v → (agg = false ∨ dict_get d2 k = None) → dict_get d k = Some v.
Proof.
  revert st. induction d1 as [|[k v] d1 IH]; intros st Hw Hs Hr; simpl; [by exists st, []|]. apply NoDup_cons in Hw as [Hn Hw].
  assert (dict_get d1 k = None) as Hnone by (by apply dict_get_None).
  assert (∃ st1 v', match dict_get d2 k with Some v2 => merge_value agg v v2 | None => eret v end st = (st1, Ok v') ∧ st `prefix_of` st1 ∧ (agg = false ∨ dict_get d2 k = None → v' = v)) as (st1 & v' & E & P & Hv).
  { destruct (dict_get d2 k) as [v2|] eqn:Hk; [|by exists st, v]. destruct (merge_value_spec agg v v2 st) as (st1 & v' & E & P & Hv).
    - apply (Hs k v); [simpl; by rewrite decide_True|]. unfold dict_in. by rewrite Hk.
    - intros b ->. by apply (Hr k b).
    - exists st1, v'. split_and!; [done|done|]. intros [?|?]; [by apply Hv|done]. }
  rewrite (ebind_Ok _ _ _ _ _ E). destruct (IH st1 Hw) as (st2 & d & E2 & P2 & Hk & Hd).
  - intros k' v1 Hk'. apply Hs. simpl. rewrite decide_False; [done|]. intros ->. by rewrite Hnone in Hk'.
  - intros k' a Ha. destruct (Hr k' a Ha) as [l Hl]. exists l. by eapply prefix_lookup_Some.
  - rewrite (ebind_Ok _ _ _ _ _ E2). exists st2, ((k, v') :: d). split_and!; [done|by etrans|exact (f_equal (cons k) Hk)|].
    intros k' v1. simpl. case_decide; [|by apply Hd]. intros [= <-] Ho. subst k'. by rewrite (Hv Ho).
Qed.

Lemma merge_spec agg (d1 d2 : headers) st :
  dict_wf d1 → dict_wf d2 → (∀ k v, dict_get d1 k = Some v → dict_in d2 k = true → is_scalar v = true) → valid_refs st d2 →
  ∃ st' d, _merge_dictionaries d1 d2 agg st = (st', Ok d) ∧ st `prefix_of` st' ∧ dict_wf d ∧
    (∀ k v, dict_get d1 k = Some v → is_Some (dict_get d k) ∧ (agg = false ∨ dict_get d2 k = None → dict_get d k = Some v)) ∧
    (∀ k, dict_get d1 k = None → dict_get d k = dict_get d2 k).
Proof.
  intros Hw Hw2 Hs Hr. unfold _merge_dictionaries. destruct d2 as [|kv d2'] eqn:E2.
  { exists st, d1. by split_and!. }
  rewrite <- E2 in *. destruct (merge_loop_spec agg d1 d2 st Hw Hs Hr) as (st' & d & E & P & Hk & Hd).
  rewrite (ebind_Ok _ _ _ _ _ E). eexists _, _. split; [done|].
  assert (∀ k, dict_in d k = dict_in d1 k) as Hin by (intros k; apply eq_true_iff_eq; rewrite !dict_in_true; by rewrite Hk).
  assert (∀ k, dict_get (d ++ filter (λ kv, dict_in d1 kv.1 = false) d2) k = match dict_get d k with Some v => Some v | None => if dict_in d1 k then None else dict_get d2 k end) as Hget.
  { intros k. destruct (dict_get d k) as [v|] eqn:Ed.
    - clear -Ed. induction d as [|[k' v'] d IH]; simpl in *; [done|]. by case_decide; [|apply IH].
    - rewrite dict_get_app_r by (by apply dict_get_None). pose proof (dict_get_filter_key (λ k, dict_in d1 k = false) d2 k) as Hf. simpl in Hf. rewrite Hf.
      case_decide as Hc; [by rewrite Hc|]. by destruct (dict_in d1 k). }
  split_and!; [done| | |].
  - unfold dict_wf, dict_keys in *. rewrite fmap_app, Hk. apply NoDup_app. split_and!; [done| |by apply dict_filter_wf].
    intros k Hk1 (kv' & -> & [Hf _]%list_elem_of_filter)%list_elem_of_fmap. apply dict_in_true in Hk1. congruence.
  - intros k v Hkv. rewrite Hget. assert (dict_in d k = true) as Hdk by (rewrite Hin; unfold dict_in; by rewrite Hkv). unfold dict_in in Hdk.
    destruct (dict_get d k) as [w|] eqn:Ew; [|done]. split; [by eexists|]. intros Ho. rewrite <- Ew. by apply Hd.
  - intros k Hkn. rewrite Hget. assert (dict_in d k = false) as Hdk by (rewrite Hin; unfold dict_in; by rewrite Hkn). unfold dict_in in Hdk.
    destruct (dict_get d k); [done|]. unfold dict_in. by rewrite Hkn.
Qed.

(** ** Headers without a visitor *)

Abbreviation sh := "stamped_headers"%string.

(** The list of stamped headers of a dictionary *)
Definition lists_names (st : store) (d : headers) (ns : list string) : Prop :=
  match dict_get d sh with None => ns = [] | Some (SRef a) => st !! a = Some (SStr <$> ns) | Some _ => False end.

Lemma lists_names_mono st st' d ns : st `prefix_of` st' → lists_names st d ns → lists_names st' d ns.
Proof. unfold lists_names. intros P. destruct (dict_get d sh) as [[]|]; try done. by apply prefix_lookup_Some. Qed.

Lemma stamped_names_spec st d ns : lists_names st d ns → stamped_names d st = (st, Ok (remove_dups ns)).
Proof.
  unfold lists_names, stamped_names. destruct (dict_get d sh) as [[s|z| |t|a]|]; try done; [|by intros ->].
  intros H. unfold ebind, py_list, read. rewrite H. simpl. by rewrite names_of_strings.
Qed.

(** What a signature needs so that it can be sent: an option for every stamped header *)
Definition sendable (st : store) (options : headers) (ns : list string) : Prop :=
  lists_names st options ns ∧ sh ∉ ns ∧ ∀ n, n ∈ ns → is_Some (dict_get options n).

Definition options_ok (st : store) (options : headers) : Prop := dict_wf options ∧ valid_refs st options ∧ ∃ ns, sendable st options ns.

Section Plain.
(** The stamps: strings and numbers *)
Context (H : headers) (HW : dict_wf H) (HS : ∀ k v, dict_get H k = Some v → is_scalar v = true) (HN : dict_get H sh = None) (HI : dict_get H "immutable" = None).

(** Headers on their way through a canvas *)
Definition carries (st : store) (h : headers) : Prop :=
  dict_wf h ∧ (∀ k, k ≠ sh → dict_get h k = dict_get H k) ∧
  ∃ ns, lists_names st h ns ∧ (is_Some (dict_get h sh) → ∀ n, n ∈ ns ↔ is_Some (dict_get H n)).

Lemma carries_mono st st' h : st `prefix_of` st' → carries st h → carries st' h.
Proof. intros P (W & G & ns & L & N). split_and!; [done|done|]. exists ns. split; [by eapply lists_names_mono|done]. Qed.

Lemma set_names_carries st a ns h :
  dict_wf h → (∀ k, k ≠ sh → dict_get h k = dict_get H k) → st !! a = Some (SStr <$> ns) → (∀ n, n ∈ ns ↔ is_Some (dict_get H n)) →
  carries st (dict_set h sh (SRef a)).
Proof.
  intros W G L N. split_and!; [by apply dict_set_wf|intros k Hk; rewrite dict_get_set_ne by done; by apply G|].
  exists ns. split; [unfold lists_names; by rewrite dict_get_set_eq|done].
Qed.

Lemma alloc_spec l (st : store) : alloc l st = (st ++ [l], Ok (SRef (length st))) ∧ st `prefix_of` st ++ [l] ∧ (st ++ [l]) !! length st = Some l.
Proof. split_and!; [done|by eexists|by apply list_lookup_middle]. Qed.

Lemma with_stamped_spec st h : carries st h → ∃ st' h', with_stamped_headers h st = (st', Ok h') ∧ st `prefix_of` st' ∧ carries st' h' ∧ is_Some (dict_get h' sh).
Proof.
  intros C. pose proof C as (W & G & ns & L & N). unfold with_stamped_headers, dict_in. destruct (dict_get h sh) as [v|] eqn:E; [exists st, h; split_and!; try done; by rewrite E|].
  destruct (alloc_spec (SStr <$> dict_keys h) st) as (Ea & P & Hl). rewrite (ebind_Ok _ _ _ _ _ Ea). eexists _, _. split; [done|]. split_and!; [done| |by rewrite dict_get_set_eq].
  apply (set_names_carries _ _ (dict_keys h)); [done|done|done|]. intros n. rewrite <- dict_in_true. unfold dict_in. destruct (decide (n = sh)) as [->|Hn].
  - rewrite E, HN. split; [done|by intros [? ?]].
  - rewrite G by done. destruct (dict_get H n); [split; [by eexists|done]|split; [done|by intros [? ?]]].
Qed.

(** The headers after those of the signature itself were merged in *)
Record merged (agg : bool) (st : store) (options : headers) (own : list string) (h : headers) : Prop := Merged {
  mg_wf : dict_wf h;
  mg_names : ∃ ns, lists_names st h ns ∧ is_Some (dict_get h sh) ∧ ∀ n, n ∈ ns ↔ is_Some (dict_get H n) ∨ n ∈ own;
  mg_stamps : ∀ k v, dict_get H k = Some v → is_Some (dict_get h k) ∧ (agg = false ∨ dict_get options k = None → dict_get h k = Some v);
  mg_own : ∀ k, k ≠ sh → dict_get H k = None → dict_get h k = if decide (k ∈ own) then dict_get options k else None }.

Lemma dedupe_spec agg st options own h : merged agg st options own h → ∃ st' h', dedupe h st = (st', Ok h') ∧ st `prefix_of` st' ∧ merged agg st' options own h'.
Proof.
  intros [W (ns & L & S & N) A B]. unfold dedupe. rewrite (ebind_Ok _ _ _ _ _ (stamped_names_spec _ _ _ L)).
  destruct (alloc_spec (SStr <$> remove_dups ns) st) as (Ea & P & Hl). rewrite (ebind_Ok _ _ _ _ _ Ea). eexists _, _. split; [done|]. split; [done|]. split.
  - by apply dict_set_wf.
  - exists (remove_dups ns). split_and!; [unfold lists_names; by rewrite dict_get_set_eq|by rewrite dict_get_set_eq|]. intros n. by rewrite elem_of_remove_dups.
  - intros k v Hk. rewrite dict_get_set_ne by congruence. by apply A.
  - intros k Hk. rewrite dict_get_set_ne by done. by apply B.
Qed.

Lemma stamp_headers_self agg st options own h :
  carries st h → dict_wf options → valid_refs st options → lists_names st options own → sh ∉ own →
  ∃ st' h', _stamp_headers options None agg true h st = (st', Ok h') ∧ st `prefix_of` st' ∧ merged agg st' options own h'.
Proof.
  intros C Wo Vo Lo No. unfold _stamp_headers. destruct (with_stamped_spec st h C) as (st1 & h1 & E1 & P1 & C1 & S1). rewrite (ebind_Ok _ _ _ _ _ E1).
  change (eret h1) with (λ st : store, (st, Ok h1)). rewrite (ebind_Ok _ _ st1 st1 h1) by done. destruct C1 as (W1 & G1 & ns & L1 & N1). specialize (N1 S1).
  rewrite (ebind_Ok _ _ _ _ _ (stamped_names_spec _ _ _ L1)), (ebind_Ok _ _ _ _ _ (stamped_names_spec _ _ _ (lists_names_mono _ _ _ _ P1 Lo))).
  set (names := remove_dups (remove_dups ns ++ remove_dups own)). assert (∀ n, n ∈ names ↔ is_Some (dict_get H n) ∨ n ∈ own) as Hnames.
  { intros n. unfold names. rewrite elem_of_remove_dups, elem_of_app, !elem_of_remove_dups. by rewrite N1. }
  destruct (alloc_spec (SStr <$> names) st1) as (Ea & P2 & Hl). rewrite (ebind_Ok _ _ _ _ _ Ea). set (st2 := st1 ++ [SStr <$> names]) in *. set (h2 := dict_set h1 sh (SRef (length st1))).
  set (redacted := filter (λ kv, kv.1 ∈ names) options). assert (∀ k, dict_get redacted k = if decide (k ∈ names) then dict_get options k else None) as Hred.
  { intros k. exact (dict_get_filter_key (λ k, k ∈ names) options k). }
  assert (∀ k v, dict_get h2 k = Some v → dict_in redacted k = true → is_scalar v = true) as Hsc.
  { intros k v Hk Hr. destruct (decide (k = sh)) as [->|Hne].
    - unfold dict_in in Hr. rewrite Hred in Hr. case_decide as Hin; [|done]. apply Hnames in Hin as [[? Hin]|?]; [congruence|done].
    - unfold h2 in Hk. rewrite dict_get_set_ne, G1 in Hk by done. by apply (HS k v). }
  destruct (merge_spec agg h2 redacted st2) as (st3 & h3 & E3 & P3 & W3 & A3 & B3); [by apply dict_set_wf|by apply dict_filter_wf|done| |].
  { intros k a Hk. rewrite Hred in Hk. case_decide; [|done]. destruct (Vo k a Hk) as [l Hla]. exists l. eapply prefix_lookup_Some; [exact P2|]. by eapply prefix_lookup_Some. }
  rewrite (ebind_Ok _ _ _ _ _ E3). destruct (dedupe_spec agg st3 options own h3) as (st4 & h4 & E4 & P4 & M4).
  - split; [done| | |].
    + exists names. assert (dict_get h3 sh = Some (SRef (length st1))) as Hsh.
      { apply (A3 sh); [apply dict_get_set_eq|]. right. rewrite Hred, decide_False; [done|]. intros [[? ?]|?]%Hnames; [congruence|done]. }
      split_and!; [unfold lists_names; rewrite Hsh; by eapply prefix_lookup_Some|by rewrite Hsh|done].
    + intros k v Hk. assert (dict_get h2 k = Some v) as Hk2 by (unfold h2; rewrite dict_get_set_ne by congruence; by rewrite G1 by congruence).
      destruct (A3 k v Hk2) as [Hs Hv]. split; [done|]. intros [?|Ho]; apply Hv; [by left|]. right. rewrite Hred. by case_decide.
    + intros k Hk Hn. rewrite B3; [|unfold h2; rewrite dict_get_set_ne by done; by rewrite G1]. rewrite Hred. case_decide as Hin; case_decide as Ho; try done.
      * apply Hnames in Hin as [[? ?]|?]; [congruence|done].
      * exfalso. apply Hin, Hnames. by right.
  - exists st4, h4. split_and!; [done| |done]. by do 3 (etrans; [done|]).
Qed.

(** A chain, group or chord has no stamps of its own: its headers go on as they are *)
Lemma stamp_headers_container agg st options h :
  carries st h → dict_wf options → valid_refs st options → dict_get options sh = None → (agg = true → ∀ k, is_Some (dict_get H k) → dict_get options k = None) →
  ∃ st' h', _stamp_headers options None agg true h st = (st', Ok h') ∧ st `prefix_of` st' ∧ carries st' h'.
Proof.
  intros C Wo Vo Ho Hd. destruct (stamp_headers_self agg st options [] h C Wo Vo) as (st' & h' & E & P & [W (ns & L & S & N) A B]); [unfold lists_names; by rewrite Ho|apply not_elem_of_nil|].
  exists st', h'. split_and!; [done|done|]. split_and!; [done| |].
  - intros k Hk. destruct (dict_get H k) as [v|] eqn:E'; [|rewrite B by done; rewrite decide_False; [done|apply not_elem_of_nil]].
    apply (A k v E'). destruct agg; [|by left]. right. apply Hd; [done|by eexists].
  - exists ns. split; [done|]. intros _ n. rewrite N. split; [intros [?|[]%not_elem_of_nil]; done|by left].
Qed.

Lemma stamp_headers_link agg st options h :
  carries st h → ∃ st' h', _stamp_headers options None agg false h st = (st', Ok h') ∧ st `prefix_of` st' ∧ carries st' h'.
Proof.
  intros C. unfold _stamp_headers. destruct (with_stamped_spec st h C) as (st1 & h1 & E1 & P1 & C1 & _). rewrite (ebind_Ok _ _ _ _ _ E1). by exists st1, h1.
Qed.

Lemma deepcopy_values st (h : headers) :
  valid_refs st h → dict_wf h → ∃ st' h', deepcopy h st = (st', Ok h') ∧ st `prefix_of` st' ∧ dict_keys h' = dict_keys h ∧
    (∀ k v, dict_get h k = Some v → (∀ a, v ≠ SRef a) → dict_get h' k = Some v) ∧
    (∀ k a l, dict_get h k = Some (SRef a) → st !! a = Some l → ∃ a', dict_get h' k = Some (SRef a') ∧ st' !! a' = Some l).
Proof.
  revert st. induction h as [|[k v] h IH]; intros st V W; simpl; [by exists st, []|]. apply NoDup_cons in W as [Hn W].
  assert (∃ st1 v', match v with SRef a => do! l := read a in alloc l | _ => eret v end st = (st1, Ok v') ∧ st `prefix_of` st1 ∧ ((∀ a, v ≠ SRef a) → v' = v) ∧
    (∀ a l, v = SRef a → st !! a = Some l → ∃ a', v' = SRef a' ∧ st1 !! a' = Some l)) as (st1 & v' & E & P & Hsame & Hcopy).
  { destruct v as [x|z| |t|a]; try (by eexists st, _; split_and!). destruct (V k a) as [l Hl]; [simpl; by rewrite decide_True|]. destruct (alloc_spec l st) as (Ea & Pa & Hla).
    exists (st ++ [l]), (SRef (length st)). split_and!; [unfold ebind, read; by rewrite Hl|done|by intros Hx; destruct (Hx a)|]. intros a' l' [= <-] Hl'. simplify_eq. by exists (length st). }
  rewrite (ebind_Ok _ _ _ _ _ E). assert (dict_get h k = None) as Hnone by (by apply dict_get_None).
  assert (∀ k' w, dict_get h k' = Some w → dict_get ((k, v) :: h) k' = Some w) as Hcons by (intros k' w Hk'; simpl; rewrite decide_False; [done|]; intros ->; by rewrite Hnone in Hk').
  destruct (IH st1) as (st2 & h' & E2 & P2 & Hk & Hv & Hc); [|done|].
  { intros k' a Ha. destruct (V k' a (Hcons _ _ Ha)) as [l Hl]. exists l. by eapply prefix_lookup_Some. }
  rewrite (ebind_Ok _ _ _ _ _ E2). exists st2, ((k, v') :: h'). split_and!; [done|by etrans|exact (f_equal (cons k) Hk)| |].
  - intros k' w. simpl. case_decide; [|by apply Hv]. intros [= <-] Hr. by rewrite (Hsame Hr).
  - intros k' a l. simpl. case_decide.
    + intros [= ->] Hl. destruct (Hcopy a l eq_refl Hl) as (a' & -> & Ha'). exists a'. split; [done|]. by eapply prefix_lookup_Some.
    + intros Hk' Hl. apply (Hc k' a l Hk'). by eapply prefix_lookup_Some.
Qed.

Lemma carries_valid st h : carries st h → valid_refs st h.
Proof.
  intros (W & G & ns & L & _) k a Ha. destruct (decide (k = sh)) as [->|Hne].
  - unfold lists_names in L. rewrite Ha in L. by eexists.
  - rewrite G in Ha by done. by apply HS in Ha.
Qed.

Lemma deepcopy_carries st h : carries st h → ∃ st' h', deepcopy h st = (st', Ok h') ∧ st `prefix_of` st' ∧ carries st' h'.
Proof.
  intros C. pose proof C as (W & G & ns & L & N). destruct (deepcopy_values st h (carries_valid _ _ C) W) as (st' & h' & E & P & Hk & Hv & Hc).
  exists st', h'. split_and!; [done|done|]. assert (∀ k, dict_get h' k = None ↔ dict_get h k = None) as Hnone by (intros k; by rewrite !dict_get_None, Hk).
  split_and!; [unfold dict_wf in *; by rewrite Hk| |].
  - intros k Hne. rewrite <- G by done. destruct (dict_get h k) as [v|] eqn:Ek; [|by apply Hnone]. apply Hv; [done|]. intros a ->. rewrite G in Ek by done. by apply HS in Ek.
  - exists ns. unfold lists_names in *. destruct (dict_get h sh) as [[x|z| |t|a]|] eqn:Es; try done.
    + destruct (Hc sh a _ Es L) as (a' & -> & Ha'). split; [done|]. intros _. apply N. by eexists.
    + rewrite (proj2 (Hnone sh) Es). split; [done|]. by intros [? ?].
Qed.

(** ** Canvases *)

(** A task was stamped: it can be sent, has the stamps and otherwise the options it had *)
Definition task_stamped (agg : bool) (st : store) (o o' : headers) : Prop :=
  (∃ ns, sendable st o' ns ∧ ∀ k, is_Some (dict_get H k) → k ∈ ns) ∧
  (∀ k v, dict_get H k = Some v → (agg = false ∨ dict_get o k = None) → dict_get o' k = Some v) ∧
  (∀ k, dict_get H k = None → k ≠ sh → dict_get o' k = dict_get o k).

(** The canvas [s'] is [s] with all tasks stamped but those of the bodies of chords *)
Inductive stamped (st : store) : bool → sig → sig → Prop :=
| StTask agg o o' name l l' e e' :
    task_stamped agg st o o' → Forall2 (stamped st agg) l l' → Forall2 (stamped st agg) e e' → stamped st agg (Sig o (NTask name) l e) (Sig o' (NTask name) l' e')
| StChain agg o ts ts' l l' e e' :
    Forall2 (stamped st agg) ts ts' → Forall2 (stamped st false) l l' → Forall2 (stamped st false) e e' → stamped st agg (Sig o (NChain ts) l e) (Sig o (NChain ts') l' e')
| StGroup agg o ts ts' l l' e e' :
    Forall2 (stamped st agg) ts ts' → Forall2 (stamped st agg) l l' → Forall2 (stamped st agg) e e' → stamped st agg (Sig o (NGroup ts) l e) (Sig o (NGroup ts') l' e')
| StChord agg o ts ts' b l l' e e' :
    Forall2 (stamped st agg) ts ts' → Forall2 (stamped st agg) l l' → Forall2 (stamped st agg) e e' → stamped st agg (Sig o (NChord ts b) l e) (Sig o (NChord ts' b) l' e').

(** What is asked of a canvas: tasks can be sent; chains, groups and chords have no stamps themselves
    nor, if stamps are to be appended, options of the same names *)
Definition container_ok (st : store) (agg : bool) (o : headers) : Prop :=
  dict_wf o ∧ valid_refs st o ∧ dict_get o sh = None ∧ (agg = true → ∀ k, is_Some (dict_get H k) → dict_get o k = None).

Inductive canvas_ok (st : store) : bool → sig → Prop :=
| OkTask agg o name l e : options_ok st o → Forall (canvas_ok st agg) l → Forall (canvas_ok st agg) e → canvas_ok st agg (Sig o (NTask name) l e)
| OkChain agg o ts l e : container_ok st agg o → Forall (canvas_ok st agg) ts → Forall (canvas_ok st false) l → Forall (canvas_ok st false) e → canvas_ok st agg (Sig o (NChain ts) l e)
| OkGroup agg o ts l e : container_ok st agg o → Forall (canvas_ok st agg) ts → Forall (canvas_ok st agg) l → Forall (canvas_ok st agg) e → canvas_ok st agg (Sig o (NGroup ts) l e)
| OkChord agg o ts b l e : container_ok st agg o → Forall (canvas_ok st agg) ts → Forall (canvas_ok st agg) l → Forall (canvas_ok st agg) e → canvas_ok st agg (Sig o (NChord ts b) l e).

(** Induction on canvases *)
Definition node_all (P : sig → Prop) (k : node) : Prop :=
  match k with
  | NTask _ => True
  | NChain ts | NGroup ts => Forall P ts
  | NChord ts b => Forall P ts ∧ match b with Some x => P x | None => True end
  end.

Lemma stamp_canvas_ind (P : sig → Prop) : (∀ o k l e, node_all P k → Forall P l → Forall P e → P (Sig o k l e)) → ∀ s, P s.
Proof.
  intros HP. fix F 1. intros [o k l e].
  assert (∀ l : list sig, Forall P l) as FL by (fix G 1; intros [|x l']; constructor; [apply F|apply G]).
  apply HP; [|apply FL..]. destruct k as [name|ts|ts|ts [b|]]; simpl; auto.
Qed.

Section Canvas.
Context (st0 : store).

Definition stamps_well (x : sig) : Prop := ∀ agg st h,
  canvas_ok st0 agg x → st0 `prefix_of` st → carries st h →
  ∃ st' x', stamp None agg x h st = (st', Ok x') ∧ st `prefix_of` st' ∧ ∀ st2, st' `prefix_of` st2 → stamped st2 agg x x'.

Lemma each_ok agg l st h :
  Forall stamps_well l → Forall (canvas_ok st0 agg) l → st0 `prefix_of` st → carries st h →
  ∃ st' l', each (stamp None agg) l h st = (st', Ok l') ∧ st `prefix_of` st' ∧ ∀ st2, st' `prefix_of` st2 → Forall2 (stamped st2 agg) l l'.
Proof.
  intros HL. revert st. induction HL as [|x l Hx _ IH]; intros st Hok P C; simpl; [exists st, []; by split_and!|]. apply Forall_cons in Hok as [Ho Hl].
  destruct (Hx agg st h Ho P C) as (st1 & x' & E1 & P1 & S1). rewrite (ebind_Ok _ _ _ _ _ E1).
  destruct (IH st1) as (st2 & l' & E2 & P2 & S2); [done|by etrans|by eapply carries_mono|]. rewrite (ebind_Ok _ _ _ _ _ E2). exists st2, (x' :: l'). split_and!; [done|by etrans|].
  intros st3 P3. constructor; [apply S1; by etrans|by apply S2].
Qed.

Lemma links_ok options agg f l st h :
  Forall stamps_well l → Forall (canvas_ok st0 agg) l → st0 `prefix_of` st → carries st h →
  ∃ st' l', links None (stamp None agg) options agg f l h st = (st', Ok l') ∧ st `prefix_of` st' ∧ ∀ st2, st' `prefix_of` st2 → Forall2 (stamped st2 agg) l l'.
Proof.
  intros HL. revert st h. induction HL as [|x l Hx _ IH]; intros st h Hok P C; simpl; [exists st, []; by split_and!|]. apply Forall_cons in Hok as [Ho Hl].
  destruct (stamp_headers_link agg st options h C) as (st1 & h1 & E1 & P1 & C1). rewrite (ebind_Ok _ _ _ _ _ E1).
  destruct (Hx agg st1 h1 Ho) as (st2 & x' & E2 & P2 & S2); [by etrans|done|]. rewrite (ebind_Ok _ _ _ _ _ E2).
  destruct (IH st2 h1) as (st3 & l' & E3 & P3 & S3); [done|by do 2 (etrans; [done|])|by eapply carries_mono|]. rewrite (ebind_Ok _ _ _ _ _ E3).
  exists st3, (x' :: l'). split_and!; [done|by do 2 (etrans; [done|])|]. intros st4 P4. constructor; [apply S2; by etrans|by apply S3].
Qed.

Lemma stamp_links_ok options agg l e st h :
  Forall stamps_well l → Forall stamps_well e → Forall (canvas_ok st0 agg) l → Forall (canvas_ok st0 agg) e → st0 `prefix_of` st → carries st h →
  ∃ st' l' e', stamp_links None (stamp None agg) options agg l e h st = (st', Ok (l', e')) ∧ st `prefix_of` st' ∧
    ∀ st2, st' `prefix_of` st2 → Forall2 (stamped st2 agg) l l' ∧ Forall2 (stamped st2 agg) e e'.
Proof.
  intros Hl He Ol Oe P C. unfold stamp_links. destruct (deepcopy_carries st h C) as (st1 & h1 & E1 & P1 & C1). rewrite (ebind_Ok _ _ _ _ _ E1).
  destruct (links_ok options agg on_callback l st1 h1 Hl Ol) as (st2 & l' & E2 & P2 & S2); [by etrans|done|]. rewrite (ebind_Ok _ _ _ _ _ E2).
  assert (st `prefix_of` st2) as P02 by (by etrans). destruct (deepcopy_carries st2 h) as (st3 & h3 & E3 & P3 & C3); [by eapply carries_mono|]. rewrite (ebind_Ok _ _ _ _ _ E3).
  destruct (links_ok options agg on_errback e st3 h3 He Oe) as (st4 & e' & E4 & P4 & S4); [by do 2 (etrans; [done|])|done|]. rewrite (ebind_Ok _ _ _ _ _ E4).
  exists st4, l', e'. split_and!; [done|by do 2 (etrans; [done|])|]. intros st5 P5. split; [apply S2; by do 2 (etrans; [done|])|by apply S4].
Qed.

Lemma options_ok_mono st st' o : st `prefix_of` st' → options_ok st o → options_ok st' o.
Proof.
  intros P (W & V & ns & L & N & K). split_and!; [done| |].
  - intros k a Ha. destruct (V k a Ha) as [l Hl]. exists l. by eapply prefix_lookup_Some.
  - exists ns. split_and!; [by eapply lists_names_mono|done|done].
Qed.

(** A task: the merged headers become options *)
Lemma merged_task agg st options own h : dict_wf options → sendable st options own → merged agg st options own h → task_stamped agg st options (set_options options h).
Proof.
  intros Wo (Lo & No & Ko) [W (ns & L & S & N) A B]. unfold set_options. assert (dict_wf (dict_del h "immutable")) as Wd by (by apply dict_del_wf).
  assert (∀ k, k ≠ "immutable"%string → dict_get (dict_update options (dict_del h "immutable")) k = match dict_get h k with Some v => Some v | None => dict_get options k end) as Hget.
  { intros k Hk. rewrite dict_get_update by done. by rewrite dict_get_del_ne. }
  assert (∀ k, is_Some (dict_get H k) → k ≠ "immutable"%string ∧ k ≠ sh) as Hne by (intros k [v Hv]; split; congruence).
  split_and!.
  - exists ns. split; [|intros k Hk; apply N; by left]. split_and!.
    + unfold lists_names in *. rewrite Hget by done. destruct (dict_get h sh) as [v|]; [done|by destruct S].
    + rewrite N. intros [[v Hv]|?]; [congruence|done].
    + intros n [Hn|Hn]%N.
      * rewrite Hget by (by apply Hne). destruct Hn as [v Hv]. destruct (A n v Hv) as [[w ->] _]. by eexists.
      * rewrite dict_get_update by done. destruct (dict_get (dict_del h "immutable") n); [by eexists|]. by apply Ko.
  - intros k v Hk Ho. rewrite Hget by (by apply Hne; eexists). destruct (A k v Hk) as [_ Hv]. by rewrite Hv.
  - intros k Hk Hn. destruct (decide (k = "immutable"%string)) as [->|Hi].
    + rewrite dict_get_update by done. by rewrite dict_get_del_eq.
    + rewrite Hget, B by done. case_decide; [|done]. by destruct (dict_get options k).
Qed.

Lemma container_ok_mono st st' agg o : st `prefix_of` st' → container_ok st agg o → container_ok st' agg o.
Proof. intros P (W & V & R). split; [done|]. split; [|done]. intros k a Ha. destruct (V k a Ha) as [l Hl]. exists l. by eapply prefix_lookup_Some. Qed.

Lemma container_parts agg agg' o ts l e st h :
  Forall stamps_well ts → Forall stamps_well l → Forall stamps_well e → container_ok st0 agg o → Forall (canvas_ok st0 agg) ts → Forall (canvas_ok st0 agg') l → Forall (canvas_ok st0 agg') e →
  st0 `prefix_of` st → carries st h →
  ∃ st1 h1 st2 l' e' st3 ts', _stamp_headers o None agg true h st = (st1, Ok h1) ∧ stamp_links None (stamp None agg') o agg' l e h1 st1 = (st2, Ok (l', e')) ∧
    each (stamp None agg) ts h1 st2 = (st3, Ok ts') ∧ st `prefix_of` st3 ∧
    ∀ st4, st3 `prefix_of` st4 → Forall2 (stamped st4 agg) ts ts' ∧ Forall2 (stamped st4 agg') l l' ∧ Forall2 (stamped st4 agg') e e'.
Proof.
  intros It Il Ie Oo Ot Ol Oe P C. destruct (container_ok_mono st0 st agg o P Oo) as (W & V & R & D).
  destruct (stamp_headers_container agg st o h) as (st1 & h1 & E1 & P1 & C1); try done.
  destruct (stamp_links_ok o agg' l e st1 h1) as (st2 & l' & e' & E2 & P2 & S2); try done; [by etrans|].
  destruct (each_ok agg ts st2 h1) as (st3 & ts' & E3 & P3 & S3); try done; [by do 2 (etrans; [done|])|by eapply carries_mono|].
  exists st1, h1, st2, l', e', st3, ts'. split_and!; [done|done|done|by do 2 (etrans; [done|])|]. intros st4 P4. split; [by apply S3|]. apply S2. by etrans.
Qed.

Lemma stamp_ok s : stamps_well s.
Proof.
  induction s as [o k l e Hk Hl He] using stamp_canvas_ind. intros agg st h Hok P C. inversion Hok; subst; clear Hok; cbn [stamp]; unfold stamp_signature, stamp_chain, stamp_group, stamp_chord; simpl in Hk.
  1: { destruct (stamp_links_ok o agg l e st h) as (st1 & l' & e' & E1 & P1 & S1); try done. rewrite (ebind_Ok _ _ _ _ _ E1).
    destruct (options_ok_mono st0 st1 o) as (W & V & own & Sn); [by etrans|done|]. destruct (stamp_headers_self agg st1 o own h) as (st2 & h2 & E2 & P2 & M2); [by eapply carries_mono|done|done|apply Sn|apply Sn|].
    rewrite (ebind_Ok _ _ _ _ _ E2). exists st2, (Sig (set_options o h2) (NTask name) l' e'). split_and!; [done|by etrans|].
    intros st3 P3. constructor; [|apply S1; by etrans..]. apply (merged_task agg st3 o own h2); [done| |].
    - destruct Sn as (L & N & K). split_and!; [|done|done]. eapply lists_names_mono; [|exact L]. by etrans.
    - destruct M2 as [W2 (ns & L & S & N) A B]. split; [done| |done|done]. exists ns. split_and!; [by eapply lists_names_mono|done|done]. }
  1: destruct (container_parts agg false o ts l e st h) as (st1 & h1 & st2 & l' & e' & st3 & ts' & E1 & E2 & E3 & P3 & S3); try done.
  2: destruct (container_parts agg agg o ts l e st h) as (st1 & h1 & st2 & l' & e' & st3 & ts' & E1 & E2 & E3 & P3 & S3); try done.
  3: destruct (container_parts agg agg o ts l e st h) as (st1 & h1 & st2 & l' & e' & st3 & ts' & E1 & E2 & E3 & P3 & S3); try done; [apply Hk|].
  all: rewrite (ebind_Ok _ _ _ _ _ E1), (ebind_Ok _ _ _ _ _ E2), (ebind_Ok _ _ _ _ _ E3); eexists _, _; (split; [done|]); (split; [done|]).
  all: intros st4 P4; destruct (S3 st4 P4) as (A & B & D); by constructor.
Qed.
End Canvas.

(** C28: Stamps reach every task and nothing else.  Stamping a canvas with headers that are strings and
    numbers, without a visitor, ends and stamps every task in chains, groups, headers of chords and links,
    however deep: the task lists the stamps, has an option for each stamp it lists (without which no message
    of it can be made, Messages.v), has the new values (unless values are to be appended and it had one), and keeps its other
    options; bodies of chords are left as they are, and no list that existed is changed. *)
Theorem stamping_complete st agg s :
  canvas_ok st agg s → ∃ st' s', stamp None agg s H st = (st', Ok s') ∧ st `prefix_of` st' ∧ stamped st' agg s s'.
Proof.
  intros Hok. destruct (stamp_ok st s agg st H Hok) as (st' & s' & E & P & S); [done| |].
  - split_and!; [done|done|]. exists []. unfold lists_names. rewrite HN. split; [done|]. by intros [? ?].
  - exists st', s'. split_and!; [done|done|by apply S].
Qed.
End Plain.
End Stamping.

(** * Evaluated *)

Module StampingExamples.
Import Stamping.
Local Open Scope string_scope.
Local Open Scope list_scope.

Definition task (name : string) : sig := Sig [] (NTask name) [] [].
Definition stamps : headers := [("owner", SStr "me")].

(** A group in a chain, with a link *)
Definition canvas : sig := Sig [] (NChain [task "a"; Sig [] (NGroup [task "b"; task "c"]) [] []]) [task "d"] [].

Definition options_of (s : sig) : headers := match s with Sig o _ _ _ => o end.
Definition tasks_of (s : sig) : list sig := match s with Sig _ (NChain l) _ _ | Sig _ (NGroup l) _ _ | Sig _ (NChord l _) _ _ => l | _ => [] end.
Definition result (c : M sig) : sig := match (c []).2 with Ok s => s | _ => task "failed" end.
Definition stamp_of (name : string) (s : sig) : option value := dict_get (options_of s) name.
(** The names that a signature lists *)
Definition listed (c : M sig) (s : sig) : list string :=
  match stamp_of "stamped_headers" s with Some (SRef a) => names_of (default [] ((c []).1 !! a)) | _ => [] end.

Lemma canvas_is_ok : canvas_ok stamps [] false canvas.
Proof.
  assert (∀ name, canvas_ok stamps [] false (task name)) as T.
  { intros name. constructor; [|constructor..]. split_and!; [apply NoDup_nil_2|done|]. exists []. split_and!; [done|apply not_elem_of_nil|by intros n ?%not_elem_of_nil]. }
  assert (container_ok stamps [] false []) as K by (split_and!; [apply NoDup_nil_2|done|done|done]).
  assert (∀ names, Forall (canvas_ok stamps [] false) (task <$> names)) as TS by (intros names; by apply Forall_fmap, Forall_true).
  unfold canvas. apply OkChain; [exact K| |apply (TS ["d"])|constructor]. constructor; [apply T|]. constructor; [|constructor].
  apply OkGroup; [exact K|apply (TS ["b"; "c"])|constructor|constructor].
Qed.

Lemma stamping_complete_witness : ∃ st' s', stamp None false canvas stamps [] = (st', Ok s') ∧ [] `prefix_of` st' ∧ stamped stamps st' false canvas s'.
Proof.
  apply stamping_complete; [apply NoDup_singleton| |reflexivity|reflexivity|apply canvas_is_ok].
  intros k v. simpl. case_decide; [by intros [= <-]|done].
Defined.

Definition nothing (s : sig) (h : headers) : headers := [].
(** A visitor that has something for one task only *)
Definition only (name : string) (vh : headers) : visitor :=
  Visitor (λ s _, match s with Sig _ (NTask n) _ _ => if bool_decide (n = name) then vh else [] | _ => [] end) nothing nothing nothing nothing nothing nothing.

Definition pair : sig := Sig [] (NGroup [task "a"; task "b"]) [] [].

(** The name of a stamp of one task of a group gets into the list of the next, which does not have the
    stamp: sending that one raises [KeyError] *)
Example name_leaks :
  let c := stamp (Some (only "a" [("x", SInt 1)])) false pair [] in
  stamp_of "x" <$> tasks_of (result c) = [Some (SInt 1); None] ∧ listed c <$> tasks_of (result c) = [["x"]; ["x"]].
Proof. vm_compute. split; reflexivity. Qed.

(** What the headers say wins over what the visitor says *)
Example headers_win : stamp_of "x" <$> tasks_of (result (stamp (Some (only "a" [("x", SInt 2)])) false pair [("x", SInt 1)])) = [Some (SInt 1); Some (SInt 1)].
Proof. by vm_compute. Qed.

(** Without a visitor the body of a chord gets no stamps *)
Example body_not_stamped :
  match result (stamp None false (Sig [] (NChord [task "a"] (Some (task "b"))) [] []) stamps) with
  | Sig _ (NChord [a] (Some b)) _ _ => stamp_of "owner" a = Some (SStr "me") ∧ stamp_of "owner" b = None
  | _ => False
  end.
Proof. by vm_compute. Qed.

(** A stamped task gets another value appended; as the link of a chain it does not *)
Definition marked : sig := Sig [("owner", SStr "you"); ("stamped_headers", SRef 0)] (NTask "m") [] [].
Definition in_list (st : list (list value)) (v : option value) : list value := match v with Some (SRef a) => default [] (st !! a) | Some v => [v] | None => [] end.
Example chain_links_not_appended :
  match stamp None true (Sig [] (NChain [marked]) [marked] []) stamps [[SStr "owner"]] with
  | (st, Ok (Sig _ (NChain [t]) [l] _)) => in_list st (stamp_of "owner" t) = [SStr "me"; SStr "you"] ∧ in_list st (stamp_of "owner" l) = [SStr "me"]
  | _ => False
  end.
Proof. by vm_compute. Qed.

(** Tasks share the list that was given: what is merged into it for one of them the others have as well *)
Example lists_are_shared :
  match stamp (Some (only "b" [("x", SRef 1)])) false pair [("x", SRef 0)] [[SInt 1]; [SInt 2]] with
  | (st, Ok s) => in_list st <$> (stamp_of "x" <$> tasks_of s) = [[SInt 1; SInt 2]; [SInt 1; SInt 2]]
  | _ => False
  end.
Proof. by vm_compute. Qed.

End StampingExamples.
