(* ===== verification/PersistentSchedule.v ===== *)
(** The persistent scheduler and the service of celery/beat.py: the shelve database with the last runs,
    how it is opened, reset and merged with the configuration when beat starts, the loop of the service,
    and how the runs survive a restart.

    The database on disk is a value; opening it may raise.  [p_store] is the open shelf with its cache of
    read values: assigning or deleting a key writes through, a change inside the dict of entries reaches
    the disk with [sync].  Only the value of the key [entries] may turn out to be unreadable.  Nothing
    uses the shelf after it was closed. *)

From S2P Require Import Prelude.
From S2P Require Import PyDict.
From S2P Require Import Effect.
From S2P Require Import Beat.
Import Beat.
Local Open Scope Z_scope.
Local Open Scope eff_scope.

Module PersistentSchedule.

(** A key of the shelf: missing, not readable, or there *)
Inductive field (A : Type) := Absent | Unreadable (e : exn) | Value (a : A).
Arguments Absent {A}.
Arguments Unreadable {A} e.
Arguments Value {A} a.

Section Persistent.
Context {sched A : Type} `{!EqDecision sched, !EqDecision A}.
Context (due : sched → Z → Z → bool * option Z).
Context (entry_le : relation (@entry sched A)) `{!RelDecision entry_le}.
Context (run : list (@call_ sched A * outcome ()) → @call_ sched A → outcome ()) (time : nat → Z).
Context (max_interval sync_every : Z) (sync_every_tasks : option Z).

Abbreviation schedules := (pydict string (@entry sched A)).

Record store := Store {
  st_entries : field schedules;
  st_version : option string;
  st_tz : option (option string);   (* the setting may be [None] *)
  st_utc : option bool;
}.

Definition empty_store : store := Store Absent None None None.

Inductive database := CannotOpen (e : exn) | Opens (st : store).

Record pstate := PState {
  p_disk : option database;         (* nothing if there is no file *)
  p_store : option store;           (* [_store] *)
  p_io : list (option exn);         (* what the next writes raise *)
  p_sched : @scheduler sched A;     (* its [s_data] is the value of [entries] *)
}.

Abbreviation M := (eff pstate).

Definition set_disk d p := PState d (p_store p) (p_io p) (p_sched p).
Definition set_store st p := PState (p_disk p) (Some st) (p_io p) (p_sched p).
Definition set_entries d st := Store d (st_version st) (st_tz st) (st_utc st).
Definition set_version v st := Store (st_entries st) (Some v) (st_tz st) (st_utc st).
Definition set_tz tz st := Store (st_entries st) (st_version st) (Some tz) (st_utc st).
Definition set_utc utc st := Store (st_entries st) (st_version st) (st_tz st) (Some utc).

(** Errors of [os.remove] but [ENOENT] *)
Context (os_remove : string → option exn).
(** The order in which a set is iterated *)
Context (iter_set : list string → list string).
(** Settings: the schedule, whether results are to expire, the default entry, time zone and UTC; and
    [celery.__version__] *)
Context (beat_schedule : pydict string (@cfg sched A)) (expire : bool) (cleanup : @cfg sched A).
Context (conf_tz : option string) (conf_utc : bool) (version : string).

(** ** The shelf *)

Definition raises (o : option exn) : M () := match o with Some e => eraise e | None => eret () end.

(** The next write *)
Definition io : M () := λ p, raises (mjoin (head (p_io p))) (PState (p_disk p) (p_store p) (tail (p_io p)) (p_sched p)).

Definition write (f : store → store) : M () :=
  run! io in
  emodify (λ p, PState (match p_disk p with Some (Opens st) => Some (Opens (f st)) | d => d end)
                       (f <$> p_store p) (p_io p) (p_sched p)).

(** [_store.clear()]: the values it reads are readable where it is called *)
Definition clear : M () := write (λ _, empty_store).

(** [_store['entries']] *)
Definition get_schedule : M schedules :=
  do! st := eget p_store in
  match st_entries <$> st with
  | None => eraise TypeError
  | Some Absent => eraise KeyError
  | Some (Unreadable e) => eraise e
  | Some (Value d) => eret d
  end.

Definition known_suffixes : list string := [""; ".db"; ".dat"; ".bak"; ".dir"]%string.

Definition _remove_db : M () :=
  run! eiter (λ suffix, raises (os_remove suffix)) known_suffixes in
  emodify (set_disk None).

(** [shelve.open]: a database that is not there is created *)
Definition _open_schedule : M store :=
  do! d := eget p_disk in
  match d with
  | None => run! emodify (set_disk (Some (Opens empty_store))) in eret empty_store
  | Some (CannotOpen e) => eraise e
  | Some (Opens st) => eret st
  end.

Definition _destroy_open_corrupted_schedule : M store := run! _remove_db in _open_schedule.

(** The exceptions that mean a new database, and those of a write that mean a broken one *)
Definition unreadable (e : exn) : bool := bool_decide (e ∈ [KeyError; UnicodeDecodeError; TypeError; UnpicklingError]).
Definition unwritable (e : exn) : bool := unreadable e || bool_decide (e ∈ [DbmError; OSError]).

Fixpoint create_loop (n : nat) : M () :=
  match n with
  | O => eret ()
  | S n =>
      etry get_schedule
        (λ e, if unreadable e
              then etry (write (set_entries (Value [])))
                     (λ e', if unwritable e'
                            then do! st := _destroy_open_corrupted_schedule in
                                 run! emodify (set_store st) in
                                 create_loop n
                            else eraise e')
                     (λ _, eret ())
              else eraise e)
        (λ _, do! st := eget p_store in
              let st := default empty_store st in
              if bool_decide (st_version st = None) then clear
              else if bool_decide (st_tz st = None) then clear
              else if bool_decide (st_utc st = None) then clear
              else eret ())
  end.

Definition _create_schedule : M () := create_loop 2.

(** Runs an operation of the scheduler, whose schedule is the value of [entries].  An entry that was sent
    is advanced before the scheduler syncs, and nothing of the schedule changes after that. *)
Definition is_synced (x : @call_ sched A * outcome ()) : bool := match x with (Sync, Ok _) => true | _ => false end.

Definition on_schedule {B} (c : eff (@scheduler sched A) B) : M B := λ p,
  match get_schedule p with
  | (p, Ok d) =>
      let '(s', r) := c (set_data d (p_sched p)) in
      let st := set_entries (Value (s_data s')) <$> p_store p in
      (PState (match st with
               | Some st => if existsb is_synced (drop (length (s_log (p_sched p))) (s_log s')) then Some (Opens st) else p_disk p
               | None => p_disk p
               end) st (p_io p) s', r)
  | (p, Raise e) => (p, Raise e)
  | (p, Diverge) => (p, Diverge)
  end.

Definition symdiff (a b : list string) : list string := filter (.∉ b) a ++ filter (.∉ a) b.

Definition merge_config : eff (@scheduler sched A) () :=
  do! d := eget s_data in
  merge_inplace time beat_schedule (iter_set (symdiff (dict_keys d) (dict_keys beat_schedule))) (iter_set (dict_keys beat_schedule)).

Definition sync : M () :=
  do! st := eget p_store in
  match st with
  | None => eret ()
  | Some st => run! io in emodify (set_disk (Some (Opens st)))
  end.

(** [_store.close()] writes the cache back once more *)
Definition close : M () :=
  run! sync in
  do! st := eget p_store in
  match st with None => eraise AttributeError | Some _ => sync end.

(** [_store.setdefault('entries', {})] *)
Definition setdefault_entries : M () :=
  etry get_schedule (λ e, if bool_decide (e = KeyError) then write (set_entries (Value [])) else eraise e) (λ _, eret ()).

(** Opening the database.  [_store.keys()], called to provoke the errors of a broken file, makes a view and
    reads nothing. *)
Definition open_store : M () :=
  etry _open_schedule
    (λ e, if is_Exception e
          then do! st := _destroy_open_corrupted_schedule in emodify (set_store st)
          else eraise e)
    (λ st, emodify (set_store st)).

(** The schedule is reset when the time zone or the use of UTC has changed. *)
Definition reset_changed : M () :=
  do! st := eget p_store in
  let stored_tz := mjoin (st ≫= st_tz) in
  run! ewhen (negb (bool_decide (stored_tz = None)) && negb (bool_decide (stored_tz = conf_tz))) clear in
  do! st := eget p_store in
  let stored_utc := st ≫= st_utc in
  ewhen (negb (bool_decide (stored_utc = None)) && negb (bool_decide (stored_utc = Some conf_utc))) clear.

Definition setup_schedule : M () :=
  run! open_store in
  run! _create_schedule in
  run! reset_changed in
  run! setdefault_entries in
  run! on_schedule merge_config in
  run! on_schedule (install_default_entries time expire cleanup) in
  run! write (set_version version) in
  run! write (set_tz conf_tz) in
  run! write (set_utc conf_utc) in
  sync.

(** ** The service *)

Definition tick : M Z := on_schedule (Beat.tick due entry_le run time max_interval sync_every sync_every_tasks).

(** The loop of [Service.start].  One element for every iteration before the shutdown flag is set: what
    interrupts its sleep *)
Fixpoint service_loop (sleeps : list (option exn)) : M () :=
  match sleeps with
  | [] => eret ()
  | sleep :: sleeps =>
      do! interval := tick in
      run! ewhen (0 <? interval)
             (run! raises sleep in
              do! b := on_schedule (should_sync time sync_every sync_every_tasks) in
              ewhen b (on_schedule (do_sync run time))) in
      service_loop sleeps
  end.

Definition service_start (sleeps : list (option exn)) : M () :=
  efinally (ecatch (service_loop sleeps)
              (λ e, if bool_decide (e ∈ [KeyboardInterrupt; SystemExit; WorkerShutdown; WorkerTerminate]) then eret () else eraise e))
           close.

(** ** Setting up *)

(** The entries that a set-up takes over from the database: those of a complete database with the same
    time zone, or none recorded, and the same use of UTC *)
Definition carried (d : option database) : schedules :=
  match d with
  | Some (Opens (Store (Value d) (Some _) (Some tz) (Some utc))) =>
      if bool_decide ((tz = None ∨ tz = conf_tz) ∧ utc = conf_utc) then d else []
  | _ => []
  end.

(** The errors of the database are those the code expects. *)
Definition expected (d : option database) : Prop :=
  match d with
  | None => True
  | Some (CannotOpen e) => is_Exception e = true
  | Some (Opens st) => match st_entries st with Unreadable e => unreadable e = true | _ => True end
  end.

Lemma write_ok f d st s :
  write f (PState (Some (Opens d)) (Some st) [] s) = (PState (Some (Opens (f d))) (Some (f st)) [] s, Ok ()).
Proof. done. Qed.

Section Setup.
Context (Hremove : ∀ s, os_remove s = None).

Lemma open_store_ok p :
  expected (p_disk p) → p_io p = [] →
  ∃ st, open_store p = (PState (Some (Opens st)) (Some st) [] (p_sched p), Ok ()) ∧
    st = match p_disk p with Some (Opens st) => st | _ => empty_store end.
Proof using Hremove.
  destruct p as [[[e|st]|] st0 io0 s]; simpl; intros He ->; unfold open_store, etry, _open_schedule, ebind, eget; simpl;
    try (eexists; split; reflexivity).
  rewrite He. unfold _destroy_open_corrupted_schedule, _remove_db, known_suffixes, ebind. simpl.
  rewrite !Hremove. eexists. split; reflexivity.
Qed.

Lemma create_schedule_ok st s :
  expected (Some (Opens st)) →
  ∃ st', _create_schedule (PState (Some (Opens st)) (Some st) [] s) = (PState (Some (Opens st')) (Some st') [] s, Ok ()) ∧
    match st_entries st with
    | Value d => if bool_decide (st_version st = None ∨ st_tz st = None ∨ st_utc st = None) then st' = empty_store else st' = st
    | _ => st' = set_entries (Value []) st
    end.
Proof using Type.
  destruct st as [[|e|d] v tz u]; simpl; intros He; unfold _create_schedule; cbn [create_loop]; unfold etry at 1, get_schedule, ebind at 1, eget at 1; simpl.
  - eexists. split; reflexivity.
  - rewrite He. eexists. split; reflexivity.
  - unfold ebind, eget. simpl. destruct v; simpl; [|eexists; split; reflexivity].
    destruct tz; simpl; [|eexists; split; reflexivity]. destruct u; simpl; eexists; split; reflexivity.
Qed.

Lemma changed_spec {B} `{!EqDecision B} (o c : option B) :
  negb (bool_decide (o = None)) && negb (bool_decide (o = c)) = negb (bool_decide (o = None ∨ o = c)).
Proof. rewrite bool_decide_or. by destruct (bool_decide (o = None)), (bool_decide (o = c)). Qed.

Lemma reset_changed_ok st s :
  ∃ st', reset_changed (PState (Some (Opens st)) (Some st) [] s) = (PState (Some (Opens st')) (Some st') [] s, Ok ()) ∧
    st' = if bool_decide ((mjoin (st_tz st) = None ∨ mjoin (st_tz st) = conf_tz) ∧ (st_utc st = None ∨ st_utc st = Some conf_utc))
          then st else empty_store.
Proof using Type.
  unfold reset_changed, ebind at 1, eget. cbn [p_store option_bind]. simpl (Some st ≫= st_tz).
  rewrite changed_spec. destruct (decide (mjoin (st_tz st) = None ∨ mjoin (st_tz st) = conf_tz)) as [Htz|Htz].
  - rewrite bool_decide_eq_true_2 by done. unfold ebind, ewhen at 1, eret. cbn [negb p_store option_bind]. simpl (Some st ≫= st_utc).
    rewrite changed_spec. destruct (decide (st_utc st = None ∨ st_utc st = Some conf_utc)) as [Hu|Hu].
    + eexists. rewrite !bool_decide_eq_true_2 by done. split; reflexivity.
    + rewrite !bool_decide_eq_false_2 by tauto. eexists. split; reflexivity.
  - rewrite !bool_decide_eq_false_2 by tauto. eexists. split; reflexivity.
Qed.

(** Opening, creating and resetting leave the entries that are carried over. *)
Lemma prepare_ok p :
  expected (p_disk p) → p_io p = [] →
  ∃ st, (run! open_store in run! _create_schedule in run! reset_changed in setdefault_entries) p =
          (PState (Some (Opens st)) (Some st) [] (p_sched p), Ok ()) ∧
    st_entries st = Value (carried (p_disk p)).
Proof using Hremove.
  intros He Hio. destruct (open_store_ok p He Hio) as (st & Hopen & Hst).
  assert (expected (Some (Opens st))) as He' by (rewrite Hst; by destruct (p_disk p) as [[]|]).
  destruct (create_schedule_ok st (p_sched p) He') as (st1 & Hcreate & Hst1).
  destruct (reset_changed_ok st1 (p_sched p)) as (st2 & Hreset & Hst2).
  rewrite (ebind_Ok _ _ _ _ _ Hopen), (ebind_Ok _ _ _ _ _ Hcreate), (ebind_Ok _ _ _ _ _ Hreset).
  assert (match st_entries st2 with Absent => carried (p_disk p) = [] | Value d => d = carried (p_disk p) | Unreadable _ => False end) as Hc.
  { clear Hopen Hcreate Hreset. destruct (p_disk p) as [[e|[[|e|d] v tz u]]|]; simpl in *; subst st; simpl in *;
      try (subst st1 st2; simpl; by repeat case_bool_decide).
    destruct v as [v|]; simpl in *; [|by subst st1 st2].
    destruct tz as [tz|]; simpl in *; [|by subst st1 st2].
    destruct u as [u|]; simpl in *; [|by subst st1 st2].
    subst st1 st2. simpl. repeat case_bool_decide; simpl; naive_solver. }
  unfold setdefault_entries, etry, get_schedule, ebind, eget. simpl.
  destruct st2 as [[|e|d] v tz u]; simpl in *; [|done|].
  - eexists. split; [reflexivity|]. simpl. by rewrite Hc.
  - eexists. split; [reflexivity|]. simpl. by rewrite Hc.
Qed.

Lemma on_schedule_ok {B} (c : eff (@scheduler sched A) B) d st i s v tz u s' r :
  st = Store (Value d) v tz u → c (set_data d s) = (s', r) →
  ∀ dk, ∃ dk', on_schedule c (PState dk (Some st) i s) = (PState dk' (Some (Store (Value (s_data s')) v tz u)) i s', r).
Proof using Type.
  clear dependent os_remove iter_set entry_le due run.
  intros -> Hc dk. unfold on_schedule, get_schedule, ebind, eget. simpl. rewrite Hc. eexists. reflexivity.
Qed.

Lemma install_ok s :
  ∃ s' t, install_default_entries time expire cleanup s = (s', Ok ()) ∧
    s_data s' = (if expire && negb (dict_in (s_data s) backend_cleanup)
                 then dict_set (s_data s) backend_cleanup
                        (Entry backend_cleanup (cf_task cleanup) (cf_schedule cleanup) (cf_args cleanup) t (default 0 (cf_count cleanup)))
                 else s_data s).
Proof using Type.
  clear dependent os_remove iter_set entry_le due run.
  unfold install_default_entries, ebind at 1, eget. destruct (expire && _) eqn:E.
  - unfold update_from_dict, ebind at 1. simpl. destruct (make_entry_ok time backend_cleanup cleanup s) as (s1 & t & Hm & Hd & _).
    unfold ebind. rewrite Hm. unfold eret, emodify. eexists _, t. split; [reflexivity|]. simpl. by rewrite Hd.
  - exists s, 0. split; [|done]. unfold update_from_dict, ebind, eret, emodify. simpl. by destruct s.
Qed.

(** What a set-up makes of the entries [d] it took over *)
Definition set_up (d d' : schedules) : Prop :=
  dict_wf d' ∧
  (∀ k c, dict_get beat_schedule k = Some c → ∃ e, dict_get d' k = Some e ∧ merged d k c e) ∧
  (∀ k, dict_get beat_schedule k = None → k ≠ backend_cleanup → dict_get d' k = None) ∧
  (dict_get beat_schedule backend_cleanup = None →
   match dict_get d' backend_cleanup with
   | None => expire = false
   | Some e => expire = true ∧ e_task e = cf_task cleanup ∧ e_total_run_count e = default 0 (cf_count cleanup)
   end).

Context (Hiter : ∀ l, iter_set l ≡ₚ l) (Hschedule : dict_wf beat_schedule).

Lemma elem_of_symdiff a b k : k ∈ symdiff a b ↔ ¬ (k ∈ b ↔ k ∈ a).
Proof using Type. unfold symdiff. rewrite elem_of_app, !list_elem_of_filter. destruct (decide (k ∈ a)), (decide (k ∈ b)); tauto. Qed.

Lemma merge_install_ok d s :
  dict_wf d →
  ∃ s1 s2, merge_config (set_data d s) = (s1, Ok ()) ∧
    install_default_entries time expire cleanup (set_data (s_data s1) s1) = (s2, Ok ()) ∧ set_up d (s_data s2).
Proof using Hiter Hschedule.
  clear dependent os_remove entry_le due run. intros Hwf.
  destruct (merge_inplace_spec time beat_schedule (iter_set (symdiff (dict_keys d) (dict_keys beat_schedule)))
              (iter_set (dict_keys beat_schedule)) (set_data d s)) as (s1 & Hmerge & Hwf1 & Hno & Hyes); [done|by rewrite Hiter| | |].
  { intros k. by rewrite Hiter. }
  { intros k. rewrite Hiter. apply elem_of_symdiff. }
  destruct (install_ok (set_data (s_data s1) s1)) as (s2 & t & Hinst & Hd2). simpl in Hd2.
  exists s1, s2. split; [exact Hmerge|]. split; [done|]. unfold set_up. rewrite Hd2.
  destruct (dict_get beat_schedule backend_cleanup) as [c|] eqn:Eb.
  - destruct (Hyes _ _ Eb) as (e & He & _).
    assert (dict_in (s_data s1) backend_cleanup = true) as -> by (unfold dict_in; by rewrite He).
    rewrite andb_false_r. split_and!; [done|done|by intros; apply Hno|done].
  - pose proof (Hno _ Eb) as Hno'. assert (dict_in (s_data s1) backend_cleanup = false) as -> by (unfold dict_in; by rewrite Hno').
    destruct expire; simpl.
    + split_and!; [by apply dict_set_wf| | |].
      * intros k c Hc. rewrite dict_get_set_ne by congruence. by apply Hyes.
      * intros k Hk Hne. rewrite dict_get_set_ne by congruence. by apply Hno.
      * intros _. by rewrite dict_get_set_eq.
    + split_and!; [done|done|by intros; apply Hno|by rewrite Hno'].
Qed.

(** The database after a set-up under the present settings *)
Definition settled (st : store) (d : schedules) : Prop := st = Store (Value d) (Some version) (Some conf_tz) (Some conf_utc).

(** A set-up depends on the database only through the entries that are carried over. *)
Lemma setup_runs p s1 s2 :
  expected (p_disk p) → p_io p = [] →
  merge_config (set_data (carried (p_disk p)) (p_sched p)) = (s1, Ok ()) →
  install_default_entries time expire cleanup (set_data (s_data s1) s1) = (s2, Ok ()) →
  let st := Store (Value (s_data s2)) (Some version) (Some conf_tz) (Some conf_utc) in
  setup_schedule p = (PState (Some (Opens st)) (Some st) [] s2, Ok ()).
Proof using Hremove.
  intros He Hio Hm Hi. destruct (prepare_ok p He Hio) as (st & Hprep & Hst).
  destruct st as [en v tz u]. simpl in Hst. subst en.
  edestruct (on_schedule_ok merge_config) with (i := @nil (option exn)) as [dk1 H1]; [reflexivity|exact Hm|].
  edestruct (on_schedule_ok (install_default_entries time expire cleanup)) with (i := @nil (option exn)) as [dk2 H2]; [reflexivity|exact Hi|].
  assert (∀ k : M (), (run! open_store in run! _create_schedule in run! reset_changed in run! setdefault_entries in k) p =
            k (PState (Some (Opens (Store (Value (carried (p_disk p))) v tz u))) (Some (Store (Value (carried (p_disk p))) v tz u)) [] (p_sched p))) as Hk.
  { intros k. revert Hprep. unfold ebind. destruct (open_store p) as [? []]; [|done..]. destruct (_create_schedule _) as [? []]; [|done..].
    destruct (reset_changed _) as [? []]; [|done..]. destruct (setdefault_entries _) as [? []]; intros; by simplify_eq. }
  unfold setup_schedule. by rewrite Hk, (ebind_Ok _ _ _ _ _ H1), (ebind_Ok _ _ _ _ _ H2).
Qed.

Lemma setup_ok p :
  expected (p_disk p) → p_io p = [] → dict_wf (carried (p_disk p)) →
  ∃ st d s', setup_schedule p = (PState (Some (Opens st)) (Some st) [] s', Ok ()) ∧ settled st d ∧ set_up (carried (p_disk p)) d.
Proof using Hremove Hiter Hschedule.
  intros He Hio Hwf. destruct (merge_install_ok _ (p_sched p) Hwf) as (s1 & s2 & Hm & Hi & Hup).
  eexists _, _, _. split; [by apply (setup_runs p s1 s2)|]. split; [reflexivity|done].
Qed.

(** The schedule has the configured names. *)
Definition complete (d : schedules) : Prop := dict_wf d ∧ ∀ k, k ∈ dict_keys beat_schedule → k ∈ dict_keys d.

Lemma set_up_complete d d' : set_up d d' → complete d'.
Proof using Type.
  intros (Hwf & Hin & _). split; [done|]. intros k Hk%dict_in_true. unfold dict_in in Hk.
  destruct (dict_get beat_schedule k) as [c|] eqn:Ec; [|done]. destruct (Hin k c Ec) as (e & He & _).
  apply dict_in_true. unfold dict_in. by rewrite He.
Qed.

(** ** The service *)

Lemma keeps_heap_events l : keeps (complete ∘ s_data) (heap_events due time l).
Proof using Type. induction l as [|e l IH]; simpl; unfold entry_is_due, when_; keeps; solve [apply IH|by intros s]. Qed.

Lemma keeps_should_sync : keeps (complete ∘ s_data) (should_sync time sync_every sync_every_tasks).
Proof using Type. unfold should_sync. keeps; by intros s. Qed.

Lemma keeps_do_sync : keeps (complete ∘ s_data) (do_sync run time).
Proof using Type. unfold do_sync. keeps; by intros s. Qed.

Lemma keeps_reserve e : keeps (complete ∘ s_data) (reserve time e).
Proof using Type.
  unfold reserve. keeps; [by intros s|]. intros s [Hwf Hin]. split; simpl; [by apply dict_set_wf|].
  intros k Hk. apply elem_of_dict_keys_set. right. by apply Hin.
Qed.

Lemma keeps_tick : keeps (complete ∘ s_data) (Beat.tick due entry_le run time max_interval sync_every sync_every_tasks).
Proof using Type.
  unfold Beat.tick, populate_heap, producer, apply_entry, apply_async, entry_is_due, when_. keeps;
    solve [apply keeps_reserve|apply keeps_heap_events|apply keeps_should_sync|apply keeps_do_sync|by intros s].
Qed.

Definition running (p : pstate) : Prop := p_io p = [] ∧ ∃ st d, p_store p = Some st ∧ settled st d ∧ complete d.

Lemma keeps_on_schedule {B} (c : eff (@scheduler sched A) B) : keeps (complete ∘ s_data) c → keeps running (on_schedule c).
Proof using Type.
  intros Hc [dk st i s] [Hio (st' & d & Hst & Hset & Hd)]. simpl in *. subst. unfold on_schedule, get_schedule, ebind, eget. rewrite Hset. simpl.
  specialize (Hc (set_data d s) Hd). destruct (c (set_data d s)) as [s' r]. split; [done|]. eexists _, _. split; [reflexivity|]. by split.
Qed.

Lemma keeps_service_loop sleeps : keeps running (service_loop sleeps).
Proof using Type.
  induction sleeps as [|sleep sleeps IH]; simpl; [apply keeps_ret|]. unfold tick, raises.
  keeps; try done; apply keeps_on_schedule; first [apply keeps_tick|apply keeps_should_sync|apply keeps_do_sync].
Qed.

(** However the loop ends, the schedule is on disk when the service has ended. *)
Lemma service_saves sleeps p :
  running p → ∃ st d s r, service_start sleeps p = (PState (Some (Opens st)) (Some st) [] s, r) ∧ settled st d ∧ complete d.
Proof using Type.
  intros Hp. unfold service_start, efinally.
  assert (keeps running (ecatch (service_loop sleeps) (λ e, if bool_decide (e ∈ [KeyboardInterrupt; SystemExit; WorkerShutdown; WorkerTerminate])
    then eret () else eraise e))) as Hk by (keeps; apply keeps_service_loop).
  specialize (Hk p Hp). destruct (ecatch _ _ p) as [[dk st i s] r]. destruct Hk as [Hi (st' & d & Hst & Hset & Hd)]. simpl in *. subst.
  unfold close, sync, ebind, eget. simpl. eexists _, _, _, _. split; [reflexivity|]. by split.
Qed.

(** A database whose schedule cannot be taken over is the same as none.  If the file cannot be opened, its
    entries cannot be read, a field of an older version is missing, or the time zone or the use of UTC
    has changed, setting up succeeds and ends with the database and the scheduler it would end with
    had there been no file. *)
Theorem reset_as_new p :
  expected (p_disk p) → p_io p = [] → carried (p_disk p) = [] →
  ∃ p', setup_schedule p = (p', Ok ()) ∧ setup_schedule (PState None None [] (p_sched p)) = (p', Ok ()).
Proof using Hremove Hiter Hschedule.
  intros He Hio Hc. destruct (merge_install_ok [] (p_sched p)) as (s1 & s2 & Hm & Hi & _); [apply NoDup_nil_2|].
  eexists. split; apply (setup_runs _ s1 s2); try done; by rewrite Hc.
Qed.

(** C25: The runs of configured entries survive a restart of beat.  However often the service ticks and whatever
    ends its loop (a shutdown, an exception of a tick, an interrupted sleep), its entries are on disk
    when it ends; the next start with unchanged time zone and UTC settings, at another time and with
    a new scheduler object, succeeds, and every configured entry has the last run and the run count it
    had at the end, with task, schedule and arguments as configured. *)
Theorem runs_survive_restart p sleeps s0 :
  expected (p_disk p) → p_io p = [] → dict_wf (carried (p_disk p)) →
  ∃ p1 p2 r p3 d2 d3,
    setup_schedule p = (p1, Ok ()) ∧ service_start sleeps p1 = (p2, r) ∧
    setup_schedule (PState (p_disk p2) None [] s0) = (p3, Ok ()) ∧
    get_schedule p2 = (p2, Ok d2) ∧ get_schedule p3 = (p3, Ok d3) ∧
    ∀ k c, dict_get beat_schedule k = Some c →
      ∃ old, dict_get d2 k = Some old ∧
        dict_get d3 k = Some (Entry (e_name old) (cf_task c) (cf_schedule c) (cf_args c) (e_last_run_at old) (e_total_run_count old)).
Proof using Hremove Hiter Hschedule.
  intros He Hio Hwf. destruct (setup_ok p He Hio Hwf) as (st1 & d1 & s1 & H1 & Hset1 & Hup1).
  destruct (service_saves sleeps (PState (Some (Opens st1)) (Some st1) [] s1)) as (st2 & d2 & s2 & r & H2 & Hset2 & Hd2).
  { split; [done|]. eexists _, _. split; [reflexivity|]. split; [done|]. by eapply set_up_complete. }
  assert (carried (Some (Opens st2)) = d2) as Hcar by (rewrite Hset2; simpl; by rewrite bool_decide_eq_true_2 by auto).
  destruct (setup_ok (PState (Some (Opens st2)) None [] s0)) as (st3 & d3 & s3 & H3 & Hset3 & _ & Hin & _);
    cbn [p_disk]; [by rewrite Hset2|done|rewrite Hcar; apply Hd2|].
  eexists _, _, _, _, d2, d3. split; [exact H1|]. split; [exact H2|]. split; [exact H3|].
  split; [unfold get_schedule, ebind, eget; simpl; by rewrite Hset2|]. split; [unfold get_schedule, ebind, eget; simpl; by rewrite Hset3|].
  intros k c Hc. destruct (Hin k c Hc) as (e & He3 & Hm). cbn [p_disk] in Hm. rewrite Hcar in Hm. unfold merged in Hm.
  destruct (dict_get d2 k) as [old|] eqn:Eold; [|].
  - exists old. split; [done|]. by rewrite He3, Hm.
  - apply dict_get_None in Eold. exfalso. apply Eold, Hd2, dict_in_true. unfold dict_in. by rewrite Hc.
Qed.
End Setup.

End Persistent.

(** ** Witnesses *)
Module PersistentExamples.

Definition ex_due (i last t : Z) : bool * option Z :=
  if last + i <=? t then (true, Some i) else (false, Some (last + i - t)).
Definition no_run (l : list (@call_ Z () * outcome ())) (c : @call_ Z ()) : outcome () := Ok ().
(** Each reading of the clock is a second later. *)
Definition ex_time (n : nat) : Z := 100000000 + 1000000 * Z.of_nat n.
Definition ex_cfg : pydict string (@cfg Z ()) := [("add", Cfg "tasks.add" 3000000 () None None)]%string.
Definition ex_cleanup : @cfg Z () := Cfg backend_cleanup 86400000000 () None None.
Definition ex_sched : @scheduler Z () := Scheduler [] None None None 0 false 0 [].
Definition old_entry : @entry Z () := Entry "add" "tasks.old" 5000000 () 42 7.
Definition ex_store (tz : option string) : @store Z () := Store (Value [("add", old_entry)]%string) (Some "5.4") (Some tz) (Some true).
Definition start_with (d : option database) : @pstate Z () := PState d None [] ex_sched.

Abbreviation setup tz := (setup_schedule ex_time (λ _, None) id ex_cfg true ex_cleanup tz true "5.5").
Abbreviation serve := (service_start ex_due Beat.ex_le no_run ex_time 300000000 180000000 None).

Definition runs (x : @pstate Z () * outcome ()) : outcome (list (string * (Z * Z))) :=
  match x with
  | (p, Ok _) => match get_schedule p with
                 | (_, Ok d) => Ok ((λ x, (x.1, (e_last_run_at x.2, e_total_run_count x.2))) <$> d)
                 | (_, Raise e) => Raise e
                 | (_, Diverge) => Diverge
                 end
  | (_, Raise e) => Raise e
  | (_, Diverge) => Diverge
  end.

Lemma reset_as_new_witness :
  ∃ p', setup (Some "UTC"%string) (start_with (Some (Opens (ex_store (Some "Europe/Oslo"))))) = (p', Ok ()) ∧
    setup (Some "UTC"%string) (start_with None) = (p', Ok ()).
Proof.
  apply (reset_as_new ex_time (λ _, None) id ex_cfg true ex_cleanup (Some "UTC"%string) true "5.5");
    [done|done|by apply (bool_decide_unpack _); vm_compute|done|done|done].
Defined.

Lemma runs_survive_restart_witness :
  ∃ p1 p2 r p3 d2 d3,
    setup (Some "UTC"%string) (start_with None) = (p1, Ok ()) ∧ serve [None; None; Some KeyboardInterrupt; None] p1 = (p2, r) ∧
    setup (Some "UTC"%string) (PState (p_disk p2) None [] ex_sched) = (p3, Ok ()) ∧
    get_schedule p2 = (p2, Ok d2) ∧ get_schedule p3 = (p3, Ok d3) ∧
    ∀ k c, dict_get ex_cfg k = Some c →
      ∃ old, dict_get d2 k = Some old ∧
        dict_get d3 k = Some (Entry (e_name old) (cf_task c) (cf_schedule c) (cf_args c) (e_last_run_at old) (e_total_run_count old)).
Proof.
  apply (runs_survive_restart ex_due Beat.ex_le no_run ex_time 300000000 180000000 None (λ _, None) id ex_cfg true ex_cleanup (Some "UTC"%string) true "5.5");
    [done|done|by apply (bool_decide_unpack _); vm_compute|done|done|apply NoDup_nil_2].
Defined.

(** Two runs in four iterations; after the restart the entry goes on from there. *)
Definition served (cleanup : Z) : pstate :=
  let conf := Cfg backend_cleanup cleanup () None None in
  (serve [None; None; None; None] (setup_schedule ex_time (λ _, None) id ex_cfg true conf None true "5.5" (start_with None)).1).1.

Example runs_kept :
  runs (setup None (PState (p_disk (served 86400000000)) None [] ex_sched)) =
    Ok [("add", (115000000, 2)); (backend_cleanup, (101000000, 0))]%string.
Proof. by vm_compute. Qed.

(** The default entry is not configured: the merge removes it and it is installed anew.  Here it ran, and
    the restart forgets that. *)
Example default_entry_forgets :
  runs (served 1000000, Ok ()) = Ok [("add", (118000000, 2)); (backend_cleanup, (123000000, 2))]%string ∧
  runs (setup None (PState (p_disk (served 1000000)) None [] ex_sched)) = Ok [("add", (118000000, 2)); (backend_cleanup, (101000000, 0))]%string.
Proof. by vm_compute. Qed.

(** A database made while no time zone was set is not reset when one is set. *)
Example unset_timezone_kept :
  runs (setup (Some "Europe/London"%string) (start_with (Some (Opens (ex_store None))))) =
    Ok [("add", (42, 7)); (backend_cleanup, (101000000, 0))]%string ∧
  runs (setup (Some "Europe/London"%string) (start_with (Some (Opens (ex_store (Some "UTC"%string)))))) =
    Ok [("add", (100000000, 0)); (backend_cleanup, (101000000, 0))]%string.
Proof. by vm_compute. Qed.

(** A file that can be opened, but whose pages cannot be read: the error is not noticed when the keys are
    asked for, and is not one of those that mean a new database. *)
Example page_error_raised :
  let d := Some (Opens (Store (Unreadable DbmError) (Some "5.4"%string) (Some None) (Some true))) in
  let '(p, r) := setup None (start_with d) in r = Raise DbmError ∧ p_disk p = d.
Proof. by vm_compute. Qed.

End PersistentExamples.
End PersistentSchedule.
