(* ===== verification/MultiParser.v ===== *)
(** The arguments of [celery multi] (celery/apps/multi.py): the parser of options with namespaces
    ([-c:1-3 10]), the nodes and their options made from them, and the command line of a node; with the
    node names of celery/utils/nodenames.py and the formats of celery/utils/text.py.

    Text is ASCII.  The host name, the formats of the process index, [sys.executable] and the creation of
    directories are parameters. *)

From S2P Require Import Prelude.
From S2P Require Import PyStr.
From S2P Require Import PyDict.
Local Open Scope Z_scope.

Module MultiParser.

(** ** Text *)

Definition str_contains (s : string) (c : ascii) : bool := bool_decide (c ∈ to_chars s).
Definition str_split (s : string) (c : ascii) : list string := of_chars <$> split_on c (to_chars s).
Definition str_isdigit (s : string) : bool := match to_chars s with [] => false | l => forallb is_digit l end.
Definition str_int (s : string) : outcome Z := py_int (to_chars s).
Definition str_of (n : Z) : string := of_chars (py_str_nat n).
Definition str_join (sep : string) (l : list string) : string := String.concat sep l.
Definition str_drop (n : nat) (s : string) : string := of_chars (drop n (to_chars s)).
(** An optional text in an f-string *)
Definition fmt (o : option string) : string := default "None"%string o.
(** [x or y] on optional texts *)
Definition truthy (o : option string) : bool := match o with None => false | Some s => negb (bool_decide (s = ""%string)) end.
Definition str_or (x : option string) (y : string) : string := if truthy x then default y x else y.

(** [s.split(c, 1)] or [s.partition(c)]: before and after the first [c] *)
Fixpoint split_first (c : ascii) (l : chars) : option (chars * chars) :=
  match l with
  | [] => None
  | x :: l => if bool_decide (x = c) then Some ([], l)
              else match split_first c l with Some (a, b) => Some (x :: a, b) | None => None end
  end.

(** ** The parser of options *)

Abbreviation opts := (pydict string (option string)).
Abbreviation spaces := (pydict string opts).

Record parser := Parser { options : opts; values : list string; passthrough : string; namespaces : spaces }.

Definition new_parser : parser := Parser [] [] "" [].

(** [namespaces[ns]] of the [defaultdict], and an update of it *)
Definition ns_get (d : spaces) (ns : string) : opts := default [] (dict_get d ns).
Definition ns_update (d : spaces) (ns : string) (o : opts) : spaces := dict_set d ns (dict_update (ns_get d ns) o).

Definition add_option (p : parser) (name : string) (value : option string) (short : bool) : outcome parser :=
  let prefix := (if short then "-" else "--")%string in
  if str_contains name ":" then
    match str_split name ":" with
    | [name; ns] => Ok (Parser (options p) (values p) (passthrough p) (ns_update (namespaces p) ns [(prefix +:+ name, value)]))
    | _ => Raise ValueError
    end
  else Ok (Parser (dict_set (options p) (prefix +:+ name) value) (values p) (passthrough p) (namespaces p)).

Definition process_long_opt (p : parser) (arg : string) : outcome parser :=
  match split_first "=" (to_chars arg) with
  | Some (a, v) => add_option p (of_chars a) (Some (of_chars v)) false
  | None => add_option p arg None false
  end.

Definition process_short_opt (p : parser) (arg : string) (value : option string) : outcome parser :=
  add_option p arg value true.

Definition is_dashed (s : string) : bool := match to_chars s with "-"%char :: _ => true | _ => false end.

Fixpoint parse_args (rargs : list string) (p : parser) : outcome parser :=
  match rargs with
  | [] => Ok p
  | arg :: rest =>
      if bool_decide (arg = "--"%string) then Ok (Parser (options p) (values p) (str_join " " rargs) (namespaces p))
      else match to_chars arg with
           | "-"%char :: [] => Raise IndexError
           | "-"%char :: "-"%char :: name => let! p := process_long_opt p (of_chars name) in parse_args rest p
           | "-"%char :: name =>
               match rest with
               | value :: rest' =>
                   if is_dashed value then let! p := process_short_opt p (of_chars name) None in parse_args rest p
                   else let! p := process_short_opt p (of_chars name) (Some value) in parse_args rest' p
               | [] => process_short_opt p (of_chars name) None
               end
           | _ => parse_args rest (Parser (options p) (values p ++ [arg]) (passthrough p) (namespaces p))
           end
  end.

Definition parse (args : list string) : outcome parser :=
  parse_args (filter (λ a, a ≠ ""%string) args) new_parser.

Definition optmerge (d : spaces) (ns : string) (defaults : opts) : opts := dict_update defaults (ns_get d ns).

(** ** Names and formats *)

Definition NODENAME_DEFAULT : string := "celery".

Definition nodesplit (name : string) : option string * string :=
  match split_first "@" (to_chars name) with
  | Some (a, b) => (Some (of_chars a), of_chars b)
  | None => (None, name)
  end.

(** [simple_format]: [%x] for word characters and [%%]; [keys] gives what is known *)
Fixpoint format_chars (keys : ascii → option string) (l : chars) : outcome chars :=
  match l with
  | [] => Ok []
  | "%"%char :: ((c :: l') as rest) =>
      if bool_decide (c = "%"%char) || is_word c then
        let! v := of_option ValueError (match keys c with Some v => Some v | None => if bool_decide (c = "%"%char) then Some "%"%string else None end) in
        let! r := format_chars keys l' in
        Ok (to_chars v ++ r)
      else let! r := format_chars keys rest in Ok ("%"%char :: r)
  | c :: l => let! r := format_chars keys l in Ok (c :: r)
  end.

Definition simple_format (s : string) (keys : list (ascii * string)) : outcome string :=
  let! l := format_chars (λ c, dict_get keys c) (to_chars s) in Ok (of_chars l).

Section Multi.
Context (gethostname : string).
Context (process_index process_index_with_prefix : string).  (* [_fmt_process_index()] and the one with a dash *)
Context (executable : string).
Context (ensure_dir : string → outcome ()).  (* [os.makedirs] of the directory of a path, if it is not there *)

Definition host_format (s : string) (host name : option string) (extra : list (ascii * string)) : outcome string :=
  let host := str_or host gethostname in
  let '(hname, domain) := match split_first "." (to_chars host) with
                          | Some (a, b) => (of_chars a, of_chars b)
                          | None => (host, ""%string)
                          end in
  simple_format s (dict_update
    [("h"%char, host); ("n"%char, str_or name hname); ("d"%char, domain); ("i"%char, process_index); ("I"%char, process_index_with_prefix)] extra).

Definition node_format (s name : string) (extra : list (ascii * string)) : outcome string :=
  let '(shortname, host) := nodesplit name in
  host_format s (Some host) (Some (str_or shortname NODENAME_DEFAULT)) (("p"%char, name) :: extra).

Definition build_nodename (name prefix : string) (suffix : option string) : outcome (string * string) :=
  if str_contains name "@" then
    let! nodename := host_format name None None [] in
    Ok (default "None"%string (nodesplit nodename).1, nodename)
  else
    let! nodename := host_format (prefix +:+ name +:+ "@" +:+ fmt suffix) None None [] in
    Ok (name, nodename).

(** [build_expander]; [simple_format(None)] is [None] *)
Definition expander (nodename shortname hostname : string) (s : option string) : outcome (option string) :=
  match s with
  | None => Ok None
  | Some s => let! r := node_format s nodename [("N"%char, shortname); ("d"%char, hostname); ("h"%char, nodename); ("i"%char, "%i"%string); ("I"%char, "%I"%string)] in
              Ok (Some r)
  end.

Definition format_opt (opt : string) (value : option string) : string :=
  if negb (truthy value) then opt
  else if str_startswith opt "--" then opt +:+ "=" +:+ default ""%string value
  else opt +:+ " " +:+ default ""%string value.

(** ** A node *)

Record node := Node { n_name : string; n_options : opts; n_argv : list string }.

Definition setdefaultopt (d : opts) (alt : list string) (value : string) : outcome opts :=
  match alt with
  | [] => Ok d
  | opt :: others =>
      if existsb (dict_in d) others then Ok d
      else let d := dict_setdefault d opt (Some value) in
           match mjoin (dict_get d opt) with
           | None => Raise TypeError
           | Some path => let! _ := ensure_dir path in Ok d
           end
  end.

Definition annotate_with_default_opts (name : string) (o : opts) : outcome opts :=
  let o := dict_set o "-n"%string (Some name) in
  let! o := setdefaultopt o ["--pidfile"; "-p"]%string "/var/run/celery/%n.pid" in
  let! o := setdefaultopt o ["--logfile"; "-f"]%string "/var/log/celery/%n%I.log" in
  setdefaultopt o ["--executable"]%string executable.

(** The options that come before the subcommand *)
Definition global_options : list string :=
  ["-A"; "--app"; "-b"; "--broker"; "--result-backend"; "--loader"; "--config"; "--workdir"; "-C"; "--no-color"; "-q"; "--quiet"]%string.

Fixpoint index_of (x : string) (l : list string) : outcome nat :=
  match l with
  | [] => Raise ValueError
  | y :: l => if bool_decide (x = y) then Ok O else let! i := index_of x l in Ok (S i)
  end.

Fixpoint format_all (ex : option string → outcome (option string)) (o : opts) : outcome (list string) :=
  match o with
  | [] => Ok []
  | (opt, value) :: o => let! v := ex value in let! r := format_all ex o in Ok (format_opt opt v :: r)
  end.

(** Each option is inserted at the same place: the last one comes first. *)
Fixpoint insert_globals (ex : option string → outcome (option string)) (i : nat) (cmd : list string) (o : opts) : outcome (list string) :=
  match o with
  | [] => Ok cmd
  | (opt, value) :: o =>
      if bool_decide (opt ∈ global_options)
      then let! v := ex value in insert_globals ex i (take i cmd ++ format_opt opt v :: drop i cmd) o
      else insert_globals ex i cmd o
  end.

Definition prepare_argv (ex : option string → outcome (option string)) (cmd : string) (append : option string) (extra_args : string) (o : opts) : outcome (list string) :=
  let! cmd := ex (Some cmd) in
  let cmd := str_split (default ""%string cmd) " " in
  let! i := index_of "celery" cmd in
  let! cmd := insert_globals ex (S i) cmd o in
  let! rest := format_all ex (filter (λ x, x.1 ∉ global_options) o) in
  let argv := str_join " " cmd :: rest ++ [extra_args] in
  if truthy append then let! a := ex append in Ok (argv ++ [default ""%string a]) else Ok argv.

Definition make_node (name : string) (cmd append : option string) (o : opts) (extra_args : string) : outcome node :=
  let cmd := str_or cmd "-m celery worker --detach" in
  let! o := annotate_with_default_opts name o in
  match split_first "@" (to_chars name) with
  | None => Raise ValueError
  | Some (a, b) =>
      let! argv := prepare_argv (expander name (of_chars a) (of_chars b)) cmd append extra_args o in
      Ok (Node name o argv)
  end.

Definition getopt (n : node) (alt : list string) : outcome (option string) :=
  of_option KeyError (foldr (λ opt r, match dict_get (n_options n) opt with Some v => Some v | None => r end) None alt).

(** ** From options to nodes *)

Fixpoint count_from (i : Z) (n : nat) : list Z := match n with O => [] | S n => i :: count_from (i + 1) n end.
(** [range(a, b + 1)] *)
Definition py_range (a b : Z) : list Z := count_from a (Z.to_nat (b + 1 - a)).

Definition _get_ranges (names : list string) : outcome (list string) :=
  let! n := str_int (default ""%string (head names)) in Ok (str_of <$> py_range 1 n).

Definition update_ns_opt (names : list string) (d : spaces) (ns_name : string) : outcome spaces :=
  if str_isdigit ns_name then
    let! n := str_int ns_name in
    if n - 1 <? 0 then Raise KeyError
    else match names !! Z.to_nat (n - 1) with
         | None => Raise KeyError
         | Some name => Ok (ns_update d name (ns_get d ns_name))
         end
  else Ok d.

(** The loop runs over the namespaces there are at the start; their options are the current ones, as the
    dicts are shared. *)
Definition _update_ns_opts (d : spaces) (names : list string) : outcome spaces :=
  foldM (update_ns_opt names) d (dict_keys d).

Definition parse_space (ranges : bool) (space : string) : outcome (list string) :=
  if ranges && str_contains space "-" then
    match str_split space "-" with
    | [start; stop] => let! a := str_int start in let! b := str_int stop in Ok (str_of <$> py_range a b)
    | _ => Raise ValueError
    end
  else Ok [space].

Fixpoint parse_spaces (ranges : bool) (l : list string) : outcome (list string) :=
  match l with
  | [] => Ok []
  | s :: l => let! a := parse_space ranges s in let! r := parse_spaces ranges l in Ok (a ++ r)
  end.

Definition _parse_ns_range (ns : string) (ranges : bool) : outcome (list string) :=
  parse_spaces ranges (str_split ns ",").

Definition update_ns_range (ranges : bool) (d : spaces) (ns_name : string) : outcome spaces :=
  if str_contains ns_name "," || (ranges && str_contains ns_name "-") then
    let! subs := _parse_ns_range ns_name ranges in
    Ok (dict_del (foldl (λ d sub, ns_update d sub (ns_get d ns_name)) d subs) ns_name)
  else Ok d.

Definition _update_ns_ranges (d : spaces) (ranges : bool) : outcome spaces :=
  foldM (update_ns_range ranges) d (dict_keys d).

(** [_node_from_options]: the namespace of the node, made if there is none, and the node *)
Definition _node_from_options (d : spaces) (name prefix : string) (suffix cmd append : option string) (o : opts) (passthrough : string)
    : outcome (spaces * node) :=
  let! (namespace, nodename) := build_nodename name prefix suffix in
  let namespace := if dict_in d nodename then nodename else namespace in
  let! n := make_node nodename cmd append (optmerge d namespace o) passthrough in
  Ok (dict_setdefault d namespace [], n).

Fixpoint nodes_from_options (d : spaces) (names : list string) (prefix : string) (suffix cmd append : option string) (o : opts) (passthrough : string)
    : outcome (list node) :=
  match names with
  | [] => Ok []
  | name :: names =>
      let! (d, n) := _node_from_options d name prefix suffix cmd append o passthrough in
      let! r := nodes_from_options d names prefix suffix cmd append o passthrough in
      Ok (n :: r)
  end.

(** [d.pop(k, default)] *)
Definition pop (d : opts) (k : string) (v : option string) : option string * opts := (default v (dict_get d k), dict_del d k).

(** The namespaces for the given names: indexes and ranges are mapped to the names. *)
Definition resolve_namespaces (d : spaces) (names : list string) (ranges : bool) : outcome spaces :=
  if ranges then let! d := _update_ns_opts d names in _update_ns_ranges d ranges
  else let! d := _update_ns_ranges d ranges in _update_ns_opts d names.

(** The names of the nodes, and whether they are counted: a single argument may be a number. *)
Definition node_names (values : list string) : outcome (list string * bool) :=
  match values with
  | [_] => match _get_ranges values with
           | Ok names => Ok (names, true)
           | Raise ValueError => Ok (values, false)
           | Raise e => Raise e
           | Diverge => Diverge
           end
  | _ => Ok (values, false)
  end.

Definition two_quotes : string := of_chars [ascii_of_nat 34; ascii_of_nat 34].

(** [MultiParser.parse], for the attributes that [celery multi] gives to the parser: [cmd] and empty texts *)
Definition multi_parse (cmd : option string) (p : parser) : outcome (list node) :=
  let o := options p in
  let '(cmd, o) := pop o "--cmd" cmd in
  let '(append, o) := pop o "--append" (Some ""%string) in
  let '(n, o) := pop o "-n" (Some gethostname) in
  let '(hostname, o) := pop o "--hostname" n in
  let '(prefix, o) := pop o "--prefix" (Some ""%string) in
  let prefix := str_or prefix "" in
  let '(suffix, o) := pop o "--suffix" (Some ""%string) in
  let suffix := if truthy suffix then suffix else hostname in
  let suffix := if bool_decide (suffix = Some two_quotes ∨ suffix = Some "''"%string) then Some ""%string else suffix in
  let '(range_prefix, o) := pop o "--range-prefix" (Some ""%string) in
  let range_prefix := str_or range_prefix "celery" in
  let! (names, ranges) := node_names (values p) in
  let prefix := if ranges then range_prefix else prefix in
  let! d := resolve_namespaces (namespaces p) names ranges in
  nodes_from_options d names prefix suffix cmd append o (passthrough p).

(** [MultiTool._nodes_from_argv] *)
Definition nodes_from_argv (cmd : option string) (argv : list string) : outcome (parser * list node) :=
  let! p := parse argv in
  let! nodes := multi_parse cmd p in
  Ok (p, nodes).

(** ** Which options reach which node *)

Definition lookup2 (d : spaces) (ns opt : string) : option (option string) := dict_get (ns_get d ns) opt.

Definition spaces_wf (d : spaces) : Prop := dict_wf d ∧ ∀ ns, dict_wf (ns_get d ns).

(** The node that a namespace that is an index stands for *)
Definition target (names : list string) (ns : string) : option string :=
  if str_isdigit ns then match str_int ns with Ok n => names !! Z.to_nat (n - 1) | _ => None end else None.

(** Namespaces that are lists or, when nodes are counted, ranges *)
Definition splits (ranges : bool) (ns : string) : bool := str_contains ns "," || (ranges && str_contains ns "-").

Lemma ns_update_wf d ns o : spaces_wf d → spaces_wf (ns_update d ns o).
Proof using Type.
  intros [Hd Hns]. split; [by apply dict_set_wf|]. intros k. unfold ns_get, ns_update. rewrite dict_get_set.
  case_decide; [|apply Hns]. simpl. apply dict_update_wf, Hns.
Qed.

Lemma ns_get_update_ne d ns o k : k ≠ ns → ns_get (ns_update d ns o) k = ns_get d k.
Proof using Type. intros. unfold ns_get, ns_update. by rewrite dict_get_set_ne by done. Qed.

Lemma lookup2_update d ns o k opt :
  dict_wf o → lookup2 (ns_update d ns o) k opt =
    if decide (k = ns) then match dict_get o opt with Some v => Some v | None => lookup2 d k opt end else lookup2 d k opt.
Proof using Type.
  intros Ho. unfold lookup2. case_decide as Hk; [|by rewrite ns_get_update_ne].
  subst. unfold ns_update at 1, ns_get at 1. rewrite dict_get_set_eq. simpl. by apply dict_get_update.
Qed.

Lemma lookup2_update_mono d ns o k opt :
  dict_wf o → is_Some (lookup2 d k opt) → is_Some (lookup2 (ns_update d ns o) k opt).
Proof using Type. intros Ho H. rewrite lookup2_update by done. case_decide; [|done]. by destruct (dict_get o opt). Qed.

(** *** Indexes *)

Lemma update_ns_opt_spec names d ns d' :
  update_ns_opt names d ns = Ok d' →
  d' = match target names ns with Some m => ns_update d m (ns_get d ns) | None => d end.
Proof using Type.
  unfold update_ns_opt, target. destruct (str_isdigit ns); [|by intros [= ->]].
  destruct (str_int ns) as [n| |]; simpl; [|done..]. destruct (_ <? 0); [done|]. destruct (names !! _); by intros [= ->].
Qed.

Section Indexes.
Context (names : list string).
(** An index does not lead to another index. *)
Context (Hidem : ∀ ns k m, target names ns = Some k → target names k = Some m → m = k).

Lemma ns_opts_sound d keys d' :
  spaces_wf d → foldM (update_ns_opt names) d keys = Ok d' →
  spaces_wf d' ∧ ∀ k o v, lookup2 d' k o = Some v → ∃ ns, (ns = k ∨ target names ns = Some k) ∧ lookup2 d ns o = Some v.
Proof using Hidem.
  intros Hwf Hrun. refine (foldM_invariant (λ d', spaces_wf d' ∧ ∀ k o v, lookup2 d' k o = Some v →
    ∃ ns, (ns = k ∨ target names ns = Some k) ∧ lookup2 d ns o = Some v) _ d keys d' _ _ Hrun); [eauto|].
  clear dependent d'. intros d1 ns d2 _ [Hwf1 IH] ->%update_ns_opt_spec. destruct (target names ns) as [m|] eqn:Et; [|done].
  split; [by apply ns_update_wf|]. intros k o v. rewrite lookup2_update by apply Hwf1. case_decide as Hk; [|apply IH]. subst.
  destruct (dict_get (ns_get d1 ns) o) as [v'|] eqn:Ev; [|apply IH]. intros [= ->].
  destruct (IH ns o v Ev) as (ns' & [->|Ht] & Hv); [by eauto|]. exists ns'. split; [|done]. right.
  by rewrite (Hidem _ _ _ Ht Et).
Qed.

Lemma ns_opts_wf d keys d' : spaces_wf d → foldM (update_ns_opt names) d keys = Ok d' → spaces_wf d'.
Proof using Type.
  intros Hwf. apply (foldM_invariant spaces_wf); [done|]. intros d1 ns d2 _ Hwf1 ->%update_ns_opt_spec.
  destruct (target names ns); [by apply ns_update_wf|done].
Qed.

Lemma ns_opts_mono d keys d' k o :
  spaces_wf d → foldM (update_ns_opt names) d keys = Ok d' → is_Some (lookup2 d k o) → is_Some (lookup2 d' k o).
Proof using Type.
  intros Hwf Hrun Hs. refine (proj2 (foldM_invariant (λ d', spaces_wf d' ∧ is_Some (lookup2 d' k o)) _ d keys d' _ _ Hrun)); [done|].
  clear dependent d'. intros d1 ns d2 _ [Hwf1 IH] ->%update_ns_opt_spec. destruct (target names ns); [|done].
  split; [by apply ns_update_wf|]. apply lookup2_update_mono; [apply Hwf1|done].
Qed.

Lemma ns_opts_complete d keys d' ns k o :
  spaces_wf d → foldM (update_ns_opt names) d keys = Ok d' → ns ∈ keys → target names ns = Some k →
  is_Some (lookup2 d ns o) → is_Some (lookup2 d' k o).
Proof using Type.
  intros Hwf Hrun (l1 & l2 & ->)%list_elem_of_split Ht Hs. rewrite foldM_app in Hrun.
  apply obind_Ok in Hrun as (d1 & H1 & H2). pose proof (ns_opts_mono _ _ _ ns o Hwf H1 Hs) as Hs1.
  pose proof (ns_opts_wf _ _ _ Hwf H1) as Hwf1.
  simpl in H2. apply obind_Ok in H2 as (d2 & ->%update_ns_opt_spec & H2). rewrite Ht in H2.
  eapply ns_opts_mono; [|exact H2|]; [by apply ns_update_wf|]. rewrite lookup2_update by apply Hwf1. rewrite decide_True by done.
  destruct Hs1 as [v Hv]. unfold lookup2 in Hv. by rewrite Hv.
Qed.
End Indexes.

(** *** Lists and ranges *)

Lemma split_on_parts c l p x : p ∈ split_on c l → x ∈ p → x ≠ c ∧ x ∈ l.
Proof using Type.
  clear. revert p. induction l as [|y l IH]; simpl; intros p.
  { rewrite list_elem_of_singleton. intros ->. by intros ?%not_elem_of_nil. }
  case_bool_decide as Hy.
  - intros [->|Hp]%elem_of_cons Hx; [by apply not_elem_of_nil in Hx|]. destruct (IH p Hp Hx). split; [done|by right].
  - destruct (split_on c l) as [|q qs] eqn:E.
    + intros ->%list_elem_of_singleton ->%list_elem_of_singleton. split; [done|by left].
    + intros [->|Hp]%elem_of_cons Hx.
      * apply elem_of_cons in Hx as [->|Hx]; [split; [done|by left]|]. destruct (IH q) as [? ?]; [by left|done|]. split; [done|by right].
      * destruct (IH p) as [? ?]; [by right|done|]. split; [done|by right].
Qed.

Lemma str_split_contains s c p : p ∈ str_split s c → str_contains p c = false.
Proof using Type.
  unfold str_split, str_contains. intros (q & -> & Hq)%list_elem_of_fmap. apply bool_decide_eq_false. rewrite to_of_chars.
  intros Hc. by destruct (split_on_parts _ _ _ _ Hq Hc).
Qed.

Lemma str_split_chars s c p x : p ∈ str_split s c → x ∈ to_chars p → x ∈ to_chars s.
Proof using Type.
  unfold str_split. intros (q & -> & Hq)%list_elem_of_fmap. rewrite to_of_chars. intros Hx. by destruct (split_on_parts _ _ _ _ Hq Hx).
Qed.

Lemma digits_are_digits fuel n acc : Forall (λ c, is_digit c = true) acc → Forall (λ c, is_digit c = true) (digits_fuel fuel n acc).
Proof using Type.
  clear. revert n acc. induction fuel as [|fuel IH]; intros n acc Hacc; simpl; [done|].
  assert (is_digit (ascii_of_N (Z.to_N (48 + n mod 10))) = true) by (apply is_digit_digit; apply Z.mod_pos_bound; lia).
  destruct (n <? 10); [by constructor|]. apply IH. by constructor.
Qed.

Lemma str_of_contains n c : is_digit c = false → str_contains (str_of n) c = false.
Proof using Type.
  intros Hc. unfold str_contains, str_of. apply bool_decide_eq_false. rewrite to_of_chars. intros Hin.
  pose proof (digits_are_digits (S (Z.to_nat n)) n [] (Forall_nil_2 _)) as HF. rewrite Forall_forall in HF.
  specialize (HF c Hin). simpl in HF. congruence.
Qed.

Lemma parse_spaces_spec ranges l r sub :
  parse_spaces ranges l = Ok r → sub ∈ r →
  ∃ space, space ∈ l ∧ ((sub = space ∧ ranges && str_contains space "-" = false) ∨ ∃ n, sub = str_of n).
Proof using Type.
  clear. revert r. induction l as [|s l IH]; simpl; intros r; [by intros [= <-] ?%not_elem_of_nil|].
  intros (a & Ha & (r' & Hr' & [= <-])%obind_Ok)%obind_Ok [Hin|Hin]%elem_of_app.
  - exists s. split; [by left|]. unfold parse_space in Ha. destruct (ranges && _) eqn:E.
    + destruct (str_split s "-") as [|x [|y [|]]]; try done. apply obind_Ok in Ha as (n & _ & (m & _ & [= <-])%obind_Ok).
      apply list_elem_of_fmap in Hin as (i & -> & _). eauto.
    + injection Ha as <-. apply list_elem_of_singleton in Hin. eauto.
  - destruct (IH r' Hr' Hin) as (sp & ? & ?). exists sp. split; [by right|done].
Qed.

Lemma subs_do_not_split ranges ns subs sub : _parse_ns_range ns ranges = Ok subs → sub ∈ subs → splits ranges sub = false.
Proof using Type.
  intros Hsubs Hin. destruct (parse_spaces_spec _ _ _ _ Hsubs Hin) as (sp & Hsp & [[-> Hr]|[n ->]]); unfold splits.
  - by rewrite (str_split_contains _ _ _ Hsp), Hr.
  - by rewrite !str_of_contains, andb_false_r.
Qed.

(** Whether [k] is a member of the list [ns] *)
Definition member (ranges : bool) (ns k : string) : bool :=
  splits ranges ns && match _parse_ns_range ns ranges with Ok subs => bool_decide (k ∈ subs) | _ => false end.

Lemma member_splits ranges ns k : member ranges ns k = true → splits ranges ns = true ∧ splits ranges k = false.
Proof using Type.
  unfold member. intros [Hs Hm]%andb_prop. split; [done|]. destruct (_parse_ns_range ns ranges) eqn:E; [|done..].
  apply bool_decide_eq_true in Hm. by eapply subs_do_not_split.
Qed.

Lemma update_subs_spec d subs ns k o :
  spaces_wf d → ns ∉ subs →
  let d' := foldl (λ d sub, ns_update d sub (ns_get d ns)) d subs in
  spaces_wf d' ∧ ns_get d' ns = ns_get d ns ∧
  lookup2 d' k o = if decide (k ∈ subs) then match lookup2 d ns o with Some v => Some v | None => lookup2 d k o end else lookup2 d k o.
Proof using Type.
  clear. revert d. induction subs as [|s subs IH]; intros d Hwf Hns; cbn [foldl].
  { cbn zeta. split_and!; [done|done|]. by destruct (decide (k ∈ [])) as [?%not_elem_of_nil|]. }
  apply not_elem_of_cons in Hns as [Hne Hns]. cbn zeta in *. destruct (IH (ns_update d s (ns_get d ns))) as (Hwf' & Hget & Hl); [by apply ns_update_wf|done|].
  rewrite ns_get_update_ne in Hget by done. split; [done|]. split; [done|]. rewrite Hl.
  assert (lookup2 (ns_update d s (ns_get d ns)) ns o = lookup2 d ns o) as -> by (unfold lookup2; by rewrite ns_get_update_ne).
  rewrite lookup2_update by apply Hwf. change (dict_get (ns_get d ns) o) with (lookup2 d ns o).
  clear. destruct (lookup2 d ns o); repeat case_decide; try done; set_solver.
Qed.

Section Ranges.
Context (ranges : bool).

Lemma lookup2_del d ns k o : dict_wf d → lookup2 (dict_del d ns) k o = if decide (k = ns) then None else lookup2 d k o.
Proof using Type.
  intros Hwf. unfold lookup2, ns_get. case_decide as E; [subst; by rewrite dict_get_del_eq|by rewrite dict_get_del_ne by done].
Qed.

(** One list: its members get its options and it is gone. *)
Lemma update_ns_range_spec d ns d' :
  spaces_wf d → update_ns_range ranges d ns = Ok d' →
  spaces_wf d' ∧ ∀ k o, lookup2 d' k o =
    if decide (k = ns ∧ splits ranges ns = true) then None
    else if member ranges ns k then match lookup2 d ns o with Some v => Some v | None => lookup2 d k o end
    else lookup2 d k o.
Proof using Type.
  intros Hwf. unfold update_ns_range. fold (splits ranges ns). unfold member. destruct (splits ranges ns) eqn:Es.
  - intros (subs & Hsubs & [= <-])%obind_Ok. rewrite Hsubs.
    assert (ns ∉ subs) as Hns by (intros Hin; pose proof (subs_do_not_split _ _ _ _ Hsubs Hin); congruence).
    pose proof (λ k o, update_subs_spec d subs ns k o Hwf Hns) as Hs. cbn zeta in Hs.
    destruct (Hs ns ""%string) as ([Hwf1 Hwf2] & _ & _). split.
    + split; [by apply dict_del_wf|]. intros k. unfold ns_get. destruct (decide (k = ns)) as [->|Hk].
      * rewrite dict_get_del_eq by done. apply NoDup_nil_2.
      * rewrite dict_get_del_ne by done. apply Hwf2.
    + intros k o. rewrite lookup2_del by done. destruct (Hs k o) as (_ & _ & ->). simpl.
      destruct (decide (k = ns)) as [->|Hk]; [by rewrite decide_True|]. rewrite (decide_False (P := k = ns ∧ true = true)) by (by intros [? _]).
      destruct (decide (k ∈ subs)); [by rewrite bool_decide_eq_true_2|by rewrite bool_decide_eq_false_2].
  - intros [= <-]. split; [done|]. intros k o. by rewrite decide_False by (intros [_ ?]; done).
Qed.

Lemma ns_ranges_sound d keys d' :
  spaces_wf d → foldM (update_ns_range ranges) d keys = Ok d' →
  spaces_wf d' ∧ ∀ k o v, lookup2 d' k o = Some v → ∃ ns, (ns = k ∨ member ranges ns k = true) ∧ lookup2 d ns o = Some v.
Proof using Type.
  intros Hwf Hrun. refine (foldM_invariant (λ d', spaces_wf d' ∧ ∀ k o v, lookup2 d' k o = Some v →
    ∃ ns, (ns = k ∨ member ranges ns k = true) ∧ lookup2 d ns o = Some v) _ d keys d' _ _ Hrun); [eauto|].
  clear dependent d'. intros d1 ns d2 _ [Hwf1 IH] Hstep. destruct (update_ns_range_spec _ _ _ Hwf1 Hstep) as [Hwf2 Hl].
  split; [done|]. intros k o v. rewrite Hl. destruct (decide (k = ns ∧ splits ranges ns = true)); [done|]. destruct (member ranges ns k) eqn:Em; [|apply IH].
  destruct (lookup2 d1 ns o) as [v'|] eqn:Ev; [|apply IH]. intros [= ->]. destruct (IH _ _ _ Ev) as (ns' & [->|Hm] & Hv); [by eauto|].
  apply member_splits in Hm as [_ Hm], Em as [Em _]. congruence.
Qed.

Lemma ns_ranges_mono d keys d' k o :
  spaces_wf d → foldM (update_ns_range ranges) d keys = Ok d' → k ∉ keys ∨ splits ranges k = false →
  is_Some (lookup2 d k o) → is_Some (lookup2 d' k o).
Proof using Type.
  intros Hwf Hrun Hk Hs. refine (proj2 (foldM_invariant (λ d', spaces_wf d' ∧ is_Some (lookup2 d' k o)) _ d keys d' _ _ Hrun)); [done|].
  clear dependent d'. intros d1 ns d2 Hin [Hwf1 IH] Hstep. destruct (update_ns_range_spec _ _ _ Hwf1 Hstep) as [Hwf2 Hl].
  split; [done|]. rewrite Hl. destruct (decide (k = ns ∧ splits ranges ns = true)) as [[-> Hd]|Hd]; [destruct Hk; congruence|].
  destruct (member ranges ns k); [|done]. by destruct (lookup2 d1 ns o).
Qed.

Lemma ns_ranges_complete d keys d' ns k o :
  spaces_wf d → foldM (update_ns_range ranges) d keys = Ok d' → NoDup keys → ns ∈ keys → member ranges ns k = true →
  is_Some (lookup2 d ns o) → is_Some (lookup2 d' k o).
Proof using Type.
  intros Hwf Hrun Hnd (l1 & l2 & ->)%list_elem_of_split Hm Hs. rewrite foldM_app in Hrun.
  apply obind_Ok in Hrun as (d1 & H1 & H2). apply NoDup_app in Hnd as (_ & Hnd & _).
  assert (is_Some (lookup2 d1 ns o)) as Hs1.
  { eapply ns_ranges_mono; [done|exact H1| |done]. left. intros Hin. by eapply (Hnd ns); [|left]. }
  destruct (ns_ranges_sound _ _ _ Hwf H1) as [Hwf1 _].
  simpl in H2. apply obind_Ok in H2 as (d2 & Hstep & H2). destruct (update_ns_range_spec _ _ _ Hwf1 Hstep) as [Hwf2 Hl].
  destruct (member_splits _ _ _ Hm) as [Hsp Hsk]. eapply ns_ranges_mono; [done|exact H2|by right|].
  rewrite Hl, (decide_False (P := k = ns ∧ splits ranges ns = true)), Hm by (intros [-> ?]; congruence). destruct Hs1 as [v ->]. done.
Qed.
End Ranges.

(** *** Both together *)

(** A namespace stands for a node: by its name, its index, as the member of a list, or as a member given by
    its index *)
Definition addresses (names : list string) (ranges : bool) (ns name : string) : Prop :=
  ∃ mid, if ranges then (ns = mid ∨ target names ns = Some mid) ∧ (mid = name ∨ member ranges mid name = true)
         else (ns = mid ∨ member ranges ns mid = true) ∧ (mid = name ∨ target names mid = Some name).

Lemma lookup2_key d ns o : is_Some (lookup2 d ns o) → ns ∈ dict_keys d.
Proof using Type.
  unfold lookup2, ns_get. intros [v Hv]. apply dict_in_true. unfold dict_in. by destruct (dict_get d ns).
Qed.

Lemma target_not_split names ranges ns k : target names ns = Some k → splits ranges ns = false.
Proof using Type.
  unfold target, splits, str_isdigit, str_contains. destruct (to_chars ns) as [|c l] eqn:E; [done|].
  destruct (forallb is_digit (c :: l)) eqn:Ef; [|done]. intros _. rewrite forallb_forall in Ef.
  rewrite !bool_decide_eq_false_2, andb_false_r; [done|..]; intros Hin%list_elem_of_In%Ef; done.
Qed.

Section Resolve.
Context (names : list string) (ranges : bool) (d d' : spaces).
Context (Hidem : ∀ ns k m, target names ns = Some k → target names k = Some m → m = k).
Context (Hwf : spaces_wf d) (Hres : resolve_namespaces d names ranges = Ok d').

Lemma resolve_sound k o v : lookup2 d' k o = Some v → ∃ ns, addresses names ranges ns k ∧ lookup2 d ns o = Some v.
Proof using Hidem Hwf Hres.
  revert Hres. unfold resolve_namespaces, addresses. destruct ranges; intros (d1 & H1 & H2)%obind_Ok Hv.
  - destruct (ns_opts_sound names Hidem _ _ _ Hwf H1) as [Hwf1 Hs1]. destruct (ns_ranges_sound _ _ _ _ Hwf1 H2) as [_ Hs2].
    destruct (Hs2 _ _ _ Hv) as (mid & Hm & Hv1). destruct (Hs1 _ _ _ Hv1) as (ns & Hn & Hv2). exists ns. split; [|done]. by exists mid.
  - destruct (ns_ranges_sound _ _ _ _ Hwf H1) as [Hwf1 Hs1]. destruct (ns_opts_sound names Hidem _ _ _ Hwf1 H2) as [_ Hs2].
    destruct (Hs2 _ _ _ Hv) as (mid & Hm & Hv1). destruct (Hs1 _ _ _ Hv1) as (ns & Hn & Hv2). exists ns. split; [|done]. by exists mid.
Qed.

Lemma resolve_wf : spaces_wf d'.
Proof using Hidem Hwf Hres.
  revert Hres. unfold resolve_namespaces. destruct ranges; intros (d1 & H1 & H2)%obind_Ok.
  - destruct (ns_opts_sound names Hidem _ _ _ Hwf H1) as [Hwf1 _]. by destruct (ns_ranges_sound _ _ _ _ Hwf1 H2).
  - destruct (ns_ranges_sound _ _ _ _ Hwf H1) as [Hwf1 _]. by destruct (ns_opts_sound names Hidem _ _ _ Hwf1 H2).
Qed.

Lemma resolve_complete ns k o :
  splits ranges k = false → addresses names ranges ns k → is_Some (lookup2 d ns o) → is_Some (lookup2 d' k o).
Proof using Hidem Hwf Hres.
  revert Hres. unfold resolve_namespaces, addresses. intros Hr Hk [mid Hmid] Hs. destruct ranges; apply obind_Ok in Hr as (d1 & H1 & H2).
  - destruct (ns_opts_sound names Hidem _ _ _ Hwf H1) as [Hwf1 _]. destruct Hmid as [Hn Hm].
    assert (is_Some (lookup2 d1 mid o)) as Hs1.
    { destruct Hn as [->|Ht]; [eapply ns_opts_mono; [exact Hwf|exact H1|done]|]. eapply ns_opts_complete; [exact Hwf|exact H1|by eapply lookup2_key|done|done]. }
    destruct Hm as [->|Hm]; [eapply ns_ranges_mono; [exact Hwf1|exact H2|by right|done]|].
    eapply ns_ranges_complete; [exact Hwf1|exact H2|apply Hwf1|by eapply lookup2_key|done|done].
  - destruct (ns_ranges_sound _ _ _ _ Hwf H1) as [Hwf1 _]. destruct Hmid as [Hn Hm].
    assert (is_Some (lookup2 d1 mid o)) as Hs1.
    { destruct Hn as [->|Hn]; [|eapply ns_ranges_complete; [exact Hwf|exact H1|apply Hwf|by eapply lookup2_key|done|done]].
      eapply ns_ranges_mono; [exact Hwf|exact H1| |done]. right. destruct Hm as [->|Ht]; [done|by eapply target_not_split]. }
    destruct Hm as [->|Ht]; [eapply ns_opts_mono; [exact Hwf1|exact H2|done]|]. eapply ns_opts_complete; [exact Hwf1|exact H2|by eapply lookup2_key|done|done].
Qed.
End Resolve.

(** *** From namespaces to nodes *)

Lemma count_from_lookup a n i : (i < n)%nat → count_from a n !! i = Some (a + Z.of_nat i).
Proof using Type.
  clear. revert a i. induction n as [|n IH]; intros a i Hi; [lia|]. destruct i as [|i]; simpl; [by rewrite Z.add_0_r|].
  rewrite IH by lia. f_equal. lia.
Qed.
Lemma count_from_length a n : length (count_from a n) = n.
Proof using Type. clear. revert a. induction n as [|n IH]; intros a; simpl; [done|]. by rewrite IH. Qed.

Lemma str_of_isdigit n : 0 <= n → str_isdigit (str_of n) = true ∧ str_int (str_of n) = Ok n.
Proof using Type.
  intros Hn. unfold str_isdigit, str_int, str_of. rewrite to_of_chars. destruct (py_str_nat_digits n Hn) as [Hne HF].
  split; [|by apply py_int_str]. destruct (py_str_nat n) as [|c l]; [done|]. apply forallb_forall. intros x Hx%list_elem_of_In.
  rewrite Forall_forall in HF. by apply HF.
Qed.

(** Counted nodes are their own indexes; names that are not numbers are no indexes. *)
Lemma names_idempotent vals names ranges ns k m :
  node_names vals = Ok (names, ranges) → (ranges = false → Forall (λ n, str_isdigit n = false) names) →
  target names ns = Some k → target names k = Some m → m = k.
Proof using Type.
  intros Hnames Hplain Hk Hm. destruct ranges.
  - assert (∃ n, names = str_of <$> py_range 1 n) as [n ->].
    { revert Hnames. unfold node_names. destruct vals as [|v [|]]; try done. destruct (_get_ranges [v]) as [l|[]|] eqn:E; try done.
      intros [= <-]. unfold _get_ranges in E. apply obind_Ok in E as (n & _ & [= <-]). eauto. }
    unfold target in Hk. destruct (str_isdigit ns); [|done]. destruct (str_int ns) as [i| |]; [|done..].
    rewrite list_lookup_fmap in Hk. destruct (py_range 1 n !! Z.to_nat (i - 1)) as [j|] eqn:Ej; [|done]. simpl in Hk. injection Hk as <-.
    unfold py_range in Ej. pose proof (lookup_lt_Some _ _ _ Ej) as Hlt. rewrite count_from_length in Hlt.
    rewrite count_from_lookup in Ej by done. injection Ej as <-.
    destruct (str_of_isdigit (1 + Z.of_nat (Z.to_nat (i - 1)))) as [Hd Hi]; [lia|]. unfold target in Hm. rewrite Hd, Hi in Hm.
    replace (Z.to_nat (1 + _ - 1)) with (Z.to_nat (i - 1)) in Hm by lia. unfold py_range in Hm.
    rewrite list_lookup_fmap, count_from_lookup in Hm by done. simpl in Hm. by injection Hm as <-.
  - specialize (Hplain eq_refl). unfold target at 1 in Hk. destruct (str_isdigit ns); [|done]. destruct (str_int ns) as [i| |]; [|done..].
    apply list_elem_of_lookup_2 in Hk. rewrite Forall_forall in Hplain. unfold target in Hm. by rewrite (Hplain k Hk) in Hm.
Qed.

Definition plain (s : string) : Prop := str_contains s "@" = false.
Definition plain_keys (d : spaces) : Prop := ∀ k, k ∈ dict_keys d → plain k.

Lemma ns_update_plain d ns o : plain_keys d → plain ns → plain_keys (ns_update d ns o).
Proof using Type. intros Hd Hns k. unfold ns_update. rewrite elem_of_dict_keys_set. intros [->|?]; [done|by apply Hd]. Qed.

Lemma subs_plain ranges ns subs sub : plain ns → _parse_ns_range ns ranges = Ok subs → sub ∈ subs → plain sub.
Proof using Type.
  unfold plain. intros Hns Hsubs Hin. destruct (parse_spaces_spec _ _ _ _ Hsubs Hin) as (sp & Hsp & [[-> _]|[n ->]]); [|by apply str_of_contains].
  unfold str_contains in *. apply bool_decide_eq_false in Hns. apply bool_decide_eq_false. intros Hat. by eapply Hns, str_split_chars.
Qed.

Lemma dict_keys_del_in (d : spaces) ns k : k ∈ dict_keys (dict_del d ns) → k ∈ dict_keys d.
Proof using Type.
  clear. induction d as [|[k' v] d IH]; simpl; [done|]. case_decide; [by right|]. simpl. intros [->|Hk]%elem_of_cons; [by left|right; auto].
Qed.

Lemma resolve_plain d names ranges d' :
  plain_keys d → Forall plain names → resolve_namespaces d names ranges = Ok d' → plain_keys d'.
Proof using Type.
  intros Hd Hnames.
  assert (∀ d keys d', plain_keys d → foldM (update_ns_opt names) d keys = Ok d' → plain_keys d') as HA.
  { intros d1 keys d2 H1. apply (foldM_invariant plain_keys); [done|]. intros d3 ns d4 _ H3 ->%update_ns_opt_spec.
    destruct (target names ns) as [m|] eqn:E; [|done]. apply ns_update_plain; [done|]. rewrite Forall_forall in Hnames. apply Hnames.
    unfold target in E. destruct (str_isdigit ns); [|done]. destruct (str_int ns); [|done..]. by eapply list_elem_of_lookup_2. }
  assert (∀ d keys d', (∀ k, k ∈ keys → plain k) → plain_keys d → foldM (update_ns_range ranges) d keys = Ok d' → plain_keys d') as HB.
  { intros d1 keys d2 Hk H1. apply (foldM_invariant plain_keys); [done|]. intros d3 ns d4 Hin H3. unfold update_ns_range.
    destruct (_ || _); [|by intros [= <-]]. intros (subs & Hsubs & [= <-])%obind_Ok k Hkin.
    assert (plain_keys (foldl (λ d sub, ns_update d sub (ns_get d ns)) d3 subs)) as HP.
    { assert (∀ sub, sub ∈ subs → plain sub) as Hsub by (intros; eapply subs_plain; [by apply Hk|done|done]). clear -H3 Hsub.
      revert d3 H3. induction subs as [|s subs IH]; intros d3 H3; simpl; [done|]. apply IH; [set_solver|]. apply ns_update_plain; [done|set_solver]. }
    by eapply HP, dict_keys_del_in. }
  unfold resolve_namespaces. destruct ranges; intros (d1 & H1 & H2)%obind_Ok.
  - assert (plain_keys d1) by (by eapply HA). eapply HB; [|done|exact H2]. done.
  - assert (plain_keys d1) by (eapply HB; [|done|exact H1]; done). by eapply HA.
Qed.

(** A character that no format can be made of stays. *)
Lemma format_keeps keys l r c : format_chars keys l = Ok r → is_word c = false → c ≠ "%"%char → c ∈ l → c ∈ r.
Proof using Type.
  clear. intros Hf Hw Hp. remember (length l) as n eqn:Hn. revert l r Hf Hn. induction n as [n IH] using lt_wf_ind. intros l r Hf -> Hin.
  destruct l as [|x l]; [by apply not_elem_of_nil in Hin|].
  assert (∀ r', format_chars keys l = Ok r' → c ∈ l → c ∈ r') as IH1 by (intros r' Hr'; apply (IH (length l)); simpl; [lia|done|done]).
  assert (∀ y l' r', l = y :: l' → format_chars keys l' = Ok r' → c ∈ l' → c ∈ r') as IH2.
  { intros y l' r' -> Hr'. apply (IH (length l')); simpl; [lia|done|done]. }
  destruct (decide (x = "%"%char)) as [->|Hx].
  - apply elem_of_cons in Hin as [->|Hin]; [done|]. destruct l as [|y l]; [by apply not_elem_of_nil in Hin|]. cbn [format_chars] in Hf.
    destruct (bool_decide (y = "%"%char) || is_word y) eqn:Ey.
    + apply obind_Ok in Hf as (v & _ & (r' & Hr' & [= <-])%obind_Ok). apply elem_of_app. right. eapply IH2; [done|done|].
      apply elem_of_cons in Hin as [->|Hin]; [|done]. by rewrite Hw, orb_false_r, bool_decide_eq_false_2 in Ey.
    + apply obind_Ok in Hf as (r' & Hr' & [= <-]). right. by apply IH1.
  - assert (format_chars keys (x :: l) = let! r := format_chars keys l in Ok (x :: r)) as Heq.
    { cbn [format_chars]. destruct x as [[] [] [] [] [] [] [] []]; try done; by destruct l. }
    rewrite Heq in Hf. apply obind_Ok in Hf as (r' & Hr' & [= <-]). apply elem_of_cons in Hin as [->|Hin]; [by left|]. right. by apply IH1.
Qed.

Lemma build_nodename_plain name prefix suffix ns nodename :
  plain name → build_nodename name prefix suffix = Ok (ns, nodename) → ns = name ∧ ¬ plain nodename.
Proof using Type.
  clear ensure_dir executable. unfold plain, build_nodename. intros ->. intros (nn & Hf & [= <- <-])%obind_Ok. split; [done|].
  assert (∃ keys, simple_format (prefix +:+ name +:+ "@" +:+ fmt suffix) keys = Ok nn) as [keys Hs].
  { unfold host_format in Hf. destruct (split_first "." _) as [[a b]|]; eauto. }
  unfold simple_format in Hs. apply obind_Ok in Hs as (l & Hs & [= <-]). unfold str_contains. rewrite to_of_chars.
  rewrite bool_decide_eq_false. intros Hn. apply Hn. eapply format_keeps; [exact Hs|done|done|].
  rewrite !to_chars_app. set_solver.
Qed.

(** The options that a node sets itself or that are taken out for all *)
Definition reserved : list string :=
  ["-n"; "--pidfile"; "--logfile"; "--executable"; "--cmd"; "--append"; "--hostname"; "--prefix"; "--suffix"; "--range-prefix"]%string.

Lemma setdefaultopt_get d opt others value d' k : setdefaultopt d (opt :: others) value = Ok d' → k ≠ opt → dict_get d' k = dict_get d k.
Proof using Type.
  unfold setdefaultopt. destruct (existsb _ _); [by intros [= ->]|]. destruct (mjoin _) as [path|]; [|done].
  intros (u & _ & [= <-])%obind_Ok Hk. unfold dict_setdefault. destruct (dict_get d opt); [done|]. by rewrite dict_get_set_ne.
Qed.

Lemma make_node_options name cmd append o extra n k :
  make_node name cmd append o extra = Ok n → k ∉ reserved → dict_get (n_options n) k = dict_get o k.
Proof using Type.
  unfold make_node. intros (o' & Ho & Hn)%obind_Ok Hk. destruct (split_first _ _) as [[a b]|]; [|done].
  apply obind_Ok in Hn as (argv & _ & [= <-]). simpl. unfold annotate_with_default_opts in Ho.
  apply obind_Ok in Ho as (o1 & H1 & (o2 & H2 & H3)%obind_Ok). unfold reserved in Hk.
  rewrite (setdefaultopt_get _ _ _ _ _ _ H3), (setdefaultopt_get _ _ _ _ _ _ H2), (setdefaultopt_get _ _ _ _ _ _ H1) by set_solver.
  apply dict_get_set_ne. set_solver.
Qed.

Lemma ns_get_setdefault (d : spaces) ns k : ns_get (dict_setdefault d ns []) k = ns_get d k.
Proof using Type.
  unfold ns_get, dict_setdefault. destruct (dict_get d ns) eqn:E; [done|]. rewrite dict_get_set. case_decide; [|done]. subst. by rewrite E.
Qed.

Lemma nodes_options d names prefix suffix cmd append o pt nodes :
  plain_keys d → Forall plain names → nodes_from_options d names prefix suffix cmd append o pt = Ok nodes →
  length nodes = length names ∧
  ∀ i name n k, names !! i = Some name → nodes !! i = Some n → k ∉ reserved → dict_get (n_options n) k = dict_get (optmerge d name o) k.
Proof using Type.
  revert d nodes. induction names as [|name names IH]; intros d nodes Hd Hnames; simpl; [by intros [= <-]|].
  apply Forall_cons in Hnames as [Hname Hnames]. unfold _node_from_options.
  intros ([d1 n] & Hn & (r & Hr & [= <-])%obind_Ok)%obind_Ok. apply obind_Ok in Hn as ([ns nodename] & Hb & Hn).
  destruct (build_nodename_plain _ _ _ _ _ Hname Hb) as [-> Hnn].
  assert (dict_in d nodename = false) as Hin.
  { destruct (dict_in d nodename) eqn:E; [|done]. apply dict_in_true, Hd in E. by destruct Hnn. }
  rewrite Hin in Hn. apply obind_Ok in Hn as (n' & Hmk & [= <- <-]).
  destruct (IH (dict_setdefault d name []) r) as [Hlen IHn]; [|done|done|].
  { intros k Hk. unfold dict_setdefault in Hk. destruct (dict_get d name); [by apply Hd|].
    apply elem_of_dict_keys_set in Hk as [->|Hk]; [done|by apply Hd]. }
  split; [by rewrite <- Hlen|]. intros [|i] name' n2 k; simpl.
  - intros [= <-] [= <-]. by apply make_node_options with (1 := Hmk).
  - intros H1 H2 Hk. rewrite (IHn i name' n2 k H1 H2 Hk). unfold optmerge. by rewrite ns_get_setdefault.
Qed.

Lemma add_option_wf p name value short p' : add_option p name value short = Ok p' → spaces_wf (namespaces p) → spaces_wf (namespaces p').
Proof using Type.
  unfold add_option. destruct (str_contains name ":"); [|by intros [= <-]].
  destruct (str_split name ":") as [|a [|b [|]]]; try done. intros [= <-] Hwf. by apply ns_update_wf.
Qed.

Lemma parse_args_wf rargs p p' : parse_args rargs p = Ok p' → spaces_wf (namespaces p) → spaces_wf (namespaces p').
Proof using Type.
  clear. remember (length rargs) as n eqn:Hn. revert rargs p Hn. induction n as [n IH] using lt_wf_ind. intros [|arg rest] p ->; simpl; [by intros [= <-]|].
  case_bool_decide; [by intros [= <-]|].
  assert (∀ p1, parse_args rest p1 = Ok p' → spaces_wf (namespaces p1) → spaces_wf (namespaces p')) as IH1 by (intros p1; apply (IH (length rest)); simpl; [lia|done]).
  assert (∀ v rest' p1, rest = v :: rest' → parse_args rest' p1 = Ok p' → spaces_wf (namespaces p1) → spaces_wf (namespaces p')) as IH2.
  { intros v rest' p1 ->. apply (IH (length rest')); simpl; [lia|done]. }
  assert (∀ a, parse_args rest (Parser (options p) (values p ++ [a]) (passthrough p) (namespaces p)) = Ok p' → spaces_wf (namespaces p) → spaces_wf (namespaces p')) as IHv
    by (intros a Hr Hwf; by eapply IH1).
  assert (∀ name, obind (process_long_opt p name) (parse_args rest) = Ok p' → spaces_wf (namespaces p) → spaces_wf (namespaces p')) as Hlong.
  { intros name (p1 & Hp1 & Hr)%obind_Ok Hwf. apply (IH1 p1 Hr). unfold process_long_opt in Hp1. destruct (split_first _ _) as [[a v]|]; by eapply add_option_wf. }
  assert (∀ name, match rest with
           | value :: rest' => if is_dashed value then obind (process_short_opt p name None) (parse_args rest)
                               else obind (process_short_opt p name (Some value)) (parse_args rest')
           | [] => process_short_opt p name None end = Ok p' → spaces_wf (namespaces p) → spaces_wf (namespaces p')) as Hshort.
  { intros name Hr Hwf. destruct rest as [|v rest']; [by eapply add_option_wf|]. destruct (is_dashed v).
    - apply obind_Ok in Hr as (p1 & Hp1 & Hr). apply (IH1 p1 Hr). by eapply add_option_wf.
    - apply obind_Ok in Hr as (p1 & Hp1 & Hr). eapply (IH2 v rest' p1 eq_refl Hr). by eapply add_option_wf. }
  destruct (to_chars arg) as [|c l]; [apply IHv|].
  destruct (decide (c = "-"%char)) as [->|Hc].
  - destruct l as [|c2 l]; [done|]. destruct (decide (c2 = "-"%char)) as [->|Hc2]; [apply Hlong|].
    intros Hr. apply (Hshort (of_chars (c2 :: l))). revert Hr. by destruct c2 as [[] [] [] [] [] [] [] []].
  - intros Hr. apply (IHv arg). revert Hr. by destruct c as [[] [] [] [] [] [] [] []].
Qed.

Lemma parse_wf args p : parse args = Ok p → spaces_wf (namespaces p).
Proof using Type. intros H. eapply parse_args_wf; [exact H|]. split; [apply NoDup_nil_2|]. intros ns. apply NoDup_nil_2. Qed.

(** C19: The options of [celery multi] reach the nodes they are for.  Each name gives one node, in order.  If no
    name has a host and names that are not counted are not numbers, an option of a node other than those
    a node sets itself has the value of a namespace that stands for the node: by its
    name, its index, or as a member of a list or a range; it is the general value only if no such
    namespace gives the option.  And an option given for the node or for all is there. *)
Theorem options_reach_nodes args cmd p nodes names ranges :
  parse args = Ok p → node_names (values p) = Ok (names, ranges) → multi_parse cmd p = Ok nodes →
  plain_keys (namespaces p) →
  Forall (λ n, plain n ∧ splits ranges n = false) names → (ranges = false → Forall (λ n, str_isdigit n = false) names) →
  length nodes = length names ∧
  ∀ i name n opt, names !! i = Some name → nodes !! i = Some n → opt ∉ reserved →
    (∀ v, dict_get (n_options n) opt = Some v →
       (∃ ns, addresses names ranges ns name ∧ lookup2 (namespaces p) ns opt = Some v) ∨
       (dict_get (options p) opt = Some v ∧ ∀ ns, addresses names ranges ns name → lookup2 (namespaces p) ns opt = None)) ∧
    ((∃ ns, addresses names ranges ns name ∧ is_Some (lookup2 (namespaces p) ns opt)) ∨ is_Some (dict_get (options p) opt) →
       is_Some (dict_get (n_options n) opt)).
Proof using Type.
  intros Hwf%parse_wf Hnames Hparse Hplain Hn Hdig. unfold multi_parse, pop in Hparse. rewrite Hnames in Hparse. simpl in Hparse.
  apply obind_Ok in Hparse as (d & Hres & Hnodes). 
  assert (Forall plain names) as Hpn by (eapply Forall_impl; [exact Hn|]; by intros ? [? _]).
  assert (plain_keys d) as Hpd by (by eapply resolve_plain).
  destruct (nodes_options _ _ _ _ _ _ _ _ _ Hpd Hpn Hnodes) as [Hlen Hopts]. split; [done|]. clear Hnodes.
  intros i name n opt Hi Hni Hopt. rewrite (Hopts _ _ _ _ Hi Hni Hopt). unfold optmerge.
  assert (∀ ns k m, target names ns = Some k → target names k = Some m → m = k) as Hid by (intros ns k m; by eapply names_idempotent).
  assert (spaces_wf d) as [_ Hwfd] by (by eapply resolve_wf).
  rewrite dict_get_update by done. change (dict_get (ns_get d name) opt) with (lookup2 d name opt). unfold reserved in Hopt.
  rewrite !dict_get_del_ne by set_solver.
  assert (splits ranges name = false) as Hsp by (apply list_elem_of_lookup_2 in Hi; rewrite Forall_forall in Hn; by destruct (Hn _ Hi)).
  pose proof (resolve_complete names ranges _ _ Hid Hwf Hres) as Hcomp.
  destruct (lookup2 d name opt) as [v|] eqn:El.
  - split; [|done]. intros ? [= <-]. left. by eapply resolve_sound.
  - split.
    + intros v Hv. right. split; [done|]. intros ns Ha. destruct (lookup2 (namespaces p) ns opt) eqn:En; [|done].
      destruct (Hcomp ns name opt Hsp Ha) as [w Hw]; [by rewrite En|]. congruence.
    + intros [(ns & Ha & Hs)|Hs]; [|done]. destruct (Hcomp ns name opt Hsp Ha Hs). congruence.
Qed.

End Multi.

Module MultiExamples.
Abbreviation nodes := (nodes_from_argv "myhost" "0" "" "/usr/bin/python" (λ _, Ok ()) None).
Definition args (s : string) : list string := str_split s " ".
Definition only (l : list string) (x : outcome (parser * list node)) : outcome (list (string * opts)) :=
  let! (_, ns) := x in Ok ((λ n, (n_name n, filter (λ o, o.1 ∈ l) (n_options n))) <$> ns).

(** Examples of the documentation of [celery multi] *)
Example one_of_three : only ["-c"]%string (nodes (args "3 -c 3 -c:1 10")) =
  Ok [("celery1@myhost", [("-c", Some "10")]); ("celery2@myhost", [("-c", Some "3")]); ("celery3@myhost", [("-c", Some "3")])]%string.
Proof. by vm_compute. Qed.

Example ranges_and_lists :
  only ["-Q"; "-L"]%string (nodes (args "7 -l INFO -Q:1-3 images,video -Q:4,5 data -Q default -L:4,5 DEBUG")) =
  Ok [("celery1@myhost", [("-Q", Some "images,video")]); ("celery2@myhost", [("-Q", Some "images,video")]);
      ("celery3@myhost", [("-Q", Some "images,video")]); ("celery4@myhost", [("-Q", Some "data"); ("-L", Some "DEBUG")]);
      ("celery5@myhost", [("-Q", Some "data"); ("-L", Some "DEBUG")]); ("celery6@myhost", [("-Q", Some "default")]);
      ("celery7@myhost", [("-Q", Some "default")])]%string.
Proof. by vm_compute. Qed.

Example named_list : only ["-c"]%string (nodes (args "foo bar baz xuzzy -c 3 -c:foo,bar,3 10")) =
  Ok [("foo@myhost", [("-c", Some "10")]); ("bar@myhost", [("-c", Some "10")]); ("baz@myhost", [("-c", Some "10")]);
      ("xuzzy@myhost", [("-c", Some "3")])]%string.
Proof. by vm_compute. Qed.

Example command_line : n_argv <$> (match nodes (args "foo -A proj -c 2 --broker=amqp://h -- -x y") with Ok (_, l) => l | _ => [] end) =
  [["-m celery --broker=amqp://h -A proj worker --detach"; "-c 2"; "-n foo@myhost"; "--pidfile=/var/run/celery/foo.pid";
    "--logfile=/var/log/celery/foo%I.log"; "--executable=/usr/bin/python"; "-- -x y"]]%string.
Proof. by vm_compute. Qed.

(** An index is replaced by the name as it was given, but the options are looked up under the expanded name:
    with [%h] in the names an option for an index is lost. *)
Example index_lost : only ["-c"]%string (nodes (args "foo@%h bar@%h -c 3 -c:1 10")) =
  Ok [("foo@myhost", [("-c", Some "3")]); ("bar@myhost", [("-c", Some "3")])]%string ∧
  only ["-c"]%string (nodes (args "foo@myhost bar@myhost -c 3 -c:1 10")) =
  Ok [("foo@myhost", [("-c", Some "10")]); ("bar@myhost", [("-c", Some "3")])]%string.
Proof. by vm_compute. Qed.

(** The pid and log files are not in the current directory by default. *)
Example default_files :
  (λ n, (getopt n ["--pidfile"; "-p"]%string, getopt n ["--logfile"; "-f"]%string)) <$>
    (match nodes (args "Leslie -E") with Ok (_, l) => l | _ => [] end) =
  [(Ok (Some "/var/run/celery/%n.pid"), Ok (Some "/var/log/celery/%n%I.log"))]%string.
Proof. by vm_compute. Qed.

Definition wit_args : list string := args "foo bar -c 3 -c:foo,2 10".
Definition wit_parser : parser := Parser [("-c", Some "3")]%string ["foo"; "bar"]%string "" [("foo,2", [("-c", Some "10")])]%string.
Definition wit_nodes : list node := match nodes wit_args with Ok (_, l) => l | _ => [] end.

Lemma options_reach_nodes_witness :
  length wit_nodes = 2%nat ∧
  ∀ i name n opt, ["foo"; "bar"]%string !! i = Some name → wit_nodes !! i = Some n → opt ∉ reserved →
    (∀ v, dict_get (n_options n) opt = Some v →
       (∃ ns, addresses ["foo"; "bar"]%string false ns name ∧ lookup2 (namespaces wit_parser) ns opt = Some v) ∨
       (dict_get (options wit_parser) opt = Some v ∧
        ∀ ns, addresses ["foo"; "bar"]%string false ns name → lookup2 (namespaces wit_parser) ns opt = None)) ∧
    ((∃ ns, addresses ["foo"; "bar"]%string false ns name ∧ is_Some (lookup2 (namespaces wit_parser) ns opt)) ∨
       is_Some (dict_get (options wit_parser) opt) → is_Some (dict_get (n_options n) opt)).
Proof.
  apply (options_reach_nodes "myhost" "0" "" "/usr/bin/python" (λ _, Ok ()) wit_args None wit_parser wit_nodes ["foo"; "bar"]%string false).
  - by vm_compute.
  - by vm_compute.
  - by vm_compute.
  - intros k Hk. simpl in Hk. apply list_elem_of_singleton in Hk as ->. by vm_compute.
  - repeat constructor.
  - intros _. repeat constructor.
Defined.

End MultiExamples.
End MultiParser.
