(* ===== verification/MultiCluster.v ===== *)
(** The cluster of [celery multi] (celery/apps/multi.py): signals to the nodes, starting, stopping with and
    without waiting, and restarting; and the commands of celery/bin/multi.py that use it.

    What the program sees of the processes comes from an environment that may depend on everything that
    happened before: the pid in a node's pid file, the result of a signal, the exit code of a process that
    was started.  The state is the log of these events and of the callbacks. *)

From S2P Require Import Prelude.
From S2P Require Import PyStr.
From S2P Require Import Effect.
From S2P Require Import MultiParser.
Local Open Scope Z_scope.
Local Open Scope eff_scope.

Module MultiCluster.

(** The results of [os.kill] *)
Inductive kill_result := Delivered | ESRCH | EPERM | OtherErrno.

Inductive callback := OnSpawn | OnSignalled (sig : Z) | OnFailure (retcode : Z) | OnNodeStart | OnNodeStatus (retcode : Z) | OnNodeRestart
  | OnNodeDown | OnNodeSignal | OnNodeSignalDead | OnStoppingPreamble | OnSendSignal | OnStillWaitingFor | OnStillWaitingProgress
  | OnStillWaitingEnd | OnNodeShutdownOk.

Section Cluster.
Context {node : Type} `{!EqDecision node}.

Inductive event :=
| ReadPid (n : node) (pid : option Z)
| Kill (n : node) (sig : Z) (r : kill_result)
| Spawned (n : node) (retcode : Z)
| Slept
| Called (c : callback).

Abbreviation log := (list event).
Abbreviation M := (eff log).

(** [Pidfile(...).read_pid()], whose [ValueError] is caught; [os.kill]; and the exit code of the process *)
Context (read_pid : log → node → outcome (option Z)) (os_kill : log → node → Z → kill_result) (spawn : log → node → outcome Z).
(** The order in which a set of nodes is iterated *)
Context (iter_set : list node → list node).

Definition emit (e : event) : M () := emodify (λ l, l ++ [e]).
Definition call (c : callback) : M () := emit (Called c).

(** ** A node *)

Definition pid (n : node) : M (option Z) :=
  do! l := eget id in
  do! p := ecatch (elift (read_pid l n)) (λ e, if bool_decide (e = ValueError) then eret None else eraise e) in
  run! emit (ReadPid n p) in
  eret p.

(** [if pid] *)
Definition has_pid (p : option Z) : bool := match p with Some p => negb (p =? 0) | None => false end.

(** [None] is returned for a node without a pid, which is as good as [False]. *)
Definition send (n : node) (sig : Z) (on_error : option callback) : M bool :=
  let failed := run! match on_error with Some c => call c | None => eret () end in eret false in
  do! p := pid n in
  if has_pid p then
    do! l := eget id in
    let r := os_kill l n sig in
    run! emit (Kill n sig r) in
    match r with
    | Delivered => eret true
    | ESRCH | EPERM => failed
    | OtherErrno => eraise OSError
    end
  else failed.

Definition alive (n : node) : M bool := send n 0 None.

Definition handle_process_exit (retcode : Z) : M Z :=
  if retcode <? 0 then run! call (OnSignalled (- retcode)) in eret (- retcode)
  else if 0 <? retcode then run! call (OnFailure retcode) in eret retcode
  else eret retcode.

(** [Node.start], with the callbacks of [Cluster._start_node] *)
Definition _start_node (n : node) : M Z :=
  run! call OnSpawn in
  do! l := eget id in
  do! retcode := elift (spawn l n) in
  run! emit (Spawned n retcode) in
  handle_process_exit retcode.

(** ** The cluster *)

Definition start_node (n : node) : M Z :=
  run! call OnNodeStart in
  do! retcode := _start_node n in
  run! call (OnNodeStatus retcode) in
  eret retcode.

Fixpoint start (nodes : list node) : M (list Z) :=
  match nodes with
  | [] => eret []
  | n :: nodes => do! r := start_node n in do! rs := start nodes in eret (r :: rs)
  end.

(** [list(getpids(on_down))] *)
Fixpoint getpids (on_down : node → M ()) (nodes : list node) : M (list node) :=
  match nodes with
  | [] => eret []
  | n :: nodes =>
      do! p := pid n in
      if has_pid p then do! r := getpids on_down nodes in eret (n :: r)
      else run! on_down n in getpids on_down nodes
  end.

(** The generator is consumed one node at a time. *)
Fixpoint send_all (sig : Z) (nodes : list node) : M () :=
  match nodes with
  | [] => eret ()
  | n :: nodes =>
      do! p := pid n in
      run! (if has_pid p then run! call OnNodeSignal in run! send n sig (Some OnNodeSignalDead) in eret () else call OnNodeDown) in
      send_all sig nodes
  end.

(** The first loop of [shutdown_nodes]: what is yielded goes to [on_down] at once; returns [to_remove] *)
Fixpoint send_loop (sig : Z) (on_down : node → M ()) (nodes : list node) : M (list node) :=
  match nodes with
  | [] => eret []
  | n :: nodes =>
      run! call OnSendSignal in
      do! ok := send n sig (Some OnNodeSignalDead) in
      if ok then send_loop sig on_down nodes
      else run! on_down n in do! r := send_loop sig on_down nodes in eret (n :: r)
  end.

(** One pass over the nodes that are left: it ends with the first that is not alive. *)
Fixpoint wait_pass (on_down : node → M ()) (its : Z) (nodes : list node) : M (option node * Z) :=
  match nodes with
  | [] => eret (None, its)
  | n :: nodes =>
      run! call OnStillWaitingProgress in
      do! a := alive n in
      if a then wait_pass on_down (its + 1) nodes
      else run! call OnNodeShutdownOk in
           run! on_down n in
           run! call OnStillWaitingFor in
           eret (Some n, its + 1)
  end.

Definition minus (P removed : list node) : list node := filter (.∉ removed) P.

(** [while P]; the number of passes is bounded by [fuel] *)
Fixpoint wait_loop (fuel : nat) (on_down : node → M ()) (its : Z) (P : list node) : M () :=
  match P with
  | [] => eret ()
  | _ =>
      match fuel with
      | O => elift Diverge
      | S fuel =>
          do! (removed, its) := wait_pass on_down its (iter_set P) in
          let P := minus P (match removed with Some n => [n] | None => [] end) in
          run! ewhen (negb (bool_decide (P = [])) && (its mod Z.of_nat (length P) =? 0)) (emit Slept) in
          wait_loop fuel on_down its P
      end
  end.

(** [for node in shutdown_nodes(...): on_down(node)] *)
Definition shutdown_nodes (fuel : nat) (on_down : node → M ()) (nodes : list node) (sig : Z) (retry : bool) : M () :=
  run! call OnStoppingPreamble in
  do! removed := send_loop sig on_down (iter_set nodes) in
  let P := minus nodes removed in
  ewhen retry
    (run! call OnStillWaitingFor in
     run! wait_loop fuel on_down 0 P in
     call OnStillWaitingEnd).

Definition _stop_nodes (fuel : nat) (on_down : node → M ()) (nodes : list node) (sig : Z) (retry : bool) : M () :=
  do! nodes := getpids on_down nodes in
  ewhen (negb (bool_decide (nodes = []))) (shutdown_nodes fuel on_down nodes sig retry).

(** [stop] and [stopwait]; without a callback the cluster's own is used *)
Definition stop (nodes : list node) (sig : Z) : M () := _stop_nodes 0 (λ _, call OnNodeDown) nodes sig false.
Definition stopwait (fuel : nat) (nodes : list node) (sig : Z) : M () := _stop_nodes fuel (λ _, call OnNodeDown) nodes sig true.

(** [restart_on_down]; what it appends to [retvals] are the exit codes, as they are shown *)
Definition restart_on_down (n : node) : M () :=
  run! call OnNodeRestart in
  do! retval := _start_node n in
  call (OnNodeStatus retval).

Definition statuses (l : log) : list Z := omap (λ e, match e with Called (OnNodeStatus r) => Some r | _ => None end) l.

Definition restart (fuel : nat) (nodes : list node) (sig : Z) : M (list Z) :=
  do! before := eget (λ l : log, length (statuses l)) in
  run! _stop_nodes fuel restart_on_down nodes sig true in
  eget (λ l, drop before (statuses l)).

(** ** Restarting *)

Definition spawned (l : log) : list node := omap (λ e, match e with Spawned n _ => Some n | _ => None end) l.

(** What an event tells about the process of [n]: a pid or a delivered signal mean that it runs *)
Definition verdict (n : node) (e : event) : option bool :=
  match e with
  | ReadPid m p => if decide (m = n) then Some (has_pid p) else None
  | Kill m _ r => if decide (m = n) then Some (match r with Delivered => true | _ => false end) else None
  | _ => None
  end.

Definition found_dead (n : node) (l : log) : Prop := last (omap (verdict n) l) = Some false.

(** Whenever a node is started, it was last found not to run. *)
Definition safe (l : log) : Prop := ∀ l1 n r l2, l = l1 ++ Spawned n r :: l2 → found_dead n l1.

(** The log grows by starts of the nodes [sp], each with its status shown. *)
Definition grows (l : log) (sp : list node) (l' : log) : Prop :=
  ∃ d, l' = l ++ d ∧ spawned d = sp ∧ length (statuses d) = length sp.

Lemma grows_refl l : grows l [] l.
Proof using Type. exists []. by rewrite app_nil_r. Qed.

Lemma grows_trans l1 a l2 b l3 : grows l1 a l2 → grows l2 b l3 → grows l1 (a ++ b) l3.
Proof using Type.
  intros (d1 & -> & <- & H1) (d2 & -> & <- & H2). exists (d1 ++ d2). unfold spawned, statuses in *.
  rewrite !omap_app, !length_app, app_assoc. split; [done|]. split; [done|]. lia.
Qed.

Lemma grows_spawned l sp l' : grows l sp l' → spawned l' = spawned l ++ sp.
Proof using Type. intros (d & -> & <- & _). unfold spawned. by rewrite omap_app. Qed.

Lemma grows_length l sp l' : grows l sp l' → (length l ≤ length l')%nat.
Proof using Type. intros (d & -> & _). rewrite length_app. lia. Qed.

Lemma safe_snoc l e : safe l → (∀ n r, e = Spawned n r → found_dead n l) → safe (l ++ [e]).
Proof using Type.
  intros Hl He l1 n r l2 Heq. destruct l2 as [|x l2 _] using rev_ind.
  - apply app_inj_tail in Heq as [-> ->]. by eapply He.
  - rewrite app_comm_cons, app_assoc in Heq. apply app_inj_tail in Heq as [-> _]. by eapply Hl.
Qed.

Lemma grows_emit e l : (∀ n r, e ≠ Spawned n r) → (∀ r, e ≠ Called (OnNodeStatus r)) → grows l [] (l ++ [e]).
Proof using Type.
  intros Hs Hc. exists [e]. split; [done|]. destruct e as [| |n r| |c]; try done; [by destruct (Hs n r)|]. destruct c; try done. by edestruct Hc.
Qed.

Lemma found_dead_snoc n l e : verdict n e = None → found_dead n l → found_dead n (l ++ [e]).
Proof using Type. unfold found_dead. intros He Hl. rewrite omap_app. simpl. rewrite He. by rewrite app_nil_r. Qed.

Lemma found_dead_last n l e : verdict n e = Some false → found_dead n (l ++ [e]).
Proof using Type. unfold found_dead. intros He. rewrite omap_app. simpl. rewrite He. apply last_snoc. Qed.

Section Restart.
Context (Hread : ∀ l n, read_pid l n = Raise ValueError ∨ ∃ p, read_pid l n = Ok p).
Context (Hkill : ∀ l n sig, os_kill l n sig ≠ OtherErrno).
Context (Hspawn : ∀ l n, ∃ r, spawn l n = Ok r).
Context (Hiter : ∀ l, iter_set l ≡ₚ l).
(** After [N] events the processes that were not started anew are gone. *)
Context (N : nat) (Hdies : ∀ l n sig, (N ≤ length l)%nat → n ∉ spawned l → os_kill l n sig ≠ Delivered).

Lemma pid_ok n l : ∃ p, pid n l = (l ++ [ReadPid n p], Ok p).
Proof using Hread.
  unfold pid, ebind at 1, eget, ecatch, elift. destruct (Hread l n) as [Hr|[p Hr]]; unfold ebind; simpl; rewrite Hr; simpl; eauto.
Qed.

Lemma node_send_ok n sig oe l :
  safe l → (∀ r, oe ≠ Some (OnNodeStatus r)) →
  ∃ l' b, send n sig oe l = (l', Ok b) ∧ grows l [] l' ∧ safe l' ∧ (length l < length l')%nat ∧
    (b = false → found_dead n l') ∧ (b = true → ((N ≤ length l)%nat → n ∉ spawned l → False)).
Proof using Hread Hkill Hdies.
  intros Hs Hoe. unfold send. destruct (pid_ok n l) as [p Hp]. unfold ebind at 1. rewrite Hp. set (l1 := l ++ [ReadPid n p]).
  assert (grows l [] l1) as G1 by (by apply grows_emit). assert (safe l1) as S1 by (by apply safe_snoc).
  assert (length l < length l1)%nat as L1 by (unfold l1; rewrite length_app; simpl; lia).
  assert (∀ l2, grows l [] l2 → safe l2 → (length l < length l2)%nat → found_dead n l2 →
    ∃ l' b, (run! match oe with Some c => call c | None => eret () end in eret false) l2 = (l', Ok b) ∧ grows l [] l' ∧ safe l' ∧
      (length l < length l')%nat ∧ (b = false → found_dead n l') ∧ (b = true → ((N ≤ length l)%nat → n ∉ spawned l → False))) as Hfail.
  { intros l2 G2 S2 L2 D2. destruct oe as [c|]; unfold ebind, eret, call, emit, emodify; eexists _, false; (split; [reflexivity|]).
    - split_and!; [|by apply safe_snoc|rewrite length_app; lia| |done].
      + change (@nil node) with (@nil node ++ []). eapply grows_trans; [exact G2|]. apply grows_emit; [done|]. intros r [= ->]. by eapply Hoe.
      + intros _. by apply found_dead_snoc.
    - done. }
  destruct (has_pid p) eqn:Ep; [|apply Hfail; [done..|apply found_dead_last; simpl; by rewrite decide_True, Ep]].
  unfold ebind at 1, eget. unfold ebind at 1, emit at 1, emodify at 1. simpl.
  assert (grows l [] (l1 ++ [Kill n sig (os_kill l1 n sig)])) as G2.
  { change (@nil node) with (@nil node ++ []). eapply grows_trans; [exact G1|]. by apply grows_emit. }
  assert (safe (l1 ++ [Kill n sig (os_kill l1 n sig)])) as S2 by (by apply safe_snoc).
  assert (length l < length (l1 ++ [Kill n sig (os_kill l1 n sig)]))%nat as L2 by (rewrite length_app; lia).
  destruct (os_kill l1 n sig) eqn:Ek.
  - eexists _, true. split; [reflexivity|]. split_and!; [done|done|done|done|]. intros _ HN Hn. eapply Hdies; [| |exact Ek].
    + unfold l1. rewrite length_app. lia.
    + rewrite (grows_spawned _ _ _ G1), app_nil_r. done.
  - apply Hfail; try done. apply found_dead_last. simpl. by rewrite decide_True.
  - apply Hfail; try done. apply found_dead_last. simpl. by rewrite decide_True.
  - by destruct (Hkill l1 n sig).
Qed.

Lemma handle_process_exit_ok r l :
  ∃ c v, handle_process_exit r l = (l ++ c, Ok v) ∧ spawned c = [] ∧ statuses c = [] ∧ (safe l → safe (l ++ c)).
Proof using Type.
  clear. unfold handle_process_exit. destruct (r <? 0); [|destruct (0 <? r)];
    [eexists [_], _; split; [reflexivity|]; split_and!; [done|done|intros; by apply safe_snoc]..|].
  exists [], r. rewrite app_nil_r. done.
Qed.

Lemma restart_on_down_ok n l :
  safe l → found_dead n l → ∃ l', restart_on_down n l = (l', Ok ()) ∧ grows l [n] l' ∧ safe l'.
Proof using Hspawn.
  clear Hread Hkill Hiter Hdies. intros Hs Hd. unfold restart_on_down, _start_node, ebind, call, emit, emodify, eget. simpl.
  set (l1 := (l ++ [Called OnNodeRestart]) ++ [Called OnSpawn]). destruct (Hspawn l1 n) as [r Hr]. unfold elift. rewrite Hr.
  destruct (handle_process_exit_ok r (l1 ++ [Spawned n r])) as (c & v & -> & Hc1 & Hc2 & Hc3).
  eexists. split; [reflexivity|]. split.
  - exists ([Called OnNodeRestart; Called OnSpawn; Spawned n r] ++ c ++ [Called (OnNodeStatus v)]). split; [|split].
    + unfold l1. by rewrite <- !app_assoc.
    + unfold spawned in *. rewrite !omap_app, Hc1. done.
    + unfold statuses in *. rewrite !omap_app, Hc2. done.
  - apply safe_snoc; [|done]. apply Hc3. apply safe_snoc; [by repeat apply safe_snoc|]. intros ? ? [= <- <-]. by repeat apply found_dead_snoc.
Qed.

Lemma getpids_ok nodes l :
  safe l → ∃ l' r sp, getpids restart_on_down nodes l = (l', Ok r) ∧ grows l sp l' ∧ safe l' ∧ sp ++ r ≡ₚ nodes.
Proof using Hread Hspawn.
  clear Hkill Hiter Hdies. revert l. induction nodes as [|n nodes IH]; intros l Hs; simpl; [exists l, [], []; split_and!; [done|apply grows_refl|done|done]|].
  destruct (pid_ok n l) as [p Hp]. unfold ebind at 1. rewrite Hp.
  assert (grows l [] (l ++ [ReadPid n p])) as G1 by (by apply grows_emit). assert (safe (l ++ [ReadPid n p])) as S1 by (by apply safe_snoc).
  destruct (has_pid p) eqn:Ep.
  - destruct (IH _ S1) as (l' & r & sp & Hrun & G & S & HP). unfold ebind. rewrite Hrun. eexists _, _, sp. split; [reflexivity|].
    split_and!; [by apply (grows_trans _ [] _ _ _ G1)|done|]. by rewrite <- Permutation_middle, HP.
  - destruct (restart_on_down_ok n _ S1) as (l2 & H2 & G2 & S2); [apply found_dead_last; simpl; by rewrite decide_True, Ep|].
    destruct (IH _ S2) as (l' & r & sp & Hrun & G & S & HP). unfold ebind. rewrite H2, Hrun. eexists _, _, (n :: sp). split; [reflexivity|].
    split_and!; [|done|simpl; by rewrite HP]. apply (grows_trans _ [] _ _ _ G1), (grows_trans _ [n] _ _ _ G2 G).
Qed.

Lemma send_loop_ok sig nodes l :
  safe l → ∃ l' r, send_loop sig restart_on_down nodes l = (l', Ok r) ∧ grows l r l' ∧ safe l' ∧ r `sublist_of` nodes.
Proof using Hread Hkill Hspawn Hdies.
  clear Hiter. revert l. induction nodes as [|n nodes IH]; intros l Hs; simpl; [exists l, []; split_and!; [done|apply grows_refl|done|constructor]|].
  unfold ebind at 1, call, emit, emodify. assert (grows l [] (l ++ [Called OnSendSignal])) as G1 by (by apply grows_emit).
  assert (safe (l ++ [Called OnSendSignal])) as S1 by (by apply safe_snoc).
  destruct (node_send_ok n sig (Some OnNodeSignalDead) _ S1) as (l2 & b & H2 & G2 & S2 & _ & Hdead & _); [done|].
  unfold ebind at 1. rewrite H2. pose proof (grows_trans _ [] _ _ _ G1 G2) as G12. destruct b.
  - destruct (IH _ S2) as (l' & r & Hrun & G & S & Hsub). exists l', r. split_and!; [done|by apply (grows_trans _ [] _ _ _ G12)|done|by constructor].
  - destruct (restart_on_down_ok n _ S2) as (l3 & H3 & G3 & S3); [by apply Hdead|].
    destruct (IH _ S3) as (l' & r & Hrun & G & S & Hsub). unfold ebind. rewrite H3, Hrun. eexists _, _. split; [reflexivity|].
    split_and!; [|done|by constructor]. apply (grows_trans _ [] _ _ _ G12), (grows_trans _ [n] _ _ _ G3 G).
Qed.

Lemma wait_pass_ok its nodes l :
  safe l → ∃ l' o its', wait_pass restart_on_down its nodes l = (l', Ok (o, its')) ∧ grows l (option_list o) l' ∧ safe l' ∧
    (∀ n, o = Some n → n ∈ nodes) ∧ (nodes ≠ [] → (length l < length l')%nat ∧
      ((N ≤ length l)%nat → (∀ n, n ∈ nodes → n ∉ spawned l) → o ≠ None)).
Proof using Hread Hkill Hspawn Hdies.
  clear Hiter. revert l its. induction nodes as [|n nodes IH]; intros l its Hs; simpl.
  { exists l, None, its. split_and!; [done|apply grows_refl|done|done|done]. }
  unfold ebind at 1, call at 1, emit at 1, emodify at 1. assert (grows l [] (l ++ [Called OnStillWaitingProgress])) as G1 by (by apply grows_emit).
  assert (safe (l ++ [Called OnStillWaitingProgress])) as S1 by (by apply safe_snoc). unfold alive.
  destruct (node_send_ok n 0 None _ S1) as (l2 & b & H2 & G2 & S2 & L2 & Hdead & Halive); [done|]. rewrite length_app in L2, Halive. simpl in L2, Halive.
  unfold ebind at 1. rewrite H2. pose proof (grows_trans _ [] _ _ _ G1 G2) as G12. destruct b.
  - destruct (IH l2 (its + 1) S2) as (l' & o & its' & Hrun & G & S & Hin & Hne). exists l', o, its'. split_and!; [done|by apply (grows_trans _ [] _ _ _ G12)|done| |].
    + intros m Hm. right. by apply Hin.
    + intros _. split; [pose proof (grows_length _ _ _ G); lia|]. intros HN Hnot. exfalso. apply (Halive eq_refl); [lia|].
      rewrite (grows_spawned _ _ _ G1), app_nil_r. apply Hnot. by left.
  - unfold ebind at 1, call at 1, emit at 1, emodify at 1.
    destruct (restart_on_down_ok n (l2 ++ [Called OnNodeShutdownOk])) as (l3 & H3 & G3 & S3); [by apply safe_snoc|by apply found_dead_snoc; [|apply Hdead]|].
    unfold ebind at 1. rewrite H3. eexists _, (Some n), _. split; [reflexivity|].
    assert (grows l2 [] (l2 ++ [Called OnNodeShutdownOk])) as G2' by (by apply grows_emit).
    assert (grows l3 [] (l3 ++ [Called OnStillWaitingFor])) as G4 by (by apply grows_emit).
    pose proof (grows_trans _ [] _ _ _ G12 (grows_trans _ [] _ _ _ G2' (grows_trans _ [n] _ _ _ G3 G4))) as G. simpl in G.
    split_and!; [exact G|by apply safe_snoc|intros m [= <-]; by left|]. intros _. split; [|done].
    pose proof (grows_length _ _ _ G3) as HL. rewrite !length_app in *. simpl in *. lia.
Qed.

Lemma minus_nil (P : list node) : minus P [] = P.
Proof using Type.
  clear. unfold minus. induction P as [|x P IH]; [done|]. rewrite filter_cons_True by apply not_elem_of_nil. by rewrite IH.
Qed.

Lemma minus_perm (P r : list node) : NoDup P → NoDup r → (∀ n, n ∈ r → n ∈ P) → r ++ minus P r ≡ₚ P.
Proof using Type.
  clear. intros HP Hr Hsub. apply NoDup_Permutation; [|done|].
  - apply NoDup_app. split; [done|]. split; [|by apply NoDup_filter]. intros n Hn. unfold minus. rewrite list_elem_of_filter. tauto.
  - intros n. unfold minus. rewrite elem_of_app, list_elem_of_filter. destruct (decide (n ∈ r)); naive_solver.
Qed.

Lemma wait_loop_ok fuel its P l :
  safe l → NoDup P → (∀ n, n ∈ P → n ∉ spawned l) → (length P + (N - length l) < fuel)%nat →
  ∃ l' sp, wait_loop fuel restart_on_down its P l = (l', Ok ()) ∧ grows l sp l' ∧ safe l' ∧ sp ≡ₚ P.
Proof using Hread Hkill Hspawn Hiter Hdies.
  revert its P l. induction fuel as [|fuel IH]; intros its P l Hs Hnd Hnot Hf; [lia|].
  destruct P as [|x P0] eqn:EP; [exists l, []; simpl; split_and!; [done|apply grows_refl|done|done]|].
  cbn [wait_loop]. rewrite <- EP in *. assert (P ≠ []) as Hne by (by rewrite EP). clear EP x P0.
  destruct (wait_pass_ok its (iter_set P) l Hs) as (l1 & o & its' & H1 & G1 & S1 & Hin & Hprog).
  destruct Hprog as [HL Hsome]; [intros Hnil; apply Hne, Permutation_nil; by rewrite <- Hnil, Hiter|].
  unfold ebind at 1. rewrite H1. set (P' := minus P (match o with Some n => [n] | None => [] end)).
  assert (option_list o ++ P' ≡ₚ P) as HP.
  { unfold P'. destruct o as [n|]; simpl; [|by rewrite minus_nil].
    apply (minus_perm P [n]); [done|apply NoDup_singleton|]. intros m ->%list_elem_of_singleton. rewrite <- Hiter. by apply Hin. }
  assert (∃ l2, ewhen (negb (bool_decide (P' = [])) && (its' mod Z.of_nat (length P') =? 0)) (emit Slept) l1 = (l2, Ok ()) ∧
     grows l1 [] l2 ∧ safe l2) as (l2 & H2 & G2 & S2).
  { destruct (_ && _); simpl; [eexists; split; [reflexivity|]; split; [by apply grows_emit|by apply safe_snoc]|].
    exists l1. split_and!; [done|apply grows_refl|done]. }
  unfold ebind at 1. rewrite H2. pose proof (grows_trans _ _ _ _ _ G1 G2) as G12. rewrite app_nil_r in G12.
  assert (NoDup (option_list o ++ P')) as Hnd' by (by rewrite HP). apply NoDup_app in Hnd' as (_ & Hdisj & Hnd').
  destruct (IH its' P' l2) as (l' & sp & Hrun & G & S & Hsp); [done|done| |..].
  - intros n Hn. rewrite (grows_spawned _ _ _ G12). intros [Hold|Hnew]%elem_of_app; [|by apply (Hdisj n)].
    apply (Hnot n); [|done]. rewrite <- HP. apply elem_of_app. by right.
  - pose proof (grows_length _ _ _ G2) as HL2. apply Permutation_length in HP. rewrite length_app in HP.
    destruct (decide (N ≤ length l)%nat) as [HN|HN].
    + destruct o as [n|]; simpl in HP; [lia|]. exfalso. apply Hsome; [done| |done]. intros n Hn. apply Hnot. by rewrite <- Hiter.
    + lia.
  - eexists _, _. split; [exact Hrun|]. split_and!; [by apply (grows_trans _ _ _ _ _ G12 G)|done|]. by rewrite Hsp.
Qed.

Lemma stop_nodes_restarts fuel nodes sig :
  NoDup nodes → (length nodes + N < fuel)%nat →
  ∃ l sp, _stop_nodes fuel restart_on_down nodes sig true [] = (l, Ok ()) ∧ safe l ∧ grows [] sp l ∧ sp ≡ₚ nodes.
Proof using Hread Hkill Hspawn Hiter Hdies.
  intros Hnd Hf. assert (safe []) as S0 by (intros [] ? ? ?; done).
  unfold _stop_nodes. destruct (getpids_ok nodes [] S0) as (l1 & live & sp1 & H1 & G1 & S1 & HP1). unfold ebind at 1. rewrite H1.
  case_bool_decide as Hlive; simpl.
  { exists l1, sp1. split_and!; [done|done|done|]. by rewrite <- HP1, Hlive, app_nil_r. }
  assert (NoDup (sp1 ++ live)) as Hnd1 by (by rewrite HP1). apply NoDup_app in Hnd1 as (Hnd1 & Hdisj & Hndl).
  unfold shutdown_nodes, ebind at 1, call at 1, emit at 1, emodify at 1. assert (grows l1 [] (l1 ++ [Called OnStoppingPreamble])) as G2 by (by apply grows_emit).
  destruct (send_loop_ok sig (iter_set live) (l1 ++ [Called OnStoppingPreamble])) as (l3 & rm & H3 & G3 & S3 & Hsub); [by apply safe_snoc|].
  unfold ebind at 1. rewrite H3. unfold ewhen, ebind at 1, call at 1, emit at 1, emodify at 1.
  assert (grows l3 [] (l3 ++ [Called OnStillWaitingFor])) as G4 by (by apply grows_emit).
  pose proof (grows_trans _ _ _ _ _ G1 (grows_trans _ [] _ _ _ G2 (grows_trans _ _ _ _ _ G3 G4))) as G14. rewrite app_nil_r in G14. simpl in G14.
  assert (NoDup (iter_set live)) as Hndi by (by rewrite Hiter).
  assert (rm ++ minus live rm ≡ₚ live) as HPm.
  { apply minus_perm; [done|by eapply sublist_NoDup|]. intros n Hn. rewrite <- Hiter. by eapply elem_of_sublist. }
  assert (NoDup (rm ++ minus live rm)) as Hnd3 by (by rewrite HPm). apply NoDup_app in Hnd3 as (_ & Hdisj3 & Hnd3).
  destruct (wait_loop_ok fuel 0 (minus live rm) (l3 ++ [Called OnStillWaitingFor])) as (l5 & sp5 & H5 & G5 & S5 & HP5).
  { by apply safe_snoc. } { done. }
  { intros n Hn. rewrite (grows_spawned _ _ _ G14). simpl. intros [H|H]%elem_of_app; [|by apply (Hdisj3 n)].
    apply (Hdisj n H). rewrite <- HPm. apply elem_of_app. by right. }
  { apply Permutation_length in HP1, HPm. rewrite !length_app in *. simpl. lia. }
  unfold ebind at 1. rewrite H5. eexists _, _. split; [reflexivity|]. split; [by apply safe_snoc|].
  assert (grows l5 [] (l5 ++ [Called OnStillWaitingEnd])) as G6 by (by apply grows_emit).
  pose proof (grows_trans _ _ _ _ _ G14 (grows_trans _ _ _ _ _ G5 G6)) as G. rewrite app_nil_r in G. split; [exact G|].
  by rewrite HP5, <- app_assoc, HPm, HP1.
Qed.

(** C26: A restart of the cluster starts every node exactly once, and no node while its old process runs.  If the
    processes are gone after some time, the wait ends, with as many exit codes as there are nodes; when
    a node is started, the last that was seen of it is that it has no pid or that a signal could not be
    delivered. *)
Theorem restart_each_once fuel nodes sig :
  NoDup nodes → (length nodes + N < fuel)%nat →
  ∃ l retvals, restart fuel nodes sig [] = (l, Ok retvals) ∧ spawned l ≡ₚ nodes ∧ length retvals = length nodes ∧
    ∀ l1 n r l2, l = l1 ++ Spawned n r :: l2 → found_dead n l1.
Proof using Hread Hkill Hspawn Hiter Hdies.
  intros Hnd Hf. destruct (stop_nodes_restarts fuel nodes sig Hnd Hf) as (l & sp & Hl & Hsafe & HG & Hsp).
  unfold restart, ebind, eget. simpl. rewrite Hl. eexists _, _. split; [reflexivity|]. destruct HG as (d & -> & <- & Hst). simpl in *.
  split_and!; [done|by rewrite drop_0, Hst, Hsp|exact Hsafe].
Qed.
End Restart.
End Cluster.

(** ** The commands *)

Definition EX_OK : Z := 0.
Definition EX_FAILURE : Z := 1.
Definition SIGTERM : Z := 15.

(** [signals.signum]: the signal of a name in upper case; [getattr(signal, name)] is a parameter *)
Section Tool.
Context (signal_attr : string → option Z).

Definition signum (name : string) : outcome Z :=
  if negb (str_isupper name) then Raise TypeError
  else of_option AttributeError (signal_attr (if str_startswith name "SIG" then name else "SIG" +:+ name)%string).

Fixpoint find_sig (args : list string) : outcome Z :=
  match args with
  | [] => Ok SIGTERM
  | arg :: args =>
      match to_chars arg with
      | [] => Raise IndexError
      | c :: rest =>
          if bool_decide (c = "-"%char) then
            match (match rest with [d] => py_int [d] | _ => Raise ValueError end) with
            | Ok n => Ok n
            | _ => match signum (of_chars rest) with
                   | Ok n => Ok n
                   | Raise AttributeError | Raise TypeError => find_sig args
                   | r => r
                   end
            end
          else find_sig args
      end
  end.

Definition _find_sig_argument (args : list string) (p : MultiParser.parser) : outcome Z :=
  find_sig (reverse (drop (length (MultiParser.values p)) args)).
End Tool.

Definition reserved_options : list string := ["--nosplash"; "--quiet"; "-q"; "--verbose"; "--no-color"]%string.

Fixpoint remove_first (x : string) (l : list string) : list string :=
  match l with
  | [] => []
  | y :: l => if bool_decide (x = y) then l else y :: remove_first x l
  end.

(** The first of each reserved option is taken out and sets its flag. *)
Definition _handle_reserved_options (argv : list string) : list string * list string :=
  foldl (λ '(flags, argv) arg, if bool_decide (arg ∈ argv) then (flags ++ [arg], remove_first arg argv) else (flags, argv))
    ([], argv) reserved_options.

Inductive answer := Exit (code : Z) | InvalidCommand (command : string) (code : Z).

(** [call_command]; [run] is what the command does with its arguments *)
Definition call_command (commands : string → option (list string → outcome Z)) (command : string) (argv : list string) : outcome answer :=
  match (match commands command with Some c => c argv | None => Raise KeyError end) with
  | Ok code => Ok (Exit code)
  | Raise KeyError => Ok (InvalidCommand command EX_FAILURE)
  | Raise e => Raise e
  | Diverge => Diverge
  end.

(** [int(any(cluster.start()))] and the same for restarts *)
Definition exit_code (retcodes : list Z) : Z := if existsb (λ r, negb (r =? 0)) retcodes then 1 else 0.

Lemma exit_code_ok l : exit_code l = EX_OK ↔ Forall (λ r, r = 0) l.
Proof.
  unfold exit_code, EX_OK. rewrite Forall_forall. destruct (existsb _ l) eqn:E.
  - apply existsb_exists in E as (r & Hr%list_elem_of_In & Hne). apply negb_true_iff, Z.eqb_neq in Hne. split; [done|]. intros Hall. by apply Hall in Hr.
  - split; [|done]. intros _ r Hr%list_elem_of_In. destruct (r =? 0) eqn:E0; [lia|].
    assert (existsb (λ r, negb (r =? 0)) l = true) by (apply existsb_exists; exists r; by rewrite E0). congruence.
Qed.

Module ClusterExamples.

Definition wit_nodes : list nat := [1; 2; 3]%nat.
(** Node 1 is down; the others die once twelve things have happened. *)
Definition wit_read (l : list (@event nat)) (n : nat) : outcome (option Z) := if bool_decide (n = 1%nat) then Raise ValueError else Ok (Some 100).
Definition wit_kill (l : list (@event nat)) (n : nat) (sig : Z) : kill_result := if bool_decide (length l < 12)%nat then Delivered else ESRCH.
Definition wit_spawn (l : list (@event nat)) (n : nat) : outcome Z := Ok 0.

Lemma restart_each_once_witness :
  ∃ l retvals, restart wit_read wit_kill wit_spawn id 16 wit_nodes SIGTERM [] = (l, Ok retvals) ∧ spawned l ≡ₚ wit_nodes ∧
    length retvals = 3%nat ∧ ∀ l1 n r l2, l = l1 ++ Spawned n r :: l2 → found_dead n l1.
Proof.
  apply (restart_each_once wit_read wit_kill wit_spawn id) with (N := 12%nat).
  - intros l n. unfold wit_read. case_bool_decide; eauto.
  - intros l n sig. unfold wit_kill. by case_bool_decide.
  - intros l n. by exists 0.
  - done.
  - intros l n sig Hl _. unfold wit_kill. case_bool_decide; [lia|done].
  - by apply (bool_decide_unpack _); vm_compute.
  - simpl. lia.
Defined.

Example restart_order :
  spawned (restart wit_read wit_kill wit_spawn id 16 wit_nodes SIGTERM []).1 = [1; 3; 2]%nat ∧
  (restart wit_read wit_kill wit_spawn id 16 wit_nodes SIGTERM []).2 = Ok [0; 0; 0].
Proof. by vm_compute. Qed.

Definition no_signals (name : string) : option Z := if bool_decide (name = "SIGHUP"%string) then Some 1 else None.
Definition sig_of (s : string) : outcome Z :=
  let argv := MultiParser.MultiExamples.args s in
  let! p := MultiParser.parse argv in _find_sig_argument no_signals argv p.

Example signals_found :
  sig_of "w1 w2 -9" = Ok 9 ∧ sig_of "w1 -HUP --pidfile=x" = Ok 1 ∧ sig_of "w1 -A proj" = Ok SIGTERM.
Proof. by vm_compute. Qed.

(** An index without a node is a [KeyError], which is taken for an unknown command. *)
Definition wit_start (argv : list string) : outcome Z :=
  let! (_, ns) := MultiParser.nodes_from_argv "myhost" "0" "" "/usr/bin/python" (λ _, Ok ()) None argv in
  Ok (exit_code ((λ _, 0) <$> ns)).
Definition wit_commands (c : string) : option (list string → outcome Z) := if bool_decide (c = "start"%string) then Some wit_start else None.

Example index_error_hidden :
  call_command wit_commands "start" (MultiParser.MultiExamples.args "foo bar -c:3 10") = Ok (InvalidCommand "start" EX_FAILURE) ∧
  call_command wit_commands "start" (MultiParser.MultiExamples.args "foo bar -c:2 10") = Ok (Exit 0).
Proof. by vm_compute. Qed.

End ClusterExamples.
End MultiCluster.
