(* ===== verification/Interleave.v ===== *)
(** Programs that are made of atomic actions on shared state, run alone or interleaved with others.  Used by the
    components where processes meet in a file or a server. *)

From S2P Require Import Prelude.

Section Prog.
Context {act ans : Type}.

(** A program has ended, or does an action and goes on with the answer to it. *)
Inductive prog (A : Type) := Done (r : outcome A) | Step (a : act) (k : ans → prog A).
#[global] Arguments Done {A} r.
#[global] Arguments Step {A} a k.

Fixpoint pbind {A B} (p : prog A) (k : A → prog B) : prog B :=
  match p with
  | Done (Ok a) => k a
  | Done (Raise e) => Done (Raise e)
  | Done Diverge => Done Diverge
  | Step a c => Step a (λ x, pbind (c x) k)
  end.

(** [try: p  except: h  else: k] *)
Fixpoint ptry {A B} (p : prog A) (h : exn → prog B) (k : A → prog B) : prog B :=
  match p with
  | Done (Ok a) => k a
  | Done (Raise e) => h e
  | Done Diverge => Done Diverge
  | Step a c => Step a (λ x, ptry (c x) h k)
  end.

(** ** Actions with a determined answer *)

Section Run.
Context {S : Type} (sem : act → S → S * ans).

Fixpoint run {A} (p : prog A) (s : S) : S * outcome A :=
  match p with
  | Done r => (s, r)
  | Step a k => let '(s, x) := sem a s in run (k x) s
  end.

Lemma run_bind {A B} (p : prog A) (k : A → prog B) s :
  run (pbind p k) s = match run p s with
                      | (s, Ok a) => run (k a) s
                      | (s, Raise e) => (s, Raise e)
                      | (s, Diverge) => (s, Diverge)
                      end.
Proof. revert s. induction p as [[]|a c IH]; intros s; simpl; [done..|]. destruct (sem a s). apply IH. Qed.

Lemma run_try {A B} (p : prog A) h (k : A → prog B) s :
  run (ptry p h k) s = match run p s with
                       | (s, Ok a) => run (k a) s
                       | (s, Raise e) => run (h e) s
                       | (s, Diverge) => (s, Diverge)
                       end.
Proof. revert s. induction p as [[]|a c IH]; intros s; simpl; [done..|]. destruct (sem a s). apply IH. Qed.

(** One action of the process with the given index, and a schedule *)
Definition sys_step {A} (s : S * list (prog A)) (i : nat) : S * list (prog A) :=
  match s.2 !! i with
  | Some (Step a k) => let '(st, x) := sem a s.1 in (st, <[i := k x]> s.2)
  | _ => s
  end.

Definition sys_run {A} (s : S * list (prog A)) (l : list nat) : S * list (prog A) := foldl sys_step s l.
End Run.

(** ** Actions that the environment answers in several ways *)

Section Steps.
Context {S : Type} (sem : act → S → S → ans → Prop) (other : S → S → Prop).

(** A process does an action, or something else changes the state. *)
Inductive pstep {A} : S * list (prog A) → S * list (prog A) → Prop :=
| pstep_act i a k s s' x ps : ps !! i = Some (Step a k) → sem a s s' x → pstep (s, ps) (s', <[i := k x]> ps)
| pstep_other s s' ps : other s s' → pstep (s, ps) (s', ps).

(** An invariant of the state with a condition on each program: each action a program may do keeps the
    invariant, establishes the condition of what is left of it, and the conditions of the others are stable. *)
Lemma pstep_invariant {A} (I : S → Prop) (G : S → prog A → Prop) s ps s' ps' :
  (∀ s s' a k x p, I s → G s (Step a k) → sem a s s' x → I s' ∧ G s' (k x) ∧ (G s p → G s' p)) →
  (∀ s s' p, I s → other s s' → I s' ∧ (G s p → G s' p)) →
  rtc pstep (s, ps) (s', ps') → I s → Forall (G s) ps → I s' ∧ Forall (G s') ps'.
Proof.
  intros Hact Hother Hrun. remember (s, ps) as x eqn:Ex. remember (s', ps') as y eqn:Ey. revert s ps Ex.
  induction Hrun as [x|x z y Hstep Hrun IH]; intros s ps ->; [simplify_eq; done|].
  intros HI HG. inversion Hstep as [i a k s0 s1 w ps0 Hi Hsem|s0 s1 ps0 Ho]; subst.
  - pose proof (Forall_lookup_1 _ _ _ _ HG Hi) as Hp. pose proof (λ p, Hact s s1 a k w p HI Hp Hsem) as H1.
    eapply IH; [done|reflexivity|apply (H1 (Done Diverge))|]. apply Forall_insert; [|apply (H1 (Done Diverge))].
    eapply Forall_impl; [exact HG|]. intros p. apply H1.
  - eapply IH; [done|reflexivity|..]; [by destruct (Hother s s1 (Done Diverge) HI Ho)|].
    eapply Forall_impl; [exact HG|]. intros p Hp. by eapply Hother.
Qed.
End Steps.
End Prog.
#[global] Arguments prog : clear implicits.
