(* ===== verification/Pidfile.v ===== *)
(** The pid file of celery/platforms.py, the lock that keeps a worker from being started twice: reading,
    removing stale files, creating and checking.

    A program is a tree of atomic actions on the file system and processes.  It can be run alone or
    interleaved with others.  A path leads to an inode or to nothing; what is written through a descriptor
    goes to its inode, also after the file was removed or replaced.  The file can be read by everyone;
    [f_removable] tells whether it can be removed ([EACCES] is ignored by the code). *)

From S2P Require Import Prelude.
From S2P Require Import PyStr.
From S2P Require Import Interleave.
Local Open Scope Z_scope.

Module Pidfile.

(** Results of [os.kill(pid, 0)] *)
Inductive kill_result := Running | ESRCH | EPERM | OtherErrno | SystemErr.

Record files := Files { f_path : option nat; f_inodes : list chars; f_removable : bool }.

(** ** Atomic actions *)

Inductive action :=
| Exists
| Read                            (* the content of the file, if there is one *)
| KillZero (pid : Z)
| Unlink
| CreateExcl                      (* a new empty file, if there is none *)
| WriteFd (fd : nat) (s : chars).

Inductive answer := ABool (b : bool) | AContent (s : option chars) | AKill (r : kill_result) | AFd (fd : option nat) | ADone.

(** [getpid] and the processes there are *)
Definition act (processes : Z → kill_result) (a : action) (f : files) : files * answer :=
  match a with
  | Exists => (f, ABool (bool_decide (is_Some (f_path f))))
  | Read => (f, AContent (match f_path f with Some i => Some (default [] (f_inodes f !! i)) | None => None end))
  | KillZero pid => (f, AKill (processes pid))
  | Unlink => (if f_removable f then Files None (f_inodes f) true else f, ADone)
  | CreateExcl =>
      match f_path f with
      | Some _ => (f, AFd None)
      | None => (Files (Some (length (f_inodes f))) (f_inodes f ++ [[]]) (f_removable f), AFd (Some (length (f_inodes f))))
      end
  | WriteFd fd s => (Files (f_path f) (<[fd := s]> (f_inodes f)) (f_removable f), ADone)
  end.

Abbreviation prog := (prog action answer).

(** ** The code *)

Section Code.
Context (getpid : Z).

Definition newline : ascii := ascii_of_nat 10.

Fixpoint readline (l : chars) : chars :=
  match l with
  | [] => []
  | c :: l => if bool_decide (c = newline) then [c] else c :: readline l
  end.

(** No file gives [None]. *)
Definition read_pid : prog (option Z) :=
  Step Read (λ x, match x with
    | AContent (Some s) =>
        let line := readline s in
        if bool_decide (strip line = line) then Done (Raise ValueError)
        else match py_int (strip line) with
             | Ok n => Done (Ok (Some n))
             | _ => Done (Raise ValueError)
             end
    | _ => Done (Ok None)
    end).

Definition is_locked : prog bool := Step Exists (λ x, match x with ABool b => Done (Ok b) | _ => Done (Ok false) end).

Definition remove : prog () := Step Unlink (λ _, Done (Ok ())).

Definition remove_if_stale : prog bool :=
  let removed := pbind remove (λ _, Done (Ok true)) in
  ptry read_pid (λ e, if bool_decide (e = ValueError) then removed else Done (Raise e))
    (λ pid, match pid with
       | None => removed
       | Some pid =>
           if pid =? 0 then removed
           else if pid =? getpid then removed
           else Step (KillZero pid) (λ x, match x with
                  | AKill ESRCH | AKill EPERM | AKill SystemErr => removed
                  | _ => Done (Ok false)
                  end)
       end).

Definition pid_content : chars := py_str_nat getpid ++ [newline].

(** [os.open] with [O_CREAT | O_EXCL] raises if there is a file; the file that is opened again may be gone. *)
Definition write_pid : prog () :=
  Step CreateExcl (λ x, match x with
    | AFd (Some fd) =>
        Step (WriteFd fd pid_content) (λ _,
          Step Read (λ x, match x with
            | AContent (Some s) => if bool_decide (s = pid_content) then Done (Ok ()) else Done (Raise LockFailed)
            | _ => Done (Raise OSError)
            end))
    | _ => Done (Raise OSError)
    end).

Definition acquire : prog () :=
  ptry write_pid (λ e, if bool_decide (e = OSError) then Done (Raise LockFailed) else Done (Raise e)) (λ _, Done (Ok ())).

Definition release : prog () := remove.

(** The message before the exit reads the file once more. *)
Definition _create_pidlock : prog () :=
  pbind is_locked (λ locked,
  pbind (if locked then pbind remove_if_stale (λ stale, Done (Ok (negb stale))) else Done (Ok false)) (λ held,
  if held then pbind read_pid (λ _, Done (Raise SystemExit)) else acquire)).

End Code.

(** ** Running alone *)

Section Alone.
Context (processes : Z → kill_result).

Abbreviation run := (run (act processes)).

Definition content (f : files) : option chars := match f_path f with Some i => Some (default [] (f_inodes f !! i)) | None => None end.

(** The pid that a content stands for *)
Definition pid_of (s : chars) : option Z :=
  let line := readline s in
  if bool_decide (strip line = line) then None
  else match py_int (strip line) with Ok n => Some n | _ => None end.

(** Someone else holds the lock: the file names another process that can be signalled, or whose signal fails for
    an unknown reason. *)
Definition held_by_other (getpid : Z) (f : files) : Prop :=
  ∃ s pid, content f = Some s ∧ pid_of s = Some pid ∧ pid ≠ 0 ∧ pid ≠ getpid ∧ (processes pid = Running ∨ processes pid = OtherErrno).

#[global] Instance held_by_other_dec getpid f : Decision (held_by_other getpid f).
Proof.
  unfold held_by_other. destruct (content f) as [s|]; [|right; by intros (? & ? & ? & _)].
  destruct (pid_of s) as [pid|] eqn:E; [|right; intros (? & ? & [= <-] & ? & _); congruence].
  destruct (decide (pid ≠ 0 ∧ pid ≠ getpid)) as [[? ?]|Hn]; [|right; intros (? & ? & [= <-] & ? & ? & ? & _); simplify_eq; tauto].
  destruct (processes pid) eqn:Ep; [left; eauto 10|..|left; eauto 10|]; right; intros (? & ? & [= <-] & ? & _ & _ & [?|?]); congruence.
Defined.

(** A path leads to a file. *)
Definition files_wf (f : files) : Prop := ∀ i, f_path f = Some i → (i < length (f_inodes f))%nat.

Section Lock.
Context (getpid : Z) (Hpid : 0 < getpid).

Lemma readline_digits l : Forall (λ c, is_digit c = true) l → readline (l ++ [newline]) = l ++ [newline].
Proof using Type.
  clear. induction 1 as [|c l Hc _ IH]; simpl; [done|]. rewrite IH. case_bool_decide; [by subst|done].
Qed.

Lemma strip_line l : l ≠ [] → Forall (λ c, is_digit c = true) l → strip (l ++ [newline]) = l.
Proof using Type.
  clear. intros Hne Hl. unfold strip.
  assert (∀ l', Forall (λ c, is_digit c = true) l → l ≠ [] → drop_while is_space (l ++ l') = l ++ l') as Hdrop.
  { intros l' HF Hn. destruct HF as [|c l Hc _]; [done|]. simpl. by rewrite is_digit_not_space. }
  rewrite Hdrop by done. rewrite reverse_app. simpl.
  assert (drop_while is_space (reverse l) = reverse l) as ->; [|apply reverse_involutive].
  apply drop_while_digits. by rewrite Forall_reverse.
Qed.

(** What [write_pid] writes is read back. *)
Lemma pid_of_content : pid_of (pid_content getpid) = Some getpid.
Proof using Hpid.
  destruct (py_str_nat_digits getpid) as [Hne HF]; [lia|]. unfold pid_of, pid_content. rewrite readline_digits by done.
  rewrite strip_line by done. rewrite py_int_str by lia. rewrite bool_decide_eq_false_2; [done|].
  intros Heq. apply (f_equal length) in Heq. rewrite length_app in Heq. simpl in Heq. lia.
Qed.

Lemma run_read_pid f :
  run read_pid f = (f, match content f with None => Ok None | Some s => of_option ValueError (Some <$> pid_of s) end).
Proof using Type.
  unfold read_pid. simpl. fold (content f). destruct (content f) as [s|]; [|done]. unfold pid_of.
  case_bool_decide; [done|]. by destruct (py_int (strip (readline s))).
Qed.

Lemma run_is_locked f : run is_locked f = (f, Ok (bool_decide (is_Some (f_path f)))).
Proof using Type. done. Qed.

Lemma held_spec f s :
  content f = Some s →
  held_by_other getpid f ↔
    match pid_of s with
    | Some pid => pid ≠ 0 ∧ pid ≠ getpid ∧ (processes pid = Running ∨ processes pid = OtherErrno)
    | None => False
    end.
Proof using Type.
  intros Hs. unfold held_by_other. rewrite Hs. split; [intros (? & pid & [= <-] & -> & ?); done|].
  destruct (pid_of s) as [pid|] eqn:E; [|done]. intros ?. by exists s, pid.
Qed.

Lemma run_stale f :
  is_Some (content f) →
  run (remove_if_stale getpid) f = if decide (held_by_other getpid f) then (f, Ok false) else ((act processes Unlink f).1, Ok true).
Proof using Type.
  intros [s Hs]. unfold remove_if_stale. rewrite run_try, run_read_pid, Hs.
  destruct (decide (held_by_other getpid f)) as [Hh|Hh]; rewrite (held_spec f s Hs) in Hh; (destruct (pid_of s) as [pid|]; simpl; [|done]).
  - destruct Hh as (H0 & H1 & Hk). apply Z.eqb_neq in H0, H1. rewrite H0, H1. simpl. by destruct Hk as [-> | ->].
  - destruct (pid =? 0) eqn:E0; [done|]. destruct (pid =? getpid) eqn:E1; [done|]. apply Z.eqb_neq in E0, E1. simpl.
    destruct (processes pid) eqn:Ek; try done; exfalso; apply Hh; auto.
Qed.

Lemma run_acquire f :
  files_wf f →
  match f_path f with
  | None => ∃ f', run (acquire getpid) f = (f', Ok ()) ∧ content f' = Some (pid_content getpid) ∧ files_wf f'
  | Some _ => run (acquire getpid) f = (f, Raise LockFailed)
  end.
Proof using Type.
  intros Hwf. unfold acquire. rewrite run_try. unfold write_pid. simpl. destruct (f_path f) as [i|]; simpl; [done|].
  rewrite list_lookup_insert, decide_True by (rewrite length_app; simpl; lia). simpl. rewrite bool_decide_eq_true_2 by done.
  eexists. split; [reflexivity|]. unfold content, files_wf. simpl. rewrite list_lookup_insert, decide_True by (rewrite length_app; simpl; lia).
  split; [done|]. intros i [= <-]. rewrite length_insert, length_app. simpl. lia.
Qed.

(** Locking when no other process is at it.  If the file names another running process, the program exits
    and the file is as it was.  Otherwise, a file that is stale, broken or the program's own is replaced,
    and afterwards it names this process; if it cannot be removed, locking fails. *)
Theorem pidlock_outcome f :
  files_wf f →
  (held_by_other getpid f → run (_create_pidlock getpid) f = (f, Raise SystemExit)) ∧
  (¬ held_by_other getpid f →
     if bool_decide (f_path f = None) || f_removable f
     then ∃ f' s, run (_create_pidlock getpid) f = (f', Ok ()) ∧ files_wf f' ∧ content f' = Some s ∧ pid_of s = Some getpid
     else run (_create_pidlock getpid) f = (f, Raise LockFailed)).
Proof using Hpid.
  intros Hwf. unfold _create_pidlock. rewrite run_bind, run_is_locked, run_bind. pose proof (run_acquire f Hwf) as Ha.
  destruct (f_path f) as [i|] eqn:Ep.
  - assert (is_Some (content f)) as Hc by (unfold content; rewrite Ep; eauto).
    rewrite bool_decide_eq_true_2 by eauto. rewrite run_bind, run_stale by done.
    split; intros Hh; [rewrite decide_True by done|rewrite decide_False by done]; cbn [run negb].
    + rewrite run_bind, run_read_pid. destruct Hh as (s & pid & -> & Hs & _). by rewrite Hs.
    + rewrite bool_decide_eq_false_2 by done. change ((act processes Unlink f).1) with (if f_removable f then Files None (f_inodes f) true else f).
      destruct (f_removable f) eqn:Er; cbn [orb]; [|done].
      destruct (run_acquire (Files None (f_inodes f) true)) as (f' & -> & Hf' & Hwf'); [done|].
      eexists _, _. split; [reflexivity|]. split; [done|]. split; [done|]. apply pid_of_content.
  - rewrite bool_decide_eq_false_2 by (by intros [? ?]). split; intros Hh; [destruct Hh as (s & pid & Hc & _); unfold content in Hc; by rewrite Ep in Hc|].
    rewrite bool_decide_eq_true_2 by done. cbn [orb run]. destruct Ha as (f' & -> & Hf' & Hwf'). eexists _, _. split; [reflexivity|]. split; [done|]. split; [done|]. apply pid_of_content.
Qed.
End Lock.
End Alone.

Module PidfileExamples.

Definition alive (pid : Z) : kill_result := if bool_decide (pid ∈ [10; 20]) then Running else ESRCH.
Definition no_file : files := Files None [] true.
Definition stale_file : files := Files (Some 0%nat) [py_str_nat 99 ++ [newline]] true.
Definition held_file : files := Files (Some 0%nat) [py_str_nat 20 ++ [newline]] true.

Lemma pidlock_outcome_witness :
  (held_by_other alive 10 stale_file → run (act alive) (_create_pidlock 10) stale_file = (stale_file, Raise SystemExit)) ∧
  (¬ held_by_other alive 10 stale_file →
     if bool_decide (f_path stale_file = None) || f_removable stale_file
     then ∃ f' s, run (act alive) (_create_pidlock 10) stale_file = (f', Ok ()) ∧ files_wf f' ∧ content f' = Some s ∧ pid_of s = Some 10
     else run (act alive) (_create_pidlock 10) stale_file = (stale_file, Raise LockFailed)).
Proof. apply (pidlock_outcome alive 10); [lia|]. intros i [= <-]. simpl. lia. Defined.

Example held_exits : run (act alive) (_create_pidlock 10) held_file = (held_file, Raise SystemExit).
Proof. by vm_compute. Qed.

(** Two workers are started at the same time and no file is there.  The second sees the file of the first
    before its pid is written, takes it for broken and removes it after the first has checked it:
    both have the lock. *)
Example two_holders :
  let '(f, ps) := sys_run (act alive) (no_file, [_create_pidlock 10; _create_pidlock 20]) [0; 0; 1; 1; 0; 0; 1; 1; 1; 1]%nat in
  ps = [Done (Ok ()); Done (Ok ())] ∧ pid_of (default [] (content f)) = Some 20.
Proof. by vm_compute. Qed.

(** A process of another user ([EPERM]) runs, but its file is removed. *)
Example other_user_removed :
  let processes (pid : Z) := EPERM in
  let '(f, r) := run (act processes) (_create_pidlock 10) held_file in r = Ok () ∧ pid_of (default [] (content f)) = Some 10.
Proof. by vm_compute. Qed.

End PidfileExamples.
End Pidfile.
