(* ===== verification/ElasticStore.v ===== *)
(** How the Elasticsearch backend (celery/backends/elasticsearch.py) stores a result while other processes store
    theirs: creating the document, and updating it only if its sequence number is still the one that was read.

    The server is not part of the program.  What is used of it is stated by the class [Server]: its documented
    optimistic concurrency control for one document.  A request may fail at any time, whether or not it was
    carried out. *)

From S2P Require Import Prelude.
From S2P Require Import States.
From S2P Require Import Interleave.
Import States.

Module ElasticStore.

Section Store.
Context {V : Type}.
(** The status in a stored value, as [decode_result] finds it *)
Context (decode : V → outcome string).

Inductive request :=
| Index (v : V)                      (* create the document *)
| Get
| Update (seq : nat) (v : V).        (* if it has this sequence number *)

(** [Found] has no sequence number if the server does not send one; [Failed] is any error. *)
Inductive reply := Created | Found (seq : option nat) (v : V) | NotFound | Updated | Noop | Failed (e : exn).

Abbreviation prog := (prog request reply).

(** ** The code *)

Definition _index (v : V) : prog () :=
  Step (Index v) (λ x, match x with Failed e => Done (Raise e) | _ => Done (Ok ()) end).

Definition _update (v : V) (state : option string) : prog () :=
  let go (seq : option nat) :=
    Step (Update (default 1 seq) v) (λ x, match x with
      | Noop => Done (Raise ConflictError)
      | Failed e => Done (Raise e)
      | _ => Done (Ok ())
      end) in
  Step Get (λ x, match x with
    | Failed NotFoundError => _index v
    | Failed e => Done (Raise e)
    | Found seq old =>
        match decode old with
        | Raise TypeError | Raise KeyError => go seq
        | Raise e => Done (Raise e)
        | Diverge => Done Diverge
        | Ok status =>
            if bool_decide (status = SUCCESS) then Done (Ok ())
            else if bool_decide (status ∈ READY_STATES) && match state with Some s => bool_decide (s ∈ UNREADY_STATES) | None => false end
            then Done (Ok ())
            else go seq
        end
    | _ => _index v                    (* not [found] *)
    end).

Definition _set_with_state (v : V) (state : option string) : prog () :=
  ptry (_index v) (λ e, if bool_decide (e = ConflictError) then _update v state else Done (Raise e)) (λ _, Done (Ok ())).

Definition set (v : V) : prog () := _set_with_state v None.

(** ** The server *)

(** [doc] is the document with its sequence number, [last_seq] bounds the numbers that were given. *)
Class Server (S : Type) := {
  doc : S → option (nat * V);
  last_seq : S → nat;
  sem : request → S → S → reply → Prop;
  doc_seq s n v : doc s = Some (n, v) → (n ≤ last_seq s)%nat;
  (** A document that a request changes has a new number. *)
  sem_seq r s s' x : sem r s s' x → (last_seq s ≤ last_seq s')%nat ∧
    (doc s' = doc s ∨ doc s' = None ∨ ∃ n v, doc s' = Some (n, v) ∧ (last_seq s < n)%nat);
  sem_index v s s' x : sem (Index v) s s' x → doc s' = doc s ∨ doc s = None;
  sem_get s s' x : sem Get s s' x → doc s' = doc s;
  sem_found r s s' seq v : sem r s s' (Found seq v) → r = Get ∧ ∃ n, seq = Some n ∧ doc s = Some (n, v);
  sem_update n v s s' x : sem (Update n v) s s' x → doc s' = doc s ∨ ∃ old m, doc s = Some (n, old) ∧ doc s' = Some (m, v);
}.

Context {S : Type} `{!Server S}.

(** The document is deleted or expires. *)
Definition expire (s s' : S) : Prop := doc s' = None ∧ (last_seq s ≤ last_seq s')%nat.

(** ** What may replace what *)

Definition permits (old new : V) : Prop :=
  match decode old with
  | Ok status => status ≠ SUCCESS ∧ (status ∈ READY_STATES → ∀ status', decode new = Ok status' → status' ∉ UNREADY_STATES)
  | _ => True
  end.

(** What a program has read: documents with their numbers *)
Abbreviation knowledge := (list (nat * V)).

Definition learn (r : request) (x : reply) (K : knowledge) : knowledge :=
  match r, x with Get, Found (Some n) v => (n, v) :: K | _, _ => K end.

(** Documents come only as replies to [Get], and with a sequence number. *)
Definition possible (r : request) (x : reply) : Prop := match x with Found seq _ => r = Get ∧ is_Some seq | _ => True end.

(** Each update is of a number that was read with a document that the new one may replace. *)
Fixpoint justified (K : knowledge) {A} (p : prog A) : Prop :=
  match p with
  | Done _ => True
  | Step r k =>
      match r with Update n v => ∃ old, (n, old) ∈ K ∧ permits old v | _ => True end ∧
      ∀ x, possible r x → justified (learn r x K) (k x)
  end.

Lemma justified_index K v : justified K (_index v).
Proof using Type. split; [done|]. by intros [] _. Qed.

Section Justified.
Context (v : V) (state : option string).
Context (Hst : ∀ s, state = Some s → decode v = Ok s) (Hnone : state = None → ∀ s, decode v = Ok s → s ∉ UNREADY_STATES).

Lemma justified_update : justified [] (_update v state).
Proof using Hst Hnone.
  split; [done|]. intros x Hx. destruct x as [|seq old| | | |e]; try apply justified_index; [|destruct e; first [exact I|apply justified_index]].
  destruct Hx as [_ [n ->]]. cbn [learn].
  assert (permits old v → justified [(n, old)] (Step (Update (default 1%nat (Some n)) v) (λ x, match x with
    | Noop => Done (Raise ConflictError) | Failed e => Done (Raise e) | _ => Done (@Ok () ()) end))) as Hgo.
  { intros Hp. split; [exists old; split; [by left|done]|]. by intros [] _. }
  unfold permits in Hgo. destruct (decode old) as [status|e0|] eqn:Ed; [|destruct e0; first [exact I|by apply Hgo]|exact I].
  case_bool_decide as Hs; [exact I|]. destruct (bool_decide (status ∈ READY_STATES) && _) eqn:Er; [exact I|]. apply Hgo. split; [done|].
  intros Hr status' Hv. rewrite bool_decide_eq_true_2 in Er by done. destruct state as [s|]; [|by apply Hnone].
  simpl in Er. apply bool_decide_eq_false in Er. rewrite (Hst s eq_refl) in Hv. by simplify_eq.
Qed.

Lemma justified_set : justified [] (_set_with_state v state).
Proof using Hst Hnone.
  split; [done|]. intros x _. destruct x as [| | | | |e]; try done. cbn [ptry learn].
  case_bool_decide; [apply justified_update|done].
Qed.
End Justified.

(** A fact about the past of the document *)
Definition fact (s : S) (x : nat * V) : Prop := (x.1 ≤ last_seq s)%nat ∧ ∀ v, doc s = Some (x.1, v) → v = x.2.

Definition good {A} (s : S) (p : prog A) : Prop := ∃ K, Forall (fact s) K ∧ justified K p.

Lemma fact_stable s s' x :
  (last_seq s ≤ last_seq s')%nat → (doc s' = doc s ∨ doc s' = None ∨ ∃ n v, doc s' = Some (n, v) ∧ (last_seq s < n)%nat) →
  fact s x → fact s' x.
Proof using Type.
  intros Hle Hdoc [H1 H2]. split; [lia|]. intros v Hv. destruct Hdoc as [Hd|[Hd|(n & w & Hd & Hlt)]]; rewrite Hd in Hv; [by apply H2|done|].
  simplify_eq. lia.
Qed.

Lemma good_stable {A} s s' (p : prog A) :
  (last_seq s ≤ last_seq s')%nat → (doc s' = doc s ∨ doc s' = None ∨ ∃ n v, doc s' = Some (n, v) ∧ (last_seq s < n)%nat) →
  good s p → good s' p.
Proof using Type.
  intros Hle Hdoc (K & HK & Hj). exists K. split; [|done]. eapply Forall_impl; [exact HK|]. intros x. by apply fact_stable.
Qed.

Lemma good_after {A} s s' r (k : reply → prog A) x : good s (Step r k) → sem r s s' x → good s' (k x).
Proof using Type.
  intros (K & HK & _ & Hj) Hsem. destruct (sem_seq _ _ _ _ Hsem) as [Hle Hdoc].
  assert (Forall (fact s') K) as HK' by (eapply Forall_impl; [exact HK|]; intros y; by apply fact_stable).
  destruct r as [v| |n v].
  - exists K. split; [done|]. apply (Hj x). destruct x; try done. by destruct (sem_found _ _ _ _ _ Hsem).
  - exists (learn Get x K). split.
    + destruct x as [|seq v| | | |]; simpl; try done. destruct (sem_found _ _ _ _ _ Hsem) as (_ & n & -> & Hd). constructor; [|done].
      split; simpl; [by eapply Nat.le_trans; [eapply doc_seq|]|]. rewrite (sem_get _ _ _ Hsem), Hd. naive_solver.
    + apply Hj. destruct x as [|seq v| | | |]; simpl; try done. destruct (sem_found _ _ _ _ _ Hsem) as (_ & n & -> & _). eauto.
  - exists K. split; [done|]. apply (Hj x). destruct x; try done. by destruct (sem_found _ _ _ _ _ Hsem).
Qed.

(** C23: Results in Elasticsearch are replaced only as promised.  Any number of processes store results for one
    document, their requests interleave in any way and may fail, and the document may be deleted at any
    time.  Whenever a request puts another value in the place of one, the old one is not a success, and if it is
    of a ready state, the new one is not of an unready state. *)
Theorem es_replacements_allowed (writers : list (V * option string)) s s1 s2 (ps1 ps2 : list (prog ())) n m old new :
  Forall (λ w, (∀ st, w.2 = Some st → decode w.1 = Ok st) ∧ (w.2 = None → ∀ st, decode w.1 = Ok st → st ∉ UNREADY_STATES)) writers →
  rtc (pstep sem expire) (s, (λ w, _set_with_state w.1 w.2) <$> writers) (s1, ps1) → pstep sem expire (s1, ps1) (s2, ps2) →
  doc s1 = Some (n, old) → doc s2 = Some (m, new) → n = m ∧ old = new ∨ permits old new.
Proof using Type.
  intros Hw Hrun Hstep H1 H2.
  assert (Forall (good s1) ps1) as Hgood.
  { refine (proj2 (pstep_invariant sem expire (λ _, True) good _ _ _ _ _ _ Hrun I _)).
    - intros t t' r k x p _ Hg Hsem. split; [done|]. split; [by eapply good_after|]. destruct (sem_seq _ _ _ _ Hsem). by apply good_stable.
    - intros t t' p _ [Hd Hl]. split; [done|]. apply good_stable; auto.
    - apply Forall_fmap. eapply Forall_impl; [exact Hw|]. intros [v st] [Ha Hb]. exists []. split; [done|]. by apply justified_set. }
  inversion Hstep as [i r k t t' x ps Hi Hsem|t t' ps [Hd _]]; subst; [|congruence].
  pose proof (Forall_lookup_1 _ _ _ _ Hgood Hi) as (K & HK & Hj & _). destruct r as [v| |k' v].
  - destruct (sem_index _ _ _ _ Hsem) as [Hd|Hd]; [|congruence]. left. rewrite Hd, H1 in H2. by simplify_eq.
  - left. rewrite (sem_get _ _ _ Hsem), H1 in H2. by simplify_eq.
  - destruct (sem_update _ _ _ _ _ Hsem) as [Hd|(old' & m' & Hd1 & Hd2)]; [left; rewrite Hd, H1 in H2; by simplify_eq|].
    destruct Hj as (old2 & Hin & Hp). rewrite Forall_forall in HK. destruct (HK _ Hin) as [_ Hf]. simpl in Hf.
    rewrite H1 in Hd1. rewrite H2 in Hd2. simplify_eq. right. by rewrite (Hf _ H1).
Qed.

End Store.

(** ** A server that keeps the laws *)
Module ElasticExamples.

(** The number of the last change and the value of the document; a value is its status. *)
Definition server := (nat * option string)%type.

Definition carry_out (r : @request string) (s : server) : server * reply :=
  match r, s with
  | Index v, (c, None) => ((S c, Some v), Created)
  | Index _, (c, Some w) => (s, Failed ConflictError)
  | Get, (c, Some w) => (s, Found (Some c) w)
  | Get, (c, None) => (s, Failed NotFoundError)
  | Update n v, (c, Some w) => if bool_decide (n = c) then ((S c, Some v), Updated) else (s, Failed ConflictError)
  | Update _ _, (c, None) => (s, Failed NotFoundError)
  end.

(** A request is carried out and answered, answered with an error though it was carried out, or lost. *)
Definition serves (r : @request string) (s s' : server) (x : reply) : Prop :=
  carry_out r s = (s', x) ∨ ((carry_out r s).1 = s' ∧ x = Failed OtherExc) ∨ (s' = s ∧ x = Failed OtherExc).

Definition server_doc (s : server) : option (nat * string) := (λ v, (s.1, v)) <$> s.2.

#[global, program] Instance toy_server : @Server string server := {| doc := server_doc; last_seq := fst; sem := serves |}.
Next Obligation. intros [c [w|]] n v; simpl; intros [= <- <-]; done. Qed.
Next Obligation.
  intros r [c d] s' x H. assert (s' = (c, d) ∨ s' = (carry_out r (c, d)).1) as Hs.
  { destruct H as [->|[[<- _]|[-> _]]]; simpl; auto. }
  destruct Hs as [->| ->]; [split; [done|by left]|]. destruct r as [v| |n v], d as [w|]; simpl; try (split; [lia|by left]).
  - split; [lia|]. right. right. eexists _, _. split; [reflexivity|]. simpl. lia.
  - case_bool_decide; simpl; [|split; [lia|by left]]. split; [lia|]. right. right. eexists _, _. split; [reflexivity|]. simpl. lia.
Qed.
Next Obligation. intros v [c [w|]] s' x H; [left|by right]. destruct H as [[= <- _]|[[<- _]|[-> _]]]; done. Qed.
Next Obligation. intros [c [w|]] s' x H; destruct H as [[= <- _]|[[<- _]|[-> _]]]; done. Qed.
Next Obligation.
  intros r [c d] s' seq v [H|[[_ [=]]|[_ [=]]]]. destruct r as [u| |n u], d as [w|]; simpl in H; simplify_eq.
  - split; [done|]. by exists c.
  - by case_bool_decide.
Qed.
Next Obligation.
  intros n v [c d] s' x H. assert (s' = (c, d) ∨ s' = (carry_out (Update n v) (c, d)).1) as Hs.
  { destruct H as [->|[[<- _]|[-> _]]]; simpl; auto. }
  destruct Hs as [->| ->]; [by left|]. destruct d as [w|]; simpl; [|by left]. case_bool_decide; [|by left]. subst. right. by exists w, (S c).
Qed.

Definition wit_decode (v : string) : outcome string := Ok v.
Definition wit_writers : list (string * option string) := [(RETRY, Some RETRY); (SUCCESS, Some SUCCESS)].

(** The schedule: the first writer creates the document; the second is refused and reads it, then updates it. *)
Definition wit_at (l : list nat) : server * list (prog request reply ()) :=
  sys_run carry_out ((0%nat, None), (λ w, _set_with_state wit_decode w.1 w.2) <$> wit_writers) l.

Lemma wit_step l i s ps a k :
  wit_at l = (s, ps) → ps !! i = Some (Step a k) → pstep serves expire (wit_at l) (wit_at (l ++ [i])).
Proof.
  unfold wit_at, sys_run. intros Hl Hi. rewrite foldl_app. cbn [foldl]. rewrite Hl. unfold sys_step. cbn [fst snd]. rewrite Hi.
  destruct (carry_out a s) as [s' x] eqn:E. econstructor; [done|by left].
Qed.

Lemma es_replacements_allowed_witness :
  permits wit_decode RETRY SUCCESS ∧ (wit_at [0; 1; 1; 1]%nat).1 = (2%nat, Some SUCCESS).
Proof.
  split; [|by vm_compute].
  destruct (es_replacements_allowed wit_decode wit_writers (0%nat, None) (1%nat, Some RETRY) (2%nat, Some SUCCESS)
    (wit_at [0; 1; 1]%nat).2 (wit_at [0; 1; 1; 1]%nat).2 1 2 RETRY SUCCESS) as [[[=] _]|H]; [..|exact H].
  - repeat constructor; simpl; naive_solver.
  - apply (rtc_l _ _ (wit_at [0]%nat)); [by eapply (wit_step [] 0)|]. apply (rtc_l _ _ (wit_at [0; 1]%nat)); [by eapply (wit_step [0]%nat 1)|].
    apply rtc_once. by eapply (wit_step [0; 1]%nat 1).
  - by eapply (wit_step [0; 1; 1]%nat 1).
  - done.
  - done.
Defined.

(** The other way round the late retry changes nothing. *)
Example retry_ignored :
  let '(s, ps) := wit_at [1; 0; 0; 0]%nat in s = (1%nat, Some SUCCESS) ∧ ps = [Done (Ok ()); Done (Ok ())].
Proof. by vm_compute. Qed.

(** Both read the document before one of them writes: the second update is refused. *)
Example conflict_raised :
  let writers := [(STARTED, Some STARTED); (RETRY, Some RETRY); (SUCCESS, Some SUCCESS)] in
  let '(s, ps) := sys_run carry_out ((0%nat, None), (λ w, _set_with_state wit_decode w.1 w.2) <$> writers) [0; 1; 2; 1; 2; 2; 1]%nat in
  s = (2%nat, Some SUCCESS) ∧ ps = [Done (Ok ()); Done (Raise ConflictError); Done (Ok ())].
Proof. by vm_compute. Qed.

(** Without a state, too, a success is not replaced, and nothing is reported. *)
Example set_dropped :
  let '(s, r) := run carry_out (set wit_decode FAILURE) (1%nat, Some SUCCESS) in s = (1%nat, Some SUCCESS) ∧ r = Ok ().
Proof. by vm_compute. Qed.

End ElasticExamples.
End ElasticStore.
