(* ===== verification/Security.v ===== *)
(** Signed messages (celery/security/serialization.py, certificate.py and utils.py): how a message is packed with its
    signature, and what is checked before it is decoded.

    Bytes are characters.  Base64, the serializers of kombu and the signatures of the cryptography package are
    parameters with the laws that are used. *)

From S2P Require Import Prelude.
From S2P Require Import PyStr.
From S2P Require Import PyDict.

Module Security.

Definition nul : ascii := ascii_of_nat 0.
Definition soh : ascii := ascii_of_nat 1.
Definition DEFAULT_SEPARATOR : chars := [nul; soh].

(** Before and after the first separator *)
Fixpoint cut (l : chars) : option (chars * chars) :=
  match l with
  | [] => None
  | c :: l' =>
      match l' with
      | c2 :: l'' => if bool_decide (c = nul ∧ c2 = soh) then Some ([], l'')
                     else match cut l' with Some (a, b) => Some (c :: a, b) | None => None end
      | [] => None
      end
  end.

(** [l.split(sep, maxsplit=n)] *)
Fixpoint split_max (n : nat) (l : chars) : list chars :=
  match n with
  | O => [l]
  | S n => match cut l with Some (a, b) => a :: split_max n b | None => [l] end
  end.

Section Security.
Context {data certificate digest : Type}.
Context (b64encode : chars → chars) (b64decode : chars → outcome chars).
(** kombu's [dumps] with the serializer and [loads] with [force] *)
Context (dumps : data → outcome (chars * chars * chars)) (loads : chars → chars → chars → outcome data).

(** ** Certificates *)

Context (get_id : certificate → chars) (has_expired : certificate → bool).
(** [get_pubkey().verify(...)]: whether it raises [InvalidSignature], [OtherExc] here *)
Context (pubkey_verify : certificate → chars → chars → digest → outcome ()).

(** [with reraise_errors(msg, errors)]: without [errors] the classes to catch are given as a module, which cannot be
    caught: any exception becomes a [TypeError] *)
Definition reraise_errors {A} (errors : option (exn → bool)) (c : outcome A) : outcome A :=
  otry c (λ e, match errors with
               | Some errors => if errors e then Raise SecurityError else Raise e
               | None => Raise TypeError
               end).

Definition verify (cert : certificate) (body signature : chars) (d : digest) : outcome () :=
  if has_expired cert then Raise SecurityError
  else reraise_errors None (pubkey_verify cert body signature d).

Abbreviation store := (pydict chars certificate).

Definition store_get (s : store) (id : chars) : outcome certificate := of_option SecurityError (dict_get s id).

Definition add_cert (s : store) (cert : certificate) : outcome store :=
  if dict_in s (get_id cert) then Raise SecurityError else Ok (dict_set s (get_id cert) cert).

(** [FSCertStore]: the certificates of the files *)
Fixpoint load_store (certs : list certificate) (s : store) : outcome store :=
  match certs with
  | [] => Ok s
  | c :: certs => if has_expired c then Raise SecurityError else let! s := add_cert s c in load_store certs s
  end.

(** ** The serializer *)

Record payload := Payload { p_signer : chars; p_signature : chars; p_content_type : chars; p_content_encoding : chars; p_body : chars }.

Definition join (l : list chars) : chars :=
  match l with [] => [] | a :: l => a ++ concat ((λ x, DEFAULT_SEPARATOR ++ x) <$> l) end.

Definition _pack (body content_type content_encoding signer signature : chars) : chars :=
  b64encode (join [b64encode signer; b64encode signature; content_type; content_encoding; body]).

Definition _unpack (p : chars) : outcome payload :=
  let! raw := b64decode p in
  let v := split_max 4 raw in
  let field i := of_option IndexError (v !! i) in
  let! f0 := field 0%nat in let! signer := b64decode f0 in
  let! f1 := field 1%nat in let! signature := b64decode f1 in
  let! content_type := field 2%nat in
  let! content_encoding := field 3%nat in
  let! body := field 4%nat in
  Ok (Payload signer signature content_type content_encoding body).

Context (sign : chars → digest → outcome chars) (cert : certificate) (cert_store : store) (dg : digest).

Definition serialize (x : data) : outcome chars :=
  reraise_errors (Some is_Exception)
    (let! (content_type, content_encoding, body) := dumps x in
     let! signature := sign body dg in
     Ok (_pack body content_type content_encoding (get_id cert) signature)).

Definition deserialize (p : chars) : outcome data :=
  let! pl := reraise_errors (Some is_Exception)
    (let! pl := _unpack p in
     let! c := store_get cert_store (p_signer pl) in
     let! _ := verify c (p_body pl) (p_signature pl) dg in
     Ok pl) in
  loads (p_body pl) (p_content_type pl) (p_content_encoding pl).

(** ** Properties *)

Lemma cut_sep a r : nul ∉ a → cut (a ++ DEFAULT_SEPARATOR ++ r) = Some (a, r).
Proof using Type.
  clear. induction a as [|c a IH]; intros Ha; [done|]. apply not_elem_of_cons in Ha as [Hc Ha]. specialize (IH Ha). simpl.
  destruct (a ++ nul :: soh :: r) as [|c2 l] eqn:E; [by destruct a|]. rewrite bool_decide_eq_false_2 by (intros [? _]; congruence).
  simpl in IH. rewrite E in IH. by rewrite IH.
Qed.

Lemma split_join a b c d e :
  nul ∉ a → nul ∉ b → nul ∉ c → nul ∉ d → split_max 4 (join [a; b; c; d; e]) = [a; b; c; d; e].
Proof using Type.
  clear. intros Ha Hb Hc Hd. unfold join. cbn [fmap list_fmap concat]. rewrite app_nil_r.
  cbn [split_max]. by rewrite <- !app_assoc, !cut_sep.
Qed.

Section Laws.
Context (Hb64 : ∀ l, b64decode (b64encode l) = Ok l ∧ nul ∉ b64encode l).

Lemma unpack_pack body ct ce signer signature :
  nul ∉ ct → nul ∉ ce → _unpack (_pack body ct ce signer signature) = Ok (Payload signer signature ct ce body).
Proof using Hb64.
  intros Hct Hce. unfold _unpack, _pack. destruct (Hb64 (join [b64encode signer; b64encode signature; ct; ce; body])) as [-> _].
  cbn [obind]. rewrite split_join; [|by apply Hb64..|done|done]. simpl.
  destruct (Hb64 signer) as [-> _], (Hb64 signature) as [-> _]. done.
Qed.

(** A signed message comes back.  If the signer's certificate is in the store and has not expired, what was
    serialized is verified and decoded to what its serializer makes of it, whatever bytes the body has. *)
Theorem signed_roundtrip x ct ce body signature :
  dumps x = Ok (ct, ce, body) → sign body dg = Ok signature → nul ∉ ct → nul ∉ ce →
  dict_get cert_store (get_id cert) = Some cert → has_expired cert = false → pubkey_verify cert body signature dg = Ok () →
  ∃ p, serialize x = Ok p ∧ deserialize p = loads body ct ce.
Proof using Hb64.
  intros Hd Hs Hct Hce Hstore Hexp Hver. unfold serialize. rewrite Hd. simpl. rewrite Hs. simpl. eexists. split; [reflexivity|].
  unfold deserialize. rewrite unpack_pack by done. simpl. unfold store_get. rewrite Hstore. simpl. unfold verify. by rewrite Hexp, Hver.
Qed.

End Laws.

(** Nothing is decoded that was not signed.  If a message is decoded at all, its body was verified with a
    certificate of the store that has the name of the signer and has not expired; every other message, however
    broken, is a [SecurityError]. *)
Theorem only_signed_decoded p :
  (∀ c b s d, pubkey_verify c b s d = Ok () ∨ ∃ e, pubkey_verify c b s d = Raise e) →
  (∀ l, (∃ r, b64decode l = Ok r) ∨ ∃ e, b64decode l = Raise e ∧ is_Exception e = true) →
  deserialize p = Raise SecurityError ∨
  ∃ pl c, _unpack p = Ok pl ∧ dict_get cert_store (p_signer pl) = Some c ∧ has_expired c = false ∧
    pubkey_verify c (p_body pl) (p_signature pl) dg = Ok () ∧ deserialize p = loads (p_body pl) (p_content_type pl) (p_content_encoding pl).
Proof using Type.
  intros Hv Hb. assert ((∃ pl, _unpack p = Ok pl) ∨ ∃ e, _unpack p = Raise e ∧ is_Exception e = true) as [[pl Hpl]|(e & Hpl & He)].
  { unfold _unpack. destruct (Hb p) as [[raw ->]|(e & -> & He)]; [|simpl; eauto]. cbn [obind]. generalize (split_max 4 raw). intros v.
    destruct v as [|f0 l]; simpl; [eauto|]. destruct (Hb f0) as [[r0 ->]|(e & -> & He)]; [|simpl; eauto]. simpl.
    destruct l as [|f1 l]; simpl; [eauto|]. destruct (Hb f1) as [[r1 ->]|(e & -> & He)]; [|simpl; eauto]. simpl.
    destruct l as [|f2 [|f3 [|f4 l]]]; simpl; eauto. }
  - unfold deserialize. rewrite Hpl. simpl. unfold store_get. destruct (dict_get cert_store (p_signer pl)) as [c|] eqn:Ec; simpl; [|by left].
    unfold verify. destruct (has_expired c) eqn:Ex; [by left|]. destruct (Hv c (p_body pl) (p_signature pl) dg) as [Hok|[e Hf]].
    + right. exists pl, c. rewrite Hok. by split_and!.
    + left. by rewrite Hf.
  - left. unfold deserialize. rewrite Hpl. simpl. by rewrite He.
Qed.

End Security.

Module SecurityExamples.

(** An encoding without [nul]: two letters for a byte *)
Definition enc_char (c : ascii) : chars := let n := nat_of_ascii c in [ascii_of_nat (65 + n / 16); ascii_of_nat (65 + n mod 16)].
Definition enc (l : chars) : chars := concat (enc_char <$> l).
Fixpoint dec (l : chars) : outcome chars :=
  match l with
  | [] => Ok []
  | [_] => Raise ValueError
  | a :: b :: l => let! r := dec l in Ok (ascii_of_nat ((nat_of_ascii a - 65) * 16 + (nat_of_ascii b - 65)) :: r)
  end.

Definition dec_char (a b : ascii) : ascii := ascii_of_nat ((nat_of_ascii a - 65) * 16 + (nat_of_ascii b - 65)).

Lemma enc_char_law c : ∃ a b, enc_char c = [a; b] ∧ a ≠ nul ∧ b ≠ nul ∧ dec_char a b = c.
Proof. eexists _, _. split; [reflexivity|]. destruct c as [[] [] [] [] [] [] [] []]; by vm_compute. Qed.

Lemma enc_law l : dec (enc l) = Ok l ∧ nul ∉ enc l.
Proof.
  induction l as [|c l [IH1 IH2]]; [split; [done|apply not_elem_of_nil]|]. unfold enc in *. rewrite fmap_cons. cbn [concat].
  destruct (enc_char_law c) as (a & b & -> & Ha & Hb & Hc). cbn [app]. split.
  - cbn [dec]. rewrite IH1. cbn [obind]. by rewrite <- Hc.
  - by rewrite !not_elem_of_cons.
Qed.

(** Data are bytes with a content type, there is one certificate, and a signature is the body reversed. *)
Definition json : chars := to_chars "application/json".
Definition utf8 : chars := to_chars "utf-8".
Definition ex_dumps (x : chars * chars) : outcome (chars * chars * chars) := Ok (x.2, utf8, x.1).
Definition ex_loads (body ct ce : chars) : outcome (chars * chars) := Ok (body, ct).
Definition ex_sign (body : chars) (d : ()) : outcome chars := Ok (reverse body).
Definition ex_verify (c : nat) (body signature : chars) (d : ()) : outcome () := if bool_decide (signature = reverse body) then Ok () else Raise OtherExc.
Definition ex_id (c : nat) : chars := to_chars "CN=ca 1".
Definition ex_store : pydict chars nat := [(ex_id 0, 0%nat)].
Definition fresh (c : nat) : bool := false.
Definition ex_body : chars := to_chars "hi" ++ DEFAULT_SEPARATOR ++ to_chars "there".

Lemma signed_roundtrip_witness :
  ∃ p, serialize enc ex_dumps ex_id ex_sign 0%nat () (ex_body, json) = Ok p ∧
    deserialize dec ex_loads fresh ex_verify ex_store () p = ex_loads ex_body json utf8.
Proof.
  apply (signed_roundtrip enc dec ex_dumps ex_loads ex_id fresh ex_verify ex_sign 0%nat ex_store () enc_law (ex_body, json) json utf8 ex_body (reverse ex_body));
    try done; by apply (bool_decide_unpack _); vm_compute.
Defined.

Lemma only_signed_decoded_witness :
  let p := to_chars "AB" in
  deserialize dec ex_loads fresh ex_verify ex_store () p = Raise SecurityError ∨
  ∃ pl c, _unpack dec p = Ok pl ∧ dict_get ex_store (p_signer pl) = Some c ∧ fresh c = false ∧
    ex_verify c (p_body pl) (p_signature pl) () = Ok () ∧ deserialize dec ex_loads fresh ex_verify ex_store () p = ex_loads (p_body pl) (p_content_type pl) (p_content_encoding pl).
Proof.
  apply (only_signed_decoded dec ex_loads fresh ex_verify ex_store ()).
  - intros c b s d. unfold ex_verify. case_bool_decide; eauto.
  - assert (∀ n l, (length l ≤ n)%nat → (∃ r, dec l = Ok r) ∨ ∃ e, dec l = Raise e ∧ is_Exception e = true) as H; [|intros l; by apply (H (length l))].
    induction n as [|n IH]; intros [|a [|b l]] Hl; simpl in *; eauto; [lia|]. destruct (IH l) as [[r ->]|(e & -> & He)]; [lia|simpl; eauto..].
Defined.

(** The content type is not signed: whoever passes the message on can change it, and the body is decoded by
    another decoder. *)
Definition forged : chars :=
  _pack enc ex_body (to_chars "application/x-python-serialize") (to_chars "binary") (ex_id 0) (reverse ex_body).

Example header_unsigned :
  deserialize dec ex_loads fresh ex_verify ex_store () forged = Ok (ex_body, to_chars "application/x-python-serialize").
Proof. by vm_compute. Qed.

(** A bad signature is a [TypeError] when a certificate is asked directly. *)
Example bad_signature_type_error : verify fresh ex_verify 0%nat ex_body [] () = Raise TypeError.
Proof. by vm_compute. Qed.

End SecurityExamples.
End Security.
